(* ===== verification/_CoqProject ===== *)
-Q . S2P
Prelude.v
Text.v
Net.v
NetText.v
Octets.v
Masque.v
Sniff.v
Fragment.v
Routing.v
Error.v
Tls.v
Https.v
Dns.v
Stream.v
Upstream.v
Socks.v
SocksServer.v
Egress.v
Random.v
Noize.v
AetherNoize.v
WireGuard.v
BTree.v
Ranges.v
QuicError.v
RecvBuf.v
SendBuf.v
StreamLife.v
Wire.v
Frames.v
QuicCrypto.v
Packet.v
PktSpace.v
PacketFlow.v
Netstack.v
NetstackRuns.v
MasqueQuic.v
MasqueSession.v
VersionBait.v
Candidates.v
Prober.v
ExitLoc.v
LocalState.v
Hops.v
Runs.v
ApiCall.v
ZeroTrust.v
Identities.v
Relay.v
H2Session.v
Bridges.v
Cli.v
Tor.v
