(* ===== verification/Prelude.v ===== *)
(** * Gozarbin: a verification library for the tunnel core

    Gozarbin packages the Rust program Aether (src/aether/src) for OpenWrt
    routers.  Aether registers an identity, finds an endpoint of a provider's
    network, opens a tunnel to it (MASQUE over HTTP/3 or HTTP/2, or WireGuard),
    and serves the clients of the router through a SOCKS5 listener.  This
    library models the parts of it that decide something, and the parts of the
    QUIC library it ships (src/quiche) that its data pass through, from the
    source and executably, and proves what makes them correct.

    ** The parts and how they meet

    A client of the router speaks SOCKS5 to the local server (socks.rs).  For a
    connect request the server may read the client's first bytes for a host
    name (sniff.rs), asks the routing rules (routing.rs) about the destination
    and the name, and blocks, dials outside the tunnel (upstream.rs carries
    such connections, and the tunnel's own datagrams, through another proxy;
    egress.rs marks and races the sockets) or opens a connection inside the
    tunnel, resolving names there.  Connections inside the tunnel are sockets
    of a user-space TCP/IP stack (netstack.rs), which turns their bytes into IP
    packets and back.

    Around this the program is run: the command line (cli.rs) becomes variables
    of the environment, from which every other part takes its settings; an
    identity is loaded from its file (config.rs) or registered with the API
    (account.rs, zerotrust.rs for organizations); endpoints are searched and
    probed (prober.rs, wgprober.rs, exitloc.rs) and those that worked are
    remembered (lastconn.rs); the run loops of lib.rs open one tunnel after
    another, or one inside the other, and leave a gateway that fails.  Tor
    (tor.rs, bridges.rs) may be carried by the tunnel or carry it.

    The packets go through one of three tunnels.  Over HTTP/3 (quic.rs) they
    are QUIC datagrams of a CONNECT-IP request (masque.rs), and addresses come
    back in capsules; over HTTP/2 (masque_h2.rs) they are capsules on the
    request's stream; over WireGuard (wireguard.rs) they are the payload of
    boringtun's sessions, its messages carrying a client id.  An endpoint is
    checked by a request and packets that come back before it is used.

    Beneath the HTTP/3 tunnel is quiche: frames in packets, packets protected
    and numbered, streams cut into frames and put together again, the ranges
    of what was acknowledged.

    What an observer sees is changed on the way: fragment.rs cuts the first
    writes of a TCP stream, noize.rs and aethernoize.rs send packets that mean
    nothing before a handshake, quic.rs sends a packet of a version nobody
    speaks, and Encrypted Client Hello hides the host name: tls.rs checks the
    keys, dns.rs looks them up, https.rs fetches over HTTPS and retries.
    Errors are those of error.rs.

    ** The files

    - Prelude: outcomes ([comp]: a value, an error or a panic), slices and
      machine integers, big-endian numbers, loops with a measure, tactics.
    - Text, Net, NetText: what the program uses of the standard library's
      strings, UTF-8, numbers, IP and socket addresses and their text form.
    - Octets: quiche's octets/src/lib.rs, the read and write cursors.
    - Masque: masque.rs (datagrams, capsules, the incremental parser, the
      data-plane probe) and masque_h2.rs (the sender task as a step function,
      the delivery of received capsules).
    - Sniff: sniff.rs.  Fragment: fragment.rs, the stream as a state machine.
    - Routing: routing.rs, the rule language, the rule file, the decision.
    - Error: error.rs.
    - Tls: of tls.rs, the ECHConfigList check, the ECH key of an option, the
      key shared by sessions, trust-anchor ids, ALPN, ALPS and padding.
    - Https: https.rs, the HTTP/1.1 request and the incremental answer parser,
      the ECH retry loop, the HTTP/2 body.
    - Dns: dns.rs, resolver options, queries, replies and transports.
    - Stream: a TCP connection as a handshake sees it, a state and error monad
      with rules for what a conversation reads and writes.
    - Upstream: upstream.rs, the proxy setting, the client's handshakes, the
      UDP relay, the detours and their pump.
    - Socks, SocksServer: of socks.rs, the server's handshake, replies and UDP
      framing, the gateway proxy, the resolver inside the tunnel; the connect,
      direct and UDP handlers.
    - Egress: egress.rs, the order of addresses, the race of connections, the
      marking of sockets.
    - Random, Noize, AetherNoize: the draws, and noize.rs and aethernoize.rs,
      the settings and the packets they make.
    - WireGuard: wireguard.rs, the client id in the messages, the session loop
      over events, the obfuscation of its handshake, the endpoint check.
    - BTree: std's ordered map as a sorted list.  Ranges: quiche's ranges.rs,
      both representations behind one class.  QuicError: quiche's errors.
    - RecvBuf, SendBuf: stream/recv_buf.rs with the reassembly of
      stream/mod.rs's range buffers, stream/send_buf.rs.  StreamLife: the two
      ends of a stream together.
    - Wire, Frames: the writer of frames, and frame.rs with the payload loop.
    - QuicCrypto: the keys, the nonce and the key updates of crypto/mod.rs.
    - Packet: packet.rs, headers, packet numbers, protection.  PktSpace: the
      packet number spaces and the window of received numbers.
    - PacketFlow: a packet sent by one end of lib.rs and received by the other.
    - Netstack: netstack.rs, the stack's task as rounds over events, its
      applications as further steps.  NetstackRuns: theorems on its runs.
    - MasqueQuic: quic.rs, the tunnel loop as turns over events, the retry with
      another key, the endpoint check.  MasqueSession: theorems on sessions
      and a small instance of the QUIC interface.  VersionBait: the version
      bait and the server name of quic.rs.
    - Candidates, Prober: of prober.rs and wgprober.rs, the candidates of a
      search with their order, and the loops that choose among the probes.
      ExitLoc: exitloc.rs, the policy on the country of an exit.  LocalState:
      lastconn.rs and the tuning of sysprofile.rs.
    - Hops, Runs: of lib.rs, the endpoints named by hand and the choice of the
      two hops of a nested tunnel; the four run loops over the outcomes of
      their tunnels.
    - ApiCall, ZeroTrust, Identities: of account.rs, the calls to the API over
      their ways; zerotrust.rs, the teams, sign-ins and tokens; config.rs and,
      of lib.rs, the loading and registering of identities.
    - Relay: of socks.rs, the accept loop and the byte relays as step functions
      over events.  H2Session: of masque_h2.rs, the handshake, the session loop
      as turns over events and the check of an endpoint.
    - Bridges, Tor: bridges.rs, the lines, plans, probing and waves of bridges;
      tor.rs, its settings and the stages of attempts to bring Tor up.
    - Cli: cli.rs, the options, the environment they make and the help text.

    Operations keep the names of the source.  A struct is a record with its
    fields, an enum an inductive type; a method takes the state and returns
    it; a loop is [loop] over a step function with a measure, or a structural
    recursion over what it consumes; a task that reacts to events is a step
    function run over a list of events; a handler whose doings matter returns
    the list of its effects.  A Rust [Result] or [Option] in a function that
    indexes or slices is a [comp], so that the absence of panics is proved.

    ** What the theorems show

    - The tunnels: the capsule parser gives what was sent however the stream is
      cut, skips what does not parse, never grows past its bound and never
      panics; the HTTP/2 sender keeps packets in order in every reachable
      state and loses only the frame whose send fails; packets sent arrive once
      and in order over HTTP/2, over HTTP/3 (each datagram reads back as its
      packet) and over WireGuard (a refinement of the session by boringtun's).
      The HTTP/3 session with a key connects with it, or once more with the key
      the server handed back, sends its request only over a handshake made with
      the key, and reports readiness once and after data came back; an endpoint
      is accepted only after its request and its packets came through.
    - The stack in the tunnel: uploads reach their socket in order and whole
      while the connection is there; an open call is answered at most once, and
      by its deadline; pending data are bounded and nothing makes it panic.
    - QUIC: what a stream writes is what the other end reads, under any loss,
      reordering and repetition; a packet protected by one end is opened by the
      other as the same frames, at most once; numbers are used once; the window
      of received numbers takes for received exactly what was inserted and what
      is below its reach; frames round trip and are typed by the packet they
      come in; both ends have the same keys after any updates; range sets are
      sets.
    - Sniffing and fragmentation: the server name of every well-formed
      ClientHello is found, and a name found is a host name; the fragmenting
      stream delivers the data unchanged, splits inside the host name and
      makes progress.  The version bait is a well-formed Initial.
    - Routing: a block rule wins, the rules of the environment and of the file
      are those in force, private addresses are the listed blocks.
    - HTTPS, TLS, DNS: an answer reads the same in any pieces, but that a line
      that is too long may be refused before its end is there; chunked bodies
      decode; with ECH asked for nothing is sent in the clear and a key or an
      error results; the key list check is exact; the key lives as long as the
      sessions that need it; a lookup finds the key past datagrams that do not
      answer its question, a reply is matched exactly, no reply makes the
      parsers panic.
    - Proxies and sockets: the two ends of SOCKS5 agree byte for byte; the
      setting survives being printed; a detour lasts as long as its guard and
      its pump serves its socket alone; a request goes only where the rules on
      the announced name, else on the destination, let it and is answered once;
      an association serves one client; the tunnel's
      resolver settles a name by the first server that answers; a race of
      addresses succeeds when one of them does.
    - The search: every known gateway is among the candidates, none twice, and
      of each range as many hosts as the mode asks for; what is avoided is never
      chosen; the search is over at the first round that ends it, and the
      fastest of all the answers received until then wins; the exit policy lets
      through what it names; the endpoints kept are the latest that worked; the
      tuning stays within its bounds.
    - The runs: a gateway is left exactly after two short tunnels in a row and
      then rests for its time; the hops of a nested tunnel are at different
      addresses and those named by hand are used.
    - Accounts: a call to the API ends as its last reply says after at most five
      requests, none follows one that settled it, a way that was turned away is
      not asked again, and an identity is refused only by the API itself; a
      token handed out was held or just obtained and is not expired; a new
      identity is enabled before it is kept and one of a file is the file's,
      files are written whole, an
      identity saved is loaded again, and the files of different identities
      are apart.
    - Relays and HTTP/2: a relay is transparent in both directions, and a side
      sees the end of the data early only where the other stopped taking them or
      the relay as a whole is over; its timer ends it exactly when the linger
      time passed without a whole chunk, and it counts what it moved; a listener
      serves no more clients than its limit.  An HTTP/2 session with a key is
      never made in the clear, is ready once and after data, notices stalls and
      a missing validation, and a check passes after two datagrams.
    - Bridges and Tor: probing never loses the last bridges of a kind, a plan
      holds the bridges that can be served, the waves cover it; in every attempt
      Tor dials where it must, pluggable transports, which dial for themselves,
      are started only for bridges, and these are used only as the settings
      allow, fetched ones after an attempt without; the attempts end, and are
      dropped at the first check that finds them stalled; bridges given on the
      command line are those used.
    - The command line: a line of options does what the rows of the help text
      say of them and changes no other variable; the accepted lines are those
      made of options with their values; a flag beats a variable but where
      values add up; the help text and the options agree in both directions, and
      so do its variables.
    - Some theorems state defects of the code as it is: a capsule length cut to
      32 bits, a bare IPv6 rule dropped, a trailing dot that cannot be looked
      up, a blocked address that is dialled for a name to go direct, a second
      SOCKS reply after a sniffed failure, a range set of capacity
      zero that panics, the range that goes when a set is full, a window shift
      cut to 32 bits, the end of a download and of an upload lost when the far
      end closes first, an exit without a country that passes every deny list,
      the missing warning on a small IPv6 link, a query parameter hidden by one
      without a value, a gool identity listed as a team, a refused identity
      replaced by --register, a slow client cut off by the linger timer,
      bridges of a file used although bridges are off, a word of the
      environment taken for a bridge.

    ** Bounds, widths and fuel

    Bytes and integers are [Z]; casts and checked additions are written out,
    and [usize] is 32 or 64 bits wide ([arch]), since the program is built for
    32-bit routers too.  [loop] takes its fuel from a measure of the state and
    a [Decreasing] instance shows that every round lowers it, so the fuel never
    runs out; [strip_all], [decimal] and the UTF-8 decoders take a fuel that
    lemmas show to be enough for any input.  Endless tasks (the tunnel loops,
    the stack) run over a finite list of events, of any length.

    ** What is a parameter, and what is left out

    Third-party crates and the system are parameters, as type classes whose
    laws are named: ipnet, regex, base64, reqwest's URL parser, Unicode case
    mapping beyond ASCII, the Debug form of strings, BoringSSL's AEAD, HKDF and
    handshake, boringtun's tunnel, smoltcp's sockets and interface, toml and
    serde_json, the names of HTTP statuses, the disk, the API, what arti makes
    of an attempt, and for quic.rs the quiche connection with its queues.
    Paths are those of Unix.  Random draws, environment
    variables, files, dialled connections, name lookups, clocks and arrivals of
    datagrams are arguments.  Log lines, timers and the scheduling of tasks are
    left out: where a timeout decides, its outcome is an argument, and where
    tasks interleave, the order of the events is any.  Flow labels and scopes
    of IPv6 addresses are not kept.

    Not modelled: of quiche, congestion control and loss recovery, connection
    ids, paths, flow control of the connection, HTTP/3 and QPACK; the Psiphon
    carrier, whose work is done by an external program; of tor.rs the serving
    of its proxy and of bridges.rs the search for transport programs; of lib.rs
    the prompts, the listeners and forwarders and the start of the carriers,
    which are input, output and wiring; the ping through a tunnel
    (tunnelping.rs) and the counters (stats.rs); the C interface (ffi.rs,
    api.rs), and the OpenWrt scripts and pages.
    Next in line: HTTP/3 frames and QPACK, the datagram queue and the stream
    map of quiche, the configuration of psiphon.rs. *)

From Stdlib Require Export ZArith Lia Bool.
From stdpp Require Export base tactics option decidable numbers sets list.

#[export] Set Default Goal Selector "!".
Global Open Scope Z_scope.
Global Open Scope bool_scope.

(** ** Outcomes

    A Rust function that can fail returns [Result<T, E>] or [Option<T>], and
    any function can panic (an index out of range, [unreachable!()]).  An
    outcome keeps the three apart, so that "this never panics" is a theorem
    and not an assumption. *)
Inductive comp (E A : Type) : Type :=
| Ok (a : A)
| Err (e : E)
| Panic.
Arguments Ok {E A} a.
Arguments Err {E A} e.
Arguments Panic {E A}.

#[export] Instance comp_ret {E} : MRet (comp E) := fun A a => Ok a.
#[export] Instance comp_bind {E} : MBind (comp E) := fun A B f m =>
  match m with Ok a => f a | Err e => Err e | Panic => Panic end.
#[export] Instance comp_fmap {E} : FMap (comp E) := fun A B f m =>
  match m with Ok a => Ok (f a) | Err e => Err e | Panic => Panic end.

(** [m.map_err(f)]. *)
Definition map_err {E F A} (f : E → F) (m : comp E A) : comp F A :=
  match m with Ok a => Ok a | Err e => Err (f e) | Panic => Panic end.

(** [o.ok_or(e)], and [?] on an [Option] inside a function that may panic. *)
Definition ok_or {E A} (o : option A) (e : E) : comp E A :=
  match o with Some a => Ok a | None => Err e end.

(** An index expression: out of range it panics. *)
Definition or_panic {E A} (o : option A) : comp E A :=
  match o with Some a => Ok a | None => Panic end.

(** The function returned a value or an error: it did not panic. *)
Definition no_panic {E A} (m : comp E A) : Prop := m ≠ Panic.

#[export] Instance comp_eq_dec {E A} `{EqDecision E, EqDecision A} :
  EqDecision (comp E A).
Proof. solve_decision. Defined.

Create HintDb rust discriminated.

Lemma no_panic_ok {E A} (a : A) : no_panic (Ok a : comp E A).
Proof. done. Qed.

Lemma no_panic_err {E A} (e : E) : no_panic (Err e : comp E A).
Proof. done. Qed.

Lemma no_panic_ok_or {E A} (o : option A) (e : E) : no_panic (ok_or o e).
Proof. by destruct o. Qed.

Lemma no_panic_bind {E A B} (m : comp E A) (f : A → comp E B) :
  no_panic m → (∀ a, m = Ok a → no_panic (f a)) → no_panic (m ≫= f).
Proof. intros Hm Hf. destruct m; cbn; [by apply Hf | done..]. Qed.

Lemma no_panic_map_err {E F A} (f : E → F) (m : comp E A) :
  no_panic m → no_panic (map_err f m).
Proof. by destruct m. Qed.

#[export] Hint Resolve no_panic_ok no_panic_err no_panic_ok_or
  no_panic_map_err : rust.

(** ** Machine integers and the width of [usize] *)

(** The program is built for 64-bit hosts and for 32-bit routers
    (scripts/build-router-armv7.sh), so the width of [usize] is a parameter
    of the operations that depend on it. *)
Inductive arch := W32 | W64.
Existing Class arch.

Definition usize_bits (w : arch) : Z := match w with W32 => 32 | W64 => 64 end.
Definition usize_max (w : arch) : Z := 2 ^ usize_bits w - 1.

(** [a.checked_add(b)] on usize. *)
Definition checked_add `{w : arch} (a b : Z) : option Z :=
  if a + b <=? usize_max w then Some (a + b) else None.

(** [v as usize], [v as u8], [v as u16], [v as u32]: truncating casts. *)
Definition as_usize `{w : arch} (v : Z) : Z := v mod 2 ^ usize_bits w.
Definition as_u8 (v : Z) : Z := v mod 2 ^ 8.
Definition as_u16 (v : Z) : Z := v mod 2 ^ 16.
Definition as_u32 (v : Z) : Z := v mod 2 ^ 32.

(** [a.saturating_sub(b)] on an unsigned type. *)
Definition saturating_sub (a b : Z) : Z := Z.max 0 (a - b).

(** [a - b] on unsigned integers: a difference below zero panics. *)
Definition usub {E} (a b : Z) : comp E Z := if b <=? a then Ok (a - b) else Panic.

Lemma usub_ok {E} a b : b ≤ a → usub a b = (Ok (a - b) : comp E Z).
Proof. intros. unfold usub. destruct (Z.leb_spec b a); [done|lia]. Qed.

Definition u8 (b : Z) : Prop := 0 ≤ b < 256.
Definition u16 (b : Z) : Prop := 0 ≤ b < 65536.
Definition u64 (b : Z) : Prop := 0 ≤ b < 2 ^ 64.
Definition bytes_ok (l : list Z) : Prop := Forall u8 l.

#[export] Instance u8_dec b : Decision (u8 b).
Proof. unfold u8. apply _. Defined.
#[export] Instance u16_dec b : Decision (u16 b).
Proof. unfold u16. apply _. Defined.
#[export] Instance bytes_ok_dec l : Decision (bytes_ok l).
Proof. unfold bytes_ok. apply _. Defined.

Abbreviation bytes := (list Z) (only parsing).

(** ** Slices

    Lengths and offsets are integers, as [usize] values are; a slice is read
    through [get], which is [None] out of range, as [<[T]>::get] is. *)
Definition blen {A} (l : list A) : Z := Z.of_nat (length l).

Definition get {A} (l : list A) (i : Z) : option A :=
  if i <? 0 then None else l !! Z.to_nat i.

(** [l.get(a..e)]: [None] unless [a <= e <= l.len()]. *)
Definition slice {A} (l : list A) (a e : Z) : option (list A) :=
  if (0 <=? a) && (a <=? e) && (e <=? blen l)
  then Some (take (Z.to_nat (e - a)) (drop (Z.to_nat a) l))
  else None.

Definition takez {A} (n : Z) (l : list A) : list A := take (Z.to_nat n) l.
Definition dropz {A} (n : Z) (l : list A) : list A := drop (Z.to_nat n) l.

(** [l.is_empty()]. *)
Definition is_empty {A} (l : list A) : bool :=
  match l with [] => true | _ => false end.

(** [l[i] ] and [l[a..e] ]. *)
Definition index {E A} (l : list A) (i : Z) : comp E A := or_panic (get l i).
Definition index_range {E A} (l : list A) (a e : Z) : comp E (list A) :=
  or_panic (slice l a e).

Fixpoint list_eqb (a b : list Z) : bool :=
  match a, b with
  | [], [] => true
  | x :: a, y :: b => (x =? y) && list_eqb a b
  | _, _ => false
  end.

Lemma list_eqb_eq a b : list_eqb a b = true ↔ a = b.
Proof.
  revert b. induction a as [|x a IH]; intros [|y b]; cbn; try done.
  rewrite andb_true_iff, Z.eqb_eq, IH. naive_solver.
Qed.

Lemma list_eqb_refl a : list_eqb a a = true.
Proof. by apply list_eqb_eq. Qed.

Lemma blen_nonneg {A} (l : list A) : 0 ≤ blen l.
Proof. unfold blen. lia. Qed.

Lemma blen_nil {A} : blen (@nil A) = 0.
Proof. done. Qed.

Lemma blen_cons {A} (x : A) l : blen (x :: l) = 1 + blen l.
Proof. unfold blen. cbn [length]. lia. Qed.

Lemma blen_app {A} (a b : list A) : blen (a ++ b) = blen a + blen b.
Proof. unfold blen. rewrite length_app. lia. Qed.

Lemma blen_map {A B} (f : A → B) l : blen (map f l) = blen l.
Proof. unfold blen. by rewrite length_map. Qed.

Lemma blen_replicate {A} n (x : A) : blen (replicate n x) = Z.of_nat n.
Proof. unfold blen. by rewrite length_replicate. Qed.

Lemma blen_takez' {A} n (l : list A) : blen (takez n l) = Z.min (Z.max 0 n) (blen l).
Proof. unfold takez, blen. rewrite length_take. lia. Qed.

Lemma blen_dropz' {A} n (l : list A) : blen (dropz n l) = Z.max 0 (blen l - Z.max 0 n).
Proof. unfold dropz, blen. rewrite length_drop. lia. Qed.

Create Rewrite HintDb blen.
#[export] Hint Rewrite @blen_nil @blen_cons @blen_app @blen_map @blen_replicate
  @blen_takez' @blen_dropz' : blen.

(** Solve a goal about lengths: normalise [blen], then linear arithmetic. *)
Ltac blen_norm :=
  autorewrite with blen in *.
Ltac blen_pos :=
  repeat match goal with
  | |- context [blen ?l] =>
      lazymatch goal with H : 0 ≤ blen l |- _ => fail | _ => pose proof (blen_nonneg l) end
  | _ : context [blen ?l] |- _ =>
      lazymatch goal with H : 0 ≤ blen l |- _ => fail | _ => pose proof (blen_nonneg l) end
  end.
Ltac blia := blen_norm; blen_pos; lia.

Lemma is_empty_spec {A} (l : list A) : is_empty l = (blen l =? 0).
Proof. destruct l; [done|]. cbn. symmetry. apply Z.eqb_neq. blia. Qed.

Lemma get_range {A} (l : list A) i x : get l i = Some x → 0 ≤ i < blen l.
Proof.
  unfold get, blen. destruct (Z.ltb_spec i 0); [done|].
  intros Hx%lookup_lt_Some. lia.
Qed.

Lemma get_is_Some {A} (l : list A) i : 0 ≤ i < blen l → ∃ x, get l i = Some x.
Proof.
  unfold get, blen. intros Hi. destruct (Z.ltb_spec i 0); [lia|].
  destruct (lookup_lt_is_Some_2 l (Z.to_nat i)) as [x Hx]; [lia|eauto].
Qed.

Lemma get_elem {A} (l : list A) i x : get l i = Some x → x ∈ l.
Proof.
  unfold get. destruct (i <? 0); [done|].
  intros. apply list_elem_of_lookup. eauto.
Qed.

Lemma get_ok l i b : bytes_ok l → get l i = Some b → u8 b.
Proof. intros Hl Hb%get_elem. by eapply Forall_forall in Hb. Qed.

(** [suffix_at l i r]: from offset [i] on, [l] reads [r].  Facts about a
    parser on a well-formed message are stated with it: the offset arithmetic
    of the code becomes list structure. *)
Definition suffix_at {A} (l : list A) (i : Z) (r : list A) : Prop :=
  ∃ p, l = p ++ r ∧ i = blen p.

Section suffix_at.
Context {A : Type}.
Implicit Types (l r s : list A).

Lemma suffix_at_0 l : suffix_at l 0 l.
Proof. by exists []. Qed.

Lemma suffix_at_get l i x r : suffix_at l i (x :: r) → get l i = Some x.
Proof.
  intros (p & -> & ->). unfold get, blen.
  destruct (Z.ltb_spec (Z.of_nat (length p)) 0); [lia|].
  rewrite Nat2Z.id. by apply list_lookup_middle.
Qed.

Lemma suffix_at_app l i s r : suffix_at l i (s ++ r) → suffix_at l (i + blen s) r.
Proof.
  intros (p & -> & ->). exists (p ++ s). split; [by rewrite <- app_assoc|blia].
Qed.

Lemma suffix_at_app' l i j s r :
  suffix_at l i (s ++ r) → j = i + blen s → suffix_at l j r.
Proof. intros H ->. by apply suffix_at_app. Qed.

Lemma suffix_at_cons l i x r : suffix_at l i (x :: r) → suffix_at l (i + 1) r.
Proof. intros H. by apply (suffix_at_app l i [x] r). Qed.

Lemma suffix_at_slice l i s r e :
  suffix_at l i (s ++ r) → e = i + blen s → slice l i e = Some s.
Proof.
  intros (p & -> & ->) ->. unfold slice.
  replace (_ && _ && _) with true
    by (symmetry; rewrite !andb_true_iff, !Z.leb_le; repeat split; blia).
  f_equal. unfold blen.
  replace (Z.to_nat (Z.of_nat (length p))) with (length p) by lia.
  rewrite drop_app_length.
  replace (Z.to_nat (Z.of_nat (length p) + Z.of_nat (length s) - Z.of_nat (length p)))
    with (length s) by lia.
  apply take_app_length.
Qed.

Lemma suffix_at_len l i r : suffix_at l i r → blen l = i + blen r.
Proof. intros (p & -> & ->). blia. Qed.

Lemma suffix_at_nonneg l i r : suffix_at l i r → 0 ≤ i.
Proof. intros (p & -> & ->). blia. Qed.

Lemma suffix_at_drop l i : 0 ≤ i ≤ blen l → suffix_at l i (dropz i l).
Proof.
  intros Hi. exists (takez i l). unfold takez, dropz, blen in *.
  rewrite take_drop. split; [done|]. rewrite length_take. lia.
Qed.

Lemma suffix_at_det l i r r' : suffix_at l i r → suffix_at l i r' → r = r'.
Proof.
  intros (p & -> & ->) (q & E & Hl). apply app_inj_1 in E; [naive_solver|].
  unfold blen in Hl. lia.
Qed.

Lemma suffix_at_app_r l i r t : suffix_at l i r → suffix_at (l ++ t) i (r ++ t).
Proof. intros (p & -> & ->). exists p. by rewrite app_assoc. Qed.
End suffix_at.

#[export] Hint Resolve suffix_at_0 suffix_at_cons suffix_at_app : rust.

Section slices.
Context {A : Type}.
Implicit Types (l s : list A).

Lemma slice_Some l a e s :
  slice l a e = Some s →
  0 ≤ a ≤ e ∧ e ≤ blen l ∧ blen s = e - a ∧
  ∃ r, suffix_at l a (s ++ r).
Proof.
  unfold slice. destruct (_ && _ && _) eqn:E; [|done].
  rewrite !andb_true_iff, !Z.leb_le in E. intros [= <-].
  split_and!; [lia|lia|lia| |].
  - unfold blen in *. rewrite length_take, length_drop. lia.
  - exists (dropz (e - a) (dropz a l)). unfold dropz at 1.
    rewrite take_drop. apply suffix_at_drop. lia.
Qed.

Lemma slice_in_range l a e :
  0 ≤ a ≤ e → e ≤ blen l → ∃ s, slice l a e = Some s ∧ blen s = e - a.
Proof.
  intros H1 H2. unfold slice.
  replace (_ && _ && _) with true
    by (symmetry; rewrite !andb_true_iff, !Z.leb_le; lia).
  eexists. split; [done|]. unfold blen in *.
  rewrite length_take, length_drop. lia.
Qed.

Lemma slice_None l a e : e < a ∨ blen l < e → slice l a e = None.
Proof.
  intros H. unfold slice.
  replace (_ && _ && _) with false; [done|].
  symmetry. rewrite !andb_false_iff, !Z.leb_gt. lia.
Qed.

Lemma slice_suffix l a : 0 ≤ a ≤ blen l → slice l a (blen l) = Some (dropz a l).
Proof.
  intros H. apply (suffix_at_slice l a (dropz a l) []).
  - rewrite app_nil_r. by apply suffix_at_drop.
  - pose proof (suffix_at_len _ _ _ (suffix_at_drop l a H)). lia.
Qed.

Lemma slice_prefix l e : 0 ≤ e ≤ blen l → slice l 0 e = Some (takez e l).
Proof.
  intros H. unfold slice, takez.
  replace (_ && _ && _) with true
    by (symmetry; rewrite !andb_true_iff, !Z.leb_le; lia).
  by rewrite Z.sub_0_r.
Qed.
End slices.

Lemma slice_ok l a e s : bytes_ok l → slice l a e = Some s → bytes_ok s.
Proof.
  unfold slice. destruct (_ && _ && _); [|done].
  intros Hl [= <-]. by apply Forall_take, Forall_drop.
Qed.

Lemma blen_takez {A} n (l : list A) : 0 ≤ n ≤ blen l → blen (takez n l) = n.
Proof. unfold takez, blen. rewrite length_take. lia. Qed.

Lemma blen_dropz {A} n (l : list A) : 0 ≤ n ≤ blen l → blen (dropz n l) = blen l - n.
Proof. unfold dropz, blen. rewrite length_drop. lia. Qed.

Lemma takez_dropz {A} n (l : list A) : takez n l ++ dropz n l = l.
Proof. apply take_drop. Qed.

Lemma bytes_ok_takez n l : bytes_ok l → bytes_ok (takez n l).
Proof. apply Forall_take. Qed.

Lemma bytes_ok_dropz n l : bytes_ok l → bytes_ok (dropz n l).
Proof. apply Forall_drop. Qed.

Lemma takez_app {A} (a b : list A) : takez (blen a) (a ++ b) = a.
Proof. unfold takez, blen. rewrite Nat2Z.id. apply take_app_length. Qed.

Lemma dropz_app {A} (a b : list A) : dropz (blen a) (a ++ b) = b.
Proof. unfold dropz, blen. rewrite Nat2Z.id. apply drop_app_length. Qed.

Lemma takez_all {A} n (l : list A) : blen l ≤ n → takez n l = l.
Proof. unfold takez, blen. intros. apply take_ge. lia. Qed.

Lemma dropz_dropz {A} a b (l : list A) : 0 ≤ a → 0 ≤ b → dropz a (dropz b l) = dropz (b + a) l.
Proof. intros. unfold dropz. rewrite drop_drop. f_equal. lia. Qed.

Lemma dropz_takez {A} a n (l : list A) : 0 ≤ a ≤ n → dropz a (takez n l) = takez (n - a) (dropz a l).
Proof.
  intros. unfold dropz, takez. rewrite take_drop_commute. do 2 f_equal. lia.
Qed.

Lemma takez_takez {A} a n (l : list A) : a ≤ n → takez a (takez n l) = takez a l.
Proof. intros. unfold takez. rewrite take_take. f_equal. lia. Qed.

Lemma takez_app_dropz {A} a b (l : list A) : 0 ≤ a → 0 ≤ b → takez a l ++ takez b (dropz a l) = takez (a + b) l.
Proof.
  intros. unfold takez, dropz. rewrite Z2Nat.inj_add by done. by rewrite take_take_drop.
Qed.

(** ** Big-endian integers *)

(** [v.to_be_bytes()] of an [n]-byte integer, and [from_be_bytes]. *)
Fixpoint be_bytes (n : nat) (v : Z) : bytes :=
  match n with
  | O => []
  | S m => Z.land (Z.shiftr v (8 * Z.of_nat m)) 255 :: be_bytes m v
  end.

Definition be_val (l : bytes) : Z := fold_left (λ acc b, acc * 256 + b) l 0.

Lemma be_bytes_length n v : length (be_bytes n v) = n.
Proof. induction n; cbn; auto. Qed.

Lemma blen_be_bytes n v : blen (be_bytes n v) = Z.of_nat n.
Proof. unfold blen. by rewrite be_bytes_length. Qed.

Lemma land_255 v : Z.land v 255 = v mod 256.
Proof. apply (Z.land_ones v 8). lia. Qed.

Lemma be_bytes_ok n v : bytes_ok (be_bytes n v).
Proof.
  induction n as [|n IH]; cbn; constructor; [|done].
  rewrite land_255. unfold u8. pose proof (Z.mod_pos_bound (Z.shiftr v (8 * Z.of_nat n)) 256). lia.
Qed.

Lemma be_val_acc l a : fold_left (λ acc b, acc * 256 + b) l a = a * 256 ^ blen l + be_val l.
Proof.
  unfold be_val. revert a. induction l as [|b l IH]; intros a; cbn [fold_left].
  - rewrite blen_nil. lia.
  - rewrite IH, (IH (0 * 256 + b)), blen_cons.
    rewrite Z.pow_add_r by blia. lia.
Qed.

Lemma be_val_cons b l : be_val (b :: l) = b * 256 ^ blen l + be_val l.
Proof. unfold be_val at 1. cbn [fold_left]. rewrite be_val_acc. lia. Qed.

Lemma be_val_be_bytes n v : be_val (be_bytes n v) = v mod 256 ^ Z.of_nat n.
Proof.
  induction n as [|n IH]; [cbn; by rewrite Z.mod_1_r|].
  cbn [be_bytes]. rewrite be_val_cons, IH, blen_be_bytes, land_255.
  rewrite Z.shiftr_div_pow2 by lia.
  replace (2 ^ (8 * Z.of_nat n)) with (256 ^ Z.of_nat n)
    by (rewrite Z.pow_mul_r by lia; done).
  replace (Z.of_nat (S n)) with (Z.of_nat n + 1) by lia.
  rewrite Z.pow_add_r, Z.pow_1_r by lia.
  rewrite (Z.rem_mul_r v (256 ^ Z.of_nat n) 256) by lia. lia.
Qed.

Lemma be_val_small n v : 0 ≤ v < 256 ^ Z.of_nat n → be_val (be_bytes n v) = v.
Proof. intros. rewrite be_val_be_bytes. by apply Z.mod_small. Qed.

Lemma be_val_bound l : bytes_ok l → 0 ≤ be_val l < 256 ^ blen l.
Proof.
  induction 1 as [|b l Hb Hl IH]; [done|].
  rewrite be_val_cons, blen_cons, Z.pow_add_r by blia. unfold u8 in Hb. nia.
Qed.

Lemma be_bytes_add_high m k b v :
  (m ≤ k)%nat → be_bytes m (b * 256 ^ Z.of_nat k + v) = be_bytes m v.
Proof.
  induction m as [|m IH]; intros Hm; [done|]. cbn [be_bytes].
  rewrite IH by lia. f_equal. rewrite !land_255, !Z.shiftr_div_pow2 by lia.
  replace (2 ^ (8 * Z.of_nat m)) with (256 ^ Z.of_nat m)
    by (rewrite Z.pow_mul_r by lia; done).
  replace (Z.of_nat k) with (Z.of_nat m + (1 + (Z.of_nat k - Z.of_nat m - 1))) by lia.
  rewrite !Z.pow_add_r, Z.pow_1_r by lia.
  replace (b * (256 ^ Z.of_nat m * (256 * 256 ^ (Z.of_nat k - Z.of_nat m - 1))) + v)
    with (v + (b * 256 ^ (Z.of_nat k - Z.of_nat m - 1)) * 256 * 256 ^ Z.of_nat m) by lia.
  rewrite Z.div_add by lia. by rewrite Z.mod_add.
Qed.

Lemma be_bytes_be_val l : bytes_ok l → be_bytes (length l) (be_val l) = l.
Proof.
  induction 1 as [|b l Hb Hl IH]; [done|]. cbn [length be_bytes].
  pose proof (be_val_bound l Hl) as Hv. rewrite be_val_cons. unfold blen in *.
  rewrite be_bytes_add_high, IH by lia. f_equal.
  rewrite land_255, Z.shiftr_div_pow2 by lia.
  replace (2 ^ (8 * Z.of_nat (length l))) with (256 ^ Z.of_nat (length l))
    by (rewrite Z.pow_mul_r by lia; done).
  rewrite Z.div_add_l, Z.div_small, Z.add_0_r by lia.
  apply Z.mod_small. unfold u8 in Hb. lia.
Qed.

(** ** Loops

    A loop of the code is a step function: [Next s] goes round again, [Done r]
    leaves the loop.  [loop m step d] runs it with fuel taken from the measure
    [m]; when every round decreases the measure the fuel is enough, the
    default [d] is never returned ([loop_default]) and the loop satisfies its
    unfolding equation ([loop_unfold]). *)
Inductive round (S R : Type) : Type :=
| Next (s : S)
| Done (r : R).
Arguments Next {S R} s.
Arguments Done {S R} r.

Fixpoint iterate {S R} (fuel : nat) (step : S → round S R) (d : R) (s : S) : R :=
  match fuel with
  | O => d
  | Datatypes.S n =>
      match step s with Done r => r | Next s' => iterate n step d s' end
  end.

Definition loop {S R} (m : S → nat) (step : S → round S R) (d : R) (s : S) : R :=
  iterate (Datatypes.S (m s)) step d s.

(** On states that satisfy [I], a round keeps [I] and decreases the measure. *)
Class DecreasingOn {S R} (I : S → Prop) (m : S → nat) (step : S → round S R) : Prop :=
  decreases_on s s' : I s → step s = Next s' → I s' ∧ (m s' < m s)%nat.

Class Decreasing {S R} (m : S → nat) (step : S → round S R) : Prop :=
  decreases s s' : step s = Next s' → (m s' < m s)%nat.

#[export] Instance decreasing_on {S R} (m : S → nat) (step : S → round S R)
  `{!Decreasing m step} : DecreasingOn (λ _, True) m step.
Proof. intros s s' _ E. split; [done|]. by apply decreases. Qed.

Section loop_on.
Context {S R : Type} (I : S → Prop) (m : S → nat) (step : S → round S R).
Context `{!DecreasingOn I m step}.

Lemma iterate_enough n1 n2 d1 d2 s :
  I s → (m s < n1)%nat → (m s < n2)%nat →
  iterate n1 step d1 s = iterate n2 step d2 s.
Proof.
  revert n2 s. induction n1 as [|n1 IH]; intros [|n2] s Hs H1 H2; try lia. cbn.
  destruct (step s) as [s'|r] eqn:E; [|done].
  apply decreases_on in E as [? ?]; [|done]. apply IH; [done|lia..].
Qed.

(** Termination: the answer does not depend on the out-of-fuel default. *)
Lemma loop_default_on d d' s : I s → loop m step d s = loop m step d' s.
Proof. intros. apply iterate_enough; [done|lia..]. Qed.

Lemma loop_unfold_on d s :
  I s →
  loop m step d s =
    match step s with Done r => r | Next s' => loop m step d s' end.
Proof.
  intros Hs. unfold loop at 1. cbn [iterate].
  destruct (step s) as [s'|r] eqn:E; [|done].
  apply decreases_on in E as [? ?]; [|done]. apply iterate_enough; [done|lia..].
Qed.

(** Induction over the rounds of the loop: [P] holds of the state it starts
    in and the answer it gives. *)
Lemma loop_ind_on (P : S → R → Prop) d :
  (∀ s r, I s → step s = Done r → P s r) →
  (∀ s s' r, I s → step s = Next s' → P s' r → P s r) →
  ∀ s, I s → P s (loop m step d s).
Proof.
  intros Hd Hn s.
  induction s as [s IH] using (well_founded_induction (well_founded_ltof S m)). intros Hs.
  rewrite loop_unfold_on by done. destruct (step s) as [s'|r] eqn:E; [|eauto].
  pose proof (decreases_on _ _ Hs E) as [? ?]. eapply Hn; [done..|]. by apply IH.
Qed.
End loop_on.

Section loop.
Context {S R : Type} (m : S → nat) (step : S → round S R).
Context `{!Decreasing m step}.

Lemma loop_default d d' s : loop m step d s = loop m step d' s.
Proof. exact (loop_default_on (λ _, True) m step d d' s Logic.I). Qed.

Lemma loop_unfold d s :
  loop m step d s =
    match step s with Done r => r | Next s' => loop m step d s' end.
Proof. exact (loop_unfold_on (λ _, True) m step d s Logic.I). Qed.

(** Induction over the rounds of the loop, with an invariant. *)
Lemma loop_ind (I : S → Prop) (P : S → R → Prop) d :
  (∀ s r, I s → step s = Done r → P s r) →
  (∀ s s' r, I s → step s = Next s' → P s' r → P s r) →
  (∀ s s', I s → step s = Next s' → I s') →
  ∀ s, I s → P s (loop m step d s).
Proof.
  intros Hd Hn HI. assert (DecreasingOn I m step).
  { intros s s' Hs E. split; [eauto|]. by apply decreases. }
  by apply loop_ind_on.
Qed.
End loop.

(** Prove a decidable closed proposition by evaluating its decision. *)
Ltac by_decision := refine (bool_decide_unpack _ _); vm_compute; exact I.

(** ** Reading integers from a slice *)

Lemma checked_add_small `{w : arch} a b : a + b < 2 ^ 32 → checked_add a b = Some (a + b).
Proof.
  intros H. unfold checked_add, usize_max.
  destruct (Z.leb_spec (a + b) (2 ^ usize_bits w - 1)); [done|]. destruct w; cbn in *; lia.
Qed.

Lemma lor_shiftl_8 a b : u8 b → Z.lor (Z.shiftl a 8) b = a * 256 + b.
Proof.
  intros Hb. unfold u8 in Hb. rewrite <- Z.add_lor_land.
  replace (Z.shiftl a 8) with (a * 256) by (rewrite Z.shiftl_mul_pow2; lia).
  enough (Z.land (a * 256) b = 0) by lia.
  rewrite <- (Z.mod_small b 256) by lia. change 256 with (2 ^ 8).
  rewrite <- Z.land_ones, <- Z.shiftl_mul_pow2 by lia.
  rewrite (Z.land_comm b), Z.land_assoc.
  replace (Z.land (Z.shiftl a 8) (Z.ones 8)) with 0; [apply Z.land_0_l|].
  rewrite Z.land_ones, Z.shiftl_mul_pow2 by lia. by rewrite Z.mod_mul.
Qed.

Lemma be_bytes_2 v : u16 v → ∃ a b, be_bytes 2 v = [a; b] ∧ u8 a ∧ u8 b ∧ a * 256 + b = v.
Proof.
  intros Hv. pose proof (be_bytes_ok 2 v) as Hok. pose proof (be_val_small 2 v) as Hval.
  cbn [be_bytes] in *. eexists _, _. split; [done|].
  apply Forall_cons in Hok as [? [? _]%Forall_cons]. split; [done|]. split; [done|].
  unfold be_val in Hval. cbn [fold_left] in Hval. unfold u16 in Hv.
  rewrite <- Hval at 3 by (cbn; lia). lia.
Qed.

Lemma be_val_1 b : be_val [b] = b.
Proof. unfold be_val. cbn [fold_left]. lia. Qed.

Lemma be_val_2 a b : be_val [a; b] = a * 256 + b.
Proof. unfold be_val. cbn [fold_left]. lia. Qed.

(** What every exit of a loop satisfies, its answer satisfies. *)
Lemma loop_post {S R} (m : S → nat) (step : S → round S R) (P : R → Prop) d s :
  P d → (∀ s r, step s = Done r → P r) → P (loop m step d s).
Proof.
  intros Hd Hs. unfold loop. generalize (Datatypes.S (m s)) as n. intros n.
  revert s. induction n as [|n IH]; intros s; cbn; [done|].
  destruct (step s) eqn:E; [apply IH|by eapply Hs].
Qed.

Lemma suffix_at_prepend {A} (p l : list A) i r :
  suffix_at l i r → suffix_at (p ++ l) (blen p + i) r.
Proof. intros (q & -> & ->). exists (p ++ q). split; [by rewrite app_assoc|blia]. Qed.

Lemma fold_lor_be_val l : bytes_ok l → fold_left (λ acc b, Z.lor (Z.shiftl acc 8) b) l 0 = be_val l.
Proof.
  unfold be_val. generalize 0 as a. intros a Hl. revert a.
  induction Hl as [|b l Hb _ IH]; intros a; cbn; [done|]. by rewrite lor_shiftl_8, IH.
Qed.

(** ** Prefixes of a growing buffer *)

Lemma slice_app_l {A} (l x s : list A) a e : slice l a e = Some s → slice (l ++ x) a e = Some s.
Proof.
  intros H. apply slice_Some in H as (Ha & He & Hs & r & Hsuf).
  apply (suffix_at_app_r _ _ _ x) in Hsuf. rewrite <- app_assoc in Hsuf.
  apply (suffix_at_slice _ _ _ _ _ Hsuf). lia.
Qed.

Lemma dropz_app_l {A} n (l x : list A) : n ≤ blen l → dropz n (l ++ x) = dropz n l ++ x.
Proof. intros Hn. unfold dropz, blen in *. apply drop_app_le. lia. Qed.

Lemma index_range_ok {E A} (l : list A) a e :
  0 ≤ a ≤ e → e ≤ blen l → ∃ s, index_range (E := E) l a e = Ok s ∧ slice l a e = Some s ∧ blen s = e - a.
Proof.
  intros H1 H2. destruct (slice_in_range l a e H1 H2) as (s & E' & Hl). exists s.
  unfold index_range. by rewrite E'.
Qed.

Lemma index_range_app {E A} (l x : list A) a e :
  0 ≤ a ≤ e → e ≤ blen l → index_range (E := E) (l ++ x) a e = index_range l a e.
Proof.
  intros H1 H2. destruct (slice_in_range l a e H1 H2) as (s & E' & Hl).
  unfold index_range. by rewrite E', (slice_app_l _ _ _ _ _ E').
Qed.

Lemma index_range_suffix {E A} (l : list A) a :
  0 ≤ a ≤ blen l → index_range (E := E) l a (blen l) = Ok (dropz a l).
Proof. intros H. unfold index_range. by rewrite slice_suffix. Qed.
