(* ===== verification/Text.v ===== *)
(** * Rust strings

    A [&str] is its UTF-8 bytes.  This file models the operations of
    [core::str] the program uses: trimming, splitting, searching, ASCII case,
    UTF-8 validation and the lossy conversion, and the parsing of unsigned
    integers.

    [str::trim] removes Unicode white space; the white-space characters are
    listed by their encodings.  [str::to_lowercase] is the ASCII mapping on
    ASCII strings; on other strings it goes through the Unicode tables, which
    are a parameter ([UnicodeCase]). *)

From stdpp Require Import strings.
From S2P Require Import Prelude.
From Stdlib Require Strings.Byte.

(** The bytes of a literal. *)
Definition lit (s : string) : bytes :=
  map (λ b, Z.of_N (Byte.to_N b)) (String.list_byte_of_string s).

Arguments lit s%_stdpp.

Definition str_eqb (a b : bytes) : bool := list_eqb a b.

(** ** Characters *)

Definition is_ascii (b : Z) : bool := b <? 128.
Definition is_ascii_digit (b : Z) : bool := (48 <=? b) && (b <=? 57).
Definition is_ascii_uppercase (b : Z) : bool := (65 <=? b) && (b <=? 90).
Definition is_ascii_lowercase (b : Z) : bool := (97 <=? b) && (b <=? 122).
Definition is_ascii_alphabetic (b : Z) : bool := is_ascii_uppercase b || is_ascii_lowercase b.
Definition is_ascii_alphanumeric (b : Z) : bool := is_ascii_alphabetic b || is_ascii_digit b.

Definition ascii_lower (b : Z) : Z := if is_ascii_uppercase b then b + 32 else b.
Definition to_ascii_lowercase (s : bytes) : bytes := map ascii_lower s.
Definition eq_ignore_ascii_case (a b : bytes) : bool :=
  list_eqb (to_ascii_lowercase a) (to_ascii_lowercase b).

Class UnicodeCase := unicode_lowercase : bytes → bytes.

Definition to_lowercase `{UnicodeCase} (s : bytes) : bytes :=
  if forallb is_ascii s then to_ascii_lowercase s else unicode_lowercase s.

(** The [White_Space] characters, as encoded: U+0009 to U+000D, U+0020,
    U+0085, U+00A0, U+1680, U+2000 to U+200A, U+2028, U+2029, U+202F, U+205F,
    U+3000. *)
Definition white_space : list bytes :=
  [[9]; [10]; [11]; [12]; [13]; [32]; [0xc2; 0x85]; [0xc2; 0xa0]; [0xe1; 0x9a; 0x80];
   [0xe2; 0x80; 0x80]; [0xe2; 0x80; 0x81]; [0xe2; 0x80; 0x82]; [0xe2; 0x80; 0x83];
   [0xe2; 0x80; 0x84]; [0xe2; 0x80; 0x85]; [0xe2; 0x80; 0x86]; [0xe2; 0x80; 0x87];
   [0xe2; 0x80; 0x88]; [0xe2; 0x80; 0x89]; [0xe2; 0x80; 0x8a]; [0xe2; 0x80; 0xa8];
   [0xe2; 0x80; 0xa9]; [0xe2; 0x80; 0xaf]; [0xe2; 0x81; 0x9f]; [0xe3; 0x80; 0x80]].

(** ** Prefixes, suffixes, substrings *)

(** [s.strip_prefix(p)] and [s.starts_with(p)]. *)
Fixpoint strip_prefix (p s : bytes) : option bytes :=
  match p, s with
  | [], _ => Some s
  | x :: p, y :: s => if x =? y then strip_prefix p s else None
  | _ :: _, [] => None
  end.

Definition starts_with (p s : bytes) : bool :=
  match strip_prefix p s with Some _ => true | None => false end.

Definition strip_suffix (p s : bytes) : option bytes :=
  match strip_prefix (reverse p) (reverse s) with Some r => Some (reverse r) | None => None end.

Definition ends_with (p s : bytes) : bool :=
  match strip_suffix p s with Some _ => true | None => false end.

(** [s.find(p)]: what comes before the first occurrence and what after. *)
Fixpoint split_at_first (p s : bytes) : option (bytes * bytes) :=
  match strip_prefix p s with
  | Some r => Some ([], r)
  | None =>
      match s with
      | [] => None
      | x :: s =>
          match split_at_first p s with Some (a, b) => Some (x :: a, b) | None => None end
      end
  end.

Definition contains (p s : bytes) : bool :=
  match split_at_first p s with Some _ => true | None => false end.

(** [s.find(p)] as a byte offset. *)
Definition find (p s : bytes) : option Z :=
  match split_at_first p s with Some (a, _) => Some (blen a) | None => None end.

(** [split_once] and [rsplit_once] on an ASCII character. *)
Definition split_once (c : Z) (s : bytes) : option (bytes * bytes) := split_at_first [c] s.

Definition rsplit_once (c : Z) (s : bytes) : option (bytes * bytes) :=
  match split_once c (reverse s) with
  | Some (b, a) => Some (reverse a, reverse b)
  | None => None
  end.

(** [s.split(f)] on ASCII characters chosen by [f]: never empty. *)
Fixpoint split_by (f : Z → bool) (s : bytes) : list bytes :=
  match s with
  | [] => [[]]
  | x :: s =>
      if f x then [] :: split_by f s
      else match split_by f s with
           | [] => [[x]]
           | a :: rest => (x :: a) :: rest
           end
  end.

Definition split (c : Z) (s : bytes) : list bytes := split_by (λ x, x =? c) s.

(** [ls.join(sep)]. *)
Fixpoint join (sep : bytes) (ls : list bytes) : bytes :=
  match ls with
  | [] => []
  | [l] => l
  | l :: ls => l ++ sep ++ join sep ls
  end.

(** [s.split(p)] on a non-empty string. *)
Fixpoint split_str_go (fuel : nat) (p s : bytes) : list bytes :=
  match fuel with
  | O => [s]
  | S fuel =>
      match split_at_first p s with
      | Some (a, b) => a :: split_str_go fuel p b
      | None => [s]
      end
  end.
Definition split_str (p s : bytes) : list bytes := split_str_go (length s) p s.

(** [s.lines()]: lines end in LF or CR LF; a final line ending adds no line. *)
Definition strip_cr (l : bytes) : bytes := default l (strip_suffix [13] l).

Fixpoint lines_go (ls : list bytes) : list bytes :=
  match ls with
  | [] => []
  | [l] => if is_empty l then [] else [l]
  | l :: ls => strip_cr l :: lines_go ls
  end.
Definition lines (s : bytes) : list bytes := lines_go (split 10 s).

(** ** Trimming *)

Fixpoint drop_while (f : Z → bool) (s : bytes) : bytes :=
  match s with
  | x :: r => if f x then drop_while f r else s
  | [] => []
  end.

Definition trim_start_matches (c : Z) (s : bytes) : bytes := drop_while (λ x, x =? c) s.
Definition trim_end_matches (c : Z) (s : bytes) : bytes :=
  reverse (drop_while (λ x, x =? c) (reverse s)).

(** The first of the patterns that [s] starts with, stripped. *)
Fixpoint strip_any (ps : list bytes) (s : bytes) : option bytes :=
  match ps with
  | [] => None
  | p :: ps => match strip_prefix p s with Some r => Some r | None => strip_any ps s end
  end.

Fixpoint strip_all (fuel : nat) (ps : list bytes) (s : bytes) : bytes :=
  match fuel with
  | O => s
  | S fuel => match strip_any ps s with Some r => strip_all fuel ps r | None => s end
  end.

Definition trim_start (s : bytes) : bytes := strip_all (length s) white_space s.
Definition trim_end (s : bytes) : bytes :=
  reverse (strip_all (length s) (map reverse white_space) (reverse s)).
Definition trim (s : bytes) : bytes := trim_end (trim_start s).

(** [s.splitn(2, char::is_whitespace)]. *)
Fixpoint split_ws_once (s : bytes) : bytes * option bytes :=
  match strip_any white_space s with
  | Some r => ([], Some r)
  | None =>
      match s with
      | [] => ([], None)
      | x :: s => let '(a, b) := split_ws_once s in (x :: a, b)
      end
  end.

(** [s.split_whitespace()]. *)
Fixpoint split_whitespace_go (fuel : nat) (s : bytes) : list bytes :=
  match fuel with
  | O => []
  | S fuel =>
      let s := trim_start s in
      if is_empty s then [] else
      match split_ws_once s with
      | (a, Some r) => a :: split_whitespace_go fuel r
      | (a, None) => [a]
      end
  end.
Definition split_whitespace (s : bytes) : list bytes := split_whitespace_go (length s) s.

(** ** UTF-8 *)

Definition is_cont (b : option Z) : bool :=
  match b with Some b => Z.land b 192 =? 128 | None => false end.
Definition in_range (lo hi : Z) (b : option Z) : bool :=
  match b with Some b => (lo <=? b) && (b <=? hi) | None => false end.

(** One step of the decoder of [core::str::lossy]: how many bytes it consumes
    and whether they are a character. *)
Definition utf8_step (b0 : Z) (r : bytes) : nat * bool :=
  let b1 := r !! 0%nat in let b2 := r !! 1%nat in let b3 := r !! 2%nat in
  if b0 <? 0x80 then (1%nat, true)
  else if (0xc2 <=? b0) && (b0 <=? 0xdf) then
    if is_cont b1 then (2%nat, true) else (1%nat, false)
  else if (0xe0 <=? b0) && (b0 <=? 0xef) then
    let ok := if b0 =? 0xe0 then in_range 0xa0 0xbf b1
              else if b0 =? 0xed then in_range 0x80 0x9f b1
              else in_range 0x80 0xbf b1 in
    if negb ok then (1%nat, false)
    else if is_cont b2 then (3%nat, true) else (2%nat, false)
  else if (0xf0 <=? b0) && (b0 <=? 0xf4) then
    let ok := if b0 =? 0xf0 then in_range 0x90 0xbf b1
              else if b0 =? 0xf4 then in_range 0x80 0x8f b1
              else in_range 0x80 0xbf b1 in
    if negb ok then (1%nat, false)
    else if negb (is_cont b2) then (2%nat, false)
    else if is_cont b3 then (4%nat, true) else (3%nat, false)
  else (1%nat, false).

Fixpoint utf8_valid_go (fuel : nat) (s : bytes) : bool :=
  match fuel, s with
  | _, [] => true
  | O, _ => false
  | S fuel, b :: r =>
      let '(n, ok) := utf8_step b r in ok && utf8_valid_go fuel (drop n s)
  end.

(** [std::str::from_utf8(s).ok()]. *)
Definition from_utf8 (s : bytes) : option bytes :=
  if utf8_valid_go (length s) s then Some s else None.

Fixpoint lossy_go (fuel : nat) (s : bytes) : bytes :=
  match fuel, s with
  | _, [] => []
  | O, _ => []
  | S fuel, b :: r =>
      let '(n, ok) := utf8_step b r in
      (if ok then take n s else [0xef; 0xbf; 0xbd]) ++ lossy_go fuel (drop n s)
  end.

(** [String::from_utf8_lossy(s)]. *)
Definition from_utf8_lossy (s : bytes) : bytes := lossy_go (length s) s.

(** ** Numbers *)

(** The digits of [s] in base 10, [None] at a character that is not one or
    when the value passes [max]. *)
Fixpoint digits_go (max acc : Z) (s : bytes) : option Z :=
  match s with
  | [] => Some acc
  | d :: s =>
      if is_ascii_digit d then
        let acc := acc * 10 + (d - 48) in
        if acc <=? max then digits_go max acc s else None
      else None
  end.

(** [s.parse::<uN>().ok()] with [max] the largest value of the type: one
    leading plus sign is allowed, no digits is an error. *)
Definition parse_uint (max : Z) (s : bytes) : option Z :=
  let digits := match s with 43 :: r => r | _ => s end in
  if is_empty digits then None else digits_go max 0 digits.

(** [uN::from_str_radix(s, 16).ok()]. *)
Definition hex_value (d : Z) : option Z :=
  if is_ascii_digit d then Some (d - 48)
  else if (97 <=? d) && (d <=? 102) then Some (d - 87)
  else if (65 <=? d) && (d <=? 70) then Some (d - 55)
  else None.

Fixpoint hex_go (max acc : Z) (s : bytes) : option Z :=
  match s with
  | [] => Some acc
  | d :: s =>
      match hex_value d with
      | Some v => let acc := acc * 16 + v in if acc <=? max then hex_go max acc s else None
      | None => None
      end
  end.

Definition parse_hex (max : Z) (s : bytes) : option Z :=
  let digits := match s with 43 :: r => r | _ => s end in
  if is_empty digits then None else hex_go max 0 digits.

Definition parse_u16 : bytes → option Z := parse_uint 65535.
Definition parse_u32 : bytes → option Z := parse_uint (2 ^ 32 - 1).
Definition parse_u64 : bytes → option Z := parse_uint (2 ^ 64 - 1).

(** The decimal form of a number ([to_string]). *)
Fixpoint decimal_go (fuel : nat) (v : Z) (acc : bytes) : bytes :=
  match fuel with
  | O => acc
  | S fuel =>
      let acc := (48 + v mod 10) :: acc in
      if v / 10 =? 0 then acc else decimal_go fuel (v / 10) acc
  end.
Definition decimal (v : Z) : bytes := decimal_go (S (Z.to_nat (Z.log2 v))) v [].

Example trim_ex : trim (lit "  a b  " ++ [0xc2; 0xa0; 13; 10]) = lit "a b".
Proof. by vm_compute. Qed.
Example split_ex : split 46 (lit "a..b") = [lit "a"; []; lit "b"].
Proof. by vm_compute. Qed.
Example lines_ex : lines (lit "x" ++ [13; 10; 10] ++ lit "y" ++ [10]) = [lit "x"; []; lit "y"].
Proof. by vm_compute. Qed.
Example parse_ex : parse_u16 (lit "+65535") = Some 65535 ∧ parse_u16 (lit "65536") = None.
Proof. by vm_compute. Qed.
Example decimal_ex : decimal 1050 = lit "1050" ∧ decimal 0 = lit "0".
Proof. by vm_compute. Qed.
Example lossy_ex : from_utf8_lossy [65; 0xe2; 0x80; 66] = [65; 0xef; 0xbf; 0xbd; 66].
Proof. by vm_compute. Qed.
Example rsplit_ex : rsplit_once 58 (lit "a:b:c") = Some (lit "a:b", lit "c").
Proof. by vm_compute. Qed.

(** ** Lemmas *)

Lemma str_eqb_eq a b : str_eqb a b = true ↔ a = b.
Proof. apply list_eqb_eq. Qed.

Lemma drop_while_head f s x r : drop_while f s = x :: r → f x = false.
Proof.
  induction s as [|y s IH]; cbn; [done|]. destruct (f y) eqn:E; [done|]. by intros [= <- _].
Qed.

Lemma drop_while_suffix f s : ∃ p, s = p ++ drop_while f s ∧ forallb f p = true.
Proof.
  induction s as [|x s (p & E & Hp)]; cbn; [by exists []|]. destruct (f x) eqn:Ef.
  - exists (x :: p). cbn. rewrite Ef, Hp, <- E. done.
  - by exists [].
Qed.

Lemma trim_end_matches_last c s r : trim_end_matches c s ≠ r ++ [c].
Proof.
  unfold trim_end_matches. intros E. apply (f_equal reverse) in E.
  rewrite reverse_involutive, reverse_app in E. cbn in E.
  apply drop_while_head in E. by rewrite Z.eqb_refl in E.
Qed.

Lemma trim_end_matches_prefix c s : ∃ t, s = trim_end_matches c s ++ t ∧ forallb (λ x, x =? c) t = true.
Proof.
  unfold trim_end_matches. destruct (drop_while_suffix (λ x, x =? c) (reverse s)) as (p & E & Hp).
  exists (reverse p). split.
  - rewrite <- reverse_app, <- E. by rewrite reverse_involutive.
  - rewrite forallb_forall in Hp |- *. intros x Hx. apply Hp.
    apply list_elem_of_In, elem_of_reverse, list_elem_of_In. done.
Qed.

Lemma to_lowercase_ascii `{UnicodeCase} s :
  forallb is_ascii s = true → to_lowercase s = to_ascii_lowercase s.
Proof. intros E. unfold to_lowercase. by rewrite E. Qed.

Lemma eq_ignore_ascii_case_refl s : eq_ignore_ascii_case s s = true.
Proof. apply list_eqb_refl. Qed.

Lemma eq_ignore_ascii_case_length a b : eq_ignore_ascii_case a b = true → blen a = blen b.
Proof.
  unfold eq_ignore_ascii_case. intros E%list_eqb_eq. apply (f_equal blen) in E.
  unfold to_ascii_lowercase in E. by rewrite !blen_map in E.
Qed.

(** *** Splitting and joining *)

Lemma strip_prefix_Some p s r : strip_prefix p s = Some r ↔ s = p ++ r.
Proof.
  revert s. induction p as [|x p IH]; intros [|y s]; cbn; try naive_solver.
  destruct (Z.eqb_spec x y); [subst; rewrite IH; naive_solver|naive_solver].
Qed.

Lemma starts_with_spec p s : starts_with p s = true ↔ ∃ r, s = p ++ r.
Proof.
  unfold starts_with. destruct (strip_prefix p s) as [r|] eqn:E.
  - apply strip_prefix_Some in E. naive_solver.
  - split; [done|]. intros [r Hr]. apply strip_prefix_Some in Hr. congruence.
Qed.

Lemma strip_suffix_Some p s r : strip_suffix p s = Some r ↔ s = r ++ p.
Proof.
  unfold strip_suffix. destruct (strip_prefix (reverse p) (reverse s)) as [q|] eqn:E.
  - apply strip_prefix_Some in E. apply (f_equal reverse) in E.
    rewrite reverse_involutive, reverse_app, reverse_involutive in E. split.
    + by intros [= <-].
    + intros E'. rewrite E in E'. apply app_inj_2 in E' as [-> _]; done.
  - split; [done|]. intros ->. rewrite reverse_app in E.
    pose proof (proj2 (strip_prefix_Some (reverse p) (reverse p ++ reverse r) (reverse r)) eq_refl).
    congruence.
Qed.

Lemma ends_with_spec p s : ends_with p s = true ↔ ∃ r, s = r ++ p.
Proof.
  unfold ends_with. destruct (strip_suffix p s) as [r|] eqn:E.
  - apply strip_suffix_Some in E. naive_solver.
  - split; [done|]. intros [r Hr]. apply strip_suffix_Some in Hr. congruence.
Qed.

Lemma split_at_first_Some p s a b : split_at_first p s = Some (a, b) → s = a ++ p ++ b.
Proof.
  revert a. induction s as [|x s IH]; intros a; cbn.
  - destruct (strip_prefix p []) as [r|] eqn:E; [|done]. intros [= <- <-].
    by apply strip_prefix_Some in E.
  - destruct (strip_prefix p (x :: s)) as [r|] eqn:E.
    + intros [= <- <-]. by apply strip_prefix_Some in E.
    + destruct (split_at_first p s) as [[a' b']|]; [|done]. intros [= <- <-].
      cbn. by rewrite (IH a' eq_refl) at 1.
Qed.

Lemma split_at_first_None p s : split_at_first p s = None → ∀ a b, s ≠ a ++ p ++ b.
Proof.
  induction s as [|x s IH]; cbn; intros H a b E.
  - destruct (strip_prefix p []) eqn:Ep; [done|]. symmetry in E.
    apply app_nil in E as [-> [-> ->]%app_nil]. done.
  - destruct (strip_prefix p (x :: s)) as [r|] eqn:Ep; [done|].
    destruct (split_at_first p s) as [[]|] eqn:Es; [done|]. destruct a as [|y a].
    + cbn in E. rewrite E in Ep.
      pose proof (proj2 (strip_prefix_Some p (p ++ b) b) eq_refl). congruence.
    + injection E as -> E. by eapply IH.
Qed.

Lemma contains_spec p s : contains p s = true ↔ ∃ a b, s = a ++ p ++ b.
Proof.
  unfold contains. destruct (split_at_first p s) as [[a b]|] eqn:E.
  - apply split_at_first_Some in E. naive_solver.
  - split; [done|]. intros (a & b & Hs). by eapply split_at_first_None in E.
Qed.

Lemma split_by_not_nil f s : split_by f s ≠ [].
Proof. destruct s as [|x s]; cbn; [done|]. destruct (f x); [done|]. by destruct (split_by f s). Qed.

Lemma split_nosep f s : forallb (λ x, negb (f x)) s = true → split_by f s = [s].
Proof.
  induction s as [|x s IH]; cbn; [done|]. intros [E H]%andb_true_iff.
  apply negb_true_iff in E. by rewrite E, IH.
Qed.

Lemma split_by_app f a c s :
  forallb (λ x, negb (f x)) a = true → f c = true →
  split_by f (a ++ c :: s) = a :: split_by f s.
Proof.
  intros Ha Hc. induction a as [|x a IH]; cbn.
  - by rewrite Hc.
  - apply andb_true_iff in Ha as [E Ha]. apply negb_true_iff in E. by rewrite E, IH.
Qed.


Lemma forallb_map {A B} (f : A → B) (p : B → bool) (q : A → bool) l :
  (∀ x, q x = true → p (f x) = true) → forallb q l = true → forallb p (map f l) = true.
Proof.
  intros H. induction l as [|x l IH]; cbn; [done|]. intros [? ?]%andb_true_iff.
  apply andb_true_iff. auto.
Qed.

Lemma forallb_impl {A} (p q : A → bool) l :
  (∀ x, p x = true → q x = true) → forallb p l = true → forallb q l = true.
Proof. rewrite !forallb_forall. naive_solver. Qed.

(** *** Splitting again *)

Lemma split_by_app_sep f a c b : f c = true → split_by f (a ++ c :: b) = split_by f a ++ split_by f b.
Proof.
  intros Hc. induction a as [|x a IH]; cbn; [by rewrite Hc|]. rewrite IH.
  destruct (f x); [done|]. pose proof (split_by_not_nil f a). by destruct (split_by f a).
Qed.

Lemma split_by_prepend f q s l ls :
  forallb (λ x, negb (f x)) q = true → split_by f s = l :: ls → split_by f (q ++ s) = (q ++ l) :: ls.
Proof.
  intros Hq Hs. induction q as [|x q IH]; cbn; [done|].
  apply andb_true_iff in Hq as [Hx%negb_true_iff Hq]. by rewrite Hx, IH.
Qed.

Lemma join_app sep a b : a ≠ [] → b ≠ [] → join sep (a ++ b) = join sep a ++ sep ++ join sep b.
Proof.
  intros Ha Hb. induction a as [|x a IH]; [done|]. destruct a as [|y a].
  - cbn. by destruct b.
  - change (join sep ((x :: y :: a) ++ b)) with (x ++ sep ++ join sep ((y :: a) ++ b)).
    rewrite IH by done. change (join sep (x :: y :: a)) with (x ++ sep ++ join sep (y :: a)).
    by rewrite <- !app_assoc.
Qed.

Lemma join_split c s : join [c] (split c s) = s.
Proof.
  unfold split. induction s as [|x s IH]; [done|]. cbn.
  pose proof (split_by_not_nil (λ x, x =? c) s) as Hn.
  destruct (Z.eqb_spec x c) as [->|].
  - destruct (split_by _ s); [done|]. cbn [join app] in *. by rewrite IH.
  - destruct (split_by _ s) as [|a rest]; [done|].
    destruct rest as [|b rest]; cbn [join app] in *; by rewrite IH.
Qed.

(** *** White space *)

Lemma strip_any_Some ps s r : strip_any ps s = Some r → ∃ p, p ∈ ps ∧ s = p ++ r.
Proof.
  induction ps as [|p ps IH]; cbn; [done|]. destruct (strip_prefix p s) eqn:E.
  - intros [= <-]. apply strip_prefix_Some in E. exists p. split; [set_solver|done].
  - intros (q & ? & ?)%IH. exists q. split; [set_solver|done].
Qed.

Lemma strip_any_is_Some ps p r : p ∈ ps → strip_any ps (p ++ r) ≠ None.
Proof.
  induction ps as [|q ps IH]; cbn; [set_solver|]. intros Hp.
  destruct (strip_prefix q (p ++ r)) eqn:E; [done|].
  apply elem_of_cons in Hp as [->|Hp]; [|by apply IH].
  pose proof (proj2 (strip_prefix_Some q (q ++ r) r) eq_refl). congruence.
Qed.

Section strip_all.
Context (ps : list bytes) (Hps : Forall (λ p, p ≠ []) ps).

Lemma strip_any_shorter s r : strip_any ps s = Some r → (length r < length s)%nat.
Proof.
  intros (p & Hp & ->)%strip_any_Some. rewrite Forall_forall in Hps.
  apply Hps in Hp. destruct p; [done|]. cbn. rewrite length_app. lia.
Qed.

Lemma strip_all_enough n m s : (length s ≤ n)%nat → (length s ≤ m)%nat → strip_all n ps s = strip_all m ps s.
Proof.
  revert m s. induction n as [|n IH]; intros [|m] s Hn Hm; cbn; [done| | |].
  - destruct s; [|cbn in Hn; lia]. destruct (strip_any ps []) eqn:E; [|done].
    apply strip_any_shorter in E. cbn in E. lia.
  - destruct s; [|cbn in Hm; lia]. destruct (strip_any ps []) eqn:E; [|done].
    apply strip_any_shorter in E. cbn in E. lia.
  - destruct (strip_any ps s) eqn:E; [|done]. apply strip_any_shorter in E. apply IH; lia.
Qed.

Lemma strip_all_spec n s :
  (length s ≤ n)%nat →
  ∃ qs, s = concat qs ++ strip_all n ps s ∧ Forall (λ q, q ∈ ps) qs ∧
    strip_any ps (strip_all n ps s) = None.
Proof.
  revert s. induction n as [|n IH]; intros s Hn; cbn.
  - exists []. split; [done|]. split; [constructor|].
    destruct (strip_any ps s) eqn:E; [|done]. apply strip_any_shorter in E. lia.
  - destruct (strip_any ps s) as [r|] eqn:E; [|by exists []].
    pose proof (strip_any_shorter _ _ E). apply strip_any_Some in E as (p & Hp & ->).
    destruct (IH r) as (qs & Er & Hqs & Hnone); [lia|].
    exists (p :: qs). cbn. rewrite <- app_assoc, <- Er. split; [done|]. by split; [constructor|].
Qed.
End strip_all.

Lemma white_space_not_nil : Forall (λ p, p ≠ []) white_space.
Proof. by_decision. Qed.

Lemma white_space_rev_not_nil : Forall (λ p, p ≠ []) (map reverse white_space).
Proof. by_decision. Qed.

(** No white-space character is a prefix of another. *)
Lemma strip_any_white_space p r : p ∈ white_space → strip_any white_space (p ++ r) = Some r.
Proof.
  intros Hp. assert (Forall (λ p, ∀ r, strip_any white_space (p ++ r) = Some r) white_space) as H
    by (repeat constructor).
  rewrite Forall_forall in H. by apply H.
Qed.

Lemma trim_start_white p r : p ∈ white_space → trim_start (p ++ r) = trim_start r.
Proof.
  intros Hp. unfold trim_start. destruct (length (p ++ r)) as [|n] eqn:En.
  - apply nil_length_inv, app_nil in En as [-> ->]. done.
  - cbn [strip_all]. rewrite strip_any_white_space by done.
    apply strip_all_enough; [apply white_space_not_nil| |done].
    pose proof white_space_not_nil as Hw. rewrite Forall_forall in Hw. apply Hw in Hp.
    rewrite length_app in En. destruct p; [done|]. cbn in En. lia.
Qed.

Lemma trim_white qs r : Forall (λ q, q ∈ white_space) qs → trim (concat qs ++ r) = trim r.
Proof.
  induction 1 as [|q qs Hq _ IH]; [done|]. cbn [concat]. rewrite <- app_assoc.
  unfold trim in *. by rewrite trim_start_white.
Qed.

(** A text that trims to nothing is made of white space. *)
Lemma trim_nil s : trim s = [] → ∃ qs, s = concat qs ∧ Forall (λ q, q ∈ white_space) qs.
Proof.
  unfold trim. intros H.
  destruct (strip_all_spec white_space white_space_not_nil (length s) s) as (qs & E & Hqs & Hn); [done|].
  fold (trim_start s) in *. exists qs. split; [|done]. rewrite E at 1.
  replace (trim_start s) with (@nil Z); [by rewrite app_nil_r|].
  remember (trim_start s) as t eqn:Et. unfold trim_end in H. apply (f_equal reverse) in H.
  rewrite reverse_involutive in H.
  destruct (strip_all_spec _ white_space_rev_not_nil (length t) (reverse t)) as (rs & Er & Hrs & _);
    [by rewrite length_reverse|].
  rewrite H in Er. cbn in Er. rewrite app_nil_r in Er.
  destruct rs as [|q rs _] using rev_ind; [apply (f_equal reverse) in Er; by rewrite reverse_involutive in Er|].
  apply Forall_app in Hrs as [_ [Hq _]%Forall_cons]. apply (f_equal reverse) in Er.
  rewrite reverse_involutive, concat_app in Er. cbn in Er. rewrite app_nil_r, reverse_app in Er.
  apply list_elem_of_fmap in Hq as (p & -> & Hp). rewrite reverse_involutive in Er.
  exfalso. rewrite Er in Hn. by eapply strip_any_is_Some in Hn.
Qed.

(** ASCII text without spaces and controls. *)
Definition graphic (b : Z) : bool := (33 <=? b) && (b <=? 126).

Lemma strip_any_graphic ps s :
  Forall (λ p, match p with [] => false | b :: _ => negb (graphic b) end = true) ps →
  forallb graphic (take 1 s) = true → strip_any ps s = None.
Proof.
  intros Hps Hs. destruct (strip_any ps s) eqn:E; [|done].
  apply strip_any_Some in E as (p & Hp & ->). rewrite Forall_forall in Hps. apply Hps in Hp.
  destruct p as [|b p]; [done|]. cbn in Hs, Hp. rewrite andb_true_r in Hs. by rewrite Hs in Hp.
Qed.

(** Text that starts and ends in a graphic character has nothing to trim. *)
Lemma trim_graphic_ends s :
  forallb graphic (take 1 s) = true → forallb graphic (take 1 (reverse s)) = true → trim s = s.
Proof.
  intros H1 H2. unfold trim, trim_start, trim_end.
  assert (∀ n ps t, strip_any ps t = None → strip_all n ps t = t) as Hid
    by (intros [|n] ps t E; cbn; [done|by rewrite E]).
  rewrite (Hid _ _ s), Hid; [by rewrite reverse_involutive| |];
    apply strip_any_graphic; first [done | by_decision].
Qed.

Lemma forallb_take {A} (f : A → bool) n l : forallb f l = true → forallb f (take n l) = true.
Proof.
  rewrite <- (take_drop n l) at 1. rewrite forallb_app. by intros [? _]%andb_true_iff.
Qed.

Lemma forallb_reverse {A} (f : A → bool) l : forallb f l = true → forallb f (reverse l) = true.
Proof.
  rewrite !forallb_forall. intros H x Hx. apply H. apply list_elem_of_In in Hx.
  apply list_elem_of_In. by apply elem_of_reverse.
Qed.

Lemma trim_graphic s : forallb graphic s = true → trim s = s.
Proof. intros H. apply trim_graphic_ends; apply forallb_take; [done|by apply forallb_reverse]. Qed.

Lemma trim_graphic_end a s : s ≠ [] → forallb graphic s = true →
  forallb graphic (take 1 a) = true → trim (a ++ s) = a ++ s.
Proof.
  intros Hs Hg Ha. apply trim_graphic_ends.
  - destruct a; [by apply forallb_take|done].
  - rewrite reverse_app. apply forallb_reverse in Hg.
    destruct (reverse s) as [|x l] eqn:E; [|cbn in Hg |- *; by apply andb_true_iff in Hg as [-> _]].
    apply (f_equal reverse) in E. by rewrite reverse_involutive in E.
Qed.

Lemma split_once_app c a b :
  forallb (λ x, negb (x =? c)) a = true → split_once c (a ++ c :: b) = Some (a, b).
Proof.
  unfold split_once. induction a as [|x a IH]; intros Ha.
  - cbn. rewrite Z.eqb_refl. by destruct b.
  - apply andb_true_iff in Ha as [Hx%negb_true_iff Ha]. cbn [app split_at_first strip_prefix].
    rewrite Z.eqb_sym, Hx. by rewrite IH.
Qed.

Lemma split_once_none c s : forallb (λ x, negb (x =? c)) s = true → split_once c s = None.
Proof.
  unfold split_once. induction s as [|x s IH]; cbn; [done|].
  intros [Hx%negb_true_iff Hs]%andb_true_iff. rewrite Z.eqb_sym, Hx, IH; done.
Qed.

Lemma contains_none c s : forallb (λ x, negb (x =? c)) s = true → contains [c] s = false.
Proof. intros H. unfold contains. change (split_at_first [c] s) with (split_once c s). by rewrite split_once_none. Qed.

(** *** Decimal numbers *)

Lemma digits_go_app max acc a b :
  digits_go max acc (a ++ b) =
    match digits_go max acc a with Some v => digits_go max v b | None => None end.
Proof.
  revert acc. induction a as [|d a IH]; intros acc; cbn; [done|].
  destruct (is_ascii_digit d); [|done]. by destruct (_ <=? max).
Qed.

Lemma digit_char d : 0 ≤ d < 10 → is_ascii_digit (48 + d) = true.
Proof. intros. unfold is_ascii_digit. apply andb_true_iff. rewrite !Z.leb_le. lia. Qed.

(** The digits of [v], most significant first. *)
Lemma decimal_go_spec fuel v acc :
  0 ≤ v < 10 ^ Z.of_nat fuel → (0 < fuel)%nat →
  ∃ ds, decimal_go fuel v acc = ds ++ acc ∧ ds ≠ [] ∧ forallb is_ascii_digit ds = true ∧
    (∀ max, v ≤ max → digits_go max 0 ds = Some v) ∧ (take 1 ds = [48] → ds = [48]).
Proof.
  revert v acc. induction fuel as [|fuel IH]; intros v acc Hv Hf; [lia|]. cbn [decimal_go].
  pose proof (Z.mod_pos_bound v 10 ltac:(lia)) as Hm. pose proof (Z.div_mod v 10 ltac:(lia)) as Hdm.
  assert (0 ≤ v / 10) as Hq by (apply Z.div_pos; lia).
  destruct (Z.eqb_spec (v / 10) 0) as [E|E].
  - exists [48 + v mod 10]. split; [done|]. split; [done|].
    cbn [forallb digits_go]. rewrite digit_char by done. split; [done|]. split; [|by intros [= ->]].
    intros max Hmax. replace (0 * 10 + (48 + v mod 10 - 48)) with v by lia.
    destruct (Z.leb_spec v max); [done|lia].
  - destruct (IH (v / 10) ((48 + v mod 10) :: acc)) as (ds & Eds & Hne & Hd & Hp & Hz).
    { rewrite Nat2Z.inj_succ, Z.pow_succ_r in Hv by lia. split; [lia|].
      apply Z.div_lt_upper_bound; lia. }
    { destruct fuel; [|lia]. cbn in Hv. exfalso. apply E. apply Z.div_small. lia. }
    exists (ds ++ [48 + v mod 10]). rewrite Eds, <- app_assoc. split; [done|].
    split; [by destruct ds|]. rewrite forallb_app, Hd. cbn [forallb]. rewrite digit_char by done.
    split; [done|]. split.
    + intros max Hmax. rewrite digits_go_app, Hp by lia. cbn [digits_go]. rewrite digit_char by done.
      replace (v / 10 * 10 + (48 + v mod 10 - 48)) with v by lia.
      destruct (Z.leb_spec v max); [done|lia].
    + destruct ds as [|d ds]; [done|]. intros [= ->]. exfalso. apply E.
      specialize (Hz eq_refl). injection Hz as ->.
      specialize (Hp (v / 10) ltac:(lia)). cbn -[Z.leb Z.div] in Hp.
      change (is_ascii_digit 48) with true in Hp. destruct (_ <=? _); [|done].
      by injection Hp as <-.
Qed.

Lemma decimal_fuel v : 0 ≤ v → v < 10 ^ Z.of_nat (S (Z.to_nat (Z.log2 v))).
Proof.
  intros Hv. rewrite Nat2Z.inj_succ, Z2Nat.id by apply Z.log2_nonneg.
  destruct (Z.eq_dec v 0) as [->|]; [done|].
  apply Z.lt_le_trans with (2 ^ Z.succ (Z.log2 v)); [apply Z.log2_spec; lia|].
  apply Z.pow_le_mono_l. split; [lia|]. lia.
Qed.

Lemma decimal_spec v :
  0 ≤ v →
  decimal v ≠ [] ∧ forallb is_ascii_digit (decimal v) = true ∧
  (∀ max, v ≤ max → digits_go max 0 (decimal v) = Some v) ∧
  (take 1 (decimal v) = [48] → decimal v = [48]).
Proof.
  intros Hv. destruct (decimal_go_spec (S (Z.to_nat (Z.log2 v))) v []) as (ds & E & H);
    [split; [done|by apply decimal_fuel]|lia|].
  rewrite app_nil_r in E. unfold decimal. by rewrite E.
Qed.

(** Reading back what [to_string] wrote. *)
Lemma parse_decimal max v : 0 ≤ v ≤ max → parse_uint max (decimal v) = Some v.
Proof.
  intros Hv. destruct (decimal_spec v) as (Hne & Hd & Hp & _); [lia|]. unfold parse_uint.
  destruct (decimal v) as [|d ds] eqn:E; [done|].
  assert (d ≠ 43) as Hs.
  { intros ->. by apply andb_true_iff in Hd as [? _]. }
  assert ((match d :: ds with 43 :: r => r | _ => d :: ds end) = d :: ds) as ->.
  { repeat (case_match; try done). }
  cbn [is_empty]. apply Hp. lia.
Qed.

Lemma split_join c ls :
  ls ≠ [] → Forall (λ l, forallb (λ x, negb (x =? c)) l = true) ls → split c (join [c] ls) = ls.
Proof.
  intros Hne Hls. unfold split. induction Hls as [|l ls Hl Hls IH]; [done|].
  destruct ls as [|l' ls]; [by apply split_nosep|].
  change (join [c] (l :: l' :: ls)) with (l ++ c :: join [c] (l' :: ls)).
  rewrite split_by_app by (done || apply Z.eqb_refl). by rewrite IH.
Qed.

Lemma forallb_join (f : Z → bool) sep ls :
  forallb f sep = true → Forall (λ l, forallb f l = true) ls → forallb f (join sep ls) = true.
Proof.
  intros Hs Hls. induction Hls as [|l ls Hl Hls IH]; [done|]. destruct ls as [|l' ls]; [done|].
  change (join sep (l :: l' :: ls)) with (l ++ sep ++ join sep (l' :: ls)).
  by rewrite !forallb_app, Hl, Hs, IH.
Qed.

Lemma digit_not c d : is_ascii_digit d = true → is_ascii_digit c = false → negb (d =? c) = true.
Proof. intros Hd Hc. apply negb_true_iff, Z.eqb_neq. intros ->. congruence. Qed.

Lemma decimal_not c v :
  0 ≤ v → is_ascii_digit c = false → forallb (λ x, negb (x =? c)) (decimal v) = true.
Proof.
  intros Hv Hc. destruct (decimal_spec v Hv) as (_ & Hd & _). revert Hd.
  apply forallb_impl. intros x Hx. by apply digit_not.
Qed.

(** ** Searching in a growing buffer *)

(** [p] stands in [t] at offset [i]. *)
Definition occurs (p t : bytes) (i : Z) : Prop := ∃ a b, t = a ++ p ++ b ∧ blen a = i.

Lemma split_at_first_minimal p s a b :
  split_at_first p s = Some (a, b) → ∀ a' b', s = a' ++ p ++ b' → (length a ≤ length a')%nat.
Proof.
  revert a. induction s as [|x s IH]; intros a; cbn; intros H a' b' E.
  - destruct (strip_prefix p []); [|done]. injection H as <- <-. cbn. lia.
  - destruct (strip_prefix p (x :: s)) eqn:Ep; [injection H as <- <-; cbn; lia|].
    destruct (split_at_first p s) as [[c d]|] eqn:Es; [|done]. injection H as <- <-.
    destruct a' as [|y a'].
    + cbn in E. pose proof (proj2 (strip_prefix_Some p (x :: s) b') E). congruence.
    + injection E as -> E. apply (IH c eq_refl) in E. cbn. lia.
Qed.

Lemma find_Some p t o : find p t = Some o ↔ occurs p t o ∧ ∀ j, j < o → ¬ occurs p t j.
Proof.
  unfold find. destruct (split_at_first p t) as [[a b]|] eqn:E.
  - pose proof (split_at_first_Some _ _ _ _ E) as Et.
    pose proof (split_at_first_minimal _ _ _ _ E) as Hm. split.
    + intros [= <-]. split; [by exists a, b|]. intros j Hj (a' & b' & E' & <-).
      apply Hm in E'. unfold blen in Hj. lia.
    + intros ((a' & b' & E' & <-) & Hmin). f_equal.
      assert (blen a ≤ blen a') by (apply Hm in E'; unfold blen; lia).
      destruct (Z.lt_ge_cases (blen a) (blen a')) as [Hlt|]; [|lia].
      exfalso. apply (Hmin _ Hlt). by exists a, b.
  - split; [done|]. intros ((a & b & E' & _) & _). by eapply split_at_first_None in E.
Qed.

Lemma find_None p t : find p t = None ↔ ∀ j, ¬ occurs p t j.
Proof.
  unfold find. destruct (split_at_first p t) as [[a b]|] eqn:E.
  - split; [done|]. intros H. exfalso. apply (H (blen a)). apply split_at_first_Some in E. by exists a, b.
  - split; [|done]. intros _ j (a & b & E' & _). by eapply split_at_first_None in E.
Qed.

Lemma find_bounds p t o : find p t = Some o → 0 ≤ o ∧ o + blen p ≤ blen t.
Proof. intros [(a & b & -> & <-) _]%find_Some. blia. Qed.

(** An occurrence that ends inside a prefix is one of the prefix. *)
Lemma occurs_app p t x j : occurs p t j → occurs p (t ++ x) j.
Proof. intros (a & b & -> & <-). exists a, (b ++ x). by rewrite <- !app_assoc. Qed.

Lemma occurs_prefix p t x j : occurs p (t ++ x) j → j + blen p ≤ blen t → occurs p t j.
Proof.
  intros (a & b & E & <-) Hl. exists a. unfold blen in Hl.
  assert (a ++ p = take (length a + length p) t) as Ht.
  { apply (f_equal (take (length a + length p))) in E.
    rewrite take_app_le in E by lia. rewrite E, app_assoc.
    symmetry. apply take_app_length'. by rewrite length_app. }
  exists (drop (length a + length p) t). split; [|done].
  rewrite app_assoc, Ht. by rewrite take_drop.
Qed.

Lemma occurs_dropz p t k o : 0 ≤ k ≤ blen t → 0 ≤ o → occurs p (dropz k t) o ↔ occurs p t (k + o).
Proof.
  intros Hk Ho. split.
  - intros (a & b & E & <-). exists (takez k t ++ a), b. split.
    + rewrite <- app_assoc, <- E. by rewrite takez_dropz.
    + rewrite blen_app, blen_takez by lia. lia.
  - intros (a & b & E & Ha). exists (dropz k a), b. split.
    + rewrite E. apply dropz_app_l. lia.
    + rewrite blen_dropz by lia. lia.
Qed.

Lemma find_app p t x o : find p t = Some o → find p (t ++ x) = Some o.
Proof.
  intros [Ho Hm]%find_Some. apply find_Some. split; [by apply occurs_app|].
  intros j Hj Hc. apply (Hm j Hj). apply (occurs_prefix _ _ x); [done|].
  destruct Ho as (a & b & -> & <-). blia.
Qed.

(** The search may start at [k] when nothing starts before. *)
Lemma find_skip p t a k :
  0 ≤ a ≤ k → k ≤ blen t → (∀ j, a ≤ j < k → ¬ occurs p t j) →
  Z.add k <$> find p (dropz k t) = Z.add a <$> find p (dropz a t).
Proof.
  intros Ha Hk Hn.
  destruct (find p (dropz a t)) as [o|] eqn:E.
  - pose proof (find_bounds _ _ _ E) as [Ho _]. apply find_Some in E as [Ho' Hm].
    apply occurs_dropz in Ho'; [|lia..].
    assert (k ≤ a + o) as Hge.
    { destruct (Z.lt_ge_cases (a + o) k); [|lia]. exfalso. apply (Hn (a + o)); [lia|done]. }
    assert (find p (dropz k t) = Some (a + o - k)) as ->.
    { apply find_Some. split.
      - apply occurs_dropz; [lia..|]. by replace (k + (a + o - k)) with (a + o) by lia.
      - intros j Hj Hc. pose proof Hc as (u & v & _ & Hu). blen_pos.
        apply (Hm (k + j - a)); [lia|]. apply occurs_dropz; [lia..|].
        apply occurs_dropz in Hc; [|lia..]. by replace (a + (k + j - a)) with (k + j) by lia. }
    cbn. f_equal. lia.
  - cbn. replace (find p (dropz k t)) with (@None Z); [done|]. symmetry. apply find_None.
    intros j Hc. pose proof Hc as (u & v & _ & Hu). blen_pos.
    rewrite find_None in E. apply (E (k + j - a)). apply occurs_dropz; [lia..|].
    apply occurs_dropz in Hc; [|lia..]. by replace (a + (k + j - a)) with (k + j) by lia.
Qed.

(** ** UTF-8: what the decoder accepts, and what the lossy one writes *)

Local Ltac next_test E := match goal with |- (if ?c then _ else _) = _ → _ => destruct c eqn:E end.

(** A character the decoder accepts ends where it says, whatever follows. *)
Lemma utf8_step_char b r n : utf8_step b r = (n, true) →
  ∃ c t, r = c ++ t ∧ n = S (length c) ∧ ∀ t', utf8_step b (c ++ t') = (n, true).
Proof.
  unfold utf8_step.
  destruct (b <? 128) eqn:E0. { intros [= <-]. by exists [], r. }
  destruct ((194 <=? b) && (b <=? 223)) eqn:E1.
  { destruct r as [|x r]; cbn [lookup list_lookup is_cont]; [done|].
    next_test Ex; [|done]. intros [= <-]. exists [x], r. split; [done|].
    split; [done|]. intros t'. cbn. cbn in Ex. by rewrite Ex. }
  destruct ((224 <=? b) && (b <=? 239)) eqn:E2.
  { destruct r as [|x [|y r]]; cbn [lookup list_lookup is_cont].
    1,2: by repeat (case_match; simplify_eq/=).
    next_test Ex; [done|]. next_test Ey; [|done]. intros [= <-].
    exists [x; y], r. split; [done|]. split; [done|]. intros t'.
    cbn [app lookup list_lookup is_cont]. by rewrite Ex, Ey. }
  destruct ((240 <=? b) && (b <=? 244)) eqn:E3; [|done].
  destruct r as [|x [|y [|z r]]]; cbn [lookup list_lookup is_cont].
  1,2,3: by repeat (case_match; simplify_eq/=).
  next_test Ex; [done|]. next_test Ey; [done|]. next_test Ez; [|done].
  intros [= <-]. exists [x; y; z], r. split; [done|]. split; [done|]. intros t'.
  cbn [app lookup list_lookup is_cont]. by rewrite Ex, Ey, Ez.
Qed.

Inductive utf8 : bytes → Prop :=
| utf8_nil : utf8 []
| utf8_char b c t : (∀ t', utf8_step b (c ++ t') = (S (length c), true)) → utf8 t → utf8 (b :: c ++ t).

Lemma utf8_fffd t : utf8 t → utf8 ([239; 191; 189] ++ t).
Proof. intros Ht. by apply (utf8_char 239 [191; 189]). Qed.

Lemma lossy_go_utf8 fuel s : utf8 (lossy_go fuel s).
Proof.
  revert s. induction fuel as [|fuel IH]; intros [|b r]; cbn [lossy_go]; try apply utf8_nil.
  destruct (utf8_step b r) as [n ok] eqn:E. destruct ok; [|by apply utf8_fffd].
  apply utf8_step_char in E as (c & t & -> & -> & Hc). cbn [take drop].
  rewrite firstn_app, firstn_all, Nat.sub_diag, app_nil_r. by apply utf8_char.
Qed.

Lemma from_utf8_lossy_utf8 s : utf8 (from_utf8_lossy s).
Proof. apply lossy_go_utf8. Qed.

Lemma lossy_go_id fuel s : utf8 s → (length s ≤ fuel)%nat → lossy_go fuel s = s.
Proof.
  intros Hs. revert fuel. induction Hs as [|b c t Hc _ IH]; intros fuel Hf; [by destruct fuel|].
  cbn [length] in Hf. rewrite length_app in Hf.
  destruct fuel as [|fuel]; [lia|]. cbn [lossy_go]. rewrite Hc. cbn [take drop].
  rewrite firstn_app, firstn_all, Nat.sub_diag, app_nil_r, drop_app_length, IH by lia. done.
Qed.

(** The lossy decoder keeps what is UTF-8 already. *)
Lemma from_utf8_lossy_id s : utf8 s → from_utf8_lossy s = s.
Proof. intros Hs. by apply lossy_go_id. Qed.

Lemma lossy_go_ok fuel s : bytes_ok s → bytes_ok (lossy_go fuel s).
Proof.
  unfold bytes_ok. revert s. induction fuel as [|fuel IH]; intros [|b r] Hs; cbn [lossy_go]; try done.
  destruct (utf8_step b r) as [n []]; apply Forall_app; split.
  2,4: by apply IH, Forall_drop.
  - by apply Forall_take.
  - repeat constructor; by vm_compute.
Qed.

Lemma from_utf8_lossy_ok s : bytes_ok s → bytes_ok (from_utf8_lossy s).
Proof. apply lossy_go_ok. Qed.

Lemma utf8_valid_spec s : utf8 s → from_utf8 s = Some s.
Proof.
  intros Hs. unfold from_utf8. enough (∀ fuel, (length s ≤ fuel)%nat → utf8_valid_go fuel s = true) as ->; [done|done|].
  induction Hs as [|b c t Hc _ IH]; intros fuel Hf; [by destruct fuel|].
  cbn [length] in Hf. rewrite length_app in Hf.
  destruct fuel as [|fuel]; [lia|]. cbn [utf8_valid_go]. rewrite Hc. cbn [drop andb].
  rewrite drop_app_length. apply IH. lia.
Qed.

Lemma utf8_ascii s : forallb is_ascii s = true → utf8 s.
Proof.
  induction s as [|b s IH]; [constructor|]. intros [Hb Hs]%andb_prop.
  apply (utf8_char b []); [|by apply IH]. intros t'. unfold utf8_step. unfold is_ascii in Hb. by rewrite Hb.
Qed.

(** ** Splitting on the first and on the last separator *)

Lemma split_once_None c s : split_once c s = None → forallb (λ x, negb (x =? c)) s = true.
Proof.
  unfold split_once. induction s as [|x s IH]; [done|]. cbn [split_at_first strip_prefix forallb].
  destruct (Z.eqb_spec c x); [by destruct s|]. destruct (split_at_first [c] s) as [[]|]; [done|].
  intros _. rewrite IH by done. by apply andb_true_intro; split; [apply negb_true_iff, Z.eqb_neq|].
Qed.

Lemma split_once_Some c s a b :
  split_once c s = Some (a, b) → s = a ++ c :: b ∧ forallb (λ x, negb (x =? c)) a = true.
Proof.
  intros E. split; [by apply split_at_first_Some in E|].
  unfold split_once in E. revert a b E.
  induction s as [|x s IH]; intros a b; cbn [split_at_first strip_prefix]; [done|].
  destruct (Z.eqb_spec c x); [by destruct s; intros [= <- <-]|].
  destruct (split_at_first [c] s) as [[a' b']|] eqn:E; [|done]. intros [= <- <-]. cbn [forallb].
  rewrite (IH a' b' eq_refl). by apply andb_true_intro; split; [apply negb_true_iff, Z.eqb_neq|].
Qed.

Lemma rsplit_once_Some c s a b :
  rsplit_once c s = Some (a, b) → s = a ++ c :: b ∧ forallb (λ x, negb (x =? c)) b = true.
Proof.
  unfold rsplit_once. destruct (split_once c (reverse s)) as [[b' a']|] eqn:E; [|done].
  intros [= <- <-]. apply split_once_Some in E as [E Hb]. split; [|by apply forallb_reverse].
  apply (f_equal reverse) in E. by rewrite reverse_involutive, reverse_app, reverse_cons, <- app_assoc in E.
Qed.

Lemma rsplit_once_None c s : rsplit_once c s = None → forallb (λ x, negb (x =? c)) s = true.
Proof.
  unfold rsplit_once. destruct (split_once c (reverse s)) as [[]|] eqn:E; [done|]. intros _.
  apply split_once_None, forallb_reverse in E. by rewrite reverse_involutive in E.
Qed.

Lemma rsplit_once_app c a b :
  forallb (λ x, negb (x =? c)) b = true → rsplit_once c (a ++ c :: b) = Some (a, b).
Proof.
  intros Hb. unfold rsplit_once. rewrite reverse_app, reverse_cons, <- app_assoc.
  cbn [app]. rewrite split_once_app by by apply forallb_reverse. by rewrite !reverse_involutive.
Qed.

Lemma rsplit_once_none c s : forallb (λ x, negb (x =? c)) s = true → rsplit_once c s = None.
Proof. intros Hs. unfold rsplit_once. by rewrite split_once_none by by apply forallb_reverse. Qed.

(** What is trimmed is part of the text. *)
Lemma trim_part s : ∃ p q, s = p ++ trim s ++ q.
Proof.
  destruct (strip_all_spec white_space white_space_not_nil (length s) s) as (qs & Hq & _ & _); [done|].
  set (t := trim_start s).
  destruct (strip_all_spec (map reverse white_space) white_space_rev_not_nil (length t) (reverse t))
    as (rs & Hr & _ & _); [by rewrite length_reverse|].
  exists (concat qs), (reverse (concat rs)). unfold trim, trim_end. fold t.
  rewrite Hq at 1. fold (trim_start s). fold t. f_equal.
  apply (f_equal reverse) in Hr. rewrite reverse_involutive, reverse_app in Hr. exact Hr.
Qed.

Lemma bytes_ok_part p s q : bytes_ok (p ++ s ++ q) → bytes_ok s.
Proof. unfold bytes_ok. rewrite !Forall_app. naive_solver. Qed.

Lemma trim_ok s : bytes_ok s → bytes_ok (trim s).
Proof. destruct (trim_part s) as (p & q & E). rewrite E at 1. apply bytes_ok_part. Qed.

Lemma trim_end_matches_id c s x : (x =? c) = false → trim_end_matches c (s ++ [x]) = s ++ [x].
Proof.
  intros Hx. unfold trim_end_matches. rewrite reverse_snoc. cbn [drop_while]. rewrite Hx.
  by rewrite reverse_cons, reverse_involutive.
Qed.

(** The first occurrence of a separator that cannot start earlier. *)
Lemma split_at_first_app p c a b :
  forallb (λ x, negb (x =? c)) a = true → split_at_first (c :: p) (a ++ c :: p ++ b) = Some (a, b).
Proof.
  induction a as [|x a IH]; intros Ha.
  - cbn [app split_at_first]. destruct (strip_prefix (c :: p) (c :: p ++ b)) eqn:E.
    + apply strip_prefix_Some in E. cbn in E. injection E as E. by apply app_inv_head in E as ->.
    + assert (strip_prefix (c :: p) (c :: p ++ b) = Some b) as E' by by apply strip_prefix_Some.
      congruence.
  - apply andb_true_iff in Ha as [Hx%negb_true_iff Ha].
    change ((x :: a) ++ c :: p ++ b) with (x :: a ++ c :: p ++ b).
    cbn [split_at_first]. cbn [strip_prefix]. by rewrite Z.eqb_sym, Hx, IH.
Qed.
