(* ===== verification/Net.v ===== *)
(** * Internet addresses, as [std::net] has them

    [IpAddr] and [SocketAddr] with the predicates the core asks of them.  An
    IPv4 address is its 32-bit value and an IPv6 address its 128-bit value, as
    [Ipv4Addr::to_bits] and [Ipv6Addr::to_bits] give them.  The flow label and
    scope of a [SocketAddrV6] are not kept: the core only builds addresses
    where both are zero. *)

From stdpp Require Import countable.
From S2P Require Import Prelude.

Inductive IpAddr :=
| V4 (bits : Z)
| V6 (bits : Z).

Record SocketAddr := SockAddr { sa_ip : IpAddr; sa_port : Z }.

#[export] Instance IpAddr_eq_dec : EqDecision IpAddr.
Proof. solve_decision. Defined.
#[export] Instance SocketAddr_eq_dec : EqDecision SocketAddr.
Proof. solve_decision. Defined.
#[export] Instance IpAddr_countable : Countable IpAddr.
Proof.
  apply (inj_countable'
    (λ a, match a with V4 b => (true, b) | V6 b => (false, b) end)
    (λ p, match p with (true, b) => V4 b | (false, b) => V6 b end)).
  by intros [].
Defined.
#[export] Instance SocketAddr_countable : Countable SocketAddr.
Proof.
  apply (inj_countable' (λ a, (sa_ip a, sa_port a)) (λ p, SockAddr p.1 p.2)).
  by intros [].
Defined.

Definition is_ipv4 (a : IpAddr) : bool := match a with V4 _ => true | V6 _ => false end.
Definition is_ipv6 (a : IpAddr) : bool := negb (is_ipv4 a).

(** [octets()]: the bytes of an address in network order. *)
Definition ip_octets (a : IpAddr) : bytes :=
  match a with V4 b => be_bytes 4 b | V6 b => be_bytes 16 b end.

Definition v4_of (o : bytes) : IpAddr := V4 (be_val o).
Definition v6_of (o : bytes) : IpAddr := V6 (be_val o).

Definition ip_ok (a : IpAddr) : Prop :=
  match a with V4 b => 0 ≤ b < 2 ^ 32 | V6 b => 0 ≤ b < 2 ^ 128 end.
Definition sa_ok (a : SocketAddr) : Prop := ip_ok (sa_ip a) ∧ u16 (sa_port a).

#[export] Instance ip_ok_dec a : Decision (ip_ok a).
Proof. destruct a; cbn; apply _. Defined.
#[export] Instance sa_ok_dec a : Decision (sa_ok a).
Proof. unfold sa_ok. apply _. Defined.

Lemma ip_octets_ok a : bytes_ok (ip_octets a).
Proof. destruct a; apply be_bytes_ok. Qed.

Lemma v4_of_octets b : 0 ≤ b < 2 ^ 32 → v4_of (be_bytes 4 b) = V4 b.
Proof. intros H. unfold v4_of. by rewrite be_val_small. Qed.

Lemma v6_of_octets b : 0 ≤ b < 2 ^ 128 → v6_of (be_bytes 16 b) = V6 b.
Proof. intros H. unfold v6_of. by rewrite be_val_small. Qed.

(** [bits] lies in the block of [addr] with [len] leading bits fixed, of an
    address of [width] bits. *)
Definition in_block (width addr len bits : Z) : bool :=
  Z.shiftr bits (width - len) =? Z.shiftr addr (width - len).

Definition octet (b k : Z) : Z := Z.land (Z.shiftr b (8 * (3 - k))) 255.
Definition segment0 (b : Z) : Z := Z.shiftr b 112.

(** The predicates of [Ipv4Addr]. *)
Definition v4_is_private (b : Z) : bool :=
  (octet b 0 =? 10)
  || ((octet b 0 =? 172) && (16 <=? octet b 1) && (octet b 1 <=? 31))
  || ((octet b 0 =? 192) && (octet b 1 =? 168)).
Definition v4_is_loopback (b : Z) : bool := octet b 0 =? 127.
Definition v4_is_link_local (b : Z) : bool := (octet b 0 =? 169) && (octet b 1 =? 254).
Definition v4_is_broadcast (b : Z) : bool := b =? 2 ^ 32 - 1.
Definition v4_is_documentation (b : Z) : bool :=
  ((octet b 0 =? 192) && (octet b 1 =? 0) && (octet b 2 =? 2))
  || ((octet b 0 =? 198) && (octet b 1 =? 51) && (octet b 2 =? 100))
  || ((octet b 0 =? 203) && (octet b 1 =? 0) && (octet b 2 =? 113)).
Definition v4_is_unspecified (b : Z) : bool := b =? 0.

(** The predicates of [Ipv6Addr]. *)
Definition v6_is_loopback (b : Z) : bool := b =? 1.
Definition v6_is_unspecified (b : Z) : bool := b =? 0.

Definition is_loopback (a : IpAddr) : bool :=
  match a with V4 b => v4_is_loopback b | V6 b => v6_is_loopback b end.
Definition is_unspecified (a : IpAddr) : bool :=
  match a with V4 b => v4_is_unspecified b | V6 b => v6_is_unspecified b end.

(** [Ipv6Addr::to_ipv4_mapped]: the address inside ::ffff:0:0/96. *)
Definition to_ipv4_mapped (b : Z) : option Z :=
  if Z.shiftr b 32 =? 0xffff then Some (Z.land b 0xffffffff) else None.
