(* ===== verification/NetText.v ===== *)
(** * The text of addresses: [FromStr] and [Display] of [std::net]

    The parser of core::net::parser, as combinators over the bytes left to
    read, and the formatting of addresses. *)

From stdpp Require Import strings.
From S2P Require Import Prelude Text Net.

(** A parser reads a prefix of its input or leaves it alone. *)
Abbreviation parser A := (bytes → option (A * bytes)).

Definition read_given_char (c : Z) : parser () := λ s,
  match s with x :: r => if x =? c then Some ((), r) else None | [] => None end.

Definition to_digit (radix c : Z) : option Z :=
  let d := if is_ascii_digit c then c - 48
           else if is_ascii_lowercase c then c - 87
           else if is_ascii_uppercase c then c - 55 else 99 in
  if d <? radix then Some d else None.

(** The digits at the front of the input: their value, their number. *)
Fixpoint read_digits (radix acc count : Z) (s : bytes) : Z * Z * bytes :=
  match s with
  | c :: r =>
      match to_digit radix c with
      | Some d => read_digits radix (acc * radix + d) (count + 1) r
      | None => (acc, count, s)
      end
  | [] => (acc, count, s)
  end.

(** [read_number(radix, max_digits, allow_zero_prefix)] of a type with
    largest value [max]. *)
Definition read_number (radix : Z) (max_digits : option Z) (allow_zero_prefix : bool) (max : Z)
  : parser Z := λ s,
  let has_leading_zero := match s with 48 :: _ => true | _ => false end in
  let '(v, count, r) := read_digits radix 0 0 s in
  if match max_digits with Some m => m <? count | None => false end then None
  else if count =? 0 then None
  else if negb allow_zero_prefix && has_leading_zero && (1 <? count) then None
  else if v <=? max then Some (v, r) else None.

(** [read_separator(sep, index, inner)]. *)
Definition read_separator {A} (sep : Z) (index : nat) (inner : parser A) : parser A := λ s,
  match index with
  | O => inner s
  | S _ => '(_, s) ← read_given_char sep s; inner s
  end.

Definition read_octet : parser Z := read_number 10 (Some 3) false 255.

Definition read_ipv4_addr : parser Z := λ s,
  '(a, s) ← read_octet s;
  '(b, s) ← read_separator 46 1 read_octet s;
  '(c, s) ← read_separator 46 2 read_octet s;
  '(d, s) ← read_separator 46 3 read_octet s;
  Some (be_val [a; b; c; d], s).

(** [read_groups]: up to [limit] groups, the last two possibly an IPv4
    address; the groups, whether they end in one, and the rest. *)
Fixpoint read_groups (limit : nat) (i : nat) (s : bytes) : list Z * bool * bytes :=
  match limit with
  | O => ([], false, s)
  | S limit' =>
      let v4 := match limit' with
                | O => None
                | S _ => read_separator 58 i read_ipv4_addr s
                end in
      match v4 with
      | Some (b, s) => ([Z.shiftr b 16; Z.land b 0xffff], true, s)
      | None =>
          match read_separator 58 i (read_number 16 (Some 4) true 65535) s with
          | Some (g, s) =>
              let '(gs, v4, s) := read_groups limit' (S i) s in (g :: gs, v4, s)
          | None => ([], false, s)
          end
      end
  end.

Definition segments_val (gs : list Z) : Z := fold_left (λ acc g, acc * 65536 + g) gs 0.

Definition read_ipv6_addr : parser Z := λ s,
  let '(head, head_ipv4, s) := read_groups 8 0 s in
  if (length head =? 8)%nat then Some (segments_val head, s)
  else if head_ipv4 then None
  else
    '(_, s) ← read_given_char 58 s;
    '(_, s) ← read_given_char 58 s;
    let limit := (8 - (length head + 1))%nat in
    let '(tail, _, s) := read_groups limit 0 s in
    Some (segments_val (head ++ replicate (8 - length head - length tail) 0 ++ tail), s).

Definition read_ip_addr : parser IpAddr := λ s,
  match read_ipv4_addr s with
  | Some (b, s) => Some (V4 b, s)
  | None => '(b, s) ← read_ipv6_addr s; Some (V6 b, s)
  end.

(** [parse_with]: the whole text has to be read. *)
Definition parse_with {A} (p : parser A) (s : bytes) : option A :=
  match p s with Some (a, []) => Some a | _ => None end.

(** [s.parse::<IpAddr>().ok()], and of the two families. *)
Definition parse_ip : bytes → option IpAddr := parse_with read_ip_addr.
Definition parse_ipv4 (s : bytes) : option Z :=
  if 15 <? blen s then None else parse_with read_ipv4_addr s.
Definition parse_ipv6 : bytes → option Z := parse_with read_ipv6_addr.

Definition read_port : parser Z := λ s,
  '(_, s) ← read_given_char 58 s; read_number 10 None true 65535 s.

Definition read_socket_addr_v4 : parser SocketAddr := λ s,
  '(ip, s) ← read_ipv4_addr s;
  '(port, s) ← read_port s;
  Some (SockAddr (V4 ip) port, s).

(** A scope ([%number]) is read and dropped. *)
Definition read_scope_id : parser () := λ s,
  '(_, s) ← read_given_char 37 s;
  '(_, s) ← read_number 10 None true (2 ^ 32 - 1) s;
  Some ((), s).

Definition read_socket_addr_v6 : parser SocketAddr := λ s,
  '(_, s) ← read_given_char 91 s;
  '(ip, s) ← read_ipv6_addr s;
  let s := match read_scope_id s with Some (_, s) => s | None => s end in
  '(_, s) ← read_given_char 93 s;
  '(port, s) ← read_port s;
  Some (SockAddr (V6 ip) port, s).

(** [s.parse::<SocketAddr>().ok()]. *)
Definition parse_socket_addr : bytes → option SocketAddr :=
  parse_with (λ s, match read_socket_addr_v4 s with
                   | Some r => Some r
                   | None => read_socket_addr_v6 s
                   end).

(** ** Display *)

Definition show_v4 (b : Z) : bytes :=
  decimal (octet b 0) ++ [46] ++ decimal (octet b 1) ++ [46]
  ++ decimal (octet b 2) ++ [46] ++ decimal (octet b 3).

Definition segments (b : Z) : list Z :=
  map (λ k, Z.land (Z.shiftr b (16 * (7 - Z.of_nat k))) 0xffff) (seq 0 8).

Definition hex_digit (d : Z) : Z := if d <? 10 then 48 + d else 87 + d.

(** [{:x}] of a 16-bit group. *)
Definition hex16 (g : Z) : bytes :=
  let ds := map hex_digit [g / 4096; g / 256 mod 16; g / 16 mod 16; g mod 16] in
  let short := drop_while (λ x, x =? 48) ds in
  if is_empty short then [48] else short.

(** The first longest run of zero groups: (start, length). *)
Fixpoint zero_span (i : nat) (cur best : nat * nat) (gs : list Z) : nat * nat :=
  match gs with
  | [] => best
  | g :: gs =>
      if g =? 0 then
        let cur := (if (cur.2 =? 0)%nat then i else cur.1, S cur.2) in
        zero_span (S i) cur (if (best.2 <? cur.2)%nat then cur else best) gs
      else zero_span (S i) (0%nat, 0%nat) best gs
  end.

Definition show_v6 (b : Z) : bytes :=
  match to_ipv4_mapped b with
  | Some v4 => lit "::ffff:" ++ show_v4 v4
  | None =>
      let gs := segments b in
      let '(start, len) := zero_span 0 (0%nat, 0%nat) (0%nat, 0%nat) gs in
      let show := λ l, join [58] (map hex16 l) in
      if (1 <? len)%nat
      then show (take start gs) ++ lit "::" ++ show (drop (start + len) gs)
      else show gs
  end.

Definition show_ip (a : IpAddr) : bytes :=
  match a with V4 b => show_v4 b | V6 b => show_v6 b end.

Definition show_socket_addr (a : SocketAddr) : bytes :=
  match sa_ip a with
  | V4 b => show_v4 b ++ [58] ++ decimal (sa_port a)
  | V6 b => [91] ++ show_v6 b ++ [93; 58] ++ decimal (sa_port a)
  end.

Example parse_ip_ex1 : parse_ip (lit "192.168.1.20") = Some (V4 0xc0a80114).
Proof. by vm_compute. Qed.
Example parse_ip_ex2 : parse_ip (lit "01.2.3.4") = None ∧ parse_ip (lit "1.2.3") = None.
Proof. by vm_compute. Qed.
Example parse_ip_ex3 :
  parse_ip (lit "2001:db8::1") = Some (V6 0x20010db8000000000000000000000001) ∧
  parse_ip (lit "::ffff:1.2.3.4") = Some (V6 0xffff01020304) ∧ parse_ip (lit "::") = Some (V6 0).
Proof. by vm_compute. Qed.
Example show_ip_ex :
  show_ip (V6 0x20010db8000000000000000000000001) = lit "2001:db8::1" ∧
  show_ip (V6 0xffff01020304) = lit "::ffff:1.2.3.4" ∧ show_ip (V6 0) = lit "::" ∧
  show_socket_addr (SockAddr (V6 1) 53) = lit "[::1]:53".
Proof. by vm_compute. Qed.
Example parse_socket_ex :
  parse_socket_addr (lit "[::1]:53") = Some (SockAddr (V6 1) 53) ∧
  parse_socket_addr (lit "1.1.1.1:0443") = Some (SockAddr (V4 0x01010101) 443) ∧
  parse_socket_addr (lit "1.1.1.1") = None.
Proof. by vm_compute. Qed.

(** ** Reading back what was shown *)

Definition no_digit_next (r : bytes) : Prop :=
  match r with [] => True | c :: _ => to_digit 10 c = None end.

Lemma to_digit_digit d : is_ascii_digit d = true → to_digit 10 d = Some (d - 48).
Proof.
  intros H. unfold to_digit. rewrite H. unfold is_ascii_digit in H.
  apply andb_true_iff in H as [H1%Z.leb_le H2%Z.leb_le]. destruct (Z.ltb_spec (d - 48) 10); [done|lia].
Qed.

Lemma read_digits_app max acc count ds r v :
  forallb is_ascii_digit ds = true → no_digit_next r → digits_go max acc ds = Some v →
  read_digits 10 acc count (ds ++ r) = (v, count + blen ds, r).
Proof.
  intros Hd Hr. revert acc count. induction ds as [|d ds IH]; intros acc count Hv; cbn [app].
  - injection Hv as <-. rewrite blen_nil, Z.add_0_r. destruct r as [|c r]; [done|]. cbn in *. by rewrite Hr.
  - apply andb_true_iff in Hd as [Hd Hds]. cbn [digits_go] in Hv. rewrite Hd in Hv.
    destruct (_ <=? max); [|done]. cbn [read_digits]. rewrite to_digit_digit by done.
    rewrite (IH Hds _ _ Hv). f_equal. f_equal. rewrite blen_cons. lia.
Qed.

Lemma read_number_decimal max_digits allow max v r :
  0 ≤ v ≤ max → no_digit_next r →
  match max_digits with Some m => blen (decimal v) ≤ m | None => True end →
  read_number 10 max_digits allow max (decimal v ++ r) = Some (v, r).
Proof.
  intros Hv Hr Hm. destruct (decimal_spec v) as (Hne & Hd & Hp & Hz); [lia|]. unfold read_number.
  rewrite (read_digits_app max 0 0 (decimal v) r v) by (done || apply Hp; lia).
  cbn zeta. rewrite Z.add_0_l.
  assert (match max_digits with Some m => m <? blen (decimal v) | None => false end = false) as ->.
  { destruct max_digits as [m|]; [|done]. apply Z.ltb_ge. lia. }
  assert (0 < blen (decimal v)) as Hl by (destruct (decimal v); [done|blia]).
  destruct (Z.eqb_spec (blen (decimal v)) 0); [lia|].
  assert ((match decimal v ++ r with 48 :: _ => true | _ => false end) && (1 <? blen (decimal v)) = false) as Hlz.
  { destruct (decimal v) as [|d ds]; [done|]. cbn [app].
    destruct (Z.eq_dec d 48) as [->|Hn]; [rewrite (Hz eq_refl); done|].
    repeat (case_match; try done). }
  destruct allow; cbn [negb andb]; [|rewrite Hlz]; (destruct (Z.leb_spec v max); [done|lia]).
Qed.

Lemma decimal_octet v : 0 ≤ v < 256 → blen (decimal v) ≤ 3.
Proof.
  intros Hv. assert (forallb (λ n, blen (decimal (Z.of_nat n)) <=? 3) (seq 0 256) = true) as H by by vm_compute.
  rewrite forallb_forall in H. specialize (H (Z.to_nat v)). rewrite Z2Nat.id in H by lia.
  apply Z.leb_le, H. apply in_seq. lia.
Qed.

Lemma octet_range b k : 0 ≤ octet b k < 256.
Proof. unfold octet. rewrite land_255. apply Z.mod_pos_bound. lia. Qed.

Lemma octets_val b : 0 ≤ b < 2 ^ 32 → be_val [octet b 0; octet b 1; octet b 2; octet b 3] = b.
Proof. intros Hb. exact (be_val_small 4 b Hb). Qed.

Lemma read_ipv4_show b r :
  0 ≤ b < 2 ^ 32 → no_digit_next r → read_ipv4_addr (show_v4 b ++ r) = Some (b, r).
Proof.
  intros Hb Hr. unfold show_v4, read_ipv4_addr, read_separator, read_octet.
  rewrite <- !app_assoc. pose proof (octet_range b).
  assert (∀ k r, no_digit_next r →
    read_number 10 (Some 3) false 255 (decimal (octet b k) ++ r) = Some (octet b k, r)) as Hk.
  { intros k r' Hr'. pose proof (octet_range b k). apply read_number_decimal; [lia|done|by apply decimal_octet]. }
  rewrite Hk by done. cbn [mbind option_bind app read_given_char Z.eqb Pos.eqb].
  rewrite Hk by done. cbn [mbind option_bind app read_given_char Z.eqb Pos.eqb].
  rewrite Hk by done. cbn [mbind option_bind app read_given_char Z.eqb Pos.eqb].
  rewrite Hk by done. cbn [mbind option_bind]. by rewrite octets_val.
Qed.

Lemma parse_show_v4 b : 0 ≤ b < 2 ^ 32 → parse_ip (show_v4 b) = Some (V4 b).
Proof.
  intros Hb. unfold parse_ip, parse_with, read_ip_addr.
  pose proof (read_ipv4_show b [] Hb I) as H. rewrite app_nil_r in H. by rewrite H.
Qed.

Lemma parse_show_socket_v4 b port :
  0 ≤ b < 2 ^ 32 → u16 port →
  parse_socket_addr (show_socket_addr (SockAddr (V4 b) port)) = Some (SockAddr (V4 b) port).
Proof.
  intros Hb Hp. unfold parse_socket_addr, parse_with, show_socket_addr, read_socket_addr_v4, read_port.
  cbn [sa_ip sa_port]. rewrite read_ipv4_show by done. cbn [mbind option_bind app read_given_char Z.eqb Pos.eqb].
  pose proof (read_number_decimal None true 65535 port []) as H. rewrite app_nil_r in H.
  unfold u16 in Hp. rewrite H by (done || lia). done.
Qed.

Lemma graphic_digit d : is_ascii_digit d = true → graphic d = true.
Proof. unfold is_ascii_digit, graphic. rewrite !andb_true_iff, !Z.leb_le. lia. Qed.

Lemma decimal_graphic v : 0 ≤ v → forallb graphic (decimal v) = true.
Proof.
  intros Hv. destruct (decimal_spec v Hv) as (_ & Hd & _). revert Hd. apply forallb_impl, graphic_digit.
Qed.

Lemma show_v4_graphic b : forallb graphic (show_v4 b) = true.
Proof.
  unfold show_v4. rewrite !forallb_app, !decimal_graphic by apply octet_range. done.
Qed.
