(* ===== verification/Octets.v ===== *)
(** * The byte cursor of quiche/octets

    [Octets] and [OctetsMut] (src/quiche/octets/src/lib.rs): a buffer and an
    offset that advances as integers, variable-length integers and byte
    strings are read or written.  MASQUE datagrams and capsules are encoded
    and decoded with it.

    The cursor is passed explicitly.  A read answers [Ok (v, b')], or
    [Err tt] for [BufferTooShortError], in which case the code leaves the
    cursor as it was; slicing outside the buffer and [unreachable!()] are
    [Panic]. *)

From S2P Require Import Prelude.

Definition MAX_VAR_INT : Z := 4611686018427387903.

Record octets := Octets { buf : bytes; off : Z }.

(** The invariant of the cursor: the offset is inside the buffer. *)
Definition cursor_ok (b : octets) : Prop := 0 ≤ off b ≤ blen (buf b).

Definition with_slice (l : bytes) : octets := Octets l 0.
Definition cap (b : octets) : Z := blen (buf b) - off b.

(** [&self.buf[self.off..] ]. *)
Definition as_ref (b : octets) : comp () bytes :=
  index_range (buf b) (off b) (blen (buf b)).
Definition to_vec (b : octets) : comp () bytes := as_ref b.

(** The macros [peek_u!] and [get_u!]: an [n]-byte big-endian integer. *)
Definition peek_u (n : Z) (b : octets) : comp () Z :=
  src ← as_ref b;
  if blen src <? n then Err () else Ok (be_val (takez n src)).

Definition get_u (n : Z) (b : octets) : comp () (Z * octets) :=
  out ← peek_u n b;
  Ok (out, Octets (buf b) (off b + n)).

Definition get_u8 := get_u 1.
Definition peek_u8 := peek_u 1.
Definition get_u16 := get_u 2.
Definition get_u24 := get_u 3.
Definition get_u32 := get_u 4.
Definition get_u64 := get_u 8.

(** [varint_parse_len]: the two high bits of the first byte. *)
Definition varint_parse_len (first : Z) : comp () Z :=
  match Z.shiftr first 6 with
  | 0 => Ok 1
  | 1 => Ok 2
  | 2 => Ok 4
  | 3 => Ok 8
  | _ => Panic
  end.

Definition get_varint (b : octets) : comp () (Z * octets) :=
  first ← peek_u8 b;
  len ← varint_parse_len first;
  if cap b <? len then Err () else
  match len with
  | 1 => get_u8 b
  | 2 => '(v, b') ← get_u16 b; Ok (Z.land v 0x3fff, b')
  | 4 => '(v, b') ← get_u32 b; Ok (Z.land v 0x3fffffff, b')
  | 8 => '(v, b') ← get_u64 b; Ok (Z.land v 0x3fffffffffffffff, b')
  | _ => Panic
  end.

Definition get_bytes (len : Z) (b : octets) : comp () (octets * octets) :=
  if cap b <? len then Err () else
  out ← index_range (buf b) (off b) (off b + len);
  Ok (with_slice out, Octets (buf b) (off b + len)).

Definition get_bytes_with_u8_length (b : octets) : comp () (octets * octets) :=
  '(len, b') ← get_u8 b; get_bytes len b'.

Definition get_bytes_with_u16_length (b : octets) : comp () (octets * octets) :=
  '(len, b') ← get_u16 b; get_bytes len b'.

Definition get_bytes_with_varint_length `{arch} (b : octets) : comp () (octets * octets) :=
  '(len, b') ← get_varint b; get_bytes (as_usize len) b'.

Definition peek_bytes (len : Z) (b : octets) : comp () octets :=
  if cap b <? len then Err () else
  out ← index_range (buf b) (off b) (off b + len);
  Ok (with_slice out).

Definition rewind (len : Z) (b : octets) : comp () octets :=
  if off b <? len then Err () else Ok (Octets (buf b) (off b - len)).

Definition slice_ (len : Z) (b : octets) : comp () bytes :=
  if cap b <? len then Err () else index_range (buf b) (off b) (off b + len).

Definition slice_last (len : Z) (b : octets) : comp () bytes :=
  if cap b <? len then Err () else
  index_range (buf b) (blen (buf b) - len) (blen (buf b)).

Definition skip (n : Z) (b : octets) : comp () octets :=
  if cap b <? n then Err () else Ok (Octets (buf b) (off b + n)).

(** ** Writing *)

(** [dst.copy_from_slice(src)] on the slice of [l] that starts at [i]. *)
Definition overwrite (l : bytes) (i : Z) (s : bytes) : bytes :=
  takez i l ++ s ++ dropz (i + blen s) l.

(** The macro [put_u!]: the low [n] bytes of [v], in network order.  [tag] is
    or-ed into the first byte written, as [put_varint_with_len] does with the
    slice it gets back. *)
Definition put_u (n : nat) (tag v : Z) (b : octets) : comp () octets :=
  if blen (buf b) <? off b + Z.of_nat n then Err () else
  match be_bytes n v with
  | [] => Ok b
  | x :: r =>
      Ok (Octets (overwrite (buf b) (off b) (Z.lor x tag :: r)) (off b + Z.of_nat n))
  end.

Definition put_u8 := put_u 1 0.
Definition put_u16 := put_u 2 0.
Definition put_u24 := put_u 3 0.
Definition put_u32 := put_u 4 0.
Definition put_u64 := put_u 8 0.

Definition varint_len (v : Z) : comp () Z :=
  if v <=? 63 then Ok 1
  else if v <=? 16383 then Ok 2
  else if v <=? 1073741823 then Ok 4
  else if v <=? MAX_VAR_INT then Ok 8
  else Panic.

Definition put_varint_with_len (v len : Z) (b : octets) : comp () octets :=
  if cap b <? len then Err () else
  match len with
  | 1 => put_u8 (as_u8 v) b
  | 2 => put_u 2 0x40 (as_u16 v) b
  | 4 => put_u 4 0x80 (as_u32 v) b
  | 8 => put_u 8 0xc0 v b
  | _ => Panic
  end.

Definition put_varint (v : Z) (b : octets) : comp () octets :=
  len ← varint_len v; put_varint_with_len v len b.

Definition put_bytes (v : bytes) (b : octets) : comp () octets :=
  let len := blen v in
  if cap b <? len then Err ()
  else if len =? 0 then Ok b
  else Ok (Octets (overwrite (buf b) (off b) v) (off b + len)).

Definition split_at (o : Z) (b : octets) : comp () (octets * octets) :=
  if blen (buf b) <? o then Err () else
  Ok (with_slice (takez o (buf b)), with_slice (dropz o (buf b))).

(** ** The invariant: every operation keeps the offset inside the buffer and
    none panics on a buffer of bytes. *)

(** What a cursor has left to read. *)
Definition reads (b : octets) (r : bytes) : Prop := suffix_at (buf b) (off b) r.

Lemma reads_with_slice l : reads (with_slice l) l.
Proof. apply suffix_at_0. Qed.

Lemma reads_cap b r : reads b r → cap b = blen r.
Proof. intros H. unfold cap. rewrite (suffix_at_len _ _ _ H). lia. Qed.

Lemma ok_reads b : cursor_ok b → reads b (dropz (off b) (buf b)).
Proof. apply suffix_at_drop. Qed.

Lemma as_ref_reads b r : reads b r → as_ref b = Ok r.
Proof.
  intros H. unfold as_ref, index_range.
  rewrite (suffix_at_slice (buf b) (off b) r []); [done| |].
  - by rewrite app_nil_r.
  - by apply suffix_at_len.
Qed.

Lemma peek_u_reads n b s r :
  reads b (s ++ r) → blen s = n → peek_u n b = Ok (be_val s).
Proof.
  intros H <-. unfold peek_u. rewrite (as_ref_reads _ _ H). cbn.
  destruct (Z.ltb_spec (blen (s ++ r)) (blen s)); [blia|]. by rewrite takez_app.
Qed.

Lemma peek_u_short n b r : reads b r → blen r < n → peek_u n b = Err ().
Proof.
  intros H Hn. unfold peek_u. rewrite (as_ref_reads _ _ H). cbn.
  by destruct (Z.ltb_spec (blen r) n); [|lia].
Qed.

Lemma get_u_reads n b s r :
  reads b (s ++ r) → blen s = n →
  get_u n b = Ok (be_val s, Octets (buf b) (off b + n)) ∧
  reads (Octets (buf b) (off b + n)) r.
Proof.
  intros H Hn. unfold get_u. rewrite (peek_u_reads n b s r) by done.
  split; [done|]. rewrite <- Hn. by apply suffix_at_app.
Qed.

Lemma get_bytes_reads b s r :
  reads b (s ++ r) →
  get_bytes (blen s) b = Ok (with_slice s, Octets (buf b) (off b + blen s)) ∧
  reads (Octets (buf b) (off b + blen s)) r.
Proof.
  intros H. unfold get_bytes. rewrite (reads_cap _ _ H).
  destruct (Z.ltb_spec (blen (s ++ r)) (blen s)); [blia|].
  unfold index_range. rewrite (suffix_at_slice _ _ _ _ _ H eq_refl).
  split; [done|]. by apply suffix_at_app.
Qed.

(** ** Variable-length integers *)

Definition tagged (t : Z) (l : bytes) : bytes :=
  match l with [] => [] | x :: r => Z.lor x t :: r end.

(** The encoding of RFC 9000, section 16: one, two, four or eight bytes, the
    length in the two high bits of the first. *)
Definition varint_enc (v : Z) : bytes :=
  if v <=? 63 then tagged 0 (be_bytes 1 v)
  else if v <=? 16383 then tagged 0x40 (be_bytes 2 v)
  else if v <=? 1073741823 then tagged 0x80 (be_bytes 4 v)
  else tagged 0xc0 (be_bytes 8 v).

Lemma lor_tag x t : 0 ≤ x < 64 → 0 ≤ t → Z.lor x (64 * t) = x + 64 * t.
Proof.
  intros Hx Ht. replace (64 * t) with (Z.shiftl t 6) by (rewrite Z.shiftl_mul_pow2; lia).
  rewrite <- Z.add_lor_land.
  enough (Z.land x (Z.shiftl t 6) = 0) by lia.
  apply Z.bits_inj'. intros n Hn. rewrite Z.land_spec, Z.bits_0.
  destruct (Z.ltb_spec n 6).
  - rewrite (Z.shiftl_spec_low t 6 n) by lia. apply andb_false_r.
  - replace (Z.testbit x n) with false; [done|]. symmetry.
    destruct (Z.eq_dec x 0) as [->|]; [apply Z.bits_0|].
    apply Z.bits_above_log2; [lia|].
    assert (Z.log2 x < 6) by (apply Z.log2_lt_pow2; lia). lia.
Qed.

(** The tagged big-endian form of a value that leaves the two high bits free:
    the tag is read back from the first byte and masked out of the value. *)
Lemma tagged_be n v t :
  0 ≤ t < 4 → 0 ≤ v < 64 * 256 ^ Z.of_nat n →
  ∃ x r, tagged (64 * t) (be_bytes (S n) v) = x :: r ∧
    Z.shiftr x 6 = t ∧ u8 x ∧ blen (x :: r) = Z.of_nat (S n) ∧
    be_val (x :: r) = v + t * (64 * 256 ^ Z.of_nat n) ∧ bytes_ok (x :: r).
Proof.
  intros Ht Hv. cbn [be_bytes tagged].
  assert (0 < 256 ^ Z.of_nat n) as Hp by lia.
  set (x := Z.land (Z.shiftr v (8 * Z.of_nat n)) 255).
  assert (x = v / 256 ^ Z.of_nat n) as Hx.
  { unfold x. rewrite land_255, Z.shiftr_div_pow2 by lia.
    replace (2 ^ (8 * Z.of_nat n)) with (256 ^ Z.of_nat n)
      by (rewrite Z.pow_mul_r by lia; done).
    apply Z.mod_small. split; [apply Z.div_pos; lia|]. apply Z.div_lt_upper_bound; lia. }
  assert (0 ≤ x < 64) as Hx6.
  { rewrite Hx. split; [apply Z.div_pos; lia|]. apply Z.div_lt_upper_bound; lia. }
  rewrite lor_tag by lia. eexists _, _. split; [done|].
  split; [|split; [|split; [|split]]].
  - rewrite Z.shiftr_div_pow2 by lia. change (2 ^ 6) with 64.
    replace (x + 64 * t) with (x + t * 64) by lia.
    rewrite Z.div_add, Z.div_small; lia.
  - unfold u8. lia.
  - rewrite blen_cons, blen_be_bytes. lia.
  - rewrite be_val_cons, blen_be_bytes, be_val_be_bytes.
    rewrite Hx. pose proof (Z.div_mod v (256 ^ Z.of_nat n)). lia.
  - constructor; [unfold u8; lia|]. apply be_bytes_ok.
Qed.

Definition varint_ok (v : Z) : Prop := 0 ≤ v ≤ MAX_VAR_INT.

Ltac varint_cases v :=
  unfold varint_enc, varint_len;
  destruct (Z.leb_spec v 63);
  [|destruct (Z.leb_spec v 16383); [|destruct (Z.leb_spec v 1073741823)]].

(** The shape of an encoding, by its length class [n + 1] and tag [t]. *)
Lemma varint_enc_shape v :
  varint_ok v →
  ∃ n t, varint_enc v = tagged (64 * t) (be_bytes (S n) v) ∧
    0 ≤ v < 64 * 256 ^ Z.of_nat n ∧
    varint_len v = Ok (Z.of_nat (S n)) ∧ 0 ≤ t < 4 ∧
    ((n, t) = (0%nat, 0) ∨ (n, t) = (1%nat, 1) ∨ (n, t) = (3%nat, 2) ∨ (n, t) = (7%nat, 3)).
Proof.
  intros [? Hv]. unfold MAX_VAR_INT in Hv. varint_cases v.
  - exists 0%nat, 0. split_and!; eauto; lia.
  - exists 1%nat, 1. split_and!; eauto; lia.
  - exists 3%nat, 2. split_and!; eauto; lia.
  - exists 7%nat, 3. split_and!; eauto; try lia.
    unfold MAX_VAR_INT. destruct (Z.leb_spec v 4611686018427387903); [done|lia].
Qed.

Lemma blen_varint_enc v : varint_ok v → varint_len v = Ok (blen (varint_enc v)).
Proof.
  intros H. destruct (varint_enc_shape v H) as (n & t & -> & Hv & -> & Ht & _).
  destruct (tagged_be n v t) as (x & r & -> & _ & _ & -> & _); done.
Qed.

Lemma varint_enc_pos v : varint_ok v → 1 ≤ blen (varint_enc v).
Proof.
  intros H. destruct (varint_enc_shape v H) as (n & t & -> & Hv & _ & Ht & _).
  destruct (tagged_be n v t) as (x & r & -> & _ & _ & -> & _); [done..|lia].
Qed.

Lemma land_mask v k : 0 ≤ k → Z.land v (2 ^ k - 1) = v mod 2 ^ k.
Proof. intros. rewrite <- Z.land_ones by done. by rewrite Z.ones_equiv, <- Z.sub_1_r. Qed.

(** Reading a cursor that stands before an encoded integer gives the integer
    back and leaves the cursor after it. *)
Lemma get_varint_reads b v r :
  varint_ok v → reads b (varint_enc v ++ r) →
  ∃ b', get_varint b = Ok (v, b') ∧ reads b' r ∧ buf b' = buf b ∧
        off b' = off b + blen (varint_enc v).
Proof.
  intros Hv Hb. pose proof (reads_cap _ _ Hb) as Hcap.
  destruct (varint_enc_shape v Hv) as (n & t & E & Hr & _ & Ht & Hc).
  destruct (tagged_be n v t) as (x & s & Ex & Htag & Hx & Hlen & Hval & _); [done..|].
  rewrite Ex in E. rewrite E in *. clear E Ex.
  unfold get_varint, peek_u8. cbn [app] in Hb.
  rewrite (peek_u_reads 1 b [x] (s ++ r)) by done. cbn [mbind comp_bind].
  rewrite be_val_1.
  unfold varint_parse_len. rewrite Htag, Hcap.
  assert (blen ((x :: s) ++ r) <? Z.of_nat (S n) = false) as Hlt
    by (apply Z.ltb_ge; rewrite blen_app, Hlen; blia).
  destruct (get_u_reads (Z.of_nat (S n)) b (x :: s) r) as [Hg Hb']; [done..|].
  exists (Octets (buf b) (off b + Z.of_nat (S n))).
  split; [|split; [exact Hb'|cbn; by rewrite Hlen]].
  destruct Hc as [Hc|[Hc|[Hc|Hc]]]; injection Hc as -> ->;
    [change (Z.of_nat 1) with 1 in *|change (Z.of_nat 2) with 2 in *
    |change (Z.of_nat 4) with 4 in *|change (Z.of_nat 8) with 8 in *];
    cbn [mbind comp_bind]; rewrite Hlt;
    unfold get_u8, get_u16, get_u32, get_u64; rewrite Hg; cbn [mbind comp_bind];
    rewrite Hval; do 2 f_equal.
  - lia.
  - rewrite (land_mask _ 14), Z.mod_add by lia. apply Z.mod_small. lia.
  - rewrite (land_mask _ 30), Z.mod_add by lia. apply Z.mod_small. lia.
  - rewrite (land_mask _ 62), Z.mod_add by lia. apply Z.mod_small. lia.
Qed.

(** ** Writing into a buffer of the right size *)

(** A cursor that has written [p] and has [z] bytes of room left. *)
Definition wrote (b : octets) (p z : bytes) : Prop := b = Octets (p ++ z) (blen p).

Lemma overwrite_app (p z s : bytes) :
  overwrite (p ++ z) (blen p) s = p ++ s ++ dropz (blen s) z.
Proof.
  unfold overwrite. rewrite takez_app. do 2 f_equal.
  unfold dropz, blen. rewrite Z2Nat.inj_add, !Nat2Z.id by lia.
  rewrite <- drop_drop. by rewrite drop_app_length.
Qed.

Lemma wrote_overwrite p z s :
  wrote (Octets (overwrite (p ++ z) (blen p) s) (blen p + blen s)) (p ++ s) (dropz (blen s) z).
Proof. unfold wrote. rewrite overwrite_app, app_assoc. f_equal. blia. Qed.

Lemma wrote_cap b p z : wrote b p z → cap b = blen z.
Proof. intros ->. unfold cap. cbn. blia. Qed.

Lemma wrote_with_slice l : wrote (with_slice l) [] l.
Proof. done. Qed.

(** All the room used: the buffer holds exactly what was written. *)
Lemma wrote_full b p z : wrote b p z → blen z = 0 → buf b = p.
Proof. intros -> Hz. destruct z; [cbn; by rewrite app_nil_r|blia]. Qed.

Lemma put_u_wrote n t v b p z :
  wrote b p z → Z.of_nat (S n) ≤ blen z →
  ∃ b', put_u (S n) t v b = Ok b' ∧
    wrote b' (p ++ tagged t (be_bytes (S n) v)) (dropz (Z.of_nat (S n)) z).
Proof.
  intros -> Hz. unfold put_u. cbn [buf off].
  destruct (Z.ltb_spec (blen (p ++ z)) (blen p + Z.of_nat (S n))); [blia|].
  cbn [be_bytes tagged]. eexists. split; [done|].
  set (s := Z.lor _ t :: be_bytes n v).
  assert (blen s = Z.of_nat (S n)) as Es by (unfold s; rewrite blen_cons, blen_be_bytes; lia).
  rewrite <- Es. apply wrote_overwrite.
Qed.

Lemma tagged_0 l : tagged 0 l = l.
Proof. destruct l; cbn; [done|]. by rewrite Z.lor_0_r. Qed.

Lemma be_bytes_mod n v k : 256 ^ Z.of_nat n = k → be_bytes n (v mod k) = be_bytes n v.
Proof.
  intros <-. rewrite (Z.div_mod v (256 ^ Z.of_nat n)) at 2 by lia.
  rewrite Z.mul_comm. by rewrite be_bytes_add_high.
Qed.

Lemma put_varint_wrote v b p z :
  varint_ok v → wrote b p z → blen (varint_enc v) ≤ blen z →
  ∃ b', put_varint v b = Ok b' ∧
    wrote b' (p ++ varint_enc v) (dropz (blen (varint_enc v)) z).
Proof.
  intros Hv Hb Hz. unfold put_varint.
  destruct (varint_enc_shape v Hv) as (n & t & E & _ & El & _ & Hc).
  assert (blen (varint_enc v) = Z.of_nat (S n)) as Eb
    by (pose proof (blen_varint_enc v Hv) as H; congruence).
  rewrite El, Eb, E in *. cbn [mbind comp_bind]. unfold put_varint_with_len.
  rewrite (wrote_cap _ _ _ Hb).
  destruct (Z.ltb_spec (blen z) (Z.of_nat (S n))); [lia|].
  destruct Hc as [Hc|[Hc|[Hc|Hc]]]; injection Hc as -> ->; unfold put_u8, as_u8, as_u16, as_u32.
  - rewrite <- (be_bytes_mod 1 v (2 ^ 8)) by done. by apply put_u_wrote.
  - rewrite <- (be_bytes_mod 2 v (2 ^ 16)) by done. by apply put_u_wrote.
  - rewrite <- (be_bytes_mod 4 v (2 ^ 32)) by done. by apply put_u_wrote.
  - by apply put_u_wrote.
Qed.

Lemma put_bytes_wrote s b p z :
  wrote b p z → blen s ≤ blen z →
  ∃ b', put_bytes s b = Ok b' ∧ wrote b' (p ++ s) (dropz (blen s) z).
Proof.
  intros Hb Hz. unfold put_bytes. rewrite (wrote_cap _ _ _ Hb).
  destruct (Z.ltb_spec (blen z) (blen s)); [lia|]. rewrite Hb. cbn [buf off].
  destruct (Z.eqb_spec (blen s) 0) as [E|E].
  - assert (s = []) as -> by (destruct s; [done|blia]).
    eexists. split; [done|]. rewrite app_nil_r. by unfold dropz.
  - eexists. split; [done|]. apply wrote_overwrite.
Qed.

(** ** Panic freedom

    The documentation of [Octets] promises that "operations are panic-free
    and will avoid indexing the buffer past its end". *)

Lemma peek_u_no_panic n b : cursor_ok b → no_panic (peek_u n b).
Proof.
  intros H%ok_reads. unfold peek_u. rewrite (as_ref_reads _ _ H). cbn.
  by destruct (_ <? _).
Qed.

Lemma get_u_ok n b v b' :
  cursor_ok b → 0 ≤ n → get_u n b = Ok (v, b') →
  cursor_ok b' ∧ buf b' = buf b ∧ off b' = off b + n.
Proof.
  intros Hok Hn. pose proof (ok_reads _ Hok) as H. pose proof (reads_cap _ _ H) as Hc.
  unfold get_u, peek_u. rewrite (as_ref_reads _ _ H). cbn [mbind comp_bind].
  destruct (Z.ltb_spec (blen (dropz (off b) (buf b))) n); [done|].
  intros [= <- <-]. unfold cursor_ok, cap in *. cbn. split_and!; [lia|lia|done|done].
Qed.

Lemma varint_parse_len_u8 x :
  u8 x → ∃ n, varint_parse_len x = Ok n ∧ (n = 1 ∨ n = 2 ∨ n = 4 ∨ n = 8).
Proof.
  unfold u8, varint_parse_len. intros Hx. rewrite Z.shiftr_div_pow2 by lia.
  change (2 ^ 6) with 64.
  assert (x / 64 = 0 ∨ x / 64 = 1 ∨ x / 64 = 2 ∨ x / 64 = 3) as H
    by (Z.to_euclidean_division_equations; lia).
  destruct H as [->|[->|[->| ->]]]; eauto 10.
Qed.

Lemma peek_u8_byte b x : cursor_ok b → bytes_ok (buf b) → peek_u8 b = Ok x → u8 x.
Proof.
  intros Hok%ok_reads Hb. unfold peek_u8, peek_u. rewrite (as_ref_reads _ _ Hok).
  cbn [mbind comp_bind]. destruct (Z.ltb_spec (blen (dropz (off b) (buf b))) 1); [done|].
  intros [= <-].
  assert (bytes_ok (takez 1 (dropz (off b) (buf b)))) as H1
    by (by apply Forall_take, Forall_drop).
  pose proof (be_val_bound _ H1) as H2. rewrite blen_takez in H2 by lia. done.
Qed.

Lemma get_varint_total b :
  cursor_ok b → bytes_ok (buf b) →
  get_varint b = Err () ∨
  ∃ v b', get_varint b = Ok (v, b') ∧ cursor_ok b' ∧ buf b' = buf b ∧ off b < off b'.
Proof.
  intros Hok Hb. unfold get_varint.
  destruct (peek_u8 b) as [x|[]|] eqn:Ex; cbn [mbind comp_bind];
    [|by left|by destruct (peek_u_no_panic 1 b Hok)].
  destruct (varint_parse_len_u8 x) as (n & -> & Hn); [by eapply peek_u8_byte|].
  cbn [mbind comp_bind]. destruct (Z.ltb_spec (cap b) n) as [|Hcap]; [by left|].
  assert (∃ v, get_u n b = Ok (v, Octets (buf b) (off b + n))) as (v & Hg).
  { pose proof (ok_reads _ Hok) as H. pose proof (reads_cap _ _ H).
    unfold get_u, peek_u. rewrite (as_ref_reads _ _ H). cbn [mbind comp_bind].
    destruct (Z.ltb_spec (blen (dropz (off b) (buf b))) n); [lia|eauto]. }
  destruct (get_u_ok n b _ _ Hok ltac:(lia) Hg) as (Hok' & Hbuf & Hoff).
  right. destruct Hn as [->|[->|[->| ->]]];
    unfold get_u8, get_u16, get_u32, get_u64; rewrite Hg; cbn [mbind comp_bind];
    (eexists _, _; split; [done|]; split_and!; [done..|lia]).
Qed.

Lemma get_bytes_total n b :
  cursor_ok b → 0 ≤ n →
  get_bytes n b = Err () ∨
  ∃ s b', get_bytes n b = Ok (with_slice s, b') ∧ cursor_ok b' ∧ buf b' = buf b ∧
    off b' = off b + n ∧ blen s = n ∧ slice (buf b) (off b) (off b + n) = Some s.
Proof.
  intros Hok Hn. unfold get_bytes. destruct (Z.ltb_spec (cap b) n); [by left|right].
  unfold cursor_ok, cap in *.
  destruct (slice_in_range (buf b) (off b) (off b + n)) as (s & Es & Hs); [lia..|].
  unfold index_range. rewrite Es. cbn. eexists _, _. split; [done|]. cbn.
  split_and!; try done; lia.
Qed.

(** *** Any sequence of reads *)

Inductive read_op :=
| OpU8 | OpU16 | OpU24 | OpU32 | OpU64 | OpVarint
| OpBytes (len : Z) | OpBytesU8 | OpBytesU16 | OpBytesVarint
| OpRewind (len : Z) | OpSkip (len : Z).

Definition drop_fst {A} (m : comp () (A * octets)) : comp () octets :=
  '(_, b) ← m; Ok b.

Definition exec `{arch} (o : read_op) (b : octets) : comp () octets :=
  match o with
  | OpU8 => drop_fst (get_u8 b)
  | OpU16 => drop_fst (get_u16 b)
  | OpU24 => drop_fst (get_u24 b)
  | OpU32 => drop_fst (get_u32 b)
  | OpU64 => drop_fst (get_u64 b)
  | OpVarint => drop_fst (get_varint b)
  | OpBytes len => drop_fst (get_bytes len b)
  | OpBytesU8 => drop_fst (get_bytes_with_u8_length b)
  | OpBytesU16 => drop_fst (get_bytes_with_u16_length b)
  | OpBytesVarint => drop_fst (get_bytes_with_varint_length b)
  | OpRewind len => rewind len b
  | OpSkip len => skip len b
  end.

(** A program of reads; one that fails leaves the cursor where it was. *)
Fixpoint exec_all `{arch} (os : list read_op) (b : octets) : comp () octets :=
  match os with
  | [] => Ok b
  | o :: os =>
      match exec o b with
      | Ok b' => exec_all os b'
      | Err _ => exec_all os b
      | Panic => Panic
      end
  end.

(** The length arguments are [usize] values. *)
Definition op_ok (o : read_op) : Prop :=
  match o with OpBytes n | OpRewind n | OpSkip n => 0 ≤ n | _ => True end.

Definition safe (b : octets) (m : comp () octets) : Prop :=
  match m with Ok b' => cursor_ok b' ∧ buf b' = buf b | Err _ => True | Panic => False end.

Lemma safe_get_u n b : cursor_ok b → 0 ≤ n → safe b (drop_fst (get_u n b)).
Proof.
  intros Hok Hn. unfold drop_fst.
  destruct (get_u n b) as [[v b']|[]|] eqn:E; cbn; [|done|].
  - destruct (get_u_ok n b v b' Hok Hn E) as (? & ? & ?). done.
  - unfold get_u in E. pose proof (peek_u_no_panic n b Hok) as H.
    by destruct (peek_u n b).
Qed.

Lemma get_u_value n b v b' :
  cursor_ok b → bytes_ok (buf b) → 0 ≤ n → get_u n b = Ok (v, b') → 0 ≤ v.
Proof.
  intros Hok%ok_reads Hb Hn. unfold get_u, peek_u. rewrite (as_ref_reads _ _ Hok).
  cbn [mbind comp_bind]. destruct (_ <? _); [done|]. intros [= <- _].
  apply be_val_bound. by apply Forall_take, Forall_drop.
Qed.

Lemma safe_get_bytes n b c :
  cursor_ok c → buf c = buf b → 0 ≤ n → safe b (drop_fst (get_bytes n c)).
Proof.
  intros Hok Hb Hn.
  destruct (get_bytes_total n c Hok Hn) as [->|(s & b' & -> & ? & ? & _)]; [done|].
  cbn. split; congruence.
Qed.

Lemma safe_get_bytes_after n b (m : Z → Z) :
  cursor_ok b → bytes_ok (buf b) → 0 ≤ n → (∀ v, 0 ≤ v → 0 ≤ m v) →
  safe b (drop_fst ('(len, b') ← get_u n b; get_bytes (m len) b')).
Proof.
  intros Hok Hb Hn Hm. pose proof (safe_get_u n b Hok Hn) as Hs.
  destruct (get_u n b) as [[v b']|[]|] eqn:E; [|done..].
  destruct Hs as [? ?]. apply safe_get_bytes; [done..|]. apply Hm. exact (get_u_value n b v b' Hok Hb Hn E).
Qed.

Lemma exec_safe `{arch} o b :
  op_ok o → cursor_ok b → bytes_ok (buf b) → safe b (exec o b).
Proof.
  intros Ho Hok Hb. destruct o; cbn [exec op_ok] in *;
    try (apply safe_get_u; [done|lia]).
  - destruct (get_varint_total b Hok Hb) as [->|(v & b' & -> & ? & ? & ?)]; done.
  - by apply safe_get_bytes.
  - by apply (safe_get_bytes_after 1 b (λ v, v)).
  - by apply (safe_get_bytes_after 2 b (λ v, v)).
  - unfold get_bytes_with_varint_length.
    destruct (get_varint_total b Hok Hb) as [->|(v & b' & -> & ? & ? & ?)]; [done|].
    apply safe_get_bytes; [done..|]. apply Z.mod_pos_bound. by destruct H.
  - unfold rewind, cursor_ok in *. destruct (Z.ltb_spec (off b) len); cbn; [done|].
    split; [unfold cursor_ok; cbn; lia|done].
  - unfold skip, cursor_ok, cap in *.
    destruct (Z.ltb_spec (blen (buf b) - off b) len); cbn; [done|].
    split; [unfold cursor_ok; cbn; lia|done].
Qed.

(** The cursor is panic-free, as its documentation promises: whatever
    reads, rewinds and skips are run on a buffer of bytes, in any order and
    with any lengths, none panics, the buffer is not changed and the offset
    stays inside it. *)
Theorem octets_reads_safe `{arch} (l : bytes) (os : list read_op)
  (Hl : bytes_ok l) (Hos : Forall op_ok os) :
  ∃ b, exec_all os (with_slice l) = Ok b ∧ buf b = l ∧ 0 ≤ off b ≤ blen l.
Proof.
  assert (cursor_ok (with_slice l)) as Hok by (unfold cursor_ok; cbn; blia).
  assert (buf (with_slice l) = l) as Hb by done.
  revert Hok Hb. generalize (with_slice l) as b.
  induction Hos as [|o os Ho _ IH]; intros b Hok Hb.
  - exists b. subst l. done.
  - cbn. subst l. pose proof (exec_safe o b Ho Hok Hl) as Hs.
    destruct (exec o b) as [b'|[]|]; [|by apply IH|done].
    destruct Hs as [? Hb']. by apply IH.
Qed.

Lemma octets_reads_safe_witness :
  ∃ b, @exec_all W64 [OpVarint; OpBytes 2; OpBytesU8; OpRewind 9; OpU64]
         (with_slice [0x40; 0x01; 7; 7; 200]) = Ok b ∧
       buf b = [0x40; 0x01; 7; 7; 200] ∧ 0 ≤ off b ≤ blen [0x40; 0x01; 7; 7; 200].
Proof.
  apply (@octets_reads_safe W64); [by_decision|].
  repeat constructor; cbn; lia.
Defined.

(** A variable-length integer up to 2^62 - 1 survives the wire: writing it
    into a buffer of [varint_len] bytes succeeds and fills the buffer, and
    reading the buffer back, whatever follows it, gives the integer and stops
    right behind it. *)
Theorem varint_roundtrip (v : Z) (r : bytes) (Hv : varint_ok v) :
  ∃ n w, varint_len v = Ok n ∧
    put_varint v (with_slice (replicate (Z.to_nat n) 0)) = Ok w ∧ off w = n ∧
    ∃ b, get_varint (with_slice (buf w ++ r)) = Ok (v, b) ∧ off b = n.
Proof.
  pose proof (varint_enc_pos v Hv) as Hp.
  exists (blen (varint_enc v)).
  set (z := replicate (Z.to_nat (blen (varint_enc v))) 0).
  assert (blen z = blen (varint_enc v)) as Hz by (unfold z; rewrite blen_replicate; lia).
  destruct (put_varint_wrote v _ _ z Hv (wrote_with_slice z)) as (w & Hw & Hww); [lia|].
  exists w. split; [by apply blen_varint_enc|]. split; [done|].
  split; [by rewrite Hww|].
  rewrite (wrote_full _ _ _ Hww) by (rewrite blen_dropz; lia).
  destruct (get_varint_reads (with_slice (varint_enc v ++ r)) v r Hv (reads_with_slice _))
    as (b & Hg & _ & _ & Ho).
  exists b. split; [done|]. by rewrite Ho.
Qed.

Lemma varint_roundtrip_witness :
  ∃ n w, varint_len 300 = Ok n ∧
    put_varint 300 (with_slice (replicate (Z.to_nat n) 0)) = Ok w ∧ off w = n ∧
    ∃ b, get_varint (with_slice (buf w ++ [9; 9])) = Ok (300, b) ∧ off b = n.
Proof. apply (varint_roundtrip 300 [9; 9]). unfold varint_ok, MAX_VAR_INT. lia. Defined.

(** A truncated integer is not read: the cursor asks for more bytes. *)
Lemma get_varint_truncated b v p q :
  varint_ok v → reads b p → varint_enc v = p ++ q → q ≠ [] → get_varint b = Err ().
Proof.
  intros Hv Hb E Hq. unfold get_varint, peek_u8.
  destruct p as [|x p].
  { by rewrite (peek_u_short 1 b []). }
  destruct (varint_enc_shape v Hv) as (n & t & E' & Hr & _ & Ht & Hc).
  destruct (tagged_be n v t) as (y & s & Ey & Htag & Hy & Hlen & _); [done..|].
  rewrite E', Ey in E. injection E as -> ->.
  rewrite (peek_u_reads 1 b [x] p) by done. cbn [mbind comp_bind].
  rewrite be_val_1.
  unfold varint_parse_len. rewrite Htag, (reads_cap _ _ Hb).
  assert (1 ≤ blen q) by (destruct q; [done|blia]).
  destruct Hc as [Hc|[Hc|[Hc|Hc]]]; injection Hc as -> ->; cbn [mbind comp_bind];
    match goal with |- context [?a <? ?n] => destruct (Z.ltb_spec a n); [done|blia] end.
Qed.

(** A read that succeeds moves the cursor forward over the same buffer. *)
Definition advances (n : Z) (b b' : octets) : Prop := buf b' = buf b ∧ off b + n ≤ off b'.

Lemma advances_trans n m b1 b2 b3 :
  advances n b1 b2 → advances m b2 b3 → advances (n + m) b1 b3.
Proof. unfold advances. intros [? ?] [? ?]. split; [congruence|lia]. Qed.

Lemma get_u_advances n b v b' : get_u n b = Ok (v, b') → advances n b b'.
Proof.
  unfold get_u. destruct (peek_u n b); cbn; [|done..]. intros [= <- <-].
  by split; cbn.
Qed.

(** A variable-length integer is read as a fixed-width one. *)
Lemma get_varint_inv b v b' :
  get_varint b = Ok (v, b') → ∃ n x, 1 ≤ n ∧ get_u n b = Ok (x, b').
Proof.
  unfold get_varint. destruct (peek_u8 b) as [x|[]|]; cbn [mbind comp_bind]; [|done..].
  unfold varint_parse_len, get_u8, get_u16, get_u32, get_u64.
  destruct (Z.shiftr x 6) as [|[[]|[]|]|]; cbn [mbind comp_bind]; try done;
    (destruct (_ <? _); [done|]);
    [intros E; by exists 1, v|..];
    match goal with |- context [get_u ?k b] => exists k end;
    destruct (get_u _ b) as [[y c]|[]|]; cbn in *; naive_solver lia.
Qed.

Lemma get_varint_advances b v b' : get_varint b = Ok (v, b') → advances 1 b b'.
Proof.
  intros (n & x & Hn & [? ?]%get_u_advances)%get_varint_inv. split; [done|lia].
Qed.

Lemma get_bytes_advances n b o b' : get_bytes n b = Ok (o, b') → advances n b b'.
Proof.
  unfold get_bytes. destruct (_ <? _); [done|].
  destruct (index_range _ _ _); cbn; [|done..]. intros [= <- <-]. by split; cbn.
Qed.

(** *** Composing reads

    [steps n b m]: the read [m] from cursor [b] either fails, or moves at
    least [n] bytes forward over the same buffer keeping the invariant, and
    it does not panic on a good cursor over bytes. *)
Definition steps {E A} (n : Z) (b : octets) (m : comp E (A * octets)) : Prop :=
  match m with
  | Ok (_, b') => advances n b b' ∧ (cursor_ok b → cursor_ok b')
  | Err _ => True
  | Panic => ¬ (cursor_ok b ∧ bytes_ok (buf b))
  end.

Section steps.
Context {E : Type}.

Lemma steps_bind {A B} n k b (m : comp E (A * octets)) (f : A * octets → comp E (B * octets)) :
  steps n b m → (∀ a b', steps k b' (f (a, b'))) → steps (n + k) b (m ≫= f).
Proof.
  destruct m as [[a b']|e|]; cbn; [|done..]. intros [Ha Hc] Hf. specialize (Hf a b').
  destruct (f (a, b')) as [[x b'']|e|]; cbn in *; [|done|].
  - destruct Hf as [Ha' Hc']. split; [by eapply advances_trans|tauto].
  - destruct Ha as [Hb _]. rewrite Hb in Hf. tauto.
Qed.

Lemma steps_bind_pure {A B} k b (m : comp E A) (f : A → comp E (B * octets)) :
  no_panic m → (∀ a, m = Ok a → steps k b (f a)) → steps k b (m ≫= f).
Proof. destruct m; cbn; [|done..]. eauto. Qed.

Lemma steps_ret {A} (a : A) b : steps 0 b (Ok (a, b) : comp E (A * octets)).
Proof. cbn. split; [split; [done|lia]|done]. Qed.

Lemma steps_weaken {A} n k b (m : comp E (A * octets)) : k ≤ n → steps n b m → steps k b m.
Proof.
  intros Hk. destruct m as [[a b']|e|]; cbn; [|done..].
  intros [[? ?] ?]. split; [split; [done|lia]|done].
Qed.

Lemma steps_map_err {F A} (f : F → E) n b (m : comp F (A * octets)) :
  steps n b m → steps n b (map_err f m).
Proof. by destruct m as [[]| |]. Qed.
End steps.

Lemma steps_get_u n b : 0 ≤ n → steps n b (get_u n b).
Proof.
  intros Hn. destruct (get_u n b) as [[v b']|[]|] eqn:E; cbn; [|done|].
  - split; [by eapply get_u_advances|]. intros Hok. by eapply get_u_ok.
  - intros [Hok _]. pose proof (safe_get_u n b Hok Hn) as H. by rewrite E in H.
Qed.

Lemma steps_get_varint b : steps 1 b (get_varint b).
Proof.
  destruct (get_varint b) as [[v b']|[]|] eqn:E; cbn; [|done|].
  - split; [by eapply get_varint_advances|]. intros Hok.
    apply get_varint_inv in E as (n & x & Hn & E). eapply get_u_ok; [done| |done]. lia.
  - intros [Hok Hb]. destruct (get_varint_total b Hok Hb) as [?|(? & ? & ? & _)]; congruence.
Qed.

Lemma steps_get_bytes n b : 0 ≤ n → steps n b (get_bytes n b).
Proof.
  intros Hn. destruct (get_bytes n b) as [[o b']|[]|] eqn:E; cbn; [|done|].
  - split; [by eapply get_bytes_advances|]. intros Hok.
    destruct (get_bytes_total n b Hok Hn) as [?|(s & c & Hc & ? & _)]; congruence.
  - intros [Hok _]. destruct (get_bytes_total n b Hok Hn) as [?|(? & ? & ? & _)]; congruence.
Qed.
