(* ===== verification/Masque.v ===== *)
(** * MASQUE datagrams and capsules

    src/aether/src/masque.rs: the encoding of IP packets as HTTP/3 datagrams
    and as capsules (RFC 9297, RFC 9484), and the incremental
    [CapsuleParser]; and the part of src/aether/src/masque_h2.rs that frames
    outgoing packets ([pump_outbound]) and delivers incoming ones
    ([drain_capsules]). *)

From S2P Require Import Prelude Octets Net.

Definition CONNECT_IP_CONTEXT_ID : Z := 0.

Definition CAPSULE_ADDRESS_ASSIGN : Z := 0x01.
Definition CAPSULE_ADDRESS_REQUEST : Z := 0x02.
Definition CAPSULE_ROUTE_ADVERTISEMENT : Z := 0x03.
Definition CAPSULE_DATAGRAM : Z := 0x00.

Record AssignedAddress := mk_assigned {
  request_id : Z; ip_version : Z; address : bytes; prefix_len : Z }.

Record RouteAdvertisement := mk_route {
  route_version : Z; route_start : bytes; route_end : bytes; protocol : Z }.

Inductive Capsule :=
| AddressAssign (l : list AssignedAddress)
| AddressRequest
| Datagram (payload : bytes)
| RouteAdvertisements (l : list RouteAdvertisement)
| Unknown (kind : Z) (payload : bytes).

(** The messages [AetherError::Capsule] is built with. *)
Inductive capsule_error :=
| TooShort                      (* oct: octets::BufferTooShortError *)
| BadIpVersion (v : Z).         (* "bad ip version {v}" *)

Definition oct (_ : ()) : capsule_error := TooShort.

(** ** Datagrams *)

Definition quarter_stream_id (stream_id : Z) : Z := stream_id / 4.

Definition varint_len (v : Z) : Z :=
  if v <? 64 then 1
  else if v <? 16384 then 2
  else if v <? 1073741824 then 4
  else 8.

Definition encode_ip_datagram (stream_id : Z) (ip_packet : bytes) : comp capsule_error bytes :=
  let qsid := quarter_stream_id stream_id in
  let ctx := CONNECT_IP_CONTEXT_ID in
  let c := varint_len qsid + varint_len ctx + blen ip_packet in
  let b := with_slice (replicate (Z.to_nat c) 0) in
  b ← map_err oct (put_varint qsid b);
  b ← map_err oct (put_varint ctx b);
  b ← map_err oct (put_bytes ip_packet b);
  Ok (buf b).

Definition decode_ip_datagram (datagram : bytes) (expect_stream_id : Z)
  : comp capsule_error (option bytes) :=
  let b := with_slice datagram in
  '(qsid, b) ← map_err oct (get_varint b);
  if negb (qsid =? quarter_stream_id expect_stream_id) then Ok None else
  '(ctx, b) ← map_err oct (get_varint b);
  if negb (ctx =? CONNECT_IP_CONTEXT_ID) then Ok None else
  let rest := cap b in
  '(payload, _) ← map_err oct (get_bytes rest b);
  v ← map_err oct (to_vec payload);
  Ok (Some v).

(** ** Capsules *)

Definition capsule_len (kind : Z) (value : bytes) : Z :=
  varint_len kind + varint_len (blen value) + blen value.

(** [let _ = b.put_...]: an error is ignored and leaves the cursor alone. *)
Definition ignore (b : octets) (m : comp () octets) : comp () octets :=
  match m with Ok b' => Ok b' | Err _ => Ok b | Panic => Panic end.

(** Appends to [out]: the cursor is over the freshly resized tail. *)
Definition append_capsule (out : bytes) (kind : Z) (value : bytes) : comp () bytes :=
  let b := with_slice (replicate (Z.to_nat (capsule_len kind value)) 0) in
  b ← ignore b (put_varint kind b);
  b ← ignore b (put_varint (blen value) b);
  b ← ignore b (put_bytes value b);
  Ok (out ++ buf b).

Definition encode_capsule (kind : Z) (value : bytes) : comp () bytes :=
  append_capsule [] kind value.

Definition encode_address_request (request_id ip_version prefix_len : Z) : comp () bytes :=
  let b := with_slice (replicate (Z.to_nat (varint_len request_id + 1 + 1)) 0) in
  b ← ignore b (put_varint request_id b);
  b ← ignore b (put_u8 ip_version b);
  b ← ignore b (put_u8 prefix_len b);
  encode_capsule CAPSULE_ADDRESS_REQUEST (buf b).

Definition encode_datagram_capsule (ip_packet : bytes) : comp () bytes :=
  encode_capsule CAPSULE_DATAGRAM ip_packet.

Definition append_datagram_capsule (out ip_packet : bytes) : comp () bytes :=
  append_capsule out CAPSULE_DATAGRAM ip_packet.

Definition looks_like_ip_packet (data : bytes) : bool :=
  match data with
  | first :: _ =>
      ((Z.shiftr first 4 =? 4) || (Z.shiftr first 4 =? 6)) && (20 <=? blen data)
  | [] => false
  end.

Definition strip_datagram_context (payload : bytes) : comp () (option bytes) :=
  if is_empty payload then Ok None else
  let fallback := if looks_like_ip_packet payload then Some payload else None in
  match get_varint (with_slice payload) with
  | Panic => Panic
  | Err _ => Ok fallback
  | Ok (ctx, b) =>
      if ctx =? CONNECT_IP_CONTEXT_ID then
        let rest := cap b in
        let consumed := blen payload - rest in
        inner ← index_range payload consumed (blen payload);
        if looks_like_ip_packet inner then Ok (Some inner) else Ok fallback
      else Ok fallback
  end.

(** ** Parsing the values *)

Definition addr_len (ip_version : Z) : comp capsule_error Z :=
  if ip_version =? 4 then Ok 4
  else if ip_version =? 6 then Ok 16
  else Err (BadIpVersion ip_version).

Definition get_vec (len : Z) (b : octets) : comp capsule_error (bytes * octets) :=
  '(o, b) ← map_err oct (get_bytes len b);
  v ← map_err oct (to_vec o);
  Ok (v, b).

Definition parse_one_assign (b : octets) : comp capsule_error (AssignedAddress * octets) :=
  '(request_id, b) ← map_err oct (get_varint b);
  '(ip_version, b) ← map_err oct (get_u8 b);
  n ← addr_len ip_version;
  '(address, b) ← get_vec n b;
  '(prefix_len, b) ← map_err oct (get_u8 b);
  Ok (mk_assigned request_id ip_version address prefix_len, b).

Definition parse_one_route (b : octets) : comp capsule_error (RouteAdvertisement * octets) :=
  '(ip_version, b) ← map_err oct (get_u8 b);
  n ← addr_len ip_version;
  '(start, b) ← get_vec n b;
  '(stop, b) ← get_vec n b;
  '(protocol, b) ← map_err oct (get_u8 b);
  Ok (mk_route ip_version start stop protocol, b).

(** The loop [while b.cap() > 0] of both parsers, around their bodies. *)
Definition entries_step {A} (one : octets → comp capsule_error (A * octets))
  (s : octets * list A) : round (octets * list A) (comp capsule_error (list A)) :=
  let '(b, out) := s in
  if cap b >? 0 then
    match one b with
    | Ok (e, b) => Next (b, out ++ [e])
    | Err e => Done (Err e)
    | Panic => Done Panic
    end
  else Done (Ok out).

Definition entries_measure {A} (s : octets * list A) : nat := Z.to_nat (cap s.1).

Definition parse_entries {A} (one : octets → comp capsule_error (A * octets))
  (value : bytes) : comp capsule_error (list A) :=
  loop entries_measure (entries_step one) Panic (with_slice value, []).

Definition parse_address_assign : bytes → comp capsule_error (list AssignedAddress) :=
  parse_entries parse_one_assign.

Definition parse_route_advertisement : bytes → comp capsule_error (list RouteAdvertisement) :=
  parse_entries parse_one_route.

(** ** The incremental parser

    The state of a [CapsuleParser] is its buffer. *)

Definition MAX_CAPSULE_BUF : Z := 256 * 1024.

Definition push (p data : bytes) : bytes :=
  if blen p + blen data >? MAX_CAPSULE_BUF then [] else p ++ data.

Definition capsule_of (kind : Z) (value : bytes) : comp capsule_error Capsule :=
  if kind =? CAPSULE_ADDRESS_ASSIGN then AddressAssign <$> parse_address_assign value
  else if kind =? CAPSULE_ADDRESS_REQUEST then Ok AddressRequest
  else if kind =? CAPSULE_ROUTE_ADVERTISEMENT then
    RouteAdvertisements <$> parse_route_advertisement value
  else if kind =? CAPSULE_DATAGRAM then Ok (Datagram value)
  else Ok (Unknown kind value).

(** [next]: the answer and the buffer left behind.  The capsule is drained
    before its value is parsed, so an error in the value leaves the buffer at
    the following capsule. *)
Definition next `{arch} (p : bytes) : comp capsule_error (option Capsule) * bytes :=
  match get_varint (with_slice p) with
  | Panic => (Panic, p)
  | Err _ => (Ok None, p)
  | Ok (kind, b) =>
      match get_varint b with
      | Panic => (Panic, p)
      | Err _ => (Ok None, p)
      | Ok (v, b) =>
          let len := as_usize v in
          if cap b <? len then (Ok None, p) else
          match get_vec len b with
          | Panic => (Panic, p)
          | Err e => (Err e, p)
          | Ok (value, b) =>
              let consumed := off b in
              (Some <$> capsule_of kind value, dropz consumed p)
          end
      end
  end.

(** ** The data plane of the HTTP/2 tunnel (masque_h2.rs)

    A tokio channel is used through [try_send] only: an abstract queue of
    type [Q] with an operation that answers [Sent], [Full] or [Closed]. *)

Inductive send_result := Sent | Full | Closed.

Class Sender (Q A : Type) := try_send : A → Q → send_result * Q.

Record AssignedAddr := mk_addr { aa_ip : IpAddr; aa_prefix : Z }.

Definition bytes_to_ip (version : Z) (b : bytes) : comp () (option IpAddr) :=
  if (version =? 4) && (blen b =? 4) then
    b0 ← index b 0; b1 ← index b 1; b2 ← index b 2; b3 ← index b 3;
    Ok (Some (v4_of [b0; b1; b2; b3]))
  else if (version =? 6) && (blen b =? 16) then Ok (Some (v6_of b))
  else Ok None.

Section drain.
Context {Q AQ : Type} `{!Sender Q bytes, !Sender AQ AssignedAddr} {w : arch}.

(** [for a in addrs]: each address the edge assigned is offered to the
    address channel, when there is one; the answer is ignored. *)
Fixpoint announce (addrs : list AssignedAddress) (aq : option AQ) : comp () (option AQ) :=
  match addrs with
  | [] => Ok aq
  | a :: rest =>
      ip ← bytes_to_ip (ip_version a) (address a);
      match ip, aq with
      | Some ip, Some tx =>
          announce rest (Some (try_send (mk_addr ip (prefix_len a)) tx).2)
      | _, _ => announce rest aq
      end
  end.

Record drain_state := mk_drain {
  parser : bytes; inbound : Q; addrs : option AQ; delivered : bool }.

Definition drain_step (s : drain_state) : round drain_state (comp () drain_state) :=
  let '(answer, p) := next (parser s) in
  let s := mk_drain p (inbound s) (addrs s) (delivered s) in
  match answer with
  | Ok (Some (Datagram payload)) =>
      match strip_datagram_context payload with
      | Ok (Some pkt) =>
          let '(r, q) := try_send pkt (inbound s) in
          let s := mk_drain p q (addrs s) true in
          match r with Closed => Done (Ok s) | _ => Next s end
      | Ok None => Next s
      | Err _ => Next s
      | Panic => Done Panic
      end
  | Ok (Some (AddressAssign l)) =>
      match announce l (addrs s) with
      | Ok aq => Next (mk_drain p (inbound s) aq (delivered s))
      | Err _ => Next s
      | Panic => Done Panic
      end
  | Ok (Some _) => Next s
  | Ok None => Done (Ok s)
  | Err _ => Done (Ok s)
  | Panic => Done Panic
  end.

Definition drain_measure (s : drain_state) : nat := length (parser s).

Definition drain_capsules (s : drain_state) : comp () drain_state :=
  loop drain_measure drain_step Panic
    (mk_drain (parser s) (inbound s) (addrs s) false).
End drain.
Arguments drain_state : clear implicits.

(** [pump_outbound], one wake-up of its [outbound_rx.recv()] arm: [packet] was
    received, [queued] are the packets already waiting.  Packets are framed
    until the batch reaches [H2_SEND_BATCH_BYTES]; the answer is the frame to
    send and what stays queued. *)
Definition H2_SEND_BATCH_BYTES : Z := 32 * 1024.

Fixpoint fill_batch (batch : bytes) (queued : list bytes) : comp () (bytes * list bytes) :=
  if blen batch <? H2_SEND_BATCH_BYTES then
    match queued with
    | [] => Ok (batch, [])
    | next :: rest =>
        batch ← append_datagram_capsule batch next;
        fill_batch batch rest
    end
  else Ok (batch, queued).

Definition pump_packet (packet : bytes) (queued : list bytes) : comp () (bytes * list bytes) :=
  batch ← append_datagram_capsule [] packet;
  fill_batch batch queued.

(** The receiving arm of [run]: a chunk of the response body is pushed to the
    parser and drained into the queues. *)
Fixpoint receive {Q AQ} `{!Sender Q bytes, !Sender AQ AssignedAddr, w : arch}
  (chunks : list bytes) (s : drain_state Q AQ) : comp () (drain_state Q AQ) :=
  match chunks with
  | [] => Ok s
  | chunk :: chunks =>
      s ← drain_capsules (mk_drain (push (parser s) chunk) (inbound s) (addrs s) (delivered s));
      receive chunks s
  end.

(** [send_capsule]: an empty frame is not sent. *)
Definition send_capsule (sent : list bytes) (data : bytes) : list bytes :=
  if blen data =? 0 then sent else sent ++ [data].

Inductive SenderMsg := CapsuleMsg (framed : bytes) | Finish.

(** The task that owns the request stream: what waits in its two channels,
    the frames it handed to the stream so far, the frame it could not hand over
    if that is why it returned, and whether it returned. *)
Record pump := mk_pump {
  control_rx : list SenderMsg; outbound_rx : list bytes;
  sent : list bytes; unsent : option bytes; returned : bool }.

(** [pump_outbound] and the tasks that feed it; the label is the packet that
    arrives, if one does.  The select is biased: a packet is taken only when
    no control message waits.  A send that fails ends the task (the [?] after
    [send_capsule]), and the message or the batch that was taken for it is
    gone; an empty frame cannot fail.  The task also ends when the control
    channel or the channel of packets is closed. *)
Inductive pump_step : option bytes → pump → pump → Prop :=
| pump_arrive_packet p c o s :
    pump_step (Some p) (mk_pump c o s None false) (mk_pump c (o ++ [p]) s None false)
| pump_arrive_control m c o s :
    pump_step None (mk_pump c o s None false) (mk_pump (c ++ [m]) o s None false)
| pump_control f c o s :
    pump_step None (mk_pump (CapsuleMsg f :: c) o s None false) (mk_pump c o (send_capsule s f) None false)
| pump_control_failed f c o s :
    f ≠ [] → pump_step None (mk_pump (CapsuleMsg f :: c) o s None false) (mk_pump c o s (Some f) true)
| pump_finish c o s :
    pump_step None (mk_pump (Finish :: c) o s None false) (mk_pump c o s None true)
| pump_control_over o s :
    pump_step None (mk_pump [] o s None false) (mk_pump [] o s None true)
| pump_data p o s frame o' :
    pump_packet p o = Ok (frame, o') →
    pump_step None (mk_pump [] (p :: o) s None false) (mk_pump [] o' (send_capsule s frame) None false)
| pump_data_failed p o s frame o' :
    pump_packet p o = Ok (frame, o') →
    pump_step None (mk_pump [] (p :: o) s None false) (mk_pump [] o' s (Some frame) true)
| pump_outbound_over s :
    pump_step None (mk_pump [] [] s None false) (mk_pump [] [] s None true).

(** A run of the task, with the packets that arrived during it. *)
Inductive pump_run : list bytes → pump → pump → Prop :=
| pump_run_refl s : pump_run [] s s
| pump_run_step l a s1 s2 s3 :
    pump_run l s1 s2 → pump_step a s2 s3 → pump_run (l ++ option_list a) s1 s3.

(** ** The data-plane probe: a DNS query in a hand-built IPv4/UDP packet *)

(** The sum of the big-endian 16-bit words, a trailing odd byte being a high
    byte; additions are on u32. *)
Fixpoint sum_words (sum : Z) (header : bytes) : Z :=
  match header with
  | a :: b :: r => sum_words (as_u32 (sum + be_val [a; b])) r
  | [a] => as_u32 (sum + Z.shiftl a 8)
  | [] => sum
  end.

Definition fold_step (sum : Z) : round Z Z :=
  if negb (Z.shiftr sum 16 =? 0)
  then Next (Z.land sum 0xffff + Z.shiftr sum 16)
  else Done sum.

Definition fold_measure (sum : Z) : nat :=
  Z.to_nat (2 * Z.shiftr sum 16 + (if Z.land sum 0xffff =? 0 then 0 else 1)).

(** [!x] on u16. *)
Definition not_u16 (x : Z) : Z := 0xffff - as_u16 x.

Definition ipv4_header_checksum (header : bytes) : Z :=
  not_u16 (loop fold_measure fold_step 0 (sum_words 0 header)).

(** "cloudflare" and "com" as length-prefixed labels. *)
Definition probe_labels : bytes :=
  [10; 99; 108; 111; 117; 100; 102; 108; 97; 114; 101; 3; 99; 111; 109].

Definition probe_dns_query (id : Z) : bytes :=
  be_bytes 2 id ++ [0x01; 0x00] ++ [0x00; 0x01] ++ [0; 0; 0; 0; 0; 0]
  ++ probe_labels ++ [0x00] ++ [0x00; 0x01] ++ [0x00; 0x01].

(** The random choices are arguments: the DNS id, the IP id, the source port
    (drawn from 20000..60000). *)
Definition build_dns_probe_packet (src dns_id ip_id sport : Z) : bytes :=
  let dns := probe_dns_query dns_id in
  let udp_len := 8 + blen dns in
  let total_len := 20 + udp_len in
  let pkt := [0x45; 0x00] ++ be_bytes 2 (as_u16 total_len) ++ be_bytes 2 ip_id
    ++ [0x00; 0x00] ++ [64] ++ [17] ++ [0x00; 0x00]
    ++ ip_octets (V4 src) ++ [8; 8; 8; 8] in
  let csum := ipv4_header_checksum (takez 20 pkt) in
  overwrite pkt 10 (be_bytes 2 csum)
  ++ be_bytes 2 sport ++ be_bytes 2 53 ++ be_bytes 2 (as_u16 udp_len) ++ [0x00; 0x00]
  ++ dns.

(** ** Encoding *)

(** The wire format of a capsule: type, length, value. *)
Definition capsule_enc (c : Z * bytes) : bytes :=
  varint_enc c.1 ++ varint_enc (blen c.2) ++ c.2.

Definition capsule_fits (c : Z * bytes) : Prop := varint_ok c.1 ∧ varint_ok (blen c.2).

Lemma varint_len_enc v : varint_ok v → varint_len v = blen (varint_enc v).
Proof.
  intros Hv. pose proof (blen_varint_enc v Hv) as H. revert H.
  unfold varint_len, Octets.varint_len. unfold varint_ok, MAX_VAR_INT in *.
  destruct (Z.leb_spec v 63), (Z.ltb_spec v 64); try lia; [congruence|].
  destruct (Z.leb_spec v 16383), (Z.ltb_spec v 16384); try lia; [congruence|].
  destruct (Z.leb_spec v 1073741823), (Z.ltb_spec v 1073741824); try lia; [congruence|].
  destruct (Z.leb_spec v 4611686018427387903); [congruence|lia].
Qed.

Lemma varint_ok_0 : varint_ok 0.
Proof. unfold varint_ok, MAX_VAR_INT. lia. Qed.

Lemma append_capsule_enc out kind value :
  capsule_fits (kind, value) →
  append_capsule out kind value = Ok (out ++ capsule_enc (kind, value)).
Proof.
  intros [Hk Hl]. cbn [fst snd] in *. unfold append_capsule, capsule_len.
  rewrite !varint_len_enc by done.
  remember (blen (varint_enc kind) + blen (varint_enc (blen value)) + blen value) as n eqn:Hn.
  set (z := replicate (Z.to_nat n) 0).
  assert (blen z = n) as Hz by (unfold z; blia).
  destruct (put_varint_wrote kind _ _ z Hk (wrote_with_slice z)) as (b1 & -> & H1); [blia|].
  cbn [ignore mbind comp_bind].
  destruct (put_varint_wrote (blen value) _ _ _ Hl H1) as (b2 & -> & H2);
    [blia|].
  cbn [ignore mbind comp_bind].
  destruct (put_bytes_wrote value _ _ _ H2) as (b3 & -> & H3);
    [blia|].
  cbn [ignore mbind comp_bind].
  rewrite (wrote_full _ _ _ H3) by blia.
  unfold capsule_enc. cbn [fst snd app]. by rewrite <- !app_assoc.
Qed.

Lemma get_vec_reads b s r :
  reads b (s ++ r) →
  get_vec (blen s) b = Ok (s, Octets (buf b) (off b + blen s)) ∧
  reads (Octets (buf b) (off b + blen s)) r.
Proof.
  intros H. destruct (get_bytes_reads b s r H) as [Hg Hr].
  unfold get_vec. rewrite Hg. cbn [map_err mbind comp_bind].
  unfold to_vec. rewrite (as_ref_reads _ _ (reads_with_slice s)). done.
Qed.

(** ** One capsule off the front of the buffer *)
Section next.
Context {w : arch}.

(** The lengths the parser can represent: [as usize] does not truncate. *)
Definition usize_ok (n : Z) : Prop := 0 ≤ n ≤ usize_max w.

Lemma as_usize_id n : usize_ok n → as_usize n = n.
Proof.
  unfold usize_ok, usize_max, as_usize. intros. apply Z.mod_small. lia.
Qed.

Lemma next_capsule k v r :
  capsule_fits (k, v) → usize_ok (blen v) →
  next (capsule_enc (k, v) ++ r) = (Some <$> capsule_of k v, r).
Proof.
  intros [Hk Hl] Hu. unfold next, capsule_enc. cbn [fst snd] in *.
  set (p := _ ++ r). assert (p = varint_enc k ++ varint_enc (blen v) ++ v ++ r) as Ep
    by (unfold p; by rewrite <- !app_assoc).
  pose proof (reads_with_slice p) as H0. rewrite Ep in H0 at 2.
  destruct (get_varint_reads _ _ _ Hk H0) as (b1 & -> & H1 & Hb1 & _).
  destruct (get_varint_reads _ _ _ Hl H1) as (b2 & -> & H2 & Hb2 & _).
  rewrite as_usize_id, (reads_cap _ _ H2) by done.
  destruct (Z.ltb_spec (blen (v ++ r)) (blen v)); [blia|].
  destruct (get_vec_reads b2 v r H2) as [-> H3].
  f_equal. unfold reads in H3. cbn [off buf] in *.
  rewrite Hb2, Hb1 in H3. cbn [buf with_slice] in H3.
  pose proof (suffix_at_len _ _ _ H3). pose proof (suffix_at_nonneg _ _ _ H3).
  eapply suffix_at_det; [|exact H3]. apply suffix_at_drop. blia.
Qed.

Lemma next_partial k v p q :
  capsule_fits (k, v) → usize_ok (blen v) →
  capsule_enc (k, v) = p ++ q → q ≠ [] → next p = (Ok None, p).
Proof.
  intros [Hk Hl] Hu E Hq. unfold next, capsule_enc in *. cbn [fst snd] in *.
  pose proof (reads_with_slice p) as H0.
  apply List.app_eq_app in E as (l & [[E1 E2]|[E1 E2]]).
  - destruct l as [|x l].
    + rewrite app_nil_r in E1. subst p. clear E2.
      rewrite <- (app_nil_r (varint_enc k)) in H0 at 2.
      destruct (get_varint_reads _ _ _ Hk H0) as (b1 & -> & H1 & _).
      rewrite (get_varint_truncated b1 (blen v) [] (varint_enc (blen v))); try done.
      intros E. pose proof (varint_enc_pos _ Hl) as H. rewrite E in H. done.
    + by rewrite (get_varint_truncated _ k p (x :: l)).
  - rewrite E1 in H0 at 2.
    destruct (get_varint_reads _ _ _ Hk H0) as (b1 & -> & H1 & _).
    apply List.app_eq_app in E2 as (l' & [[E3 E4]|[E3 E4]]).
    + destruct l' as [|y l'].
      * rewrite app_nil_r in E3. rewrite <- E3, <- (app_nil_r (varint_enc _)) in H1.
        destruct (get_varint_reads _ _ _ Hl H1) as (b2 & -> & H2 & _).
        rewrite as_usize_id, (reads_cap _ _ H2) by done. cbn [app] in E4. subst q.
        destruct (Z.ltb_spec (blen (@nil Z)) (blen v)); [done|].
        destruct v; [done|blia].
      * by rewrite (get_varint_truncated b1 (blen v) l (y :: l')).
    + rewrite E3 in H1. destruct (get_varint_reads _ _ _ Hl H1) as (b2 & -> & H2 & _).
      rewrite as_usize_id, (reads_cap _ _ H2) by done.
      destruct (Z.ltb_spec (blen l') (blen v)); [done|].
      rewrite E4 in *. destruct q; [done|blia].
Qed.

Lemma next_empty : next [] = (Ok None, []).
Proof. done. Qed.
End next.

(** ** Termination and panic freedom of the value parsers *)


Lemma addr_len_no_panic v : no_panic (addr_len v).
Proof. unfold addr_len. by repeat destruct (_ =? _). Qed.

Lemma addr_len_pos v n : addr_len v = Ok n → 0 ≤ n.
Proof. unfold addr_len. repeat destruct (_ =? _); intros; simplify_eq; lia. Qed.

Lemma to_vec_with_slice l : to_vec (with_slice l) = Ok l.
Proof. apply as_ref_reads, reads_with_slice. Qed.

Lemma steps_get_vec n b : 0 ≤ n → steps n b (get_vec n b).
Proof.
  intros Hn. unfold get_vec.
  pose proof (steps_map_err oct n b _ (steps_get_bytes n b Hn)) as Hs.
  destruct (get_bytes n b) as [[o b']|[]|] eqn:E; cbn [map_err mbind comp_bind] in *; [|done..].
  assert (∃ l, o = with_slice l) as [l ->].
  { unfold get_bytes in E. destruct (_ <? _); [done|].
    destruct (index_range _ _ _); cbn in E; naive_solver. }
  by rewrite to_vec_with_slice.
Qed.

Ltac steps_tac :=
  repeat match goal with
  | |- steps _ _ (map_err _ _) => apply steps_map_err
  | |- steps _ _ (get_varint _) => apply steps_get_varint
  | |- steps _ _ (get_u8 _) => by apply (steps_get_u 1)
  | |- steps _ _ (get_vec _ _) => eapply (steps_weaken _ 0); [|apply steps_get_vec]; by eapply addr_len_pos
  | |- steps _ _ (Ok _) => apply steps_ret
  | |- steps _ _ (addr_len _ ≫= _) => apply steps_bind_pure; [apply addr_len_no_panic|intros ? ?]
  | |- steps _ _ (_ ≫= _) => eapply steps_bind; [|intros ? ?]
  end.

Lemma steps_one_assign b : steps 1 b (parse_one_assign b).
Proof.
  unfold parse_one_assign. eapply steps_weaken; [|steps_tac]. lia.
Qed.

Lemma steps_one_route b : steps 1 b (parse_one_route b).
Proof.
  unfold parse_one_route. eapply steps_weaken; [|steps_tac]. lia.
Qed.

Section entries.
Context {A : Type} (one : octets → comp capsule_error (A * octets)).
Context (Hone : ∀ b, steps 1 b (one b)).

#[local] Instance entries_decreasing : Decreasing entries_measure (entries_step one).
Proof.
  intros [b out] [b' out']. unfold entries_step, entries_measure. cbn [fst].
  destruct (cap b >? 0) eqn:Hc; [|done]. pose proof (Hone b) as H.
  destruct (one b) as [[e c]|e|]; [|done..]. intros [= <- <-].
  destruct H as [[Hb Ho] _]. unfold cap in *. rewrite Hb. lia.
Qed.

(** The entry loop terminates ([loop_default]: its out-of-fuel answer is
    never used) and does not panic on bytes. *)
Lemma parse_entries_no_panic value : bytes_ok value → no_panic (parse_entries one value).
Proof.
  intros Hv. unfold parse_entries.
  apply (loop_ind _ _ (λ s, cursor_ok s.1 ∧ bytes_ok (buf s.1)) (λ _ r, no_panic r)).
  - intros [b out] r [Hok Hb]. cbn [fst] in *. unfold entries_step. destruct (_ >? _).
    + pose proof (Hone b) as H. destruct (one b) as [[e c]|e|]; cbn in H; [done| |tauto].
      by intros [= <-].
    + by intros [= <-].
  - done.
  - intros [b out] [b' out'] [Hok Hb]. cbn [fst] in *. unfold entries_step.
    destruct (_ >? _); [|done]. pose proof (Hone b) as H.
    destruct (one b) as [[e c]|e|]; [|done..]. intros [= <- <-].
    destruct H as [[-> _] ?]. auto.
  - cbn. split; [unfold cursor_ok; cbn; blia|done].
Qed.

(** The loop reads entries one after the other, in order. *)
Lemma parse_entries_reads (enc : A → bytes) (l : list A) :
  (∀ e b r, e ∈ l → reads b (enc e ++ r) →
    ∃ b', one b = Ok (e, b') ∧ reads b' r ∧ 0 < blen (enc e)) →
  parse_entries one (concat (enc <$> l)) = Ok l.
Proof.
  intros Henc. unfold parse_entries.
  assert (∀ l2 l1 b, l = l1 ++ l2 → reads b (concat (enc <$> l2)) →
    loop entries_measure (entries_step one) Panic (b, l1) = Ok l) as H;
    [|by apply (H l []); [|apply reads_with_slice]].
  induction l2 as [|e l2 IH]; intros l1 b El Hb; rewrite loop_unfold by apply _;
    unfold entries_step at 1; rewrite (reads_cap _ _ Hb).
  - cbn. by rewrite El, app_nil_r.
  - cbn [fmap list_fmap concat] in *.
    destruct (Henc e b _ ltac:(rewrite El; set_solver) Hb) as (b' & -> & Hb' & Hpos).
    destruct (blen (enc e ++ concat (enc <$> l2)) >? 0) eqn:E;
      [|rewrite Z.gtb_ltb, Z.ltb_ge in E; blia].
    apply IH; [|done]. by rewrite <- app_assoc.
Qed.
End entries.

Lemma capsule_of_no_panic k v : bytes_ok v → no_panic (capsule_of k v).
Proof.
  intros Hv. unfold capsule_of, parse_address_assign, parse_route_advertisement.
  repeat destruct (_ =? _); try done.
  - pose proof (parse_entries_no_panic _ steps_one_assign v Hv) as H.
    by destruct (parse_entries _ _).
  - pose proof (parse_entries_no_panic _ steps_one_route v Hv) as H.
    by destruct (parse_entries _ _).
Qed.

Lemma get_vec_enough n b :
  cursor_ok b → 0 ≤ n ≤ cap b →
  ∃ s b', get_vec n b = Ok (s, b') ∧ cursor_ok b' ∧ buf b' = buf b ∧ off b' = off b + n ∧
    slice (buf b) (off b) (off b + n) = Some s.
Proof.
  intros Hok Hn. unfold get_vec.
  destruct (get_bytes_total n b Hok) as [E|(s & b' & E & ? & ? & ? & _ & ?)]; [lia| |].
  - unfold get_bytes in E. destruct (Z.ltb_spec (cap b) n); [lia|].
    unfold index_range in E. by destruct (slice _ _ _).
  - rewrite E. cbn [map_err mbind comp_bind]. rewrite to_vec_with_slice. eauto 10.
Qed.

Section next_total.
Context {w : arch}.

(** Whatever is in the buffer, [next] does not panic; the buffer it leaves
    is a suffix of the one it got, shorter when a capsule was taken. *)
Lemma next_total p :
  bytes_ok p →
  no_panic (next p).1 ∧
  ∃ taken, p = taken ++ (next p).2 ∧ ((next p).1 ≠ Ok None → taken ≠ []).
Proof.
  intros Hp. assert (cursor_ok (with_slice p)) as H0 by (unfold cursor_ok; cbn; blia).
  unfold next. destruct (get_varint_total _ H0 Hp) as [->|(k & b1 & -> & H1 & E1 & O1)];
    [cbn; split; [done|]; by exists []|]. cbn [buf off with_slice] in E1, O1.
  rewrite <- E1 in Hp. destruct (get_varint_total _ H1 Hp) as [->|(v & b2 & -> & H2 & E2 & O2)];
    [cbn; split; [done|]; by exists []|].
  assert (0 ≤ as_usize v) as Hn by (apply Z.mod_pos_bound; by destruct w).
  destruct (Z.ltb_spec (cap b2) (as_usize v)); [cbn; split; [done|]; by exists []|].
  destruct (get_vec_enough (as_usize v) b2 H2) as (value & b3 & -> & H3 & E3 & O3 & Hs); [lia|].
  cbn [fst snd]. split.
  - pose proof (capsule_of_no_panic k value) as Hc.
    destruct (capsule_of k value); cbn; [done..|]. destruct Hc; [|done].
    eapply slice_ok; [|done]. by rewrite E2.
  - exists (takez (off b3) p). rewrite takez_dropz. split; [done|].
    intros _ E. apply (f_equal blen) in E. unfold cursor_ok in H3.
    rewrite E3, E2, E1 in H3. blia.
Qed.

Lemma next_shrinks p c p' : next p = (Ok (Some c), p') → (length p' < length p)%nat.
Proof.
  unfold next. destruct (get_varint (with_slice p)) as [[k b1]|[]|] eqn:G1; [|done..].
  destruct (get_varint b1) as [[v b2]|[]|] eqn:G2; [|done..].
  destruct (Z.ltb_spec (cap b2) (as_usize v)); [done|].
  assert (0 ≤ as_usize v) as Hn by (apply Z.mod_pos_bound; by destruct w).
  pose proof (steps_get_varint (with_slice p)) as S1. rewrite G1 in S1.
  pose proof (steps_get_varint b1) as S2. rewrite G2 in S2.
  pose proof (steps_get_vec (as_usize v) b2 Hn) as S3.
  destruct (get_vec _ _) as [[value b3]|e|]; [|done..].
  destruct S1 as [[E1 O1] C1], S2 as [[E2 O2] C2], S3 as [[E3 O3] C3].
  assert (cursor_ok b3) as H3.
  { apply C3, C2, C1. unfold cursor_ok. cbn. blia. }
  unfold cursor_ok in H3. rewrite E3, E2, E1 in H3. cbn [buf off with_slice] in *.
  intros [= _ <-]. unfold dropz. rewrite length_drop. unfold blen in H3. lia.
Qed.
End next_total.

#[export] Instance drain_decreasing {Q AQ} `{!Sender Q bytes, !Sender AQ AssignedAddr, w : arch} :
  Decreasing (drain_measure (Q := Q) (AQ := AQ)) drain_step.
Proof.
  intros s s'. unfold drain_step, drain_measure.
  destruct (next (parser s)) as [[[c|]|e|] p] eqn:E; [|done..].
  apply next_shrinks in E.
  destruct c as [l| |payload|l|k v]; [| | | |]; try (by intros [= <-]).
  - destruct (announce l _); [|by intros [= <-]|done]. by intros [= <-].
  - destruct (strip_datagram_context payload) as [[pkt|]|[]|]; [|by intros [= <-]..|done].
    cbn. destruct (try_send _ _) as [[] q]; [by intros [= <-]..|done].
Qed.

(** ** The capsule stream

    [feed] drives the parser the way the receiving loops do: every chunk the
    stream delivers is pushed, then capsules are taken until there is none.
    It collects what the parser answers; what a loop does with a capsule, and
    when it stops, is in [verify_h2] and [h2_step]. *)
Section stream.
Context {w : arch}.

Definition collect_step (s : bytes * list Capsule)
  : round (bytes * list Capsule) (bytes * list Capsule) :=
  match next s.1 with
  | (Ok (Some c), p) => Next (p, s.2 ++ [c])
  | (_, p) => Done (p, s.2)
  end.

Definition collect (s : bytes * list Capsule) : bytes * list Capsule :=
  loop (λ s, length s.1) collect_step s s.

Fixpoint feed (chunks : list bytes) (s : bytes * list Capsule) : bytes * list Capsule :=
  match chunks with
  | [] => s
  | chunk :: chunks => feed chunks (collect (push s.1 chunk, s.2))
  end.

#[export] Instance collect_decreasing : Decreasing (λ s, length s.1) collect_step.
Proof.
  intros [p l] s'. unfold collect_step. cbn [fst snd].
  destruct (next p) as [[[c|]|e|] p'] eqn:E; [|done..]. apply next_shrinks in E.
  by intros [= <-].
Qed.

(** The capsules [cs] can be taken from [p], one [next] each, leaving
    [rest], which does not hold a whole capsule. *)
Inductive parses : bytes → list Capsule → bytes → Prop :=
| parses_none p : next p = (Ok None, p) → parses p [] p
| parses_some p c p' cs rest :
    next p = (Ok (Some c), p') → parses p' cs rest → parses p (c :: cs) rest.

Lemma collect_parses p cs rest l : parses p cs rest → collect (p, l) = (rest, l ++ cs).
Proof.
  unfold collect. intros H. rewrite (loop_default _ _ _ ([], [])). revert l.
  induction H as [p E|p c p' cs rest E _ IH]; intros l;
    rewrite loop_unfold by apply _; unfold collect_step at 1; cbn [fst snd]; rewrite E.
  - by rewrite app_nil_r.
  - rewrite IH. by rewrite <- app_assoc.
Qed.

Definition wire (cs : list (Z * bytes)) : bytes := concat (capsule_enc <$> cs).

(** A capsule the sender may put on the stream and what it is read as. *)
Definition sends (c : Z * bytes) (x : Capsule) : Prop :=
  capsule_fits c ∧ usize_ok (blen c.2) ∧ capsule_of c.1 c.2 = Ok x.

(** [t] is a proper beginning of the first capsule of [cs]. *)
Definition begins (t : bytes) (cs : list (Z * bytes)) : Prop :=
  match cs with
  | [] => t = []
  | c :: _ => ∃ q, q ≠ [] ∧ capsule_enc c = t ++ q
  end.

Lemma capsule_enc_pos c : capsule_fits c → 0 < blen (capsule_enc c).
Proof.
  intros [Hk Hl]. unfold capsule_enc. pose proof (varint_enc_pos _ Hk). blia.
Qed.

Lemma parses_wire cs xs cs' t :
  Forall2 sends cs xs → Forall (λ c, ∃ x, sends c x) cs' → begins t cs' →
  parses (wire cs ++ t) xs t.
Proof.
  intros Hcs Hcs' Ht. induction Hcs as [|[k v] x cs xs (Hf & Hu & Hx) _ IH].
  - constructor. cbn. destruct cs' as [|[k v] cs']; cbn in Ht.
    + subst t. apply next_empty.
    + apply Forall_cons in Hcs' as [(x & Hf & Hu & _) _].
      destruct Ht as (q & Hq & E). by eapply next_partial.
  - unfold wire. cbn [fmap list_fmap concat]. rewrite <- app_assoc.
    econstructor; [|exact IH]. rewrite next_capsule by done. cbn [fst snd] in Hx.
    by rewrite Hx.
Qed.

(** Where a beginning of the stream ends: after some whole capsules, in the
    middle of the next one. *)
Lemma wire_split cs p q :
  Forall (λ c, 0 < blen (capsule_enc c)) cs → wire cs = p ++ q →
  ∃ cs1 cs2 t, cs = cs1 ++ cs2 ∧ p = wire cs1 ++ t ∧ wire cs2 = t ++ q ∧ begins t cs2.
Proof.
  intros Hcs. revert p. induction Hcs as [|c cs Hc Hcs IH]; intros p E.
  - symmetry in E. apply app_nil in E as [-> ->]. by exists [], [], [].
  - unfold wire in E. cbn [fmap list_fmap concat] in E.
    apply List.app_eq_app in E as (l & [[E1 E2]|[E1 E2]]).
    + destruct l as [|y l].
      * exists [c], cs, []. rewrite app_nil_r in E1. cbn in E2. subst q.
        split_and!; [done| |done|].
        -- unfold wire. cbn. by rewrite !app_nil_r.
        -- destruct cs as [|c' cs]; cbn; [done|]. exists (capsule_enc c'). split; [|done].
           intros E. apply Forall_cons in Hcs as [H _]. by rewrite E in H.
      * exists [], (c :: cs), p. split_and!; [done..| |].
        -- unfold wire. cbn [fmap list_fmap concat]. by rewrite E1, E2, <- app_assoc.
        -- cbn. by exists (y :: l).
    + destruct (IH l) as (cs1 & cs2 & t & -> & -> & E3 & Hb); [done|].
      exists (c :: cs1), cs2, t. split_and!; [done| |done|done].
      unfold wire in *. cbn [fmap list_fmap concat]. by rewrite E1, <- app_assoc.
Qed.

Lemma sends_all cs xs : Forall2 sends cs xs → Forall (λ c, ∃ x, sends c x) cs.
Proof. induction 1; constructor; eauto. Qed.

Lemma push_small p chunk rest cs :
  begins p cs → (p ++ chunk) ++ rest = wire cs →
  (∀ c, c ∈ cs → blen chunk + blen (capsule_enc c) ≤ MAX_CAPSULE_BUF) →
  push p chunk = p ++ chunk.
Proof.
  intros Hp E Hsz. unfold push. destruct (_ >? _) eqn:Eg; [|done]. exfalso.
  rewrite Z.gtb_lt in Eg. destruct cs as [|c cs]; cbn in Hp.
  - subst p. apply app_nil in E as [E _]. cbn in E. subst chunk. done.
  - destruct Hp as (q & Hq & Ec). specialize (Hsz c ltac:(set_solver)).
    rewrite Ec in Hsz. blia.
Qed.

Lemma feed_wire chunks cs xs p l :
  Forall2 sends cs xs → p ++ concat chunks = wire cs → begins p cs →
  (∀ chunk c, chunk ∈ chunks → c ∈ cs → blen chunk + blen (capsule_enc c) ≤ MAX_CAPSULE_BUF) →
  feed chunks (p, l) = ([], l ++ xs).
Proof.
  revert cs xs p l. induction chunks as [|chunk chunks IH]; intros cs xs p l Hs E Hp Hsz.
  - cbn in *. rewrite app_nil_r in E. destruct cs as [|c cs].
    + apply Forall2_nil_inv_l in Hs. cbn in Hp. by rewrite Hs, Hp, app_nil_r.
    + destruct Hp as (q & Hq & Ec). unfold wire in E. cbn in E. apply (f_equal blen) in E.
      rewrite Ec in E. destruct q; [done|blia].
  - cbn [feed fst snd]. cbn [concat] in E. rewrite app_assoc in E.
    rewrite (push_small p chunk (concat chunks) cs) by (try done; intros; apply Hsz; set_solver).
    pose proof (sends_all _ _ Hs) as Hall.
    destruct (wire_split cs (p ++ chunk) (concat chunks)) as (cs1 & cs2 & t & -> & -> & E2 & Ht);
      [|done|].
    { eapply Forall_impl; [exact Hall|]. intros c (x & Hf & _). by apply capsule_enc_pos. }
    apply Forall2_app_inv_l in Hs as (xs1 & xs2 & Hs1 & Hs2 & ->).
    apply Forall_app in Hall as [_ Hall].
    rewrite (collect_parses _ xs1 t) by (by eapply parses_wire).
    rewrite (IH cs2 xs2); [by rewrite app_assoc|done..|].
    intros. apply Hsz; set_solver.
Qed.
End stream.

(** C1. The capsule parser does not depend on how the stream is cut up: when
    the capsules [cs] (of any kinds, read as [xs]) are sent one after the
    other and the receiver gets the bytes in any chunks, it takes out exactly
    [xs], in order, and nothing stays in its buffer.  The only condition is
    that a capsule and a chunk fit the parser's buffer together. *)
Theorem capsule_stream_chunking {w : arch} (cs : list (Z * bytes)) (xs : list Capsule)
  (chunks : list bytes)
  (Hcs : Forall2 sends cs xs)
  (Hsplit : concat chunks = wire cs)
  (Hroom : ∀ chunk c, chunk ∈ chunks → c ∈ cs →
    blen chunk + blen (capsule_enc c) ≤ MAX_CAPSULE_BUF) :
  feed chunks ([], []) = ([], xs).
Proof.
  apply (feed_wire chunks cs xs [] []); [done..| |done].
  destruct cs as [|c cs]; [done|]. apply sends_all, Forall_cons in Hcs as [(x & Hf & _) _].
  exists (capsule_enc c). split; [|done]. intros E.
  pose proof (capsule_enc_pos c Hf) as H. by rewrite E in H.
Qed.

Lemma capsule_stream_chunking_witness :
  @feed W32 [[0; 3; 1]; [2]; []; [3; 2; 1; 9; 5]; [0]] ([], [])
  = ([], [Datagram [1; 2; 3]; AddressRequest; Unknown 5 []]).
Proof.
  apply (@capsule_stream_chunking W32 [(0, [1; 2; 3]); (2, [9]); (5, [])]).
  - repeat (apply Forall2_cons; split; [|]); [..|constructor];
      (split; [split|split]; cbn; unfold varint_ok, MAX_VAR_INT, usize_ok, blen; cbn; (lia || done)).
  - by vm_compute.
  - intros chunk c Hchunk Hc. unfold MAX_CAPSULE_BUF.
    apply (proj1 (Forall_forall (λ l, blen l ≤ 5) _)) in Hchunk; [|by_decision].
    apply (proj1 (Forall_forall (λ c, blen (capsule_enc c) ≤ 5) _)) in Hc; [|by_decision].
    cbn in Hchunk, Hc. lia.
Defined.

(** ** Sending and receiving IP packets *)

Definition datagrams (ps : list bytes) : list (Z * bytes) := (λ p, (CAPSULE_DATAGRAM, p)) <$> ps.

Definition packet_fits (p : bytes) : Prop := varint_ok (blen p).

Lemma append_datagram_enc out p :
  packet_fits p → append_datagram_capsule out p = Ok (out ++ capsule_enc (CAPSULE_DATAGRAM, p)).
Proof. intros Hp. apply append_capsule_enc. split; [apply varint_ok_0|done]. Qed.

Lemma fill_batch_spec queued batch :
  Forall packet_fits queued →
  ∃ taken rest, fill_batch batch queued = Ok (batch ++ wire (datagrams taken), rest) ∧
    queued = taken ++ rest ∧
    (rest ≠ [] → H2_SEND_BATCH_BYTES ≤ blen (batch ++ wire (datagrams taken))).
Proof.
  revert batch. induction queued as [|p queued IH]; intros batch Hq; cbn [fill_batch].
  - exists [], []. cbn. rewrite app_nil_r. by destruct (_ <? _).
  - destruct (Z.ltb_spec (blen batch) H2_SEND_BATCH_BYTES).
    + apply Forall_cons in Hq as [Hp Hq]. rewrite append_datagram_enc by done. cbn [mbind comp_bind].
      destruct (IH (batch ++ capsule_enc (CAPSULE_DATAGRAM, p)) Hq) as (taken & rest & -> & -> & Hr).
      exists (p :: taken), rest. unfold wire, datagrams in *. cbn [fmap list_fmap concat].
      rewrite <- app_assoc in *. done.
    + exists [], (p :: queued). cbn. rewrite app_nil_r. done.
Qed.

Lemma pump_packet_spec p queued :
  packet_fits p → Forall packet_fits queued →
  ∃ taken rest, pump_packet p queued = Ok (wire (datagrams (p :: taken)), rest) ∧
    queued = taken ++ rest ∧
    (rest ≠ [] → H2_SEND_BATCH_BYTES ≤ blen (wire (datagrams (p :: taken)))).
Proof.
  intros Hp Hq. unfold pump_packet. rewrite append_datagram_enc by done. cbn [mbind comp_bind].
  destruct (fill_batch_spec queued (capsule_enc (CAPSULE_DATAGRAM, p)) Hq) as (taken & rest & E & -> & Hr).
  exists taken, rest. cbn [app]. rewrite E. done.
Qed.

(** What a frame handed to the stream carries. *)
Inductive frame :=
| Data (ps : list bytes)
| Control (f : bytes).

Definition frame_bytes (f : frame) : bytes :=
  match f with Data ps => wire (datagrams ps) | Control b => b end.
Definition frame_packets (f : frame) : list bytes :=
  match f with Data ps => ps | Control _ => [] end.

Definition pump_empty : pump := mk_pump [] [] [] None false.

(** The frame a failed send took with it. *)
Definition lost_frame (s : pump) (f : frame) : Prop :=
  match unsent s with
  | None => f = Data []
  | Some b => returned s = true ∧ b = frame_bytes f
  end.



(** ** Receiving *)

(** The packets the tunnel carries: IPv4 with a header of at least one word,
    or IPv6. *)
Definition ip_packet (p : bytes) : Prop :=
  bytes_ok p ∧ looks_like_ip_packet p = true ∧ takez 2 p ≠ [0x40; 0x00].

Lemma ip_packet_shape p :
  ip_packet p →
  ∃ x y r, p = x :: y :: r ∧ 64 ≤ x < 128 ∧ u8 y ∧ x * 256 + y ≠ 16384 ∧ 18 ≤ blen r.
Proof.
  intros (Hb & Hl & Hne). destruct p as [|x [|y r]]; [done| |].
  - unfold looks_like_ip_packet in Hl. rewrite andb_true_iff, Z.leb_le in Hl. blia.
  - exists x, y, r. apply Forall_cons in Hb as [Hx [Hy _]%Forall_cons].
    unfold looks_like_ip_packet in Hl.
    rewrite andb_true_iff, orb_true_iff, !Z.eqb_eq, Z.leb_le, Z.shiftr_div_pow2 in Hl by lia.
    change (2 ^ 4) with 16 in Hl. destruct Hl as [Hv Hl]. unfold u8 in *.
    assert (64 ≤ x < 128) by (Z.to_euclidean_division_equations; lia).
    split; [done|]. split; [done|]. split; [done|]. split; [|blia].
    intros E. apply Hne. assert (x = 64 ∧ y = 0) as [-> ->] by lia. done.
Qed.

Lemma strip_bare_packet p : ip_packet p → strip_datagram_context p = Ok (Some p).
Proof.
  intros Hp. pose proof Hp as (_ & Hl & _).
  destruct (ip_packet_shape p Hp) as (x & y & r & -> & Hx & Hy & Hne & Hr).
  unfold strip_datagram_context. cbn [is_empty]. rewrite Hl.
  unfold get_varint, peek_u8.
  pose proof (reads_with_slice (x :: y :: r)) as H0.
  rewrite (peek_u_reads 1 _ [x] (y :: r)) by done. cbn [mbind comp_bind].
  rewrite be_val_1.
  unfold varint_parse_len.
  replace (Z.shiftr x 6) with 1
    by (rewrite Z.shiftr_div_pow2 by lia; change (2 ^ 6) with 64;
        Z.to_euclidean_division_equations; lia).
  cbn [mbind comp_bind]. rewrite (reads_cap _ _ H0).
  destruct (Z.ltb_spec (blen (x :: y :: r)) 2); [blia|].
  destruct (get_u_reads 2 _ [x; y] r H0) as [Hg _]; [done|].
  unfold get_u16. rewrite Hg. cbn [mbind comp_bind].
  rewrite be_val_2.
  rewrite (land_mask _ 14) by lia. change (2 ^ 14) with 16384. unfold u8 in Hy.
  destruct (Z.eqb_spec ((x * 256 + y) mod 16384) CONNECT_IP_CONTEXT_ID) as [E|]; [|done].
  unfold CONNECT_IP_CONTEXT_ID in E. Z.to_euclidean_division_equations. lia.
Qed.

Lemma strip_context_packet p :
  looks_like_ip_packet p = true → strip_datagram_context (0 :: p) = Ok (Some p).
Proof.
  intros Hl. unfold strip_datagram_context. cbn [is_empty].
  destruct (get_varint_reads (with_slice (0 :: p)) 0 p varint_ok_0 (reads_with_slice _))
    as (b & -> & Hb & _). cbn -[looks_like_ip_packet blen index_range].
  rewrite (reads_cap _ _ Hb).
  replace (blen (0 :: p) - blen p) with 1 by blia.
  unfold index_range. rewrite (suffix_at_slice _ 1 p []); [cbn; by rewrite Hl| |blia].
  rewrite app_nil_r. apply (suffix_at_cons (0 :: p) 0 0 p), suffix_at_0.
Qed.

Section deliver.
Context {Q AQ : Type} `{!Sender Q bytes, !Sender AQ AssignedAddr} {w : arch}.

(** The inbound queue has not been closed by its reader. *)
Definition open_sender : Prop := ∀ (p : bytes) (q : Q), (try_send p q).1 ≠ Closed.

Definition offer (q : Q) (p : bytes) : Q := (try_send p q).2.

Lemma drain_datagrams p ps rest (q : Q) (aq : option AQ) d d' :
  open_sender → Forall ip_packet ps → parses p (Datagram <$> ps) rest →
  loop drain_measure drain_step d' (mk_drain p q aq d) =
    Ok (mk_drain rest (foldl offer q ps) aq (d || negb (is_empty ps))).
Proof.
  intros Ho. revert p q d. induction ps as [|x ps IH]; intros p q d Hps H;
    rewrite loop_unfold by apply _; unfold drain_step at 1; cbn [parser inbound addrs delivered].
  - inversion H as [? E|]; subst. rewrite E. cbn. by rewrite orb_false_r.
  - inversion H as [|? ? ? ? ? E Hrest]; subst. rewrite E.
    apply Forall_cons in Hps as [Hx Hps]. rewrite strip_bare_packet by done.
    pose proof (Ho x q) as Hx'. cbn [foldl].
    assert (offer q x = (try_send x q).2) as -> by done.
    destruct (try_send x q) as [[] q'] eqn:Es; cbn [fst snd] in *; [| |done];
      rewrite IH by done; cbn; by rewrite orb_true_r.
Qed.
End deliver.

Section receive.
Context {Q AQ : Type} `{!Sender Q bytes, !Sender AQ AssignedAddr} {w : arch}.

Lemma sends_datagrams ps :
  Forall (λ p, packet_fits p ∧ usize_ok (blen p)) ps →
  Forall2 sends (datagrams ps) (Datagram <$> ps).
Proof.
  induction 1 as [|p ps [Hf Hu] _ IH]; cbn; constructor; [|exact IH].
  split; [split; [apply varint_ok_0|done]|]. by split.
Qed.

Lemma receive_wire chunks ps p (q : Q) (aq : option AQ) d :
  open_sender → Forall ip_packet ps →
  Forall (λ p, packet_fits p ∧ usize_ok (blen p)) ps →
  p ++ concat chunks = wire (datagrams ps) → begins p (datagrams ps) →
  (∀ chunk c, chunk ∈ chunks → c ∈ datagrams ps →
    blen chunk + blen (capsule_enc c) ≤ MAX_CAPSULE_BUF) →
  ∃ d', receive chunks (mk_drain p q aq d) = Ok (mk_drain [] (foldl offer q ps) aq d').
Proof.
  intros Ho. revert ps p q d.
  induction chunks as [|chunk chunks IH]; intros ps p q d Hps Hf E Hp Hsz; cbn [receive].
  - cbn in E. rewrite app_nil_r in E. destruct ps as [|x ps].
    + cbn in Hp. subst p. by exists d.
    + destruct Hp as (t & Ht & Ec). unfold wire, datagrams in E.
      cbn [fmap list_fmap concat] in E. apply (f_equal blen) in E. rewrite Ec in E. destruct t; [done|blia].
  - cbn [concat] in E. rewrite app_assoc in E. cbn [parser inbound addrs delivered].
    rewrite (push_small p chunk (concat chunks) (datagrams ps))
      by (try done; intros; apply Hsz; set_solver).
    pose proof (sends_datagrams ps Hf) as Hs. pose proof (sends_all _ _ Hs) as Hall.
    destruct (wire_split (datagrams ps) (p ++ chunk) (concat chunks))
      as (cs1 & cs2 & t & Ecs & Ep & E2 & Ht); [|done|].
    { eapply Forall_impl; [exact Hall|]. intros c (x & Hc & _). by apply capsule_enc_pos. }
    apply fmap_app_inv in Ecs as (ps1 & ps2 & -> & -> & ->).
    apply Forall_app in Hps as [Hps1 Hps2]. apply Forall_app in Hf as [Hf1 Hf2].
    unfold drain_capsules. cbn [parser inbound addrs].
    rewrite Ep, (drain_datagrams _ ps1 t).
    + cbn [mbind comp_bind].
      destruct (IH ps2 t (foldl offer q ps1) (false || negb (is_empty ps1))) as [d' ->]; try done.
      { intros. apply Hsz; [set_solver|]. unfold datagrams. rewrite fmap_app. set_solver. }
      exists d'. by rewrite foldl_app.
    + done.
    + done.
    + eapply (parses_wire _ _ (datagrams ps2)); [by apply sends_datagrams| |done].
      eapply sends_all, sends_datagrams; done.
Qed.
End receive.

(** The receiving side of the HTTP/2 tunnel delivers what was sent: when
    the IP packets [ps] travel as datagram capsules (in the bare form the
    Cloudflare edge uses) and their bytes arrive in any chunks, every packet
    is offered to the inbound queue once, in order, no other packet is, the
    address channel is left alone and the parser ends empty. *)
Theorem tunnel_delivers_packets {Q AQ : Type} `{!Sender Q bytes, !Sender AQ AssignedAddr}
  {w : arch} (ps chunks : list bytes) (q : Q) (aq : option AQ)
  (Hopen : open_sender (Q := Q))
  (Hip : Forall ip_packet ps)
  (Hfit : Forall (λ p, packet_fits p ∧ usize_ok (blen p)) ps)
  (Hsplit : concat chunks = wire (datagrams ps))
  (Hroom : ∀ chunk c, chunk ∈ chunks → c ∈ datagrams ps →
    blen chunk + blen (capsule_enc c) ≤ MAX_CAPSULE_BUF) :
  ∃ d, receive chunks (mk_drain [] q aq false) = Ok (mk_drain [] (foldl offer q ps) aq d).
Proof.
  apply receive_wire; try done. destruct ps as [|p ps]; [done|].
  apply Forall_cons in Hfit as [[Hf _] _]. cbn. exists (capsule_enc (CAPSULE_DATAGRAM, p)).
  split; [|done]. intros E.
  pose proof (capsule_enc_pos (CAPSULE_DATAGRAM, p) (conj varint_ok_0 Hf)) as H.
  by rewrite E in H.
Qed.

(** A queue that accepts everything, for the witness. *)
Definition accept_all {A} : Sender (list A) A := λ a q, (Sent, q ++ [a]).

Definition sample_v4 : bytes := [0x45; 0; 0; 20] ++ replicate 16 1.
Definition sample_v6 : bytes := [0x60; 0; 0; 0] ++ replicate 36 2.

Lemma tunnel_delivers_packets_witness :
  ∃ d, @receive (list bytes) (list AssignedAddr) accept_all accept_all W32
         [[0; 20; 0x45; 0; 0]; [20] ++ replicate 16 1 ++ [0]; [40] ++ sample_v6]
         (mk_drain [] [] None false)
       = Ok (mk_drain [] [sample_v4; sample_v6] None d).
Proof.
  apply (@tunnel_delivers_packets _ _ accept_all accept_all W32 [sample_v4; sample_v6]).
  - done.
  - repeat (constructor; [split; [by_decision|by split]|]). constructor.
  - by_decision.
  - by vm_compute.
  - intros chunk c Hchunk Hc. unfold MAX_CAPSULE_BUF.
    apply (proj1 (Forall_forall (λ l, blen l ≤ 64) _)) in Hchunk; [|by_decision].
    apply (proj1 (Forall_forall (λ c, blen (capsule_enc c) ≤ 64) _)) in Hc; [|by_decision].
    cbn in Hchunk, Hc. lia.
Defined.

(** ** HTTP/3 datagrams *)

(** The HTTP/3 framing of packets round-trips: a packet encoded for a
    stream is decoded on that stream to the same packet, and on a stream with
    another quarter stream id it is ignored, not misread. *)
Theorem ip_datagram_roundtrip (stream_id other : Z) (ip_packet : bytes)
  (Hs : u64 stream_id) :
  ∃ d, encode_ip_datagram stream_id ip_packet = Ok d ∧
    decode_ip_datagram d other =
      Ok (if quarter_stream_id stream_id =? quarter_stream_id other
          then Some ip_packet else None).
Proof.
  assert (varint_ok (quarter_stream_id stream_id)) as Hq.
  { unfold varint_ok, MAX_VAR_INT, quarter_stream_id, u64 in *.
    Z.to_euclidean_division_equations. lia. }
  pose proof varint_ok_0 as H0. unfold encode_ip_datagram, CONNECT_IP_CONTEXT_ID in *.
  rewrite !varint_len_enc by done. 
  remember (blen (varint_enc (quarter_stream_id stream_id)) + blen (varint_enc 0) + blen ip_packet) as n eqn:Hn.
  set (z := replicate (Z.to_nat n) 0).
  assert (blen z = n) as Hz by (unfold z; blia).
  destruct (put_varint_wrote _ _ _ z Hq (wrote_with_slice z)) as (b1 & -> & H1); [blia|].
  cbn [map_err mbind comp_bind].
  destruct (put_varint_wrote 0 _ _ _ H0 H1) as (b2 & -> & H2); [blia|].
  cbn [map_err mbind comp_bind].
  destruct (put_bytes_wrote ip_packet _ _ _ H2) as (b3 & -> & H3); [blia|].
  cbn [map_err mbind comp_bind]. eexists. split; [done|].
  rewrite (wrote_full _ _ _ H3) by blia. cbn [app]. rewrite <- app_assoc.
  unfold decode_ip_datagram.
  destruct (get_varint_reads _ _ _ Hq (reads_with_slice (varint_enc (quarter_stream_id stream_id) ++ varint_enc 0 ++ ip_packet)))
    as (c1 & -> & R1 & _). cbn [map_err mbind comp_bind].
  destruct (quarter_stream_id stream_id =? quarter_stream_id other); [|done]. cbn [negb].
  destruct (get_varint_reads _ _ _ H0 R1) as (c2 & -> & R2 & _).
  cbn [map_err mbind comp_bind]. rewrite (reads_cap _ _ R2).
  cbn [negb Z.eqb CONNECT_IP_CONTEXT_ID]. rewrite <- (app_nil_r ip_packet) in R2.
  destruct (get_bytes_reads c2 ip_packet [] R2) as [-> _]. cbn [map_err mbind comp_bind].
  by rewrite to_vec_with_slice.
Qed.

Lemma ip_datagram_roundtrip_witness :
  ∃ d, encode_ip_datagram 8 sample_v4 = Ok d ∧
    decode_ip_datagram d 8 =
      Ok (if quarter_stream_id 8 =? quarter_stream_id 8 then Some sample_v4 else None).
Proof. apply (ip_datagram_roundtrip 8 8 sample_v4). unfold u64. lia. Defined.

(** ** The receive buffer *)

(** What a task does with a parser: push a chunk, or take a capsule. *)
Inductive parser_op := OpPush (data : bytes) | OpNext.

Definition parser_exec `{arch} (p : bytes) (o : parser_op) : bytes :=
  match o with OpPush data => push p data | OpNext => (next p).2 end.

(** The parser is safe against any peer: whatever bytes arrive and however
    pushes and reads alternate, its buffer never holds more than 256 KiB, and
    the next read returns (a capsule, nothing yet, or an error) without a
    panic. *)
Theorem capsule_parser_safe {w : arch} (ops : list parser_op)
  (Hbytes : Forall (λ o, match o with OpPush d => bytes_ok d | OpNext => True end) ops) :
  let p := foldl parser_exec [] ops in
  blen p ≤ MAX_CAPSULE_BUF ∧ no_panic (next p).1.
Proof.
  assert (∀ p, bytes_ok p → blen p ≤ MAX_CAPSULE_BUF →
    bytes_ok (foldl parser_exec p ops) ∧ blen (foldl parser_exec p ops) ≤ MAX_CAPSULE_BUF) as H.
  { induction Hbytes as [|o ops Ho _ IH]; intros p Hp Hl; [done|]. cbn [foldl].
    destruct o as [data|]; cbn [parser_exec].
    - unfold push. destruct (_ >? _) eqn:E; apply IH; [constructor|done| |].
      + by apply Forall_app.
      + rewrite blen_app. rewrite Z.gtb_ltb, Z.ltb_ge in E. lia.
    - destruct (next_total p Hp) as (_ & t & Et & _). rewrite Et in Hp, Hl.
      apply Forall_app in Hp as [_ Hp]. apply IH; [done|]. blia. }
  destruct (H []) as [Hb Hl]; [constructor|done|]. split; [done|]. by apply next_total.
Qed.

Lemma capsule_parser_safe_witness :
  let p := foldl (@parser_exec W64) [] [OpPush [1; 5; 0x40]; OpNext; OpPush [0; 7; 1; 2; 0xff]; OpNext] in
  blen p ≤ MAX_CAPSULE_BUF ∧ no_panic (@next W64 p).1.
Proof.
  apply (@capsule_parser_safe W64).
  repeat (constructor; [by_decision || exact I|]). constructor.
Defined.

(** A malformed capsule does not desynchronise the parser: its bytes are
    consumed with it, so the capsule behind it is the next one read. *)
Theorem bad_capsule_is_skipped {w : arch} (k : Z) (v : bytes) (e : capsule_error) (rest : bytes)
  (Hfit : capsule_fits (k, v)) (Hlen : usize_ok (blen v)) (Hbad : capsule_of k v = Err e) :
  next (capsule_enc (k, v) ++ rest) = (Err e, rest).
Proof. rewrite next_capsule by done. by rewrite Hbad. Qed.

Lemma bad_capsule_is_skipped_witness :
  @next W64 (capsule_enc (1, [0; 5]) ++ [2; 0]) = (Err (BadIpVersion 5), [2; 0]).
Proof.
  apply (@bad_capsule_is_skipped W64); [|by split|by vm_compute].
  split; by split.
Defined.

(** On a 32-bit router the length of a capsule is read modulo 2^32
    ([v as usize]): a DATAGRAM capsule announcing 2^32 + 1 bytes is accepted
    as one of a single byte, where a 64-bit build waits for the rest. *)
Theorem capsule_length_truncated_32 (b : Z) :
  @next W32 ([0] ++ varint_enc (2 ^ 32 + 1) ++ [b]) = (Ok (Some (Datagram [b])), []) ∧
  @next W64 ([0] ++ varint_enc (2 ^ 32 + 1) ++ [b])
    = (Ok None, [0] ++ varint_enc (2 ^ 32 + 1) ++ [b]).
Proof.
  set (p := [0] ++ varint_enc (2 ^ 32 + 1) ++ [b]).
  assert (varint_ok (2 ^ 32 + 1)) as Hv by (unfold varint_ok, MAX_VAR_INT; lia).
  destruct (get_varint_reads (with_slice p) 0 _ varint_ok_0 (reads_with_slice _))
    as (b1 & E1 & R1 & _ & O1).
  destruct (get_varint_reads b1 _ _ Hv R1) as (b2 & E2 & R2 & _ & O2).
  assert (dropz (off b2 + 1) p = []) as Hd by (rewrite O2, O1; done).
  unfold next. rewrite E1, E2, (reads_cap _ _ R2). change (blen [b]) with 1. split.
  - change (@as_usize W32 (2 ^ 32 + 1)) with 1. cbn [Z.ltb Z.compare Pos.compare Pos.compare_cont].
    destruct (get_vec_reads b2 [b] [] R2) as [E3 _]. change (blen [b]) with 1 in E3.
    rewrite E3. cbn [fst snd off]. by rewrite Hd.
  - done.
Qed.

(** ** The Internet checksum of the probe *)

(** The sum of the 16-bit words without a bound on its size. *)
Fixpoint words (header : bytes) : Z :=
  match header with
  | a :: b :: r => a * 256 + b + words r
  | [a] => a * 256
  | [] => 0
  end.

Lemma list_ind2 {A} (P : list A → Prop) :
  P [] → (∀ a, P [a]) → (∀ a b l, P l → P (a :: b :: l)) → ∀ l, P l.
Proof.
  intros H0 H1 H2. assert (∀ l, P l ∧ ∀ a, P (a :: l)) as H; [|intros l; apply H].
  induction l as [|b l [IH IH']]; split; auto.
Qed.

Lemma words_bound l : bytes_ok l → 0 ≤ words l ≤ 65535 * blen l.
Proof.
  induction l as [|a|a b l IH] using list_ind2; intros H; cbn [words]; [done| |].
  - apply Forall_cons in H as [H _]. unfold u8 in H. blia.
  - apply Forall_cons in H as [Ha [Hb Hl]%Forall_cons]. specialize (IH Hl). unfold u8 in *. blia.
Qed.

Lemma sum_words_plain l acc :
  bytes_ok l → 0 ≤ acc → acc + 65535 * blen l < 2 ^ 32 → sum_words acc l = acc + words l.
Proof.
  revert acc. induction l as [|a|a b l IH] using list_ind2; intros acc H Hacc Hlt;
    cbn [sum_words words].
  - lia.
  - apply Forall_cons in H as [H _]. unfold u8 in H. rewrite Z.shiftl_mul_pow2 by lia.
    unfold as_u32. rewrite Z.mod_small; blia.
  - apply Forall_cons in H as [Ha [Hb Hl]%Forall_cons]. unfold u8 in *.
    pose proof (blen_nonneg l). rewrite !blen_cons in Hlt.
    rewrite be_val_2.
    unfold as_u32. rewrite Z.mod_small by lia. rewrite IH by (try done; lia). lia.
Qed.

Lemma fold_parts s :
  0 ≤ s → Z.land s 0xffff = s mod 65536 ∧ Z.shiftr s 16 = s / 65536.
Proof.
  intros. change 0xffff with (2 ^ 16 - 1). by rewrite land_mask, Z.shiftr_div_pow2.
Qed.

#[export] Instance fold_decreasing : DecreasingOn (λ s, 0 ≤ s) fold_measure fold_step.
Proof.
  intros s s' Hs. unfold fold_step, fold_measure. destruct (fold_parts s Hs) as [-> ->].
  destruct (Z.eqb_spec (s / 65536) 0); cbn [negb]; [done|]. intros [= <-].
  assert (0 ≤ s mod 65536 + s / 65536) as H by (Z.to_euclidean_division_equations; lia).
  split; [done|]. destruct (fold_parts _ H) as [-> ->].
  destruct (Z.eqb_spec ((s mod 65536 + s / 65536) mod 65536) 0), (Z.eqb_spec (s mod 65536) 0);
    Z.to_euclidean_division_equations; lia.
Qed.

(** Folding keeps the sum modulo 65535 and ends in 16 bits; it ends in zero
    for a zero sum only. *)
Lemma fold_spec d s :
  0 ≤ s →
  let r := loop fold_measure fold_step d s in
  0 ≤ r < 65536 ∧ (∃ k, s = r + 65535 * k) ∧ (0 < s → 0 < r).
Proof.
  apply (loop_ind_on (λ s, 0 ≤ s) _ _
    (λ s r, 0 ≤ r < 65536 ∧ (∃ k, s = r + 65535 * k) ∧ (0 < s → 0 < r))); clear s.
  - intros s r Hs. unfold fold_step. destruct (fold_parts s Hs) as [_ ->].
    destruct (Z.eqb_spec (s / 65536) 0); cbn [negb]; [|done]. intros [= <-].
    split; [Z.to_euclidean_division_equations; lia|]. split; [|done]. exists 0. lia.
  - intros s s' r Hs. unfold fold_step. destruct (fold_parts s Hs) as [-> ->].
    destruct (Z.eqb_spec (s / 65536) 0); cbn [negb]; [done|]. intros [= <-].
    intros (Hr & (k & Hk) & Hp). split; [done|]. split.
    + exists (k + s / 65536). Z.to_euclidean_division_equations; lia.
    + intros H. apply Hp. Z.to_euclidean_division_equations; lia.
Qed.

(** The checksum of [l] is the complement of its folded sum. *)
Lemma checksum_spec l :
  bytes_ok l → blen l ≤ 60000 →
  ∃ r k, ipv4_header_checksum l = 65535 - r ∧ 0 ≤ r < 65536 ∧ words l = r + 65535 * k ∧
    (0 < words l → 0 < r).
Proof.
  intros Hl Hlen. unfold ipv4_header_checksum, not_u16.
  rewrite sum_words_plain by (try done; lia). rewrite Z.add_0_l.
  pose proof (words_bound l Hl) as Hb.
  destruct (fold_spec 0 (words l)) as (Hr & (k & Hk) & Hp); [lia|].
  set (r := loop _ _ _ _) in *. exists r, k. unfold as_u16.
  rewrite Z.mod_small by lia. done.
Qed.

Lemma words_app a b : Z.even (blen a) = true → words (a ++ b) = words a + words b.
Proof.
  induction a as [|x|x y a IH] using list_ind2; intros He; cbn [app words]; [lia|done|].
  rewrite IH; [lia|]. rewrite !blen_cons in He.
  replace (1 + (1 + blen a)) with (blen a + 2) in He by lia.
  rewrite Z.even_add in He. by destruct (Z.even (blen a)).
Qed.

Lemma words_be_bytes v : u16 v → words (be_bytes 2 v) = v.
Proof.
  intros Hv. rewrite <- (be_val_small 2 v) at 2 by (unfold u16 in Hv; cbn; lia).
  cbn. unfold be_val. cbn. lia.
Qed.

(** The checksum the probe carries is the Internet checksum: storing
    [ipv4_header_checksum] of a header whose checksum field (at an even
    offset) is zero makes the checksum of the header verify, that is, come
    out zero. *)
Lemma checksum_verifies (a b : bytes)
  (Ha : bytes_ok a) (Hb : bytes_ok b) (Heven : Z.even (blen a) = true)
  (Hlen : blen a + blen b ≤ 50000)
  (Hnz : 0 < words a + words b) :
  let csum := ipv4_header_checksum (a ++ [0; 0] ++ b) in
  u16 csum ∧ ipv4_header_checksum (a ++ be_bytes 2 csum ++ b) = 0.
Proof.
  assert (bytes_ok [0; 0]) as H00 by by_decision.
  destruct (checksum_spec (a ++ [0; 0] ++ b)) as (r & k & Hc & Hr & Hk & _);
    [by repeat apply Forall_app_2|blia|].
  rewrite Hc. assert (u16 (65535 - r)) as Hu by (unfold u16; lia). split; [done|].
  destruct (checksum_spec (a ++ be_bytes 2 (65535 - r) ++ b)) as (r' & k' & -> & Hr' & Hk' & Hp');
    [repeat apply Forall_app_2; try done; apply be_bytes_ok|rewrite !blen_app, blen_be_bytes; lia|].
  rewrite !words_app in Hk, Hk', Hp' by done. rewrite words_be_bytes in Hk', Hp' by done.
  cbn [words] in Hk. pose proof (words_bound a Ha). pose proof (words_bound b Hb).
  assert (0 < r') by (apply Hp'; lia). lia.
Qed.

(** The data-plane probe is a well-formed IPv4/UDP packet for every
    source address and every random choice: its length field is its length,
    its header checksum verifies, its UDP length is right and the tunnel's
    own test takes it for an IP packet. *)
Lemma probe_packet_shape (src dns_id ip_id sport : Z)
  (Hsrc : ip_ok (V4 src)) (Hid : u16 ip_id) :
  let p := build_dns_probe_packet src dns_id ip_id sport in
  blen p = 60 ∧ be_val (takez 2 (dropz 2 p)) = blen p ∧
  be_val (takez 2 (dropz 24 p)) = blen p - 20 ∧
  ipv4_header_checksum (takez 20 p) = 0 ∧ looks_like_ip_packet p = true.
Proof.
  set (a := [0x45; 0x00] ++ be_bytes 2 60 ++ be_bytes 2 ip_id ++ [0x00; 0x00; 64; 17]).
  set (b := ip_octets (V4 src) ++ [8; 8; 8; 8]).
  set (csum := ipv4_header_checksum (a ++ [0; 0] ++ b)).
  assert (build_dns_probe_packet src dns_id ip_id sport =
    (a ++ be_bytes 2 csum ++ b) ++ be_bytes 2 sport ++ be_bytes 2 53 ++ be_bytes 2 40
    ++ [0; 0] ++ probe_dns_query dns_id) as E by reflexivity.
  rewrite E. clear E.
  destruct (checksum_verifies a b) as [_ Hc].
  - repeat apply Forall_app_2; (apply be_bytes_ok || by_decision).
  - apply Forall_app_2; [apply ip_octets_ok|by_decision].
  - done.
  - by vm_compute.
  - assert (0 ≤ words b) by (apply words_bound, Forall_app_2; [apply ip_octets_ok|by_decision]).
    assert (words a = 0x4500 + 60 + ip_id + (64 * 256 + 17)) as ->; [|unfold u16 in Hid; lia].
    unfold a. rewrite !words_app, words_be_bytes, words_be_bytes by done. cbn. lia.
  - fold csum in Hc. split_and!; try reflexivity. exact Hc.
Qed.

(** ** The values of ADDRESS_ASSIGN and ROUTE_ADVERTISEMENT *)

Definition version_ok (v : Z) (addr : bytes) : Prop :=
  (v = 4 ∧ blen addr = 4) ∨ (v = 6 ∧ blen addr = 16).

Definition assign_enc (a : AssignedAddress) : bytes :=
  varint_enc (request_id a) ++ [ip_version a] ++ address a ++ [prefix_len a].
Definition assign_ok (a : AssignedAddress) : Prop :=
  varint_ok (request_id a) ∧ version_ok (ip_version a) (address a).

Definition route_enc (r : RouteAdvertisement) : bytes :=
  [route_version r] ++ route_start r ++ route_end r ++ [protocol r].
Definition route_ok (r : RouteAdvertisement) : Prop :=
  version_ok (route_version r) (route_start r) ∧ version_ok (route_version r) (route_end r).

Lemma addr_len_ok v addr : version_ok v addr → addr_len v = Ok (blen addr).
Proof. intros [[-> ->]|[-> ->]]; done. Qed.

Lemma get_u8_reads b x r :
  reads b (x :: r) → get_u8 b = Ok (x, Octets (buf b) (off b + 1)) ∧
  reads (Octets (buf b) (off b + 1)) r.
Proof.
  intros H. destruct (get_u_reads 1 b [x] r H eq_refl) as [E R].
  by rewrite be_val_1 in E.
Qed.

Lemma parse_one_assign_reads a b r :
  assign_ok a → reads b (assign_enc a ++ r) →
  ∃ b', parse_one_assign b = Ok (a, b') ∧ reads b' r ∧ 0 < blen (assign_enc a).
Proof.
  intros [Hv Ha] H. unfold assign_enc in *. rewrite <- !app_assoc in H. cbn [app] in H.
  unfold parse_one_assign.
  destruct (get_varint_reads _ _ _ Hv H) as (b1 & -> & R1 & _). cbn [map_err mbind comp_bind].
  destruct (get_u8_reads _ _ _ R1) as [-> R2]. cbn [map_err mbind comp_bind].
  rewrite (addr_len_ok _ _ Ha). cbn [mbind comp_bind].
  destruct (get_vec_reads _ _ _ R2) as [-> R3]. cbn [mbind comp_bind].
  destruct (get_u8_reads _ _ _ R3) as [-> R4]. cbn [map_err mbind comp_bind].
  eexists. split; [by destruct a|]. split; [done|].
  pose proof (varint_enc_pos _ Hv). blia.
Qed.

Lemma parse_one_route_reads a b r :
  route_ok a → reads b (route_enc a ++ r) →
  ∃ b', parse_one_route b = Ok (a, b') ∧ reads b' r ∧ 0 < blen (route_enc a).
Proof.
  intros [Hs He] H. unfold route_enc in *. rewrite <- !app_assoc in H. cbn [app] in H.
  unfold parse_one_route.
  destruct (get_u8_reads _ _ _ H) as [-> R2]. cbn [map_err mbind comp_bind].
  rewrite (addr_len_ok _ _ Hs). cbn [mbind comp_bind].
  destruct (get_vec_reads _ _ _ R2) as [-> R3]. cbn [mbind comp_bind].
  destruct (get_vec_reads _ _ _ R3) as [G R4].
  assert (blen (route_end a) = blen (route_start a)) as E
    by (destruct Hs as [[? ?]|[? ?]], He as [[? ?]|[? ?]]; lia).
  rewrite E in G, R4. rewrite G. cbn [mbind comp_bind].
  destruct (get_u8_reads _ _ _ R4) as [-> R5]. cbn [map_err mbind comp_bind].
  eexists. split; [by destruct a|]. split; [done|]. blia.
Qed.

(** The values of ADDRESS_ASSIGN and ROUTE_ADVERTISEMENT capsules are
    read back entry by entry: parsing the encoding of any list of entries, of
    both address families, gives the list. *)
Theorem capsule_values_roundtrip (addrs : list AssignedAddress) (routes : list RouteAdvertisement)
  (Ha : Forall assign_ok addrs) (Hr : Forall route_ok routes) :
  parse_address_assign (concat (assign_enc <$> addrs)) = Ok addrs ∧
  parse_route_advertisement (concat (route_enc <$> routes)) = Ok routes.
Proof.
  rewrite Forall_forall in Ha. rewrite Forall_forall in Hr. split.
  - apply parse_entries_reads; [apply steps_one_assign|].
    intros e b r He. apply parse_one_assign_reads. by apply Ha.
  - apply parse_entries_reads; [apply steps_one_route|].
    intros e b r He. apply parse_one_route_reads. by apply Hr.
Qed.

Lemma capsule_values_roundtrip_witness :
  parse_address_assign (concat (assign_enc <$> [mk_assigned 300 4 [10; 0; 0; 2] 32]))
    = Ok [mk_assigned 300 4 [10; 0; 0; 2] 32] ∧
  parse_route_advertisement (concat (route_enc <$> [mk_route 4 [0; 0; 0; 0] [9; 9; 9; 9] 17]))
    = Ok [mk_route 4 [0; 0; 0; 0] [9; 9; 9; 9] 17].
Proof.
  apply capsule_values_roundtrip.
  - constructor; [|constructor]. split; [by split|by left].
  - constructor; [|constructor]. split; by left.
Defined.
