(* ===== verification/Sniff.v ===== *)
(** * Reading the host a client asks for

    src/aether/src/sniff.rs: the server name of a TLS ClientHello and the
    Host header of an HTTP request, read from the first bytes a client sends.
    Routing rules about domains are applied to the name found here. *)

From stdpp Require Import strings.
From S2P Require Import Prelude Text Net NetText.

Definition TLS_HANDSHAKE : Z := 0x16.
Definition TLS_CLIENT_HELLO : Z := 0x01.
Definition EXT_SERVER_NAME : Z := 0x0000.
Definition SNI_HOST_NAME : Z := 0x00.
Definition MAX_HOST_LEN : Z := 253.
Definition PEEK_BUDGET : Z := 4096.

Definition be16 (buf : bytes) (pos : Z) : option Z :=
  hi ← get buf pos;
  lo ← get buf (pos + 1);
  Some (Z.lor (Z.shiftl hi 8) lo).

Definition be24 (buf : bytes) (pos : Z) : option Z :=
  a ← get buf pos;
  b ← get buf (pos + 1);
  c ← get buf (pos + 2);
  Some (Z.lor (Z.lor (Z.shiftl a 16) (Z.shiftl b 8)) c).

Definition host_char (b : Z) : bool :=
  is_ascii_alphanumeric b || (b =? 45) || (b =? 46) || (b =? 95).

Section sniff.
Context `{!UnicodeCase} {w : arch}.

Definition plausible_host (raw : bytes) : option bytes :=
  if is_empty raw || (blen raw >? MAX_HOST_LEN) then None else
  text ← from_utf8 raw;
  let name := trim_end_matches 46 (trim text) in
  if is_empty name || (blen name >? MAX_HOST_LEN) then None else
  let allowed := forallb host_char name in
  if negb allowed || negb (contains [46] name) then None else
  match parse_ip name with
  | Some _ => None
  | None => Some (to_lowercase name)
  end.

(** The loop over the entries of the server-name list. *)
Definition name_step (data : bytes) (list_end : Z) (pos : Z) : round Z (option bytes) :=
  if pos + 3 <=? list_end then
    match get data pos, be16 data (pos + 1) with
    | Some kind, Some len =>
        let start := pos + 3 in
        match checked_add start len with
        | None => Done None
        | Some stop =>
            if stop >? list_end then Done None
            else if kind =? SNI_HOST_NAME
            then Done (s ← slice data start stop; plausible_host s)
            else Next stop
        end
    | _, _ => Done None
    end
  else Done None.

Definition first_server_name (data : bytes) : option bytes :=
  list_len ← be16 data 0;
  stop ← checked_add 2 list_len;
  let list_end := Z.min stop (blen data) in
  loop (λ pos, Z.to_nat (list_end - pos)) (name_step data list_end) None 2.

(** The loop over the extensions. *)
Definition ext_step (hello : bytes) (extensions_end : Z) (pos : Z) : round Z (option bytes) :=
  if pos + 4 <=? extensions_end then
    match be16 hello pos, be16 hello (pos + 2) with
    | Some kind, Some len =>
        let data_start := pos + 4 in
        match checked_add data_start len with
        | None => Done None
        | Some data_end =>
            if data_end >? extensions_end then Done None
            else if as_u16 kind =? EXT_SERVER_NAME
            then Done (data ← slice hello data_start data_end; first_server_name data)
            else Next data_end
        end
    | _, _ => Done None
    end
  else Done None.

(** The body of the ClientHello in the first record, as far as it is there. *)
Definition client_hello_body (buf : bytes) : option bytes :=
  first ← get buf 0;
  if negb (first =? TLS_HANDSHAKE) then None else
  record_len ← be16 buf 3;
  stop ← checked_add 5 record_len;
  let record_end := Z.min stop (blen buf) in
  body ← slice buf 5 record_end;
  kind ← get body 0;
  if negb (kind =? TLS_CLIENT_HELLO) then None else
  hello_len ← be24 body 1;
  stop ← checked_add 4 hello_len;
  let hello_end := Z.min stop (blen body) in
  slice body 4 hello_end.

(** Past the random, the session id, the cipher suites and the compression
    methods, to the extensions. *)
Definition hello_sni (hello : bytes) : option bytes :=
  let pos := 2 + 32 in
  session_len ← get hello pos;
  pos ← checked_add pos (1 + session_len);
  cipher_len ← be16 hello pos;
  pos ← checked_add pos (2 + cipher_len);
  compression_len ← get hello pos;
  pos ← checked_add pos (1 + compression_len);
  extensions_len ← be16 hello pos;
  pos ← checked_add pos 2;
  stop ← checked_add pos extensions_len;
  let extensions_end := Z.min stop (blen hello) in
  loop (λ pos, Z.to_nat (extensions_end - pos)) (ext_step hello extensions_end) None pos.

Definition tls_sni (buf : bytes) : option bytes :=
  hello ← client_hello_body buf; hello_sni hello.

Definition METHODS : list bytes :=
  [lit "GET "; lit "POST "; lit "PUT "; lit "HEAD "; lit "DELETE "; lit "OPTIONS ";
   lit "PATCH "; lit "TRACE "; lit "CONNECT "].

Definition looks_like_http (line : bytes) : bool :=
  existsb (λ m, starts_with m line) METHODS && contains (lit "HTTP/") line.

(** The header lines: up to the empty line, the first Host header decides. *)
Fixpoint host_header (ls : list bytes) : option bytes :=
  match ls with
  | [] => None
  | line :: rest =>
      if is_empty line then None
      else match split_once 58 line with
           | None => host_header rest
           | Some (name, value) =>
               if negb (eq_ignore_ascii_case name (lit "host")) then host_header rest
               else
                 let value := trim value in
                 let without_port :=
                   match rsplit_once 58 value with
                   | Some (host, port) => if forallb is_ascii_digit port then host else value
                   | None => value
                   end in
                 plausible_host without_port
           end
  end.

Definition http_host (buf : bytes) : option bytes :=
  let head_end := Z.min (blen buf) PEEK_BUDGET in
  head ← slice buf 0 head_end;
  match split_str [13; 10] (from_utf8_lossy head) with
  | [] => None
  | request_line :: ls =>
      if negb (looks_like_http request_line) then None else host_header ls
  end.

Definition hostname (buf : bytes) : option bytes :=
  match tls_sni buf with Some name => Some name | None => http_host buf end.

End sniff.

(** ** Reading integers *)

Lemma be16_suffix buf pos v r :
  u16 v → suffix_at buf pos (be_bytes 2 v ++ r) → be16 buf pos = Some v.
Proof.
  intros Hv H. destruct (be_bytes_2 v Hv) as (a & b & E & Ha & Hb & Ev). rewrite E in H.
  cbn [app] in H. unfold be16.
  rewrite (suffix_at_get _ _ _ _ H). cbn [mbind option_bind].
  rewrite (suffix_at_get _ _ _ _ (suffix_at_cons _ _ _ _ H)). cbn [mbind option_bind].
  by rewrite lor_shiftl_8, Ev.
Qed.

Lemma be16_bound buf pos v : bytes_ok buf → be16 buf pos = Some v → u16 v.
Proof.
  intros Hb. unfold be16.
  destruct (get buf pos) as [hi|] eqn:E1; cbn; [|done].
  destruct (get buf (pos + 1)) as [lo|] eqn:E2; cbn; [|done].
  intros [= <-]. apply get_ok in E1; [|done]. apply get_ok in E2; [|done].
  rewrite lor_shiftl_8 by done. unfold u8, u16 in *. lia.
Qed.

Lemma be24_suffix buf pos v r :
  0 ≤ v < 2 ^ 24 → suffix_at buf pos (be_bytes 3 v ++ r) → be24 buf pos = Some v.
Proof.
  intros Hv H. pose proof (be_bytes_ok 3 v) as Hok. pose proof (be_val_small 3 v Hv) as Ev.
  remember (be_bytes 3 v) as l eqn:El. cbn [be_bytes] in El. subst l.
  match type of Hok with bytes_ok [?x; ?y; ?z] => set (a := x) in *; set (b := y) in *; set (c := z) in * end.
  apply Forall_cons in Hok as [Ha [Hb [Hc _]%Forall_cons]%Forall_cons].
  cbn [app] in H. unfold be24. rewrite (suffix_at_get _ _ _ _ H). cbn [mbind option_bind].
  pose proof (suffix_at_cons _ _ _ _ H) as H1.
  rewrite (suffix_at_get _ _ _ _ H1). cbn [mbind option_bind].
  pose proof (suffix_at_cons _ _ _ _ H1) as H2. replace (pos + 1 + 1) with (pos + 2) in H2 by lia.
  rewrite (suffix_at_get _ _ _ _ H2). cbn [mbind option_bind]. f_equal.
  replace (Z.lor (Z.shiftl a 16) (Z.shiftl b 8)) with (Z.shiftl (a * 256 + b) 8).
  - rewrite lor_shiftl_8 by done. rewrite <- Ev. unfold be_val. cbn [fold_left]. lia.
  - rewrite <- (lor_shiftl_8 a b) by done. rewrite Z.shiftl_lor. by f_equal.
Qed.

(** ** Termination of the loops *)

Lemma name_decreasing `{!UnicodeCase} {w : arch} data list_end :
  bytes_ok data → Decreasing (λ pos, Z.to_nat (list_end - pos)) (name_step data list_end).
Proof.
  intros Hd pos pos'. unfold name_step. destruct (Z.leb_spec (pos + 3) list_end); [|done].
  destruct (get data pos) as [kind|]; [|done].
  destruct (be16 data (pos + 1)) as [len|] eqn:El; [|done]. apply be16_bound in El; [|done].
  unfold checked_add. destruct (_ <=? _); [|done].
  destruct (Z.gtb_spec (pos + 3 + len) list_end); [done|]. destruct (_ =? _); [done|].
  intros [= <-]. unfold u16 in El. lia.
Qed.

Lemma ext_decreasing `{!UnicodeCase} {w : arch} hello extensions_end :
  bytes_ok hello → Decreasing (λ pos, Z.to_nat (extensions_end - pos)) (ext_step hello extensions_end).
Proof.
  intros Hd pos pos'. unfold ext_step. destruct (Z.leb_spec (pos + 4) extensions_end); [|done].
  destruct (be16 hello pos) as [kind|]; [|done].
  destruct (be16 hello (pos + 2)) as [len|] eqn:El; [|done]. apply be16_bound in El; [|done].
  unfold checked_add. destruct (_ <=? _); [|done].
  destruct (Z.gtb_spec (pos + 4 + len) extensions_end); [done|]. destruct (_ =? _); [done|].
  intros [= <-]. unfold u16 in El. lia.
Qed.

(** ** A ClientHello on the wire (RFC 8446, 4.1.2; RFC 6066, 3) *)

(** A list of (type, data) entries with 16-bit lengths. *)
Definition ext_enc (e : Z * bytes) : bytes := be_bytes 2 e.1 ++ be_bytes 2 (blen e.2) ++ e.2.
Definition exts_enc (es : list (Z * bytes)) : bytes := concat (ext_enc <$> es).

Definition ext_ok (e : Z * bytes) : Prop := u16 e.1 ∧ u16 (blen e.2) ∧ bytes_ok e.2.

Record client_hello := mk_hello {
  ch_record_version : bytes; ch_version : bytes; ch_random : bytes;
  ch_session : bytes; ch_ciphers : bytes; ch_compression : bytes;
  ch_exts : list (Z * bytes) }.

Definition hello_enc (h : client_hello) : bytes :=
  ch_version h ++ ch_random h ++ [blen (ch_session h)] ++ ch_session h
  ++ be_bytes 2 (blen (ch_ciphers h)) ++ ch_ciphers h
  ++ [blen (ch_compression h)] ++ ch_compression h
  ++ be_bytes 2 (blen (exts_enc (ch_exts h))) ++ exts_enc (ch_exts h).

Definition record_enc (h : client_hello) : bytes :=
  [TLS_HANDSHAKE] ++ ch_record_version h ++ be_bytes 2 (4 + blen (hello_enc h))
  ++ [TLS_CLIENT_HELLO] ++ be_bytes 3 (blen (hello_enc h)) ++ hello_enc h.

Definition hello_ok (h : client_hello) : Prop :=
  blen (ch_record_version h) = 2 ∧ blen (ch_version h) = 2 ∧ blen (ch_random h) = 32 ∧
  u8 (blen (ch_session h)) ∧ u16 (blen (ch_ciphers h)) ∧ u8 (blen (ch_compression h)) ∧
  Forall ext_ok (ch_exts h) ∧ u16 (4 + blen (hello_enc h)) ∧
  bytes_ok (ch_version h) ∧ bytes_ok (ch_random h) ∧ bytes_ok (ch_session h) ∧
  bytes_ok (ch_ciphers h) ∧ bytes_ok (ch_compression h) ∧ bytes_ok (ch_record_version h).

(** The server_name extension: a list of names, the first of type host_name
    with text [host]; [others] follow it. *)
Definition sni_data (host others : bytes) : bytes :=
  be_bytes 2 (3 + blen host + blen others) ++ [SNI_HOST_NAME] ++ be_bytes 2 (blen host) ++ host ++ others.

Lemma blen_ext_enc e : blen (ext_enc e) = 4 + blen e.2.
Proof. unfold ext_enc. rewrite !blen_app, !blen_be_bytes. lia. Qed.

Lemma exts_enc_cons e es : exts_enc (e :: es) = ext_enc e ++ exts_enc es.
Proof. done. Qed.

Lemma ext_enc_ok e : ext_ok e → bytes_ok (ext_enc e).
Proof. intros (_ & _ & H). repeat apply Forall_app_2; (apply be_bytes_ok || done). Qed.

Lemma exts_enc_ok es : Forall ext_ok es → bytes_ok (exts_enc es).
Proof.
  induction 1 as [|e es He _ IH]; [constructor|]. rewrite exts_enc_cons.
  apply Forall_app_2; [by apply ext_enc_ok|done].
Qed.

Lemma hello_enc_ok h : hello_ok h → bytes_ok (hello_enc h).
Proof.
  intros (? & ? & ? & ? & ? & ? & ? & ? & ? & ? & ? & ? & ? & ?).
  unfold hello_enc. repeat apply Forall_app_2;
    (apply be_bytes_ok || done || by apply exts_enc_ok || (constructor; [done|constructor])).
Qed.

Section sni.
Context `{!UnicodeCase} {w : arch}.

Lemma first_server_name_spec host others :
  bytes_ok host → bytes_ok others → u16 (3 + blen host + blen others) →
  first_server_name (sni_data host others) = plausible_host host.
Proof.
  intros Hh Ho Hl. unfold first_server_name.
  assert (u16 (blen host)) as Hhl by (unfold u16 in *; blia).
  set (d := sni_data host others).
  assert (bytes_ok d) as Hd.
  { unfold d, sni_data. repeat apply Forall_app_2; (apply be_bytes_ok || done || by_decision). }
  assert (suffix_at d 0 (be_bytes 2 (3 + blen host + blen others)
    ++ [SNI_HOST_NAME] ++ be_bytes 2 (blen host) ++ host ++ others)) as S0 by apply suffix_at_0.
  rewrite (be16_suffix _ _ _ _ Hl S0). cbn [mbind option_bind].
  assert (suffix_at d 2 ([SNI_HOST_NAME] ++ be_bytes 2 (blen host) ++ host ++ others)) as S1
    by (by apply (suffix_at_app' _ _ _ _ _ S0)).
  pose proof (suffix_at_len _ _ _ S1) as Hlen. rewrite !blen_app, blen_be_bytes in Hlen.
  unfold u16 in Hl. rewrite checked_add_small by lia. cbn [mbind option_bind].
  change (blen [SNI_HOST_NAME]) with 1 in Hlen.
  rewrite Z.min_l by lia.
  pose proof (name_decreasing d (2 + (3 + blen host + blen others)) Hd).
  rewrite loop_unfold by done. unfold name_step at 1.
  destruct (Z.leb_spec (2 + 3) (2 + (3 + blen host + blen others))); [|blia].
  rewrite (suffix_at_get _ _ _ _ S1).
  assert (suffix_at d (2 + 1) (be_bytes 2 (blen host) ++ host ++ others)) as S2
    by (by apply (suffix_at_app' _ _ _ _ _ S1)).
  rewrite (be16_suffix _ _ _ _ Hhl S2). rewrite checked_add_small by blia.
  destruct (Z.gtb_spec (2 + 3 + blen host) (2 + (3 + blen host + blen others))); [blia|].
  cbn [Z.eqb SNI_HOST_NAME].
  assert (suffix_at d (2 + 3) (host ++ others)) as S3
    by (by apply (suffix_at_app' _ _ _ _ _ S2)).
  by rewrite (suffix_at_slice _ _ _ _ _ S3).
Qed.

(** The walk over the extensions stops at the first server_name. *)
Lemma ext_walk hello pos pre data post tail e :
  bytes_ok hello → blen hello < 2 ^ 31 →
  Forall (λ e, ext_ok e ∧ e.1 ≠ EXT_SERVER_NAME) pre → u16 (blen data) →
  suffix_at hello pos (exts_enc (pre ++ (EXT_SERVER_NAME, data) :: post) ++ tail) →
  e = pos + blen (exts_enc (pre ++ (EXT_SERVER_NAME, data) :: post)) →
  loop (λ pos, Z.to_nat (e - pos)) (ext_step hello e) None pos = first_server_name data.
Proof.
  intros Hok Hlen Hpre Hdata Hs He. pose proof (ext_decreasing hello e Hok) as Hdec.
  revert pos Hs He. induction Hpre as [|[k v] pre ((Hk & Hv & Hvb) & Hne) _ IH]; intros pos Hs He;
    rewrite loop_unfold by done; unfold ext_step at 1; cbn [app] in *;
    rewrite exts_enc_cons, blen_app, blen_ext_enc in He; cbn [fst snd] in *;
    pose proof (suffix_at_len _ _ _ Hs) as Hl; pose proof (suffix_at_nonneg _ _ _ Hs) as Hp;
    rewrite exts_enc_cons in Hs, Hl; rewrite !blen_app, blen_ext_enc in Hl; cbn [fst snd] in Hl;
    unfold ext_enc in Hs; cbn [fst snd] in Hs; rewrite <- !app_assoc in Hs;
    blen_pos; (destruct (Z.leb_spec (pos + 4) e); [|lia]).
  - rewrite (be16_suffix _ _ EXT_SERVER_NAME _ ltac:(by split) Hs).
    assert (suffix_at hello (pos + 2) (be_bytes 2 (blen data) ++ data ++ exts_enc post ++ tail)) as S1
      by (by apply (suffix_at_app' _ _ _ _ _ Hs)).
    rewrite (be16_suffix _ _ _ _ Hdata S1), checked_add_small by lia.
    destruct (Z.gtb_spec (pos + 4 + blen data) e); [lia|]. cbn [Z.eqb as_u16 EXT_SERVER_NAME].
    assert (suffix_at hello (pos + 4) (data ++ exts_enc post ++ tail)) as S2
      by (apply (suffix_at_app' _ _ _ _ _ S1); rewrite blen_be_bytes; lia).
    by rewrite (suffix_at_slice _ _ _ _ _ S2).
  - rewrite (be16_suffix _ _ k _ Hk Hs).
    assert (suffix_at hello (pos + 2) (be_bytes 2 (blen v) ++ v
      ++ exts_enc (pre ++ (EXT_SERVER_NAME, data) :: post) ++ tail)) as S1
      by (by apply (suffix_at_app' _ _ _ _ _ Hs)).
    rewrite (be16_suffix _ _ _ _ Hv S1), checked_add_small by lia.
    destruct (Z.gtb_spec (pos + 4 + blen v) e); [lia|].
    unfold as_u16. rewrite Z.mod_small by (unfold u16 in Hk; lia).
    destruct (Z.eqb_spec k EXT_SERVER_NAME); [done|].
    apply IH; [|lia]. apply (suffix_at_app' hello (pos + 2) _ (be_bytes 2 (blen v) ++ v)).
    + by rewrite <- app_assoc.
    + rewrite blen_app, blen_be_bytes. lia.
Qed.

End sni.

(** Offsets of the fields of a ClientHello in its encoding: after the fixed
    part, the session id, the cipher suites and the compression methods. *)
Lemma hello_layout h t :
  hello_ok h →
  let e := hello_enc h ++ t in
  let p2 := 35 + blen (ch_session h) in
  let p3 := p2 + 2 + blen (ch_ciphers h) in
  let p4 := p3 + 1 + blen (ch_compression h) in
  get e 34 = Some (blen (ch_session h)) ∧
  suffix_at e p2 (be_bytes 2 (blen (ch_ciphers h)) ++ ch_ciphers h ++
    [blen (ch_compression h)] ++ ch_compression h
    ++ be_bytes 2 (blen (exts_enc (ch_exts h))) ++ exts_enc (ch_exts h) ++ t) ∧
  suffix_at e p3 ([blen (ch_compression h)] ++ ch_compression h
    ++ be_bytes 2 (blen (exts_enc (ch_exts h))) ++ exts_enc (ch_exts h) ++ t) ∧
  suffix_at e p4 (be_bytes 2 (blen (exts_enc (ch_exts h))) ++ exts_enc (ch_exts h) ++ t) ∧
  suffix_at e (p4 + 2) (exts_enc (ch_exts h) ++ t).
Proof.
  intros (_ & Hv & Hr & _). cbv zeta.
  assert (suffix_at (hello_enc h ++ t) 0 (hello_enc h ++ t)) as S0 by apply suffix_at_0.
  unfold hello_enc in S0 at 2. rewrite <- !app_assoc in S0.
  apply suffix_at_app in S0. apply suffix_at_app in S0. rewrite Hv, Hr in S0.
  split; [by apply suffix_at_get in S0|].
  apply suffix_at_app, suffix_at_app in S0. change (blen [blen (ch_session h)]) with 1 in S0.
  replace (0 + 2 + 32 + 1 + blen (ch_session h)) with (35 + blen (ch_session h)) in S0 by lia.
  split; [done|]. apply suffix_at_app, suffix_at_app in S0. rewrite blen_be_bytes in S0.
  change (Z.of_nat 2) with 2 in S0. split; [done|].
  apply suffix_at_app, suffix_at_app in S0. change (blen [blen (ch_compression h)]) with 1 in S0.
  split; [done|]. apply suffix_at_app in S0. by rewrite blen_be_bytes in S0.
Qed.

Lemma client_hello_body_spec {w : arch} h trailing :
  hello_ok h → client_hello_body (record_enc h ++ trailing) = Some (hello_enc h).
Proof.
  intros (Hrv & _ & _ & _ & _ & _ & _ & Hlen & _).
  set (body := [TLS_CLIENT_HELLO] ++ be_bytes 3 (blen (hello_enc h)) ++ hello_enc h).
  assert (blen body = 4 + blen (hello_enc h)) as Hbody
    by (unfold body; rewrite !blen_app, blen_be_bytes; blia).
  set (buf := record_enc h ++ trailing).
  assert (suffix_at buf 3 (be_bytes 2 (4 + blen (hello_enc h)) ++ body ++ trailing)) as S3.
  { exists ([TLS_HANDSHAKE] ++ ch_record_version h). split; [|blia].
    unfold buf, record_enc, body. by rewrite <- !app_assoc. }
  assert (suffix_at buf 5 (body ++ trailing)) as S5 by (by apply (suffix_at_app' _ _ _ _ _ S3)).
  pose proof (suffix_at_len _ _ _ S5) as Hbuf. rewrite blen_app, Hbody in Hbuf.
  pose proof (blen_nonneg trailing). pose proof (blen_nonneg (hello_enc h)).
  unfold client_hello_body. change (get buf 0) with (Some TLS_HANDSHAKE). cbn [mbind option_bind].
  cbn [Z.eqb Pos.eqb negb TLS_HANDSHAKE].
  rewrite (be16_suffix _ _ _ _ Hlen S3). cbn [mbind option_bind]. unfold u16 in Hlen.
  rewrite checked_add_small by lia. cbn [mbind option_bind]. rewrite Z.min_l by lia.
  rewrite (suffix_at_slice _ _ body trailing) by (done || lia). cbn [mbind option_bind].
  change (get body 0) with (Some TLS_CLIENT_HELLO).
  cbn [mbind option_bind Z.eqb Pos.eqb negb TLS_CLIENT_HELLO].
  assert (suffix_at body 1 (be_bytes 3 (blen (hello_enc h)) ++ hello_enc h)) as B1
    by (by exists [TLS_CLIENT_HELLO]).
  rewrite (be24_suffix _ _ (blen (hello_enc h)) _) by (done || lia).
  cbn [mbind option_bind]. rewrite checked_add_small by lia. cbn [mbind option_bind]. rewrite Z.min_l by lia.
  apply (suffix_at_slice body 4 (hello_enc h) []); [|done].
  rewrite app_nil_r. by apply (suffix_at_app' _ _ _ _ _ B1).
Qed.

Lemma hello_sni_spec `{!UnicodeCase} {w : arch} h pre data post :
  hello_ok h → ch_exts h = pre ++ (EXT_SERVER_NAME, data) :: post →
  Forall (λ e, e.1 ≠ EXT_SERVER_NAME) pre → u16 (blen data) →
  hello_sni (hello_enc h) = first_server_name data.
Proof.
  intros Hh Hexts Hpre Hdata. pose proof (hello_layout h [] Hh) as L. rewrite app_nil_r in L.
  destruct L as (L1 & L2 & L3 & L4 & L5). pose proof (hello_enc_ok h Hh) as Hb.
  destruct Hh as (_ & _ & _ & Hs & Hc & Hcm & He & Hlen & _).
  pose proof (suffix_at_len _ _ _ L5) as Hl5. rewrite app_nil_r in *.
  pose proof (blen_nonneg (exts_enc (ch_exts h))). unfold u8, u16 in *.
  unfold hello_sni. change (2 + 32) with 34. rewrite L1. cbn [mbind option_bind].
  rewrite checked_add_small by lia. cbn [mbind option_bind].
  replace (34 + (1 + blen (ch_session h))) with (35 + blen (ch_session h)) by lia.
  rewrite (be16_suffix _ _ _ _ Hc L2). cbn [mbind option_bind].
  rewrite checked_add_small by lia. cbn [mbind option_bind]. rewrite Z.add_assoc.
  rewrite (suffix_at_get _ _ _ _ L3). cbn [mbind option_bind].
  rewrite checked_add_small by lia. cbn [mbind option_bind]. rewrite Z.add_assoc.
  assert (u16 (blen (exts_enc (ch_exts h)))) as Hx by (unfold u16; lia).
  rewrite (be16_suffix _ _ _ _ Hx L4). cbn [mbind option_bind].
  rewrite checked_add_small by lia. cbn [mbind option_bind].
  rewrite checked_add_small by lia. cbn [mbind option_bind]. rewrite Z.min_l by lia.
  rewrite Hexts in *. apply (ext_walk _ _ pre data post []); try done.
  - lia.
  - apply Forall_app in He as [He _]. by apply Forall_and.
  - by rewrite app_nil_r.
Qed.

(** C33. The server name is found where RFC 8446 and RFC 6066 put it: for
    every well-formed ClientHello whose first server_name extension starts
    with a host_name entry, whatever the session id, cipher suites, other
    extensions and the bytes that follow the record, [tls_sni] answers with
    the verdict of [plausible_host] on exactly that name. *)
Theorem tls_sni_client_hello `{!UnicodeCase} {w : arch} (h : client_hello)
  (pre post : list (Z * bytes)) (host others trailing : bytes)
  (Hh : hello_ok h)
  (Hexts : ch_exts h = pre ++ (EXT_SERVER_NAME, sni_data host others) :: post)
  (Hpre : Forall (λ e, e.1 ≠ EXT_SERVER_NAME) pre)
  (Hhost : bytes_ok host) (Hothers : bytes_ok others) :
  tls_sni (record_enc h ++ trailing) = plausible_host host.
Proof.
  assert (u16 (blen (sni_data host others))) as Hd.
  { destruct Hh as (_ & _ & _ & _ & _ & _ & He & _). rewrite Hexts in He.
    by apply Forall_app in He as [_ [(_ & He & _) _]%Forall_cons]. }
  unfold tls_sni. rewrite client_hello_body_spec by done. cbn [mbind option_bind].
  rewrite (hello_sni_spec h pre _ post) by done. apply first_server_name_spec; [done..|].
  unfold sni_data in Hd. rewrite !blen_app, !blen_be_bytes in Hd. unfold u16 in *. blia.
Qed.

Definition sample_hello : client_hello :=
  mk_hello [3; 1] [3; 3] (replicate 32 7) [1; 2; 3] [0x13; 0x01; 0x13; 0x02] [0]
    [(0xfa, []); (0, sni_data (lit "Example.ORG") []); (43, [2; 3; 4])].

Definition ascii_only : UnicodeCase := λ s, s.

Ltac hello_ok_tac :=
  unfold hello_ok, ext_ok;
  split_and!; first [by vm_compute | by_decision | (repeat constructor; by vm_compute) | idtac].

Lemma tls_sni_client_hello_witness :
  @tls_sni ascii_only W32 (record_enc sample_hello ++ [0x14; 3; 3]) = @plausible_host ascii_only (lit "Example.ORG") ∧
  @plausible_host ascii_only (lit "Example.ORG") = Some (lit "example.org").
Proof.
  split; [|by vm_compute].
  apply (@tls_sni_client_hello ascii_only W32 sample_hello [(0xfa, [])] [(43, [2; 3; 4])] _ []).
  - hello_ok_tac.
  - done.
  - by_decision.
  - by_decision.
  - constructor.
Defined.

(** ** What a sniffed name looks like *)

Definition well_formed_host (raw : bytes) : Prop :=
  raw ≠ [] ∧ blen raw ≤ MAX_HOST_LEN ∧ forallb host_char raw = true ∧
  contains [46] raw = true ∧ (∀ r, raw ≠ r ++ [46]) ∧ parse_ip raw = None.

Lemma host_char_ascii b : host_char b = true → is_ascii b = true.
Proof.
  unfold host_char, is_ascii_alphanumeric, is_ascii_alphabetic, is_ascii_uppercase,
    is_ascii_lowercase, is_ascii_digit, is_ascii.
  rewrite !orb_true_iff, !andb_true_iff, !Z.leb_le, !Z.eqb_eq, Z.ltb_lt. lia.
Qed.

Section sound.
Context `{!UnicodeCase} {w : arch}.

Definition sound_name (r : option bytes) : Prop :=
  ∀ name, r = Some name → ∃ raw, name = to_ascii_lowercase raw ∧ well_formed_host raw.

Lemma sound_None : sound_name None.
Proof. by intros ?. Qed.

Lemma plausible_host_sound raw : sound_name (plausible_host raw).
Proof.
  intros name. unfold plausible_host. destruct (is_empty raw || _); [done|].
  destruct (from_utf8 raw) as [text|]; cbn; [|done].
  remember (trim_end_matches 46 (trim text)) as n eqn:En.
  destruct (is_empty n || _) eqn:E1; [done|].
  destruct (negb (forallb host_char n) || negb (contains [46] n)) eqn:E2; [done|].
  destruct (parse_ip n) eqn:E3; [done|]. intros [= <-].
  apply orb_false_iff in E1 as [E1 Elen], E2 as [E2%negb_false_iff Edot%negb_false_iff].
  exists n. split.
  - apply to_lowercase_ascii. revert E2. apply forallb_impl, host_char_ascii.
  - split_and!; try done.
    + by intros ->.
    + destruct (Z.gtb_spec (blen n) MAX_HOST_LEN); [done|lia].
    + intros r. rewrite En. apply trim_end_matches_last.
Qed.

Lemma sound_bind {A} (o : option A) (f : A → option bytes) :
  (∀ a, sound_name (f a)) → sound_name (o ≫= f).
Proof. intros Hf. destruct o; cbn; [apply Hf|apply sound_None]. Qed.

Lemma first_server_name_sound data : sound_name (first_server_name data).
Proof.
  unfold first_server_name. do 2 (apply sound_bind; intros ?). cbn zeta.
  apply loop_post; [apply sound_None|]. intros s r. unfold name_step.
  repeat case_match; intros [= <-];
    first [apply sound_None | apply sound_bind; intros; apply plausible_host_sound].
Qed.

Lemma tls_sni_sound buf : sound_name (tls_sni buf).
Proof.
  unfold tls_sni, hello_sni. repeat (apply sound_bind; intros ?). cbn zeta.
  apply loop_post; [apply sound_None|]. intros s r. unfold ext_step.
  repeat case_match; intros [= <-];
    first [apply sound_None | apply sound_bind; intros; apply first_server_name_sound].
Qed.

Lemma host_header_sound ls : sound_name (host_header ls).
Proof.
  induction ls as [|l ls IH]; cbn [host_header]; [apply sound_None|].
  repeat case_match; first [done | apply sound_None | apply plausible_host_sound].
Qed.

Lemma http_host_sound buf : sound_name (http_host buf).
Proof.
  unfold http_host. apply sound_bind. intros head.
  repeat case_match; first [apply sound_None | apply host_header_sound].
Qed.

(** Whatever bytes a client sends, a name [hostname] answers with is the
    lower-case form of a text that is not empty, at most 253 bytes, made of
    host characters only, dotted, without a trailing dot, and not an IP
    address: a rule on domains never sees anything else. *)
Theorem hostname_sound (buf name : bytes) (Hn : hostname buf = Some name) :
  ∃ raw, name = to_ascii_lowercase raw ∧ well_formed_host raw.
Proof.
  unfold hostname in Hn. destruct (tls_sni buf) eqn:E.
  - injection Hn as ->. by eapply tls_sni_sound.
  - by eapply http_host_sound.
Qed.

End sound.

Definition sample_request : bytes :=
  lit "GET /x HTTP/1.1" ++ [13; 10] ++ lit "Accept: */*" ++ [13; 10]
  ++ lit "HOST: WWW.Example.org.:8080" ++ [13; 10; 13; 10].

Lemma hostname_sound_witness :
  @hostname ascii_only W64 sample_request = Some (lit "www.example.org") ∧
  ∃ raw, lit "www.example.org" = to_ascii_lowercase raw ∧ well_formed_host raw.
Proof.
  split; [by vm_compute|].
  apply (@hostname_sound ascii_only W64 sample_request). by vm_compute.
Defined.
