(* ===== verification/Fragment.v ===== *)
(** * Splitting the ClientHello over several TCP segments

    src/aether/src/fragment.rs: the configuration of fragmentation and the
    [FragmentingStream] wrapper, which cuts what is written before the first
    read into small pieces, the first one inside the server name.

    The wrapped stream and the timer are the environment: a poll is given what
    the inner stream answers, whether the pending delay has elapsed and the
    numbers the random generator draws. *)

From stdpp Require Import strings.
From S2P Require Import Prelude Text Net NetText Sniff.

(** The environment variables of the process. *)
Abbreviation environment := (bytes → option bytes).

(** [rand::rng().random_range(lo..=hi)], [c] being what the generator drew. *)
Definition random_range (lo hi c : Z) : Z := lo + c mod (hi - lo + 1).

Record FragmentConfig := mk_cfg {
  enabled : bool; size_min : Z; size_max : Z;
  delay_min_ms : Z; delay_max_ms : Z; sni_split : bool }.

Definition disabled : FragmentConfig := mk_cfg false 1 1 0 0 false.

Section config.
Context `{!UnicodeCase} {w : arch}.

Definition is_truthy (v : bytes) : bool :=
  existsb (str_eqb (to_lowercase (trim v))) [lit "1"; lit "true"; lit "yes"; lit "on"].

Definition parse_range (spec : bytes) (dflt : Z * Z) : Z * Z :=
  let spec := trim spec in
  if is_empty spec then dflt else
  match split_once 45 spec with
  | Some (a, b) =>
      let lo := default dflt.1 (parse_u64 (trim a)) in
      let hi := default dflt.2 (parse_u64 (trim b)) in
      if hi <? lo then (hi, lo) else (lo, hi)
  | None => let v := default dflt.1 (parse_u64 spec) in (v, v)
  end.

Definition env_truthy (env : environment) (name : bytes) : bool :=
  match env name with Some v => is_truthy v | None => false end.

Definition from_env (env : environment) : FragmentConfig :=
  let enabled := env_truthy env (lit "AETHER_MASQUE_H2_FRAGMENT") in
  let sizes := parse_range (default [] (env (lit "AETHER_MASQUE_H2_FRAGMENT_SIZE"))) (8, 16) in
  let delays := parse_range (default [] (env (lit "AETHER_MASQUE_H2_FRAGMENT_DELAY"))) (2, 10) in
  let size_min := as_usize (Z.max sizes.1 1) in
  let size_max := as_usize (Z.max sizes.2 size_min) in
  let sni_split := env_truthy env (lit "AETHER_MASQUE_H2_FRAGMENT_SNI") in
  mk_cfg enabled size_min size_max delays.1 (Z.max delays.2 delays.1) sni_split.

End config.

Definition pick_chunk_len (cfg : FragmentConfig) (c remaining : Z) : Z :=
  let hi := Z.min (Z.max (size_max cfg) 1) remaining in
  let lo := Z.min (Z.max (size_min cfg) 1) hi in
  if lo >=? hi then hi else random_range lo hi c.

(** In milliseconds. *)
Definition pick_delay (cfg : FragmentConfig) (c : Z) : Z :=
  if delay_max_ms cfg =? 0 then 0
  else if delay_max_ms cfg <=? delay_min_ms cfg then delay_min_ms cfg
  else random_range (delay_min_ms cfg) (delay_max_ms cfg) c.

(** ** The host name in a ClientHello *)

Section host_range.
Context {w : arch}.

(** The closure [take]: an [n]-byte big-endian integer at [pos]. *)
Definition take_int (buf : bytes) (pos n : Z) : option Z :=
  stop ← checked_add pos n;
  s ← slice buf pos stop;
  Some (fold_left (λ acc b, Z.lor (Z.shiftl acc 8) b) s 0).

(** The loop over the extensions. *)
Definition range_step (buf : bytes) (extensions_end : Z) (pos : Z) : round Z (option (Z * Z)) :=
  if pos + 4 <=? extensions_end then
    match take_int buf pos 2, take_int buf (pos + 2) 2 with
    | Some kind, Some len =>
        let body := pos + 4 in
        if kind =? 0x0000 then
          Done (let entry := body + 2 in
                name_type ← take_int buf entry 1;
                if negb (name_type =? 0) then None else
                host_len ← take_int buf (entry + 1) 2;
                let host := entry + 3 in
                if (host_len =? 0) || (host + host_len >? blen buf) then None
                else Some (host, host + host_len))
        else Next (body + len)
    | _, _ => Done None
    end
  else Done None.

Definition sni_host_range (buf : bytes) : option (Z * Z) :=
  first ← get buf 0;
  if negb (first =? 0x16) then None else
  kind ← get buf 5;
  if negb (kind =? 0x01) then None else
  let pos := 43 in
  v ← take_int buf pos 1;
  let pos := pos + (1 + v) in
  v ← take_int buf pos 2;
  let pos := pos + (2 + v) in
  v ← take_int buf pos 1;
  let pos := pos + (1 + v) in
  v ← take_int buf pos 2;
  let extensions_end := pos + 2 + v in
  let pos := pos + 2 in
  loop (λ pos, Z.to_nat (extensions_end - pos)) (range_step buf extensions_end) None pos.

End host_range.

(** ** The stream *)

Record FragmentingStream := mk_stream {
  cfg : FragmentConfig; fragmenting : bool; first_write : bool; pending_delay : option Z }.

Definition new (c : FragmentConfig) : FragmentingStream := mk_stream c (enabled c) true None.

(** What an [AsyncWrite] does with the bytes it is offered: it is not ready,
    it fails, or it accepts a prefix of at most so many bytes. *)
Inductive inner_answer :=
| Blocked
| Failed
| Accepts (n : Z).

Inductive poll :=
| Pending
| Broken
| Ready (n : Z).

Definition inner_poll_write (a : inner_answer) (chunk : bytes) : poll :=
  match a with
  | Blocked => Pending
  | Failed => Broken
  | Accepts n => Ready (Z.min (Z.max 0 n) (blen chunk))
  end.

(** What the environment decides in one poll. *)
Record decision := mk_decision {
  elapsed : bool; drawn_len : Z; drawn_delay : Z; inner : inner_answer }.

Definition poll_read (s : FragmentingStream) : FragmentingStream :=
  mk_stream (cfg s) false (first_write s) (pending_delay s).

Section stream.
Context {w : arch}.

(** [targeted] and [chunk_len]. *)
Definition chunk_len (s : FragmentingStream) (c : Z) (buf : bytes) : Z :=
  let targeted :=
    if first_write s && sni_split (cfg s)
    then match sni_host_range buf with
         | Some (start, stop) => Some (start + (stop - start) / 2)
         | None => None
         end
    else None in
  match targeted with
  | Some split =>
      if (0 <? split) && (split <? blen buf) then split
      else pick_chunk_len (cfg s) c (blen buf)
  | None => pick_chunk_len (cfg s) c (blen buf)
  end.

(** The new state, what the inner stream was offered, and the answer. *)
Definition poll_write (s : FragmentingStream) (d : decision) (buf : bytes)
  : comp () (FragmentingStream * option bytes * poll) :=
  if is_empty buf || negb (fragmenting s)
  then Ok (s, Some buf, inner_poll_write (inner d) buf)
  else
    let wait := match pending_delay s with Some _ => negb (elapsed d) | None => false end in
    if wait then Ok (s, None, Pending) else
    let s := mk_stream (cfg s) (fragmenting s) (first_write s) None in
    chunk ← index_range buf 0 (chunk_len s (drawn_len d) buf);
    let answer := inner_poll_write (inner d) chunk in
    match answer with
    | Ready n =>
        if 0 <? n then
          let delay := pick_delay (cfg s) (drawn_delay d) in
          let pending := if delay =? 0 then None else Some delay in
          Ok (mk_stream (cfg s) (fragmenting s) false pending, Some chunk, answer)
        else Ok (s, Some chunk, answer)
    | _ => Ok (s, Some chunk, answer)
    end.

End stream.

(** ** Reading the ClientHello *)

Section take_int.
Context {w : arch}.

Lemma take_int_suffix buf pos n v r :
  blen buf < 2 ^ 32 → 0 ≤ v < 256 ^ Z.of_nat n → suffix_at buf pos (be_bytes n v ++ r) →
  take_int buf pos (Z.of_nat n) = Some v.
Proof.
  intros Hb Hv Hs. pose proof (suffix_at_len _ _ _ Hs) as Hl.
  rewrite blen_app, blen_be_bytes in Hl. unfold take_int.
  rewrite checked_add_small by blia. cbn [mbind option_bind].
  rewrite (suffix_at_slice _ _ _ _ _ Hs) by (by rewrite blen_be_bytes).
  cbn [mbind option_bind]. rewrite fold_lor_be_val by apply be_bytes_ok. by rewrite be_val_small.
Qed.

Lemma take_byte_suffix buf pos v r :
  blen buf < 2 ^ 32 → u8 v → suffix_at buf pos (v :: r) → take_int buf pos 1 = Some v.
Proof.
  intros Hb Hv Hs. apply (take_int_suffix buf pos 1 v r); [done|by unfold u8 in *|].
  cbn [be_bytes]. rewrite land_255, Z.shiftr_0_r, Z.mod_small by (unfold u8 in Hv; lia). done.
Qed.

Lemma take_u16_suffix buf pos v r :
  blen buf < 2 ^ 32 → u16 v → suffix_at buf pos (be_bytes 2 v ++ r) → take_int buf pos 2 = Some v.
Proof. exact (take_int_suffix buf pos 2 v r). Qed.

Lemma take_int_bound buf pos n v :
  bytes_ok buf → take_int buf pos n = Some v → 0 ≤ v < 256 ^ n.
Proof.
  intros Hb. unfold take_int. destruct (checked_add pos n) as [stop|] eqn:Ea; cbn; [|done].
  destruct (slice buf pos stop) as [s|] eqn:Es; cbn; [|done]. intros [= <-].
  pose proof (slice_ok _ _ _ _ Hb Es) as Hs. rewrite fold_lor_be_val by done.
  apply slice_Some in Es as (_ & _ & Hl & _).
  unfold checked_add in Ea. destruct (_ <=? _); [|done]. injection Ea as <-.
  replace (pos + n - pos) with n in Hl by lia. rewrite <- Hl. by apply be_val_bound.
Qed.

#[local] Instance range_decreasing buf extensions_end (Hb : bytes_ok buf) :
  Decreasing (λ pos, Z.to_nat (extensions_end - pos)) (range_step buf extensions_end).
Proof.
  intros pos pos'. unfold range_step. destruct (Z.leb_spec (pos + 4) extensions_end); [|done].
  destruct (take_int buf pos 2) as [kind|]; [|done].
  destruct (take_int buf (pos + 2) 2) as [len|] eqn:El; [|done].
  apply take_int_bound in El; [|done]. destruct (kind =? 0); [done|]. intros [= <-]. lia.
Qed.

(** The walk stops at the first server_name and gives the place of its host. *)
Lemma range_walk buf pos pre host others post tail e :
  bytes_ok buf → blen buf < 2 ^ 31 →
  Forall (λ e, ext_ok e ∧ e.1 ≠ EXT_SERVER_NAME) pre →
  host ≠ [] → u16 (blen (sni_data host others)) →
  suffix_at buf pos (exts_enc (pre ++ (EXT_SERVER_NAME, sni_data host others) :: post) ++ tail) →
  pos + blen (exts_enc (pre ++ (EXT_SERVER_NAME, sni_data host others) :: post)) ≤ e →
  let start := pos + blen (exts_enc pre) + 9 in
  loop (λ pos, Z.to_nat (e - pos)) (range_step buf e) None pos = Some (start, start + blen host) ∧
  suffix_at buf start (host ++ others ++ exts_enc post ++ tail).
Proof.
  intros Hok Hlen Hpre Hne Hdata Hs He. pose proof (range_decreasing buf e Hok) as Hdec.
  assert (0 < blen host) as Hh by (destruct host; [done|blia]).
  revert pos Hs He. induction Hpre as [|[k v] pre ((Hk & Hv & Hvb) & Hkne) _ IH]; intros pos Hs He;
    cbn zeta; rewrite loop_unfold by done; unfold range_step at 1; cbn [app] in *;
    rewrite exts_enc_cons, blen_app, blen_ext_enc in He; cbn [fst snd] in *;
    rewrite exts_enc_cons in Hs; unfold ext_enc in Hs; cbn [fst snd] in Hs;
    rewrite <- !app_assoc in Hs; blen_pos; (destruct (Z.leb_spec (pos + 4) e); [|lia]).
  - rewrite (take_u16_suffix buf pos EXT_SERVER_NAME _ ltac:(lia) ltac:(by split) Hs).
    apply suffix_at_app in Hs. rewrite blen_be_bytes in Hs.
    rewrite (take_u16_suffix buf (pos + 2) _ _ ltac:(lia) Hdata Hs).
    cbn [Z.eqb EXT_SERVER_NAME]. apply suffix_at_app in Hs. rewrite blen_be_bytes in Hs. unfold sni_data at 1 in Hs.
    rewrite <- !app_assoc in Hs. apply suffix_at_app in Hs. rewrite !blen_be_bytes in Hs.
    replace (pos + Z.of_nat 2 + Z.of_nat 2 + Z.of_nat 2) with (pos + 4 + 2) in Hs by lia.
    rewrite (take_byte_suffix buf (pos + 4 + 2) 0 _ ltac:(lia) ltac:(by split) Hs). cbn [mbind option_bind Z.eqb negb].
    apply suffix_at_app in Hs. change (blen [SNI_HOST_NAME]) with 1 in Hs.
    assert (u16 (blen host)) as Hhl.
    { unfold sni_data in Hdata. rewrite !blen_app, !blen_be_bytes in Hdata. unfold u16 in *. blia. }
    rewrite (take_u16_suffix buf (pos + 4 + 2 + 1) _ _ ltac:(lia) Hhl Hs). cbn [mbind option_bind].
    apply suffix_at_app in Hs. rewrite blen_be_bytes in Hs.
    replace (pos + 4 + 2 + 1 + Z.of_nat 2) with (pos + 0 + 9) in Hs by lia.
    change (blen (exts_enc [])) with 0. pose proof (suffix_at_len _ _ _ Hs) as Hl.
    rewrite !blen_app in Hl. blen_pos.
    destruct (Z.eqb_spec (blen host) 0); [lia|]. cbn [orb].
    destruct (Z.gtb_spec (pos + 4 + 2 + 3 + blen host) (blen buf)); [lia|].
    split; [do 2 f_equal; lia|done].
  - rewrite (take_u16_suffix buf pos k _ ltac:(lia) Hk Hs).
    apply suffix_at_app in Hs. rewrite blen_be_bytes in Hs.
    rewrite (take_u16_suffix buf (pos + 2) _ _ ltac:(lia) Hv Hs).
    destruct (Z.eqb_spec k 0); [done|]. apply suffix_at_app, suffix_at_app in Hs.
    rewrite blen_be_bytes in Hs.
    replace (pos + Z.of_nat 2 + Z.of_nat 2 + blen v) with (pos + 4 + blen v) in Hs by lia.
    specialize (IH _ Hs ltac:(lia)). rewrite exts_enc_cons, blen_app, blen_ext_enc. cbn [fst snd].
    by replace (pos + (4 + blen v + blen (exts_enc pre)) + 9)
      with (pos + 4 + blen v + blen (exts_enc pre) + 9) by lia.
Qed.

(** The host name of a ClientHello record is found at its place. *)
Lemma sni_host_range_spec h pre host others post trailing :
  hello_ok h → bytes_ok trailing → blen trailing < 2 ^ 30 →
  ch_exts h = pre ++ (EXT_SERVER_NAME, sni_data host others) :: post →
  Forall (λ e, e.1 ≠ EXT_SERVER_NAME) pre → host ≠ [] →
  ∃ start r, sni_host_range (record_enc h ++ trailing) = Some (start, start + blen host) ∧
    suffix_at (record_enc h ++ trailing) start (host ++ r).
Proof.
  intros Hh Ht Htl Hexts Hpre Hne.
  set (hd := [TLS_HANDSHAKE] ++ ch_record_version h ++ be_bytes 2 (4 + blen (hello_enc h))
             ++ [TLS_CLIENT_HELLO] ++ be_bytes 3 (blen (hello_enc h))).
  set (buf := record_enc h ++ trailing).
  assert (buf = hd ++ hello_enc h ++ trailing) as Ebuf
    by (unfold buf, record_enc, hd; by rewrite <- !app_assoc).
  assert (bytes_ok buf) as Hbuf.
  { rewrite Ebuf. pose proof (hello_enc_ok h Hh). pose proof Hh as Hh'.
    destruct Hh' as (_ & _ & _ & _ & _ & _ & _ & _ & _ & _ & _ & _ & _ & Hrv).
    unfold hd, bytes_ok. rewrite !Forall_app. split_and!;
      first [apply be_bytes_ok | done | by_decision]. }
  pose proof (hello_layout h trailing Hh) as (L1 & L2 & L3 & L4 & L5).
  destruct Hh as (Hrv & _ & _ & Hs & Hc & Hcm & He & Hlen & _).
  assert (blen hd = 9) as Hhd by (unfold hd; rewrite !blen_app, !blen_be_bytes, Hrv; done).
  assert (suffix_at (hello_enc h ++ trailing) 34
    (blen (ch_session h) :: dropz 35 (hello_enc h ++ trailing))) as L0.
  { apply get_range in L1 as Hr. pose proof (suffix_at_drop (hello_enc h ++ trailing) 34 ltac:(lia)) as D.
    destruct (dropz 34 (hello_enc h ++ trailing)) as [|x r] eqn:E.
    - apply suffix_at_len in D. rewrite blen_nil in D. lia.
    - rewrite (suffix_at_get _ _ _ _ D) in L1. injection L1 as ->.
      pose proof (suffix_at_drop (hello_enc h ++ trailing) 35 ltac:(lia)) as D'.
      apply suffix_at_cons in D as D''. by rewrite (suffix_at_det _ _ _ _ D' D''). }
  apply (suffix_at_prepend hd) in L0, L2, L3, L4, L5. rewrite <- Ebuf, Hhd in *.
  pose proof (suffix_at_len _ _ _ L5) as Hl5. rewrite blen_app in Hl5.
  assert (blen buf = 9 + blen (hello_enc h) + blen trailing) as Hbl by (rewrite Ebuf, !blen_app; lia).
  pose proof (blen_nonneg (exts_enc (ch_exts h))). pose proof (blen_nonneg trailing).
  unfold u8, u16 in *. assert (blen buf < 2 ^ 31) as Hsmall by lia.
  unfold sni_host_range. change (get buf 0) with (Some TLS_HANDSHAKE).
  assert (get buf 5 = Some TLS_CLIENT_HELLO) as ->.
  { apply (suffix_at_get _ _ _ (be_bytes 3 (blen (hello_enc h)) ++ hello_enc h ++ trailing)).
    exists ([TLS_HANDSHAKE] ++ ch_record_version h ++ be_bytes 2 (4 + blen (hello_enc h))).
    split; [unfold buf, record_enc; by rewrite <- !app_assoc|].
    rewrite !blen_app, blen_be_bytes, Hrv. done. }
  cbn [mbind option_bind Z.eqb Pos.eqb negb TLS_HANDSHAKE TLS_CLIENT_HELLO].
  rewrite (take_byte_suffix buf 43 _ _ ltac:(lia) Hs L0). cbn [mbind option_bind].
  replace (43 + (1 + blen (ch_session h))) with (9 + (35 + blen (ch_session h))) by lia.
  rewrite (take_u16_suffix buf _ _ _ ltac:(lia) Hc L2). cbn [mbind option_bind].
  match goal with |- context [take_int buf ?p 1] =>
    replace p with (9 + (35 + blen (ch_session h) + 2 + blen (ch_ciphers h))) by lia end.
  rewrite (take_byte_suffix buf _ _ _ ltac:(lia) Hcm L3). cbn [mbind option_bind].
  match goal with |- context [take_int buf ?p 2] =>
    replace p with (9 + (35 + blen (ch_session h) + 2 + blen (ch_ciphers h) + 1
                         + blen (ch_compression h))) by lia end.
  rewrite (take_u16_suffix buf _ (blen (exts_enc (ch_exts h))) _ ltac:(lia) ltac:(unfold u16; lia) L4).
  cbn [mbind option_bind]. rewrite Hexts in *. apply Forall_app in He as [Hpre' [Hx _]%Forall_cons].
  match goal with |- context [loop _ (range_step buf ?e) _ ?p] =>
    destruct (range_walk buf p pre host others post trailing e) as [E S] end.
  - done.
  - done.
  - by apply Forall_and.
  - done.
  - by destruct Hx as (_ & Hx & _).
  - match goal with |- suffix_at _ ?p _ => eassert (p = _) as -> by (symmetry; apply Z.add_assoc) end.
    exact L5.
  - lia.
  - rewrite E. eexists _, _. split; [done|]. exact S.
Qed.

End take_int.

(** ** The stream under a writer *)

(** What the owner of the stream does: it reads, or it writes what is left of
    its data and keeps the part that was not accepted. *)
Inductive event :=
| Read
| Write (d : decision).

Section run.
Context {w : arch}.

(** The segments the inner stream accepted, and the data left. *)
Fixpoint run (evs : list event) (s : FragmentingStream) (data : bytes)
  : comp () (FragmentingStream * list bytes * bytes) :=
  match evs with
  | [] => Ok (s, [], data)
  | Read :: evs => run evs (poll_read s) data
  | Write d :: evs =>
      '(s, offered, answer) ← poll_write s d data;
      match answer, offered with
      | Broken, _ => Ok (s, [], data)
      | Pending, _ | _, None => run evs s data
      | Ready n, Some chunk =>
          '(s, segs, rest) ← run evs s (dropz n data);
          Ok (s, takez n chunk :: segs, rest)
      end
  end.

Lemma random_range_bounds lo hi c : lo ≤ hi → lo ≤ random_range lo hi c ≤ hi.
Proof. intros H. unfold random_range. pose proof (Z.mod_pos_bound c (hi - lo + 1)). lia. Qed.

Lemma pick_chunk_len_bounds c k n :
  1 ≤ n → 1 ≤ pick_chunk_len c k n ≤ Z.min n (Z.max 1 (size_max c)).
Proof.
  intros Hn. unfold pick_chunk_len. destruct (Z.geb_spec (Z.min (Z.max (size_min c) 1)
    (Z.min (Z.max (size_max c) 1) n)) (Z.min (Z.max (size_max c) 1) n)) as [?|Hlt]; [lia|].
  pose proof (random_range_bounds _ _ k (Z.lt_le_incl _ _ Hlt)). lia.
Qed.

Lemma chunk_len_bounds s c buf : buf ≠ [] → 1 ≤ chunk_len s c buf ≤ blen buf.
Proof.
  intros Hb. assert (1 ≤ blen buf) as Hl by (destruct buf; [done|blia]).
  pose proof (pick_chunk_len_bounds (cfg s) c (blen buf) Hl) as Hp.
  unfold chunk_len. cbn zeta.
  match goal with |- context [match ?t with Some _ => _ | None => _ end] =>
    destruct t as [split|]; [|lia] end.
  destruct (Z.ltb_spec 0 split), (Z.ltb_spec split (blen buf)); cbn; lia.
Qed.

(** The chunk is at most the largest size, unless it ends inside the host. *)
Lemma chunk_len_small s c buf :
  buf ≠ [] → sni_split (cfg s) && first_write s = false →
  chunk_len s c buf ≤ Z.max 1 (size_max (cfg s)).
Proof.
  intros Hb Hs. assert (1 ≤ blen buf) as Hl by (destruct buf; [done|blia]).
  pose proof (pick_chunk_len_bounds (cfg s) c (blen buf) Hl) as Hp.
  unfold chunk_len. rewrite andb_comm in Hs. rewrite Hs. lia.
Qed.

(** A poll never panics; what it offers is a prefix of the data, not empty
    when the data is not, and it keeps the configuration and the mode. *)
Lemma poll_write_spec s d buf :
  ∃ s' offered answer, poll_write s d buf = Ok (s', offered, answer) ∧
    cfg s' = cfg s ∧ fragmenting s' = fragmenting s ∧
    (first_write s = false → first_write s' = false) ∧
    match offered with
    | Some chunk =>
        answer = inner_poll_write (inner d) chunk ∧
        (∃ r, buf = chunk ++ r) ∧ (buf ≠ [] → chunk ≠ []) ∧
        (fragmenting s = true → sni_split (cfg s) && first_write s = false →
         blen chunk ≤ Z.max 1 (size_max (cfg s)))
    | None => answer = Pending ∧ elapsed d = false
    end.
Proof.
  unfold poll_write. destruct (is_empty buf || negb (fragmenting s)) eqn:E.
  { eexists _, _, _. do 4 (split; [done|]). split; [done|]. split; [exists []; by rewrite app_nil_r|].
    split; [done|]. intros Hf _. rewrite Hf, orb_false_r in E. destruct buf; [|done].
    rewrite blen_nil. lia. }
  apply orb_false_iff in E as [Hne Hfr]. assert (buf ≠ []) as Hb by (by intros ->).
  destruct (match pending_delay s with Some _ => _ | None => _ end) eqn:Ew.
  { eexists _, _, _. do 4 (split; [done|]). split; [done|].
    destruct (pending_delay s); [by apply negb_true_iff in Ew|done]. }
  set (s1 := mk_stream _ _ _ None).
  pose proof (chunk_len_bounds s1 (drawn_len d) buf Hb) as Hc.
  pose proof (chunk_len_small s1 (drawn_len d) buf Hb) as Hsm.
  unfold index_range. rewrite slice_prefix by lia. cbn [or_panic mbind comp_bind].
  remember (takez (chunk_len s1 (drawn_len d) buf) buf) as chunk eqn:Ech.
  assert (blen chunk = chunk_len s1 (drawn_len d) buf) as Hl by (rewrite Ech; apply blen_takez; lia).
  assert (∃ r, buf = chunk ++ r) as Hpre
    by (exists (dropz (chunk_len s1 (drawn_len d) buf) buf); by rewrite Ech, takez_dropz).
  assert (buf ≠ [] → chunk ≠ []) as Hne' by (intros _ ->; rewrite blen_nil in Hl; lia).
  assert (fragmenting s = true → sni_split (cfg s) && first_write s = false →
    blen chunk ≤ Z.max 1 (size_max (cfg s))) as Hsize by (intros _ Hx; rewrite Hl; by apply Hsm).
  destruct (inner_poll_write (inner d) chunk) as [| |n] eqn:Ei;
    [| |destruct (0 <? n)]; eexists _, _, _; (split; [done|]); by rewrite ?Ei.
Qed.

Lemma inner_ready a chunk n :
  inner_poll_write a chunk = Ready n → 0 ≤ n ≤ blen chunk.
Proof. destruct a; cbn; try done. intros [= <-]. blia. Qed.

Lemma dropz_prefix (n : Z) (chunk r : bytes) :
  0 ≤ n ≤ blen chunk → takez n chunk ++ dropz n (chunk ++ r) = chunk ++ r.
Proof.
  intros Hn. rewrite <- (takez_dropz n chunk) at 2 3. rewrite <- app_assoc. f_equal.
  rewrite <- (blen_takez n chunk Hn) at 1. apply dropz_app.
Qed.

(** C37. The wrapper is transparent: whatever the configuration, the order of
    reads and writes, the delays, the random draws and the answers of the
    inner stream, writing never panics and the bytes the inner stream has
    accepted, followed by those the writer still holds, are the data. *)
Theorem fragment_transparent (evs : list event) (s : FragmentingStream) (data : bytes) :
  ∃ s' segs rest, run evs s data = Ok (s', segs, rest) ∧ concat segs ++ rest = data.
Proof.
  revert s data. induction evs as [|[|d] evs IH]; intros s data; cbn [run].
  - by eexists _, _, _.
  - apply IH.
  - destruct (poll_write_spec s d data) as (s1 & offered & answer & -> & _ & _ & _ & Ho).
    cbn [mbind comp_bind]. destruct answer as [| |n].
    + apply IH.
    + by eexists _, _, _.
    + destruct offered as [chunk|]; [|by apply IH].
      destruct Ho as (Ha & (r & ->) & _). symmetry in Ha. apply inner_ready in Ha.
      destruct (IH s1 (dropz n (chunk ++ r))) as (s2 & segs & rest & -> & E). cbn.
      eexists _, _, _. split; [done|]. cbn. by rewrite <- app_assoc, E, dropz_prefix.
Qed.

(** A fragmented write makes progress: when the timer fires and the
    inner stream accepts at least a byte whenever it is polled, [len] polls
    write [len] bytes completely. *)
Theorem fragment_completes (ds : list decision) (s : FragmentingStream) (data : bytes)
  (Hd : Forall (λ d, elapsed d = true ∧ ∃ n, inner d = Accepts n ∧ 0 < n) ds)
  (Hlen : blen data ≤ blen ds) :
  ∃ s' segs, run (Write <$> ds) s data = Ok (s', segs, []) ∧ concat segs = data.
Proof.
  revert s data Hlen. induction Hd as [|d ds (He & n & Hi & Hn) _ IH]; intros s data Hlen.
  - destruct data; [|blia]. by eexists _, _.
  - cbn [fmap list_fmap run].
    destruct (poll_write_spec s d data) as (s1 & offered & answer & -> & _ & _ & _ & Ho).
    cbn [mbind comp_bind]. destruct offered as [chunk|]; [|destruct Ho; congruence].
    destruct Ho as (Ha & (r & ->) & Hne & _). rewrite Hi in Ha. cbn in Ha. subst answer.
    set (m := Z.min (Z.max 0 n) (blen chunk)).
    assert (0 ≤ m ≤ blen chunk) as Hm by (unfold m; blia).
    destruct (IH s1 (dropz m (chunk ++ r))) as (s2 & segs & -> & E).
    { rewrite blen_dropz by blia. destruct (chunk ++ r) as [|x l] eqn:El; [rewrite blen_nil; blia|].
      assert (chunk ≠ []) by (by apply Hne). rewrite <- El in *.
      assert (0 < blen chunk) by (destruct chunk; [done|blia]). unfold m in *. blia. }
    cbn. eexists _, _. split; [done|]. cbn. rewrite E. by apply dropz_prefix.
Qed.

(** While nothing has been read, no segment is longer than the
    configured size (the first one excepted when it is cut inside the host
    name). *)
Theorem fragments_are_small (ds : list decision) (s s' : FragmentingStream) (data rest : bytes)
  (segs : list bytes) (Hf : fragmenting s = true)
  (Hs : sni_split (cfg s) && first_write s = false)
  (Hr : run (Write <$> ds) s data = Ok (s', segs, rest)) :
  Forall (λ seg, blen seg ≤ Z.max 1 (size_max (cfg s))) segs.
Proof.
  revert s data segs Hf Hs Hr. induction ds as [|d ds IH]; intros s data segs Hf Hs Hr.
  { by injection Hr as <- <- <-. }
  cbn [fmap list_fmap run] in Hr.
  destruct (poll_write_spec s d data) as (s1 & offered & answer & E & Hc & Hf1 & Hw & Ho).
  rewrite E in Hr. cbn [mbind comp_bind] in Hr.
  assert (sni_split (cfg s1) && first_write s1 = false) as Hs1.
  { rewrite Hc. apply andb_false_iff in Hs as [->|Hs]; [done|]. by rewrite Hw, andb_false_r. }
  rewrite <- Hc. rewrite Hf in Hf1. destruct answer as [| |n]; [by eapply IH| |].
  - by injection Hr as <- <- <-.
  - destruct offered as [chunk|]; [|by eapply IH]. destruct Ho as (_ & _ & _ & Hsz).
    destruct (run (Write <$> ds) s1 (dropz n data)) as [[[s2 segs2] rest2]| |] eqn:Er; [|done..].
    injection Hr as <- <- <-. constructor; [|by eapply IH].
    rewrite Hc. specialize (Hsz Hf Hs). blia.
Qed.

(** The host name is never sent in one piece: when the whole ClientHello
    is written to a fresh stream that splits at the server name, the first
    segment offered ends strictly inside the name, whatever is drawn. *)
Theorem first_fragment_splits_host (c : FragmentConfig) (d : decision) (h : client_hello)
  (pre post : list (Z * bytes)) (host others trailing : bytes)
  (Hc : enabled c && sni_split c = true) (Hh : hello_ok h)
  (Ht : bytes_ok trailing) (Htl : blen trailing < 2 ^ 30)
  (Hexts : ch_exts h = pre ++ (EXT_SERVER_NAME, sni_data host others) :: post)
  (Hpre : Forall (λ e, e.1 ≠ EXT_SERVER_NAME) pre) (Hhost : 2 ≤ blen host) :
  ∃ s' before h1 h2 after answer,
    poll_write (new c) d (record_enc h ++ trailing) = Ok (s', Some (before ++ h1), answer) ∧
    record_enc h ++ trailing = before ++ host ++ after ∧
    host = h1 ++ h2 ∧ h1 ≠ [] ∧ h2 ≠ [].
Proof.
  apply andb_true_iff in Hc as [Hen Hsp].
  destruct (sni_host_range_spec h pre host others post trailing) as (start & r & Er & Hs);
    try done; [by intros ->|].
  set (buf := record_enc h ++ trailing) in *.
  pose proof (suffix_at_len _ _ _ Hs) as Hl. rewrite blen_app in Hl.
  pose proof (suffix_at_nonneg _ _ _ Hs) as Hst. destruct Hs as (before & Eb & Hbl).
  pose proof (blen_nonneg r).
  set (half := (start + blen host - start) / 2).
  assert (0 < half < blen host) as Hhalf by (unfold half; Z.to_euclidean_division_equations; lia).
  assert (chunk_len (mk_stream c true true None) (drawn_len d) buf = start + half) as Hcl.
  { unfold chunk_len. cbn [first_write cfg andb]. rewrite Hsp, Er. fold half.
    destruct (Z.ltb_spec 0 (start + half)); [|lia].
    destruct (Z.ltb_spec (start + half) (blen buf)); [done|lia]. }
  unfold poll_write, new. cbn [fragmenting pending_delay cfg first_write]. rewrite Hen.
  destruct (is_empty buf) eqn:Ee; [destruct buf; [rewrite blen_nil in Hl; lia|done]|].
  cbn [orb negb]. rewrite Hcl. unfold index_range. rewrite slice_prefix by lia.
  cbn [or_panic mbind comp_bind].
  assert (takez (start + half) buf = before ++ takez half host) as Et.
  { rewrite Eb, Hbl. unfold takez, blen in *. rewrite <- (take_drop (Z.to_nat half) host) at 1.
    rewrite <- app_assoc, (app_assoc before). apply take_app_length'.
    rewrite length_app, length_take. lia. }
  rewrite Et.
  eassert (∃ s' answer, _ = Ok (s', Some (before ++ takez half host), answer)) as (s' & answer & ->).
  { destruct (inner_poll_write (inner d) (before ++ takez half host)); [by eexists _, _..|].
    destruct (0 <? n); by eexists _, _. }
  exists s', before, (takez half host), (dropz half host), r, answer. split_and!; [done..| | |].
  - by rewrite takez_dropz.
  - intros E. apply (f_equal blen) in E. rewrite blen_takez, blen_nil in E by lia. lia.
  - intros E. apply (f_equal blen) in E. rewrite blen_dropz, blen_nil in E by lia. lia.
Qed.

End run.

Definition sample_cfg : FragmentConfig := mk_cfg true 2 5 1 3 true.
Definition sample_decision : decision := mk_decision true 3 1 (Accepts 4).

Lemma fragment_completes_witness :
  ∃ s' segs, @run W64 (Write <$> replicate 11 sample_decision) (new sample_cfg) (lit "hello world")
    = Ok (s', segs, []) ∧ concat segs = lit "hello world".
Proof.
  apply (@fragment_completes W64).
  - apply Forall_replicate. split; [done|]. by exists 4.
  - done.
Defined.

Lemma fragments_are_small_witness :
  ∃ s' segs rest,
    @run W64 (Write <$> replicate 4 sample_decision) (new (mk_cfg true 2 5 1 3 false)) (lit "hello world")
      = Ok (s', segs, rest) ∧
    segs = [lit "hell"; lit "o wo"; lit "rld"; []] ∧ Forall (λ seg, blen seg ≤ 5) segs.
Proof.
  eexists _, _, _. split; [by vm_compute|]. split; [by vm_compute|].
  refine (@fragments_are_small W64 (replicate 4 sample_decision) (new (mk_cfg true 2 5 1 3 false)) _
    (lit "hello world") _ _ _ _ _); by vm_compute.
Defined.

Lemma first_fragment_splits_host_witness :
  ∃ s' before h1 h2 after answer,
    @poll_write W32 (new sample_cfg) sample_decision (record_enc sample_hello ++ [])
      = Ok (s', Some (before ++ h1), answer) ∧
    record_enc sample_hello ++ [] = before ++ lit "Example.ORG" ++ after ∧
    lit "Example.ORG" = h1 ++ h2 ∧ h1 ≠ [] ∧ h2 ≠ [].
Proof.
  apply (@first_fragment_splits_host W32 sample_cfg sample_decision sample_hello
           [(0xfa, [])] [(43, [2; 3; 4])] (lit "Example.ORG") [] []).
  - done.
  - hello_ok_tac.
  - constructor.
  - done.
  - done.
  - by_decision.
  - done.
Defined.
