(* ===== verification/Routing.v ===== *)
(** * Routing rules

    src/aether/src/routing.rs: the rule language (domains, networks, ports,
    private addresses), the rule file with its [block] and [direct] sections,
    and the decision for a destination.

    The crates ipnet and regex are parameters ([IpNets], [Regexes]). *)

From stdpp Require Import strings.
From S2P Require Import Prelude Text Net NetText Fragment.

Inductive Action := Proxy | Direct | Block.

#[export] Instance Action_eq_dec : EqDecision Action.
Proof. solve_decision. Defined.

Inductive Host :=
| Domain (name : bytes)
| Ip (ip : IpAddr).

(** ipnet: parsing a network, the network of one address, membership. *)
Class IpNets := {
  IpNet : Type;
  ipnet_parse : bytes → option IpNet;
  ipnet_from : IpAddr → IpNet;
  ipnet_contains : IpNet → IpAddr → bool }.

(** regex: compiling a pattern and searching it in a text. *)
Class Regexes := {
  Regex : Type;
  regex_new : bytes → option Regex;
  is_match : Regex → bytes → bool }.

Definition label (a : Action) : bytes :=
  match a with Proxy => lit "proxy" | Direct => lit "direct" | Block => lit "block" end.

Definition is_private (ip : IpAddr) : bool :=
  match ip with
  | V4 b =>
      v4_is_private b || v4_is_loopback b || v4_is_link_local b || v4_is_broadcast b
      || v4_is_documentation b || v4_is_unspecified b
      || ((octet b 0 =? 100) && ((64 <=? octet b 1) && (octet b 1 <? 128)))
  | V6 b =>
      v6_is_loopback b || v6_is_unspecified b
      || (Z.land (segment0 b) 0xfe00 =? 0xfc00)
      || (Z.land (segment0 b) 0xffc0 =? 0xfe80)
  end.

Section routing.
Context {U : UnicodeCase} {N : IpNets} {R : Regexes}.

Inductive Matcher :=
| DomainSuffix (suffix : bytes)
| DomainFull (full : bytes)
| DomainKeyword (needle : bytes)
| DomainRegex (pattern : Regex)
| Net (net : IpNet)
| Ports (lo hi : Z)
| Private.

Definition normalize_domain (value : bytes) : option bytes :=
  let cleaned :=
    to_lowercase (trim_end_matches 46 (trim_start_matches 46 (trim_start_matches 42 (trim value)))) in
  if is_empty cleaned then None else Some cleaned.

Definition parse_net (value : bytes) : option IpNet :=
  let value := trim value in
  match ipnet_parse value with
  | Some net => Some net
  | None => ip ← parse_ip value; Some (ipnet_from ip)
  end.

Definition parse_ports (value : bytes) : option (Z * Z) :=
  let value := trim value in
  match split_once 45 value with
  | Some (lo, hi) =>
      lo ← parse_u16 (trim lo);
      hi ← parse_u16 (trim hi);
      Some (if hi <? lo then (hi, lo) else (lo, hi))
  | None => single ← parse_u16 value; Some (single, single)
  end.

(** The kind in front of the first colon, if it can be one. *)
Definition kind_value (entry : bytes) : bytes * bytes :=
  match split_once 58 entry with
  | Some (kind, value) =>
      if negb (contains [46] kind) && negb (contains [47] kind)
      then (to_lowercase (trim kind), trim value)
      else ([], entry)
  | None => ([], entry)
  end.

Definition one_of (names : list bytes) (kind : bytes) : bool := existsb (str_eqb kind) names.

Definition parse_entry (entry : bytes) : option Matcher :=
  let entry := trim entry in
  if is_empty entry || starts_with [35] entry then None else
  let '(kind, value) := kind_value entry in
  if one_of [lit "domain"; lit "suffix"] kind then DomainSuffix <$> normalize_domain value
  else if one_of [lit "full"; lit "exact"] kind then DomainFull <$> normalize_domain value
  else if one_of [lit "keyword"] kind then
    let needle := to_lowercase (trim value) in
    if is_empty needle then None else Some (DomainKeyword needle)
  else if one_of [lit "regexp"; lit "regex"] kind then DomainRegex <$> regex_new value
  else if one_of [lit "ip"; lit "cidr"] kind then Net <$> parse_net value
  else if one_of [lit "port"] kind then (λ '(lo, hi), Ports lo hi) <$> parse_ports value
  else if one_of [lit "geoip"; lit "geosite"] kind then
    if eq_ignore_ascii_case value (lit "private") then Some Private else None
  else if is_empty kind then
    if eq_ignore_ascii_case value (lit "private") then Some Private
    else match parse_net value with
         | Some net => Some (Net net)
         | None => DomainSuffix <$> normalize_domain value
         end
  else None.

Definition matches (m : Matcher) (host : Host) (port : Z) : bool :=
  match m with
  | Ports lo hi => (port >=? lo) && (port <=? hi)
  | Private =>
      match host with
      | Ip ip => is_private ip
      | Domain name => eq_ignore_ascii_case name (lit "localhost")
      end
  | Net net => match host with Ip ip => ipnet_contains net ip | Domain _ => false end
  | DomainSuffix suffix =>
      match host with
      | Domain name =>
          let name := to_lowercase name in str_eqb name suffix || ends_with (46 :: suffix) name
      | Ip _ => false
      end
  | DomainFull full => match host with Domain name => eq_ignore_ascii_case name full | Ip _ => false end
  | DomainKeyword needle =>
      match host with Domain name => contains needle (to_lowercase name) | Ip _ => false end
  | DomainRegex pattern => match host with Domain name => is_match pattern name | Ip _ => false end
  end.

Record RuleSet := mk_rules { block : list Matcher; direct : list Matcher }.

Definition separator (c : Z) : bool := (c =? 10) || (c =? 44) || (c =? 59).

Definition parse_list (raw : bytes) : list Matcher := omap parse_entry (split_by separator raw).

Definition parse (blk dir : bytes) : RuleSet := mk_rules (parse_list blk) (parse_list dir).

Definition rules_empty (set : RuleSet) : bool := is_empty (block set) && is_empty (direct set).

Definition is_domain_rule (m : Matcher) : bool :=
  match m with
  | DomainSuffix _ | DomainFull _ | DomainKeyword _ | DomainRegex _ => true
  | _ => false
  end.

Definition has_domain_rules (set : RuleSet) : bool :=
  existsb is_domain_rule (block set ++ direct set).

Definition decide (set : RuleSet) (host : Host) (port : Z) : Action :=
  if existsb (λ rule, matches rule host port) (block set) then Block
  else if existsb (λ rule, matches rule host port) (direct set) then Direct
  else Proxy.

Definition push_list (target extra : bytes) : bytes :=
  if is_empty (trim extra) then target
  else (if is_empty (trim target) then target else target ++ [10]) ++ extra.

(** The strings built so far, and the one the next line goes to. *)
Definition section_step (st : bytes * bytes * option Action) (line : bytes)
  : bytes * bytes * option Action :=
  let '(blk, dir, current) := st in
  let trimmed := trim line in
  if is_empty trimmed || starts_with [35] trimmed then st else
  let lowered := to_lowercase trimmed in
  if str_eqb lowered (lit "[block]") then (blk, dir, Some Block)
  else if str_eqb lowered (lit "[direct]") then (blk, dir, Some Direct)
  else if starts_with [91] lowered then (blk, dir, None)
  else match current with
       | Some Block => (blk ++ trimmed ++ [10], dir, current)
       | Some _ => (blk, dir ++ trimmed ++ [10], current)
       | None => st
       end.

Definition split_sections (text : bytes) : bytes * bytes :=
  let '(blk, dir, _) := fold_left section_step (lines text) ([], [], None) in (blk, dir).

(** [files] is [std::fs::read_to_string(_).ok()]. *)
Definition from_env (env files : environment) : RuleSet :=
  let blk := default [] (env (lit "AETHER_ROUTE_BLOCK")) in
  let dir := default [] (env (lit "AETHER_ROUTE_DIRECT")) in
  let '(blk, dir) :=
    match env (lit "AETHER_ROUTES_FILE") with
    | Some path =>
        match files path with
        | Some text =>
            let '(file_block, file_direct) := split_sections text in
            (push_list blk file_block, push_list dir file_direct)
        | None => (blk, dir)
        end
    | None => (blk, dir)
    end in
  parse blk dir.

End routing.

(** ** Lists of rules *)

Section lists.
Context {U : UnicodeCase} {N : IpNets} {R : Regexes}.

Lemma parse_entry_trim e e' : trim e = trim e' → parse_entry e = parse_entry e'.
Proof. intros E. unfold parse_entry. by rewrite E. Qed.

Lemma parse_list_nil : parse_list [] = [].
Proof. done. Qed.

Lemma parse_list_app_sep a c b :
  separator c = true → parse_list (a ++ c :: b) = parse_list a ++ parse_list b.
Proof. intros Hc. unfold parse_list. by rewrite split_by_app_sep, omap_app. Qed.

Lemma white_space_separator q :
  q ∈ white_space → q = [10] ∨ forallb (λ x, negb (separator x)) q = true.
Proof.
  intros Hq. assert (Forall (λ q, q = [10] ∨ forallb (λ x, negb (separator x)) q = true) white_space)
    as H by by_decision.
  rewrite Forall_forall in H. by apply H.
Qed.

(** White space in front of a list of rules changes nothing. *)
Lemma parse_list_white qs s :
  Forall (λ q, q ∈ white_space) qs → parse_list (concat qs ++ s) = parse_list s.
Proof.
  induction 1 as [|q qs Hq _ IH]; [done|]. cbn [concat]. rewrite <- app_assoc, <- IH.
  destruct (white_space_separator q Hq) as [->|Hs]; [done|].
  unfold parse_list. set (t := concat qs ++ s).
  destruct (split_by separator t) as [|l ls] eqn:E; [by apply split_by_not_nil in E|].
  rewrite (split_by_prepend _ _ _ l ls) by done. cbn.
  assert (trim (q ++ l) = trim l) as Et.
  { pose proof (trim_white [q] l) as H. cbn [concat] in H. rewrite app_nil_r in H.
    apply H. constructor; [done|constructor]. }
  by rewrite (parse_entry_trim _ _ Et).
Qed.

Lemma parse_list_blank s : trim s = [] → parse_list s = [].
Proof.
  intros (qs & -> & Hqs)%trim_nil. pose proof (parse_list_white qs [] Hqs) as H.
  by rewrite app_nil_r in H.
Qed.

(** [push_list] appends rules to rules, whatever the texts end or start with. *)
Lemma push_list_rules target extra :
  parse_list (push_list target extra) = parse_list target ++ parse_list extra.
Proof.
  unfold push_list. destruct (trim extra) eqn:Ee; cbn [is_empty].
  { by rewrite (parse_list_blank extra), app_nil_r. }
  destruct (trim target) eqn:Et; cbn [is_empty].
  - rewrite (parse_list_blank target) by done. apply trim_nil in Et as (qs & -> & Hqs).
    by apply parse_list_white.
  - rewrite <- app_assoc. by apply parse_list_app_sep.
Qed.

(** *** The rule file *)

(** What a line of the file is. *)
Inductive file_line := Skip | Section_ (a : option Action) | Rule (text : bytes).

Definition classify (line : bytes) : file_line :=
  let t := trim line in
  if is_empty t || starts_with [35] t then Skip
  else if str_eqb (to_lowercase t) (lit "[block]") then Section_ (Some Block)
  else if str_eqb (to_lowercase t) (lit "[direct]") then Section_ (Some Direct)
  else if starts_with [91] (to_lowercase t) then Section_ None
  else Rule t.

(** The rules of the lines that stand in a section [want]. *)
Fixpoint section_rules (want : Action) (current : option Action) (ls : list file_line)
  : list Matcher :=
  match ls with
  | [] => []
  | Skip :: ls => section_rules want current ls
  | Section_ a :: ls => section_rules want a ls
  | Rule t :: ls =>
      (if bool_decide (current = Some want) then parse_list t else []) ++ section_rules want current ls
  end.

Lemma section_step_classify blk dir cur line :
  section_step (blk, dir, cur) line =
    match classify line with
    | Skip => (blk, dir, cur)
    | Section_ a => (blk, dir, a)
    | Rule t =>
        match cur with
        | Some Block => (blk ++ t ++ [10], dir, cur)
        | Some _ => (blk, dir ++ t ++ [10], cur)
        | None => (blk, dir, cur)
        end
    end.
Proof. unfold section_step, classify. repeat case_match; done. Qed.

(** The text of a section ends every rule it holds. *)
Definition closed (s : bytes) : Prop := s = [] ∨ ∃ r, s = r ++ [10].

Lemma closed_rules s t : closed s → parse_list (s ++ t ++ [10]) = parse_list s ++ parse_list t.
Proof.
  intros Hs. assert (∀ t, parse_list (t ++ [10]) = parse_list t) as Hnl.
  { intros u. by rewrite (parse_list_app_sep u 10 []), parse_list_nil, app_nil_r. }
  destruct Hs as [->|(r & ->)]; [cbn [app]; by rewrite Hnl, parse_list_nil|].
  rewrite (Hnl r), <- app_assoc. cbn [app].
  by rewrite (parse_list_app_sep r 10 (t ++ [10])), Hnl.
Qed.

Lemma closed_line s t : closed (s ++ t ++ [10]).
Proof. right. exists (s ++ t). by rewrite app_assoc. Qed.

Definition opens (cur : option Action) : Prop := cur = None ∨ cur = Some Block ∨ cur = Some Direct.

Lemma classify_opens line a : classify line = Section_ a → opens a.
Proof. unfold classify, opens. repeat case_match; naive_solver. Qed.

Lemma sections_fold ls blk dir cur :
  closed blk → closed dir → opens cur →
  let '(blk', dir', _) := fold_left section_step ls (blk, dir, cur) in
  parse_list blk' = parse_list blk ++ section_rules Block cur (classify <$> ls) ∧
  parse_list dir' = parse_list dir ++ section_rules Direct cur (classify <$> ls).
Proof.
  revert blk dir cur. induction ls as [|line ls IH]; intros blk dir cur Hb Hd Ho.
  { cbn. by rewrite !app_nil_r. }
  cbn [fold_left fmap list_fmap]. rewrite section_step_classify.
  destruct (classify line) as [|a|t] eqn:El; cbn [section_rules].
  - by apply IH.
  - apply IH; [done..|]. by eapply classify_opens.
  - destruct Ho as [->|[->| ->]]; cbn [app].
    + specialize (IH blk dir None Hb Hd). rewrite !bool_decide_false by done. apply IH. by left.
    + specialize (IH _ dir (Some Block) (closed_line blk t) Hd ltac:(right; by left)).
      destruct (fold_left _ _ _) as [[b' d'] ?]. rewrite closed_rules in IH by done.
      rewrite bool_decide_true, bool_decide_false by done.
      destruct IH as [-> ->]. split; [by rewrite app_assoc|done].
    + specialize (IH blk _ (Some Direct) Hb (closed_line dir t) ltac:(right; by right)).
      destruct (fold_left _ _ _) as [[b' d'] ?]. rewrite closed_rules in IH by done.
      rewrite bool_decide_false, bool_decide_true by done.
      destruct IH as [-> ->]. split; [done|by rewrite app_assoc].
Qed.

(** Loading the rules: the rules of each list are those of its
    environment variable followed by those of the lines that stand in its
    sections of the rule file, in the order of the file, whatever white space,
    comments and unknown sections the texts hold; a missing file adds none. *)
Theorem from_env_rules (env files : environment) :
  let file := match env (lit "AETHER_ROUTES_FILE") with
              | Some path => default [] (files path) | None => [] end in
  let rules a := section_rules a None (classify <$> lines file) in
  block (from_env env files) =
    parse_list (default [] (env (lit "AETHER_ROUTE_BLOCK"))) ++ rules Block ∧
  direct (from_env env files) =
    parse_list (default [] (env (lit "AETHER_ROUTE_DIRECT"))) ++ rules Direct.
Proof.
  cbn zeta. unfold from_env.
  destruct (env (lit "AETHER_ROUTES_FILE")) as [path|]; [|cbn; by rewrite !app_nil_r].
  destruct (files path) as [text|]; [|cbn; by rewrite !app_nil_r].
  unfold split_sections. pose proof (sections_fold (lines text) [] [] None) as H. cbn [default].
  destruct (fold_left section_step (lines text) ([], [], None)) as [[b d] c].
  destruct H as [Hb Hd]; [by left..|]. unfold parse. cbn [block direct].
  by rewrite !push_list_rules, Hb, Hd.
Qed.

End lists.

(** ** Matching *)

Section matching.
Context {U : UnicodeCase} {N : IpNets} {R : Regexes}.

Lemma suffix_match name suffix :
  str_eqb name suffix || ends_with (46 :: suffix) name = true ↔
  name = suffix ∨ ∃ r, name = r ++ 46 :: suffix.
Proof. by rewrite orb_true_iff, str_eqb_eq, ends_with_spec. Qed.

(** A suffix rule respects label boundaries: it matches a name exactly
    when the labels of the rule are the last labels of the name, in any case;
    so a rule for ads.example never catches notads.example. *)
Theorem suffix_match_labels (suffix name : bytes) (port : Z) :
  matches (DomainSuffix suffix) (Domain name) port = true ↔
  ∃ ls, split 46 (to_lowercase name) = ls ++ split 46 suffix.
Proof.
  cbn [matches]. rewrite suffix_match. generalize (to_lowercase name) as n. intros n. split.
  - intros [->|(r & ->)]; [by exists []|]. exists (split 46 r).
    unfold split. by apply split_by_app_sep.
  - intros (ls & E). apply (f_equal (join [46])) in E. rewrite join_split in E.
    pose proof (split_by_not_nil (λ x, x =? 46) suffix) as Hn. destruct ls as [|l ls].
    + left. rewrite E. apply join_split.
    + right. exists (join [46] (l :: ls)). by rewrite E, join_app, join_split.
Qed.

(** The order of the lists: a block rule that matches decides whatever
    the direct rules say, a direct rule only where no block rule matches, and
    traffic no rule matches goes through the tunnel. *)
Theorem decide_precedence (set : RuleSet) (host : Host) (port : Z) :
  let hit l := ∃ rule, rule ∈ l ∧ matches rule host port = true in
  match decide set host port with
  | Block => hit (block set)
  | Direct => hit (direct set) ∧ ¬ hit (block set)
  | Proxy => ¬ hit (block set) ∧ ¬ hit (direct set)
  end.
Proof.
  assert (∀ l, existsb (λ rule, matches rule host port) l = true ↔
    ∃ rule, rule ∈ l ∧ matches rule host port = true) as Hx.
  { intros l. rewrite existsb_exists. by setoid_rewrite list_elem_of_In. }
  pose proof (Hx (block set)) as Hb. pose proof (Hx (direct set)) as Hd.
  unfold decide. cbn zeta. destruct (existsb _ (block set)); [by apply Hb|].
  destruct (existsb _ (direct set)).
  - split; [by apply Hd|]. by intros ?%Hb.
  - split; [by intros ?%Hb|by intros ?%Hd].
Qed.

(** A domain as rules name it: no white space, no separators, no leading star
    or dot, no trailing dot. *)
Definition rule_domain (d : bytes) : Prop :=
  d ≠ [] ∧ forallb (λ b, graphic b && negb (separator b)) d = true ∧
  take 1 d ≠ [42] ∧ take 1 d ≠ [46] ∧ ∀ r, d ≠ r ++ [46].

Lemma drop_while_id f d : (∀ b r, d = b :: r → f b = false) → drop_while f d = d.
Proof. intros H. destruct d as [|b r]; cbn; [done|]. by rewrite (H b r eq_refl). Qed.

Lemma graphic_ascii b : graphic b = true → is_ascii b = true.
Proof. unfold graphic, is_ascii. rewrite andb_true_iff, !Z.leb_le, Z.ltb_lt. lia. Qed.

Lemma rule_domain_graphic d : rule_domain d → forallb graphic d = true.
Proof. intros (_ & H & _). revert H. apply forallb_impl. by intros x [? _]%andb_true_iff. Qed.

Lemma normalize_rule_domain d : rule_domain d → normalize_domain d = Some (to_ascii_lowercase d).
Proof.
  intros Hd. pose proof (rule_domain_graphic d Hd) as Hg. destruct Hd as (Hn & _ & Hs & Hdot & He).
  unfold normalize_domain. rewrite (trim_graphic d Hg). unfold trim_start_matches, trim_end_matches.
  rewrite (drop_while_id _ d), (drop_while_id _ d), (drop_while_id _ (reverse d)).
  - rewrite reverse_involutive, to_lowercase_ascii; [by destruct d|].
    revert Hg. apply forallb_impl, graphic_ascii.
  - intros b r E. apply (f_equal reverse) in E. rewrite reverse_involutive, reverse_cons in E.
    apply Z.eqb_neq. intros ->. by apply He in E.
  - intros b r ->. cbn in Hdot. apply Z.eqb_neq. by intros ->.
  - intros b r ->. cbn in Hs. apply Z.eqb_neq. by intros ->.
Qed.

Lemma parse_domain_entry d :
  rule_domain d → parse_entry (lit "domain:" ++ d) = Some (DomainSuffix (to_ascii_lowercase d)).
Proof.
  intros Hd. pose proof (rule_domain_graphic d Hd) as Hg.
  assert (trim (lit "domain:" ++ d) = lit "domain:" ++ d) as Ht
    by (apply trim_graphic; rewrite forallb_app; by rewrite Hg).
  unfold parse_entry. rewrite Ht.
  change (is_empty (lit "domain:" ++ d) || starts_with [35] (lit "domain:" ++ d)) with false.
  assert (kind_value (lit "domain:" ++ d) = (lit "domain", d)) as ->.
  { unfold kind_value. change (split_once 58 (lit "domain:" ++ d)) with (Some (lit "domain", d)).
    cbv beta iota. change (negb (contains [46] (lit "domain")) && negb (contains [47] (lit "domain"))) with true.
    change (to_lowercase (trim (lit "domain"))) with (lit "domain").
    by rewrite (trim_graphic d). }
  cbv beta iota zeta. change (one_of [lit "domain"; lit "suffix"] (lit "domain")) with true.
  cbv beta iota. by rewrite normalize_rule_domain.
Qed.

(** A block rule always takes effect: whatever other rules stand before
    and after a rule domain:D in the block list, and whatever the direct list
    says, every port of D and of each of its subdomains is blocked, in any
    letter case. *)
Theorem block_rule_wins (before after direct_text d sub name : bytes) (s1 s2 port : Z)
  (Hs1 : separator s1 = true) (Hs2 : separator s2 = true) (Hd : rule_domain d)
  (Hname : forallb is_ascii name = true)
  (Hm : to_ascii_lowercase name = to_ascii_lowercase d ∨
        to_ascii_lowercase name = sub ++ 46 :: to_ascii_lowercase d) :
  decide (parse (before ++ s1 :: (lit "domain:" ++ d) ++ s2 :: after) direct_text)
    (Domain name) port = Block.
Proof.
  unfold decide, parse. cbn [block]. rewrite !parse_list_app_sep by done.
  rewrite (existsb_app _ (parse_list before)), (existsb_app _ (parse_list (lit "domain:" ++ d))).
  enough (existsb (λ rule, matches rule (Domain name) port) (parse_list (lit "domain:" ++ d)) = true)
    as -> by (by rewrite orb_true_r).
  unfold parse_list. rewrite split_nosep.
  - unfold omap. cbn [list_omap]. rewrite parse_domain_entry by done. cbn [existsb].
    apply orb_true_iff. left. cbn [matches]. rewrite to_lowercase_ascii by done.
    apply suffix_match. naive_solver.
  - destruct Hd as (_ & Hd & _). rewrite forallb_app. apply andb_true_iff. split; [by vm_compute|].
    revert Hd. apply forallb_impl. by intros x [_ ?]%andb_true_iff.
Qed.

End matching.

(** ** Private addresses *)

(** The special-purpose blocks, as address and prefix length. *)
Definition PRIVATE_V4 : list (Z * Z) :=
  [(0x0a000000, 8); (0xac100000, 12); (0xc0a80000, 16); (0x7f000000, 8); (0xa9fe0000, 16);
   (0xffffffff, 32); (0xc0000200, 24); (0xc6336400, 24); (0xcb007100, 24); (0, 32);
   (0x64400000, 10)].
Definition PRIVATE_V6 : list (Z * Z) :=
  [(1, 128); (0, 128); (Z.shiftl 0xfc00 112, 7); (Z.shiftl 0xfe80 112, 10)].

Lemma land_high s k m :
  0 ≤ k ≤ m → 0 ≤ s < 2 ^ m → Z.land s (Z.shiftl (Z.ones (m - k)) k) = Z.shiftl (Z.shiftr s k) k.
Proof.
  intros Hk Hs. apply Z.bits_inj'. intros n Hn. rewrite Z.land_spec.
  destruct (Z.lt_ge_cases n k).
  - rewrite !Z.shiftl_spec_low by done. apply andb_false_r.
  - rewrite !Z.shiftl_spec, Z.shiftr_spec by lia. replace (n - k + k) with n by lia.
    destruct (Z.lt_ge_cases n m).
    + rewrite Z.ones_spec_low by lia. apply andb_true_r.
    + replace (Z.testbit s n) with false; [done|]. symmetry.
      destruct (Z.eq_dec s 0) as [->|]; [apply Z.bits_0|]. apply Z.bits_above_log2; [lia|].
      enough (Z.log2 s < m) by lia. apply Z.log2_lt_pow2; lia.
Qed.

(** The block a masked first group names. *)
Lemma segment_block b k v :
  0 ≤ b < 2 ^ 128 → 0 ≤ k ≤ 16 →
  (Z.land (segment0 b) (Z.shiftl (Z.ones (16 - k)) k) =? Z.shiftl v k)
  = in_block 128 (Z.shiftl v (112 + k)) (16 - k) b.
Proof.
  intros Hb Hk. unfold segment0, in_block. rewrite land_high; [|lia|].
  2: { rewrite Z.shiftr_div_pow2 by lia. split; [apply Z.div_pos; lia|].
       apply Z.div_lt_upper_bound; [lia|]. rewrite <- Z.pow_add_r by lia.
       exact (proj2 Hb). }
  rewrite Z.shiftr_shiftr by lia. replace (128 - (16 - k)) with (112 + k) by lia.
  rewrite (Z.shiftr_shiftl_l v) by lia. replace (112 + k - (112 + k)) with 0 by lia.
  rewrite Z.shiftl_0_r. apply eq_true_iff_eq. rewrite !Z.eqb_eq. split; [|by intros ->].
  rewrite !Z.shiftl_mul_pow2 by lia. intros E. apply Z.mul_reg_r in E; [done|].
  apply Z.pow_nonzero; lia.
Qed.

Lemma octet_0 b : octet b 0 = b / 16777216 mod 256.
Proof. unfold octet. by rewrite land_255, Z.shiftr_div_pow2. Qed.
Lemma octet_1 b : octet b 1 = b / 65536 mod 256.
Proof. unfold octet. by rewrite land_255, Z.shiftr_div_pow2. Qed.
Lemma octet_2 b : octet b 2 = b / 256 mod 256.
Proof. unfold octet. by rewrite land_255, Z.shiftr_div_pow2. Qed.

Lemma in_block_div b a n k : 0 ≤ k → k = 32 - n → in_block 32 a n b = (b / 2 ^ k =? a / 2 ^ k).
Proof. intros ? ->. unfold in_block. by rewrite !Z.shiftr_div_pow2. Qed.

(** Decide a block of an IPv4 address from its octets; [k] is the number of
    free bits. *)
Ltac v4_block k :=
  intros; rewrite (in_block_div _ _ _ k) by lia; rewrite ?octet_0, ?octet_1, ?octet_2;
  apply eq_true_iff_eq; rewrite ?andb_true_iff, ?Z.eqb_eq, ?Z.leb_le, ?Z.ltb_lt;
  Z.to_euclidean_division_equations; lia.

Section blocks.
Context (b : Z) (Hb : 0 ≤ b < 2 ^ 32).

Lemma block_8 a : 0 ≤ a < 256 → (octet b 0 =? a) = in_block 32 (a * 2 ^ 24) 8 b.
Proof. v4_block 24. Qed.

Lemma block_16 a c :
  0 ≤ a < 256 → 0 ≤ c < 256 →
  (octet b 0 =? a) && (octet b 1 =? c) = in_block 32 (a * 2 ^ 24 + c * 2 ^ 16) 16 b.
Proof. v4_block 16. Qed.

Lemma block_24 a c d :
  0 ≤ a < 256 → 0 ≤ c < 256 → 0 ≤ d < 256 →
  (octet b 0 =? a) && (octet b 1 =? c) && (octet b 2 =? d)
  = in_block 32 (a * 2 ^ 24 + c * 2 ^ 16 + d * 2 ^ 8) 24 b.
Proof. v4_block 8. Qed.

Lemma block_32 a : (b =? a) = in_block 32 a 32 b.
Proof. v4_block 0. Qed.

Lemma block_172 :
  (octet b 0 =? 172) && (16 <=? octet b 1) && (octet b 1 <=? 31) = in_block 32 0xac100000 12 b.
Proof. v4_block 20. Qed.

Lemma block_100 :
  (octet b 0 =? 100) && ((64 <=? octet b 1) && (octet b 1 <? 128)) = in_block 32 0x64400000 10 b.
Proof. v4_block 22. Qed.
End blocks.

(** What counts as private: the tests on octets and groups accept
    exactly the addresses of the special-purpose blocks (RFC 1918, loopback,
    link-local, broadcast, documentation, unspecified, RFC 6598; for IPv6
    loopback, unspecified, fc00::/7, fe80::/10). *)
Theorem is_private_blocks (ip : IpAddr) (Hip : ip_ok ip) :
  is_private ip =
    match ip with
    | V4 b => existsb (λ '(a, n), in_block 32 a n b) PRIVATE_V4
    | V6 b => existsb (λ '(a, n), in_block 128 a n b) PRIVATE_V6
    end.
Proof.
  destruct ip as [b|b]; cbn [ip_ok] in Hip; cbn [is_private].
  - unfold v4_is_private, v4_is_loopback, v4_is_link_local, v4_is_broadcast,
      v4_is_documentation, v4_is_unspecified.
    rewrite block_172, block_100, !block_24, !block_16, !(block_8 b), !block_32 by (done || lia).
    cbn [existsb PRIVATE_V4]. rewrite orb_false_r, <- !orb_assoc. done.
  - unfold v6_is_loopback, v6_is_unspecified.
    pose proof (segment_block b 9 0x7e Hip ltac:(lia)) as E1.
    pose proof (segment_block b 6 0x3fa Hip ltac:(lia)) as E2.
    change (Z.land (segment0 b) 0xfe00 =? 0xfc00)
      with (Z.land (segment0 b) (Z.shiftl (Z.ones (16 - 9)) 9) =? Z.shiftl 0x7e 9).
    change (Z.land (segment0 b) 0xffc0 =? 0xfe80)
      with (Z.land (segment0 b) (Z.shiftl (Z.ones (16 - 6)) 6) =? Z.shiftl 0x3fa 6).
    rewrite E1, E2. cbn [existsb PRIVATE_V6]. rewrite orb_false_r, <- !orb_assoc.
    unfold in_block at 3 4. cbn [Z.sub Z.add Z.opp Z.pos_sub Pos.pred_double]. by rewrite !Z.shiftr_0_r.
Qed.

(** ** Bare IPv6 entries *)

Definition is_hex (b : Z) : bool :=
  is_ascii_digit b || ((97 <=? b) && (b <=? 102)) || ((65 <=? b) && (b <=? 70)).

Section bare_ipv6.
Context {U : UnicodeCase} {N : IpNets} {R : Regexes}.

Lemma hex_graphic b : is_hex b = true → graphic b = true.
Proof.
  unfold is_hex, is_ascii_digit, graphic.
  rewrite !orb_true_iff, !andb_true_iff, !Z.leb_le. lia.
Qed.

Lemma hex_lower b : is_hex b = true → is_hex (ascii_lower b) = true.
Proof.
  intros H. unfold ascii_lower. destruct (is_ascii_uppercase b) eqn:E; [|done].
  revert H E. unfold is_hex, is_ascii_digit, is_ascii_uppercase.
  rewrite !orb_true_iff, !andb_true_iff, !Z.leb_le. lia.
Qed.

Lemma hex_not c b : is_hex b = true → is_hex c = false → negb (b =? c) = true.
Proof. intros Hb Hc. apply negb_true_iff, Z.eqb_neq. intros ->. congruence. Qed.

(** No keyword of the rule language is made of hexadecimal digits. *)
Lemma one_of_hex names kind :
  forallb is_hex kind = true → forallb (λ n, negb (forallb is_hex n)) names = true →
  one_of names kind = false.
Proof.
  intros Hk Hn. unfold one_of. apply not_true_iff_false. intros (n & Hin & E)%existsb_exists.
  apply str_eqb_eq in E as ->. rewrite forallb_forall in Hn. apply Hn in Hin. by rewrite Hk in Hin.
Qed.

(** A rule that is an IPv6 address or network without the prefix ip: or
    cidr: is dropped silently: its first group is taken for the kind of the
    rule, whatever ipnet would make of the text. *)
Theorem bare_ipv6_rule_dropped (group rest : bytes)
  (Hg : group ≠ []) (Hhex : forallb is_hex group = true)
  (Hrest : forallb graphic rest = true) :
  parse_entry (group ++ 58 :: rest) = None.
Proof.
  assert (∀ c, is_hex c = false → forallb (λ x, negb (x =? c)) group = true) as Hnot.
  { intros c Hc. revert Hhex. apply forallb_impl. intros x Hx. by apply hex_not. }
  assert (forallb graphic group = true) as Hgg by (revert Hhex; apply forallb_impl, hex_graphic).
  unfold parse_entry. rewrite trim_graphic by (rewrite forallb_app, Hgg; cbn; by rewrite Hrest).
  assert (kind_value (group ++ 58 :: rest) = (to_ascii_lowercase group, rest)) as ->.
  { unfold kind_value. rewrite split_once_app by (by apply Hnot).
    rewrite !contains_none by (by apply Hnot). cbn [negb andb].
    rewrite !trim_graphic, to_lowercase_ascii by (done || (revert Hgg; apply forallb_impl, graphic_ascii)).
    done. }
  assert (forallb is_hex (to_ascii_lowercase group) = true) as Hk
    by (revert Hhex; apply forallb_map, hex_lower).
  destruct group as [|g group]; [done|]. cbn [app is_empty].
  assert (starts_with [35] (g :: group ++ 58 :: rest) = false) as ->.
  { pose proof (Hnot 35 eq_refl) as Hx. apply andb_true_iff in Hx as [Hx%negb_true_iff _].
    unfold starts_with. cbn [strip_prefix]. by rewrite Z.eqb_sym, Hx. }
  cbn [orb]. cbv beta iota zeta. rewrite !one_of_hex by done. done.
Qed.

End bare_ipv6.

Definition no_nets : IpNets :=
  {| IpNet := IpAddr; ipnet_parse := λ _, None; ipnet_from := λ ip, ip;
     ipnet_contains := λ a b, bool_decide (a = b) |}.
Definition no_regex : Regexes :=
  {| Regex := (); regex_new := λ _, None; is_match := λ _ _, false |}.

Lemma block_rule_wins_witness :
  @decide Sniff.ascii_only no_nets no_regex
    (@parse Sniff.ascii_only no_nets no_regex (lit "port:25" ++ 44 :: (lit "domain:" ++ lit "Ads.example") ++ 10 :: lit "private")
           (lit "ads.example")) (Domain (lit "x.ADS.example")) 443 = Block.
Proof.
  apply (@block_rule_wins Sniff.ascii_only no_nets no_regex (lit "port:25") (lit "private") (lit "ads.example")
           (lit "Ads.example") (lit "x") (lit "x.ADS.example") 44 10 443).
  - done.
  - done.
  - split_and!; [done|by vm_compute|done..|]. intros r E. apply (f_equal reverse) in E.
    rewrite reverse_app in E. done.
  - by vm_compute.
  - right. by vm_compute.
Defined.

Lemma is_private_blocks_witness :
  is_private (V4 0xac1f0001) = true ∧
  is_private (V4 0xac1f0001) = existsb (λ '(a, n), in_block 32 a n 0xac1f0001) PRIVATE_V4.
Proof. split; [by vm_compute|]. apply (is_private_blocks (V4 0xac1f0001)). by_decision. Defined.

Lemma bare_ipv6_rule_dropped_witness :
  @parse_entry Sniff.ascii_only no_nets no_regex (lit "2001" ++ 58 :: lit "db8::/32") = None.
Proof. by apply (@bare_ipv6_rule_dropped Sniff.ascii_only no_nets no_regex). Defined.
