(* ===== verification/Error.v ===== *)
(** * The error type of the core

    src/aether/src/error.rs.  The errors of the operating system, of quiche and
    of its HTTP/3 layer are kept by the text they are displayed with. *)

From stdpp Require Import strings.
From S2P Require Import Prelude Text.

Inductive AetherError :=
| EIo (text : bytes)
| EQuic (text : bytes)
| EH3 (text : bytes)
| ETls (text : bytes)
| EEch (text : bytes)
| EMasque (text : bytes)
| ENoCleanEndpoint
| ECapsule (text : bytes)
| EApi (text : bytes)
| EIdentityRefused (text : bytes)
| ECancelled
| EOther (text : bytes).

#[export] Instance AetherError_eq_dec : EqDecision AetherError.
Proof. solve_decision. Defined.

(** [to_string()]. *)
Definition display (e : AetherError) : bytes :=
  match e with
  | EIo t => lit "io: " ++ t
  | EQuic t => lit "quic: " ++ t
  | EH3 t => lit "h3: " ++ t
  | ETls t => lit "tls: " ++ t
  | EEch t => lit "ech: " ++ t
  | EMasque t => lit "masque: " ++ t
  | ENoCleanEndpoint => lit "prober: no clean endpoint found"
  | ECapsule t => lit "capsule: " ++ t
  | EApi t => lit "api: " ++ t
  | EIdentityRefused t => lit "identity refused: " ++ t
  | ECancelled => lit "cancelled"
  | EOther t => lit "other: " ++ t
  end.

Definition detail (e : AetherError) : bytes :=
  match e with EOther message => message | other => display other end.

(** The reason of an ECH failure, as the messages that wrap it give it. *)
Definition ech_reason (e : AetherError) : bytes :=
  match e with EEch reason => reason | other => display other end.
