(* ===== verification/Tls.v ===== *)
(** * ECH keys and TLS options

    src/aether/src/tls.rs: the check of an ECHConfigList before a handshake is
    given it, the key an option asks for, the key of the sessions of the
    process, and the wire forms of the TLS options.  What is left to BoringSSL
    (the handshake itself) is not here. *)

From stdpp Require Import strings.
From S2P Require Import Prelude Text Error.

(** [{:?}] of a string. *)
Class DebugText := debug_str : bytes → bytes.

(** The [base64] crate's standard engine: the bytes, or the error's text. *)
Class Base64 := base64_decode : bytes → comp bytes bytes.

(** ** Reading fields *)

(** [Fields]: what is left to read.  A reader gives [None] when the bytes do
    not suffice. *)
Abbreviation Fields := (list Z) (only parsing).

Definition f_take (len : Z) (f : Fields) : option (bytes * Fields) :=
  if blen f <? len then None else Some (takez len f, dropz len f).

Definition f_u8 (f : Fields) : option (Z * Fields) :=
  '(b, f) ← f_take 1 f;
  v ← get b 0;
  Some (v, f).

Definition f_u16 (f : Fields) : option (Z * Fields) :=
  '(b, f) ← f_take 2 f;
  Some (be_val b, f).

Definition f_u8_prefixed (f : Fields) : option (Fields * Fields) :=
  '(len, f) ← f_u8 f; f_take len f.

Definition f_u16_prefixed (f : Fields) : option (Fields * Fields) :=
  '(len, f) ← f_u16 f; f_take len f.

(** ** The ECHConfigList *)

Definition ECH_CONFIG_VERSION : Z := 0xfe0d.
Definition HPKE_DHKEM_X25519_HKDF_SHA256 : Z := 0x0020.
Definition HPKE_HKDF_SHA256 : Z := 0x0001.
Definition HPKE_AEADS : list Z := [0x0001; 0x0002; 0x0003].
Definition X25519_PUBLIC_KEY_LEN : Z := 32.

Definition is_ascii_hexdigit (b : Z) : bool :=
  is_ascii_digit b || ((97 <=? b) && (b <=? 102)) || ((65 <=? b) && (b <=? 70)).

Definition valid_label (label : bytes) : bool :=
  let ldh := forallb (λ b, is_ascii_alphanumeric b || (b =? 45)) label in
  negb (is_empty label || (blen label >? 63)
        || bool_decide (get label 0 = Some 45)
        || bool_decide (get label (blen label - 1) = Some 45)
        || negb ldh).

Definition valid_public_name (name : bytes) : bool :=
  let labels := split 46 name in
  if forallb valid_label labels then
    let last := default [] (last labels) in
    let decimal := forallb is_ascii_digit last in
    let hex := (2 <=? blen last) && bool_decide (get last 0 = Some 48)
               && (bool_decide (get last 1 = Some 120) || bool_decide (get last 1 = Some 88))
               && forallb is_ascii_hexdigit (dropz 2 last) in
    negb decimal && negb hex
  else false.

(** The loop over the extensions: whether one of them is mandatory. *)
Definition extension_step (s : Fields * bool) : round (Fields * bool) (option bool) :=
  let '(extensions, mandatory) := s in
  if is_empty extensions then Done (Some mandatory) else
  match '(kind, f) ← f_u16 extensions; '(_, f) ← f_u16_prefixed f; Some (kind, f) with
  | Some (kind, f) => Next (f, mandatory || negb (Z.land kind 0x8000 =? 0))
  | None => Done None
  end.

Definition mandatory_extension (extensions : Fields) : option bool :=
  loop (λ s, length s.1) extension_step None (extensions, false).

(** The loop over the cipher suites: whether BoringSSL has one of them. *)
Definition suite_step (s : Fields * bool) : round (Fields * bool) (option bool) :=
  let '(suites, found) := s in
  if is_empty suites then Done (Some found) else
  match '(kdf, f) ← f_u16 suites; '(aead, f) ← f_u16 f; Some (kdf, aead, f) with
  | Some (kdf, aead, f) =>
      Next (f, found || ((kdf =? HPKE_HKDF_SHA256) && existsb (Z.eqb aead) HPKE_AEADS))
  | None => Done None
  end.

Definition usable_suite (suites : Fields) : option bool :=
  loop (λ s, length s.1) suite_step None (suites, false).

(** [None]: the list is turned down; [Some None]: the config is passed over;
    [Some (Some key)]: the config would be offered. *)
Definition ech_config (configs : Fields) : option (option bytes * Fields) :=
  '(version, configs) ← f_u16 configs;
  '(contents, configs) ← f_u16_prefixed configs;
  if negb (version =? ECH_CONFIG_VERSION) then Some (None, configs) else
  '(_, contents) ← f_u8 contents;
  '(kem_id, contents) ← f_u16 contents;
  '(public_key, contents) ← f_u16_prefixed contents;
  '(cipher_suites, contents) ← f_u16_prefixed contents;
  '(_, contents) ← f_u8 contents;
  '(public_name, contents) ← f_u8_prefixed contents;
  '(extensions, contents) ← f_u16_prefixed contents;
  if is_empty public_key || is_empty cipher_suites || negb (blen cipher_suites mod 4 =? 0)
     || is_empty public_name || negb (is_empty contents) then None else
  if negb (valid_public_name public_name) then Some (None, configs) else
  mandatory ← mandatory_extension extensions;
  cipher_suite ← usable_suite cipher_suites;
  let offered := negb mandatory && (kem_id =? HPKE_DHKEM_X25519_HKDF_SHA256) && cipher_suite in
  Some (if offered then Some public_key else None, configs).

Definition malformed : bytes := lit "it is no ECHConfigList".
Definition bad_key_length : bytes := lit "the X25519 key of its config is not 32 bytes long".
Definition none_offered : bytes :=
  lit "it holds no config BoringSSL offers: ECH version 0xfe0d, X25519, and HKDF-SHA256 with AES-GCM or ChaCha20-Poly1305".

(** The loop over the configs: the first one that would be offered. *)
Definition config_step (s : Fields * option bytes)
  : round (Fields * option bytes) (comp bytes (option bytes)) :=
  let '(configs, picked) := s in
  if is_empty configs then Done (Ok picked) else
  match ech_config configs with
  | None => Done (Err malformed)
  | Some (config, rest) =>
      Next (rest, match picked with Some key => Some key | None => config end)
  end.

Definition picked_config (configs : Fields) : comp bytes (option bytes) :=
  loop (λ s, length s.1) config_step Panic (configs, None).

Definition check_ech_config_list (list : bytes) : comp bytes () :=
  '(configs, whole) ← ok_or (f_u16_prefixed list) malformed;
  if is_empty configs || negb (is_empty whole) then Err malformed else
  picked ← picked_config configs;
  match picked with
  | Some key => if blen key =? X25519_PUBLIC_KEY_LEN then Ok () else Err bad_key_length
  | None => Err none_offered
  end.

Definition ensure_offerable (list : bytes) : comp AetherError () :=
  map_err (λ reason, EEch (lit "the ECH key cannot be offered: " ++ reason)) (check_ech_config_list list).

Definition usable_retry (retry : bytes) : option bytes :=
  match check_ech_config_list retry with Ok _ => Some retry | _ => None end.

(** ** The key an option asks for *)

Definition NO_ECH_KEY : bytes := lit "ECH is on but there is no ECH key to offer".

Record EchOption := mk_ech_option {
  flag : bytes; variable : bytes; purpose : bytes; refusal : bytes }.

Definition SESSION_ECH_OPTION : EchOption :=
  mk_ech_option (lit "--ech") (lit "AETHER_ECH") []
    (lit "stopping rather than send the server name in the clear").
Definition API_ECH_OPTION : EchOption :=
  mk_ech_option (lit "--ech") (lit "AETHER_ECH") (lit " for the WARP API")
    (lit "not asking it rather than send its name in the clear").

Section ech_key.
Context {B : Base64}.

Definition decode_ech_config_list (b64 : bytes) : comp AetherError bytes :=
  map_err (λ e, EEch (lit "not base64: " ++ e)) (base64_decode (trim b64)).

(** [fetch] is what the lookup gives. *)
Definition ech_key (option_ : EchOption) (setting : option bytes) (fetch : comp AetherError bytes)
  : comp AetherError (option bytes) :=
  let key :=
    match setting with
    | Some v =>
        if eq_ignore_ascii_case (trim v) (lit "auto") then Some fetch
        else if is_empty v then None
        else Some (map_err (λ e, match e with
                                 | EEch reason => EEch (lit "the " ++ flag option_ ++ lit " value is " ++ reason)
                                 | other => other
                                 end) (decode_ech_config_list v))
    | None => None
    end in
  match key with
  | None => Ok None
  | Some key =>
      match key ← key; _ ← ensure_offerable key; Ok key with
      | Ok key => Ok (Some key)
      | Err e =>
          Err (EEch (NO_ECH_KEY ++ purpose option_ ++ lit " (" ++ ech_reason e ++ lit "); " ++ refusal option_))
      | Panic => Panic
      end
  end.

End ech_key.

(** ** The key of the sessions of the process *)

(** [SESSION_ECH] and [SESSIONS]. *)
Record ech_globals := mk_globals { session_ech : option bytes; sessions : Z }.

Definition use_ech (ech : option bytes) (g : ech_globals) : ech_globals :=
  mk_globals ech (sessions g).

Definition session_start (ech : option bytes) (g : ech_globals) : ech_globals :=
  let g := mk_globals (session_ech g) (sessions g + 1) in
  if match ech with Some _ => true | None => false end || (sessions g =? 1) then use_ech ech g else g.

Definition session_drop (g : ech_globals) : ech_globals :=
  let g := mk_globals (session_ech g) (sessions g - 1) in
  if sessions g =? 0 then use_ech None g else g.

Definition adopt_ech_retry (retry : bytes) (g : ech_globals) : ech_globals :=
  match session_ech g with
  | Some _ => mk_globals (Some retry) (sessions g)
  | None => g
  end.

(** ** Options on the wire *)

(** The base-128 digits of an arc, the last one without the top bit. *)
Fixpoint base128_go (fuel : nat) (value : Z) (acc : bytes) : bytes :=
  match fuel with
  | O => acc
  | S fuel =>
      if value >? 0
      then base128_go fuel (Z.shiftr value 7) (Z.lor 0x80 (Z.land value 0x7f) :: acc)
      else acc
  end.
Definition base128 (value : Z) : bytes :=
  base128_go 10 (Z.shiftr value 7) [Z.land value 0x7f].

Definition arc_bytes (arc : bytes) : option bytes :=
  if is_empty arc || negb (forallb is_ascii_digit arc)
     || ((1 <? blen arc) && starts_with [48] arc) then None
  else value ← parse_u64 arc; Some (base128 value).

Fixpoint arcs_bytes (arcs : list bytes) : option bytes :=
  match arcs with
  | [] => Some []
  | arc :: arcs => e ← arc_bytes arc; es ← arcs_bytes arcs; Some (e ++ es)
  end.

Section options.
Context {D : DebugText}.

Definition bad_anchor (id : bytes) : AetherError :=
  ETls (debug_str id ++ lit " is no trust anchor ID (a relative OID in dotted decimal, such as 11129.9.1)").

Fixpoint anchors_bytes (ids : list bytes) : comp AetherError bytes :=
  match ids with
  | [] => Ok []
  | id :: ids =>
      encoded ← ok_or (arcs_bytes (split 46 id)) (bad_anchor id);
      if blen encoded <=? 255 then
        rest ← anchors_bytes ids; Ok ([blen encoded] ++ encoded ++ rest)
      else Err (bad_anchor id)
  end.

Definition trust_anchor_ids (list : bytes) : comp AetherError bytes := anchors_bytes (split 58 list).

Definition alps_new_codepoint (codepoint : bytes) : comp AetherError bool :=
  if str_eqb codepoint (lit "new") then Ok true
  else if str_eqb codepoint (lit "old") then Ok false
  else Err (ETls (debug_str codepoint ++ lit " is no ALPS codepoint: new (0x44cd, Chrome's now) or old (0x4469, Chrome 120's)")).

Definition server_padding (value : bytes) : comp AetherError Z :=
  ok_or (parse_u16 value) (ETls (debug_str value ++ lit " is no number of bytes from 0 to 65535")).

End options.

(** The protocols of an ALPN list. *)
Definition alpn_step (alpn : bytes) (s : Z * list bytes)
  : round (Z * list bytes) (comp () (list bytes)) :=
  let '(pos, protocols) := s in
  if pos <? blen alpn then
    match n ← index alpn pos;
          let stop := Z.min (pos + 1 + n) (blen alpn) in
          p ← index_range alpn (pos + 1) stop;
          Ok (p, stop) with
    | Ok (p, stop) => Next (stop, protocols ++ [p])
    | Err e => Done (Err e)
    | Panic => Done Panic
    end
  else Done (Ok protocols).

Definition alpn_protocols (alpn : bytes) : comp () (list bytes) :=
  loop (λ s, Z.to_nat (blen alpn - s.1)) (alpn_step alpn) Panic (0, []).

Definition ALPS_PROTOCOLS : list bytes := [lit "h2"; lit "h3"].

(** ** Reading what was written *)

Lemma f_take_app (a r : bytes) : f_take (blen a) (a ++ r) = Some (a, r).
Proof.
  unfold f_take. destruct (Z.ltb_spec (blen (a ++ r)) (blen a)); [blia|].
  by rewrite takez_app, dropz_app.
Qed.

Lemma f_u16_app v r : u16 v → f_u16 (be_bytes 2 v ++ r) = Some (v, r).
Proof.
  intros Hv. unfold f_u16. rewrite (f_take_app (be_bytes 2 v) r : f_take 2 _ = _).
  cbn [mbind option_bind]. by rewrite be_val_small.
Qed.

Lemma f_u8_app v r : f_u8 (v :: r) = Some (v, r).
Proof. unfold f_u8. by rewrite (f_take_app [v] r : f_take 1 (v :: r) = _). Qed.

Lemma f_u16_prefixed_app a r :
  u16 (blen a) → f_u16_prefixed (be_bytes 2 (blen a) ++ a ++ r) = Some (a, r).
Proof. intros Ha. unfold f_u16_prefixed. rewrite f_u16_app by done. apply f_take_app. Qed.

Lemma f_u8_prefixed_app a r : f_u8_prefixed (blen a :: a ++ r) = Some (a, r).
Proof. unfold f_u8_prefixed. rewrite f_u8_app. apply f_take_app. Qed.

Lemma f_take_shorter n f a r : f_take n f = Some (a, r) → (length r ≤ length f)%nat.
Proof.
  unfold f_take. destruct (_ <? _); [done|]. intros [= <- <-]. unfold dropz. rewrite length_drop. lia.
Qed.

Lemma f_u16_shorter f v r : f_u16 f = Some (v, r) → (length r < length f)%nat.
Proof.
  unfold f_u16, f_take. destruct (Z.ltb_spec (blen f) 2); [done|]. cbn. intros [= _ <-].
  unfold dropz, blen in *. rewrite length_drop. lia.
Qed.

Lemma f_u16_prefixed_shorter f a r : f_u16_prefixed f = Some (a, r) → (length r < length f)%nat.
Proof.
  unfold f_u16_prefixed. destruct (f_u16 f) as [[n g]|] eqn:E; cbn; [|done].
  apply f_u16_shorter in E. intros ?%f_take_shorter. lia.
Qed.

#[export] Instance extension_decreasing : Decreasing (λ s, length s.1) extension_step.
Proof.
  intros [f m] s'. unfold extension_step. destruct (is_empty f); [done|].
  destruct (f_u16 f) as [[k g]|] eqn:E1; cbn; [|done].
  destruct (f_u16_prefixed g) as [[x h]|] eqn:E2; cbn; [|done]. intros [= <-].
  apply f_u16_shorter in E1. apply f_u16_prefixed_shorter in E2. cbn. lia.
Qed.

#[export] Instance suite_decreasing : Decreasing (λ s, length s.1) suite_step.
Proof.
  intros [f m] s'. unfold suite_step. destruct (is_empty f); [done|].
  destruct (f_u16 f) as [[k g]|] eqn:E1; cbn; [|done].
  destruct (f_u16 g) as [[x h]|] eqn:E2; cbn; [|done]. intros [= <-].
  apply f_u16_shorter in E1. apply f_u16_shorter in E2. cbn. lia.
Qed.

Lemma ech_config_shorter f c r : ech_config f = Some (c, r) → (length r < length f)%nat.
Proof.
  unfold ech_config. destruct (f_u16 f) as [[v g]|] eqn:E1; cbn [mbind option_bind]; [|done].
  destruct (f_u16_prefixed g) as [[x h]|] eqn:E2; cbn [mbind option_bind]; [|done].
  apply f_u16_shorter in E1. apply f_u16_prefixed_shorter in E2.
  intros H. assert (r = h) as ->; [|lia]. revert H.
  destruct (negb _); [by intros [= _ ->]|].
  intros H. repeat (simplify_option_eq; case_match); by simplify_option_eq.
Qed.

#[export] Instance config_decreasing : Decreasing (λ s, length s.1) config_step.
Proof.
  intros [f p] s'. unfold config_step. destruct (is_empty f); [done|].
  destruct (ech_config f) as [[c r]|] eqn:E; [|done]. intros [= <-]. cbn. by eapply ech_config_shorter.
Qed.

(** ** The list a server publishes *)

(** An ECHConfig, of the version the core knows or of another. *)
Inductive config_spec :=
| OtherVersion (version : Z) (contents : bytes)
| EchConfig (config_id kem : Z) (key : bytes) (suites : list (Z * Z)) (max_name : Z)
    (name : bytes) (extensions : list (Z * bytes)).

Definition suites_enc (ss : list (Z * Z)) : bytes :=
  concat ((λ s, be_bytes 2 s.1 ++ be_bytes 2 s.2) <$> ss).
Definition exts_enc (es : list (Z * bytes)) : bytes :=
  concat ((λ e, be_bytes 2 e.1 ++ be_bytes 2 (blen e.2) ++ e.2) <$> es).

Definition contents_enc (c : config_spec) : bytes :=
  match c with
  | OtherVersion _ contents => contents
  | EchConfig id kem key suites max_name name exts =>
      [id] ++ be_bytes 2 kem ++ be_bytes 2 (blen key) ++ key
      ++ be_bytes 2 (blen (suites_enc suites)) ++ suites_enc suites
      ++ [max_name] ++ [blen name] ++ name ++ be_bytes 2 (blen (exts_enc exts)) ++ exts_enc exts
  end.

Definition version_of (c : config_spec) : Z :=
  match c with OtherVersion v _ => v | EchConfig _ _ _ _ _ _ _ => ECH_CONFIG_VERSION end.

Definition config_enc (c : config_spec) : bytes :=
  be_bytes 2 (version_of c) ++ be_bytes 2 (blen (contents_enc c)) ++ contents_enc c.
Definition configs_enc (cs : list config_spec) : bytes := concat (config_enc <$> cs).
Definition list_enc (cs : list config_spec) : bytes :=
  be_bytes 2 (blen (configs_enc cs)) ++ configs_enc cs.

Definition config_ok (c : config_spec) : Prop :=
  u16 (version_of c) ∧ u16 (blen (contents_enc c)) ∧
  match c with
  | OtherVersion v _ => v ≠ ECH_CONFIG_VERSION
  | EchConfig _ kem key suites _ name exts =>
      u16 kem ∧ key ≠ [] ∧ suites ≠ [] ∧ name ≠ [] ∧
      Forall (λ s, u16 s.1 ∧ u16 s.2) suites ∧ Forall (λ e, u16 e.1) exts
  end.

(** The key a handshake offers from a config, if it offers one: no mandatory
    extension, X25519, and a cipher suite BoringSSL has. *)
Definition offers (c : config_spec) : option bytes :=
  match c with
  | OtherVersion _ _ => None
  | EchConfig _ kem key suites _ name exts =>
      if valid_public_name name
         && forallb (λ e, Z.land e.1 0x8000 =? 0) exts
         && (kem =? HPKE_DHKEM_X25519_HKDF_SHA256)
         && existsb (λ s, (s.1 =? HPKE_HKDF_SHA256) && existsb (Z.eqb s.2) HPKE_AEADS) suites
      then Some key else None
  end.

Fixpoint first_offer (cs : list config_spec) : option bytes :=
  match cs with
  | [] => None
  | c :: cs => match offers c with Some key => Some key | None => first_offer cs end
  end.

Lemma be_bytes_2_not_empty v r : is_empty (be_bytes 2 v ++ r) = false.
Proof. done. Qed.

Lemma mandatory_go es m :
  Forall (λ e, u16 e.1 ∧ u16 (blen e.2)) es →
  loop (λ s, length s.1) extension_step None (exts_enc es, m)
  = Some (m || negb (forallb (λ e, Z.land e.1 0x8000 =? 0) es)).
Proof.
  intros Hes. revert m. induction Hes as [|[k v] es [Hk Hv] _ IH]; intros m.
  - rewrite loop_unfold by apply _. cbn. by rewrite orb_false_r.
  - rewrite loop_unfold by apply _. unfold extension_step at 1.
    change (exts_enc ((k, v) :: es)) with ((be_bytes 2 k ++ be_bytes 2 (blen v) ++ v) ++ exts_enc es).
    rewrite <- !app_assoc, be_bytes_2_not_empty, f_u16_app by done. cbn [mbind option_bind].
    rewrite f_u16_prefixed_app by done. cbn [mbind option_bind]. rewrite IH. cbn [forallb fst].
    by rewrite negb_andb, orb_assoc.
Qed.

Lemma suite_go ss m :
  Forall (λ s, u16 s.1 ∧ u16 s.2) ss →
  loop (λ s, length s.1) suite_step None (suites_enc ss, m)
  = Some (m || existsb (λ s, (s.1 =? HPKE_HKDF_SHA256) && existsb (Z.eqb s.2) HPKE_AEADS) ss).
Proof.
  intros Hss. revert m. induction Hss as [|[k v] ss [Hk Hv] _ IH]; intros m.
  - rewrite loop_unfold by apply _. cbn. by rewrite orb_false_r.
  - rewrite loop_unfold by apply _. unfold suite_step at 1.
    change (suites_enc ((k, v) :: ss)) with ((be_bytes 2 k ++ be_bytes 2 v) ++ suites_enc ss).
    rewrite <- !app_assoc, be_bytes_2_not_empty, f_u16_app by done. cbn [mbind option_bind].
    rewrite f_u16_app by done. cbn [mbind option_bind]. rewrite IH. cbn [existsb fst snd].
    by rewrite orb_assoc.
Qed.

Lemma suites_enc_mod ss : blen (suites_enc ss) mod 4 = 0.
Proof.
  replace (blen (suites_enc ss)) with (blen ss * 4); [by apply Z.mod_mul|].
  induction ss as [|s ss IH]; [done|].
  change (suites_enc (s :: ss)) with ((be_bytes 2 s.1 ++ be_bytes 2 s.2) ++ suites_enc ss).
  rewrite !blen_app, !blen_be_bytes, <- IH. blia.
Qed.

Lemma exts_lengths es : u16 (blen (exts_enc es)) → Forall (λ e, u16 e.1) es →
  Forall (λ e, u16 e.1 ∧ u16 (blen e.2)) es.
Proof.
  intros Hl Hes. induction Hes as [|e es He Hes IH]; [constructor|].
  change (exts_enc (e :: es)) with ((be_bytes 2 e.1 ++ be_bytes 2 (blen e.2) ++ e.2) ++ exts_enc es) in Hl.
  rewrite !blen_app, !blen_be_bytes in Hl. constructor.
  - split; [done|]. unfold u16 in *. blia.
  - apply IH. unfold u16 in *. blia.
Qed.

Lemma ech_config_spec c rest :
  config_ok c → ech_config (config_enc c ++ rest) = Some (offers c, rest).
Proof.
  intros (Hv & Hl & Hc). unfold ech_config, config_enc.
  rewrite <- !app_assoc, f_u16_app by done. cbn [mbind option_bind].
  rewrite f_u16_prefixed_app by done. cbn [mbind option_bind].
  destruct c as [v contents|id kem key suites mx name exts]; cbn [version_of contents_enc offers] in *.
  { destruct (Z.eqb_spec v ECH_CONFIG_VERSION); [done|]. done. }
  destruct Hc as (Hkem & Hkey & Hsu & Hname & Hss & Hes).
  rewrite !blen_app, !blen_be_bytes in Hl. change (blen [id]) with 1 in Hl.
  change (blen [mx]) with 1 in Hl. change (blen [blen name]) with 1 in Hl.
  assert (u16 (blen key) ∧ u16 (blen (suites_enc suites)) ∧ u16 (blen (exts_enc exts))) as (H1 & H2 & H3)
    by (unfold u16 in *; blia).
  cbn [Z.eqb Pos.eqb negb ECH_CONFIG_VERSION]. cbn [app]. rewrite f_u8_app. cbn [mbind option_bind].
  rewrite f_u16_app by done. cbn [mbind option_bind].
  rewrite f_u16_prefixed_app by done. cbn [mbind option_bind].
  rewrite f_u16_prefixed_app by done. cbn [mbind option_bind].
  rewrite f_u8_app. cbn [mbind option_bind]. rewrite f_u8_prefixed_app. cbn [mbind option_bind].
  pose proof (f_u16_prefixed_app (exts_enc exts) [] H3) as Hx. rewrite app_nil_r in Hx.
  rewrite Hx. cbn [mbind option_bind].
  assert (is_empty key = false) as -> by (by destruct key).
  assert (is_empty name = false) as -> by (by destruct name).
  assert (is_empty (suites_enc suites) = false) as -> by (by destruct suites).
  rewrite suites_enc_mod. cbn [orb negb Z.eqb is_empty].
  destruct (valid_public_name name); [|done]. cbn [negb andb].
  unfold mandatory_extension, usable_suite.
  rewrite mandatory_go, suite_go by (done || by apply exts_lengths). cbn [mbind option_bind orb].
  by rewrite negb_involutive.
Qed.

Lemma configs_go cs p :
  Forall config_ok cs →
  loop (λ s, length s.1) config_step Panic (configs_enc cs, p)
  = Ok (match p with Some key => Some key | None => first_offer cs end).
Proof.
  intros Hcs. revert p. induction Hcs as [|c cs Hc _ IH]; intros p.
  - rewrite loop_unfold by apply _. cbn. by destruct p.
  - rewrite loop_unfold by apply _. unfold config_step at 1.
    change (configs_enc (c :: cs)) with (config_enc c ++ configs_enc cs).
    assert (is_empty (config_enc c ++ configs_enc cs) = false) as -> by done.
    rewrite ech_config_spec, IH by done. cbn [first_offer]. by destruct p, (offers c).
Qed.

(** An ECHConfigList is accepted exactly when a handshake given it would
    offer ECH: for every list of configs, of known and unknown versions, the
    check picks the first config BoringSSL would use and demands a 32-byte
    X25519 key of it. *)
Theorem check_ech_config_list_spec (cs : list config_spec)
  (Hne : cs ≠ []) (Hcs : Forall config_ok cs) (Hl : u16 (blen (configs_enc cs))) :
  check_ech_config_list (list_enc cs) =
    match first_offer cs with
    | Some key => if blen key =? X25519_PUBLIC_KEY_LEN then Ok () else Err bad_key_length
    | None => Err none_offered
    end.
Proof.
  unfold check_ech_config_list, list_enc. pose proof (f_u16_prefixed_app (configs_enc cs) [] Hl) as Hx.
  rewrite app_nil_r in Hx. rewrite Hx. cbn [ok_or mbind comp_bind].
  assert (is_empty (configs_enc cs) = false) as -> by (by destruct cs).
  cbn [orb negb is_empty]. unfold picked_config. by rewrite configs_go.
Qed.

(** The check returns a verdict on any bytes: it neither panics nor runs on. *)
Lemma check_ech_config_list_total (list : bytes) : no_panic (check_ech_config_list list).
Proof.
  unfold check_ech_config_list. apply no_panic_bind; [apply no_panic_ok_or|]. intros [configs whole] _.
  destruct (_ || _); [done|]. apply no_panic_bind.
  - unfold picked_config. apply (loop_ind _ config_step (λ _, True) (λ _ r, no_panic r)); [| |done..].
    + intros [f p] r _. unfold config_step. destruct (is_empty f); [by intros [= <-]|].
      destruct (ech_config f) as [[]|]; [done|]. by intros [= <-].
    + done.
  - intros [key|] _; [|done]. by destruct (blen key =? _).
Qed.

(** ** The key of an option *)

(** With ECH asked for, the core never goes on without it: whatever the
    option holds and whatever the lookup and the base64 decoder give, the
    answer is a key that a handshake would offer, or an error that says so. *)
Theorem ech_key_or_error {B : Base64} (option_ : EchOption) (v : bytes) (fetch : comp AetherError bytes)
  (Hv : v ≠ []) (Hf : no_panic fetch) (Hb : ∀ s, no_panic (base64_decode s)) :
  (∃ key, ech_key option_ (Some v) fetch = Ok (Some key) ∧ check_ech_config_list key = Ok ()) ∨
  (∃ text, ech_key option_ (Some v) fetch = Err (EEch (NO_ECH_KEY ++ text))).
Proof.
  unfold ech_key. cbn zeta.
  assert (∃ key, no_panic key ∧ (if eq_ignore_ascii_case (trim v) (lit "auto") then Some fetch
    else if is_empty v then None else Some (map_err (λ e, match e with
      | EEch reason => EEch (lit "the " ++ flag option_ ++ lit " value is " ++ reason)
      | other => other end) (decode_ech_config_list v))) = Some key) as (key & Hk & ->).
  { destruct (eq_ignore_ascii_case _ _); [by eexists|]. destruct v; [done|]. eexists. split; [|done].
    unfold decode_ech_config_list. auto with rust. }
  destruct key as [key|e|]; cbn [mbind comp_bind]; [|by right; eexists|done].
  unfold ensure_offerable. destruct (check_ech_config_list key) as [[]|r|] eqn:E; cbn.
  - left. by exists key.
  - right. by eexists.
  - by apply check_ech_config_list_total in E.
Qed.

(** ** The sessions of the process *)

(** What happens to the process: a session starts with or without a key, the
    [n]-th of the live ones ends, a server hands back a key. *)
Inductive session_event := Start (ech : option bytes) | End_ (n : nat) | Adopt (retry : bytes).

(** The globals, and for every live session whether it was started with a
    key. *)
Definition session_run (s : ech_globals * list bool) (e : session_event) : ech_globals * list bool :=
  let '(g, live) := s in
  match e with
  | Start ech => (session_start ech g, bool_decide (ech ≠ None) :: live)
  | End_ n => if (n <? length live)%nat then (session_drop g, delete n live) else s
  | Adopt retry => (adopt_ech_retry retry g, live)
  end.

Definition process_start : ech_globals * list bool := (mk_globals None 0, []).

Definition sessions_inv (s : ech_globals * list bool) : Prop :=
  let '(g, live) := s in
  sessions g = blen live ∧ (live = [] → session_ech g = None) ∧
  (true ∈ live → session_ech g ≠ None).

Lemma session_run_inv s e : sessions_inv s → sessions_inv (session_run s e).
Proof.
  destruct s as [[key n] live], e as [ech|k|retry]; cbn [session_run sessions_inv sessions session_ech];
    intros (Hn & Hnil & Hkey).
  - unfold session_start. cbn [sessions session_ech use_ech].
    destruct ech as [k|]; cbn; [split_and!; [blia|done..]|]. destruct (Z.eqb_spec (n + 1) 1) as [E|E]; cbn.
    + split; [blia|]. split; [done|]. intros Hin. destruct live; [set_solver|blia].
    + split; [blia|]. split; [done|]. set_solver.
  - destruct (Nat.ltb_spec k (length live)) as [Hk|]; [|done]. unfold session_drop. cbn [sessions session_ech use_ech].
    assert (blen (delete k live) = n - 1) as Hl.
    { unfold blen in *. rewrite length_delete by (by apply lookup_lt_is_Some). lia. }
    destruct (Z.eqb_spec (n - 1) 0) as [E|E]; cbn.
    + split; [lia|]. split; [done|]. destruct (delete k live); [set_solver|blia].
    + split; [lia|]. split.
      * intros Hd. rewrite Hd, blen_nil in Hl. lia.
      * intros Hin. apply Hkey. by apply list_elem_of_delete_inv in Hin.
  - destruct key as [k|]; cbn; [|done]. split; [done|]. split; [|done]. intros H. by apply Hnil in H.
Qed.

(** The key of the sessions: however sessions start and end side by side
    and whatever keys servers hand back, the counter is the number of live
    sessions, the key is gone once the last of them ends, and while a session
    that was started with a key runs there is a key to offer. *)
Theorem session_key_lifetime (es : list session_event) :
  sessions_inv (fold_left session_run es process_start).
Proof.
  assert (sessions_inv process_start) as H by (split_and!; [done..|set_solver]).
  revert H. generalize process_start. induction es as [|e es IH]; intros s Hs; [done|].
  cbn. by apply IH, session_run_inv.
Qed.

(** ** Trust anchors *)

(** The arcs of a relative OID (X.690, 8.20), read from its bytes. *)
Fixpoint arcs_of (acc : Z) (bs : bytes) : list Z :=
  match bs with
  | [] => []
  | b :: bs =>
      let acc := acc * 128 + Z.land b 127 in
      if b <? 128 then acc :: arcs_of 0 bs else arcs_of acc bs
  end.

Lemma land_127 v : Z.land v 127 = v mod 128.
Proof. apply (Z.land_ones v 7). lia. Qed.

Lemma shiftr_7 v : Z.shiftr v 7 = v / 128.
Proof. by rewrite Z.shiftr_div_pow2. Qed.

Lemma lor_128 v : 0 ≤ v < 128 → Z.lor 128 v = 128 + v.
Proof.
  intros Hv. rewrite <- Z.add_lor_land. enough (Z.land 128 v = 0) by lia.
  apply Z.bits_inj'. intros n Hn. rewrite Z.land_spec, Z.bits_0.
  change 128 with (2 ^ 7). rewrite Z.pow2_bits_eqb by lia.
  destruct (Z.eqb_spec 7 n) as [<-|]; [|done]. cbn [andb].
  apply Z.testbit_false; [lia|]. rewrite Z.div_small by lia. done.
Qed.

Lemma base128_go_app n v t r : base128_go n v t ++ r = base128_go n v (t ++ r).
Proof. revert v t. induction n as [|n IH]; intros v t; cbn; [done|]. destruct (v >? 0); [|done]. apply IH. Qed.

Lemma arcs_of_go n v t : 0 ≤ v < 128 ^ Z.of_nat n → arcs_of 0 (base128_go n v t) = arcs_of v t.
Proof.
  revert v t. induction n as [|n IH]; intros v t Hv; cbn [base128_go].
  - by replace v with 0 by (cbn in Hv; lia).
  - destruct (Z.gtb_spec v 0); [|by replace v with 0 by lia].
    rewrite Nat2Z.inj_succ, Z.pow_succ_r in Hv by lia.
    rewrite shiftr_7, land_127. pose proof (Z.mod_pos_bound v 128 ltac:(lia)).
    pose proof (Z.div_mod v 128 ltac:(lia)).
    rewrite IH by (split; [apply Z.div_pos; lia|apply Z.div_lt_upper_bound; lia]).
    cbn [arcs_of]. rewrite lor_128 by lia. destruct (Z.ltb_spec (128 + v mod 128) 128); [lia|].
    f_equal. rewrite land_127. replace (128 + v mod 128) with (v mod 128 + 1 * 128) by lia.
    rewrite Z.mod_add, Z.mod_mod by lia. lia.
Qed.

Lemma arcs_of_base128 v r : 0 ≤ v < 2 ^ 64 → arcs_of 0 (base128 v ++ r) = v :: arcs_of 0 r.
Proof.
  intros Hv. unfold base128. rewrite base128_go_app, shiftr_7, arcs_of_go.
  - cbn [app arcs_of]. rewrite !land_127. pose proof (Z.mod_pos_bound v 128 ltac:(lia)).
    rewrite Z.mod_mod by lia. destruct (Z.ltb_spec (v mod 128) 128); [|lia].
    f_equal. pose proof (Z.div_mod v 128 ltac:(lia)). lia.
  - split; [apply Z.div_pos; lia|]. apply Z.div_lt_upper_bound; [lia|]. cbn. lia.
Qed.

Lemma arc_bytes_decimal v : 0 ≤ v < 2 ^ 64 → arc_bytes (decimal v) = Some (base128 v).
Proof.
  intros Hv. destruct (decimal_spec v) as (Hne & Hd & _ & Hz); [lia|]. unfold arc_bytes.
  rewrite Hd. destruct (decimal v) as [|d ds] eqn:E; [done|]. cbn [is_empty orb negb].
  assert ((1 <? blen (d :: ds)) && starts_with [48] (d :: ds) = false) as ->.
  { apply not_true_iff_false. intros [Hl (r & Hs)%starts_with_spec]%andb_true_iff.
    cbn in Hs. injection Hs as -> ->. specialize (Hz eq_refl). by injection Hz as ->. }
  unfold parse_u64. rewrite <- E, parse_decimal by lia. done.
Qed.

Lemma arcs_bytes_decimal arcs :
  Forall (λ v, 0 ≤ v < 2 ^ 64) arcs →
  ∃ e, arcs_bytes (decimal <$> arcs) = Some e ∧ arcs_of 0 e = arcs.
Proof.
  induction 1 as [|v arcs Hv _ (e & E & Ha)]; [by exists []|].
  exists (base128 v ++ e). cbn [fmap list_fmap arcs_bytes].
  rewrite arc_bytes_decimal by done. cbn [mbind option_bind].
  change (list_fmap _ _ decimal arcs) with (decimal <$> arcs). rewrite E. cbn [mbind option_bind].
  by rewrite arcs_of_base128, Ha.
Qed.

Definition anchor_text (arcs : list Z) : bytes := join [46] (decimal <$> arcs).
Definition anchor_fits (arcs : list Z) : Prop :=
  arcs ≠ [] ∧ Forall (λ v, 0 ≤ v < 2 ^ 64) arcs ∧
  ∀ e, arcs_bytes (decimal <$> arcs) = Some e → blen e ≤ 255.

Lemma anchor_split arcs :
  arcs ≠ [] → Forall (λ v, 0 ≤ v < 2 ^ 64) arcs → split 46 (anchor_text arcs) = decimal <$> arcs.
Proof.
  intros Hne Ha. apply split_join; [by destruct arcs|]. apply Forall_fmap.
  eapply Forall_impl; [done|]. intros v [Hv _]. by apply decimal_not.
Qed.

Lemma anchor_no_colon arcs :
  Forall (λ v, 0 ≤ v < 2 ^ 64) arcs → forallb (λ x, negb (x =? 58)) (anchor_text arcs) = true.
Proof.
  intros Ha. apply forallb_join; [done|]. apply Forall_fmap. eapply Forall_impl; [done|].
  intros v [Hv _]. by apply decimal_not.
Qed.

(** Trust anchor identifiers go on the wire as X.690 has them: for every
    list of relative OIDs in dotted decimal, the wire form is each OID's bytes
    behind their length, and reading the bytes back gives its arcs. *)
Theorem trust_anchor_ids_wire {D : DebugText} (ids : list (list Z))
  (Hne : ids ≠ []) (Hids : Forall anchor_fits ids) :
  ∃ encs, trust_anchor_ids (join [58] (anchor_text <$> ids))
            = Ok (concat ((λ e, blen e :: e) <$> encs)) ∧
          arcs_of 0 <$> encs = ids.
Proof.
  unfold trust_anchor_ids. rewrite split_join.
  - clear Hne. induction Hids as [|arcs ids (Hne & Ha & Hl) _ (encs & E & Hd)]; [by exists []|].
    destruct (arcs_bytes_decimal arcs Ha) as (e & Ee & Hde). exists (e :: encs). specialize (Hl e Ee).
    cbn [fmap list_fmap anchors_bytes]. rewrite anchor_split, Ee by done.
    cbn [ok_or mbind comp_bind]. destruct (Z.leb_spec (blen e) 255); [|lia].
    change (list_fmap _ _ anchor_text ids) with (anchor_text <$> ids). rewrite E.
    cbn [mbind comp_bind concat]. by rewrite Hde, <- Hd.
  - by destruct ids.
  - apply Forall_fmap. eapply Forall_impl; [done|]. intros arcs (_ & Ha & _). by apply anchor_no_colon.
Qed.

Definition sample_configs : list config_spec :=
  [OtherVersion 0xfe0a [1; 2; 3];
   EchConfig 7 0x0020 (replicate 32 9) [(1, 1); (1, 3)] 0 (lit "cloudflare-ech.com") [(0x0010, [1])]].

Lemma check_ech_config_list_spec_witness :
  first_offer sample_configs = Some (replicate 32 9) ∧
  check_ech_config_list (list_enc sample_configs) = Ok ().
Proof.
  split; [by vm_compute|]. rewrite (check_ech_config_list_spec sample_configs).
  - by vm_compute.
  - done.
  - repeat constructor; by vm_compute.
  - by_decision.
Defined.

(** Stand-ins for the crates, for evaluation. *)
Definition raw_base64 : Base64 := λ s, Ok s.
Definition plain_debug : DebugText := λ s, s.

Lemma ech_key_or_error_witness :
  @ech_key raw_base64 SESSION_ECH_OPTION (Some (lit "auto")) (Ok (list_enc sample_configs))
    = Ok (Some (list_enc sample_configs)) ∧
  ((∃ key, @ech_key raw_base64 SESSION_ECH_OPTION (Some (lit "auto")) (Ok (list_enc sample_configs))
      = Ok (Some key) ∧ check_ech_config_list key = Ok ()) ∨
   (∃ text, @ech_key raw_base64 SESSION_ECH_OPTION (Some (lit "auto")) (Ok (list_enc sample_configs))
      = Err (EEch (NO_ECH_KEY ++ text)))).
Proof. split; [by vm_compute|]. by apply (@ech_key_or_error raw_base64). Defined.

Lemma trust_anchor_ids_wire_witness :
  ∃ encs, @trust_anchor_ids plain_debug (join [58] (anchor_text <$> [[11129; 9; 1]; [32473; 300]]))
            = Ok (concat ((λ e, blen e :: e) <$> encs)) ∧
          arcs_of 0 <$> encs = [[11129; 9; 1]; [32473; 300]].
Proof.
  apply (@trust_anchor_ids_wire plain_debug).
  - done.
  - repeat constructor; try done; intros e; vm_compute; intros [= <-]; done.
Defined.
