(* ===== verification/Https.v ===== *)
(** * HTTPS answers

    src/aether/src/https.rs: the calls to the WARP API and to DNS-over-HTTPS
    resolvers.  The handshake with its ECH retry is a loop over what BoringSSL
    answers; the HTTP/1.1 answer is parsed as its bytes come in. *)

From stdpp Require Import strings.
From S2P Require Import Prelude Text Error Tls.

Definition MAX_BODY : Z := 512 * 1024.
Definition MAX_LINE : Z := 8 * 1024.

Record Request := mk_request {
  method : bytes; host : bytes; port : Z; address : option (bytes * Z); sni : option bytes;
  path : bytes; headers : list (bytes * bytes); body : option bytes }.

Definition authority (host : bytes) (port : Z) : bytes :=
  let host := if contains [58] host then lit "[" ++ host ++ lit "]" else host in
  if port =? 443 then host else host ++ lit ":" ++ decimal port.

Definition CRLF : bytes := [13; 10].

(** The request as [over_http1] writes it. *)
Definition http1_request (r : Request) : bytes :=
  method r ++ lit " " ++ path r ++ lit " HTTP/1.1" ++ CRLF
  ++ lit "Host: " ++ authority (host r) (port r) ++ CRLF
  ++ concat ((λ h, h.1 ++ lit ": " ++ h.2 ++ CRLF) <$> headers r)
  ++ match body r with
     | Some b => lit "Content-Length: " ++ decimal (blen b) ++ CRLF
     | None => []
     end
  ++ lit "Connection: close" ++ CRLF ++ CRLF
  ++ default [] (body r).

(** ** The handshake *)

(** What BoringSSL makes of a handshake offered a key or none. *)
Inductive handshake :=
| Connected (ech_accepted h2 : bool)
| Refused (message : bytes) (retry_configs : option bytes).

(** The environment of [exchange]: whether BoringSSL takes a list, and the
    handshake of the first and of the second attempt. *)
Record tls_env := mk_tls_env {
  set_list : bytes → option bytes;
  attempt : bool → option bytes → handshake }.

(** The loop of [exchange]: the key, whether it was replaced, and the keys the
    handshakes so far were given. *)
Definition exchange_step (env : tls_env) (where_ : bytes) (s : option bytes * bool * list (option bytes))
  : round (option bytes * bool * list (option bytes))
          (comp AetherError (option bytes * bool * bool * list (option bytes))) :=
  let '(ech, retried, tried) := s in
  match match ech with
        | Some list =>
            _ ← ensure_offerable list;
            match set_list env list with Some e => Err (ETls e) | None => Ok () end
        | None => Ok ()
        end with
  | Err e => Done (Err e)
  | Panic => Done Panic
  | Ok _ =>
      let tried := tried ++ [ech] in
      match attempt env retried ech with
      | Connected accepted h2 => Done (Ok (ech, accepted, h2, tried))
      | Refused message retry_configs =>
          let retry :=
            match ech with
            | Some _ =>
                if negb retried && contains (lit "ECH_REJECTED") message then
                  configs ← retry_configs;
                  if is_empty configs then None else usable_retry configs
                else None
            | None => None
            end in
          match retry with
          | Some retry => Next (Some retry, true, tried)
          | None => Done (Err (ETls (lit "handshake with " ++ where_ ++ lit ": " ++ message)))
          end
      end
  end.

(** Up to the request: the key kept, whether HTTP/2 was picked, and the keys
    tried. *)
Definition exchange_tls (env : tls_env) (where_ : bytes) (ech : option bytes)
  : comp AetherError (option bytes * bool * list (option bytes)) :=
  '(ech, accepted, h2, tried) ←
    loop (λ s : option bytes * bool * list (option bytes), if s.1.2 then 0%nat else 1%nat) (exchange_step env where_) Panic (ech, false, []);
  if match ech with Some _ => true | None => false end && negb accepted
  then Err (EEch (lit "the handshake went without ECH"))
  else Ok (ech, h2, tried).

(** The body of an HTTP/2 answer, from its data frames. *)
Fixpoint h2_body (data : bytes) (frames : list bytes) : comp AetherError bytes :=
  match frames with
  | [] => Ok data
  | chunk :: frames =>
      let data := data ++ chunk in
      if blen data >? MAX_BODY then Err (EApi (lit "the answer is too large"))
      else h2_body data frames
  end.

(** ** A chunked body *)

Record Dechunker := mk_dechunker {
  d_at : Z; d_searched : Z; d_data : option Z; d_trailer : bool; d_done : bool; d_joined : bytes }.

Definition dechunker_default : Dechunker := mk_dechunker 0 0 None false false [].

Definition bad_chunk (what : bytes) : AetherError := EApi (lit "a chunked answer with " ++ what).
Definition line_too_long : AetherError := bad_chunk (lit "a line too long").

(** Where [p] next stands in [body], looking from [from] on:
    [body[from..].windows(n).position(..)] as an offset of [body]. *)
Definition search (p : bytes) (from : Z) (body : bytes) : comp AetherError (option Z) :=
  rest ← index_range body from (blen body);
  Ok (Z.add from <$> find p rest).

Section http1.
Context {w : arch}.

(** The chunk size in front of the first semicolon. *)
Definition chunk_size (line : bytes) : option Z :=
  text ← from_utf8 line;
  let size := trim (default [] (head (split 59 text))) in
  parse_hex (usize_max w) size.

(** One round of the loop of [advance]; leaving it keeps the state. *)
Definition chunk_step (body : bytes) (d : Dechunker)
  : round Dechunker (comp AetherError (Dechunker * bool)) :=
  if d_done d then Done (Ok (d, true)) else
  match d_data d with
  | Some size =>
      match end_ ← checked_add (d_at d) size; checked_add end_ 2 with
      | None => Done (Err (bad_chunk (lit "a chunk too large")))
      | Some end_ =>
          if blen body <? end_ then Done (Ok (d, false)) else
          match tail ← index_range body (end_ - 2) end_;
                data ← index_range body (d_at d) (end_ - 2);
                Ok (tail, data) with
          | Ok (tail, data) =>
              if negb (str_eqb tail CRLF) then Done (Err (bad_chunk (lit "no line end after a chunk")))
              else Next (mk_dechunker end_ end_ None (d_trailer d) (d_done d) (d_joined d ++ data))
          | Err e => Done (Err e)
          | Panic => Done Panic
          end
      end
  | None =>
      let from := Z.max (saturating_sub (d_searched d) 1) (d_at d) in
      match search CRLF from body with
      | Err e => Done (Err e)
      | Panic => Done Panic
      | Ok None =>
          if blen body - d_at d >? MAX_LINE then Done (Err line_too_long)
          else Done (Ok (mk_dechunker (d_at d) (blen body) None (d_trailer d) (d_done d) (d_joined d), false))
      | Ok (Some end_) =>
          match index_range body (d_at d) end_ with
          | Err e => Done (Err e)
          | Panic => Done Panic
          | Ok line =>
              let at_ := end_ + 2 in
              if d_trailer d
              then Next (mk_dechunker at_ at_ None (d_trailer d) (is_empty line) (d_joined d))
              else
                match chunk_size line with
                | None => Done (Err (bad_chunk (lit "a bad chunk size")))
                | Some size =>
                    if size =? 0
                    then Next (mk_dechunker at_ at_ None true (d_done d) (d_joined d))
                    else Next (mk_dechunker at_ at_ (Some size) (d_trailer d) (d_done d) (d_joined d))
                end
          end
      end
  end.

(** Every round moves [d_at] forward or sets [d_done]. *)
Definition chunk_measure (body : bytes) (d : Dechunker) : nat := Z.to_nat (blen body + 1 - d_at d).

Definition advance (d : Dechunker) (body : bytes) : comp AetherError (Dechunker * bool) :=
  loop (chunk_measure body) (chunk_step body) Panic d.

Definition dechunker_finish (d : Dechunker) : comp AetherError bytes :=
  if d_done d then Ok (d_joined d)
  else Err (EApi (lit "the chunked answer ended before its last chunk")).

(** ** The answer *)

Inductive Framing :=
| Length (length : Z)
| Chunked (d : Dechunker)
| Close.

Record Http1Head := mk_head {
  h_status : Z; h_fields : list (bytes * bytes); h_body_start : Z; h_framing : Framing }.

Record Http1Answer := mk_answer {
  a_raw : bytes; a_head_start : Z; a_searched : Z; a_head : option Http1Head }.

Definition answer_default : Http1Answer := mk_answer [] 0 0 None.

Definition http1_head (head_ : bytes) : comp AetherError (Z * list (bytes * bytes)) :=
  let ls := split_str CRLF (from_utf8_lossy head_) in
  let status_line := default [] (head ls) in
  status ← ok_or (token ← split_whitespace status_line !! 1%nat; parse_u16 token)
                 (EApi (lit "bad status line: " ++ status_line));
  let fields := omap (λ line, '(name, value) ← split_once 58 line; Some (trim name, trim value)) (tail ls) in
  Ok (status, fields).

Definition field (fields : list (bytes * bytes)) (wanted : bytes) : option bytes :=
  snd <$> head (filter (λ f, eq_ignore_ascii_case f.1 wanted = true) fields).

Definition framing (status : Z) (fields : list (bytes * bytes)) : comp AetherError Framing :=
  if (status =? 204) || (status =? 304) then Ok (Length 0) else
  if match field fields (lit "transfer-encoding") with
     | Some value => contains (lit "chunked") (to_ascii_lowercase value)
     | None => false
     end then Ok (Chunked dechunker_default) else
  match field fields (lit "content-length") with
  | Some value => Length <$> ok_or (parse_uint (usize_max w) value) (EApi (lit "bad Content-Length: " ++ value))
  | None => Ok Close
  end.

Definition HEAD_END : bytes := [13; 10; 13; 10].

(** One round of the search for the head: where it starts and how far the
    search went, or the head, or how far to go on next time. *)
Definition head_step (raw : bytes) (s : Z * Z)
  : round (Z * Z) (comp AetherError (Z * Z * option Http1Head)) :=
  let '(head_start, searched) := s in
  let from := Z.max (saturating_sub searched 3) head_start in
  match search HEAD_END from raw with
  | Err e => Done (Err e)
  | Panic => Done Panic
  | Ok None => Done (Ok (head_start, blen raw, None))
  | Ok (Some end_) =>
      match text ← index_range raw head_start end_; http1_head text with
      | Err e => Done (Err e)
      | Panic => Done Panic
      | Ok (status, fields) =>
          if (100 <=? status) && (status <? 200) && negb (status =? 101)
          then Next (end_ + 4, end_ + 4)
          else match framing status fields with
               | Err e => Done (Err e)
               | Panic => Done Panic
               | Ok f => Done (Ok (head_start, searched, Some (mk_head status fields (end_ + 4) f)))
               end
      end
  end.

Definition find_head (raw : bytes) (head_start searched : Z) : comp AetherError (Z * Z * option Http1Head) :=
  loop (λ s : Z * Z, Z.to_nat (blen raw + 1 - s.1)) (head_step raw) Panic (head_start, searched).

(** The body part of [push], once the head is there. *)
Definition push_body (raw : bytes) (h : Http1Head) : comp AetherError (Http1Head * bool) :=
  body ← index_range raw (h_body_start h) (blen raw);
  match h_framing h with
  | Length length => Ok (h, blen body >=? length)
  | Chunked d =>
      '(d, whole) ← advance d body;
      Ok (mk_head (h_status h) (h_fields h) (h_body_start h) (Chunked d), whole)
  | Close => Ok (h, false)
  end.

Definition push (a : Http1Answer) (bs : bytes) : comp AetherError (Http1Answer * bool) :=
  let raw := a_raw a ++ bs in
  if blen raw >? MAX_BODY then Err (EApi (lit "the answer is too large")) else
  '(head_start, searched, found) ←
    match a_head a with
    | Some h => Ok (a_head_start a, a_searched a, Some h)
    | None => find_head raw (a_head_start a) (a_searched a)
    end;
  match found with
  | None => Ok (mk_answer raw head_start searched None, false)
  | Some h =>
      '(h, whole) ← push_body raw h;
      Ok (mk_answer raw head_start searched (Some h), whole)
  end.

Definition finish (a : Http1Answer) : comp AetherError (Z * list (bytes * bytes) * bytes) :=
  match a_head a with
  | None => Err (EApi (if is_empty (a_raw a) then lit "empty response" else lit "truncated response head"))
  | Some h =>
      body ← index_range (a_raw a) (h_body_start h) (blen (a_raw a));
      body ← match h_framing h with
             | Length length =>
                 if blen body <? length
                 then Err (EApi (lit "the answer ended after " ++ decimal (blen body)
                                 ++ lit " of its " ++ decimal length ++ lit " bytes"))
                 else index_range body 0 length
             | Chunked d => dechunker_finish d
             | Close => Ok body
             end;
      Ok (h_status h, h_fields h, body)
  end.

(** The reading loop of [over_http1]: it stops at a whole answer or at the end
    of the connection. *)
Fixpoint read_answer (a : Http1Answer) (reads : list bytes)
  : comp AetherError (Z * list (bytes * bytes) * bytes) :=
  match reads with
  | [] => finish a
  | chunk :: reads =>
      '(a, whole) ← push a chunk;
      if (whole : bool) then finish a else read_answer a reads
  end.

End http1.

(** ** Searching goes on where it stopped *)

(** Nothing starts between [at_] and [k] bytes before [searched]: the part
    already searched holds no occurrence of a pattern of [k + 1] bytes. *)
Record searched_ok (p : bytes) (body : bytes) (at_ searched : Z) : Prop := {
  so_at : 0 ≤ at_ ≤ searched;
  so_len : searched ≤ blen body;
  so_clear : ∀ j, at_ ≤ j → j + blen p ≤ searched → ¬ occurs p body j }.

Section search.
Context (p : bytes).

Lemma search_ok body at_ :
  0 ≤ at_ ≤ blen body → search p at_ body = Ok (Z.add at_ <$> find p (dropz at_ body)).
Proof. intros H. unfold search. by rewrite index_range_suffix. Qed.

Lemma search_resume k body at_ searched :
  blen p = k + 1 → 0 ≤ k → searched_ok p body at_ searched →
  search p (Z.max (saturating_sub searched k) at_) body = search p at_ body.
Proof.
  intros Hp Hk [Ha Hl Hc]. unfold saturating_sub. rewrite !search_ok by lia. f_equal.
  apply find_skip; [lia..|]. intros j Hj. apply Hc; lia.
Qed.

Lemma searched_ok_here body at_ :
  0 < blen p → 0 ≤ at_ ≤ blen body → searched_ok p body at_ at_.
Proof. intros Hp H. split; [lia..|]. intros j ? ?. lia. Qed.

Lemma searched_ok_app body x at_ searched :
  searched_ok p body at_ searched → searched_ok p (body ++ x) at_ searched.
Proof.
  intros [Ha Hl Hc]. split; [done|rewrite blen_app; blia|]. intros j Hj Hs Ho.
  apply (Hc j Hj Hs). eapply occurs_prefix; [done|]. lia.
Qed.

(** A search that finds nothing has covered the buffer. *)
Lemma searched_ok_none body at_ :
  0 ≤ at_ ≤ blen body → search p at_ body = Ok None → searched_ok p body at_ (blen body).
Proof.
  intros Ha Hs. rewrite search_ok in Hs by done. injection Hs as Hs.
  destruct (find p (dropz at_ body)) eqn:E; [done|]. split; [lia..|]. intros j Hj _ Ho.
  rewrite find_None in E. apply (E (j - at_)). apply occurs_dropz; [lia..|].
  by replace (at_ + (j - at_)) with j by lia.
Qed.

Lemma search_found body at_ e :
  0 ≤ at_ ≤ blen body → search p at_ body = Ok (Some e) → at_ ≤ e ∧ e + blen p ≤ blen body.
Proof.
  intros Ha Hs. rewrite search_ok in Hs by done. injection Hs as Hs.
  destruct (find p (dropz at_ body)) as [o|] eqn:E; [|done]. injection Hs as <-.
  apply find_bounds in E as [? Ho]. rewrite blen_dropz in Ho by lia. lia.
Qed.

Lemma search_found_app body x at_ e :
  0 ≤ at_ ≤ blen body → search p at_ body = Ok (Some e) → search p at_ (body ++ x) = Ok (Some e).
Proof.
  intros Ha Hs. rewrite search_ok in Hs |- * by (rewrite ?blen_app; blia). injection Hs as Hs.
  destruct (find p (dropz at_ body)) as [o|] eqn:E; [|done]. injection Hs as <-.
  rewrite dropz_app_l by lia. by rewrite (find_app _ _ _ _ E).
Qed.
End search.

(** ** The chunked body *)

(** A chunk: its size line (with any extensions) and its data. *)
Definition chunk_enc (c : bytes * bytes) : bytes := c.1 ++ CRLF ++ c.2 ++ CRLF.
Definition chunked_enc (cs : list (bytes * bytes)) (last_ : bytes) (trailer : list bytes) : bytes :=
  concat (chunk_enc <$> cs) ++ last_ ++ CRLF ++ concat ((λ l, l ++ CRLF) <$> trailer) ++ CRLF.

Section dechunker.
Context {w : arch}.

Definition chunk_ok (c : bytes * bytes) : Prop :=
  contains CRLF c.1 = false ∧ chunk_size c.1 = Some (blen c.2) ∧ c.2 ≠ [].

(** What a chunked body has ahead of a line: whole chunks, and for a line of the
    trailer the last size and the fields before it. *)
Definition ahead (trailer : bool) (pre : bytes) : Prop :=
  ∃ cs, Forall chunk_ok cs ∧
    if trailer then
      ∃ last_ fields, contains CRLF last_ = false ∧ chunk_size last_ = Some 0 ∧
        Forall (λ l, l ≠ [] ∧ contains CRLF l = false) fields ∧
        pre = concat (chunk_enc <$> cs) ++ last_ ++ CRLF ++ concat ((λ l, l ++ CRLF) <$> fields)
    else pre = concat (chunk_enc <$> cs).

(** A line of the body, the size of a chunk or a field of the trailer, that is
    longer than [MAX_LINE] and has not ended. *)
Definition long_line (body : bytes) : Prop :=
  ∃ trailer pre l, body = pre ++ l ∧ ahead trailer pre ∧ contains CRLF l = false ∧ MAX_LINE < blen l.

(** Where the decoder stands. *)
Definition framed (d : Dechunker) (body : bytes) : Prop :=
  d_done d = true ∨
  ∃ pre rest, body = pre ++ rest ∧ d_at d = blen pre ∧
    match d_data d with
    | Some size => d_trailer d = false ∧
        ∃ p l, ahead false p ∧ contains CRLF l = false ∧ chunk_size l = Some size ∧ 0 < size ∧ pre = p ++ l ++ CRLF
    | None => ahead (d_trailer d) pre
    end.

(** What holds of the decoder between calls: it has searched the line it
    stands in, and the chunk it stands in has a size. *)
Record dechunker_ok (d : Dechunker) (body : bytes) : Prop := {
  do_searched : searched_ok CRLF body (d_at d) (d_searched d);
  do_here : d_data d ≠ None ∨ d_done d = true → d_searched d = d_at d;
  do_size : ∀ size, d_data d = Some size → 0 ≤ size }.

Lemma dechunker_ok_app d body x : dechunker_ok d body → dechunker_ok d (body ++ x).
Proof. intros [H1 H2 H3]. split; [by apply searched_ok_app|done..]. Qed.

Lemma dechunker_ok_at d body : dechunker_ok d body → 0 ≤ d_at d ≤ blen body.
Proof. intros [[? ? _] _ _]. lia. Qed.

(** The line at [d_at], as the step looks for it. *)
Lemma dechunker_search d body :
  dechunker_ok d body →
  search CRLF (Z.max (saturating_sub (d_searched d) 1) (d_at d)) body = search CRLF (d_at d) body.
Proof. intros [H _ _]. by apply search_resume. Qed.

Lemma hex_go_nonneg max acc s v : 0 ≤ acc → hex_go max acc s = Some v → 0 ≤ v.
Proof.
  revert acc. induction s as [|d s IH]; intros acc Ha; cbn; [by intros [= <-]|].
  destruct (hex_value d) as [x|] eqn:E; [|done]. destruct (_ <=? _); [|done]. apply IH.
  unfold hex_value, is_ascii_digit in E.
  destruct (Z.leb_spec 48 d), (Z.leb_spec d 57), (Z.leb_spec 97 d), (Z.leb_spec d 102),
    (Z.leb_spec 65 d), (Z.leb_spec d 70); cbn in E; simplify_eq; lia.
Qed.

Lemma chunk_size_nonneg line size : chunk_size line = Some size → 0 ≤ size.
Proof.
  unfold chunk_size. destruct (from_utf8 line); cbn; [|done]. unfold parse_hex.
  destruct (is_empty _); [done|]. by apply hex_go_nonneg.
Qed.

Lemma framed_app d body x : framed d body → framed d (body ++ x).
Proof. intros [?|(pre & rest & -> & H)]; [by left|right]. exists pre, (rest ++ x). by rewrite app_assoc. Qed.

Lemma framed_default body : framed dechunker_default body.
Proof. right. exists [], body. split_and!; [done..|]. by exists []. Qed.

(** The line a search finds. *)
Lemma line_found pre rest e : search CRLF (blen pre) (pre ++ rest) = Ok (Some e) →
  ∃ l r, rest = l ++ CRLF ++ r ∧ e = blen pre + blen l ∧ contains CRLF l = false ∧
    index_range (E := AetherError) (pre ++ rest) (blen pre) e = Ok l.
Proof.
  rewrite search_ok by blia. rewrite dropz_app. unfold find. destruct (split_at_first CRLF rest) as [[a b]|] eqn:E; [|done].
  intros [= <-]. pose proof (split_at_first_minimal _ _ _ _ E) as Hmin. apply split_at_first_Some in E as ->.
  exists a, b. split_and!; [done|done| |].
  - apply not_true_iff_false. intros (u & v & ->)%contains_spec. specialize (Hmin u (v ++ CRLF ++ b)).
    rewrite <- !app_assoc in Hmin. specialize (Hmin eq_refl). rewrite !length_app in Hmin. cbn in Hmin. lia.
  - unfold index_range. rewrite (suffix_at_slice _ _ a (CRLF ++ b)); [done|by exists pre|done].
Qed.

Lemma line_missing pre rest : search CRLF (blen pre) (pre ++ rest) = Ok None → contains CRLF rest = false.
Proof.
  rewrite search_ok by blia. rewrite dropz_app. unfold find, contains. by destruct (split_at_first CRLF rest) as [[]|].
Qed.

Lemma ahead_chunk p l data : ahead false p → contains CRLF l = false → chunk_size l = Some (blen data) → data ≠ [] →
  ahead false (p ++ chunk_enc (l, data)).
Proof.
  intros (cs & Hcs & ->) Hl Hs Hd. exists (cs ++ [(l, data)]). split.
  - apply Forall_app_2; [done|]. by repeat constructor.
  - rewrite fmap_app, concat_app. cbn [fmap list_fmap concat]. by rewrite app_nil_r.
Qed.

Lemma ahead_field p l : ahead true p → l ≠ [] → contains CRLF l = false → ahead true (p ++ l ++ CRLF).
Proof.
  intros (cs & Hcs & last_ & fields & H1 & H2 & H3 & ->) Hne Hl. exists cs. split; [done|]. exists last_, (fields ++ [l]).
  split_and!; [done|done|apply Forall_app_2; [done|by repeat constructor]|]. rewrite fmap_app, concat_app. cbn [fmap list_fmap concat].
  rewrite app_nil_r. by rewrite <- !app_assoc.
Qed.

Lemma ahead_last p l : ahead false p → contains CRLF l = false → chunk_size l = Some 0 → ahead true (p ++ l ++ CRLF).
Proof.
  intros (cs & Hcs & ->) Hl Hs. exists cs. split; [done|]. exists l, []. split_and!; [done|done|constructor|].
  cbn [fmap list_fmap concat]. by rewrite app_nil_r.
Qed.

(** The data of a chunk that has come whole. *)
Lemma data_found (pre rest tail data : bytes) size : 0 ≤ size →
  index_range (E := AetherError) (pre ++ rest) (blen pre + size + 2 - 2) (blen pre + size + 2) = Ok tail →
  index_range (E := AetherError) (pre ++ rest) (blen pre) (blen pre + size + 2 - 2) = Ok data →
  blen data = size ∧ ∃ r, rest = data ++ tail ++ r.
Proof.
  intros Hs. unfold index_range. destruct (slice _ _ (blen pre + size + 2)) as [t|] eqn:Et; [|done]. intros [= <-].
  destruct (slice _ (blen pre) _) as [d|] eqn:Ed; [|done]. intros [= <-].
  apply slice_Some in Et as (_ & _ & Hlt & r & Ht). apply slice_Some in Ed as (_ & _ & Hld & r' & Hd). split; [lia|].
  pose proof (suffix_at_det _ _ _ _ Hd (ex_intro _ pre (conj eq_refl eq_refl))) as <-. exists r. f_equal.
  apply (suffix_at_det (pre ++ d ++ r') (blen pre + size + 2 - 2)); [|done]. exists (pre ++ d). split; [by rewrite app_assoc|blia].
Qed.

(** A round keeps the invariant and moves forward. *)
Lemma chunk_step_next d d' body :
  dechunker_ok d body → chunk_step body d = Next d' → dechunker_ok d' body ∧ d_at d < d_at d'.
Proof.
  intros Hd. pose proof (dechunker_ok_at _ _ Hd) as Hat. unfold chunk_step.
  destruct (d_done d) eqn:Edone; [done|]. destruct (d_data d) as [size|] eqn:Ed.
  - pose proof (do_size _ _ Hd _ Ed) as Hs. unfold checked_add.
    destruct (d_at d + size <=? _); cbn [mbind option_bind]; [|done].
    destruct (d_at d + size + 2 <=? _); [|done].
    destruct (Z.ltb_spec (blen body) (d_at d + size + 2)); [done|].
    destruct (index_range_ok (E := AetherError) body (d_at d + size + 2 - 2) (d_at d + size + 2)) as (t & -> & _); [lia..|].
    destruct (index_range_ok (E := AetherError) body (d_at d) (d_at d + size + 2 - 2)) as (s & -> & _); [lia..|].
    cbn [mbind comp_bind]. destruct (negb _); [done|]. intros [= <-]. cbn. split; [|lia].
    split; cbn; [apply searched_ok_here; [done|lia]|done..].
  - rewrite dechunker_search by done.
    destruct (search CRLF (d_at d) body) as [[e|]| |] eqn:Es; [|by destruct (_ >? _)|done..].
    apply search_found in Es as [He Hb]; [|lia]. change (blen CRLF) with 2 in Hb.
    destruct (index_range_ok (E := AetherError) body (d_at d) e) as (line & -> & _); [lia..|].
    destruct (d_trailer d).
    { intros [= <-]. cbn. split; [|lia]. split; cbn; [apply searched_ok_here; [done|lia]|done..]. }
    destruct (chunk_size line) as [size|] eqn:Ec; [|done]. apply chunk_size_nonneg in Ec.
    destruct (size =? 0); intros [= <-]; cbn; (split; [|lia]);
      (split; cbn; [apply searched_ok_here; [done|lia]|done|naive_solver]).
Qed.

(** A round stands where the encoding of a chunked body says. *)
Lemma chunk_step_framed d d' body :
  dechunker_ok d body → framed d body → chunk_step body d = Next d' → framed d' body.
Proof.
  intros Hd [Hdone|(pre & rest & -> & Hat & Hf)]; unfold chunk_step; [by rewrite Hdone|].
  destruct (d_done d) eqn:Edone; [done|]. destruct (d_data d) as [size|] eqn:Ed.
  - destruct Hf as (Htr & p & l & Hp & Hl & Hsz & Hpos & ->). set (pre := p ++ l ++ CRLF) in *.
    destruct (end_ ← checked_add (d_at d) size; checked_add end_ 2) as [e|] eqn:Ee; [|done].
    assert (e = d_at d + size + 2) as ->.
    { revert Ee. unfold checked_add. destruct (_ <=? _); cbn; [|done]. destruct (_ <=? _); [|done]. by intros [= <-]. }
    destruct (_ <? _); [done|]. rewrite Hat. destruct (index_range _ (_ - 2) _) as [tail| |] eqn:E1; cbn [mbind comp_bind]; [|done..].
    destruct (index_range _ (blen pre) _) as [data| |] eqn:E2; cbn [mbind comp_bind]; [|done..].
    destruct (data_found pre rest tail data size ltac:(lia) E1 E2) as (Hlen & r0 & ->).
    destruct (str_eqb tail CRLF) eqn:Etail; cbn [negb]; [apply str_eqb_eq in Etail as ->|done]. intros [= <-]. right.
    exists (pre ++ data ++ CRLF), r0. cbn [d_at d_data d_trailer]. rewrite Htr. split_and!.
    + by rewrite <- !app_assoc.
    + rewrite !blen_app. change (blen CRLF) with 2. lia.
    + unfold pre. rewrite <- !app_assoc. apply (ahead_chunk p l data); [done|done|by rewrite Hlen|]. intros ->. unfold blen in Hlen. cbn in Hlen. lia.
  - rewrite dechunker_search by done. rewrite Hat.
    destruct (search CRLF (blen pre) (pre ++ rest)) as [[e|]| |] eqn:Es; [|by destruct (_ >? _)|done..].
    apply line_found in Es as (l & r0 & -> & -> & Hl & ->).
    assert ((pre ++ l ++ CRLF ++ r0) = (pre ++ l ++ CRLF) ++ r0) as Eb by (by rewrite <- !app_assoc).
    assert (blen pre + blen l + 2 = blen (pre ++ l ++ CRLF)) as En by (rewrite !blen_app; change (blen CRLF) with 2; lia).
    destruct (d_trailer d) eqn:Et.
    { intros [= <-]. destruct (is_empty l) eqn:Ee; [by left|]. right. exists (pre ++ l ++ CRLF), r0. cbn [d_at d_data d_trailer].
      split_and!; [done|done|]. apply ahead_field; [done|by intros ->|done]. }
    destruct (chunk_size l) as [size|] eqn:Ec; [|done]. pose proof (chunk_size_nonneg _ _ Ec).
    destruct (Z.eqb_spec size 0) as [->|Hne]; intros [= <-]; right; exists (pre ++ l ++ CRLF), r0; cbn [d_at d_data d_trailer];
      (split; [done|]; split; [done|]); [by apply ahead_last|]. split; [done|]. exists pre, l. split_and!; [done..|lia|done].
Qed.

(** A line that is given up is too long. *)
Lemma framed_long d body : framed d body → d_done d = false → d_data d = None →
  search CRLF (d_at d) body = Ok None → MAX_LINE < blen body - d_at d → long_line body.
Proof.
  intros [Hdone|(pre & rest & -> & Hat & Hf)] Edone Ed Es Hlong; [congruence|]. rewrite Ed in Hf. rewrite Hat in *.
  exists (d_trailer d), pre, rest. split_and!; [done|done|by eapply line_missing|]. rewrite blen_app in Hlong. lia.
Qed.

#[local] Instance chunk_decreasing body :
  DecreasingOn (λ d, dechunker_ok d body) (chunk_measure body) (chunk_step body).
Proof.
  intros d d' Hd E. destruct (chunk_step_next _ _ _ Hd E) as [Hd' Hlt]. split; [done|].
  pose proof (dechunker_ok_at _ _ Hd). unfold chunk_measure. lia.
Qed.

Lemma advance_unfold d body :
  dechunker_ok d body →
  advance d body = match chunk_step body d with Done r => r | Next d' => advance d' body end.
Proof. intros Hd. unfold advance. rewrite (loop_unfold_on (λ d, dechunker_ok d body) (chunk_measure body) (chunk_step body)) by done. done. Qed.

(** More bytes do not change a round that did not have to wait for them; a
    line can only be too long where it is not finished. *)
Lemma chunk_step_app d body x :
  dechunker_ok d body → framed d body →
  match chunk_step body d with
  | Next d' => chunk_step (body ++ x) d = Next d'
  | Done (Ok (d', whole)) =>
      dechunker_ok d' body ∧ framed d' body ∧ chunk_step (body ++ x) d' = chunk_step (body ++ x) d ∧
      (whole = true → d' = d ∧ d_done d = true)
  | Done (Err e) => e = line_too_long ∧ long_line body ∨ chunk_step (body ++ x) d = Done (Err e)
  | Done Panic => False
  end.
Proof.
  intros Hd Hfr. pose proof (dechunker_ok_at _ _ Hd) as Hat. pose proof (blen_nonneg x) as Hx.
  assert (blen (body ++ x) = blen body + blen x) as Hlen by apply blen_app.
  unfold chunk_step at 1. destruct (d_done d) eqn:Edone; [done|].
  destruct (d_data d) as [size|] eqn:Ed.
  - pose proof (do_size _ _ Hd _ Ed) as Hs.
    assert (∀ b, chunk_step b d = _) as Hstep by (intros b; unfold chunk_step; rewrite Edone, Ed; reflexivity).
    destruct (end_ ← checked_add (d_at d) size; checked_add end_ 2) as [e|] eqn:Ee;
      [|right; by rewrite Hstep].
    assert (e = d_at d + size + 2) as Hee.
    { revert Ee. unfold checked_add. destruct (_ <=? _); cbn; [|done].
      destruct (_ <=? _); [|done]. by intros [= <-]. }
    destruct (Z.ltb_spec (blen body) e); [by split_and!|].
    destruct (index_range_ok (E := AetherError) body (e - 2) e) as (t & E1 & _); [lia..|].
    destruct (index_range_ok (E := AetherError) body (d_at d) (e - 2)) as (s & E2 & _); [lia..|].
    rewrite E1, E2. cbn [mbind comp_bind].
    rewrite Hstep. destruct (Z.ltb_spec (blen (body ++ x)) e); [lia|].
    rewrite !index_range_app, E1, E2 by lia. cbn [mbind comp_bind].
    destruct (negb _); [by right|done].
  - rewrite dechunker_search by done.
    pose proof (dechunker_search d (body ++ x) (dechunker_ok_app _ _ x Hd)) as Hs2.
    destruct (search CRLF (d_at d) body) as [[e|]| |] eqn:Es.
    + pose proof (search_found CRLF _ _ _ Hat Es) as [He Hb]. change (blen CRLF) with 2 in Hb.
      pose proof (search_found_app CRLF body x _ _ Hat Es) as Es2.
      unfold chunk_step. rewrite Edone, Ed, Hs2, Es2, index_range_app by lia.
      destruct (index_range_ok (E := AetherError) body (d_at d) e) as (line & -> & _); [lia..|].
      destruct (d_trailer d); [done|]. destruct (chunk_size line); [|by right].
      by destruct (_ =? 0).
    + destruct (Z.gtb_spec (blen body - d_at d) MAX_LINE); [left; split; [done|by eapply framed_long]|].
      set (d' := mk_dechunker _ _ _ _ _ _).
      assert (dechunker_ok d' body) as Hd'.
      { split; cbn; [by apply (searched_ok_none CRLF)|naive_solver|done]. }
      split; [done|]. split; [|split; [|done]].
      { destruct Hfr as [?|(pre & rest & ? & ? & Hf)]; [congruence|right]. exists pre, rest. by rewrite Ed in Hf. }
      pose proof (dechunker_search d' (body ++ x) (dechunker_ok_app _ _ x Hd')) as Hs3.
      unfold chunk_step. rewrite Hs2, Hs3. cbn [d' d_done d_data d_at d_trailer d_joined].
      by rewrite Edone, Ed.
    + by rewrite search_ok in Es by done.
    + by rewrite search_ok in Es by done.
Qed.

(** Going on after [body] with more bytes is the same as having had them all
    along. *)
Lemma advance_resume d body x :
  dechunker_ok d body → framed d body →
  match advance d body with
  | Ok (d', whole) =>
      dechunker_ok d' body ∧ framed d' body ∧ advance d' (body ++ x) = advance d (body ++ x) ∧
      (whole = true → d_done d' = true)
  | Err e => e = line_too_long ∧ long_line body ∨ advance d (body ++ x) = Err e
  | Panic => False
  end.
Proof.
  intros Hd. revert d Hd. unfold advance at 1.
  apply (loop_ind_on (λ d, dechunker_ok d body) (chunk_measure body) (chunk_step body)
    (λ d r, framed d body → match r with
            | Ok (d', whole) => dechunker_ok d' body ∧ framed d' body ∧ advance d' (body ++ x) = advance d (body ++ x) ∧
                (whole = true → d_done d' = true)
            | Err e => e = line_too_long ∧ long_line body ∨ advance d (body ++ x) = Err e
            | Panic => False
            end)).
  - intros d r Hd E Hf. pose proof (chunk_step_app d body x Hd Hf) as H. rewrite E in H.
    destruct r as [[d' whole]|e|]; [| |done].
    + destruct H as (Hd' & Hf' & Hs & Hw). split; [done|]. split; [done|]. split.
      * rewrite !advance_unfold by (by apply dechunker_ok_app). by rewrite Hs.
      * by intros [-> ->]%Hw.
    + destruct H as [H|H]; [by left|right].
      by rewrite advance_unfold, H by (by apply dechunker_ok_app).
  - intros d d' r Hd E IH Hf. pose proof (chunk_step_app d body x Hd Hf) as H. rewrite E in H.
    specialize (IH (chunk_step_framed _ _ _ Hd Hf E)). by rewrite (advance_unfold d (body ++ x)), H by (by apply dechunker_ok_app).
Qed.

End dechunker.

(** ** The answer *)

Section answer.
Context {w : arch}.

Lemma http1_head_no_panic t : no_panic (http1_head t).
Proof. unfold http1_head. apply no_panic_bind; [apply no_panic_ok_or|done]. Qed.

Lemma framing_ok status fields :
  match framing status fields with Ok (Chunked d) => d = dechunker_default | Panic => False | _ => True end.
Proof.
  unfold framing. destruct (_ || _); [done|].
  repeat (case_match; simplify_eq/=; try done);
    match goal with H : _ <$> ok_or (parse_uint ?m ?l) _ = _ |- _ => by destruct (parse_uint m l) end.
Qed.

Lemma head_step_next raw hs se s' :
  searched_ok HEAD_END raw hs se → head_step raw (hs, se) = Next s' →
  ∃ e, s' = (e, e) ∧ searched_ok HEAD_END raw e e ∧ hs < e.
Proof.
  intros Hs. pose proof Hs as [Ha Hl _]. unfold head_step. rewrite search_resume by done.
  destruct (search HEAD_END hs raw) as [[e|]| |] eqn:Es; [|done..].
  apply search_found in Es as [He Hb]; [|lia]. change (blen HEAD_END) with 4 in Hb.
  destruct (index_range_ok (E := AetherError) raw hs e) as (t & -> & _); [lia..|]. cbn [mbind comp_bind].
  destruct (http1_head t) as [[status fields]| |]; [|done..].
  destruct (_ && negb _); [|by destruct (framing status fields)]. intros [= <-].
  exists (e + 4). split; [done|]. split; [apply searched_ok_here; [done|lia]|lia].
Qed.

#[local] Instance head_decreasing raw :
  DecreasingOn (λ s : Z * Z, searched_ok HEAD_END raw s.1 s.2)
    (λ s : Z * Z, Z.to_nat (blen raw + 1 - s.1)) (head_step raw).
Proof.
  intros [hs se] s' Hs E. cbn in Hs. pose proof Hs as [Ha Hl _].
  destruct (head_step_next _ _ _ _ Hs E) as (e & -> & He & Hlt). split; [done|]. cbn. lia.
Qed.

Lemma find_head_unfold raw hs se :
  searched_ok HEAD_END raw hs se →
  find_head raw hs se =
    match head_step raw (hs, se) with Done r => r | Next (hs', se') => find_head raw hs' se' end.
Proof.
  intros Hs. unfold find_head.
  rewrite (loop_unfold_on (λ s : Z * Z, searched_ok HEAD_END raw s.1 s.2) _ (head_step raw)) by done.
  by destruct (head_step raw (hs, se)) as [[]|].
Qed.

(** The state a search for the head leaves. *)
Definition head_ok (raw : bytes) (h : Http1Head) : Prop :=
  0 ≤ h_body_start h ≤ blen raw ∧
  match h_framing h with
  | Chunked d => (dechunker_ok d (dropz (h_body_start h) raw) ∧ framed d (dropz (h_body_start h) raw)) ∧
      ∃ head_, takez (h_body_start h) raw = head_ ++ HEAD_END
  | _ => True
  end.

Definition same_found (a b : comp AetherError (Z * Z * option Http1Head)) : Prop :=
  match a, b with
  | Ok (_, _, Some h), Ok (_, _, Some h') => h = h'
  | a, b => a = b
  end.

Lemma same_found_refl a : same_found a a.
Proof. by destruct a as [[[? ?] [?|]]| |]. Qed.

Lemma dechunker_default_ok body : dechunker_ok dechunker_default body.
Proof. split; cbn; [apply searched_ok_here; [done|blia]|done..]. Qed.

(** What a head that was found ends with. *)
Lemma found_head_end raw hs e : 0 ≤ hs ≤ blen raw → search HEAD_END hs raw = Ok (Some e) →
  ∃ head_, takez (e + 4) raw = head_ ++ HEAD_END.
Proof.
  intros Hs. rewrite search_ok by done. destruct (find HEAD_END (dropz hs raw)) as [o|] eqn:E; [|done]. intros [= <-].
  apply find_Some in E as [(a & b & Eab & <-) _]. exists (takez hs raw ++ a). rewrite <- app_assoc.
  rewrite <- (takez_dropz hs raw) at 1. rewrite Eab. rewrite !(app_assoc (takez hs raw)), (app_assoc _ HEAD_END).
  replace (hs + blen a + 4) with (blen ((takez hs raw ++ a) ++ HEAD_END)); [apply takez_app|].
  rewrite !blen_app, blen_takez by lia. change (blen HEAD_END) with 4. lia.
Qed.

Lemma head_step_app raw x hs se :
  searched_ok HEAD_END raw hs se →
  match head_step raw (hs, se) with
  | Next s' => head_step (raw ++ x) (hs, se) = Next s'
  | Done (Ok (hs', se', None)) =>
      searched_ok HEAD_END raw hs' se' ∧
      same_found (find_head (raw ++ x) hs' se') (find_head (raw ++ x) hs se)
  | Done (Ok (hs', se', Some h)) =>
      head_ok raw h ∧ head_step (raw ++ x) (hs, se) = Done (Ok (hs', se', Some h))
  | Done (Err e) => head_step (raw ++ x) (hs, se) = Done (Err e)
  | Done Panic => False
  end.
Proof.
  intros Hs. pose proof Hs as [Ha Hl _]. pose proof (searched_ok_app _ _ x _ _ Hs) as Hs2.
  pose proof (blen_nonneg x). assert (blen (raw ++ x) = blen raw + blen x) as Hlen by apply blen_app.
  unfold head_step at 1. rewrite search_resume by done.
  destruct (search HEAD_END hs raw) as [[e|]| |] eqn:Es; [| |by rewrite search_ok in Es by lia..].
  - pose proof (search_found HEAD_END raw hs e ltac:(lia) Es) as [He Hb]. change (blen HEAD_END) with 4 in Hb.
    pose proof (search_found_app HEAD_END raw x hs e ltac:(lia) Es) as Es2.
    unfold head_step. rewrite search_resume, Es2, index_range_app by (done || lia).
    destruct (index_range_ok (E := AetherError) raw hs e) as (t & -> & _); [lia..|]. cbn [mbind comp_bind].
    pose proof (http1_head_no_panic t). destruct (http1_head t) as [[status fields]| |]; [|done..].
    destruct (_ && negb _); [done|]. pose proof (framing_ok status fields) as Hf.
    destruct (framing status fields) as [f| |]; [|done..]. split; [|done].
    split; cbn; [lia|]. destruct f; [done| |done]. subst. split; [split; [apply dechunker_default_ok|apply framed_default]|].
    eapply found_head_end; [|exact Es]. lia.
  - apply searched_ok_none in Es as Hn; [|lia]. split; [done|].
    pose proof (searched_ok_app _ _ x _ _ Hn) as Hn2.
    rewrite !find_head_unfold by done. unfold head_step. rewrite !search_resume by done.
    rewrite search_ok by lia. destruct (Z.add hs <$> _) as [e|] eqn:Ef; [|done].
    assert (search HEAD_END hs (raw ++ x) = Ok (Some e)) as Es2 by (rewrite search_ok by lia; by rewrite Ef).
    apply search_found in Es2 as [He Hb]; [|lia]. change (blen HEAD_END) with 4 in Hb.
    destruct (index_range_ok (E := AetherError) (raw ++ x) hs e) as (t & -> & _); [lia..|]. cbn [mbind comp_bind].
    destruct (http1_head t) as [[status fields]| |]; [|done..].
    destruct (_ && negb _); [apply same_found_refl|]. by destruct (framing status fields).
Qed.

(** What a search over [raw] says about the search over [raw ++ x]. *)
Definition find_head_agrees (raw x : bytes) (s : Z * Z) (r : comp AetherError (Z * Z * option Http1Head)) : Prop :=
  match r with
  | Ok (hs', se', None) =>
      searched_ok HEAD_END raw hs' se' ∧
      same_found (find_head (raw ++ x) hs' se') (find_head (raw ++ x) s.1 s.2)
  | Ok (_, _, Some h) =>
      head_ok raw h ∧ ∃ hs' se', find_head (raw ++ x) s.1 s.2 = Ok (hs', se', Some h)
  | Err e => find_head (raw ++ x) s.1 s.2 = Err e
  | Panic => False
  end.

Lemma find_head_resume raw x hs se :
  searched_ok HEAD_END raw hs se → find_head_agrees raw x (hs, se) (find_head raw hs se).
Proof.
  intros Hs. unfold find_head.
  apply (loop_ind_on (λ s : Z * Z, searched_ok HEAD_END raw s.1 s.2) _ _ (find_head_agrees raw x)); [| |done].
  - clear. intros [hs se] r Hs E. cbn in Hs. pose proof (head_step_app raw x hs se Hs) as H. rewrite E in H.
    pose proof (searched_ok_app _ _ x _ _ Hs). unfold find_head_agrees. cbn [fst snd].
    destruct r as [[[hs' se'] [h|]]| |]; [|done| |done].
    + destruct H as [Hh H]. split; [done|]. exists hs', se'. by rewrite find_head_unfold, H by done.
    + by rewrite find_head_unfold, H by done.
  - clear. intros [hs se] [hs' se'] r Hs E HP. cbn in Hs.
    pose proof (head_step_app raw x hs se Hs) as H. rewrite E in H.
    pose proof (searched_ok_app _ _ x _ _ Hs). unfold find_head_agrees in *. cbn [fst snd] in *.
    by rewrite (find_head_unfold (raw ++ x) hs se), H by done.
Qed.

(** *** The body *)

(** The answer has come whole. *)
Definition whole_ok (raw : bytes) (h : Http1Head) : Prop :=
  match h_framing h with
  | Length n => n ≤ blen raw - h_body_start h
  | Chunked d => d_done d = true
  | Close => False
  end.

Lemma head_ok_app raw x h : head_ok raw h → head_ok (raw ++ x) h.
Proof.
  intros [Hb Hd]. split; [rewrite blen_app; blia|]. destruct (h_framing h); [done| |done].
  destruct Hd as [[Hd Hf] [head_ Hh]]. rewrite dropz_app_l by lia.
  split; [split; [by apply dechunker_ok_app|by apply framed_app]|]. exists head_. rewrite <- Hh. unfold takez, blen in *.
  apply take_app_le. lia.
Qed.

(** A line of the answer that is given up for its length. *)
Definition long_answer (raw : bytes) : Prop :=
  ∃ head_ body more, raw = head_ ++ HEAD_END ++ body ++ more ∧ long_line body.

Lemma long_answer_app raw x : long_answer raw → long_answer (raw ++ x).
Proof.
  intros (head_ & body & more & -> & Hl). exists head_, body, (more ++ x). split; [|done]. by rewrite <- !app_assoc.
Qed.

Lemma push_body_resume raw x h :
  head_ok raw h →
  match push_body raw h with
  | Ok (h', whole) =>
      head_ok raw h' ∧ push_body (raw ++ x) h' = push_body (raw ++ x) h ∧
      (whole = true → whole_ok raw h')
  | Err e => e = line_too_long ∧ long_answer raw ∨ push_body (raw ++ x) h = Err e
  | Panic => False
  end.
Proof.
  intros Hh. pose proof Hh as [Hb Hd]. pose proof (blen_nonneg x).
  unfold push_body. rewrite !index_range_suffix by (rewrite ?blen_app; lia). cbn [mbind comp_bind].
  rewrite dropz_app_l by lia. unfold whole_ok.
  destruct (h_framing h) as [n|d|] eqn:Ef.
  - split; [done|]. rewrite index_range_suffix by (rewrite blen_app; lia). cbn [mbind comp_bind].
    rewrite Ef, dropz_app_l by lia. split; [done|].
    rewrite blen_dropz by lia. intros Hw. destruct (Z.geb_spec (blen raw - h_body_start h) n); [lia|done].
  - destruct Hd as [[Hd Hf] [head_ Hhead]]. pose proof (advance_resume d _ x Hd Hf) as Hr.
    destruct (advance d (dropz (h_body_start h) raw)) as [[d' whole]|e|]; cbn [mbind comp_bind].
    + destruct Hr as (Hd' & Hf' & E & Hw). split; [split; cbn; eauto|]. cbn [h_body_start h_framing h_status h_fields].
      rewrite index_range_suffix by (rewrite blen_app; lia). cbn [mbind comp_bind].
      by rewrite dropz_app_l, E by lia.
    + destruct Hr as [[-> Hlong]|E]; [left; split; [done|]|right; by rewrite E]. exists head_, (dropz (h_body_start h) raw), [].
      split; [|done]. rewrite app_nil_r, app_assoc, <- Hhead. by rewrite takez_dropz.
    + done.
  - split; [done|]. rewrite index_range_suffix by (rewrite blen_app; lia). cbn [mbind comp_bind].
    by rewrite Ef.
Qed.

(** *** Pushing *)

Definition answer_ok (a : Http1Answer) : Prop :=
  match a_head a with
  | None => searched_ok HEAD_END (a_raw a) (a_head_start a) (a_searched a)
  | Some h => head_ok (a_raw a) h
  end.

(** Two states nothing can tell apart: once the head is there, how far the
    search went no longer matters. *)
Definition same_answer (a b : Http1Answer) : Prop :=
  a_raw a = a_raw b ∧ a_head a = a_head b ∧
  (a_head a = None → a_head_start a = a_head_start b ∧ a_searched a = a_searched b).

#[export] Instance same_answer_equiv : Equivalence same_answer.
Proof.
  split.
  - by intros a.
  - intros a b (H1 & H2 & H3). split; [done|]. split; [done|]. rewrite <- H2. intros [? ?]%H3. done.
  - intros a b c (H1 & H2 & H3) (H4 & H5 & H6). split; [congruence|]. split; [congruence|].
    intros Hn. destruct (H3 Hn) as [-> ->]. apply H6. congruence.
Qed.

Definition same_push (r r' : comp AetherError (Http1Answer * bool)) : Prop :=
  match r, r' with
  | Ok (a, whole), Ok (a', whole') => same_answer a a' ∧ whole = whole'
  | r, r' => r = r'
  end.

Lemma same_push_refl r : same_push r r.
Proof. by destruct r as [[]| |]. Qed.

#[export] Instance push_proper : Proper (same_answer ==> eq ==> same_push) push.
Proof.
  intros [raw hs se h] [raw' hs' se' h'] (E1 & E2 & E3) bs _ <-. cbn in E1, E2, E3. subst raw' h'.
  unfold push. cbn [a_raw a_head a_head_start a_searched]. destruct (_ >? _); [done|].
  destruct h as [h|].
  - cbn [mbind comp_bind]. destruct (push_body _ h) as [[h1 whole]| |]; done.
  - destruct E3 as [<- <-]; [done|]. apply same_push_refl.
Qed.

#[export] Instance finish_proper : Proper (same_answer ==> eq) finish.
Proof. intros [raw hs se h] [raw' hs' se' h'] (E1 & E2 & _). cbn in *. by subst. Qed.

Lemma push_resume a p q :
  answer_ok a → blen (a_raw a ++ p ++ q) ≤ MAX_BODY →
  match push a p with
  | Ok (a', whole) =>
      answer_ok a' ∧ a_raw a' = a_raw a ++ p ∧ same_push (push a' q) (push a (p ++ q)) ∧
      (whole = true → ∃ h, a_head a' = Some h ∧ whole_ok (a_raw a') h)
  | Err e => e = line_too_long ∧ long_answer (a_raw a ++ p) ∨ push a (p ++ q) = Err e
  | Panic => False
  end.
Proof.
  intros Ha Hl. pose proof (blen_nonneg q). unfold push.
  rewrite (app_assoc (a_raw a)) in *. remember (a_raw a ++ p) as raw eqn:Eraw.
  rewrite blen_app in *.
  destruct (Z.gtb_spec (blen raw) MAX_BODY); [lia|].
  destruct (Z.gtb_spec (blen raw + blen q) MAX_BODY); [lia|].
  assert (∀ hs se h, head_ok raw h →
    match '(h, whole) ← push_body raw h; Ok (mk_answer raw hs se (Some h), whole) with
    | Ok (a', whole) =>
        answer_ok a' ∧ a_raw a' = raw ∧
        (∀ hs' se', same_push (push a' q)
           ('(h, whole) ← push_body (raw ++ q) h; Ok (mk_answer (raw ++ q) hs' se' (Some h), whole))) ∧
        (whole = true → ∃ h, a_head a' = Some h ∧ whole_ok (a_raw a') h)
    | Err e => e = line_too_long ∧ long_answer raw ∨ push_body (raw ++ q) h = Err e
    | Panic => False
    end) as Hbody.
  { intros hs se h Hh. pose proof (push_body_resume raw q h Hh) as Hr.
    destruct (push_body raw h) as [[h1 whole]| |]; cbn [mbind comp_bind]; [|done..].
    destruct Hr as (Hh1 & E & Hw). split; [done|]. split; [done|]. split; [|cbn; eauto].
    intros hs' se'. unfold push. cbn [a_raw a_head a_head_start a_searched].
    destruct (Z.gtb_spec (blen (raw ++ q)) MAX_BODY); [rewrite blen_app in *; lia|].
    cbn [mbind comp_bind]. rewrite E. destruct (push_body (raw ++ q) h) as [[]| |]; done. }
  unfold answer_ok in Ha. destruct (a_head a) as [h|] eqn:Eh.
  - cbn [mbind comp_bind]. apply (head_ok_app _ p) in Ha. rewrite <- Eraw in Ha.
    pose proof (Hbody (a_head_start a) (a_searched a) h Ha) as Hr.
    destruct (_ ← push_body raw h; _) as [[a' whole]|e|]; [| |done].
    + destruct Hr as (G1 & G2 & G3 & G4). split_and!; [done..| |done]. apply G3.
    + destruct Hr as [?|E]; [by left|right]. by rewrite E.
  - apply (searched_ok_app _ _ p) in Ha. rewrite <- Eraw in Ha.
    pose proof (find_head_resume raw q _ _ Ha) as Hr. unfold find_head_agrees in Hr. cbn [fst snd] in Hr.
    destruct (find_head raw (a_head_start a) (a_searched a)) as [[[hs se] [h|]]|e|];
      cbn [mbind comp_bind]; [| | |done].
    + destruct Hr as (Hh & hs' & se' & E). rewrite E. cbn [mbind comp_bind].
      pose proof (Hbody hs se h Hh) as Hb.
      destruct (_ ← push_body raw h; _) as [[a' whole]|e|]; [| |done].
      * destruct Hb as (G1 & G2 & G3 & G4). split_and!; [done..| |done]. apply G3.
      * destruct Hb as [?|E']; [by left|right]. by rewrite E'.
    + destruct Hr as [Hs E]. cbn [a_raw a_head a_head_start a_searched]. split; [done|]. split; [done|].
      split; [|done]. destruct (Z.gtb_spec (blen (raw ++ q)) MAX_BODY); [rewrite blen_app in *; lia|].
      unfold same_found in E. clear Eraw Ha.
      destruct (find_head (raw ++ q) hs se) as [[[? ?] [h1|]]| |],
        (find_head (raw ++ q) (a_head_start a) (a_searched a)) as [[[? ?] [h2|]]| |];
        simplify_eq; cbn [mbind comp_bind]; try done.
      match goal with |- context [push_body ?r ?h] => by destruct (push_body r h) as [[]| |] end.
    + right. by rewrite Hr.
Qed.

(** Once the answer is whole, more bytes do not change it. *)
Lemma push_whole a h q :
  answer_ok a → a_head a = Some h → whole_ok (a_raw a) h → blen (a_raw a ++ q) ≤ MAX_BODY →
  ∃ a', push a q = Ok (a', true) ∧ finish a' = finish a.
Proof.
  intros Ha Eh Hw Hl. unfold answer_ok in Ha. rewrite Eh in Ha. pose proof Ha as [Hb Hd].
  pose proof (blen_nonneg q). rewrite blen_app in Hl. unfold push. rewrite blen_app.
  destruct (Z.gtb_spec (blen (a_raw a) + blen q) MAX_BODY); [lia|]. rewrite Eh. cbn [mbind comp_bind].
  unfold push_body. rewrite index_range_suffix by (rewrite blen_app; lia). cbn [mbind comp_bind].
  rewrite dropz_app_l by lia. unfold finish. rewrite Eh. unfold whole_ok in Hw.
  destruct (h_framing h) as [n|d|] eqn:Ef; [| |done].
  - cbn [mbind comp_bind]. rewrite blen_app, blen_dropz by lia.
    destruct (Z.geb_spec (blen (a_raw a) - h_body_start h + blen q) n); [|lia].
    eexists. split; [done|]. cbn [a_head a_raw h_framing]. rewrite !index_range_suffix by (rewrite ?blen_app; lia).
    cbn [mbind comp_bind]. rewrite Ef, dropz_app_l, blen_app, blen_dropz by lia.
    destruct (Z.ltb_spec (blen (a_raw a) - h_body_start h + blen q) n); [lia|].
    destruct (Z.ltb_spec (blen (a_raw a) - h_body_start h) n); [lia|].
    destruct (Z.lt_ge_cases n 0) as [|Hn]; [|by rewrite index_range_app by (rewrite ?blen_dropz; lia)].
    unfold index_range. by rewrite !slice_None by lia.
  - destruct Hd as [[Hd _] _]. apply (dechunker_ok_app _ _ q) in Hd. rewrite advance_unfold by done. unfold chunk_step. rewrite Hw.
    cbn [mbind comp_bind]. eexists. split; [done|]. cbn [a_head a_raw h_framing h_body_start].
    by rewrite !index_range_suffix by (rewrite ?blen_app; lia).
Qed.

(** Reading everything at once. *)
Definition read_once (a : Http1Answer) (bs : bytes) : comp AetherError (Z * list (bytes * bytes) * bytes) :=
  '(a, _) ← push a bs; finish a.

Lemma read_answer_split a piece pieces :
  answer_ok a → blen (a_raw a ++ concat (piece :: pieces)) ≤ MAX_BODY →
  read_answer a (piece :: pieces) = read_once a (concat (piece :: pieces)) ∨
  read_answer a (piece :: pieces) = Err line_too_long ∧ long_answer (a_raw a ++ concat (piece :: pieces)).
Proof.
  revert a piece. induction pieces as [|next pieces IH]; intros a piece Ha Hl.
  - left. cbn. rewrite app_nil_r. unfold read_once.
    destruct (push a piece) as [[a' whole]| |]; cbn; [|done..]. by destruct whole.
  - cbn [read_answer concat] in *. set (q := next ++ concat pieces) in *.
    pose proof (push_resume a piece q Ha Hl) as Hr. unfold read_once.
    destruct (push a piece) as [[a' whole]|e|]; cbn [mbind comp_bind]; [| |done].
    + destruct Hr as (Ha' & Eraw & Hs & Hw).
      assert (blen (a_raw a' ++ q) ≤ MAX_BODY) as Hl' by (rewrite Eraw, <- app_assoc; done).
      destruct whole.
      * left. destruct (Hw eq_refl) as (h & Eh & Hh).
        destruct (push_whole a' h q Ha' Eh Hh Hl') as (a2 & E2 & Hf). rewrite E2 in Hs. unfold same_push in Hs.
        destruct (push a (piece ++ q)) as [[a3 w3]| |]; [|done..]. destruct Hs as [Hs _].
        cbn. by rewrite <- Hf, Hs.
      * destruct (IH a' next Ha' Hl') as [->|[-> Hlong]]; [left|right; split; [done|]; by rewrite Eraw, <- app_assoc in Hlong]. unfold read_once.
        fold q. unfold same_push in Hs.
        destruct (push a' q) as [[a2 w2]| |], (push a (piece ++ q)) as [[a3 w3]| |];
          cbn in Hs |- *; first [congruence | destruct Hs as [Hs _]; by rewrite Hs].
    + destruct Hr as [[-> Hlong]| ->]; [right; split; [done|]; rewrite app_assoc; by apply long_answer_app|by left].
Qed.

(** C28. How an answer is cut into reads does not matter: whatever the bytes
    of an HTTP/1.1 answer (up to the size limit), with interim answers, a
    length, chunks or neither, reading it in any pieces gives the outcome of
    reading it at once, error or not.  The only exception is refused for a line
    too long, and then there is one: behind a head and whole chunks, and perhaps
    the last size and fields of the trailer, more than [MAX_LINE] bytes follow
    without the end of a line. *)
Theorem http1_any_split (pieces : list bytes) (Hl : blen (concat pieces) ≤ MAX_BODY) :
  read_answer answer_default pieces = read_answer answer_default [concat pieces] ∨
  read_answer answer_default pieces = Err line_too_long ∧ long_answer (concat pieces).
Proof.
  assert (answer_ok answer_default) as Ha.
  { unfold answer_ok. cbn. by apply searched_ok_here. }
  destruct pieces as [|piece pieces]; [by left|].
  destruct (read_answer_split answer_default piece pieces Ha Hl) as [->|[-> Hlong]]; [left|by right].
  unfold read_once. cbn [read_answer]. destruct (push _ _) as [[a []]| |]; done.
Qed.

End answer.

(** ** Decoding what RFC 9112 (7.1) encodes *)

Section decode.
Context {w : arch}.

Lemma find_line l r : contains CRLF l = false → find CRLF (l ++ CRLF ++ r) = Some (blen l).
Proof.
  intros Hl. apply find_Some. split; [by exists l, r|]. intros j Hj Ho.
  assert (0 ≤ j) as Hj0 by (destruct Ho as (u & v & _ & <-); blia).
  destruct (Z.le_gt_cases (j + 2) (blen l)) as [Hle|Hgt].
  - apply occurs_prefix in Ho; [|exact Hle]. destruct Ho as (u & v & E & _).
    assert (contains CRLF l = true) by (apply contains_spec; eauto). congruence.
  - destruct Ho as (u & v & E & Hu).
    assert (get (l ++ CRLF ++ r) (j + 1) = Some 10) as H1
      by (apply (suffix_at_get _ _ _ v); exists (u ++ [13]); rewrite E, <- app_assoc; split; [done|blia]).
    assert (get (l ++ CRLF ++ r) (j + 1) = Some 13) as H2
      by (apply (suffix_at_get _ _ _ (10 :: r)); exists l; split; [done|blia]).
    congruence.
Qed.

Lemma search_line body p l r :
  contains CRLF l = false → suffix_at body p (l ++ CRLF ++ r) →
  search CRLF p body = Ok (Some (p + blen l)).
Proof.
  intros Hl Hs. pose proof (suffix_at_len _ _ _ Hs). pose proof (suffix_at_nonneg _ _ _ Hs).
  rewrite search_ok by blia. f_equal.
  pose proof (suffix_at_det _ _ _ _ (suffix_at_drop body p ltac:(blia)) Hs) as ->.
  by rewrite find_line.
Qed.

Lemma fresh_ok body p data t done_ j :
  0 ≤ p ≤ blen body → (∀ n, data = Some n → 0 ≤ n) → dechunker_ok (mk_dechunker p p data t done_ j) body.
Proof. intros Hp Hd. split; cbn; [by apply searched_ok_here|done..]. Qed.

(** A line is read and the decoder stands behind it. *)
Lemma advance_line body p l r t j :
  contains CRLF l = false → suffix_at body p (l ++ CRLF ++ r) →
  suffix_at body (p + blen l + 2) r ∧
  advance (mk_dechunker p p None t false j) body =
    (let p' := p + blen l + 2 in
     if t then advance (mk_dechunker p' p' None t (is_empty l) j) body
     else match chunk_size l with
          | None => Err (bad_chunk (lit "a bad chunk size"))
          | Some 0 => advance (mk_dechunker p' p' None true false j) body
          | Some n => advance (mk_dechunker p' p' (Some n) false false j) body
          end).
Proof.
  intros Hl Hs. pose proof (suffix_at_len _ _ _ Hs) as Hlen. pose proof (suffix_at_nonneg _ _ _ Hs).
  rewrite !blen_app in Hlen. change (blen CRLF) with 2 in Hlen. pose proof (blen_nonneg r).
  assert (dechunker_ok (mk_dechunker p p None t false j) body) as Hd by (apply fresh_ok; [blia|done]).
  split.
  { apply suffix_at_app, suffix_at_app in Hs. done. }
  rewrite advance_unfold by done. unfold chunk_step. rewrite dechunker_search by done.
  cbn [d_done d_data d_at d_trailer d_joined]. rewrite (search_line body p l r) by done.
  unfold index_range. rewrite (suffix_at_slice _ _ _ _ _ Hs) by done. cbn [or_panic].
  destruct t; [done|]. destruct (chunk_size l) as [n|] eqn:En; [|done].
  pose proof (chunk_size_nonneg _ _ En). destruct (Z.eqb_spec n 0) as [->|]; [done|]. by destruct n.
Qed.

Lemma advance_data body p data r j :
  blen body < 2 ^ 31 → suffix_at body p (data ++ CRLF ++ r) →
  suffix_at body (p + blen data + 2) r ∧
  advance (mk_dechunker p p (Some (blen data)) false false j) body =
    advance (mk_dechunker (p + blen data + 2) (p + blen data + 2) None false false (j ++ data)) body.
Proof.
  intros Hb Hs. pose proof (suffix_at_len _ _ _ Hs) as Hlen. pose proof (suffix_at_nonneg _ _ _ Hs).
  rewrite !blen_app in Hlen. change (blen CRLF) with 2 in Hlen. blen_pos.
  split; [by apply suffix_at_app, suffix_at_app in Hs|].
  rewrite advance_unfold by (apply fresh_ok; [lia|intros n [= <-]; lia]).
  unfold chunk_step. cbn [d_done d_data d_at d_trailer d_joined].
  rewrite checked_add_small by lia. cbn [mbind option_bind]. rewrite checked_add_small by lia.
  destruct (Z.ltb_spec (blen body) (p + blen data + 2)); [lia|].
  replace (p + blen data + 2 - 2) with (p + blen data) by lia. unfold index_range.
  rewrite (suffix_at_slice _ _ data _ _ Hs) by done. apply suffix_at_app in Hs.
  rewrite (suffix_at_slice _ _ CRLF _ _ Hs) by done. done.
Qed.

Lemma advance_chunks body p cs r j :
  blen body < 2 ^ 31 → Forall chunk_ok cs → suffix_at body p (concat (chunk_enc <$> cs) ++ r) →
  ∃ p', suffix_at body p' r ∧
    advance (mk_dechunker p p None false false j) body =
    advance (mk_dechunker p' p' None false false (j ++ concat (snd <$> cs))) body.
Proof.
  intros Hb Hcs. revert p j. induction Hcs as [|[l data] cs (Hl & Hn & Hne) _ IH]; intros p j Hs.
  - exists p. split; [done|]. by rewrite app_nil_r.
  - cbn [fmap list_fmap concat fst snd] in *. unfold chunk_enc at 1 in Hs. cbn [fst snd] in Hs.
    rewrite <- !app_assoc in Hs. destruct (advance_line body p _ _ false j Hl Hs) as [S1 ->].
    cbn zeta. rewrite Hn. apply advance_data with (j := j) in S1 as [S2 E2]; [|done].
    destruct (IH _ (j ++ data) S2) as (p' & S3 & E3). exists p'. split; [done|].
    assert (blen data ≠ 0) as Hz by (destruct data; [done|blia]).
    destruct (blen data) as [|n|n] eqn:El; [done| |]; rewrite E2, E3; by rewrite app_assoc.
Qed.

Lemma advance_trailer body p ts r j :
  Forall (λ l, l ≠ [] ∧ contains CRLF l = false) ts →
  suffix_at body p (concat ((λ l, l ++ CRLF) <$> ts) ++ CRLF ++ r) →
  ∃ d, advance (mk_dechunker p p None true false j) body = Ok (d, true) ∧ d_done d = true ∧ d_joined d = j.
Proof.
  intros Hts. revert p. induction Hts as [|l ts [Hne Hl] _ IH]; intros p Hs.
  - destruct (advance_line body p [] r true j eq_refl Hs) as [S ->]. cbn zeta.
    pose proof (suffix_at_len _ _ _ S). pose proof (suffix_at_nonneg _ _ _ S). blen_pos.
    rewrite advance_unfold by (apply fresh_ok; [lia|done]). cbn. by eexists.
  - cbn [fmap list_fmap concat] in Hs. rewrite <- !app_assoc in Hs.
    destruct (advance_line body p l _ true j Hl Hs) as [S ->]. cbn zeta.
    replace (is_empty l) with false by (by destruct l). by apply IH.
Qed.

(** A chunked answer is decoded to the data of its chunks: for every head
    that announces chunks, every list of chunks with any extensions, every
    trailer and whatever follows, the answer read is the status, the fields
    and the joined data. *)
Theorem chunked_answer_decodes (head_ : bytes) (status : Z) (fields : list (bytes * bytes))
  (cs : list (bytes * bytes)) (last_ rest : bytes) (trailer : list bytes)
  (Hhead : http1_head head_ = Ok (status, fields)) (Hst : 200 ≤ status)
  (Hfr : framing status fields = Ok (Chunked dechunker_default))
  (Hend : find HEAD_END (head_ ++ HEAD_END) = Some (blen head_))
  (Hcs : Forall chunk_ok cs) (Hlast : contains CRLF last_ = false ∧ chunk_size last_ = Some 0)
  (Htr : Forall (λ l, l ≠ [] ∧ contains CRLF l = false) trailer)
  (Hlen : blen (head_ ++ HEAD_END ++ chunked_enc cs last_ trailer ++ rest) ≤ MAX_BODY) :
  read_answer answer_default [head_ ++ HEAD_END ++ chunked_enc cs last_ trailer ++ rest]
  = Ok (status, fields, concat (snd <$> cs)).
Proof.
  set (body := chunked_enc cs last_ trailer ++ rest) in *. set (wire := head_ ++ HEAD_END ++ body) in *.
  unfold MAX_BODY in Hlen.
  assert (∃ d, advance dechunker_default body = Ok (d, true) ∧ d_done d = true ∧
    d_joined d = concat (snd <$> cs)) as (d & Ed & Hdone & Hj).
  { assert (blen body < 2 ^ 31) as Hb by (unfold wire in Hlen; rewrite !blen_app in Hlen; blia).
    destruct (advance_chunks body 0 cs (last_ ++ CRLF ++ concat ((λ l, l ++ CRLF) <$> trailer) ++ CRLF ++ rest) []
      Hb Hcs) as (p & S & E).
    { unfold body, chunked_enc. rewrite <- !app_assoc. apply suffix_at_0. }
    unfold dechunker_default. rewrite E. destruct Hlast as [Hl1 Hl2].
    destruct (advance_line body p last_ _ false ([] ++ concat (snd <$> cs)) Hl1 S) as [S' ->].
    cbn zeta. rewrite Hl2. by apply (advance_trailer body _ trailer rest). }
  assert (suffix_at wire (blen head_ + 4) body) as Sb
    by (exists (head_ ++ HEAD_END); unfold wire; rewrite <- app_assoc; split; [done|]; by rewrite blen_app).
  pose proof (suffix_at_len _ _ _ Sb) as Hbl. blen_pos.
  assert (dropz (blen head_ + 4) wire = body) as Hdrop
    by (exact (suffix_at_det _ _ _ _ (suffix_at_drop wire (blen head_ + 4) ltac:(lia)) Sb)).
  assert (find_head wire 0 0 = Ok (0, 0, Some (mk_head status fields (blen head_ + 4) (Chunked dechunker_default))))
    as Hfind.
  { assert (searched_ok HEAD_END wire 0 0) as Hs by (apply searched_ok_here; [done|lia]).
    rewrite find_head_unfold by done. unfold head_step. rewrite search_resume by done.
    rewrite search_ok by lia. change (dropz 0 wire) with wire.
    assert (find HEAD_END wire = Some (blen head_)) as ->.
    { unfold wire. rewrite app_assoc. by apply find_app. }
    cbn [fmap option_fmap option_map]. rewrite Z.add_0_l. unfold index_range.
    rewrite slice_prefix by lia. cbn [or_panic mbind comp_bind]. unfold wire at 1. rewrite takez_app, Hhead.
    destruct (Z.ltb_spec status 200); [lia|]. rewrite andb_false_r. cbn [andb]. by rewrite Hfr. }
  cbn [read_answer]. unfold push. cbn [a_raw a_head a_head_start a_searched answer_default app].
  unfold MAX_BODY. destruct (Z.gtb_spec (blen wire) (512 * 1024)); [lia|].
  rewrite Hfind. cbn [mbind comp_bind]. unfold push_body. cbn [h_body_start h_framing h_status h_fields].
  rewrite index_range_suffix by lia. cbn [mbind comp_bind]. rewrite Hdrop, Ed. cbn [mbind comp_bind].
  unfold finish. cbn [a_head a_raw h_framing h_body_start h_status h_fields].
  rewrite index_range_suffix by lia. cbn [mbind comp_bind].
  unfold dechunker_finish. rewrite Hdone, Hj. done.
Qed.

End decode.

(** ** The handshake *)

(** A key was given exactly where one was given before, and it can be
    offered. *)
Definition tried_ok (ech : option bytes) (t : option bytes) : Prop :=
  match ech, t with
  | Some _, Some key => check_ech_config_list key = Ok ()
  | None, None => True
  | _, _ => False
  end.

Section exchange.
Context (env : tls_env) (where_ : bytes) (ech0 : option bytes).

Abbreviation exchange_state := (option bytes * bool * list (option bytes))%type.

(** At most one key was tried before the last attempt. *)
Definition exchange_inv (s : exchange_state) : Prop :=
  let '(ech, retried, tried) := s in
  (ech = None ↔ ech0 = None) ∧ Forall (tried_ok ech0) tried ∧
  blen tried = (if retried then 1 else 0).

Lemma exchange_step_next s s' :
  exchange_inv s → exchange_step env where_ s = Next s' → exchange_inv s' ∧ s.1.2 = false ∧ s'.1.2 = true.
Proof.
  destruct s as [[ech retried] tried]. intros (He & Ht & Hn). unfold exchange_step.
  destruct ech as [list|]; [|by destruct (attempt env retried None)].
  unfold ensure_offerable. destruct (check_ech_config_list list) as [[]| |] eqn:Ec;
    cbn [map_err mbind comp_bind]; [|done..].
  destruct (set_list env list); [done|]. destruct (attempt env retried (Some list)) as [|m rc]; [done|].
  destruct retried; [done|]. cbn [negb andb].
  destruct (contains (lit "ECH_REJECTED") m); [|done].
  destruct rc as [configs|]; cbn [mbind option_bind]; [|done]. destruct (is_empty configs); [done|].
  destruct (usable_retry configs); [|done]. intros [= <-]. cbn. split; [|done].
  destruct ech0; [|naive_solver]. split; [naive_solver|]. split; [|rewrite blen_app, Hn; done].
  apply Forall_app. split; [done|]. constructor; [exact Ec|constructor].
Qed.

#[local] Instance exchange_decreasing :
  DecreasingOn exchange_inv (λ s : exchange_state, if s.1.2 then 0%nat else 1%nat)
    (exchange_step env where_).
Proof.
  intros s s' Hs E. destruct (exchange_step_next s s' Hs E) as (H1 & H2 & H3).
  split; [done|]. rewrite H2, H3. lia.
Qed.

(** The request never goes out in the clear: whatever BoringSSL answers,
    when a key was given, [exchange] goes on to the request only over a
    handshake whose ECH was accepted, after at most two handshakes, each of
    them given a key that BoringSSL would offer; without a key no handshake
    is given one. *)
Theorem exchange_never_in_clear (ech : option bytes) (h2 : bool) (tried : list (option bytes))
  (H : exchange_tls env where_ ech0 = Ok (ech, h2, tried)) :
  (ech = None ↔ ech0 = None) ∧ Forall (tried_ok ech0) tried ∧ 1 ≤ blen tried ≤ 2 ∧
  (ech0 ≠ None → attempt env (bool_decide (blen tried = 2)) ech = Connected true h2).
Proof.
  unfold exchange_tls in H.
  set (P := λ (_ : exchange_state) (r : comp AetherError (option bytes * bool * bool * list (option bytes))),
    ∀ ech accepted h2 tried, r = Ok (ech, accepted, h2, tried) →
      (ech = None ↔ ech0 = None) ∧ Forall (tried_ok ech0) tried ∧ 1 ≤ blen tried ≤ 2 ∧
      attempt env (bool_decide (blen tried = 2)) ech = Connected accepted h2).
  assert (P (ech0, false, []) (loop (λ s : exchange_state, if s.1.2 then 0%nat else 1%nat)
    (exchange_step env where_) Panic (ech0, false, []))) as HP.
  { apply (loop_ind_on exchange_inv _ _ P).
    - clear. intros [[ech retried] tried] r (He & Ht & Hn) E ech' accepted h2 tried' ->.
      unfold exchange_step in E.
      destruct (match ech with Some list => _ | None => Ok () end) eqn:Ee; [|done..].
      destruct (attempt env retried ech) eqn:Ea.
      2: { destruct (match ech with Some _ => _ | None => None end); done. }
      injection E as <- <- <- <-.
      assert (blen (tried ++ [ech]) = blen tried + 1) as Hb by apply blen_app.
      split; [done|]. split.
      { apply Forall_app. split; [done|]. repeat constructor. unfold tried_ok.
        destruct ech as [list|], ech0; try naive_solver. unfold ensure_offerable in Ee.
        destruct (check_ech_config_list list) as [[]| |]; [done|by cbn in Ee..]. }
      rewrite Hb, Hn. destruct retried; (split; [lia|done]).
    - clear. intros s s' r Hs E HP. exact HP.
    - split; [done|]. split; [constructor|done]. }
  destruct (loop _ _ _ _) as [[[[ech1 accepted] h1] tried1]| |] eqn:E; [|done..]. cbn [mbind comp_bind] in H.
  destruct (HP _ _ _ _ eq_refl) as (G1 & G2 & G3 & G4).
  destruct ech1 as [k|].
  - destruct accepted; [|done]. injection H as <- <- <-. do 3 (split; [done|]). done.
  - cbn [andb] in H. injection H as <- <- <-. do 3 (split; [done|]). intros Hne. exfalso. by apply Hne, G1.
Qed.

End exchange.

(** A server that turns the first key down and takes the second. *)
Definition sample_env : tls_env :=
  mk_tls_env (λ _, None) (λ retried _, if retried then Connected true true
    else Refused (lit "ssl: ECH_REJECTED") (Some (list_enc sample_configs))).

Lemma exchange_never_in_clear_witness :
  let key := list_enc sample_configs in
  exchange_tls sample_env (lit "example.org") (Some key) = Ok (Some key, true, [Some key; Some key]) ∧
  Forall (tried_ok (Some key)) [Some key; Some key].
Proof.
  cbn zeta.
  assert (exchange_tls sample_env (lit "example.org") (Some (list_enc sample_configs))
    = Ok (Some (list_enc sample_configs), true,
          [Some (list_enc sample_configs); Some (list_enc sample_configs)])) as E by by vm_compute.
  split; [exact E|]. exact (proj1 (proj2 (exchange_never_in_clear _ _ _ _ _ _ E))).
Defined.

Definition sample_head : bytes :=
  lit "HTTP/1.1 200 OK" ++ CRLF ++ lit "Transfer-Encoding: chunked".

Lemma chunked_answer_decodes_witness :
  @read_answer W64 answer_default
    [sample_head ++ HEAD_END ++ chunked_enc [(lit "5;x=1", lit "Hello"); (lit "1", lit "!")] (lit "0") [lit "T: v"] ++ lit "junk"]
  = Ok (200, [(lit "Transfer-Encoding", lit "chunked")], lit "Hello!").
Proof.
  apply (@chunked_answer_decodes W64 sample_head 200 [(lit "Transfer-Encoding", lit "chunked")]).
  - by vm_compute.
  - done.
  - by vm_compute.
  - by vm_compute.
  - repeat constructor; by vm_compute.
  - by vm_compute.
  - repeat constructor; by vm_compute.
  - by vm_compute.
Defined.

Lemma http1_any_split_witness :
  let wire := sample_head ++ HEAD_END ++ chunked_enc [(lit "3", lit "abc")] (lit "0") [] in
  let pieces := [takez 20 wire; dropz 20 wire] in
  @read_answer W64 answer_default pieces = Ok (200, [(lit "Transfer-Encoding", lit "chunked")], lit "abc") ∧
  (@read_answer W64 answer_default pieces = @read_answer W64 answer_default [concat pieces] ∨
   @read_answer W64 answer_default pieces = Err line_too_long ∧ @long_answer W64 (concat pieces)).
Proof. cbn zeta. split; [by vm_compute|]. apply (@http1_any_split W64). by vm_compute. Defined.
