(* ===== verification/Dns.v ===== *)
(** * Looking up the ECH key

    src/aether/src/dns.rs: the resolver an option names (UDP, TCP or
    DNS-over-HTTPS), the query for the HTTPS record of a domain, the match of
    a reply with it, and the ech parameter of the answer. *)

From stdpp Require Import strings.
From S2P Require Import Prelude Text Net NetText Error Tls Https Fragment.

Definition DEFAULT_ECH_DNS : bytes := lit "udp://1.1.1.1".
Definition DEFAULT_ECH_DOMAIN : bytes := lit "cloudflare-ech.com".
Definition RR_HTTPS : Z := 65.
Definition SVCPARAM_ECH : Z := 5.

(** ** Names and addresses *)

(** [value.get(..scheme.len())] is [None] inside a character too; as the
    scheme is ASCII the comparison fails there as well. *)
Definition strip_scheme (value scheme : bytes) : option bytes :=
  head_ ← slice value 0 (blen scheme);
  if eq_ignore_ascii_case head_ scheme then slice value (blen scheme) (blen value) else None.

Definition valid_domain_label (label : bytes) : bool :=
  negb (is_empty label) && (blen label <=? 63)
  && forallb (λ b, is_ascii_alphanumeric b || (b =? 45) || (b =? 95)) label.

Definition valid_domain (name : bytes) : bool :=
  let name := default name (strip_suffix [46] name) in
  negb (is_empty name) && (blen name <=? 253) && forallb valid_domain_label (split 46 name).

(** Without the brackets of an IPv6 address. *)
Definition unbracket (value : bytes) : bytes :=
  default value (inside ← strip_prefix [91] value; strip_suffix [93] inside).

Definition host_address (value : bytes) : option bytes :=
  match parse_ip (unbracket value) with
  | Some ip => Some (show_ip ip)
  | None => if valid_domain value then Some value else None
  end.

Definition host_and_port (value : bytes) (default_port : Z) : option (bytes * Z) :=
  match host_address value with
  | Some host => Some (host, default_port)
  | None =>
      '(host, port) ← rsplit_once 58 value;
      if contains [58] host && negb (starts_with [91] host) then None else
      port ← parse_u16 port;
      if port =? 0 then None else
      host ← host_address host;
      Some (host, port)
  end.

Definition socket_address (text : bytes) (default_port : Z) : option SocketAddr :=
  match parse_socket_addr text with
  | Some address => Some address
  | None =>
      match parse_ip text with
      | Some ip => Some (SockAddr ip default_port)
      | None =>
          inner ← strip_prefix [91] text;
          inner ← strip_suffix [93] inner;
          ip ← parse_ipv6 inner;
          Some (SockAddr (V6 ip) default_port)
      end
  end.

(** ** The resolver *)

Record DohEndpoint := mk_doh { url : bytes; doh_address : option bytes; doh_sni : option bytes }.

Inductive EchDns :=
| Udp (a : SocketAddr)
| Tcp (a : SocketAddr)
| DoH (e : DohEndpoint).

#[export] Instance DohEndpoint_eq_dec : EqDecision DohEndpoint.
Proof. solve_decision. Defined.
#[export] Instance EchDns_eq_dec : EqDecision EchDns.
Proof. solve_decision. Defined.

(** One piece behind an at sign. *)
Definition doh_piece (value : bytes) (endpoint : DohEndpoint) (piece : bytes) : comp bytes DohEndpoint :=
  let neither := lit "@" ++ piece ++ lit " in " ++ value ++ lit " is neither @address= nor @sni=" in
  '(name, setting) ← ok_or (split_once 61 piece) neither;
  let setting := trim setting in
  let lowered := to_ascii_lowercase (trim name) in
  let twice := value ++ lit " names @" ++ trim name ++ lit " twice" in
  if str_eqb lowered (lit "address") then
    let checked := ok_or (host_address setting)
      (lit "@address=" ++ setting ++ lit " is no IP address or domain name; the port is the URL's") in
    match doh_address endpoint with
    | Some _ => Err twice
    | None => a ← checked; Ok (mk_doh (url endpoint) (Some a) (doh_sni endpoint))
    end
  else if str_eqb lowered (lit "sni") then
    let named := match parse_ip (unbracket setting) with Some _ => false | None => valid_domain setting end in
    let checked := if named then Ok setting else Err (lit "@sni=" ++ setting ++ lit " is no domain name") in
    match doh_sni endpoint with
    | Some _ => Err twice
    | None => s ← checked; Ok (mk_doh (url endpoint) (doh_address endpoint) (Some s))
    end
  else Err neither.

Fixpoint doh_pieces (value : bytes) (endpoint : DohEndpoint) (pieces : list bytes) : comp bytes DohEndpoint :=
  match pieces with
  | [] => Ok endpoint
  | piece :: pieces => endpoint ← doh_piece value endpoint piece; doh_pieces value endpoint pieces
  end.

Definition doh_parse (value : bytes) : comp bytes DohEndpoint :=
  let pieces := split 64 value in
  let url := trim (default [] (head pieces)) in
  let host := default []
    (rest ← strip_scheme url (lit "https://");
     head (split_by (λ c, (c =? 47) || (c =? 63) || (c =? 35)) rest)) in
  if is_empty host then Err (value ++ lit " names no host")
  else doh_pieces value (mk_doh url None None) (tail pieces).

Definition ech_dns_parse (value : bytes) : comp bytes EchDns :=
  let value := trim value in
  match strip_scheme value (lit "https://") with
  | Some _ => DoH <$> doh_parse value
  | None =>
      '(rest, tcp) ←
        match strip_scheme value (lit "udp://") with
        | Some rest => Ok (rest, false)
        | None =>
            match strip_scheme value (lit "tcp://") with
            | Some rest => Ok (rest, true)
            | None => Err (value ++ lit " is no udp://, tcp:// or https:// address")
            end
        end;
      address ← ok_or (socket_address (trim_end_matches 47 rest) 53) (value ++ lit " names no IP address");
      Ok (if (tcp : bool) then Tcp address else Udp address)
  end.

Definition ech_dns_show (d : EchDns) : bytes :=
  match d with
  | Udp a => lit "udp://" ++ show_socket_addr a
  | Tcp a => lit "tcp://" ++ show_socket_addr a
  | DoH e =>
      url e ++ match doh_address e with Some a => lit "@address=" ++ a | None => [] end
            ++ match doh_sni e with Some s => lit "@sni=" ++ s | None => [] end
  end.

Record EchLookup := mk_lookup {
  dns_flag : bytes; dns_variable : bytes; domain_flag : bytes; domain_variable : bytes }.

Definition SESSION_ECH : EchLookup :=
  mk_lookup (lit "--ech-dns") (lit "AETHER_ECH_DNS") (lit "--ech-domain") (lit "AETHER_ECH_DOMAIN").

Definition configured_dns (env : environment) (lookup : EchLookup) : comp bytes EchDns :=
  let value := trim (default [] (env (dns_variable lookup))) in
  ech_dns_parse (if is_empty value then DEFAULT_ECH_DNS else value).

Definition configured_domain (env : environment) (lookup : EchLookup) : comp bytes bytes :=
  let value := trim (default [] (env (domain_variable lookup))) in
  let name := if is_empty value then DEFAULT_ECH_DOMAIN else value in
  if valid_domain name then Ok (trim_end_matches 46 name)
  else Err (name ++ lit " is no domain name").

(** ** Messages *)

Definition labels (name : bytes) : list bytes :=
  List.filter (λ label, negb (is_empty label)) (split 46 name).

(** [id] is what the generator drew. *)
Definition build_query (id : Z) (name : bytes) (qtype : Z) : bytes :=
  be_bytes 2 id ++ [0x01; 0x00] ++ [0x00; 0x01] ++ [0; 0; 0; 0; 0; 0]
  ++ concat ((λ label, as_u8 (blen label) :: label) <$> labels name)
  ++ [0x00] ++ be_bytes 2 qtype ++ [0x00; 0x01].

Definition tcp_message (msg : bytes) : bytes := be_bytes 2 (as_u16 (blen msg)) ++ msg.

(** [u16::from_be_bytes([msg[i], msg[i + 1]])]. *)
Definition u16_at (msg : bytes) (i : Z) : comp () Z :=
  a ← index msg i; b ← index msg (i + 1); Ok (be_val [a; b]).

Section dns.
Context {w : arch}.

(** The loop over the labels of the expected name: the offset behind them, or
    [None] where they differ. *)
Fixpoint match_labels (msg : bytes) (pos : Z) (ls : list bytes) : comp () (option Z) :=
  match ls with
  | [] => Ok (Some pos)
  | label :: ls =>
      match get msg pos with
      | None => Ok None
      | Some len =>
          if negb (len =? blen label) then Ok None else
          let pos := pos + 1 in
          match checked_add pos len with
          | None => Ok None
          | Some end_ =>
              if negb (end_ <=? blen msg) then Ok None else
              found ← index_range msg pos end_;
              if negb (eq_ignore_ascii_case found label) then Ok None
              else match_labels msg end_ ls
          end
      end
  end.

Definition response_matches (msg : bytes) (expected_id : Z) (expected_name : bytes) (expected_qtype : Z)
  : comp () bool :=
  if blen msg <? 12 then Ok false else
  id ← u16_at msg 0;
  if negb (id =? expected_id) then Ok false else
  flags ← index msg 2;
  if Z.land flags 0x80 =? 0 then Ok false else
  qd ← u16_at msg 4;
  if negb (qd =? 1) then Ok false else
  pos ← match_labels msg 12 (labels expected_name);
  match pos with
  | None => Ok false
  | Some pos =>
      match get msg pos with
      | Some 0 =>
          let pos := pos + 1 in
          if pos + 4 >? blen msg then Ok false else
          qtype ← u16_at msg pos;
          Ok (qtype =? expected_qtype)
      | _ => Ok false
      end
  end.

Definition name_step (buf : bytes) (pos : Z) : round Z (option Z) :=
  match get buf pos with
  | None => Done None
  | Some len =>
      if Z.land len 0xc0 =? 0xc0 then Done (Some (pos + 2))
      else if len =? 0 then Done (Some (pos + 1))
      else Next (pos + (1 + len))
  end.

Definition skip_name (buf : bytes) (pos : Z) : option Z :=
  loop (λ pos, Z.to_nat (blen buf - pos)) (name_step buf) None pos.

Definition param_step (msg : bytes) (end_ p : Z) : round Z (comp () (option bytes)) :=
  if p + 4 <=? end_ then
    match key ← u16_at msg p; len ← u16_at msg (p + 2); Ok (key, len) with
    | Ok (key, len) =>
        let p := p + 4 in
        if p + len >? end_ then Done (Ok None)
        else if key =? SVCPARAM_ECH then Done (Some <$> index_range msg p (p + len))
        else Next (p + len)
    | Err e => Done (Err e)
    | Panic => Done Panic
    end
  else Done (Ok None).

Definition parse_svcparams_ech (msg : bytes) (rdata_start rdlen : Z) : comp () (option bytes) :=
  let end_ := rdata_start + rdlen in
  if rdata_start + 2 >? end_ then Ok None else
  match skip_name msg (rdata_start + 2) with
  | None => Ok None
  | Some p => loop (λ p, Z.to_nat (end_ - p)) (param_step msg end_) Panic p
  end.

Fixpoint skip_questions (msg : bytes) (qd : nat) (pos : Z) : option Z :=
  match qd with
  | O => Some pos
  | S qd => pos ← skip_name msg pos; pos ← checked_add pos 4; skip_questions msg qd pos
  end.

Fixpoint answers (msg : bytes) (an : nat) (pos : Z) : comp () (option bytes) :=
  match an with
  | O => Ok None
  | S an =>
      match skip_name msg pos with
      | None => Ok None
      | Some pos =>
          if pos + 10 >? blen msg then Ok None else
          rtype ← u16_at msg pos;
          rdlen ← u16_at msg (pos + 8);
          let pos := pos + 10 in
          if pos + rdlen >? blen msg then Ok None else
          found ← (if rtype =? RR_HTTPS then parse_svcparams_ech msg pos rdlen else Ok None);
          match found with
          | Some ech => Ok (Some ech)
          | None => answers msg an (pos + rdlen)
          end
      end
  end.

Definition parse_https_ech (msg : bytes) : comp () (option bytes) :=
  if blen msg <? 12 then Ok None else
  qd ← u16_at msg 4;
  an ← u16_at msg 6;
  match skip_questions msg (Z.to_nat qd) 12 with
  | None => Ok None
  | Some pos => answers msg (Z.to_nat an) pos
  end.

Definition answer_ech (msg domain : bytes) : comp AetherError bytes :=
  match parse_https_ech msg with
  | Ok (Some ech) =>
      if is_empty ech then Err (EEch (domain ++ lit " has no HTTPS record with an ech parameter")) else Ok ech
  | Ok None | Err _ => Err (EEch (domain ++ lit " has no HTTPS record with an ech parameter"))
  | Panic => Panic
  end.

(** ** The lookup *)

(** What a UDP lookup sees: the wait for an answer ends and the question is sent
    again, which may fail, or a datagram or an error of the socket comes. *)
Inductive udp_event :=
| Resent (failed : option bytes)
| Received (datagram : bytes)
| RecvFailed (e : bytes).

Definition UDP_BUF : Z := 4096.

(** The loop of the lookup over what the socket does after the question was
    sent; [None]: still asking.  The socket cuts a datagram at the buffer. *)
Fixpoint await_udp (id : Z) (domain : bytes) (evs : list udp_event) : comp AetherError (option bytes) :=
  match evs with
  | [] => Ok None
  | Resent (Some e) :: _ => Err (EIo e)
  | Resent None :: evs => await_udp id domain evs
  | RecvFailed e :: _ => Err (EIo e)
  | Received datagram :: evs =>
      let buf := takez UDP_BUF datagram in
      match response_matches buf id domain RR_HTTPS with
      | Ok true => Some <$> answer_ech buf domain
      | Ok false | Err _ => await_udp id domain evs
      | Panic => Panic
      end
  end.

(** The lookup over a socket that is open: the question is sent, then awaited. *)
Definition query_udp (id : Z) (domain : bytes) (failed : option bytes) (evs : list udp_event)
  : comp AetherError (option bytes) :=
  match failed with Some e => Err (EIo e) | None => await_udp id domain evs end.

(** A TCP lookup: what the stream delivers is the bytes of the reply. *)
Definition query_tcp (id : Z) (domain : bytes) (stream : bytes) : comp AetherError bytes :=
  let eof := EIo (lit "early eof") in
  len ← ok_or (slice stream 0 2) eof;
  msg ← ok_or (slice stream 2 (2 + be_val len)) eof;
  match response_matches msg id domain RR_HTTPS with
  | Ok true => answer_ech msg domain
  | Ok false | Err _ => Err (EEch (lit "the reply does not match the query"))
  | Panic => Panic
  end.

(** The part of reqwest's [Url] the lookup uses. *)
Record Url := mk_url {
  host_str : option bytes; url_path : bytes; url_query : option bytes; url_port : option Z }.

Class Urls := url_parse : bytes → comp bytes Url.

Definition doh_request `{Urls} (endpoint : DohEndpoint) (domain : bytes) (id : Z) : comp AetherError Request :=
  parsed ← map_err (λ e, EEch (url endpoint ++ lit ": " ++ e)) (url_parse (url endpoint));
  host ← ok_or (host_str parsed) (EEch (url endpoint ++ lit " names no host"));
  let host := trim_end_matches 93 (trim_start_matches 91 host) in
  let path := match url_query parsed with
              | Some query => url_path parsed ++ lit "?" ++ query
              | None => url_path parsed
              end in
  let query := <[0%nat := 0]> (<[1%nat := 0]> (build_query id domain RR_HTTPS)) in
  let headers := [(lit "Content-Type", lit "application/dns-message");
                  (lit "Accept", lit "application/dns-message")] in
  let port := default 443 (url_port parsed) in
  Ok (mk_request (lit "POST") host port ((λ a, (a, port)) <$> doh_address endpoint)
        (doh_sni endpoint) path headers (Some query)).

(** [send] is [https::send]: the status and the body. *)
Definition query_https `{Urls} (send : Request → comp AetherError (Z * bytes))
  (endpoint : DohEndpoint) (domain : bytes) (id : Z) : comp AetherError bytes :=
  request ← doh_request endpoint domain id;
  '(status, msg) ← map_err (λ e, EEch (display e)) (send request);
  if negb ((200 <=? status) && (status <? 300)) then Err (EEch (lit "answered " ++ decimal status)) else
  match response_matches msg 0 domain RR_HTTPS with
  | Ok true => answer_ech msg domain
  | Ok false | Err _ => Err (EEch (lit "the reply does not match the query"))
  | Panic => Panic
  end.

(** [query] asks a resolver for a domain; [None] when the lookup timed out. *)
Definition fetch_ech_config (env : environment) (lookup : EchLookup)
  (query : EchDns → bytes → option (comp AetherError bytes)) : comp AetherError bytes :=
  dns ← map_err (λ e, EEch (dns_flag lookup ++ lit ": " ++ e)) (configured_dns env lookup);
  domain ← map_err (λ e, EEch (domain_flag lookup ++ lit ": " ++ e)) (configured_domain env lookup);
  match query dns domain with
  | Some (Ok ech) => Ok ech
  | Some (Err e) =>
      Err (EEch (domain ++ lit " via " ++ ech_dns_show dns ++ lit " failed: " ++ ech_reason e))
  | Some Panic => Panic
  | None => Err (EEch (ech_dns_show dns ++ lit " did not answer for " ++ domain))
  end.

End dns.

(** ** Reading a message *)

Lemma u16_at_suffix msg i v r : u16 v → suffix_at msg i (be_bytes 2 v ++ r) → u16_at msg i = Ok v.
Proof.
  intros Hv Hs. destruct (be_bytes_2 v Hv) as (a & b & E & _ & _ & Ev). rewrite E in Hs.
  unfold u16_at, index. rewrite (suffix_at_get _ _ _ _ Hs).
  rewrite (suffix_at_get _ _ _ _ (suffix_at_cons _ _ _ _ Hs)). cbn [or_panic mbind comp_bind].
  by rewrite be_val_2, Ev.
Qed.

Lemma u16_at_ok msg i : 0 ≤ i → i + 2 ≤ blen msg → ∃ v, u16_at msg i = Ok v ∧ (bytes_ok msg → u16 v).
Proof.
  intros H1 H2. unfold u16_at, index.
  destruct (get_is_Some msg i) as [a Ha]; [lia|]. destruct (get_is_Some msg (i + 1)) as [b Hb]; [lia|].
  rewrite Ha, Hb. cbn [or_panic mbind comp_bind]. eexists. split; [done|]. intros Hok.
  pose proof (get_ok _ _ _ Hok Ha). pose proof (get_ok _ _ _ Hok Hb). rewrite be_val_2. unfold u8, u16 in *. lia.
Qed.

(** What a big-endian pair of a message spells. *)
Lemma u16_at_bytes msg i v :
  bytes_ok msg → u16_at msg i = Ok v → ∃ r, suffix_at msg i (be_bytes 2 v ++ r).
Proof.
  intros Hok. unfold u16_at, index. destruct (get msg i) as [a|] eqn:Ha; [|done].
  destruct (get msg (i + 1)) as [b|] eqn:Hb; [|done]. cbn [or_panic mbind comp_bind]. intros [= <-].
  pose proof (get_range _ _ _ Ha). pose proof (get_range _ _ _ Hb).
  exists (dropz (i + 2) msg).
  assert (be_bytes 2 (be_val [a; b]) = [a; b]) as ->.
  { apply (be_bytes_be_val [a; b]). repeat constructor; by eapply get_ok. }
  pose proof (suffix_at_drop msg i ltac:(lia)) as S. destruct (dropz i msg) as [|x l] eqn:El.
  { apply suffix_at_len in S. rewrite blen_nil in S. lia. }
  rewrite (suffix_at_get _ _ _ _ S) in Ha. injection Ha as ->. pose proof (suffix_at_cons _ _ _ _ S) as S1.
  destruct l as [|y l]. { apply suffix_at_len in S1. rewrite blen_nil in S1. lia. }
  rewrite (suffix_at_get _ _ _ _ S1) in Hb. injection Hb as ->. pose proof (suffix_at_cons _ _ _ _ S1) as S2.
  replace (i + 1 + 1) with (i + 2) in S2 by lia.
  by rewrite (suffix_at_det _ _ _ _ (suffix_at_drop msg (i + 2) ltac:(lia)) S2).
Qed.

(** ** The question of a reply *)

Definition label_enc (l : bytes) : bytes := blen l :: l.
Definition labels_enc (ls : list bytes) : bytes := concat (label_enc <$> ls).

(** The same label, in any case. *)
Definition same_label (a b : bytes) : Prop := eq_ignore_ascii_case a b = true.

Section labels.
Context {w : arch}.

Lemma match_labels_complete msg pos ls ls' r :
  blen msg < 2 ^ 31 → Forall2 same_label ls' ls → suffix_at msg pos (labels_enc ls' ++ r) →
  match_labels msg pos ls = Ok (Some (pos + blen (labels_enc ls'))).
Proof.
  intros Hm Hls. revert pos. induction Hls as [|l' l ls' ls Hl Hls IH]; intros pos Hs.
  - cbn. do 2 f_equal. rewrite blen_nil. lia.
  - change (labels_enc (l' :: ls')) with (label_enc l' ++ labels_enc ls') in *. unfold label_enc in *.
    cbn [app] in Hs. cbn [match_labels]. rewrite (suffix_at_get _ _ _ _ Hs).
    pose proof (eq_ignore_ascii_case_length _ _ Hl) as Hlen. rewrite Hlen, Z.eqb_refl. cbn [negb].
    pose proof (suffix_at_len _ _ _ Hs) as Hb. pose proof (suffix_at_nonneg _ _ _ Hs).
    rewrite blen_cons, !blen_app in Hb. blen_pos.
    apply suffix_at_cons in Hs. rewrite <- app_assoc in Hs. rewrite <- Hlen, checked_add_small by lia.
    destruct (Z.leb_spec (pos + 1 + blen l') (blen msg)); [|lia]. cbn [negb].
    unfold index_range. rewrite (suffix_at_slice _ _ _ _ _ Hs) by done. cbn [or_panic mbind comp_bind].
    unfold same_label in Hl. rewrite Hl. cbn [negb]. apply suffix_at_app in Hs.
    rewrite (IH _ Hs). do 2 f_equal. rewrite blen_app, blen_cons. lia.
Qed.

Lemma match_labels_sound msg pos ls pos' :
  0 ≤ pos → match_labels msg pos ls = Ok (Some pos') →
  pos ≤ pos' ∧ ∃ ls', Forall2 same_label ls' ls ∧ pos' = pos + blen (labels_enc ls') ∧
  (pos ≤ blen msg → pos' ≤ blen msg ∧ ∃ r, suffix_at msg pos (labels_enc ls' ++ r)).
Proof.
  revert pos. induction ls as [|l ls IH]; intros pos Hp H.
  - injection H as <-. split; [done|]. exists []. split; [done|]. split; [cbn; rewrite blen_nil; lia|].
    intros Hle. split; [done|]. exists (dropz pos msg). cbn. apply suffix_at_drop. lia.
  - cbn [match_labels] in H. destruct (get msg pos) as [len|] eqn:Eg; [|done].
    destruct (Z.eqb_spec len (blen l)) as [->|]; [|done]. cbn [negb] in H.
    unfold checked_add in H. destruct (pos + 1 + blen l <=? usize_max w); [|done].
    destruct (Z.leb_spec (pos + 1 + blen l) (blen msg)) as [Hle|]; [|done]. cbn [negb] in H.
    blen_pos. destruct (index_range_ok (E := ()) msg (pos + 1) (pos + 1 + blen l)) as (s & Es & Hsl & Hlen); [lia..|].
    rewrite Es in H. cbn [mbind comp_bind] in H.
    destruct (eq_ignore_ascii_case s l) eqn:Eq; [|done]. cbn [negb] in H.
    apply IH in H as (Hge & ls' & Hls & Hpos & Hr); [|lia]. split; [lia|].
    exists (s :: ls'). split; [by constructor|].
    change (labels_enc (s :: ls')) with (label_enc s ++ labels_enc ls').
    assert (blen s = blen l) as Hsl' by lia. unfold label_enc. split.
    { rewrite blen_app, blen_cons. lia. }
    intros _. destruct (Hr Hle) as (Hb & r & Sr). split; [done|]. exists r.
    apply slice_Some in Hsl as (_ & _ & _ & r0 & Ss).
    pose proof (suffix_at_app _ _ _ _ Ss) as Ss2. rewrite Hsl' in Ss2.
    pose proof (suffix_at_det _ _ _ _ Ss2 Sr) as ->.
    pose proof (suffix_at_drop msg pos ltac:(lia)) as S. destruct (dropz pos msg) as [|x t] eqn:Et.
    { apply suffix_at_len in S. rewrite blen_nil in S. lia. }
    rewrite (suffix_at_get _ _ _ _ S) in Eg. injection Eg as ->.
    pose proof (suffix_at_det _ _ _ _ (suffix_at_cons _ _ _ _ S) Ss) as ->.
    cbn [app]. rewrite Hsl', <- app_assoc. done.
Qed.

Lemma match_labels_no_panic msg pos ls : 0 ≤ pos → no_panic (match_labels msg pos ls).
Proof.
  revert pos. induction ls as [|l ls IH]; intros pos Hp; [done|]. cbn [match_labels].
  destruct (get msg pos) as [len|]; [|done]. destruct (Z.eqb_spec len (blen l)) as [->|]; [|done]. cbn [negb].
  unfold checked_add. destruct (_ <=? usize_max w); [|done].
  destruct (Z.leb_spec (pos + 1 + blen l) (blen msg)); [|done]. cbn [negb]. blen_pos.
  destruct (index_range_ok (E := ()) msg (pos + 1) (pos + 1 + blen l)) as (s & -> & _); [lia..|].
  cbn [mbind comp_bind]. destruct (eq_ignore_ascii_case s l); [|done]. apply IH. lia.
Qed.

(** A message that answers the question: the id, a response, one question,
    about the name in any case and the type. *)
Definition answers_question (msg : bytes) (id : Z) (name : bytes) (qtype : Z) : Prop :=
  ∃ f1 f2 counts ls tail_,
    msg = be_bytes 2 id ++ [f1; f2] ++ be_bytes 2 1 ++ counts ++ labels_enc ls ++ [0]
          ++ be_bytes 2 qtype ++ tail_ ∧
    Z.land f1 0x80 ≠ 0 ∧ blen counts = 6 ∧ Forall2 same_label ls (labels name) ∧ 2 ≤ blen tail_.

Lemma response_matches_complete msg id name qtype :
  u16 id → u16 qtype → blen msg < 2 ^ 31 → answers_question msg id name qtype →
  response_matches msg id name qtype = Ok true.
Proof.
  intros Hid Hq Hm (f1 & f2 & counts & ls & tail_ & E & Hf & Hc & Hls & Ht).
  assert (suffix_at msg 0 msg) as S0 by apply suffix_at_0. rewrite E in S0 at 2.
  pose proof (suffix_at_len _ _ _ S0) as Hl. rewrite !blen_app, !blen_be_bytes in Hl.
  change (blen [f1; f2]) with 2 in Hl. change (blen [0]) with 1 in Hl. blen_pos.
  unfold response_matches. destruct (Z.ltb_spec (blen msg) 12); [lia|].
  rewrite (u16_at_suffix _ _ _ _ Hid S0). cbn [mbind comp_bind]. rewrite Z.eqb_refl. cbn [negb].
  apply suffix_at_app in S0. rewrite blen_be_bytes in S0. change (0 + Z.of_nat 2) with 2 in S0.
  unfold index. rewrite (suffix_at_get _ _ _ _ S0). cbn [or_panic mbind comp_bind].
  destruct (Z.eqb_spec (Z.land f1 128) 0); [done|].
  apply suffix_at_app in S0. change (2 + blen [f1; f2]) with 4 in S0.
  rewrite (u16_at_suffix _ _ 1 _ ltac:(by split) S0). cbn [mbind comp_bind Z.eqb Pos.eqb negb].
  apply suffix_at_app, suffix_at_app in S0. rewrite Hc, blen_be_bytes in S0.
  change (4 + Z.of_nat 2 + 6) with 12 in S0.
  rewrite (match_labels_complete msg 12 (labels name) ls _ Hm Hls S0). cbn [mbind comp_bind].
  apply suffix_at_app in S0. rewrite (suffix_at_get _ _ _ _ S0). apply suffix_at_cons in S0.
  pose proof (suffix_at_len _ _ _ S0) as Hl2. rewrite !blen_app, !blen_be_bytes in Hl2.
  destruct (Z.gtb_spec (12 + blen (labels_enc ls) + 1 + 4) (blen msg)); [lia|].
  rewrite (u16_at_suffix _ _ _ _ Hq S0). cbn [mbind comp_bind]. by rewrite Z.eqb_refl.
Qed.

Lemma response_matches_sound msg id name qtype :
  bytes_ok msg → response_matches msg id name qtype = Ok true → answers_question msg id name qtype.
Proof.
  intros Hok H. unfold response_matches in H. destruct (Z.ltb_spec (blen msg) 12); [done|].
  destruct (u16_at msg 0) as [id'| |] eqn:E0; [|done..]. cbn [mbind comp_bind] in H.
  destruct (Z.eqb_spec id' id) as [->|]; [|done]. cbn [negb] in H.
  unfold index in H. destruct (get msg 2) as [f1|] eqn:E2; [|done]. cbn [or_panic mbind comp_bind] in H.
  destruct (Z.eqb_spec (Z.land f1 128) 0) as [|Hf]; [done|].
  destruct (u16_at msg 4) as [qd| |] eqn:E4; [|done..]. cbn [mbind comp_bind] in H.
  destruct (Z.eqb_spec qd 1) as [->|]; [|done]. cbn [negb] in H.
  destruct (match_labels msg 12 (labels name)) as [[pos|]| |] eqn:El; [|done..]. cbn [mbind comp_bind] in H.
  destruct (get msg pos) as [z|] eqn:Ez; [|done]. destruct z; [|done..].
  destruct (Z.gtb_spec (pos + 1 + 4) (blen msg)) as [|Hlen]; [done|].
  destruct (u16_at msg (pos + 1)) as [qt| |] eqn:Eq; [|done..]. cbn [mbind comp_bind] in H.
  injection H as Hqt. apply Z.eqb_eq in Hqt as ->.
  apply match_labels_sound in El as (Hge & ls & Hls & Hpos & Hr); [|lia].
  destruct (Hr ltac:(lia)) as (_ & r & Sl).
  destruct (u16_at_bytes _ _ _ Hok E0) as (r0 & S0). destruct (u16_at_bytes _ _ _ Hok E4) as (r4 & S4).
  destruct (u16_at_bytes _ _ _ Hok Eq) as (r6 & S6).
  (* Glue the pieces: each suffix continues in the next. *)
  apply suffix_at_app in S0 as S2. change (0 + blen (be_bytes 2 id)) with 2 in S2.
  destruct r0 as [|x r0]; [apply suffix_at_len in S2; rewrite blen_nil in S2; lia|].
  rewrite (suffix_at_get _ _ _ _ S2) in E2. injection E2 as ->. apply suffix_at_cons in S2 as S3.
  destruct r0 as [|f2 r0]; [apply suffix_at_len in S3; rewrite blen_nil in S3; lia|].
  apply suffix_at_cons in S3 as S3'. pose proof (suffix_at_det _ _ _ _ S3' S4) as ->.
  apply suffix_at_app in S4 as S5. change (4 + blen (be_bytes 2 1)) with 6 in S5.
  pose proof (suffix_at_len _ _ _ S5) as Hl5.
  assert (suffix_at msg 12 (dropz 6 r4)) as S12.
  { rewrite <- (takez_dropz 6 r4) in S5. apply suffix_at_app in S5. rewrite blen_takez in S5 by lia. done. }
  pose proof (suffix_at_det _ _ _ _ S12 Sl) as Er4.
  apply suffix_at_app in Sl as Sz. rewrite <- Hpos in Sz.
  destruct r as [|z r]; [apply suffix_at_len in Sz; rewrite blen_nil in Sz; lia|].
  rewrite (suffix_at_get _ _ _ _ Sz) in Ez. injection Ez as ->.
  pose proof (suffix_at_det _ _ _ _ (suffix_at_cons _ _ _ _ Sz) S6) as ->.
  exists f1, f2, (takez 6 r4), ls, r6. split.
  { pose proof (suffix_at_det _ _ _ _ (suffix_at_0 msg) S0) as Em. rewrite Em at 1.
    cbn [app]. do 4 f_equal. rewrite <- Er4. by rewrite takez_dropz. }
  split; [done|]. split; [apply blen_takez; lia|]. split; [done|].
  apply suffix_at_app, suffix_at_len in S6. rewrite blen_be_bytes in S6. lia.
Qed.

(** A reply is taken exactly when it answers the question that was
    asked: its id, the response bit, one question about the name (in any
    letter case) and the type; anything else an off-path sender could guess
    wrong is turned down. *)
Theorem response_matches_exact (msg name : bytes) (id qtype : Z)
  (Hmsg : bytes_ok msg) (Hid : u16 id) (Hq : u16 qtype) (Hl : blen msg < 2 ^ 31) :
  response_matches msg id name qtype = Ok true ↔ answers_question msg id name qtype.
Proof.
  split; [by apply response_matches_sound|by apply response_matches_complete].
Qed.

End labels.

(** ** The answer section *)

Section answer.
Context {w : arch}.

Lemma skip_name_decreasing buf :
  bytes_ok buf → Decreasing (λ pos, Z.to_nat (blen buf - pos)) (name_step buf).
Proof.
  intros Hb pos pos'. unfold name_step. destruct (get buf pos) as [len|] eqn:E; [|done].
  destruct (_ =? 0xc0); [done|]. destruct (len =? 0); [done|]. intros [= <-].
  pose proof (get_range _ _ _ E). apply get_ok in E; [|done]. unfold u8 in E. lia.
Qed.

Lemma skip_name_bounds buf pos pos' :
  bytes_ok buf → 0 ≤ pos → skip_name buf pos = Some pos' → pos < pos'.
Proof.
  intros Hb Hp. unfold skip_name. pose proof (skip_name_decreasing buf Hb).
  enough (∀ s, 0 ≤ s → ∀ q, loop (λ pos, Z.to_nat (blen buf - pos)) (name_step buf) None s = Some q → s < q)
    as Hx by (by apply Hx).
  apply (loop_ind _ (name_step buf) (λ s, 0 ≤ s) (λ s r, ∀ q, r = Some q → s < q)).
  - intros s r Hs E q ->. unfold name_step in E. destruct (get buf s); [|done].
    destruct (_ =? 0xc0); [injection E as <-; lia|]. destruct (_ =? 0); [injection E as <-; lia|done].
  - intros s s' r Hs E IH q Hq. apply IH in Hq. unfold name_step in E.
    destruct (get buf s) as [len|] eqn:Eg; [|done]. destruct (_ =? 0xc0); [done|].
    destruct (_ =? 0); [done|]. injection E as <-. apply get_ok in Eg; [|done]. unfold u8 in Eg. lia.
  - intros s s' Hs E. unfold name_step in E. destruct (get buf s) as [len|] eqn:Eg; [|done].
    destruct (_ =? 0xc0); [done|]. destruct (_ =? 0); [done|]. injection E as <-.
    apply get_ok in Eg; [|done]. unfold u8 in Eg. lia.
Qed.

Lemma param_decreasing msg e :
  bytes_ok msg → Decreasing (λ p, Z.to_nat (e - p)) (param_step msg e).
Proof.
  intros Hb p p'. unfold param_step. destruct (Z.leb_spec (p + 4) e); [|done].
  destruct (u16_at msg p) as [key| |]; [|done..]. cbn [mbind comp_bind].
  destruct (u16_at msg (p + 2)) as [len| |] eqn:E; [|done..]. cbn [mbind comp_bind].
  destruct (_ >? e); [done|]. destruct (key =? _); [done|]. intros [= <-].
  destruct (u16_at_bytes _ _ _ Hb E) as (r & S).
  assert (u16 len) as Hu; [|unfold u16 in Hu; lia].
  pose proof (suffix_at_nonneg _ _ _ S). pose proof (suffix_at_len _ _ _ S) as Hl.
  rewrite blen_app, blen_be_bytes in Hl. blen_pos.
  destruct (u16_at_ok msg (p + 2)) as (v & Ev & Hv); [lia..|]. rewrite Ev in E. injection E as ->. by apply Hv.
Qed.

Lemma parse_svcparams_no_panic msg start len :
  bytes_ok msg → 0 ≤ start → start + len ≤ blen msg → no_panic (parse_svcparams_ech msg start len).
Proof.
  intros Hb Hs Hl. unfold parse_svcparams_ech. destruct (_ >? _); [done|].
  destruct (skip_name msg (start + 2)) as [p|] eqn:Ep; [|done]. apply skip_name_bounds in Ep; [|done|lia].
  pose proof (param_decreasing msg (start + len) Hb).
  apply (loop_ind _ (param_step msg (start + len)) (λ p, 0 ≤ p) (λ _ r, no_panic r)); [|done| |lia].
  - intros q r Hq E. unfold param_step in E. destruct (Z.leb_spec (q + 4) (start + len)); [|by injection E as <-].
    destruct (u16_at_ok msg q) as (k & Ek & _); [lia..|].
    destruct (u16_at_ok msg (q + 2)) as (n & En & Hn); [lia..|]. specialize (Hn Hb).
    rewrite Ek, En in E. cbn [mbind comp_bind] in E.
    destruct (Z.gtb_spec (q + 4 + n) (start + len)); [by injection E as <-|].
    destruct (k =? _); [|done]. injection E as <-. unfold u16 in Hn.
    by destruct (index_range_ok (E := ()) msg (q + 4) (q + 4 + n)) as (s & -> & _); [lia..|].
  - intros q q' Hq E. unfold param_step in E. destruct (Z.leb_spec (q + 4) (start + len)); [|done].
    destruct (u16_at_ok msg q) as (k & Ek & _); [lia..|].
    destruct (u16_at_ok msg (q + 2)) as (n & En & Hn); [lia..|]. specialize (Hn Hb).
    rewrite Ek, En in E. cbn [mbind comp_bind] in E.
    destruct (_ >? _); [done|]. destruct (k =? _); [done|]. injection E as <-. unfold u16 in Hn. lia.
Qed.

Lemma answers_no_panic msg an pos : bytes_ok msg → 0 ≤ pos → no_panic (answers msg an pos).
Proof.
  intros Hb. revert pos. induction an as [|an IH]; intros pos Hp; [done|]. cbn [answers].
  destruct (skip_name msg pos) as [q|] eqn:Eq; [|done]. apply skip_name_bounds in Eq; [|done..].
  destruct (Z.gtb_spec (q + 10) (blen msg)); [done|].
  destruct (u16_at_ok msg q) as (t & -> & _); [lia..|].
  destruct (u16_at_ok msg (q + 8)) as (n & -> & Hn); [lia..|]. specialize (Hn Hb). unfold u16 in Hn.
  cbn [mbind comp_bind]. destruct (Z.gtb_spec (q + 10 + n) (blen msg)); [done|].
  apply no_panic_bind.
  - destruct (t =? RR_HTTPS); [|done]. apply parse_svcparams_no_panic; [done|lia..].
  - intros [ech|] _; [done|]. apply IH. lia.
Qed.

Lemma skip_questions_bounds msg n pos pos' :
  bytes_ok msg → 0 ≤ pos → skip_questions msg n pos = Some pos' → 0 ≤ pos'.
Proof.
  intros Hb. revert pos. induction n as [|n IH]; intros pos Hp; cbn [skip_questions]; [by intros [= <-]|].
  destruct (skip_name msg pos) as [q|] eqn:Eq; cbn [mbind option_bind]; [|done].
  apply skip_name_bounds in Eq; [|done..].
  unfold checked_add. destruct (_ <=? _); cbn [mbind option_bind]; [|done]. apply IH. lia.
Qed.

Lemma response_matches_no_panic msg name id qtype : no_panic (response_matches msg id name qtype).
Proof.
  unfold response_matches. destruct (Z.ltb_spec (blen msg) 12); [done|].
  destruct (u16_at_ok msg 0) as (a & -> & _); [lia..|]. cbn [mbind comp_bind].
  destruct (negb _); [done|]. unfold index.
  destruct (get_is_Some msg 2) as [f ->]; [lia|]. cbn [or_panic mbind comp_bind].
  destruct (_ =? 0); [done|]. destruct (u16_at_ok msg 4) as (b & -> & _); [lia..|]. cbn [mbind comp_bind].
  destruct (negb _); [done|]. apply no_panic_bind; [by apply match_labels_no_panic|].
  intros [pos|] E; [|done]. apply match_labels_sound in E as [Hge _]; [|lia].
  destruct (get msg pos) as [[]|]; [|done..].
  destruct (Z.gtb_spec (pos + 1 + 4) (blen msg)); [done|].
  by destruct (u16_at_ok msg (pos + 1)) as (c & -> & _); [lia..|].
Qed.

Lemma parse_https_ech_no_panic msg : bytes_ok msg → no_panic (parse_https_ech msg).
Proof.
  intros Hmsg.
  unfold parse_https_ech. destruct (Z.ltb_spec (blen msg) 12); [done|].
  destruct (u16_at_ok msg 4) as (a & -> & _); [lia..|].
  destruct (u16_at_ok msg 6) as (b & -> & _); [lia..|]. cbn [mbind comp_bind].
  destruct (skip_questions msg (Z.to_nat a) 12) as [pos|] eqn:E; [|done].
  apply skip_questions_bounds in E; [|done|lia]. by apply answers_no_panic.
Qed.

(** No reply can crash the lookup: on any bytes a server sends,
    matching the reply and reading its records returns. *)
Theorem dns_parsers_safe (msg name : bytes) (id qtype : Z) (Hmsg : bytes_ok msg) :
  no_panic (response_matches msg id name qtype) ∧ no_panic (parse_https_ech msg).
Proof. split; [apply response_matches_no_panic|by apply parse_https_ech_no_panic]. Qed.

(** ** A reply on the wire (RFC 1035, RFC 9460) *)

(** A name: labels, then the root or a compression pointer. *)
Record wire_name := mk_name { wn_labels : list bytes; wn_pointer : option (Z * Z) }.

Definition name_enc (n : wire_name) : bytes :=
  labels_enc (wn_labels n)
  ++ match wn_pointer n with None => [0] | Some (a, b) => [0xc0 + a; b] end.

Definition name_ok (n : wire_name) : Prop :=
  Forall (λ l, 1 ≤ blen l ≤ 63) (wn_labels n) ∧
  match wn_pointer n with None => True | Some (a, b) => 0 ≤ a < 64 ∧ u8 b end.

(** A record: of another type, or an HTTPS record with its parameters. *)
Inductive record :=
| OtherRecord (name : wire_name) (type : Z) (fixed data : bytes)
| HttpsRecord (name : wire_name) (fixed : bytes) (priority : Z) (target : wire_name)
    (params : list (Z * bytes)).

Definition rdata (r : record) : bytes :=
  match r with
  | OtherRecord _ _ _ data => data
  | HttpsRecord _ _ priority target params => be_bytes 2 priority ++ name_enc target ++ Tls.exts_enc params
  end.

(** [fixed] is the class and the time to live. *)
Definition record_enc (r : record) : bytes :=
  match r with
  | OtherRecord name type fixed data => name_enc name ++ be_bytes 2 type ++ fixed
  | HttpsRecord name fixed _ _ _ => name_enc name ++ be_bytes 2 RR_HTTPS ++ fixed
  end ++ be_bytes 2 (blen (rdata r)) ++ rdata r.

Definition record_ok (r : record) : Prop :=
  u16 (blen (rdata r)) ∧
  match r with
  | OtherRecord name type fixed _ => name_ok name ∧ u16 type ∧ type ≠ RR_HTTPS ∧ blen fixed = 6
  | HttpsRecord name fixed _ target params =>
      name_ok name ∧ blen fixed = 6 ∧ name_ok target ∧ Forall (λ p, u16 p.1) params
  end.

Fixpoint ech_param (ps : list (Z * bytes)) : option bytes :=
  match ps with
  | [] => None
  | (k, v) :: ps => if k =? SVCPARAM_ECH then Some v else ech_param ps
  end.

(** The ech parameter of the first HTTPS record that has one. *)
Fixpoint first_ech (rs : list record) : option bytes :=
  match rs with
  | [] => None
  | HttpsRecord _ _ _ _ params :: rs =>
      match ech_param params with Some v => Some v | None => first_ech rs end
  | OtherRecord _ _ _ _ :: rs => first_ech rs
  end.

Lemma land_c0_small v : 0 ≤ v < 192 → (Z.land v 0xc0 =? 0xc0) = false.
Proof.
  intros Hv. apply Z.eqb_neq. intros E.
  pose proof (Z.land_spec v 0xc0 7) as H7. pose proof (Z.land_spec v 0xc0 6) as H6. rewrite E in H7, H6.
  change (Z.testbit 0xc0 7) with true in H7. change (Z.testbit 0xc0 6) with true in H6.
  rewrite andb_true_r in H7, H6. symmetry in H7, H6.
  apply Z.testbit_true in H7; [|lia]. apply Z.testbit_true in H6; [|lia].
  change (2 ^ 7) with 128 in H7. change (2 ^ 6) with 64 in H6.
  Z.to_euclidean_division_equations. lia.
Qed.

Lemma land_c0_pointer a : 0 ≤ a < 64 → (Z.land (0xc0 + a) 0xc0 =? 0xc0) = true.
Proof.
  intros Ha. apply Z.eqb_eq. apply Z.bits_inj'. intros n Hn. rewrite Z.land_spec.
  destruct (Z.testbit 0xc0 n) eqn:E; [|by rewrite andb_false_r]. rewrite andb_true_r.
  assert (n = 6 ∨ n = 7) as [-> | ->].
  { destruct (Z.lt_ge_cases n 8) as [Hn8|Hn8].
    - assert (n = 0 ∨ n = 1 ∨ n = 2 ∨ n = 3 ∨ n = 4 ∨ n = 5 ∨ n = 6 ∨ n = 7) as Hc by lia.
      destruct Hc as [->|[->|[->|[->|[->|[->|[->| ->]]]]]]]; cbn in E; auto; done.
    - rewrite Z.bits_above_log2 in E; [done|lia|cbn; lia]. }
  - apply Z.testbit_true; [lia|]. change (2 ^ 6) with 64. Z.to_euclidean_division_equations. lia.
  - apply Z.testbit_true; [lia|]. change (2 ^ 7) with 128. Z.to_euclidean_division_equations. lia.
Qed.

Lemma skip_name_enc buf pos n r :
  bytes_ok buf → name_ok n → suffix_at buf pos (name_enc n ++ r) →
  skip_name buf pos = Some (pos + blen (name_enc n)).
Proof.
  intros Hb [Hls Hp]. unfold skip_name. pose proof (skip_name_decreasing buf Hb). unfold name_enc.
  remember (match wn_pointer n with None => [0] | Some (a, b) => [0xc0 + a; b] end) as e eqn:Ee.
  revert pos. induction Hls as [|l ls Hl _ IH]; intros pos Hs.
  - cbn [labels_enc concat fmap list_fmap app] in *. rewrite loop_unfold by done. unfold name_step at 1.
    destruct (wn_pointer n) as [[a b]|]; subst e; cbn [app] in Hs; rewrite (suffix_at_get _ _ _ _ Hs).
    + destruct Hp as [Ha _]. by rewrite land_c0_pointer.
    + done.
  - change (labels_enc (l :: ls)) with (label_enc l ++ labels_enc ls) in *. rewrite <- !app_assoc in Hs.
    unfold label_enc at 1 in Hs. rewrite loop_unfold by done. unfold name_step at 1.
    rewrite (suffix_at_get _ _ _ _ Hs), land_c0_small by lia.
    destruct (Z.eqb_spec (blen l) 0); [lia|].
    change (blen l :: l) with ([blen l] ++ l) in Hs. rewrite <- app_assoc in Hs.
    apply suffix_at_app, suffix_at_app in Hs. change (blen [blen l]) with 1 in Hs.
    replace (pos + (1 + blen l)) with (pos + 1 + blen l) by lia. rewrite app_assoc in Hs.
    rewrite IH by done. f_equal. unfold label_enc. rewrite !blen_app, blen_cons. lia.
Qed.

Lemma param_walk msg p ps r e :
  bytes_ok msg → Forall (λ p, u16 p.1 ∧ u16 (blen p.2)) ps → suffix_at msg p (Tls.exts_enc ps ++ r) →
  e = p + blen (Tls.exts_enc ps) →
  loop (λ p, Z.to_nat (e - p)) (param_step msg e) Panic p = Ok (ech_param ps).
Proof.
  intros Hb Hps. pose proof (param_decreasing msg e Hb). revert p.
  induction Hps as [|[k v] ps [Hk Hv] _ IH]; intros p Hs He; rewrite loop_unfold by done; unfold param_step at 1.
  - cbn in He. rewrite blen_nil in He. destruct (Z.leb_spec (p + 4) e); [lia|done].
  - change (Tls.exts_enc ((k, v) :: ps)) with ((be_bytes 2 k ++ be_bytes 2 (blen v) ++ v) ++ Tls.exts_enc ps) in *.
    cbn [fst snd] in *.
    rewrite !blen_app, !blen_be_bytes in He. rewrite <- !app_assoc in Hs. blen_pos.
    destruct (Z.leb_spec (p + 4) e); [|lia]. rewrite (u16_at_suffix _ _ _ _ Hk Hs).
    apply suffix_at_app in Hs. rewrite blen_be_bytes in Hs. change (Z.of_nat 2) with 2 in Hs.
    rewrite (u16_at_suffix _ _ _ _ Hv Hs). cbn [mbind comp_bind].
    apply suffix_at_app in Hs. rewrite blen_be_bytes in Hs.
    replace (p + 2 + Z.of_nat 2) with (p + 4) in Hs by lia.
    destruct (Z.gtb_spec (p + 4 + blen v) e); [lia|]. cbn [ech_param].
    destruct (k =? SVCPARAM_ECH).
    + unfold index_range. by rewrite (suffix_at_slice _ _ _ _ _ Hs) by done.
    + apply suffix_at_app in Hs. apply IH; [done|lia].
Qed.

Lemma answers_step msg pos name type fixed data r an :
  bytes_ok msg → name_ok name → u16 type → blen fixed = 6 → u16 (blen data) →
  suffix_at msg pos ((name_enc name ++ be_bytes 2 type ++ fixed) ++ be_bytes 2 (blen data) ++ data ++ r) →
  ∃ p, suffix_at msg p (data ++ r) ∧
  answers msg (S an) pos =
    (found ← (if type =? RR_HTTPS then parse_svcparams_ech msg p (blen data) else Ok None);
     match found with Some ech => Ok (Some ech) | None => answers msg an (p + blen data) end).
Proof.
  intros Hb Hn Ht Hf Hd Hs. exists (pos + blen (name_enc name) + 10).
  rewrite <- !app_assoc in Hs. cbn [answers]. rewrite (skip_name_enc _ _ _ _ Hb Hn Hs).
  apply suffix_at_app in Hs. set (q := pos + blen (name_enc name)) in *.
  assert (suffix_at msg (q + 8) (be_bytes 2 (blen data) ++ data ++ r)) as S8.
  { apply suffix_at_app, suffix_at_app in Hs. rewrite blen_be_bytes, Hf in Hs.
    by replace (q + 8) with (q + Z.of_nat 2 + 6) by lia. }
  assert (suffix_at msg (q + 10) (data ++ r)) as S10.
  { apply suffix_at_app in S8. rewrite blen_be_bytes in S8. by replace (q + 10) with (q + 8 + Z.of_nat 2) by lia. }
  split; [done|]. pose proof (suffix_at_len _ _ _ S10) as Hl. rewrite blen_app in Hl. blen_pos.
  destruct (Z.gtb_spec (q + 10) (blen msg)); [lia|].
  rewrite (u16_at_suffix _ _ _ _ Ht Hs), (u16_at_suffix _ _ _ _ Hd S8). cbn [mbind comp_bind].
  destruct (Z.gtb_spec (q + 10 + blen data) (blen msg)); [lia|done].
Qed.

(** The records of a reply give their ech parameter. *)
Lemma answers_spec msg pos rs r :
  bytes_ok msg → Forall record_ok rs → suffix_at msg pos (concat (record_enc <$> rs) ++ r) →
  answers msg (length rs) pos = Ok (first_ech rs).
Proof.
  intros Hb Hrs. revert pos. induction Hrs as [|x rs [Hlen Hx] _ IH]; intros pos Hs; [done|].
  cbn [fmap list_fmap concat] in Hs. unfold record_enc at 1 in Hs. rewrite <- (app_assoc _ _ r) in Hs.
  rewrite <- (app_assoc (match x with _ => _ end)) in Hs. rewrite <- (app_assoc (be_bytes 2 _)) in Hs.
  cbn [length].
  destruct x as [name type fixed data|name fixed priority target params]; cbn [rdata first_ech] in *.
  - destruct Hx as (Hn & Ht & Hne & Hf).
    destruct (answers_step msg pos name type fixed data _ (length rs) Hb Hn Ht Hf Hlen Hs) as (p & S & ->).
    destruct (Z.eqb_spec type RR_HTTPS); [done|]. cbn [mbind comp_bind]. apply suffix_at_app in S. by apply IH.
  - destruct Hx as (Hn & Hf & Htg & Hps).
    destruct (answers_step msg pos name RR_HTTPS fixed _ _ (length rs) Hb Hn ltac:(by split) Hf Hlen Hs)
      as (p & S & ->).
    rewrite Z.eqb_refl. unfold parse_svcparams_ech. pose proof S as S'. rewrite <- !app_assoc in S'.
    rewrite !blen_app, blen_be_bytes in *. change (Z.of_nat 2) with 2 in *. blen_pos.
    destruct (Z.gtb_spec (p + 2) (p + (2 + (blen (name_enc target) + blen (Tls.exts_enc params))))); [lia|].
    apply suffix_at_app in S'. rewrite blen_be_bytes in S'. change (Z.of_nat 2) with 2 in S'.
    rewrite (skip_name_enc _ _ _ _ Hb Htg S'). apply suffix_at_app in S'.
    assert (Forall (λ p, u16 p.1 ∧ u16 (blen p.2)) params) as Hps'
      by (apply Tls.exts_lengths; [unfold u16 in *; lia|done]).
    rewrite (param_walk _ _ params _ _ Hb Hps' S') by lia.
    cbn [mbind comp_bind]. destruct (ech_param params); [done|].
    apply suffix_at_app in S. rewrite !blen_app, blen_be_bytes in S. change (Z.of_nat 2) with 2 in S. by apply IH.
Qed.

End answer.

(** ** The lookup, end to end *)

Lemma labels_ok name : valid_domain name = true → Forall (λ l, 1 ≤ blen l ≤ 63) (labels name).
Proof.
  unfold valid_domain. intros [[_ _]%andb_true_iff H]%andb_true_iff.
  assert (∀ ls, forallb valid_domain_label ls = true → Forall (λ l, 1 ≤ blen l ≤ 63) ls) as Hv.
  { intros ls Hls. apply Forall_forall. intros l Hl. rewrite forallb_forall in Hls.
    apply list_elem_of_In, Hls in Hl. unfold valid_domain_label in Hl.
    rewrite !andb_true_iff, Z.leb_le, is_empty_spec in Hl. destruct Hl as [[Hl ?] _].
    apply negb_true_iff, Z.eqb_neq in Hl. blia. }
  assert (∀ ls, forallb valid_domain_label ls = true →
    Forall (λ l, 1 ≤ blen l ≤ 63) (List.filter (λ l, negb (is_empty l)) ls)) as Hf.
  { intros ls Hls%Hv. induction Hls as [|l ls Hl _ IH]; [done|]. cbn.
    destruct (is_empty l); cbn; [done|by constructor]. }
  unfold labels. destruct (strip_suffix [46] name) as [base|] eqn:E; [|by apply Hf].
  apply strip_suffix_Some in E as ->. cbn [default] in H. unfold split.
  rewrite split_by_app_sep by done. rewrite List.filter_app. cbn. rewrite app_nil_r. by apply Hf.
Qed.

Lemma build_query_enc id name qtype :
  Forall (λ l, 1 ≤ blen l ≤ 63) (labels name) →
  build_query id name qtype =
    be_bytes 2 id ++ [0x01; 0x00; 0x00; 0x01; 0; 0; 0; 0; 0; 0]
    ++ labels_enc (labels name) ++ [0] ++ be_bytes 2 qtype ++ [0; 1].
Proof.
  intros Hls. unfold build_query.
  assert (concat ((λ label, as_u8 (blen label) :: label) <$> labels name) = labels_enc (labels name)) as ->; [|done].
  unfold labels_enc. f_equal. induction Hls as [|l ls Hl _ IH]; [done|]. cbn [fmap list_fmap]. f_equal; [|exact IH].
  unfold label_enc, as_u8. by rewrite Z.mod_small by (change (2 ^ 8) with 256; lia).
Qed.

(** A server copies the id and the question of the query and adds records. *)
Definition honest_reply (query : bytes) (f1 f2 : Z) (other : bytes) (rs : list record) (rest : bytes) : bytes :=
  takez 2 query ++ [f1; f2] ++ be_bytes 2 1 ++ be_bytes 2 (blen rs) ++ other
  ++ dropz 12 query ++ concat (record_enc <$> rs) ++ rest.

(** What happens at the socket besides the reply: the wait runs out and the
    question is sent again, or a datagram comes that does not answer it. *)
Definition noise (id : Z) (domain : bytes) (e : udp_event) : Prop :=
  match e with
  | Resent failed => failed = None
  | Received d => bytes_ok d ∧ ¬ answers_question (takez UDP_BUF d) id domain RR_HTTPS
  | RecvFailed _ => False
  end.

Section lookup.
Context {w : arch}.

Lemma same_labels_refl ls : Forall2 same_label ls ls.
Proof. induction ls; constructor; [apply eq_ignore_ascii_case_refl|done]. Qed.

Lemma await_udp_noise id domain evs rest :
  u16 id → Forall (noise id domain) evs → await_udp id domain (evs ++ rest) = await_udp id domain rest.
Proof.
  intros Hid. induction 1 as [|e evs He _ IH]; [done|]. destruct e as [failed|d|]; cbn [app await_udp]; [by rewrite He| |done].
  destruct He as [Hd Hn].
  assert (bytes_ok (takez UDP_BUF d)) as Hok by (by apply Forall_take).
  pose proof (response_matches_no_panic (takez UDP_BUF d) domain id RR_HTTPS) as Hp.
  destruct (response_matches (takez UDP_BUF d) id domain RR_HTTPS) as [[]| |] eqn:E; [|done..].
  apply response_matches_sound in E; [done|done].
Qed.

Lemma honest_reply_shape id domain qtype f1 f2 other rs rest :
  Forall (λ l, 1 ≤ blen l ≤ 63) (labels domain) →
  honest_reply (build_query id domain qtype) f1 f2 other rs rest =
    be_bytes 2 id ++ [f1; f2] ++ be_bytes 2 1 ++ (be_bytes 2 (blen rs) ++ other)
    ++ labels_enc (labels domain) ++ [0] ++ be_bytes 2 qtype ++ [0; 1]
    ++ concat (record_enc <$> rs) ++ rest.
Proof.
  intros Hls. unfold honest_reply. rewrite build_query_enc by done.
  change (takez 2 (be_bytes 2 id ++ ?r)) with (be_bytes 2 id).
  set (q := labels_enc (labels domain) ++ _ : bytes).
  change (dropz 12 (be_bytes 2 id ++ [0x01; 0x00; 0x00; 0x01; 0; 0; 0; 0; 0; 0] ++ q)) with q.
  unfold q. by rewrite <- !app_assoc.
Qed.

(** Where things are in an honest reply: it answers the question, and behind
    the one question come the records. *)
Lemma honest_reply_layout id domain qtype f1 f2 other rs rest :
  let msg := honest_reply (build_query id domain qtype) f1 f2 other rs rest in
  u16 id → u16 qtype → Forall (λ l, 1 ≤ blen l ≤ 63) (labels domain) → Z.land f1 0x80 ≠ 0 → blen other = 4 →
  bytes_ok msg → blen msg < 65536 →
  response_matches msg id domain qtype = Ok true ∧ 12 ≤ blen msg ∧ get msg 3 = Some f2 ∧
  u16_at msg 4 = Ok 1 ∧ u16_at msg 6 = Ok (blen rs) ∧
  ∃ pos, skip_questions msg 1 12 = Some pos ∧ suffix_at msg pos (concat (record_enc <$> rs) ++ rest).
Proof.
  intros msg Hid Hqt Hls Hf Hother Hok Hlen.
  pose proof (honest_reply_shape id domain qtype f1 f2 other rs rest Hls) as E. fold msg in E.
  split.
  { apply response_matches_complete; [done|done|lia|].
    exists f1, f2, (be_bytes 2 (blen rs) ++ other), (labels domain),
         ([0; 1] ++ concat (record_enc <$> rs) ++ rest). split; [done|]. split; [done|].
       split; [rewrite blen_app, blen_be_bytes; lia|]. split; [apply same_labels_refl|].
       rewrite blen_app. change (blen [0; 1]) with 2. blia. }
  assert (suffix_at msg 0 msg) as S0 by apply suffix_at_0. rewrite E in S0 at 2.
  pose proof (suffix_at_len _ _ _ S0) as Hl. rewrite !blen_app, !blen_be_bytes in Hl.
  change (blen [f1; f2]) with 2 in Hl. change (blen [0]) with 1 in Hl. change (blen [0; 1]) with 2 in Hl. blen_pos.
  split; [lia|]. clearbody msg. clear E. apply suffix_at_app in S0. change (0 + blen (be_bytes 2 id)) with 2 in S0.
  split; [exact (suffix_at_get _ _ _ _ (suffix_at_cons _ _ _ _ S0))|].
  apply suffix_at_app in S0. change (2 + blen [f1; f2]) with 4 in S0.
  split; [exact (u16_at_suffix _ _ 1 _ ltac:(by split) S0)|].
  apply suffix_at_app in S0. change (4 + blen (be_bytes 2 1)) with 6 in S0. rewrite <- !app_assoc in S0.
  assert (u16 (blen rs)) as Hnum.
  { unfold u16. split; [lia|]. enough (blen rs ≤ blen (concat (record_enc <$> rs))) by lia.
    clear. induction rs as [|r rs IH]; [done|].
    change (concat (record_enc <$> r :: rs)) with (record_enc r ++ concat (record_enc <$> rs)).
    rewrite blen_app, blen_cons. enough (2 ≤ blen (record_enc r)) by lia. unfold record_enc.
    rewrite !blen_app, blen_be_bytes. destruct r; blen_pos; lia. }
  split; [exact (u16_at_suffix _ _ _ _ Hnum S0)|].
  apply suffix_at_app, suffix_at_app in S0. rewrite blen_be_bytes, Hother in S0.
  change (6 + Z.of_nat 2 + 4) with 12 in S0. cbn [skip_questions].
  set (qn := mk_name (labels domain) None).
  assert (suffix_at msg 12 (name_enc qn ++ be_bytes 2 qtype ++ [0; 1] ++ concat (record_enc <$> rs) ++ rest)) as Sq
    by (unfold name_enc; cbn [wn_labels wn_pointer qn]; by rewrite <- app_assoc).
  rewrite (skip_name_enc msg 12 qn _ Hok) by done. cbn [mbind option_bind].
  pose proof (suffix_at_len _ _ _ Sq) as Hlq. rewrite !blen_app, blen_be_bytes in Hlq.
  change (blen [0; 1]) with 2 in Hlq. blen_pos.
  rewrite checked_add_small by lia. cbn [mbind option_bind].
  apply suffix_at_app, suffix_at_app, suffix_at_app in Sq. rewrite blen_be_bytes in Sq.
  change (blen [0; 1]) with 2 in Sq. eexists. split; [done|].
  by replace (12 + blen (name_enc qn) + 4) with (12 + blen (name_enc qn) + Z.of_nat 2 + 2) by lia.
Qed.

(** C36. The lookup finds the key: while the socket sends and receives, whatever
    datagrams come first that do not answer the question (no reply, another
    id, name or type, cut short) and however often the question is resent, the
    reply of a server that copies the question and adds any records gives the
    ech parameter of the first HTTPS record that has one.  A datagram with the
    id and the question of the query is taken for the reply, whoever sent it. *)
Theorem udp_lookup_finds_key (id f1 f2 : Z) (domain other rest ech : bytes) (rs : list record)
  (before after : list udp_event)
  (Hid : u16 id) (Hdom : valid_domain domain = true) (Hf : Z.land f1 0x80 ≠ 0)
  (Hother : blen other = 4) (Hrs : Forall record_ok rs) (Hech : first_ech rs = Some ech) (Hne : ech ≠ [])
  (Hok : bytes_ok (honest_reply (build_query id domain RR_HTTPS) f1 f2 other rs rest))
  (Hlen : blen (honest_reply (build_query id domain RR_HTTPS) f1 f2 other rs rest) ≤ UDP_BUF)
  (Hbefore : Forall (noise id domain) before) :
  query_udp id domain None
    (before ++ Received (honest_reply (build_query id domain RR_HTTPS) f1 f2 other rs rest) :: after)
  = Ok (Some ech).
Proof.
  unfold query_udp. rewrite await_udp_noise by done. cbn [await_udp]. rewrite takez_all by lia. unfold UDP_BUF in Hlen.
  destruct (honest_reply_layout id domain RR_HTTPS f1 f2 other rs rest) as (Hm & Hl & _ & Hqd & Han & pos & Hq & Hs);
    [done|by split|by apply labels_ok|done|done|done|lia|].
  set (msg := honest_reply _ _ _ _ _ _) in *. rewrite Hm.
  unfold answer_ech, parse_https_ech. destruct (Z.ltb_spec (blen msg) 12); [lia|].
  rewrite Hqd, Han. cbn [mbind comp_bind]. change (Z.to_nat 1) with 1%nat. rewrite Hq.
  replace (Z.to_nat (blen rs)) with (length rs) by (unfold blen; lia).
  rewrite (answers_spec msg pos rs rest) by done. rewrite Hech. by destruct ech.
Qed.

End lookup.

(** ** Showing and parsing a resolver *)

Definition graphic_no_at (s : bytes) : Prop := forallb (λ b, graphic b && negb (b =? 64)) s = true.

(** A resolver as [ech_dns_parse] gives it, over UDP or TCP at an IPv4
    address, or a DNS-over-HTTPS endpoint. *)
Definition ech_dns_ok (d : EchDns) : Prop :=
  match d with
  | Udp a | Tcp a => match sa_ip a with V4 b => 0 ≤ b < 2 ^ 32 | V6 _ => False end ∧ u16 (sa_port a)
  | DoH e =>
      graphic_no_at (url e) ∧
      (∃ rest, strip_scheme (url e) (lit "https://") = Some rest ∧
         head (split_by (λ c, (c =? 47) || (c =? 63) || (c =? 35)) rest) ≠ Some []) ∧
      (∀ a, doh_address e = Some a → graphic_no_at a ∧ a ≠ [] ∧ host_address a = Some a) ∧
      (∀ s, doh_sni e = Some s → graphic_no_at s ∧ s ≠ [] ∧ parse_ip (unbracket s) = None ∧ valid_domain s = true)
  end.

Lemma strip_scheme_app scheme rest : strip_scheme (scheme ++ rest) scheme = Some rest.
Proof.
  unfold strip_scheme. rewrite slice_prefix by blia. rewrite takez_app. cbn [mbind option_bind].
  rewrite eq_ignore_ascii_case_refl, slice_suffix by blia. by rewrite dropz_app.
Qed.

Lemma strip_scheme_prefix v scheme rest x :
  strip_scheme v scheme = Some rest → strip_scheme (v ++ x) scheme = Some (rest ++ x).
Proof.
  unfold strip_scheme. destruct (slice v 0 (blen scheme)) as [h|] eqn:E; [|done]. cbn [mbind option_bind].
  rewrite (slice_app_l _ x _ _ _ E). cbn [mbind option_bind]. destruct (eq_ignore_ascii_case h scheme); [|done].
  apply slice_Some in E as (_ & Hl & _). rewrite !slice_suffix by (rewrite ?blen_app; blia).
  intros [= <-]. by rewrite dropz_app_l.
Qed.

Lemma graphic_no_at_split s : graphic_no_at s →
  forallb graphic s = true ∧ forallb (λ x, negb (x =? 64)) s = true.
Proof.
  intros H. split; revert H; apply forallb_impl; by intros x [? ?]%andb_true_iff.
Qed.

Lemma trim_end_decimal s v : 0 ≤ v → trim_end_matches 47 (s ++ decimal v) = s ++ decimal v.
Proof.
  intros Hv. destruct (decimal_spec v Hv) as (Hne & Hd & _). unfold trim_end_matches.
  rewrite reverse_app. apply forallb_reverse in Hd. destruct (reverse (decimal v)) as [|x l] eqn:E.
  { apply (f_equal reverse) in E. by rewrite reverse_involutive in E. }
  apply andb_true_iff in Hd as [Hx _]. cbn [app drop_while].
  destruct (Z.eqb_spec x 47) as [->|]; [done|].
  change (x :: l ++ reverse s) with ((x :: l) ++ reverse s). rewrite <- E, <- reverse_app.
  apply reverse_involutive.
Qed.

Lemma ech_dns_parse_addr scheme (mk : SocketAddr → EchDns) a b :
  scheme = lit "udp://" ∧ mk = Udp ∨ scheme = lit "tcp://" ∧ mk = Tcp →
  sa_ip a = V4 b → 0 ≤ b < 2 ^ 32 → u16 (sa_port a) →
  ech_dns_parse (scheme ++ show_socket_addr a) = Ok (mk a).
Proof.
  intros Hs Ha Hb Hp. destruct a as [ip port]. cbn in Ha. subst ip. cbn [sa_port] in *.
  unfold u16 in Hp. unfold ech_dns_parse.
  assert (trim (scheme ++ show_socket_addr (SockAddr (V4 b) port)) = scheme ++ show_socket_addr (SockAddr (V4 b) port)) as ->.
  { apply trim_graphic. unfold show_socket_addr. cbn [sa_ip sa_port].
    rewrite !forallb_app, show_v4_graphic, decimal_graphic by lia. by destruct Hs as [[-> _]|[-> _]]. }
  assert (trim_end_matches 47 (show_socket_addr (SockAddr (V4 b) port)) = show_socket_addr (SockAddr (V4 b) port)) as Ht.
  { unfold show_socket_addr. cbn [sa_ip sa_port]. rewrite (app_assoc (show_v4 b)). apply trim_end_decimal. lia. }
  assert (socket_address (show_socket_addr (SockAddr (V4 b) port)) 53 = Some (SockAddr (V4 b) port)) as Hsa
    by (unfold socket_address; by rewrite parse_show_socket_v4).
  set (t := show_socket_addr _) in *. set (val := scheme ++ t).
  assert (strip_scheme val (lit "https://") = None) as ->.
  { unfold strip_scheme. destruct (slice val 0 (blen (lit "https://"))) as [h|] eqn:E; [|done].
    cbn [mbind option_bind]. destruct (eq_ignore_ascii_case h (lit "https://")) eqn:Eq; [|done].
    exfalso. apply slice_Some in E as (_ & _ & Hl & r & (p & E & Hp0)).
    destruct p as [|? p]; [|rewrite blen_cons in Hp0; blia]. cbn [app] in E.
    destruct h as [|h0 h]; [done|]. destruct Hs as [[-> _]|[-> _]]; injection E as <- _; done. }
  destruct Hs as [[-> ->]|[-> ->]].
  - unfold val. rewrite strip_scheme_app. cbn [mbind comp_bind]. rewrite Ht, Hsa. done.
  - assert (strip_scheme val (lit "udp://") = None) as ->.
    { unfold strip_scheme. destruct (slice val 0 (blen (lit "udp://"))) as [h|] eqn:E; [|done].
      cbn [mbind option_bind]. destruct (eq_ignore_ascii_case h (lit "udp://")) eqn:Eq; [|done].
      exfalso. apply slice_Some in E as (_ & _ & Hl & r & (p & E & Hp0)).
      destruct p as [|? p]; [|rewrite blen_cons in Hp0; blia]. cbn [app] in E.
      destruct h as [|h0 h]; [done|]. injection E as <- _; done. }
    unfold val. rewrite strip_scheme_app. cbn [mbind comp_bind]. rewrite Ht, Hsa. done.
Qed.

Lemma doh_piece_address value e a :
  doh_address e = None → forallb graphic a = true → host_address a = Some a →
  doh_piece value e (lit "address=" ++ a) = Ok (mk_doh (url e) (Some a) (doh_sni e)).
Proof.
  intros He Hg Ha. unfold doh_piece. change (split_once 61 (lit "address=" ++ a)) with (Some (lit "address", a)).
  cbn [ok_or mbind comp_bind]. rewrite (trim_graphic a Hg).
  change (to_ascii_lowercase (trim (lit "address"))) with (lit "address").
  change (str_eqb (lit "address") (lit "address")) with true. by rewrite He, Ha.
Qed.

Lemma doh_piece_sni value e s :
  doh_sni e = None → forallb graphic s = true → parse_ip (unbracket s) = None → valid_domain s = true →
  doh_piece value e (lit "sni=" ++ s) = Ok (mk_doh (url e) (doh_address e) (Some s)).
Proof.
  intros He Hg Hi Hv. unfold doh_piece. change (split_once 61 (lit "sni=" ++ s)) with (Some (lit "sni", s)).
  cbn [ok_or mbind comp_bind]. rewrite (trim_graphic s Hg).
  change (to_ascii_lowercase (trim (lit "sni"))) with (lit "sni").
  change (str_eqb (lit "sni") (lit "address")) with false. change (str_eqb (lit "sni") (lit "sni")) with true.
  by rewrite He, Hi, Hv.
Qed.

Lemma doh_roundtrip e : ech_dns_ok (DoH e) → ech_dns_parse (ech_dns_show (DoH e)) = Ok (DoH e).
Proof.
  destruct e as [u a s]. cbn [ech_dns_ok ech_dns_show url doh_address doh_sni].
  intros (Hu & (rest & Hrest & Hhost) & Ha & Hs). apply graphic_no_at_split in Hu as [Hug Hua].
  set (pa := match a with Some a => lit "@address=" ++ a | None => [] end).
  set (ps := match s with Some s => lit "@sni=" ++ s | None => [] end).
  assert (forallb graphic (pa ++ ps) = true) as Hg.
  { unfold pa, ps. rewrite forallb_app. apply andb_true_iff. split.
    - destruct a as [a|]; [|done]. destruct (Ha a eq_refl) as ([Hag _]%graphic_no_at_split & _).
      rewrite forallb_app, Hag. done.
    - destruct s as [s|]; [|done]. destruct (Hs s eq_refl) as ([Hsg _]%graphic_no_at_split & _).
      rewrite forallb_app, Hsg. done. }
  unfold ech_dns_parse. rewrite trim_graphic by (by rewrite forallb_app, Hug).
  rewrite (strip_scheme_prefix _ _ _ _ Hrest).
  set (value := u ++ pa ++ ps).
  assert (split 64 value = u :: match a with Some a => [lit "address=" ++ a] | None => [] end
    ++ match s with Some s => [lit "sni=" ++ s] | None => [] end) as Hsplit.
  { unfold value, pa, ps, split. destruct a as [a|], s as [s|]; cbn [app].
    - destruct (Ha a eq_refl) as ([_ Haa]%graphic_no_at_split & _).
      destruct (Hs s eq_refl) as ([_ Hsa]%graphic_no_at_split & _).
      change (lit "@address=" ++ a) with (64 :: lit "address=" ++ a).
      change (lit "@sni=" ++ s) with (64 :: lit "sni=" ++ s). cbn [app].
      rewrite split_by_app by done. rewrite <- app_assoc, (app_assoc (lit "address=")).
      rewrite split_by_app by (rewrite ?forallb_app, ?Haa; done).
      rewrite split_nosep by (rewrite forallb_app, Hsa; done). done.
    - destruct (Ha a eq_refl) as ([_ Haa]%graphic_no_at_split & _). rewrite app_nil_r.
      change (lit "@address=" ++ a) with (64 :: lit "address=" ++ a).
      rewrite split_by_app by done. rewrite split_nosep by (rewrite forallb_app, Haa; done). done.
    - destruct (Hs s eq_refl) as ([_ Hsa]%graphic_no_at_split & _).
      change (lit "@sni=" ++ s) with (64 :: lit "sni=" ++ s).
      rewrite split_by_app by done. rewrite split_nosep by (rewrite forallb_app, Hsa; done). done.
    - rewrite app_nil_r. by rewrite split_nosep. }
  unfold doh_parse. rewrite Hsplit. cbn [head from_option id]. rewrite (trim_graphic u Hug), Hrest.
  cbn [mbind option_bind].
  set (h := default [] _). assert (is_empty h = false) as ->.
  { unfold h. destruct (split_by _ rest) as [|x l] eqn:Ex; [by apply split_by_not_nil in Ex|].
    cbn in Hhost |- *. by destruct x. }
  cbn [tail]. destruct a as [a|], s as [s|]; cbn [app doh_pieces].
  - destruct (Ha a eq_refl) as ([Hag _]%graphic_no_at_split & _ & Haa).
    destruct (Hs s eq_refl) as ([Hsg _]%graphic_no_at_split & _ & Hsi & Hsv).
    rewrite doh_piece_address by done. cbn [mbind comp_bind]. rewrite doh_piece_sni by done. done.
  - destruct (Ha a eq_refl) as ([Hag _]%graphic_no_at_split & _ & Haa).
    rewrite doh_piece_address by done. done.
  - destruct (Hs s eq_refl) as ([Hsg _]%graphic_no_at_split & _ & Hsi & Hsv).
    rewrite doh_piece_sni by done. done.
  - done.
Qed.

(** A resolver is parsed from what it is shown as: over UDP and TCP at
    any IPv4 address and port, and for every DNS-over-HTTPS endpoint with or
    without an address and a server name of its own. *)
Theorem ech_dns_show_parse (d : EchDns) (Hd : ech_dns_ok d) : ech_dns_parse (ech_dns_show d) = Ok d.
Proof.
  destruct d as [a|a|e].
  - destruct Hd as [Hip Hp]. destruct (sa_ip a) as [b|] eqn:E; [|done].
    apply (ech_dns_parse_addr _ Udp a b); [by left|done..].
  - destruct Hd as [Hip Hp]. destruct (sa_ip a) as [b|] eqn:E; [|done].
    apply (ech_dns_parse_addr _ Tcp a b); [by right|done..].
  - by apply doh_roundtrip.
Qed.

Definition sample_name : wire_name := mk_name [] (Some (0, 12)).
Definition sample_records : list record :=
  [OtherRecord sample_name 1 [0; 1; 0; 0; 0; 60] [104; 16; 0; 1];
   HttpsRecord sample_name [0; 1; 0; 0; 0; 60] 1 (mk_name [] None)
     [(1, lit "h3"); (5, [0; 1; 9])]].

Lemma record_ok_sample : Forall record_ok sample_records.
Proof. repeat constructor; by vm_compute. Qed.

Lemma udp_lookup_finds_key_witness :
  @query_udp W32 7 (lit "cloudflare-ech.com") None
    ([Resent None; Received [1; 2; 3]] ++
     Received (honest_reply (build_query 7 (lit "cloudflare-ech.com") RR_HTTPS) 0x81 0x80 [0; 0; 0; 0]
                 sample_records []) :: [])
  = Ok (Some [0; 1; 9]).
Proof.
  apply (@udp_lookup_finds_key W32 7 0x81 0x80 (lit "cloudflare-ech.com") [0; 0; 0; 0] [] [0; 1; 9]
           sample_records [Resent None; Received [1; 2; 3]] []).
  - done.
  - by vm_compute.
  - done.
  - done.
  - exact record_ok_sample.
  - by vm_compute.
  - done.
  - by_decision.
  - by_decision.
  - constructor; [done|]. constructor; [|constructor]. split; [by_decision|].
    intros (f1 & f2 & counts & ls & tail_ & E & _ & _ & _ & Ht). apply (f_equal blen) in E.
    rewrite !blen_app, !blen_be_bytes in E. change (blen [0]) with 1 in E. change (blen [f1; f2]) with 2 in E.
    change (blen (takez UDP_BUF [1; 2; 3])) with 3 in E. blen_pos. lia.
Defined.

Lemma response_matches_exact_witness :
  @response_matches W64 (honest_reply (build_query 7 (lit "a.b") 65) 0x80 0 [0; 0; 0; 0] [] []) 7 (lit "A.B") 65 = Ok true ∧
  (@response_matches W64 (honest_reply (build_query 7 (lit "a.b") 65) 0x80 0 [0; 0; 0; 0] [] []) 7 (lit "A.B") 65 = Ok true ↔
   answers_question (honest_reply (build_query 7 (lit "a.b") 65) 0x80 0 [0; 0; 0; 0] [] []) 7 (lit "A.B") 65).
Proof.
  split; [by vm_compute|]. apply (@response_matches_exact W64); [by_decision|done|done|by_decision].
Defined.

Lemma dns_parsers_safe_witness :
  no_panic (@response_matches W32 (replicate 20 192) 1 (lit "x") 65) ∧ no_panic (@parse_https_ech W32 (replicate 20 192)).
Proof. apply (@dns_parsers_safe W32). by_decision. Defined.

Lemma ech_dns_show_parse_witness :
  let d := DoH (mk_doh (lit "https://dns.example/dns-query") (Some (lit "1.1.1.1")) (Some (lit "front.example"))) in
  ech_dns_show d = lit "https://dns.example/dns-query@address=1.1.1.1@sni=front.example" ∧
  ech_dns_parse (ech_dns_show d) = Ok d.
Proof.
  cbn zeta. split; [by vm_compute|]. apply ech_dns_show_parse. split; [by vm_compute|]. split.
  - eexists. split; [by vm_compute|done].
  - split; intros x [= <-]; split_and!; (by vm_compute) || done.
Defined.
