(* ===== verification/Stream.v ===== *)
(** * A TCP connection as the proxy handshakes use it

    The handshakes of src/aether/src/upstream.rs (the client's side) and of
    src/aether/src/socks.rs (the server's side) are sequences of [write_all],
    [read_exact] and [read] on one [TcpStream].  The connection is what its
    peer has sent and was not read yet, up to the end of the stream, and what
    was written to it; a handshake is a function that threads it, in a state
    and error monad.  A peer that waits for an answer before it goes on is not
    told apart from one that sent everything at once; writes succeed. *)

From stdpp Require Import strings.
From S2P Require Import Prelude Text Error.

Record tape := mk_tape { incoming : bytes; sent : bytes }.

#[export] Instance tape_eq_dec : EqDecision tape.
Proof. solve_decision. Defined.

Definition conn (A : Type) : Type := tape → comp AetherError A * tape.

#[export] Instance conn_ret : MRet conn := λ A a t, (Ok a, t).
#[export] Instance conn_bind : MBind conn := λ A B f m t,
  match m t with
  | (Ok a, t) => f a t
  | (Err e, t) => (Err e, t)
  | (Panic, t) => (Panic, t)
  end.

Definition fail {A} (e : AetherError) : conn A := λ t, (Err e, t).
Definition lift {A} (m : comp AetherError A) : conn A := λ t, (m, t).

(** [stream.write_all(&bs).await?]. *)
Definition write_all (bs : bytes) : conn () := λ t,
  (Ok tt, mk_tape (incoming t) (sent t ++ bs)).

(** [stream.read_exact(&mut buf).await?] with a buffer of [n] bytes. *)
Definition read_exact (n : Z) : conn bytes := λ t,
  if n <=? blen (incoming t)
  then (Ok (takez n (incoming t)), mk_tape (dropz n (incoming t)) (sent t))
  else (Err (EIo (lit "early eof")), mk_tape [] (sent t)).

(** Array accesses below the length that [read_exact] filled. *)
Definition at_ (buf : bytes) (i : Z) : conn Z := lift (index buf i).

(** [m] ends with [a] after it read [i] and wrote [o], whatever follows [i] in
    the stream. *)
Definition talks {A} (m : conn A) (i o : bytes) (r : comp AetherError A) : Prop :=
  ∀ rest s, m (mk_tape (i ++ rest) s) = (r, mk_tape rest (s ++ o)).

Section talk_rules.

Lemma talks_ret {A} (a : A) : talks (mret a) [] [] (Ok a).
Proof. intros rest s. cbn. by rewrite app_nil_r. Qed.

Lemma talks_lift {A} (m : comp AetherError A) : talks (lift m) [] [] m.
Proof. intros rest s. unfold lift. cbn. by rewrite app_nil_r. Qed.

Lemma talks_fail {A} e : talks (A := A) (fail e) [] [] (Err e).
Proof. intros rest s. unfold fail. cbn. by rewrite app_nil_r. Qed.

Lemma talks_bind {A B} (m : conn A) (f : A → conn B) i1 i2 o1 o2 a r :
  talks m i1 o1 (Ok a) → talks (f a) i2 o2 r → talks (m ≫= f) (i1 ++ i2) (o1 ++ o2) r.
Proof.
  intros Hm Hf rest s. unfold mbind, conn_bind. rewrite <- app_assoc, Hm, Hf. by rewrite app_assoc.
Qed.

Lemma talks_write bs : talks (write_all bs) [] bs (Ok tt).
Proof. by intros rest s. Qed.

Lemma talks_read l n : n = blen l → talks (read_exact n) l [] (Ok l).
Proof.
  intros -> rest s. unfold read_exact. cbn [incoming sent].
  destruct (Z.leb_spec (blen l) (blen (l ++ rest))); [|blia].
  by rewrite takez_app, dropz_app, app_nil_r.
Qed.

Lemma talks_at buf k b : get buf k = Some b → talks (at_ buf k) [] [] (Ok b).
Proof. intros Hg. unfold at_, index. rewrite Hg. apply talks_lift. Qed.

End talk_rules.

(** [m] ends in an error after it read [i] and wrote [o], whatever follows. *)
Lemma talks_err_bind {A B} (m : conn A) (f : A → conn B) i o e :
  talks m i o (Err e) → talks (m ≫= f) i o (Err e).
Proof. intros Hm rest s. unfold mbind, conn_bind. by rewrite Hm. Qed.
