(* ===== verification/Upstream.v ===== *)
(** * The upstream proxy

    src/aether/src/upstream.rs: the proxy setting ([Upstream::parse] and its
    printers), the client's side of SOCKS5 and of HTTP CONNECT, the SOCKS5 UDP
    framing, and the detours that carry the tunnel's UDP socket through a
    relay.  Dialling, socket binding and name lookup belong to the system:
    their outcomes are arguments.  Base64 is the [base64] crate's. *)

From stdpp Require Import strings gmap.
From S2P Require Import Prelude Text Net NetText Sniff Fragment Routing Error Tls Stream.

Definition VER : Z := 5.
Definition AUTH_NONE : Z := 0.
Definition AUTH_USERPASS : Z := 2.
Definition AUTH_REJECTED : Z := 255.
Definition CMD_CONNECT : Z := 1.
Definition CMD_ASSOCIATE : Z := 3.
Definition ATYP_V4 : Z := 1.
Definition ATYP_NAME : Z := 3.
Definition ATYP_V6 : Z := 4.
Definition REP_OK : Z := 0.

Inductive Kind := Socks5 | Http.

#[export] Instance Kind_eq_dec : EqDecision Kind.
Proof. solve_decision. Defined.

Definition kind_label (k : Kind) : bytes :=
  match k with Socks5 => lit "socks5" | Http => lit "http" end.

Record Upstream := mk_upstream {
  kind : Kind; host : bytes; port : Z; user : option bytes; password : option bytes }.

#[export] Instance Upstream_eq_dec : EqDecision Upstream.
Proof. solve_decision. Defined.

(** ** The setting *)

Definition malformed (endpoint : bytes) : AetherError :=
  EOther (endpoint ++ lit " is not a host and port an upstream proxy can live at").

Definition checked_endpoint (endpoint h p : bytes) : comp AetherError (bytes * Z) :=
  p ← ok_or (parse_u16 p) (malformed endpoint);
  if is_empty h || (p =? 0) then Err (malformed endpoint) else Ok (h, p).

Definition split_endpoint (endpoint : bytes) : comp AetherError (bytes * Z) :=
  match strip_prefix [91] endpoint with
  | Some rest =>
      '(h, tail) ← ok_or (split_once 93 rest) (malformed endpoint);
      p ← ok_or (strip_prefix [58] tail) (malformed endpoint);
      checked_endpoint endpoint h p
  | None =>
      '(h, p) ← ok_or (rsplit_once 58 endpoint) (malformed endpoint);
      checked_endpoint endpoint h p
  end.

Definition unreserved (b : Z) : bool :=
  is_ascii_alphanumeric b || (b =? 45) || (b =? 46) || (b =? 95) || (b =? 126).

(** One digit of [{:02X}]. *)
Definition upper_hex (d : Z) : Z := if d <? 10 then 48 + d else 55 + d.

Definition percent_byte (b : Z) : bytes :=
  if unreserved b then [b] else [37; upper_hex (b / 16); upper_hex (b mod 16)].

Definition percent_encode (value : bytes) : bytes := concat (map percent_byte value).

(** The loop of [percent_decode] on the bytes it has still to read. *)
Fixpoint percent_bytes (bs : bytes) : bytes :=
  match bs with
  | [] => []
  | c :: r =>
      let escape :=
        match r with
        | a :: b :: _ =>
            if c =? 37 then parse_hex 255 (default [] (from_utf8 [a; b])) else None
        | _ => None
        end in
      match escape, r with
      | Some byte, _ :: _ :: rest => byte :: percent_bytes rest
      | _, _ => c :: percent_bytes r
      end
  end.

Definition percent_decode (value : bytes) : bytes := from_utf8_lossy (percent_bytes value).

Definition scheme_kind (scheme : bytes) : option Kind :=
  if one_of [lit "socks5"; lit "socks5h"; lit "socks"] scheme then Some Socks5
  else if one_of [lit "http"; lit "https"] scheme then Some Http
  else None.

Definition refused_https : AetherError :=
  EOther (lit "an https:// upstream with a password is refused: aether talks to its upstream over plain http, which would send the password in the clear; use http:// only if that is acceptable, or socks5://").

Definition parse_credentials (credentials : option bytes) : option bytes * option bytes :=
  match credentials with
  | Some text =>
      match split_once 58 text with
      | Some (u, p) => (Some (percent_decode u), Some (percent_decode p))
      | None => (Some (percent_decode text), None)
      end
  | None => (None, None)
  end.

Definition parse `{UnicodeCase} (raw : bytes) : comp AetherError Upstream :=
  let raw := trim raw in
  let '(scheme, rest) :=
    match split_at_first (lit "://") raw with
    | Some (scheme, rest) => (to_lowercase scheme, rest)
    | None => (lit "socks5", raw)
    end in
  k ← ok_or (scheme_kind scheme)
        (EOther (scheme ++ lit " is not an upstream proxy kind aether understands"));
  let '(credentials, endpoint) :=
    match rsplit_once 64 rest with
    | Some (credentials, endpoint) => (Some credentials, endpoint)
    | None => (None, rest)
    end in
  match str_eqb scheme (lit "https"), credentials with
  | true, Some _ => Err refused_https
  | _, _ =>
      '(h, p) ← split_endpoint (trim_end_matches 47 endpoint);
      let '(u, pw) := parse_credentials credentials in
      Ok (mk_upstream k h p u pw)
  end.

(** [from_value]: the proxy the setting names; what the log says is left out. *)
Definition from_value `{UnicodeCase} (raw : bytes) : option Upstream :=
  let trimmed := trim raw in
  if is_empty trimmed then None
  else match parse trimmed with Ok upstream => Some upstream | _ => None end.

Definition from_env `{UnicodeCase} (env : environment) : option Upstream :=
  env (lit "AETHER_UPSTREAM") ≫= from_value.

Definition usable `{UnicodeCase} (raw : bytes) : comp AetherError () :=
  if is_empty (trim raw) then Ok tt
  else map_err (λ e, EOther (lit "--upstream cannot be used: " ++ detail e
                             ++ lit "; aether ends rather than connect around it"))
         (const tt <$> parse raw).

Definition check_setting `{UnicodeCase} (env : environment) : comp AetherError () :=
  usable (default [] (env (lit "AETHER_UPSTREAM"))).

(** [remembered]: the proxy of the setting and the memory it leaves. *)
Definition seen_setting : Type := option (bytes * option Upstream).

Definition remembered `{UnicodeCase} (seen : seen_setting) (raw : bytes)
    : option Upstream * seen_setting :=
  let parsed := let upstream := from_value raw in (upstream, Some (raw, upstream)) in
  match seen with
  | Some (last_, upstream) => if str_eqb last_ raw then (upstream, seen) else parsed
  | None => parsed
  end.

(** [configured]: [task] is the task-local proxy of [through]. *)
Definition configured `{UnicodeCase} (task : option Upstream) (env : environment) (seen : seen_setting)
    : option Upstream * seen_setting :=
  match task with
  | Some proxy => (Some proxy, seen)
  | None => remembered seen (default [] (env (lit "AETHER_UPSTREAM")))
  end.

(** ** The proxy, printed *)

Definition endpoint (u : Upstream) : bytes := host u ++ lit ":" ++ decimal (port u).

Definition url_host (u : Upstream) : bytes :=
  if contains (lit ":") (host u) then lit "[" ++ host u ++ lit "]" else host u.

Definition url (u : Upstream) : bytes :=
  let scheme := match kind u with Socks5 => lit "socks5h" | Http => lit "http" end in
  scheme ++ lit "://" ++ url_host u ++ lit ":" ++ decimal (port u).

Definition url_credentials (u : Upstream) : bytes :=
  match user u, password u with
  | Some name, Some secret => percent_encode name ++ lit ":" ++ percent_encode secret ++ lit "@"
  | Some name, None => percent_encode name ++ lit "@"
  | _, _ => []
  end.

Definition psiphon_url (u : Upstream) : bytes :=
  let scheme := match kind u with Socks5 => lit "socks5" | Http => lit "http" end in
  scheme ++ lit "://" ++ url_credentials u ++ url_host u ++ lit ":" ++ decimal (port u).

Definition socks_address (u : Upstream) : option SocketAddr :=
  if bool_decide (kind u ≠ Socks5) || bool_decide (is_Some (user u)) then None
  else ip ← parse_ip (host u); Some (SockAddr ip (port u)).

(** ** SOCKS5 on the wire *)

Definition encode_address (target : SocketAddr) : bytes :=
  match sa_ip target with
  | V4 _ => ATYP_V4 :: ip_octets (sa_ip target)
  | V6 _ => ATYP_V6 :: ip_octets (sa_ip target)
  end ++ be_bytes 2 (sa_port target).

Definition encode_request (command : Z) (target : SocketAddr) : bytes :=
  [VER; command; 0] ++ encode_address target.

Definition encode_name_request `{DebugText} (command : Z) (name : bytes) (p : Z) : comp AetherError bytes :=
  if (blen name <=? 255) && (0 <? blen name) then
    Ok ([VER; command; 0; ATYP_NAME; blen name] ++ name ++ be_bytes 2 p)
  else Err (EOther (debug_str name ++ lit " is no name a socks5 proxy can be asked for")).

Definition encode_udp_header (target : SocketAddr) : bytes := [0; 0; 0] ++ encode_address target.

(** [u16::from_be_bytes([buf[i], buf[i + 1]])]. *)
Definition port_at {E} (buf : bytes) (i : Z) : comp E Z :=
  a ← index buf i; b ← index buf (i + 1); Ok (be_val [a; b]).

(** [Err tt] is the [None] of the source. *)
Definition decode_udp_header (buf : bytes) : comp () (SocketAddr * Z) :=
  if blen buf <? 4 then Err tt else
  rsv ← index buf 2;
  if negb (rsv =? 0) then Err tt else
  atyp ← index buf 3;
  if atyp =? ATYP_V4 then
    if blen buf <? 10 then Err tt else
    o ← index_range buf 4 8;
    p ← port_at buf 8;
    Ok (SockAddr (v4_of o) p, 10)
  else if atyp =? ATYP_V6 then
    if blen buf <? 22 then Err tt else
    o ← index_range buf 4 20;
    p ← port_at buf 20;
    Ok (SockAddr (v6_of o) p, 22)
  else if atyp =? ATYP_NAME then
    length ← ok_or (get buf 4) tt;
    let end_ := 5 + length in
    if blen buf <? end_ + 2 then Err tt else
    p ← port_at buf end_;
    raw ← index_range buf 5 end_;
    name ← ok_or (from_utf8 raw) tt;
    ip ← ok_or (parse_ip name) tt;
    Ok (SockAddr ip p, end_ + 2)
  else Err tt.

(** ** The client's handshakes *)

Definition socks_authenticate (u : Upstream) : conn () :=
  let name := default [] (user u) in
  let secret := default [] (password u) in
  if (255 <? blen name) || (255 <? blen secret) then
    fail (EOther (lit "the upstream proxy credentials are longer than socks5 allows"))
  else
    _ ← write_all ([1; as_u8 (blen name)] ++ name ++ [as_u8 (blen secret)] ++ secret);
    answer ← read_exact 2;
    a0 ← at_ answer 0;
    if negb (a0 =? 1) then
      fail (EOther (lit "the upstream proxy answered the password negotiation with the wrong version"))
    else
      a1 ← at_ answer 1;
      if negb (a1 =? 0) then
        fail (EOther (lit "the upstream proxy refused the credentials supplied"))
      else mret tt.

Definition socks_greet (u : Upstream) : conn () :=
  let wants_auth := bool_decide (is_Some (user u)) in
  _ ← write_all (if wants_auth then [VER; 1; AUTH_USERPASS] else [VER; 1; AUTH_NONE]);
  answer ← read_exact 2;
  a0 ← at_ answer 0;
  if negb (a0 =? VER) then fail (EOther (lit "the upstream proxy did not speak socks5")) else
  a1 ← at_ answer 1;
  if a1 =? AUTH_NONE then
    if wants_auth then
      fail (EOther (lit "the upstream proxy skipped authentication even though credentials are configured"))
    else mret tt
  else if a1 =? AUTH_USERPASS then socks_authenticate u
  else if a1 =? AUTH_REJECTED then
    fail (EOther (lit "the upstream proxy rejected every authentication method offered"))
  else
    fail (EOther (lit "the upstream proxy asked for authentication method " ++ decimal a1
                  ++ lit ", which aether cannot do")).

Definition read_ip (atyp : Z) : conn IpAddr :=
  if atyp =? ATYP_V4 then
    octets ← read_exact 4; mret (v4_of octets)
  else if atyp =? ATYP_V6 then
    octets ← read_exact 16; mret (v6_of octets)
  else if atyp =? ATYP_NAME then
    length ← read_exact 1;
    length ← at_ length 0;
    name ← read_exact length;
    mret (default (V4 0) (parse_ip (from_utf8_lossy name)))
  else
    fail (EOther (lit "the upstream proxy sent address type " ++ decimal atyp
                  ++ lit ", which aether cannot read")).

Definition read_reply : conn SocketAddr :=
  head ← read_exact 4;
  h0 ← at_ head 0;
  if negb (h0 =? VER) then
    fail (EOther (lit "the upstream proxy answered with something other than socks5"))
  else
  h1 ← at_ head 1;
  if negb (h1 =? REP_OK) then
    fail (EOther (lit "the upstream proxy refused the request with code " ++ decimal h1))
  else
  h3 ← at_ head 3;
  ip ← read_ip h3;
  p ← read_exact 2;
  mret (SockAddr ip (be_val p)).

Definition http_status (head : bytes) : option Z :=
  match lines (from_utf8_lossy head) with
  | [] => None
  | line :: _ =>
      match split_whitespace line with
      | version :: rest =>
          if negb (starts_with (lit "HTTP/") version) then None
          else match rest with status :: _ => parse_u16 status | [] => None end
      | [] => None
      end
  end.

(** The loop that reads the answer's head byte by byte. *)
Fixpoint http_head (head input : bytes) : comp AetherError bytes * bytes :=
  if 8192 <? blen head then
    (Err (EOther (lit "the upstream proxy sent an oversized answer")), input)
  else match input with
  | [] => (Err (EOther (lit "the upstream proxy closed before answering the connect")), [])
  | b :: rest =>
      let head := head ++ [b] in
      if ends_with [13; 10; 13; 10] head then (Ok head, rest) else http_head head rest
  end.

Definition read_http_head : conn bytes := λ t,
  let '(r, rest) := http_head [] (incoming t) in (r, mk_tape rest (sent t)).

(** The [base64] crate's standard engine, encoding. *)
Class Base64Encode := base64_encode : bytes → bytes.

Definition connect_request `{Base64Encode} (u : Upstream) (authority : bytes) : bytes :=
  lit "CONNECT " ++ authority ++ lit " HTTP/1.1" ++ [13; 10] ++ lit "Host: " ++ authority ++ [13; 10]
  ++ lit "Proxy-Connection: Keep-Alive" ++ [13; 10]
  ++ match user u with
     | Some name =>
         lit "Proxy-Authorization: Basic "
         ++ base64_encode (name ++ lit ":" ++ default [] (password u)) ++ [13; 10]
     | None => []
     end
  ++ [13; 10].

Definition http_connect `{Base64Encode} (u : Upstream) (authority : bytes) : conn () :=
  _ ← write_all (connect_request u authority);
  head ← read_http_head;
  match http_status head with
  | None => fail (EOther (lit "the upstream proxy answer was not http"))
  | Some status =>
      if (200 <=? status) && (status <? 300) then mret tt
      else fail (EOther (lit "the upstream proxy answered " ++ decimal status ++ lit " to the connect"))
  end.

(** What the proxy's peer gets of a stream once the handshake is over. *)
Definition run_on {A} (m : conn A) (stream : tape) : comp AetherError (A * tape) :=
  match m stream with
  | (Ok a, t) => Ok (a, t)
  | (Err e, _) => Err e
  | (Panic, _) => Panic
  end.

(** [open]: [dial] is the outcome of the connection to the proxy and [in_time]
    whether the attempt ended within [HANDSHAKE_TIMEOUT]. *)
Definition open `{Base64Encode} (u : Upstream) (socks_request authority : bytes)
    (dial : comp AetherError tape) (in_time : bool) : comp AetherError tape :=
  if in_time then
    stream ← dial;
    '(_, stream) ← run_on
      match kind u with
      | Socks5 =>
          _ ← socks_greet u;
          _ ← write_all socks_request;
          _ ← read_reply;
          mret tt
      | Http => http_connect u authority
      end stream;
    Ok stream
  else Err (EOther (lit "the upstream proxy at " ++ endpoint u ++ lit " did not answer in time")).

Definition connect `{Base64Encode} (u : Upstream) (target : SocketAddr)
    (dial : comp AetherError tape) (in_time : bool) : comp AetherError tape :=
  open u (encode_request CMD_CONNECT target) (show_socket_addr target) dial in_time.

Definition connect_host `{Base64Encode, DebugText} (u : Upstream) (name : bytes) (p : Z)
    (dial : comp AetherError tape) (in_time : bool) : comp AetherError tape :=
  match parse_ip name with
  | Some ip => connect u (SockAddr ip p) dial in_time
  | None =>
      request ← encode_name_request CMD_CONNECT name p;
      open u request (name ++ lit ":" ++ decimal p) dial in_time
  end.

(** ** The UDP relay *)

(** [lookup] is what the system resolves ([host], [relay_port]) to. *)
Definition relay_address (bound : SocketAddr) (name : bytes) (p : Z)
    (lookup : bytes → Z → comp AetherError (list SocketAddr)) : comp AetherError SocketAddr :=
  if negb (is_unspecified (sa_ip bound)) && negb (sa_port bound =? 0) then Ok bound else
  let relay_port := if sa_port bound =? 0 then p else sa_port bound in
  match parse_ip name with
  | Some ip => Ok (SockAddr ip relay_port)
  | None =>
      found ← lookup name relay_port;
      match found with
      | addr :: _ => Ok addr
      | [] => Err (EOther (name ++ lit " does not resolve to a usable relay address"))
      end
  end.

Definition WILDCARD_V4 : SocketAddr := SockAddr (V4 0) 0.
Definition WILDCARD_V6 : SocketAddr := SockAddr (V6 0) 0.

(** [associate]: the relay's address.  [udp local relay] is the outcome of
    binding a socket to [local] and connecting it to [relay]. *)
Definition associate (u : Upstream) (dial : comp AetherError tape)
    (lookup : bytes → Z → comp AetherError (list SocketAddr))
    (udp : SocketAddr → SocketAddr → comp AetherError ()) (in_time : bool) : comp AetherError SocketAddr :=
  if bool_decide (kind u ≠ Socks5) then
    Err (EOther (lit "only a socks5 proxy can carry udp, an http proxy cannot"))
  else if in_time then
    control ← dial;
    '(bound, _) ← run_on
      (_ ← socks_greet u;
       _ ← write_all (encode_request CMD_ASSOCIATE WILDCARD_V4);
       read_reply) control;
    relay ← relay_address bound (host u) (port u) lookup;
    _ ← udp (if is_ipv4 (sa_ip relay) then WILDCARD_V4 else WILDCARD_V6) relay;
    Ok relay
  else Err (EOther (lit "the upstream proxy at " ++ endpoint u ++ lit " never opened a udp relay")).

(** [UdpRelay::send_to]: the datagram the relay gets. *)
Definition send_to (payload : bytes) (target : SocketAddr) : bytes :=
  encode_udp_header target ++ payload.

(** [UdpRelay::recv_from] into a buffer of [out_len] bytes: the payload and its
    origin; [Err tt] is the [InvalidData] of a malformed header.  A datagram
    longer than the receive buffer is cut by the system. *)
Definition recv_from (out_len : Z) (datagram : bytes) : comp () (bytes * SocketAddr) :=
  let framed := takez (Z.max out_len 2048 + 512) datagram in
  '(origin, offset) ← decode_udp_header framed;
  payload ← index_range framed offset (blen framed);
  Ok (takez out_len payload, origin).

(** ** Detours *)

Record Detour := mk_detour { id : Z; shim : SocketAddr; peer : SocketAddr }.

Record detours := mk_detours { entries : gmap SocketAddr Detour; next_id : Z }.

(** [NEXT.fetch_add(1)] on a u64. *)
Definition next_detour_id (st : detours) : Z * detours :=
  (next_id st, mk_detours (entries st) ((next_id st + 1) mod 2 ^ 64)).

Definition forget_detour (client : SocketAddr) (i : Z) (st : detours) : detours :=
  match entries st !! client with
  | Some d => if id d =? i then mk_detours (delete client (entries st)) (next_id st) else st
  | None => st
  end.

Definition relay_target (st : detours) (local intended : SocketAddr) : SocketAddr :=
  match entries st !! local with Some d => shim d | None => intended end.

Definition real_source (st : detours) (local observed : SocketAddr) : SocketAddr :=
  match entries st !! local with
  | Some d => if bool_decide (shim d = observed) then peer d else observed
  | None => observed
  end.

(** A [DetourGuard]: empty, or the client and the id of its detour.  The task
    it aborts is the pump below. *)
Abbreviation guard := (option (SocketAddr * Z)) (only parsing).

Definition drop_guard (g : guard) (st : detours) : detours :=
  match g with Some (client, i) => forget_detour client i st | None => st end.

(** [attach_detour_via]: the outcomes of [associate], of the socket's
    [local_addr] and of binding the shim are given. *)
Definition attach_detour_via (peer_ : SocketAddr) (associated : comp AetherError SocketAddr)
    (local_addr : comp AetherError SocketAddr) (bind : SocketAddr → comp AetherError SocketAddr)
    (st : detours) : comp AetherError guard * detours :=
  if is_private (sa_ip peer_) then (Ok None, st) else
  let prepared :=
    _ ← associated;
    client ← local_addr;
    shim_ ← bind (SockAddr (if is_ipv4 (sa_ip client) then V4 2130706433 else V6 1) 0);
    Ok (client, shim_) in
  match prepared with
  | Ok (client, shim_) =>
      let '(i, st) := next_detour_id st in
      (Ok (Some (client, i)),
       mk_detours (<[client := mk_detour i shim_ peer_]> (entries st)) (next_id st))
  | Err e => (Err e, st)
  | Panic => (Panic, st)
  end.

Definition attach_detour (proxy : option Upstream) (peer_ : SocketAddr)
    (associated : Upstream → comp AetherError SocketAddr)
    (local_addr : comp AetherError SocketAddr) (bind : SocketAddr → comp AetherError SocketAddr)
    (st : detours) : comp AetherError guard * detours :=
  match proxy with
  | Some u => attach_detour_via peer_ (associated u) local_addr bind st
  | None => (Ok None, st)
  end.

(** [bind_via_upstream]: the address the socket is connected to and the
    guard.  [udp_bind] gives the local address of a new socket; a failure to
    connect drops the guard. *)
Definition bind_via_upstream (proxy : option Upstream) (peer_ : SocketAddr)
    (associated : Upstream → comp AetherError SocketAddr)
    (udp_bind : SocketAddr → comp AetherError SocketAddr) (bind : SocketAddr → comp AetherError SocketAddr)
    (connects : SocketAddr → comp AetherError ()) (st : detours)
    : comp AetherError (SocketAddr * guard) * detours :=
  match udp_bind (if is_ipv4 (sa_ip peer_) then WILDCARD_V4 else WILDCARD_V6) with
  | Ok local =>
      match attach_detour proxy peer_ associated (Ok local) bind st with
      | (Ok detour, st) =>
          let target := relay_target st local peer_ in
          match connects target with
          | Ok _ => (Ok (target, detour), st)
          | Err e => (Err e, drop_guard detour st)
          | Panic => (Panic, drop_guard detour st)
          end
      | (Err e, st) => (Err e, st)
      | (Panic, st) => (Panic, st)
      end
  | Err e => (Err e, st)
  | Panic => (Panic, st)
  end.

Definition from_detoured_socket (client origin : SocketAddr) : bool :=
  (sa_port origin =? sa_port client)
  && (bool_decide (sa_ip origin = sa_ip client)
      || is_unspecified (sa_ip client) && is_loopback (sa_ip origin)).

(** What wakes the pump, and what it sends. *)
Inductive pump_event :=
| FromShim (data : bytes) (origin : SocketAddr)
| FromRelay (datagram : bytes)
| Failed (e : AetherError).

Inductive pump_action :=
| ToRelay (datagram : bytes)
| ToShim (data : bytes) (to : SocketAddr).

Definition PUMP_BUF : Z := 65535.

(** One round of [pump]: the client it answers and what it sends. *)
Definition pump_step (client peer_ : SocketAddr) (reply_to : option SocketAddr) (ev : pump_event)
    : comp AetherError (option SocketAddr * list pump_action) :=
  match ev with
  | FromShim data origin =>
      if negb (from_detoured_socket client origin) then Ok (reply_to, [])
      else Ok (Some origin, [ToRelay (send_to (takez PUMP_BUF data) peer_)])
  | FromRelay datagram =>
      match recv_from PUMP_BUF datagram with
      | Ok (data, _) =>
          Ok (reply_to, match reply_to with Some to => [ToShim data to] | None => [] end)
      | Err _ => Ok (reply_to, [])
      | Panic => Panic
      end
  | Failed e => Err e
  end.

(** [pump]: what was sent, and how it ended when an event ended it. *)
Fixpoint pump (client peer_ : SocketAddr) (reply_to : option SocketAddr) (evs : list pump_event)
    : list pump_action * option (comp AetherError ()) :=
  match evs with
  | [] => ([], None)
  | ev :: evs =>
      match pump_step client peer_ reply_to ev with
      | Ok (reply_to, acts) =>
          let '(more, ended) := pump client peer_ reply_to evs in (acts ++ more, ended)
      | Err e => ([], Some (Err e))
      | Panic => ([], Some Panic)
      end
  end.

Example parse_ex0 `{UnicodeCase} :
  parse (lit " SOCKS5h://us%20er:p%40ss@[::1]:1080/ ")
  = Ok (mk_upstream Socks5 (lit "::1") 1080 (Some (lit "us er")) (Some (lit "p@ss"))).
Proof. by vm_compute. Qed.
Example parse_ex1 `{UnicodeCase} : parse (lit "proxy:0") = Err (malformed (lit "proxy:0")).
Proof. by vm_compute. Qed.
Example psiphon_ex :
  psiphon_url (mk_upstream Socks5 (lit "::1") 1080 (Some (lit "us er")) (Some (lit "p@ss")))
  = lit "socks5://us%20er:p%40ss@[::1]:1080".
Proof. by vm_compute. Qed.

(** ** The setting round trips *)

Lemma unreserved_plain b : unreserved b = true → (b =? 37) = false ∧ graphic b = true ∧ (b =? 58) = false ∧ (b =? 64) = false.
Proof.
  unfold unreserved, is_ascii_alphanumeric, is_ascii_alphabetic, is_ascii_uppercase,
    is_ascii_lowercase, is_ascii_digit, graphic. lia.
Qed.

Lemma upper_hex_value d : 0 ≤ d < 16 → hex_value (upper_hex d) = Some d ∧ is_ascii_alphanumeric (upper_hex d) = true.
Proof.
  intros Hd. unfold hex_value, upper_hex, is_ascii_alphanumeric, is_ascii_alphabetic,
    is_ascii_uppercase, is_ascii_lowercase, is_ascii_digit.
  destruct (Z.ltb_spec d 10); (split; [|lia]); repeat case_match; (lia || (f_equal; lia)).
Qed.

Lemma parse_hex_digits max x l : x ≠ 43 → parse_hex max (x :: l) = hex_go max 0 (x :: l).
Proof. intros Hx. unfold parse_hex. repeat case_match; done. Qed.

Lemma upper_hex_pair b : u8 b →
  parse_hex 255 (default [] (from_utf8 [upper_hex (b / 16); upper_hex (b mod 16)])) = Some b.
Proof.
  unfold u8. intros Hb.
  assert (0 ≤ b / 16 < 16) as Hhi by (Z.to_euclidean_division_equations; lia).
  assert (0 ≤ b mod 16 < 16) as Hlo by (Z.to_euclidean_division_equations; lia).
  destruct (upper_hex_value _ Hhi) as [Vhi Ahi], (upper_hex_value _ Hlo) as [Vlo Alo].
  assert (∀ d, is_ascii_alphanumeric d = true → is_ascii d = true ∧ d ≠ 43) as Hal.
  { unfold is_ascii_alphanumeric, is_ascii_alphabetic, is_ascii_uppercase,
      is_ascii_lowercase, is_ascii_digit, is_ascii. lia. }
  apply Hal in Ahi as [Ahi Nhi], Alo as [Alo _].
  rewrite utf8_valid_spec by (apply utf8_ascii; cbn; by rewrite Ahi, Alo). cbn [from_option Datatypes.id].
  rewrite parse_hex_digits by done. cbn [hex_go]. rewrite Vhi, Vlo.
  destruct (Z.leb_spec (0 * 16 + b / 16) 255); [|lia].
  destruct (Z.leb_spec ((0 * 16 + b / 16) * 16 + b mod 16) 255);
    [f_equal|]; Z.to_euclidean_division_equations; lia.
Qed.

(** Decoding undoes encoding, byte by byte. *)
Lemma percent_bytes_encode v t : bytes_ok v →
  percent_bytes (percent_encode v ++ t) = v ++ percent_bytes t.
Proof.
  unfold percent_encode. induction v as [|b v IH]; intros Hv; [done|].
  apply Forall_cons in Hv as [Hb Hv]. cbn [map concat]. rewrite <- app_assoc.
  unfold percent_byte at 1. destruct (unreserved b) eqn:E; cbn [app].
  - apply unreserved_plain in E as [E _]. cbn [percent_bytes]. rewrite E, IH by done.
    by destruct (concat _ ++ t) as [|? []].
  - cbn [percent_bytes]. rewrite Z.eqb_refl. rewrite upper_hex_pair by done. by rewrite IH.
Qed.

Lemma percent_roundtrip v : bytes_ok v → utf8 v → percent_decode (percent_encode v) = v.
Proof.
  intros Hv Hu. unfold percent_decode. rewrite <- (app_nil_r (percent_encode v)).
  rewrite percent_bytes_encode by done. rewrite app_nil_r. by apply from_utf8_lossy_id.
Qed.

Definition no_char (c : Z) (s : bytes) : bool := forallb (λ x, negb (x =? c)) s.

(** A proxy whose printed form reads back: what [parse] gives, brackets in
    the host apart. *)
Record printable (u : Upstream) : Prop := {
  pr_host : host u ≠ [];
  pr_at : no_char 64 (host u) = true;
  pr_open : no_char 91 (host u) = true;
  pr_close : no_char 93 (host u) = true;
  pr_port : 0 < port u ≤ 65535;
  pr_both : user u = None → password u = None;
  pr_user s : user u = Some s → bytes_ok s ∧ utf8 s;
  pr_password s : password u = Some s → bytes_ok s ∧ utf8 s }.

Lemma no_char_app c a b : no_char c (a ++ b) = no_char c a && no_char c b.
Proof. apply forallb_app. Qed.

Lemma no_char_decimal c v : 0 ≤ v → is_ascii_digit c = false → no_char c (decimal v) = true.
Proof. intros Hv Hc. by apply decimal_not. Qed.

Lemma percent_encode_no c v : unreserved c = false → is_ascii_alphanumeric c = false → c ≠ 37 →
  bytes_ok v → no_char c (percent_encode v) = true.
Proof.
  intros Hu Ha Hc. unfold percent_encode. induction v as [|b v IH]; intros Hv; [done|].
  apply Forall_cons in Hv as [Hb Hv]. cbn [map concat]. rewrite no_char_app, IH, andb_true_r by done.
  assert (∀ x, unreserved x = true ∨ is_ascii_alphanumeric x = true → (x =? c) = false) as Hne.
  { intros x Hx. apply Z.eqb_neq. intros ->. destruct Hx; congruence. }
  unfold percent_byte. destruct (unreserved b) eqn:E; unfold no_char; cbn [forallb].
  - by rewrite (Hne b) by auto.
  - unfold u8 in Hb.
    rewrite !(Hne (upper_hex _)), (proj2 (Z.eqb_neq 37 c)) by (done || (right; apply upper_hex_value; Z.to_euclidean_division_equations; lia)).
    done.
Qed.

Lemma checked_endpoint_ok e h p : h ≠ [] → 0 < p ≤ 65535 →
  checked_endpoint e h (decimal p) = Ok (h, p).
Proof.
  intros Hh Hp. unfold checked_endpoint, parse_u16. rewrite parse_decimal by lia. cbn.
  destruct h; [done|]. cbn. by destruct (Z.eqb_spec p 0); [lia|].
Qed.

Lemma split_endpoint_printed u : printable u →
  split_endpoint (url_host u ++ lit ":" ++ decimal (port u)) = Ok (host u, port u).
Proof.
  intros [Hh _ Ho Hc Hp _ _ _]. unfold split_endpoint, url_host.
  change (lit ":") with [58]. change (lit "[") with [91]. change (lit "]") with [93].
  destruct (contains [58] (host u)).
  - replace (strip_prefix [91] _) with (Some (host u ++ 93 :: 58 :: decimal (port u)))
      by (symmetry; apply strip_prefix_Some; by rewrite <- !app_assoc).
    rewrite split_once_app by done. cbn [ok_or mbind comp_bind].
    assert (strip_prefix [58] (58 :: decimal (port u)) = Some (decimal (port u))) as ->
      by by apply strip_prefix_Some.
    cbn [ok_or mbind comp_bind]. by apply checked_endpoint_ok.
  - destruct (strip_prefix [91] _) as [r|] eqn:E.
    { exfalso. apply strip_prefix_Some in E. destruct (host u) as [|x h]; [done|].
      injection E as -> _. by cbn in Ho. }
    change ([58] ++ decimal (port u)) with (58 :: decimal (port u)).
    rewrite (rsplit_once_app 58 (host u)) by (apply no_char_decimal; [lia|done]).
    cbn [ok_or mbind comp_bind]. by apply checked_endpoint_ok.
Qed.

Lemma parse_credentials_printed u c : printable u →
  url_credentials u = c ++ [64] → parse_credentials (Some c) = (user u, password u).
Proof.
  intros [_ _ _ _ _ Hb Hu Hp] Hc. unfold parse_credentials, url_credentials in *.
  destruct (user u) as [n|]; [|by destruct c; rewrite ?app_nil_r in Hc].
  destruct (Hu n eq_refl) as [Hn Hn'].
  destruct (password u) as [s|].
  - destruct (Hp s eq_refl) as [Hs Hs']. rewrite !app_assoc in Hc.
    apply app_inj_tail in Hc as [<- _]. change (lit ":") with [58].
    rewrite <- app_assoc. cbn [app]. rewrite split_once_app by (by apply percent_encode_no).
    by rewrite !percent_roundtrip.
  - apply app_inj_tail in Hc as [<- _].
    rewrite split_once_none by (by apply percent_encode_no). by rewrite percent_roundtrip.
Qed.

Lemma url_host_no_at u : printable u → no_char 64 (url_host u ++ lit ":" ++ decimal (port u)) = true.
Proof.
  intros [_ Ha _ _ Hp _ _ _]. rewrite !no_char_app, (no_char_decimal 64) by (done || lia).
  unfold url_host. destruct (contains _ _); rewrite ?no_char_app, Ha; done.
Qed.

Lemma decimal_last p : 0 ≤ p → ∃ d x, decimal p = d ++ [x] ∧ is_ascii_digit x = true.
Proof.
  intros Hp. destruct (decimal_spec p Hp) as (Hne & Hd & _).
  destruct (exists_last Hne) as (d & x & E). exists d, x. split; [done|].
  rewrite E, forallb_app in Hd. cbn in Hd. rewrite andb_true_r in Hd. by apply andb_prop in Hd as [_ Hd].
Qed.

(** The host part of the printed form, without the slashes [parse] drops. *)
Lemma endpoint_kept h p : 0 ≤ p → trim_end_matches 47 (h ++ lit ":" ++ decimal p) = h ++ lit ":" ++ decimal p.
Proof.
  intros Hp. destruct (decimal_last p Hp) as (d & x & -> & Hx). rewrite !app_assoc.
  apply trim_end_matches_id. unfold is_ascii_digit in Hx. lia.
Qed.

Lemma psiphon_trim u : 0 ≤ port u → trim (psiphon_url u) = psiphon_url u.
Proof.
  intros Hp. unfold psiphon_url. rewrite !app_assoc. apply trim_graphic_end.
  - by destruct (decimal_spec (port u) Hp).
  - by apply decimal_graphic.
  - by destruct (kind u).
Qed.

(** What is left of the printed form after its scheme: the credentials and the
    endpoint. *)
Lemma rest_printed u : printable u →
  let ep := url_host u ++ lit ":" ++ decimal (port u) in
  match rsplit_once 64 (url_credentials u ++ ep) with
  | Some (c, e) => parse_credentials (Some c) = (user u, password u) ∧ e = ep ∧ user u ≠ None
  | None => user u = None ∧ password u = None
  end.
Proof.
  intros Hu ep. pose proof (url_host_no_at u Hu) as Hat. fold ep in Hat.
  assert ((∃ c, url_credentials u = c ++ [64] ∧ user u ≠ None)
          ∨ url_credentials u = [] ∧ user u = None ∧ password u = None) as [(c & E & Hn)|(-> & ? & ?)].
  { unfold url_credentials. destruct (user u) eqn:E; [left|by rewrite (pr_both _ Hu E); right].
    destruct (password u); eexists; (split; [|done]); by rewrite ?app_assoc. }
  - rewrite E, <- app_assoc. cbn [app]. rewrite rsplit_once_app by done.
    split; [|done]. by apply parse_credentials_printed.
  - by rewrite rsplit_once_none.
Qed.

Lemma parse_printed `{UnicodeCase} u : printable u → parse (psiphon_url u) = Ok u.
Proof.
  intros Hu. pose proof (pr_port _ Hu) as Hp. unfold parse. rewrite psiphon_trim by lia.
  set (ep := url_host u ++ lit ":" ++ decimal (port u)).
  set (scheme := match kind u with Socks5 => lit "socks5" | Http => lit "http" end).
  assert (split_at_first (lit "://") (psiphon_url u) = Some (scheme, url_credentials u ++ ep)) as ->.
  { apply (split_at_first_app (lit "//") 58 scheme). by unfold scheme; destruct (kind u). }
  assert (to_lowercase scheme = scheme) as -> by (unfold scheme; destruct (kind u); by vm_compute).
  assert (scheme_kind scheme = Some (kind u)) as -> by (unfold scheme; destruct (kind u); by vm_compute).
  assert (str_eqb scheme (lit "https") = false) as -> by (unfold scheme; destruct (kind u); by vm_compute).
  cbn [ok_or mbind comp_bind]. pose proof (rest_printed u Hu) as Hr. cbn zeta in Hr. fold ep in Hr.
  destruct (rsplit_once 64 _) as [[c e]|].
  - destruct Hr as (Hc & -> & _). unfold ep. rewrite endpoint_kept, split_endpoint_printed by (done || lia).
    cbn [mbind comp_bind]. rewrite Hc. by destruct u.
  - destruct Hr as [Hn Hn'].
    assert (url_credentials u = []) as -> by (unfold url_credentials; by rewrite Hn).
    cbn [app]. unfold ep. rewrite endpoint_kept, split_endpoint_printed by (done || lia).
    cbn [mbind comp_bind parse_credentials]. destruct u; cbn in *; by subst.
Qed.

Lemma digits_go_range max acc s v : 0 ≤ acc ≤ max → digits_go max acc s = Some v → 0 ≤ v ≤ max.
Proof.
  revert acc. induction s as [|d s IH]; intros acc Ha; cbn [digits_go]; [intros [= <-]; lia|].
  unfold is_ascii_digit. case_match eqn:Ed; [|done]. case_match eqn:El; [|done]. apply IH. lia.
Qed.

Lemma parse_u16_range s v : parse_u16 s = Some v → 0 ≤ v ≤ 65535.
Proof. unfold parse_u16, parse_uint. case_match; [done|]. apply digits_go_range. lia. Qed.

Lemma checked_endpoint_Ok e h p h' p' : checked_endpoint e h p = Ok (h', p') → h' = h ∧ h ≠ [] ∧ 0 < p' ≤ 65535.
Proof.
  unfold checked_endpoint. destruct (parse_u16 p) as [q|] eqn:E; [|done]. cbn.
  apply parse_u16_range in E. destruct h; [done|]. cbn.
  destruct (Z.eqb_spec q 0); [done|]. intros [= <- <-]. split; [done|]. split; [done|]. lia.
Qed.

Lemma split_endpoint_Ok e h p :
  split_endpoint e = Ok (h, p) → h ≠ [] ∧ 0 < p ≤ 65535 ∧ ∃ x y, e = x ++ h ++ y.
Proof.
  unfold split_endpoint. destruct (strip_prefix [91] e) as [rest|] eqn:E.
  - apply strip_prefix_Some in E as ->.
    destruct (split_once 93 rest) as [[h' tail]|] eqn:Es; [|done]. cbn [ok_or mbind comp_bind].
    destruct (strip_prefix [58] tail); [|done]. cbn [ok_or mbind comp_bind].
    intros (-> & ? & ?)%checked_endpoint_Ok. apply split_once_Some in Es as [-> _].
    split; [done|]. split; [done|]. by exists [91], (93 :: tail).
  - destruct (rsplit_once 58 e) as [[h' q]|] eqn:Es; [|done]. cbn [ok_or mbind comp_bind].
    intros (-> & ? & ?)%checked_endpoint_Ok. apply rsplit_once_Some in Es as [-> _].
    split; [done|]. split; [done|]. by exists [], (58 :: q).
Qed.

Lemma hex_go_range max acc s v : 0 ≤ acc ≤ max → hex_go max acc s = Some v → 0 ≤ v ≤ max.
Proof.
  revert acc. induction s as [|d s IH]; intros acc Ha; cbn [hex_go]; [intros [= <-]; lia|].
  destruct (hex_value d) as [x|] eqn:Ed; [|done]. case_match eqn:El; [|done].
  assert (0 ≤ x) by (revert Ed; unfold hex_value, is_ascii_digit; repeat case_match; intros [= <-]; lia).
  apply IH. lia.
Qed.

Lemma percent_bytes_ok s : bytes_ok s → bytes_ok (percent_bytes s).
Proof.
  unfold bytes_ok. induction s as [s IH] using (induction_ltof1 _ length); unfold ltof in IH.
  intros Hs. destruct s as [|c r]; [done|]. apply Forall_cons in Hs as [Hc Hr]. cbn [percent_bytes].
  destruct r as [|a [|b rest]]; [by apply Forall_singleton| |].
  { constructor; [done|]. by apply IH; [cbn; lia|]. }
  destruct (if c =? 37 then _ else None) as [v|] eqn:E.
  - constructor; [|apply IH; [cbn; lia|]; by do 2 apply Forall_cons in Hr as [_ Hr]].
    destruct (c =? 37); [|done]. unfold parse_hex in E. case_match; [done|].
    apply hex_go_range in E; [|lia]. unfold u8. lia.
  - constructor; [done|]. apply IH; [cbn; lia|done].
Qed.

Lemma percent_decode_ok s : bytes_ok s → bytes_ok (percent_decode s) ∧ utf8 (percent_decode s).
Proof.
  intros Hs. split; [by apply from_utf8_lossy_ok, percent_bytes_ok|apply from_utf8_lossy_utf8].
Qed.

Lemma parse_credentials_ok c u p : (∀ s, c = Some s → bytes_ok s) → parse_credentials c = (u, p) →
  (u = None → p = None) ∧ (∀ s, u = Some s → bytes_ok s ∧ utf8 s) ∧ (∀ s, p = Some s → bytes_ok s ∧ utf8 s).
Proof.
  unfold parse_credentials. intros Hc. destruct c as [t|]; [|by intros [= <- <-]].
  specialize (Hc t eq_refl).
  destruct (split_once 58 t) as [[a b]|] eqn:E; intros [= <- <-]; [|].
  - apply split_once_Some in E as [-> _]. apply Forall_app in Hc as [Ha [_ Hb]%Forall_cons].
    split; [done|]. split; intros s [= <-]; by apply percent_decode_ok.
  - split; [done|]. split; intros s [= <-]. by apply percent_decode_ok.
Qed.

(** What [parse] gives is printable, brackets in the host apart. *)
Lemma parse_printable `{UnicodeCase} raw u : bytes_ok raw → parse raw = Ok u →
  no_char 91 (host u) = true → no_char 93 (host u) = true → printable u.
Proof.
  intros Hraw Hparse Ho Hc. apply trim_ok in Hraw. revert Hparse. unfold parse.
  assert (∃ scheme rest, (let '(s, r) := match split_at_first (lit "://") (trim raw) with
            | Some (scheme, rest) => (to_lowercase scheme, rest)
            | None => (lit "socks5", trim raw) end in s = scheme ∧ r = rest) ∧ bytes_ok rest)
    as (scheme & rest & Hs & Hrest).
  { destruct (split_at_first _ _) as [[a b]|] eqn:E; eexists _, _; (split; [done|]); [|done].
    apply split_at_first_Some in E. rewrite E in Hraw.
    apply Forall_app in Hraw as [_ [_ Hb]%Forall_app]. exact Hb. }
  destruct (match split_at_first _ _ with Some _ => _ | None => _ end) as [s r].
  destruct Hs as [-> ->]. destruct (scheme_kind scheme) as [k|]; [|done]. cbn [ok_or mbind comp_bind].
  assert (∃ c e, (match rsplit_once 64 rest with
            | Some (a, b) => (Some a, b) | None => (None, rest) end) = (c, e)
            ∧ no_char 64 e = true ∧ ∀ t, c = Some t → bytes_ok t) as (c & e & -> & He & Hcred).
  { destruct (rsplit_once 64 rest) as [[a b]|] eqn:E; eexists _, _; (split; [done|]).
    - apply rsplit_once_Some in E as [-> Hb]. apply Forall_app in Hrest as [Ha _].
      split; [done|]. by intros t [= <-].
    - split; [by apply rsplit_once_None|done]. }
  intros Hok.
  assert (('(h, p) ← split_endpoint (trim_end_matches 47 e);
      let '(u0, pw) := parse_credentials c in Ok (mk_upstream k h p u0 pw)) = Ok u) as Hok'.
  { destruct (str_eqb scheme (lit "https")), c; done. }
  clear Hok. destruct (split_endpoint _) as [[h p]| |] eqn:Ee; [|done..]. cbn [mbind comp_bind] in Hok'.
  destruct (parse_credentials c) as [u0 pw] eqn:Ec. injection Hok' as <-. cbn [host] in Ho, Hc.
  apply parse_credentials_ok in Ec as (? & ? & ?); [|done].
  apply split_endpoint_Ok in Ee as (? & ? & x & y & Exy).
  destruct (trim_end_matches_prefix 47 e) as (t & Et & _). rewrite Et, Exy, !no_char_app in He.
  constructor; cbn [host port user password]; try done.
  by destruct (no_char 64 h); [|rewrite andb_false_r in He].
Qed.

(** The proxy setting survives its way to psiphon: for every text that
    [Upstream::parse] accepts, with or without a scheme, credentials, percent
    escapes, brackets or trailing slashes, the UpstreamProxyURL that
    [psiphon_url] prints reads back as the very same proxy, kind, host, port,
    user and password alike.  Hosts that themselves hold a square bracket are
    set apart. *)
Theorem psiphon_url_roundtrip `{UnicodeCase} raw u (Hraw : bytes_ok raw) (Hparse : parse raw = Ok u)
  (Hopen : no_char 91 (host u) = true) (Hclose : no_char 93 (host u) = true) :
  parse (psiphon_url u) = Ok u.
Proof. apply parse_printed. by eapply parse_printable. Qed.

Definition sample_setting : bytes := lit " Socks5H://us%20er:p%40%zz@[2001:db8::1]:1080// ".

Lemma psiphon_url_roundtrip_witness :
  ∃ u, @parse ascii_only sample_setting = Ok u ∧ password u = Some (lit "p@%zz") ∧
    @parse ascii_only (psiphon_url u) = Ok u.
Proof.
  eexists. split; [vm_compute; reflexivity|]. split; [by vm_compute|].
  apply (@psiphon_url_roundtrip ascii_only sample_setting); [by_decision|by vm_compute..].
Defined.

(** ** Detours and their guards

    A history of the process: sockets are attached and guards are dropped, in
    any order; a guard is named by the order it was given out in. *)
Inductive detour_op :=
| Attach (client shim_ peer_ relay : SocketAddr)
| DropGuard (k : nat).

Definition detour_step (w : list guard * detours) (op : detour_op) : list guard * detours :=
  let '(issued, st) := w in
  match op with
  | Attach client shim_ peer_ relay =>
      match attach_detour_via peer_ (Ok relay) (Ok client) (λ _, Ok shim_) st with
      | (Ok g, st) => (issued ++ [g], st)
      | (_, st) => (issued, st)
      end
  | DropGuard k => (issued, match issued !! k with Some g => drop_guard g st | None => st end)
  end.

Definition detour_run (w : list guard * detours) (ops : list detour_op) : list guard * detours :=
  fold_left detour_step ops w.

(** The state at the start of the process. *)
Definition no_detours : list guard * detours := ([], mk_detours ∅ 1).

(** The guards were given out with increasing ids, below the next one. *)
Definition ids_below (n : Z) (gs : list guard) : Prop :=
  ∀ k c i, gs !! k = Some (Some (c, i)) → 0 < i < n.

Lemma attach_public p r c s st : is_private (sa_ip p) = false → next_id st < 2 ^ 64 - 1 → 0 ≤ next_id st →
  attach_detour_via p (Ok r) (Ok c) (λ _, Ok s) st
  = (Ok (Some (c, next_id st)),
     mk_detours (<[c := mk_detour (next_id st) s p]> (entries st)) (next_id st + 1)).
Proof.
  intros Hp Hn H0. unfold attach_detour_via. rewrite Hp. cbn [mbind comp_bind next_detour_id entries next_id].
  by rewrite Z.mod_small by lia.
Qed.

Lemma attach_private p r c s st : is_private (sa_ip p) = true →
  attach_detour_via p (Ok r) (Ok c) (λ _, Ok s) st = (Ok None, st).
Proof. intros Hp. unfold attach_detour_via. by rewrite Hp. Qed.

Lemma forget_next c i st : next_id (forget_detour c i st) = next_id st.
Proof. unfold forget_detour. by repeat case_match. Qed.

Lemma drop_next g st : next_id (drop_guard g st) = next_id st.
Proof. destruct g as [[]|]; [apply forget_next|done]. Qed.

Lemma ids_below_snoc n gs g : ids_below n gs → (∀ c i, g = Some (c, i) → 0 < i < n) → ids_below n (gs ++ [g]).
Proof.
  intros Hgs Hg k c i Hk. apply lookup_app_Some in Hk as [Hk|[_ Hk]]; [by eapply Hgs|].
  apply list_lookup_singleton_Some in Hk as [_ ->]. by eapply Hg.
Qed.

Lemma ids_below_mono n m gs : n ≤ m → ids_below n gs → ids_below m gs.
Proof. intros Hm H k c i Hk. specialize (H k c i Hk). lia. Qed.

Lemma detour_step_ids w op : 0 < next_id w.2 < 2 ^ 64 - 1 → ids_below (next_id w.2) w.1 →
  let w' := detour_step w op in
  next_id w.2 ≤ next_id w'.2 ≤ next_id w.2 + 1 ∧ ids_below (next_id w'.2) w'.1.
Proof.
  destruct w as [gs st]. cbn [fst snd]. intros Hn Hb. destruct op as [c s p r|k]; cbn [detour_step].
  - destruct (is_private (sa_ip p)) eqn:Ep.
    + rewrite attach_private by done. cbn [fst snd]. split; [lia|]. by apply ids_below_snoc.
    + rewrite attach_public by (done || lia). cbn [fst snd next_id]. split; [lia|].
      apply ids_below_snoc; [eapply ids_below_mono; [|done]; lia|]. intros c' i [= <- <-]. lia.
  - destruct (gs !! k) as [g|]; cbn [fst snd]; rewrite ?drop_next; (split; [lia|done]).
Qed.

Lemma detour_run_ids ops w : 0 < next_id w.2 → next_id w.2 + blen ops < 2 ^ 64 → ids_below (next_id w.2) w.1 →
  let w' := detour_run w ops in
  next_id w.2 ≤ next_id w'.2 ≤ next_id w.2 + blen ops ∧ ids_below (next_id w'.2) w'.1.
Proof.
  revert w. induction ops as [|op ops IH]; intros w H0 Hn Hb; cbn zeta; [unfold detour_run; cbn [fold_left]; split; [blia|done]|].
  rewrite blen_cons in *. blen_pos.
  destruct (detour_step_ids w op) as [Hs Hsb]; [lia|done|].
  destruct (IH (detour_step w op)) as [Hr Hrb]; [lia|lia|done|]. cbn [detour_run fold_left].
  split; [unfold detour_run in Hr; lia|done].
Qed.

(** The detour of guard [n] stands: its entry is there and no other guard has
    its id. *)
Record stands (n : nat) (c s p : SocketAddr) (w : list guard * detours) : Prop := {
  st_entry : ∃ i, entries w.2 !! c = Some (mk_detour i s p) ∧ 0 < i < next_id w.2
    ∧ w.1 !! n = Some (Some (c, i))
    ∧ ∀ k c' i', w.1 !! k = Some (Some (c', i')) → k ≠ n → i' ≠ i;
  st_below : ids_below (next_id w.2) w.1 }.

(** An operation that leaves the client's socket and guard [n] alone. *)
Definition leaves (c : SocketAddr) (n : nat) (op : detour_op) : Prop :=
  match op with Attach c' _ _ _ => c' ≠ c | DropGuard k => k ≠ n end.

Lemma forget_other c c' i' st d : entries st !! c = Some d → (c' = c → i' ≠ id d) →
  entries (forget_detour c' i' st) !! c = Some d.
Proof.
  intros Hd Hi. unfold forget_detour. destruct (entries st !! c') as [d'|] eqn:E; [|done].
  destruct (Z.eqb_spec (id d') i'); [|done]. cbn [entries].
  destruct (base.decide (c' = c)) as [->|Hne]; [|by rewrite lookup_delete_ne].
  exfalso. apply Hi; congruence.
Qed.

Lemma stands_step n c s p w op : stands n c s p w → next_id w.2 < 2 ^ 64 - 1 → leaves c n op →
  stands n c s p (detour_step w op).
Proof.
  destruct w as [gs st]. intros [(i & He & Hi & Hg & Ho) Hb] Hn Hl. cbn [fst snd] in *.
  pose proof (lookup_lt_Some _ _ _ Hg) as Hlt.
  destruct (detour_step_ids (gs, st) op) as [Hs Hsb]; [cbn; lia|done|]. cbn [fst snd] in Hs.
  split; [|done]. exists i. destruct op as [c' s' p' r|k]; cbn [detour_step] in *.
  - assert (∀ g, (∀ c'' i'', g = Some (c'', i'') → i'' = next_id st) →
      (gs ++ [g]) !! n = Some (Some (c, i))
      ∧ ∀ k c'' i'', (gs ++ [g]) !! k = Some (Some (c'', i'')) → k ≠ n → i'' ≠ i) as Happ.
    { intros g Hgn. split; [by rewrite lookup_app_l|].
      intros k c'' i'' Hk Hkn. apply lookup_app_Some in Hk as [Hk|[_ Hk]]; [by eapply Ho|].
      apply list_lookup_singleton_Some in Hk as [_ Hk]. apply Hgn in Hk. lia. }
    destruct (is_private (sa_ip p')) eqn:Ep.
    + rewrite attach_private by done. cbn [fst snd]. split; [done|]. split; [done|]. by apply Happ.
    + rewrite attach_public in * by (done || lia). cbn [fst snd entries next_id] in *.
      rewrite lookup_insert_ne by done. split; [done|]. split; [lia|]. apply Happ. by intros c'' i'' [= _ <-].
  - destruct (gs !! k) as [g|] eqn:Ek; cbn [fst snd] in *; [|done].
    rewrite drop_next in *. split; [|done]. destruct g as [[c' i']|]; [|done]. cbn [drop_guard].
    eapply forget_other; [done|]. intros ->. cbn [id]. by eapply Ho.
Qed.

Lemma stands_run n c s p ops w : stands n c s p w → next_id w.2 + blen ops < 2 ^ 64 → Forall (leaves c n) ops →
  stands n c s p (detour_run w ops).
Proof.
  intros Hs Hn Hl. revert w Hs Hn. induction Hl as [|op ops Hop _ IH]; intros w Hs Hn; [done|].
  rewrite blen_cons in Hn. blen_pos. cbn [detour_run fold_left]. apply IH.
  - by apply stands_step; [|lia|].
  - destruct Hs as [(i & _ & ? & _) Hb]. destruct (detour_step_ids w op) as [? _]; [lia|done|]. lia.
Qed.

Lemma stands_attach w c s p r : is_private (sa_ip p) = false → 0 < next_id w.2 < 2 ^ 64 - 1 →
  ids_below (next_id w.2) w.1 → stands (length w.1) c s p (detour_step w (Attach c s p r)).
Proof.
  intros Hp Hn Hb. destruct (detour_step_ids w (Attach c s p r)) as [_ Hb']; [done..|].
  split; [|done]. destruct w as [gs st]. cbn [fst snd] in *.
  cbn [detour_step] in *. rewrite attach_public in * by (done || lia). cbn [fst snd entries next_id] in *.
  exists (next_id st). rewrite lookup_insert_eq. split; [done|]. split; [lia|].
  split; [by rewrite lookup_app_r, Nat.sub_diag by done|].
  intros k c' i' Hk Hkn. apply lookup_app_Some in Hk as [Hk|[Hge Hk]].
  - apply Hb in Hk. lia.
  - apply list_lookup_singleton_Some in Hk as [Hk _]. lia.
Qed.

(** A detour lasts exactly as long as its guard: after any history of the
    process a socket is attached to a public peer; whatever happens next to
    other sockets and to other guards, an older guard for the same socket
    address dropped late included, datagrams for the peer go to the shim and
    what comes from the shim counts as the peer's; once its own guard is
    dropped, the socket is back to direct addresses. *)
Theorem detour_lives_with_guard before c s p r later intended observed
  (Hp : is_private (sa_ip p) = false) (Hlen : blen before + blen later + 2 < 2 ^ 64)
  (Hl : Forall (leaves c (length (detour_run no_detours before).1)) later) :
  let n := length (detour_run no_detours before).1 in
  let w := detour_run no_detours (before ++ Attach c s p r :: later) in
  let w' := detour_step w (DropGuard n) in
  relay_target w.2 c intended = s ∧ real_source w.2 c s = p
  ∧ relay_target w'.2 c intended = intended ∧ real_source w'.2 c observed = observed.
Proof.
  intros n w w'.
  destruct (detour_run_ids before no_detours) as [Hn Hb]; [done|cbn; blia|done|].
  cbn [no_detours next_id fst snd] in Hn. fold n in Hl.
  assert (stands n c s p w) as [(i & He & _ & Hg & _) _].
  { unfold w, detour_run. rewrite fold_left_app. cbn [fold_left]. blen_pos.
    assert (stands n c s p (detour_step (detour_run no_detours before) (Attach c s p r))) as Hs
      by (apply stands_attach; [done| |done]; lia).
    apply stands_run; [done| |done].
    destruct (detour_step_ids (detour_run no_detours before) (Attach c s p r)) as [? _]; [lia|done|].
    unfold detour_run in *. lia. }
  unfold relay_target, real_source. rewrite He. cbn [shim peer]. rewrite bool_decide_eq_true_2 by done.
  assert (entries w'.2 !! c = None) as ->; [|done].
  unfold w'. destruct w as [gs st]. cbn [detour_step fst snd] in *. rewrite Hg.
  cbn [drop_guard snd]. unfold forget_detour. rewrite He. cbn [id]. rewrite Z.eqb_refl. apply lookup_delete_eq.
Qed.

Definition sample_client : SocketAddr := SockAddr (V4 0) 40000.
Definition sample_peer : SocketAddr := SockAddr (V4 0x08080808) 443.
Definition sample_shim (p : Z) : SocketAddr := SockAddr (V4 0x7f000001) p.

Lemma detour_lives_with_guard_witness :
  let before := [Attach sample_client (sample_shim 1) sample_peer sample_peer] in
  let later := [DropGuard 0; Attach (sample_shim 9) (sample_shim 3) sample_peer sample_peer] in
  let w := detour_run no_detours (before ++ Attach sample_client (sample_shim 2) sample_peer sample_peer :: later) in
  relay_target w.2 sample_client sample_peer = sample_shim 2.
Proof.
  apply (detour_lives_with_guard [Attach sample_client (sample_shim 1) sample_peer sample_peer]
    sample_client (sample_shim 2) sample_peer sample_peer
    [DropGuard 0; Attach (sample_shim 9) (sample_shim 3) sample_peer sample_peer] sample_peer sample_peer).
  - by vm_compute.
  - by vm_compute.
  - repeat constructor; by vm_compute.
Defined.

(** ** The framing of the UDP relay *)

Lemma index_suffix {E} (l : bytes) i x r : suffix_at l i (x :: r) → index (E := E) l i = Ok x.
Proof. intros Hs. unfold index. by rewrite (suffix_at_get _ _ _ _ Hs). Qed.

Lemma index_range_suffix_at {E} (l : bytes) i s r e :
  suffix_at l i (s ++ r) → e = i + blen s → index_range (E := E) l i e = Ok s.
Proof. intros Hs He. unfold index_range. by rewrite (suffix_at_slice _ _ _ _ _ Hs He). Qed.

Lemma port_at_suffix {E} (l : bytes) i p r : u16 p → suffix_at l i (be_bytes 2 p ++ r) →
  port_at (E := E) l i = Ok p.
Proof.
  intros Hp Hs. destruct (be_bytes_2 p Hp) as (a & b & E2 & _ & _ & Hv). rewrite E2 in Hs. cbn [app] in Hs.
  unfold port_at. rewrite (index_suffix _ _ _ _ Hs). cbn [mbind comp_bind].
  rewrite (index_suffix _ _ _ _ (suffix_at_cons _ _ _ _ Hs)). cbn [mbind comp_bind].
  by rewrite be_val_2, Hv.
Qed.

Lemma blen_ip_octets a : blen (ip_octets a) = match a with V4 _ => 4 | V6 _ => 16 end.
Proof. destruct a; apply blen_be_bytes. Qed.

(** What the header of a datagram says reads back, whatever the payload. *)
Lemma decode_encode_udp target payload : sa_ok target →
  decode_udp_header (encode_udp_header target ++ payload)
  = Ok (target, blen (encode_udp_header target)).
Proof.
  destruct target as [ip p]. intros [Hip Hp]. cbn [sa_ip sa_port] in *.
  set (buf := encode_udp_header (SockAddr ip p) ++ payload).
  set (atyp := match ip with V4 _ => ATYP_V4 | V6 _ => ATYP_V6 end).
  assert (buf = [0; 0; 0; atyp] ++ ip_octets ip ++ be_bytes 2 p ++ payload) as Hbuf
    by (unfold buf, encode_udp_header, encode_address, atyp; cbn [sa_ip sa_port];
        destruct ip; by rewrite <- !app_assoc).
  assert (suffix_at buf 0 ([0; 0; 0; atyp] ++ ip_octets ip ++ be_bytes 2 p ++ payload)) as S0
    by (rewrite Hbuf; apply suffix_at_0).
  pose proof (suffix_at_cons _ _ _ _ (suffix_at_cons _ _ _ _ S0)) as S2.
  pose proof (suffix_at_cons _ _ _ _ S2) as S3. pose proof (suffix_at_cons _ _ _ _ S3) as S4.
  pose proof (suffix_at_app _ _ _ _ S4) as Sp. rewrite blen_ip_octets in Sp.
  assert (blen buf = 6 + blen (ip_octets ip) + blen payload) as Hlen
    by (rewrite Hbuf; blen_norm; rewrite blen_be_bytes; lia).
  assert (blen (encode_udp_header (SockAddr ip p)) = 6 + blen (ip_octets ip)) as ->
    by (unfold buf in Hlen; rewrite blen_app in Hlen; lia).
  rewrite blen_ip_octets in *. blen_pos. clear Hbuf. clearbody buf.
  unfold decode_udp_header. rewrite (index_suffix _ _ _ _ S2), (index_suffix _ _ _ _ S3).
  cbn [mbind comp_bind negb Z.eqb].
  destruct (Z.ltb_spec (blen buf) 4); [destruct ip; lia|].
  destruct ip as [b|b]; cbn [atyp Z.eqb ATYP_V4 ATYP_V6 Pos.eqb] in *.
  - destruct (Z.ltb_spec (blen buf) 10); [lia|].
    rewrite (index_range_suffix_at _ _ _ _ 8 S4) by (rewrite blen_ip_octets; done).
    cbn [mbind comp_bind]. rewrite (port_at_suffix _ _ _ _ Hp Sp). cbn [mbind comp_bind].
    cbn [ip_octets]. by rewrite v4_of_octets.
  - destruct (Z.ltb_spec (blen buf) 22); [lia|].
    rewrite (index_range_suffix_at _ _ _ _ 20 S4) by (rewrite blen_ip_octets; done).
    cbn [mbind comp_bind]. rewrite (port_at_suffix _ _ _ _ Hp Sp). cbn [mbind comp_bind].
    cbn [ip_octets]. by rewrite v6_of_octets.
Qed.

Lemma index_in {E} (l : bytes) i : 0 ≤ i < blen l → ∃ x, index (E := E) l i = Ok x ∧ get l i = Some x.
Proof. intros Hi. destruct (get_is_Some l i Hi) as [x E']. exists x. unfold index. by rewrite E'. Qed.

Lemma port_at_in {E} (l : bytes) i : 0 ≤ i → i + 1 < blen l → ∃ p, port_at (E := E) l i = Ok p.
Proof.
  intros H0 H1. unfold port_at. destruct (index_in (E := E) l i) as (a & -> & _); [lia|].
  destruct (index_in (E := E) l (i + 1)) as (b & -> & _); [lia|]. cbn [mbind comp_bind]. by eexists.
Qed.

(** The decoder never reads out of range, and the payload starts within. *)
Lemma decode_udp_header_safe buf : bytes_ok buf →
  match decode_udp_header buf with Ok (_, offset) => 0 ≤ offset ≤ blen buf | Err _ => True | Panic => False end.
Proof.
  intros Hok. unfold decode_udp_header. destruct (Z.ltb_spec (blen buf) 4); [done|].
  destruct (index_in (E := ()) buf 2) as (rsv & -> & _); [lia|]. cbn [mbind comp_bind].
  destruct (negb (rsv =? 0)); [done|].
  destruct (index_in (E := ()) buf 3) as (atyp & -> & _); [lia|]. cbn [mbind comp_bind].
  destruct (atyp =? ATYP_V4).
  { destruct (Z.ltb_spec (blen buf) 10); [done|].
    destruct (index_range_ok (E := ()) buf 4 8) as (o & -> & _); [lia..|]. cbn [mbind comp_bind].
    destruct (port_at_in (E := ()) buf 8) as [p ->]; [lia..|]. cbn. lia. }
  destruct (atyp =? ATYP_V6).
  { destruct (Z.ltb_spec (blen buf) 22); [done|].
    destruct (index_range_ok (E := ()) buf 4 20) as (o & -> & _); [lia..|]. cbn [mbind comp_bind].
    destruct (port_at_in (E := ()) buf 20) as [p ->]; [lia..|]. cbn. lia. }
  destruct (atyp =? ATYP_NAME); [|done].
  destruct (get buf 4) as [len|] eqn:El; [|done]. apply get_ok in El; [|done]. unfold u8 in El.
  cbn [ok_or mbind comp_bind]. destruct (Z.ltb_spec (blen buf) (5 + len + 2)); [done|].
  destruct (port_at_in (E := ()) buf (5 + len)) as [p ->]; [lia..|]. cbn [mbind comp_bind].
  destruct (index_range_ok (E := ()) buf 5 (5 + len)) as (raw & -> & _); [lia..|]. cbn [mbind comp_bind].
  destruct (from_utf8 raw) as [name|]; [|done]. cbn [ok_or mbind comp_bind].
  destruct (parse_ip name); [|done]. cbn [ok_or mbind comp_bind]. lia.
Qed.

Lemma takez_ok n l : bytes_ok l → bytes_ok (takez n l).
Proof. apply Forall_take. Qed.

Lemma recv_from_safe n datagram : bytes_ok datagram → no_panic (recv_from n datagram).
Proof.
  intros Hok. unfold recv_from. set (framed := takez _ datagram).
  assert (bytes_ok framed) as Hf by by apply takez_ok.
  pose proof (decode_udp_header_safe framed Hf) as Hs.
  destruct (decode_udp_header framed) as [[o off]| |]; [|done..]. cbn [mbind comp_bind].
  rewrite index_range_suffix by done. done.
Qed.

(** What the relay returns of a datagram that it frames as [send_to] does. *)
Lemma recv_send target payload n : sa_ok target → blen payload ≤ n → 2048 ≤ n →
  recv_from n (send_to payload target) = Ok (payload, target).
Proof.
  intros Ht Hp Hn. unfold recv_from, send_to.
  assert (blen (encode_udp_header target) = 6 + blen (ip_octets (sa_ip target))) as Hh.
  { destruct target as [[b|b] p]; unfold encode_udp_header, encode_address; cbn [sa_ip sa_port];
      blen_norm; rewrite !blen_ip_octets, blen_be_bytes; lia. }
  assert (6 ≤ blen (encode_udp_header target) ≤ 22) as Hh'
    by (rewrite Hh, blen_ip_octets; destruct (sa_ip target); lia).
  rewrite takez_all by (rewrite blen_app; lia).
  rewrite decode_encode_udp by done. cbn [mbind comp_bind].
  rewrite index_range_suffix by (rewrite blen_app; blen_pos; lia). cbn [mbind comp_bind].
  by rewrite dropz_app, takez_all.
Qed.

(** ** The pump *)

Definition accepted (client : SocketAddr) (ev : pump_event) : option bytes :=
  match ev with
  | FromShim data origin => if from_detoured_socket client origin then Some (takez PUMP_BUF data) else None
  | _ => None
  end.

Definition to_relay (a : pump_action) : option bytes :=
  match a with ToRelay d => Some d | ToShim _ _ => None end.

Definition event_ok (ev : pump_event) : Prop :=
  match ev with FromShim _ _ => True | FromRelay d => bytes_ok d | Failed _ => False end.

Definition answers_client (client : SocketAddr) (evs : list pump_event) (a : pump_action) : Prop :=
  match a with
  | ToRelay _ => True
  | ToShim d to => from_detoured_socket client to = true
      ∧ ∃ datagram origin, FromRelay datagram ∈ evs ∧ recv_from PUMP_BUF datagram = Ok (d, origin)
  end.

Lemma answers_client_more client evs ev a : answers_client client evs a → answers_client client (ev :: evs) a.
Proof.
  destruct a as [d|d to]; [done|]. intros (H1 & dg & o & He & Hr). split; [done|]. exists dg, o. by split; [right|].
Qed.

Lemma pump_spec client p reply_to evs :
  Forall event_ok evs → (∀ to, reply_to = Some to → from_detoured_socket client to = true) →
  let '(acts, ended) := pump client p reply_to evs in
  ended = None ∧ omap to_relay acts = (λ d, send_to d p) <$> omap (accepted client) evs
  ∧ Forall (answers_client client evs) acts.
Proof.
  intros He. revert reply_to. induction He as [|ev evs Hev _ IH]; intros reply_to Hr; [done|].
  cbn [pump]. destruct ev as [data origin|dg|e]; cbn [pump_step]; [| |done].
  - unfold accepted at 1; cbn [omap list_omap]. destruct (from_detoured_socket client origin) eqn:E; cbn [negb].
    + specialize (IH (Some origin)). destruct (pump client p (Some origin) evs) as [more ended].
      destruct IH as (-> & Hto & Hall); [by intros to [= <-]|]. cbn. split; [done|].
      split; [by rewrite Hto|]. constructor; [done|]. eapply Forall_impl; [done|]. apply answers_client_more.
    + specialize (IH reply_to Hr). destruct (pump client p reply_to evs) as [more ended].
      destruct IH as (-> & Hto & Hall). split; [done|]. split; [done|].
      eapply Forall_impl; [done|]. apply answers_client_more.
  - pose proof (recv_from_safe PUMP_BUF dg Hev) as Hs. specialize (IH reply_to Hr).
    destruct (recv_from PUMP_BUF dg) as [[d o]|e|] eqn:Ed; [| |done];
      destruct (pump client p reply_to evs) as [more ended]; destruct IH as (-> & Hto & Hall);
      (split; [done|]); cbn [omap list_omap accepted].
    + split; [destruct reply_to; by cbn|]. apply Forall_app. split.
      * destruct reply_to as [to|]; [|done]. constructor; [|done]. split; [by apply Hr|].
        exists dg, o. by split; [left|].
      * eapply Forall_impl; [done|]. apply answers_client_more.
    + split; [done|]. eapply Forall_impl; [done|]. apply answers_client_more.
Qed.

(** The pump of a detour serves its socket and no one else: over any
    sequence of datagrams, foreign senders and malformed relay datagrams
    included, it neither stops nor panics; what it hands the relay is, in
    order, exactly what the detoured socket sent, framed so that the relay's
    reader gets the same payload for the same peer; and what comes back is a
    relay's payload, sent only to an address of that socket. *)
Theorem pump_serves_its_socket client p evs (Hevs : Forall event_ok evs) (Hp : sa_ok p) :
  let '(acts, ended) := pump client p None evs in
  ended = None
  ∧ (recv_from PUMP_BUF <$> omap to_relay acts) = (λ d, Ok (d, p)) <$> omap (accepted client) evs
  ∧ Forall (answers_client client evs) acts.
Proof.
  pose proof (pump_spec client p None evs Hevs ltac:(done)) as Hs.
  destruct (pump client p None evs) as [acts ended]. destruct Hs as (-> & -> & Hall).
  split; [done|]. split; [|done]. rewrite <- list_fmap_compose. apply list_fmap_ext. intros i d Hd.
  cbn. apply recv_send; [done| |by vm_compute].
  assert (d ∈ omap (accepted client) evs) as (ev & _ & Ha)%list_elem_of_omap by by eapply list_elem_of_lookup_2.
  destruct ev as [data o| |]; cbn in Ha; [|done..]. case_match; [|done]. injection Ha as <-.
  rewrite blen_takez'. unfold PUMP_BUF. lia.
Qed.

Lemma pump_serves_its_socket_witness :
  let evs := [FromShim [1; 2] (SockAddr (V4 0x7f000001) 40000);
              FromShim [9] (SockAddr (V4 0x7f000001) 40001);
              FromRelay (send_to [7] sample_peer); FromRelay [1]] in
  pump sample_client sample_peer None evs
  = ([ToRelay (send_to [1; 2] sample_peer); ToShim [7] (SockAddr (V4 0x7f000001) 40000)], None)
  ∧ (recv_from PUMP_BUF <$> omap to_relay (pump sample_client sample_peer None evs).1)
    = (λ d, Ok (d, sample_peer)) <$> omap (accepted sample_client) evs.
Proof.
  intros evs. split; [by vm_compute|].
  assert (Forall event_ok evs) as Hevs by (repeat constructor; by vm_compute).
  assert (sa_ok sample_peer) as Hp by by_decision.
  pose proof (pump_serves_its_socket sample_client sample_peer evs Hevs Hp) as Hpump.
  destruct (pump sample_client sample_peer None evs) as [acts ended]. apply Hpump.
Defined.
