(* ===== verification/Socks.v ===== *)
(** * The local SOCKS5 server: its protocol and its resolver

    src/aether/src/socks.rs: the handshake and requests as the server reads
    them, its replies, the UDP framing, the CONNECT through the gateway proxy,
    and the resolver that asks the DNS servers inside the tunnel.  The handlers
    built on them are in the server's file.

    socks.rs repeats the [response_matches] and [skip_name] of dns.rs line by
    line; the definitions of [Dns] stand for both. *)

From stdpp Require Import strings.
From S2P Require Import Prelude Text Net NetText Fragment Routing Error Dns Stream Upstream.

Definition CMD_UDP_ASSOCIATE : Z := 3.
Definition ATYP_DOMAIN : Z := 3.
Definition REP_GENERAL : Z := 1.
Definition REP_NOT_ALLOWED : Z := 2.
Definition REP_NOT_SUPPORTED : Z := 7.

Inductive Target :=
| TIp (ip : IpAddr)
| TDomain (name : bytes).

#[export] Instance Target_eq_dec : EqDecision Target.
Proof. solve_decision. Defined.

(** [to_string()]. *)
Definition show_target (t : Target) : bytes :=
  match t with TIp ip => show_ip ip | TDomain name => name end.

Definition host_of (t : Target) : Host :=
  match t with TDomain name => Domain name | TIp ip => Ip ip end.

(** ** The handshake, as the server reads it *)

Definition handshake : conn () :=
  prefix ← read_exact 2;
  p0 ← at_ prefix 0;
  if negb (p0 =? VER) then fail (EOther (lit "bad greeting version")) else
  nmethods ← at_ prefix 1;
  _ ← read_exact nmethods;
  write_all [VER; 0].

Definition read_target_host (atyp : Z) : conn Target :=
  if atyp =? ATYP_V4 then b ← read_exact 4; mret (TIp (v4_of b))
  else if atyp =? ATYP_V6 then b ← read_exact 16; mret (TIp (v6_of b))
  else if atyp =? ATYP_DOMAIN then
    len ← read_exact 1;
    len ← at_ len 0;
    name ← read_exact len;
    mret (TDomain (from_utf8_lossy name))
  else fail (EOther (lit "bad atyp")).

Definition read_target (atyp : Z) : conn (Target * Z) :=
  target ← read_target_host atyp;
  port ← read_exact 2;
  mret (target, be_val port).

Definition read_request : conn (Z * Target * Z) :=
  _ ← handshake;
  head ← read_exact 4;
  h0 ← at_ head 0;
  if negb (h0 =? VER) then fail (EOther (lit "bad socks version")) else
  h3 ← at_ head 3;
  '(target, port) ← read_target h3;
  h1 ← at_ head 1;
  mret (h1, target, port).

Definition reply_bytes (code : Z) : bytes := [VER; code; 0; ATYP_V4; 0; 0; 0; 0; 0; 0].
Definition reply (code : Z) : conn () := write_all (reply_bytes code).

Definition reply_bound_bytes (bound : SocketAddr) : bytes :=
  [VER; REP_OK; 0]
  ++ match sa_ip bound with
     | V4 _ => ATYP_V4 :: ip_octets (sa_ip bound)
     | V6 _ => ATYP_V6 :: ip_octets (sa_ip bound)
     end ++ be_bytes 2 (sa_port bound).
Definition reply_bound (bound : SocketAddr) : conn () := write_all (reply_bound_bytes bound).

(** ** The UDP framing *)

(** [None] of the source is [Err tt]. *)
Definition parse_udp_request (buf : bytes) : comp () (Target * (Z * bytes)) :=
  if blen buf <? 4 then Err tt else
  rsv ← index buf 2;
  if negb (rsv =? 0) then Err tt else
  atyp ← index buf 3;
  '(target, pos) ←
    (if atyp =? ATYP_V4 then
       if blen buf <? 4 + 4 then Err tt else
       o ← index_range buf 4 (4 + 4); Ok (TIp (v4_of o), 4 + 4)
     else if atyp =? ATYP_V6 then
       if blen buf <? 4 + 16 then Err tt else
       o ← index_range buf 4 (4 + 16); Ok (TIp (v6_of o), 4 + 16)
     else if atyp =? ATYP_DOMAIN then
       len ← ok_or (get buf 4) tt;
       if blen buf <? 5 + len then Err tt else
       name ← index_range buf 5 (5 + len);
       Ok (TDomain (from_utf8_lossy name), 5 + len)
     else Err tt);
  if blen buf <? pos + 2 then Err tt else
  port ← port_at buf pos;
  payload ← index_range buf (pos + 2) (blen buf);
  Ok (target, (port, payload)).

Definition build_udp_reply (src : SocketAddr) (data : bytes) : bytes :=
  [0; 0; 0]
  ++ match sa_ip src with
     | V4 _ => ATYP_V4 :: ip_octets (sa_ip src)
     | V6 _ => ATYP_V6 :: ip_octets (sa_ip src)
     end ++ be_bytes 2 (sa_port src) ++ data.

(** ** The gateway proxy *)

Definition UA_REGISTER : bytes := lit "WARP for Android".

Definition should_use_gateway (port : Z) : bool := (port =? 80) || (port =? 443).

Definition build_proxy_connect (target : bytes) (port : Z) : bytes :=
  let authority :=
    if contains (lit ":") target && negb (starts_with (lit "[") target)
    then lit "[" ++ target ++ lit "]:" ++ decimal port
    else target ++ lit ":" ++ decimal port in
  lit "CONNECT " ++ authority ++ lit " HTTP/1.1" ++ [13; 10] ++ lit "Host: " ++ authority ++ [13; 10]
  ++ lit "User-Agent: " ++ UA_REGISTER ++ [13; 10; 13; 10].

Definition proxy_connect_succeeded (head : bytes) : option bool :=
  match split_at_first [13; 10] (from_utf8_lossy head) with
  | Some (line, _) =>
      word ← split_whitespace line !! 1%nat;
      status ← parse_u16 word;
      Some ((200 <=? status) && (status <? 300))
  | None => None
  end.

Definition find_head_end (buffer : bytes) : option Z := (λ at_, at_ + 4) <$> find [13; 10; 13; 10] buffer.

Definition GATEWAY_HEAD_LIMIT : Z := 8192.

(** What a wait for the gateway gives: a chunk, the end of the connection, or
    no answer in time. *)
Inductive gateway_event :=
| GwChunk (data : bytes)
| GwClosed
| GwTimeout.

Definition gateway_error (proxy : SocketAddr) (what : bytes) : AetherError :=
  EOther (lit "gateway " ++ show_socket_addr proxy ++ what).

(** The loop of [open_through_gateway]: what is left of the answer behind its
    head.  Waits past the end of the list end in a timeout. *)
Fixpoint gateway_answer (proxy : SocketAddr) (authority : bytes) (port : Z) (head : bytes)
    (evs : list gateway_event) : comp AetherError bytes :=
  match evs with
  | GwChunk chunk :: evs =>
      let head := head ++ chunk in
      match find_head_end head with
      | Some at_ =>
          match proxy_connect_succeeded head with
          | None => Err (gateway_error proxy (lit " sent a malformed response"))
          | Some false =>
              line ← index_range head 0 at_;
              let status :=
                trim match lines (from_utf8_lossy line) with l :: _ => l | [] => lit "no status" end in
              Err (EOther (lit "gateway refused " ++ authority ++ lit ":" ++ decimal port
                           ++ lit " (" ++ status ++ lit ")"))
          | Some true => index_range head at_ (blen head)
          end
      | None =>
          if GATEWAY_HEAD_LIMIT <? blen head then
            Err (gateway_error proxy (lit " sent an oversized response head"))
          else gateway_answer proxy authority port head evs
      end
  | GwClosed :: _ => Err (gateway_error proxy (lit " closed the connection"))
  | GwTimeout :: _ | [] => Err (gateway_error proxy (lit " did not answer in time"))
  end.

(** What the gateway was sent and how it ended.  [opened] is the outcome of the
    connection to the proxy inside the tunnel, within its time, and [sends]
    that of handing it the request. *)
Definition open_through_gateway (proxy : SocketAddr) (authority : bytes) (port : Z)
    (opened sends : comp AetherError ()) (evs : list gateway_event) : list bytes * comp AetherError bytes :=
  match opened with
  | Ok _ =>
      ([build_proxy_connect authority port], _ ← sends; gateway_answer proxy authority port [] evs)
  | Err e => ([], Err e)
  | Panic => ([], Panic)
  end.

(** ** Small decisions *)

Definition dialable (bound : SocketAddr) : SocketAddr :=
  match sa_ip bound with
  | V4 b => if v4_is_unspecified b then SockAddr (V4 0x7f000001) (sa_port bound) else bound
  | V6 b => if v6_is_unspecified b then SockAddr (V6 1) (sa_port bound) else bound
  end.

Definition normalize_ip (ip : IpAddr) : IpAddr :=
  match ip with
  | V6 b => match to_ipv4_mapped b with Some v4 => V4 v4 | None => V6 b end
  | other => other
  end.

Definition expected_udp_source (control_peer : SocketAddr) (requested : Target) : IpAddr :=
  match requested with
  | TIp ip => if negb (is_unspecified ip) then normalize_ip ip else normalize_ip (sa_ip control_peer)
  | TDomain _ => normalize_ip (sa_ip control_peer)
  end.

Definition udp_source_allowed (expected_ip : IpAddr) (latched : option SocketAddr) (from : SocketAddr) : bool :=
  match latched with
  | Some known => bool_decide (known = from)
  | None => bool_decide (normalize_ip (sa_ip from) = normalize_ip expected_ip)
  end.

Definition direct_target_allowed (client address : IpAddr) : bool :=
  let address := normalize_ip address in
  if is_loopback address || is_unspecified address then is_loopback (normalize_ip client) else true.

(** ** The resolver *)

Definition QTYPE_A : Z := 1.
Definition QTYPE_AAAA : Z := 28.
Definition RCODE_NXDOMAIN : Z := 3.

Inductive DnsAnswer :=
| Found (ip : IpAddr)
| NoRecord
| NoSuchName.

Definition parse_server (entry : bytes) : option SocketAddr :=
  match parse_socket_addr entry with
  | Some a => Some a
  | None => ip ← parse_ip entry; Some (SockAddr ip 53)
  end.

Definition add_server (servers : list SocketAddr) (token : bytes) : list SocketAddr :=
  let entry := trim token in
  if is_empty entry then servers else
  match parse_server entry with
  | Some server => if bool_decide (server ∈ servers) then servers else servers ++ [server]
  | None => servers
  end.

Definition DEFAULT_SERVERS : list SocketAddr :=
  [SockAddr (V4 0x01010101) 53; SockAddr (V4 0x01000001) 53].

Definition resolver_addresses (env : environment) : list SocketAddr :=
  let tokens := split_by (λ c, (c =? 44) || (c =? 32) || (c =? 59)) (default [] (env (lit "AETHER_DNS"))) in
  let servers := fold_left add_server tokens [] in
  if is_empty servers then DEFAULT_SERVERS else servers.

Definition dns_rcode (resp : bytes) : option Z := (λ flags, Z.land flags 0x0f) <$> get resp 3.

(** [id] is what the generator drew. *)
Definition build_dns_query (id : Z) (name : bytes) (qtype : Z) : bytes :=
  be_bytes 2 id ++ [0x01; 0x00] ++ [0x00; 0x01] ++ [0; 0; 0; 0; 0; 0]
  ++ concat ((λ label, as_u8 (blen label) :: label) <$> split 46 name)
  ++ [0x00] ++ be_bytes 2 qtype ++ [0x00; 0x01].

Section resolver.
Context {w : arch}.

Definition dns_response_matches (resp : bytes) (expected_id : Z) (expected_name : bytes)
    (expected_qtype : Z) : comp () bool :=
  response_matches resp expected_id expected_name expected_qtype.

(** The loop over the answers. *)
Fixpoint address_answers (resp : bytes) (qtype : Z) (an : nat) (pos : Z) : comp () (option IpAddr) :=
  match an with
  | O => Ok None
  | S an =>
      match skip_name resp pos with
      | None => Ok None
      | Some pos =>
          if pos + 10 >? blen resp then Ok None else
          rtype ← u16_at resp pos;
          rdlen ← u16_at resp (pos + 8);
          let pos := pos + 10 in
          if pos + rdlen >? blen resp then Ok None else
          if (rtype =? qtype) && (qtype =? QTYPE_A) && (rdlen =? 4) then
            o ← index_range resp pos (pos + 4); Ok (Some (v4_of o))
          else if (rtype =? qtype) && (qtype =? QTYPE_AAAA) && (rdlen =? 16) then
            o ← index_range resp pos (pos + 16); Ok (Some (v6_of o))
          else address_answers resp qtype an (pos + rdlen)
      end
  end.

Definition parse_dns_answer (resp : bytes) (qtype : Z) : comp () (option IpAddr) :=
  if blen resp <? 12 then Ok None else
  qd ← u16_at resp 4;
  an ← u16_at resp 6;
  match skip_questions resp (Z.to_nat qd) 12 with
  | None => Ok None
  | Some pos => address_answers resp qtype (Z.to_nat an) pos
  end.

(** What one server's turn brings: the id drawn for its query, whether the
    stack took it, and what arrives before the deadline. *)
Inductive dns_event :=
| DnsDatagram (data : bytes)
| DnsClosed.

Record attempt := mk_attempt {
  drawn : Z; handed_over : comp AetherError (); arrivals : list dns_event }.

(** The inner loop; [None]: the deadline came. *)
Fixpoint dns_wait (id : Z) (name : bytes) (qtype : Z) (evs : list dns_event)
    : option (comp AetherError DnsAnswer) :=
  match evs with
  | [] => None
  | DnsClosed :: _ => Some (Err (EOther (lit "dns channel closed")))
  | DnsDatagram resp :: evs =>
      match dns_response_matches resp id name qtype with
      | Panic => Some Panic
      | Ok false | Err _ => dns_wait id name qtype evs
      | Ok true =>
          match parse_dns_answer resp qtype with
          | Panic => Some Panic
          | Ok (Some ip) => Some (Ok (Found ip))
          | Ok None | Err _ =>
              Some (Ok (if bool_decide (dns_rcode resp = Some RCODE_NXDOMAIN) then NoSuchName else NoRecord))
          end
      end
  end.

Fixpoint dns_exchange (net : SocketAddr → attempt) (name : bytes) (qtype : Z) (servers : list SocketAddr)
    (last_ : AetherError) : comp AetherError DnsAnswer :=
  match servers with
  | [] => Err last_
  | server :: servers =>
      let a := net server in
      match handed_over a with
      | Panic => Panic
      | Err error => dns_exchange net name qtype servers error
      | Ok _ =>
          match dns_wait (drawn a) name qtype (arrivals a) with
          | Some r => r
          | None =>
              dns_exchange net name qtype servers
                (EOther (lit "dns timeout from " ++ show_socket_addr server))
          end
      end
  end.

Definition resolve_preferring_v4 (env : environment) (net : Z → SocketAddr → attempt) (name : bytes)
    : comp AetherError IpAddr :=
  let exchange qtype :=
    dns_exchange (net qtype) name qtype (resolver_addresses env) (EOther (lit "dns timeout")) in
  a ← exchange QTYPE_A;
  match a with
  | Found ip => Ok ip
  | NoSuchName => Err (EOther (name ++ lit " does not exist"))
  | NoRecord =>
      b ← exchange QTYPE_AAAA;
      match b with
      | Found ip => Ok ip
      | _ => Err (EOther (lit "no A or AAAA record for " ++ name))
      end
  end.

(** [dns_resolve]: [opened] is the outcome of opening a socket in the tunnel. *)
Definition dns_resolve (env : environment) (opened : comp AetherError ())
    (net : Z → SocketAddr → attempt) (name : bytes) : comp AetherError IpAddr :=
  _ ← opened; resolve_preferring_v4 env net name.

Definition resolve (dns : bytes → comp AetherError IpAddr) (target : Target) : comp AetherError IpAddr :=
  match target with
  | TIp ip => Ok ip
  | TDomain name => match parse_ip name with Some ip => Ok ip | None => dns name end
  end.

End resolver.

Example proxy_connect_ex :
  build_proxy_connect (lit "::1") 443 =
  lit "CONNECT [::1]:443 HTTP/1.1" ++ [13; 10] ++ lit "Host: [::1]:443" ++ [13; 10]
  ++ lit "User-Agent: WARP for Android" ++ [13; 10; 13; 10].
Proof. by vm_compute. Qed.
Example gateway_ex :
  gateway_answer (SockAddr (V4 1) 80) (lit "a") 443 []
    [GwChunk (lit "HTTP/1.1 200 OK" ++ [13; 10]); GwChunk ([13; 10] ++ lit "xy")] = Ok (lit "xy").
Proof. by vm_compute. Qed.
Example resolvers_ex :
  resolver_addresses (λ _, Some (lit "9.9.9.9, ::1;9.9.9.9:53 bad")) =
  [SockAddr (V4 0x09090909) 53; SockAddr (V6 1) 53].
Proof. by vm_compute. Qed.

(** ** Client and server talk

    What [Upstream] writes the server reads, and the other way around. *)

Lemma talks_read_at {B} l n k b (f : Z → conn B) i o r :
  n = blen l → get l k = Some b → talks (f b) i o r →
  talks (buf ← read_exact n; c ← at_ buf k; f c) (l ++ i) o r.
Proof.
  intros Hn Hk Hf. apply (talks_bind _ _ l i [] o l); [by apply talks_read|].
  apply (talks_bind _ _ [] i [] o b); [by apply talks_at|done].
Qed.

(** An address as both ends put it on the wire. *)
Definition wire_ip (ip : IpAddr) : Z * bytes :=
  (match ip with V4 _ => ATYP_V4 | V6 _ => ATYP_V6 end, ip_octets ip).

Lemma wire_ip_request cmd a :
  encode_request cmd a = [VER; cmd; 0; (wire_ip (sa_ip a)).1] ++ (wire_ip (sa_ip a)).2 ++ be_bytes 2 (sa_port a).
Proof. by destruct a as [[] ?]. Qed.

Lemma wire_ip_reply a :
  reply_bound_bytes a = [VER; REP_OK; 0; (wire_ip (sa_ip a)).1] ++ (wire_ip (sa_ip a)).2 ++ be_bytes 2 (sa_port a).
Proof. by destruct a as [[] ?]. Qed.

Lemma talks_then {A B} (m : conn A) (f : A → B) i o a :
  talks m i o (Ok a) → talks (x ← m; mret (f x)) i o (Ok (f a)).
Proof.
  intros Hm. rewrite <- (app_nil_r i), <- (app_nil_r o). eapply talks_bind; [done|apply talks_ret].
Qed.

Lemma read_ip_wire ip : ip_ok ip → talks (read_ip (wire_ip ip).1) (wire_ip ip).2 [] (Ok ip).
Proof.
  intros Hip. destruct ip as [b|b]; cbn [wire_ip fst snd ip_octets].
  - rewrite <- (v4_of_octets b) by done. apply talks_then. by apply talks_read.
  - rewrite <- (v6_of_octets b) by done. apply talks_then. by apply talks_read.
Qed.

Lemma read_target_host_wire ip : ip_ok ip →
  talks (read_target_host (wire_ip ip).1) (wire_ip ip).2 [] (Ok (TIp ip)).
Proof.
  intros Hip. destruct ip as [b|b]; cbn [wire_ip fst snd ip_octets].
  - rewrite <- (v4_of_octets b) by done. apply (talks_then (read_exact 4) (λ b, TIp (v4_of b))). by apply talks_read.
  - rewrite <- (v6_of_octets b) by done. apply (talks_then (read_exact 16) (λ b, TIp (v6_of b))). by apply talks_read.
Qed.

Lemma read_target_host_name name : 0 < blen name → utf8 name →
  talks (read_target_host ATYP_NAME) ([blen name] ++ name) [] (Ok (TDomain name)).
Proof.
  intros Hl Hu. apply (talks_read_at [blen name] 1 0 (blen name)); [done|done|].
  rewrite <- (from_utf8_lossy_id name) at 3 by done.
  apply (talks_then (read_exact (blen name)) (λ n, TDomain (from_utf8_lossy n))). by apply talks_read.
Qed.

Lemma read_port_wire {A B} (m : conn A) (f : A → bytes → B) i a p : u16 p → talks m i [] (Ok a) →
  talks (x ← m; q ← read_exact 2; mret (f x q)) (i ++ be_bytes 2 p) [] (Ok (f a (be_bytes 2 p))).
Proof.
  intros Hp Hm. eapply (talks_bind _ _ i _ [] []); [done|]. cbn beta.
  apply (talks_then (read_exact 2) (f a)). apply talks_read. by rewrite blen_be_bytes.
Qed.

Lemma be_val_port p : u16 p → be_val (be_bytes 2 p) = p.
Proof. intros Hp. apply be_val_small. exact Hp. Qed.

(** The server's side: after the greeting it reads the request it was sent. *)
Lemma read_request_wire cmd atyp host_bytes target p m :
  u16 p → talks (read_target_host atyp) host_bytes [] (Ok target) →
  talks read_request ([VER; 1; m] ++ [VER; cmd; 0; atyp] ++ host_bytes ++ be_bytes 2 p) [VER; 0]
    (Ok (cmd, target, p)).
Proof.
  intros Hp Ht. unfold read_request.
  apply (talks_bind _ _ [VER; 1; m] _ [VER; 0] [] ()).
  { unfold handshake. apply (talks_bind _ _ [VER; 1] [m] [] [VER; 0] [VER; 1]); [by apply talks_read|].
    apply (talks_bind _ _ [] [m] [] [VER; 0] VER); [by apply talks_at|].
    apply (talks_bind _ _ [] [m] [] [VER; 0] 1); [by apply talks_at|].
    apply (talks_bind _ _ [m] [] [] [VER; 0] [m]); [by apply talks_read|]. apply talks_write. }
  apply (talks_bind _ _ [VER; cmd; 0; atyp] _ [] [] [VER; cmd; 0; atyp]); [by apply talks_read|].
  apply (talks_bind _ _ [] _ [] [] VER); [by apply talks_at|].
  apply (talks_bind _ _ [] _ [] [] atyp); [by apply talks_at|].
  rewrite <- (app_nil_r (host_bytes ++ _)).
  apply (talks_bind _ _ (host_bytes ++ be_bytes 2 p) [] [] [] (target, p)).
  { rewrite <- (be_val_port p Hp) at 2. by apply (read_port_wire _ (λ t q, (t, be_val q))). }
  apply (talks_bind _ _ [] [] [] [] cmd); [by apply talks_at|]. apply talks_ret.
Qed.

(** The client's side: the greeting without credentials, then any request. *)
Lemma read_reply_wire bound : sa_ok bound → talks read_reply (reply_bound_bytes bound) [] (Ok bound).
Proof.
  destruct bound as [ip p]. intros [Hip Hp]. cbn [sa_ip sa_port] in *. rewrite wire_ip_reply.
  cbn [sa_ip sa_port]. set (atyp := (wire_ip ip).1). unfold read_reply.
  apply (talks_bind _ _ [VER; REP_OK; 0; atyp] _ [] [] [VER; REP_OK; 0; atyp]); [by apply talks_read|].
  apply (talks_bind _ _ [] _ [] [] VER); [by apply talks_at|].
  apply (talks_bind _ _ [] _ [] [] REP_OK); [by apply talks_at|].
  apply (talks_bind _ _ [] _ [] [] atyp); [by apply talks_at|].
  rewrite <- (be_val_port p Hp) at 2. apply (read_port_wire _ (λ i q, SockAddr i (be_val q))); [done|].
  by apply read_ip_wire.
Qed.

Lemma greet_wire u : user u = None → talks (socks_greet u) [VER; 0] [VER; 1; AUTH_NONE] (Ok tt).
Proof.
  intros Hu. unfold socks_greet. rewrite bool_decide_eq_false_2 by (rewrite Hu; by intros []).
  apply (talks_bind _ _ [] [VER; 0] [VER; 1; AUTH_NONE] [] tt); [apply talks_write|].
  apply (talks_bind _ _ [VER; 0] [] [] [] [VER; 0]); [by apply talks_read|].
  apply (talks_bind _ _ [] [] [] [] VER); [by apply talks_at|].
  apply (talks_bind _ _ [] [] [] [] 0); [by apply talks_at|]. apply talks_ret.
Qed.

Definition client_asks (u : Upstream) (request : bytes) : conn SocketAddr :=
  _ ← socks_greet u; _ ← write_all request; read_reply.

Definition server_grants (bound : SocketAddr) : conn (Z * Target * Z) :=
  r ← read_request; _ ← reply_bound bound; mret r.

Lemma client_asks_wire u request bound : user u = None → sa_ok bound →
  talks (client_asks u request) ([VER; 0] ++ reply_bound_bytes bound) ([VER; 1; AUTH_NONE] ++ request) (Ok bound).
Proof.
  intros Hu Hb. apply (talks_bind _ _ _ _ _ _ tt); [by apply greet_wire|].
  pose proof (talks_bind (write_all request) (λ _, read_reply) [] (reply_bound_bytes bound) request [] tt (Ok bound)) as Ht.
  rewrite app_nil_r in Ht. apply Ht; [apply talks_write|by apply read_reply_wire].
Qed.

Lemma server_grants_wire bound i r : talks read_request i [VER; 0] (Ok r) →
  talks (server_grants bound) i ([VER; 0] ++ reply_bound_bytes bound) (Ok r).
Proof.
  intros Hr. rewrite <- (app_nil_r i). eapply talks_bind; [done|].
  pose proof (talks_bind (reply_bound bound) (λ _, mret r) [] [] (reply_bound_bytes bound) [] tt (Ok r)) as Ht.
  rewrite (app_nil_r (reply_bound_bytes bound)) in Ht. apply Ht; [apply talks_write|apply talks_ret].
Qed.

(** ** The resolver finds the address *)

Section resolver_theory.
Context {w : arch}.

(** The address a record holds when it is of the asked type. *)
Definition record_address (qtype : Z) (r : record) : option IpAddr :=
  match r with
  | OtherRecord _ type _ data =>
      if negb (type =? qtype) then None
      else if (qtype =? QTYPE_A) && (blen data =? 4) then Some (v4_of data)
      else if (qtype =? QTYPE_AAAA) && (blen data =? 16) then Some (v6_of data)
      else None
  | HttpsRecord _ _ _ _ _ => None
  end.

(** The first one of a reply. *)
Definition first_address (qtype : Z) (rs : list record) : option IpAddr := head (omap (record_address qtype) rs).

Definition record_type (r : record) : Z := match r with OtherRecord _ t _ _ => t | HttpsRecord _ _ _ _ _ => RR_HTTPS end.

Lemma record_shape r : record_ok r → ∃ name fixed,
  record_enc r = (name_enc name ++ be_bytes 2 (record_type r) ++ fixed) ++ be_bytes 2 (blen (rdata r)) ++ rdata r
  ∧ name_ok name ∧ u16 (record_type r) ∧ blen fixed = 6 ∧ u16 (blen (rdata r)).
Proof.
  intros [Hl Hr]. destruct r as [name type fixed data|name fixed pr target params].
  - destruct Hr as (? & ? & _ & ?). by exists name, fixed.
  - destruct Hr as (? & ? & _). by exists name, fixed.
Qed.

Lemma address_answers_step resp pos r rest qtype an : qtype = QTYPE_A ∨ qtype = QTYPE_AAAA →
  bytes_ok resp → record_ok r → suffix_at resp pos (record_enc r ++ rest) →
  ∃ p, suffix_at resp p rest ∧
  address_answers resp qtype (S an) pos =
    match record_address qtype r with
    | Some ip => Ok (Some ip)
    | None => address_answers resp qtype an p
    end.
Proof.
  intros Hqt Hb Hr Hs. destruct (record_shape r Hr) as (name & fixed & E & Hn & Ht & Hf & Hd).
  rewrite E in Hs. clear E. rewrite <- !app_assoc in Hs.
  cbn [address_answers]. rewrite (skip_name_enc _ _ _ _ Hb Hn Hs).
  apply suffix_at_app in Hs. set (q := pos + blen (name_enc name)) in *.
  assert (suffix_at resp (q + 8) (be_bytes 2 (blen (rdata r)) ++ rdata r ++ rest)) as S8.
  { apply suffix_at_app, suffix_at_app in Hs. rewrite blen_be_bytes, Hf in Hs.
    by replace (q + 8) with (q + Z.of_nat 2 + 6) by lia. }
  assert (suffix_at resp (q + 10) (rdata r ++ rest)) as S10.
  { apply suffix_at_app in S8. rewrite blen_be_bytes in S8. by replace (q + 10) with (q + 8 + Z.of_nat 2) by lia. }
  exists (q + 10 + blen (rdata r)). split; [by apply suffix_at_app in S10|].
  pose proof (suffix_at_len _ _ _ S10) as Hl. rewrite blen_app in Hl. blen_pos.
  destruct (Z.gtb_spec (q + 10) (blen resp)); [lia|].
  rewrite (u16_at_suffix _ _ _ _ Ht Hs), (u16_at_suffix _ _ _ _ Hd S8). cbn [mbind comp_bind].
  destruct (Z.gtb_spec (q + 10 + blen (rdata r)) (blen resp)); [lia|].
  destruct r as [nm type fx data|nm fx pr tg params]; cbn [record_type rdata record_address] in *.
  - destruct (type =? qtype); cbn [negb andb]; [|done].
    destruct ((qtype =? QTYPE_A) && (blen data =? 4)) eqn:E4.
    { rewrite (index_range_suffix_at _ _ _ _ _ S10) by lia. done. }
    destruct ((qtype =? QTYPE_AAAA) && (blen data =? 16)) eqn:E16; [|done].
    rewrite (index_range_suffix_at _ _ _ _ _ S10) by lia. done.
  - assert ((RR_HTTPS =? qtype) = false) as -> by (destruct Hqt as [-> | ->]; done). done.
Qed.

Lemma address_answers_spec resp pos rs rest qtype : qtype = QTYPE_A ∨ qtype = QTYPE_AAAA →
  bytes_ok resp → Forall record_ok rs → suffix_at resp pos (concat (record_enc <$> rs) ++ rest) →
  address_answers resp qtype (length rs) pos = Ok (first_address qtype rs).
Proof.
  intros Hqt Hb Hrs. revert pos. induction Hrs as [|r rs Hr _ IH]; intros pos Hs; [done|].
  cbn [fmap list_fmap concat length] in *. rewrite <- app_assoc in Hs.
  destruct (address_answers_step resp pos r _ qtype (length rs) Hqt Hb Hr Hs) as (p & Sp & ->).
  unfold first_address. cbn [omap list_omap]. destruct (record_address qtype r); [done|]. by apply IH.
Qed.

(** What an answered question means. *)
Definition dns_verdict (qtype f2 : Z) (rs : list record) : DnsAnswer :=
  match first_address qtype rs with
  | Some ip => Found ip
  | None => if Z.land f2 0x0f =? RCODE_NXDOMAIN then NoSuchName else NoRecord
  end.

(** Datagrams that are not the answer waited for. *)
Definition dns_noise (id : Z) (name : bytes) (qtype : Z) (e : dns_event) : Prop :=
  match e with
  | DnsDatagram d => bytes_ok d ∧ ¬ answers_question d id name qtype
  | DnsClosed => False
  end.

Lemma dns_wait_noise id name qtype evs rest : Forall (dns_noise id name qtype) evs →
  dns_wait id name qtype (evs ++ rest) = dns_wait id name qtype rest.
Proof.
  induction 1 as [|e evs He _ IH]; [done|]. destruct e as [d|]; [|done]. destruct He as [Hd Hn].
  cbn [app dns_wait]. unfold dns_response_matches.
  pose proof (response_matches_no_panic d name id qtype) as Hp.
  destruct (response_matches d id name qtype) as [[]| |] eqn:E; [|done..].
  by apply response_matches_sound in E.
Qed.

Lemma dns_wait_reply id name qtype f1 f2 other rs rest after :
  let reply := honest_reply (build_query id name qtype) f1 f2 other rs rest in
  qtype = QTYPE_A ∨ qtype = QTYPE_AAAA → u16 id → Forall (λ l, 1 ≤ blen l ≤ 63) (labels name) →
  Z.land f1 0x80 ≠ 0 → blen other = 4 → Forall record_ok rs → bytes_ok reply → blen reply < 65536 →
  dns_wait id name qtype (DnsDatagram reply :: after) = Some (Ok (dns_verdict qtype f2 rs)).
Proof.
  intros msg Hqt Hid Hls Hf Ho Hrs Hok Hlen.
  assert (u16 qtype) as Hq by (destruct Hqt as [-> | ->]; by split).
  destruct (honest_reply_layout id name qtype f1 f2 other rs rest) as (Hm & Hl & H3 & Hqd & Han & pos & Hsk & Hs);
    [done..|]. fold msg in Hm, Hl, H3, Hqd, Han, Hsk, Hs.
  cbn [dns_wait]. unfold dns_response_matches. rewrite Hm.
  unfold parse_dns_answer. destruct (Z.ltb_spec (blen msg) 12); [lia|].
  rewrite Hqd, Han. cbn [mbind comp_bind]. change (Z.to_nat 1) with 1%nat. rewrite Hsk.
  replace (Z.to_nat (blen rs)) with (length rs) by (unfold blen; lia).
  rewrite (address_answers_spec msg pos rs rest) by done.
  unfold dns_verdict, dns_rcode. rewrite H3. cbn [fmap option_fmap option_map].
  destruct (first_address qtype rs); [done|].
  destruct (Z.eqb_spec (Z.land f2 15) RCODE_NXDOMAIN) as [->|Hne]; [by rewrite bool_decide_eq_true_2|].
  by rewrite bool_decide_eq_false_2 by congruence.
Qed.

(** A server that was of no use: the stack refused the query, or nothing that
    answers it came in time. *)
Definition useless (name : bytes) (qtype : Z) (a : attempt) : Prop :=
  (∃ e, handed_over a = Err e)
  ∨ handed_over a = Ok tt ∧ Forall (dns_noise (drawn a) name qtype) (arrivals a).

Lemma dns_exchange_useless net name qtype bad servers last_ :
  Forall (λ s, useless name qtype (net s)) bad →
  ∃ last', dns_exchange net name qtype (bad ++ servers) last_ = dns_exchange net name qtype servers last'.
Proof.
  intros Hbad. revert last_. induction Hbad as [|s bad Hs _ IH]; intros last_; [by exists last_|].
  cbn [app dns_exchange]. destruct Hs as [[e ->]|[-> Hn]]; [apply IH|].
  rewrite <- (app_nil_r (arrivals (net s))), dns_wait_noise by done. apply IH.
Qed.

End resolver_theory.

(** A name without empty labels: the query is the one dns.rs would build. *)
Lemma build_dns_query_plain id name qtype : labels name = split 46 name →
  build_dns_query id name qtype = build_query id name qtype.
Proof. intros E. unfold build_dns_query, build_query. by rewrite E. Qed.

Lemma labels_plain name : Forall (λ l, 1 ≤ blen l ≤ 63) (split 46 name) → labels name = split 46 name.
Proof.
  unfold labels. generalize (split 46 name) as ls. induction 1 as [|l ls Hl _ IH]; [done|].
  cbn [List.filter]. destruct l; [rewrite blen_nil in Hl; lia|]. cbn [is_empty negb]. by f_equal.
Qed.

(** A name is looked up inside the tunnel: whatever resolvers come first
    and fail, refuse or answer something else, the first resolver whose reply
    answers the query settles it, past any datagrams that do not: the first
    record of the asked type with a proper length gives the address, and a
    reply without one says whether the name exists. *)
Theorem tunnel_dns_finds_address {w : arch} net name qtype bad server later last_ id f1 f2 other rs rest before after
  (Hqt : qtype = QTYPE_A ∨ qtype = QTYPE_AAAA) (Hname : Forall (λ l, 1 ≤ blen l ≤ 63) (split 46 name))
  (Hbad : Forall (λ s, useless name qtype (net s)) bad)
  (Hid : u16 id) (Hf : Z.land f1 0x80 ≠ 0) (Ho : blen other = 4) (Hrs : Forall record_ok rs)
  (Hok : bytes_ok (honest_reply (build_dns_query id name qtype) f1 f2 other rs rest))
  (Hlen : blen (honest_reply (build_dns_query id name qtype) f1 f2 other rs rest) < 65536)
  (Hbefore : Forall (dns_noise id name qtype) before)
  (Hnet : net server = mk_attempt id (Ok tt)
    (before ++ DnsDatagram (honest_reply (build_dns_query id name qtype) f1 f2 other rs rest) :: after)) :
  dns_exchange net name qtype (bad ++ server :: later) last_ = Ok (dns_verdict qtype f2 rs).
Proof.
  pose proof (labels_plain name Hname) as Hls. rewrite build_dns_query_plain in * by done.
  destruct (dns_exchange_useless net name qtype bad (server :: later) last_ Hbad) as [last' ->].
  cbn [dns_exchange]. rewrite Hnet. cbn [handed_over drawn arrivals].
  rewrite dns_wait_noise by done. rewrite dns_wait_reply; [done|done|done|by rewrite Hls|done..].
Qed.

Definition sample_resolvers (s : SocketAddr) : attempt :=
  if bool_decide (s = SockAddr (V4 0x01010101) 53) then mk_attempt 5 (Err (EOther (lit "full"))) []
  else mk_attempt 7 (Ok tt)
    ([DnsDatagram [1]] ++ DnsDatagram (honest_reply (build_dns_query 7 (lit "example.com") QTYPE_A) 0x81 0x80
        [0; 0; 0; 0] [OtherRecord sample_name 5 [0; 1; 0; 0; 0; 60] [1; 97; 0];
                      OtherRecord sample_name 1 [0; 1; 0; 0; 0; 60] [93; 184; 215; 14]] []) :: []).

Lemma tunnel_dns_finds_address_witness :
  @dns_exchange W32 sample_resolvers (lit "example.com") QTYPE_A
    ([SockAddr (V4 0x01010101) 53] ++ SockAddr (V4 0x01000001) 53 :: []) (EOther (lit "dns timeout"))
  = Ok (Found (V4 0x5db8d70e)).
Proof.
  apply (@tunnel_dns_finds_address W32 sample_resolvers (lit "example.com") QTYPE_A [SockAddr (V4 0x01010101) 53]
    (SockAddr (V4 0x01000001) 53) [] (EOther (lit "dns timeout")) 7 0x81 0x80 [0; 0; 0; 0]
    [OtherRecord sample_name 5 [0; 1; 0; 0; 0; 60] [1; 97; 0];
     OtherRecord sample_name 1 [0; 1; 0; 0; 0; 60] [93; 184; 215; 14]] [] [DnsDatagram [1]] []).
  - by left.
  - by_decision.
  - constructor; [|done]. left. by eexists.
  - by_decision.
  - done.
  - done.
  - repeat constructor; by vm_compute.
  - by_decision.
  - by_decision.
  - constructor; [|done]. split; [by_decision|].
    intros (f1 & f2 & counts & ls & tail_ & E & _ & _ & _ & Ht). apply (f_equal blen) in E.
    rewrite !blen_app, !blen_be_bytes in E. change (blen [1]) with 1 in E. blen_pos. lia.
  - done.
Defined.

(** ** A name with a trailing dot *)

Lemma same_labels_len ls ls' : Forall2 same_label ls ls' → blen (labels_enc ls) = blen (labels_enc ls').
Proof.
  induction 1 as [|l l' ls ls' Hl _ IH]; [done|].
  change (labels_enc (?l :: ?ls)) with (label_enc l ++ labels_enc ls). unfold label_enc.
  rewrite !blen_app, !blen_cons, IH. by rewrite (eq_ignore_ascii_case_length _ _ Hl).
Qed.

Lemma query_labels ls : Forall (λ l, 1 ≤ blen l ≤ 63) ls →
  concat ((λ label, as_u8 (blen label) :: label) <$> ls) = labels_enc ls.
Proof.
  induction 1 as [|l ls Hl _ IH]; [done|].
  change (labels_enc (l :: ls)) with (label_enc l ++ labels_enc ls).
  change (concat (?f <$> l :: ls)) with (f l ++ concat (f <$> ls)). rewrite IH. unfold label_enc, as_u8. by rewrite Z.mod_small by lia.
Qed.

Lemma app_align {A} (a a' b b' : list A) : blen a = blen a' → a ++ b = a' ++ b' → a = a' ∧ b = b'.
Proof. intros Hl. apply app_inj_1. unfold blen in Hl. lia. Qed.

(** A fully qualified name, written with its trailing dot, cannot be
    looked up: the query ends its name twice, so the type it asks for is not
    the one meant, and a reply with the copy of its question is passed over as
    if it had never come. *)
Theorem trailing_dot_never_answered {w : arch} id base qtype f1 f2 other rs rest evs
  (Hbase : Forall (λ l, 1 ≤ blen l ≤ 63) (split 46 base)) (Hqt : qtype = QTYPE_A ∨ qtype = QTYPE_AAAA)
  (Ho : blen other = 4)
  (Hok : bytes_ok (honest_reply (build_dns_query id (base ++ [46]) qtype) f1 f2 other rs rest)) :
  dns_wait id (base ++ [46]) qtype
    (DnsDatagram (honest_reply (build_dns_query id (base ++ [46]) qtype) f1 f2 other rs rest) :: evs)
  = dns_wait id (base ++ [46]) qtype evs.
Proof.
  assert (split 46 (base ++ [46]) = split 46 base ++ [[]]) as Es
    by (unfold split; rewrite split_by_app_sep by done; done).
  assert (labels (base ++ [46]) = split 46 base) as El
    by (unfold labels; rewrite Es, List.filter_app; cbn; rewrite app_nil_r; by apply labels_plain).
  set (msg := honest_reply _ _ _ _ _ _) in *. cbn [dns_wait]. unfold dns_response_matches.
  pose proof (response_matches_no_panic msg (base ++ [46]) id qtype) as Hp.
  destruct (response_matches msg id (base ++ [46]) qtype) as [[]| |] eqn:E; [|done..].
  exfalso. apply response_matches_sound in E as (g1 & g2 & counts & ls & tail_ & E & _ & Hc & Hls & _); [|done].
  rewrite El in Hls. apply same_labels_len in Hls.
  unfold msg, honest_reply, build_dns_query in E. rewrite Es, fmap_app, concat_app, query_labels in E by done.
  change (takez 2 (be_bytes 2 id ++ ?r)) with (be_bytes 2 id) in E.
  change (dropz 12 (be_bytes 2 id ++ [1; 0] ++ [0; 1] ++ [0; 0; 0; 0; 0; 0] ++ ?q)) with q in E.
  apply app_align in E as [_ E]; [|done]. apply app_align in E as [_ E]; [|done].
  apply app_align in E as [_ E]; [|done]. rewrite (app_assoc (be_bytes 2 (blen rs))) in E.
  apply app_align in E as [_ E]; [|rewrite blen_app, blen_be_bytes; lia].
  rewrite <- !app_assoc in E. apply app_align in E as [_ E]; [|done].
  apply (app_align [0] [0]) in E as [_ E]; [|done].
  destruct Hqt as [-> | ->]; apply (f_equal (λ l, get l 1)) in E; by vm_compute in E.
Qed.

Lemma trailing_dot_never_answered_witness :
  let reply := honest_reply (build_dns_query 7 (lit "example.com" ++ [46]) QTYPE_A) 0x81 0x80 [0; 0; 0; 0]
    [OtherRecord sample_name 1 [0; 1; 0; 0; 0; 60] [93; 184; 215; 14]] [] in
  @dns_wait W64 7 (lit "example.com" ++ [46]) QTYPE_A (DnsDatagram reply :: []) = None.
Proof.
  cbn zeta. rewrite (@trailing_dot_never_answered W64); [done|by_decision|by left|done|by_decision].
Defined.

(** ** UDP datagrams, both ways *)

Lemma build_udp_reply_frame src data : build_udp_reply src data = encode_udp_header src ++ data.
Proof. destruct src as [[] ?]; unfold build_udp_reply, encode_udp_header, encode_address; by rewrite <- !app_assoc. Qed.

(** What a client frames for an address the server reads. *)
Lemma parse_udp_request_frame target payload : sa_ok target →
  parse_udp_request (encode_udp_header target ++ payload) = Ok (TIp (sa_ip target), (sa_port target, payload)).
Proof.
  destruct target as [ip p]. intros [Hip Hp]. cbn [sa_ip sa_port] in *.
  set (buf := encode_udp_header (SockAddr ip p) ++ payload).
  assert (buf = [0; 0; 0; (wire_ip ip).1] ++ ip_octets ip ++ be_bytes 2 p ++ payload) as Hbuf
    by (unfold buf, encode_udp_header, encode_address; destruct ip; by rewrite <- !app_assoc).
  assert (suffix_at buf 0 ([0; 0; 0; (wire_ip ip).1] ++ ip_octets ip ++ be_bytes 2 p ++ payload)) as S0
    by (rewrite Hbuf; apply suffix_at_0).
  pose proof (suffix_at_cons _ _ _ _ (suffix_at_cons _ _ _ _ S0)) as S2.
  pose proof (suffix_at_cons _ _ _ _ S2) as S3. pose proof (suffix_at_cons _ _ _ _ S3) as S4.
  pose proof (suffix_at_app _ _ _ _ S4) as Sp. rewrite blen_ip_octets in Sp.
  pose proof (suffix_at_app _ _ _ _ Sp) as Se. rewrite blen_be_bytes in Se.
  assert (blen buf = 6 + blen (ip_octets ip) + blen payload) as Hlen
    by (rewrite Hbuf; blen_norm; rewrite blen_be_bytes; lia).
  rewrite blen_ip_octets in *. blen_pos. clear Hbuf. clearbody buf.
  unfold parse_udp_request. rewrite (index_suffix _ _ _ _ S2), (index_suffix _ _ _ _ S3).
  cbn [mbind comp_bind negb Z.eqb].
  destruct (Z.ltb_spec (blen buf) 4); [destruct ip; lia|].
  destruct ip as [b|b]; cbn [wire_ip fst ATYP_V4 ATYP_V6 Z.eqb Pos.eqb] in *.
  - destruct (Z.ltb_spec (blen buf) (4 + 4)); [lia|].
    rewrite (index_range_suffix_at _ _ _ _ (4 + 4) S4) by (rewrite blen_ip_octets; done).
    cbn [mbind comp_bind]. destruct (Z.ltb_spec (blen buf) (4 + 4 + 2)); [lia|].
    rewrite (port_at_suffix _ _ _ _ Hp Sp). cbn [mbind comp_bind].
    rewrite <- (app_nil_r payload) in Se. rewrite (index_range_suffix_at _ _ _ _ (blen buf) Se) by lia.
    cbn [mbind comp_bind ip_octets]. by rewrite v4_of_octets.
  - destruct (Z.ltb_spec (blen buf) (4 + 16)); [lia|].
    rewrite (index_range_suffix_at _ _ _ _ (4 + 16) S4) by (rewrite blen_ip_octets; done).
    cbn [mbind comp_bind]. destruct (Z.ltb_spec (blen buf) (4 + 16 + 2)); [lia|].
    rewrite (port_at_suffix _ _ _ _ Hp Sp). cbn [mbind comp_bind].
    rewrite <- (app_nil_r payload) in Se. rewrite (index_range_suffix_at _ _ _ _ (blen buf) Se) by lia.
    cbn [mbind comp_bind ip_octets]. by rewrite v6_of_octets.
Qed.

Lemma parse_udp_tail_safe buf pos (t : Target) : 0 ≤ pos →
  no_panic (if blen buf <? pos + 2 then Err tt else
    port ← port_at buf pos; payload ← index_range buf (pos + 2) (blen buf); Ok (t, (port, payload))).
Proof.
  intros H0. destruct (Z.ltb_spec (blen buf) (pos + 2)); [done|].
  destruct (port_at_in (E := ()) buf pos) as [p ->]; [lia..|]. cbn [mbind comp_bind].
  by rewrite index_range_suffix by lia.
Qed.

(** No datagram makes the server read out of range. *)
Lemma parse_udp_request_safe buf : bytes_ok buf → no_panic (parse_udp_request buf).
Proof.
  intros Hok. unfold parse_udp_request. destruct (Z.ltb_spec (blen buf) 4); [done|].
  destruct (index_in (E := ()) buf 2) as (rsv & -> & _); [lia|]. cbn [mbind comp_bind].
  destruct (negb (rsv =? 0)); [done|].
  destruct (index_in (E := ()) buf 3) as (atyp & -> & _); [lia|]. cbn [mbind comp_bind].
  destruct (atyp =? ATYP_V4).
  { destruct (Z.ltb_spec (blen buf) (4 + 4)); [done|].
    destruct (index_range_ok (E := ()) buf 4 (4 + 4)) as (o & -> & _); [lia..|]. by apply parse_udp_tail_safe. }
  destruct (atyp =? ATYP_V6).
  { destruct (Z.ltb_spec (blen buf) (4 + 16)); [done|].
    destruct (index_range_ok (E := ()) buf 4 (4 + 16)) as (o & -> & _); [lia..|]. by apply parse_udp_tail_safe. }
  destruct (atyp =? ATYP_DOMAIN); [|done].
  destruct (get buf 4) as [len|] eqn:El; [|done]. apply get_ok in El; [|done]. unfold u8 in El.
  cbn [ok_or mbind comp_bind]. destruct (Z.ltb_spec (blen buf) (5 + len)); [done|].
  destruct (index_range_ok (E := ()) buf 5 (5 + len)) as (raw & -> & _); [lia..|]. cbn [mbind comp_bind].
  apply parse_udp_tail_safe. lia.
Qed.

(** ** The two ends agree *)

(** C35. The two ends of SOCKS5 in the core understand each other: what the
    client sends for an address or for a name, connect and associate alike,
    the server reads as that command for that destination, and the address
    the server says it bound is the one the client gets, with not a byte left
    over on either side.  A client that has credentials ends the conversation
    after the greeting, before it names its destination, since the server
    asks for none.  Their UDP datagrams agree too, both ways. *)
Theorem socks_ends_agree u cmd bound target name p
  (Hbound : sa_ok bound) (Htarget : sa_ok target) (Hname : utf8 name) (Hlen : 0 < blen name ≤ 255) (Hp : u16 p) :
  let name_request := [VER; cmd; 0; ATYP_NAME; blen name] ++ name ++ be_bytes 2 p in
  let agree request asked := ∃ up down,
    talks (client_asks u request) down up (Ok bound) ∧ talks (server_grants bound) up down (Ok asked) in
  (∀ D, encode_name_request (H := D) cmd name p = Ok name_request)
  ∧ (user u = None → agree (encode_request cmd target) (cmd, TIp (sa_ip target), sa_port target)
                    ∧ agree name_request (cmd, TDomain name, p))
  ∧ (user u ≠ None → ∀ request, ∃ e,
       talks (client_asks u request) [VER; 0] [VER; 1; AUTH_USERPASS] (Err e))
  ∧ (∀ payload, parse_udp_request (send_to payload target) = Ok (TIp (sa_ip target), (sa_port target, payload)))
  ∧ (∀ data n, blen data ≤ n → 2048 ≤ n → recv_from n (build_udp_reply target data) = Ok (data, target)).
Proof.
  intros nr agree. split_and!.
  - intros D. unfold encode_name_request. rewrite (proj2 (Z.leb_le _ _)), (proj2 (Z.ltb_lt _ _)) by lia. done.
  - intros Hu. split; eexists _, _; (split; [by apply client_asks_wire|]); apply server_grants_wire.
    + destruct target as [ip q], Htarget as [Hip Hq]. rewrite wire_ip_request. cbn [sa_ip sa_port] in *.
      apply read_request_wire; [done|]. by apply read_target_host_wire.
    + unfold nr. change ([VER; cmd; 0; ATYP_NAME; blen name] ++ name ++ be_bytes 2 p)
        with ([VER; cmd; 0; ATYP_NAME] ++ ([blen name] ++ name) ++ be_bytes 2 p).
      apply read_request_wire; [done|]. apply read_target_host_name; [lia|done].
  - intros Hu request. eexists. apply talks_err_bind. unfold socks_greet.
    rewrite bool_decide_eq_true_2 by (destruct (user u); [by eexists|done]).
    apply (talks_bind _ _ [] [VER; 0] [VER; 1; AUTH_USERPASS] [] tt); [apply talks_write|].
    apply (talks_bind _ _ [VER; 0] [] [] [] [VER; 0]); [by apply talks_read|].
    apply (talks_bind _ _ [] [] [] [] VER); [by apply talks_at|].
    apply (talks_bind _ _ [] [] [] [] 0); [by apply talks_at|]. apply talks_fail.
  - intros payload. by apply parse_udp_request_frame.
  - intros data n Hd Hn. rewrite build_udp_reply_frame. by apply recv_send.
Qed.

Definition plain_proxy : Upstream := mk_upstream Socks5 (lit "127.0.0.1") 1080 None None.

Lemma socks_ends_agree_witness :
  ∃ up down,
    talks (client_asks plain_proxy (encode_request CMD_CONNECT sample_peer)) down up (Ok WILDCARD_V4)
    ∧ talks (server_grants WILDCARD_V4) up down (Ok (CMD_CONNECT, TIp (V4 0x08080808), 443)).
Proof.
  apply (socks_ends_agree plain_proxy CMD_CONNECT WILDCARD_V4 sample_peer (lit "example.com") 80).
  - by_decision.
  - by_decision.
  - by apply utf8_ascii.
  - by vm_compute.
  - by_decision.
  - done.
Defined.
