(* ===== verification/SocksServer.v ===== *)
(** * The local SOCKS5 server: its handlers

    src/aether/src/socks.rs: what the server does with a request it has read.
    [handle_connect] sniffs the destination's name, asks the routing rules and
    blocks, dials directly or goes through the tunnel or the gateway proxy;
    [handle_udp_associate] relays datagrams for one client, and
    [handle_udp_over_connector] answers DNS alone where only TCP is carried.

    The network is a record of outcomes ([world]); what a handler does to it,
    in order, is the list of effects it leaves.  The relaying of bytes once a
    connection stands is one effect. *)

From stdpp Require Import strings.
From S2P Require Import Prelude Text Net NetText Sniff Fragment Routing Error Stream Upstream Socks.

(** What others can see of a handler. *)
Inductive effect :=
| Replied (message : bytes)
| Resolved (name : bytes)
| OpenedTunnel (dst : SocketAddr)
| AskedGateway (proxy : SocketAddr) (authority : bytes) (port : Z)
| RetiredGateway
| LookedUp (host : bytes) (port : Z)
| Dialled (addr : SocketAddr)
| ToRemote (data : bytes)
| ToClient (data : bytes)
| Relayed.

(** The kinds of [std::io::Error] the handlers tell apart. *)
Inductive io_kind := PermissionDenied | NotFound | OtherKind.

#[export] Instance io_kind_eq_dec : EqDecision io_kind.
Proof. solve_decision. Defined.

Definition act (A : Type) : Type := list effect * comp AetherError A.

#[export] Instance act_ret : MRet act := λ A a, ([], Ok a).
#[export] Instance act_bind : MBind act := λ A B f m,
  match m with
  | (es, Ok a) => let '(more, r) := f a in (es ++ more, r)
  | (es, Err e) => (es, Err e)
  | (es, Panic) => (es, Panic)
  end.
Definition emit (e : effect) : act () := ([e], Ok tt).
Definition give {A} (r : comp AetherError A) : act A := ([], r).

Section handlers.
Context {ar : arch} {U : UnicodeCase} {N : IpNets} {R : Regexes}.

Record world := mk_world {
  rules : RuleSet;
  (** AETHER_ROUTE_SNIFF, and what the client sends first: [None] when it
      closed, nothing when it kept silent. *)
  sniffing : bool;
  first_read : option bytes;
  client_ip : IpAddr;
  (** The gateway proxy while it is healthy, and what it answers. *)
  gateway : option SocketAddr;
  gateway_opens : SocketAddr → bytes → Z → comp AetherError bytes;
  (** The tunnel: its resolver and its connections. *)
  tunnel_dns : bytes → comp AetherError IpAddr;
  open_tcp : SocketAddr → comp AetherError ();
  (** The system: its resolver, its connections, and after how many of them
      the time for a direct connection runs out. *)
  lookup_host : bytes → Z → comp io_kind (list SocketAddr);
  tcp_connect : SocketAddr → comp io_kind ();
  direct_cut : option nat;
  (** Whether the far end, and the client, take what is written to them. *)
  remote_takes : bool;
  client_takes : bool }.

Definition decide_route (set : RuleSet) (target : Target) (sniffed : option bytes) (port : Z) : Action :=
  match sniffed with
  | Some name =>
      match decide set (Domain name) port with
      | Proxy => decide set (host_of target) port
      | decided => decided
      end
  | None => decide set (host_of target) port
  end.

(** AETHER_ROUTE_SNIFF and AETHER_ROUTE_SNIFF_MS. *)
Definition sniff_enabled (env : environment) : bool :=
  match env (lit "AETHER_ROUTE_SNIFF") with
  | Some v => negb (one_of [lit "0"; lit "off"; lit "false"] v)
  | None => true
  end.

Definition sniff_window (env : environment) : Z :=
  match env (lit "AETHER_ROUTE_SNIFF_MS") ≫= λ v, parse_u64 (trim v) with
  | Some ms => if 0 <? ms then ms else 400
  | None => 400
  end.

(** What a read of at most [PEEK_BUDGET] bytes within the window gave:
    nothing in time, the bytes read, or an error. *)
Definition read_sniff_head (r : option (comp () bytes)) : option bytes :=
  match r with
  | None => Some []
  | Some (Ok bs) => if is_empty bs then None else Some (takez PEEK_BUDGET bs)
  | Some _ => None
  end.

(** ** Direct connections *)

Fixpoint dial_all (w : world) (addresses : list SocketAddr) (last_error : option io_kind)
    : list effect * comp io_kind () :=
  match addresses with
  | [] => ([], Err (default NotFound last_error))
  | address :: addresses =>
      if negb (direct_target_allowed (client_ip w) (sa_ip address)) then
        dial_all w addresses (Some PermissionDenied)
      else
        match tcp_connect w address with
        | Ok _ => ([Dialled address], Ok tt)
        | Err error => let '(es, r) := dial_all w addresses (Some error) in (Dialled address :: es, r)
        | Panic => ([Dialled address], Panic)
        end
  end.

Definition connect_direct (w : world) (host : bytes) (port : Z) : list effect * comp io_kind () :=
  match lookup_host w host port with
  | Ok addresses =>
      let '(es, r) := dial_all w addresses None in (LookedUp host port :: es, r)
  | Err e => ([LookedUp host port], Err e)
  | Panic => ([LookedUp host port], Panic)
  end.

(** The bytes the server answers with. *)
Definition BOUND_ANY : bytes := reply_bound_bytes WILDCARD_V4.

Definition handle_direct (w : world) (target : Target) (port : Z) (head : bytes) (replied : bool) : act () :=
  let host := show_target target in
  let answer code : act () := if replied then mret tt else emit (Replied (reply_bytes code)) in
  let '(tried, outcome) := connect_direct w host port in
  match direct_cut w with
  | Some n => _ ← (take n tried, Ok tt) : act (); answer REP_GENERAL
  | None =>
      _ ← (tried, Ok tt) : act ();
      match outcome with
      | Panic => give Panic
      | Err error =>
          answer (if bool_decide (error = PermissionDenied) then REP_NOT_ALLOWED else REP_GENERAL)
      | Ok _ =>
          _ ← (if is_empty head then mret tt else emit (ToRemote head));
          if negb (is_empty head) && negb (remote_takes w) then mret tt else
          _ ← (if replied then mret tt else emit (Replied BOUND_ANY));
          emit Relayed
      end
  end.

(** ** Through the tunnel *)

(** [resolve], with the lookup it may do. *)
Definition resolve_act (w : world) (target : Target) : act IpAddr :=
  match target with
  | TIp ip => mret ip
  | TDomain name =>
      match parse_ip name with
      | Some ip => mret ip
      | None => _ ← emit (Resolved name); give (tunnel_dns w name)
      end
  end.

(** [let _ = reply(&mut sock, REP_GENERAL).await; return Err(e)] where [m] fails. *)
Definition or_general {A} (m : act A) : act A :=
  match m with
  | (es, Err e) => (es ++ [Replied (reply_bytes REP_GENERAL)], Err e)
  | other => other
  end.

Definition open_resolved (w : world) (target : Target) (port : Z) : act bytes :=
  ip ← or_general (resolve_act w target);
  let dst := SockAddr ip port in
  _ ← or_general (_ ← emit (OpenedTunnel dst); give (open_tcp w dst));
  mret [].

(** The connection the proxied request gets: what the far end sent already. *)
Definition open_proxied (w : world) (target : Target) (port : Z) : act bytes :=
  match (if should_use_gateway port then gateway w else None) with
  | Some proxy =>
      _ ← emit (AskedGateway proxy (show_target target) port);
      match gateway_opens w proxy (show_target target) port with
      | Ok leftover => mret leftover
      | Err _ => _ ← emit RetiredGateway; open_resolved w target port
      | Panic => give Panic
      end
  | None => open_resolved w target port
  end.

(** [handle_connect] once the name was read off the client's first bytes. *)
Definition connect_routed (w : world) (target : Target) (port : Z) (head : bytes) (named : option bytes)
    (replied : bool) : act () :=
  match decide_route (rules w) target named port with
  | Block => if replied then mret tt else emit (Replied (reply_bytes REP_NOT_ALLOWED))
  | Direct => handle_direct w target port head replied
  | Proxy =>
      leftover ← open_proxied w target port;
      _ ← (if replied then mret tt else emit (Replied BOUND_ANY));
      _ ← (if is_empty head then mret tt else emit (ToRemote head));
      if negb (is_empty head) && negb (remote_takes w) then mret tt else
      _ ← (if is_empty leftover then mret tt else emit (ToClient leftover));
      if negb (is_empty leftover) && negb (client_takes w) then mret tt else
      emit Relayed
  end.

Definition sniffs (w : world) (target : Target) : bool :=
  match target with TIp _ => true | TDomain _ => false end && sniffing w && has_domain_rules (rules w).

Definition handle_connect (w : world) (target : Target) (port : Z) : act () :=
  if sniffs w target then
    _ ← emit (Replied BOUND_ANY);
    match first_read w with
    | None => mret tt
    | Some head =>
        let named := if is_empty head then None else hostname head in
        connect_routed w target port head named true
    end
  else connect_routed w target port [] None false.

(** [handle_client]: [None] of the command when it is served elsewhere. *)
Definition unsupported : AetherError := EOther (lit "unsupported socks command").

Definition handle_client (w : world) (udp : Target → Z → act ()) (request : comp AetherError (Z * Target * Z))
    (in_time : bool) : act () :=
  if negb in_time then
    give (Err (EOther (lit "the client did not finish the socks5 handshake in time")))
  else
    '(cmd, target, port) ← give request;
    if cmd =? CMD_CONNECT then handle_connect w target port
    else if cmd =? CMD_UDP_ASSOCIATE then udp target port
    else _ ← emit (Replied (reply_bytes REP_NOT_SUPPORTED)); give (Err unsupported).

(** ** The UDP association *)

Record association := mk_association {
  as_rules : RuleSet;
  control_peer : SocketAddr;
  requested : Target;
  (** The system's resolver gives its first answer; the tunnel's its own. *)
  as_lookup : bytes → Z → option SocketAddr;
  as_dns : bytes → comp AetherError IpAddr }.

Definition expected_ip (a : association) : IpAddr := expected_udp_source (control_peer a) (requested a).

(** The state of the loop: the client it is latched to and how many datagrams
    it refused. *)
Record udp_state := mk_udp { latched : option SocketAddr; refused : Z }.

Definition udp_start : udp_state := mk_udp None 0.

Inductive udp_event :=
| FromClient (data : bytes) (from : SocketAddr)
| FromStack (src : SocketAddr) (data : bytes)
| FromDirect (src : SocketAddr) (data : bytes)
| DirectFailed
| ControlData
| RelayFailed
| StackGone
| ControlClosed.

Inductive udp_action :=
| ToTunnel (dst : SocketAddr) (payload : bytes)
| ToOutside (dst : SocketAddr) (payload : bytes)
| ToSocksClient (datagram : bytes) (to : SocketAddr).

Inductive udp_next :=
| Continue (st : udp_state) (acts : list udp_action)
| Stop
| Crash.

Definition to_client (st : udp_state) (src : SocketAddr) (data : bytes) : list udp_action :=
  match latched st with Some c => [ToSocksClient (build_udp_reply src data) c] | None => [] end.

(** Where a datagram of the client goes. *)
Definition forward_udp (a : association) (dst : Target) (dst_port : Z) (payload : bytes) : list udp_action :=
  match decide (as_rules a) (host_of dst) dst_port with
  | Block => []
  | Direct =>
      let outside :=
        match dst with
        | TIp ip => Some (SockAddr ip dst_port)
        | TDomain name => as_lookup a name dst_port
        end in
      match outside with
      | Some addr =>
          if negb (direct_target_allowed (sa_ip (control_peer a)) (sa_ip addr)) then []
          else [ToOutside addr payload]
      | None => []
      end
  | Proxy =>
      match dst with
      | TIp ip => [ToTunnel (SockAddr ip dst_port) payload]
      | TDomain name =>
          match as_dns a name with
          | Ok ip => [ToTunnel (SockAddr ip dst_port) payload]
          | _ => []
          end
      end
  end.

Definition UDP_RELAY_BUF : Z := 65535.

Definition udp_step (a : association) (st : udp_state) (ev : udp_event) : udp_next :=
  match ev with
  | FromClient data from =>
      if negb (udp_source_allowed (expected_ip a) (latched st) from) then
        Continue (mk_udp (latched st) (refused st + 1)) []
      else
        let st := match latched st with None => mk_udp (Some from) (refused st) | Some _ => st end in
        match parse_udp_request (takez UDP_RELAY_BUF data) with
        | Ok (dst, (dst_port, payload)) => Continue st (forward_udp a dst dst_port payload)
        | Err _ => Continue st []
        | Panic => Crash
        end
  | FromStack src data => Continue st (to_client st src data)
  | FromDirect src data => Continue st (to_client st src (takez UDP_RELAY_BUF data))
  | DirectFailed | ControlData => Continue st []
  | RelayFailed | StackGone | ControlClosed => Stop
  end.

(** The loop of [handle_udp_associate] over what happens to it: the events with what
    each made it send, up to the one that ended it. *)
Fixpoint udp_run (a : association) (st : udp_state) (evs : list udp_event)
    : list (udp_event * list udp_action) * udp_next :=
  match evs with
  | [] => ([], Continue st [])
  | ev :: evs =>
      match udp_step a st ev with
      | Continue st acts => let '(log, last_) := udp_run a st evs in ((ev, acts) :: log, last_)
      | other => ([], other)
      end
  end.

(** [handle_udp_associate]: the socket for the client is bound and announced,
    then one in the tunnel and one outside are opened, and the loop runs.  The
    outcomes of the three are given; [None]: the loop still runs. *)
Definition handle_udp_associate (a : association) (bound : comp AetherError SocketAddr)
    (stack_opens outside_opens : comp AetherError ()) (evs : list udp_event)
    : list effect * (list (udp_event * list udp_action) * option (comp AetherError ())) :=
  match bound with
  | Ok relay_addr =>
      ([Replied (reply_bound_bytes relay_addr)],
       match _ ← stack_opens; outside_opens with
       | Ok _ =>
           let '(log, last_) := udp_run a udp_start evs in
           (log, match last_ with Continue _ _ => None | Stop => Some (Ok tt) | Crash => Some Panic end)
       | Err e => ([], Some (Err e))
       | Panic => ([], Some Panic)
       end)
  | Err e => ([], ([], Some (Err e)))
  | Panic => ([], ([], Some Panic))
  end.

End handlers.

(** ** DNS over a listener that carries TCP alone *)

Definition DNS_PORT : Z := 53.
Definition DNS_MAX_IN_FLIGHT : Z := 32.

(** One query over a stream of its own. *)
Definition dns_over_stream (query : bytes) : conn bytes :=
  if 65535 <? blen query then fail (EIo (lit "dns query is too long to frame")) else
  _ ← write_all (be_bytes 2 (as_u16 (blen query)) ++ query);
  len ← read_exact 2;
  read_exact (be_val len).

Record dns_state := mk_dns { dns_client : option SocketAddr; dns_refused : Z; dropped_udp : Z; in_flight : Z }.

Definition dns_start : dns_state := mk_dns None 0 0 0.

(** What wakes the loop: a datagram, the end of a lookup with or without its
    answer, the control connection. *)
Inductive dns_wake :=
| Asked (data : bytes) (from : SocketAddr)
| LookupEnded (answer : option (SocketAddr * bytes))
| DnsControlData
| DnsStopped.

Inductive dns_action :=
| AskResolver (resolver : SocketAddr) (query : bytes)
| Answered (datagram : bytes) (to : SocketAddr).

Definition dns_step (expected : IpAddr) (st : dns_state) (ev : dns_wake) : comp () (option dns_state * list dns_action) :=
  match ev with
  | Asked data from =>
      if negb (udp_source_allowed expected (dns_client st) from) then
        Ok (Some (mk_dns (dns_client st) (dns_refused st + 1) (dropped_udp st) (in_flight st)), [])
      else
        let client := match dns_client st with None => Some from | known => known end in
        let st := mk_dns client (dns_refused st) (dropped_udp st) (in_flight st) in
        match parse_udp_request (takez UDP_RELAY_BUF data) with
        | Panic => Panic
        | Err _ => Ok (Some st, [])
        | Ok (dst, (dst_port, payload)) =>
            if negb (dst_port =? DNS_PORT) then
              Ok (Some (mk_dns client (dns_refused st) (dropped_udp st + 1) (in_flight st)), [])
            else
              match dst with
              | TDomain _ => Ok (Some st, [])
              | TIp ip =>
                  if DNS_MAX_IN_FLIGHT <=? in_flight st then Ok (Some st, [])
                  else Ok (Some (mk_dns client (dns_refused st) (dropped_udp st) (in_flight st + 1)),
                           [AskResolver (SockAddr ip dst_port) payload])
              end
        end
  | LookupEnded answer =>
      let st := mk_dns (dns_client st) (dns_refused st) (dropped_udp st) (in_flight st - 1) in
      Ok (Some st,
          match answer, dns_client st with
          | Some (src, data), Some c => [Answered (build_udp_reply src data) c]
          | _, _ => []
          end)
  | DnsControlData => Ok (Some st, [])
  | DnsStopped => Ok (None, [])
  end.

(** [handle_udp_over_connector], as [handle_udp_associate] above. *)
Fixpoint dns_run (expected : IpAddr) (st : dns_state) (evs : list dns_wake)
    : list (dns_wake * list dns_action) * option (comp AetherError ()) :=
  match evs with
  | [] => ([], None)
  | ev :: evs =>
      match dns_step expected st ev with
      | Ok (Some st, acts) => let '(log, last_) := dns_run expected st evs in ((ev, acts) :: log, last_)
      | Ok (None, _) => ([], Some (Ok tt))
      | Err _ | Panic => ([], Some Panic)
      end
  end.

Definition handle_udp_over_connector (peer_ : SocketAddr) (asked : Target) (bound : comp AetherError SocketAddr)
    (evs : list dns_wake)
    : list effect * (list (dns_wake * list dns_action) * option (comp AetherError ())) :=
  match bound with
  | Ok relay_addr =>
      ([Replied (reply_bound_bytes relay_addr)], dns_run (expected_udp_source peer_ asked) dns_start evs)
  | Err e => ([], ([], Some (Err e)))
  | Panic => ([], ([], Some Panic))
  end.

(** [serve_one_through]: [udp] serves an association, [connect] opens a
    connection. *)
Definition serve_one_through (udp : Target → act ()) (connect : bytes → Z → comp bytes ())
    (request : comp AetherError (Z * Target * Z)) (in_time : bool) : act () :=
  if negb in_time then
    give (Err (EOther (lit "the client did not finish the socks5 handshake in time")))
  else
    '(cmd, target, port) ← give request;
    if cmd =? CMD_UDP_ASSOCIATE then udp target
    else if negb (cmd =? CMD_CONNECT) then
      _ ← emit (Replied (reply_bytes REP_NOT_SUPPORTED));
      give (Err (EOther (lit "only connect and udp associate are carried on this listener")))
    else
      let host := show_target target in
      match connect host port with
      | Ok _ => _ ← emit (Replied BOUND_ANY); emit Relayed
      | Err error =>
          _ ← emit (Replied (reply_bytes REP_GENERAL));
          give (Err (EOther (host ++ lit ":" ++ decimal port ++ lit ": " ++ error)))
      | Panic => give Panic
      end.

(** ** The effects of a handler *)

Lemma act_bind_forall {A B} (P : effect → Prop) (m : act A) (f : A → act B) :
  Forall P m.1 → (∀ a, m.2 = Ok a → Forall P (f a).1) → Forall P (m ≫= f).1.
Proof.
  destruct m as [es [a|e|]]; cbn; intros Hm Hf; [|done..].
  specialize (Hf a eq_refl). destruct (f a) as [more r]. cbn in *. by apply Forall_app.
Qed.

Lemma emit_forall (P : effect → Prop) e : P e → Forall P (emit e).1.
Proof. by intros; repeat constructor. Qed.

Lemma or_general_forall {A} (P : effect → Prop) (m : act A) :
  (∀ b, P (Replied b)) → Forall P m.1 → Forall P (or_general m).1.
Proof.
  intros Hr Hm. destruct m as [es [a|e|]]; cbn in *; [done| |done].
  apply Forall_app. by split; [|repeat constructor].
Qed.

Lemma or_general_ok {A} (m : act A) a : (or_general m).2 = Ok a → m.2 = Ok a.
Proof. by destruct m as [es [|e|]]. Qed.

(** Walks a handler: each effect it leaves becomes a goal. *)
Ltac each_effect :=
  repeat first
    [ progress (intros; cbn [give mret act_ret fst snd])
    | apply Forall_nil_2
    | apply act_bind_forall
    | apply or_general_forall
    | apply emit_forall ].

Section connect_theory.
Context {ar : arch} {U : UnicodeCase} {N : IpNets} {R : Regexes}.
Implicit Types w : world.

(** The name the client announced, when the server looks for one. *)
Definition sniffed_name (w : world) (target : Target) : option bytes :=
  if sniffs w target then head_ ← first_read w; if is_empty head_ then None else hostname head_ else None.

(** What the client sent before it was told of its connection. *)
Definition sniffed_head (w : world) (target : Target) : bytes :=
  if sniffs w target then default [] (first_read w) else [].

(** The verdict of the rules on a request. *)
Definition route (w : world) (target : Target) (port : Z) : Action :=
  decide_route (rules w) target (sniffed_name w target) port.

(** What a list of rules says of a host: whether one of them matches it. *)
Definition hits (rs : list Matcher) (host : Host) (port : Z) : Prop := Exists (λ rule, matches rule host port = true) rs.

(** What the rules say of one host: a block rule, else a direct rule, else
    neither. *)
Definition says (set : RuleSet) (host : Host) (port : Z) (a : Action) : Prop :=
  match a with
  | Block => hits (block set) host port
  | Direct => ¬ hits (block set) host port ∧ hits (direct set) host port
  | Proxy => ¬ hits (block set) host port ∧ ¬ hits (direct set) host port
  end.

(** What they say of a request: the name the client announced is judged first,
    and the destination when no rule matches the name. *)
Definition ruled (set : RuleSet) (named : option bytes) (destination : Host) (port : Z) (a : Action) : Prop :=
  match named with
  | Some name => a ≠ Proxy ∧ says set (Domain name) port a ∨ says set (Domain name) port Proxy ∧ says set destination port a
  | None => says set destination port a
  end.

(** The addresses of this machine: 127.0.0.0/8 and ::1, and the unspecified
    ones, which the system takes for it; IPv4 also as mapped into IPv6. *)
Definition loopback_address (ip : IpAddr) : Prop :=
  match ip with
  | V4 b => b / 2 ^ 24 mod 256 = 127
  | V6 b => b = 1 ∨ b / 2 ^ 32 = 0xffff ∧ b / 2 ^ 24 mod 256 = 127
  end.

Definition unspecified_address (ip : IpAddr) : Prop :=
  match ip with
  | V4 b => b = 0
  | V6 b => b = 0 ∨ b / 2 ^ 32 = 0xffff ∧ b mod 2 ^ 32 = 0
  end.

Lemma octet0_spec b : octet b 0 = b / 2 ^ 24 mod 256.
Proof. unfold octet. rewrite Z.shiftr_div_pow2 by lia. change 255 with (Z.ones 8). by rewrite Z.land_ones by lia. Qed.

Lemma mapped_spec b : to_ipv4_mapped b = if b / 2 ^ 32 =? 0xffff then Some (b mod 2 ^ 32) else None.
Proof.
  unfold to_ipv4_mapped. rewrite Z.shiftr_div_pow2 by lia. change 0xffffffff with (Z.ones 32). by rewrite Z.land_ones by lia.
Qed.

Lemma low_octet b : b mod 2 ^ 32 / 2 ^ 24 mod 256 = b / 2 ^ 24 mod 256.
Proof.
  change (2 ^ 32) with (2 ^ 24 * 2 ^ 8). rewrite Z.rem_mul_r by lia. rewrite (Z.mul_comm (2 ^ 24)), Z.div_add by lia.
  rewrite (Z.div_small (b mod 2 ^ 24)) by (apply Z.mod_pos_bound; lia). rewrite Z.add_0_l. change 256 with (2 ^ 8). by rewrite Z.mod_mod by lia.
Qed.

Lemma loopback_spec ip : is_loopback (normalize_ip ip) = true ↔ loopback_address ip.
Proof.
  destruct ip as [b|b]; cbn [normalize_ip loopback_address]; [cbn; unfold v4_is_loopback; rewrite octet0_spec; lia|].
  rewrite mapped_spec. destruct (Z.eqb_spec (b / 2 ^ 32) 0xffff) as [E|E]; cbn [is_loopback]; unfold v4_is_loopback, v6_is_loopback.
  - rewrite octet0_spec, low_octet. assert (b ≠ 1) by (intros ->; by vm_compute in E). lia.
  - lia.
Qed.

Lemma unspecified_spec ip : is_unspecified (normalize_ip ip) = true ↔ unspecified_address ip.
Proof.
  destruct ip as [b|b]; cbn [normalize_ip unspecified_address]; [cbn; unfold v4_is_unspecified; lia|].
  rewrite mapped_spec. destruct (Z.eqb_spec (b / 2 ^ 32) 0xffff) as [E|E]; cbn [is_unspecified]; unfold v4_is_unspecified, v6_is_unspecified.
  - assert (b ≠ 0) by (intros ->; by vm_compute in E). lia.
  - lia.
Qed.

Lemma direct_spec client address : direct_target_allowed client address = true →
  loopback_address address ∨ unspecified_address address → loopback_address client.
Proof.
  unfold direct_target_allowed. rewrite <- !loopback_spec, <- unspecified_spec.
  intros H [E|E]; rewrite E, ?orb_true_r in H; done.
Qed.

Lemma hits_spec rs host port : existsb (λ rule, matches rule host port) rs = true ↔ hits rs host port.
Proof.
  unfold hits. rewrite existsb_exists, Exists_exists. split; intros (r & I & E); exists r; by rewrite list_elem_of_In in *.
Qed.

Lemma decide_says set host port : says set host port (decide set host port).
Proof.
  unfold decide, says. destruct (existsb _ (block set)) eqn:Eb; [by apply hits_spec|].
  assert (¬ hits (block set) host port) as Hb by (intros H%hits_spec; congruence).
  destruct (existsb _ (direct set)) eqn:Ed; (split; [done|]); [by apply hits_spec|]. intros H%hits_spec. congruence.
Qed.

Lemma decide_route_ruled set target named port : ruled set named (host_of target) port (decide_route set target named port).
Proof.
  unfold decide_route, ruled. destruct named as [name|]; [|apply decide_says].
  pose proof (decide_says set (Domain name) port) as H. destruct (decide set (Domain name) port); [|by left..].
  right. split; [done|apply decide_says].
Qed.

(** What a handler may do under a verdict. *)
Definition permitted (w : world) (target : Target) (port : Z) (r : Action) (head_ : bytes) (e : effect) : Prop :=
  match e with
  | Replied _ => True
  | Resolved name => r = Proxy ∧ target = TDomain name
  | OpenedTunnel dst => r = Proxy ∧ resolve (tunnel_dns w) target = Ok (sa_ip dst) ∧ sa_port dst = port
  | AskedGateway _ authority p => r = Proxy ∧ authority = show_target target ∧ p = port
  | RetiredGateway => r = Proxy
  | LookedUp host p => r = Direct ∧ host = show_target target ∧ p = port
  | Dialled addr => r = Direct ∧
      (loopback_address (sa_ip addr) ∨ unspecified_address (sa_ip addr) → loopback_address (client_ip w))
  | ToRemote data => r ≠ Block ∧ data = head_
  | ToClient _ => r = Proxy
  | Relayed => r ≠ Block
  end.

Lemma dial_all_permitted w target port head_ addresses last_ :
  Forall (permitted w target port Direct head_) (dial_all w addresses last_).1.
Proof.
  revert last_. induction addresses as [|a addresses IH]; intros last_; [done|]. cbn [dial_all].
  destruct (direct_target_allowed (client_ip w) (sa_ip a)) eqn:E; cbn [negb]; [|apply IH].
  assert (permitted w target port Direct head_ (Dialled a)) as Ha by (split; [done|exact (direct_spec _ _ E)]).
  destruct (tcp_connect w a); [by apply Forall_singleton| |by apply Forall_singleton].
  specialize (IH (Some e)). destruct (dial_all w addresses (Some e)). by apply Forall_cons.
Qed.

Lemma connect_direct_permitted w target port head_ :
  Forall (permitted w target port Direct head_) (connect_direct w (show_target target) port).1.
Proof.
  unfold connect_direct. destruct (lookup_host w (show_target target) port) as [addresses|e|].
  2,3: by repeat constructor.
  pose proof (dial_all_permitted w target port head_ addresses None) as Hd.
  destruct (dial_all w addresses None). by constructor.
Qed.

Lemma handle_direct_permitted w target port head_ replied :
  Forall (permitted w target port Direct head_) (handle_direct w target port head_ replied).1.
Proof.
  unfold handle_direct. pose proof (connect_direct_permitted w target port head_) as Hd.
  destruct (connect_direct w (show_target target) port) as [tried outcome]. cbn [fst] in Hd.
  destruct (direct_cut w) as [n|].
  - apply act_bind_forall; [by apply Forall_take|]. intros _ _. by destruct replied; each_effect.
  - apply act_bind_forall; [done|]. intros _ _. destruct outcome as [|e|].
    + apply act_bind_forall; [destruct (is_empty head_); by each_effect|]. intros _ _.
      destruct (negb (is_empty head_) && negb (remote_takes w)); [done|].
      apply act_bind_forall; [destruct replied; by each_effect|]. by each_effect.
    + by destruct replied; each_effect.
    + done.
Qed.

Lemma resolve_act_ok w target ip : (resolve_act w target).2 = Ok ip → resolve (tunnel_dns w) target = Ok ip.
Proof.
  unfold resolve_act, resolve. destruct target as [i|name]; [done|].
  destruct (parse_ip name); [done|]. cbn. by destruct (tunnel_dns w name).
Qed.

Lemma open_resolved_permitted w target port head_ :
  Forall (permitted w target port Proxy head_) (open_resolved w target port).1.
Proof.
  unfold open_resolved. apply act_bind_forall.
  - apply or_general_forall; [done|]. unfold resolve_act.
    destruct target as [ip|name]; [done|]. destruct (parse_ip name); [done|]. by each_effect.
  - intros ip Hip%or_general_ok%resolve_act_ok. by each_effect.
Qed.

Lemma open_proxied_permitted w target port head_ :
  Forall (permitted w target port Proxy head_) (open_proxied w target port).1.
Proof.
  unfold open_proxied. pose proof (open_resolved_permitted w target port head_) as Ho.
  destruct (if should_use_gateway port then _ else _); [|done].
  apply act_bind_forall; [by each_effect|]. intros _ _.
  destruct (gateway_opens w _ _ _); [done| |done]. apply act_bind_forall; [by each_effect|done].
Qed.

Lemma connect_routed_permitted w target port head_ named replied :
  Forall (permitted w target port (decide_route (rules w) target named port) head_)
    (connect_routed w target port head_ named replied).1.
Proof.
  unfold connect_routed. destruct (decide_route (rules w) target named port).
  - apply act_bind_forall; [apply open_proxied_permitted|]. intros leftover _.
    apply act_bind_forall; [destruct replied; by each_effect|]. intros _ _.
    apply act_bind_forall; [destruct (is_empty head_); by each_effect|]. intros _ _.
    destruct (negb (is_empty head_) && _); [done|].
    apply act_bind_forall; [destruct (is_empty leftover); by each_effect|]. intros _ _.
    destruct (negb (is_empty leftover) && _); by each_effect.
  - apply handle_direct_permitted.
  - destruct replied; by each_effect.
Qed.

(** C11. A request goes only where the rules let it: whatever the client, the
    resolvers and the network do, everything [handle_connect] does stands
    under one verdict, which is that of a block rule, else of a direct rule,
    else the tunnel, on the name the client announced and, when no rule matches
    that name or there is none, on the destination.  A blocked request is never
    resolved, dialled or relayed; a direct one is looked up and dialled outside
    the tunnel only, and this machine's own addresses only for clients of this
    machine; a proxied one is resolved and opened inside the tunnel only, at
    the address the tunnel's resolver gave; and no byte but the client's own
    first ones is sent ahead.  A direct rule on the announced name so comes
    before a block rule on the address (see [blocked_address_dialled]). *)
Theorem connect_obeys_rules w target port :
  ∃ r, ruled (rules w) (sniffed_name w target) (host_of target) port r ∧
    Forall (permitted w target port r (sniffed_head w target)) (handle_connect w target port).1.
Proof.
  exists (decide_route (rules w) target (sniffed_name w target) port). split; [apply decide_route_ruled|].
  unfold handle_connect, sniffed_name, sniffed_head. destruct (sniffs w target).
  - apply act_bind_forall; [by each_effect|]. intros _ _.
    destruct (first_read w) as [head_|]; [|done]. apply connect_routed_permitted.
  - apply connect_routed_permitted.
Qed.
End connect_theory.

(** ** The replies of a request *)

Definition replies (es : list effect) : list bytes :=
  omap (λ e, match e with Replied m => Some m | _ => None end) es.

Lemma replies_app a b : replies (a ++ b) = replies a ++ replies b.
Proof. apply omap_app. Qed.

Section reply_theory.
Context {ar : arch} {U : UnicodeCase} {N : IpNets} {R : Regexes}.
Implicit Types w : world.

(** The outside world answers; it does not bring the process down. *)
Record calm (w : world) : Prop := {
  calm_gateway p a q : no_panic (gateway_opens w p a q);
  calm_dns n : no_panic (tunnel_dns w n);
  calm_open d : no_panic (open_tcp w d);
  calm_lookup h p : no_panic (lookup_host w h p);
  calm_connect a : no_panic (tcp_connect w a) }.

Lemma act_bind_eq {A B} (es : list effect) (a : A) (f : A → act B) :
  ((es, Ok a) ≫= f : act B) = (es ++ (f a).1, (f a).2).
Proof. cbn. by destruct (f a). Qed.

(** [m] said nothing to the client yet, or it failed and said so. *)
Definition quiet {A} (m : act A) : Prop :=
  match m.2 with
  | Ok _ => replies m.1 = []
  | Err _ => replies m.1 = [reply_bytes REP_GENERAL]
  | Panic => False
  end ∧ Relayed ∉ m.1.

Lemma dial_all_quiet w addresses last_ : calm w →
  replies (dial_all w addresses last_).1 = [] ∧ Relayed ∉ (dial_all w addresses last_).1
  ∧ no_panic (dial_all w addresses last_).2.
Proof.
  intros Hc. revert last_. induction addresses as [|a addresses IH]; intros last_; cbn [dial_all].
  { split; [done|]. split; [apply not_elem_of_nil|done]. }
  destruct (direct_target_allowed (client_ip w) (sa_ip a)); cbn [negb]; [|apply IH].
  pose proof (calm_connect _ Hc a) as Ha. destruct (tcp_connect w a) as [|e|]; [|clear Ha|done].
  { split; [done|]. split; [set_solver|done]. }
  specialize (IH (Some e)). destruct (dial_all w addresses (Some e)) as [es r]. cbn [fst snd] in *.
  destruct IH as (? & ? & ?). split; [done|]. split; [set_solver|done].
Qed.

Lemma connect_direct_quiet w host port : calm w →
  replies (connect_direct w host port).1 = [] ∧ Relayed ∉ (connect_direct w host port).1
  ∧ no_panic (connect_direct w host port).2.
Proof.
  intros Hc. unfold connect_direct. pose proof (calm_lookup _ Hc host port) as Hl.
  destruct (lookup_host w host port) as [addresses|e|]; [|clear Hl|done].
  - pose proof (dial_all_quiet w addresses None Hc) as Hd. destruct (dial_all w addresses None).
    destruct Hd as (? & ? & ?). split; [done|]. cbn [fst snd] in *. split; [set_solver|done].
  - split; [done|]. split; [set_solver|done].
Qed.

Lemma open_resolved_quiet w target port : calm w → quiet (open_resolved w target port).
Proof.
  intros Hc. unfold open_resolved.
  assert (∃ es, replies es = [] ∧ Relayed ∉ es
          ∧ (resolve_act w target = (es, resolve (tunnel_dns w) target))) as (es & Hes & Hrel & ->).
  { unfold resolve_act, resolve. destruct target as [ip|name]; [exists []; split_and!; [done|set_solver|done]|].
    destruct (parse_ip name); [exists []; split_and!; [done|set_solver|done]|].
    exists [Resolved name]. split_and!; [done|set_solver|]. cbn. by destruct (tunnel_dns w name). }
  assert (no_panic (resolve (tunnel_dns w) target)) as Hp.
  { unfold resolve. destruct target as [|name]; [done|]. destruct (parse_ip name); [done|]. apply Hc. }
  destruct (resolve (tunnel_dns w) target) as [ip|e|]; [|clear Hp|done].
  - cbn [or_general]. rewrite act_bind_eq. pose proof (calm_open _ Hc (SockAddr ip port)) as Ho.
    cbn. destruct (open_tcp w (SockAddr ip port)) as [|e|]; [|clear Ho|done]; cbn; unfold quiet; cbn [fst snd];
      rewrite replies_app, Hes; (split; [done|set_solver]).
  - unfold quiet. cbn. rewrite replies_app, Hes. split; [done|set_solver].
Qed.

Lemma open_proxied_quiet w target port : calm w → quiet (open_proxied w target port).
Proof.
  intros Hc. pose proof (open_resolved_quiet w target port Hc) as Ho. unfold open_proxied.
  destruct (if should_use_gateway port then _ else _) as [proxy|]; [|done].
  unfold emit at 1. rewrite act_bind_eq. pose proof (calm_gateway _ Hc proxy (show_target target) port) as Hg.
  destruct (gateway_opens w proxy (show_target target) port) as [l|e|]; [|clear Hg|done].
  - unfold quiet. cbn. split; [done|set_solver].
  - unfold emit. rewrite act_bind_eq. destruct (open_resolved w target port) as [es [a|e'|]];
      unfold quiet in *; cbn in *; destruct Ho as [Hr Hn]; (split; [done|set_solver]).
Qed.

(** The one reply of a request, and when it says the connection stands. *)
Definition one_reply (w : world) (es : list effect) : Prop := ∃ m,
  replies es = [m] ∧ m ∈ [BOUND_ANY; reply_bytes REP_GENERAL; reply_bytes REP_NOT_ALLOWED]
  ∧ (Relayed ∈ es → m = BOUND_ANY)
  ∧ (m = BOUND_ANY → Relayed ∈ es ∨ client_takes w = false).

Lemma one_reply_error w es code : replies es = [] → Relayed ∉ es → code = REP_GENERAL ∨ code = REP_NOT_ALLOWED →
  one_reply w (es ++ [Replied (reply_bytes code)]).
Proof.
  intros Hr Hn Hc. exists (reply_bytes code). rewrite replies_app, Hr. split; [done|].
  split; [destruct Hc as [-> | ->]; set_solver|]. split; [set_solver|]. by destruct Hc as [-> | ->].
Qed.

Lemma one_reply_bound w es more : replies es = [] → replies more = [] → Relayed ∈ more ∨ client_takes w = false →
  one_reply w (es ++ Replied BOUND_ANY :: more).
Proof.
  intros Hr Hm Hor. exists BOUND_ANY. rewrite replies_app, Hr. cbn. fold (replies more). rewrite Hm.
  split; [done|]. split; [set_solver|]. split; [done|]. intros _. set_solver.
Qed.

Lemma handle_direct_one_reply w target port : calm w → one_reply w (handle_direct w target port [] false).1.
Proof.
  intros Hc. unfold handle_direct.
  destruct (connect_direct_quiet w (show_target target) port Hc) as (Hr & Hn & Hp).
  destruct (connect_direct w (show_target target) port) as [tried outcome]. cbn [fst snd] in *.
  destruct (direct_cut w) as [n|]; rewrite act_bind_eq; cbn [fst].
  - cbn [emit fst]. apply one_reply_error; [| |by left].
    + rewrite <- (take_drop n tried), replies_app in Hr. by apply app_eq_nil in Hr as [? _].
    + intros Hin. apply Hn. rewrite <- (take_drop n tried). set_solver.
  - destruct outcome as [|e|]; [|clear Hp|done].
    + cbn. apply one_reply_bound; [done|done|]. left. set_solver.
    + cbn [emit fst]. apply one_reply_error; [done|done|]. case_bool_decide; auto.
Qed.

(** Every request is answered once: as long as the server does not sniff
    the client's first bytes, a connect request gets exactly one SOCKS reply,
    whatever fails on the way; it says success if and only if the two ends are
    then joined, or the client stops taking what the far end sent ahead. *)
Theorem connect_replies_once w target port (Hcalm : calm w) (Hs : sniffs w target = false) :
  one_reply w (handle_connect w target port).1.
Proof.
  unfold handle_connect. rewrite Hs. unfold connect_routed.
  destruct (decide_route (rules w) target None port).
  - destruct (open_proxied_quiet w target port Hcalm) as [Hq Hn].
    destruct (open_proxied w target port) as [es [leftover|e|]]; cbn [fst snd] in *; [| |done].
    + rewrite act_bind_eq. cbn. destruct leftover as [|x leftover]; cbn.
      { apply one_reply_bound; [done|done|]. left. set_solver. }
      destruct (client_takes w) eqn:Ec; cbn; apply one_reply_bound; try done; [left; set_solver|by right].
    + exists (reply_bytes REP_GENERAL). cbn. split; [done|]. split; [set_solver|]. by split.
  - by apply handle_direct_one_reply.
  - cbn [emit fst]. apply (one_reply_error w []); [done|set_solver|by right].
Qed.

(** A sniffed request that cannot be opened is answered twice: the server
    told the client of a connection to read its first bytes, and when the
    tunnel then refuses the destination a second SOCKS reply, of failure, is
    written into what the client takes for its connection. *)
Theorem sniffed_failure_replies_twice w ip port head_ e
  (Hs : sniffs w (TIp ip) = true) (Hh : first_read w = Some head_)
  (Hr : route w (TIp ip) port = Proxy) (Hg : should_use_gateway port = false ∨ gateway w = None)
  (Ho : open_tcp w (SockAddr ip port) = Err e) :
  replies (handle_connect w (TIp ip) port).1 = [BOUND_ANY; reply_bytes REP_GENERAL]
  ∧ (handle_connect w (TIp ip) port).2 = Err e.
Proof.
  unfold route, sniffed_name in Hr. rewrite Hs, Hh in Hr.
  unfold handle_connect. rewrite Hs, Hh. unfold emit at 1. rewrite act_bind_eq. cbn [fst snd].
  unfold connect_routed. cbn [mbind option_bind] in Hr. rewrite Hr. unfold open_proxied.
  assert ((if should_use_gateway port then gateway w else None) = None) as ->
    by (destruct Hg as [-> | ->]; [done|by destruct (should_use_gateway port)]).
  cbn. rewrite Ho. cbn. done.
Qed.
End reply_theory.

Section samples.
Local Existing Instance ascii_only.
Local Existing Instance no_nets.
Local Existing Instance no_regex.

(** Rules that block one domain, and a network where nothing opens. *)
Definition sample_world (on : bool) : world :=
  mk_world (Routing.parse (lit "domain:blocked.example") []) on (Some (lit "hello")) (V4 0x7f000001) None
    (λ _ _ _, Err (EOther [])) (λ _, Err (EOther (lit "dns timeout"))) (λ _, Err (EOther (lit "refused")))
    (λ _ _, Err OtherKind) (λ _, Err OtherKind) None true true.

Lemma sample_calm on : calm (sample_world on).
Proof. by split. Qed.

Lemma connect_replies_once_witness :
  replies (@handle_connect W64 _ _ _ (sample_world false) (TDomain (lit "example.com")) 443).1 = [reply_bytes REP_GENERAL]
  ∧ one_reply (sample_world false)
      (@handle_connect W64 _ _ _ (sample_world false) (TDomain (lit "example.com")) 443).1.
Proof.
  split; [by vm_compute|].
  apply (@connect_replies_once W64 ascii_only no_nets no_regex); [apply sample_calm|by vm_compute].
Defined.

Lemma sniffed_failure_replies_twice_witness :
  replies (@handle_connect W64 _ _ _ (sample_world true) (TIp (V4 0x08080808)) 8080).1
  = [BOUND_ANY; reply_bytes REP_GENERAL].
Proof.
  apply (@sniffed_failure_replies_twice W64 ascii_only no_nets no_regex (sample_world true) (V4 0x08080808) 8080
    (lit "hello") (EOther (lit "refused"))); [by vm_compute..|left; by vm_compute|by vm_compute].
Defined.
(** Private addresses are blocked and one name is direct; the client asks for a
    private address and announces the name. *)
Definition named_world : world :=
  mk_world (Routing.parse (lit "private") (lit "good.example")) true
    (Some (lit "GET / HTTP/1.1" ++ [13; 10] ++ lit "Host: good.example" ++ [13; 10; 13; 10])) (V4 0x7f000001) None
    (λ _ _ _, Err (EOther [])) (λ _, Err (EOther [])) (λ _, Err (EOther []))
    (λ _ _, Ok [SockAddr (V4 0xc0a80105) 80]) (λ _, Ok ()) None true true.

Example blocked_address_dialled :
  decide (rules named_world) (Ip (V4 0xc0a80105)) 80 = Block ∧
  Dialled (SockAddr (V4 0xc0a80105) 80) ∈ (@handle_connect W64 _ _ _ named_world (TIp (V4 0xc0a80105)) 80).1.
Proof.
  split; [by vm_compute|].
  assert (existsb (λ e, match e with Dialled a => bool_decide (a = SockAddr (V4 0xc0a80105) 80) | _ => false end)
    (@handle_connect W64 _ _ _ named_world (TIp (V4 0xc0a80105)) 80).1 = true) as H by (vm_compute; reflexivity).
  apply existsb_exists in H as (e & I & E). apply list_elem_of_In in I. destruct e; try done. apply bool_decide_eq_true in E. by subst.
Qed.
End samples.

(** ** One client per association *)

Section udp_theory.
Context {U : UnicodeCase} {N : IpNets} {R : Regexes}.

(** What an association that serves [c] may send on an event. *)
Definition serves (a : association) (c : SocketAddr) (ev : udp_event) (act_ : udp_action) : Prop :=
  match act_ with
  | ToSocksClient datagram to =>
      to = c ∧ ∃ src data, (ev = FromStack src data ∨ ∃ more, ev = FromDirect src more ∧ data = takez UDP_RELAY_BUF more)
                           ∧ datagram = build_udp_reply src data
  | ToTunnel dst payload => ∃ data target,
      ev = FromClient data c
      ∧ parse_udp_request (takez UDP_RELAY_BUF data) = Ok (target, (sa_port dst, payload))
      ∧ decide (as_rules a) (host_of target) (sa_port dst) = Proxy
      ∧ (target = TIp (sa_ip dst) ∨ ∃ name, target = TDomain name ∧ as_dns a name = Ok (sa_ip dst))
  | ToOutside dst payload => ∃ data target port,
      ev = FromClient data c
      ∧ parse_udp_request (takez UDP_RELAY_BUF data) = Ok (target, (port, payload))
      ∧ decide (as_rules a) (host_of target) port = Direct
      ∧ direct_target_allowed (sa_ip (control_peer a)) (sa_ip dst) = true
      ∧ (target = TIp (sa_ip dst) ∧ port = sa_port dst
         ∨ ∃ name, target = TDomain name ∧ as_lookup a name port = Some dst)
  end.

Lemma forward_udp_serves a c data target port payload :
  parse_udp_request (takez UDP_RELAY_BUF data) = Ok (target, (port, payload)) →
  Forall (serves a c (FromClient data c)) (forward_udp a target port payload).
Proof.
  intros Hp. unfold forward_udp. destruct (decide (as_rules a) (host_of target) port) eqn:Ed; [| |done].
  - destruct target as [ip|name].
    { constructor; [|done]. exists data, (TIp ip). cbn [sa_ip sa_port]. by split_and!; [..|left]. }
    destruct (as_dns a name) as [ip| |] eqn:En; [|done..].
    constructor; [|done]. exists data, (TDomain name). cbn [sa_ip sa_port].
    split_and!; [done..|]. right. by exists name.
  - set (outside := match target with TIp _ => _ | TDomain _ => _ end).
    destruct outside as [addr|] eqn:Eo; [|done].
    destruct (direct_target_allowed _ (sa_ip addr)) eqn:Ea; cbn [negb]; [|done].
    constructor; [|done]. exists data, target, port. split_and!; [done..|].
    unfold outside in Eo. destruct target as [ip|name]; [left|right; by exists name].
    by injection Eo as <-.
Qed.

Definition datagram_ok (ev : udp_event) : Prop :=
  match ev with FromClient data _ => bytes_ok data | _ => True end.

(** Once latched to [c], the association serves [c] and keeps to it. *)
Lemma udp_step_latched a st c ev : latched st = Some c → datagram_ok ev →
  match udp_step a st ev with
  | Continue st' acts => latched st' = Some c ∧ Forall (serves a c ev) acts
  | Stop => True
  | Crash => False
  end.
Proof.
  intros Hl Hev. destruct ev as [data from|src data|src data| | | | |]; cbn [udp_step]; try done.
  - rewrite Hl. cbn [udp_source_allowed]. case_bool_decide as Heq; cbn [negb]; [|done].
    subst from. pose proof (parse_udp_request_safe (takez UDP_RELAY_BUF data) (takez_ok _ _ Hev)) as Hs.
    destruct (parse_udp_request _) as [[t [p payload]]|e|] eqn:Ep; [| |done].
    + split; [done|]. by apply forward_udp_serves.
    + done.
  - split; [done|]. unfold to_client. rewrite Hl. constructor; [|done]. split; [done|].
    exists src, data. split; [by left|done].
  - split; [done|]. unfold to_client. rewrite Hl. constructor; [|done]. split; [done|].
    exists src, (takez UDP_RELAY_BUF data). split; [right; by exists data|done].
Qed.

(** Before it is latched it sends nothing, and only a datagram from the
    expected address latches it. *)
Lemma udp_step_unlatched a st ev : latched st = None → datagram_ok ev →
  match udp_step a st ev with
  | Continue st' acts =>
      latched st' = None ∧ acts = []
      ∨ ∃ c, latched st' = Some c ∧ normalize_ip (sa_ip c) = normalize_ip (expected_ip a)
             ∧ Forall (serves a c ev) acts
  | Stop => True
  | Crash => False
  end.
Proof.
  intros Hl Hev. destruct ev as [data from|src data|src data| | | | |]; cbn [udp_step];
    unfold to_client; rewrite ?Hl; try (by left); try done.
  cbn [udp_source_allowed]. case_bool_decide as Heq; cbn [negb]; [|by left].
  pose proof (parse_udp_request_safe (takez UDP_RELAY_BUF data) (takez_ok _ _ Hev)) as Hs.
  destruct (parse_udp_request _) as [[t [p payload]]|e|] eqn:Ep; [| |done]; right; exists from; split_and!; try done.
  by apply forward_udp_serves.
Qed.

Definition run_serves (a : association) (c : SocketAddr) (log : list (udp_event * list udp_action)) : Prop :=
  Forall (λ p, Forall (serves a c p.1) p.2) log.

Lemma udp_run_latched a st c evs : latched st = Some c → Forall datagram_ok evs →
  run_serves a c (udp_run a st evs).1 ∧ (udp_run a st evs).2 ≠ Crash.
Proof.
  intros Hl Hevs. revert st Hl. induction Hevs as [|ev evs Hev _ IH]; intros st Hl; [split; [by apply Forall_nil_2|done]|].
  cbn [udp_run]. pose proof (udp_step_latched a st c ev Hl Hev) as Hs.
  destruct (udp_step a st ev) as [st' acts| |]; [|split; [by apply Forall_nil_2|done]|done]. destruct Hs as [Hl' Ha].
  specialize (IH st' Hl'). destruct (udp_run a st' evs) as [log last_]. destruct IH as [Hlog Hlast].
  split; [by constructor|done].
Qed.

Lemma udp_run_serves a evs (Hevs : Forall datagram_ok evs) :
  (udp_run a udp_start evs).2 ≠ Crash
  ∧ (Forall (λ p, p.2 = []) (udp_run a udp_start evs).1
     ∨ ∃ c, normalize_ip (sa_ip c) = normalize_ip (expected_ip a) ∧ run_serves a c (udp_run a udp_start evs).1).
Proof.
  assert (latched udp_start = None) as Hl by done. revert Hl. generalize udp_start as st.
  induction Hevs as [|ev evs Hev Hevs IH]; intros st Hl; [split; [done|left; by apply Forall_nil_2]|].
  cbn [udp_run]. pose proof (udp_step_unlatched a st ev Hl Hev) as Hs.
  destruct (udp_step a st ev) as [st' acts| |]; [|split; [done|left; by apply Forall_nil_2]|done].
  destruct Hs as [[Hl' ->]|(c & Hl' & Hc & Ha)].
  - destruct (IH st' Hl') as [Hlast Hlog]. destruct (udp_run a st' evs) as [log last_]. cbn [fst snd] in *.
    split; [done|]. destruct Hlog as [Hlog|(c & Hc & Hlog)]; [left; by constructor|].
    right. exists c. split; [done|]. by constructor.
  - destruct (udp_run_latched a st' c evs Hl' Hevs) as [Hlog Hlast].
    destruct (udp_run a st' evs) as [log last_]. split; [done|]. right. exists c. split; [done|]. by constructor.
Qed.

(** C15. A UDP association is one client's: over any sequence of events no
    datagram crashes it, and there is one address, of the host the client
    asked for or connects from, such that every datagram it sends back goes
    there, framed with its source, and every datagram it forwards came from
    there and goes where the rules let it: through the tunnel to the address
    named or resolved inside it, directly only when the rules say so and never
    to this machine's loopback for a remote client, and nowhere when blocked. *)
Theorem udp_association_serves_one_client a bound stack_opens outside_opens evs
  (Hevs : Forall datagram_ok evs) (Hb : no_panic bound) (Hs : no_panic stack_opens) (Ho : no_panic outside_opens) :
  let '(log, ended) := (handle_udp_associate a bound stack_opens outside_opens evs).2 in
  ended ≠ Some Panic
  ∧ (Forall (λ p, p.2 = []) log
     ∨ ∃ c, normalize_ip (sa_ip c) = normalize_ip (expected_ip a) ∧ run_serves a c log).
Proof.
  unfold handle_udp_associate. destruct bound as [relay_addr|e|]; [|split; [done|left; by apply Forall_nil_2]|done].
  destruct stack_opens as [[]|e|]; [|split; [done|left; by apply Forall_nil_2]|done]. cbn [mbind comp_bind].
  destruct outside_opens as [[]|e|]; [|split; [done|left; by apply Forall_nil_2]|done]. cbn [snd].
  pose proof (udp_run_serves a evs Hevs) as [Hlast Hlog].
  destruct (udp_run a udp_start evs) as [log [st acts| |]]; [by split..|done].
Qed.
End udp_theory.

Section udp_sample.
Local Existing Instance ascii_only.
Local Existing Instance no_nets.
Local Existing Instance no_regex.

Definition sample_association : association :=
  mk_association (Routing.parse (lit "port:25") []) (SockAddr (V4 0x7f000001) 5000) (TIp (V4 0)) (λ _ _, None)
    (λ _, Err (EOther [])).

Definition sample_udp_events : list udp_event :=
  [FromStack sample_peer [1]; FromClient [9] (SockAddr (V4 0x0a000001) 7);
   FromClient (encode_udp_header sample_peer ++ [1; 2]) (SockAddr (V6 0xffff7f000001) 7);
   FromClient (encode_udp_header (SockAddr (V4 0x08080808) 25) ++ [3]) (SockAddr (V6 0xffff7f000001) 7);
   FromStack sample_peer [4]].

Lemma udp_association_serves_one_client_witness :
  let run := handle_udp_associate sample_association (Ok (SockAddr (V4 0x7f000001) 6000)) (Ok tt) (Ok tt) sample_udp_events in
  run.2.1.*2
  = [[]; []; [ToTunnel sample_peer [1; 2]]; [];
     [ToSocksClient (build_udp_reply sample_peer [4]) (SockAddr (V6 0xffff7f000001) 7)]]
  ∧ run.2.2 ≠ Some Panic.
Proof.
  cbn zeta. split; [by vm_compute|].
  pose proof (@udp_association_serves_one_client ascii_only no_nets no_regex sample_association
    (Ok (SockAddr (V4 0x7f000001) 6000)) (Ok tt) (Ok tt) sample_udp_events) as Ht.
  destruct (handle_udp_associate _ _ _ _ _) as [es [log ended]].
  apply Ht; [repeat constructor; by vm_compute|done..].
Defined.
End udp_sample.

(** ** DNS alone, over TCP *)

(** What the relay may send while it serves the client it is latched to. *)
Definition dns_serves (c : option SocketAddr) (ev : dns_wake) (a : dns_action) : Prop :=
  match a with
  | AskResolver resolver query => sa_port resolver = DNS_PORT ∧ ∃ data from,
      ev = Asked data from ∧ c = Some from
      ∧ parse_udp_request (takez UDP_RELAY_BUF data) = Ok (TIp (sa_ip resolver), (DNS_PORT, query))
  | Answered datagram to => c = Some to ∧ ∃ src data,
      ev = LookupEnded (Some (src, data)) ∧ datagram = build_udp_reply src data
  end.

(** Each event keeps the number of lookups within its bound, moves it by the
    lookups started and ended, and is served for the latched client alone, to
    port 53. *)
Theorem dns_relay_step expected st ev (Hin : 0 ≤ in_flight st ≤ DNS_MAX_IN_FLIGHT)
  (Hended : ∀ a, ev = LookupEnded a → 0 < in_flight st)
  (Hok : ∀ data from, ev = Asked data from → bytes_ok data) :
  match dns_step expected st ev with
  | Ok (Some st', acts) =>
      0 ≤ in_flight st' ≤ DNS_MAX_IN_FLIGHT
      ∧ (∀ c, dns_client st = Some c → dns_client st' = Some c)
      ∧ (∀ c, dns_client st = None → dns_client st' = Some c → normalize_ip (sa_ip c) = normalize_ip expected)
      ∧ Forall (dns_serves (dns_client st') ev) acts
  | Ok (None, acts) => acts = []
  | Err _ | Panic => False
  end.
Proof.
  destruct ev as [data from|answer| |]; cbn [dns_step]; [| |by split_and!; [lia..|naive_solver|congruence|]|done].
  - specialize (Hok data from eq_refl).
    destruct (udp_source_allowed expected (dns_client st) from) eqn:Es; cbn [negb];
      [|split_and!; [cbn; lia..|done|cbn; congruence|done]].
    assert (∀ c, dns_client st = Some c → c = from) as Hsame.
    { intros c E. unfold udp_source_allowed in Es. rewrite E in Es. by case_bool_decide. }
    assert (dns_client st = None → normalize_ip (sa_ip from) = normalize_ip expected) as Hnew.
    { intros E. unfold udp_source_allowed in Es. rewrite E in Es. by case_bool_decide. }
    set (client := match dns_client st with None => Some from | known => known end).
    assert (client = Some from) as Hc by (unfold client; destruct (dns_client st) eqn:E; [f_equal; by apply Hsame|done]).
    pose proof (parse_udp_request_safe (takez UDP_RELAY_BUF data) (takez_ok _ _ Hok)) as Hp.
    assert (∀ c, dns_client st = Some c → client = Some c) as Hkeep by (intros c E; rewrite Hc; f_equal; symmetry; by apply Hsame).
    assert (∀ c, dns_client st = None → client = Some c → normalize_ip (sa_ip c) = normalize_ip expected) as Hfirst
      by (intros c E; rewrite Hc; intros [= <-]; by apply Hnew).
    destruct (parse_udp_request _) as [[dst [p payload]]|e|] eqn:Ep; [|done..].
    destruct (Z.eqb_spec p DNS_PORT) as [->|]; cbn [negb]; [|done].
    destruct dst as [ip|name]; [|done]. cbn [in_flight dns_client].
    destruct (Z.leb_spec DNS_MAX_IN_FLIGHT (in_flight st)); [done|].
    split_and!; cbn [in_flight dns_client]; [lia..|done|done|]. constructor; [|done].
    split; [done|]. by exists data, from.
  - specialize (Hended answer eq_refl). split_and!; cbn [in_flight dns_client]; [lia..|done|congruence|].
    destruct answer as [[src data]|]; [|done]. destruct (dns_client st); [|done].
    constructor; [|done]. split; [done|]. by exists src, data.
Qed.

(** A query over a stream and the answer of a server that frames as it does. *)
Lemma dns_over_stream_talks query answer : blen query ≤ 65535 → blen answer ≤ 65535 →
  talks (dns_over_stream query) (be_bytes 2 (blen answer) ++ answer) (be_bytes 2 (blen query) ++ query) (Ok answer).
Proof.
  intros Hq Ha. unfold dns_over_stream. destruct (Z.ltb_spec 65535 (blen query)); [lia|]. blen_pos.
  unfold as_u16. rewrite Z.mod_small by (change (2 ^ 16) with 65536; lia).
  set (out := be_bytes 2 (blen query) ++ query). rewrite <- (app_nil_r out).
  rewrite <- (app_nil_l (be_bytes 2 (blen answer) ++ answer)).
  apply (talks_bind _ _ [] _ out [] tt); [rewrite app_nil_r; apply talks_write|].
  apply (talks_bind _ _ (be_bytes 2 (blen answer)) answer [] [] (be_bytes 2 (blen answer))).
  - by apply talks_read.
  - rewrite be_val_port by (unfold u16; lia). by apply talks_read.
Qed.
