(* ===== verification/Egress.v ===== *)
(** * Outgoing sockets

    src/aether/src/egress.rs: the firewall mark every socket carries, and the
    connection to a host that may have several addresses (RFC 8305): the order
    the addresses are tried in, and the race between the attempts.

    The system calls are an argument: [os] says how each of them ends.  An
    operation gives the calls it made, in order, with its outcome.  The target
    is Linux, where marking exists. *)

From stdpp Require Import strings.
From S2P Require Import Prelude Text Net NetText Error Fragment.

(** ** The mark *)

(** The lower-case hexadecimal form of a 32-bit number, as [{:#x}] prints it. *)
Definition show_hex (v : Z) : bytes :=
  lit "0x" ++
  default [48] (match drop_while (λ d, d =? 48)
                        (map (λ k, hex_digit (Z.land (Z.shiftr v (4 * k)) 15)) [7; 6; 5; 4; 3; 2; 1; 0])
                with [] => None | ds => Some ds end).

Definition parse_mark (raw : bytes) : option Z :=
  let text := trim raw in
  match (match strip_prefix (lit "0x") text with
         | Some hex => Some hex
         | None => strip_prefix (lit "0X") text
         end) with
  | Some hex => parse_hex (2 ^ 32 - 1) hex
  | None => parse_u32 text
  end.

(** What the program asks of the system.  A TCP socket is named by the family
    it was made for, a UDP socket by the address it is made for. *)
Inductive syscall :=
| NewTcp (v4 : bool)
| NewUdp (address : option SocketAddr)
| SetMark (mark : Z)
| SetNonblocking
| Connect (address : SocketAddr)
| Bind (address : SocketAddr)
| Register.

(** The calls made and what came of them. *)
Definition sys (A : Type) : Type := list syscall * comp AetherError A.

#[export] Instance sys_ret : MRet sys := λ A a, ([], Ok a).
#[export] Instance sys_bind : MBind sys := λ A B f m,
  match m.2 with
  | Ok a => let r := f a in (m.1 ++ r.1, r.2)
  | Err e => (m.1, Err e)
  | Panic => (m.1, Panic)
  end.

Section sockets.
Context (os : syscall → option bytes).

(** A call fails when the system gives an error text for it. *)
Definition call (c : syscall) : sys () :=
  ([c], match os c with None => Ok tt | Some text => Err (EIo text) end).

(** [init]: the mark stored for the sockets made later; [None] when [MARK] is
    left as it was. *)
Definition init (env : environment) : option Z * sys () :=
  match env (lit "AETHER_MARK") with
  | Some raw =>
      if is_empty (trim raw) then (Some 0, mret tt)
      else
        match parse_mark raw with
        | None =>
            (None, ([], Err (EOther (lit "'" ++ trim raw ++
              lit "' is not a socket mark; give a number such as 255 or 0xff"))))
        | Some mark =>
            if mark =? 0 then (Some 0, mret tt)
            else
              let probe : sys () :=
                _ ← call (NewUdp None);
                let r := call (SetMark mark) in
                (r.1, match os (SetMark mark) with
                      | None => Ok tt
                      | Some error =>
                          Err (EOther (lit "cannot mark sockets with " ++ show_hex mark ++ lit ": "
                            ++ error ++ lit "; marking needs root or CAP_NET_ADMIN"))
                      end) in
              (match probe.2 with Ok _ => Some mark | _ => None end, probe)
        end
  | None => (Some 0, mret tt)
  end.

(** [apply]: with a mark set the socket gets it. *)
Definition apply_mark (mark : Z) : sys () :=
  if mark =? 0 then mret tt else call (SetMark mark).

Definition tcp_connect (mark : Z) (address : SocketAddr) : sys () :=
  _ ← call (NewTcp (is_ipv4 (sa_ip address)));
  _ ← apply_mark mark;
  call (Connect address).

Definition udp_bind (mark : Z) (address : SocketAddr) : sys () :=
  _ ← call (NewUdp (Some address));
  _ ← apply_mark mark;
  _ ← call SetNonblocking;
  _ ← call (Bind address);
  call Register.
End sockets.

(** ** The order of the addresses *)

Definition addr_v4 (a : SocketAddr) : bool := is_ipv4 (sa_ip a).

(** One round of the loop: a front element of each queue, when there is one. *)
Definition interleave_step (s : list SocketAddr * list SocketAddr * list SocketAddr)
  : round (list SocketAddr * list SocketAddr * list SocketAddr) (list SocketAddr) :=
  let '(lead, other, order) := s in
  if is_empty lead && is_empty other then Done order
  else
    let order := order ++ take 1 lead in
    let order := order ++ take 1 other in
    Next (drop 1 lead, drop 1 other, order).

Definition interleave_measure (s : list SocketAddr * list SocketAddr * list SocketAddr) : nat :=
  length s.1.1 + length s.1.2.

Definition interleaved (addresses : list SocketAddr) : list SocketAddr :=
  match addresses with
  | [] => addresses
  | first :: _ =>
      let lead_v4 := addr_v4 first in
      let lead := List.filter (λ a, Bool.eqb (addr_v4 a) lead_v4) addresses in
      let other := List.filter (λ a, negb (Bool.eqb (addr_v4 a) lead_v4)) addresses in
      loop interleave_measure interleave_step [] (lead, other, [])
  end.

(** ** The race *)

(** [waiting], [attempts] and [last_error] of [race]; an attempt is named by
    the address it goes to. *)
Record racing := Racing {
  waiting : list SocketAddr;
  attempts : list SocketAddr;
  last_error : option bytes;
}.

(** What [select!] wakes up for: the attempt at a position of [attempts]
    finished, or the delay passed. *)
Inductive race_event T :=
| Finished (i : nat) (outcome : T + bytes)
| Elapsed.
Arguments Finished {T} i outcome.
Arguments Elapsed {T}.

(** The race goes on, or has returned. *)
Inductive race_state T :=
| Running (s : racing)
| Returned (r : T + bytes).
Arguments Running {T} s.
Arguments Returned {T} r.

Section race.
Context {T : Type}.

(** [attempts.extend(waiting.next().map(&connect))]. *)
Definition start_next (s : racing) : list SocketAddr * racing :=
  match waiting s with
  | a :: w => ([a], Racing w (attempts s ++ [a]) (last_error s))
  | [] => ([], s)
  end.

(** The top of the loop: with no attempt running the next one starts, or the
    race is lost.  The addresses connected to come first in the answer. *)
Definition race_top (s : racing) : list SocketAddr * race_state T :=
  if is_empty (attempts s) then
    match waiting s with
    | _ :: _ => let '(started, s) := start_next s in (started, Running s)
    | [] => ([], Returned (inr (default (lit "no address to connect to") (last_error s))))
    end
  else ([], Running s).

(** One round; [None] for an event that cannot happen. *)
Definition race_round (s : racing) (ev : race_event T) : option (list SocketAddr * race_state T) :=
  match ev with
  | Finished i outcome =>
      match attempts s !! i with
      | None => None
      | Some _ =>
          match outcome with
          | inl stream => Some ([], Returned (inl stream))
          | inr error =>
              let s := Racing (waiting s) (delete i (attempts s)) (Some error) in
              let '(started, s) := start_next s in
              let '(more, r) := race_top s in
              Some (started ++ more, r)
          end
      end
  | Elapsed =>
      let '(started, s) := start_next s in
      let '(more, r) := race_top s in
      Some (started ++ more, r)
  end.

(** The race over a sequence of events: the addresses connected to, in order,
    and where the race stands; [None] when the events cannot happen. *)
Fixpoint race_run (evs : list (race_event T)) (started : list SocketAddr) (st : race_state T)
  : option (list SocketAddr * race_state T) :=
  match evs with
  | [] => Some (started, st)
  | ev :: evs =>
      match st with
      | Returned _ => None
      | Running s =>
          match race_round s ev with
          | None => None
          | Some (more, st) => race_run evs (started ++ more) st
          end
      end
  end.

Definition race (addresses : list SocketAddr) (evs : list (race_event T))
  : option (list SocketAddr * race_state T) :=
  let '(started, st) := race_top (Racing addresses [] None) in
  race_run evs started st.

(** [tcp_connect_host] from what the lookup gave. *)
Definition tcp_connect_host (host : bytes) (lookup : comp bytes (list SocketAddr))
  (evs : list (race_event T)) : option (list SocketAddr * race_state T) :=
  match lookup with
  | Err text => Some ([], Returned (inr text))
  | Panic => None
  | Ok addresses =>
      if is_empty addresses then
        Some ([], Returned (inr (host ++ lit " did not resolve to any address")))
      else race (interleaved addresses) evs
  end.
End race.

(** ** The order of the addresses: facts *)

#[export] Instance interleave_decreasing : Decreasing interleave_measure interleave_step.
Proof.
  intros [[lead other] order] s'. unfold interleave_step, interleave_measure.
  destruct lead as [|a lead], other as [|b other]; cbn -[drop]; try done;
    intros [= <-]; cbn -[drop]; rewrite ?length_drop; cbn; lia.
Qed.

(** Two queues by turns, what is left of the longer one at the end. *)
Fixpoint by_turns (lead other : list SocketAddr) : list SocketAddr :=
  match lead, other with
  | a :: lead, b :: other => a :: b :: by_turns lead other
  | [], _ => other
  | _, [] => lead
  end.

Lemma interleave_loop lead other order d :
  loop interleave_measure interleave_step d (lead, other, order) = order ++ by_turns lead other.
Proof.
  revert other order. induction lead as [|a lead IH]; intros other order.
  - cbn [by_turns]. revert order. induction other as [|b other IHo]; intros order.
    + rewrite loop_unfold by apply _. cbn. by rewrite app_nil_r.
    + rewrite loop_unfold by apply _. cbn -[loop]. by rewrite app_nil_r, IHo, <- app_assoc.
  - rewrite loop_unfold by apply _. cbn -[loop]. rewrite IH, <- !app_assoc.
    destruct other as [|b other]; cbn; [|done]. by destruct lead.
Qed.

Lemma by_turns_perm lead other : by_turns lead other ≡ₚ lead ++ other.
Proof.
  revert other. induction lead as [|a lead IH]; intros [|b other]; cbn; rewrite ?app_nil_r; [done..|].
  by rewrite IH, Permutation_middle.
Qed.

Lemma by_turns_filter (f : SocketAddr → bool) lead other :
  forallb f lead = true → forallb (λ a, negb (f a)) other = true →
  List.filter f (by_turns lead other) = lead ∧
  List.filter (λ a, negb (f a)) (by_turns lead other) = other.
Proof.
  assert (keep : ∀ (g : SocketAddr → bool) l, forallb g l = true → List.filter g l = l).
  { intros g l. induction l as [|x l IH]; cbn; [done|].
    intros [-> ?]%andb_true_iff. by rewrite IH. }
  assert (drop : ∀ (g : SocketAddr → bool) l, forallb g l = true → List.filter (λ a, negb (g a)) l = []).
  { intros g l. induction l as [|x l IH]; cbn; [done|].
    intros [-> ?]%andb_true_iff. cbn. auto. }
  assert (drop' : ∀ (g : SocketAddr → bool) l, forallb (λ a, negb (g a)) l = true → List.filter g l = []).
  { intros g l. induction l as [|x l IH]; cbn; [done|].
    intros [Hx ?]%andb_true_iff. destruct (g x); [done|]. auto. }
  revert other. induction lead as [|a lead IH]; intros [|b other] H1 H2.
  - done.
  - split; [by apply drop'|by apply (keep (λ a, negb (f a)))].
  - split; [by apply keep|by apply (drop f)].
  - cbn in *. apply andb_true_iff in H1 as [-> H1], H2 as [H2 H3].
    destruct (IH other H1 H3) as [-> ->]. destruct (f b); [done|]. done.
Qed.

Lemma by_turns_alternate lead other i x :
  (i < 2 * Nat.min (length lead) (length other))%nat → by_turns lead other !! i = Some x →
  if Nat.even i then x ∈ lead else x ∈ other.
Proof.
  revert other i. induction lead as [|a lead IH]; intros [|b other] i Hi Hx; cbn in *; try lia.
  destruct i as [|[|i]]; cbn in *.
  - injection Hx as <-. apply list_elem_of_here.
  - injection Hx as <-. apply list_elem_of_here.
  - apply IH in Hx; [|lia]. destruct (Nat.even i); by apply list_elem_of_further.
Qed.

Lemma forallb_filter {A} (f : A → bool) l : forallb f (List.filter f l) = true.
Proof. induction l as [|x l IH]; cbn; [done|]. destruct (f x) eqn:E; cbn; by rewrite ?E. Qed.

Lemma filter_perm {A} (f : A → bool) l :
  List.filter f l ++ List.filter (λ a, negb (f a)) l ≡ₚ l.
Proof.
  induction l as [|x l IH]; cbn; [done|]. destruct (f x); cbn.
  - by rewrite IH.
  - by rewrite <- Permutation_middle, IH.
Qed.

(** The addresses of one family, in their order. *)
Definition family (v4 : bool) (l : list SocketAddr) : list SocketAddr :=
  List.filter (λ a, Bool.eqb (addr_v4 a) v4) l.

Lemma interleaved_eq first rest (lead := family (addr_v4 first) (first :: rest))
  (other := family (negb (addr_v4 first)) (first :: rest)) :
  interleaved (first :: rest) = by_turns lead other.
Proof.
  unfold interleaved. rewrite interleave_loop. cbn [app]. unfold lead, other, family. f_equal.
  apply filter_ext. intros a. by destruct (addr_v4 a), (addr_v4 first).
Qed.

(** The addresses of a name are tried as RFC 8305 has it: none is lost or
    repeated, each family keeps its own order, and while both families last
    they take turns, the family of the first address first. *)
Theorem interleaved_order first rest (addresses := first :: rest)
  (lead := family (addr_v4 first) addresses) (other := family (negb (addr_v4 first)) addresses) :
  interleaved addresses ≡ₚ addresses ∧
  (∀ v4, family v4 (interleaved addresses) = family v4 addresses) ∧
  (∀ i x, (i < 2 * Nat.min (length lead) (length other))%nat → interleaved addresses !! i = Some x →
     addr_v4 x = xorb (addr_v4 first) (Nat.odd i)).
Proof.
  subst addresses. rewrite interleaved_eq. fold lead other.
  assert (Hother : other = List.filter (λ a, negb (Bool.eqb (addr_v4 a) (addr_v4 first))) (first :: rest)).
  { unfold other, family. apply filter_ext. intros a. by destruct (addr_v4 a), (addr_v4 first). }
  split_and!.
  - rewrite by_turns_perm, Hother. apply (filter_perm (λ a, Bool.eqb (addr_v4 a) (addr_v4 first))).
  - destruct (by_turns_filter (λ a, Bool.eqb (addr_v4 a) (addr_v4 first)) lead other) as [H1 H2].
    { apply forallb_filter. }
    { rewrite Hother. apply forallb_filter. }
    assert (Hn : ∀ l, family (negb (addr_v4 first)) l
      = List.filter (λ a, negb (Bool.eqb (addr_v4 a) (addr_v4 first))) l).
    { intros l. apply filter_ext. intros a. by destruct (addr_v4 a), (addr_v4 first). }
    intros v4. destruct (Bool.bool_dec v4 (addr_v4 first)) as [->|Hv]; [done|].
    assert (v4 = negb (addr_v4 first)) as -> by (by destruct v4, (addr_v4 first)).
    rewrite Hn, H2. done.
  - intros i x Hi Hx. pose proof (by_turns_alternate lead other i x Hi Hx) as H.
    rewrite <- Nat.negb_odd in H. unfold lead, other, family in H.
    destruct (Nat.odd i); cbn -[List.filter] in H; apply list_elem_of_In, filter_In in H as [_ H%Bool.eqb_prop];
      rewrite H; by destruct (addr_v4 first).
Qed.

Lemma interleaved_order_witness :
  let v4a := SockAddr (V4 1) 443 in let v4b := SockAddr (V4 2) 443 in let v6 := SockAddr (V6 3) 443 in
  interleaved [v4a; v4b; v6] = [v4a; v6; v4b] ∧
  addr_v4 v6 = xorb (addr_v4 v4a) (Nat.odd 1).
Proof.
  intros v4a v4b v6. split; [by vm_compute|].
  apply (proj2 (proj2 (interleaved_order v4a [v4b; v6])) 1%nat v6); [vm_compute; lia|by vm_compute].
Defined.

(** ** The race: facts *)

Section race_facts.
Context {T : Type}.
Implicit Types (s : racing) (ev : race_event T) (st : race_state T).

(** How the attempts that finished ended, in order. *)
Definition outcomes (evs : list (race_event T)) : list (T + bytes) :=
  omap (λ ev, match ev with Finished _ o => Some o | Elapsed => None end) evs.

(** Where a race over [addresses] stands after it connected to [started] and
    its attempts ended as [os] says. *)
Definition race_status (addresses started : list SocketAddr) (os : list (T + bytes)) st : Prop :=
  match st with
  | Running s =>
      ∃ errs, os = map inr errs ∧ addresses = started ++ waiting s ∧ attempts s ≠ [] ∧
        length started = (length errs + length (attempts s))%nat ∧ last_error s = last errs
  | Returned (inl t) => ∃ errs, os = map inr errs ++ [inl t] ∧ started `prefix_of` addresses
  | Returned (inr e) =>
      ∃ errs, os = map inr errs ∧ started = addresses ∧ length errs = length addresses ∧
        e = default (lit "no address to connect to") (last errs)
  end.

(** The state between the arms of [select!] and the top of the loop. *)
Definition race_between (addresses started : list SocketAddr) (errs : list bytes) s : Prop :=
  addresses = started ++ waiting s ∧
  length started = (length errs + length (attempts s))%nat ∧ last_error s = last errs.

Lemma start_next_between addresses started errs s more s' :
  race_between addresses started errs s → start_next s = (more, s') →
  race_between addresses (started ++ more) errs s'.
Proof.
  intros (-> & Hl & He). unfold start_next. destruct s as [[|a w] at_ e]; cbn in *; intros [= <- <-].
  - unfold race_between. cbn. by rewrite !app_nil_r.
  - unfold race_between. cbn. rewrite <- app_assoc, !length_app. cbn. split_and!; [done|lia|done].
Qed.

Lemma race_top_status addresses started errs s more st :
  race_between addresses started errs s → race_top s = (more, st) →
  race_status addresses (started ++ more) (map inr errs) st.
Proof.
  intros Hb. unfold race_top. destruct (attempts s) as [|x at_] eqn:Ea; cbn.
  - destruct (waiting s) as [|a w] eqn:Ew.
    + intros [= <- <-]. destruct Hb as (-> & Hl & He). rewrite Ea, Ew in *. cbn in *.
      exists errs. rewrite !app_nil_r. split_and!; [done..|lia|by rewrite He].
    + unfold start_next. rewrite Ew. intros [= <- <-].
      destruct (start_next_between _ _ _ s [a] (Racing w (attempts s ++ [a]) (last_error s)) Hb)
        as (H1 & H2 & H3); [unfold start_next; by rewrite Ew|].
      exists errs. split_and!; [done..| |done|done]. cbn. by destruct (attempts s).
  - intros [= <- <-]. destruct Hb as (H1 & H2 & H3). exists errs.
    rewrite app_nil_r. split_and!; [done..| |done|done]. by rewrite Ea.
Qed.

Lemma race_rest_status addresses started errs s (m1 m2 : list SocketAddr) s' st :
  race_between addresses started errs s → start_next s = (m1, s') → race_top s' = (m2, st) →
  race_status addresses (started ++ m1 ++ m2) (map inr errs) st.
Proof.
  intros Hb E1 E2. rewrite app_assoc.
  eapply race_top_status, E2. eapply start_next_between; eauto.
Qed.

Lemma race_round_status addresses started os s ev more st :
  race_status addresses started os (Running s) → race_round s ev = Some (more, st) →
  race_status addresses (started ++ more) (os ++ outcomes [ev]) st.
Proof.
  intros (errs & -> & Ha & Hat & Hl & He) E. destruct ev as [i o|]; cbn [race_round] in E.
  - destruct (attempts s !! i) as [a|] eqn:Hi; [|done]. destruct o as [t|e].
    + injection E as <- <-. cbn. exists errs. split; [done|]. rewrite app_nil_r, Ha.
      by apply prefix_app_r.
    + destruct (start_next _) as [m1 s1] eqn:E1, (race_top s1) as [m2 st2] eqn:E2.
      injection E as <- <-. cbn. change [inr e] with (map inr [e] : list (T + bytes)).
      rewrite <- map_app. eapply race_rest_status; [|exact E1|exact E2].
      split_and!; cbn; [done| |by rewrite last_snoc].
      pose proof (length_delete (attempts s) i (mk_is_Some _ _ Hi)).
      apply lookup_lt_Some in Hi. rewrite length_app. cbn. lia.
  - destruct (start_next _) as [m1 s1] eqn:E1, (race_top s1) as [m2 st2] eqn:E2.
    injection E as <- <-. cbn. rewrite app_nil_r.
    eapply race_rest_status; [|exact E1|exact E2]. by split_and!.
Qed.

Lemma race_run_status addresses evs : ∀ started os st started' st',
  race_status addresses started os st → race_run evs started st = Some (started', st') →
  race_status addresses started' (os ++ outcomes evs) st'.
Proof.
  induction evs as [|ev evs IH]; intros started os st started' st' Hs E; cbn [race_run] in E.
  - injection E as <- <-. by rewrite app_nil_r.
  - destruct st as [s|r]; [|done].
    destruct (race_round s ev) as [[more st1]|] eqn:E1; [|done].
    pose proof (race_round_status _ _ _ _ _ _ _ Hs E1) as H1.
    apply (IH _ _ _ _ _ H1) in E. rewrite <- app_assoc in E.
    by replace (outcomes (ev :: evs)) with (outcomes [ev] ++ outcomes evs) by (by destruct ev).
Qed.

Lemma race_top_running s : attempts s ≠ [] → race_top (T := T) s = ([], Running s).
Proof. unfold race_top. by destruct (attempts s). Qed.

(** Whatever order the attempts end in, the addresses connected to are an
    initial part of the list; the first attempt to succeed is the answer; an
    error is answered only when every address was tried and failed, and is
    that of the last to fail; and until then some attempt is running, whose
    end, whenever it comes, takes the race on.  Fewer attempts than addresses
    have ended while it runs, so it is over when each has ended once. *)
Theorem race_outcome addresses evs started st :
  race addresses evs = Some (started, st) →
  race_status addresses started (outcomes evs) st ∧
  match st with
  | Running s => (length (outcomes evs) < length addresses)%nat ∧
      ∀ i o, (i < length (attempts s))%nat → is_Some (race_round (T := T) s (Finished i o))
  | Returned _ => True
  end.
Proof.
  intros E. assert (Hst : race_status addresses started (outcomes evs) st).
  { unfold race in E. destruct (race_top _) as [m0 st0] eqn:E0.
    apply (race_top_status addresses [] []) in E0; [|by split_and!].
    exact (race_run_status _ _ _ _ _ _ _ E0 E). }
  split; [done|]. destruct st as [s|]; [|done]. split.
  - destruct Hst as (errs & -> & Ha & Hat & Hl & _). rewrite length_map, Ha, length_app.
    destruct (attempts s); [done|]. cbn in Hl. lia.
  - intros i o Hi. cbn. apply lookup_lt_is_Some in Hi as [a ->]. destruct o; [done|].
    by destruct (start_next _), (race_top _).
Qed.

(** Timer events alone start one address each. *)
Lemma race_elapsed k : ∀ (ws at_ started : list SocketAddr) e, at_ ≠ [] →
  race_run (replicate k Elapsed) started (Running (T := T) (Racing ws at_ e))
  = Some (started ++ take k ws, Running (Racing (drop k ws) (at_ ++ take k ws) e)).
Proof.
  induction k as [|k IH]; intros ws at_ started e Hat; cbn [replicate race_run].
  - by rewrite take_0, drop_0, !app_nil_r.
  - cbn [race_round]. unfold start_next. destruct ws as [|a ws]; cbn [waiting attempts last_error].
    + rewrite race_top_running by done. cbn. rewrite IH by done.
      by rewrite take_nil, drop_nil, !app_nil_r.
    + rewrite race_top_running by (by destruct at_). cbn. rewrite IH by (by destruct at_).
      by rewrite <- !app_assoc.
Qed.

(** Addresses whose packets vanish hold the others up by one delay each:
    when the first [k] of them never answer, after [k] delays the next one is
    being tried beside them, and its connection is the answer. *)
Theorem race_past_silent_addresses addresses k a t :
  addresses !! k = Some a →
  race addresses (replicate k Elapsed ++ [Finished k (inl t : T + bytes)])
  = Some (take (S k) addresses, Returned (inl t)).
Proof.
  intros Hk. destruct addresses as [|first rest]; [done|].
  unfold race, race_top. cbn [attempts waiting is_empty start_next last_error app].
  assert (app_run : ∀ evs evs' started (st : race_state T), race_run (evs ++ evs') started st =
    match race_run evs started st with Some (m, st') => race_run evs' m st' | None => None end).
  { induction evs as [|ev evs IH]; intros evs' started st; [done|]. cbn.
    destruct st; [|done]. destruct (race_round _ _) as [[]|]; [|done]. apply IH. }
  rewrite app_run, race_elapsed by done. cbn [race_run race_round attempts].
  assert (Ha : (first :: take k rest) !! k = Some a).
  { change (first :: take k rest) with (take (S k) (first :: rest)). by rewrite lookup_take_lt by lia. }
  cbn [app]. rewrite Ha. cbn. by rewrite app_nil_r.
Qed.
End race_facts.

Lemma race_outcome_witness :
  let a := SockAddr (V4 1) 443 in let b := SockAddr (V6 2) 443 in
  race_status (T := Z) [a; b] [a; b] [inr (lit "refused"); inr (lit "unreachable")]
    (Returned (inr (lit "unreachable"))).
Proof.
  intros a b. exact (proj1 (race_outcome [a; b]
    [Elapsed; Finished 0 (inr (lit "refused")); Finished 0 (inr (lit "unreachable"))] [a; b]
    (Returned (inr (lit "unreachable"))) eq_refl)).
Defined.

Lemma race_past_silent_addresses_witness :
  let a := SockAddr (V6 1) 443 in let b := SockAddr (V4 2) 443 in
  race [a; b] [Elapsed; Finished 1 (inl 7)] = Some ([a; b], Returned (inl 7)).
Proof. intros a b. exact (race_past_silent_addresses [a; b] 1 b 7 eq_refl). Defined.

(** ** The mark: facts *)

(** A call that puts the socket in touch with the network. *)
Definition reaches (c : syscall) : bool :=
  match c with Connect _ | Bind _ => true | _ => false end.

(** The calls an operation makes once it made the socket: marking first. *)
Lemma marked_first os mark new (rest : sys ()) c before after :
  mark ≠ 0 → reaches c = true → reaches new = false →
  (_ ← call os new; _ ← apply_mark os mark; rest : sys ()).1 = before ++ c :: after →
  SetMark mark ∈ before ∧ os (SetMark mark) = None.
Proof.
  intros Hm%Z.eqb_neq Hc Hn. unfold apply_mark, call. rewrite Hm. cbn.
  destruct (os new); cbn; [destruct before as [|? [|]]; intros; simplify_eq/=; congruence|].
  destruct (os (SetMark mark)); cbn; destruct before as [|? [|? before]]; intros; simplify_eq/=;
    first [congruence | by destruct before | set_solver].
Qed.

(** With a mark in force no socket connects or is bound before it carries
    the mark: when the system refuses to mark it, neither call is made. *)
Theorem no_unmarked_socket os mark address c before after :
  mark ≠ 0 → reaches c = true →
  (tcp_connect os mark address).1 = before ++ c :: after ∨
  (udp_bind os mark address).1 = before ++ c :: after →
  SetMark mark ∈ before ∧ os (SetMark mark) = None.
Proof. intros Hm Hc [H|H]; by eapply marked_first in H. Qed.

Lemma no_unmarked_socket_witness :
  SetMark 255 ∈ [NewTcp true; SetMark 255] ∧ None = @None bytes.
Proof.
  apply (no_unmarked_socket (λ _, None) 255 (SockAddr (V4 1) 443) (Connect (SockAddr (V4 1) 443))
     [NewTcp true; SetMark 255] []);
    [done|reflexivity|left; reflexivity].
Defined.

Example init_ex : init (λ _, None) (λ _, Some (lit " 0xFF ")) = (Some 255, ([NewUdp None; SetMark 255], Ok tt)).
Proof. by vm_compute. Qed.

Example show_hex_ex : show_hex 255 = lit "0xff" ∧ show_hex 0 = lit "0x0".
Proof. by vm_compute. Qed.
