(* ===== verification/Random.v ===== *)
(** * Random draws and hexadecimal text

    What src/aether/src/noize.rs and aethernoize.rs share.  A routine that
    draws random numbers takes the draws as a list and hands back those it
    left ([rnd]); with an empty list the draws are zeros, so a list long enough
    stands for any run of the generator.  The crate hex is a parameter. *)

From S2P Require Import Prelude Text Fragment.

(** ** Random draws *)

Definition rnd (A : Type) : Type := list Z → A * list Z.

#[export] Instance rnd_ret : MRet rnd := λ A a ds, (a, ds).
#[export] Instance rnd_bind : MBind rnd := λ A B f m ds, let '(a, ds) := m ds in f a ds.

(** One number of the generator. *)
Definition draw : rnd Z := λ ds, (hd 0 ds, tl ds).

(** [rng.random_range(lo..=hi)]; an empty range panics. *)
Definition rnd_range (lo hi : Z) : rnd Z := c ← draw; mret (random_range lo hi c).

(** [fill_bytes] of a buffer of [n] bytes. *)
Fixpoint fill_bytes (n : nat) : rnd bytes :=
  match n with
  | O => mret []
  | S n => c ← draw; rest ← fill_bytes n; mret (c mod 256 :: rest)
  end.

(** [n] times the same routine, in order. *)
Fixpoint times {A} (n : nat) (m : rnd A) : rnd (list A) :=
  match n with
  | O => mret []
  | S n => a ← m; rest ← times n m; mret (a :: rest)
  end.

(** ** The crate hex *)

Class HexCrate := hex_decode : bytes → option bytes.

(** [hex::decode] reads two digits for each byte. *)
Class HexCrateOk `{HexCrate} : Prop :=
  hex_decode_ok s b : hex_decode s = Some b → bytes_ok b ∧ blen s = 2 * blen b.

(** [s.chars().filter(|c| !c.is_whitespace()).collect()]. *)
Fixpoint remove_white_go (fuel : nat) (s : bytes) : bytes :=
  match fuel with
  | O => []
  | S fuel =>
      match strip_any white_space s with
      | Some r => remove_white_go fuel r
      | None => match s with [] => [] | x :: s => x :: remove_white_go fuel s end
      end
  end.
Definition remove_white (s : bytes) : bytes := remove_white_go (length s) s.

(** Two hex digits for each byte. *)
Fixpoint raw_hex_go (n : nat) (s : bytes) : option bytes :=
  match n, s with
  | _, [] => Some []
  | S n, a :: b :: r =>
      x ← hex_value a; y ← hex_value b; rest ← raw_hex_go n r; Some (x * 16 + y :: rest)
  | _, _ => None
  end.
#[export] Instance raw_hex : HexCrate := λ s, raw_hex_go (length s) s.

(** ** What random routines produce *)

(** Whatever is drawn, the result satisfies [P]. *)
Definition always {A} (m : rnd A) (P : A → Prop) : Prop := ∀ ds, P (m ds).1.

Lemma always_ret {A} (a : A) (P : A → Prop) : P a → always (mret a) P.
Proof. by intros H ds. Qed.

Lemma always_bind {A B} (m : rnd A) (f : A → rnd B) (P : A → Prop) (Q : B → Prop) :
  always m P → (∀ a, P a → always (f a) Q) → always (m ≫= f) Q.
Proof.
  intros Hm Hf ds. specialize (Hm ds). unfold mbind, rnd_bind.
  destruct (m ds) as [a ds']. by apply Hf.
Qed.

Lemma always_mono {A} (m : rnd A) (P Q : A → Prop) : always m P → (∀ a, P a → Q a) → always m Q.
Proof. intros Hm H ds. apply H, Hm. Qed.

Lemma always_range lo hi : lo ≤ hi → always (rnd_range lo hi) (λ n, lo ≤ n ≤ hi).
Proof.
  intros H ds. change (lo ≤ lo + hd 0 ds mod (hi - lo + 1) ≤ hi).
  pose proof (Z.mod_pos_bound (hd 0 ds) (hi - lo + 1) ltac:(lia)). lia.
Qed.

Lemma always_fill n : always (fill_bytes n) (λ b, bytes_ok b ∧ blen b = Z.of_nat n).
Proof.
  induction n as [|n IH]; cbn [fill_bytes]; [apply always_ret; by split; [constructor|]|].
  eapply (always_bind _ _ (λ _, True)); [by intros ds|]. intros c _.
  eapply always_bind; [exact IH|]. intros rest [Hr Hl]. apply always_ret. split; [|blia].
  constructor; [|done]. pose proof (Z.mod_pos_bound c 256). unfold u8. lia.
Qed.

Lemma always_times {A} n (m : rnd A) P :
  always m P → always (times n m) (λ l, Forall P l ∧ length l = n).
Proof.
  intros Hm. induction n as [|n IH]; cbn [times]; [apply always_ret; by split; [constructor|]|].
  eapply always_bind; [exact Hm|]. intros a Ha. eapply always_bind; [exact IH|].
  intros rest [? ?]. apply always_ret. split; [by constructor|cbn; lia].
Qed.

Lemma remove_white_graphic s : forallb graphic s = true → remove_white s = s.
Proof.
  unfold remove_white. induction s as [|x s IH]; [done|]. cbn [forallb length].
  intros [Hx Hs]%andb_true_iff. cbn [remove_white_go].
  rewrite strip_any_graphic; [|by_decision|cbn; by rewrite Hx]. by rewrite IH.
Qed.

#[export] Instance raw_hex_ok : HexCrateOk.
Proof.
  intros s b. unfold hex_decode, raw_hex. generalize (length s) as n. intros n.
  revert s b. induction n as [|n IH]; intros [|x [|y s]] b; try done;
    try by intros [= <-]; split; [constructor|].
  cbn. destruct (hex_value x) as [u|] eqn:Ex; [cbn|done].
  destruct (hex_value y) as [v|] eqn:Ey; [cbn|done].
  destruct (raw_hex_go n s) as [r|] eqn:E; [cbn|done].
  intros [= <-]. apply IH in E as [? ?].
  assert (∀ d k, hex_value d = Some k → 0 ≤ k < 16) as Hv.
  { intros d k. unfold hex_value, is_ascii_digit. repeat case_match; intros [= <-]; lia. }
  apply Hv in Ex, Ey. split; [constructor; [unfold u8; lia|done]|blia].
Qed.
