(* ===== verification/Noize.v ===== *)
(** * Obfuscation ahead of a QUIC handshake

    src/aether/src/noize.rs: the profiles, the packet language
    ("<b hex><t><r 24>"), junk of random size, and the packets sent ahead of
    the handshake, in order.  The clock is an argument; sleeps between packets
    are left out. *)

From stdpp Require Import strings.
From S2P Require Import Prelude Text Net Error Fragment Upstream Random.

Record NoizeConfig := {
  jc_before_hs : Z;
  jc_after_i1 : Z;
  jmin : Z;
  jmax : Z;
  i1 : option bytes;
  i2 : option bytes;
  junk_interval : Z;
}.

Definition off : NoizeConfig :=
  {| jc_before_hs := 0; jc_after_i1 := 0; jmin := 0; jmax := 0; i1 := None; i2 := None;
     junk_interval := 0 |}.

Definition firewall : NoizeConfig :=
  {| jc_before_hs := 2; jc_after_i1 := 2; jmin := 48; jmax := 190;
     i1 := Some (lit "<b 0d0a0d0a><t><r 24>"); i2 := Some (lit "<r 48>"); junk_interval := 4 |}.

Definition light : NoizeConfig :=
  {| jc_before_hs := 1; jc_after_i1 := 0; jmin := 32; jmax := 96;
     i1 := Some (lit "<b 0d0a0d0a><t><r 16>"); i2 := None; junk_interval := 3 |}.

Definition gfw : NoizeConfig :=
  {| jc_before_hs := 2; jc_after_i1 := 1; jmin := 64; jmax := 256;
     i1 := Some (lit "<b 0d0a0d0a><t><r 24>"); i2 := Some (lit "<r 32>"); junk_interval := 5 |}.

Definition is_enabled (c : NoizeConfig) : bool :=
  (jc_before_hs c >? 0) || (jc_after_i1 c >? 0) || match i1 c with Some _ => true | None => false end.

Definition from_profile (name : bytes) : NoizeConfig :=
  if str_eqb name (lit "off") || str_eqb name (lit "none") then off
  else if str_eqb name (lit "light") then light
  else if str_eqb name (lit "gfw") || str_eqb name (lit "aggressive") || str_eqb name (lit "heavy")
  then gfw
  else firewall.

Definition junk_packet (cfg : NoizeConfig) : rnd bytes :=
  let '(lo, hi) := if (jmax cfg >? jmin cfg) && (jmin cfg >? 0) then (jmin cfg, jmax cfg) else (40, 90) in
  size ← rnd_range lo hi;
  fill_bytes (Z.to_nat size).

(** What one tag adds to the packet. *)
Definition tag_bytes `{HexCrate} `{w : arch} (now : Z) (tag data : bytes) : rnd bytes :=
  if str_eqb tag (lit "b") then mret (default [] (hex_decode (remove_white data)))
  else if str_eqb tag (lit "t") then mret (be_bytes 4 (as_u32 now))
  else if str_eqb tag (lit "n") then nonce ← draw; mret (be_bytes 8 nonce)
  else if str_eqb tag (lit "r") then
    let len := Z.min (default 0 (parse_uint (usize_max w) data)) 1024 in
    if len >? 0 then fill_bytes (Z.to_nat len) else mret []
  else mret [].

(** One round of the loop of [parse_cps] on the state of [i], [out] and the
    generator. *)
Definition cps_step `{HexCrate} `{w : arch} (now : Z) (spec : bytes) (s : Z * bytes * list Z)
  : round (Z * bytes * list Z) (comp () (bytes * list Z)) :=
  let '(i, out, ds) := s in
  if negb (i <? blen spec) then Done (Ok (out, ds))
  else
    match index spec i with
    | Ok b =>
        if negb (b =? 60) then Next (i + 1, out, ds)
        else
          match index_range spec i (blen spec) with
          | Ok tail =>
              match find (lit ">") tail with
              | None => Done (Ok (out, ds))
              | Some e =>
                  let end_ := i + e in
                  match index_range spec (i + 1) end_ with
                  | Ok inner =>
                      let '(tag, data) := split_ws_once (trim inner) in
                      let data := trim (default [] data) in
                      let '(more, ds) := tag_bytes now tag data ds in
                      Next (end_ + 1, out ++ more, ds)
                  | Err e => Done (Err e)
                  | Panic => Done Panic
                  end
              end
          | Err e => Done (Err e)
          | Panic => Done Panic
          end
    | Err e => Done (Err e)
    | Panic => Done Panic
    end.

Definition cps_measure (spec : bytes) (s : Z * bytes * list Z) : nat :=
  Z.to_nat (blen spec - s.1.1).

(** [parse_cps] on the draws [ds]. *)
Definition parse_cps `{HexCrate} `{w : arch} (now : Z) (spec : bytes) (ds : list Z)
  : comp () (bytes * list Z) :=
  loop (cps_measure spec) (cps_step now spec) (Ok ([], ds)) (0, [], ds).

(** The signature packet of a specification, when it has one and it is not
    empty; a panic of the parser is kept apart. *)
Definition signature `{HexCrate} `{w : arch} (now : Z) (spec : option bytes) (ds : list Z)
  : comp () (list bytes * list Z) :=
  match spec with
  | None => Ok ([], ds)
  | Some s =>
      '(pkt, ds) ← parse_cps now s ds;
      mret (if is_empty pkt then [] else [pkt], ds)
  end.

(** [send_junk]: where a packet goes; [None] over a connected socket. *)
Definition send_junk (st : detours) (connected : bool) (local : option SocketAddr) (peer : SocketAddr)
  : option SocketAddr :=
  if connected then None
  else Some (match local with Some local => relay_target st local peer | None => peer end).

(** [pre_handshake]: the packets handed to [send_junk], in order.  A failed
    send is logged and the routine goes on. *)
Definition pre_handshake `{HexCrate} `{w : arch} (cfg : NoizeConfig) (now : Z) (ds : list Z)
  : comp () (list bytes * list Z) :=
  if negb (is_enabled cfg) then Ok ([], ds)
  else
    let '(before, ds) := times (Z.to_nat (jc_before_hs cfg)) (junk_packet cfg) ds in
    '(s1, ds) ← signature now (i1 cfg) ds;
    let '(after, ds) := times (Z.to_nat (jc_after_i1 cfg)) (junk_packet cfg) ds in
    '(s2, ds) ← signature now (i2 cfg) ds;
    mret (before ++ s1 ++ after ++ s2, ds).


(** ** The packet language *)

Lemma split_ws_once_graphic a s :
  forallb graphic a = true → split_ws_once (a ++ 32 :: s) = (a, Some s).
Proof.
  induction a as [|x a IH]; cbn [app forallb].
  - intros _. cbn. done.
  - intros [Hx Ha]%andb_true_iff. cbn [split_ws_once].
    rewrite strip_any_graphic; [|by_decision|cbn; by rewrite Hx]. by rewrite IH.
Qed.

Lemma split_ws_once_word a : forallb graphic a = true → split_ws_once a = (a, None).
Proof.
  induction a as [|x a IH]; [done|]. cbn [forallb].
  intros [Hx Ha]%andb_true_iff. cbn [split_ws_once].
  rewrite strip_any_graphic; [|by_decision|cbn; by rewrite Hx]. by rewrite IH.
Qed.

Lemma find_char_app c a b : forallb (λ x, negb (x =? c)) a = true → find [c] (a ++ c :: b) = Some (blen a).
Proof.
  intros Ha. unfold find. change (split_at_first [c] (a ++ c :: b)) with (split_once c (a ++ c :: b)).
  by rewrite split_once_app.
Qed.

(** The tags of a specification, their text and what they stand for. *)
Inductive tag :=
| Bytes (hex : bytes)
| Time
| Nonce
| Random (n : Z).

Definition tag_ok (t : tag) : Prop :=
  match t with
  | Bytes hex => hex ≠ [] ∧ forallb is_ascii_alphanumeric hex = true
  | Random n => 0 ≤ n < 2 ^ 32
  | _ => True
  end.

Definition show_tag (t : tag) : bytes :=
  match t with
  | Bytes hex => lit "<b " ++ hex ++ lit ">"
  | Time => lit "<t>"
  | Nonce => lit "<n>"
  | Random n => lit "<r " ++ decimal n ++ lit ">"
  end.

Definition tag_value `{HexCrate} (now : Z) (t : tag) : rnd bytes :=
  match t with
  | Bytes hex => mret (default [] (hex_decode hex))
  | Time => mret (be_bytes 4 (now mod 2 ^ 32))
  | Nonce => c ← draw; mret (be_bytes 8 c)
  | Random n => fill_bytes (Z.to_nat (Z.min n 1024))
  end.

(** A specification: tags, each after some text that opens no tag. *)
Fixpoint show_spec (items : list (bytes * tag)) (rest : bytes) : bytes :=
  match items with
  | [] => rest
  | (text, t) :: items => text ++ show_tag t ++ show_spec items rest
  end.

Fixpoint spec_value `{HexCrate} (now : Z) (items : list (bytes * tag)) : rnd bytes :=
  match items with
  | [] => mret []
  | (_, t) :: items => a ← tag_value now t; b ← spec_value now items; mret (a ++ b)
  end.

Definition no_open (text : bytes) : Prop := forallb (λ x, negb (x =? 60)) text = true.

Section facts.
Context `{HexCrate} `{w : arch} (now : Z) (spec : bytes).

#[export] Instance cps_decreasing : Decreasing (cps_measure spec) (cps_step now spec).
Proof.
  intros [[i out] ds] s'. unfold cps_step, cps_measure. destruct (Z.ltb_spec i (blen spec)); [|done].
  cbn [negb]. destruct (index spec i) as [b| |]; [|done..].
  destruct (b =? 60); cbn [negb]; [|intros [= <-]; cbn [fst]; lia].
  destruct (index_range spec i _) as [tail| |]; [|done..].
  destruct (find (lit ">") tail) as [e|] eqn:E; [|done]. apply find_bounds in E.
  destruct (index_range spec (i + 1) _) as [inner| |]; [|done..].
  destruct (split_ws_once _) as [tg data], (tag_bytes _ _ _ _) as [more ds2].
  intros [= <-]. cbn [fst]. lia.
Qed.

Definition run (s : Z * bytes * list Z) : comp () (bytes * list Z) :=
  loop (cps_measure spec) (cps_step now spec) (Ok ([], [])) s.

Lemma run_skip i x r out ds :
  x ≠ 60 → suffix_at spec i (x :: r) → run (i, out, ds) = run (i + 1, out, ds).
Proof.
  intros Hx Hs. unfold run. rewrite loop_unfold by apply _. unfold cps_step at 1.
  pose proof (suffix_at_len _ _ _ Hs) as Hl. autorewrite with blen in Hl. pose proof (blen_nonneg r).
  destruct (Z.ltb_spec i (blen spec)); [|lia]. cbn [negb]. unfold index.
  rewrite (suffix_at_get _ _ _ _ Hs). cbn. apply Z.eqb_neq in Hx. by rewrite Hx.
Qed.

Lemma run_text text : ∀ i r out ds, no_open text → suffix_at spec i (text ++ r) →
  run (i, out, ds) = run (i + blen text, out, ds).
Proof.
  induction text as [|x text IH]; intros i r out ds Ht Hs.
  - by rewrite blen_nil, Z.add_0_r.
  - unfold no_open in Ht. cbn in Ht. apply andb_true_iff in Ht as [Hx%negb_true_iff%Z.eqb_neq Ht].
    rewrite (run_skip i x (text ++ r)) by done. rewrite (IH _ r) by eauto with rust.
    rewrite blen_cons. do 3 f_equal. lia.
Qed.

Lemma run_tag i inner r out ds :
  forallb (λ x, negb (x =? 62)) inner = true → suffix_at spec i (60 :: inner ++ 62 :: r) →
  run (i, out, ds) =
    let '(tg, data) := split_ws_once (trim inner) in
    let '(more, ds') := tag_bytes now tg (trim (default [] data)) ds in
    run (i + 2 + blen inner, out ++ more, ds').
Proof.
  intros Hi Hs. unfold run at 1. rewrite loop_unfold by apply _. unfold cps_step at 1.
  pose proof (suffix_at_len _ _ _ Hs) as Hl. pose proof (suffix_at_nonneg _ _ _ Hs).
  autorewrite with blen in Hl. blen_pos.
  destruct (Z.ltb_spec i (blen spec)); [|lia]. cbn [negb]. unfold index, index_range.
  rewrite (suffix_at_get _ _ _ _ Hs). cbn -[find].
  rewrite (suffix_at_slice spec i (60 :: inner ++ 62 :: r) []); [|by rewrite app_nil_r|blia].
  cbn -[find]. change (60 :: inner ++ 62 :: r) with ((60 :: inner) ++ 62 :: r).
  rewrite find_char_app by done.
  rewrite (suffix_at_slice spec (i + 1) inner (62 :: r)); [|by apply suffix_at_cons in Hs|blia].
  cbn [or_panic]. destruct (split_ws_once _) as [tg data], (tag_bytes _ _ _ _) as [more ds2].
  unfold run. by replace (i + blen (60 :: inner) + 1) with (i + 2 + blen inner) by blia.
Qed.

Lemma run_end i out ds : suffix_at spec i [] → run (i, out, ds) = Ok (out, ds).
Proof.
  intros Hs. apply suffix_at_len in Hs. rewrite blen_nil in Hs. unfold run.
  rewrite loop_unfold by apply _. unfold cps_step at 1. destruct (Z.ltb_spec i (blen spec)); [lia|done].
Qed.
End facts.

Lemma alnum_graphic s : forallb is_ascii_alphanumeric s = true → forallb graphic s = true.
Proof.
  apply forallb_impl. intros x. unfold is_ascii_alphanumeric, is_ascii_alphabetic, is_ascii_uppercase,
    is_ascii_lowercase, is_ascii_digit, graphic. lia.
Qed.

Lemma alnum_not_close s : forallb is_ascii_alphanumeric s = true → forallb (λ x, negb (x =? 62)) s = true.
Proof.
  apply forallb_impl. intros x. unfold is_ascii_alphanumeric, is_ascii_alphabetic, is_ascii_uppercase,
    is_ascii_lowercase, is_ascii_digit. lia.
Qed.

(** A tag with data: what [parse_cps] reads between the brackets. *)
Lemma inner_data c data :
  graphic c = true → data ≠ [] → forallb graphic data = true →
  split_ws_once (trim (c :: 32 :: data)) = ([c], Some data) ∧ trim data = data.
Proof.
  intros Hc Hd Hg. split; [|by apply trim_graphic].
  change (c :: 32 :: data) with ([c; 32] ++ data).
  rewrite trim_graphic_end; [|done..|cbn; by rewrite Hc].
  apply (split_ws_once_graphic [c] data). cbn. by rewrite Hc.
Qed.

(** A tag is its brackets around a text with no closing one, read as the tag. *)
Lemma show_tag_inner `{HexCrate} `{w : arch} now t :
  tag_ok t →
  ∃ inner, (∀ r, show_tag t ++ r = 60 :: inner ++ 62 :: r) ∧
    forallb (λ x, negb (x =? 62)) inner = true ∧
    let '(tg, data) := split_ws_once (trim inner) in
    tag_bytes now tg (trim (default [] data)) = tag_value now t.
Proof.
  assert (Hu : 2 ^ 32 - 1 ≤ usize_max w) by (destruct w; unfold usize_max; cbn; lia).
  destruct t as [hex| | |n]; cbn [tag_ok show_tag].
  - intros [Hn Hh]. exists (98 :: 32 :: hex). split_and!.
    + intros r. cbn. by rewrite <- app_assoc.
    + cbn. by apply alnum_not_close.
    + apply alnum_graphic in Hh. destruct (inner_data 98 hex) as [-> E]; [done..|].
      change (default [] (Some hex)) with hex. rewrite E. unfold tag_bytes, tag_value.
      cbn -[remove_white]. by rewrite remove_white_graphic.
  - intros _. exists [116]. split_and!; [done..|].
    by replace (split_ws_once (trim [116])) with ([116], @None (list Z)) by (by vm_compute).
  - intros _. exists [110]. split_and!; [done..|].
    by replace (split_ws_once (trim [110])) with ([110], @None (list Z)) by (by vm_compute).
  - intros Hn. destruct (decimal_spec n) as (Hne & Hd & _); [lia|].
    assert (Hg : forallb is_ascii_alphanumeric (decimal n) = true).
    { eapply forallb_impl, Hd. intros x Hx. unfold is_ascii_alphanumeric. by rewrite Hx, orb_true_r. }
    exists (114 :: 32 :: decimal n). split_and!.
    + intros r. cbn. by rewrite <- app_assoc.
    + cbn. by apply alnum_not_close.
    + apply alnum_graphic in Hg. destruct (inner_data 114 (decimal n)) as [-> E]; [done..|].
      change (default [] (Some (decimal n))) with (decimal n). rewrite E.
      unfold tag_bytes, tag_value. rewrite parse_decimal by lia. cbn -[Z.min].
      destruct (Z.min n 1024 >? 0) eqn:Hz; [done|].
      replace (Z.to_nat (Z.min n 1024)) with 0%nat by lia. done.
Qed.

Section spec.
Context `{HexCrate} `{w : arch} (now : Z).

Lemma run_spec spec rest items : ∀ i out ds, Forall (λ p, no_open p.1 ∧ tag_ok p.2) items → no_open rest →
  suffix_at spec i (show_spec items rest) →
  run now spec (i, out, ds) = Ok (out ++ (spec_value now items ds).1, (spec_value now items ds).2).
Proof.
  induction items as [|[text t] items IH]; intros i out ds Hi Hr Hs; cbn [show_spec] in Hs.
  - rewrite (run_text _ _ rest i []), run_end; [|by apply (suffix_at_app _ _ rest []); rewrite app_nil_r
      |done|by rewrite app_nil_r]. cbn. by rewrite app_nil_r.
  - apply Forall_cons in Hi as [[Ht Hok] Hi]. cbn in Ht, Hok.
    rewrite (run_text _ _ text i _ _ _ Ht Hs). apply suffix_at_app in Hs.
    destruct (show_tag_inner now t Hok) as (inner & E & Hin & Htag). rewrite E in Hs.
    rewrite (run_tag _ _ _ inner _ _ _ Hin Hs).
    destruct (split_ws_once _) as [tg data]. rewrite Htag. cbn [spec_value].
    destruct (tag_value now t ds) as [more ds'] eqn:Ev.
    rewrite IH; [|done..|].
    + unfold mbind, rnd_bind. rewrite Ev. destruct (spec_value now items ds') as [b ds2].
      cbn. by rewrite app_assoc.
    + change (60 :: inner ++ 62 :: show_spec items rest)
        with ((60 :: inner) ++ 62 :: show_spec items rest) in Hs.
      apply suffix_at_app, suffix_at_cons in Hs. by replace (i + blen text + 2 + blen inner)
        with (i + blen text + blen (60 :: inner) + 1) by blia.
Qed.

(** The packet a specification stands for: for any sequence of tags, with
    any text that opens no tag between and after them, [parse_cps] gives the
    concatenation of what the tags stand for, in order: the bytes of a hex
    string, the time, a nonce, up to 1024 random bytes. *)
Theorem parse_cps_spec items rest ds :
  Forall (λ p, no_open p.1 ∧ tag_ok p.2) items → no_open rest →
  parse_cps now (show_spec items rest) ds = Ok (spec_value now items ds).
Proof.
  intros Hi Hr. unfold parse_cps.
  rewrite (loop_default _ _ _ (Ok ([], []))).
  change (run now (show_spec items rest) (0, [], ds) = Ok (spec_value now items ds)).
  rewrite (run_spec _ rest items) by eauto with rust. by destruct (spec_value now items ds).
Qed.
End spec.

Lemma parse_cps_spec_witness :
  parse_cps (w := W32) 1 (lit "x<b 0d0a>y<t><r 2>z") [7; 8]
  = Ok ([13; 10; 0; 0; 0; 1; 7; 8], []).
Proof.
  exact (parse_cps_spec (w := W32) 1 [(lit "x", Bytes (lit "0d0a")); (lit "y", Time); ([], Random 2)]
    (lit "z") [7; 8] ltac:(repeat constructor; done) ltac:(done)).
Defined.

(** ** The packets of the profiles *)

Section profiles.
Context `{HexCrate, !HexCrateOk} `{w : arch} (now : Z).

Lemma junk_packet_size cfg :
  0 ≤ jmin cfg → always (junk_packet cfg) (λ p, bytes_ok p ∧ 1 ≤ blen p ≤ Z.max (jmax cfg) 90).
Proof.
  intros Hm. unfold junk_packet.
  set (r := if _ : bool then _ else _).
  assert (1 ≤ r.1 ∧ r.1 ≤ r.2 ≤ Z.max (jmax cfg) 90) as [H1 H2].
  { unfold r. destruct (jmax cfg >? jmin cfg) eqn:E1, (jmin cfg >? 0) eqn:E2; cbn; lia. }
  destruct r as [lo hi]. cbn [fst snd] in *. eapply always_bind; [apply always_range; lia|].
  intros size [? ?]. eapply always_mono; [apply always_fill|]. cbv beta. intros p [? ?]. split; [done|lia].
Qed.

Lemma always_tag_value t : tag_ok t →
  always (tag_value now t) (λ b, bytes_ok b ∧ blen b ≤ match t with
    | Bytes hex => blen hex | Time => 4 | Nonce => 8 | Random n => n end ∧ match t with
    | Bytes hex => True | Time => 4 ≤ blen b | Nonce => 8 ≤ blen b | Random n => Z.min n 1024 ≤ blen b end).
Proof.
  destruct t as [hex| | |n]; intros Hok; cbn [tag_value tag_ok] in *.
  - apply always_ret. destruct (hex_decode hex) as [b|] eqn:E; cbn.
    + apply hex_decode_ok in E as [? ?]. split_and!; [done|blia|done].
    + split_and!; [constructor|blia|done].
  - apply always_ret. split; [apply be_bytes_ok|]. rewrite blen_be_bytes. lia.
  - eapply (always_bind _ _ (λ _, True)); [by intros ?|]. intros c _. apply always_ret.
    split; [apply be_bytes_ok|]. rewrite blen_be_bytes. lia.
  - eapply always_mono; [apply always_fill|]. cbv beta. intros b [? ?]. split; [done|lia].
Qed.

(** A tag of fixed bytes, the time and [n] random bytes, and [n] random bytes
    alone: the two shapes the profiles use. *)
Lemma signature_time hex n : tag_ok (Bytes hex) → 0 ≤ n < 2 ^ 32 →
  ∀ ds, ∃ p ds', signature now (Some (show_spec [([], Bytes hex); ([], Time); ([], Random n)] [])) ds
    = Ok ([p], ds') ∧ bytes_ok p ∧ 1 ≤ blen p ≤ blen hex + 4 + n.
Proof.
  intros Hh Hn ds. unfold signature.
  rewrite parse_cps_spec; [|repeat constructor; cbn; solve [done|apply Hh|lia]|done].
  set (v := spec_value _ _). assert (Hv : always v (λ b, bytes_ok b ∧ 1 ≤ blen b ≤ blen hex + 4 + n)).
  { unfold v. cbn [spec_value]. eapply always_bind; [by apply always_tag_value|]. intros a (? & ? & _).
    eapply always_bind.
    { eapply always_bind; [by apply (always_tag_value Time)|]. intros b (? & ? & ?).
      eapply (always_bind _ _ (λ c, bytes_ok c ∧ blen c ≤ n)).
      { eapply always_bind; [by apply (always_tag_value (Random n))|]. intros c (? & ? & ?).
        eapply (always_bind _ _ (λ d, d = [])); [by apply always_ret|]. intros d ->.
        apply always_ret. by rewrite app_nil_r. }
      intros c [? ?]. apply always_ret.
      instantiate (1 := λ b, bytes_ok b ∧ 4 ≤ blen b ≤ 4 + n). cbn.
      split; [by apply Forall_app|blia]. }
    cbv beta. intros b (? & ? & ?). apply always_ret. split; [by apply Forall_app|blia]. }
  specialize (Hv ds). destruct (v ds) as [p ds'] eqn:E. cbn [fst] in Hv. cbn.
  exists p, ds'. destruct p as [|x p]; [rewrite blen_nil in Hv; lia|]. by destruct Hv.
Qed.

Lemma signature_random n : 0 < n < 2 ^ 32 →
  ∀ ds, ∃ p ds', signature now (Some (show_spec [([], Random n)] [])) ds = Ok ([p], ds')
    ∧ bytes_ok p ∧ 1 ≤ blen p ≤ n.
Proof.
  intros Hn ds. unfold signature.
  rewrite parse_cps_spec; [|repeat constructor; cbn; solve [done|lia]|done].
  set (v := spec_value _ _). assert (Hv : always v (λ b, bytes_ok b ∧ 1 ≤ blen b ≤ n)).
  { unfold v. cbn [spec_value]. eapply always_bind; [apply (always_tag_value (Random n)); cbn; lia|].
    cbv beta. intros a (? & ? & ?). eapply (always_bind _ _ (λ d, d = [])); [by apply always_ret|].
    intros d ->. apply always_ret. rewrite app_nil_r. split; [done|lia]. }
  specialize (Hv ds). destruct (v ds) as [p ds'] eqn:E. cbn [fst] in Hv. cbn.
  exists p, ds'. destruct p as [|x p]; [rewrite blen_nil in Hv; lia|]. by destruct Hv.
Qed.

(** What a routine may send: packets of 1 to 256 bytes. *)
Definition small (p : bytes) : Prop := bytes_ok p ∧ 1 ≤ blen p ≤ 256.

Lemma pre_handshake_packets cfg (s1 s2 : list Z → list bytes * list Z) :
  0 ≤ jmin cfg → jmax cfg ≤ 256 → is_enabled cfg = true →
  (∀ ds, signature now (i1 cfg) ds = Ok (s1 ds)) → (∀ ds, signature now (i2 cfg) ds = Ok (s2 ds)) →
  always s1 (Forall small) → always s2 (Forall small) →
  ∀ ds, ∃ pkts ds', pre_handshake cfg now ds = Ok (pkts, ds') ∧ Forall small pkts.
Proof.
  intros Hm Hx He E1 E2 H1 H2 ds. unfold pre_handshake. rewrite He. cbn [negb].
  assert (Hj : ∀ n, always (times n (junk_packet cfg)) (Forall small)).
  { intros n. eapply always_mono; [apply always_times, junk_packet_size; done|].
    cbv beta. intros l [Hl _]. eapply Forall_impl; [exact Hl|]. intros p [? ?]. split; [done|lia]. }
  pose proof (Hj (Z.to_nat (jc_before_hs cfg)) ds) as Hb.
  destruct (times _ _ ds) as [before ds1]. rewrite E1. cbn.
  pose proof (H1 ds1) as Hs1. destruct (s1 ds1) as [l1 ds2].
  pose proof (Hj (Z.to_nat (jc_after_i1 cfg)) ds2) as Ha.
  destruct (times _ _ ds2) as [after ds3]. rewrite E2. cbn.
  pose proof (H2 ds3) as Hs2. destruct (s2 ds3) as [l2 ds4]. cbn in *.
  eexists _, _. split; [done|]. by rewrite !Forall_app.
Qed.

(** A signature known to be one small packet, as a routine of its own. *)
Lemma signature_total spec P :
  (∀ ds, ∃ p ds', signature now spec ds = Ok ([p], ds') ∧ P p) → (∀ p, P p → small p) →
  ∃ s, (∀ ds, signature now spec ds = Ok (s ds)) ∧ always s (Forall small).
Proof.
  intros Hs HP. exists (λ ds, match signature now spec ds with Ok r => r | _ => ([], ds) end). split.
  - intros ds. destruct (Hs ds) as (p & ds' & -> & _). done.
  - intros ds. destruct (Hs ds) as (p & ds' & -> & Hp). cbn. constructor; [by apply HP|constructor].
Qed.
End profiles.

(** Whatever profile is named and whatever is drawn, the packets sent ahead
    of the handshake are built without a panic and each has between 1 and 256
    bytes; the profile that turns obfuscation off sends none. *)
Theorem profile_packets_small `{HexCrate, !HexCrateOk} `{w : arch} (name : bytes) (now : Z) (ds : list Z) :
  ∃ pkts ds', pre_handshake (from_profile name) now ds = Ok (pkts, ds') ∧ Forall small pkts ∧
    (name = lit "off" ∨ name = lit "none" → pkts = []).
Proof.
  assert (Htime : ∀ n, 0 ≤ n ≤ 100 → ∃ s, (∀ ds, signature now
      (Some (show_spec [([], Bytes (lit "0d0a0d0a")); ([], Time); ([], Random n)] [])) ds = Ok (s ds))
      ∧ always s (Forall small)).
  { intros n Hn. eapply signature_total; [apply signature_time; [by split|lia]|].
    cbv beta. intros p [? ?]. split; [done|]. change (blen (lit "0d0a0d0a")) with 8 in *. lia. }
  assert (Hrand : ∀ n, 0 < n ≤ 100 → ∃ s, (∀ ds, signature now
      (Some (show_spec [([], Random n)] [])) ds = Ok (s ds)) ∧ always s (Forall small)).
  { intros n Hn. eapply signature_total; [apply signature_random; lia|].
    cbv beta. intros p [? ?]. split; [done|lia]. }
  destruct (Htime 24) as (t24 & Et24 & Ht24); [lia|]. destruct (Htime 16) as (t16 & Et16 & Ht16); [lia|].
  destruct (Hrand 48) as (r48 & Er48 & Hr48); [lia|]. destruct (Hrand 32) as (r32 & Er32 & Hr32); [lia|].
  assert (Hoff : name = lit "off" ∨ name = lit "none" → from_profile name = off).
  { by intros [->| ->]. }
  unfold from_profile in *. destruct (str_eqb name (lit "off") || str_eqb name (lit "none")).
  { exists [], ds. split_and!; [done|constructor|done]. }
  assert (Hon : ∀ cfg, (name = lit "off" ∨ name = lit "none" → cfg = off) → cfg ≠ off →
    (∃ pkts ds', pre_handshake cfg now ds = Ok (pkts, ds') ∧ Forall small pkts) →
    ∃ pkts ds', pre_handshake cfg now ds = Ok (pkts, ds') ∧ Forall small pkts ∧
      (name = lit "off" ∨ name = lit "none" → pkts = [])).
  { intros cfg Ho Hne (pkts & ds' & E & Hp). exists pkts, ds'. split_and!; [done..|].
    intros Hn. by apply Ho in Hn. }
  destruct (str_eqb name (lit "light")).
  { apply Hon; [done..|]. apply (pre_handshake_packets now light t16 (λ ds, ([], ds)));
      [cbn; lia|cbn; lia|done|exact Et16|done|done|intros ?; constructor]. }
  destruct (_ || _).
  { apply Hon; [done..|]. apply (pre_handshake_packets now gfw t24 r32);
      [cbn; lia|cbn; lia|done|exact Et24|exact Er32|done|done]. }
  apply Hon; [done..|]. apply (pre_handshake_packets now firewall t24 r48);
    [cbn; lia|cbn; lia|done|exact Et24|exact Er48|done|done].
Qed.

Lemma profile_packets_small_witness :
  ∃ pkts ds', pre_handshake (w := W32) (from_profile (lit "gfw")) 1 [] = Ok (pkts, ds')
    ∧ Forall small pkts ∧ (lit "gfw" = lit "off" ∨ lit "gfw" = lit "none" → pkts = []).
Proof. exact (profile_packets_small (w := W32) (lit "gfw") 1 []). Defined.
