(* ===== verification/AetherNoize.v ===== *)
(** * Obfuscation around a WireGuard session

    src/aether/src/aethernoize.rs: the profiles, the packet language with its
    counter, the IKEv2 frame, junk, and the packets each routine sends, in
    order.  The clock is an argument, the counter of the "c" tag a state, the
    crate regex a parameter; sleeps between packets are left out. *)

From stdpp Require Import strings.
From S2P Require Import Prelude Text Fragment Random.

(** The crate regex on the pattern of a tag (letters a-z after an opening
    angle bracket, white space, then anything up to the closing bracket): the
    two groups of every match, in order. *)
Class TagRegex := tag_captures : bytes → list (bytes * bytes).

Record AetherNoizeConfig := {
  i1 : option bytes;
  i2 : option bytes;
  i3 : option bytes;
  i4 : option bytes;
  i5 : option bytes;
  jc : Z;
  jc_before_hs : Z;
  jc_after_i1 : Z;
  jc_after_hs : Z;
  jmin : Z;
  jmax : Z;
  junk_interval : Z;
  handshake_delay : Z;
  allow_zero_size : bool;
}.

Definition off : AetherNoizeConfig :=
  {| i1 := None;
     i2 := None;
     i3 := None;
     i4 := None;
     i5 := None;
     jc := 0; jc_before_hs := 0; jc_after_i1 := 0; jc_after_hs := 0;
     jmin := 0; jmax := 0; junk_interval := 0; handshake_delay := 0;
     allow_zero_size := false |}.

Definition light : AetherNoizeConfig :=
  {| i1 := Some (lit "<b 0d0a0d0a><t><r 20-32>");
     i2 := Some (lit "<rc 24-48>");
     i3 := None;
     i4 := None;
     i5 := None;
     jc := 4; jc_before_hs := 2; jc_after_i1 := 1; jc_after_hs := 1;
     jmin := 48; jmax := 190; junk_interval := 3; handshake_delay := 5;
     allow_zero_size := false |}.

Definition balanced : AetherNoizeConfig :=
  {| i1 := Some (lit "<b 0d0a0d0a><t><rc 20-40>");
     i2 := Some (lit "<b 504f5354><rd 10-20><rc 20-30>");
     i3 := Some (lit "<r 30-50>");
     i4 := None;
     i5 := None;
     jc := 6; jc_before_hs := 3; jc_after_i1 := 2; jc_after_hs := 1;
     jmin := 64; jmax := 256; junk_interval := 2; handshake_delay := 8;
     allow_zero_size := false |}.

Definition aggressive : AetherNoizeConfig :=
  {| i1 := Some (lit "<b 0d0a0d0a><t><rc 40-64>");
     i2 := Some (lit "<b 504f5354><t><rd 15-30><rc 30-50>");
     i3 := Some (lit "<b 474554><rc 40-60>");
     i4 := Some (lit "<r 60-100>");
     i5 := Some (lit "<c><rd 20-40>");
     jc := 10; jc_before_hs := 4; jc_after_i1 := 3; jc_after_hs := 3;
     jmin := 80; jmax := 384; junk_interval := 1; handshake_delay := 12;
     allow_zero_size := false |}.

Definition firewall : AetherNoizeConfig :=
  {| i1 := Some (lit "<b 0d0a0d0a><t><rc 24-44>");
     i2 := Some (lit "<b 504f5354><c><rd 12-24><rc 24-36>");
     i3 := Some (lit "<b 474554><r 30-50>");
     i4 := None;
     i5 := None;
     jc := 7; jc_before_hs := 3; jc_after_i1 := 2; jc_after_hs := 2;
     jmin := 64; jmax := 300; junk_interval := 2; handshake_delay := 10;
     allow_zero_size := false |}.

Definition gfw : AetherNoizeConfig :=
  {| i1 := Some (lit "<b 16030100><c><rc 48-72>");
     i2 := Some (lit "<b 0d0a0d0a><t><rd 20-40><rc 36-60>");
     i3 := Some (lit "<b 474554202f20485454502f312e31><rc 40-64>");
     i4 := Some (lit "<b 504f5354><c><r 64-110>");
     i5 := Some (lit "<rd 24-48><rc 32-56>");
     jc := 12; jc_before_hs := 5; jc_after_i1 := 3; jc_after_hs := 4;
     jmin := 96; jmax := 420; junk_interval := 1; handshake_delay := 16;
     allow_zero_size := true |}.

Definition is_enabled (c : AetherNoizeConfig) : bool :=
  (jc c >? 0) || match i1 c with Some _ => true | None => false end.

Definition from_profile (name : bytes) : AetherNoizeConfig :=
  let name := to_ascii_lowercase (trim name) in
  if str_eqb name (lit "off") || str_eqb name (lit "none") then off
  else if str_eqb name (lit "light") then light
  else if str_eqb name (lit "firewall") then firewall
  else if str_eqb name (lit "gfw") then gfw
  else if str_eqb name (lit "aggressive") || str_eqb name (lit "heavy") then aggressive
  else balanced.

(** A length, or a random length of a range "min-max"; at most 2048. *)
Definition parse_range `{w : arch} (data : bytes) : rnd Z :=
  let number s := default 0 (parse_uint (usize_max w) (trim s)) in
  match split 45 data with
  | min_str :: max_str :: _ =>
      if (number max_str >? number min_str) && (number min_str >? 0) then
        n ← rnd_range (number min_str) (number max_str); mret (Z.min n 2048)
      else mret (Z.min (number data) 2048)
  | _ => mret (Z.min (number data) 2048)
  end.

(** [len] bytes drawn from an alphabet. *)
Definition fill_chars (chars : bytes) (len : Z) : rnd bytes :=
  times (Z.to_nat len) (c ← rnd_range 0 (blen chars - 1); mret (default 0 (get chars c))).

Definition letters : bytes := lit "abcdefghijklmnopqrstuvwxyzABCDEFGHIJKLMNOPQRSTUVWXYZ".
Definition digits : bytes := lit "0123456789".

(** What one tag adds, and the counter after it. *)
Definition tag_bytes `{HexCrate} `{w : arch} (now counter : Z) (tag_type tag_data : bytes)
  : rnd (bytes * Z) :=
  if str_eqb tag_type (lit "b") then
    let hex_str := remove_white tag_data in
    let clean := default hex_str
      (match strip_prefix (lit "0x") hex_str with
       | Some h => Some h
       | None => strip_prefix (lit "0X") hex_str
       end) in
    mret (default [] (hex_decode clean), counter)
  else if str_eqb tag_type (lit "t") then mret (be_bytes 4 (as_u32 now), counter)
  else if str_eqb tag_type (lit "c") then mret (be_bytes 4 counter, as_u32 (counter + 1))
  else if str_eqb tag_type (lit "r") then
    len ← parse_range tag_data;
    r ← (if len >? 0 then fill_bytes (Z.to_nat len) else mret []);
    mret (r, counter)
  else if str_eqb tag_type (lit "rc") then
    len ← parse_range tag_data;
    r ← (if len >? 0 then fill_chars letters len else mret []);
    mret (r, counter)
  else if str_eqb tag_type (lit "rd") then
    len ← parse_range tag_data;
    r ← (if len >? 0 then fill_chars digits len else mret []);
    mret (r, counter)
  else mret ([], counter).

Fixpoint cps_tags `{HexCrate} `{w : arch} (now counter : Z) (caps : list (bytes * bytes))
  : rnd (bytes * Z) :=
  match caps with
  | [] => mret ([], counter)
  | (tag_type, data) :: caps =>
      '(more, counter) ← tag_bytes now counter tag_type (trim data);
      '(rest, counter) ← cps_tags now counter caps;
      mret (more ++ rest, counter)
  end.

(** [parse_cps], with [CPS_COUNTER] before and after. *)
Definition parse_cps `{HexCrate, TagRegex} `{w : arch} (now counter : Z) (spec : bytes)
  : rnd (bytes * Z) :=
  cps_tags now counter (tag_captures spec).

(** The frame of an IKEv2 message around a payload; [None] when the 16-bit
    addition of the length overflows. *)
Definition wrap_ikev2 (payload : bytes) : rnd (option bytes) :=
  if is_empty payload then mret (Some payload)
  else
    initiator_spi ← (if 8 <=? blen payload then mret (takez 8 payload) else fill_bytes 8);
    responder_spi ← fill_bytes 8;
    let total_length := 28 + 24 + as_u32 (blen payload) in
    let sa_payload_length := 24 + as_u16 (blen payload) in
    mret (if (total_length <? 2 ^ 32) && (sa_payload_length <? 2 ^ 16) then
      Some (initiator_spi ++ responder_spi ++ [0x21; 0x20; 0x22; 0x08] ++ [0; 0; 0; 0]
        ++ be_bytes 4 total_length ++ [0; 0] ++ be_bytes 2 sa_payload_length
        ++ [0x00; 0x00; 0x00; 0x14; 0x01; 0x01; 0x00; 0x04; 0x03; 0x00; 0x00; 0x08; 0x01; 0x00; 0x00;
            0x0c; 0x00; 0x00; 0x00; 0x00]
        ++ payload)
    else None).

(** The sizes [generate_junk] draws between; [inl] is a packet settled without
    a draw. *)
Definition junk_sizes (cfg : AetherNoizeConfig) : bytes + Z * Z :=
  let zero := allow_zero_size cfg in
  if (jmin cfg =? 0) && (jmax cfg =? 0) then inl (if zero then [] else [0])
  else if (jmax cfg =? 0) && negb zero then inr (Z.max (jmin cfg) 1, Z.max (jmin cfg) 1)
  else if negb zero then inr (Z.max (jmin cfg) 1, Z.max (jmax cfg) (jmin cfg))
  else inr (jmin cfg, Z.max (jmax cfg) (jmin cfg)).

Definition generate_junk (cfg : AetherNoizeConfig) : rnd bytes :=
  match junk_sizes cfg with
  | inl pkt => mret pkt
  | inr (min_size, max_size) =>
      size ← (if max_size =? min_size then mret min_size else rnd_range min_size max_size);
      if size =? 0 then mret (if allow_zero_size cfg then [] else [0])
      else fill_bytes (Z.to_nat size)
  end.

(** The packet of one of the later signatures, when it is not empty. *)
Definition signature `{HexCrate, TagRegex} `{w : arch} (now counter : Z) (spec : option bytes)
  : rnd (list bytes * Z) :=
  match spec with
  | None => mret ([], counter)
  | Some s =>
      '(pkt, counter) ← parse_cps now counter s;
      mret (if is_empty pkt then [] else [pkt], counter)
  end.

(** [apply_obfuscation]: the packets sent over the connected socket; [None]
    when framing the first signature overflows. *)
Definition apply_obfuscation `{HexCrate, TagRegex} `{w : arch} (cfg : AetherNoizeConfig)
  (now counter : Z) : rnd (option (list bytes) * Z) :=
  if negb (is_enabled cfg) then mret (Some [], counter)
  else
    '(first, counter) ← signature now counter (i1 cfg);
    framed ← (match first with
              | payload :: _ => f ← wrap_ikev2 payload; mret (option_map (λ f, [f]) f)
              | [] => mret (Some [])
              end);
    match framed with
    | None => mret (None, counter)
    | Some framed =>
        after ← times (Z.to_nat (jc_after_i1 cfg)) (generate_junk cfg);
        before ← times (Z.to_nat (jc_before_hs cfg)) (generate_junk cfg);
        '(s2, counter) ← signature now counter (i2 cfg);
        '(s3, counter) ← signature now counter (i3 cfg);
        '(s4, counter) ← signature now counter (i4 cfg);
        '(s5, counter) ← signature now counter (i5 cfg);
        mret (Some (framed ++ after ++ before ++ s2 ++ s3 ++ s4 ++ s5), counter)
    end.

Definition send_post_handshake_junk (cfg : AetherNoizeConfig) : rnd (list bytes) :=
  times (Z.to_nat (jc_after_hs cfg)) (generate_junk cfg).

(** A first byte that is a WireGuard message type is moved away from it. *)
Definition disguise (junk : bytes) : bytes :=
  match junk with
  | first :: rest =>
      (if (1 <=? first) && (first <=? 4) then as_u8 (first + 0x40) else first) :: rest
  | [] => []
  end.

(** [send_keepalive_junk]; the jitter is drawn, the sleep is left out. *)
Definition send_keepalive_junk (cfg : AetherNoizeConfig) : rnd (list bytes) :=
  if negb (is_enabled cfg) then mret []
  else
    let base := Z.max (jc_before_hs cfg) 1 in
    extra ← rnd_range 0 base;
    times (Z.to_nat (base + extra))
      (junk ← generate_junk cfg;
       _ ← rnd_range 0 8;
       mret (disguise junk)).


(** ** What the routines send *)

Lemma generate_junk_size cfg :
  0 ≤ jmin cfg → 0 ≤ jmax cfg →
  always (generate_junk cfg) (λ p, bytes_ok p ∧ blen p ≤ Z.max 1 (Z.max (jmin cfg) (jmax cfg)) ∧
    (allow_zero_size cfg = false → 1 ≤ blen p)).
Proof.
  intros Hmin Hmax. unfold generate_junk.
  set (m := Z.max 1 (Z.max (jmin cfg) (jmax cfg))).
  assert (Hs : match junk_sizes cfg with
    | inl p => p = if allow_zero_size cfg then [] else [0]
    | inr (lo, hi) => 0 ≤ lo ≤ hi ∧ hi ≤ m end).
  { unfold junk_sizes, m. destruct (allow_zero_size cfg), (Z.eqb_spec (jmin cfg) 0), (Z.eqb_spec (jmax cfg) 0);
      cbn -[Z.max]; try done; lia. }
  assert (Hz : ∀ p, p = (if allow_zero_size cfg then [] else [0]) →
    bytes_ok p ∧ blen p ≤ m ∧ (allow_zero_size cfg = false → 1 ≤ blen p)).
  { intros p ->. unfold m. destruct (allow_zero_size cfg); (split; [repeat constructor; done|]);
      unfold blen; cbn [length]; split; try done; lia. }
  destruct (junk_sizes cfg) as [p|[lo hi]]; [by apply always_ret, Hz|].
  eapply (always_bind _ _ (λ n, lo ≤ n ≤ hi)).
  { destruct (Z.eqb_spec hi lo); [apply always_ret; lia|apply always_range; lia]. }
  intros size [? ?]. destruct (Z.eqb_spec size 0); [by apply always_ret, Hz|].
  eapply always_mono; [apply always_fill|]. intros p [? ?]. split_and!; [done|lia|lia].
Qed.

(** A packet no WireGuard peer takes for a message: it is empty or its first
    byte is no message type. *)
Definition not_wireguard (p : bytes) : Prop :=
  match p with b :: _ => ¬ (1 ≤ b ≤ 4) | [] => True end.

Lemma disguise_ok p : bytes_ok p → bytes_ok (disguise p) ∧ not_wireguard (disguise p) ∧ blen (disguise p) = blen p.
Proof.
  destruct p as [|b p]; [done|]. intros [Hb Hp]%Forall_cons. unfold disguise, not_wireguard, as_u8, u8 in *.
  destruct (Z.leb_spec 1 b), (Z.leb_spec b 4); cbn [andb]; rewrite ?blen_cons; split_and!; try done; try lia;
    try (constructor; [|done]; unfold u8); Z.to_euclidean_division_equations; lia.
Qed.

(** What a keepalive's junk looks like. *)
Lemma keepalive_junk cfg (base := Z.max (jc_before_hs cfg) 1) :
  0 ≤ jmin cfg → 0 ≤ jmax cfg →
  always (send_keepalive_junk cfg) (λ pkts,
    Forall (λ p, not_wireguard p ∧ blen p ≤ Z.max 1 (Z.max (jmin cfg) (jmax cfg))) pkts ∧
    (if is_enabled cfg then base ≤ blen pkts ≤ 2 * base else pkts = [])).
Proof.
  intros Hmin Hmax. unfold send_keepalive_junk. fold base.
  destruct (is_enabled cfg); cbn [negb]; [|by apply always_ret].
  eapply always_bind; [apply always_range; unfold base; lia|]. intros extra [? ?].
  eapply always_mono; [apply (always_times _ _ (λ p, not_wireguard p ∧
    blen p ≤ Z.max 1 (Z.max (jmin cfg) (jmax cfg))))|].
  { eapply always_bind; [by apply generate_junk_size|]. intros junk (Hj & Hl & _).
    eapply (always_bind _ _ (λ _, True)); [by intros ?|]. intros _ _. apply always_ret.
    destruct (disguise_ok junk Hj) as (_ & H1 & H2). split; [done|lia]. }
  cbv beta. intros l [Hf Hl]. split; [done|]. unfold blen. rewrite Hl. lia.
Qed.

Lemma keepalive_packets cfg ds :
  0 ≤ jmin cfg → 0 ≤ jmax cfg →
  Forall (λ p, not_wireguard p ∧ blen p ≤ Z.max 1 (Z.max (jmin cfg) (jmax cfg)))
    (send_keepalive_junk cfg ds).1.
Proof. intros H1 H2. by destruct (keepalive_junk cfg H1 H2 ds). Qed.

(** The IKEv2 frame is consistent: for a payload that fits a datagram the
    length in its header is that of the whole datagram, the length of its
    security association is that of what follows the header, the payload ends
    the datagram, and it starts with the payload's first eight bytes. *)
Theorem wrap_ikev2_lengths payload ds :
  bytes_ok payload → 0 < blen payload ≤ 65511 →
  ∃ frame, (wrap_ikev2 payload ds).1 = Some frame ∧ bytes_ok frame ∧
    blen frame = 52 + blen payload ∧
    option_map be_val (slice frame 24 28) = Some (blen frame) ∧
    option_map be_val (slice frame 30 32) = Some (blen frame - 28) ∧
    dropz 52 frame = payload ∧ (8 ≤ blen payload → takez 8 frame = takez 8 payload).
Proof.
  intros Hok Hl. unfold wrap_ikev2. rewrite is_empty_spec. destruct (Z.eqb_spec (blen payload) 0); [lia|].
  set (sent := mbind _ _). pattern (sent ds).1. revert ds. change (always sent (λ o, ∃ frame, o = Some frame ∧ bytes_ok frame ∧
    blen frame = 52 + blen payload ∧ option_map be_val (slice frame 24 28) = Some (blen frame) ∧
    option_map be_val (slice frame 30 32) = Some (blen frame - 28) ∧
    dropz 52 frame = payload ∧ (8 ≤ blen payload → takez 8 frame = takez 8 payload))).
  eapply (always_bind _ _ (λ spi, bytes_ok spi ∧ blen spi = 8 ∧ (8 ≤ blen payload → spi = takez 8 payload))).
  { destruct (Z.leb_spec 8 (blen payload)).
    - apply always_ret. split_and!; [by apply Forall_take|blia|done].
    - eapply always_mono; [apply always_fill|]. intros p [? ?]. split_and!; [done..|lia]. }
  intros ispi (Hi & Hil & Hie). eapply always_bind; [apply always_fill|]. intros rspi [Hr Hrl].
  apply always_ret. unfold as_u32, as_u16. rewrite !Z.mod_small by lia.
  destruct (Z.ltb_spec (28 + 24 + blen payload) (2 ^ 32)); [|lia].
  destruct (Z.ltb_spec (24 + blen payload) (2 ^ 16)); [|lia]. cbn [andb].
  set (fixed := [0x00; 0x00; 0x00; 0x14; _; _; _; _; _; _; _; _; _; _; _; _; _; _; _; _]).
  set (frame := ispi ++ _). assert (Hlen : blen frame = 52 + blen payload).
  { unfold frame. rewrite !blen_app, !blen_be_bytes, Hil, Hrl. unfold fixed, blen. cbn [length]. lia. }
  exists frame. split_and!.
  - done.
  - unfold frame, bytes_ok. rewrite !Forall_app. split_and!; try done; try apply be_bytes_ok; repeat constructor; unfold u8; lia.
  - done.
  - assert (suffix_at frame 24 (be_bytes 4 (28 + 24 + blen payload) ++ [0; 0]
      ++ be_bytes 2 (24 + blen payload) ++ fixed ++ payload)) as Hs.
    { exists (ispi ++ rspi ++ [0x21; 0x20; 0x22; 0x08] ++ [0; 0; 0; 0]). split.
      - unfold frame. by rewrite <- !app_assoc.
      - rewrite !blen_app, Hil, Hrl. done. }
    rewrite (suffix_at_slice _ _ _ _ 28 Hs) by (rewrite blen_be_bytes; lia). cbn [option_map].
    rewrite be_val_small by (cbn; lia). f_equal. lia.
  - assert (suffix_at frame 30 (be_bytes 2 (24 + blen payload) ++ fixed ++ payload)) as Hs.
    { exists (ispi ++ rspi ++ [0x21; 0x20; 0x22; 0x08] ++ [0; 0; 0; 0]
        ++ be_bytes 4 (28 + 24 + blen payload) ++ [0; 0]). split.
      - unfold frame. by rewrite <- !app_assoc.
      - rewrite !blen_app, blen_be_bytes, Hil, Hrl. done. }
    rewrite (suffix_at_slice _ _ _ _ 32 Hs) by (rewrite blen_be_bytes; lia). cbn [option_map].
    rewrite be_val_small by (cbn; lia). f_equal. lia.
  - replace 52 with (blen (ispi ++ rspi ++ [0x21; 0x20; 0x22; 0x08] ++ [0; 0; 0; 0]
      ++ be_bytes 4 (28 + 24 + blen payload) ++ [0; 0] ++ be_bytes 2 (24 + blen payload) ++ fixed)).
    2: { rewrite !blen_app, !blen_be_bytes, Hil, Hrl. done. }
    unfold frame. rewrite !app_assoc. apply dropz_app.
  - intros H8. rewrite <- Hie by done. rewrite <- Hil. apply takez_app.
Qed.

Lemma wrap_ikev2_lengths_witness :
  ∃ frame, (wrap_ikev2 [1; 2; 3] []).1 = Some frame ∧ bytes_ok frame ∧
    blen frame = 52 + 3 ∧
    option_map be_val (slice frame 24 28) = Some (blen frame) ∧
    option_map be_val (slice frame 30 32) = Some (blen frame - 28) ∧
    dropz 52 frame = [1; 2; 3] ∧ (8 ≤ 3 → takez 8 frame = takez 8 [1; 2; 3]).
Proof. apply (wrap_ikev2_lengths [1; 2; 3] []); [by_decision|unfold blen; cbn [length]; lia]. Defined.
