(* ===== verification/WireGuard.v ===== *)
(** * The WireGuard tunnel

    src/aether/src/wireguard.rs: the client id carried in the reserved bytes
    of every message, the tasks of a tunnel (receiving, sending, timers,
    health check) with the obfuscation around them, and the verification of an
    endpoint.

    The noise protocol is the crate boringtun: a state with three operations
    ([Tunn]).  The four tasks share that state, the [obf_sent] flag and the
    time of the last valid packet, each under a lock; a step of the model is
    what one task does about one event, and a run any interleaving of events.
    Packets a task sends about one event come out together in the model; the
    theorems speak of packets and of their kinds, not of what another task may
    send in between.  Times are milliseconds. *)

From stdpp Require Import strings.
From S2P Require Import Prelude Text Net Error Fragment Random AetherNoize Octets Masque.

(** ** Socket errors *)

Inductive ErrorKind :=
| ConnectionRefused | ConnectionReset | ConnectionAborted | HostUnreachable | NetworkUnreachable
| Interrupted | WouldBlock | TimedOut | OtherKind.

Definition is_transient_socket_error (kind : ErrorKind) : bool :=
  match kind with OtherKind => false | _ => true end.

(** ** The client id *)

Definition WG_MSG_TYPE_MIN : Z := 1.
Definition WG_MSG_TYPE_MAX : Z := 4.

Definition inject_client_id (pkt client_id : bytes) : bytes :=
  match pkt with
  | b0 :: _ :: _ :: _ :: rest =>
      if (b0 <? WG_MSG_TYPE_MIN) || (b0 >? WG_MSG_TYPE_MAX) then pkt else b0 :: client_id ++ rest
  | _ => pkt
  end.

Definition strip_client_id (pkt : bytes) : bytes :=
  match pkt with
  | b0 :: _ :: _ :: _ :: rest =>
      if (b0 <? WG_MSG_TYPE_MIN) || (b0 >? WG_MSG_TYPE_MAX) then pkt else b0 :: [0; 0; 0] ++ rest
  | _ => pkt
  end.

(** ** The data-plane probe *)

Definition build_dns_query (id : Z) : bytes :=
  be_bytes 2 id ++ [0x01; 0x00] ++ [0x00; 0x01] ++ [0x00; 0x00; 0x00; 0x00; 0x00; 0x00]
  ++ flat_map (λ label, as_u8 (blen label) :: label) [lit "cloudflare"; lit "com"]
  ++ [0x00] ++ [0x00; 0x01] ++ [0x00; 0x01].

Definition ipv4_checksum (header : bytes) : Z :=
  not_u16 (loop fold_measure fold_step 0 (sum_words 0 header)).

Definition build_dataplane_probe (src : Z) : rnd bytes :=
  dns_id ← draw;
  let dns := build_dns_query (as_u16 dns_id) in
  let udp_len := 8 + blen dns in
  let total_len := 20 + udp_len in
  id ← draw;
  let pkt := [0x45; 0x00] ++ be_bytes 2 (as_u16 total_len) ++ be_bytes 2 (as_u16 id)
    ++ [0x00; 0x00] ++ [64] ++ [17] ++ [0x00; 0x00] ++ ip_octets (V4 src) ++ [8; 8; 8; 8] in
  let csum := ipv4_checksum (takez 20 pkt) in
  let pkt := overwrite pkt 10 (be_bytes 2 csum) in
  sport ← rnd_range 20000 59999;
  mret (pkt ++ be_bytes 2 sport ++ be_bytes 2 53 ++ be_bytes 2 (as_u16 udp_len) ++ [0x00; 0x00] ++ dns).

(** ** Timeouts *)

Definition WG_HEALTHCHECK_INTERVAL : Z := 3000.
Definition WG_HEALTHCHECK_JITTER : Z := 500.

Definition health_check_pause : rnd Z :=
  offset ← rnd_range 0 (WG_HEALTHCHECK_JITTER * 2);
  mret (WG_HEALTHCHECK_INTERVAL - WG_HEALTHCHECK_JITTER + offset).

Definition wg_stale_timeout (env : environment) : Z :=
  1000 * default 10
    (raw ← env (lit "AETHER_WG_STALE_SECS");
     v ← parse_u64 raw;
     if v >? 0 then Some (Z.min v 86400) else None).

Definition MAX_TRANSIENT_RECV_ERRORS : Z := 64.

(** ** The noise protocol of boringtun *)

Inductive TunnResult :=
| TDone
| TErr (text : bytes)
| WriteToNetwork (pkt : bytes)
| WriteToTunnelV4 (pkt : bytes)
| WriteToTunnelV6 (pkt : bytes).

Class Tunn := {
  tunn : Type;
  encapsulate : tunn → bytes → TunnResult * tunn;
  decapsulate : tunn → bytes → TunnResult * tunn;
  update_timers : tunn → TunnResult * tunn;
}.

(** A message of the WireGuard protocol: a type, three reserved zero bytes, a
    body. *)
Definition wg_message (pkt : bytes) : Prop :=
  ∃ b0 rest, pkt = b0 :: [0; 0; 0] ++ rest ∧ 1 ≤ b0 ≤ 4.

(** What boringtun writes to the network are such messages. *)
Class TunnMessages `{Tunn} : Prop := {
  encapsulate_message t p pkt t' : encapsulate t p = (WriteToNetwork pkt, t') → wg_message pkt;
  decapsulate_message t p pkt t' : decapsulate t p = (WriteToNetwork pkt, t') → wg_message pkt;
  timers_message t pkt t' : update_timers t = (WriteToNetwork pkt, t') → wg_message pkt;
}.

(** ** The tunnel *)

Record WgConfig := {
  client_id : bytes;
  local_ipv4 : Z;
  noise : AetherNoizeConfig;
  stale_timeout : Z;
}.

(** The state the tasks share, and the locals that outlive an event. *)
Record WgTunnel `{Tunn} := {
  tn : tunn;
  obf_sent : bool;
  last_valid_rx : Z;
  transient_errors : Z;
  post_hs_junk_sent : bool;
  cps_counter : Z;
  draws : list Z;
}.

(** [new] and [from_established], run from [now] on. *)
Definition new_tunnel `{Tunn} (t : tunn) (now counter : Z) (ds : list Z) : WgTunnel :=
  {| tn := t; obf_sent := false; last_valid_rx := now; transient_errors := 0;
     post_hs_junk_sent := false; cps_counter := counter; draws := ds |}.
Definition from_established `{Tunn} (t : tunn) (now counter : Z) (ds : list Z) : WgTunnel :=
  {| tn := t; obf_sent := true; last_valid_rx := now; transient_errors := 0;
     post_hs_junk_sent := false; cps_counter := counter; draws := ds |}.

(** What a task of the tunnel wakes up for. *)
Inductive wg_event :=
| Received (now : Z) (r : bytes + ErrorKind)
| Outbound (now : Z) (ip_packet : bytes)
| OutboundClosed
| TimerTick
| HealthCheck (now : Z).

(** What it does: a message to the peer, a packet for the inside, and junk of
    the three occasions. *)
Inductive wg_out :=
| Message (datagram : bytes)
| Inward (ip_packet : bytes)
| Opening (junk : list bytes)
| AfterHandshake (junk : list bytes)
| Keepalive (junk : list bytes).

Inductive wg_status `{Tunn} :=
| Running (s : WgTunnel)
| Ended (r : comp AetherError ()).

Section tunnel.
Context `{Tunn} `{HexCrate, TagRegex} `{w : arch}.
Context (cfg : WgConfig).
Implicit Types s : WgTunnel.

Definition set_tn (t : tunn) s : WgTunnel :=
  {| tn := t; obf_sent := obf_sent s; last_valid_rx := last_valid_rx s;
     transient_errors := transient_errors s; post_hs_junk_sent := post_hs_junk_sent s;
     cps_counter := cps_counter s; draws := draws s |}.
Definition set_valid (now : Z) s : WgTunnel :=
  {| tn := tn s; obf_sent := obf_sent s; last_valid_rx := now;
     transient_errors := transient_errors s; post_hs_junk_sent := post_hs_junk_sent s;
     cps_counter := cps_counter s; draws := draws s |}.
Definition set_transient (n : Z) s : WgTunnel :=
  {| tn := tn s; obf_sent := obf_sent s; last_valid_rx := last_valid_rx s;
     transient_errors := n; post_hs_junk_sent := post_hs_junk_sent s;
     cps_counter := cps_counter s; draws := draws s |}.
Definition set_obf (counter : Z) (ds : list Z) s : WgTunnel :=
  {| tn := tn s; obf_sent := true; last_valid_rx := last_valid_rx s;
     transient_errors := transient_errors s; post_hs_junk_sent := post_hs_junk_sent s;
     cps_counter := counter; draws := ds |}.
Definition set_post (b : bool) (ds : list Z) s : WgTunnel :=
  {| tn := tn s; obf_sent := obf_sent s; last_valid_rx := last_valid_rx s;
     transient_errors := transient_errors s; post_hs_junk_sent := b;
     cps_counter := cps_counter s; draws := ds |}.

(** The body of [recv_task]'s loop. *)
Definition recv_step (now : Z) (r : bytes + ErrorKind) s : list wg_out * wg_status :=
  match r with
  | inl [] => ([], Running s)
  | inl buf =>
      let s := set_transient 0 s in
      let '(res, t) := decapsulate (tn s) (strip_client_id buf) in
      let s := set_tn t s in
      match res with
      | TDone => ([], Running (set_valid now s))
      | TErr _ => ([], Running s)
      | WriteToNetwork pkt =>
          ([Message (inject_client_id pkt (client_id cfg))], Running (set_valid now s))
      | WriteToTunnelV4 pkt | WriteToTunnelV6 pkt => ([Inward pkt], Running (set_valid now s))
      end
  | inr kind =>
      if is_transient_socket_error kind then
        let s := set_transient (transient_errors s + 1) s in
        if transient_errors s >? MAX_TRANSIENT_RECV_ERRORS then ([], Ended (Ok tt))
        else ([], Running s)
      else ([], Ended (Ok tt))
  end.

(** The body of [send_task]'s loop; a panic of the obfuscation ends the task,
    and with it the tunnel. *)
Definition send_step (now : Z) (ip_packet : bytes) s : list wg_out * wg_status :=
  let '(res, t) := encapsulate (tn s) ip_packet in
  let s := set_tn t s in
  match res with
  | WriteToNetwork pkt =>
      let pkt_vec := inject_client_id pkt (client_id cfg) in
      let '(opening, s) :=
        if negb (obf_sent s) && is_enabled (noise cfg) then
          let '((burst, counter), ds) :=
            apply_obfuscation (noise cfg) (now / 1000) (cps_counter s) (draws s) in
          (option_map (λ b, [Opening b]) burst, set_obf counter ds s)
        else (Some [], s) in
      match opening with
      | None => ([], Ended (Ok tt))
      | Some opening =>
          if (jc_after_hs (noise cfg) >? 0) && negb (post_hs_junk_sent s) then
            let '(junk, ds) := send_post_handshake_junk (noise cfg) (draws s) in
            (opening ++ [Message pkt_vec; AfterHandshake junk], Running (set_post true ds s))
          else (opening ++ [Message pkt_vec], Running s)
      end
  | _ => ([], Running s)
  end.

(** The body of [timer_task]'s loop. *)
Definition timer_step s : list wg_out * wg_status :=
  let '(res, t) := update_timers (tn s) in
  let s := set_tn t s in
  match res with
  | WriteToNetwork pkt =>
      let pkt_vec := inject_client_id pkt (client_id cfg) in
      if is_enabled (noise cfg) then
        let '(junk, ds) := send_keepalive_junk (noise cfg) (draws s) in
        ([Keepalive junk; Message pkt_vec], Running (set_post (post_hs_junk_sent s) ds s))
      else ([Message pkt_vec], Running s)
  | _ => ([], Running s)
  end.

(** [send_dataplane_probe] over a working socket. *)
Definition send_dataplane_probe (t : tunn) (cid probe : bytes) : list bytes * comp AetherError () * tunn :=
  let '(res, t) := encapsulate t probe in
  match res with
  | WriteToNetwork pkt => ([inject_client_id pkt cid], Ok tt, t)
  | TErr e => ([], Err (EOther (lit "dataplane encap: " ++ e)), t)
  | _ => ([], Ok tt, t)
  end.

Definition stale_error : AetherError :=
  EOther (lit "wireguard tunnel stale: no valid data from peer").

(** The body of [health_task]'s loop after its pause. *)
Definition health_step (now : Z) s : list wg_out * wg_status :=
  let idle := now - last_valid_rx s in
  if idle >=? stale_timeout cfg then ([], Ended (Err stale_error))
  else
    let '(probe, ds) := build_dataplane_probe (local_ipv4 cfg) (draws s) in
    let '(sent, _, t) := send_dataplane_probe (tn s) (client_id cfg) probe in
    (map Message sent, Running (set_post (post_hs_junk_sent s) ds (set_tn t s))).

Definition wg_step (ev : wg_event) s : list wg_out * wg_status :=
  match ev with
  | Received now r => recv_step now r s
  | Outbound now ip_packet => send_step now ip_packet s
  | OutboundClosed => ([], Ended (Ok tt))
  | TimerTick => timer_step s
  | HealthCheck now => health_step now s
  end.

(** [run]: the first task to end ends the tunnel. *)
Fixpoint wg_run (evs : list wg_event) s : list wg_out * wg_status :=
  match evs with
  | [] => ([], Running s)
  | ev :: evs =>
      match wg_step ev s with
      | (outs, Running s) => let '(more, st) := wg_run evs s in (outs ++ more, st)
      | (outs, Ended r) => (outs, Ended r)
      end
  end.
End tunnel.

(** ** The client id: facts *)

Lemma strip_inject pkt cid : wg_message pkt → blen cid = 3 → strip_client_id (inject_client_id pkt cid) = pkt.
Proof.
  intros (b0 & rest & -> & Hb) Hc. cbn [app inject_client_id].
  assert ((b0 <? WG_MSG_TYPE_MIN) || (b0 >? WG_MSG_TYPE_MAX) = false) as Hf
    by (unfold WG_MSG_TYPE_MIN, WG_MSG_TYPE_MAX; lia).
  rewrite Hf. destruct cid as [|c1 [|c2 [|c3 [|]]]]; unfold blen in Hc; cbn [length] in Hc; try lia.
  cbn [app strip_client_id]. by rewrite Hf.
Qed.

Lemma inject_carries_id pkt cid : wg_message pkt →
  inject_client_id pkt cid = take 1 pkt ++ cid ++ drop 4 pkt.
Proof.
  intros (b0 & rest & -> & Hb). cbn [app inject_client_id].
  assert ((b0 <? WG_MSG_TYPE_MIN) || (b0 >? WG_MSG_TYPE_MAX) = false) as ->
    by (unfold WG_MSG_TYPE_MIN, WG_MSG_TYPE_MAX; lia). done.
Qed.

(** ** A plain WireGuard tunnel

    What the tunnel amounts to without client ids and junk: messages in,
    packets in, timer ticks, over the same protocol. *)
Inductive plain_event :=
| PReceived (message : bytes)
| POutbound (ip_packet : bytes)
| PTimer.

Inductive plain_out :=
| PMessage (message : bytes)
| PInward (ip_packet : bytes).

Section plain.
Context `{Tunn}.

(** The network side and the inside of a result. *)
Definition plain_effect (inward : bool) (r : TunnResult) : list plain_out :=
  match r with
  | WriteToNetwork pkt => [PMessage pkt]
  | WriteToTunnelV4 pkt | WriteToTunnelV6 pkt => if inward then [PInward pkt] else []
  | _ => []
  end.

Definition plain_step (t : tunn) (ev : plain_event) : list plain_out * tunn :=
  match ev with
  | PReceived m => let '(r, t) := decapsulate t m in (plain_effect true r, t)
  | POutbound p => let '(r, t) := encapsulate t p in (plain_effect false r, t)
  | PTimer => let '(r, t) := update_timers t in (plain_effect false r, t)
  end.

Fixpoint plain_run (t : tunn) (evs : list plain_event) : list plain_out * tunn :=
  match evs with
  | [] => ([], t)
  | ev :: evs => let '(o, t) := plain_step t ev in let '(os, t) := plain_run t evs in (o ++ os, t)
  end.

Lemma plain_run_app t a b :
  plain_run t (a ++ b) =
    let '(o1, t1) := plain_run t a in let '(o2, t2) := plain_run t1 b in (o1 ++ o2, t2).
Proof.
  revert t. induction a as [|ev a IH]; intros t; cbn; [by destruct (plain_run t b)|].
  destruct (plain_step t ev) as [o t1]. rewrite IH.
  destruct (plain_run t1 a) as [o1 t2], (plain_run t2 b) as [o2 t3]. by rewrite app_assoc.
Qed.
End plain.

(** What an observer sees who drops the junk and clears the reserved bytes. *)
Definition erase (o : wg_out) : list plain_out :=
  match o with
  | Message d => [PMessage (strip_client_id d)]
  | Inward p => [PInward p]
  | _ => []
  end.

Section facts.
Context `{Tunn, !TunnMessages} `{HexCrate, TagRegex} `{w : arch}.
Context (cfg : WgConfig) (Hcid : blen (client_id cfg) = 3).
Implicit Types (s : WgTunnel) (evs : list wg_event).

(** The events of the plain tunnel an event stands for. *)
Definition plain_of (ev : wg_event) (pevs : list plain_event) : Prop :=
  match ev with
  | Received _ (inl d) => pevs = if is_empty d then [] else [PReceived (strip_client_id d)]
  | Received _ (inr _) | OutboundClosed => pevs = []
  | Outbound _ p => pevs = [POutbound p]
  | TimerTick => pevs = [PTimer]
  | HealthCheck _ => ∃ ds, pevs = [POutbound (build_dataplane_probe (local_ipv4 cfg) ds).1]
  end.

Lemma step_plain ev s outs s' :
  wg_step cfg ev s = (outs, Running s') →
  ∃ pevs, plain_of ev pevs ∧ plain_run (tn s) pevs = (flat_map erase outs, tn s').
Proof.
  destruct ev as [now [d|kind]|now p| | |now]; cbn [wg_step].
  - unfold recv_step. destruct d as [|b d]; [intros [= <- <-]; by exists []|].
    set (s0 := set_transient 0 s). change (tn s0) with (tn s).
    destruct (decapsulate (tn s) (strip_client_id (b :: d))) as [res t] eqn:E.
    intros Hs. exists [PReceived (strip_client_id (b :: d))]. split; [done|].
    cbn [plain_run plain_step]. rewrite E.
    destruct res; injection Hs as <- <-; cbn [flat_map erase plain_effect app]; try done.
    by rewrite strip_inject by eauto using decapsulate_message.
  - unfold recv_step. destruct (is_transient_socket_error kind); [|done].
    destruct (_ >? _); [done|]. intros [= <- <-]. by exists [].
  - unfold send_step. destruct (encapsulate (tn s) p) as [res t] eqn:E. intros Hs.
    exists [POutbound p]. split; [done|]. cbn [plain_run plain_step]. rewrite E.
    destruct res as [| |pkt|pkt|pkt]; try by (injection Hs as <- <-).
    destruct (if _ : bool then _ else _) as [opening s1] eqn:Eo.
    assert (tn s1 = t ∧ match opening with Some o => flat_map erase o = [] | None => True end) as [<- Ho].
    { destruct (negb _ && _); [|by injection Eo as <- <-].
      destruct (apply_obfuscation _ _ _ _) as [[[burst|] counter] ds]; by injection Eo as <- <-. }
    destruct opening as [opening|]; [|done].
    cbn [plain_effect app]. rewrite <- (strip_inject pkt (client_id cfg)) at 1
      by eauto using encapsulate_message.
    destruct (_ && negb _).
    + destruct (send_post_handshake_junk _ _) as [junk ds]. injection Hs as <- <-.
      by rewrite flat_map_app, Ho.
    + injection Hs as <- <-. by rewrite flat_map_app, Ho.
  - done.
  - unfold timer_step. destruct (update_timers (tn s)) as [res t] eqn:E. intros Hs.
    exists [PTimer]. split; [done|]. cbn [plain_run plain_step]. rewrite E.
    destruct res as [| |pkt|pkt|pkt]; try by (injection Hs as <- <-).
    cbn [plain_effect app]. rewrite <- (strip_inject pkt (client_id cfg)) at 1
      by eauto using timers_message.
    destruct (is_enabled (noise cfg)).
    + destruct (send_keepalive_junk _ _) as [junk ds]. by injection Hs as <- <-.
    + by injection Hs as <- <-.
  - unfold health_step. destruct (_ >=? _); [done|].
    destruct (build_dataplane_probe _ _) as [probe ds] eqn:Ep. unfold send_dataplane_probe.
    destruct (encapsulate (tn s) probe) as [res t] eqn:E. intros Hs.
    exists [POutbound probe]. split; [exists (draws s); by rewrite Ep|].
    cbn [plain_run plain_step]. rewrite E.
    destruct res as [| |pkt|pkt|pkt]; injection Hs as <- <-; try done.
    cbn. by rewrite strip_inject by eauto using encapsulate_message.
Qed.

Lemma wg_run_cons ev evs s outs st :
  wg_run cfg (ev :: evs) s = (outs, st) →
  (∃ r, wg_step cfg ev s = (outs, Ended r) ∧ st = Ended r) ∨
  (∃ o1 o2 s1, wg_step cfg ev s = (o1, Running s1) ∧ wg_run cfg evs s1 = (o2, st) ∧ outs = o1 ++ o2).
Proof.
  cbn. destruct (wg_step cfg ev s) as [o1 [s1|r]]; [|intros [= <- <-]; left; eauto].
  destruct (wg_run cfg evs s1) as [o2 st2] eqn:E2. intros [= <- <-]. right. by exists o1, o2, s1.
Qed.

(** C12. The tunnel is a plain WireGuard tunnel to whoever clears the reserved
    bytes and ignores the junk: over any sequence of events, what it sends and
    what it hands inside are what the noise protocol alone does on the same
    messages, cleared of the peer's client id, the same packets and ticks, and
    the health probes. *)
Theorem tunnel_refines_wireguard evs s outs s' :
  wg_run cfg evs s = (outs, Running s') →
  ∃ pevss, Forall2 plain_of evs pevss ∧
    plain_run (tn s) (concat pevss) = (flat_map erase outs, tn s').
Proof.
  revert s outs. induction evs as [|ev evs IH]; intros s outs E.
  - injection E as <- <-. by exists [].
  - apply wg_run_cons in E as [(r & _ & [=])|(o1 & o2 & s1 & E1 & E2 & ->)].
    apply step_plain in E1 as (pevs & Hp & E1). apply IH in E2 as (pevss & Hps & E2).
    exists (pevs :: pevss). split; [by constructor|]. cbn [concat].
    by rewrite plain_run_app, E1, E2, flat_map_app.
Qed.

(** Every message on the wire is one the noise protocol wrote, with the client
    id in its reserved bytes. *)
Definition tagged (d : bytes) : Prop :=
  ∃ pkt, wg_message pkt ∧ d = take 1 pkt ++ client_id cfg ++ drop 4 pkt.

Definition out_ok (o : wg_out) : Prop :=
  match o with
  | Message d => tagged d
  | Keepalive junk => Forall not_wireguard junk
  | _ => True
  end.

Lemma tagged_inject pkt : wg_message pkt → tagged (inject_client_id pkt (client_id cfg)).
Proof. intros Hm. exists pkt. split; [done|]. by apply inject_carries_id. Qed.

Context (Hjmin : 0 ≤ jmin (noise cfg)) (Hjmax : 0 ≤ jmax (noise cfg)).

Lemma step_out_ok ev s : Forall out_ok (wg_step cfg ev s).1.
Proof.
  destruct ev as [now [d|kind]|now p| | |now]; cbn [wg_step]; [..|constructor| |].
  - unfold recv_step. destruct d as [|b d]; [constructor|].
    destruct (decapsulate _ _) as [[] t] eqn:E; repeat constructor; cbn;
      eauto using tagged_inject, decapsulate_message.
  - unfold recv_step. destruct (is_transient_socket_error kind); [|constructor].
    destruct (_ >? _); constructor.
  - unfold send_step. destruct (encapsulate _ _) as [[| |pkt|pkt|pkt] t] eqn:E; try constructor.
    apply encapsulate_message in E.
    destruct (if _ : bool then _ else _) as [opening s1] eqn:Eo.
    assert (match opening with Some o => Forall out_ok o | None => True end) as Ho.
    { destruct (negb _ && _); [|injection Eo as <- <-; constructor].
      destruct (apply_obfuscation _ _ _ _) as [[[burst|] counter] ds]; injection Eo as <- <-; [|done].
      by repeat constructor. }
    destruct opening as [opening|]; [|constructor].
    destruct (_ && negb _); [destruct (send_post_handshake_junk _ _)|];
      apply Forall_app; (split; [done|]); repeat constructor; by apply tagged_inject.
  - unfold timer_step. destruct (update_timers _) as [[| |pkt|pkt|pkt] t] eqn:E; try constructor.
    apply timers_message in E. destruct (is_enabled (noise cfg)).
    + destruct (send_keepalive_junk _ _) as [junk ds] eqn:Ej. cbn.
      assert (Forall not_wireguard junk) as Hj.
      { pose proof (keepalive_packets (noise cfg) (draws (set_tn t s)) Hjmin Hjmax) as Hf.
        rewrite Ej in Hf. cbn in Hf. eapply Forall_impl; [exact Hf|]. by intros p [? _]. }
      repeat constructor; [done|by apply tagged_inject].
    + repeat constructor. by apply tagged_inject.
  - unfold health_step. destruct (_ >=? _); [constructor|].
    destruct (build_dataplane_probe _ _) as [probe ds]. unfold send_dataplane_probe.
    destruct (encapsulate _ _) as [[] t] eqn:E; repeat constructor; cbn;
      eauto using tagged_inject, encapsulate_message.
Qed.

(** On the wire every WireGuard message carries the client id in its
    reserved bytes and is otherwise as the noise protocol wrote it, and the
    junk sent beside keepalives is never one: in every run of the tunnel. *)
Theorem messages_carry_client_id evs s : Forall out_ok (wg_run cfg evs s).1.
Proof.
  revert s. induction evs as [|ev evs IH]; intros s; cbn [wg_run]; [constructor|].
  pose proof (step_out_ok ev s) as Hs. destruct (wg_step cfg ev s) as [outs [s1|r]]; [|done].
  specialize (IH s1). destruct (wg_run cfg evs s1) as [more st]. by apply Forall_app.
Qed.
End facts.

(** ** Junk, silence and errors *)

Definition is_opening (o : wg_out) : bool := match o with Opening _ => true | _ => false end.
Definition is_after (o : wg_out) : bool := match o with AfterHandshake _ => true | _ => false end.

(** How many effects of a kind. *)
Definition count (f : wg_out → bool) (l : list wg_out) : nat := length (List.filter f l).

Lemma count_app f a b : count f (a ++ b) = (count f a + count f b)%nat.
Proof. unfold count. by rewrite List.filter_app, length_app. Qed.

Section runs.
Context `{Tunn} `{HexCrate, TagRegex} `{w : arch}.
Context (cfg : WgConfig).
Implicit Types (s : WgTunnel) (evs : list wg_event).

(** What is left to send of the junk that is sent once. *)
Definition opening_left s : nat := if obf_sent s then 0 else 1.
Definition after_left s : nat := if post_hs_junk_sent s then 0 else 1.

Definition left_in (left : WgTunnel → nat) (st : wg_status) : nat :=
  match st with Running s => left s | Ended _ => 0 end.

Lemma step_once ev s :
  let '(outs, st) := wg_step cfg ev s in
  (count is_opening outs + left_in opening_left st ≤ opening_left s)%nat ∧
  (count is_after outs + left_in after_left st ≤ after_left s)%nat.
Proof.
  destruct ev as [now [d|kind]|now p| | |now]; cbn [wg_step].
  - unfold recv_step. destruct d as [|b d]; [cbn; lia|].
    by destruct (decapsulate _ _) as [[] t].
  - unfold recv_step. destruct (is_transient_socket_error kind); [|cbn; lia].
    destruct (_ >? _); cbn; unfold opening_left, after_left; cbn; lia.
  - unfold send_step. destruct (encapsulate _ _) as [[| |pkt|pkt|pkt] t]; try by cbn.
    destruct (if _ : bool then _ else _) as [opening s1] eqn:Eo.
    assert (match opening with Some o =>
        (count is_opening o + opening_left s1 ≤ opening_left s)%nat ∧ count is_after o = 0%nat
      | None => True end ∧ post_hs_junk_sent s1 = post_hs_junk_sent s) as [Ho Hp].
    { cbn in Eo. destruct (obf_sent s) eqn:Es, (is_enabled (noise cfg)); cbn in Eo;
        try (injection Eo as <- <-; unfold opening_left; cbn; rewrite Es; split; [split|]; (done || lia)).
      destruct (apply_obfuscation _ _ _ _) as [[[burst|] counter] ds]; injection Eo as <- <-;
        unfold opening_left; cbn; rewrite ?Es; split; try split; (done || lia). }
    destruct opening as [opening|]; [|cbn; lia]. destruct Ho as [Ho Ha].
    destruct (jc_after_hs (noise cfg) >? 0); cbn [andb];
      [destruct (post_hs_junk_sent s1) eqn:E1; cbn [negb]; [|destruct (send_post_handshake_junk _ _)]|];
      rewrite !count_app, Ha; unfold after_left; cbn -[count]; rewrite <- ?Hp, ?E1;
      change (count is_opening [_]) with 0%nat; change (count is_opening [_; _]) with 0%nat;
      change (count is_after [_]) with 0%nat; change (count is_after [_; _]) with 1%nat;
      unfold opening_left in *; cbn in *; lia.
  - cbn. lia.
  - unfold timer_step. destruct (update_timers _) as [[| |pkt|pkt|pkt] t]; try by cbn.
    destruct (is_enabled (noise cfg)); [destruct (send_keepalive_junk _ _)|]; by cbn.
  - unfold health_step. destruct (_ >=? _); [cbn; lia|].
    destruct (build_dataplane_probe _ _) as [probe ds]. unfold send_dataplane_probe.
    by destruct (encapsulate _ _) as [[] t].
Qed.

(** The junk of an opening handshake is sent at most once in the life of a
    tunnel, and not at all on a session that already had it; the junk after the
    handshake is sent at most once too, however many packets follow. *)
Theorem obfuscation_sent_once evs s outs st :
  wg_run cfg evs s = (outs, st) →
  (count is_opening outs ≤ if obf_sent s then 0 else 1)%nat ∧
  (count is_after outs ≤ if post_hs_junk_sent s then 0 else 1)%nat.
Proof.
  revert s outs st. induction evs as [|ev evs IH]; intros s outs st E.
  - injection E as <- <-. cbn. lia.
  - pose proof (step_once ev s) as Hs. unfold opening_left, after_left in Hs.
    apply wg_run_cons in E as [(r & E & ->)|(o1 & o2 & s1 & E1 & E2 & ->)].
    + rewrite E in Hs. lia.
    + rewrite E1 in Hs. cbn in Hs. apply IH in E2. rewrite !count_app. unfold opening_left, after_left in Hs.
      destruct (obf_sent s), (obf_sent s1), (post_hs_junk_sent s), (post_hs_junk_sent s1); lia.
Qed.

(** An event that shows the peer is there: a datagram the noise protocol
    takes, and when. *)
Definition valid_at s (ev : wg_event) : list Z :=
  match ev with
  | Received now (inl (b :: d)) =>
      match (decapsulate (tn s) (strip_client_id (b :: d))).1 with TErr _ => [] | _ => [now] end
  | _ => []
  end.

(** The times of the valid datagrams of a run. *)
Fixpoint valid_times s evs : list Z :=
  match evs with
  | [] => []
  | ev :: evs =>
      valid_at s ev ++ match (wg_step cfg ev s).2 with Running s => valid_times s evs | Ended _ => [] end
  end.

Lemma step_valid ev s outs s' :
  wg_step cfg ev s = (outs, Running s') → last_valid_rx s' = default (last_valid_rx s) (last (valid_at s ev)).
Proof.
  destruct ev as [now [d|kind]|now p| | |now]; cbn [wg_step valid_at].
  - unfold recv_step. destruct d as [|b d]; [by intros [= <- <-]|].
    change (tn (set_transient 0 s)) with (tn s).
    by destruct (decapsulate _ _) as [[] t]; intros [= <- <-].
  - unfold recv_step. destruct (is_transient_socket_error kind); [|done].
    destruct (_ >? _); [done|]. by intros [= <- <-].
  - unfold send_step. destruct (encapsulate _ _) as [[| |pkt|pkt|pkt] t]; try by intros [= <- <-].
    destruct (if _ : bool then _ else _) as [opening s1] eqn:Eo.
    assert (last_valid_rx s1 = last_valid_rx s) as <-.
    { destruct (negb _ && _); [|by injection Eo as <- <-].
      destruct (apply_obfuscation _ _ _ _) as [[[burst|] counter] ds]; by injection Eo as <- <-. }
    destruct opening; [|done]. destruct (_ && negb _); [destruct (send_post_handshake_junk _ _)|];
      by intros [= <- <-].
  - done.
  - unfold timer_step. destruct (update_timers _) as [[| |pkt|pkt|pkt] t]; try by intros [= <- <-].
    destruct (is_enabled (noise cfg)); [destruct (send_keepalive_junk _ _)|]; by intros [= <- <-].
  - unfold health_step. destruct (_ >=? _); [done|].
    destruct (build_dataplane_probe _ _) as [probe ds].
    destruct (send_dataplane_probe _ _ _) as [[sent r] t]. by intros [= <- <-].
Qed.

Lemma run_valid evs s outs s' :
  wg_run cfg evs s = (outs, Running s') → last_valid_rx s' = default (last_valid_rx s) (last (valid_times s evs)).
Proof.
  revert s outs. induction evs as [|ev evs IH]; intros s outs E.
  - by injection E as <- <-.
  - apply wg_run_cons in E as [(r & _ & [=])|(o1 & o2 & s1 & E1 & E2 & ->)].
    cbn [valid_times]. rewrite E1. cbn [snd]. rewrite (IH _ _ E2), (step_valid _ _ _ _ E1).
    rewrite last_app. by destruct (last (valid_times s1 evs)).
Qed.

Lemma wg_run_app a b s :
  wg_run cfg (a ++ b) s =
    match wg_run cfg a s with
    | (o1, Running s1) => let '(o2, st) := wg_run cfg b s1 in (o1 ++ o2, st)
    | r => r
    end.
Proof.
  revert s. induction a as [|ev a IH]; intros s; cbn [app wg_run].
  - by destruct (wg_run cfg b s).
  - destruct (wg_step cfg ev s) as [o [s1|r]]; [|done]. rewrite IH.
    destruct (wg_run cfg a s1) as [o1 [s2|r]]; [|done].
    destruct (wg_run cfg b s2) as [o2 st]. by rewrite app_assoc.
Qed.

(** The health check ends the tunnel as stale exactly when the peer has
    been silent for the stale timeout: counted from the last datagram the noise
    protocol took, or from the start when there was none. *)
Theorem stale_exactly_when_silent evs s outs s' now :
  wg_run cfg evs s = (outs, Running s') →
  wg_run cfg (evs ++ [HealthCheck now]) s = (outs, Ended (Err stale_error)) ↔
  stale_timeout cfg ≤ now - default (last_valid_rx s) (last (valid_times s evs)).
Proof.
  intros E. rewrite wg_run_app, E. cbn [wg_run wg_step]. rewrite <- (run_valid _ _ _ _ E).
  unfold health_step. destruct (now - last_valid_rx s' >=? stale_timeout cfg) eqn:El.
  - rewrite app_nil_r. split; [lia|done].
  - destruct (build_dataplane_probe _ _) as [probe ds].
    destruct (send_dataplane_probe _ _ _) as [[sent r] t]. split; [done|lia].
Qed.

Lemma run_transient kind k s : is_transient_socket_error kind = true →
  0 ≤ transient_errors s → transient_errors s + Z.of_nat k ≤ MAX_TRANSIENT_RECV_ERRORS →
  wg_run cfg (replicate k (Received 0 (inr kind))) s
  = ([], Running (set_transient (transient_errors s + Z.of_nat k) s)).
Proof.
  intros Hk. revert s. induction k as [|k IH]; intros s Hz Hm.
  - cbn. rewrite Z.add_0_r. by destruct s.
  - cbn [replicate wg_run wg_step]. unfold recv_step. rewrite Hk. cbn [set_transient transient_errors].
    destruct (_ >? _) eqn:E; [lia|]. rewrite IH; cbn [set_transient transient_errors]; [|lia..].
    unfold set_transient. cbn. by replace (transient_errors s + 1 + Z.of_nat k)
      with (transient_errors s + Z.of_nat (S k)) by lia.
Qed.

(** The tunnel rides out 64 socket errors in a row that may pass, gives up
    at the 65th, and at once at an error that does not pass. *)
Theorem recv_patience kind k s :
  transient_errors s = 0 →
  (is_transient_socket_error kind = true → (k ≤ 64)%nat →
     ∃ s', wg_run cfg (replicate k (Received 0 (inr kind))) s = ([], Running s')) ∧
  (is_transient_socket_error kind = true →
     wg_run cfg (replicate 65 (Received 0 (inr kind))) s = ([], Ended (Ok tt))) ∧
  (is_transient_socket_error kind = false →
     wg_run cfg [Received 0 (inr kind)] s = ([], Ended (Ok tt))).
Proof.
  intros Hs. unfold MAX_TRANSIENT_RECV_ERRORS in *. split_and!.
  - intros Hk Hm. eexists. apply run_transient; [done|lia|unfold MAX_TRANSIENT_RECV_ERRORS; lia].
  - intros Hk. change 65%nat with (64 + 1)%nat. rewrite replicate_add, wg_run_app, run_transient;
      [|done|lia|unfold MAX_TRANSIENT_RECV_ERRORS; lia].
    cbn [replicate wg_run wg_step]. unfold recv_step. rewrite Hk. cbn [set_transient transient_errors].
    rewrite Hs. done.
  - intros Hk. cbn. by rewrite Hk.
Qed.
End runs.

(** ** Verification of an endpoint

    [verify_endpoint_keep_session] and [verify_dataplane]: a handshake, then,
    unless switched off, packets through the tunnel and back. *)

Definition VERIFY_RETRY_DELAYS : list Z := [750; 2000].
Definition DATAPLANE_REQUIRED_SUCCESSES : Z := 2.
Definition DATAPLANE_PROBE_GAP : Z := 600.

(** The two loops, with their locals. *)
Inductive phase :=
| Handshaking (retry_index : Z)
| Dataplane (probe : bytes) (successes last_probe_at resend_at : Z).

Inductive verify_status `{Tunn} :=
| Verifying (ph : phase) (t : tunn) (ds : list Z)
| Verified (elapsed : Z) (t : tunn)
| Refused (e : AetherError).

(** One arm of [select!] with the time it fires at. *)
Inductive arm :=
| Recv (at_ : Z) (r : bytes + bytes)
| Tick (at_ : Z)
| Slept.

(** One round of a loop: the time at its top, how a send that matters ends in
    it ([None] when it works), and the arm. *)
Record verify_event := VerifyEvent { top : Z; send_error : option bytes; fired : arm }.

Section verify.
Context `{Tunn} (cid : bytes) (local : Z) (start deadline : Z) (data_check : bool).

Definition timeout_error : AetherError := EOther (lit "verify timeout").
Definition dataplane_timeout : AetherError := EOther (lit "dataplane timeout").

(** The entry of [verify_dataplane]: the first probe is sent. *)
Definition enter_dataplane (at_ : Z) (err : option bytes) (t : tunn) (ds : list Z)
  : list bytes * verify_status :=
  let '(probe, ds) := build_dataplane_probe local ds in
  let '(sent, r, t) := send_dataplane_probe t cid probe in
  match r with
  | Err e => ([], Refused e)
  | Panic => ([], Refused timeout_error)
  | Ok _ =>
      match sent, err with
      | _ :: _, Some text => (sent, Refused (EIo text))
      | _, _ => (sent, Verifying (Dataplane probe 0 at_ (at_ + 700)) t ds)
      end
  end.

(** The handshake is done at [at_]. *)
Definition handshake_done (at_ : Z) (err : option bytes) (t : tunn) (ds : list Z)
  : list bytes * verify_status :=
  if data_check then enter_dataplane at_ err t ds else ([], Verified (at_ - start) t).

(** A packet that must go out: the loop ends when sending it fails. *)
Definition must_send (pkt : bytes) (err : option bytes) (next : list bytes * verify_status)
  : list bytes * verify_status :=
  match err with
  | Some text => ([pkt], Refused (EIo text))
  | None => (pkt :: next.1, next.2)
  end.

Definition handshake_round (init_packet : bytes) (retry_index : Z) (t : tunn) (ds : list Z)
  (ev : verify_event) : list bytes * verify_status :=
  if top ev >=? deadline then ([], Refused timeout_error)
  else
    match fired ev with
    | Recv at_ (inr text) => ([], Refused (EIo text))
    | Recv at_ (inl []) => ([], Verifying (Handshaking retry_index) t ds)
    | Recv at_ (inl buf) =>
        let '(res, t) := decapsulate t (strip_client_id buf) in
        match res with
        | TDone => handshake_done at_ (send_error ev) t ds
        | WriteToNetwork pkt =>
            must_send (inject_client_id pkt cid) (send_error ev)
              (handshake_done at_ (send_error ev) t ds)
        | _ => ([], Verifying (Handshaking retry_index) t ds)
        end
    | Tick at_ =>
        let timers (retry_index : Z) : list bytes * verify_status :=
          let '(res, t) := update_timers t in
          match res with
          | WriteToNetwork pkt =>
              must_send (inject_client_id pkt cid) (send_error ev)
                ([], Verifying (Handshaking retry_index) t ds)
          | TErr e => ([], Refused (EOther (lit "wireguard timer failed: " ++ e)))
          | _ => ([], Verifying (Handshaking retry_index) t ds)
          end in
        match get VERIFY_RETRY_DELAYS retry_index with
        | Some delay =>
            if at_ - start >=? delay then
              must_send init_packet (send_error ev) (timers (retry_index + 1))
            else timers retry_index
        | None => timers retry_index
        end
    | Slept => ([], Refused timeout_error)
    end.

(** A probe whose sending may fail without harm. *)
Definition resend (probe : bytes) (t : tunn) : list bytes * tunn :=
  let '(sent, _, t) := send_dataplane_probe t cid probe in (sent, t).

Definition dataplane_round (probe : bytes) (successes last_probe_at resend_at : Z) (t : tunn)
  (ds : list Z) (ev : verify_event) : list bytes * verify_status :=
  let now := top ev in
  if now >=? deadline then ([], Refused dataplane_timeout)
  else
    let '(sent, t, last_probe_at, resend_at) :=
      if now >=? resend_at then let '(sent, t) := resend probe t in (sent, t, now, now + 700)
      else ([], t, last_probe_at, resend_at) in
    match fired ev with
    | Recv at_ (inr text) => (sent, Refused (EIo text))
    | Recv at_ (inl buf) =>
        let '(res, t) := decapsulate t (strip_client_id buf) in
        match res with
        | WriteToTunnelV4 _ | WriteToTunnelV6 _ =>
            let successes := successes + 1 in
            if successes >=? DATAPLANE_REQUIRED_SUCCESSES then (sent, Verified (at_ - start) t)
            else
              let next_at := Z.max at_ (last_probe_at + DATAPLANE_PROBE_GAP) in
              let '(more, t) := resend probe t in
              (sent ++ more, Verifying (Dataplane probe successes next_at (next_at + 700)) t ds)
        | WriteToNetwork pkt =>
            (sent ++ [inject_client_id pkt cid],
             Verifying (Dataplane probe successes last_probe_at resend_at) t ds)
        | _ => (sent, Verifying (Dataplane probe successes last_probe_at resend_at) t ds)
        end
    | _ => (sent, Verifying (Dataplane probe successes last_probe_at resend_at) t ds)
    end.

Definition verify_round (init_packet : bytes) (ph : phase) (t : tunn) (ds : list Z) (ev : verify_event)
  : list bytes * verify_status :=
  match ph with
  | Handshaking retry_index => handshake_round init_packet retry_index t ds ev
  | Dataplane probe successes last_probe_at resend_at =>
      dataplane_round probe successes last_probe_at resend_at t ds ev
  end.

Fixpoint verify_run (init_packet : bytes) (evs : list verify_event) (st : verify_status)
  : list bytes * verify_status :=
  match evs, st with
  | ev :: evs, Verifying ph t ds =>
      let '(sent, st) := verify_round init_packet ph t ds ev in
      let '(more, st) := verify_run init_packet evs st in
      (sent ++ more, st)
  | _, _ => ([], st)
  end.
End verify.

(** [verify_endpoint_keep_session] from a bound socket: the obfuscation, the
    handshake's first message, the loops. *)
Definition verify_endpoint_keep_session `{Tunn, HexCrate, TagRegex} `{w : arch} (cid : bytes)
  (local start timeout : Z) (env : environment) (noise : AetherNoizeConfig) (counter : Z)
  (t : tunn) (ds : list Z) (first_send : option bytes) (evs : list verify_event)
  : list bytes * verify_status :=
  let data_check := match env (lit "AETHER_WG_NO_DATA_CHECK") with Some _ => false | None => true end in
  let deadline := start + timeout in
  let '((burst, _), ds) :=
    if is_enabled noise then apply_obfuscation noise (start / 1000) counter ds
    else ((Some [], counter), ds) in
  let '(res, t) := encapsulate t [] in
  match res with
  | WriteToNetwork pkt =>
      let init_packet := inject_client_id pkt cid in
      match first_send with
      | Some text => (default [] burst ++ [init_packet], Refused (EIo text))
      | None =>
          let '(sent, st) := verify_run cid local start deadline data_check init_packet evs
            (Verifying (Handshaking 0) t ds) in
          (default [] burst ++ init_packet :: sent, st)
      end
  | _ => (default [] burst, Refused (EOther (lit "handshake init failed")))
  end.

(** ** Verification: facts *)

Section verify_facts.
Context `{Tunn} (cid : bytes) (local start deadline : Z).
Context (init_packet : bytes).

(** A packet that came back through the tunnel while the data plane is checked. *)
Definition round_trip (st : verify_status) (ev : verify_event) : nat :=
  match st with
  | Verifying (Dataplane probe _ _ resend_at) t _ =>
      let t := if top ev >=? resend_at then (resend cid probe t).2 else t in
      match fired ev with
      | Recv _ (inl buf) =>
          match (decapsulate t (strip_client_id buf)).1 with
          | WriteToTunnelV4 _ | WriteToTunnelV6 _ => 1
          | _ => 0
          end
      | _ => 0
      end
  | _ => 0
  end.

(** How many of them a sequence of rounds sees. *)
Fixpoint round_trips (st : verify_status) (evs : list verify_event) : nat :=
  match evs, st with
  | ev :: evs, Verifying ph t ds =>
      round_trip st ev + round_trips (verify_round cid local start deadline true init_packet ph t ds ev).2 evs
  | _, _ => 0
  end.

(** The round trips seen so far. *)
Definition seen (st : verify_status) : Z :=
  match st with
  | Verifying (Handshaking _) _ _ => 0
  | Verifying (Dataplane _ successes _ _) _ _ => successes
  | _ => 2
  end.

Definition not_refused (st : verify_status) : Prop := match st with Refused _ => False | _ => True end.

Lemma must_send_not_refused pkt err next :
  not_refused (must_send pkt err next).2 → (must_send pkt err next).2 = next.2.
Proof. by destruct err. Qed.

Lemma enter_dataplane_seen at_ err t ds :
  not_refused (enter_dataplane cid local at_ err t ds).2 → seen (enter_dataplane cid local at_ err t ds).2 = 0.
Proof.
  unfold enter_dataplane. destruct (build_dataplane_probe local ds) as [probe ds'].
  destruct (send_dataplane_probe t cid probe) as [[sent [|e|]] t']; [|done..].
  by destruct sent, err.
Qed.

Lemma handshake_round_seen i t ds ev :
  let st := (handshake_round cid local start deadline true init_packet i t ds ev).2 in
  not_refused st → seen st = 0.
Proof.
  unfold handshake_round. destruct (_ >=? deadline); [done|].
  destruct (fired ev) as [at_ [[|b d]|text]|at_|]; [done| |done| |done].
  - destruct (decapsulate _ _) as [[| |pkt| |] t']; try done.
    + cbn. apply enter_dataplane_seen.
    + cbn -[handshake_done]. intros Hn. rewrite must_send_not_refused in Hn |- * by done.
      by apply enter_dataplane_seen.
  - assert (Ht : ∀ i, let st := (let '(res, t) := update_timers t in
      match res with
      | WriteToNetwork pkt => must_send (inject_client_id pkt cid) (send_error ev)
          ([], Verifying (Handshaking i) t ds)
      | TErr e => ([], Refused (EOther (lit "wireguard timer failed: " ++ e)))
      | _ => ([], Verifying (Handshaking i) t ds)
      end).2 in not_refused st → seen st = 0).
    { intros j. destruct (update_timers t) as [[| |pkt| |] t']; try done.
      cbn. intros Hn. by rewrite must_send_not_refused by done. }
    destruct (get _ _) as [delay|]; [|apply Ht]. destruct (_ >=? delay); [|apply Ht].
    cbn. intros Hn. rewrite must_send_not_refused in Hn |- * by done. by apply Ht.
Qed.

Lemma dataplane_round_seen probe n last_at resend_at t ds ev :
  n < 2 →
  let st0 := Verifying (Dataplane probe n last_at resend_at) t ds in
  let st := (dataplane_round cid start deadline probe n last_at resend_at t ds ev).2 in
  not_refused st →
  seen st = n + Z.of_nat (round_trip st0 ev) ∧
  (match st with Verifying _ _ _ => seen st < 2 | _ => True end).
Proof.
  intros Hn. unfold dataplane_round, round_trip. destruct (top ev >=? deadline); [done|].
  destruct (top ev >=? resend_at); [destruct (resend cid probe t) as [sent t1]|]; cbn [snd].
  all: destruct (fired ev) as [at_ [buf|text]|at_|]; try (cbn; lia); try done.
  all: destruct (decapsulate _ _) as [[| |pkt|pkt|pkt] t']; cbn [fst snd seen not_refused]; try (cbn; lia).
  all: unfold DATAPLANE_REQUIRED_SUCCESSES; destruct (n + 1 >=? 2) eqn:E; cbn [snd seen not_refused]; try lia.
  all: destruct (resend cid probe t') as [more t2]; cbn [snd seen]; lia.
Qed.

Lemma round_seen ph t ds ev :
  seen (Verifying ph t ds) < 2 →
  let st := (verify_round cid local start deadline true init_packet ph t ds ev).2 in
  not_refused st →
  seen st = seen (Verifying ph t ds) + Z.of_nat (round_trip (Verifying ph t ds) ev) ∧
  match st with Verifying _ _ _ => seen st < 2 | _ => True end.
Proof.
  destruct ph as [i|probe n last_at resend_at]; cbn [seen verify_round].
  - intros _. set (st := snd _). cbv zeta. intros Hn.
    pose proof (handshake_round_seen i t ds ev Hn) as Hs. fold st in Hs.
    rewrite Hs. split; [done|]. by destruct st.
  - intros Hn. by apply dataplane_round_seen.
Qed.

(** The rounds up to the answer: none began after the deadline. *)
Definition in_time (evs : list verify_event) (st : verify_status) (sent : list bytes) (r : verify_status)
  : Prop :=
  ∃ used rest, evs = used ++ rest ∧ used ≠ [] ∧ Forall (λ ev, top ev < deadline) used ∧
    verify_run cid local start deadline true init_packet used st = (sent, r).

Lemma round_in_time ph t ds ev o st :
  verify_round cid local start deadline true init_packet ph t ds ev = (o, st) → not_refused st →
  top ev < deadline.
Proof.
  intros Er Hn. destruct (Z.lt_ge_cases (top ev) deadline) as [|Hge]; [done|].
  assert (top ev >=? deadline = true) as Hb by lia.
  exfalso. destruct ph; cbn in Er; unfold handshake_round, dataplane_round in Er;
    rewrite Hb in Er; by injection Er as <- <-.
Qed.

Lemma verify_run_seen elapsed t' evs : ∀ ph t ds sent, seen (Verifying ph t ds) < 2 →
  verify_run cid local start deadline true init_packet evs (Verifying ph t ds) = (sent, Verified elapsed t') →
  seen (Verifying ph t ds) + Z.of_nat (round_trips (Verifying ph t ds) evs) = 2 ∧
  in_time evs (Verifying ph t ds) sent (Verified elapsed t').
Proof.
  induction evs as [|ev evs IH]; intros ph t ds sent Hs E; [done|].
  cbn [verify_run] in E.
  destruct (verify_round cid local start deadline true init_packet ph t ds ev) as [o st1] eqn:Er.
  destruct (verify_run cid local start deadline true init_packet evs st1) as [more st2] eqn:E2.
  injection E as <- ->.
  assert (not_refused st1) as Hn by (destruct st1; [done..|by destruct evs]).
  pose proof (round_seen ph t ds ev Hs) as H1. rewrite Er in H1. cbn [snd] in H1.
  destruct (H1 Hn) as [Hse Hlt]. pose proof (round_in_time _ _ _ _ _ _ Er Hn) as Ht.
  cbn [round_trips]. rewrite Er. cbn [snd].
  destruct st1 as [ph1 t1 ds1|el t1|e]; [| |done].
  - apply IH in E2 as [Hsum (used & rest & -> & Hne & Hf & E2)]; [|done]. split; [lia|].
    exists (ev :: used), rest. split_and!; [done..|by constructor|]. cbn [verify_run]. by rewrite Er, E2.
  - assert (round_trips (Verified el t1) evs = 0%nat) as -> by (by destruct evs).
    cbn [seen] in *. split; [lia|]. exists [ev], evs. split_and!; [done..|by constructor|].
    cbn [verify_run]. rewrite Er. destruct evs; by injection E2 as <- -> ->.
Qed.

(** An endpoint that passes the check with data has carried packets both
    ways: exactly two came back through the tunnel after the handshake, and no
    round up to the answer began after the deadline. *)
Theorem verified_after_two_round_trips evs t ds sent elapsed t' :
  verify_run cid local start deadline true init_packet evs (Verifying (Handshaking 0) t ds)
    = (sent, Verified elapsed t') →
  round_trips (Verifying (Handshaking 0) t ds) evs = 2%nat ∧
  in_time evs (Verifying (Handshaking 0) t ds) sent (Verified elapsed t').
Proof.
  intros E. apply verify_run_seen in E as [Hs Ht]; [|done]. split; [|done]. cbn [seen] in Hs. lia.
Qed.
End verify_facts.

(** ** Witnesses

    A protocol to run the model with: the state is not used, a packet goes out
    as a data message, a data message comes in as its packet, anything else is
    an error, the timer asks for a keepalive. *)
#[local] Instance toy_tunn : Tunn := {
  tunn := ();
  encapsulate t p := (WriteToNetwork (4 :: 0 :: 0 :: 0 :: p), t);
  decapsulate t m :=
    (match m with
     | [4; 0; 0; 0] => TDone
     | 4 :: 0 :: 0 :: 0 :: p => WriteToTunnelV4 p
     | _ => TErr (lit "InvalidPacket")
     end, t);
  update_timers t := (WriteToNetwork [4; 0; 0; 0], t);
}.

#[local] Instance toy_messages : TunnMessages.
Proof.
  split.
  - intros [] p pkt [] [= <-]. exists 4, p. split; [done|lia].
  - intros [] p pkt [] E. exfalso. cbn in E. by repeat (case_match; simplify_eq/=).
  - intros [] pkt [] [= <-]. exists 4, []. split; [done|lia].
Qed.

#[local] Instance no_tags : TagRegex := λ _, [].

Definition toy_config : WgConfig :=
  {| client_id := [7; 8; 9]; local_ipv4 := 1; noise := light; stale_timeout := 10000 |}.

Definition toy_events : list wg_event :=
  [Received 1000 (inl [4; 1; 2; 3; 69]); Received 1500 (inl [9; 9]); Received 1600 (inr TimedOut); TimerTick].

Lemma tunnel_refines_wireguard_witness :
  let run := wg_run (w := W32) toy_config toy_events (new_tunnel (tt : @tunn toy_tunn) 0 1 []) in
  ∃ pevss, Forall2 (plain_of toy_config) toy_events pevss ∧
    plain_run (tt : @tunn toy_tunn) (concat pevss) = (flat_map erase run.1, tt).
Proof.
  cbv zeta. destruct (wg_run (w := W32) toy_config toy_events (new_tunnel (tt : @tunn toy_tunn) 0 1 []))
    as [outs [s'|r]] eqn:E; [|vm_compute in E; discriminate].
  destruct (tunnel_refines_wireguard (w := W32) toy_config eq_refl toy_events
    (new_tunnel (tt : @tunn toy_tunn) 0 1 []) outs s' E) as (pevss & H1 & H2).
  exists pevss. split; [exact H1|]. destruct (tn s'). exact H2.
Defined.

Lemma messages_carry_client_id_witness :
  Forall (out_ok toy_config)
    (wg_run (w := W32) toy_config toy_events (new_tunnel (tt : @tunn toy_tunn) 0 1 [])).1.
Proof. apply (messages_carry_client_id (w := W32) toy_config); cbn; lia. Defined.

Lemma obfuscation_sent_once_witness :
  let run := wg_run (w := W32) toy_config [Outbound 0 [69]; Outbound 5 [69]]
    (new_tunnel (tt : @tunn toy_tunn) 0 1 []) in
  (count is_opening run.1 ≤ 1)%nat ∧ (count is_after run.1 ≤ 1)%nat.
Proof.
  cbv zeta. destruct (wg_run (w := W32) toy_config [Outbound 0 [69]; Outbound 5 [69]]
    (new_tunnel (tt : @tunn toy_tunn) 0 1 [])) as [outs st] eqn:E.
  exact (obfuscation_sent_once (w := W32) toy_config _ _ outs st E).
Defined.

Lemma stale_exactly_when_silent_witness :
  let s := new_tunnel (tt : @tunn toy_tunn) 0 1 [] in
  wg_run (w := W32) toy_config ([Received 1000 (inl [4; 0; 0; 0; 69])] ++ [HealthCheck 11000]) s
    = ([Inward [69]], Ended (Err stale_error)).
Proof.
  apply (stale_exactly_when_silent (w := W32) toy_config _ _ [Inward [69]]
    (set_valid 1000 (new_tunnel (tt : @tunn toy_tunn) 0 1 []))); [reflexivity|vm_compute; congruence].
Defined.

Lemma recv_patience_witness :
  wg_run (w := W32) toy_config (replicate 65 (Received 0 (inr TimedOut)))
    (new_tunnel (tt : @tunn toy_tunn) 0 1 []) = ([], Ended (Ok tt)).
Proof.
  exact (proj1 (proj2 (recv_patience (w := W32) toy_config TimedOut 3
    (new_tunnel (tt : @tunn toy_tunn) 0 1 []) eq_refl)) eq_refl).
Defined.

Definition toy_rounds : list verify_event :=
  [VerifyEvent 10 None (Recv 20 (inl [4; 1; 2; 3])); VerifyEvent 20 None (Recv 40 (inl [4; 1; 2; 3; 69]));
   VerifyEvent 40 None (Recv 60 (inl [4; 1; 2; 3; 69]))].
Definition toy_start : verify_status := Verifying (Handshaking 0) (tt : @tunn toy_tunn) [].

Lemma verified_after_two_round_trips_witness :
  round_trips [7; 8; 9] 1 0 1000 [1] toy_start toy_rounds = 2%nat.
Proof.
  destruct (verify_run [7; 8; 9] 1 0 1000 true [1] toy_rounds toy_start)
    as [sent [ph t ds|elapsed t'|e]] eqn:E; [vm_compute in E; discriminate| |vm_compute in E; discriminate].
  exact (proj1 (verified_after_two_round_trips [7; 8; 9] 1 0 1000 [1] toy_rounds (tt : @tunn toy_tunn) []
    sent elapsed t' E)).
Defined.

(** ** The probe: facts *)

(** The probe is the one of the MASQUE tunnel, built a second time. *)
Lemma build_dns_query_eq id : build_dns_query id = probe_dns_query id.
Proof. reflexivity. Qed.

Lemma ipv4_checksum_eq header : ipv4_checksum header = ipv4_header_checksum header.
Proof. reflexivity. Qed.

Lemma dataplane_probe_eq src ds :
  (build_dataplane_probe src ds).1 =
    build_dns_probe_packet src (as_u16 (hd 0 ds)) (as_u16 (hd 0 (tl ds)))
      (random_range 20000 59999 (hd 0 (tl (tl ds)))).
Proof.
  cbv [build_dataplane_probe mbind rnd_bind draw rnd_range mret rnd_ret fst build_dns_probe_packet].
  by rewrite build_dns_query_eq, ipv4_checksum_eq.
Qed.

(** The probe of the data plane is a well-formed IPv4/UDP packet for every
    source address and every draw: its length field is its length, its header
    checksum verifies, its UDP length is right and the tunnel's own test takes
    it for an IP packet. *)
Theorem dataplane_probe_valid src ds :
  ip_ok (V4 src) →
  let p := (build_dataplane_probe src ds).1 in
  blen p = 60 ∧ be_val (takez 2 (dropz 2 p)) = blen p ∧
  be_val (takez 2 (dropz 24 p)) = blen p - 20 ∧
  ipv4_checksum (takez 20 p) = 0 ∧ looks_like_ip_packet p = true.
Proof.
  intros Hs. cbv zeta. rewrite ipv4_checksum_eq, dataplane_probe_eq. apply probe_packet_shape; [done|].
  unfold u16, as_u16. pose proof (Z.mod_pos_bound (hd 0 (tl ds)) (2 ^ 16)). lia.
Qed.

Lemma dataplane_probe_valid_witness :
  let p := (build_dataplane_probe (172 * 2 ^ 24 + 2) [7; 9]).1 in
  blen p = 60 ∧ be_val (takez 2 (dropz 2 p)) = blen p ∧
  be_val (takez 2 (dropz 24 p)) = blen p - 20 ∧
  ipv4_checksum (takez 20 p) = 0 ∧ looks_like_ip_packet p = true.
Proof. apply dataplane_probe_valid. cbn. lia. Defined.
