(* ===== verification/BTree.v ===== *)
(** * Ordered maps, as [std::collections::BTreeMap] has them

    A map from integers is its list of entries in the order of their keys.
    The operations are those the QUIC library uses; on a list that is not
    sorted they mean nothing, and they keep a sorted one sorted. *)

From S2P Require Import Prelude.

Section btree.
Context {V : Type}.
Implicit Types (l : list (Z * V)) (k : Z) (v : V).

(** Strictly increasing keys, all above [lo]. *)
Fixpoint bt_sorted (lo : Z) l : Prop :=
  match l with
  | [] => True
  | (k, _) :: r => lo < k ∧ bt_sorted k r
  end.

(** [insert]: a present key takes the new value. *)
Fixpoint bt_insert k v l : list (Z * V) :=
  match l with
  | [] => [(k, v)]
  | (k', v') :: r =>
      if k <? k' then (k, v) :: (k', v') :: r
      else if k =? k' then (k, v) :: r
      else (k', v') :: bt_insert k v r
  end.

(** [remove]. *)
Definition bt_remove k l : list (Z * V) := List.filter (λ p, negb (p.1 =? k)) l.

(** [range(k..)] and [range(..=k)]. *)
Definition bt_from k l : list (Z * V) := List.filter (λ p, k <=? p.1) l.
Definition bt_upto k l : list (Z * V) := List.filter (λ p, p.1 <=? k) l.

(** [first_key_value] and [pop_first]. *)
Definition bt_first l : option (Z * V) := head l.
Definition bt_pop_first l : list (Z * V) := tail l.

Lemma bt_sorted_weaken lo lo' l : lo ≤ lo' → bt_sorted lo' l → bt_sorted lo l.
Proof. destruct l as [|[k v] r]; cbn; [done|]. intros ? [? ?]. split; [lia|done]. Qed.

Lemma bt_sorted_above lo l : bt_sorted lo l → Forall (λ p, lo < p.1) l.
Proof.
  revert lo. induction l as [|[k v] r IH]; intros lo; cbn; [constructor|]. intros [Hk Hr].
  constructor; [done|]. eapply Forall_impl; [by apply IH|]. cbn. intros p ?. lia.
Qed.

Lemma bt_sorted_app_r lo l1 l2 : bt_sorted lo (l1 ++ l2) → ∃ lo', bt_sorted lo' l2.
Proof.
  revert lo. induction l1 as [|[k v] l1 IH]; intros lo; cbn; [eauto|]. intros [_ H]. by apply IH in H.
Qed.

Lemma bt_sorted_app_l lo l1 l2 : bt_sorted lo (l1 ++ l2) → bt_sorted lo l1.
Proof.
  revert lo. induction l1 as [|[k v] l1 IH]; intros lo; cbn; [done|]. intros [? H]. split; [done|]. by apply IH.
Qed.

Lemma bt_insert_sorted lo k v l : lo < k → bt_sorted lo l → bt_sorted lo (bt_insert k v l).
Proof.
  revert lo. induction l as [|[k' v'] r IH]; intros lo Hk; cbn; [done|]. intros [Hk' Hr].
  destruct (Z.ltb_spec k k'); [by repeat split|].
  destruct (Z.eqb_spec k k') as [->|]; [done|]. split; [done|]. apply IH; [lia|done].
Qed.

(** Below every key, between two parts, and above every key. *)
Lemma bt_insert_middle k v l1 l2 :
  Forall (λ p, p.1 < k) l1 → Forall (λ p, k < p.1) l2 → bt_insert k v (l1 ++ l2) = l1 ++ (k, v) :: l2.
Proof.
  intros H1 H2. induction H1 as [|[k' v'] l1 Hk' _ IH]; cbn.
  - destruct H2 as [|[k' v'] l2 Hk' _]; cbn in *; [done|]. destruct (Z.ltb_spec k k'); [done|lia].
  - cbn in Hk'. destruct (Z.ltb_spec k k'); [lia|]. destruct (Z.eqb_spec k k'); [lia|]. by rewrite IH.
Qed.

Lemma bt_insert_present k v v' l1 l2 :
  Forall (λ p, p.1 < k) l1 → bt_insert k v (l1 ++ (k, v') :: l2) = l1 ++ (k, v) :: l2.
Proof.
  intros H1. induction H1 as [|[k1 v1] l1 Hk' _ IH]; cbn.
  - rewrite Z.ltb_irrefl, Z.eqb_refl. done.
  - cbn in Hk'. destruct (Z.ltb_spec k k1); [lia|]. destruct (Z.eqb_spec k k1); [lia|]. by rewrite IH.
Qed.

Lemma bt_remove_middle k v l1 l2 :
  Forall (λ p, p.1 < k) l1 → Forall (λ p, k < p.1) l2 → bt_remove k (l1 ++ (k, v) :: l2) = l1 ++ l2.
Proof.
  intros H1 H2. unfold bt_remove. rewrite List.filter_app. cbn. rewrite Z.eqb_refl. cbn.
  assert (Hid : ∀ l, Forall (λ p, p.1 ≠ k) l → List.filter (λ p, negb (p.1 =? k)) l = l).
  { intros l. induction 1 as [|p l Hp _ IH]; cbn; [done|].
    destruct (Z.eqb_spec p.1 k); [done|]. cbn. by rewrite IH. }
  rewrite !Hid; [done| |].
  - eapply Forall_impl; [exact H2|]. cbn. lia.
  - eapply Forall_impl; [exact H1|]. cbn. lia.
Qed.

Lemma bt_from_middle k l1 l2 :
  Forall (λ p, p.1 < k) l1 → Forall (λ p, k ≤ p.1) l2 → bt_from k (l1 ++ l2) = l2.
Proof.
  intros H1 H2. unfold bt_from. rewrite List.filter_app.
  assert (E1 : List.filter (λ p, k <=? p.1) l1 = []).
  { induction H1 as [|p l1 Hp _ IH]; cbn; [done|]. destruct (Z.leb_spec k p.1); [lia|done]. }
  rewrite E1. cbn. induction H2 as [|p l2 Hp _ IH]; cbn; [done|].
  destruct (Z.leb_spec k p.1); [by rewrite IH|lia].
Qed.

Lemma bt_upto_middle k l1 l2 :
  Forall (λ p, p.1 ≤ k) l1 → Forall (λ p, k < p.1) l2 → bt_upto k (l1 ++ l2) = l1.
Proof.
  intros H1 H2. unfold bt_upto. rewrite List.filter_app.
  assert (E2 : List.filter (λ p, p.1 <=? k) l2 = []).
  { induction H2 as [|p l2 Hp _ IH]; cbn; [done|]. destruct (Z.leb_spec p.1 k); [lia|done]. }
  rewrite E2, app_nil_r. induction H1 as [|p l1 Hp _ IH]; cbn; [done|].
  destruct (Z.leb_spec p.1 k); [by rewrite IH|lia].
Qed.

(** A sorted list splits at any key. *)
Lemma bt_split lo k l : bt_sorted lo l →
  ∃ l1 l2, l = l1 ++ l2 ∧ Forall (λ p, p.1 < k) l1 ∧ Forall (λ p, k ≤ p.1) l2.
Proof.
  revert lo. induction l as [|[k' v'] r IH]; intros lo; cbn.
  - intros _. by exists [], [].
  - intros [Hk Hr]. destruct (Z.lt_ge_cases k' k) as [Hlt|Hge].
    + destruct (IH k' Hr) as (l1 & l2 & -> & H1 & H2).
      exists ((k', v') :: l1), l2. split_and!; [done|by constructor|done].
    + exists [], ((k', v') :: r). split_and!; [done..|]. constructor; [done|].
      eapply Forall_impl; [by apply bt_sorted_above|]. cbn. lia.
Qed.
End btree.
