(* ===== verification/Ranges.v ===== *)
(** * Sets of packet numbers

    src/quiche/quiche/src/ranges.rs: a set of unsigned 64-bit numbers kept as
    ranges, in a small vector while there are few of them and in an ordered
    map when there are more, with a capacity beyond which the smallest range
    is given up.  quiche keeps in it the packet numbers it has received and
    has to acknowledge. *)

From S2P Require Import Prelude BTree.

Abbreviation range := (Z * Z)%type (only parsing).

Definition MAX_INLINE_CAPACITY : Z := 4.
Definition MIN_TO_INLINE : Z := 2.

(** The two representations with their capacity. *)
Inductive RangeSet :=
| Inline (inner : list (Z * Z)) (capacity : Z)
| BTree (inner : list (Z * Z)) (capacity : Z).

Definition new (capacity : Z) : RangeSet := Inline [] capacity.
Definition default_set `{w : arch} : RangeSet := Inline [] (usize_max w).

Definition iter (r : RangeSet) : list range := match r with Inline l _ | BTree l _ => l end.
Definition capacity_of (r : RangeSet) : Z := match r with Inline _ c | BTree _ c => c end.
Definition len (r : RangeSet) : Z := blen (iter r).

Definition fixup (r : RangeSet) : RangeSet :=
  match r with
  | Inline l c => if blen l =? MAX_INLINE_CAPACITY then BTree l c else r
  | BTree l c => if blen l <=? MIN_TO_INLINE then Inline l c else r
  end.

(** ** The vector *)

(** [Vec::insert]: out of range it panics. *)
Definition vec_insert (pos : Z) (x : range) (l : list range) : comp () (list range) :=
  if (0 <=? pos) && (pos <=? blen l) then Ok (takez pos l ++ x :: dropz pos l) else Panic.

(** [Vec::remove(0)]. *)
Definition vec_remove_first (l : list range) : comp () (list range) :=
  match l with [] => Panic | _ :: r => Ok r end.

(** What the search of [InlineRangeSet::insert] ends with: the vector, or the
    vector with the place whose range grew and its new end. *)
Inductive found :=
| Settled (l : list range)
| Grown (l : list range) (pos : nat) (end_ : Z).

(** One round of the search at [pos]. *)
Definition inline_step (start end_ : Z) (inner : list range) (capacity : Z) (pos : nat)
  : round nat (comp () found) :=
  match inner !! pos with
  | Some (s, e) =>
      if start >? e then Next (S pos)
      else if end_ <? s then
        Done (if blen inner =? capacity then
                inner ← vec_remove_first inner;
                l ← vec_insert (Z.of_nat pos - 1) (start, end_) inner;
                mret (Settled l)
              else l ← vec_insert (Z.of_nat pos) (start, end_) inner; mret (Settled l))
      else
        let s := if start <? s then start else s in
        Done (Ok (if end_ >? e then Grown (<[pos := (s, end_)]> inner) pos end_
                  else Settled (<[pos := (s, e)]> inner)))
  | None =>
      Done (inner ← (if blen inner =? capacity then vec_remove_first inner else Ok inner);
            mret (Settled (inner ++ [(start, end_)])))
  end.

Definition inline_measure (inner : list range) (pos : nat) : nat := S (length inner) - pos.

(** The ranges after [pos] that the grown range reaches are merged into it. *)
Definition merge_step (pos : nat) (st : list range * Z) : round (list range * Z) (list range) :=
  let '(inner, end_) := st in
  match inner !! S pos with
  | Some (s, e) =>
      if end_ <? s then Done inner
      else
        let new_e := Z.max e end_ in
        Next (delete (S pos) (alter (λ r, (r.1, new_e)) pos inner), new_e)
  | None => Done inner
  end.

Definition merge_measure (st : list range * Z) : nat := length st.1.

Definition inline_insert (start end_ : Z) (inner : list range) (capacity : Z) : comp () (list range) :=
  f ← loop (inline_measure inner) (inline_step start end_ inner capacity) Panic 0%nat;
  match f with
  | Settled l => Ok l
  | Grown l pos end_ => Ok (loop merge_measure (merge_step pos) l (l, end_))
  end.

Definition inline_remove_step (largest : Z) (inner : list range) : round (list range) (list range) :=
  match inner with
  | [] => Done inner
  | (s, e) :: r =>
      if largest >=? e then Next r
      else
        let s := Z.max (largest + 1) s in
        Done (if s =? e then r else (s, e) :: r)
  end.

Definition inline_remove_until (largest : Z) (inner : list range) : list range :=
  loop (λ l : list range, length l) (inline_remove_step largest) inner inner.

(** ** The map *)

Definition range_overlaps (r other : range) : bool :=
  ((other.1 >=? r.1) && (other.1 <=? r.2)) || ((other.2 >=? r.1) && (other.2 <=? r.2)).

(** [item.contains(x)]. *)
Definition range_contains (item : range) (x : Z) : bool := (item.1 <=? x) && (x <? item.2).

Definition prev_to (item : Z) (inner : list range) : option range := last (bt_upto item inner).
Definition next_to (item : Z) (inner : list range) : option range := head (bt_from item inner).

(** One round of the loop over the following ranges. *)
Definition follow_step (item : range) (st : list range * range)
  : round (list range * range) (list range * range) :=
  let '(inner, (start, end_)) := st in
  match next_to start inner with
  | None => Done st
  | Some r =>
      if range_contains item r.1 && range_contains item r.2 then Next (bt_remove r.1 inner, (start, end_))
      else if negb (range_overlaps r item) then Done st
      else Next (bt_remove r.1 inner, (Z.min start r.1, Z.max end_ r.2))
  end.

Definition follow_measure (st : list range * range) : nat := length st.1.

Definition btree_insert (item : range) (inner : list range) (capacity : Z) : list range :=
  let '(start, end_) := item in
  let '(inner, (start, end_)) :=
    match prev_to start inner with
    | Some r =>
        if range_overlaps r item then (bt_remove r.1 inner, (Z.min start r.1, Z.max end_ r.2))
        else (inner, (start, end_))
    | None => (inner, (start, end_))
    end in
  let '(inner, (start, end_)) :=
    loop follow_measure (follow_step item) (inner, (start, end_)) (inner, (start, end_)) in
  let inner := if blen inner >=? capacity then bt_pop_first inner else inner in
  bt_insert start end_ inner.

Definition btree_remove_until (largest : Z) (inner : list range) (capacity : Z) : list range :=
  fold_left
    (λ inner r,
       let inner := bt_remove r.1 inner in
       if r.2 >? largest + 1 then btree_insert (largest + 1, r.2) inner capacity else inner)
    (bt_upto largest inner) inner.

(** ** The set *)

Definition insert (item : range) (r : RangeSet) : comp () RangeSet :=
  r ← match r with
      | Inline l c => l ← inline_insert item.1 item.2 l c; mret (Inline l c)
      | BTree l c => mret (BTree (btree_insert item l c) c)
      end;
  mret (fixup r).

Definition remove_until (largest : Z) (r : RangeSet) : RangeSet :=
  fixup match r with
        | Inline l c => Inline (inline_remove_until largest l) c
        | BTree l c => BTree (btree_remove_until largest l c) c
        end.

Definition push_item (item : Z) (r : RangeSet) : comp () RangeSet := insert (item, item + 1) r.

(** [last]: the largest value. *)
Definition last_value (r : RangeSet) : option Z := option_map (λ p, p.2 - 1) (last (iter r)).

(** [self == other] for a single range. *)
Definition eq_range (r : RangeSet) (other : range) : bool :=
  if negb (len r =? 1) then false
  else match iter r with p :: _ => (p.1 =? other.1) && (p.2 =? other.2) | [] => false end.

(** ** The reference: a set of numbers

    Ranges in order, none touching the next.  An empty range can be there: it
    was inserted as such. *)
Fixpoint wf (lo : Z) (l : list range) : Prop :=
  match l with
  | [] => True
  | (s, e) :: r => lo < s ∧ s ≤ e ∧ wf e r
  end.

(** No range is empty. *)
Definition solid (l : list range) : Prop := Forall (λ p : range, p.1 < p.2) l.

Definition covers (l : list range) (x : Z) : Prop := Exists (λ p, p.1 ≤ x < p.2) l.

(** Insertion into such a list, one pass. *)
Fixpoint add (s e : Z) (l : list range) : list range :=
  match l with
  | [] => [(s, e)]
  | (a, b) :: r =>
      if b <? s then (a, b) :: add s e r
      else if e <? a then (s, e) :: (a, b) :: r
      else add (Z.min s a) (Z.max e b) r
  end.

(** With a capacity: a range too many pushes out the smallest of the old. *)
Definition ref_insert (capacity s e : Z) (l : list range) : list range :=
  let l' := add s e l in
  if blen l' <=? capacity then l'
  else match l with
       | (a, _) :: r => if e <? a then (s, e) :: r else tail l'
       | [] => l'
       end.

(** The values up to [largest] removed. *)
Fixpoint cut (largest : Z) (l : list range) : list range :=
  match l with
  | [] => []
  | (s, e) :: r =>
      if e <=? largest + 1 then cut largest r
      else if s <=? largest then (largest + 1, e) :: r
      else (s, e) :: r
  end.

Lemma wf_weaken lo lo' l : lo ≤ lo' → wf lo' l → wf lo l.
Proof. destruct l as [|[s e] r]; cbn; [done|]. intros ? (? & ? & ?). split_and!; [lia|done..]. Qed.

Lemma wf_sorted lo l : wf lo l → bt_sorted lo l.
Proof.
  revert lo. induction l as [|[s e] r IH]; intros lo; cbn; [done|]. intros (? & ? & ?).
  split; [done|]. apply (bt_sorted_weaken _ e); [lia|]. by apply IH.
Qed.

Lemma wf_above lo l : wf lo l → Forall (λ p, lo < p.1) l.
Proof. intros. by apply bt_sorted_above, wf_sorted. Qed.

Lemma wf_app lo l1 l2 : wf lo (l1 ++ l2) → wf lo l1 ∧ ∃ lo', lo ≤ lo' ∧ Forall (λ p, p.2 ≤ lo') l1 ∧ wf lo' l2.
Proof.
  revert lo. induction l1 as [|[s e] l1 IH]; intros lo; cbn.
  - intros H. split; [done|]. exists lo. split_and!; [lia|constructor|done].
  - intros (? & ? & H). apply IH in H as (Hw & lo' & ? & Hf & Hw'). split; [done|].
    exists lo'. split_and!; [lia|constructor; [cbn; lia|done]|done].
Qed.

Lemma add_wf lo s e l : lo < s → s ≤ e → wf lo l → wf lo (add s e l).
Proof.
  revert lo s e. induction l as [|[a b] r IH]; intros lo s e Hlo Hse; cbn; [done|].
  intros (Ha & Hab & Hr). destruct (Z.ltb_spec b s).
  - split_and!; [done..|]. by apply IH.
  - destruct (Z.ltb_spec e a); [by split_and!|].
    apply IH; [lia..|]. apply (wf_weaken _ b); [lia|done].
Qed.

Lemma add_covers lo s e l x : s ≤ e → wf lo l → covers (add s e l) x ↔ s ≤ x < e ∨ covers l x.
Proof.
  revert lo s e. induction l as [|[a b] r IH]; intros lo s e Hse; cbn [add wf].
  - intros _. unfold covers. rewrite Exists_cons, Exists_nil. cbn. naive_solver.
  - intros (Ha & Hab & Hr). unfold covers in *. destruct (Z.ltb_spec b s).
    + rewrite !Exists_cons, (IH b) by done. naive_solver.
    + destruct (Z.ltb_spec e a); [rewrite !Exists_cons; cbn; naive_solver|].
      rewrite Exists_cons, (IH b) by (done || lia). cbn.
      split; [intros [?|?]; [|tauto]|intros [?|[?|?]]; [left; lia..|tauto]].
      destruct (Z.lt_ge_cases x s), (Z.lt_ge_cases x e), (Z.lt_ge_cases x a), (Z.lt_ge_cases x b);
        try (left; lia); try (right; left; lia); lia.
Qed.

(** Below everything that is there. *)
Lemma add_below s e l : s ≤ e → wf e l → add s e l = (s, e) :: l.
Proof.
  destruct l as [|[a b] r]; cbn; [done|]. intros ? (? & ? & _).
  destruct (Z.ltb_spec b s); [lia|]. destruct (Z.ltb_spec e a); [done|lia].
Qed.

Lemma add_past s e l1 l2 : Forall (λ p, p.2 < s) l1 → add s e (l1 ++ l2) = l1 ++ add s e l2.
Proof.
  induction 1 as [|[a b] l1 Hb _ IH]; cbn; [done|]. cbn in Hb.
  destruct (Z.ltb_spec b s); [by rewrite IH|lia].
Qed.

Lemma add_length s e l : 1 ≤ blen (add s e l) ≤ blen l + 1.
Proof.
  revert s e. induction l as [|[a b] r IH]; intros s e; cbn [add]; [done|].
  destruct (_ <? _); [|destruct (_ <? _)]; rewrite ?blen_cons; [|blia|];
    [specialize (IH s e)|specialize (IH (Z.min s a) (Z.max e b))]; blia.
Qed.

Lemma cut_covers lo n l x : wf lo l → covers (cut n l) x ↔ covers l x ∧ n < x.
Proof.
  revert lo. induction l as [|[s e] r IH]; intros lo; cbn [cut wf].
  - intros _. unfold covers. rewrite Exists_nil. tauto.
  - intros (Hs & Hse & Hr). unfold covers in *.
    assert (Hx : Exists (λ p, p.1 ≤ x < p.2) r → e < x).
    { intros Hx. apply wf_above in Hr. rewrite Exists_exists in Hx. destruct Hx as (p & Hp & ?).
      rewrite Forall_forall in Hr. apply Hr in Hp. lia. }
    destruct (Z.leb_spec e (n + 1)).
    + rewrite (IH e), Exists_cons by done. cbn. split; [tauto|]. intros [[?|?] ?]; [lia|tauto].
    + destruct (Z.leb_spec s n); rewrite !Exists_cons; cbn.
      * split; [intros [?|Hr']; [lia|pose proof (Hx Hr'); split; [tauto|lia]]|].
        intros [[?|?] ?]; [left; lia|tauto].
      * split; [|tauto]. intros [?|Hr']; [lia|pose proof (Hx Hr'); split; [tauto|lia]].
Qed.

Lemma cut_solid n l : solid l → solid (cut n l).
Proof.
  unfold solid. induction l as [|[s e] r IH]; cbn; [done|]. intros [Hs Hr]%Forall_cons. cbn in Hs.
  destruct (Z.leb_spec e (n + 1)); [by apply IH|].
  destruct (Z.leb_spec s n); constructor; (done || cbn; lia).
Qed.

Lemma add_solid s e l : s < e → solid l → solid (add s e l).
Proof.
  unfold solid. revert s e. induction l as [|[a b] r IH]; intros s e Hse; cbn.
  { intros _. constructor; [done|constructor]. }
  intros [Hab Hr]%Forall_cons. cbn in Hab. destruct (b <? s); [constructor; [done|by apply IH]|].
  destruct (e <? a); [constructor; [done|by constructor]|]. apply IH; [lia|done].
Qed.

Lemma cut_wf lo n l : wf lo l → wf (Z.max lo n) (cut n l).
Proof.
  revert lo. induction l as [|[s e] r IH]; intros lo; cbn [cut wf]; [done|]. intros (Hs & Hse & Hr).
  destruct (Z.leb_spec e (n + 1)).
  - apply (wf_weaken _ (Z.max e n)); [lia|]. by apply IH.
  - destruct (Z.leb_spec s n); cbn; split_and!; (done || lia).
Qed.

(** ** The vector implements the reference *)

Lemma middle_insert {A} (l1 : list A) x y r : <[length l1 := y]> (l1 ++ x :: r) = l1 ++ y :: r.
Proof. induction l1; cbn; [done|]. by f_equal. Qed.

Lemma middle_alter {A} (f : A → A) (l1 : list A) x r : alter f (length l1) (l1 ++ x :: r) = l1 ++ f x :: r.
Proof. induction l1; cbn; [done|]. by f_equal. Qed.

Lemma middle_delete {A} (l1 : list A) x y r : delete (S (length l1)) (l1 ++ x :: y :: r) = l1 ++ x :: r.
Proof. induction l1 as [|z l1 IH]; cbn; [done|]. f_equal. exact IH. Qed.

Lemma middle_lookup {A} (l1 : list A) x r : (l1 ++ x :: r) !! S (length l1) = head r.
Proof. induction l1 as [|z l1 IH]; cbn; [by destruct r|]. exact IH. Qed.

#[export] Instance inline_decreasing s e l c : Decreasing (inline_measure l) (inline_step s e l c).
Proof.
  intros pos pos'. unfold inline_step, inline_measure.
  destruct (l !! pos) as [[a b]|] eqn:E; [|done]. apply lookup_lt_Some in E.
  destruct (s >? b); [intros [= <-]; lia|]. by destruct (e <? a).
Qed.

#[export] Instance merge_decreasing pos : Decreasing merge_measure (merge_step pos).
Proof.
  intros [l e] st. unfold merge_step, merge_measure.
  destruct (l !! S pos) as [[a b]|] eqn:E; [|done]. destruct (e <? a); [done|]. intros [= <-]. cbn [fst].
  rewrite length_delete by (rewrite list_lookup_alter_ne by lia; eauto). rewrite length_alter.
  apply lookup_lt_Some in E. lia.
Qed.

Lemma merge_loop l1 s e r d lo : s ≤ e → s ≤ lo → wf lo r →
  loop merge_measure (merge_step (length l1)) d (l1 ++ (s, e) :: r, e) = l1 ++ add s e r.
Proof.
  revert e lo. induction r as [|[a b] r IH]; intros e lo Hse Hlo; cbn [wf add].
  - intros _. rewrite loop_unfold by apply _. cbn. by rewrite middle_lookup.
  - intros (Ha & Hab & Hr). rewrite loop_unfold by apply _. unfold merge_step at 1.
    rewrite middle_lookup. cbn [head].
    destruct (Z.ltb_spec b s); [lia|]. destruct (Z.ltb_spec e a); [done|].
    rewrite middle_alter, middle_delete. cbn [fst].
    replace (Z.min s a) with s by lia. rewrite (Z.max_comm b e). by apply (IH _ b); [lia..|].
Qed.

Lemma vec_insert_app l1 x l2 : vec_insert (blen l1) x (l1 ++ l2) = Ok (l1 ++ x :: l2).
Proof.
  unfold vec_insert. destruct (Z.leb_spec 0 (blen l1)), (Z.leb_spec (blen l1) (blen (l1 ++ l2)));
    [|blia..]. cbn. by rewrite takez_app, dropz_app.
Qed.

Lemma inline_insert_add lo s e l c : s ≤ e → lo < s → wf lo l → blen l < c → inline_insert s e l c = Ok (add s e l).
Proof.
  intros Hse Hlo Hwf Hc. unfold inline_insert.
  enough (Hl : ∀ l2 l1, l = l1 ++ l2 → Forall (λ p, p.2 < s) l1 →
    (f ← loop (inline_measure l) (inline_step s e l c) Panic (length l1);
     match f with
     | Settled l => Ok l
     | Grown l pos end_ => Ok (loop merge_measure (merge_step pos) l (l, end_))
     end) = (Ok (l1 ++ add s e l2) : comp () (list range))).
  { apply (Hl l []); [done|constructor]. }
  intros l2. induction l2 as [|[a b] r IH]; intros l1 El H1; rewrite loop_unfold by apply _;
    unfold inline_step at 1.
  - rewrite lookup_ge_None_2 by (rewrite El, app_nil_r; lia).
    destruct (Z.eqb_spec (blen l) c); [lia|]. cbn. by rewrite El, app_nil_r.
  - replace (l !! length l1) with (Some (a, b)) by (by rewrite El, list_lookup_middle). cbn [add].
    assert (wf b r ∧ a ≤ b) as [Hr Hab].
    { rewrite El in Hwf. apply wf_app in Hwf as (_ & lo' & _ & _ & Hw). cbn in Hw. tauto. }
    destruct (s >? b) eqn:Esb.
    + destruct (Z.ltb_spec b s); [|lia].
      replace (S (length l1)) with (length (l1 ++ [(a, b)])) by (rewrite length_app; cbn; lia).
      rewrite IH; [by rewrite <- app_assoc|by rewrite <- app_assoc|].
      apply Forall_app. split; [done|]. by repeat constructor.
    + destruct (Z.ltb_spec b s); [lia|]. destruct (Z.ltb_spec e a).
      * destruct (Z.eqb_spec (blen l) c); [lia|]. rewrite El.
        change (Z.of_nat (length l1)) with (blen l1). by rewrite vec_insert_app.
      * rewrite !El, !middle_insert. replace (if s <? a then s else a) with (Z.min s a)
          by (destruct (Z.ltb_spec s a); lia).
        destruct (e >? b) eqn:Eeb; cbn [mbind comp_bind].
        -- rewrite (merge_loop l1 _ _ _ _ b) by (done || lia).
           by replace (Z.max e b) with e by lia.
        -- replace (Z.max e b) with b by lia. by rewrite add_below by (done || lia).
Qed.

Lemma cut_above n l : solid l → wf n l → cut n l = l.
Proof.
  destruct l as [|[s e] r]; cbn; [done|]. intros [Hs _]%Forall_cons (? & ? & ?). cbn in Hs.
  destruct (Z.leb_spec e (n + 1)); [lia|]. destruct (Z.leb_spec s n); [lia|done].
Qed.

#[export] Instance inline_remove_decreasing n :
  Decreasing (λ l : list range, length l) (inline_remove_step n).
Proof.
  intros [|[s e] r] l'; cbn; [done|]. destruct (n >=? e); [|done]. intros [= <-]. lia.
Qed.

Lemma inline_remove_cut lo n l : solid l → wf lo l → inline_remove_until n l = cut n l.
Proof.
  unfold inline_remove_until. rewrite (loop_default _ _ _ []). revert lo.
  induction l as [|[s e] r IH]; intros lo Hso Hwf; rewrite loop_unfold by apply _; cbn [inline_remove_step cut];
    [done|].
  apply Forall_cons in Hso as [Hne Hso]. cbn in Hne, Hwf. destruct Hwf as (Hs & Hse & Hr). destruct (n >=? e) eqn:E.
  - destruct (Z.leb_spec e (n + 1)); [|lia]. by apply (IH e).
  - destruct (Z.leb_spec e (n + 1)).
    + replace (Z.max (n + 1) s) with e by lia. rewrite Z.eqb_refl.
      rewrite cut_above; [done..|]. by apply (wf_weaken _ e); [lia|].
    + destruct (Z.max (n + 1) s =? e) eqn:Em; [lia|].
      destruct (Z.leb_spec s n); [by replace (Z.max (n + 1) s) with (n + 1) by lia|].
      by replace (Z.max (n + 1) s) with s by lia.
Qed.

(** ** The map implements the reference *)

#[export] Instance follow_decreasing item : Decreasing follow_measure (follow_step item).
Proof.
  intros [l [s e]] st. unfold follow_step, follow_measure, next_to.
  destruct (head (bt_from s l)) as [r|] eqn:E; [|done].
  assert (Hr : r ∈ l).
  { destruct (bt_from s l) as [|r' l'] eqn:Ef; [done|]. injection E as ->.
    assert (r ∈ bt_from s l) as H by (rewrite Ef; apply list_elem_of_here).
    apply list_elem_of_In, filter_In in H as [H _]. by apply list_elem_of_In. }
  assert (Hlt : (length (bt_remove r.1 l) < length l)%nat).
  { unfold bt_remove. clear E. induction l as [|x l IH]; [by apply not_elem_of_nil in Hr|]. cbn.
    pose proof (List.filter_length_le (λ p : Z * Z, negb (p.1 =? r.1)) l).
    apply elem_of_cons in Hr as [<-|Hr]; [rewrite Z.eqb_refl; cbn; lia|].
    destruct (_ =? _); cbn; [lia|]. apply IH in Hr. lia. }
  destruct (_ && _); [intros [= <-]; done|]. destruct (negb _); [done|]. by intros [= <-].
Qed.

(** The ranges after the new one: those it reaches are merged into it. *)
Lemma follow_loop (s e : Z) l1 d : ∀ r st en lo,
  st ≤ s → s ≤ e → e ≤ en → s ≤ lo → wf lo r → (en = e ∨ wf en r) → Forall (λ p, p.1 < st) l1 →
  ∃ mid l3 en', r = mid ++ l3 ∧ add st en r = (st, en') :: l3 ∧ (mid = [] → en' = en) ∧ wf en' l3 ∧ en ≤ en' ∧
    loop follow_measure (follow_step (s, e)) d (l1 ++ r, (st, en)) = (l1 ++ l3, (st, en')).
Proof.
  intros r. induction r as [|[a b] r IH]; intros st en lo Hst Hse Hen Hlo Hwf Hor H1;
    rewrite loop_unfold by apply _; unfold follow_step at 1, next_to.
  - exists [], [], en. rewrite bt_from_middle by (done || constructor). cbn.
    by rewrite app_nil_r.
  - cbn in Hwf. destruct Hwf as (Ha & Hab & Hr).
    assert (Habove : Forall (λ p, a < p.1) r).
    { eapply Forall_impl; [by apply wf_above|]. cbn. intros p ?. lia. }
    rewrite bt_from_middle; [|done|].
    2: { constructor; [cbn; lia|]. eapply Forall_impl; [exact Habove|]. cbn. intros p ?. lia. }
    cbn [head fst snd]. assert (Hlt : Forall (λ p, p.1 < a) l1).
    { eapply Forall_impl; [exact H1|]. cbn. intros p ?. lia. }
    rewrite !bt_remove_middle by done. cbn [add].
    unfold range_contains, range_overlaps. cbn [fst snd].
    destruct (Z.ltb_spec b st); [lia|].
    destruct ((s <=? a) && (a <? e) && ((s <=? b) && (b <? e))) eqn:Ec.
    + destruct (Z.ltb_spec en a); [lia|].
      destruct (IH st en b) as (mid & l3 & en' & -> & E & Hm & Hw & Hle & El); [lia..|done| |done|].
      { destruct Hor as [->|(? & _)]; [by left|lia]. }
      exists ((a, b) :: mid), l3, en'. split_and!; [done| |done|done|done|done].
      replace (Z.min st a) with st by lia. by replace (Z.max en b) with en by lia.
    + destruct (negb _) eqn:En.
      * assert (en < a) by (destruct Hor as [->|(? & _)]; lia).
        destruct (Z.ltb_spec en a); [|lia].
        exists [], ((a, b) :: r), en. by split_and!.
      * destruct (Z.ltb_spec en a); [destruct Hor as [->|(? & _)]; lia|].
        assert (en = e) as -> by (destruct Hor as [->|(? & _)]; [done|lia]).
        replace (Z.min st a) with st by lia. replace (Z.max e b) with b by lia.
        destruct (IH st b b) as (mid & l3 & en' & -> & E & Hm & Hw & Hle & El); [lia..|done|by right|done|].
        exists ((a, b) :: mid), l3, en'. split_and!; [done..|lia|done].
Qed.

(** Where a new range starting at [s] goes: after ranges that end below it,
    perhaps into the one that holds or touches [s]. *)
Lemma split_at_start lo s l :
  wf lo l → ∃ l1 prev lb, l = l1 ++ prev ++ lb ∧ Forall (λ p, p.1 ≤ p.2 < s) l1 ∧ wf s lb ∧
    (prev = [] ∨ ∃ a b, prev = [(a, b)] ∧ lo < a ≤ s ∧ s ≤ b ∧ a ≤ b ∧ wf b lb ∧ Forall (λ p, p.2 < a) l1).
Proof.
  revert lo. induction l as [|[a b] r IH]; intros lo; cbn.
  - intros _. exists [], [], []. split_and!; [done|constructor|done|by left].
  - intros (Ha & Hab & Hr). destruct (Z.lt_ge_cases b s) as [Hb|Hb].
    + destruct (IH b Hr) as (l1 & prev & lb & -> & H1 & Hw & Hp).
      exists ((a, b) :: l1), prev, lb. split_and!; [done|by constructor|done|].
      destruct Hp as [->|(a' & b' & -> & ? & ? & ? & ? & ?)]; [by left|right].
      exists a', b'. split_and!; [done|lia..|done|]. constructor; [cbn; lia|done].
    + destruct (Z.lt_ge_cases s a) as [Hsa|Hsa].
      * exists [], [], ((a, b) :: r). split_and!; [done|constructor|done..|by left].
      * exists [], [(a, b)], r. split_and!; [done|constructor|by apply (wf_weaken _ b)|].
        right. exists a, b. by split_and!.
Qed.

(** The set before the capacity is looked at. *)
Lemma btree_merge lo s e l :
  s ≤ e → lo < s → wf lo l →
  ∃ l1 mid l3 st en, l = l1 ++ mid ++ l3 ∧ add s e l = l1 ++ (st, en) :: l3 ∧ (mid = [] → st = s ∧ en = e) ∧
    Forall (λ p, p.1 < st ∧ p.1 < s) l1 ∧ wf en l3 ∧ st ≤ en ∧
    ∀ c, btree_insert (s, e) l c =
      bt_insert st en (if blen (l1 ++ l3) >=? c then bt_pop_first (l1 ++ l3) else l1 ++ l3).
Proof.
  intros Hse Hlo Hwf.
  destruct (split_at_start lo s l Hwf) as (l1 & prev & lb & -> & H1 & Hlb & Hprev).
  assert (Habove : Forall (λ p : range, s < p.1) lb) by by apply wf_above.
  assert (H1s : Forall (λ p, p.2 < s) l1) by (eapply Forall_impl; [exact H1|]; cbn; lia).
  assert (H1k : ∀ k, s ≤ k → Forall (λ p : range, p.1 < k) l1)
    by (intros k Hk; eapply Forall_impl; [exact H1|]; cbn; lia).
  rewrite add_past by done. unfold btree_insert, prev_to.
  destruct Hprev as [->|(a & b & -> & Ha & Hb & Hab & Hwb & Hl1)]; cbn [app].
  - rewrite bt_upto_middle; [|eapply Forall_impl; [apply (H1k s); lia|]; cbn; lia|done].
    destruct (follow_loop s e l1 (l1 ++ lb, (s, e)) lb s e s)
      as (mid & l3 & en & -> & E & Hm & Hw & Hle & El); [lia..|done|by left|by apply H1k|].
    exists l1, mid, l3, s, en. split_and!; [done|by rewrite E|auto| |done|lia|].
    { eapply Forall_impl; [apply (H1k s); lia|]. by cbn. }
    intros c. replace (match last l1 with Some r => _ | None => _ end) with (l1 ++ mid ++ l3, (s, e)).
    { by rewrite El. }
    destruct (last l1) as [[x y]|] eqn:Ex; [|done]. apply last_Some in Ex as (l & ->).
    apply Forall_app in H1 as [_ [H1 _]%Forall_cons]. cbn in H1. unfold range_overlaps. cbn.
    destruct (_ || _) eqn:Eo; [lia|done].
  - change (l1 ++ (a, b) :: lb) with (l1 ++ [(a, b)] ++ lb). rewrite app_assoc, bt_upto_middle; [| |done].
    2: { apply Forall_app. split; [eapply Forall_impl; [apply (H1k s); lia|]; cbn; lia|].
         constructor; [cbn; lia|constructor]. }
    rewrite last_snoc.
    assert (range_overlaps (a, b) (s, e) = true) as -> by (unfold range_overlaps; cbn; lia).
    assert (Hka : Forall (λ p : range, p.1 < a) l1).
    { eapply Forall_impl; [exact (proj2 (Forall_and _ _) (conj H1 Hl1))|]. cbn. intros p [? ?]. lia. }
    rewrite <- app_assoc. cbn [fst snd app]. rewrite bt_remove_middle; [|done|].
    2: { eapply Forall_impl; [by apply wf_above|]. cbn. intros p ?. lia. }
    replace (Z.min s a) with a by lia.
    destruct (follow_loop s e l1 (l1 ++ lb, (a, Z.max e b)) lb a (Z.max e b) s)
      as (mid & l3 & en & -> & E & Hm & Hw & Hle & El); [lia..|done| |done|].
    { destruct (Z.le_gt_cases b e); [left; lia|right]. by replace (Z.max e b) with b by lia. }
    exists l1, ((a, b) :: mid), l3, a, en. split_and!; [done| |done| |done|lia|by rewrite El].
    + cbn [add]. destruct (Z.ltb_spec b s); [lia|]. destruct (Z.ltb_spec e a); [lia|].
      replace (Z.min s a) with a by lia. by rewrite E.
    + eapply Forall_impl; [exact (proj2 (Forall_and _ _) (conj Hka (H1k s ltac:(lia))))|]. by cbn.
Qed.

Lemma btree_insert_ref lo s e l c :
  s ≤ e → lo < s → wf lo l → blen l ≤ c → 1 ≤ c → btree_insert (s, e) l c = ref_insert c s e l.
Proof.
  intros Hse Hlo Hwf Hc H1. destruct (btree_merge lo s e l Hse Hlo Hwf)
    as (l1 & mid & l3 & st & en & El & Ea & Hmid & Hl1 & Hl3 & Hst & E).
  assert (H3 : Forall (λ p : range, st < p.1) l3)
    by (eapply Forall_impl; [by apply wf_above|]; cbn; lia).
  rewrite E. unfold ref_insert. rewrite Ea.
  assert (Hins : ∀ a b, Forall (λ p : range, p.1 < st) a → Forall (λ p : range, st < p.1) b →
    bt_insert st en (a ++ b) = a ++ (st, en) :: b) by (intros; by apply bt_insert_middle).
  assert (Hk1 : Forall (λ p : range, p.1 < st) l1) by (eapply Forall_impl; [exact Hl1|]; cbn; tauto).
  destruct (blen (l1 ++ l3) >=? c) eqn:Eg; destruct (Z.leb_spec (blen (l1 ++ (st, en) :: l3)) c); try blia.
  - assert (mid = []) as -> by (destruct mid; [done|]; rewrite El in Hc; blia).
    destruct (Hmid eq_refl) as [-> ->]. cbn [app] in El. rewrite El.
    destruct l1 as [|[a b] l1]; cbn [app bt_pop_first tail].
    + destruct l3 as [|[a b] l3]; [blia|]. cbn [tail]. cbn in Hl3. destruct (Z.ltb_spec e a); [|lia].
      apply Forall_cons in H3 as [_ H3]. by apply (Hins []).
    + apply Forall_cons in Hl1 as [[? ?] Hl1]. cbn in *. destruct (Z.ltb_spec e a); [lia|].
      apply Forall_cons in Hk1 as [_ Hk1]. by apply Hins.
  - by apply Hins.
Qed.

(** With room, the reference is plain insertion. *)
Lemma ref_insert_room c s e l : blen l < c → ref_insert c s e l = add s e l.
Proof.
  intros H. unfold ref_insert. pose proof (add_length s e l).
  destruct (Z.leb_spec (blen (add s e l)) c); [done|lia].
Qed.

Lemma btree_remove_cut lo n l c : solid l → wf lo l → lo < n + 1 → blen l ≤ c → 1 ≤ c → btree_remove_until n l c = cut n l.
Proof.
  intros Hso Hwf Hlo Hc H1. unfold btree_remove_until.
  destruct (bt_split lo (n + 1) l (wf_sorted _ _ Hwf)) as (la & lb & -> & Ha & Hb).
  rewrite bt_upto_middle.
  2: { eapply Forall_impl; [exact Ha|]. cbn. intros p ?. lia. }
  2: { eapply Forall_impl; [exact Hb|]. cbn. intros p ?. lia. }
  revert lo Hwf Hlo. induction la as [|[s e] la IH]; intros lo Hwf Hlo; cbn [fold_left app cut].
  - destruct lb as [|[s e] lb]; [done|]. apply Forall_cons in Hb as [Hb _]. cbn in Hb, Hwf |- *.
    apply Forall_cons in Hso as [Hne _]. cbn in Hne.
    destruct (Z.leb_spec e (n + 1)); [lia|]. destruct (Z.leb_spec s n); [lia|done].
  - cbn in Hwf. apply Forall_cons in Hso as [Hne Hso]. cbn in Hne. destruct Hwf as (Hs & Hse & Hr). apply Forall_cons in Ha as [Hsn Ha]. cbn in Hsn.
    assert (Hall : Forall (λ p : range, s < p.1) (la ++ lb)).
    { eapply Forall_impl; [by apply wf_above|]. cbn. intros p ?. lia. }
    assert (bt_remove s ((s, e) :: la ++ lb) = la ++ lb) as Er.
    { apply (bt_remove_middle s e [] (la ++ lb)); [constructor|done]. }
    cbn [fst snd]. rewrite Er. cbn [app] in Hc. rewrite blen_cons in Hc.
    destruct (e >? n + 1) eqn:Ee; destruct (Z.leb_spec e (n + 1)); try lia.
    + destruct (Z.leb_spec s n); [|lia].
      rewrite (btree_insert_ref n), ref_insert_room, add_below; try (done || lia).
      * destruct la as [|[s2 e2] la]; [done|]. exfalso. apply Forall_cons in Ha as [Ha _]. cbn in Ha, Hr. lia.
      * by apply (wf_weaken _ e); [lia|].
    + destruct (Z.lt_ge_cases e (n + 1)).
      * apply (IH Hso ltac:(lia) Ha e); [done|lia].
      * assert (la = []) as ->; [|cbn [fold_left app]; rewrite cut_above; [done..|]; by apply (wf_weaken _ e); [lia|]].
        destruct la as [|[s2 e2] la]; [done|]. apply Forall_cons in Ha as [Ha _]. cbn in Ha, Hr. lia.
Qed.

(** ** The set *)

(** A set at rest: its ranges are in order and apart, within the capacity, and
    few in the vector. *)
Definition set_ok (r : RangeSet) : Prop :=
  wf (-1) (iter r) ∧ 4 ≤ capacity_of r ∧ len r ≤ capacity_of r ∧
  match r with Inline l _ => blen l < MAX_INLINE_CAPACITY | BTree _ _ => True end.

#[export] Instance wf_dec lo l : Decision (wf lo l).
Proof.
  revert lo. induction l as [|[s e] r IH]; intros lo; cbn; [apply _|].
  destruct (IH e); apply _.
Defined.

Lemma iter_fixup r : iter (fixup r) = iter r.
Proof. destruct r as [l c|l c]; cbn; by destruct (_ : bool). Qed.

Lemma fixup_ok r :
  wf (-1) (iter r) → 4 ≤ capacity_of r → len r ≤ capacity_of r →
  match r with Inline l _ => blen l ≤ MAX_INLINE_CAPACITY | _ => True end → set_ok (fixup r).
Proof.
  unfold set_ok, MAX_INLINE_CAPACITY, len. destruct r as [l c|l c]; cbn [iter capacity_of fixup];
    intros Hw Hc Hl Hm; unfold MAX_INLINE_CAPACITY.
  - destruct (Z.eqb_spec (blen l) 4); cbn [iter capacity_of]; split_and!; (done || lia).
  - destruct (Z.leb_spec (blen l) MIN_TO_INLINE); cbn [iter capacity_of]; unfold MIN_TO_INLINE in *;
      split_and!; (done || lia).
Qed.

Lemma ref_insert_wf lo c s e l : s ≤ e → lo < s → wf lo l → wf lo (ref_insert c s e l).
Proof.
  intros Hse Hlo Hwf. unfold ref_insert. pose proof (add_wf lo s e l Hlo Hse Hwf) as Ha.
  destruct (_ <=? c); [done|]. destruct l as [|[a b] r]; [done|]. destruct (Z.ltb_spec e a).
  - cbn in Hwf. destruct Hwf as (? & ? & ?). cbn. split_and!; [done..|]. by apply (wf_weaken _ b); [lia|].
  - destruct (add s e ((a, b) :: r)) as [|[x y] t]; [done|]. cbn in *. destruct Ha as (? & ? & ?).
    by apply (wf_weaken _ y); [lia|].
Qed.

Lemma ref_insert_solid c s e l : s < e → solid l → solid (ref_insert c s e l).
Proof.
  intros Hse Hl. unfold ref_insert. pose proof (add_solid s e l Hse Hl) as Ha.
  destruct (_ <=? c); [done|]. destruct l as [|[a b] r]; [done|]. apply Forall_cons in Hl as [_ Hl].
  destruct (e <? a); [by constructor|]. destruct (add s e _); [done|]. by apply Forall_cons in Ha as [_ Ha].
Qed.

Lemma ref_insert_length c s e l : blen l ≤ c → 1 ≤ c → blen (ref_insert c s e l) ≤ c.
Proof.
  intros Hl Hc. unfold ref_insert. pose proof (add_length s e l) as Ha.
  destruct (Z.leb_spec (blen (add s e l)) c); [done|]. destruct l as [|[a b] r]; [blia|].
  destruct (Z.ltb_spec e a); [blia|]. destruct (add s e ((a, b) :: r)) as [|p t]; cbn [tail]; blia.
Qed.

Lemma insert_ref item r :
  set_ok r → 0 ≤ item.1 ≤ item.2 →
  ∃ r', insert item r = Ok r' ∧ iter r' = ref_insert (capacity_of r) item.1 item.2 (iter r) ∧
    capacity_of r' = capacity_of r ∧ set_ok r'.
Proof.
  intros (Hw & Hc & Hl & Hm) [Hs He]. unfold len in Hl. destruct item as [s e]. cbn [fst snd] in *.
  assert (Hok : ∀ r', iter r' = ref_insert (capacity_of r) s e (iter r) → capacity_of r' = capacity_of r →
    match r' with Inline l _ => blen l ≤ MAX_INLINE_CAPACITY | _ => True end → set_ok (fixup r')).
  { intros r' Ei Ec Hm'. apply fixup_ok; [|by rewrite Ec| |done].
    - rewrite Ei. apply ref_insert_wf; (done || lia).
    - unfold len. rewrite Ei, Ec. apply ref_insert_length; lia. }
  unfold insert. destruct r as [l c|l c]; cbn [iter capacity_of fst snd] in *.
  - unfold MAX_INLINE_CAPACITY in Hm. rewrite (inline_insert_add (-1)) by (done || lia). cbn.
    exists (fixup (Inline (add s e l) c)). split_and!; [done| | |].
    + by rewrite iter_fixup, ref_insert_room by lia.
    + cbn. by destruct (_ =? _).
    + apply Hok; [cbn; by rewrite ref_insert_room by lia|done|].
      pose proof (add_length s e l). unfold MAX_INLINE_CAPACITY. lia.
  - rewrite (btree_insert_ref (-1)) by (done || lia). cbn.
    exists (fixup (BTree (ref_insert c s e l) c)). split_and!; [done|by rewrite iter_fixup| |by apply Hok].
    cbn. by destruct (_ <=? _).
Qed.

Lemma insert_spec item r :
  set_ok r → 0 ≤ item.1 ≤ item.2 →
  ∃ r', insert item r = Ok r' ∧ set_ok r' ∧
    capacity_of r' = capacity_of r ∧ iter r' = ref_insert (capacity_of r) item.1 item.2 (iter r) ∧
    (item.1 < item.2 → solid (iter r) → solid (iter r')) ∧
    (∀ x, covers (iter r') x → item.1 ≤ x < item.2 ∨ covers (iter r) x) ∧
    (∀ x, item.1 ≤ x < item.2 → covers (iter r') x) ∧
    (len r < capacity_of r → ∀ x, covers (iter r) x → covers (iter r') x).
Proof.
  intros Hok Hi. destruct (insert_ref item r Hok Hi) as (r' & E & Ei & Ec & Hok').
  destruct Hok as (Hw & Hc & Hl & _). unfold len in *.
  pose proof (λ x, add_covers (-1) item.1 item.2 (iter r) x ltac:(lia) Hw) as Hadd.
  exists r'. split; [done|]. split; [done|]. split; [done|]. split; [done|]. rewrite Ei.
  split; [apply ref_insert_solid|]. unfold ref_insert.
  destruct (Z.leb_spec (blen (add item.1 item.2 (iter r))) (capacity_of r)) as [Hb|Hb].
  { split_and!; [intros x|intros x|intros _ x]; rewrite Hadd; tauto. }
  assert (Hn : ¬ blen (iter r) < capacity_of r).
  { pose proof (add_length item.1 item.2 (iter r)). lia. }
  destruct (iter r) as [|[a b] t] eqn:El; [rewrite blen_nil in Hn; lia|].
  cbn in Hw. destruct Hw as (Ha & Hab & Ht). unfold covers in *.
  destruct (Z.ltb_spec item.2 a).
  - split_and!; [| |tauto].
    + intros x. rewrite !Exists_cons. cbn. tauto.
    + intros x Hx. rewrite Exists_cons. by left.
  - destruct (add item.1 item.2 ((a, b) :: t)) as [|[s' e'] t'] eqn:Ea.
    { pose proof (add_length item.1 item.2 ((a, b) :: t)) as Hlen. rewrite Ea, blen_nil in Hlen. lia. }
    cbn [tail]. split_and!; [| |tauto].
    + intros x Hx. apply Hadd. rewrite Exists_cons. by right.
    + intros x Hx. cbn in Ea. destruct (Z.ltb_spec b item.1).
      * injection Ea as <- <- <-. apply (add_covers b); [lia|done|by left].
      * destruct (Z.ltb_spec item.2 a); [lia|].
        pose proof (add_length (Z.min item.1 a) (Z.max item.2 b) t) as Hlen. rewrite Ea in Hlen.
        rewrite !blen_cons in *. lia.
Qed.

(** Inserting a range is set union: whichever representation the set is
    in, insertion never panics, gives the ranges of the one-pass reference
    (kept apart and in order), and while there is room the numbers in the set
    are exactly those it had and those of the range; past the capacity it
    gives up one range and invents no number. *)
Theorem range_set_insert item r :
  set_ok r → 0 ≤ item.1 ≤ item.2 →
  ∃ r', insert item r = Ok r' ∧ set_ok r' ∧
    iter r' = ref_insert (capacity_of r) item.1 item.2 (iter r) ∧
    (item.1 < item.2 → solid (iter r) → solid (iter r')) ∧
    (∀ x, covers (iter r') x → item.1 ≤ x < item.2 ∨ covers (iter r) x) ∧
    (∀ x, item.1 ≤ x < item.2 → covers (iter r') x) ∧
    (len r < capacity_of r → ∀ x, covers (iter r) x → covers (iter r') x).
Proof.
  intros Hok Hi. destruct (insert_spec item r Hok Hi) as (r' & E & Hok' & _ & H). by exists r'.
Qed.

(** [remove_until] removes the numbers up to and including its argument
    and no others, in both representations. *)
Theorem range_set_remove_until n r :
  set_ok r → solid (iter r) → 0 ≤ n →
  set_ok (remove_until n r) ∧ solid (iter (remove_until n r)) ∧ capacity_of (remove_until n r) = capacity_of r ∧
  ∀ x, covers (iter (remove_until n r)) x ↔ covers (iter r) x ∧ n < x.
Proof.
  intros (Hw & Hc & Hl & Hm) Hso Hn. unfold remove_until.
  assert (Hshort : ∀ l, blen (cut n l) ≤ blen l).
  { induction l as [|[s e] t IH]; cbn [cut]; [done|].
    destruct (_ <=? _); [blia|]. destruct (_ <=? _); blia. }
  assert (Hwf : ∀ l, wf (-1) l → wf (-1) (cut n l)).
  { intros l H. by apply (wf_weaken _ (Z.max (-1) n)); [lia|apply cut_wf]. }
  unfold len in Hl. destruct r as [l c|l c]; cbn [iter capacity_of] in *.
  - rewrite (inline_remove_cut (-1)) by done. split_and!.
    + apply fixup_ok; cbn; [by apply Hwf|done| |]; specialize (Hshort l); unfold len; cbn;
        unfold MAX_INLINE_CAPACITY in *; lia.
    + rewrite iter_fixup. by apply cut_solid.
    + cbn. by destruct (_ =? _).
    + intros x. rewrite iter_fixup. cbn. by apply (cut_covers (-1)).
  - rewrite (btree_remove_cut (-1)) by (done || lia). split_and!.
    + apply fixup_ok; cbn; [by apply Hwf|done| |done]. specialize (Hshort l). unfold len. cbn. lia.
    + rewrite iter_fixup. by apply cut_solid.
    + cbn. by destruct (_ <=? _).
    + intros x. rewrite iter_fixup. cbn. by apply (cut_covers (-1)).
Qed.

Lemma range_set_insert_witness :
  ∃ r', insert (5, 9) (Inline [(1, 4); (8, 10)] 68) = Ok r' ∧ set_ok r' ∧
    iter r' = ref_insert 68 5 9 [(1, 4); (8, 10)] ∧
    (5 < 9 → solid [(1, 4); (8, 10)] → solid (iter r')) ∧
    (∀ x, covers (iter r') x → 5 ≤ x < 9 ∨ covers [(1, 4); (8, 10)] x) ∧
    (∀ x, 5 ≤ x < 9 → covers (iter r') x) ∧
    (2 < 68 → ∀ x, covers [(1, 4); (8, 10)] x → covers (iter r') x).
Proof.
  apply (range_set_insert (5, 9) (Inline [(1, 4); (8, 10)] 68)); [|cbn; lia].
  split_and!; [by_decision|cbn; lia|vm_compute; congruence|by vm_compute].
Defined.

Lemma range_set_remove_until_witness :
  ∀ x, covers (iter (remove_until 8 (Inline [(1, 4); (8, 10)] 68))) x
    ↔ covers [(1, 4); (8, 10)] x ∧ 8 < x.
Proof.
  apply (range_set_remove_until 8 (Inline [(1, 4); (8, 10)] 68)); [|repeat constructor|lia].
  split_and!; [by_decision|cbn; lia|vm_compute; congruence|by vm_compute].
Defined.

(** The comment on [RangeSet::new] says that on overflow the smallest range is
    removed.  A range inserted below all others at capacity is the smallest,
    and stays; the one that was smallest before goes. *)
Example overflow_keeps_new_smallest :
  btree_insert (1, 2) [(10, 11); (20, 21); (30, 31); (40, 41)] 4 = [(1, 2); (20, 21); (30, 31); (40, 41)].
Proof. by vm_compute. Qed.

(** A set of capacity below four that is full panics on a range below its
    first: [pos -= 1] at position zero. *)
Example small_capacity_insert_panics : insert (1, 2) (Inline [(10, 11); (20, 21)] 2) = Panic.
Proof. by vm_compute. Qed.
