(* ===== verification/QuicError.v ===== *)
(** * The errors of the QUIC library

    src/quiche/quiche/src/error.rs.  [EDone] is [Error::Done] and
    [FlowControlError] is [Error::FlowControl]. *)

From S2P Require Import Prelude.

Inductive Error :=
| EDone
| BufferTooShort
| UnknownVersion
| InvalidFrame
| InvalidPacket
| InvalidState
| InvalidStreamState (stream : Z)
| InvalidTransportParam
| CryptoFail
| TlsFail
| FlowControlError
| StreamLimit
| StreamStopped (code : Z)
| StreamReset (code : Z)
| FinalSize
| CongestionControl
| IdLimit
| OutOfIdentifiers
| KeyUpdate
| CryptoBufferExceeded
| InvalidAckRange
| OptimisticAckDetected
| InvalidDcidInitialization.

#[export] Instance Error_eq_dec : EqDecision Error.
Proof. solve_decision. Defined.
