(* ===== verification/RecvBuf.v ===== *)
(** * The receiving side of a stream

    src/quiche/quiche/src/flowcontrol.rs (the credit given to the sender),
    range_buf.rs (a piece of a stream, a view into a shared buffer) and
    stream/recv_buf.rs (the pieces received and not yet read).

    The shared buffers are never written to, so a view holds its bytes; the
    ordered map of pieces, keyed by where each ends, is a [BTree].  Offsets are
    64-bit and stay below 2^62, so sums do not wrap. *)

From S2P Require Import Prelude BTree QuicError.

(** ** Flow control *)

Definition WINDOW_INCREASE_FACTOR : Z := 2.
Definition WINDOW_TRIGGER_FACTOR : Z := 2.

Record FlowControl := {
  consumed : Z;
  fc_max_data : Z;
  window : Z;
  max_window : Z;
  last_update : option Z;
}.

Definition fc_new (max_data w max_w : Z) : FlowControl :=
  {| consumed := 0; fc_max_data := max_data; window := Z.min w max_w; max_window := max_w;
     last_update := None |}.

Definition add_consumed (n : Z) (f : FlowControl) : FlowControl :=
  {| consumed := consumed f + n; fc_max_data := fc_max_data f; window := window f;
     max_window := max_window f; last_update := last_update f |}.

Definition should_update_max_data (f : FlowControl) : bool :=
  let available_window := fc_max_data f - consumed f in
  available_window <? window f / 2.

Definition max_data_next (f : FlowControl) : Z := consumed f + window f.

Definition update_max_data (now : Z) (f : FlowControl) : FlowControl :=
  {| consumed := consumed f; fc_max_data := max_data_next f; window := window f;
     max_window := max_window f; last_update := Some now |}.

Definition set_window (w : Z) (f : FlowControl) : FlowControl :=
  {| consumed := consumed f; fc_max_data := fc_max_data f; window := Z.min w (max_window f);
     max_window := max_window f; last_update := last_update f |}.

Definition autotune_window (now rtt : Z) (f : FlowControl) : FlowControl :=
  match last_update f with
  | Some last =>
      if now - last <? rtt * WINDOW_TRIGGER_FACTOR then set_window (window f * WINDOW_INCREASE_FACTOR) f
      else f
  | None => f
  end.

Definition ensure_window_lower_bound (min_window : Z) (f : FlowControl) : FlowControl :=
  if min_window >? window f then set_window min_window f else f.

(** ** A piece of a stream *)

Record RangeBuf := {
  rb_data : bytes;
  rb_start : Z;
  rb_pos : Z;
  rb_len : Z;
  rb_off : Z;
  rb_fin : bool;
}.

(** [RangeBuf::from]. *)
Definition rb_from (buf : bytes) (off : Z) (fin : bool) : RangeBuf :=
  {| rb_data := buf; rb_start := 0; rb_pos := 0; rb_len := blen buf; rb_off := off; rb_fin := fin |}.

Definition off_ (b : RangeBuf) : Z := (rb_off b - rb_start b) + rb_pos b.
Definition len_ (b : RangeBuf) : Z := rb_len b - (rb_pos b - rb_start b).
Definition max_off_ (b : RangeBuf) : Z := off_ b + len_ b.
Definition rb_empty (b : RangeBuf) : bool := len_ b =? 0.

Definition consume (count : Z) (b : RangeBuf) : RangeBuf :=
  {| rb_data := rb_data b; rb_start := rb_start b; rb_pos := rb_pos b + count; rb_len := rb_len b;
     rb_off := rb_off b; rb_fin := rb_fin b |}.

(** [split_off]: what is left, and the part from [at_] on. *)
Definition split_off (at_ : Z) (b : RangeBuf) : comp Error (RangeBuf * RangeBuf) :=
  if at_ <=? rb_len b then
    Ok ({| rb_data := rb_data b; rb_start := rb_start b; rb_pos := Z.min (rb_pos b) (rb_start b + at_);
           rb_len := at_; rb_off := rb_off b; rb_fin := false |},
        {| rb_data := rb_data b; rb_start := rb_start b + at_;
           rb_pos := Z.max (rb_pos b) (rb_start b + at_);
           rb_len := rb_len b - at_; rb_off := rb_off b + at_; rb_fin := rb_fin b |})
  else Panic.

(** [Deref]: the bytes of the view. *)
Definition content (b : RangeBuf) : comp Error bytes :=
  index_range (rb_data b) (rb_pos b) (rb_start b + rb_len b).

(** ** The buffer *)

Record RecvBuf := {
  data : list (Z * RangeBuf);
  off : Z;
  len : Z;
  flow_control : FlowControl;
  fin_off : option Z;
  error : option Z;
  drain : bool;
}.

Definition recv_new (max_data initial_window max_w : Z) : RecvBuf :=
  {| data := []; off := 0; len := 0; flow_control := fc_new max_data initial_window max_w;
     fin_off := None; error := None; drain := false |}.

Definition set_data (d : list (Z * RangeBuf)) (r : RecvBuf) : RecvBuf :=
  {| data := d; off := off r; len := len r; flow_control := flow_control r; fin_off := fin_off r;
     error := error r; drain := drain r |}.
Definition set_off (o : Z) (r : RecvBuf) : RecvBuf :=
  {| data := data r; off := o; len := len r; flow_control := flow_control r; fin_off := fin_off r;
     error := error r; drain := drain r |}.
Definition set_len (n : Z) (r : RecvBuf) : RecvBuf :=
  {| data := data r; off := off r; len := n; flow_control := flow_control r; fin_off := fin_off r;
     error := error r; drain := drain r |}.
Definition set_fin (f : option Z) (r : RecvBuf) : RecvBuf :=
  {| data := data r; off := off r; len := len r; flow_control := flow_control r; fin_off := f;
     error := error r; drain := drain r |}.
Definition set_flow (f : FlowControl) (r : RecvBuf) : RecvBuf :=
  {| data := data r; off := off r; len := len r; flow_control := f; fin_off := fin_off r;
     error := error r; drain := drain r |}.
Definition set_error (e : option Z) (r : RecvBuf) : RecvBuf :=
  {| data := data r; off := off r; len := len r; flow_control := flow_control r; fin_off := fin_off r;
     error := e; drain := drain r |}.
Definition set_drain (b : bool) (r : RecvBuf) : RecvBuf :=
  {| data := data r; off := off r; len := len r; flow_control := flow_control r; fin_off := fin_off r;
     error := error r; drain := b |}.

Definition max_off (r : RecvBuf) : Z := len r.
Definition off_front (r : RecvBuf) : Z := off r.
Definition max_data (r : RecvBuf) : Z := fc_max_data (flow_control r).
Definition is_fin (r : RecvBuf) : bool := match fin_off r with Some f => f =? off r | None => false end.
Definition is_draining (r : RecvBuf) : bool := drain r.
Definition almost_full (r : RecvBuf) : bool :=
  match fin_off r with Some _ => false | None => should_update_max_data (flow_control r) end.
Definition ready (r : RecvBuf) : bool :=
  match data r with (_, b) :: _ => off_ b =? off r | [] => false end.

(** The loop over the stored pieces that may overlap the new one: the new one
    is dropped ([None]), or what is left of it is kept; parts of it that lie
    past a stored piece are set aside. *)
Fixpoint overlap (buf : RangeBuf) (tmp : list RangeBuf) (entries : list (Z * RangeBuf))
  : comp Error (option RangeBuf * list RangeBuf) :=
  match entries with
  | [] => Ok (Some buf, tmp)
  | (_, b) :: entries =>
      let o := off_ buf in
      if off_ b >? max_off_ buf then Ok (Some buf, tmp)
      else if (o >=? off_ b) && (max_off_ buf <=? max_off_ b) then Ok (None, tmp)
      else
        buf ← (if (o >=? off_ b) && (o <? max_off_ b) then
                 '(_, tail) ← split_off (max_off_ b - o) buf; mret tail
               else mret buf);
        '(buf, tmp) ← (if (o <? off_ b) && (max_off_ buf >? off_ b) then
                         '(front, tail) ← split_off (off_ b - o) buf; mret (front, tmp ++ [tail])
                       else mret (buf, tmp));
        overlap buf tmp entries
  end.

(** One round of ['tmp]. *)
Definition tmp_step (s : RecvBuf * list RangeBuf) : round (RecvBuf * list RangeBuf) (comp Error RecvBuf) :=
  let '(r, tmp) := s in
  match tmp with
  | [] => Done (Ok r)
  | buf :: tmp =>
      match (buf ← (if off_front r >? off_ buf then
                      '(_, tail) ← split_off (off_front r - off_ buf) buf; mret tail
                    else mret buf);
             if (off_ buf <? max_off r) || rb_empty buf then
               overlap buf tmp (bt_from (off_ buf) (data r))
             else mret (Some buf, tmp)) with
      | Ok (None, tmp) => Next (r, tmp)
      | Ok (Some buf, tmp) =>
          let r := set_len (Z.max (len r) (max_off_ buf)) r in
          Next (if drain r then set_off (len r) r else set_data (bt_insert (max_off_ buf) buf (data r)) r, tmp)
      | Err e => Done (Err e)
      | Panic => Done Panic
      end
  end.

(** A piece weighs its bytes twice, less one; an empty one weighs one. *)
Definition tmp_measure (s : RecvBuf * list RangeBuf) : nat :=
  fold_right (λ b n, Z.to_nat (Z.max 1 (2 * len_ b - 1)) + n)%nat 0%nat s.2.

(** [write]: the outcome, and the buffer after it. *)
Definition write (buf : RangeBuf) (r : RecvBuf) : comp Error () * RecvBuf :=
  if max_off_ buf >? max_data r then (Err FlowControlError, r)
  else if match fin_off r with
          | Some f => (max_off_ buf >? f) || (rb_fin buf && negb (f =? max_off_ buf))
          | None => false
          end then (Err FinalSize, r)
  else if rb_fin buf && (max_off_ buf <? len r) then (Err FinalSize, r)
  else if match fin_off r with Some _ => rb_empty buf | None => false end then (Ok tt, r)
  else
    let r := if rb_fin buf then set_fin (Some (max_off_ buf)) r else r in
    if negb (rb_fin buf) && rb_empty buf then (Ok tt, r)
    else if (off r >=? max_off_ buf) && negb (rb_empty buf) then (Ok tt, r)
    else
      match loop tmp_measure tmp_step (Err EDone) (r, [buf]) with
      | Ok r => (Ok tt, r)
      | Err e => (Err e, r)
      | Panic => (Panic, r)
      end.

(** One round of [emit_or_discard]: the buffer, the capacity left and the
    bytes handed over so far ([emit] says whether they are copied). *)
Definition emit_step (emit : bool) (s : RecvBuf * Z * Z * bytes)
  : round (RecvBuf * Z * Z * bytes) (comp Error (RecvBuf * Z * bytes)) :=
  let '(r, cap, n, out) := s in
  if (cap >? 0) && ready r then
    match data r with
    | [] => Done (Ok (r, n, out))
    | (k, buf) :: rest =>
        let buf_len := Z.min (len_ buf) cap in
        match (c ← content buf; index_range c 0 buf_len) with
        | Ok piece =>
            let out := if emit then out ++ piece else out in
            let r := set_off (off r + buf_len) r in
            if buf_len <? len_ buf then
              Done (Ok (set_data ((k, consume buf_len buf) :: rest) r, n + buf_len, out))
            else Next (set_data rest r, cap - buf_len, n + buf_len, out)
        | Err e => Done (Err e)
        | Panic => Done Panic
        end
    end
  else Done (Ok (r, n, out)).

Definition emit_measure (s : RecvBuf * Z * Z * bytes) : nat := length (data s.1.1.1).

(** [emit_or_discard]: the bytes, their number and whether the stream is
    complete, and the buffer after it. *)
Definition emit_or_discard (emit : bool) (cap : Z) (r : RecvBuf) : comp Error (bytes * Z * bool) * RecvBuf :=
  if negb (ready r) then (Err EDone, r)
  else
    match error r with
    | Some e => (Err (StreamReset e), set_data [] r)
    | None =>
        match loop emit_measure (emit_step emit) (Err EDone) (r, cap, 0, []) with
        | Ok (r, n, out) =>
            let r := set_flow (add_consumed n (flow_control r)) r in
            (Ok (out, n, is_fin r), r)
        | Err e => (Err e, r)
        | Panic => (Panic, r)
        end
    end.

(** [reset]: the change of the largest offset and the credit given back. *)
Definition reset (error_code final_size : Z) (r : RecvBuf) : comp Error (Z * Z) * RecvBuf :=
  if match fin_off r with Some f => negb (f =? final_size) | None => false end then (Err FinalSize, r)
  else if final_size <? len r then (Err FinalSize, r)
  else
    match error r with
    | Some _ => (Ok (0, 0), r)
    | None =>
        let result := (final_size - len r, final_size - off r) in
        let r := set_data [] (set_off final_size (set_error (Some error_code) r)) in
        match write (rb_from [] final_size true) r with
        | (Ok _, r) => (Ok result, r)
        | (Err e, r) => (Err e, r)
        | (Panic, r) => (Panic, r)
        end
    end.

Definition shutdown (r : RecvBuf) : comp Error Z * RecvBuf :=
  if drain r then (Err EDone, r)
  else
    let r := set_data [] (set_drain true r) in
    (Ok (max_off r - off r), set_off (max_off r) r).

(** ** Pieces: facts *)

(** A view inside its buffer. *)
Definition rb_ok (b : RangeBuf) : Prop :=
  0 ≤ rb_start b ≤ rb_pos b ∧ rb_pos b ≤ rb_start b + rb_len b ∧
  rb_start b + rb_len b ≤ blen (rb_data b) ∧ rb_start b ≤ rb_off b.

(** Nothing of it has been consumed. *)
Definition fresh (b : RangeBuf) : Prop := rb_pos b = rb_start b.

Definition view (b : RangeBuf) : bytes := takez (len_ b) (dropz (rb_pos b) (rb_data b)).

Lemma content_view b : rb_ok b → content b = Ok (view b) ∧ blen (view b) = len_ b.
Proof.
  unfold rb_ok, content, index_range, view, len_. intros (? & ? & ? & ?).
  destruct (slice_in_range (rb_data b) (rb_pos b) (rb_start b + rb_len b)) as (s & E & Hl); [lia..|].
  rewrite E. split; [|rewrite blen_takez', blen_dropz'; lia].
  unfold slice in E. destruct (_ && _ && _); [|done]. injection E as <-. cbn. f_equal.
  unfold takez, dropz. f_equal. lia.
Qed.

Section stream.
(** The bytes of the stream, as the peer wrote them. *)
Context (S : bytes).

(** A piece of the stream, unread or partly read. *)
Definition part (b : RangeBuf) : Prop :=
  rb_ok b ∧ max_off_ b ≤ blen S ∧ view b = takez (len_ b) (dropz (off_ b) S).

Lemma part_bounds b : part b → 0 ≤ off_ b ≤ max_off_ b ∧ max_off_ b ≤ blen S ∧ max_off_ b = off_ b + len_ b.
Proof.
  intros ((? & ? & ? & ?) & ? & _). unfold max_off_, off_, len_ in *. lia.
Qed.

Lemma split_part at_ b : part b → fresh b → 0 ≤ at_ ≤ len_ b →
  ∃ f t, split_off at_ b = Ok (f, t) ∧ part f ∧ part t ∧ fresh f ∧ fresh t ∧
    off_ f = off_ b ∧ max_off_ f = off_ b + at_ ∧ off_ t = off_ b + at_ ∧ max_off_ t = max_off_ b.
Proof.
  intros ((? & ? & ? & ?) & Hm & Hv) Hf Hat. unfold fresh in Hf. unfold split_off, len_ in *.
  destruct (Z.leb_spec at_ (rb_len b)); [|lia]. eexists _, _. split; [done|].
  unfold view, max_off_, off_, len_ in *. cbn.
  assert (Hp1 : Z.min (rb_pos b) (rb_start b + at_) = rb_start b) by lia.
  assert (Hp2 : Z.max (rb_pos b) (rb_start b + at_) = rb_start b + at_) by lia.
  unfold part, rb_ok, fresh, view, max_off_, off_, len_. cbn. rewrite Hp1, Hp2, Hf in *.
  split_and!; try lia.
  - apply (f_equal (takez at_)) in Hv. rewrite !takez_takez in Hv by lia.
    replace (at_ - (rb_start b - rb_start b)) with at_ by lia. exact Hv.
  - apply (f_equal (dropz at_)) in Hv. rewrite !dropz_takez, !dropz_dropz in Hv by lia.
    replace (rb_len b - at_ - (rb_start b + at_ - (rb_start b + at_)))
      with (rb_len b - (rb_start b - rb_start b) - at_) by lia.
    rewrite Hv. do 2 f_equal; lia.
Qed.

Lemma consume_part n b : part b → 0 ≤ n ≤ len_ b →
  part (consume n b) ∧ off_ (consume n b) = off_ b + n ∧ max_off_ (consume n b) = max_off_ b.
Proof.
  intros ((? & ? & ? & ?) & Hm & Hv) Hn. unfold part, rb_ok, view, max_off_, off_, len_ in *. cbn.
  split_and!; try lia. apply (f_equal (dropz n)) in Hv. rewrite !dropz_takez, !dropz_dropz in Hv by lia.
  replace (rb_len b - (rb_pos b + n - rb_start b)) with (rb_len b - (rb_pos b - rb_start b) - n) by lia.
  rewrite Hv. do 2 f_equal; lia.
Qed.

(** ** The stored pieces *)

(** In order from [lo] on, apart, each keyed by its end; only the last may be
    empty, at the end of the stream. *)
Fixpoint pieces (lo : Z) (l : list (Z * RangeBuf)) : Prop :=
  match l with
  | [] => True
  | (k, b) :: r =>
      part b ∧ k = max_off_ b ∧ lo ≤ off_ b ∧ (off_ b < k ∨ (r = [] ∧ k = blen S)) ∧ pieces k r
  end.

Definition in_buf (b : RangeBuf) (x : Z) : Prop := off_ b ≤ x < max_off_ b.
Definition held (l : list (Z * RangeBuf)) (x : Z) : Prop := Exists (λ p, in_buf p.2 x) l.

Lemma held_app a b x : held (a ++ b) x ↔ held a x ∨ held b x.
Proof. apply Exists_app. Qed.

Lemma held_cons k b l x : held ((k, b) :: l) x ↔ in_buf b x ∨ held l x.
Proof. apply Exists_cons. Qed.

Lemma pieces_app lo a b : pieces lo (a ++ b) → bt_sorted (lo - 1) (a ++ b) →
  ∃ lo', lo ≤ lo' ∧ Forall (λ p, p.1 ≤ lo') a ∧ pieces lo' b.
Proof.
  revert lo. induction a as [|[k c] a IH]; intros lo; cbn [app pieces bt_sorted].
  - intros H _. exists lo. split_and!; [lia|constructor|done].
  - intros (Hp & -> & Hlo & Hne & H) [Hk Hs]. apply part_bounds in Hp as Hb.
    destruct (IH (max_off_ c) H) as (lo' & Hl & Hf & Hb');
      [by apply (bt_sorted_weaken _ (max_off_ c)); [lia|]|].
    exists lo'. split_and!; [lia|constructor; [cbn; lia|done]|done].
Qed.

(** Not empty, or empty past everything stored and kept alone. *)
Definition solid (b : RangeBuf) (before after : list (Z * RangeBuf)) : Prop :=
  off_ b < max_off_ b ∨
  (max_off_ b = blen S ∧ Forall (λ p, p.1 < off_ b) before ∧ Forall (λ p, p.1 ≤ off_ b) after).

(** What is left of a new piece: it goes between [before] and [after]. *)
Definition fits (b : RangeBuf) (before after : list (Z * RangeBuf)) : Prop :=
  part b ∧ fresh b ∧ Forall (λ p, p.1 ≤ off_ b) before ∧
  match after with (_, c) :: _ => max_off_ b ≤ off_ c | [] => True end ∧
  (off_ b < max_off_ b ∨ (max_off_ b = blen S ∧ Forall (λ p, p.1 < off_ b) before ∧ after = [])).

(** A part set aside: behind some stored piece, shorter than the new one. *)
Definition aside (buf t : RangeBuf) : Prop :=
  part t ∧ fresh t ∧ off_ buf < off_ t ∧ off_ t < max_off_ t ∧ max_off_ t ≤ max_off_ buf.

Lemma overlap_done buf tmp b k r : (off_ b < k ∨ (r = [] ∧ k = blen S)) → pieces k r → max_off_ buf ≤ off_ b →
  overlap buf tmp r = Ok (Some buf, tmp).
Proof.
  intros Hne Hr Hm. destruct r as [|[k2 b2] r]; [done|]. destruct Hne as [Hne|[? _]]; [|done].
  cbn [pieces] in Hr. destruct Hr as (_ & _ & Hlo & _). cbn [overlap].
  assert (off_ b2 >? max_off_ buf = true) as -> by lia. done.
Qed.

(** The loop over the stored pieces: it never panics, what is kept fits where
    the loop stopped, and every byte of the new piece is stored already, kept
    or set aside. *)
Lemma overlap_spec lo : ∀ after before buf tmp,
  part buf → fresh buf → pieces lo (before ++ after) → bt_sorted (lo - 1) (before ++ after) →
  Forall (λ p, p.1 ≤ off_ buf) before → Forall (λ p, off_ buf ≤ p.1) after → solid buf before after →
  ∃ res tails, overlap buf tmp after = Ok (res, tmp ++ tails) ∧
    (tails = [] ∨ ∃ t, tails = [t] ∧ aside buf t ∧ Exists (λ p, off_ p.2 = off_ t) after) ∧
    (∀ x, in_buf buf x → held (before ++ after) x ∨ Exists (λ t, in_buf t x) tails ∨
       match res with Some b => in_buf b x | None => False end) ∧
    match res with
    | None => True
    | Some b => off_ buf ≤ off_ b ∧ max_off_ b ≤ max_off_ buf ∧
        ∃ before' after', before ++ after = before' ++ after' ∧ fits b before' after'
    end.
Proof.
  induction after as [|[k b] after IH]; intros before buf tmp Hp Hf Hps Hs Hbe Haf Hso; cbn [overlap].
  - exists (Some buf), []. rewrite !app_nil_r in *. split_and!; [done|by left|tauto|lia|lia|].
    exists before, []. rewrite app_nil_r. split; [done|]. split_and!; [done..|].
    destruct Hso as [?|(? & ? & _)]; [by left|right; by split_and!].
  - apply part_bounds in Hp as Hb.
    destruct (pieces_app lo before ((k, b) :: after) Hps Hs) as (lo' & Hlo' & Hbe' & Hpc).
    cbn [pieces] in Hpc. destruct Hpc as (Hpb & -> & Hlob & Hne & Hpa). apply part_bounds in Hpb as Hbb.
    apply Forall_cons in Haf as [Hok Haf]. cbn in Hok.
    assert (Hsolid : off_ buf < max_off_ buf ∨ max_off_ b ≤ off_ buf).
    { destruct Hso as [?|(_ & _ & Hx)]; [by left|right]. by apply Forall_cons in Hx as [Hx _]. }
    assert (Hstop : ∀ c, off_ buf ≤ off_ c → off_ c < max_off_ c → max_off_ c ≤ max_off_ buf →
      max_off_ c ≤ off_ b → part c → fresh c → ∃ before' after',
      before ++ (max_off_ b, b) :: after = before' ++ after' ∧ fits c before' after').
    { intros c Hoc Hc1 Hc2 Hc3 Hc4 Hc5. exists before, ((max_off_ b, b) :: after).
      split; [done|]. split_and!; [done..| |done|by left].
      eapply Forall_impl; [exact Hbe|]. cbn. lia. }
    destruct (off_ b >? max_off_ buf) eqn:E1.
    { exists (Some buf), []. rewrite app_nil_r. split_and!; [done|by left|tauto|lia|lia|].
      apply (Hstop buf); (done || lia). }
    destruct ((off_ buf >=? off_ b) && (max_off_ buf <=? max_off_ b)) eqn:E2.
    { exists None, []. rewrite app_nil_r. split_and!; [done|by left| |done].
      intros x Hx. left. rewrite held_app, held_cons. right. left. unfold in_buf in *. lia. }
    destruct (Z.lt_ge_cases (off_ buf) (off_ b)) as [Hlt|Hge].
    + assert ((off_ buf >=? off_ b) = false) as Eg by lia. rewrite Eg. cbn [andb mbind comp_bind mret comp_ret].
      assert ((off_ buf <? off_ b) = true) as -> by lia. cbn [andb].
      destruct (max_off_ buf >? off_ b) eqn:E3.
      * destruct (split_part (off_ b - off_ buf) buf) as (f & t & Es & Hpf & Hpt & Hff & Hft & Of & Mf & Ot & Mt);
          [done..|unfold max_off_ in *; lia|].
        rewrite Es. cbn [mbind comp_bind mret comp_ret].
        rewrite (overlap_done f _ b (max_off_ b)) by (done || lia).
        exists (Some f), [t]. split_and!; [done| | |lia|lia|].
        -- right. exists t. split_and!; [done| |constructor; cbn; lia]. split_and!; (done || lia).
        -- intros x Hx. unfold in_buf in *. destruct (Z.lt_ge_cases x (off_ b)); [right; right; lia|].
           right. left. constructor. lia.
        -- apply (Hstop f); (done || lia).
      * cbn [mbind comp_bind mret comp_ret]. rewrite (overlap_done buf _ b (max_off_ b)) by (done || lia).
        exists (Some buf), []. rewrite app_nil_r. split_and!; [done|by left|tauto|lia|lia|].
        apply (Hstop buf); (done || lia).
    + assert ((off_ buf >=? off_ b) = true) as Eg by lia. rewrite Eg in *. cbn [andb] in *.
      assert ((off_ buf <? off_ b) = false) as Eg2 by lia.
      destruct (off_ buf <? max_off_ b) eqn:E3.
      * destruct (split_part (max_off_ b - off_ buf) buf) as (f & t & Es & Hpf & Hpt & Hff & Hft & Of & Mf & Ot & Mt);
          [done..|unfold max_off_ in *; lia|].
        rewrite Es. cbn [mbind comp_bind mret comp_ret]. rewrite Eg2. cbn [andb mbind comp_bind].
        destruct (IH (before ++ [(max_off_ b, b)]) t tmp) as (res & tails & E & Ht & Hx & Hr);
          [done|done|by rewrite <- app_assoc|by rewrite <- app_assoc| | | |].
        { apply Forall_app. split; [eapply Forall_impl; [exact Hbe|]; cbn; lia|].
          constructor; [cbn; lia|constructor]. }
        { apply bt_sorted_app_r in Hs as (lo2 & Hs). cbn in Hs. destruct Hs as [_ Hs].
          eapply Forall_impl; [by apply bt_sorted_above|]. cbn. lia. }
        { left. lia. }
        rewrite <- !app_assoc in *. cbn [app] in *.
        exists res, tails. split_and!; [done| | |].
        -- destruct Ht as [->|(u & -> & (? & ? & ? & ? & ?) & Hu)]; [by left|right].
           exists u. split_and!; [done|split_and!; (done || lia)|by constructor].
        -- intros x Hxb. unfold in_buf in Hxb. destruct (Z.lt_ge_cases x (max_off_ b)).
           ++ left. rewrite held_app, held_cons. right. left. unfold in_buf. lia.
           ++ apply Hx. unfold in_buf. lia.
        -- destruct res as [c|]; [|done]. destruct Hr as (? & ? & Hr). split_and!; [lia..|done].
      * cbn [mbind comp_bind mret comp_ret]. rewrite Eg2. cbn [andb mbind comp_bind].
        destruct (IH (before ++ [(max_off_ b, b)]) buf tmp) as (res & tails & E & Ht & Hx & Hr);
          [done|done|by rewrite <- app_assoc|by rewrite <- app_assoc| |done| |].
        { apply Forall_app. split; [done|]. constructor; [cbn; lia|constructor]. }
        { left. lia. }
        rewrite <- !app_assoc in *. cbn [app] in *.
        exists res, tails. split_and!; [done| |done|done].
        destruct Ht as [->|(u & -> & Ha & Hu)]; [by left|right].
        exists u. split_and!; [done|done|by constructor].
Qed.

(** ** Storing a piece *)

Lemma pieces_put lo b1 a a' b :
  pieces lo (b1 ++ a) → part b → lo ≤ off_ b → Forall (λ p, p.1 ≤ off_ b ∧ p.1 < blen S) b1 →
  (off_ b < max_off_ b ∨ (a' = [] ∧ max_off_ b = blen S)) → pieces (max_off_ b) a' →
  pieces lo (b1 ++ (max_off_ b, b) :: a').
Proof.
  intros Hps Hb Hlo Hf Hne Ha. revert lo Hps Hlo. induction Hf as [|[k c] b1 [Hk1 Hk2] _ IH]; intros lo Hps Hlo.
  - cbn. by split_and!.
  - cbn [app pieces] in *. cbn in Hk1, Hk2. destruct Hps as (Hc & -> & Hlc & Hnc & Hps).
    split_and!; [done..| |by apply IH]. left. destruct Hnc as [?|[_ ?]]; [done|lia].
Qed.

Lemma pieces_lo lo lo' a : pieces lo a → match a with (_, c) :: _ => lo' ≤ off_ c | [] => True end → pieces lo' a.
Proof. destruct a as [|[k c] a]; [done|]. cbn. intros (? & ? & ? & ? & ?) ?. by split_and!. Qed.

Lemma sorted_put lo b1 a (v : Z * RangeBuf) : bt_sorted lo (b1 ++ a) → lo < v.1 → Forall (λ p, p.1 < v.1) b1 →
  bt_sorted v.1 a → bt_sorted lo (b1 ++ v :: a).
Proof.
  revert lo. induction b1 as [|[k c] b1 IH]; intros lo; cbn.
  - destruct v as [m b]. by cbn.
  - intros [Hk Hs] Hlo [Hk' Hf]%Forall_cons Ha. split; [done|]. by apply IH.
Qed.

Lemma insert_fits lo b b1 a :
  pieces lo (b1 ++ a) → bt_sorted (lo - 1) (b1 ++ a) → fits b b1 a → lo ≤ off_ b →
  let l := bt_insert (max_off_ b) b (b1 ++ a) in
  pieces lo l ∧ bt_sorted (lo - 1) l ∧ (∀ x, held l x ↔ held (b1 ++ a) x ∨ in_buf b x) ∧
  (∀ m, Forall (λ p, p.1 ≤ m) (b1 ++ a) → max_off_ b ≤ m → Forall (λ p, p.1 ≤ m) l).
Proof.
  intros Hps Hs (Hp & Hf & Hb1 & Ha & Hne) Hlo. apply part_bounds in Hp as Hb.
  assert (Hlt : Forall (λ p, p.1 < max_off_ b) b1).
  { destruct Hne as [?|(? & Hx & _)]; [|eapply Forall_impl; [exact Hx|]; cbn; lia].
    eapply Forall_impl; [exact Hb1|]. cbn. lia. }
  assert (HltS : Forall (λ p, p.1 ≤ off_ b ∧ p.1 < blen S) b1).
  { eapply Forall_impl; [exact (proj2 (Forall_and _ _) (conj Hb1 Hlt))|]. cbn. lia. }
  destruct (pieces_app lo b1 a Hps Hs) as (lo' & Hlo' & _ & Hpa).
  assert (Hmid : Forall (λ p, max_off_ b < p.1) a → bt_sorted (max_off_ b) a →
    pieces lo (b1 ++ (max_off_ b, b) :: a) ∧ bt_sorted (lo - 1) (b1 ++ (max_off_ b, b) :: a)).
  { intros Hgt Hsa. split; [|by apply sorted_put; [done|cbn; lia|done|done]].
    apply (pieces_put lo b1 a); [done..| |by apply (pieces_lo lo')].
    destruct Hne as [?|(? & _ & ->)]; [by left|by right]. }
  destruct a as [|[k c] a].
  - cbn zeta. rewrite bt_insert_middle by (done || constructor).
    destruct Hmid as [H1 H2]; [constructor|done|]. split_and!; [done..| |].
    + intros x. rewrite !held_app, held_cons. unfold held. rewrite !Exists_nil. tauto.
    + intros m Hm Hbm. rewrite app_nil_r in Hm. apply Forall_app. split; [done|]. by constructor.
  - cbn [pieces] in Hpa. destruct Hpa as (Hpc & -> & _ & Hnc & Hpa). apply part_bounds in Hpc as Hc.
    apply bt_sorted_app_r in Hs as Hsa. destruct Hsa as (lo2 & _ & Hsa).
    destruct (Z.eq_dec (max_off_ c) (max_off_ b)) as [Heq|Hneq].
    + destruct Hnc as [?|[-> Hend]]; [lia|]. cbn zeta. rewrite Heq, bt_insert_present by done. split_and!.
      * apply (pieces_put lo b1 [(max_off_ c, c)]); [done..| |done]. right. by rewrite <- Heq.
      * apply (sorted_put _ b1 []); [|cbn; lia|done|done].
        rewrite app_nil_r. apply bt_sorted_app_l in Hs. exact Hs.
      * intros x. rewrite !held_app, !held_cons. unfold held, in_buf. rewrite !Exists_nil. split; [tauto|].
        intros [[?|[?|[]]]|?]; [tauto|lia|tauto].
      * intros m Hm Hbm. apply Forall_app in Hm as [Hm _]. apply Forall_app. split; [done|]. by constructor.
    + assert (Hgt : Forall (λ p, max_off_ b < p.1) ((max_off_ c, c) :: a)).
      { constructor; [cbn; lia|]. eapply Forall_impl; [by apply bt_sorted_above|]. cbn. lia. }
      cbn zeta. rewrite bt_insert_middle by done.
      destruct Hmid as [H1 H2]; [done|cbn; split; [lia|done]|]. split_and!; [done..| |].
      * intros x. rewrite !held_app, !held_cons. tauto.
      * intros m Hm Hbm. apply Forall_app in Hm as [? ?]. apply Forall_app. split; [done|]. by constructor.
Qed.

(** ** The buffer's invariant *)

Definition inv (r : RecvBuf) : Prop :=
  pieces (off r) (data r) ∧ bt_sorted (off r - 1) (data r) ∧ Forall (λ p, p.1 ≤ len r) (data r) ∧
  0 ≤ off r ≤ len r ∧ len r ≤ blen S ∧ (∀ f, fin_off r = Some f → f = blen S) ∧ drain r = false.

(** What a write leaves alone. *)
Definition same_frame (r r' : RecvBuf) : Prop :=
  off r' = off r ∧ flow_control r' = flow_control r ∧ fin_off r' = fin_off r ∧ error r' = error r.

(** A piece still to be stored. *)
Definition pending (r : RecvBuf) (t : RangeBuf) : Prop :=
  part t ∧ fresh t ∧
  (off_ t < max_off_ t ∧ off r < max_off_ t ∨ off_ t = max_off_ t ∧ max_off_ t = blen S ∧ off r ≤ off_ t).

(** The bytes read, stored or still to be stored. *)
Definition cov (s : RecvBuf * list RangeBuf) (x : Z) : Prop :=
  x < off s.1 ∨ held (data s.1) x ∨ Exists (λ t, in_buf t x) s.2.

(** Bytes below the read offset are trimmed. *)
Lemma trim_spec r buf : inv r → pending r buf →
  ∃ b, (if off_front r >? off_ buf then '(_, tail) ← split_off (off_front r - off_ buf) buf; mret tail
        else mret buf) = (Ok b : comp Error RangeBuf) ∧
    part b ∧ fresh b ∧ off r ≤ off_ b ∧ off_ buf ≤ off_ b ∧ max_off_ b = max_off_ buf ∧
    (∀ x, x < off r ∨ in_buf buf x ↔ x < off r ∨ in_buf b x) ∧
    (off_ b < max_off_ b ∨ off_ b = max_off_ b ∧ max_off_ b = blen S).
Proof.
  intros Hi (Hp & Hf & Hne). unfold off_front. apply part_bounds in Hp as Hb.
  destruct (off r >? off_ buf) eqn:E.
  - destruct (split_part (off r - off_ buf) buf) as (f & t & Es & _ & Hpt & _ & Hft & _ & _ & Ot & Mt);
      [done..|unfold max_off_ in *; lia|].
    exists t. rewrite Es. split; [done|]. unfold in_buf. split_and!; [done|done|lia|lia|lia| |left; lia].
    intros x. lia.
  - exists buf. unfold in_buf. split_and!; [done..|lia|lia|done|done|]. destruct Hne as [[? _]|(? & ? & _)]; tauto.
Qed.

Lemma overlap_from r b tmp : inv r → part b → fresh b → off r ≤ off_ b →
  (off_ b < max_off_ b ∨ off_ b = max_off_ b ∧ max_off_ b = blen S) →
  ∃ res tails, (if (off_ b <? max_off r) || rb_empty b then overlap b tmp (bt_from (off_ b) (data r))
                else mret (Some b, tmp)) = (Ok (res, tmp ++ tails) : comp Error _) ∧
    (tails = [] ∨ ∃ t, tails = [t] ∧ aside b t ∧ off r ≤ off_ t) ∧
    (∀ x, in_buf b x → held (data r) x ∨ Exists (λ t, in_buf t x) tails ∨
       match res with Some c => in_buf c x | None => False end) ∧
    match res with
    | None => True
    | Some c => off_ b ≤ off_ c ∧ max_off_ c ≤ max_off_ b ∧
        ∃ before after, data r = before ++ after ∧ fits c before after
    end.
Proof.
  intros (Hps & Hs & Hlen & Hoff & HlS & Hfin & Hd) Hp Hf Hlo Hne. unfold max_off.
  destruct (bt_split (off r - 1) (off_ b) (data r) Hs) as (before & after & Ed & Hbe & Haf).
  destruct ((off_ b <? len r) || rb_empty b) eqn:E.
  - rewrite Ed, bt_from_middle by done. rewrite Ed in Hps, Hs, Hlen.
    destruct (overlap_spec (off r) after before b tmp) as (res & tails & Eo & Ht & Hx & Hr); [done..| |done| |].
    { eapply Forall_impl; [exact Hbe|]. cbn. lia. }
    { destruct Hne as [?|[? ?]]; [by left|right]. split_and!; [done..|].
      apply Forall_app in Hlen as [_ Hlen]. eapply Forall_impl; [exact Hlen|]. cbn. lia. }
    exists res, tails. split_and!; [done| |done|done].
    destruct Ht as [->|(t & -> & Ha & He)]; [by left|right]. exists t. split_and!; [done..|].
    destruct Ha as (_ & _ & ? & _). lia.
  - exists (Some b), []. rewrite app_nil_r. split_and!; [done|by left|tauto|lia|lia|].
    exists (data r), []. rewrite app_nil_r. split; [done|].
    assert (Hb : off_ b < max_off_ b).
    { destruct Hne as [?|[? ?]]; [done|]. apply part_bounds in Hp. unfold rb_empty in E. lia. }
    split_and!; [done..| |done|by left]. eapply Forall_impl; [exact Hlen|]. cbn. lia.
Qed.

Lemma weigh_pos b : (0 < Z.to_nat (Z.max 1 (2 * len_ b - 1)))%nat.
Proof. lia. Qed.

(** One round of the write loop. *)
Lemma tmp_step_spec r buf tmp :
  inv r → Forall (pending r) (buf :: tmp) →
  ∃ r' tmp', tmp_step (r, buf :: tmp) = Next (r', tmp') ∧ inv r' ∧ same_frame r r' ∧ Forall (pending r') tmp' ∧
    (∀ x, cov (r', tmp') x ↔ cov (r, buf :: tmp) x) ∧
    (tmp_measure (r', tmp') < tmp_measure (r, buf :: tmp))%nat.
Proof.
  intros Hi [Hpend Htmp]%Forall_cons.
  destruct (trim_spec r buf Hi Hpend) as (b & Eb & Hp & Hf & Hlo & Hge & Hmax & Hcb & Hne).
  destruct (overlap_from r b tmp Hi Hp Hf Hlo Hne) as (res & tails & Eo & Ht & Hx & Hr).
  pose proof Hi as (Hps & Hs & Hlen & Hoff & HlS & Hfin & Hd).
  apply part_bounds in Hp as Hbb. destruct Hpend as (Hpbuf & _ & _). apply part_bounds in Hpbuf as Hbuf.
  assert (Htails : ∀ r', off r' = off r → Forall (pending r') (tmp ++ tails)).
  { intros r' Er. apply Forall_app. split.
    - eapply Forall_impl; [exact Htmp|]. unfold pending. by rewrite Er.
    - destruct Ht as [->|(t & -> & (? & ? & ? & ? & ?) & ?)]; [constructor|].
      constructor; [|constructor]. split_and!; [done..|]. left. lia. }
  assert (Hm : ∀ r', (tmp_measure (r', tmp ++ tails) < tmp_measure (r, buf :: tmp))%nat).
  { intros r'. unfold tmp_measure. cbn [snd fold_right]. rewrite fold_right_app.
    assert (∀ l n, fold_right (λ b n, Z.to_nat (Z.max 1 (2 * len_ b - 1)) + n)%nat n l
      = (fold_right (λ b n, Z.to_nat (Z.max 1 (2 * len_ b - 1)) + n)%nat 0%nat l + n)%nat) as Hadd.
    { induction l as [|y l IHl]; intros n; cbn; [done|]. rewrite IHl. lia. }
    rewrite Hadd. destruct Ht as [->|(t & -> & (Hpt & _ & ? & ? & ?) & _)]; cbn; [lia|].
    apply part_bounds in Hpt. lia. }
  assert (Hcov : ∀ x, Exists (λ t, in_buf t x) tails ∨ match res with Some c => in_buf c x | None => False end →
    x < off r ∨ in_buf buf x).
  { intros x Hxx. apply Hcb. right. unfold in_buf in *. destruct Hxx as [Hxx|Hxx].
    - destruct Ht as [->|(t & -> & (_ & _ & ? & _ & ?) & _)]; [by apply Exists_nil in Hxx|].
      apply Exists_cons in Hxx as [Hxx|Hxx]; [lia|by apply Exists_nil in Hxx].
    - destruct res; [|done]. destruct Hr as (? & ? & _). lia. }
  unfold tmp_step. rewrite Eb. cbn [mbind comp_bind]. rewrite Eo.
  destruct res as [c|].
  - destruct Hr as (H1 & H2 & before & after & Ed & Hfits). rewrite Ed in Hps, Hs, Hlen.
    destruct (insert_fits (off r) c before after Hps Hs Hfits ltac:(lia)) as (Ip & Is & Ih & Il).
    rewrite <- Ed in Ip, Is, Ih, Il. set (r1 := set_len _ r). change (drain r1) with (drain r). rewrite Hd.
    eexists _, _. split; [done|]. cbn [data off len flow_control fin_off error drain set_data r1 set_len].
    split_and!; [|done|by apply Htails| |apply Hm].
    + split_and!; cbn; [done|done| |lia..|done|done].
      apply Il; [|lia]. rewrite Ed. eapply Forall_impl; [exact Hlen|]. cbn. lia.
    + intros x. unfold cov. cbn [fst snd off data set_data set_len r1]. rewrite Ih, Exists_cons, Exists_app.
      specialize (Hx x). specialize (Hcov x). specialize (Hcb x). clear - Hx Hcov Hcb. tauto.
  - eexists _, _. split; [done|]. split_and!; [done|done|by apply Htails| |apply Hm].
    intros x. unfold cov. cbn [fst snd]. rewrite Exists_cons, Exists_app.
    specialize (Hx x). specialize (Hcov x). specialize (Hcb x). clear - Hx Hcov Hcb. tauto.
Qed.

Lemma tmp_loop r tmp d : inv r → Forall (pending r) tmp →
  ∃ r', loop tmp_measure tmp_step d (r, tmp) = Ok r' ∧ inv r' ∧ same_frame r r' ∧
    ∀ x, cov (r', []) x ↔ cov (r, tmp) x.
Proof.
  intros Hi Ht. pose (I := λ s : RecvBuf * list RangeBuf, inv s.1 ∧ Forall (pending s.1) s.2).
  assert (DecreasingOn I tmp_measure tmp_step).
  { intros [r0 [|b t]] s' [H1 H2] E; [done|].
    destruct (tmp_step_spec r0 b t H1 H2) as (r' & t' & E' & ? & _ & ? & _ & ?).
    rewrite E' in E. injection E as <-. by split. }
  pose (P := λ (s : RecvBuf * list RangeBuf) (m : comp Error RecvBuf), ∃ r', m = Ok r' ∧ inv r' ∧
    same_frame s.1 r' ∧ ∀ x, cov (r', []) x ↔ cov s x).
  apply (loop_ind_on I tmp_measure tmp_step P d); [| |by split].
  - intros [r0 [|b t]] m [H1 H2] E.
    + injection E as <-. exists r0. by split_and!.
    + destruct (tmp_step_spec r0 b t H1 H2) as (r' & t' & E' & _). by rewrite E' in E.
  - intros [r0 [|b t]] s' m [H1 H2] E (r' & -> & H3 & H4 & H5); [done|].
    destruct (tmp_step_spec r0 b t H1 H2) as (r1 & t1 & E' & _ & Hs & _ & Hc & _).
    rewrite E' in E. injection E as <-. exists r'. split_and!; [done|done| |].
    + cbn in *. unfold same_frame in *. destruct H4 as (-> & -> & -> & ->). exact Hs.
    + intros x. by rewrite H5, Hc.
Qed.

(** ** Writing *)

(** The bytes received so far. *)
Definition received (r : RecvBuf) (x : Z) : Prop := x < off r ∨ held (data r) x.

(** A piece of the stream as a frame brings it; the final one ends it. *)
Definition chunk (b : RangeBuf) : Prop :=
  part b ∧ fresh b ∧ (rb_fin b = true → max_off_ b = blen S).

Lemma in_buf_empty b x : len_ b = 0 → ¬ in_buf b x.
Proof. unfold in_buf, max_off_. lia. Qed.

Lemma write_spec buf r :
  inv r → chunk buf → max_off_ buf ≤ max_data r →
  ∃ r', write buf r = (Ok tt, r') ∧ inv r' ∧ off r' = off r ∧ flow_control r' = flow_control r ∧
    error r' = error r ∧ (∀ x, received r' x ↔ received r x ∨ in_buf buf x).
Proof.
  intros Hi (Hp & Hf & Hfin) Hmax. unfold write. apply part_bounds in Hp as Hb.
  pose proof Hi as (Hps & Hs & Hlen & Hoff & HlS & Hfo & Hd).
  destruct (max_off_ buf >? max_data r) eqn:E1; [lia|].
  destruct (match fin_off r with Some f => _ | None => false end) eqn:E2.
  { exfalso. destruct (fin_off r) as [f|] eqn:Ef; [|done]. pose proof (Hfo f eq_refl) as ->.
    destruct (rb_fin buf); [pose proof (Hfin eq_refl)|]; cbn in E2; lia. }
  destruct (rb_fin buf && (max_off_ buf <? len r)) eqn:E3.
  { exfalso. destruct (rb_fin buf); [pose proof (Hfin eq_refl)|]; cbn in E3; lia. }
  assert (Hskip : ∀ r', inv r' → off r' = off r → data r' = data r → flow_control r' = flow_control r →
    error r' = error r → (len_ buf = 0 ∨ max_off_ buf ≤ off r) →
    ∃ r'', (Ok tt : comp Error (), r') = (Ok tt, r'') ∧ inv r'' ∧ off r'' = off r ∧ flow_control r'' = flow_control r ∧
      error r'' = error r ∧ (∀ x, received r'' x ↔ received r x ∨ in_buf buf x)).
  { intros r' Hi' Ho Hda Hfl He Hno. exists r'. split_and!; [done..|]. intros x. unfold received. rewrite Ho, Hda.
    split; [tauto|]. intros [?|Hx]; [done|]. destruct Hno as [Hno|Hno]; [by apply in_buf_empty in Hx|].
    unfold in_buf in Hx. lia. }
  destruct (match fin_off r with Some _ => rb_empty buf | None => false end) eqn:E4.
  { apply Hskip; try done. left. unfold rb_empty in E4. destruct (fin_off r); [lia|done]. }
  set (r1 := if rb_fin buf then set_fin (Some (max_off_ buf)) r else r).
  assert (H1 : inv r1 ∧ off r1 = off r ∧ data r1 = data r ∧ flow_control r1 = flow_control r ∧ error r1 = error r).
  { unfold r1. destruct (rb_fin buf) eqn:Eb; [|done]. split; [|done].
    unfold inv. cbn [pieces off data len fin_off drain set_fin]. split_and!; [done|done|done|lia|lia|lia| |done].
    intros f [= <-]. by apply Hfin. }
  destruct H1 as (Hi1 & Ho1 & Hd1 & Hfl1 & He1).
  destruct (negb (rb_fin buf) && rb_empty buf) eqn:E5.
  { apply Hskip; try done. left. unfold rb_empty in E5. lia. }
  destruct ((off r1 >=? max_off_ buf) && negb (rb_empty buf)) eqn:E6.
  { apply Hskip; try done. right. lia. }
  assert (Hpend : Forall (pending r1) [buf]).
  { constructor; [|constructor]. split_and!; [done..|]. rewrite Ho1 in *. unfold rb_empty in *.
    destruct (Z.eqb_spec (len_ buf) 0); cbn in *; [right|left; lia].
    destruct (rb_fin buf); [|done]. specialize (Hfin eq_refl). lia. }
  destruct (tmp_loop r1 [buf] (Err EDone) Hi1 Hpend) as (r' & E & Hi' & (Ho' & Hfl' & Hfo' & He') & Hc).
  rewrite E. exists r'. split_and!; [done|done|congruence|congruence|congruence|].
  intros x. specialize (Hc x). unfold cov in Hc. cbn [fst snd] in Hc. unfold received.
  rewrite Exists_cons, !Exists_nil, Hd1, Ho1 in Hc. clear - Hc. tauto.
Qed.

(** ** Reading *)

Lemma not_ready_gap r : inv r → ready r = false → ¬ received r (off r).
Proof.
  intros (Hps & Hs & _) Hr [Hx|Hx]; [lia|]. unfold ready in Hr. unfold held in Hx.
  destruct (data r) as [|[k b] l]; [by apply Exists_nil in Hx|].
  cbn [pieces] in Hps. destruct Hps as (Hp & -> & Hlo & _ & Hps). cbn in Hs. destruct Hs as [_ Hs].
  apply part_bounds in Hp. apply Exists_cons in Hx as [Hx|Hx]; [unfold in_buf in Hx; cbn in Hx; lia|].
  assert (Hall : ∀ l lo, pieces lo l → Forall (λ p, lo ≤ off_ p.2) l).
  { clear. induction l as [|[k b] l IH]; intros lo; cbn; [constructor|]. intros (Hp & -> & ? & _ & Hl).
    apply part_bounds in Hp. constructor; [done|]. eapply Forall_impl; [by apply (IH _ Hl)|]. cbn. lia. }
  apply Hall in Hps. rewrite Exists_exists in Hx. destruct Hx as (p & Hin & Hx). rewrite Forall_forall in Hps.
  apply Hps in Hin. unfold in_buf in Hx. lia.
Qed.

#[local] Instance emit_decreasing emit : Decreasing emit_measure (emit_step emit).
Proof.
  intros [[[r cap] n] out] s'. unfold emit_step, emit_measure. destruct (_ && _); [|done].
  destruct (data r) as [|[k b] rest] eqn:E; [done|].
  destruct (c ← content b; _) as [piece| |]; [|done..]. destruct (_ <? _); [done|].
  intros [= <-]. cbn. rewrite E. cbn. lia.
Qed.

(** Reading from [r] reached [r'] after [m] bytes. *)
Definition advanced (r r' : RecvBuf) (m : Z) : Prop :=
  inv r' ∧ off r' = off r + m ∧ flow_control r' = flow_control r ∧ fin_off r' = fin_off r ∧
  error r' = error r ∧ (∀ x, received r' x ↔ received r x).

Lemma emit_loop emit d l : ∀ r cap n out, data r = l → inv r → 0 ≤ cap →
  ∃ r' m, loop emit_measure (emit_step emit) d (r, cap, n, out)
      = Ok (r', n + m, if emit then out ++ takez m (dropz (off r) S) else out) ∧
    advanced r r' m ∧ 0 ≤ m ≤ cap ∧ (m = cap ∨ ready r' = false).
Proof.
  assert (Hstop : ∀ r cap n out, inv r → 0 ≤ cap → cap = 0 ∨ ready r = false →
    ∃ r' m, (Ok (r, n, out) : comp Error _) = Ok (r', n + m, if emit then out ++ takez m (dropz (off r) S) else out) ∧
      advanced r r' m ∧ 0 ≤ m ≤ cap ∧ (m = cap ∨ ready r' = false)).
  { intros r cap n out Hi Hc Hs. exists r, 0. rewrite Z.add_0_r. change (takez 0 (dropz (off r) S)) with (@nil Z).
    rewrite app_nil_r. split; [by destruct emit|]. split; [|split; [lia|destruct Hs; [left; lia|by right]]].
    split_and!; (done || lia). }
  induction l as [|[k b] l IH]; intros r cap n out El Hi Hc; rewrite loop_unfold by apply _; unfold emit_step at 1.
  - assert (Hr : ready r = false) by (unfold ready; by rewrite El). rewrite Hr, andb_false_r. apply Hstop; tauto.
  - destruct (cap >? 0) eqn:Ec; [|cbn [andb]; apply Hstop; [done|done|left; lia]].
    destruct (ready r) eqn:Er; [|cbn [andb]; apply Hstop; tauto]. cbn [andb]. rewrite El.
    pose proof Hi as (Hps & Hs & Hlen & Hoff & HlS & Hfo & Hd). unfold ready in Er. rewrite El in *.
    cbn [pieces] in Hps. destruct Hps as (Hp & -> & Hlo & Hne & Hps). cbn [bt_sorted] in Hs. destruct Hs as [Hk Hs].
    apply Forall_cons in Hlen as [Hkl Hlen]. cbn in Hkl. apply part_bounds in Hp as Hb.
    pose proof Hp as (Hok & _ & Hv). destruct (content_view b Hok) as [Ecv Hbv]. rewrite Ecv. cbn [mbind comp_bind].
    set (bl := Z.min (len_ b) cap). unfold index_range. rewrite slice_prefix by lia. cbn [or_panic].
    assert (Hpiece : takez bl (view b) = takez bl (dropz (off r) S)).
    { rewrite Hv, takez_takez by lia. by replace (off_ b) with (off r) by lia. }
    rewrite Hpiece. destruct (bl <? len_ b) eqn:Ebl.
    + destruct (consume_part bl b Hp ltac:(lia)) as (Hpc & Oc & Mc).
      eexists _, bl. split; [done|]. split_and!; [|lia|lia|left; lia].
      split_and!; try done.
      * unfold inv. cbn [off data len fin_off drain set_data set_off pieces bt_sorted].
        rewrite Mc, Oc. split_and!; first [done|lia|left; lia|idtac].
        by constructor.
      * intros x. unfold received. cbn [off data set_data set_off]. rewrite El, !held_cons. unfold in_buf.
        rewrite Oc, Mc. assert (off_ b = off r) as -> by lia.
        split; intros [?|[?|?]]; try tauto; destruct (Z.lt_ge_cases x (off r)); try tauto;
          destruct (Z.lt_ge_cases x (off r + bl)); try tauto; right; left; lia.
    + set (r1 := set_data l (set_off (off r + bl) r)).
      assert (Hmo : max_off_ b = off r + bl) by lia.
      assert (Hi1 : inv r1).
      { unfold inv, r1. cbn [off data len fin_off drain set_data set_off].
        split_and!; try (done || lia); [by rewrite <- Hmo|]. by apply (bt_sorted_weaken _ (max_off_ b)); [lia|]. }
      destruct (IH r1 (cap - bl) (n + bl) (if emit then out ++ takez bl (dropz (off r) S) else out))
        as (r' & m & E & (Hi' & Ho' & Hfl & Hfi & He & Hrc) & Hm & Hend); [done|done|lia|].
      exists r', (bl + m). change (off r1) with (off r + bl) in *. split.
      * rewrite E. do 2 f_equal; [f_equal; lia|]. destruct emit; [|done].
        rewrite <- app_assoc, <- dropz_dropz by lia. by rewrite takez_app_dropz by lia.
      * split_and!; [|lia|lia|destruct Hend; [left; lia|by right]]. split_and!; [done|lia|done..|].
        intros x. rewrite Hrc. unfold received, r1. cbn [off data set_data set_off]. rewrite El, held_cons.
        unfold in_buf. split; [intros [?|?]; [destruct (Z.lt_ge_cases x (off r)); [tauto|right; left; lia]|tauto]|].
        intros [?|[?|?]]; [left; lia|left; lia|tauto].
Qed.

Lemma emit_spec cap r : inv r → error r = None → 0 ≤ cap → ready r = true →
  ∃ r' out, emit_or_discard true cap r = (Ok (out, blen out, is_fin r'), r') ∧
    out = takez (blen out) (dropz (off r) S) ∧ inv r' ∧ off r' = off r + blen out ∧ blen out ≤ cap ∧
    max_data r' = max_data r ∧ error r' = None ∧
    (blen out = cap ∨ ready r' = false) ∧ (∀ x, received r' x ↔ received r x).
Proof.
  intros Hi He Hc Hr. unfold emit_or_discard. rewrite Hr, He. cbn [negb].
  destruct (emit_loop true (Err EDone) (data r) r cap 0 []) as (r1 & m & E & (Hi1 & Ho & Hfl & Hfi & Her & Hrc) & Hm & Hend);
    [done..|]. rewrite E. cbn [app]. rewrite Z.add_0_l.
  assert (Hlen : blen (takez m (dropz (off r) S)) = m).
  { pose proof Hi as (_ & _ & _ & ? & ? & _). pose proof Hi1 as (_ & _ & _ & ? & ? & _).
    rewrite blen_takez', blen_dropz'. lia. }
  eexists _, _. split; [by rewrite Hlen|]. rewrite Hlen. split_and!; try done; try lia.
  - cbn. by rewrite Hfl.
  - cbn. congruence.
Qed.

End stream.

(** ** Reassembly *)

Inductive recv_op :=
| WriteOp (buf : RangeBuf)
| ReadOp (cap : Z).

(** An operation on the buffer and what has been read from it; reading when
    there is nothing to read is no error. *)
Definition recv_step (op : recv_op) (s : bytes * RecvBuf) : comp Error (bytes * RecvBuf) :=
  let '(out, r) := s in
  match op with
  | WriteOp buf =>
      match write buf r with
      | (Ok _, r) => Ok (out, r)
      | (Err e, _) => Err e
      | (Panic, _) => Panic
      end
  | ReadOp cap =>
      match emit_or_discard true cap r with
      | (Ok (more, _, _), r) => Ok (out ++ more, r)
      | (Err EDone, r) => Ok (out, r)
      | (Err e, _) => Err e
      | (Panic, _) => Panic
      end
  end.

Fixpoint recv_run (ops : list recv_op) (s : bytes * RecvBuf) : comp Error (bytes * RecvBuf) :=
  match ops with
  | [] => Ok s
  | op :: ops => s ← recv_step op s; recv_run ops s
  end.

Section reassembly.
Context (S : bytes).

Definition op_ok (limit : Z) (op : recv_op) : Prop :=
  match op with
  | WriteOp buf => chunk S buf ∧ max_off_ buf ≤ limit
  | ReadOp cap => 0 ≤ cap
  end.

(** The byte at [x] is in a piece one of the operations writes. *)
Definition written (ops : list recv_op) (x : Z) : Prop :=
  Exists (λ op, match op with WriteOp buf => in_buf buf x | ReadOp _ => False end) ops.

(** The buffer holds what was written, the reader got the start of the stream. *)
Definition recv_ok (limit : Z) (ops : list recv_op) (s : bytes * RecvBuf) : Prop :=
  inv S s.2 ∧ error s.2 = None ∧ max_data s.2 = limit ∧ s.1 = takez (off s.2) S ∧
  ∀ x, received s.2 x ↔ x < 0 ∨ written ops x.

Lemma recv_step_ok limit ops op s :
  recv_ok limit ops s → op_ok limit op →
  ∃ s', recv_step op s = Ok s' ∧ recv_ok limit (ops ++ [op]) s' ∧
    match op with
    | ReadOp cap => blen s'.1 = blen s.1 + cap ∨ ready s'.2 = false
    | WriteOp _ => True
    end.
Proof.
  destruct s as [out r]. intros (Hi & He & Hl & Ho & Hr) Hop. cbn [fst snd] in *.
  assert (Happ : ∀ x, written (ops ++ [op]) x ↔ written ops x ∨
    match op with WriteOp buf => in_buf buf x | ReadOp _ => False end).
  { intros x. unfold written. rewrite Exists_app, Exists_cons, Exists_nil. tauto. }
  destruct op as [buf|cap]; cbn [op_ok recv_step] in *.
  - destruct Hop as [Hc Hm]. rewrite <- Hl in Hm.
    destruct (write_spec S buf r Hi Hc Hm) as (r' & E & Hi' & Ho' & Hf & He' & Hrc).
    rewrite E. exists (out, r'). split; [done|]. split; [|done]. split_and!; cbn; [done|congruence| |congruence|].
    + unfold max_data in *. by rewrite Hf.
    + intros x. rewrite Hrc, Hr, Happ. tauto.
  - destruct (ready r) eqn:Er.
    + destruct (emit_spec S cap r Hi He Hop Er) as (r' & more & E & Hm & Hi' & Ho' & Hle & Hmd & He' & Hend & Hrc).
      rewrite E. exists (out ++ more, r'). split; [done|]. split.
      * split_and!; cbn; [done|done|congruence| |].
        -- pose proof Hi as (_ & _ & _ & ? & _). rewrite Ho', <- takez_app_dropz by blia.
           by rewrite <- Hm, <- Ho.
        -- intros x. rewrite Hrc, Hr, Happ. tauto.
      * cbn. destruct Hend as [<-|?]; [left; blia|by right].
    + unfold emit_or_discard. rewrite Er. cbn. exists (out, r). split; [done|]. split; [|by right].
      split_and!; cbn; [done..|]. intros x. rewrite Hr, Happ. tauto.
Qed.

Lemma recv_run_ok limit : ∀ ops done s,
  recv_ok limit done s → Forall (op_ok limit) ops → ∃ s', recv_run ops s = Ok s' ∧ recv_ok limit (done ++ ops) s'.
Proof.
  induction ops as [|op ops IH]; intros done s Hs Hops; cbn [recv_run].
  - exists s. by rewrite app_nil_r.
  - apply Forall_cons in Hops as [Hop Hops].
    destruct (recv_step_ok limit done op s Hs Hop) as (s1 & E & Hs1 & _). rewrite E. cbn.
    destruct (IH _ s1 Hs1 Hops) as (s2 & E2 & Hs2). exists s2. by rewrite <- app_assoc in Hs2.
Qed.

Lemma recv_run_app a b s : recv_run (a ++ b) s = (s ← recv_run a s; recv_run b s).
Proof.
  revert s. induction a as [|op a IH]; intros s; cbn; [done|]. destruct (recv_step op s); cbn; [apply IH|done..].
Qed.

Lemma recv_new_ok limit w mw : recv_ok limit [] ([], recv_new limit w mw).
Proof.
  pose proof (blen_nonneg S). split_and!; cbn -[blen]; first [done | lia | idtac].
  intros x. unfold received, held, written. cbn. rewrite !Exists_nil. tauto.
Qed.

Lemma reassembly ops limit w mw :
  Forall (op_ok limit) ops →
  ∃ out r, recv_run ops ([], recv_new limit w mw) = Ok (out, r) ∧ out = takez (blen out) S ∧
    (is_fin r = true → out = S) ∧
    ∀ n cap, (∀ x, 0 ≤ x < n → written ops x) → n ≤ blen out + cap → 0 ≤ cap →
      ∃ out' r', recv_run (ops ++ [ReadOp cap]) ([], recv_new limit w mw) = Ok (out', r') ∧
        out' = takez (blen out') S ∧ n ≤ blen out'.
Proof.
  intros Hops. destruct (recv_run_ok limit ops [] _ (recv_new_ok limit w mw) Hops) as ([out r] & E & Hs).
  assert (Hout : ∀ o r0 ops0, recv_ok limit ops0 (o, r0) → blen o = off r0).
  { intros o r0 ops0 (Hi & _ & _ & Ho & _). cbn in Ho, Hi. destruct Hi as (_ & _ & _ & ? & ? & _).
    rewrite Ho, blen_takez'. lia. }
  exists out, r. split; [done|]. pose proof Hs as (Hi & _ & _ & Ho & Hr). cbn [fst snd app] in *.
  split_and!.
  - rewrite (Hout _ _ _ Hs). done.
  - intros Hf. unfold is_fin in Hf. destruct (fin_off r) as [f|] eqn:Ef; [|done].
    destruct Hi as (_ & _ & _ & _ & _ & Hfo & _). rewrite Ho. apply takez_all.
    specialize (Hfo f Ef). lia.
  - intros n cap Hn Hle Hcap. destruct (recv_step_ok limit ops (ReadOp cap) (out, r) Hs Hcap)
      as ([out' r'] & E' & Hs' & Hend).
    exists out', r'. rewrite recv_run_app, E. cbn [mbind comp_bind recv_run]. rewrite E'. split; [done|].
    pose proof Hs' as (Hi' & _ & _ & Ho' & Hr'). cbn [fst snd] in *.
    split; [rewrite (Hout _ _ _ Hs'); done|]. destruct Hend as [Hend|Hend]; [lia|].
    rewrite (Hout _ _ _ Hs'). destruct (Z.le_gt_cases n (off r')) as [|Hgt]; [done|exfalso].
    apply (not_ready_gap S r' Hi' Hend). apply Hr'. right. unfold written. rewrite Exists_app. left.
    apply Hn. destruct Hi' as (_ & _ & _ & ? & _). lia.
Qed.

(** C16. A stream arrives whole however its pieces do: over any sequence of
    writes of pieces of a stream, in any order, repeated and overlapping, and
    of reads of any size, no operation fails or panics, what has been read is
    always the beginning of the stream, and once every byte below [n] has been
    written a read that may take that many bytes reaches at least [n].  The end
    is reported only when all of the stream has been read. *)
Theorem recv_reassembles ops limit w mw :
  Forall (op_ok limit) ops →
  ∃ out r, recv_run ops ([], recv_new limit w mw) = Ok (out, r) ∧ out = takez (blen out) S ∧
    (is_fin r = true → out = S) ∧
    ∀ n cap, (∀ x, 0 ≤ x < n → written ops x) → n ≤ blen out + cap → 0 ≤ cap →
      ∃ out' r', recv_run (ops ++ [ReadOp cap]) ([], recv_new limit w mw) = Ok (out', r') ∧
        out' = takez (blen out') S ∧ n ≤ blen out'.
Proof. apply reassembly. Qed.
End reassembly.

Lemma recv_reassembles_witness :
  let hello := [104; 101; 108; 108; 111] in
  let ops := [WriteOp (rb_from [108; 111] 3 true); WriteOp (rb_from [104; 101; 108] 0 false);
              ReadOp 2; WriteOp (rb_from [101; 108; 108] 1 false)] in
  ∃ out r, recv_run ops ([], recv_new 10 10 10) = Ok (out, r) ∧ out = takez (blen out) hello ∧
    (is_fin r = true → out = hello) ∧
    ∀ n cap, (∀ x, 0 ≤ x < n → written ops x) → n ≤ blen out + cap → 0 ≤ cap →
      ∃ out' r', recv_run (ops ++ [ReadOp cap]) ([], recv_new 10 10 10) = Ok (out', r') ∧
        out' = takez (blen out') hello ∧ n ≤ blen out'.
Proof.
  intros hello ops. apply (recv_reassembles hello ops 10 10 10).
  repeat constructor; cbn; try done; try lia; vm_compute; congruence.
Defined.

(** ** Flow control *)

Inductive fc_op :=
| Consume (n : Z)
| Update (now : Z)
| Autotune (now rtt : Z)
| LowerBound (min_window : Z).

(** What the stream does with its flow controller: bytes within the limit are
    consumed, the limit is raised when it should be. *)
Definition fc_step (op : fc_op) (f : FlowControl) : FlowControl :=
  match op with
  | Consume n => if (0 <=? n) && (consumed f + n <=? fc_max_data f) then add_consumed n f else f
  | Update now => if should_update_max_data f then update_max_data now f else f
  | Autotune now rtt => autotune_window now rtt f
  | LowerBound m => ensure_window_lower_bound m f
  end.

Definition fc_ok (f : FlowControl) : Prop :=
  0 ≤ consumed f ≤ fc_max_data f ∧ 0 ≤ window f ≤ max_window f.

Lemma fc_step_ok op f : fc_ok f →
  fc_ok (fc_step op f) ∧ fc_max_data f ≤ fc_max_data (fc_step op f) ∧ window f ≤ window (fc_step op f) ∧
  consumed f ≤ consumed (fc_step op f).
Proof.
  unfold fc_ok. intros (? & ?). destruct op as [n|now|now rtt|m]; cbn [fc_step].
  - destruct (_ && _) eqn:E; cbn; lia.
  - unfold should_update_max_data. destruct (_ <? _) eqn:E; cbn; unfold max_data_next; [|lia].
    pose proof (Z.div_le_upper_bound (window f) 2 (window f)). lia.
  - unfold autotune_window, set_window, WINDOW_INCREASE_FACTOR. destruct (last_update f); [|lia].
    destruct (_ <? _); cbn; lia.
  - unfold ensure_window_lower_bound, set_window. destruct (_ >? _) eqn:E; cbn; lia.
Qed.

(** Credit once given is never taken back: whatever a stream does with its
    flow controller, the limit it announces never falls, the window only grows
    and stays within its maximum, and what was consumed stays within the limit
    (so the subtraction that decides about updates never wraps). *)
Theorem credit_never_shrinks ops f :
  fc_ok f → let f' := fold_left (λ f op, fc_step op f) ops f in
  fc_ok f' ∧ fc_max_data f ≤ fc_max_data f' ∧ window f ≤ window f' ∧ consumed f ≤ consumed f'.
Proof.
  revert f. induction ops as [|op ops IH]; intros f Hf; cbn [fold_left].
  - split_and!; (done || lia).
  - destruct (fc_step_ok op f Hf) as (H1 & H2 & H3 & H4). destruct (IH _ H1) as (H5 & H6 & H7 & H8).
    split_and!; [done|lia..].
Qed.

Lemma credit_never_shrinks_witness :
  let f' := fold_left (λ f op, fc_step op f) [Consume 8; Update 5; Autotune 6 10; Consume 3] (fc_new 10 10 20) in
  fc_ok f' ∧ 10 ≤ fc_max_data f' ∧ 10 ≤ window f' ∧ 0 ≤ consumed f'.
Proof. apply (credit_never_shrinks _ (fc_new 10 10 20)). split; cbn; lia. Defined.
