(* ===== verification/SendBuf.v ===== *)
(** * The sending side of a stream

    src/quiche/quiche/src/stream/send_buf.rs: what the application wrote and
    the peer has not acknowledged, in pieces of which each remembers how much
    of it was sent; acknowledgements drop pieces from the front, losses rewind
    them.  The pieces are those of [RecvBuf], the acknowledged offsets a
    [Ranges] set.  An operation gives its value and the buffer after it; where
    it fails the buffer is unchanged.  Offsets are 64-bit and stay below 2^62,
    so sums do not wrap; differences panic when they would. *)

From S2P Require Import Prelude BTree Ranges QuicError RecvBuf.

Definition SEND_BUFFER_SIZE : Z := 4096.

Record SendBuf := {
  s_data : list RangeBuf;
  s_pos : nat;
  s_off : Z;
  s_emit_off : Z;
  s_buffered_bytes : Z;
  s_max_data : Z;
  s_blocked_at : option Z;
  s_fin_off : option Z;
  s_shutdown : bool;
  s_acked : RangeSet;
  s_error : option Z;
}.

Definition send_new `{w : arch} (max_data : Z) : SendBuf :=
  {| s_data := []; s_pos := 0; s_off := 0; s_emit_off := 0; s_buffered_bytes := 0; s_max_data := max_data;
     s_blocked_at := None; s_fin_off := None; s_shutdown := false; s_acked := default_set; s_error := None |}.

(** The parts that change together: the pieces with their place and count. *)
Definition with_data (d : list RangeBuf) (pos : nat) (buffered : Z) (b : SendBuf) : SendBuf :=
  {| s_data := d; s_pos := pos; s_off := s_off b; s_emit_off := s_emit_off b; s_buffered_bytes := buffered;
     s_max_data := s_max_data b; s_blocked_at := s_blocked_at b; s_fin_off := s_fin_off b;
     s_shutdown := s_shutdown b; s_acked := s_acked b; s_error := s_error b |}.
Definition with_off (o : Z) (b : SendBuf) : SendBuf :=
  {| s_data := s_data b; s_pos := s_pos b; s_off := o; s_emit_off := s_emit_off b;
     s_buffered_bytes := s_buffered_bytes b; s_max_data := s_max_data b; s_blocked_at := s_blocked_at b;
     s_fin_off := s_fin_off b; s_shutdown := s_shutdown b; s_acked := s_acked b; s_error := s_error b |}.
Definition with_emit_off (o : Z) (b : SendBuf) : SendBuf :=
  {| s_data := s_data b; s_pos := s_pos b; s_off := s_off b; s_emit_off := o;
     s_buffered_bytes := s_buffered_bytes b; s_max_data := s_max_data b; s_blocked_at := s_blocked_at b;
     s_fin_off := s_fin_off b; s_shutdown := s_shutdown b; s_acked := s_acked b; s_error := s_error b |}.
Definition with_fin_off (o : option Z) (b : SendBuf) : SendBuf :=
  {| s_data := s_data b; s_pos := s_pos b; s_off := s_off b; s_emit_off := s_emit_off b;
     s_buffered_bytes := s_buffered_bytes b; s_max_data := s_max_data b; s_blocked_at := s_blocked_at b;
     s_fin_off := o; s_shutdown := s_shutdown b; s_acked := s_acked b; s_error := s_error b |}.
Definition with_acked (a : RangeSet) (b : SendBuf) : SendBuf :=
  {| s_data := s_data b; s_pos := s_pos b; s_off := s_off b; s_emit_off := s_emit_off b;
     s_buffered_bytes := s_buffered_bytes b; s_max_data := s_max_data b; s_blocked_at := s_blocked_at b;
     s_fin_off := s_fin_off b; s_shutdown := s_shutdown b; s_acked := a; s_error := s_error b |}.
Definition with_closed (sd : bool) (e : option Z) (b : SendBuf) : SendBuf :=
  {| s_data := s_data b; s_pos := s_pos b; s_off := s_off b; s_emit_off := s_emit_off b;
     s_buffered_bytes := s_buffered_bytes b; s_max_data := s_max_data b; s_blocked_at := s_blocked_at b;
     s_fin_off := s_fin_off b; s_shutdown := sd; s_acked := s_acked b; s_error := e |}.

(** [update_max_data], [update_blocked_at]. *)
Definition send_update_max_data (max_data : Z) (b : SendBuf) : SendBuf :=
  {| s_data := s_data b; s_pos := s_pos b; s_off := s_off b; s_emit_off := s_emit_off b;
     s_buffered_bytes := s_buffered_bytes b; s_max_data := Z.max (s_max_data b) max_data;
     s_blocked_at := s_blocked_at b; s_fin_off := s_fin_off b; s_shutdown := s_shutdown b;
     s_acked := s_acked b; s_error := s_error b |}.
Definition update_blocked_at (at_ : option Z) (b : SendBuf) : SendBuf :=
  {| s_data := s_data b; s_pos := s_pos b; s_off := s_off b; s_emit_off := s_emit_off b;
     s_buffered_bytes := s_buffered_bytes b; s_max_data := s_max_data b;
     s_blocked_at := at_; s_fin_off := s_fin_off b; s_shutdown := s_shutdown b;
     s_acked := s_acked b; s_error := s_error b |}.

(** ** Reading the state *)

(** The first piece of which something is left to send. *)
Fixpoint first_unsent (l : list RangeBuf) : option Z :=
  match l with
  | [] => None
  | b :: l => if negb (rb_empty b) then Some (off_ b) else first_unsent l
  end.

Definition send_off_front (b : SendBuf) : Z := default (s_off b) (first_unsent (drop (s_pos b) (s_data b))).
Definition off_back (b : SendBuf) : Z := s_off b.

Definition send_is_fin (b : SendBuf) : bool :=
  match s_fin_off b with Some f => f =? s_off b | None => false end.

Definition is_complete (b : SendBuf) : bool :=
  match s_fin_off b with Some f => eq_range (s_acked b) (0, f) | None => false end.

Definition is_stopped (b : SendBuf) : bool := match s_error b with Some _ => true | None => false end.

(** The highest contiguously acknowledged offset. *)
Definition ack_off (b : SendBuf) : Z :=
  match iter (s_acked b) with (0, e) :: _ => e | _ => 0 end.

Definition cap `{w : arch} (b : SendBuf) : comp Error Z :=
  match s_error b with
  | Some e => Err (StreamStopped e)
  | None => room ← usub (s_max_data b) (s_off b); mret (as_usize room)
  end.

(** ** Writing *)

(** [reserve_for_write]: the bytes that may be stored, whether they end the
    stream, and the buffer. *)
Definition reserve_for_write `{w : arch} (len : Z) (fin : bool) (b : SendBuf) : comp Error (Z * bool * SendBuf) :=
  let max_off := s_off b + len in
  c ← cap b;
  let '(len, fin) := if len >? c then (c, false) else (len, fin) in
  if match s_fin_off b with
     | Some fin_off => (max_off >? fin_off) || ((max_off =? fin_off) && negb fin)
     | None => false
     end then Err FinalSize
  else
    let b := if fin then with_fin_off (Some max_off) b else b in
    if ack_off b >=? max_off then mret (0, fin, b) else mret (len, fin, b).

(** [SendReserve::append_buf], with what is left of the reserve. *)
Definition reserve_append (buf : bytes) (fin : bool) (s : SendBuf * Z) : comp Error (SendBuf * Z) :=
  let '(b, reserved) := s in
  let len := blen buf in
  if len >? reserved then Err BufferTooShort
  else
    let fin := (reserved =? len) && fin in
    mret (with_off (s_off b + len)
            (with_data (s_data b ++ [rb_from buf (s_off b) fin]) (s_pos b) (s_buffered_bytes b + len) b),
          reserved - len).

Fixpoint append_all (chunks : list bytes) (fin : bool) (s : SendBuf * Z) : comp Error (SendBuf * Z) :=
  match chunks with
  | [] => Ok s
  | c :: chunks => s ← reserve_append c fin s; append_all chunks fin s
  end.

(** [slice::chunks]; the count bounds the pieces. *)
Fixpoint chunks_of (n : nat) (size : Z) (l : bytes) : list bytes :=
  match n with
  | O => []
  | S n => match l with [] => [] | _ => takez size l :: chunks_of n size (dropz size l) end
  end.
Definition chunks (size : Z) (l : bytes) : list bytes := chunks_of (length l) size l.

(** Dropping the reserve asserts that all of it was used. *)
Definition reserve_drop (s : SendBuf * Z) : comp Error SendBuf := if s.2 =? 0 then Ok s.1 else Panic.

Definition send_write `{w : arch} (data : bytes) (fin : bool) (b : SendBuf) : comp Error (Z * SendBuf) :=
  '(reserved, fin, b) ← reserve_for_write (blen data) fin b;
  if reserved =? 0 then mret (0, b)
  else
    d ← index_range data 0 reserved;
    s ← append_all (chunks SEND_BUFFER_SIZE d) fin (b, reserved);
    b ← reserve_drop s;
    mret (reserved, b).

(** [append_buf]: also what was not stored. *)
Definition send_append_buf `{w : arch} (data : bytes) (cap : Z) (fin : bool) (b : SendBuf)
  : comp Error (Z * option bytes * SendBuf) :=
  let len := blen data in
  '(reserved, fin, b) ← reserve_for_write (Z.min cap len) fin b;
  if reserved =? 0 then mret (0, Some data, b)
  else
    let '(data, remainder) :=
      if reserved <? len then (takez reserved data, Some (dropz reserved data)) else (data, None) in
    s ← reserve_append data fin (b, reserved);
    b ← reserve_drop s;
    mret (reserved, remainder, b).

(** ** Sending *)

(** [out[at..at + len].copy_from_slice(piece)]. *)
Definition copy_at (at_ : Z) (piece out : bytes) : comp Error bytes :=
  if (0 <=? at_) && (at_ + blen piece <=? blen out)
  then Ok (takez at_ out ++ piece ++ dropz (at_ + blen piece) out) else Panic.

(** One round of [emit]: the buffer, the output with the room left in it, and
    the offset that comes next. *)
Definition send_emit_step (out_off : Z) (st : SendBuf * bytes * Z * Z)
  : round (SendBuf * bytes * Z * Z) (comp Error (SendBuf * bytes * Z * Z)) :=
  let '(b, out, out_len, next_off) := st in
  if negb (out_len >? 0) then Done (Ok st)
  else
    let off_front := send_off_front b in
    if is_empty (s_data b) || (off_front >=? s_off b) || negb (off_front =? next_off)
       || (off_front >=? s_max_data b) then Done (Ok st)
    else
      match s_data b !! s_pos b with
      | None => Done (Ok st)
      | Some buf =>
          if rb_empty buf then Next (with_data (s_data b) (S (s_pos b)) (s_buffered_bytes b) b, out, out_len, next_off)
          else
            let buf_len := Z.min (len_ buf) out_len in
            match (out_pos ← usub next_off out_off;
                   c ← content buf;
                   piece ← index_range c 0 buf_len;
                   out ← copy_at out_pos piece out;
                   buffered ← usub (s_buffered_bytes b) buf_len;
                   mret (out, buffered)) with
            | Ok (out, buffered) =>
                let data := <[s_pos b := consume buf_len buf]> (s_data b) in
                let out_len := out_len - buf_len in
                let next_off := off_ buf + buf_len in
                if buf_len <? len_ buf then
                  Done (Ok (with_data data (s_pos b) buffered b, out, out_len, next_off))
                else Next (with_data data (S (s_pos b)) buffered b, out, out_len, next_off)
            | Err e => Done (Err e)
            | Panic => Done Panic
            end
      end.

Definition send_emit_measure (st : SendBuf * bytes * Z * Z) : nat :=
  length (s_data st.1.1.1) - s_pos st.1.1.1.

(** [emit] into [out]: the bytes written, whether they reach the end of the
    stream, the output and the buffer. *)
Definition send_emit (out : bytes) (b : SendBuf) : comp Error (Z * bool * bytes * SendBuf) :=
  let out_off := send_off_front b in
  '(b, out', out_len, next_off) ←
    loop send_emit_measure (send_emit_step out_off) Panic (b, out, blen out, out_off);
  let fin := match s_fin_off b with Some f => f =? next_off | None => false end in
  n ← usub (blen out) out_len;
  mret (n, fin, out', with_emit_off (Z.max (s_emit_off b) next_off) b).

(** ** Acknowledgement and loss *)

(** The set's own insertion has no error. *)
Definition insert_acked (r : Z * Z) (s : RangeSet) : comp Error RangeSet :=
  match Ranges.insert r s with Ok s => Ok s | _ => Panic end.

Definition ack (off len : Z) (b : SendBuf) : comp Error SendBuf :=
  acked ← insert_acked (off, off + len) (s_acked b);
  mret (with_acked acked b).

(** The last piece that can be dropped. *)
Fixpoint drop_scan (ack_off : Z) (i : nat) (drop_until : option nat) (l : list RangeBuf) : option nat :=
  match l with
  | [] => drop_until
  | buf :: l =>
      if rb_off buf >=? ack_off then drop_until
      else if (rb_off buf <? ack_off) && (ack_off <? max_off_ buf) then drop_until
      else drop_scan ack_off (S i) (Some i) l
  end.

Definition sum_len (l : list RangeBuf) : Z := fold_right (λ b n, len_ b + n) 0 l.

Definition ack_and_drop `{w : arch} (off len : Z) (b : SendBuf) : comp Error (Z * SendBuf) :=
  b ← ack off len b;
  let a := ack_off b in
  if is_empty (s_data b) then mret (0, b)
  else if off >? a then mret (0, b)
  else
    match drop_scan a 0 None (s_data b) with
    | Some d =>
        let dropped_len := sum_len (take (S d) (s_data b)) in
        mret (as_usize dropped_len,
              with_data (drop (S d) (s_data b)) (s_pos b - S d) (saturating_sub (s_buffered_bytes b) dropped_len) b)
    | None => mret (0, b)
    end.

Definition set_rb_pos (p : Z) (b : RangeBuf) : RangeBuf :=
  {| rb_data := rb_data b; rb_start := rb_start b; rb_pos := p; rb_len := rb_len b; rb_off := rb_off b;
     rb_fin := rb_fin b |}.

(** The place a piece is rewound to: the start of the lost range, or its own. *)
Definition rewind_pos (off : Z) (buf : RangeBuf) : Z :=
  if (off >? rb_off buf) && (off <=? max_off_ buf)
  then Z.min (rb_pos buf) (rb_start buf + (off - rb_off buf)) else rb_start buf.

(** What [retransmit] does to one piece: the piece rewound, the part split off
    behind it, and how many bytes were added. *)
Definition rewind (off max_off : Z) (buf : RangeBuf) : comp Error (RangeBuf * option RangeBuf * Z) :=
  '(buf, new_buf) ← (if (rb_off buf <? max_off) && (max_off <? max_off_ buf) then
                       '(front, tail) ← split_off (max_off - rb_off buf) buf; mret (front, Some tail)
                     else mret (buf, None));
  let prev_pos := rb_pos buf in
  let buf := set_rb_pos (rewind_pos off buf) buf in
  retransmitted ← usub prev_pos (rb_pos buf);
  mret (buf, new_buf, retransmitted).

(** The loop over the [n] pieces from [i] on. *)
Fixpoint retransmit_from (off max_off : Z) (n i : nat) (s : SendBuf * Z) : comp Error (SendBuf * Z) :=
  match n with
  | O => Ok s
  | S n =>
      let '(b, total) := s in
      buf ← or_panic (s_data b !! i);
      if rb_off buf >=? max_off then Ok s
      else if off >? max_off_ buf then retransmit_from off max_off n (S i) s
      else
        '(buf, new_buf, k) ← rewind off max_off buf;
        let data := <[i := buf]> (s_data b) in
        let data := match new_buf with
                    | Some t => take (S i) data ++ t :: drop (S i) data
                    | None => data
                    end in
        retransmit_from off max_off n (S i)
          (with_data data (Nat.min (s_pos b) i) (s_buffered_bytes b + k) b, total + k)
  end.

Definition retransmit `{w : arch} (off len : Z) (b : SendBuf) : comp Error (Z * SendBuf) :=
  let max_off := off + len in
  let a := ack_off b in
  if is_empty (s_data b) then mret (0, b)
  else if max_off <=? a then mret (0, b)
  else
    '(b, total) ← retransmit_from off max_off (length (s_data b)) 0 (b, 0);
    mret (as_usize total, b).

(** ** Closing *)

Definition send_reset `{w : arch} (b : SendBuf) : comp Error (Z * Z * SendBuf) :=
  let unsent_off := Z.max (send_off_front b) (s_emit_off b) in
  let unsent_len := saturating_sub (off_back b) unsent_off in
  let b := with_off unsent_off (with_data [] (s_pos b) (s_buffered_bytes b) (with_fin_off (Some unsent_off) b)) in
  b ← ack 0 (as_usize (s_off b)) b;
  let b := with_data (s_data b) 0 0 b in
  mret (s_emit_off b, unsent_len, b).

Definition stop `{w : arch} (error_code : Z) (b : SendBuf) : comp Error (Z * Z * SendBuf) :=
  match s_error b with
  | Some _ => Err EDone
  | None =>
      '(max_off, unsent, b) ← send_reset b;
      mret (max_off, unsent, with_closed (s_shutdown b) (Some error_code) b)
  end.

Definition send_shutdown `{w : arch} (b : SendBuf) : comp Error (Z * Z * SendBuf) :=
  if s_shutdown b then Err EDone else send_reset (with_closed true (s_error b) b).

(** ** The pieces *)

Lemma rb_bounds b : rb_ok b → 0 ≤ len_ b ≤ rb_len b ∧ rb_off b ≤ off_ b ∧ max_off_ b = rb_off b + rb_len b ∧
  0 ≤ rb_off b ∧ off_ b = max_off_ b - len_ b.
Proof. unfold rb_ok, max_off_, off_, len_. lia. Qed.

Section stream.
(** The bytes the application wrote. *)
Context (W : bytes).

(** A piece that holds its part of the stream, sent bytes included. *)
Definition whole (b : RangeBuf) : Prop :=
  rb_ok b ∧ rb_off b + rb_len b ≤ blen W ∧
  takez (rb_len b) (dropz (rb_start b) (rb_data b)) = takez (rb_len b) (dropz (rb_off b) W).

Lemma whole_part b : whole b → part W b.
Proof.
  intros (Hok & Hm & Hv). pose proof Hok as (? & ? & ? & ?). split; [done|].
  unfold max_off_, view, off_, len_ in *. split; [lia|].
  apply (f_equal (dropz (rb_pos b - rb_start b))) in Hv.
  rewrite !dropz_takez, !dropz_dropz in Hv by lia.
  replace (rb_start b + (rb_pos b - rb_start b)) with (rb_pos b) in Hv by lia.
  rewrite Hv. do 2 f_equal. lia.
Qed.

(** Moving the place sent so far keeps a piece whole. *)
Lemma whole_pos p b : whole b → rb_start b ≤ p ≤ rb_start b + rb_len b → whole (set_rb_pos p b).
Proof. intros ((? & ? & ? & ?) & ? & ?) ?. split; [|done]. unfold rb_ok. cbn. lia. Qed.

Lemma consume_pos n b : consume n b = set_rb_pos (rb_pos b + n) b.
Proof. done. Qed.

Lemma split_whole at_ b : whole b → 0 ≤ at_ ≤ rb_len b →
  ∃ f t, split_off at_ b = Ok (f, t) ∧ whole f ∧ whole t ∧ rb_off f = rb_off b ∧ rb_len f = at_ ∧
    rb_off t = rb_off b + at_ ∧ rb_len t = rb_len b - at_ ∧ rb_start f = rb_start b ∧
    rb_pos f = Z.min (rb_pos b) (rb_start b + at_) ∧ len_ f + len_ t = len_ b ∧
    rb_pos t - rb_start t = Z.max 0 (rb_pos b - rb_start b - at_).
Proof.
  intros ((? & ? & ? & ?) & Hm & Hv) Hat. unfold split_off.
  destruct (Z.leb_spec at_ (rb_len b)); [|lia]. eexists _, _. split; [done|].
  unfold whole, rb_ok, len_. cbn. split_and!; try lia.
  - apply (f_equal (takez at_)) in Hv. by rewrite !takez_takez in Hv by lia.
  - apply (f_equal (dropz at_)) in Hv. by rewrite !dropz_takez, !dropz_dropz in Hv by lia.
Qed.

(** Pieces one after the other from [lo] to [hi]. *)
Fixpoint chain (lo hi : Z) (l : list RangeBuf) : Prop :=
  match l with
  | [] => lo = hi
  | b :: r => whole b ∧ rb_off b = lo ∧ chain (lo + rb_len b) hi r
  end.

Lemma chain_app lo hi a b : chain lo hi (a ++ b) ↔ ∃ mid, chain lo mid a ∧ chain mid hi b.
Proof.
  revert lo. induction a as [|c a IH]; intros lo; cbn.
  - split; [by exists lo|]. by intros (? & -> & ?).
  - rewrite IH. split; [intros (? & ? & mid & ? & ?)|intros (mid & (? & ? & ?) & ?)]; eauto.
Qed.

Lemma chain_le lo hi l : chain lo hi l → lo ≤ hi.
Proof.
  revert lo. induction l as [|b l IH]; intros lo; cbn; [lia|].
  intros (((? & ? & _) & _) & ? & ?%IH). lia.
Qed.

Lemma chain_whole lo hi l : chain lo hi l → Forall whole l.
Proof.
  revert lo. induction l as [|b l IH]; intros lo; cbn; [done|]. intros (? & ? & ?). constructor; [done|eauto].
Qed.

(** What is left to send. *)
Definition unsent (l : list RangeBuf) (x : Z) : Prop := Exists (λ b, in_buf b x) l.

Lemma unsent_cons b l x : unsent (b :: l) x ↔ in_buf b x ∨ unsent l x.
Proof. apply Exists_cons. Qed.
Lemma unsent_app a b x : unsent (a ++ b) x ↔ unsent a x ∨ unsent b x.
Proof. apply Exists_app. Qed.
Lemma unsent_nil x : unsent [] x ↔ False.
Proof. apply Exists_nil. Qed.

Lemma chain_unsent lo hi l x : chain lo hi l → unsent l x → lo ≤ x < hi.
Proof.
  revert lo. induction l as [|b l IH]; intros lo; cbn; [by rewrite unsent_nil|].
  intros (Hb & <- & Hl) [Hx|Hx]%unsent_cons.
  - pose proof (chain_le _ _ _ Hl). destruct Hb as (Hok & _). apply rb_bounds in Hok. unfold in_buf in Hx. lia.
  - destruct Hb as ((? & ? & _) & _). pose proof (IH _ Hl Hx). lia.
Qed.

(** All of these were sent. *)
Definition spent (l : list RangeBuf) : Prop := Forall (λ b, len_ b = 0) l.

Lemma spent_unsent l x : spent l → ¬ unsent l x.
Proof.
  unfold spent, unsent, in_buf, max_off_. intros Hs H. apply list.Exists_exists in H as (b & Hb & ?).
  rewrite Forall_forall in Hs. specialize (Hs b Hb). lia.
Qed.

Lemma sum_len_app a b : sum_len (a ++ b) = sum_len a + sum_len b.
Proof. induction a as [|c a IH]; cbn [sum_len fold_right app]; [done|]. fold (sum_len (a ++ b)) (sum_len a). lia. Qed.
Lemma sum_len_cons b l : sum_len (b :: l) = len_ b + sum_len l.
Proof. done. Qed.

Lemma sum_len_nonneg lo hi l : chain lo hi l → 0 ≤ sum_len l.
Proof.
  revert lo. induction l as [|b l IH]; intros lo; cbn [chain]; [done|]. intros ((Hok & _) & _ & ?%IH).
  rewrite sum_len_cons. apply rb_bounds in Hok. lia.
Qed.

Lemma sum_len_zero lo hi l x : chain lo hi l → sum_len l = 0 → ¬ unsent l x.
Proof.
  intros Hc Hz. apply spent_unsent. revert lo Hc Hz. unfold spent.
  induction l as [|b l IH]; intros lo; cbn [chain]; [constructor|]. intros ((Hok & _) & _ & Hl).
  pose proof (sum_len_nonneg _ _ _ Hl). rewrite sum_len_cons. apply rb_bounds in Hok. intros.
  constructor; [lia|]. apply (IH _ Hl). lia.
Qed.

Lemma first_unsent_spec lo hi l : chain lo hi l →
  match first_unsent l with
  | Some o => lo ≤ o < hi ∧ unsent l o ∧ ∀ x, unsent l x → o ≤ x
  | None => ∀ x, ¬ unsent l x
  end.
Proof.
  revert lo. induction l as [|b l IH]; intros lo; cbn [chain first_unsent].
  { intros _ x Hx. by apply unsent_nil in Hx. }
  intros (Hw & <- & Hl). pose proof (chain_le _ _ _ Hl). pose proof (proj1 Hw) as Hok. apply rb_bounds in Hok.
  specialize (IH _ Hl). unfold rb_empty. destruct (Z.eqb_spec (len_ b) 0); cbn [negb].
  - destruct (first_unsent l) as [o|].
    + destruct IH as (? & ? & Hx). split_and!; [lia|lia|rewrite unsent_cons; by right|].
      intros x [Hx'|Hx']%unsent_cons; [unfold in_buf in Hx'; lia|by apply Hx].
    + intros x [Hx'|Hx']%unsent_cons; [unfold in_buf in Hx'; lia|by apply (IH x)].
  - split_and!; [lia|lia|rewrite unsent_cons; left; unfold in_buf; lia|].
    intros x [Hx|Hx]%unsent_cons; [unfold in_buf in Hx; lia|].
    pose proof (chain_unsent _ _ _ _ Hl Hx). lia.
Qed.

(** ** The state

    [lo] is where the kept pieces start: everything before it was dropped. *)
Record send_ok (lo : Z) (b : SendBuf) : Prop := {
  ok_chain : chain lo (s_off b) (s_data b);
  ok_written : blen W = s_off b;
  ok_cap : s_off b ≤ s_max_data b;
  ok_pos : (s_pos b ≤ length (s_data b))%nat;
  ok_spent : spent (take (s_pos b) (s_data b));
  ok_count : s_buffered_bytes b = sum_len (s_data b);
  ok_emit : 0 ≤ lo ≤ s_emit_off b ∧ s_emit_off b ≤ s_off b;
  ok_unsent : ∀ x, s_emit_off b ≤ x < s_off b → unsent (s_data b) x;
  ok_fin : ∀ f, s_fin_off b = Some f → f = s_off b;
  ok_set : set_ok (s_acked b);
  ok_acks : ∀ x, covers (iter (s_acked b)) x → 0 ≤ x < s_emit_off b;
}.

(** Waiting to be sent: written and not sent, or lost. *)
Definition waiting (b : SendBuf) (x : Z) : Prop := unsent (s_data b) x.

Lemma off_front_least lo hi b :
  chain lo hi (s_data b) → hi = s_off b → spent (take (s_pos b) (s_data b)) →
  lo ≤ send_off_front b ≤ s_off b ∧ (∀ x, waiting b x → send_off_front b ≤ x) ∧
  (waiting b (send_off_front b) ∨ send_off_front b = s_off b ∧ ∀ x, ¬ waiting b x).
Proof.
  unfold waiting, send_off_front. intros Hc -> Hsp. pose proof (chain_le _ _ _ Hc).
  rewrite <- (take_drop (s_pos b) (s_data b)) in Hc. apply chain_app in Hc as (mid & Ha & Hb).
  assert (Hu : ∀ x, unsent (s_data b) x ↔ unsent (drop (s_pos b) (s_data b)) x).
  { intros x. rewrite <- (take_drop (s_pos b) (s_data b)) at 1. rewrite unsent_app.
    pose proof (spent_unsent _ x Hsp). tauto. }
  pose proof (chain_le _ _ _ Ha). pose proof (chain_le _ _ _ Hb).
  pose proof (first_unsent_spec _ _ _ Hb) as Hf.
  destruct (first_unsent (drop (s_pos b) (s_data b))) as [o|]; cbn.
  - destruct Hf as (? & Ho & Hx). split_and!; [lia|lia|intros x Hx'; by apply Hx, Hu|left; by apply Hu].
  - split_and!; [lia|lia|intros x Hx%Hu; by destruct (Hf x)|right; split; [done|]; intros x Hx%Hu; by destruct (Hf x)].
Qed.

(** ** Sending *)

(** [out] with the bytes of the stream from [next] on copied in at [k]. *)
Definition copied (k m next : Z) (out : bytes) : bytes :=
  takez k out ++ takez m (dropz next W) ++ dropz (k + m) out.

Lemma copied_0 k next out : 0 ≤ k → copied k 0 next out = out.
Proof. intros. unfold copied. cbn. rewrite Z.add_0_r. apply takez_dropz. Qed.

Lemma blen_copied k m next out : 0 ≤ k → 0 ≤ m → k + m ≤ blen out → 0 ≤ next → next + m ≤ blen W →
  blen (copied k m next out) = blen out.
Proof. intros. unfold copied. blia. Qed.

Lemma copied_copied k m m' next out : 0 ≤ k → 0 ≤ m → 0 ≤ m' → k + m ≤ blen out → 0 ≤ next → next + m ≤ blen W →
  copied (k + m) m' (next + m) (copied k m next out) = copied k (m + m') next out.
Proof.
  intros. set (p := takez k out ++ takez m (dropz next W)).
  assert (Hp : blen p = k + m) by (unfold p; blia).
  assert (E : copied k m next out = p ++ dropz (k + m) out) by (unfold copied, p; by rewrite <- app_assoc).
  rewrite E. unfold copied. rewrite <- (dropz_dropz m' (k + m)), <- Hp, takez_app, dropz_app by lia.
  rewrite <- (takez_app_dropz m m'), !dropz_dropz by lia. unfold p at 1. rewrite <- !app_assoc.
  do 3 f_equal. f_equal. lia.
Qed.

Lemma emit_piece l1 l2 b buf out out_off next n :
  s_data b = l1 ++ buf :: l2 → s_pos b = length l1 → whole buf → off_ buf = next → 0 ≤ n ≤ len_ buf →
  out_off ≤ next → next - out_off + n ≤ blen out → n ≤ s_buffered_bytes b →
  (out_pos ← usub next out_off; c ← content buf; piece ← index_range c 0 n;
   out ← copy_at out_pos piece out; buffered ← usub (s_buffered_bytes b) n; mret (out, buffered)) =
  (Ok (copied (next - out_off) n next out, s_buffered_bytes b - n) : comp Error (bytes * Z)).
Proof.
  intros Hd Hp Hw Ho Hn Hoff Hroom Hcnt. apply whole_part in Hw as Hpt. destruct Hpt as (Hok & Hm & Hv).
  destruct (content_view buf Hok) as [-> Hl]. unfold usub.
  destruct (Z.leb_spec out_off next); [|lia]. destruct (Z.leb_spec n (s_buffered_bytes b)); [|lia].
  cbn [mbind comp_bind]. unfold index_range. rewrite slice_prefix by lia. cbn [or_panic mbind comp_bind].
  rewrite Hv, takez_takez, Ho by lia. unfold copy_at.
  apply rb_bounds in Hok as Hb.
  assert (E : blen (takez n (dropz next W)) = n) by (blen_norm; blen_pos; lia).
  rewrite E. destruct (Z.leb_spec 0 (next - out_off)); [|lia].
  destruct (Z.leb_spec (next - out_off + n) (blen out)); [|lia]. done.
Qed.

(** Pieces of which those before [pos] are spent, with their count. *)
Definition queue_ok (lo hi : Z) (d : list RangeBuf) (pos : nat) (count : Z) : Prop :=
  chain lo hi d ∧ (pos ≤ length d)%nat ∧ spent (take pos d) ∧ count = sum_len d.

#[local] Instance send_emit_decreasing out_off : Decreasing send_emit_measure (send_emit_step out_off).
Proof.
  intros [[[b out] out_len] next] st. unfold send_emit_step, send_emit_measure.
  destruct (negb _); [done|]. destruct (_ || _ || _ || _); [done|].
  destruct (s_data b !! s_pos b) as [buf|] eqn:E; [|done]. apply lookup_lt_Some in E as Hlt.
  destruct (rb_empty buf).
  { intros [= <-]. cbn. lia. }
  match goal with |- context [match ?m with Ok _ => _ | Err _ => _ | Panic => _ end] => destruct m as [[o n]|?|] end;
    [|done..].
  destruct (_ <? _); [done|]. intros [= <-]. cbn. rewrite length_insert. lia.
Qed.

(** What a run of [emit] from [next] on comes to: [m] bytes, contiguous and
    waiting, up to the room or the end of the run. *)
Definition run_ok (lo out_off : Z) (b : SendBuf) (out : bytes) (out_len next : Z)
  (res : comp Error (SendBuf * bytes * Z * Z)) : Prop :=
  ∃ m d pos, res = Ok (with_data d pos (s_buffered_bytes b - m) b, copied (next - out_off) m next out, out_len - m, next + m) ∧
    0 ≤ m ≤ out_len ∧ queue_ok lo (s_off b) d pos (s_buffered_bytes b - m) ∧
    (∀ x, unsent d x ↔ unsent (s_data b) x ∧ ¬ (next ≤ x < next + m)) ∧
    (∀ x, next ≤ x < next + m → unsent (s_data b) x) ∧
    (m = out_len ∨ ¬ unsent (s_data b) (next + m)).

Lemma run_stop lo out_off b out out_len next :
  queue_ok lo (s_off b) (s_data b) (s_pos b) (s_buffered_bytes b) → 0 ≤ out_len → out_off ≤ next →
  (out_len = 0 ∨ ¬ unsent (s_data b) next) → run_ok lo out_off b out out_len next (Ok (b, out, out_len, next)).
Proof.
  intros Hq Hl Ho He. exists 0, (s_data b), (s_pos b). rewrite copied_0, Z.sub_0_r, Z.sub_0_r, Z.add_0_r by lia.
  split_and!; [by destruct b|lia|lia|done| | |].
  - intros x. split; [intros H; split; [done|lia]|by intros [? _]].
  - intros x ?. lia.
  - destruct He as [->|?]; [by left|by right].
Qed.

Lemma run_next lo out_off b b' out out' out_len next n res :
  run_ok lo out_off b' out' (out_len - n) (next + n) res →
  (∀ d pos c, with_data d pos c b' = with_data d pos c b) → s_off b' = s_off b →
  s_buffered_bytes b' = s_buffered_bytes b - n → out' = copied (next - out_off) n next out →
  0 ≤ n ≤ out_len → out_off ≤ next → next - out_off + n ≤ blen out → 0 ≤ next → next + n ≤ blen W →
  (∀ x, unsent (s_data b') x ↔ unsent (s_data b) x ∧ ¬ (next ≤ x < next + n)) →
  (∀ x, next ≤ x < next + n → unsent (s_data b) x) →
  run_ok lo out_off b out out_len next res.
Proof.
  intros (m & d & pos & -> & Hm & Hq & Hu & Hw & He) Hb Hoff Hc -> Hn Ho Hr H0 HW Hub Hnb.
  exists (n + m), d, pos. rewrite Hb, Hc. rewrite Hoff, Hc in Hq.
  replace (next + n - out_off) with (next - out_off + n) by lia. rewrite copied_copied by lia.
  replace (s_buffered_bytes b - (n + m)) with (s_buffered_bytes b - n - m) by lia.
  replace (out_len - (n + m)) with (out_len - n - m) by lia. rewrite Z.add_assoc.
  split_and!; [done|lia|lia|done| | |].
  - intros x. rewrite Hu, Hub. split; [intros ([? ?] & ?); split; [done|lia]|intros [? ?]; split_and!; [done|lia..]].
  - intros x Hx. destruct (Z.lt_ge_cases x (next + n)); [apply Hnb; lia|]. apply Hub, Hw. lia.
  - destruct He as [He|He]; [left; lia|]. right. intros H. apply He, Hub. split; [done|]. lia.
Qed.

Lemma queue_front lo b : queue_ok lo (s_off b) (s_data b) (s_pos b) (s_buffered_bytes b) →
  lo ≤ send_off_front b ≤ s_off b ∧ (∀ x, unsent (s_data b) x → send_off_front b ≤ x) ∧
  (unsent (s_data b) (send_off_front b) ∨ send_off_front b = s_off b ∧ ∀ x, ¬ unsent (s_data b) x).
Proof. intros (Hc & _ & Hs & _). by apply (off_front_least lo (s_off b)). Qed.

(** The piece at [pos], and what sending [n] bytes of it leaves. *)
Lemma queue_piece lo hi d pos c buf n :
  queue_ok lo hi d pos c → d !! pos = Some buf → 0 ≤ n ≤ len_ buf →
  whole buf ∧ rb_ok buf ∧ lo ≤ off_ buf ∧ max_off_ buf ≤ hi ∧ len_ buf ≤ c ∧
  queue_ok lo hi (<[pos := consume n buf]> d) pos (c - n) ∧
  (n = len_ buf → queue_ok lo hi (<[pos := consume n buf]> d) (S pos) (c - n)) ∧
  (∀ x, unsent (<[pos := consume n buf]> d) x ↔ unsent d x ∧ ¬ (off_ buf ≤ x < off_ buf + n)) ∧
  (∀ x, off_ buf ≤ x < off_ buf + n → unsent d x).
Proof.
  intros (Hc & Hp & Hs & ->) E Hn. apply lookup_lt_Some in E as Hlt.
  apply take_drop_middle in E as Ed. set (l1 := take pos d) in *. set (l2 := drop (S pos) d) in *.
  assert (Hl1 : length l1 = pos) by (unfold l1; rewrite length_take; lia).
  assert (Ei : <[pos := consume n buf]> d = l1 ++ consume n buf :: l2).
  { rewrite <- Ed, <- Hl1. apply middle_insert. }
  rewrite Ei, <- Ed in *. apply chain_app in Hc as (mid & Ha & Hb). cbn [chain] in Hb. destruct Hb as (Hw & Hmid & Hb).
  pose proof (proj1 Hw) as Hok. apply rb_bounds in Hok as Hbd.
  pose proof (chain_le _ _ _ Ha). pose proof (chain_le _ _ _ Hb).
  pose proof (sum_len_nonneg _ _ _ Ha). pose proof (sum_len_nonneg _ _ _ Hb).
  assert (Hw' : whole (consume n buf)).
  { rewrite consume_pos. apply whole_pos; [done|]. unfold len_ in Hn. destruct Hok as (? & ? & _). lia. }
  assert (Hc' : chain lo hi (l1 ++ consume n buf :: l2)) by (apply chain_app; exists mid; by cbn [chain]).
  assert (Hcl : len_ (consume n buf) = len_ buf - n) by (unfold len_; cbn; lia).
  assert (Hco : off_ (consume n buf) = off_ buf + n) by (unfold off_; cbn; lia).
  assert (Hbefore : ∀ x, ¬ unsent l1 x) by (intros x; by apply spent_unsent).
  assert (Hafter : ∀ x, unsent l2 x → max_off_ buf ≤ x) by (intros x Hx; pose proof (chain_unsent _ _ _ _ Hb Hx); lia).
  rewrite !sum_len_app, !sum_len_cons. split_and!; [done|done|lia|lia|lia| | | |].
  - split_and!; [done|rewrite length_app; cbn; lia| |].
    + by rewrite take_app_length'.
    + rewrite sum_len_app, sum_len_cons. lia.
  - intros ->. split_and!; [done|rewrite length_app; cbn; lia| |].
    + rewrite <- (Nat.add_1_r pos), take_app_add' by done.
      apply Forall_app. split; [done|]. constructor; [lia|constructor].
    + rewrite sum_len_app, sum_len_cons. lia.
  - intros x. rewrite !unsent_app, !unsent_cons. unfold in_buf, max_off_ in *. rewrite Hcl, Hco.
    specialize (Hbefore x). specialize (Hafter x). split; [intros [?|[?|?]]; [done|split; [right; left|]; lia|]|].
    + split; [tauto|]. pose proof (Hafter ltac:(done)). lia.
    + intros [[?|[?|?]] ?]; [done|right; left; lia|tauto].
  - intros x Hx. rewrite unsent_app, unsent_cons. right. left. unfold in_buf, max_off_ in *. lia.
Qed.

(** A spent piece is passed over. *)
Lemma queue_skip lo hi d pos c buf :
  queue_ok lo hi d pos c → d !! pos = Some buf → rb_empty buf = true → queue_ok lo hi d (S pos) c.
Proof.
  intros (Hc & Hp & Hs & ->) E He. apply lookup_lt_Some in E as Hlt. split_and!; [done|lia| |done].
  erewrite take_S_r by done. apply Forall_app. split; [done|]. constructor; [|constructor].
  unfold rb_empty in He. lia.
Qed.

Lemma first_unsent_at d pos buf :
  d !! pos = Some buf → rb_empty buf = false → first_unsent (drop pos d) = Some (off_ buf).
Proof. intros E He. erewrite drop_S by done. cbn. by rewrite He. Qed.

(** Why the loop stops before the output is full: the next byte is not
    waiting. *)
Lemma break_not_waiting lo b next :
  queue_ok lo (s_off b) (s_data b) (s_pos b) (s_buffered_bytes b) → s_off b ≤ s_max_data b →
  (∀ x, unsent (s_data b) x → next ≤ x) →
  is_empty (s_data b) || (send_off_front b >=? s_off b) || negb (send_off_front b =? next)
    || (send_off_front b >=? s_max_data b) = true ∨ s_data b !! s_pos b = None →
  ¬ unsent (s_data b) next.
Proof.
  intros Hq Hmax Hnext Hstop Hn. destruct (queue_front lo b Hq) as (Hfb & Hff & [Hfw|[_ Hfw]]); [|by apply (Hfw next)].
  pose proof (Hnext _ Hfw). pose proof (Hff _ Hn). destruct Hq as (Hc & Hp & Hs & _).
  pose proof (chain_unsent _ _ _ _ Hc Hn). destruct Hstop as [Hstop|Hstop].
  - destruct (s_data b) as [|r l]; [by apply unsent_nil in Hn|]. cbn [is_empty orb] in Hstop. lia.
  - apply lookup_ge_None in Hstop. rewrite take_ge in Hs by done. by apply (spent_unsent _ _ Hs Hn).
Qed.

Lemma emit_run lo out_off d : ∀ k b out out_len next,
  (length (s_data b) - s_pos b < k)%nat →
  queue_ok lo (s_off b) (s_data b) (s_pos b) (s_buffered_bytes b) → blen W = s_off b → s_off b ≤ s_max_data b →
  0 ≤ out_len → 0 ≤ out_off ≤ next → next - out_off + out_len = blen out →
  (∀ x, unsent (s_data b) x → next ≤ x) →
  run_ok lo out_off b out out_len next (loop send_emit_measure (send_emit_step out_off) d (b, out, out_len, next)).
Proof.
  induction k as [|k IH]; intros b out out_len next Hk Hq HW Hmax Hl Hoff Hroom Hnext; [lia|].
  rewrite loop_unfold by apply _. unfold send_emit_step at 1.
  destruct (out_len >? 0) eqn:Eo; cbn [negb]; [|apply run_stop; (done || lia)].
  pose proof (break_not_waiting lo b next Hq Hmax Hnext) as Hbreak.
  destruct (_ || _ || _ || _) eqn:Estop; [apply run_stop; [done..|lia|right; apply Hbreak; by left]|].
  destruct (s_data b !! s_pos b) as [buf|] eqn:Ebuf; [|apply run_stop; [done..|lia|right; apply Hbreak; by right]].
  apply lookup_lt_Some in Ebuf as Hlt. destruct (rb_empty buf) eqn:Ee.
  { set (b' := with_data (s_data b) (S (s_pos b)) (s_buffered_bytes b) b).
    change (run_ok lo out_off b' out out_len next (loop send_emit_measure (send_emit_step out_off) d (b', out, out_len, next))).
    apply IH; cbn; [lia|by eapply queue_skip|done..]. }
  assert (Hfront : send_off_front b = off_ buf) by (unfold send_off_front; by rewrite (first_unsent_at _ _ buf)).
  assert (Eoff : off_ buf = next) by lia. clear Estop Hbreak.
  set (n := Z.min (len_ buf) out_len).
  assert (Hn : 0 ≤ n ≤ len_ buf).
  { destruct Hq as (Hch & _). apply chain_whole in Hch. destruct (Forall_lookup_1 _ _ _ _ Hch Ebuf) as (Hok & _).
    apply rb_bounds in Hok. lia. }
  destruct (queue_piece lo _ _ _ _ buf n Hq Ebuf Hn) as (Hw & Hok & Hlo & Hhi & Hc & Hq1 & Hq2 & Hu & Hin).
  apply take_drop_middle in Ebuf as Ed. apply rb_bounds in Hok as Hbd.
  rewrite (emit_piece (take (s_pos b) (s_data b)) (drop (S (s_pos b)) (s_data b))) by
    (first [done | lia | rewrite length_take; lia]).
  rewrite Eoff in *. destruct (Z.ltb_spec n (len_ buf)).
  - assert (n = out_len) as En by lia.
    exists n, (<[s_pos b:=consume n buf]> (s_data b)), (s_pos b). split_and!; [done|lia|lia|done..|by left].
  - assert (n = len_ buf) as En by lia. set (b' := with_data _ (S (s_pos b)) _ b).
    apply (run_next lo out_off b b' out (copied (next - out_off) n next out) out_len next n); try (done || lia).
    apply IH; cbn [s_data s_pos s_off s_buffered_bytes s_max_data b' with_data]; try (done || lia).
    + rewrite length_insert. lia.
    + by apply Hq2.
    + rewrite blen_copied by lia. lia.
    + intros x [Hx Hnx]%Hu. pose proof (Hnext x Hx). lia.
Qed.

Lemma send_ok_queue lo b : send_ok lo b → queue_ok lo (s_off b) (s_data b) (s_pos b) (s_buffered_bytes b).
Proof. intros [Hc _ _ Hp Hs Hn _ _ _ _ _]. by split_and!. Qed.

Lemma emit_ok lo out b : send_ok lo b →
  ∃ n fin out' b', send_emit out b = Ok (n, fin, out', b') ∧ send_ok lo b' ∧
    0 ≤ n ≤ blen out ∧ send_off_front b + n ≤ blen W ∧ out' = copied 0 n (send_off_front b) out ∧
    fin = bool_decide (s_fin_off b = Some (send_off_front b + n)) ∧
    s_emit_off b' = Z.max (s_emit_off b) (send_off_front b + n) ∧
    s_buffered_bytes b' = s_buffered_bytes b - n ∧ s_fin_off b' = s_fin_off b ∧ s_acked b' = s_acked b ∧
    (∀ x, waiting b x → send_off_front b ≤ x) ∧
    (∀ x, send_off_front b ≤ x < send_off_front b + n → waiting b x) ∧
    (∀ x, waiting b' x ↔ waiting b x ∧ ¬ (send_off_front b ≤ x < send_off_front b + n)) ∧
    (n = blen out ∨ ¬ waiting b (send_off_front b + n)).
Proof.
  intros Hok. pose proof (send_ok_queue _ _ Hok) as Hq. destruct (queue_front lo b Hq) as (Hfb & Hff & Hfw).
  pose proof Hok as [Hc HW Hmax Hp Hs Hn Hem Hun Hfin Hset Hacks]. set (front := send_off_front b) in *.
  destruct (emit_run lo front Panic (S (length (s_data b))) b out (blen out) front)
    as (m & d & pos & E & Hm & Hq' & Hu & Hin & Hend); [lia|done|done|done|blia|lia|lia|done|].
  unfold send_emit. fold front. rewrite E. cbn [mbind comp_bind]. unfold usub.
  destruct (Z.leb_spec (blen out - m) (blen out)); [|lia]. cbn [mbind comp_bind].
  assert (Hle : front + m ≤ s_off b).
  { destruct (Z.eq_dec m 0) as [->|]; [lia|]. pose proof (chain_unsent _ _ _ _ Hc (Hin (front + m - 1) ltac:(lia))). lia. }
  replace (blen out - (blen out - m)) with m by lia. rewrite Z.sub_diag.
  eexists _, _, _, _. split; [done|]. pose proof Hq' as (Hc' & Hp' & Hs' & Hn').
  unfold waiting.
  cbn [with_emit_off with_data s_data s_emit_off s_buffered_bytes s_fin_off s_acked]. split_and!; try (done || lia).
  - constructor; cbn; try (done || lia).
    + intros x Hx. apply Hu. split; [apply Hun; lia|lia].
    + intros x Hx. specialize (Hacks x Hx). lia.
  - destruct (s_fin_off b) as [f|]; [|by rewrite bool_decide_false].
    destruct (Z.eqb_spec f (front + m)) as [->|]; [by rewrite bool_decide_true|rewrite bool_decide_false; congruence].
Qed.
End stream.

(** ** Writing *)

Lemma whole_grow W t b : whole W b → whole (W ++ t) b.
Proof.
  intros (Hok & Hm & Hv). apply rb_bounds in Hok as Hb. split; [done|]. split; [blia|].
  rewrite Hv, dropz_app_l by lia. unfold takez. rewrite take_app_le; [done|].
  pose proof (blen_dropz (rb_off b) W ltac:(lia)). unfold blen in *. lia.
Qed.

Lemma chain_grow W t lo hi l : chain W lo hi l → chain (W ++ t) lo hi l.
Proof.
  revert lo. induction l as [|b l IH]; intros lo; cbn [chain]; [done|]. intros (? & ? & ?).
  split_and!; [by apply whole_grow|done|by apply IH].
Qed.

Lemma from_whole W buf t fin : whole (W ++ buf ++ t) (rb_from buf (blen W) fin).
Proof.
  unfold whole, rb_ok. cbn -[blen]. split_and!; try blia. rewrite dropz_app, takez_app.
  unfold dropz. cbn. by apply takez_all.
Qed.

(** Pieces appended one after the other hold what was appended. *)
Lemma append_all_ok fin : ∀ cs W t b reserved,
  blen W = s_off b → blen (concat cs) ≤ reserved →
  ∃ ps, append_all cs fin (b, reserved) =
      Ok (with_off (s_off b + blen (concat cs))
            (with_data (s_data b ++ ps) (s_pos b) (s_buffered_bytes b + blen (concat cs)) b),
          reserved - blen (concat cs)) ∧
    chain (W ++ concat cs ++ t) (s_off b) (s_off b + blen (concat cs)) ps ∧ sum_len ps = blen (concat cs) ∧
    ∀ x, unsent ps x ↔ s_off b ≤ x < s_off b + blen (concat cs).
Proof.
  induction cs as [|c cs IH]; intros W t b reserved HW Hr; cbn [concat] in *.
  - exists []. cbn. rewrite app_nil_r, !Z.add_0_r, Z.sub_0_r. split_and!; [by destruct b|done|done|].
    intros x. rewrite unsent_nil. blia.
  - rewrite blen_app in *. pose proof (blen_nonneg (concat cs)). cbn [append_all]. unfold reserve_append at 1.
    destruct (blen c >? reserved) eqn:E; [lia|]. cbn [mret comp_ret mbind comp_bind].
    set (p := rb_from c (s_off b) _). set (b1 := with_off _ _).
    destruct (IH (W ++ c) t b1 (reserved - blen c)) as (ps & E1 & Hc & Hs & Hu); [cbn; blia|blia|].
    exists (p :: ps). rewrite E1. subst b1. cbn [with_off with_data s_data s_pos s_off s_buffered_bytes] in *.
    rewrite <- !app_assoc in *. cbn [app] in *. rewrite !Z.add_assoc in *. split_and!.
    + f_equal. f_equal. lia.
    + cbn [chain]. split_and!; [unfold p; rewrite <- HW; apply from_whole|done|].
      by replace (rb_len p) with (blen c) by done.
    + rewrite sum_len_cons. unfold p, len_. cbn -[blen]. lia.
    + intros x. rewrite unsent_cons, Hu. unfold in_buf, max_off_, off_, len_, p. cbn -[blen]. blia.
Qed.

Lemma concat_chunks_of n size l : 0 < size → (length l ≤ n)%nat → concat (chunks_of n size l) = l.
Proof.
  intros Hs. revert l. induction n as [|n IH]; intros [|x l] Hl; cbn [length] in Hl; [done|lia|done|].
  cbn [chunks_of concat]. rewrite IH; [apply takez_dropz|]. unfold dropz. rewrite length_drop. cbn. lia.
Qed.

Lemma concat_chunks size l : 0 < size → concat (chunks size l) = l.
Proof. intros. by apply concat_chunks_of. Qed.

Lemma ack_off_emit W lo b : send_ok W lo b → 0 ≤ ack_off b ≤ s_emit_off b.
Proof.
  intros [_ _ _ _ _ _ Hem _ _ Hset Hacks]. unfold ack_off.
  destruct (iter (s_acked b)) as [|[s e] l] eqn:E; [lia|]. destruct s as [|s|s]; [|lia..].
  destruct Hset as (Hw & _). rewrite E in Hw. cbn in Hw. destruct (Z.eq_dec e 0) as [->|]; [lia|].
  specialize (Hacks (e - 1)). rewrite ?E in Hacks. unfold covers in Hacks.
  rewrite Exists_cons in Hacks. cbn in Hacks. specialize (Hacks ltac:(left; lia)). lia.
Qed.

(** What may be written, and when nothing may. *)
Definition reserve_spec `{w : arch} (len : Z) (fin : bool) (b : SendBuf) : comp Error (Z * bool * SendBuf) :=
  match s_error b with
  | Some e => Err (StreamStopped e)
  | None =>
      let c := as_usize (s_max_data b - s_off b) in
      let fin := fin && (len <=? c) in
      match s_fin_off b with
      | Some _ => if (len =? 0) && fin then Ok (0, true, b) else Err FinalSize
      | None => Ok (Z.min len c, fin, if fin then with_fin_off (Some (s_off b + len)) b else b)
      end
  end.

Lemma as_usize_range `{w : arch} v : 0 ≤ v → 0 ≤ as_usize v ≤ v.
Proof.
  intros. unfold as_usize. assert (0 < 2 ^ usize_bits w) by (apply Z.pow_pos_nonneg; destruct w; cbn; lia).
  pose proof (Z.mod_pos_bound v (2 ^ usize_bits w)). pose proof (Z.mod_le v (2 ^ usize_bits w)). lia.
Qed.

Lemma reserve_for_write_spec `{w : arch} W lo b len fin :
  send_ok W lo b → 0 ≤ len → reserve_for_write len fin b = reserve_spec len fin b.
Proof.
  intros Hok Hlen. pose proof (ack_off_emit _ _ _ Hok) as Ha. pose proof Hok as [_ _ Hmax _ _ _ Hem _ Hfin _ _].
  unfold reserve_for_write, reserve_spec, cap, usub. destruct (s_error b) as [e|]; [done|].
  destruct (Z.leb_spec (s_off b) (s_max_data b)); [|lia]. cbn [mbind comp_bind].
  pose proof (as_usize_range (s_max_data b - s_off b) ltac:(lia)). set (c := as_usize _) in *.
  change (mret c) with (Ok c : comp Error Z). cbn [mbind comp_bind].
  destruct (len >? c) eqn:Ec; destruct (Z.leb_spec len c); try lia; rewrite ?andb_false_r, ?andb_true_r;
    (destruct (s_fin_off b) as [f|] eqn:Ef; [specialize (Hfin f eq_refl); subst f|]).
  - destruct (Z.eqb_spec len 0); cbn [andb]; destruct ((s_off b + len >? s_off b) || _) eqn:E; try done; lia.
  - replace (Z.min len c) with c by lia. change (ack_off (if false then _ else b)) with (ack_off b).
    destruct (ack_off b >=? s_off b + len) eqn:E; [lia|done].
  - destruct fin; cbn [negb andb].
    + rewrite andb_false_r, orb_false_r, andb_true_r.
      destruct (Z.eqb_spec len 0) as [->|]; destruct (s_off b + _ >? s_off b) eqn:E; try lia; [|done].
      rewrite Z.add_0_r. assert (with_fin_off (Some (s_off b)) b = b) as -> by (rewrite <- Ef; by destruct b).
      by destruct (_ >=? _).
    + rewrite andb_false_r. destruct ((s_off b + len >? s_off b) || _) eqn:E; [done|lia].
  - replace (Z.min len c) with len by lia. destruct fin.
    + change (ack_off (with_fin_off _ b)) with (ack_off b). destruct (ack_off b >=? s_off b + len) eqn:E; [|done].
      by replace len with 0 by lia.
    + destruct (ack_off b >=? s_off b + len) eqn:E; [|done]. by replace len with 0 by lia.
Qed.

(** A buffer with [d] written at its end. *)
Lemma extend_ok W lo b (fin : bool) d ps :
  let b1 := if fin then with_fin_off (Some (s_off b + blen d)) b else b in
  send_ok W lo b → s_fin_off b = None → s_off b + blen d ≤ s_max_data b →
  chain (W ++ d) (s_off b) (s_off b + blen d) ps → sum_len ps = blen d →
  (∀ x, unsent ps x ↔ s_off b ≤ x < s_off b + blen d) →
  send_ok (W ++ d) lo (with_off (s_off b + blen d)
    (with_data (s_data b ++ ps) (s_pos b) (s_buffered_bytes b + blen d) b1)).
Proof.
  intros b1 [Hc HW Hmax Hp Hs Hn Hem Hun Hfin Hset Hacks] Hf Hroom Hps Hsum Hu.
  assert (E : s_max_data b1 = s_max_data b ∧ s_emit_off b1 = s_emit_off b ∧ s_acked b1 = s_acked b ∧
    ∀ f, s_fin_off b1 = Some f → f = s_off b + blen d).
  { unfold b1. destruct fin; cbn; split_and!; try done; [by intros f [= <-]|congruence]. }
  destruct E as (E1 & E2 & E3 & E4). pose proof (blen_nonneg d).
  constructor; cbn [with_off with_data s_data s_pos s_off s_emit_off s_buffered_bytes s_max_data s_fin_off s_acked];
    rewrite ?E1, ?E2, ?E3; try (done || lia).
  - apply chain_app. exists (s_off b). split; [by apply chain_grow|done].
  - blia.
  - rewrite length_app. lia.
  - by rewrite take_app_le.
  - rewrite sum_len_app. lia.
  - intros x Hx. rewrite unsent_app, Hu. destruct (Z.lt_ge_cases x (s_off b)); [left; apply Hun; lia|right; lia].
Qed.

(** The bytes a write stores. *)
Definition storable `{w : arch} (len : Z) (b : SendBuf) : Z :=
  match s_fin_off b with Some _ => 0 | None => Z.min len (as_usize (s_max_data b - s_off b)) end.

(** What a write of [len] bytes that may store [n] leaves. *)
Definition stored W lo (b : SendBuf) (d : bytes) (fin : bool) (b' : SendBuf) : Prop :=
  send_ok (W ++ d) lo b' ∧ (∀ x, waiting b' x ↔ waiting b x ∨ s_off b ≤ x < s_off b + blen d) ∧
  s_emit_off b' = s_emit_off b ∧ s_acked b' = s_acked b ∧ s_max_data b' = s_max_data b ∧
  s_buffered_bytes b' = s_buffered_bytes b + blen d ∧
  s_fin_off b' = match s_fin_off b with
                 | Some f => Some f
                 | None => if fin then Some (s_off b + blen d) else None
                 end.

Lemma store_nothing W lo b (fin : bool) : send_ok W lo b → s_fin_off b = None →
  stored W lo b [] fin (if fin then with_fin_off (Some (s_off b + 0)) b else b).
Proof.
  intros Hok Hf. pose proof (extend_ok W lo b fin [] []) as H. cbn zeta in H.
  rewrite blen_nil, !app_nil_r, !Z.add_0_r in H.
  assert (E : ∀ c, with_off (s_off b) (with_data (s_data b) (s_pos b) (s_buffered_bytes b) (if fin then with_fin_off c b else b))
    = if fin then with_fin_off c b else b) by (intros c; destruct fin, b; done).
  rewrite E in H. unfold stored, waiting. rewrite Hf. rewrite app_nil_r. change (blen (@nil Z)) with 0.
  replace (s_off b + 0) with (s_off b) by lia.
  assert (Hx : ∀ x, unsent [] x ↔ s_off b ≤ x < s_off b) by (intros x; rewrite unsent_nil; lia).
  pose proof Hok as [_ _ Hmax _ _ _ _ _ _ _ _].
  split; [by apply H|]. destruct fin; cbn; split_and!; try (done || lia); intros x; split; [by left|intros [?|?]; [done|lia]|by left|intros [?|?]; [done|lia]].
Qed.

(** Why a write of [len] bytes fails. *)
Definition write_refused (W : bytes) (b : SendBuf) (len : Z) (fin : bool) (e : Error) : Prop :=
  match e with
  | StreamStopped c => s_error b = Some c
  | FinalSize => s_error b = None ∧ s_fin_off b = Some (blen W) ∧ (0 < len ∨ fin = false)
  | _ => False
  end.

(** A reserve filled in any pieces. *)
Lemma reserve_store `{w : arch} W lo b data len fin : send_ok W lo b → 0 ≤ len ≤ blen data →
  match reserve_for_write len fin b with
  | Ok (n, fin', b1) => n = storable len b ∧ 0 ≤ n ≤ len ∧ s_error b = None ∧ fin' = fin && (len =? n) ∧
      (n = 0 → stored W lo b [] fin' b1) ∧
      (0 < n → ∀ cs, concat cs = takez n data →
        ∃ b', append_all cs fin' (b1, n) = Ok (b', 0) ∧ stored W lo b (takez n data) fin' b')
  | Err e => write_refused W b len fin e
  | Panic => False
  end.
Proof.
  intros Hok Hlen. pose proof Hok as [_ HW Hmax _ _ _ _ _ Hfin _ _].
  rewrite (reserve_for_write_spec W lo) by (done || lia).
  unfold reserve_spec, storable. destruct (s_error b) as [e|] eqn:Es; [exact Es|].
  pose proof (as_usize_range (s_max_data b - s_off b) ltac:(lia)). set (c := as_usize _) in *.
  destruct (s_fin_off b) as [f|] eqn:Ef.
  - specialize (Hfin f eq_refl). subst f. unfold write_refused. rewrite HW.
    destruct (Z.eqb_spec len 0) as [E0|E0]; cbn [andb]; [|split_and!; [done..|left; lia]].
    destruct (fin && _) eqn:Ee.
    + assert (H0 : stored W lo b [] true b).
      { unfold stored. rewrite app_nil_r, Ef. change (blen (@nil Z)) with 0. split_and!; try (done || lia).
        intros x. split; [by left|intros [?|Hx]; [done|]]. lia. }
      assert (fin && (len =? 0) = true) by (destruct fin; [cbn; lia|done]).
      split_and!; (done || lia).
    + split_and!; [done..|]. right. destruct fin; [|done]. cbn in Ee. lia.
  - set (n := Z.min len c).
    assert (Efin : fin && (len <=? c) = fin && (len =? n)) by (destruct fin; [cbn; lia|done]).
    rewrite Efin. set (fin' := fin && (len =? n)) in *.
    assert (Hb1 : (if fin' then with_fin_off (Some (s_off b + len)) b else b) =
                  (if fin' then with_fin_off (Some (s_off b + n)) b else b)).
    { destruct fin' eqn:E; [|done]. apply andb_true_iff in E as [_ E]. by replace len with n by lia. }
    rewrite Hb1. split_and!; try (done || lia).
    { intros E0. rewrite E0. by apply store_nothing. }
    intros _ cs Hcs. clearbody fin'.
    set (b1 := if fin' then _ else b). assert (Eo : s_off b1 = s_off b ∧ s_data b1 = s_data b ∧ s_pos b1 = s_pos b ∧
      s_buffered_bytes b1 = s_buffered_bytes b ∧ s_emit_off b1 = s_emit_off b ∧ s_acked b1 = s_acked b ∧
      s_max_data b1 = s_max_data b) by (unfold b1; by destruct fin').
    destruct Eo as (Eo & Ed & Ep & Eb & Ee & Ea & Em).
    assert (Hl : blen (takez n data) = n) by (rewrite blen_takez'; lia).
    destruct (append_all_ok fin' cs W [] b1 n) as (ps & E & Hc & Hs & Hu);
      rewrite ?Hcs, ?app_nil_r, ?Hl, ?Eo, ?Ed, ?Ep, ?Eb in *; [done|done|].
    rewrite E, Z.sub_diag. eexists. split; [done|]. unfold stored, waiting. rewrite Hl, Ef. split_and!; cbn; try done.
    + pose proof (extend_ok W lo b fin' (takez n data) ps) as Hx. cbn zeta in Hx. rewrite Hl in Hx.
      apply Hx; (done || lia).
    + intros x. rewrite unsent_app, Hu. done.
    + unfold b1. by destruct fin'.
Qed.

Lemma append_one c fin s : append_all [c] fin s = reserve_append c fin s.
Proof. cbn [append_all]. by destruct (reserve_append c fin s). Qed.

Lemma send_write_ok `{w : arch} W lo b data fin : send_ok W lo b →
  match send_write data fin b with
  | Ok (n, b') => n = storable (blen data) b ∧ 0 ≤ n ≤ blen data ∧ s_error b = None ∧
      stored W lo b (takez n data) (fin && (blen data =? n)) b'
  | Err e => write_refused W b (blen data) fin e
  | Panic => False
  end.
Proof.
  intros Hok. pose proof (reserve_store W lo b data (blen data) fin Hok ltac:(blia)) as H. unfold send_write.
  destruct (reserve_for_write _ _ _) as [[[n fin'] b1]|e|]; [|done..]. cbn [mbind comp_bind].
  destruct H as (Hn & Hr & He & -> & H0 & Hcs). destruct (Z.eqb_spec n 0) as [E|E].
  - cbn. rewrite E in *. split_and!; try (done || lia). by apply H0.
  - unfold index_range. rewrite slice_prefix by lia. cbn [or_panic mbind comp_bind].
    destruct (Hcs ltac:(lia) (chunks SEND_BUFFER_SIZE (takez n data))) as (b' & -> & Hst); [by apply concat_chunks|].
    cbn. split_and!; (done || lia).
Qed.

Lemma send_append_buf_ok `{w : arch} W lo b data cap fin : send_ok W lo b → 0 ≤ cap →
  match send_append_buf data cap fin b with
  | Ok (n, rest, b') => n = storable (Z.min cap (blen data)) b ∧ 0 ≤ n ≤ blen data ∧ s_error b = None ∧
      stored W lo b (takez n data) (fin && (Z.min cap (blen data) =? n)) b' ∧
      takez n data ++ default [] rest = data
  | Err e => write_refused W b (Z.min cap (blen data)) fin e
  | Panic => False
  end.
Proof.
  intros Hok Hcap. pose proof (reserve_store W lo b data (Z.min cap (blen data)) fin Hok ltac:(blia)) as H.
  unfold send_append_buf. destruct (reserve_for_write _ _ _) as [[[n fin'] b1]|e|]; [|done..]. cbn [mbind comp_bind].
  destruct H as (Hn & Hr & He & -> & H0 & Hcs). destruct (Z.eqb_spec n 0) as [E|E].
  - cbn. rewrite E in *. split_and!; try (done || lia). by apply H0.
  - destruct (Hcs ltac:(lia) [takez n data]) as (b' & Ea & Hst); [cbn; by rewrite app_nil_r|].
    rewrite append_one in Ea. destruct (Z.ltb_spec n (blen data)).
    + rewrite Ea. cbn. split_and!; try (done || lia). apply takez_dropz.
    + rewrite takez_all in * by lia. rewrite Ea. cbn. rewrite takez_all by lia.
      split_and!; try (done || lia). apply app_nil_r.
Qed.

(** ** Acknowledgement *)

Lemma ack_ok W lo b o n : send_ok W lo b → 0 ≤ o → 0 ≤ n → o + n ≤ s_emit_off b →
  ∃ a, ack o n b = Ok (with_acked a b) ∧ send_ok W lo (with_acked a b) ∧
    ∀ x, covers (iter a) x → o ≤ x < o + n ∨ covers (iter (s_acked b)) x.
Proof.
  intros [Hc HW Hmax Hp Hs Hn Hem Hun Hfin Hset Hacks] Ho Hnn Hle.
  destruct (insert_spec (o, o + n) (s_acked b) Hset ltac:(cbn; lia)) as (a & E & Hok & _ & _ & _ & Hcov & _).
  unfold ack, insert_acked. rewrite E. cbn [fst snd] in Hcov. exists a. split_and!; [done| |done].
  constructor; cbn; try done. intros x Hx. destruct (Hcov x Hx) as [?|?%Hacks]; lia.
Qed.

Lemma ack_off_covers b x : 0 ≤ x < ack_off b → covers (iter (s_acked b)) x.
Proof.
  unfold ack_off, covers. destruct (iter (s_acked b)) as [|[s e] l]; [lia|]. destruct s; [|lia..].
  intros ?. rewrite Exists_cons. by left.
Qed.

Lemma drop_scan_spec a : ∀ l i du,
  drop_scan a i du l = du ∨
  ∃ k, drop_scan a i du l = Some (i + k)%nat ∧ (k < length l)%nat ∧ Forall (λ b, rb_ok b → max_off_ b ≤ a) (take (S k) l).
Proof.
  induction l as [|b l IH]; intros i du; cbn [drop_scan]; [by left|].
  destruct (rb_off b >=? a) eqn:E1; [by left|]. destruct (_ && _) eqn:E2; [by left|]. right.
  assert (Hb : rb_ok b → max_off_ b ≤ a) by lia.
  destruct (IH (S i) (Some i)) as [->|(k & -> & Hk & Hf)].
  - exists 0%nat. rewrite Nat.add_0_r. split_and!; [done|cbn; lia|]. cbn. by constructor.
  - exists (S k). split_and!; [f_equal; lia|cbn; lia|]. cbn [take]. by constructor.
Qed.

Lemma chain_below W a : ∀ l lo hi, chain W lo hi l → Forall (λ b, rb_ok b → max_off_ b ≤ a) l → hi ≤ Z.max lo a.
Proof.
  induction l as [|b l IH]; intros lo hi; cbn [chain]; [lia|].
  intros ((Hok & _) & <- & Hl) [Hb Hf]%Forall_cons. specialize (IH _ _ Hl Hf). specialize (Hb Hok).
  apply rb_bounds in Hok. lia.
Qed.

Lemma ack_and_drop_ok `{w : arch} W lo b o n : send_ok W lo b → 0 ≤ o → 0 ≤ n → o + n ≤ s_emit_off b →
  ∃ k b' lo', ack_and_drop o n b = Ok (as_usize k, b') ∧ send_ok W lo' b' ∧ lo ≤ lo' ∧
    k = s_buffered_bytes b - s_buffered_bytes b' ∧
    (∀ x, lo ≤ x < lo' → covers (iter (s_acked b')) x) ∧
    (∀ x, waiting b' x ↔ waiting b x ∧ lo' ≤ x) ∧
    (∀ x, covers (iter (s_acked b')) x → o ≤ x < o + n ∨ covers (iter (s_acked b)) x) ∧
    s_emit_off b' = s_emit_off b ∧ s_fin_off b' = s_fin_off b ∧ s_off b' = s_off b.
Proof.
  intros Hok Ho Hn Hle. destruct (ack_ok W lo b o n Hok Ho Hn Hle) as (a & E & Hok1 & Hcov).
  unfold ack_and_drop. rewrite E. cbn [mbind comp_bind]. set (b1 := with_acked a b) in *.
  assert (Hsame : ∃ k b' lo', (mret (0, b1) : comp Error (Z * SendBuf)) = Ok (as_usize k, b') ∧ send_ok W lo' b' ∧ lo ≤ lo' ∧
    k = s_buffered_bytes b - s_buffered_bytes b' ∧ (∀ x, lo ≤ x < lo' → covers (iter (s_acked b')) x) ∧
    (∀ x, waiting b' x ↔ waiting b x ∧ lo' ≤ x) ∧
    (∀ x, covers (iter (s_acked b')) x → o ≤ x < o + n ∨ covers (iter (s_acked b)) x) ∧
    s_emit_off b' = s_emit_off b ∧ s_fin_off b' = s_fin_off b ∧ s_off b' = s_off b).
  { exists 0, b1, lo. split_and!; try (done || lia); [cbn; lia|].
    intros x. split; [intros Hx; split; [done|]|by intros [? _]].
    destruct Hok1 as [Hc _ _ _ _ _ _ _ _ _ _]. pose proof (chain_unsent _ _ _ _ _ Hc Hx). lia. }
  destruct (is_empty (s_data b1)); [done|]. destruct (o >? ack_off b1); [done|].
  destruct (drop_scan_spec (ack_off b1) (s_data b1) 0 None) as [->|(k & -> & Hk & Hf)]; [done|clear Hsame].
  pose proof (ack_off_emit _ _ _ Hok1) as Hae. pose proof Hok1 as [Hc HW Hmax Hp Hs Hcnt Hem Hun Hfin Hset Hacks].
  rewrite Nat.add_0_l. rewrite <- (take_drop (S k) (s_data b1)) in Hc. apply chain_app in Hc as (mid & H1 & H2).
  pose proof (chain_below _ _ _ _ _ H1 Hf) as Hmid. pose proof (chain_le _ _ _ _ H1).
  pose proof (sum_len_nonneg _ _ _ _ H1). pose proof (sum_len_nonneg _ _ _ _ H2).
  assert (Hsum : sum_len (s_data b1) = sum_len (take (S k) (s_data b1)) + sum_len (drop (S k) (s_data b1))).
  { by rewrite <- sum_len_app, take_drop. }
  assert (Hu : ∀ x, unsent (drop (S k) (s_data b1)) x ↔ unsent (s_data b1) x ∧ mid ≤ x).
  { intros x. rewrite <- (take_drop (S k) (s_data b1)) at 2. rewrite unsent_app. split.
    - intros Hx. pose proof (chain_unsent _ _ _ _ _ H2 Hx). split; [by right|lia].
    - intros [[Hx|?] ?]; [|done]. pose proof (chain_unsent _ _ _ _ _ H1 Hx). lia. }
  exists (sum_len (take (S k) (s_data b1))). eexists _, mid. split; [done|].
  replace (saturating_sub (s_buffered_bytes b1) (sum_len (take (S k) (s_data b1))))
    with (sum_len (drop (S k) (s_data b1))) by (unfold saturating_sub; lia).
  split_and!; try (done || lia).
  - constructor; cbn [with_data s_data s_pos s_off s_emit_off s_buffered_bytes s_max_data s_fin_off s_acked]; try (done || lia).
    + rewrite length_drop. lia.
    + unfold spent. destruct (Nat.le_gt_cases (S k) (s_pos b1)); [|by replace (s_pos b1 - S k)%nat with 0%nat by lia].
      rewrite take_drop_commute. apply Forall_drop. by replace (S k + (s_pos b1 - S k))%nat with (s_pos b1) by lia.
    + intros x Hx. apply Hu. split; [by apply Hun|lia].
  - change (s_buffered_bytes b) with (s_buffered_bytes b1). cbn [with_data s_buffered_bytes]. lia.
  - intros x Hx. apply (ack_off_covers b1). lia.
Qed.

(** ** Loss *)

(** A piece rewound to [o], or to its start. *)
Lemma rewound W o f : whole W f → o ≤ max_off_ f →
  let p := rewind_pos o f in
  whole W (set_rb_pos p f) ∧ 0 ≤ rb_pos f - p ∧ len_ (set_rb_pos p f) = len_ f + (rb_pos f - p) ∧
  ∀ x, in_buf (set_rb_pos p f) x ↔ in_buf f x ∨ o ≤ x ∧ rb_off f ≤ x < max_off_ f.
Proof.
  intros Hw Ho p. pose proof (proj1 Hw) as Hok. apply rb_bounds in Hok as Hb. destruct Hok as (? & ? & ? & ?).
  assert (Hp : rb_start f ≤ p ≤ rb_pos f).
  { unfold p, rewind_pos. destruct (_ && _) eqn:E; lia. }
  assert (Hpo : (o ≤ rb_off f ∧ p = rb_start f) ∨
    (rb_off f < o ∧ p = Z.min (rb_pos f) (rb_start f + (o - rb_off f)))).
  { unfold p, rewind_pos. destruct (_ && _) eqn:E; lia. }
  split_and!; [apply whole_pos; [done|lia]|lia|unfold len_; cbn; lia|].
  intros x. unfold in_buf, max_off_, off_, len_ in *. cbn. lia.
Qed.

Lemma rewind_ok W o mo b : whole W b → o ≤ mo → rb_off b < mo → o ≤ max_off_ b →
  ∃ f nb k, rewind o mo b = Ok (f, nb, k) ∧ 0 ≤ k ∧
    chain W (rb_off b) (rb_off b + rb_len b) (f :: option_list nb) ∧ sum_len (f :: option_list nb) = len_ b + k ∧
    (∀ x, unsent (f :: option_list nb) x ↔ in_buf b x ∨ o ≤ x < mo ∧ rb_off b ≤ x < rb_off b + rb_len b) ∧
    match nb with Some t => mo ≤ rb_off t | None => max_off_ b ≤ mo end.
Proof.
  intros Hw Hmo Hlt Ho. pose proof (proj1 Hw) as Hok. apply rb_bounds in Hok as Hb. unfold rewind.
  destruct (Z.ltb_spec (rb_off b) mo); [|lia]. destruct (Z.ltb_spec mo (max_off_ b)); cbn [andb].
  - destruct (split_whole W (mo - rb_off b) b Hw ltac:(lia)) as
      (f & t & -> & Hf & Ht & Efo & Efl & Eto & Etl & Efs & Efp & Elen & Etp). cbn [mbind comp_bind mret comp_ret].
    pose proof (proj1 Hf) as Hfk. apply rb_bounds in Hfk. pose proof (proj1 Ht) as Htk. apply rb_bounds in Htk.
    destruct (rewound W o f Hf ltac:(lia)) as (Hw' & Hk & Hl' & Hu). set (p := rewind_pos o f) in *. clearbody p.
    unfold usub. cbn [set_rb_pos rb_pos]. destruct (Z.leb_spec p (rb_pos f)); [|lia]. cbn [mbind comp_bind].
    eexists _, _, _. split; [done|]. change (option_list (Some t)) with [t]. cbn [chain]. split_and!; try (done || lia).
    + cbn. lia.
    + cbn. lia.
    + rewrite !sum_len_cons, Hl'. cbn. lia.
    + intros x. rewrite !unsent_cons, unsent_nil, Hu. unfold in_buf in *.
      destruct Hok as (? & ? & ? & ?). unfold max_off_, off_, len_ in *. lia.
  - cbn [mbind comp_bind mret comp_ret]. destruct (rewound W o b Hw Ho) as (Hw' & Hk & Hl' & Hu).
    set (p := rewind_pos o b) in *. clearbody p.
    unfold usub. cbn [set_rb_pos rb_pos]. destruct (Z.leb_spec p (rb_pos b)); [|lia]. cbn [mbind comp_bind].
    eexists _, _, _. split; [done|]. change (option_list None) with (@nil RangeBuf). cbn [chain]. split_and!; try (done || lia).
    + rewrite !sum_len_cons, Hl'. cbn. lia.
    + intros x. rewrite unsent_cons, unsent_nil, Hu. unfold in_buf. lia.
Qed.

(** The pieces [l2] from [mid] on, after [retransmit] went over them. *)
Definition relisted W (o mo mid hi : Z) (l2 d2 : list RangeBuf) (k : Z) : Prop :=
  0 ≤ k ∧ chain W mid hi d2 ∧ sum_len d2 = sum_len l2 + k ∧
  ∀ x, unsent d2 x ↔ unsent l2 x ∨ o ≤ x < mo ∧ mid ≤ x < hi.

(** Pieces past the lost range are left alone. *)
Lemma relisted_past W o mo mid hi l : chain W mid hi l → mo ≤ mid → relisted W o mo mid hi l l 0.
Proof. intros Hc Hm. split_and!; try (done || lia). intros x. split; [by left|intros [?|?]; [done|lia]]. Qed.

Lemma relisted_cons W o mo b hi l2 d2 f k k' :
  let mid := rb_off b + rb_len b in
  relisted W o mo mid hi l2 d2 k' → 0 ≤ k → mid ≤ hi → 0 ≤ rb_len b →
  chain W (rb_off b) mid f → sum_len f = len_ b + k →
  (∀ x, unsent f x ↔ in_buf b x ∨ o ≤ x < mo ∧ rb_off b ≤ x < mid) →
  relisted W o mo (rb_off b) hi (b :: l2) (f ++ d2) (k + k').
Proof.
  intros mid (Hk' & Hc & Hs & Hu) Hk Hle Hl Hf Hsf Huf. split_and!; [lia| | |].
  - apply chain_app. by exists mid.
  - rewrite sum_len_app, sum_len_cons. lia.
  - intros x. rewrite unsent_app, unsent_cons, Hu, Huf.
    assert (Hx : o ≤ x < mo ∧ rb_off b ≤ x < hi ↔
      (o ≤ x < mo ∧ rb_off b ≤ x < mid) ∨ (o ≤ x < mo ∧ mid ≤ x < hi)) by lia.
    rewrite Hx. clear. tauto.
Qed.

Lemma retransmit_past o mo n i b total :
  match s_data b !! i with Some c => mo ≤ rb_off c | None => n = 0%nat end →
  retransmit_from o mo n i (b, total) = Ok (b, total).
Proof.
  destruct n as [|n]; cbn [retransmit_from]; [done|]. destruct (s_data b !! i) as [c|]; [|done].
  intros H. cbn [or_panic mbind comp_bind]. destruct (rb_off c >=? mo) eqn:E; [done|lia].
Qed.

Lemma retransmit_loop W o mo : 0 ≤ o ≤ mo → ∀ l2 l1 b total mid hi,
  s_data b = l1 ++ l2 → chain W mid hi l2 →
  ∃ d2 pos k, retransmit_from o mo (length l2) (length l1) (b, total) =
      Ok (with_data (l1 ++ d2) pos (s_buffered_bytes b + k) b, total + k) ∧
    (pos ≤ s_pos b)%nat ∧ take pos (l1 ++ d2) = take pos (l1 ++ l2) ∧ (length l2 ≤ length d2)%nat ∧
    relisted W o mo mid hi l2 d2 k.
Proof.
  intros Ho. induction l2 as [|c l2 IH]; intros l1 b total mid hi Hd Hc; cbn [length].
  { exists [], (s_pos b), 0. rewrite retransmit_past by (by rewrite Hd, app_nil_r, lookup_ge_None_2).
    rewrite !Z.add_0_r. split_and!; try done; [rewrite <- Hd; by destruct b|].
    cbn in Hc. subst hi. split_and!; try (done || lia). intros x. rewrite unsent_nil. lia. }
  cbn [chain] in Hc. destruct Hc as (Hw & <- & Hc). pose proof (chain_le _ _ _ _ Hc).
  pose proof (proj1 Hw) as Hok. apply rb_bounds in Hok as Hb.
  assert (Hlook : s_data b !! length l1 = Some c) by (rewrite Hd; by rewrite list_lookup_middle).
  destruct (Z.le_gt_cases mo (rb_off c)) as [Hpast|Hpast].
  { exists (c :: l2), (s_pos b), 0. rewrite retransmit_past by (by rewrite Hlook). rewrite !Z.add_0_r, <- Hd.
    split_and!; try done; [by destruct b|]. apply relisted_past; [by cbn [chain]|done]. }
  cbn [retransmit_from]. rewrite Hlook. cbn [or_panic mbind comp_bind].
  destruct (rb_off c >=? mo) eqn:E1; [lia|]. destruct (o >? max_off_ c) eqn:E2.
  - destruct (IH (l1 ++ [c]) b total _ _ ltac:(by rewrite <- app_assoc) Hc) as (d2 & pos & k & E & Hp & Ht & Hl & Hr).
    rewrite length_app, Nat.add_1_r in E. rewrite E. exists (c :: d2), pos, k. rewrite <- !app_assoc in *.
    split_and!; try done; [cbn; lia|]. apply (relisted_cons W o mo c hi l2 d2 [c] 0 k); try (done || lia).
    + intros x. rewrite unsent_cons, unsent_nil. unfold in_buf. lia.
  - destruct (rewind_ok W o mo c Hw ltac:(lia) ltac:(lia) ltac:(lia)) as (f & nb & k & -> & Hk & Hcf & Hs & Hu & Hnb).
    cbn [mbind comp_bind]. rewrite Hd, middle_insert.
    assert (Et : take (S (length l1)) (l1 ++ f :: l2) = l1 ++ [f]) by (by rewrite <- Nat.add_1_r, take_app_add).
    assert (Ed : drop (S (length l1)) (l1 ++ f :: l2) = l2) by (by rewrite <- Nat.add_1_r, drop_app_add).
    rewrite Et, Ed.
    assert (Htake : ∀ p (a z : list RangeBuf), (p ≤ Nat.min (s_pos b) (length l1))%nat → take p (l1 ++ a) = take p (l1 ++ z)).
    { intros p a z Hp. by rewrite !take_app_le by lia. }
    pose proof (λ d2 k' H, relisted_cons W o mo c hi l2 d2 (f :: option_list nb) k k' H Hk ltac:(lia) ltac:(lia) Hcf Hs Hu) as Hcons.
    destruct nb as [t|]; change (option_list _) with [t] in * || change (option_list _) with (@nil RangeBuf) in *.
    + rewrite retransmit_past.
      2: { cbn [with_data s_data]. rewrite list_lookup_middle; [done|]. rewrite length_app. cbn. lia. }
      exists (f :: t :: l2), (Nat.min (s_pos b) (length l1)), (k + 0). rewrite !Z.add_0_r, <- app_assoc.
      split_and!; [done|lia|by apply Htake|cbn; lia|].
      rewrite <- (Z.add_0_r k). apply (Hcons l2 0). apply relisted_past; [done|].
      cbn [chain] in Hcf. destruct Hcf as (_ & _ & Ht & Hto & <-). destruct Ht as (Ht & _). apply rb_bounds in Ht. lia.
    + destruct (IH (l1 ++ [f]) (with_data (l1 ++ f :: l2) (Nat.min (s_pos b) (length l1)) (s_buffered_bytes b + k) b)
        (total + k) _ _ ltac:(cbn; by rewrite <- app_assoc) Hc) as (d2 & pos & k' & E & Hp & Ht & Hl & Hr).
      rewrite length_app, Nat.add_1_r in E. rewrite E. cbn [with_data s_pos s_buffered_bytes] in *.
      exists (f :: d2), pos, (k + k'). rewrite <- !app_assoc, !Z.add_assoc.
      split_and!; [done|lia|by apply Htake|cbn; lia|]. by apply (Hcons d2 k').
Qed.

Lemma retransmit_ok `{w : arch} W lo b o n : send_ok W lo b → 0 ≤ o → 0 ≤ n →
  ∃ k b', retransmit o n b = Ok (as_usize k, b') ∧ send_ok W lo b' ∧ k = s_buffered_bytes b' - s_buffered_bytes b ∧
    (∀ x, waiting b' x ↔ waiting b x ∨ ack_off b < o + n ∧ o ≤ x < o + n ∧ lo ≤ x < s_off b) ∧
    s_emit_off b' = s_emit_off b ∧ s_fin_off b' = s_fin_off b ∧ s_acked b' = s_acked b ∧ s_off b' = s_off b.
Proof.
  intros Hok Ho Hn. pose proof Hok as [Hc HW Hmax Hp Hs Hcnt Hem Hun Hfin Hset Hacks]. unfold retransmit.
  destruct (is_empty (s_data b)) eqn:E1.
  { exists 0, b. destruct (s_data b) as [|] eqn:Ed; [|done]. cbn in Hc. split_and!; try (done || lia).
    intros x. split; [by left|intros [?|?]; [done|lia]]. }
  destruct (Z.leb_spec (o + n) (ack_off b)).
  { exists 0, b. split_and!; try (done || lia). intros x. split; [by left|intros [?|?]; [done|lia]]. }
  destruct (retransmit_loop W o (o + n) ltac:(lia) (s_data b) [] b 0 lo (s_off b) eq_refl Hc)
    as (d2 & pos & k & E & Hpos & Ht & Hl & Hk & Hc' & Hsum & Hu).
  cbn [length app] in *. rewrite E. cbn [mbind comp_bind]. rewrite Z.add_0_l. eexists k, _. split; [done|].
  unfold waiting. cbn [with_data s_data s_buffered_bytes s_emit_off s_fin_off s_acked s_off].
  split_and!; try (done || lia).
  - constructor; cbn [with_data s_data s_pos s_buffered_bytes s_emit_off s_fin_off s_acked s_off s_max_data]; try (done || lia).
    + unfold spent. rewrite Ht, <- (Nat.min_l pos (s_pos b)), <- take_take by done. by apply Forall_take.
    + intros x Hx. apply Hu. left. by apply Hun.
  - intros x. rewrite Hu. split; (intros [?|?]; [by left|right; split_and!; lia]).
Qed.

(** ** Closing *)

Lemma reset_ok `{w : arch} W lo b : send_ok W lo b →
  ∃ b', send_reset b = Ok (s_emit_off b, s_off b - s_emit_off b, b') ∧
    send_ok (takez (s_emit_off b) W) (s_emit_off b) b' ∧ s_data b' = [] ∧ s_off b' = s_emit_off b ∧
    s_emit_off b' = s_emit_off b ∧ s_fin_off b' = Some (s_emit_off b) ∧ s_error b' = s_error b ∧
    s_shutdown b' = s_shutdown b ∧
    (∀ x, covers (iter (s_acked b')) x → 0 ≤ x < s_emit_off b ∨ covers (iter (s_acked b)) x).
Proof.
  intros Hok. pose proof Hok as [Hc HW Hmax Hp Hs Hcnt Hem Hun Hfin Hset Hacks].
  destruct (off_front_least W lo (s_off b) b Hc eq_refl Hs) as (Hf & Hleast & Hw).
  assert (Hfe : send_off_front b ≤ s_emit_off b).
  { destruct (Z.le_gt_cases (send_off_front b) (s_emit_off b)) as [|Hgt]; [done|].
    apply Hleast, Hun. lia. }
  pose proof (as_usize_range (s_emit_off b) ltac:(lia)).
  unfold send_reset, off_back, saturating_sub, ack, insert_acked. rewrite (Z.max_r (send_off_front b)) by done.
  rewrite (Z.max_r 0) by lia. cbn [with_off with_data with_fin_off s_acked s_off].
  set (v := as_usize (s_emit_off b)) in *.
  destruct (insert_spec (0, 0 + v) (s_acked b) Hset ltac:(cbn [fst snd]; lia))
    as (a & E & Hok' & _ & _ & _ & Hcov & _).
  rewrite E. cbn [fst snd] in Hcov. cbn [mbind comp_bind].
  eexists. split; [done|]. cbn. split_and!; try done.
  - constructor; cbn; try (done || lia).
    + rewrite blen_takez'. lia.
    + constructor.
    + by intros f [= <-].
    + intros x Hx. destruct (Hcov x Hx) as [?|?%Hacks]; lia.
  - intros x Hx. destruct (Hcov x Hx) as [?|?]; [left; lia|by right].
Qed.
