(* ===== verification/StreamLife.v ===== *)
(** * Streams from end to end

    The life of a stream's sending side (src/quiche/quiche/src/stream/send_buf.rs)
    as the application and the connection drive it, and its composition with
    the receiving side of [RecvBuf]: what a receiver reads from the frames the
    sender made is what was written. *)

From S2P Require Import Prelude BTree Ranges QuicError RecvBuf SendBuf.

(** ** A stream's life

    What the application and the connection do with the buffer.  An
    acknowledgement or a loss names a frame that was sent, as the connection
    records them; a failed operation changes nothing. *)
Inductive send_op :=
| SWrite (data : bytes) (fin : bool)
| SAppend (data : bytes) (cap : Z) (fin : bool)
| SEmit (out : bytes)
| SAck (frame : nat)
| SLost (frame : nat)
| SMaxData (max_data : Z)
| SStop (code : Z)
| SShutdown.

(** The buffer, with what was written, the frames sent and the ranges that
    were acknowledged or given up. *)
Record session := {
  ss_buf : SendBuf;
  ss_written : bytes;
  ss_frames : list RangeBuf;
  ss_acks : list (Z * Z);
}.

Definition session_new `{w : arch} (max_data : Z) : session :=
  {| ss_buf := send_new max_data; ss_written := []; ss_frames := []; ss_acks := [] |}.

Definition unless_err {A} (st : A) (m : comp Error A) : comp Error A :=
  match m with Err _ => Ok st | _ => m end.

Definition close_session (s : session) (r : Z * Z * SendBuf) : session :=
  {| ss_buf := r.2; ss_written := takez (s_off r.2) (ss_written s); ss_frames := ss_frames s;
     ss_acks := (0, s_off r.2) :: ss_acks s |}.

Definition send_step `{w : arch} (op : send_op) (s : session) : comp Error session :=
  unless_err s
    match op with
    | SWrite data fin =>
        '(n, b) ← send_write data fin (ss_buf s);
        mret {| ss_buf := b; ss_written := ss_written s ++ takez n data; ss_frames := ss_frames s; ss_acks := ss_acks s |}
    | SAppend data cap fin =>
        '(n, _, b) ← send_append_buf data (Z.max 0 cap) fin (ss_buf s);
        mret {| ss_buf := b; ss_written := ss_written s ++ takez n data; ss_frames := ss_frames s; ss_acks := ss_acks s |}
    | SEmit out =>
        let off := send_off_front (ss_buf s) in
        '(n, fin, out, b) ← send_emit out (ss_buf s);
        mret {| ss_buf := b; ss_written := ss_written s; ss_frames := rb_from (takez n out) off fin :: ss_frames s;
                ss_acks := ss_acks s |}
    | SAck i =>
        match ss_frames s !! i with
        | None => mret s
        | Some f =>
            '(_, b) ← ack_and_drop (rb_off f) (rb_len f) (ss_buf s);
            mret {| ss_buf := b; ss_written := ss_written s; ss_frames := ss_frames s;
                    ss_acks := (rb_off f, rb_off f + rb_len f) :: ss_acks s |}
        end
    | SLost i =>
        match ss_frames s !! i with
        | None => mret s
        | Some f =>
            '(_, b) ← retransmit (rb_off f) (rb_len f) (ss_buf s);
            mret {| ss_buf := b; ss_written := ss_written s; ss_frames := ss_frames s; ss_acks := ss_acks s |}
        end
    | SMaxData v =>
        mret {| ss_buf := send_update_max_data v (ss_buf s); ss_written := ss_written s; ss_frames := ss_frames s;
                ss_acks := ss_acks s |}
    | SStop code => r ← stop code (ss_buf s); mret (close_session s r)
    | SShutdown => r ← send_shutdown (ss_buf s); mret (close_session s r)
    end.

Fixpoint send_run `{w : arch} (ops : list send_op) (s : session) : comp Error session :=
  match ops with
  | [] => Ok s
  | op :: ops => s ← send_step op s; send_run ops s
  end.

(** A frame carries its part of the stream, was counted as sent, and ends the
    stream only where the application did. *)
Definition frame_ok (s : session) (f : RangeBuf) : Prop :=
  whole (ss_written s) f ∧ fresh f ∧ max_off_ f ≤ s_emit_off (ss_buf s) ∧
  (rb_fin f = true → max_off_ f = blen (ss_written s) ∧ s_fin_off (ss_buf s) = Some (blen (ss_written s))).

Record session_ok (lo : Z) (s : session) : Prop := {
  so_buf : send_ok (ss_written s) lo (ss_buf s);
  so_frames : Forall (frame_ok s) (ss_frames s);
  so_sent : ∀ x, 0 ≤ x < s_emit_off (ss_buf s) → unsent (ss_frames s) x;
  so_dropped : ∀ x, 0 ≤ x < lo → covers (ss_acks s) x;
  so_acked : ∀ x, covers (iter (s_acked (ss_buf s))) x → covers (ss_acks s) x;
}.

Lemma whole_cut W n b : whole W b → rb_off b + rb_len b ≤ n → n ≤ blen W → whole (takez n W) b.
Proof.
  intros (Hok & Hm & Hv) Hn Hle. apply rb_bounds in Hok as Hb. split; [done|]. split; [rewrite blen_takez'; lia|].
  rewrite Hv, dropz_takez, takez_takez by lia. done.
Qed.

Lemma stored_session `{w : arch} lo s d fin b' n len :
  session_ok lo s → stored (ss_written s) lo (ss_buf s) d fin b' → blen d ≤ n → n = storable len (ss_buf s) →
  session_ok lo {| ss_buf := b'; ss_written := ss_written s ++ d; ss_frames := ss_frames s; ss_acks := ss_acks s |}.
Proof.
  intros [Hb Hf Hs Hd Ha] (Hb' & _ & He & Hac & _ & _ & Hfin) Hn Hst.
  constructor; cbn; rewrite ?He, ?Hac; try done.
  eapply Forall_impl; [exact Hf|]. intros f (Hw & Hfr & Hm & Hff). split_and!; cbn.
  - by apply whole_grow.
  - done.
  - by rewrite He.
  - intros H. destruct (Hff H) as [E1 E2]. unfold storable in Hst. rewrite E2 in *.
    assert (d = []) as -> by (destruct d; [done|]; rewrite blen_cons in Hn; blia). by rewrite app_nil_r.
Qed.

(** A frame with bytes of the stream. *)
Lemma frame_whole W n off fin : 0 ≤ off → 0 ≤ n → off + n ≤ blen W →
  let f := rb_from (takez n (dropz off W)) off fin in
  whole W f ∧ fresh f ∧ off_ f = off ∧ max_off_ f = off + n ∧ rb_fin f = fin.
Proof.
  intros Ho Hn Hle f. assert (Hl : blen (takez n (dropz off W)) = n) by (rewrite blen_takez', blen_dropz'; lia).
  unfold f, whole, rb_ok, fresh, max_off_, off_, len_. cbn -[blen takez dropz]. rewrite Hl. split_and!; try (done || lia).
  change (dropz 0 ?l) with l. by rewrite takez_takez by lia.
Qed.

Lemma emit_session lo s out : session_ok lo s →
  ∃ s', (let off := send_off_front (ss_buf s) in
         '(n, fin, out, b) ← send_emit out (ss_buf s);
         mret {| ss_buf := b; ss_written := ss_written s; ss_frames := rb_from (takez n out) off fin :: ss_frames s;
                 ss_acks := ss_acks s |}) = (Ok s' : comp Error session) ∧ session_ok lo s'.
Proof.
  intros [Hb Hf Hs Hd Ha]. destruct (emit_ok _ _ out _ Hb)
    as (n & fin & out' & b' & -> & Hb' & Hn & Hle & -> & -> & He & _ & Hfo & Hac & Hlt & Hin & Hu & _).
  cbn [mbind comp_bind]. eexists. split; [done|].
  destruct (off_front_least (ss_written s) lo (s_off (ss_buf s)) (ss_buf s) ltac:(apply Hb) eq_refl ltac:(apply Hb))
    as (Hf0 & _). pose proof (ok_emit _ _ _ Hb) as He0. pose proof (ok_written _ _ _ Hb) as HW.
  set (off := send_off_front (ss_buf s)) in *. set (fin := bool_decide _).
  assert (E : takez n (copied (ss_written s) 0 n off out) = takez n (dropz off (ss_written s))).
  { unfold copied. change (takez 0 out) with (@nil Z). cbn [app]. set (p := takez n (dropz off (ss_written s))).
    assert (Hp : blen p = n) by (unfold p; rewrite blen_takez', blen_dropz'; lia).
    rewrite <- Hp at 1. apply takez_app. }
  rewrite E. destruct (frame_whole (ss_written s) n off fin ltac:(lia) ltac:(lia) Hle) as (Hw & Hfr & Hoff & Hmo & Hfi).
  set (f := rb_from _ off fin) in *. constructor; cbn [ss_buf ss_written ss_frames ss_acks].
  - done.
  - constructor.
    + split_and!; [done|done|cbn; lia|]. rewrite Hfi. intros Hd'%bool_decide_eq_true. cbn.
      pose proof (ok_fin _ _ _ Hb _ Hd') as Ee. rewrite Hmo, Hfo, Hd', HW, Ee. done.
    + eapply Forall_impl; [exact Hf|]. intros g (? & ? & ? & Hg). split_and!; cbn; [done|done|lia|by rewrite Hfo].
  - intros x Hx. rewrite unsent_cons. unfold in_buf. rewrite Hoff, Hmo.
    destruct (Z.lt_ge_cases x (s_emit_off (ss_buf s))); [right; apply Hs; lia|].
    left. assert (Hx2 : waiting (ss_buf s) x) by (apply (ok_unsent _ _ _ Hb); lia). specialize (Hlt x Hx2). lia.
  - done.
  - by rewrite Hac.
Qed.

Lemma frame_bounds s f : frame_ok s f → 0 ≤ rb_off f ∧ 0 ≤ rb_len f ∧ rb_off f + rb_len f ≤ s_emit_off (ss_buf s).
Proof. intros ((Hok & _) & _ & Hm & _). apply rb_bounds in Hok. lia. Qed.

Lemma frames_same lo s b' acks : session_ok lo s → s_emit_off b' = s_emit_off (ss_buf s) →
  s_fin_off b' = s_fin_off (ss_buf s) →
  Forall (frame_ok {| ss_buf := b'; ss_written := ss_written s; ss_frames := ss_frames s; ss_acks := acks |}) (ss_frames s).
Proof.
  intros [_ Hf _ _ _] He Hfo. eapply Forall_impl; [exact Hf|]. unfold frame_ok. cbn. by rewrite He, Hfo.
Qed.

Lemma ack_session `{w : arch} lo s f : session_ok lo s → frame_ok s f →
  ∃ k b' lo', ack_and_drop (rb_off f) (rb_len f) (ss_buf s) = Ok (k, b') ∧ lo ≤ lo' ∧
    session_ok lo' {| ss_buf := b'; ss_written := ss_written s; ss_frames := ss_frames s;
                      ss_acks := (rb_off f, rb_off f + rb_len f) :: ss_acks s |}.
Proof.
  intros Hs Hf. apply frame_bounds in Hf as (? & ? & ?). pose proof Hs as [Hb _ Hse Hd Ha].
  destruct (ack_and_drop_ok _ _ _ (rb_off f) (rb_len f) Hb) as (k & b' & lo' & E & Hb' & Hl & _ & Hdr & _ & Hcov & He & Hfo & _);
    [done..|]. exists (as_usize k), b', lo'. split; [done|]. split; [done|].
  assert (Hcov' : ∀ x, covers (iter (s_acked b')) x → covers ((rb_off f, rb_off f + rb_len f) :: ss_acks s) x).
  { intros x Hx. unfold covers. rewrite Exists_cons. destruct (Hcov x Hx) as [?|?]; [by left|right; by apply Ha]. }
  constructor; cbn; [done|by apply (frames_same lo)|by rewrite He| |done].
  intros x Hx. destruct (Z.lt_ge_cases x lo); [|apply Hcov', Hdr; lia].
  unfold covers. rewrite Exists_cons. right. apply Hd. lia.
Qed.

Lemma lost_session `{w : arch} lo s f : session_ok lo s → frame_ok s f →
  ∃ k b', retransmit (rb_off f) (rb_len f) (ss_buf s) = Ok (k, b') ∧
    session_ok lo {| ss_buf := b'; ss_written := ss_written s; ss_frames := ss_frames s; ss_acks := ss_acks s |}.
Proof.
  intros Hs Hf. apply frame_bounds in Hf as (? & ? & ?). pose proof Hs as [Hb _ Hse Hd Ha].
  destruct (retransmit_ok _ _ _ (rb_off f) (rb_len f) Hb) as (k & b' & E & Hb' & _ & _ & He & Hfo & Hac & _); [done..|].
  exists (as_usize k), b'. split; [done|]. constructor; cbn; [done|by apply (frames_same lo)|by rewrite He|done|by rewrite Hac].
Qed.

Lemma send_ok_closed W lo sd e b : send_ok W lo b → send_ok W lo (with_closed sd e b).
Proof. intros [Hc HW Hmax Hp Hs Hcnt Hem Hun Hfin Hset Hacks]. by constructor. Qed.

Lemma close_session_ok `{w : arch} lo s sd e :
  session_ok lo s →
  ∃ m n b', send_reset (with_closed sd (s_error (ss_buf s)) (ss_buf s)) = Ok (m, n, b') ∧
    ∀ sd', session_ok (s_off b') (close_session s (m, n, with_closed sd' e b')) ∧
    session_ok (s_off b') (close_session s (m, n, b')).
Proof.
  intros [Hb Hf Hse Hd Ha].
  destruct (reset_ok _ _ _ (send_ok_closed _ _ sd (s_error (ss_buf s)) _ Hb))
    as (b' & E & Hb' & _ & Ho & He & Hfo & _ & _ & Hcov). cbn [with_closed s_emit_off s_off s_acked] in *.
  eexists _, _, b'. split; [done|]. intros sd'. pose proof (ok_emit _ _ _ Hb). pose proof (ok_written _ _ _ Hb) as HW.
  rewrite <- Ho in Hb'.
  assert (Hfr : ∀ b2, s_emit_off b2 = s_emit_off b' → s_fin_off b2 = s_fin_off b' → s_off b2 = s_off b' →
    Forall (frame_ok (close_session s (s_emit_off (ss_buf s), s_off (ss_buf s) - s_emit_off (ss_buf s), b2))) (ss_frames s)).
  { intros b2 E1 E2 E3. eapply Forall_impl; [exact Hf|]. intros f (Hw & Hfre & Hm & Hff).
    pose proof (proj1 Hw) as Hfk. apply rb_bounds in Hfk.
    unfold frame_ok, close_session. cbn. rewrite E1, E2, E3, He, Hfo, Ho. split_and!; [apply whole_cut; (done || lia)|done|done|].
    intros H'. destruct (Hff H') as [Ef Eg]. rewrite blen_takez'. split; [lia|f_equal; lia]. }
  assert (Hdr : ∀ x, 0 ≤ x < s_off b' → covers ((0, s_off b') :: ss_acks s) x).
  { intros x Hx. unfold covers. rewrite Exists_cons. by left. }
  assert (Hac : ∀ x, covers (iter (s_acked b')) x → covers ((0, s_off b') :: ss_acks s) x).
  { intros x Hx. destruct (Hcov x Hx) as [?|?%Ha]; [apply Hdr; lia|]. unfold covers. rewrite Exists_cons. by right. }
  split; constructor; cbn; rewrite ?He; try done.
  - by apply send_ok_closed.
  - by apply Hfr.
  - by apply Hfr.
Qed.

Lemma send_step_ok `{w : arch} op lo s : session_ok lo s →
  ∃ s' lo', send_step op s = Ok s' ∧ session_ok lo' s'.
Proof.
  intros Hs. pose proof Hs as [Hb Hf _ _ _]. unfold send_step. destruct op as [d fin|d c fin|out|i|i|v|code|].
  - pose proof (send_write_ok _ _ _ d fin Hb) as H. destruct (send_write d fin (ss_buf s)) as [[n b']|e|]; cbn; [|eauto|done].
    destruct H as (Hn & Hr & _ & Hst). eexists _, lo. split; [done|].
    eapply (stored_session lo s _ _ b' n); [done|done|rewrite blen_takez'; lia|done].
  - pose proof (send_append_buf_ok _ _ _ d (Z.max 0 c) fin Hb ltac:(lia)) as H.
    destruct (send_append_buf d (Z.max 0 c) fin (ss_buf s)) as [[[n rest] b']|e|]; cbn; [|eauto|done].
    destruct H as (Hn & Hr & _ & Hst & _). eexists _, lo. split; [done|].
    eapply (stored_session lo s _ _ b' n); [done|done|rewrite blen_takez'; lia|done].
  - destruct (emit_session lo s out Hs) as (s' & E & Hs'). exists s', lo. split; [exact (f_equal (unless_err s) E)|done].
  - destruct (ss_frames s !! i) as [f|] eqn:Ei; [|eauto].
    destruct (ack_session lo s f Hs) as (k & b' & lo' & E & _ & Hs'); [by apply (Forall_lookup_1 _ _ _ _ Hf Ei)|].
    rewrite E. cbn. eauto.
  - destruct (ss_frames s !! i) as [f|] eqn:Ei; [|eauto].
    destruct (lost_session lo s f Hs) as (k & b' & E & Hs'); [by apply (Forall_lookup_1 _ _ _ _ Hf Ei)|].
    rewrite E. cbn. eauto.
  - eexists _, lo. split; [done|]. destruct Hs as [[Hc HW Hmax Hp Hsp Hcnt Hem Hun Hfin Hset Hacks] Hf' Hse Hd Ha].
    constructor; cbn; try done. constructor; cbn; try done. lia.
  - unfold stop. destruct (s_error (ss_buf s)) eqn:Ee; [cbn; eauto|].
    destruct (close_session_ok lo s (s_shutdown (ss_buf s)) (Some code) Hs) as (m & n & b' & E & Hc). rewrite Ee in E.
    assert (Eb : with_closed (s_shutdown (ss_buf s)) None (ss_buf s) = ss_buf s) by (rewrite <- Ee; by destruct (ss_buf s)).
    rewrite Eb in E. rewrite E. cbn. eexists _, _. split; [done|]. apply Hc.
  - unfold send_shutdown. destruct (s_shutdown (ss_buf s)); [cbn; eauto|].
    destruct (close_session_ok lo s true None Hs) as (m & n & b' & E & Hc). rewrite E. cbn. eexists _, _. split; [done|].
    apply (Hc true).
Qed.

Lemma session_new_ok `{w : arch} m : 0 ≤ m → session_ok 0 (session_new m).
Proof.
  intros Hm. constructor; cbn.
  - constructor; cbn; try (done || lia); [by apply Forall_nil| |].
    + assert (4 ≤ usize_max w) by (destruct w; vm_compute; congruence).
      unfold set_ok, Ranges.len, default_set. cbn [iter capacity_of]. rewrite blen_nil. split_and!; (done || lia).
    + intros x Hx. by apply Exists_nil in Hx.
  - constructor.
  - intros x ?. lia.
  - intros x ?. lia.
  - done.
Qed.

Lemma send_run_ok `{w : arch} : ∀ ops lo s, session_ok lo s →
  ∃ s' lo', send_run ops s = Ok s' ∧ session_ok lo' s'.
Proof.
  induction ops as [|op ops IH]; intros lo s Hs; cbn; [eauto|].
  destruct (send_step_ok op lo s Hs) as (s1 & lo1 & -> & Hs1). cbn. by apply (IH lo1).
Qed.

Lemma reached `{w : arch} ops m s : 0 ≤ m → send_run ops (session_new m) = Ok s → ∃ lo, session_ok lo s.
Proof.
  intros Hm E. destruct (send_run_ok ops 0 _ (session_new_ok m Hm)) as (s' & lo & E' & Hs). rewrite E in E'.
  injection E' as <-. eauto.
Qed.

Lemma chain_has W l : ∀ lo hi x, chain W lo hi l → lo ≤ x < hi →
  ∃ p, p ∈ l ∧ whole W p ∧ rb_off p ≤ x < rb_off p + rb_len p.
Proof.
  induction l as [|b l IH]; intros lo hi x; cbn [chain]; [lia|]. intros (Hw & <- & Hl) Hx.
  destruct (Z.lt_ge_cases x (rb_off b + rb_len b)).
  - exists b. split_and!; [constructor|done|lia|done].
  - destruct (IH _ _ x Hl) as (p & Hp & H'); [lia|]. exists p. split; [by constructor|done].
Qed.

Lemma whole_get W p x : whole W p → rb_off p ≤ x < rb_off p + rb_len p →
  get (rb_data p) (rb_start p + (x - rb_off p)) = get W x.
Proof.
  intros ((? & ? & ? & ?) & ? & Hv) Hx.
  apply (f_equal (λ l, l !! Z.to_nat (x - rb_off p))) in Hv. unfold takez, dropz in Hv.
  rewrite !lookup_take_lt, !lookup_drop in Hv by lia. unfold get.
  destruct (Z.ltb_spec (rb_start p + (x - rb_off p)) 0), (Z.ltb_spec x 0); try lia.
  replace (Z.to_nat (rb_start p + (x - rb_off p))) with (Z.to_nat (rb_start p) + Z.to_nat (x - rb_off p))%nat by lia.
  replace (Z.to_nat x) with (Z.to_nat (rb_off p) + Z.to_nat (x - rb_off p))%nat by lia. done.
Qed.

(** Nothing written is lost before it is acknowledged: over any sequence
    of writes, sends, acknowledgements, losses, limit updates and closings no
    operation panics, the count of bytes to send is exact, every byte written
    is waiting to be sent or in a frame that was sent, and a byte that no
    acknowledgement covers is still in a piece, with its value. *)
Theorem written_bytes_kept `{w : arch} ops m : 0 ≤ m →
  ∃ s, send_run ops (session_new m) = Ok s ∧
    blen (ss_written s) = s_off (ss_buf s) ∧ s_off (ss_buf s) ≤ s_max_data (ss_buf s) ∧
    s_buffered_bytes (ss_buf s) = sum_len (s_data (ss_buf s)) ∧
    ∀ x, 0 ≤ x < blen (ss_written s) →
      (waiting (ss_buf s) x ∨ unsent (ss_frames s) x) ∧
      (covers (ss_acks s) x ∨ ∃ p, p ∈ s_data (ss_buf s) ∧ rb_off p ≤ x < rb_off p + rb_len p ∧
        get (rb_data p) (rb_start p + (x - rb_off p)) = get (ss_written s) x).
Proof.
  intros Hm. destruct (send_run_ok ops 0 _ (session_new_ok m Hm)) as (s & lo & E & [Hb Hf Hse Hd Ha]).
  exists s. pose proof Hb as [Hc HW Hmax _ _ Hcnt Hem Hun _ _ _]. split_and!; [done..|]. intros x Hx. split.
  - destruct (Z.lt_ge_cases x (s_emit_off (ss_buf s))); [right; apply Hse; lia|left; apply Hun; lia].
  - destruct (Z.lt_ge_cases x lo); [left; apply Hd; lia|right].
    destruct (chain_has _ _ _ _ x Hc) as (p & Hp & Hw & Hpx); [lia|]. exists p. split_and!; [done|lia|lia|].
    by apply whole_get.
Qed.

(** [emit] sends the first run of bytes waiting: the bytes it puts in the
    output are those of the stream from the first waiting offset on, all of
    them were waiting and no other waits less, it stops only where the output
    is full or the run ends, and announces the end of the stream only with its
    last byte. *)
Theorem emit_next_waiting `{w : arch} ops m s out : 0 ≤ m → send_run ops (session_new m) = Ok s →
  let b := ss_buf s in
  let front := send_off_front b in
  ∃ n fin out' b', send_emit out b = Ok (n, fin, out', b') ∧ 0 ≤ n ≤ blen out ∧
    out' = takez n (dropz front (ss_written s)) ++ dropz n out ∧
    (∀ x, waiting b x → front ≤ x) ∧
    (∀ x, waiting b' x ↔ waiting b x ∧ ¬ (front ≤ x < front + n)) ∧
    (∀ x, front ≤ x < front + n → waiting b x) ∧
    (n = blen out ∨ ¬ waiting b (front + n)) ∧
    s_buffered_bytes b' = s_buffered_bytes b - n ∧
    (fin = true → front + n = blen (ss_written s)).
Proof.
  intros Hm E b front. destruct (reached ops m s Hm E) as (lo & [Hb _ _ _ _]).
  destruct (emit_ok _ _ out _ Hb)
    as (n & fin & out' & b' & Ee & Hb' & Hn & Hle & -> & -> & He & Hcnt & Hfo & Hac & Hlt & Hin & Hu & Hend).
  exists n, (bool_decide (s_fin_off (ss_buf s) = Some (send_off_front (ss_buf s) + n))). eexists _, b'.
  split; [done|]. split_and!; try (done || lia).
  - intros Hfin%bool_decide_eq_true. pose proof (ok_fin _ _ _ Hb _ Hfin). rewrite (ok_written _ _ _ Hb). done.
Qed.

(** A lost range waits again, and nothing else changes: after
    [retransmit] the bytes waiting are those that were, and those of the range
    that are still buffered, unless all of the range is acknowledged; the
    count returned is how many were added. *)
Theorem lost_waits_again `{w : arch} ops m s o n : 0 ≤ m → send_run ops (session_new m) = Ok s →
  0 ≤ o → 0 ≤ n →
  let b := ss_buf s in
  ∃ k b' lo, retransmit o n b = Ok (as_usize k, b') ∧ k = s_buffered_bytes b' - s_buffered_bytes b ∧
    (∀ x, 0 ≤ x < lo → covers (ss_acks s) x) ∧
    ∀ x, waiting b' x ↔ waiting b x ∨ ack_off b < o + n ∧ o ≤ x < o + n ∧ lo ≤ x < blen (ss_written s).
Proof.
  intros Hm E Ho Hn b. destruct (reached ops m s Hm E) as (lo & [Hb _ _ Hd _]).
  destruct (retransmit_ok _ _ _ o n Hb Ho Hn) as (k & b' & Er & _ & Hk & Hu & _).
  exists k, b', lo. rewrite (ok_written _ _ _ Hb). by split_and!.
Qed.

(** A write takes what the peer's limit allows and refuses what it must:
    it stores the first bytes of the data, as many as the limit lets it, which
    then wait to be sent at the end of the stream; the end is recorded only
    when all of the data was taken; it fails only on a stream that was stopped
    or, after the end was written, when it would move it, and never panics. *)
Theorem write_accepts `{w : arch} ops m s data fin : 0 ≤ m → send_run ops (session_new m) = Ok s →
  let b := ss_buf s in
  let W := ss_written s in
  match send_write data fin b with
  | Ok (n, b') =>
      n = storable (blen data) b ∧ s_error b = None ∧ s_off b' = blen (W ++ takez n data) ∧
      s_buffered_bytes b' = s_buffered_bytes b + n ∧
      (∀ x, waiting b' x ↔ waiting b x ∨ blen W ≤ x < blen W + n) ∧
      s_fin_off b' = match s_fin_off b with
                     | Some f => Some f
                     | None => if fin && (blen data =? n) then Some (blen W + n) else None
                     end
  | Err e => write_refused W b (blen data) fin e
  | Panic => False
  end.
Proof.
  intros Hm E. cbn zeta. destruct (reached ops m s Hm E) as (lo & [Hb _ _ _ _]).
  pose proof (send_write_ok _ _ _ data fin Hb) as H. destruct (send_write data fin (ss_buf s)) as [[n b']|e|]; [|done..].
  destruct H as (Hn & Hr & He & Hb' & Hu & _ & _ & _ & Hc & Hf).
  assert (Hl : blen (takez n data) = n) by (rewrite blen_takez'; lia).
  rewrite Hl, <- (ok_written _ _ _ Hb) in *. split_and!; try done.
  symmetry. apply (ok_written _ _ _ Hb').
Qed.

(** A receiver that gets the session's frames, in any order. *)
Definition gets (s : session) (op : recv_op) : Prop :=
  match op with WriteOp f => f ∈ ss_frames s | ReadOp cap => 0 ≤ cap end.

Lemma gets_ok lo s limit op : session_ok lo s → blen (ss_written s) ≤ limit → gets s op → op_ok (ss_written s) limit op.
Proof.
  intros [Hb Hf _ _ _] Hl. destruct op as [f|c]; cbn; [|done]. intros Hin.
  rewrite Forall_forall in Hf. destruct (Hf f Hin) as (Hw & Hfr & Hm & Hfin).
  pose proof (whole_part _ _ Hw) as Hp. apply part_bounds in Hp as Hbd.
  split; [|lia]. split_and!; [done..|]. by intros [? _]%Hfin.
Qed.

Lemma all_delivered lo s rops x : session_ok lo s → s_buffered_bytes (ss_buf s) = 0 →
  (∀ f, f ∈ ss_frames s → WriteOp f ∈ rops) → 0 ≤ x < blen (ss_written s) → written rops x.
Proof.
  intros [Hb Hf Hse _ _] Hz Hall Hx. pose proof Hb as [Hc HW _ _ _ Hcnt Hem Hun _ _ _].
  assert (Hs : unsent (ss_frames s) x).
  { destruct (Z.lt_ge_cases x (s_emit_off (ss_buf s))); [apply Hse; lia|].
    destruct (sum_len_zero _ _ _ _ x Hc); [lia|apply Hun; lia]. }
  unfold unsent in Hs. apply list.Exists_exists in Hs as (f & Hin & Hfx).
  unfold written. apply list.Exists_exists. exists (WriteOp f). split; [by apply Hall|done].
Qed.

(** C2. A stream crosses a network that loses, repeats and reorders: whatever
    the sender did, a receiver that gets frames of the stream in any order, any
    number of times, mixed with reads, always reads the beginning of what was
    written, and calls the stream complete only when it read all of it; once
    nothing waits at the sender and every frame arrived, reading gives exactly
    what was written. *)
Theorem stream_end_to_end `{w : arch} ops m s rops limit win mw :
  0 ≤ m → send_run ops (session_new m) = Ok s → blen (ss_written s) ≤ limit → Forall (gets s) rops →
  ∃ out r, recv_run rops ([], recv_new limit win mw) = Ok (out, r) ∧ out = takez (blen out) (ss_written s) ∧
    (is_fin r = true → out = ss_written s) ∧
    (s_buffered_bytes (ss_buf s) = 0 → (∀ f, f ∈ ss_frames s → WriteOp f ∈ rops) →
     ∀ cap, 0 ≤ cap → blen (ss_written s) ≤ blen out + cap →
       ∃ r', recv_run (rops ++ [ReadOp cap]) ([], recv_new limit win mw) = Ok (ss_written s, r')).
Proof.
  intros Hm E Hlim Hops. destruct (reached ops m s Hm E) as (lo & Hs).
  destruct (reassembly (ss_written s) rops limit win mw) as (out & r & Er & Ho & Hfin & Hread).
  { eapply Forall_impl; [exact Hops|]. intros op. by apply (gets_ok lo). }
  exists out, r. split_and!; [done..|]. intros Hz Hall cap Hcap Hle.
  destruct (Hread (blen (ss_written s)) cap) as (out' & r' & Er' & Ho' & Hn); [|done..|].
  - intros x Hx. by apply (all_delivered lo s).
  - exists r'. rewrite Er'. do 2 f_equal. rewrite Ho'. by apply takez_all.
Qed.

(** Writes, a frame lost and sent again, an acknowledgement, the end. *)
Definition demo_ops : list send_op :=
  [SWrite [104; 101; 108; 108; 111] false; SEmit [0; 0; 0]; SWrite [33] true; SEmit [0; 0; 0; 0]; SLost 1; SAck 0;
   SEmit [0; 0; 0; 0; 0; 0; 0; 0]].

Definition demo_session : session :=
  match send_run (w := W64) demo_ops (session_new (w := W64) 100) with Ok s => s | _ => session_new (w := W64) 0 end.

Lemma written_bytes_kept_witness :
  ∃ s, send_run (w := W64) demo_ops (session_new (w := W64) 100) = Ok s ∧
    blen (ss_written s) = s_off (ss_buf s) ∧ s_off (ss_buf s) ≤ s_max_data (ss_buf s) ∧
    s_buffered_bytes (ss_buf s) = sum_len (s_data (ss_buf s)) ∧
    ∀ x, 0 ≤ x < blen (ss_written s) →
      (waiting (ss_buf s) x ∨ unsent (ss_frames s) x) ∧
      (covers (ss_acks s) x ∨ ∃ p, p ∈ s_data (ss_buf s) ∧ rb_off p ≤ x < rb_off p + rb_len p ∧
        get (rb_data p) (rb_start p + (x - rb_off p)) = get (ss_written s) x).
Proof. apply (written_bytes_kept (w := W64) demo_ops 100). lia. Defined.

Lemma emit_next_waiting_witness :
  let s := demo_session in
  ∃ n fin out' b', send_emit [9; 9] (ss_buf s) = Ok (n, fin, out', b') ∧ 0 ≤ n ≤ 2 ∧
    out' = takez n (dropz (send_off_front (ss_buf s)) (ss_written s)) ++ dropz n [9; 9].
Proof.
  intros s. destruct (emit_next_waiting (w := W64) demo_ops 100 s [9; 9]) as (n & fin & out' & b' & E & Hn & Ho & _);
    [lia|by vm_compute|]. exists n, fin, out', b'. exact (conj E (conj Hn Ho)).
Defined.

Lemma lost_waits_again_witness :
  let s := demo_session in
  ∃ k b' lo, retransmit (w := W64) 0 5 (ss_buf s) = Ok (as_usize (w := W64) k, b') ∧
    ∀ x, waiting b' x ↔ waiting (ss_buf s) x ∨ ack_off (ss_buf s) < 0 + 5 ∧ 0 ≤ x < 0 + 5 ∧ lo ≤ x < blen (ss_written s).
Proof.
  intros s. destruct (lost_waits_again (w := W64) demo_ops 100 s 0 5) as (k & b' & lo & E & _ & _ & Hu);
    [lia|by vm_compute|lia|lia|]. exists k, b', lo. exact (conj E Hu).
Defined.

Lemma write_accepts_witness :
  let s := demo_session in
  send_write (w := W64) [1; 2] false (ss_buf s) = Err FinalSize ∧
  write_refused (ss_written s) (ss_buf s) 2 false FinalSize.
Proof.
  intros s. assert (E : send_write (w := W64) [1; 2] false (ss_buf s) = Err FinalSize) by (by vm_compute).
  split; [exact E|]. pose proof (write_accepts (w := W64) demo_ops 100 s [1; 2] false ltac:(lia) ltac:(by vm_compute)) as H.
  cbn zeta in H. rewrite E in H. exact H.
Defined.

Lemma stream_end_to_end_witness :
  let hel := rb_from [104; 101; 108] 0 false in
  let lo := rb_from [108; 111; 33] 3 true in
  let rops := [WriteOp lo; ReadOp 10; WriteOp hel; WriteOp lo] in
  ∃ r', recv_run (rops ++ [ReadOp 10]) ([], recv_new 100 10 10) = Ok ([104; 101; 108; 108; 111; 33], r').
Proof.
  intros hel lo rops. assert (Hf : ss_frames demo_session = [hel; lo; hel]) by (by vm_compute).
  assert (Hw : ss_written demo_session = [104; 101; 108; 108; 111; 33]) by (by vm_compute).
  destruct (stream_end_to_end (w := W64) demo_ops 100 demo_session rops 100 10 10) as (out & r & E & Ho & _ & Hend).
  - lia.
  - by vm_compute.
  - rewrite Hw. vm_compute. congruence.
  - assert (Hl : lo ∈ ss_frames demo_session) by (rewrite Hf; apply list_elem_of_further, list_elem_of_here).
    assert (Hh : hel ∈ ss_frames demo_session) by (rewrite Hf; apply list_elem_of_here).
    apply Forall_cons_2; [exact Hl|]. apply Forall_cons_2; [cbn [gets]; lia|].
    apply Forall_cons_2; [exact Hh|]. apply Forall_cons_2; [exact Hl|apply Forall_nil_2].
  - rewrite Hw, Hf in Hend. apply Hend; [by vm_compute| |lia|].
    + intros f Hin. unfold rops. apply list_elem_of_In in Hin. apply list_elem_of_In. cbn in Hin |- *.
      destruct Hin as [<-|[<-|[<-|[]]]]; tauto.
    + pose proof (blen_nonneg out). change (blen [104; 101; 108; 108; 111; 33]) with 6. lia.
Defined.
