(* ===== verification/Wire.v ===== *)
(** * Reading and writing on the wire

    The coders of quiche take an [Octets] cursor and use [?] on every read and
    write; its error becomes [Error::BufferTooShort].  [reader] and [writer]
    thread the cursor, so that a coder reads like the source; the lemmas follow
    a coder from one field to the next:
    - [spells m s a]: before the bytes [s] the reader [m] takes them and gives [a];
    - [writes m s]: where there is room the writer [m] writes exactly [s];
    - [reads_safely m P]: on any bytes [m] fails or gives a value with [P], and
      never panics. *)

From S2P Require Import Prelude Octets QuicError.

Definition reader (A : Type) : Type := octets → comp Error (A * octets).

#[export] Instance reader_ret : MRet reader := λ A a b, Ok (a, b).
#[export] Instance reader_bind : MBind reader := λ A B f m b,
  match m b with Ok (a, b') => f a b' | Err e => Err e | Panic => Panic end.

(** [impl From<octets::BufferTooShortError> for Error]. *)
Definition too_short {A} (m : comp () A) : comp Error A := map_err (λ _, BufferTooShort) m.

Definition fail {A} (e : Error) : reader A := λ _, Err e.
Definition varint : reader Z := λ b, too_short (get_varint b).
Definition u8_ : reader Z := λ b, too_short (get_u8 b).
Definition room : reader Z := λ b, Ok (cap b, b).

(** [b.get_bytes(n)?.to_vec()], and [.buf()]. *)
Definition vec (n : Z) : reader bytes := λ b,
  '(o, b) ← too_short (get_bytes n b); v ← too_short (to_vec o); mret (v, b).
Definition array (n : Z) : reader bytes := λ b,
  '(o, b) ← too_short (get_bytes n b); mret (buf o, b).
Definition vec_with_varint_length `{arch} : reader bytes := λ b,
  '(o, b) ← too_short (get_bytes_with_varint_length b); v ← too_short (to_vec o); mret (v, b).

Definition writer : Type := octets → comp Error octets.

Definition put_nothing : writer := λ b, Ok b.
Definition andw (m n : writer) : writer := λ b, b ← m b; n b.
Definition w_varint (v : Z) : writer := λ b, too_short (put_varint v b).
Definition w_varint_with_len (v len : Z) : writer := λ b, too_short (put_varint_with_len v len b).
Definition w_bytes (s : bytes) : writer := λ b, too_short (put_bytes s b).
Definition w_u8 (v : Z) : writer := λ b, too_short (put_u8 v b).
Definition w_panic : writer := λ _, Panic.

Declare Scope wire_scope.
Delimit Scope wire_scope with wire.
Notation "m +> n" := (andw m n) (at level 45, right associativity) : wire_scope.
Open Scope wire_scope.

(** ** Readers *)

Definition spells {A} (m : reader A) (s : bytes) (a : A) : Prop :=
  ∀ b r, reads b (s ++ r) → ∃ b', m b = Ok (a, b') ∧ reads b' r ∧ buf b' = buf b ∧ off b' = off b + blen s.

Lemma spells_ret {A} (a : A) : spells (mret a) [] a.
Proof. intros b r H. exists b. split_and!; [done..|]. rewrite blen_nil. lia. Qed.

Lemma spells_bind {A B} (m : reader A) (f : A → reader B) s t a x :
  spells m s a → spells (f a) t x → spells (m ≫= f) (s ++ t) x.
Proof.
  intros Hm Hf b r Hb. rewrite <- app_assoc in Hb. destruct (Hm b _ Hb) as (b1 & E & Hb1 & Hu & Ho).
  destruct (Hf b1 r Hb1) as (b2 & E2 & Hb2 & Hu2 & Ho2). exists b2.
  unfold mbind, reader_bind. rewrite E. split_and!; [done|done|congruence|blia].
Qed.

Lemma spells_nil {A} (m : reader A) (a : A) s : s = [] → spells m [] a → spells m s a.
Proof. by intros ->. Qed.

Lemma spells_varint v : varint_ok v → spells varint (varint_enc v) v.
Proof.
  intros Hv b r Hb. destruct (get_varint_reads b v r Hv Hb) as (b' & E & Hr & Hu & Ho).
  exists b'. unfold varint. by rewrite E.
Qed.

Lemma spells_u8 v : u8 v → spells u8_ [v] v.
Proof.
  intros Hv b r Hb. destruct (get_u_reads 1 b [v] r Hb eq_refl) as [E Hr]. unfold u8_, get_u8. rewrite E, be_val_1.
  by eexists.
Qed.

Lemma spells_vec s : spells (vec (blen s)) s s.
Proof.
  intros b r Hb. destruct (get_bytes_reads b s r Hb) as [E Hr]. unfold vec. rewrite E. cbn.
  unfold to_vec. rewrite (as_ref_reads _ _ (reads_with_slice s)). by eexists.
Qed.

Lemma spells_array s : spells (array (blen s)) s s.
Proof. intros b r Hb. destruct (get_bytes_reads b s r Hb) as [E Hr]. unfold array. rewrite E. by eexists. Qed.

Lemma as_usize_small `{w : arch} v : 0 ≤ v < 2 ^ 32 → as_usize v = v.
Proof.
  intros H. unfold as_usize. apply Z.mod_small. split; [lia|].
  assert (2 ^ 32 ≤ 2 ^ usize_bits w) by (apply Z.pow_le_mono_r; [lia|destruct w; cbn; lia]). lia.
Qed.

Lemma spells_vec_with_varint_length `{w : arch} s : blen s < 2 ^ 32 →
  spells vec_with_varint_length (varint_enc (blen s) ++ s) s.
Proof.
  intros Hs b r Hb. rewrite <- app_assoc in Hb.
  assert (Hv : varint_ok (blen s)) by (split; [blia|unfold MAX_VAR_INT; lia]).
  destruct (get_varint_reads b (blen s) _ Hv Hb) as (b1 & E1 & Hb1 & Hu1 & Ho1).
  destruct (get_bytes_reads b1 s r Hb1) as [E2 Hr].
  unfold vec_with_varint_length, get_bytes_with_varint_length. rewrite E1. cbn [mbind comp_bind].
  rewrite as_usize_small by blia. rewrite E2. cbn. unfold to_vec. rewrite (as_ref_reads _ _ (reads_with_slice s)).
  eexists. split_and!; [done|done|done|]. cbn. blia.
Qed.

(** ** Writers *)

Definition writes (m : writer) (s : bytes) : Prop :=
  ∀ b p z, wrote b p z → blen s ≤ blen z → ∃ b', m b = Ok b' ∧ wrote b' (p ++ s) (dropz (blen s) z).

Lemma writes_nothing : writes put_nothing [].
Proof.
  intros b p z Hb _. exists b. split; [done|]. by rewrite app_nil_r.
Qed.

Lemma writes_and m n s t : writes m s → writes n t → writes (m +> n) (s ++ t).
Proof.
  intros Hm Hn b p z Hb Hz. destruct (Hm b p z Hb ltac:(blia)) as (b1 & E1 & H1).
  destruct (Hn b1 _ _ H1 ltac:(blia)) as (b2 & E2 & H2). exists b2. unfold andw. rewrite E1. split; [done|].
  rewrite <- app_assoc in H2. rewrite dropz_dropz in H2 by blia. by rewrite blen_app.
Qed.

Lemma writes_varint v : varint_ok v → writes (w_varint v) (varint_enc v).
Proof.
  intros Hv b p z Hb Hz. destruct (put_varint_wrote v b p z Hv Hb Hz) as (b' & E & H). exists b'.
  unfold w_varint. by rewrite E.
Qed.

Lemma writes_bytes s : writes (w_bytes s) s.
Proof.
  intros b p z Hb Hz. destruct (put_bytes_wrote s b p z Hb Hz) as (b' & E & H). exists b'.
  unfold w_bytes. by rewrite E.
Qed.

Lemma writes_u8 v : u8 v → writes (w_u8 v) [v].
Proof.
  intros Hv b p z Hb Hz. rewrite blen_cons, blen_nil in Hz. destruct (put_u_wrote 0 0 v b p z Hb ltac:(lia)) as (b' & E & H).
  exists b'. unfold w_u8, put_u8. rewrite E. split; [done|]. rewrite tagged_0 in H. cbn [be_bytes] in H.
  rewrite land_255, Z.shiftr_div_pow2 in H by lia. change (2 ^ (8 * Z.of_nat 0)) with 1 in H.
  by rewrite Z.div_1_r, Z.mod_small in H by done.
Qed.

(** Two bytes for any length below 2^14. *)
Definition varint_enc2 (v : Z) : bytes := tagged 0x40 (be_bytes 2 v).

Lemma writes_varint2 v : 0 ≤ v < 2 ^ 14 → writes (w_varint_with_len v 2) (varint_enc2 v).
Proof.
  intros Hv b p z Hb Hz. unfold w_varint_with_len, put_varint_with_len, varint_enc2 in *.
  assert (Hl : blen (tagged 64 (be_bytes 2 v)) = 2) by done. rewrite Hl in Hz.
  rewrite (wrote_cap _ _ _ Hb). destruct (Z.ltb_spec (blen z) 2); [lia|].
  unfold as_u16. rewrite Z.mod_small by lia.
  destruct (put_u_wrote 1 64 v b p z Hb ltac:(lia)) as (b' & E & H'). exists b'. by rewrite E.
Qed.

Lemma spells_varint2 v : 0 ≤ v < 2 ^ 14 → spells varint (varint_enc2 v) v.
Proof.
  intros Hv b r Hb. destruct (tagged_be 1 v 1 ltac:(lia) ltac:(cbn; lia)) as (x & s & Ex & Htag & Hx & Hlen & Hval & _).
  change (64 * 1) with 0x40 in Ex. unfold varint_enc2 in *. rewrite Ex in *. pose proof (reads_cap _ _ Hb) as Hcap.
  destruct (get_u_reads 2 b (x :: s) r Hb Hlen) as [Hg Hr].
  assert (E : get_varint b = Ok (v, Octets (buf b) (off b + 2))).
  { unfold get_varint, peek_u8. cbn [app] in Hb. rewrite (peek_u_reads 1 b [x] (s ++ r)) by done.
    cbn [mbind comp_bind]. rewrite be_val_1. unfold varint_parse_len. rewrite Htag. cbn [mbind comp_bind].
    destruct (Z.ltb_spec (cap b) 2); [rewrite Hcap in *; blia|].
    unfold get_u16. rewrite Hg. cbn [mbind comp_bind]. rewrite Hval. do 2 f_equal.
    rewrite (land_mask _ 14) by lia. change (64 * 256 ^ Z.of_nat 1) with (2 ^ 14).
    rewrite Z.mod_add by lia. by apply Z.mod_small. }
  exists (Octets (buf b) (off b + 2)). unfold varint. rewrite E. split_and!; [done..|]. cbn. lia.
Qed.

(** ** Safety *)

Definition reads_safely {A} (m : reader A) (P : A → Prop) : Prop :=
  ∀ b, cursor_ok b → bytes_ok (buf b) →
    match m b with
    | Ok (a, b') => P a ∧ cursor_ok b' ∧ buf b' = buf b ∧ off b ≤ off b'
    | Err _ => True
    | Panic => False
    end.

Lemma safely_ret {A} (a : A) (P : A → Prop) : P a → reads_safely (mret a) P.
Proof. intros H b Hok Hb. cbn. split_and!; (done || lia). Qed.

Lemma safely_fail {A} e (P : A → Prop) : reads_safely (fail e) P.
Proof. by intros b Hok Hb. Qed.

Lemma safely_bind {A B} (m : reader A) (f : A → reader B) P Q :
  reads_safely m P → (∀ a, P a → reads_safely (f a) Q) → reads_safely (m ≫= f) Q.
Proof.
  intros Hm Hf b Hok Hb. specialize (Hm b Hok Hb). unfold mbind, reader_bind.
  destruct (m b) as [[a b1]|e|]; [|done..]. destruct Hm as (Ha & Hok1 & Hu1 & Ho1).
  specialize (Hf a Ha b1 Hok1 ltac:(by rewrite Hu1)). destruct (f a b1) as [[x b2]|e|]; [|done..].
  destruct Hf as (Hx & Hok2 & Hu2 & Ho2). split_and!; [done|done|congruence|lia].
Qed.

Lemma safely_weaken {A} (m : reader A) (P Q : A → Prop) : (∀ a, P a → Q a) → reads_safely m P → reads_safely m Q.
Proof.
  intros H Hm b Hok Hb. specialize (Hm b Hok Hb). destruct (m b) as [[a b1]|e|]; [|done..].
  destruct Hm as (? & ?). split; [by apply H|done].
Qed.

Lemma get_varint_value b v b' : cursor_ok b → bytes_ok (buf b) → get_varint b = Ok (v, b') → varint_ok v.
Proof.
  intros Hok Hb. unfold get_varint. destruct (peek_u8 b) as [x|[]|] eqn:Ex; cbn [mbind comp_bind]; [|done..].
  pose proof (peek_u8_byte b x Hok Hb Ex) as Hx. unfold u8 in Hx.
  assert (Hget : ∀ n y c, 0 ≤ n → get_u n b = Ok (y, c) → 0 ≤ y).
  { intros n y c Hn E. by apply (get_u_value n b y c). }
  assert (Hmask : ∀ y k, 0 ≤ k ≤ 62 → 0 ≤ Z.land y (2 ^ k - 1) ≤ MAX_VAR_INT).
  { intros y k Hk. rewrite land_mask by lia. pose proof (Z.mod_pos_bound y (2 ^ k)).
    assert (2 ^ k ≤ 2 ^ 62) by (apply Z.pow_le_mono_r; lia). unfold MAX_VAR_INT. lia. }
  unfold varint_parse_len. rewrite Z.shiftr_div_pow2 by lia. change (2 ^ 6) with 64.
  assert (Hq : x / 64 = 0 ∨ x / 64 = 1 ∨ x / 64 = 2 ∨ x / 64 = 3) by (Z.to_euclidean_division_equations; lia).
  unfold get_u8, get_u16, get_u32, get_u64, varint_ok.
  destruct Hq as [Hq|[Hq|[Hq|Hq]]]; rewrite Hq; cbn [mbind comp_bind]; (destruct (_ <? _); [done|]).
  - unfold get_u. unfold peek_u8 in Ex. rewrite Ex. cbn. intros [= <- _]. unfold MAX_VAR_INT. lia.
  - destruct (get_u 2 b) as [[y c]|[]|]; cbn; [|done..]. intros [= <- _]. by apply (Hmask y 14).
  - destruct (get_u 4 b) as [[y c]|[]|]; cbn; [|done..]. intros [= <- _]. by apply (Hmask y 30).
  - destruct (get_u 8 b) as [[y c]|[]|]; cbn; [|done..]. intros [= <- _]. by apply (Hmask y 62).
Qed.

Lemma safely_varint : reads_safely varint varint_ok.
Proof.
  intros b Hok Hb. unfold varint. destruct (get_varint_total b Hok Hb) as [->|(v & b' & E & ? & ? & ?)]; [done|].
  rewrite E. cbn. split_and!; [by eapply (get_varint_value b)|done..|lia].
Qed.

Lemma safely_u8 : reads_safely u8_ u8.
Proof.
  intros b Hok Hb. unfold u8_, get_u8. pose proof (steps_get_u 1 b ltac:(lia)) as Hs.
  destruct (get_u 1 b) as [[v b']|[]|] eqn:E; cbn in *; [|done|by destruct Hs].
  destruct Hs as [[Hu Ho] Hc]. split_and!; [|by apply Hc|done|lia].
  unfold get_u in E. destruct (peek_u 1 b) as [x|[]|] eqn:Ex; cbn in E; [|done..]. injection E as <- _.
  by apply (peek_u8_byte b x Hok Hb).
Qed.

Lemma safely_bytes {A} (n : Z) (k : octets → comp Error A) (P : A → Prop) :
  0 ≤ n → (∀ s, bytes_ok s → blen s = n → match k (with_slice s) with Ok a => P a | Err _ => True | Panic => False end) →
  reads_safely (λ b, '(o, b) ← too_short (get_bytes n b); a ← k o; mret (a, b)) P.
Proof.
  intros Hn Hk b Hok Hb. destruct (get_bytes_total n b Hok Hn) as [->|(s & b' & -> & Hok' & Hu & Ho & Hl & Es)]; [done|].
  cbn. specialize (Hk s ltac:(by eapply slice_ok) Hl). destruct (k (with_slice s)); cbn; [|done..].
  split_and!; [done..|lia].
Qed.

Lemma safely_vec n : 0 ≤ n → reads_safely (vec n) (λ s, bytes_ok s ∧ blen s = n).
Proof.
  intros Hn. apply (safely_bytes n (λ o, too_short (to_vec o))); [done|]. intros s Hs Hl.
  unfold to_vec. by rewrite (as_ref_reads _ _ (reads_with_slice s)).
Qed.

Lemma safely_array n : 0 ≤ n → reads_safely (array n) (λ s, bytes_ok s ∧ blen s = n).
Proof. intros Hn. by apply (safely_bytes n (λ o, Ok (buf o))). Qed.

Lemma as_usize_nonneg `{w : arch} v : 0 ≤ as_usize v.
Proof. unfold as_usize. apply Z.mod_pos_bound. destruct w; cbn; lia. Qed.

Lemma safely_vec_with_varint_length `{w : arch} : reads_safely vec_with_varint_length bytes_ok.
Proof.
  intros b Hok Hb. unfold vec_with_varint_length, get_bytes_with_varint_length.
  destruct (get_varint_total b Hok Hb) as [->|(v & b1 & -> & Hok1 & Hu1 & Ho1)]; [done|]. cbn [mbind comp_bind].
  pose proof (safely_vec (as_usize v) (as_usize_nonneg v) b1 Hok1 ltac:(by rewrite Hu1)) as H. unfold vec in H.
  destruct (get_bytes (as_usize v) b1) as [[o b2]|[]|]; [|done..]. cbn [too_short map_err mbind comp_bind] in *.
  destruct (to_vec o) as [s|[]|]; [|done..]. cbn in *. destruct H as ((? & ?) & ? & ? & ?).
  split_and!; [done|done|congruence|lia].
Qed.

Lemma safely_room : reads_safely room (λ n, 0 ≤ n).
Proof. intros b Hok Hb. unfold room, cap. cbn. unfold cursor_ok in Hok. split_and!; (done || lia). Qed.

(** A successful read of a variable-length integer takes at least a byte. *)
Lemma varint_takes b v b' : varint b = Ok (v, b') → buf b' = buf b ∧ off b < off b' ≤ blen (buf b).
Proof.
  unfold varint. destruct (get_varint b) as [[x c]|[]|] eqn:E; cbn; [|done..]. intros [= <- <-].
  apply get_varint_inv in E as (n & y & Hn & E). unfold get_u, peek_u, as_ref, index_range in E.
  destruct (slice (buf b) (off b) (blen (buf b))) as [s|] eqn:Es; cbn in E; [|done].
  destruct (Z.ltb_spec (blen s) n); cbn in E; [done|]. injection E as <- <-. cbn.
  apply slice_Some in Es as (? & ? & ? & ?). split; [done|lia].
Qed.

(** A loop whose state ends with the cursor. *)
Definition round_safely {S A} (I : S → Prop) (P : A → Prop) (b : octets)
  (r : round (S * octets) (comp Error (A * octets))) : Prop :=
  match r with
  | Next (s, b') => I s ∧ cursor_ok b' ∧ buf b' = buf b ∧ off b ≤ off b'
  | Done (Ok (a, b')) => P a ∧ cursor_ok b' ∧ buf b' = buf b ∧ off b ≤ off b'
  | Done (Err _) => True
  | Done Panic => False
  end.

Lemma safely_loop {S A} (m : S * octets → nat) step (I : S → Prop) (P : A → Prop) d s :
  Decreasing m step →
  (∀ s b, cursor_ok b → bytes_ok (buf b) → I s → round_safely I P b (step (s, b))) →
  I s → reads_safely (λ b, loop m step (d b) (s, b)) P.
Proof.
  intros Hdec Hstep Hs b Hok Hb.
  apply (loop_ind m step (λ st, I st.1 ∧ cursor_ok st.2 ∧ buf st.2 = buf b ∧ off b ≤ off st.2)
    (λ _ r, match r with
            | Ok (a, b') => P a ∧ cursor_ok b' ∧ buf b' = buf b ∧ off b ≤ off b'
            | Err _ => True
            | Panic => False
            end)); [|done| |].
  - intros [s0 c] r (Hi & Hc & Hu & Ho) E. cbn in *. specialize (Hstep s0 c Hc ltac:(by rewrite Hu) Hi). rewrite E in Hstep.
    destruct r as [[a b']|e|]; [|done..]. destruct Hstep as (? & ? & ? & ?). split_and!; [done|done|congruence|lia].
  - intros [s0 c] [s1 c1] (Hi & Hc & Hu & Ho) E. cbn in *. specialize (Hstep s0 c Hc ltac:(by rewrite Hu) Hi). rewrite E in Hstep.
    destruct Hstep as (? & ? & ? & ?). split_and!; [done|done|congruence|lia].
  - cbn. split_and!; (done || lia).
Qed.

(** Hints: one lemma for each kind of field. *)
Create HintDb wire.
#[export] Hint Resolve spells_ret spells_varint spells_u8 spells_vec spells_array spells_vec_with_varint_length
  spells_varint2 writes_nothing writes_varint writes_bytes writes_u8 writes_varint2 safely_ret safely_fail
  safely_varint safely_u8 safely_vec safely_array safely_vec_with_varint_length safely_room : wire.
