(* ===== verification/Frames.v ===== *)
(** * QUIC frames

    src/quiche/quiche/src/frame.rs: the frames of a packet, their encoding and
    their parser.  [packet::Type] is from packet.rs. *)

From S2P Require Import Prelude Octets QuicError BTree Ranges RecvBuf Wire.

(** [packet::Type]. *)
Inductive Type_ := Initial | Retry | Handshake | ZeroRTT | VersionNegotiation | Short.

Definition MAX_CID_LEN : Z := 20.
Definition MAX_STREAM_SIZE : Z := 2 ^ 62.

Record EcnCounts := { ect0_count : Z; ect1_count : Z; ecn_ce_count : Z }.

Inductive Frame :=
| Padding (len : Z)
| Ping (mtu_probe : option Z)
| ACK (ack_delay : Z) (ranges : RangeSet) (ecn_counts : option EcnCounts)
| ResetStream (stream_id error_code final_size : Z)
| StopSending (stream_id error_code : Z)
| Crypto (data : RangeBuf)
| CryptoHeader (offset length : Z)
| NewToken (token : bytes)
| Stream (stream_id : Z) (data : RangeBuf)
| StreamHeader (stream_id offset length : Z) (fin : bool)
| MaxData (max : Z)
| MaxStreamData (stream_id max : Z)
| MaxStreamsBidi (max : Z)
| MaxStreamsUni (max : Z)
| DataBlocked (limit : Z)
| StreamDataBlocked (stream_id limit : Z)
| StreamsBlockedBidi (limit : Z)
| StreamsBlockedUni (limit : Z)
| NewConnectionId (seq_num retire_prior_to : Z) (conn_id reset_token : bytes)
| RetireConnectionId (seq_num : Z)
| PathChallenge (data : bytes)
| PathResponse (data : bytes)
| ConnectionClose (error_code frame_type : Z) (reason : bytes)
| ApplicationClose (error_code : Z) (reason : bytes)
| HandshakeDone
| Datagram (data : bytes)
| DatagramHeader (length : Z).

(** ** Parsing *)

(** One round of the loop over the zero bytes of padding. *)
Definition padding_step (st : Z * octets) : round (Z * octets) (comp Error (Z * octets)) :=
  let '(len, b) := st in
  match peek_u8 b with
  | Ok 0 =>
      match u8_ b with
      | Ok (_, b) => Next (len + 1, b)
      | Err e => Done (Err e)
      | Panic => Done Panic
      end
  | Panic => Done Panic
  | _ => Done (Ok (len, b))
  end.

Definition cursor_measure (b : octets) : nat := Z.to_nat (cap b).

Definition padding : reader Z := λ b,
  loop (λ st, cursor_measure st.2) padding_step (Ok (1, b)) (1, b).

(** The set's own insertion has no error. *)
Definition insert_range (r : Z * Z) (s : RangeSet) : comp Error RangeSet :=
  match Ranges.insert r s with Ok s => Ok s | _ => Panic end.

(** One round of the loop over the blocks of an ACK frame. *)
Definition ack_step (block_count : Z) (st : Z * Z * RangeSet * octets)
  : round (Z * Z * RangeSet * octets) (comp Error (RangeSet * octets)) :=
  let '(i, smallest_ack, ranges, b) := st in
  if i <? block_count then
    match ('(gap, b) ← varint b;
           if smallest_ack <? 2 + gap then Err InvalidFrame
           else
             let largest_ack := (smallest_ack - gap) - 2 in
             '(ack_block, b) ← varint b;
             if largest_ack <? ack_block then Err InvalidFrame
             else
               let smallest_ack := largest_ack - ack_block in
               ranges ← insert_range (smallest_ack, largest_ack + 1) ranges;
               mret (smallest_ack, ranges, b)) with
    | Ok (smallest_ack, ranges, b) => Next (i + 1, smallest_ack, ranges, b)
    | Err e => Done (Err e)
    | Panic => Done Panic
    end
  else Done (Ok (ranges, b)).

Definition ack_blocks (block_count smallest_ack : Z) (ranges : RangeSet) : reader RangeSet := λ b,
  loop (λ st : Z * Z * RangeSet * octets, cursor_measure st.2) (ack_step block_count) (Ok (ranges, b))
    (0, smallest_ack, ranges, b).

Definition range_insert (r : Z * Z) (s : RangeSet) : reader RangeSet := λ b,
  s ← insert_range r s; mret (s, b).

Definition ecn_counts : reader EcnCounts :=
  e0 ← varint; e1 ← varint; ce ← varint;
  mret {| ect0_count := e0; ect1_count := e1; ecn_ce_count := ce |}.

(** The field of an optional part, chosen by a bit of the frame type. *)
Definition bit (ty mask : Z) : bool := negb (Z.land (as_u8 ty) mask =? 0).

Definition parse_ack_frame `{w : arch} (ty : Z) : reader Frame :=
  largest_ack ← varint;
  ack_delay ← varint;
  block_count ← varint;
  ack_block ← varint;
  if largest_ack <? ack_block then fail InvalidFrame
  else
    let smallest_ack := largest_ack - ack_block in
    ranges ← range_insert (smallest_ack, largest_ack + 1) default_set;
    ranges ← ack_blocks block_count smallest_ack ranges;
    ecn ← (if bit ty 0x01 then e ← ecn_counts; mret (Some e) else mret None);
    mret (ACK ack_delay ranges ecn).

Definition parse_stream_frame `{w : arch} (ty : Z) : reader Frame :=
  stream_id ← varint;
  offset ← (if bit ty 0x04 then varint else mret 0);
  len ← (if bit ty 0x02 then n ← varint; mret (as_usize n) else room);
  if offset + len >=? MAX_STREAM_SIZE then fail InvalidFrame
  else
    let fin := bit ty 0x01 in
    data ← vec len;
    mret (Stream stream_id (rb_from data offset fin)).

Definition parse_datagram_frame `{w : arch} (ty : Z) : reader Frame :=
  len ← (if bit ty 0x01 then n ← varint; mret (as_usize n) else room);
  data ← array len;
  mret (Datagram data).

(** The frame behind its type. *)
Definition frame_of `{w : arch} (frame_type : Z) : reader Frame :=
  match frame_type with
  | 0x00 => len ← padding; mret (Padding len)
  | 0x01 => mret (Ping None)
  | 0x02 | 0x03 => parse_ack_frame frame_type
  | 0x04 => s ← varint; e ← varint; f ← varint; mret (ResetStream s e f)
  | 0x05 => s ← varint; e ← varint; mret (StopSending s e)
  | 0x06 => offset ← varint; data ← vec_with_varint_length; mret (Crypto (rb_from data offset false))
  | 0x07 => len ← varint;
            if len =? 0 then fail InvalidFrame else token ← vec (as_usize len); mret (NewToken token)
  | 0x08 | 0x09 | 0x0a | 0x0b | 0x0c | 0x0d | 0x0e | 0x0f => parse_stream_frame frame_type
  | 0x10 => m ← varint; mret (MaxData m)
  | 0x11 => s ← varint; m ← varint; mret (MaxStreamData s m)
  | 0x12 => m ← varint; mret (MaxStreamsBidi m)
  | 0x13 => m ← varint; mret (MaxStreamsUni m)
  | 0x14 => l ← varint; mret (DataBlocked l)
  | 0x15 => s ← varint; l ← varint; mret (StreamDataBlocked s l)
  | 0x16 => l ← varint; mret (StreamsBlockedBidi l)
  | 0x17 => l ← varint; mret (StreamsBlockedUni l)
  | 0x18 => seq_num ← varint; retire_prior_to ← varint; conn_id_len ← u8_;
            if negb ((1 <=? conn_id_len) && (conn_id_len <=? MAX_CID_LEN)) then fail InvalidFrame
            else conn_id ← vec conn_id_len; reset_token ← array 16;
                 mret (NewConnectionId seq_num retire_prior_to conn_id reset_token)
  | 0x19 => s ← varint; mret (RetireConnectionId s)
  | 0x1a => d ← array 8; mret (PathChallenge d)
  | 0x1b => d ← array 8; mret (PathResponse d)
  | 0x1c => e ← varint; t ← varint; r ← vec_with_varint_length; mret (ConnectionClose e t r)
  | 0x1d => e ← varint; r ← vec_with_varint_length; mret (ApplicationClose e r)
  | 0x1e => mret HandshakeDone
  | 0x30 | 0x31 => parse_datagram_frame frame_type
  | _ => fail InvalidFrame
  end.

(** Which frames a packet may hold. *)
Definition allowed (pkt : Type_) (frame : Frame) : bool :=
  match pkt, frame with
  | _, Padding _ | _, Ping _ => true
  | ZeroRTT, ACK _ _ _ => false
  | ZeroRTT, Crypto _ => false
  | ZeroRTT, HandshakeDone => false
  | ZeroRTT, NewToken _ => false
  | ZeroRTT, PathResponse _ => false
  | ZeroRTT, RetireConnectionId _ => false
  | ZeroRTT, ConnectionClose _ _ _ => false
  | _, ACK _ _ _ => true
  | _, Crypto _ => true
  | _, ConnectionClose _ _ _ => true
  | Short, _ => true
  | ZeroRTT, _ => true
  | _, _ => false
  end.

Definition from_bytes `{w : arch} (pkt : Type_) : reader Frame :=
  frame_type ← varint;
  frame ← frame_of frame_type;
  if negb (allowed pkt frame) then fail InvalidPacket else mret frame.

(** ** Writing *)

Fixpoint w_zeros (n : nat) : writer :=
  match n with O => put_nothing | S n => w_varint 0x00 +> w_zeros n end.

(** [let x = a - b;] before the writes that use it. *)
Definition sub_then (a b : Z) (k : Z → writer) : writer := λ o,
  d ← usub a b; k d o.

(** The blocks of an ACK frame below the first. *)
Fixpoint w_blocks (smallest_ack : Z) (it : list (Z * Z)) : writer :=
  match it with
  | [] => put_nothing
  | block :: it =>
      sub_then smallest_ack block.2 (λ g, sub_then g 1 (λ gap,
      sub_then block.2 1 (λ last, sub_then last block.1 (λ ack_block,
        w_varint gap +> w_varint ack_block +> w_blocks block.1 it))))
  end.

Definition w_ack (ack_delay : Z) (ranges : RangeSet) (ecn : option EcnCounts) : writer :=
  w_varint (match ecn with None => 0x02 | Some _ => 0x03 end) +>
  match rev (iter ranges) with
  | [] => w_panic
  | first :: it =>
      sub_then first.2 1 (λ last, sub_then last first.1 (λ ack_block,
        w_varint last +> w_varint ack_delay +> w_varint (blen it) +> w_varint ack_block +>
        w_blocks first.1 it))
  end +>
  match ecn with
  | Some e => w_varint (ect0_count e) +> w_varint (ect1_count e) +> w_varint (ecn_ce_count e)
  | None => put_nothing
  end.

Definition encode_crypto_header (offset length : Z) : writer :=
  w_varint 0x06 +> w_varint offset +> w_varint_with_len length 2.

Definition encode_stream_header (stream_id offset length : Z) (fin : bool) : writer :=
  let ty := Z.lor (Z.lor 0x08 0x04) 0x02 in
  let ty := if fin then Z.lor ty 0x01 else ty in
  w_varint ty +> w_varint stream_id +> w_varint offset +> w_varint_with_len length 2.

Definition encode_dgram_header (length : Z) : writer :=
  let ty := Z.lor 0x30 0x01 in
  w_varint ty +> w_varint_with_len length 2.

(** [b.put_bytes(data)] of a range buffer. *)
Definition w_range (d : RangeBuf) : writer := λ b, c ← content d; w_bytes c b.

Definition w_frame (f : Frame) : writer :=
  match f with
  | Padding len => w_zeros (Z.to_nat len)
  | Ping _ => w_varint 0x01
  | ACK ack_delay ranges ecn => w_ack ack_delay ranges ecn
  | ResetStream s e f => w_varint 0x04 +> w_varint s +> w_varint e +> w_varint f
  | StopSending s e => w_varint 0x05 +> w_varint s +> w_varint e
  | Crypto data => encode_crypto_header (off_ data) (len_ data) +> w_range data
  | CryptoHeader _ _ => put_nothing
  | NewToken token => w_varint 0x07 +> w_varint (blen token) +> w_bytes token
  | Stream stream_id data =>
      encode_stream_header stream_id (off_ data) (len_ data) (rb_fin data) +> w_range data
  | StreamHeader _ _ _ _ => put_nothing
  | MaxData m => w_varint 0x10 +> w_varint m
  | MaxStreamData s m => w_varint 0x11 +> w_varint s +> w_varint m
  | MaxStreamsBidi m => w_varint 0x12 +> w_varint m
  | MaxStreamsUni m => w_varint 0x13 +> w_varint m
  | DataBlocked l => w_varint 0x14 +> w_varint l
  | StreamDataBlocked s l => w_varint 0x15 +> w_varint s +> w_varint l
  | StreamsBlockedBidi l => w_varint 0x16 +> w_varint l
  | StreamsBlockedUni l => w_varint 0x17 +> w_varint l
  | NewConnectionId seq_num retire_prior_to conn_id reset_token =>
      w_varint 0x18 +> w_varint seq_num +> w_varint retire_prior_to +> w_u8 (as_u8 (blen conn_id)) +>
      w_bytes conn_id +> w_bytes reset_token
  | RetireConnectionId s => w_varint 0x19 +> w_varint s
  | PathChallenge d => w_varint 0x1a +> w_bytes d
  | PathResponse d => w_varint 0x1b +> w_bytes d
  | ConnectionClose e t r => w_varint 0x1c +> w_varint e +> w_varint t +> w_varint (blen r) +> w_bytes r
  | ApplicationClose e r => w_varint 0x1d +> w_varint e +> w_varint (blen r) +> w_bytes r
  | HandshakeDone => w_varint 0x1e
  | Datagram d => encode_dgram_header (blen d) +> w_bytes d
  | DatagramHeader _ => put_nothing
  end.

(** [to_bytes]: the bytes written, and the cursor. *)
Definition to_bytes (f : Frame) (b : octets) : comp Error (Z * octets) :=
  let before := cap b in
  b ← w_frame f b;
  mret (before - cap b, b).

(** The length of a frame on the wire; a number past 2^62 has none. *)
Definition vlen (v : Z) : comp Error Z := too_short (varint_len v).

Fixpoint vlens (vs : list Z) : comp Error Z :=
  match vs with
  | [] => Ok 0
  | v :: vs => n ← vlen v; m ← vlens vs; mret (n + m)
  end.

Fixpoint blocks_len (smallest_ack : Z) (it : list (Z * Z)) : comp Error Z :=
  match it with
  | [] => Ok 0
  | block :: it =>
      g ← usub smallest_ack block.2; gap ← usub g 1;
      last ← usub block.2 1; ack_block ← usub last block.1;
      n ← vlens [gap; ack_block];
      m ← blocks_len block.1 it;
      mret (n + m)
  end.

Definition wire_len (f : Frame) : comp Error Z :=
  match f with
  | Padding len => mret len
  | Ping _ => mret 1
  | ACK ack_delay ranges ecn =>
      match rev (iter ranges) with
      | [] => Panic
      | first :: it =>
          last ← usub first.2 1; ack_block ← usub last first.1;
          n ← vlens [last; ack_delay; blen it; ack_block];
          m ← blocks_len first.1 it;
          k ← match ecn with
              | Some e => vlens [ect0_count e; ect1_count e; ecn_ce_count e]
              | None => mret 0
              end;
          mret (1 + n + m + k)
      end
  | ResetStream s e f => n ← vlens [s; e; f]; mret (1 + n)
  | StopSending s e => n ← vlens [s; e]; mret (1 + n)
  | Crypto data => n ← vlen (off_ data); mret (1 + n + 2 + len_ data)
  | CryptoHeader offset length => n ← vlen offset; mret (1 + n + 2 + length)
  | NewToken token => n ← vlen (blen token); mret (1 + n + blen token)
  | Stream s data => n ← vlens [s; off_ data]; mret (1 + n + 2 + len_ data)
  | StreamHeader s offset length _ => n ← vlens [s; offset]; mret (1 + n + 2 + length)
  | MaxData m | MaxStreamsBidi m | MaxStreamsUni m => n ← vlen m; mret (1 + n)
  | MaxStreamData s m => n ← vlens [s; m]; mret (1 + n)
  | DataBlocked l | StreamsBlockedBidi l | StreamsBlockedUni l => n ← vlen l; mret (1 + n)
  | StreamDataBlocked s l => n ← vlens [s; l]; mret (1 + n)
  | NewConnectionId s r c t => n ← vlens [s; r]; mret (1 + n + 1 + blen c + blen t)
  | RetireConnectionId s => n ← vlen s; mret (1 + n)
  | PathChallenge _ | PathResponse _ => mret (1 + 8)
  | ConnectionClose e t r => n ← vlens [e; t; blen r]; mret (1 + n + blen r)
  | ApplicationClose e r => n ← vlens [e; blen r]; mret (1 + n + blen r)
  | HandshakeDone => mret 1
  | Datagram d => mret (1 + 2 + blen d)
  | DatagramHeader length => mret (1 + 2 + length)
  end.

Definition ack_eliciting (f : Frame) : bool :=
  match f with
  | Padding _ | ACK _ _ _ | ApplicationClose _ _ | ConnectionClose _ _ _ => false
  | _ => true
  end.

Definition probing (f : Frame) : bool :=
  match f with
  | Padding _ | NewConnectionId _ _ _ _ | PathChallenge _ | PathResponse _ => true
  | _ => false
  end.

(** ** The encoding as bytes *)

(** The gaps and lengths of the blocks below [smallest]. *)
Fixpoint block_fields (smallest : Z) (it : list (Z * Z)) : list Z :=
  match it with
  | [] => []
  | (s, e) :: it => smallest - e - 1 :: e - 1 - s :: block_fields s it
  end.

Definition ack_fields (delay : Z) (it : list (Z * Z)) : list Z :=
  match it with
  | [] => []
  | (s, e) :: it => e - 1 :: delay :: blen it :: e - 1 - s :: block_fields s it
  end.

Definition ecn_fields (ecn : option EcnCounts) : list Z :=
  match ecn with Some e => [ect0_count e; ect1_count e; ecn_ce_count e] | None => [] end.

Definition vencs (vs : list Z) : bytes := concat (map varint_enc vs).

Definition frame_enc (f : Frame) : bytes :=
  match f with
  | Padding len => replicate (Z.to_nat len) 0
  | Ping _ => [0x01]
  | ACK delay r ecn =>
      (match ecn with None => 0x02 | Some _ => 0x03 end) :: vencs (ack_fields delay (rev (iter r))) ++ vencs (ecn_fields ecn)
  | ResetStream s e f => 0x04 :: vencs [s; e; f]
  | StopSending s e => 0x05 :: vencs [s; e]
  | Crypto d => 0x06 :: vencs [off_ d] ++ varint_enc2 (len_ d) ++ view d
  | NewToken t => 0x07 :: vencs [blen t] ++ t
  | Stream s d => (if rb_fin d then 0x0f else 0x0e) :: vencs [s; off_ d] ++ varint_enc2 (len_ d) ++ view d
  | MaxData m => 0x10 :: vencs [m]
  | MaxStreamData s m => 0x11 :: vencs [s; m]
  | MaxStreamsBidi m => 0x12 :: vencs [m]
  | MaxStreamsUni m => 0x13 :: vencs [m]
  | DataBlocked l => 0x14 :: vencs [l]
  | StreamDataBlocked s l => 0x15 :: vencs [s; l]
  | StreamsBlockedBidi l => 0x16 :: vencs [l]
  | StreamsBlockedUni l => 0x17 :: vencs [l]
  | NewConnectionId s r c t => 0x18 :: vencs [s; r] ++ [blen c] ++ c ++ t
  | RetireConnectionId s => 0x19 :: vencs [s]
  | PathChallenge d => 0x1a :: d
  | PathResponse d => 0x1b :: d
  | ConnectionClose e t r => 0x1c :: vencs [e; t; blen r] ++ r
  | ApplicationClose e r => 0x1d :: vencs [e; blen r] ++ r
  | HandshakeDone => [0x1e]
  | Datagram d => 0x31 :: varint_enc2 (blen d) ++ d
  | CryptoHeader _ _ | StreamHeader _ _ _ _ | DatagramHeader _ => []
  end.

(** The ranges of an ACK frame: packet numbers below 2^62. *)
Definition ranges_ok (l : list (Z * Z)) : Prop :=
  wf (-1) l ∧ Ranges.solid l ∧ l ≠ [] ∧ Forall (λ p : Z * Z, p.2 ≤ MAX_VAR_INT + 1) l.

(** A piece of a stream that goes into one frame. *)
Definition data_ok (d : RangeBuf) : Prop :=
  rb_ok d ∧ len_ d < 2 ^ 14 ∧ varint_ok (off_ d) ∧ bytes_ok (view d).

(** Frames that can be sent: numbers below 2^62, data that fits a packet, ids
    and tokens of their size.  The [..Header] frames stand for frames already
    written and are never sent as such. *)
Definition frame_ok `{w : arch} (f : Frame) : Prop :=
  match f with
  | Padding len => 1 ≤ len
  | Ping _ | HandshakeDone => True
  | ACK delay r ecn =>
      varint_ok delay ∧ ranges_ok (iter r) ∧ blen (iter r) < usize_max w ∧ Forall varint_ok (ecn_fields ecn)
  | ResetStream s e f => varint_ok s ∧ varint_ok e ∧ varint_ok f
  | StopSending s e => varint_ok s ∧ varint_ok e
  | Crypto d => data_ok d
  | NewToken t => 1 ≤ blen t < 2 ^ 32 ∧ bytes_ok t
  | Stream s d => varint_ok s ∧ data_ok d ∧ max_off_ d < MAX_STREAM_SIZE
  | MaxData m | MaxStreamsBidi m | MaxStreamsUni m => varint_ok m
  | DataBlocked l | StreamsBlockedBidi l | StreamsBlockedUni l => varint_ok l
  | MaxStreamData s m | StreamDataBlocked s m => varint_ok s ∧ varint_ok m
  | NewConnectionId s r c t =>
      varint_ok s ∧ varint_ok r ∧ 1 ≤ blen c ≤ MAX_CID_LEN ∧ blen t = 16 ∧ bytes_ok (c ++ t)
  | RetireConnectionId s => varint_ok s
  | PathChallenge d | PathResponse d => blen d = 8 ∧ bytes_ok d
  | ConnectionClose e t r => varint_ok e ∧ varint_ok t ∧ blen r < 2 ^ 32 ∧ bytes_ok r
  | ApplicationClose e r => varint_ok e ∧ blen r < 2 ^ 32 ∧ bytes_ok r
  | Datagram d => blen d < 2 ^ 14 ∧ bytes_ok d
  | CryptoHeader _ _ | StreamHeader _ _ _ _ | DatagramHeader _ => False
  end.

(** What a frame that arrives is, of the one that was sent. *)
Definition means (f g : Frame) : Prop :=
  match f with
  | Ping _ => g = Ping None
  | ACK delay r ecn => ∃ r', g = ACK delay r' ecn ∧ iter r' = iter r
  | Crypto d => g = Crypto (rb_from (view d) (off_ d) false)
  | Stream s d => g = Stream s (rb_from (view d) (off_ d) (rb_fin d))
  | _ => g = f
  end.

Lemma varint_small v : 0 ≤ v ≤ 63 → varint_enc v = [v].
Proof.
  intros Hv. unfold varint_enc. destruct (Z.leb_spec v 63); [|lia]. rewrite tagged_0. cbn [be_bytes].
  change (8 * Z.of_nat 0) with 0. rewrite Z.shiftr_0_r, land_255. by rewrite Z.mod_small by lia.
Qed.

Lemma writes_type v : 0 ≤ v ≤ 63 → writes (w_varint v) [v].
Proof. intros Hv. rewrite <- varint_small by done. apply writes_varint. unfold varint_ok, MAX_VAR_INT. lia. Qed.

Lemma writes_type_and v m s : 0 ≤ v ≤ 63 → writes m s → writes (w_varint v +> m) (v :: s).
Proof. intros Hv Hm. apply (writes_and _ _ [v]); [by apply writes_type|done]. Qed.

Lemma vencs_cons v vs : vencs (v :: vs) = varint_enc v ++ vencs vs.
Proof. done. Qed.

Lemma vencs_app a b : vencs (a ++ b) = vencs a ++ vencs b.
Proof. unfold vencs. by rewrite map_app, concat_app. Qed.

Lemma spells_cat {A B} (m : reader A) (f : A → reader B) s t u a x :
  spells m s a → u = s ++ t → spells (f a) t x → spells (m ≫= f) u x.
Proof. intros ? -> ?. by eapply spells_bind. Qed.

Lemma spells_field {B} (f : Z → reader B) v vs t x :
  varint_ok v → spells (f v) (vencs vs ++ t) x → spells (varint ≫= f) (vencs (v :: vs) ++ t) x.
Proof.
  intros Hv Hf. eapply spells_cat; [by apply spells_varint| |exact Hf]. by rewrite vencs_cons, <- app_assoc.
Qed.

Lemma writes_field v vs m t : varint_ok v → writes m (vencs vs ++ t) → writes (w_varint v +> m) (vencs (v :: vs) ++ t).
Proof.
  intros Hv Hm. rewrite vencs_cons, <- app_assoc. apply writes_and; [by apply writes_varint|done].
Qed.

Lemma writes_final_field v m t : varint_ok v → writes m t → writes (w_varint v +> m) (vencs [v] ++ t).
Proof. intros Hv Hm. by apply (writes_field v []). Qed.

Lemma writes_last v t : varint_ok v → t = [] → writes (w_varint v) (vencs [v] ++ t).
Proof. intros Hv ->. unfold vencs. cbn. rewrite !app_nil_r. by apply writes_varint. Qed.

(** ** Writing gives the encoding *)

(** Blocks from the highest down, below [hi] and apart. *)
Fixpoint desc (hi : Z) (it : list (Z * Z)) : Prop :=
  match it with
  | [] => True
  | (s, e) :: r => 0 ≤ s ∧ s < e ∧ e < hi ∧ desc s r
  end.

Lemma wf_desc l : ∀ m, wf (-1) l → Ranges.solid l → Forall (λ p : Z * Z, p.2 < m) l → desc m (rev l).
Proof.
  induction l as [|[s e] l IH] using rev_ind; intros m Hw Hs Hm; [done|].
  rewrite rev_app_distr. cbn [rev app desc]. apply wf_app in Hw as (Hw & lo & Hlo & Hf & Hlast).
  unfold Ranges.solid in *. rewrite Forall_app in Hs, Hm. destruct Hs as [Hs Hse], Hm as [Hm He].
  apply Forall_cons in Hse as [Hse _]. apply Forall_cons in He as [He _]. cbn in *. split_and!; [lia..|].
  apply IH; [done|done|]. eapply Forall_impl; [exact Hf|]. cbn. intros p ?. lia.
Qed.

Lemma writes_sub a b k s : b ≤ a → writes (k (a - b)) s → writes (sub_then a b k) s.
Proof.
  intros Hle Hk b0 p z Hb Hz. unfold sub_then, usub. destruct (Z.leb_spec b a); [|lia]. cbn. by apply Hk.
Qed.

Lemma varint_ok_le v m : 0 ≤ v ≤ m → m ≤ MAX_VAR_INT → varint_ok v.
Proof. unfold varint_ok. lia. Qed.

Lemma writes_blocks it : ∀ hi, hi ≤ MAX_VAR_INT → desc hi it → writes (w_blocks hi it) (vencs (block_fields hi it)).
Proof.
  induction it as [|[s e] it IH]; intros hi Hhi; cbn [desc w_blocks block_fields fst snd]; [intros _; apply writes_nothing|].
  intros (? & ? & ? & Hd). apply writes_sub; [lia|]. apply writes_sub; [lia|]. apply writes_sub; [lia|].
  apply writes_sub; [lia|]. rewrite !vencs_cons. repeat apply writes_and; [apply writes_varint..|].
  - apply (varint_ok_le _ hi); lia.
  - apply (varint_ok_le _ hi); lia.
  - apply IH; [lia|done].
Qed.

Lemma writes_ecn ecn : Forall varint_ok (ecn_fields ecn) →
  writes (match ecn with
          | Some e => w_varint (ect0_count e) +> w_varint (ect1_count e) +> w_varint (ecn_ce_count e)
          | None => put_nothing
          end) (vencs (ecn_fields ecn)).
Proof.
  destruct ecn as [e|]; cbn [ecn_fields]; [|intros _; apply writes_nothing].
  intros H. rewrite !Forall_cons in H. destruct H as (? & ? & ? & _). rewrite !vencs_cons.
  change (vencs []) with (@nil Z). rewrite app_nil_r. repeat apply writes_and; by apply writes_varint.
Qed.

Lemma blen_desc it : ∀ hi, desc hi it → it ≠ [] → blen it < hi.
Proof.
  induction it as [|[s e] it IH]; intros hi; cbn [desc]; [done|]. intros (? & ? & ? & Hd) _. rewrite blen_cons.
  destruct it; [rewrite blen_nil; lia|]. specialize (IH _ Hd ltac:(done)). lia.
Qed.

Lemma ranges_desc l : ranges_ok l → ∃ s e it, rev l = (s, e) :: it ∧ 0 ≤ s ∧ s < e ∧ e ≤ MAX_VAR_INT + 1 ∧ desc s it ∧
  blen it ≤ MAX_VAR_INT.
Proof.
  intros (Hw & Hs & Hne & Hm). pose proof (wf_desc l (MAX_VAR_INT + 2) Hw Hs) as Hd.
  destruct (rev l) as [|[s e] it] eqn:E.
  { destruct Hne. apply (f_equal (@rev _)) in E. by rewrite rev_involutive in E. }
  exists s, e, it. assert (Hm' : Forall (λ p : Z * Z, p.2 < MAX_VAR_INT + 2) l).
  { eapply Forall_impl; [exact Hm|]. cbn. intros p ?. lia. }
  specialize (Hd Hm'). cbn [desc] in Hd. destruct Hd as (? & ? & ? & Hd). split_and!; [done|lia..|done|].
  destruct it; [rewrite blen_nil; unfold MAX_VAR_INT; lia|]. pose proof (blen_desc _ _ Hd ltac:(done)). lia.
Qed.

Lemma writes_ack `{w : arch} delay r ecn : frame_ok (ACK delay r ecn) → writes (w_ack delay r ecn) (frame_enc (ACK delay r ecn)).
Proof.
  intros (Hd & Hr & _ & He). destruct (ranges_desc _ Hr) as (s & e & it & E & ? & ? & ? & Hit & Hb).
  cbn [frame_enc]. unfold w_ack. rewrite E. cbn [fst snd ack_fields].
  apply writes_type_and; [destruct ecn; lia|]. apply writes_and; [|by apply writes_ecn].
  apply writes_sub; [lia|]. apply writes_sub; [lia|]. rewrite !vencs_cons.
  repeat apply writes_and; [apply writes_varint..|].
  - unfold varint_ok. lia.
  - done.
  - split; [blia|done].
  - unfold varint_ok. lia.
  - apply writes_blocks; [lia|done].
Qed.

Lemma writes_range d : rb_ok d → writes (w_range d) (view d).
Proof.
  intros Hd b p z Hb Hz. unfold w_range. destruct (content_view d Hd) as [-> _]. cbn. by apply writes_bytes.
Qed.

Lemma data_ok_len d : data_ok d → 0 ≤ len_ d < 2 ^ 14 ∧ blen (view d) = len_ d.
Proof.
  intros (Hok & Hl & _ & _). destruct (content_view d Hok) as [_ Hv]. pose proof (blen_nonneg (view d)). lia.
Qed.

Lemma writes_zeros n : writes (w_zeros n) (replicate n 0).
Proof.
  induction n as [|n IH]; cbn [w_zeros replicate]; [apply writes_nothing|]. by apply writes_type_and.
Qed.

Lemma vencs_nil_r vs : vencs vs = vencs vs ++ [].
Proof. by rewrite app_nil_r. Qed.

Lemma varint_ok_blen {A} (l : list A) : blen l < 2 ^ 32 → varint_ok (blen l).
Proof. intros. split; [blia|unfold MAX_VAR_INT; lia]. Qed.

(** One field after the other. *)
Ltac write_fields :=
  first [apply writes_type_and; [lia|]|idtac];
  repeat first [apply writes_final_field; [done|] | apply writes_field; [done|] | apply writes_last; [done|done]
               | apply writes_and | solve [eauto with wire]].

Lemma writes_crypto_header o n : varint_ok o → 0 ≤ n < 2 ^ 14 →
  writes (encode_crypto_header o n) (0x06 :: vencs [o] ++ varint_enc2 n).
Proof. intros. unfold encode_crypto_header. write_fields. Qed.

Lemma writes_stream_header s o n (fin : bool) : varint_ok s → varint_ok o → 0 ≤ n < 2 ^ 14 →
  writes (encode_stream_header s o n fin) ((if fin then 0x0f else 0x0e) :: vencs [s; o] ++ varint_enc2 n).
Proof. intros. unfold encode_stream_header. destruct fin; cbn [Z.lor Pos.lor]; write_fields. Qed.

Lemma writes_dgram_header n : 0 ≤ n < 2 ^ 14 → writes (encode_dgram_header n) (0x31 :: varint_enc2 n).
Proof. intros. unfold encode_dgram_header. cbn [Z.lor Pos.lor]. write_fields. Qed.

Lemma writes_then m n s t u : writes m s → writes n t → u = s ++ t → writes (m +> n) u.
Proof. intros ? ? ->. by apply writes_and. Qed.

Lemma frame_writes `{w : arch} f : frame_ok f → writes (w_frame f) (frame_enc f).
Proof.
  destruct f as [| | | | |d| | |st d| | | | | | | | | |sq rp c t| | | | | | |d|]; cbn [frame_ok w_frame frame_enc];
    intros Hf; try done; try (destruct_and? Hf; rewrite vencs_nil_r; write_fields; fail).
  - apply writes_zeros.
  - by apply writes_type.
  - by apply (writes_ack (w := w)).
  - pose proof (data_ok_len _ Hf) as [? _]. destruct Hf as (? & ? & ? & _).
    eapply writes_then; [by apply writes_crypto_header|by apply writes_range|]. cbn [app]. by rewrite <- app_assoc.
  - destruct Hf as [? _]. pose proof (varint_ok_blen token ltac:(lia)). write_fields.
  - destruct Hf as (? & Hd & _). pose proof (data_ok_len _ Hd) as [? _]. destruct Hd as (? & ? & ? & _).
    eapply writes_then; [by apply writes_stream_header|by apply writes_range|]. cbn [app]. by rewrite <- app_assoc.
  - destruct Hf as (? & ? & Hc & ? & _). unfold MAX_CID_LEN in Hc.
    assert (Hu : u8 (blen c)) by (unfold u8; lia). unfold as_u8. rewrite Z.mod_small by (unfold u8 in Hu; lia).
    write_fields.
  - destruct Hf. write_fields.
  - destruct Hf. write_fields.
  - destruct Hf as (? & ? & ? & _). pose proof (varint_ok_blen reason ltac:(done)). write_fields.
  - destruct Hf as (? & ? & _). pose proof (varint_ok_blen reason ltac:(done)). write_fields.
  - by apply writes_type.
  - destruct Hf as [? _]. eapply writes_then; [apply writes_dgram_header; blia|apply writes_bytes|done].
Qed.

(** ** The length announced *)

Lemma vlen_ok v : varint_ok v → vlen v = Ok (blen (vencs [v])).
Proof. intros Hv. unfold vlen. rewrite (blen_varint_enc v Hv). unfold vencs. cbn. by rewrite app_nil_r. Qed.

Ltac fields_ok := repeat apply Forall_cons_2; try apply Forall_nil_2; try done; try (by apply varint_ok_blen).

Lemma vlens_ok vs : Forall varint_ok vs → vlens vs = Ok (blen (vencs vs)).
Proof.
  induction 1 as [|v vs Hv _ IH]; [done|]. cbn [vlens]. rewrite vlen_ok, IH by done. cbn [mbind comp_bind].
  change (mret ?x) with (Ok x : comp Error Z). f_equal. rewrite !vencs_cons. change (vencs []) with (@nil Z). blia.
Qed.

Lemma blocks_len_ok it : ∀ hi, hi ≤ MAX_VAR_INT → desc hi it → blocks_len hi it = Ok (blen (vencs (block_fields hi it))).
Proof.
  induction it as [|[s e] it IH]; intros hi Hhi; cbn [desc blocks_len block_fields fst snd]; [done|].
  intros (? & ? & ? & Hd). do 2 (rewrite usub_ok by lia; cbn [mbind comp_bind]).
  do 2 (rewrite usub_ok by lia; cbn [mbind comp_bind]).
  rewrite vlens_ok by (fields_ok; unfold varint_ok; lia). cbn [mbind comp_bind].
  rewrite IH by (done || lia). cbn [mbind comp_bind].
  change (mret ?x) with (Ok x : comp Error Z). f_equal. rewrite !vencs_cons. change (vencs []) with (@nil Z). blia.
Qed.

Lemma blen_varint_enc2 v : blen (varint_enc2 v) = 2.
Proof. done. Qed.

Ltac len_done := change (mret ?x) with (Ok x : comp Error Z); f_equal; rewrite ?blen_cons, ?blen_app, ?blen_varint_enc2; blia.

Lemma wire_len_ok `{w : arch} f : frame_ok f → wire_len f = Ok (blen (frame_enc f)).
Proof.
  destruct f as [| | delay r ecn| | |d| | |st d| | | | | | | | | |sq rp c t| | | | | | |d|];
    cbn [frame_ok wire_len frame_enc]; intros Hf; try done;
    try (destruct_and? Hf; first [rewrite vlen_ok by done|rewrite vlens_ok by fields_ok];
         cbn [mbind comp_bind]; rewrite blen_cons; done).
  - rewrite blen_replicate. f_equal. lia.
  - destruct Hf as (Hd & Hr & _ & He). destruct (ranges_desc _ Hr) as (s & e & it & E & ? & ? & ? & Hit & Hb). rewrite E.
    cbn [fst snd ack_fields]. do 2 (rewrite usub_ok by lia; cbn [mbind comp_bind]).
    pose proof (blen_nonneg it). rewrite vlens_ok by (fields_ok; unfold varint_ok in *; lia).
    cbn [mbind comp_bind]. rewrite blocks_len_ok by (done || lia). cbn [mbind comp_bind].
    assert (Ee : match ecn with Some e => vlens [ect0_count e; ect1_count e; ecn_ce_count e] | None => mret 0 end
      = Ok (blen (vencs (ecn_fields ecn)))) by (destruct ecn; [by apply vlens_ok|done]).
    rewrite Ee. cbn [mbind comp_bind]. change (mret ?x) with (Ok x : comp Error Z). f_equal. rewrite blen_cons, blen_app, !vencs_cons.
    change (vencs []) with (@nil Z). blia.
  - pose proof (data_ok_len _ Hf) as [? Hl]. destruct Hf as (? & ? & ? & _). rewrite vlen_ok by done. cbn [mbind comp_bind].
    len_done.
  - destruct Hf as [? _]. rewrite vlen_ok by (apply varint_ok_blen; lia). cbn [mbind comp_bind]. len_done.
  - destruct Hf as (? & Hd & _). pose proof (data_ok_len _ Hd) as [? Hl]. destruct Hd as (? & ? & ? & _).
    rewrite vlens_ok by fields_ok. cbn [mbind comp_bind]. len_done.
  - destruct Hf as (? & ? & ? & Ht & _). rewrite vlens_ok by fields_ok. cbn [mbind comp_bind]. len_done.
  - destruct Hf as [Hl _]. len_done.
  - destruct Hf as [Hl _]. len_done.
  - destruct Hf as (? & ? & ? & _). rewrite vlens_ok by fields_ok. cbn [mbind comp_bind]. len_done.
  - destruct Hf as (? & ? & _). rewrite vlens_ok by fields_ok. cbn [mbind comp_bind]. len_done.
  - destruct Hf as [? _]. len_done.
Qed.

(** ** Parsing gives the frame back *)

Lemma u8_takes b v b' : u8_ b = Ok (v, b') → buf b' = buf b ∧ Octets.off b < Octets.off b' ≤ blen (buf b).
Proof.
  unfold u8_, get_u8, get_u, peek_u, as_ref, index_range.
  destruct (slice (buf b) (Octets.off b) (blen (buf b))) as [s|] eqn:Es; cbn; [|done].
  destruct (Z.ltb_spec (blen s) 1); cbn; [done|]. intros [= <- <-]. cbn.
  apply slice_Some in Es as (? & ? & ? & ?). split; [done|lia].
Qed.

Lemma takes_less b b' : buf b' = buf b → Octets.off b < Octets.off b' ≤ blen (buf b) →
  (cursor_measure b' < cursor_measure b)%nat.
Proof. intros E H. unfold cursor_measure, cap. rewrite E. lia. Qed.

#[export] Instance padding_decreasing : Decreasing (λ st : Z * octets, cursor_measure st.2) padding_step.
Proof.
  intros [len b] st. unfold padding_step. destruct (peek_u8 b) as [[| |]|[]|]; try done.
  destruct (u8_ b) as [[v b']|e|] eqn:E; try done. intros [= <-]. cbn.
  apply u8_takes in E as [? ?]. by apply takes_less.
Qed.

(** What may follow padding: not another zero byte. *)
Definition no_zero (r : bytes) : Prop := match r with 0 :: _ => False | _ => True end.

Lemma padding_loop n : ∀ b r len d, reads b (replicate n 0 ++ r) → no_zero r →
  ∃ b', loop (λ st : Z * octets, cursor_measure st.2) padding_step d (len, b) = Ok (len + Z.of_nat n, b') ∧
    reads b' r ∧ buf b' = buf b ∧ Octets.off b' = Octets.off b + Z.of_nat n.
Proof.
  induction n as [|n IH]; intros b r len d Hb Hz; rewrite loop_unfold by apply _; unfold padding_step at 1; cbn [replicate app] in Hb.
  - exists b. rewrite Z.add_0_r. split_and!; [|done|done|lia]. destruct r as [|x r].
    + unfold peek_u8. rewrite (peek_u_short 1 b []); [done..|by rewrite blen_nil].
    + unfold peek_u8. rewrite (peek_u_reads 1 b [x] r), be_val_1 by done. by destruct x.
  - unfold peek_u8. rewrite (peek_u_reads 1 b [0] _ Hb eq_refl), be_val_1.
    destruct (spells_u8 0 ltac:(unfold u8; lia) b _ Hb) as (b1 & E & Hb1 & Hu1 & Ho1). rewrite E.
    destruct (IH b1 r (len + 1) d Hb1 Hz) as (b2 & E2 & Hb2 & Hu2 & Ho2). exists b2. rewrite E2.
    change (blen [0]) with 1 in Ho1. split_and!; [do 2 f_equal; lia|done|congruence|lia].
Qed.

#[export] Instance ack_decreasing n : Decreasing (λ st : Z * Z * RangeSet * octets, cursor_measure st.2) (ack_step n).
Proof.
  intros [[[i sm] rs] b] st. unfold ack_step. destruct (i <? n); [|done].
  destruct (varint b) as [[gap b1]|e|] eqn:E1; cbn [mbind comp_bind]; [|done..]. destruct (_ <? _); [done|].
  destruct (varint b1) as [[blk b2]|e|] eqn:E2; cbn [mbind comp_bind]; [|done..]. destruct (_ <? _); [done|].
  destruct (insert_range _ rs) as [rs'|e|]; cbn; [|done..]. intros [= <-]. cbn.
  apply varint_takes in E1 as [Hu1 Ho1], E2 as [Hu2 Ho2]. apply takes_less; [congruence|]. rewrite Hu1 in Ho2. lia.
Qed.

(** A range below all others goes to their front. *)
Lemma insert_below s e rs : set_ok rs → 0 ≤ s → s < e → wf e (iter rs) → Ranges.len rs < capacity_of rs →
  ∃ rs', insert_range (s, e) rs = Ok rs' ∧ set_ok rs' ∧ capacity_of rs' = capacity_of rs ∧ iter rs' = (s, e) :: iter rs.
Proof.
  intros Hok Hs Hse Hw Hr. destruct (insert_spec (s, e) rs Hok ltac:(cbn; lia)) as (rs' & E & Hok' & Hc & Hi & _).
  exists rs'. unfold insert_range. rewrite E. split_and!; [done..|]. cbn in Hi.
  rewrite Hi, ref_insert_room by done. by apply add_below; [lia|].
Qed.

(** The blocks below [smallest], with the ranges read so far in [rs]. *)
Lemma ack_loop d count : ∀ it i smallest rs b r,
  hd_error (map fst (iter rs)) = Some smallest → set_ok rs → smallest ≤ MAX_VAR_INT → desc smallest it →
  i + blen it = count → 0 ≤ i → blen it + Ranges.len rs < capacity_of rs →
  reads b (vencs (block_fields smallest it) ++ r) →
  ∃ rs' b', loop (λ st : Z * Z * RangeSet * octets, cursor_measure st.2) (ack_step count) d (i, smallest, rs, b) = Ok (rs', b') ∧
    iter rs' = rev it ++ iter rs ∧ reads b' r ∧ buf b' = buf b ∧
    Octets.off b' = Octets.off b + blen (vencs (block_fields smallest it)).
Proof.
  induction it as [|[s e] it IH]; intros i smallest rs b r Hhd Hok Hsm Hd Hi Hi0 Hroom Hb;
    rewrite loop_unfold by apply _; unfold ack_step at 1; cbn [block_fields desc] in *.
  - rewrite blen_nil in Hi. destruct (Z.ltb_spec i count); [lia|]. exists rs, b.
    split_and!; [done..|]. change (vencs []) with (@nil Z). rewrite blen_nil. lia.
  - destruct Hd as (? & ? & ? & Hd). rewrite blen_cons in *. pose proof (blen_nonneg it).
    destruct (Z.ltb_spec i count); [|lia]. rewrite !vencs_cons, <- !app_assoc in Hb.
    destruct (spells_varint (smallest - e - 1) ltac:(unfold varint_ok; lia) b _ Hb) as (b1 & E1 & Hb1 & Hu1 & Ho1).
    destruct (spells_varint (e - 1 - s) ltac:(unfold varint_ok; lia) b1 _ Hb1) as (b2 & E2 & Hb2 & Hu2 & Ho2).
    rewrite E1. cbn [mbind comp_bind]. destruct (Z.ltb_spec smallest (2 + (smallest - e - 1))); [lia|].
    rewrite E2. cbn [mbind comp_bind]. destruct (Z.ltb_spec (smallest - (smallest - e - 1) - 2) (e - 1 - s)); [lia|].
    replace (smallest - (smallest - e - 1) - 2 - (e - 1 - s)) with s by lia.
    replace (smallest - (smallest - e - 1) - 2 + 1) with e by lia.
    assert (Hw : wf e (iter rs)).
    { destruct (iter rs) as [|[s0 e0] l] eqn:El; [done|]. cbn in Hhd. injection Hhd as ->.
      destruct Hok as (Hw & _). rewrite El in Hw. cbn in Hw |- *. split_and!; [lia|apply Hw..]. }
    destruct (insert_below s e rs Hok ltac:(lia) ltac:(lia) Hw ltac:(lia)) as (rs' & Ei & Hok' & Hc' & Hi').
    rewrite Ei. cbn [mbind comp_bind mret comp_ret].
    destruct (IH (i + 1) s rs' b2 r) as (rs2 & b3 & E3 & Hi3 & Hb3 & Hu3 & Ho3); try (done || lia).
    + by rewrite Hi'.
    + unfold Ranges.len in *. rewrite Hi', Hc', blen_cons. lia.
    + exists rs2, b3. rewrite E3. split_and!; [done| |done|congruence|].
      * rewrite Hi3, Hi'. cbn [rev]. by rewrite <- app_assoc.
      * rewrite Ho3, Ho2, Ho1, !vencs_cons. blia.
Qed.

(** A reader whose value is known up to [P]. *)
Definition gives {A} (m : reader A) (s : bytes) (P : A → Prop) : Prop :=
  ∀ b r, reads b (s ++ r) →
    ∃ a b', m b = Ok (a, b') ∧ P a ∧ reads b' r ∧ buf b' = buf b ∧ Octets.off b' = Octets.off b + blen s.

Lemma spells_gives {A} (m : reader A) s a (P : A → Prop) : spells m s a → P a → gives m s P.
Proof. intros Hm Ha b r Hb. destruct (Hm b r Hb) as (b' & ? & ? & ? & ?). by exists a, b'. Qed.

Lemma gives_bind {A B} (m : reader A) (f : A → reader B) s t P Q :
  gives m s P → (∀ a, P a → gives (f a) t Q) → gives (m ≫= f) (s ++ t) Q.
Proof.
  intros Hm Hf b r Hb. rewrite <- app_assoc in Hb. destruct (Hm b _ Hb) as (a & b1 & E & Ha & Hb1 & Hu & Ho).
  destruct (Hf a Ha b1 r Hb1) as (x & b2 & E2 & Hx & Hb2 & Hu2 & Ho2). exists x, b2.
  unfold mbind, reader_bind. rewrite E. split_and!; [done|done|done|congruence|blia].
Qed.

Lemma gives_field {B} (f : Z → reader B) v vs t Q :
  varint_ok v → gives (f v) (vencs vs ++ t) Q → gives (varint ≫= f) (vencs (v :: vs) ++ t) Q.
Proof.
  intros Hv Hf. rewrite vencs_cons, <- app_assoc. eapply gives_bind; [by eapply spells_gives, eq_refl; apply spells_varint|].
  by intros a <-.
Qed.

Lemma gives_first_range `{w : arch} s e : 0 ≤ s → s < e →
  gives (range_insert (s, e) default_set) [] (λ rs, set_ok rs ∧ capacity_of rs = usize_max w ∧ iter rs = [(s, e)]).
Proof.
  intros Hs Hse b r Hb. assert (Hmax : 4 ≤ usize_max w) by (destruct w; vm_compute; congruence).
  assert (Hok : set_ok default_set).
  { unfold set_ok, Ranges.len, default_set. cbn [iter capacity_of]. rewrite blen_nil. split_and!; (done || lia). }
  destruct (insert_below s e default_set Hok Hs Hse) as (rs & E & Hok' & Hc & Hi); [done|unfold Ranges.len; cbn [iter default_set capacity_of]; rewrite blen_nil; lia|].
  exists rs, b. unfold range_insert. rewrite E. rewrite blen_nil, Z.add_0_r. by split_and!.
Qed.

Lemma gives_ack_blocks it smallest rs :
  hd_error (map fst (iter rs)) = Some smallest → set_ok rs → smallest ≤ MAX_VAR_INT → desc smallest it →
  blen it + Ranges.len rs < capacity_of rs →
  gives (ack_blocks (blen it) smallest rs) (vencs (block_fields smallest it)) (λ rs', iter rs' = rev it ++ iter rs).
Proof.
  intros Hhd Hok Hsm Hd Hroom b r Hb. unfold ack_blocks.
  destruct (ack_loop (Ok (rs, b)) (blen it) it 0 smallest rs b r) as (rs' & b' & E & H); try (done || lia).
  by exists rs', b'.
Qed.

Lemma gives_ecn (ecn : option EcnCounts) ty : Forall varint_ok (ecn_fields ecn) →
  bit ty 0x01 = match ecn with Some _ => true | None => false end →
  gives (if bit ty 0x01 then e ← ecn_counts; mret (Some e) else mret None) (vencs (ecn_fields ecn)) (eq ecn).
Proof.
  intros Hf ->. destruct ecn as [[e0 e1 ce]|]; cbn [ecn_fields ect0_count ect1_count ecn_ce_count] in *.
  - rewrite !Forall_cons in Hf. destruct Hf as (? & ? & ? & _). rewrite vencs_nil_r. eapply spells_gives, eq_refl.
    rewrite <- (app_nil_r (vencs _)), <- app_assoc. apply (spells_bind _ _ (vencs [e0; e1; ce]) _ {| ect0_count := e0; ect1_count := e1; ecn_ce_count := ce |});
      [|apply spells_ret].
    rewrite vencs_nil_r. unfold ecn_counts. do 3 (apply spells_field; [done|]). apply spells_ret.
  - by eapply spells_gives, eq_refl; apply spells_ret.
Qed.

Lemma gives_ack `{w : arch} delay r ecn :
  let ty := match ecn with None => 0x02 | Some _ => 0x03 end in
  frame_ok (ACK delay r ecn) →
  gives (parse_ack_frame ty) (vencs (ack_fields delay (rev (iter r))) ++ vencs (ecn_fields ecn)) (means (ACK delay r ecn)).
Proof.
  intros ty (Hdel & Hr & Hlen & He). destruct (ranges_desc _ Hr) as (s & e & it & E & ? & ? & ? & Hit & Hb). rewrite E.
  cbn [ack_fields]. unfold parse_ack_frame. pose proof (blen_nonneg it).
  assert (Hl : blen (iter r) = 1 + blen it) by (rewrite <- (blen_cons (s, e)), <- E; unfold blen; by rewrite length_rev).
  apply gives_field; [unfold varint_ok; lia|]. apply gives_field; [done|]. apply gives_field; [done|].
  apply gives_field; [unfold varint_ok; lia|]. destruct (Z.ltb_spec (e - 1) (e - 1 - s)); [lia|].
  replace (e - 1 - (e - 1 - s)) with s by lia. replace (e - 1 + 1) with e by lia.
  apply (gives_bind _ _ [] _ _ _ (gives_first_range s e ltac:(lia) ltac:(lia))).
  intros rs (Hok & Hc & Hi). eapply gives_bind.
  { apply gives_ack_blocks; [by rewrite Hi|done|lia|done|]. unfold Ranges.len. rewrite Hi, Hc, blen_cons, blen_nil. lia. }
  intros rs' Hi'. rewrite <- (app_nil_r (vencs _)). eapply gives_bind.
  { apply gives_ecn; [done|]. by destruct ecn. }
  intros ecn' <-. eapply spells_gives; [apply spells_ret|]. exists rs'. split; [done|].
  rewrite Hi', Hi. change (rev it ++ [(s, e)]) with (rev ((s, e) :: it)). by rewrite <- E, rev_involutive.
Qed.

Lemma spells_final_field {B} (f : Z → reader B) v t x : varint_ok v → spells (f v) t x → spells (varint ≫= f) (vencs [v] ++ t) x.
Proof. intros Hv Hf. by apply (spells_field f v []). Qed.

(** Data behind its two-byte length. *)
Lemma spells_vec2 `{w : arch} s : blen s < 2 ^ 14 → spells vec_with_varint_length (varint_enc2 (blen s) ++ s) s.
Proof.
  intros Hs b r Hb. rewrite <- app_assoc in Hb. pose proof (blen_nonneg s).
  destruct (spells_varint2 (blen s) ltac:(lia) b _ Hb) as (b1 & E1 & Hb1 & Hu1 & Ho1).
  destruct (spells_vec s b1 r Hb1) as (b2 & E2 & Hb2 & Hu2 & Ho2). exists b2.
  unfold vec_with_varint_length, get_bytes_with_varint_length. unfold varint in E1.
  destruct (get_varint b) as [[v c]|[]|]; cbn in E1; [|done..]. injection E1 as -> ->. cbn [mbind comp_bind].
  rewrite as_usize_small by lia. unfold vec in E2. destruct (get_bytes (blen s) b1) as [[o c]|[]|]; [|done..].
  cbn [too_short map_err mbind comp_bind] in *. rewrite E2. split_and!; [done|done|congruence|blia].
Qed.

Lemma spells_end {A B} (m : reader A) (f : A → reader B) s a x : spells m s a → spells (f a) [] x → spells (m ≫= f) s x.
Proof. intros Hm Hf. rewrite <- (app_nil_r s). by eapply spells_bind. Qed.

Lemma spells_crypto `{w : arch} d : data_ok d →
  spells (frame_of 0x06) (vencs [off_ d] ++ varint_enc2 (len_ d) ++ view d) (Crypto (rb_from (view d) (off_ d) false)).
Proof.
  intros Hd. pose proof (data_ok_len _ Hd) as [? Hl]. destruct Hd as (_ & _ & Ho & _). cbn [frame_of].
  apply spells_final_field; [done|]. rewrite <- Hl. eapply spells_end; [apply spells_vec2; lia|apply spells_ret].
Qed.

Lemma spells_stream `{w : arch} s d : varint_ok s → data_ok d → max_off_ d < MAX_STREAM_SIZE →
  spells (frame_of (if rb_fin d then 0x0f else 0x0e)) (vencs [s; off_ d] ++ varint_enc2 (len_ d) ++ view d)
    (Stream s (rb_from (view d) (off_ d) (rb_fin d))).
Proof.
  intros Hs Hd Hm. pose proof (data_ok_len _ Hd) as [? Hl]. destruct Hd as (Hok & _ & Ho & _).
  assert (E : frame_of (if rb_fin d then 0x0f else 0x0e) = parse_stream_frame (if rb_fin d then 0x0f else 0x0e))
    by (by destruct (rb_fin d)).
  rewrite E. unfold parse_stream_frame.
  assert (Eb : bit (if rb_fin d then 0x0f else 0x0e) 0x04 = true ∧ bit (if rb_fin d then 0x0f else 0x0e) 0x02 = true ∧
    bit (if rb_fin d then 0x0f else 0x0e) 0x01 = rb_fin d) by (by destruct (rb_fin d)).
  destruct Eb as (-> & -> & ->). apply spells_field; [done|]. apply spells_final_field; [done|].
  apply (spells_bind _ _ _ _ (len_ d)).
  - eapply spells_end; [by apply spells_varint2|]. rewrite as_usize_small by lia. apply spells_ret.
  - unfold max_off_ in Hm. destruct (off_ d + len_ d >=? MAX_STREAM_SIZE) eqn:Eg; [lia|].
    rewrite <- Hl. eapply spells_end; [apply spells_vec|apply spells_ret].
Qed.

Lemma spells_ids `{w : arch} sq rp c t : frame_ok (NewConnectionId sq rp c t) →
  spells (frame_of 0x18) (vencs [sq; rp] ++ [blen c] ++ c ++ t) (NewConnectionId sq rp c t).
Proof.
  intros (? & ? & Hc & Ht & _). unfold MAX_CID_LEN in Hc. cbn [frame_of]. apply spells_field; [done|]. apply spells_final_field; [done|].
  eapply spells_bind; [apply spells_u8; unfold u8; lia|]. unfold MAX_CID_LEN.
  destruct (_ && _) eqn:E; [|lia]. cbn [negb]. eapply spells_bind; [apply spells_vec|].
  rewrite <- Ht. eapply spells_end; [apply spells_array|apply spells_ret].
Qed.

Lemma spells_reason `{w : arch} {A} (f : bytes → reader A) r x : blen r < 2 ^ 32 → spells (f r) [] x →
  spells (vec_with_varint_length ≫= f) (vencs [blen r] ++ r) x.
Proof.
  intros Hr Hf. unfold vencs. cbn [map concat]. rewrite app_nil_r.
  eapply spells_end; [by apply spells_vec_with_varint_length|done].
Qed.

Lemma spells_token `{w : arch} t : 1 ≤ blen t < 2 ^ 32 → spells (frame_of 0x07) (vencs [blen t] ++ t) (NewToken t).
Proof.
  intros Ht. cbn [frame_of]. apply spells_final_field; [apply varint_ok_blen; lia|].
  destruct (Z.eqb_spec (blen t) 0); [lia|]. rewrite as_usize_small by lia.
  eapply spells_end; [apply spells_vec|apply spells_ret].
Qed.

Lemma spells_datagram `{w : arch} d : blen d < 2 ^ 14 → spells (frame_of 0x31) (varint_enc2 (blen d) ++ d) (Datagram d).
Proof.
  intros Hd. pose proof (blen_nonneg d). cbn [frame_of]. unfold parse_datagram_frame. change (bit 0x31 0x01) with true.
  apply (spells_bind _ _ _ _ (blen d)).
  - eapply spells_end; [by apply spells_varint2|]. rewrite as_usize_small by lia. apply spells_ret.
  - eapply spells_end; [apply spells_array|apply spells_ret].
Qed.

(** The type byte of a frame and what follows it. *)
Lemma frame_body `{w : arch} f : frame_ok f → (∀ n, f ≠ Padding n) →
  ∃ ty body, frame_enc f = ty :: body ∧ 1 ≤ ty ≤ 63 ∧ gives (frame_of ty) body (means f).
Proof.
  intros Hf Hp. destruct f as [| |delay r ecn| | |d| | |st d| | | | | | | | | |sq rp c t| | | | | | |d|];
    cbn [frame_enc]; try done; try (by destruct (Hp len));
    try (eexists _, _; split; [reflexivity|]; split; [lia|]; cbn [frame_ok frame_of] in *; destruct_and? Hf;
         eapply spells_gives; [|reflexivity]; rewrite vencs_nil_r;
         repeat first [apply spells_final_field; [done|] | apply spells_field; [done|] | apply spells_ret]; fail).
  - eexists _, _. split; [reflexivity|]. split; [lia|]. by eapply spells_gives; [apply spells_ret|].
  - eexists _, _. split; [reflexivity|]. split; [destruct ecn; lia|].
    assert (E : frame_of (match ecn with None => 2 | Some _ => 3 end) = parse_ack_frame (match ecn with None => 2 | Some _ => 3 end))
      by (by destruct ecn).
    rewrite E. by apply (gives_ack (w := w)).
  - eexists _, _. split; [reflexivity|]. split; [lia|]. by eapply spells_gives; [apply spells_crypto|].
  - eexists _, _. split; [reflexivity|]. split; [lia|]. destruct Hf. by eapply spells_gives; [apply spells_token|].
  - eexists _, _. split; [reflexivity|]. split; [destruct (rb_fin d); lia|]. destruct Hf as (? & ? & ?).
    by eapply spells_gives; [apply spells_stream|].
  - eexists _, _. split; [reflexivity|]. split; [lia|]. by eapply spells_gives; [apply spells_ids|].
  - eexists _, _. split; [reflexivity|]. split; [lia|]. destruct Hf as [Hl _]. eapply spells_gives; [|reflexivity].
    cbn [frame_of]. rewrite <- Hl. eapply spells_end; [apply spells_array|apply spells_ret].
  - eexists _, _. split; [reflexivity|]. split; [lia|]. destruct Hf as [Hl _]. eapply spells_gives; [|reflexivity].
    cbn [frame_of]. rewrite <- Hl. eapply spells_end; [apply spells_array|apply spells_ret].
  - eexists _, _. split; [reflexivity|]. split; [lia|]. destruct Hf as (? & ? & ? & _). eapply spells_gives; [|reflexivity].
    cbn [frame_of]. apply spells_field; [done|]. apply spells_field; [done|]. apply spells_reason; [done|apply spells_ret].
  - eexists _, _. split; [reflexivity|]. split; [lia|]. destruct Hf as (? & ? & _). eapply spells_gives; [|reflexivity].
    cbn [frame_of]. apply spells_field; [done|]. apply spells_reason; [done|apply spells_ret].
  - eexists _, _. split; [reflexivity|]. split; [lia|]. by eapply spells_gives; [apply spells_ret|].
  - eexists _, _. split; [reflexivity|]. split; [lia|]. destruct Hf. by eapply spells_gives; [apply spells_datagram|].
Qed.

(** What may follow a frame: padding takes every zero byte behind it. *)
Definition may_follow (f : Frame) (r : bytes) : Prop :=
  match f with Padding _ => no_zero r | _ => True end.

Lemma means_allowed pkt f g : means f g → allowed pkt g = allowed pkt f.
Proof. destruct f; cbn; try (intros ->; done). by intros (r' & -> & _). Qed.

Lemma frame_reads `{w : arch} pkt f b r :
  frame_ok f → allowed pkt f = true → may_follow f r → reads b (frame_enc f ++ r) →
  ∃ g b', from_bytes pkt b = Ok (g, b') ∧ means f g ∧ reads b' r ∧ buf b' = buf b ∧
    Octets.off b' = Octets.off b + blen (frame_enc f).
Proof.
  intros Hf Ha Hfo Hb. unfold from_bytes.
  assert (Hpad : (∃ n, f = Padding n) ∨ (∀ n, f ≠ Padding n)) by (destruct f; eauto).
  destruct Hpad as [[n ->]|Hnp].
  - cbn [frame_enc frame_ok means may_follow] in *. replace (Z.to_nat n) with (S (Z.to_nat (n - 1))) in * by lia.
    cbn [replicate] in Hb. change (0 :: ?l) with ([0] ++ l) in Hb. rewrite <- app_assoc in Hb.
    destruct (spells_varint 0 ltac:(unfold varint_ok, MAX_VAR_INT; lia) b _ Hb) as (b1 & E1 & Hb1 & Hu1 & Ho1).
    unfold mbind, reader_bind. rewrite E1. cbn [frame_of]. unfold mbind, reader_bind, padding.
    destruct (padding_loop (Z.to_nat (n - 1)) b1 r 1 (Ok (1, b1)) Hb1 Hfo) as (b2 & E2 & Hb2 & Hu2 & Ho2). rewrite E2.
    replace (1 + Z.of_nat (Z.to_nat (n - 1))) with n by lia. exists (Padding n), b2.
    change (blen (varint_enc 0)) with 1 in Ho1. rewrite blen_replicate. split_and!; [by destruct pkt|done|done|congruence|lia].
  - destruct (frame_body f Hf Hnp) as (ty & body & E & Hty & Hg). rewrite E in *.
    change (ty :: body) with ([ty] ++ body) in Hb. rewrite <- (varint_small ty), <- app_assoc in Hb by lia.
    destruct (spells_varint ty ltac:(unfold varint_ok, MAX_VAR_INT; lia) b _ Hb) as (b1 & E1 & Hb1 & Hu1 & Ho1).
    destruct (Hg b1 r Hb1) as (g & b2 & E2 & Hm & Hb2 & Hu2 & Ho2). exists g, b2.
    unfold mbind, reader_bind. rewrite E1. rewrite E2, (means_allowed pkt f g Hm), Ha.
    rewrite varint_small in Ho1 by lia. split_and!; [done|done|done|congruence|]. rewrite blen_cons. change (blen [ty]) with 1 in Ho1. lia.
Qed.

(** ** What a parsed frame is *)

(** Every number is below 2^62, ids and tokens have their size, an ACK frame
    holds a well-formed set of packet numbers, stream data ends below 2^62. *)
Definition frame_typed (f : Frame) : Prop :=
  match f with
  | Padding len => 1 ≤ len
  | Ping p => p = None
  | HandshakeDone => True
  | ACK delay r ecn =>
      varint_ok delay ∧ set_ok r ∧ Ranges.solid (iter r) ∧ (∀ x, covers (iter r) x → varint_ok x) ∧
      Forall varint_ok (ecn_fields ecn)
  | ResetStream s e f => varint_ok s ∧ varint_ok e ∧ varint_ok f
  | StopSending s e => varint_ok s ∧ varint_ok e
  | Crypto d => rb_ok d ∧ fresh d ∧ varint_ok (off_ d) ∧ bytes_ok (rb_data d)
  | NewToken t => bytes_ok t
  | Stream s d => varint_ok s ∧ rb_ok d ∧ fresh d ∧ max_off_ d < MAX_STREAM_SIZE ∧ bytes_ok (rb_data d)
  | MaxData m | MaxStreamsBidi m | MaxStreamsUni m => varint_ok m
  | DataBlocked l | StreamsBlockedBidi l | StreamsBlockedUni l => varint_ok l
  | MaxStreamData s m | StreamDataBlocked s m => varint_ok s ∧ varint_ok m
  | NewConnectionId s r c t =>
      varint_ok s ∧ varint_ok r ∧ 1 ≤ blen c ≤ MAX_CID_LEN ∧ blen t = 16 ∧ bytes_ok c ∧ bytes_ok t
  | RetireConnectionId s => varint_ok s
  | PathChallenge d | PathResponse d => blen d = 8 ∧ bytes_ok d
  | ConnectionClose e t r => varint_ok e ∧ varint_ok t ∧ bytes_ok r
  | ApplicationClose e r => varint_ok e ∧ bytes_ok r
  | Datagram d => bytes_ok d
  | CryptoHeader _ _ | StreamHeader _ _ _ _ | DatagramHeader _ => False
  end.

Lemma rb_from_ok s o fin : 0 ≤ o → rb_ok (rb_from s o fin) ∧ fresh (rb_from s o fin) ∧ off_ (rb_from s o fin) = o ∧
  max_off_ (rb_from s o fin) = o + blen s.
Proof. intros. pose proof (blen_nonneg s). unfold rb_ok, fresh, max_off_, off_, len_. cbn -[blen]. lia. Qed.

(** Ranges of packet numbers. *)
Definition numbers_ok (r : RangeSet) : Prop :=
  set_ok r ∧ Ranges.solid (iter r) ∧ ∀ x, covers (iter r) x → varint_ok x.

Lemma insert_numbers s e r : numbers_ok r → 0 ≤ s → s < e → e ≤ MAX_VAR_INT + 1 →
  ∃ r', insert_range (s, e) r = Ok r' ∧ numbers_ok r'.
Proof.
  intros (Hok & Hs & Hc) H0 Hse He. destruct (insert_spec (s, e) r Hok ltac:(cbn; lia)) as (r' & E & Hok' & _ & _ & Hs' & Hc' & _).
  exists r'. unfold insert_range. rewrite E. split; [done|]. split; [done|]. split; [by apply Hs'|].
  intros x Hx. destruct (Hc' x Hx) as [Hx'|Hx']; [cbn in Hx'; unfold varint_ok; lia|by apply Hc].
Qed.

Lemma safely_first_range `{w : arch} s e : 0 ≤ s → s < e → e ≤ MAX_VAR_INT + 1 →
  reads_safely (range_insert (s, e) default_set) numbers_ok.
Proof.
  intros H0 Hse He b Hok Hb. assert (Hmax : 4 ≤ usize_max w) by (destruct w; vm_compute; congruence).
  destruct (insert_numbers s e default_set) as (r & E & Hr); [|done..|].
  - split; [|split; [constructor|intros x Hx; by apply Exists_nil in Hx]].
    unfold set_ok, Ranges.len, default_set. cbn [iter capacity_of]. rewrite blen_nil. split_and!; (done || lia).
  - unfold range_insert. rewrite E. split; [done|]. split_and!; (done || lia).
Qed.

Lemma safely_ack_blocks count smallest r : smallest ≤ MAX_VAR_INT → numbers_ok r →
  reads_safely (ack_blocks count smallest r) numbers_ok.
Proof.
  intros Hsm Hr. unfold ack_blocks.
  apply (safely_loop _ (ack_step count) (λ '(i, sm, rs), sm ≤ MAX_VAR_INT ∧ numbers_ok rs) numbers_ok (λ b, Ok (r, b)) (0, smallest, r));
    [apply _| |done].
  intros [[i sm] rs] b Hok Hb [Hs Hrs]. unfold ack_step. destruct (i <? count).
  - pose proof (safely_varint b Hok Hb) as H1. destruct (varint b) as [[gap b1]|e|]; cbn [mbind comp_bind]; [|done..].
    destruct H1 as (Hg & Hok1 & Hu1 & Ho1). destruct (Z.ltb_spec sm (2 + gap)); [done|].
    pose proof (safely_varint b1 Hok1 ltac:(by rewrite Hu1)) as H2.
    destruct (varint b1) as [[blk b2]|e|]; cbn [mbind comp_bind]; [|done..]. destruct H2 as (Hk & Hok2 & Hu2 & Ho2).
    destruct (Z.ltb_spec (sm - gap - 2) blk); [done|]. unfold varint_ok in *.
    destruct (insert_numbers (sm - gap - 2 - blk) (sm - gap - 2 + 1) rs Hrs) as (rs' & E & Hrs'); [lia..|].
    rewrite E. cbn. split; [split; [lia|done]|]. split_and!; [done|congruence|lia].
  - cbn. split; [done|]. split_and!; (done || lia).
Qed.

Lemma safely_padding : reads_safely padding (λ n, 1 ≤ n).
Proof.
  unfold padding. apply (safely_loop _ padding_step (λ n, 1 ≤ n) (λ n, 1 ≤ n) (λ b, Ok (1, b)) 1); [apply _| |lia].
  intros n b Hok Hb Hn. unfold padding_step. pose proof (peek_u_no_panic 1 b Hok) as Hp.
  assert (Hdone : round_safely (λ n, 1 ≤ n) (λ n, 1 ≤ n) b (Done (Ok (n, b)))) by (cbn; split_and!; (done || lia)).
  unfold peek_u8. destruct (peek_u 1 b) as [[| |]|[]|]; try done.
  pose proof (safely_u8 b Hok Hb) as H. destruct (u8_ b) as [[v b']|e|]; [|done..]. cbn.
  destruct H as (_ & ? & ? & ?). split_and!; (done || lia).
Qed.

(** Field after field, each with its property. *)
Ltac read_safely :=
  repeat first
    [ apply safely_ret
    | apply safely_fail
    | eapply safely_bind; [solve [eauto with wire]|intros ? ?; cbn beta] ].

Lemma safely_ack `{w : arch} ty : reads_safely (parse_ack_frame ty) frame_typed.
Proof.
  unfold parse_ack_frame. eapply safely_bind; [apply safely_varint|intros largest Hl].
  eapply safely_bind; [apply safely_varint|intros delay Hd]. eapply safely_bind; [apply safely_varint|intros count Hc].
  eapply safely_bind; [apply safely_varint|intros blk Hb]. destruct (Z.ltb_spec largest blk); [apply safely_fail|].
  unfold varint_ok in *. eapply safely_bind; [apply safely_first_range; lia|intros rs Hrs].
  eapply safely_bind; [apply safely_ack_blocks; [lia|done]|intros rs' Hrs'].
  eapply (safely_bind _ _ (λ e, Forall varint_ok (ecn_fields e))); [|intros ecn He; apply safely_ret].
  - destruct (bit ty 1).
    + unfold ecn_counts. eapply (safely_bind _ _ (λ e, Forall varint_ok (ecn_fields (Some e)))); [|intros e He; by apply safely_ret].
      read_safely. cbn. by repeat apply Forall_cons_2; try apply Forall_nil_2.
    + apply safely_ret. constructor.
  - destruct Hrs' as (? & ? & ?). by split_and!.
Qed.

Lemma safely_stream `{w : arch} ty : reads_safely (parse_stream_frame ty) frame_typed.
Proof.
  unfold parse_stream_frame. eapply safely_bind; [apply safely_varint|intros s Hs].
  eapply (safely_bind _ _ varint_ok).
  { destruct (bit ty 4); [apply safely_varint|]. apply safely_ret. unfold varint_ok, MAX_VAR_INT. lia. }
  intros o Ho. eapply (safely_bind _ _ (λ n, 0 ≤ n)).
  { destruct (bit ty 2); [|apply safely_room]. eapply safely_bind; [apply safely_varint|intros n Hn].
    apply safely_ret, as_usize_nonneg. }
  intros n Hn. destruct (o + n >=? MAX_STREAM_SIZE) eqn:E; [apply safely_fail|].
  eapply safely_bind; [by apply safely_vec|intros d [Hd Hl]]. apply safely_ret. unfold varint_ok in *.
  destruct (rb_from_ok d o (bit ty 1) ltac:(lia)) as (Hr & Hf & _ & Hm). cbn [frame_typed]. split_and!; try (done || lia).
Qed.

Lemma safely_datagram `{w : arch} ty : reads_safely (parse_datagram_frame ty) frame_typed.
Proof.
  unfold parse_datagram_frame. eapply (safely_bind _ _ (λ n, 0 ≤ n)).
  { destruct (bit ty 1); [|apply safely_room]. eapply safely_bind; [apply safely_varint|intros n Hn].
    apply safely_ret, as_usize_nonneg. }
  intros n Hn. eapply safely_bind; [by apply safely_array|intros d [Hd Hl]]. by apply safely_ret.
Qed.

Lemma safely_frame_of `{w : arch} ty : reads_safely (frame_of ty) frame_typed.
Proof.
  destruct ty as [|p|p]; [| |apply safely_fail].
  { cbn [frame_of]. eapply safely_bind; [apply safely_padding|intros n Hn]. by apply safely_ret. }
  do 6 (try (destruct p as [p|p|]; cbn [frame_of]; try apply safely_fail));
    try apply safely_ack; try apply safely_stream; try apply safely_datagram;
    try (read_safely; cbn [frame_typed]; by split_and?).
  - eapply safely_bind; [by apply safely_array|intros d [? ?]]. by apply safely_ret.
  - eapply safely_bind; [apply safely_varint|intros n Hn]. destruct (n =? 0); [apply safely_fail|].
    eapply safely_bind; [apply safely_vec, as_usize_nonneg|intros t [? ?]]. by apply safely_ret.
  - eapply safely_bind; [by apply safely_array|intros d [? ?]]. by apply safely_ret.
  - eapply safely_bind; [apply safely_varint|intros o Ho].
    eapply safely_bind; [apply safely_vec_with_varint_length|intros d Hd]. apply safely_ret.
    unfold varint_ok in Ho. destruct (rb_from_ok d o false ltac:(lia)) as (? & ? & E & _). cbn [frame_typed]. by rewrite E.
  - eapply safely_bind; [apply safely_varint|intros sq Hsq]. eapply safely_bind; [apply safely_varint|intros rp Hrp].
    eapply safely_bind; [apply safely_u8|intros n Hn]. destruct (_ && _) eqn:E; [|apply safely_fail]. cbn [negb].
    eapply safely_bind; [apply safely_vec; lia|intros c [? ?]]. eapply safely_bind; [by apply safely_array|intros t [? ?]].
    apply safely_ret. cbn [frame_typed]. split_and!; (done || lia).
Qed.

Lemma safely_from_bytes `{w : arch} pkt : reads_safely (from_bytes pkt) (λ f, frame_typed f ∧ allowed pkt f = true).
Proof.
  unfold from_bytes. eapply safely_bind; [apply safely_varint|intros ty _].
  eapply safely_bind; [apply safely_frame_of|intros f Hf].
  destruct (allowed pkt f) eqn:E; cbn [negb]; [by apply safely_ret|apply safely_fail].
Qed.

(** A frame takes at least its type byte. *)
Lemma from_bytes_takes `{w : arch} pkt b f b' : cursor_ok b → bytes_ok (buf b) → from_bytes pkt b = Ok (f, b') →
  buf b' = buf b ∧ Octets.off b < Octets.off b' ≤ blen (buf b).
Proof.
  intros Hok Hb. unfold from_bytes, mbind, reader_bind. pose proof (safely_varint b Hok Hb) as H1.
  destruct (varint b) as [[ty b1]|e|] eqn:E1; [|done..]. apply varint_takes in E1 as [Hu1 Ho1].
  destruct H1 as (_ & Hok1 & _ & _). pose proof (safely_frame_of ty b1 Hok1 ltac:(by rewrite Hu1)) as H2.
  destruct (frame_of ty b1) as [[g b2]|e|]; [|done..]. destruct H2 as (_ & Hok2 & Hu2 & Ho2).
  destruct (negb _); [done|]. intros [= <- <-]. rewrite Hu2, Hu1. unfold cursor_ok in Hok2. rewrite Hu2, Hu1 in Hok2.
  split; [done|lia].
Qed.

(** ** The payload of a packet

    The loop of [Connection::recv_single] over the frames of a packet
    (src/quiche/quiche/src/lib.rs); what a frame does to the connection is a
    parameter. *)
Section payload.
Context `{w : arch} {St : Type} (process_frame : Frame → St → St * option Error) (pkt : Type_).

(** One frame: the connection, whether a frame so far asks for an
    acknowledgement and whether all so far probe a path. *)
Definition payload_step (st : St * bool * bool * octets)
  : round (St * bool * bool * octets) (St * comp Error (bool * bool * option Error)) :=
  let '(s, ack_elicited, probing_, payload) := st in
  if cap payload >? 0 then
    match from_bytes pkt payload with
    | Ok (frame, payload) =>
        let ack_elicited := if ack_eliciting frame then true else ack_elicited in
        let probing_ := if negb (probing frame) then false else probing_ in
        match process_frame frame s with
        | (s, None) => Next (s, ack_elicited, probing_, payload)
        | (s, Some e) => Done (s, Ok (ack_elicited, probing_, Some e))
        end
    | Err e => Done (s, Err e)
    | Panic => Done (s, Panic)
    end
  else Done (s, Ok (ack_elicited, probing_, None)).

Definition payload_measure (st : St * bool * bool * octets) : nat := cursor_measure st.2.

Definition process_payload (payload : octets) (s : St) : St * comp Error (bool * bool * option Error) :=
  loop payload_measure payload_step (s, Panic) (s, false, true, payload).

(** A cursor over bytes. *)
Definition over_bytes (st : St * bool * bool * octets) : Prop := cursor_ok st.2 ∧ bytes_ok (buf st.2).

#[local] Instance payload_decreasing : DecreasingOn over_bytes payload_measure payload_step.
Proof.
  intros [[[s a] p] b] st [Hok Hb] E. cbn [snd] in Hok, Hb. unfold payload_step in E. destruct (cap b >? 0); [|done].
  pose proof (safely_from_bytes pkt b Hok Hb) as Hs.
  destruct (from_bytes pkt b) as [[f b']|e|] eqn:Ef; [|done..]. destruct (process_frame f s) as [s' [e|]]; [done|].
  injection E as <-. apply from_bytes_takes in Ef as [Hu Ho]; [|done..]. destruct Hs as (_ & Hok' & _ & _).
  split; [by split; cbn; [|rewrite Hu]|]. by apply takes_less.
Qed.

(** The frames handed to the connection one after the other. *)
Fixpoint handle_all (fs : list Frame) (s : St) (a p : bool) : St * comp Error (bool * bool * option Error) :=
  match fs with
  | [] => (s, Ok (a, p, None))
  | f :: fs =>
      let a := a || ack_eliciting f in
      let p := p && probing f in
      match process_frame f s with
      | (s, None) => handle_all fs s a p
      | (s, Some e) => (s, Ok (a, p, Some e))
      end
  end.

(** Paddings stand apart. *)
Fixpoint apart (fs : list Frame) : Prop :=
  match fs with
  | Padding _ :: (Padding _ :: _) => False
  | _ :: fs => apart fs
  | [] => True
  end.

Definition payload_enc (fs : list Frame) : bytes := concat (map frame_enc fs).

Definition sendable (f : Frame) : Prop := frame_ok f ∧ allowed pkt f = true.

Lemma enc_follow f fs : Forall sendable fs → apart (f :: fs) → may_follow f (payload_enc fs).
Proof.
  intros Hfs Ha. destruct f; try done. unfold payload_enc. destruct fs as [|g fs]; [done|]. cbn [map concat may_follow].
  apply Forall_cons in Hfs as [[Hg _] _]. destruct (frame_body g Hg) as (ty & body & -> & Hty & _).
  - intros n ->. by cbn in Ha.
  - cbn. destruct ty; (done || lia).
Qed.

Lemma apart_tail f fs : apart (f :: fs) → apart fs.
Proof. destruct f; cbn; try done. by destruct fs as [|[]]. Qed.

Lemma frame_enc_pos f : frame_ok f → 0 < blen (frame_enc f).
Proof.
  intros Hf. assert (Hpad : (∃ n, f = Padding n) ∨ (∀ n, f ≠ Padding n)) by (destruct f; eauto).
  destruct Hpad as [[n ->]|Hnp]; [cbn in Hf |- *; rewrite blen_replicate; lia|].
  destruct (frame_body f Hf Hnp) as (ty & body & -> & _). blia.
Qed.

Lemma reads_over_bytes st r : reads st.2 r → bytes_ok (buf st.2) → over_bytes st.
Proof.
  intros Hb Hby. split; [|exact Hby]. apply suffix_at_len in Hb as Hl. apply suffix_at_nonneg in Hb.
  pose proof (blen_nonneg r). unfold cursor_ok. lia.
Qed.

Lemma payload_loop d : ∀ fs s a p b, Forall sendable fs → apart fs → bytes_ok (buf b) → reads b (payload_enc fs) →
  ∃ gs, Forall2 means fs gs ∧ loop payload_measure payload_step d (s, a, p, b) = handle_all gs s a p.
Proof.
  induction fs as [|f fs IH]; intros s a p b Hfs Hap Hby Hb.
  - exists []. split; [constructor|]. rewrite (loop_unfold_on over_bytes payload_measure payload_step) by by eapply reads_over_bytes.
    unfold payload_step at 1. by rewrite (reads_cap _ _ Hb).
  - apply Forall_cons in Hfs as [[Hf Hal] Hfs]. pose proof (frame_enc_pos f Hf).
    pose proof (enc_follow f fs Hfs Hap) as Hfo. apply apart_tail in Hap.
    change (payload_enc (f :: fs)) with (frame_enc f ++ payload_enc fs) in Hb.
    destruct (frame_reads pkt f b _ Hf Hal Hfo Hb) as (g & b' & E & Hm & Hb' & Hu & Ho).
    assert (Hcap : cap b >? 0 = true) by (rewrite (reads_cap _ _ Hb); apply Z.gtb_lt; blia).
    assert (Hl : ∀ a p, loop payload_measure payload_step d (s, a, p, b) =
      match payload_step (s, a, p, b) with Done r => r | Next st => loop payload_measure payload_step d st end).
    { intros. apply (loop_unfold_on over_bytes payload_measure payload_step). by eapply reads_over_bytes. }
    rewrite Hl. unfold payload_step at 1. rewrite Hcap, E. destruct (process_frame g s) as [s' [e|]] eqn:Ep.
    + destruct (IH s a p b' Hfs Hap ltac:(by rewrite Hu) Hb') as (gs & Hgs & _). exists (g :: gs). split; [by constructor|].
      cbn [handle_all]. rewrite Ep. by destruct (ack_eliciting g), (probing g), a, p.
    + destruct (IH s' (a || ack_eliciting g) (p && probing g) b' Hfs Hap ltac:(by rewrite Hu) Hb') as (gs & Hgs & El).
      exists (g :: gs). split; [by constructor|]. cbn [handle_all]. rewrite Ep, <- El.
      by destruct (ack_eliciting g), (probing g), a, p.
Qed.

(** What a packet of any bytes comes to: some well-formed frames are handed
    over in order, then the packet ends, a handler stops it, or the rest is
    no frame. *)
Definition payload_outcome (s : St) (a p : bool) (r : St * comp Error (bool * bool * option Error)) : Prop :=
  ∃ fs, Forall (λ f, frame_typed f ∧ allowed pkt f = true) fs ∧
    (r = handle_all fs s a p ∨ ∃ s' a' p' e, handle_all fs s a p = (s', Ok (a', p', None)) ∧ r = (s', Err e)).

Lemma payload_any d st : over_bytes st →
  payload_outcome st.1.1.1 st.1.1.2 st.1.2 (loop payload_measure payload_step d st).
Proof.
  revert st. apply (loop_ind_on over_bytes payload_measure payload_step (λ st, payload_outcome st.1.1.1 st.1.1.2 st.1.2)).
  - intros [[[s a] p] b] r [Hok Hb]. cbn [fst snd] in *. unfold payload_step.
    destruct (cap b >? 0); [|intros [= <-]; exists []; split; [done|by left]].
    pose proof (safely_from_bytes pkt b Hok Hb) as Hs. destruct (from_bytes pkt b) as [[f b']|e|]; [| |done].
    + destruct Hs as [Hf _]. destruct (process_frame f s) as [s' [e|]] eqn:Ep; [|done]. intros [= <-].
      exists [f]. split; [by constructor|]. left. cbn. rewrite Ep. by destruct (ack_eliciting f), (probing f), a, p.
    + intros [= <-]. exists []. split; [done|]. right. by exists s, a, p, e.
  - intros [[[s a] p] b] [[[s' a'] p'] b'] r [Hok Hb]. cbn [fst snd] in *. unfold payload_step.
    destruct (cap b >? 0); [|done]. pose proof (safely_from_bytes pkt b Hok Hb) as Hs.
    destruct (from_bytes pkt b) as [[f b1]|e|]; [|done..]. destruct Hs as [Hf _].
    destruct (process_frame f s) as [s1 [e|]] eqn:Ep; [done|]. intros [= <- <- <- <-] (fs & Hfs & Hr).
    exists (f :: fs). split; [by constructor|]. cbn [handle_all]. rewrite Ep.
    by destruct (ack_eliciting f), (probing f), a, p.
Qed.
End payload.

(** ** Theorems *)

(** C23. A frame that can be sent is written in exactly the bytes its length
    promises, nothing past them is touched, and a peer that reads the buffer
    from its start gets the same frame back (a range of packet numbers for a
    range, the data without how it was stored) and stops right behind it;
    only padding must not be followed by another zero byte. *)
Theorem frame_roundtrip `{w : arch} pkt f : frame_ok f → allowed pkt f = true →
  ∃ n, wire_len f = Ok n ∧ 1 ≤ n ∧ ∀ out, n ≤ blen out →
    ∃ b, to_bytes f (with_slice out) = Ok (n, b) ∧ Octets.off b = n ∧ dropz n (buf b) = dropz n out ∧
      (may_follow f (dropz n out) →
       ∃ g c, from_bytes pkt (with_slice (buf b)) = Ok (g, c) ∧ means f g ∧ Octets.off c = n).
Proof.
  intros Hf Ha. exists (blen (frame_enc f)). split; [by apply wire_len_ok|].
  pose proof (frame_enc_pos f Hf). split; [lia|]. intros out Hn.
  destruct (frame_writes f Hf (with_slice out) [] out) as (b & E & Hb); [done|done|]. unfold wrote in Hb. cbn [app] in Hb. subst b.
  eexists. unfold to_bytes. rewrite E. cbn [mbind comp_bind mret comp_ret].
  split; [do 2 f_equal; unfold cap; cbn [buf Octets.off with_slice]; blia|].
  cbn [buf Octets.off]. split; [done|]. split; [by rewrite dropz_app|].
  intros Hfo. destruct (frame_reads pkt f _ _ Hf Ha Hfo (reads_with_slice _)) as (g & c & Ec & Hm & _ & _ & Ho).
  by exists g, c.
Qed.

(** C38. Whatever bytes arrive, reading a frame from them never panics and
    stays within the buffer; a frame it gives is well typed (every number
    below 2^62, ids and tokens of their size, packet numbers as a sorted set
    without overlap, stream data that ends below 2^62), may travel in that
    kind of packet and took at least one byte. *)
Theorem parsed_frames_typed `{w : arch} pkt l : bytes_ok l →
  match from_bytes pkt (with_slice l) with
  | Ok (f, b) => frame_typed f ∧ allowed pkt f = true ∧ buf b = l ∧ 0 < Octets.off b ≤ blen l
  | Err _ => True
  | Panic => False
  end.
Proof.
  intros Hl. pose proof (blen_nonneg l).
  assert (Hok : cursor_ok (with_slice l)) by (unfold cursor_ok; cbn; lia).
  pose proof (safely_from_bytes pkt (with_slice l) Hok Hl) as Hs.
  destruct (from_bytes pkt (with_slice l)) as [[f b]|e|] eqn:E; [|done..]. destruct Hs as ((Ht & Ha) & _).
  by apply from_bytes_takes in E.
Qed.

(** A packet that carries frames one after the other, no two paddings in
    a row, hands the receiving connection exactly these frames in this order,
    up to the first one whose handling fails; it asks for an acknowledgement
    when one of them does and probes a path when all of them do. *)
Theorem payload_delivers `{w : arch} {St} (process_frame : Frame → St → St * option Error) pkt fs s :
  Forall (sendable pkt) fs → apart fs → bytes_ok (payload_enc fs) →
  ∃ gs, Forall2 means fs gs ∧
    process_payload process_frame pkt (with_slice (payload_enc fs)) s = handle_all process_frame gs s false true.
Proof. intros Hs Ha Hb. apply payload_loop; [done..|apply reads_with_slice]. Qed.

(** Reading a packet ends whatever its bytes are and without a panic: the
    connection is handed well-typed frames that may travel in that kind of
    packet, until the packet is empty, a handler fails, or what is left is no
    frame, which is the error. *)
Theorem payload_ends `{w : arch} {St} (process_frame : Frame → St → St * option Error) pkt l s : bytes_ok l →
  ∃ fs, Forall (λ f, frame_typed f ∧ allowed pkt f = true) fs ∧
    let r := process_payload process_frame pkt (with_slice l) s in
    let h := handle_all process_frame fs s false true in
    r = h ∨ ∃ s' a p e, h = (s', Ok (a, p, None)) ∧ r = (s', Err e).
Proof.
  intros Hl. pose proof (blen_nonneg l).
  apply (payload_any process_frame pkt (s, Panic) (s, false, true, with_slice l)).
  split; [unfold cursor_ok; cbn; lia|done].
Qed.

(** ** Witnesses *)

(** An acknowledgement of the packets 2, 3 and 7, some data, a ping. *)
Definition demo_ack : Frame := ACK 25 (Inline [(2, 4); (7, 8)] 10) None.

Definition demo_data : Frame := Stream 4 (rb_from [104; 105] 9 true).

Definition demo_frames : list Frame := [Padding 2; demo_ack; demo_data; Ping None].

(** A connection that keeps the frames it is handed. *)
Definition keep (f : Frame) (s : list Frame) : list Frame * option Error := (s ++ [f], None).

Lemma demo_sendable : Forall (sendable (w := W64) Short) demo_frames.
Proof.
  unfold demo_frames, demo_ack, demo_data, sendable, frame_ok, ranges_ok, data_ok, Ranges.solid, varint_ok, MAX_VAR_INT, bytes_ok.
  repeat constructor; try (by_decision || done || (cbn; lia)).
Qed.

Lemma frame_roundtrip_witness :
  ∃ n, wire_len demo_ack = Ok n ∧ ∃ b, to_bytes demo_ack (with_slice (replicate 9 7)) = Ok (n, b) ∧
    ∃ g c, from_bytes (w := W64) Short (with_slice (buf b)) = Ok (g, c) ∧ means demo_ack g ∧ Octets.off c = n.
Proof.
  destruct (frame_roundtrip (w := W64) Short demo_ack) as (n & En & _ & H).
  - exact (proj1 (Forall_inv (Forall_inv_tail demo_sendable))).
  - done.
  - exists n. split; [exact En|]. destruct (H (replicate 9 7)) as (b & E & _ & _ & Hr).
    + vm_compute in En. injection En as <-. vm_compute. congruence.
    + exists b. split; [exact E|]. exact (Hr I).
Defined.

Lemma parsed_frames_typed_witness :
  ∃ f b, from_bytes (w := W64) Short (with_slice [2; 7; 25; 1; 0; 2; 1]) = Ok (f, b) ∧ frame_typed f.
Proof.
  pose proof (parsed_frames_typed (w := W64) Short [2; 7; 25; 1; 0; 2; 1] ltac:(by_decision)) as H.
  destruct (from_bytes (w := W64) Short (with_slice [2; 7; 25; 1; 0; 2; 1])) as [[f b]|e|] eqn:E;
    [|vm_compute in E; discriminate..].
  exists f, b. split; [reflexivity|exact (proj1 H)].
Defined.

Lemma payload_delivers_witness :
  ∃ gs, Forall2 means demo_frames gs ∧
    process_payload (w := W64) keep Short (with_slice (payload_enc demo_frames)) [] = (gs, Ok (true, false, None)).
Proof.
  destruct (payload_delivers (w := W64) keep Short demo_frames []) as (gs & Hm & E);
    [exact demo_sendable|by vm_compute|by_decision|].
  exists gs. split; [exact Hm|]. rewrite E.
  inversion_clear Hm as [|? g1 ? ? H1 Hm1]. inversion_clear Hm1 as [|? g2 ? ? H2 Hm2].
  inversion_clear Hm2 as [|? g3 ? ? H3 Hm3]. inversion_clear Hm3 as [|? g4 ? ? H4 Hm4]. inversion_clear Hm4.
  cbn in H1, H2, H3, H4. destruct H2 as (r & -> & _). by subst.
Defined.

Lemma payload_ends_witness :
  ∃ fs, Forall (λ f, frame_typed f ∧ allowed Short f = true) fs ∧
    let r := process_payload (w := W64) keep Short (with_slice [1; 6; 0; 9; 1]) [] in
    let h := handle_all keep fs [] false true in
    r = h ∨ ∃ s' a p e, h = (s', Ok (a, p, None)) ∧ r = (s', Err e).
Proof. apply (payload_ends (w := W64) keep Short [1; 6; 0; 9; 1] []). by_decision. Defined.
