(* ===== verification/QuicCrypto.v ===== *)
(** * Packet protection keys

    src/quiche/quiche/src/crypto: the keys that open and seal packets and mask
    headers, their derivation from secrets, key updates and the nonces.  The
    primitives are BoringSSL's and parameters ([BoringSSL]); [BoringLaws] is
    what its documentation promises of them. *)

From stdpp Require Import strings.
From S2P Require Import Prelude Text QuicError.

(** ** Algorithms *)

Inductive Algorithm := AES128_GCM | AES256_GCM | ChaCha20_Poly1305.

#[export] Instance Algorithm_eq_dec : EqDecision Algorithm.
Proof. solve_decision. Defined.

Definition key_len (a : Algorithm) : Z :=
  match a with AES128_GCM => 16 | AES256_GCM => 32 | ChaCha20_Poly1305 => 32 end.

Definition tag_len (a : Algorithm) : Z :=
  match a with AES128_GCM => 16 | AES256_GCM => 16 | ChaCha20_Poly1305 => 16 end.

Definition nonce_len (a : Algorithm) : Z :=
  match a with AES128_GCM => 12 | AES256_GCM => 12 | ChaCha20_Poly1305 => 12 end.

Definition MAX_NONCE_LEN : Z := 12.
Definition HP_MASK_LEN : Z := 5.

(** [EVP_sha256()] and [EVP_sha384()]. *)
Inductive EVP_MD := EVP_sha256 | EVP_sha384.

Definition get_evp_digest (a : Algorithm) : EVP_MD :=
  match a with AES128_GCM => EVP_sha256 | AES256_GCM => EVP_sha384 | ChaCha20_Poly1305 => EVP_sha256 end.

(** ** The primitives *)

(** The calls into BoringSSL.  [None] is a return code other than success.
    Sealing gives the ciphertext of the input and the bytes of [out_tag], and
    may change the context. *)
Class BoringSSL := {
  EVP_AEAD_CTX : Type;
  EVP_AEAD_CTX_init : Algorithm → bytes → option EVP_AEAD_CTX;
  EVP_AEAD_CTX_open : EVP_AEAD_CTX → ∀ nonce ad inp : bytes, option bytes;
  EVP_AEAD_CTX_seal_scatter :
    EVP_AEAD_CTX → ∀ nonce ad inp extra_in : bytes, option (bytes * bytes) * EVP_AEAD_CTX;
  AES_KEY : Type;
  AES_set_encrypt_key : bytes → Z → option AES_KEY;
  AES_ecb_encrypt : AES_KEY → bytes → bytes;
  CRYPTO_chacha_20 : ∀ inp key nonce : bytes, Z → bytes;
  HKDF_extract : EVP_MD → ∀ secret salt : bytes, option bytes;
  HKDF_expand : EVP_MD → Z → ∀ prk info : bytes, option bytes;
  CRYPTO_memcmp : bytes → bytes → Z;
}.

(** A context made from a key, after any number of seals. *)
Inductive made_from `{BoringSSL} (a : Algorithm) (key : bytes) : EVP_AEAD_CTX → Prop :=
| made_init c : EVP_AEAD_CTX_init a key = Some c → made_from a key c
| made_seal c nonce ad inp extra :
    made_from a key c → made_from a key (EVP_AEAD_CTX_seal_scatter c nonce ad inp extra).2.

(** What one context sealed another of the same key opens; lengths are as
    documented, masks are bytes. *)
Class BoringLaws `{BoringSSL} : Prop := {
  open_sealed a key c c' nonce ad inp extra out tag :
    made_from a key c → made_from a key c' → bytes_ok inp → bytes_ok extra →
    (EVP_AEAD_CTX_seal_scatter c nonce ad inp extra).1 = Some (out, tag) →
    EVP_AEAD_CTX_open c' nonce ad (out ++ tag) = Some (inp ++ extra);
  seal_lengths a key c nonce ad inp extra out tag :
    made_from a key c →
    (EVP_AEAD_CTX_seal_scatter c nonce ad inp extra).1 = Some (out, tag) →
    blen out = blen inp ∧ blen tag = tag_len a + blen extra ∧ bytes_ok out ∧ bytes_ok tag;
  open_length a key c nonce ad inp out :
    made_from a key c → EVP_AEAD_CTX_open c nonce ad inp = Some out →
    blen out = blen inp - tag_len a ∧ bytes_ok out;
  aes_block k sample : blen (AES_ecb_encrypt k sample) = 16 ∧ bytes_ok (AES_ecb_encrypt k sample);
  chacha_stream inp key nonce c :
    blen (CRYPTO_chacha_20 inp key nonce c) = blen inp ∧ bytes_ok (CRYPTO_chacha_20 inp key nonce c);
  expand_length md n prk info out : HKDF_expand md n prk info = Some out → blen out = n ∧ bytes_ok out;
  memcmp_equal a b : blen a = blen b → (CRYPTO_memcmp a b = 0 ↔ a = b);
}.

Section crypto.
Context `{BoringSSL}.

(** ** Key derivation *)

Definition hkdf_extract (a : Algorithm) (secret salt : bytes) : comp Error bytes :=
  ok_or (HKDF_extract (get_evp_digest a) secret salt) CryptoFail.

Definition hkdf_expand (a : Algorithm) (out_len : Z) (secret info : bytes) : comp Error bytes :=
  ok_or (HKDF_expand (get_evp_digest a) out_len secret info) CryptoFail.

Definition hkdf_expand_label (a : Algorithm) (prk label : bytes) (out_len : Z) : comp Error bytes :=
  let LABEL_PREFIX := lit "tls13 " in
  let label_len := as_u8 (blen LABEL_PREFIX + blen label) in
  let info := be_bytes 2 (as_u16 out_len) ++ [label_len] ++ LABEL_PREFIX ++ label ++ [0] in
  hkdf_expand a out_len prk info.

Definition INITIAL_SALT_V1 : bytes :=
  [0x38; 0x76; 0x2c; 0xf7; 0xf5; 0x59; 0x34; 0xb3; 0x4d; 0x17; 0x9a; 0xe6;
   0xa4; 0xc8; 0x0c; 0xad; 0xcc; 0xbb; 0x7f; 0x0a].

Definition PROTOCOL_VERSION_V1 : Z := 0x00000001.

Definition derive_initial_secret (secret : bytes) (version : Z) : comp Error bytes :=
  let salt := if version =? PROTOCOL_VERSION_V1 then INITIAL_SALT_V1 else INITIAL_SALT_V1 in
  hkdf_extract AES128_GCM secret salt.

Definition derive_client_initial_secret (a : Algorithm) (prk : bytes) (n : Z) : comp Error bytes :=
  hkdf_expand_label a prk (lit "client in") n.

Definition derive_server_initial_secret (a : Algorithm) (prk : bytes) (n : Z) : comp Error bytes :=
  hkdf_expand_label a prk (lit "server in") n.

Definition derive_next_secret (a : Algorithm) (secret : bytes) : comp Error bytes :=
  hkdf_expand_label a secret (lit "quic ku") (blen secret).

(** The callers give buffers of exactly the length that is filled. *)
Definition derive_hdr_key (a : Algorithm) (secret : bytes) : comp Error bytes :=
  hkdf_expand_label a secret (lit "quic hp") (key_len a).

Definition derive_pkt_key (a : Algorithm) (prk : bytes) : comp Error bytes :=
  hkdf_expand_label a prk (lit "quic key") (key_len a).

Definition derive_pkt_iv (a : Algorithm) (prk : bytes) : comp Error bytes :=
  hkdf_expand_label a prk (lit "quic iv") (nonce_len a).

(** ** Nonces *)

Fixpoint xor_bytes (l m : bytes) : bytes :=
  match l, m with
  | x :: l, y :: m => Z.lxor x y :: xor_bytes l m
  | l, _ => l
  end.

(** The last eight bytes of the IV, masked with the packet number;
    [copy_from_slice] panics on an IV of another length. *)
Definition make_nonce (iv : bytes) (counter : Z) : comp Error bytes :=
  if negb (blen iv =? MAX_NONCE_LEN) then Panic else
  Ok (takez 4 iv ++ xor_bytes (dropz 4 iv) (be_bytes 8 counter)).

(** ** The key of the payload *)

Record PacketKey := mk_packet_key { pk_alg : Algorithm; pk_ctx : EVP_AEAD_CTX; pk_nonce : bytes }.

Definition make_aead_ctx (a : Algorithm) (key : bytes) : comp Error EVP_AEAD_CTX :=
  ok_or (EVP_AEAD_CTX_init a key) CryptoFail.

Definition packet_key_new (a : Algorithm) (key iv : bytes) : comp Error PacketKey :=
  c ← make_aead_ctx a key; mret (mk_packet_key a c iv).

(** [open_with_u64_counter]: decrypts in place; the length of the plaintext
    and the buffer. *)
Definition pk_open (k : PacketKey) (counter : Z) (ad buf : bytes) : comp Error (Z * bytes) :=
  if blen buf <? tag_len (pk_alg k) then Err CryptoFail else
  nonce ← make_nonce (pk_nonce k) counter;
  match EVP_AEAD_CTX_open (pk_ctx k) nonce ad buf with
  | None => Err CryptoFail
  | Some out => Ok (blen out, out ++ dropz (blen out) buf)
  end.

(** [seal_with_u64_counter]: encrypts the first [in_len] bytes in place, with
    the extra input and the tag behind them; the context moves on even when
    sealing fails. *)
Definition pk_seal (k : PacketKey) (counter : Z) (ad buf : bytes) (in_len : Z) (extra_in : option bytes)
  : comp Error (Z * bytes) * PacketKey :=
  let extra := default [] extra_in in
  if in_len + tag_len (pk_alg k) + blen extra >? blen buf then (Err CryptoFail, k) else
  match make_nonce (pk_nonce k) counter with
  | Ok nonce =>
      let '(r, c) := EVP_AEAD_CTX_seal_scatter (pk_ctx k) nonce ad (takez in_len buf) extra in
      (match r with
       | None => Err CryptoFail
       | Some (out, tag) => Ok (in_len + blen tag, out ++ tag ++ dropz (in_len + blen tag) buf)
       end, mk_packet_key (pk_alg k) c (pk_nonce k))
  | Err e => (Err e, k)
  | Panic => (Panic, k)
  end.

(** [PacketKey::from_secret], which primes the context with one seal. *)
Definition packet_key_from_secret (a : Algorithm) (secret : bytes) : comp Error PacketKey :=
  key ← derive_pkt_key a secret;
  iv ← derive_pkt_iv a secret;
  k ← packet_key_new a key iv;
  match pk_seal k 0 [] (replicate 16 0) 0 None with
  | (Panic, _) => Panic
  | (_, k) => Ok k
  end.

(** ** The key of the header *)

Inductive HeaderProtectionKey := Aes (k : AES_KEY) | ChaCha (key : bytes).

Definition header_key_new (a : Algorithm) (hp_key : bytes) : comp Error HeaderProtectionKey :=
  match a with
  | AES128_GCM | AES256_GCM =>
      k ← ok_or (AES_set_encrypt_key hp_key (key_len a * 8)) CryptoFail; mret (Aes k)
  | ChaCha20_Poly1305 => mret (ChaCha hp_key)
  end.

Definition header_key_from_secret (a : Algorithm) (secret : bytes) : comp Error HeaderProtectionKey :=
  hp_key ← derive_hdr_key a secret; header_key_new a hp_key.

(** The mask of a sample; ChaCha reads a little-endian counter from its first
    four bytes. *)
Definition header_mask (k : HeaderProtectionKey) (sample : bytes) : comp Error bytes :=
  match k with
  | Aes k => index_range (AES_ecb_encrypt k sample) 0 HP_MASK_LEN
  | ChaCha key =>
      c ← index_range sample 0 4;
      let counter := be_val (rev c) in
      nonce ← index_range sample 4 (blen sample);
      mret (CRYPTO_chacha_20 (replicate (Z.to_nat HP_MASK_LEN) 0) key nonce counter)
  end.

(** ** [Open] and [Seal] *)

Record Open := mk_open {
  o_alg : Algorithm; o_secret : bytes; o_header : HeaderProtectionKey; o_packet : PacketKey }.
Record Seal := mk_seal {
  s_alg : Algorithm; s_secret : bytes; s_header : HeaderProtectionKey; s_packet : PacketKey }.

Definition open_new (a : Algorithm) (key iv hp_key secret : bytes) : comp Error Open :=
  h ← header_key_new a hp_key; p ← packet_key_new a key iv; mret (mk_open a secret h p).

Definition open_from_secret (a : Algorithm) (secret : bytes) : comp Error Open :=
  h ← header_key_from_secret a secret; p ← packet_key_from_secret a secret; mret (mk_open a secret h p).

Definition open_next (o : Open) : comp Error Open :=
  next_secret ← derive_next_secret (o_alg o) (o_secret o);
  p ← packet_key_from_secret (o_alg o) next_secret;
  mret (mk_open (o_alg o) next_secret (o_header o) p).

Definition open_mask (o : Open) (sample : bytes) : comp Error bytes := header_mask (o_header o) sample.

Definition open_with_u64_counter (o : Open) (counter : Z) (ad buf : bytes) : comp Error (Z * bytes) :=
  pk_open (o_packet o) counter ad buf.

Definition seal_new (a : Algorithm) (key iv hp_key secret : bytes) : comp Error Seal :=
  h ← header_key_new a hp_key; p ← packet_key_new a key iv; mret (mk_seal a secret h p).

Definition seal_from_secret (a : Algorithm) (secret : bytes) : comp Error Seal :=
  h ← header_key_from_secret a secret; p ← packet_key_from_secret a secret; mret (mk_seal a secret h p).

Definition seal_next (s : Seal) : comp Error Seal :=
  next_secret ← derive_next_secret (s_alg s) (s_secret s);
  p ← packet_key_from_secret (s_alg s) next_secret;
  mret (mk_seal (s_alg s) next_secret (s_header s) p).

Definition seal_mask (s : Seal) (sample : bytes) : comp Error bytes := header_mask (s_header s) sample.

Definition seal_with_u64_counter (s : Seal) (counter : Z) (ad buf : bytes) (in_len : Z) (extra_in : option bytes)
  : comp Error (Z * bytes) * Seal :=
  let '(r, p) := pk_seal (s_packet s) counter ad buf in_len extra_in in
  (r, mk_seal (s_alg s) (s_secret s) (s_header s) p).

(** The keys of the first packets, from a connection id. *)
Definition derive_initial_key_material (cid : bytes) (version : Z) (is_server did_reset : bool)
  : comp Error (Open * Seal) :=
  let aead := AES128_GCM in
  initial_secret ← derive_initial_secret cid version;
  client_secret ← derive_client_initial_secret aead initial_secret 32;
  server_secret ← derive_server_initial_secret aead initial_secret 32;
  if did_reset then
    if is_server then
      o ← open_from_secret aead client_secret; s ← seal_from_secret aead server_secret; mret (o, s)
    else
      o ← open_from_secret aead server_secret; s ← seal_from_secret aead client_secret; mret (o, s)
  else
    client_key ← derive_pkt_key aead client_secret;
    client_iv ← derive_pkt_iv aead client_secret;
    client_hp_key ← derive_hdr_key aead client_secret;
    server_key ← derive_pkt_key aead server_secret;
    server_iv ← derive_pkt_iv aead server_secret;
    server_hp_key ← derive_hdr_key aead server_secret;
    if is_server then
      o ← open_new aead client_key client_iv client_hp_key client_secret;
      s ← seal_new aead server_key server_iv server_hp_key server_secret;
      mret (o, s)
    else
      o ← open_new aead server_key server_iv server_hp_key server_secret;
      s ← seal_new aead client_key client_iv client_hp_key client_secret;
      mret (o, s).

Definition verify_slices_are_equal (a b : bytes) : comp Error () :=
  if negb (blen a =? blen b) then Err CryptoFail
  else if CRYPTO_memcmp a b =? 0 then Ok () else Err CryptoFail.
End crypto.

(** ** Keys of the two ends *)

Section laws.
Context `{BoringLaws}.

(** A packet key that comes from this key and IV. *)
Definition keyed (a : Algorithm) (key iv : bytes) (k : PacketKey) : Prop :=
  pk_alg k = a ∧ made_from a key (pk_ctx k) ∧ pk_nonce k = iv.

(** What one end seals the other opens: the same algorithm, secret and header
    key, and packet keys from the same key and IV. *)
Definition paired (s : Seal) (o : Open) : Prop :=
  s_alg s = o_alg o ∧ s_secret s = o_secret o ∧ s_header s = o_header o ∧
  ∃ key iv, blen iv = MAX_NONCE_LEN ∧ bytes_ok iv ∧
    keyed (s_alg s) key iv (s_packet s) ∧ keyed (s_alg s) key iv (o_packet o).

Lemma keyed_new a key iv k : packet_key_new a key iv = Ok k → keyed a key iv k.
Proof.
  unfold packet_key_new, make_aead_ctx. destruct (EVP_AEAD_CTX_init a key) as [c|] eqn:E; [|done].
  intros [= <-]. split; [done|]. split; [by apply made_init|done].
Qed.

Lemma keyed_seal a key iv k counter ad buf n extra :
  keyed a key iv k → keyed a key iv (pk_seal k counter ad buf n extra).2.
Proof.
  intros Hk. unfold pk_seal. destruct (_ >? _); [done|]. destruct (make_nonce _ _) as [nonce|e|]; [|done..].
  destruct (EVP_AEAD_CTX_seal_scatter _ _ _ _ _) as [r c] eqn:E. destruct Hk as (Ha & Hm & Hn).
  split; [done|]. split; [|done]. cbn. change c with (r, c).2. rewrite <- E. by apply made_seal.
Qed.

(** The key and IV of a secret. *)
Definition secret_keys (a : Algorithm) (secret key iv : bytes) : Prop :=
  derive_pkt_key a secret = Ok key ∧ derive_pkt_iv a secret = Ok iv.

Lemma secret_iv a secret iv : derive_pkt_iv a secret = Ok iv → blen iv = MAX_NONCE_LEN ∧ bytes_ok iv.
Proof.
  unfold derive_pkt_iv, hkdf_expand_label, hkdf_expand. destruct (HKDF_expand _ _ _ _) eqn:E; [|done].
  intros [= <-]. apply expand_length in E as [-> ?]. by destruct a.
Qed.

Lemma keyed_from_secret a secret k : packet_key_from_secret a secret = Ok k →
  ∃ key iv, secret_keys a secret key iv ∧ keyed a key iv k.
Proof.
  unfold packet_key_from_secret, secret_keys. destruct (derive_pkt_key a secret) as [key|e|]; [|done..]. cbn [mbind comp_bind].
  destruct (derive_pkt_iv a secret) as [iv|e|]; [|done..]. cbn [mbind comp_bind].
  destruct (packet_key_new a key iv) as [k0|e|] eqn:E; [|done..]. cbn [mbind comp_bind].
  intros Hk. exists key, iv. split; [done|]. apply keyed_new, (keyed_seal a key iv k0 0 [] (replicate 16 0) 0 None) in E.
  destruct (pk_seal _ _ _ _ _ _) as [[r|e|] k1]; simplify_eq; done.
Qed.

(** The header and packet keys that come from a secret. *)
Definition keys_of (a : Algorithm) (secret : bytes) (h : HeaderProtectionKey) (p : PacketKey) : Prop :=
  header_key_from_secret a secret = Ok h ∧ ∃ key iv, secret_keys a secret key iv ∧ keyed a key iv p.

Lemma keys_from_secret a secret h p :
  header_key_from_secret a secret = Ok h → packet_key_from_secret a secret = Ok p → keys_of a secret h p.
Proof. intros Hh Hp. split; [done|]. by apply keyed_from_secret. Qed.

Lemma keys_new a secret key iv hp h p : secret_keys a secret key iv → derive_hdr_key a secret = Ok hp →
  header_key_new a hp = Ok h → packet_key_new a key iv = Ok p → keys_of a secret h p.
Proof.
  intros Hs Hd Hh Hp. split; [unfold header_key_from_secret; by rewrite Hd|].
  exists key, iv. split; [done|by apply keyed_new].
Qed.

Definition open_of (a : Algorithm) (secret : bytes) (o : Open) : Prop :=
  o_alg o = a ∧ o_secret o = secret ∧ keys_of a secret (o_header o) (o_packet o).
Definition seal_of (a : Algorithm) (secret : bytes) (s : Seal) : Prop :=
  s_alg s = a ∧ s_secret s = secret ∧ keys_of a secret (s_header s) (s_packet s).

Lemma open_from_secret_of a secret o : open_from_secret a secret = Ok o → open_of a secret o.
Proof.
  unfold open_from_secret. destruct (header_key_from_secret a secret) as [h|e|] eqn:Eh; [|done..]. cbn [mbind comp_bind].
  destruct (packet_key_from_secret a secret) as [p|e|] eqn:Ep; [|done..]. intros [= <-].
  split; [done|]. split; [done|]. by apply keys_from_secret.
Qed.

Lemma seal_from_secret_of a secret s : seal_from_secret a secret = Ok s → seal_of a secret s.
Proof.
  unfold seal_from_secret. destruct (header_key_from_secret a secret) as [h|e|] eqn:Eh; [|done..]. cbn [mbind comp_bind].
  destruct (packet_key_from_secret a secret) as [p|e|] eqn:Ep; [|done..]. intros [= <-].
  split; [done|]. split; [done|]. by apply keys_from_secret.
Qed.

Lemma open_new_of a secret key iv hp o : secret_keys a secret key iv → derive_hdr_key a secret = Ok hp →
  open_new a key iv hp secret = Ok o → open_of a secret o.
Proof.
  intros Hs Hd. unfold open_new. destruct (header_key_new a hp) as [h|e|] eqn:Eh; [|done..]. cbn [mbind comp_bind].
  destruct (packet_key_new a key iv) as [p|e|] eqn:Ep; [|done..]. intros [= <-].
  split; [done|]. split; [done|]. by eapply keys_new.
Qed.

Lemma seal_new_of a secret key iv hp s : secret_keys a secret key iv → derive_hdr_key a secret = Ok hp →
  seal_new a key iv hp secret = Ok s → seal_of a secret s.
Proof.
  intros Hs Hd. unfold seal_new. destruct (header_key_new a hp) as [h|e|] eqn:Eh; [|done..]. cbn [mbind comp_bind].
  destruct (packet_key_new a key iv) as [p|e|] eqn:Ep; [|done..]. intros [= <-].
  split; [done|]. split; [done|]. by eapply keys_new.
Qed.

Lemma paired_of a secret s o : seal_of a secret s → open_of a secret o → paired s o.
Proof.
  intros (Ha & Hs & Hh & key & iv & (Hk & Hi) & Hp) (Ha' & Hs' & Hh' & key' & iv' & (Hk' & Hi') & Hp').
  rewrite Hh in Hh'. rewrite Hk in Hk'. rewrite Hi in Hi'. simplify_eq. split_and!; [done..|].
  destruct (secret_iv _ _ _ Hi). by exists key', iv'.
Qed.

(** The secrets of the two directions. *)
Definition initial_secrets (cid : bytes) (version : Z) (client server : bytes) : Prop :=
  ∃ prk, derive_initial_secret cid version = Ok prk ∧
    derive_client_initial_secret AES128_GCM prk 32 = Ok client ∧
    derive_server_initial_secret AES128_GCM prk 32 = Ok server.

(** Take the outcome of a derivation apart. *)
Ltac derive_steps :=
  repeat match goal with
  | H : (?m ≫= _) = Ok _ |- _ =>
      let E := fresh "E" in destruct m as [?|?|] eqn:E; cbn [mbind comp_bind] in H; [|discriminate H..]
  | H : mret _ = Ok _ |- _ => injection H as; subst
  end.

Lemma initial_keys cid version is_server did_reset o s :
  derive_initial_key_material cid version is_server did_reset = Ok (o, s) →
  ∃ client server, initial_secrets cid version client server ∧
    open_of AES128_GCM (if is_server then client else server) o ∧
    seal_of AES128_GCM (if is_server then server else client) s.
Proof.
  intros E. unfold derive_initial_key_material in E. cbv zeta in E.
  destruct did_reset, is_server; derive_steps.
  all: (eexists _, _; split; [by eexists|]); split.
  all: first [by apply open_from_secret_of | by apply seal_from_secret_of
    | eapply open_new_of; [split; eassumption|eassumption|eassumption]
    | eapply seal_new_of; [split; eassumption|eassumption|eassumption]].
Qed.

(** ** Sealing and opening *)

Lemma blen_xor_bytes l m : blen (xor_bytes l m) = blen l.
Proof. revert m. induction l as [|x l IH]; intros [|y m]; cbn [xor_bytes]; [done..|]. by rewrite !blen_cons, IH. Qed.

Lemma xor_bytes_inj l m m' : length m = length l → length m' = length l → xor_bytes l m = xor_bytes l m' → m = m'.
Proof.
  revert m m'. induction l as [|x l IH]; intros [|y m] [|y' m']; cbn; try done.
  intros [= Hm] [= Hm'] [= Hx Hl]. f_equal; [|by apply IH].
  apply (f_equal (Z.lxor x)) in Hx. by rewrite <- !Z.lxor_assoc, !Z.lxor_nilpotent, !Z.lxor_0_l in Hx.
Qed.

Lemma make_nonce_ok iv counter : blen iv = MAX_NONCE_LEN → ∃ n, make_nonce iv counter = Ok n.
Proof. intros E. unfold make_nonce. rewrite E. by eexists. Qed.

Lemma make_nonce_inj iv c c' : blen iv = MAX_NONCE_LEN → 0 ≤ c < 2 ^ 64 → 0 ≤ c' < 2 ^ 64 →
  make_nonce iv c = make_nonce iv c' → c = c'.
Proof.
  intros E Hc Hc'. unfold make_nonce. rewrite E. cbn [negb Z.eqb Pos.eqb MAX_NONCE_LEN]. intros Hn.
  apply (f_equal (λ m, match m with Ok x => x | _ => [] end)) in Hn. cbv beta iota in Hn. apply app_inv_head in Hn. assert (Hl : length (dropz 4 iv) = 8%nat).
  { pose proof (blen_dropz 4 iv) as Hd. unfold blen, MAX_NONCE_LEN in *. lia. }
  apply xor_bytes_inj in Hn; [|by rewrite be_bytes_length..].
  rewrite <- (be_val_small 8 c), <- (be_val_small 8 c'), Hn by (cbn; lia). done.
Qed.

(** Sealing keeps the ends paired. *)
Lemma paired_seal s o counter ad buf n extra :
  paired s o → paired (seal_with_u64_counter s counter ad buf n extra).2 o.
Proof.
  intros (Ha & Hs & Hh & key & iv & Hl & Hb & Hk & Hk'). unfold seal_with_u64_counter.
  apply (keyed_seal _ _ _ _ counter ad buf n extra) in Hk.
  destruct (pk_seal _ _ _ _ _ _) as [r p]. cbn. split_and!; [done..|]. by exists key, iv.
Qed.

(** What was sealed with its tag. *)
Definition sealed_len (s : Seal) (n : Z) (extra : option bytes) : Z := n + tag_len (s_alg s) + blen (default [] extra).

Lemma sealed_opens s o counter ad buf n extra m buf' :
  paired s o → 0 ≤ n ≤ blen buf → bytes_ok buf → bytes_ok (default [] extra) →
  (seal_with_u64_counter s counter ad buf n extra).1 = Ok (m, buf') →
  m = sealed_len s n extra ∧ m ≤ blen buf ∧ blen buf' = blen buf ∧ bytes_ok buf' ∧ dropz m buf' = dropz m buf ∧
  ∃ rest, open_with_u64_counter o counter ad (takez m buf') =
    Ok (n + blen (default [] extra), (takez n buf ++ default [] extra) ++ rest).
Proof.
  intros (Ha & _ & _ & key & iv & Hl & _ & (Ek & Hk & En) & (Ek' & Hk' & En')) Hn Hb Hx.
  unfold seal_with_u64_counter, open_with_u64_counter, pk_seal, pk_open, sealed_len. rewrite Ek, Ek', En, En'.
  set (x := default [] extra) in *. destruct (make_nonce_ok iv counter Hl) as [nonce ->]. cbn [mbind comp_bind].
  destruct (Z.gtb_spec (n + tag_len (s_alg s) + blen x) (blen buf)); [done|].
  destruct (EVP_AEAD_CTX_seal_scatter _ _ _ _ _) as [[[out tag]|] c] eqn:E; [|done]. cbn. intros [= <- <-].
  apply (f_equal fst) in E. cbn in E.
  destruct (seal_lengths _ _ _ _ _ _ _ _ _ Hk E) as (Ho & Ht & Hob & Htb). rewrite blen_takez in Ho by lia.
  pose proof (blen_nonneg x). assert (0 ≤ tag_len (s_alg s)) by (by destruct (s_alg s)).
  assert (Hlen : n + blen tag = blen (out ++ tag)) by blia.
  assert (Hm : takez (n + blen tag) (out ++ tag ++ dropz (n + blen tag) buf) = out ++ tag).
  { rewrite app_assoc, Hlen. apply takez_app. }
  rewrite Hm. destruct (Z.ltb_spec (blen (out ++ tag)) (tag_len (s_alg s))); [blia|].
  pose proof (open_sealed _ _ _ _ _ _ _ _ _ _ Hk Hk' (bytes_ok_takez n buf Hb) Hx E) as Eo. rewrite Eo.
  split_and!; [lia|lia|blia|..].
  - by repeat apply Forall_app_2; [| |apply bytes_ok_dropz].
  - rewrite app_assoc, Hlen. apply dropz_app.
  - eexists. f_equal. rewrite blen_app, blen_takez by lia. done.
Qed.

(** ** Key updates *)

Fixpoint seal_after (n : nat) (s : Seal) : comp Error Seal :=
  match n with O => Ok s | S n => s ← seal_next s; seal_after n s end.
Fixpoint open_after (n : nat) (o : Open) : comp Error Open :=
  match n with O => Ok o | S n => o ← open_next o; open_after n o end.

Lemma paired_next s o s' o' : paired s o → seal_next s = Ok s' → open_next o = Ok o' → paired s' o'.
Proof.
  intros (Ha & Hs & Hh & _) Es Eo. unfold seal_next, open_next in *. rewrite <- Ha, <- Hs in Eo.
  destruct (derive_next_secret _ _) as [sec|e|]; [|done..]. cbn [mbind comp_bind] in Es, Eo.
  destruct (packet_key_from_secret _ _) as [p|e|] eqn:Ep; [|done..]. cbn [mbind comp_bind] in Es, Eo.
  injection Es as <-. injection Eo as <-. split_and!; [done..|].
  destruct (keyed_from_secret _ _ _ Ep) as (key & iv & [_ Hi] & Hk). destruct (secret_iv _ _ _ Hi). by exists key, iv.
Qed.

Lemma paired_after n : ∀ s o s' o', paired s o → seal_after n s = Ok s' → open_after n o = Ok o' → paired s' o'.
Proof.
  induction n as [|n IH]; cbn [seal_after open_after]; intros s o s' o' Hp; [by intros [= <-] [= <-]|].
  destruct (seal_next s) as [s1|e|] eqn:Es; [|done..]. destruct (open_next o) as [o1|e|] eqn:Eo; [|done..].
  cbn [mbind comp_bind]. eapply IH. by eapply paired_next.
Qed.

Lemma initial_paired cid version r r' oc sc os ss :
  derive_initial_key_material cid version false r = Ok (oc, sc) →
  derive_initial_key_material cid version true r' = Ok (os, ss) → paired sc os ∧ paired ss oc.
Proof.
  intros Ec Es. apply initial_keys in Ec as (c & s & (prk & E1 & E2 & E3) & Hoc & Hsc).
  apply initial_keys in Es as (c' & s' & (prk' & E1' & E2' & E3') & Hos & Hss).
  rewrite E1 in E1'. injection E1' as <-. rewrite E2 in E2'. rewrite E3 in E3'. injection E2' as <-. injection E3' as <-.
  split; by eapply paired_of.
Qed.

(** What one end seals the other opens, under every number, header and
    payload, and both mask headers alike. *)
Definition understands (s : Seal) (o : Open) : Prop :=
  (∀ sample, seal_mask s sample = open_mask o sample) ∧
  ∀ counter ad buf n extra m buf', 0 ≤ n ≤ blen buf → bytes_ok buf → bytes_ok (default [] extra) →
    (seal_with_u64_counter s counter ad buf n extra).1 = Ok (m, buf') →
    m = sealed_len s n extra ∧
    ∃ rest, open_with_u64_counter o counter ad (takez m buf') =
      Ok (n + blen (default [] extra), (takez n buf ++ default [] extra) ++ rest).

Lemma paired_understands s o : paired s o → understands s o.
Proof.
  intros Hp. split; [intros sample; destruct Hp as (_ & _ & Hh & _); unfold seal_mask, open_mask; by rewrite Hh|].
  intros * Hn Hb Hx E. by destruct (sealed_opens _ _ _ _ _ _ _ _ _ Hp Hn Hb Hx E) as (? & _ & _ & _ & _ & ?).
Qed.

(** ** Theorems *)

(** C24. A client and a server that derive their first keys from the same
    connection id, each whether or not its keys were reset before (by a Retry
    or a version negotiation), understand each other in both directions, and
    still do after any number of key updates made at both ends: each opens
    exactly what the other sealed and masks headers alike. *)
Theorem peers_share_keys cid version r r' oc sc os ss n sc' os' ss' oc' :
  derive_initial_key_material cid version false r = Ok (oc, sc) →
  derive_initial_key_material cid version true r' = Ok (os, ss) →
  seal_after n sc = Ok sc' → open_after n os = Ok os' → seal_after n ss = Ok ss' → open_after n oc = Ok oc' →
  understands sc' os' ∧ understands ss' oc'.
Proof.
  intros Ec Es E1 E2 E3 E4. destruct (initial_paired _ _ _ _ _ _ _ _ Ec Es) as [Hc Hs].
  split; apply paired_understands; [exact (paired_after n _ _ _ _ Hc E1 E2)|exact (paired_after n _ _ _ _ Hs E3 E4)].
Qed.

(** Packets of different numbers are never sealed under the same nonce:
    the nonce of a key determines the packet number. *)
Theorem nonce_used_once iv c c' nonce : 0 ≤ c < 2 ^ 64 → 0 ≤ c' < 2 ^ 64 →
  make_nonce iv c = Ok nonce → make_nonce iv c' = Ok nonce → c = c'.
Proof.
  intros Hc Hc' E E'. apply (make_nonce_inj iv); [|done..|by rewrite E, E'].
  unfold make_nonce in E. by destruct (Z.eqb_spec (blen iv) MAX_NONCE_LEN).
Qed.
End laws.

(** ** A library for the witnesses

    Primitives that satisfy the laws: a byte is complemented, the tag is a sum
    over key, nonce, header and plaintext. *)
Module Toy.
Definition flip (l : bytes) : bytes := map (λ b, (255 - b) mod 256) l.

Definition mac (key nonce ad pt : bytes) : bytes := be_bytes 16 (be_val (key ++ nonce ++ ad ++ pt)).

Definition seal (c : Algorithm * bytes) (nonce ad inp extra : bytes) : option (bytes * bytes) * (Algorithm * bytes) :=
  (Some (flip inp, flip extra ++ mac c.2 nonce ad (inp ++ extra)), c).

Definition open (c : Algorithm * bytes) (nonce ad inp : bytes) : option bytes :=
  let n := blen inp - 16 in
  let pt := flip (takez n inp) in
  if (0 <=? n) && bool_decide (dropz n inp = mac c.2 nonce ad pt) then Some pt else None.

#[export] Instance lib : BoringSSL := {|
  EVP_AEAD_CTX := Algorithm * bytes;
  EVP_AEAD_CTX_init a key := Some (a, key);
  EVP_AEAD_CTX_open := open;
  EVP_AEAD_CTX_seal_scatter := seal;
  AES_KEY := bytes;
  AES_set_encrypt_key key bits := Some key;
  AES_ecb_encrypt key sample := be_bytes 16 (be_val (key ++ sample));
  CRYPTO_chacha_20 inp key nonce c := map (λ b, (b + c + be_val key + be_val nonce) mod 256) inp;
  HKDF_extract md secret salt := Some (be_bytes 32 (be_val (salt ++ secret)));
  HKDF_expand md n prk info := if 0 <=? n then Some (be_bytes (Z.to_nat n) (be_val (info ++ prk))) else None;
  CRYPTO_memcmp a b := if decide (a = b) then 0 else 1;
|}.

Lemma flip_ok l : blen (flip l) = blen l ∧ bytes_ok (flip l).
Proof.
  split; [unfold blen, flip; by rewrite length_map|]. apply Forall_forall. intros x Hx.
  apply list_elem_of_In, in_map_iff in Hx as (b & <- & _). unfold u8. pose proof (Z.mod_pos_bound (255 - b) 256). lia.
Qed.

Lemma flip_flip l : bytes_ok l → flip (flip l) = l.
Proof.
  induction 1 as [|b l Hb _ IH]; [done|]. cbn. f_equal; [|done]. unfold u8 in Hb.
  rewrite (Z.mod_small (255 - b)) by lia. rewrite Z.mod_small by lia. lia.
Qed.

Lemma made_key a key c : made_from a key c → c = (a, key).
Proof. induction 1 as [c E|c nonce ad inp extra Hm IH]; [by injection E as <-|done]. Qed.

#[export] Instance laws : BoringLaws.
Proof.
  split.
  - intros a key c c' nonce ad inp extra out tag Hc Hc' Hi Hx E. apply made_key in Hc as ->. apply made_key in Hc' as ->.
    injection E as <- <-. cbn [EVP_AEAD_CTX_open lib]. unfold open. destruct (flip_ok inp) as [Li _]. destruct (flip_ok extra) as [Lx _].
    assert (Lm : ∀ p, blen (mac key nonce ad p) = 16) by (intros; apply blen_be_bytes).
    assert (Hn : blen (flip inp ++ flip extra ++ mac key nonce ad (inp ++ extra)) - 16 = blen (flip inp ++ flip extra))
      by (rewrite !blen_app, Lm; lia).
    cbn [snd]. rewrite Hn, app_assoc, takez_app, dropz_app. pose proof (blen_nonneg (flip inp ++ flip extra)).
    assert (Hf : flip (flip inp ++ flip extra) = inp ++ extra) by (unfold flip at 1; rewrite map_app; f_equal; by apply flip_flip).
    rewrite Hf, bool_decide_true by done. by destruct (Z.leb_spec 0 (blen (flip inp ++ flip extra))); [|lia].
  - intros a key c nonce ad inp extra out tag Hc E. apply made_key in Hc as ->. injection E as <- <-.
    destruct (flip_ok inp) as [Li Bi]. destruct (flip_ok extra) as [Lx Bx]. split_and!; [done| |done|].
    + rewrite blen_app, Lx. unfold mac. rewrite blen_be_bytes. destruct a; cbn; lia.
    + apply Forall_app_2; [done|apply be_bytes_ok].
  - intros a key c nonce ad inp out Hc E. apply made_key in Hc as ->. cbn in E. unfold open in E.
    destruct (Z.leb_spec 0 (blen inp - 16)); [|done]. destruct (bool_decide _); [|done]. injection E as <-.
    destruct (flip_ok (takez (blen inp - 16) inp)) as [-> ?]. split; [rewrite blen_takez by lia; by destruct a|done].
  - intros k sample. split; [apply blen_be_bytes|apply be_bytes_ok].
  - intros inp key nonce c. split; [cbn; unfold blen; by rewrite length_map|]. apply Forall_forall. intros x Hx.
    apply list_elem_of_In, in_map_iff in Hx as (b & <- & _). apply Z.mod_pos_bound. lia.
  - intros md n prk info out E. cbn in E. destruct (Z.leb_spec 0 n); [|done]. injection E as <-.
    split; [rewrite blen_be_bytes; lia|apply be_bytes_ok].
  - intros a b _. cbn. by destruct (decide (a = b)).
Qed.
End Toy.

(** ** Witnesses *)

#[local] Existing Instance Toy.lib.
#[local] Existing Instance Toy.laws.


Definition toy_keys (is_server did_reset : bool) : comp Error (Open * Seal) :=
  derive_initial_key_material [1; 2; 3; 4; 5; 6; 7; 8] PROTOCOL_VERSION_V1 is_server did_reset.

Lemma ok_inv {E A} (m : comp E A) : (match m with Ok _ => true | _ => false end) = true → ∃ a, m = Ok a.
Proof. destruct m; [eauto|done..]. Qed.

Lemma peers_share_keys_witness :
  ∃ sc' os' ss' oc', ('(_, s) ← toy_keys false true; seal_after 2 s) = Ok sc' ∧
    ('(o, _) ← toy_keys true false; open_after 2 o) = Ok os' ∧
    understands sc' os' ∧ understands ss' oc'.
Proof.
  assert (H1 : ∃ x, ('(_, s) ← toy_keys false true; seal_after 2 s) = Ok x) by (apply ok_inv; vm_compute; reflexivity).
  assert (H2 : ∃ x, ('(o, _) ← toy_keys false true; open_after 2 o) = Ok x) by (apply ok_inv; vm_compute; reflexivity).
  assert (H3 : ∃ x, ('(_, s) ← toy_keys true false; seal_after 2 s) = Ok x) by (apply ok_inv; vm_compute; reflexivity).
  assert (H4 : ∃ x, ('(o, _) ← toy_keys true false; open_after 2 o) = Ok x) by (apply ok_inv; vm_compute; reflexivity).
  destruct H1 as [sc' E1], H2 as [oc' E2], H3 as [ss' E3], H4 as [os' E4]. exists sc', os', ss', oc'.
  split; [exact E1|]. split; [exact E4|]. clear - E1 E2 E3 E4. unfold toy_keys in *.
  destruct (derive_initial_key_material _ _ false true) as [[oc sc]|e|] eqn:Ec; [|discriminate..].
  destruct (derive_initial_key_material _ _ true false) as [[os ss]|e|] eqn:Es; [|discriminate..].
  exact (peers_share_keys _ _ true false oc sc os ss 2 sc' os' ss' oc' Ec Es E1 E4 E3 E2).
Defined.

Lemma nonce_used_once_witness : ∃ nonce, make_nonce [1; 2; 3; 4; 5; 6; 7; 8; 9; 10; 11; 12] 7 = Ok nonce ∧
  ∀ c, 0 ≤ c < 2 ^ 64 → make_nonce [1; 2; 3; 4; 5; 6; 7; 8; 9; 10; 11; 12] c = Ok nonce → c = 7.
Proof.
  eexists. split; [reflexivity|]. intros c Hc E.
  exact (nonce_used_once _ c 7 _ Hc ltac:(lia) E eq_refl).
Defined.
