(* ===== verification/Packet.v ===== *)
(** * Packets

    src/quiche/quiche/src/packet.rs: headers, packet numbers, the protection
    of header and payload, Retry and version negotiation.  A slice that a
    routine changes in place is a value it returns. *)

From stdpp Require Import strings.
From S2P Require Import Prelude Text Octets QuicError Wire Frames QuicCrypto.

(** ** Epochs *)

Inductive Epoch := EInitial | EHandshake | EApplication.

#[export] Instance Type_eq_dec : EqDecision Type_.
Proof. solve_decision. Defined.

Definition from_epoch (e : Epoch) : Type_ :=
  match e with EInitial => Initial | EHandshake => Handshake | EApplication => Short end.

Definition to_epoch (ty : Type_) : comp Error Epoch :=
  match ty with
  | Initial => Ok EInitial
  | ZeroRTT => Ok EApplication
  | Handshake => Ok EHandshake
  | Short => Ok EApplication
  | _ => Err InvalidPacket
  end.

(** ** Headers *)

Definition FORM_BIT : Z := 0x80.
Definition FIXED_BIT : Z := 0x40.
Definition KEY_PHASE_BIT : Z := 0x04.
Definition TYPE_MASK : Z := 0x30.
Definition PKT_NUM_MASK : Z := 0x03.
Definition MAX_PKT_NUM_LEN : Z := 4.
Definition SAMPLE_LEN : Z := 16.

Definition version_is_supported (version : Z) : bool := version =? PROTOCOL_VERSION_V1.

Record Header := mk_header {
  ty : Type_;
  version : Z;
  dcid : bytes;
  scid : bytes;
  pkt_num : Z;
  hdr_pn_len : Z;
  token : option bytes;
  versions : option (list Z);
  key_phase : bool;
}.

Definition is_long (b : Z) : bool := negb (Z.land b FORM_BIT =? 0).

Definition u32_ : reader Z := λ b, too_short (get_u32 b).

(** [while b.cap() > 0 { list.push(b.get_u32()?) }]. *)
Definition versions_step (st : list Z * octets) : round (list Z * octets) (comp Error (list Z * octets)) :=
  let '(list, b) := st in
  if cap b >? 0 then
    match u32_ b with
    | Ok (v, b) => Next (list ++ [v], b)
    | Err e => Done (Err e)
    | Panic => Done Panic
    end
  else Done (Ok (list, b)).

Definition version_list : reader (list Z) := λ b,
  loop (λ st : list Z * octets, cursor_measure st.2) versions_step (Ok ([], b)) ([], b).

(** The type of a long header. *)
Definition long_type (first version : Z) : comp Error Type_ :=
  if version =? 0 then Ok VersionNegotiation
  else
    match Z.shiftr (Z.land first TYPE_MASK) 4 with
    | 0 => Ok Initial
    | 1 => Ok ZeroRTT
    | 2 => Ok Handshake
    | 3 => Ok Retry
    | _ => Err InvalidPacket
    end.

(** A connection id of a long header. *)
Definition long_cid (version : Z) : reader bytes :=
  len ← u8_;
  if version_is_supported version && (len >? MAX_CID_LEN) then fail InvalidPacket else vec len.

(** What follows the connection ids of a long header. *)
Definition long_rest `{arch} (ty : Type_) : reader (option bytes * option (list Z)) :=
  match ty with
  | Initial => t ← vec_with_varint_length; mret (Some t, None)
  | Retry =>
      n ← room;
      if n <? tag_len AES128_GCM then fail InvalidPacket
      else t ← vec (n - tag_len AES128_GCM); mret (Some t, None)
  | VersionNegotiation => l ← version_list; mret (None, Some l)
  | _ => mret (None, None)
  end.

Definition header_from_bytes `{arch} (dcid_len : Z) : reader Header :=
  first ← u8_;
  if negb (is_long first) then
    dcid ← vec dcid_len;
    mret (mk_header Short 0 dcid [] 0 0 None None false)
  else
    version ← u32_;
    ty ← (λ b, ty ← long_type first version; mret (ty, b));
    dcid ← long_cid version;
    scid ← long_cid version;
    '(token, versions) ← long_rest ty;
    mret (mk_header ty version dcid scid 0 0 token versions false).

Definition w_u32 (v : Z) : writer := λ b, too_short (put_u32 v b).

(** The first byte of a short header. *)
Definition short_first (pn_len : Z) (key_phase : bool) : Z :=
  let first := Z.lor 0 (as_u8 (Z.max 0 (pn_len - 1))) in
  let first := Z.ldiff first FORM_BIT in
  let first := Z.lor first FIXED_BIT in
  if key_phase then Z.lor first KEY_PHASE_BIT else Z.ldiff first KEY_PHASE_BIT.

Definition long_first (pn_len ty : Z) : Z :=
  let first := Z.lor 0 (as_u8 (Z.max 0 (pn_len - 1))) in
  Z.lor first (Z.lor (Z.lor FORM_BIT FIXED_BIT) (Z.shiftl ty 4)).

Definition type_code (ty : Type_) : comp Error Z :=
  match ty with
  | Initial => Ok 0x00
  | ZeroRTT => Ok 0x01
  | Handshake => Ok 0x02
  | Retry => Ok 0x03
  | _ => Err InvalidPacket
  end.

Definition w_token (ty : Type_) (token : option bytes) : writer :=
  match ty with
  | Initial =>
      match token with
      | Some v => w_varint (blen v) +> w_bytes v
      | None => w_varint 0
      end
  | Retry => match token with Some v => w_bytes v | None => w_panic end
  | _ => put_nothing
  end.

Definition header_to_bytes (h : Header) : writer :=
  if decide (ty h = Short) then
    w_u8 (short_first (hdr_pn_len h) (key_phase h)) +> w_bytes (dcid h)
  else λ out,
    t ← type_code (ty h);
    (w_u8 (long_first (hdr_pn_len h) t) +>
     w_u32 (version h) +>
     w_u8 (as_u8 (blen (dcid h))) +> w_bytes (dcid h) +>
     w_u8 (as_u8 (blen (scid h))) +> w_bytes (scid h) +>
     w_token (ty h) (token h)) out.

(** ** Packet numbers *)

(** [u64::BITS - n.leading_zeros()]. *)
Definition bit_len (n : Z) : Z := if n =? 0 then 0 else Z.log2 n + 1.

(** Addition on u64, which panics on overflow. *)
Definition u64_add {E} (a b : Z) : comp E Z := if a + b <? 2 ^ 64 then Ok (a + b) else Panic.

Definition pkt_num_len (pn largest_acked : Z) : comp Error Z :=
  num_unacked ← u64_add (Z.max 0 (pn - largest_acked)) 1;
  let min_bits := bit_len num_unacked + 1 in
  mret ((min_bits + 7) / 8).

Definition encode_pkt_num (pn pn_len : Z) : writer := λ b,
  match pn_len with
  | 1 => too_short (put_u8 (as_u8 pn) b)
  | 2 => too_short (put_u16 (as_u16 pn) b)
  | 3 => too_short (put_u24 (as_u32 pn) b)
  | 4 => too_short (put_u32 (as_u32 pn) b)
  | _ => Err InvalidPacket
  end.

Definition decode_pkt_num (largest_pn truncated_pn pn_len : Z) : comp Error Z :=
  let pn_nbits := pn_len * 8 in
  expected_pn ← u64_add largest_pn 1;
  if 64 <=? pn_nbits then Panic else
  let pn_win := Z.shiftl 1 pn_nbits in
  let pn_hwin := pn_win / 2 in
  let pn_mask := pn_win - 1 in
  let candidate_pn := Z.lor (Z.ldiff expected_pn pn_mask) truncated_pn in
  low ← u64_add candidate_pn pn_hwin;
  limit ← (if low <=? expected_pn then usub (Z.shiftl 1 62) pn_win else Ok 0);
  if (low <=? expected_pn) && (candidate_pn <? limit) then u64_add candidate_pn pn_win else
  high ← u64_add expected_pn pn_hwin;
  if (candidate_pn >? high) && (candidate_pn >=? pn_win) then usub candidate_pn pn_win
  else mret candidate_pn.

(** ** Protection *)

Section protection.
Context `{BoringSSL}.

(** The byte at an index, which panics outside. *)
Definition at_ {E} (l : bytes) (i : Z) : comp E Z := match get l i with Some x => Ok x | None => Panic end.

(** [first ^= mask[0] & ..]. *)
Definition mask_first (first m0 : Z) : Z :=
  if is_long first then Z.lxor first (Z.land m0 0x0f) else Z.lxor first (Z.land m0 0x1f).

(** [for i in 0..pn_len { x[i] ^= mask[i + 1] }]. *)
Definition mask_pn (pn mask : bytes) (pn_len : Z) : comp Error bytes :=
  p ← index_range pn 0 pn_len;
  m ← index_range mask 1 (1 + pn_len);
  mret (xor_bytes p m).

Definition get_pn (pn_len : Z) (b : octets) : comp Error (Z * octets) :=
  match pn_len with
  | 1 => too_short (get_u8 b)
  | 2 => too_short (get_u16 b)
  | 3 => too_short (get_u24 b)
  | 4 => too_short (get_u32 b)
  | _ => Err InvalidPacket
  end.

Definition decrypt_hdr (b : octets) (hdr : Header) (aead : Open) : comp Error (octets * Header) :=
  '(first_buf, _) ← too_short (split_at 1 b);
  first ← at_ (buf first_buf) 0;
  pn_and_sample ← too_short (peek_bytes (MAX_PKT_NUM_LEN + SAMPLE_LEN) b);
  '(ciphertext, sample) ← too_short (split_at MAX_PKT_NUM_LEN pn_and_sample);
  sample ← too_short (as_ref sample);
  mask ← open_mask aead sample;
  m0 ← at_ mask 0;
  let first := mask_first first m0 in
  let pn_len := Z.land first PKT_NUM_MASK + 1 in
  plain ← mask_pn (buf ciphertext) mask pn_len;
  let b := Octets (overwrite (buf b) (off b) plain) (off b) in
  '(pn, b) ← get_pn pn_len b;
  _ ← too_short (split_at 1 b);
  let b := Octets (overwrite (buf b) 0 [first]) (off b) in
  let phase := if decide (ty hdr = Short) then negb (Z.land first KEY_PHASE_BIT =? 0) else key_phase hdr in
  mret (b, mk_header (ty hdr) (version hdr) (dcid hdr) (scid hdr) pn pn_len (token hdr) (versions hdr) phase).

(** The payload, in the cursor it was decrypted in. *)
Definition decrypt_pkt (b : octets) (pn pn_len payload_len : Z) (aead : Open) : comp Error (octets * octets) :=
  let payload_offset := off b in
  '(header, payload) ← too_short (split_at payload_offset b);
  if payload_len <? pn_len then Err InvalidPacket else
  let payload_len := payload_len - pn_len in
  ciphertext ← too_short (peek_bytes payload_len payload);
  '(payload_len, plain) ← open_with_u64_counter aead pn (buf header) (buf ciphertext);
  let b := Octets (overwrite (buf b) payload_offset plain) payload_offset in
  too_short (get_bytes payload_len b).

(** The header with its first byte and its packet number masked. *)
Definition encrypt_hdr (b : octets) (pn_len : Z) (payload : bytes) (aead : Seal) : comp Error octets :=
  start ← usub MAX_PKT_NUM_LEN pn_len;
  sample ← index_range payload start (SAMPLE_LEN + start);
  mask ← seal_mask aead sample;
  '(first, rest) ← too_short (split_at 1 b);
  f ← at_ (buf first) 0;
  m0 ← at_ mask 0;
  let f := mask_first f m0 in
  pn_buf ← too_short (slice_last pn_len rest);
  pn_buf ← mask_pn pn_buf mask pn_len;
  mret (Octets (f :: takez (blen (buf rest) - pn_len) (buf rest) ++ pn_buf) (off b)).

(** The length of the protected packet and the buffer. *)
Definition encrypt_pkt (b : octets) (pn pn_len payload_len payload_offset : Z) (extra_in : option bytes) (aead : Seal)
  : comp Error (Z * octets) * Seal :=
  match too_short (split_at payload_offset b) with
  | Ok (header, payload) =>
      match seal_with_u64_counter aead pn (buf header) (buf payload) payload_len extra_in with
      | (Ok (ciphertext_len, payload), aead) =>
          (header ← encrypt_hdr header pn_len payload aead;
           mret (payload_offset + ciphertext_len, Octets (buf header ++ payload) (off b)), aead)
      | (Err e, aead) => (Err e, aead)
      | (Panic, aead) => (Panic, aead)
      end
  | Err e => (Err e, aead)
  | Panic => (Panic, aead)
  end.

(** ** Retry and version negotiation *)

(** [rand::rand_u8()] is the argument [r]. *)
Definition negotiate_version (r : Z) (scid dcid : bytes) (out : bytes) : comp Error (Z * bytes) :=
  b ← (w_u8 (Z.lor r FORM_BIT) +> w_u32 0 +>
       w_u8 (as_u8 (blen scid)) +> w_bytes scid +>
       w_u8 (as_u8 (blen dcid)) +> w_bytes dcid +>
       w_u32 PROTOCOL_VERSION_V1) (with_slice out);
  mret (off b, buf b).

Definition RETRY_INTEGRITY_KEY_V1 : bytes :=
  [0xbe; 0x0c; 0x69; 0x0b; 0x9f; 0x66; 0x57; 0x5a; 0x1d; 0x76; 0x6b; 0x54; 0xe3; 0x68; 0xc8; 0x4e].

Definition RETRY_INTEGRITY_NONCE_V1 : bytes :=
  [0x46; 0x15; 0x99; 0xd3; 0x5d; 0x63; 0x2b; 0xf2; 0x23; 0x98; 0x25; 0xbb].

Definition compute_retry_integrity_tag (b : octets) (odcid : bytes) (version : Z) : comp Error bytes :=
  let '(key, nonce) :=
    if version =? PROTOCOL_VERSION_V1 then (RETRY_INTEGRITY_KEY_V1, RETRY_INTEGRITY_NONCE_V1)
    else (RETRY_INTEGRITY_KEY_V1, RETRY_INTEGRITY_NONCE_V1) in
  let hdr_len := off b in
  let pb := with_slice (replicate (Z.to_nat (1 + blen odcid + hdr_len)) 0) in
  hdr ← index_range (buf b) 0 hdr_len;
  pb ← (w_u8 (as_u8 (blen odcid)) +> w_bytes odcid +> w_bytes hdr) pb;
  key ← packet_key_new AES128_GCM key nonce;
  '(out_len, out_tag) ← (pk_seal key 0 (buf pb) (replicate (Z.to_nat (tag_len AES128_GCM)) 0) 0 None).1;
  if negb (out_len =? blen out_tag) then Err CryptoFail else mret out_tag.

Definition retry (scid dcid new_scid token : bytes) (version : Z) (out : bytes) : comp Error (Z * bytes) :=
  if negb (version_is_supported version) then Err UnknownVersion else
  b ← header_to_bytes (mk_header Retry version scid new_scid 0 0 (Some token) None false) (with_slice out);
  tag ← compute_retry_integrity_tag b dcid version;
  b ← w_bytes tag b;
  mret (off b, buf b).

Definition verify_retry_integrity (b : octets) (odcid : bytes) (version : Z) : comp Error () :=
  tag ← compute_retry_integrity_tag b odcid version;
  rest ← too_short (as_ref b);
  got ← index_range rest 0 (tag_len AES128_GCM);
  verify_slices_are_equal got tag.
End protection.

(** ** Packet numbers survive truncation *)

Lemma u64_add_ok {E} a b : a + b < 2 ^ 64 → u64_add a b = (Ok (a + b) : comp E Z).
Proof. intros. unfold u64_add. by destruct (Z.ltb_spec (a + b) (2 ^ 64)); [|lia]. Qed.

(** High bits of one number, low bits of another. *)
Lemma splice_bits a b k : 0 ≤ k →
  Z.lor (Z.ldiff a (2 ^ k - 1)) (b mod 2 ^ k) = 2 ^ k * (a / 2 ^ k) + b mod 2 ^ k.
Proof.
  intros Hk. replace (2 ^ k - 1) with (Z.ones k) by (rewrite Z.ones_equiv; lia).
  rewrite Z.ldiff_ones_r, Z.shiftr_div_pow2, Z.shiftl_mul_pow2 by lia.
  assert (Hl : Z.land (a / 2 ^ k * 2 ^ k) (b mod 2 ^ k) = 0).
  { apply Z.bits_inj'. intros i Hi. rewrite Z.land_spec, Z.bits_0. destruct (Z.ltb_spec i k).
    - rewrite Z.mul_pow2_bits_low by lia. done.
    - rewrite Z.mod_pow2_bits_high by lia. apply andb_false_r. }
  pose proof (Z.add_lor_land (a / 2 ^ k * 2 ^ k) (b mod 2 ^ k)). lia.
Qed.

(** The number with the given low bits in the window around the expected one. *)
Lemma decode_window largest pn n :
  1 ≤ n ≤ 4 → 0 ≤ pn < 2 ^ 62 → 0 ≤ largest < 2 ^ 62 →
  largest + 1 - 2 ^ (8 * n - 1) < pn ≤ largest + 1 + 2 ^ (8 * n - 1) →
  decode_pkt_num largest (pn mod 2 ^ (8 * n)) n = Ok pn.
Proof.
  intros Hn Hpn Hl Hw. unfold decode_pkt_num. rewrite u64_add_ok by lia. cbn [mbind comp_bind].
  destruct (Z.leb_spec 64 (n * 8)); [lia|]. rewrite Z.shiftl_1_l. replace (n * 8) with (8 * n) by lia.
  rewrite splice_bits by lia. set (hwin := 2 ^ (8 * n - 1)) in *. set (win := 2 ^ (8 * n)).
  assert (Hwin : win / 2 = hwin ∧ win = 2 * hwin ∧ 128 ≤ hwin ≤ 2 ^ 31).
  { assert (n = 1 ∨ n = 2 ∨ n = 3 ∨ n = 4) as [->|[->|[->| ->]]] by lia; subst hwin win; by_decision. }
  clearbody win hwin. destruct Hwin as (-> & Hwin & Hh). set (ex := largest + 1) in *.
  pose proof (Z.div_mod ex win ltac:(lia)) as He. pose proof (Z.div_mod pn win ltac:(lia)) as Hp.
  pose proof (Z.mod_pos_bound ex win ltac:(lia)). pose proof (Z.mod_pos_bound pn win ltac:(lia)).
  assert (Hq : -2 < pn / win - ex / win < 2) by (split; apply (Z.mul_lt_mono_pos_l win); lia).
  assert (Hq' : pn / win = ex / win - 1 ∨ pn / win = ex / win ∨ pn / win = ex / win + 1) by lia. clear Hq.
  set (c := win * (ex / win) + pn mod win). assert (Hc : 0 ≤ c < 2 ^ 63) by (pose proof (Z.div_pos ex win); nia).
  rewrite (u64_add_ok c hwin) by lia. cbn [mbind comp_bind]. change (Z.shiftl 1 62) with (2 ^ 62).
  destruct Hq' as [Hq|[Hq|Hq]]; rewrite Hq in Hp.
  - assert (c = pn + win) by nia. destruct (Z.leb_spec (c + hwin) ex); [lia|]. cbn [andb mbind comp_bind].
    rewrite (u64_add_ok ex hwin) by lia. cbn [mbind comp_bind].
    destruct (Z.gtb_spec c (ex + hwin)); [|lia]. destruct (Z.geb_spec c win); [|lia]. cbn [andb].
    rewrite (usub_ok c win) by lia. by replace (c - win) with pn by lia.
  - assert (Ec : c = pn) by lia. destruct (Z.leb_spec (c + hwin) ex); [lia|]. cbn [andb mbind comp_bind].
    rewrite (u64_add_ok ex hwin) by lia. cbn [mbind comp_bind]. destruct (Z.gtb_spec c (ex + hwin)); [lia|].
    cbn [andb]. by rewrite Ec.
  - assert (c = pn - win) by nia. destruct (Z.leb_spec (c + hwin) ex); [|lia]. rewrite (usub_ok (2 ^ 62) win) by lia.
    cbn [mbind comp_bind]. destruct (Z.ltb_spec c (2 ^ 62 - win)); [|lia]. cbn [andb].
    rewrite (u64_add_ok c win) by lia. by replace (c + win) with pn by lia.
Qed.

(** The length chosen for a number leaves room for twice what is in flight. *)
Lemma pkt_num_len_room pn la n : 0 ≤ la ≤ pn → pn < 2 ^ 62 → pkt_num_len pn la = Ok n →
  1 ≤ n ∧ pn - la + 1 < 2 ^ (8 * n - 1) ∧ (pn - la + 1 < 2 ^ 31 → n ≤ 4).
Proof.
  intros Hla Hpn. unfold pkt_num_len. rewrite u64_add_ok by lia. cbn [mbind comp_bind]. intros [= En].
  replace (Z.max 0 (pn - la) + 1) with (pn - la + 1) in En by lia. set (u := pn - la + 1) in *. assert (1 ≤ u) by lia.
  unfold bit_len in En. destruct (Z.eqb_spec u 0); [lia|]. pose proof (Z.log2_spec u ltac:(lia)) as [_ Hu].
  pose proof (Z.log2_nonneg u). set (k := Z.log2 u) in *. assert (Hn : k + 2 ≤ 8 * n ≤ k + 9) by (Z.div_mod_to_equations; lia).
  split; [lia|]. split.
  - eapply Z.lt_le_trans; [exact Hu|]. apply Z.pow_le_mono_r; lia.
  - intros Hu31. assert (k < 31) by (apply Z.log2_lt_pow2; lia). lia.
Qed.

(** ** Packet numbers and headers on the wire *)

Lemma be_bytes_trunc n v k : 0 ≤ k → be_bytes n (v mod 2 ^ (8 * (Z.of_nat n + k))) = be_bytes n v.
Proof.
  intros Hk. rewrite (Z.div_mod v (2 ^ (8 * (Z.of_nat n + k)))) at 2 by lia.
  replace (2 ^ (8 * (Z.of_nat n + k))) with (256 ^ Z.of_nat (Z.to_nat (Z.of_nat n + k))).
  2: { rewrite Z2Nat.id by lia. change 256 with (2 ^ 8). by rewrite <- Z.pow_mul_r by lia. }
  rewrite Z.mul_comm, be_bytes_add_high; [done|lia].
Qed.

Lemma writes_u n v : writes (λ b, too_short (put_u (S n) 0 v b)) (be_bytes (S n) v).
Proof.
  intros b p z Hb Hz. rewrite blen_be_bytes in Hz |- *. destruct (put_u_wrote n 0 v b p z Hb Hz) as (b' & E & H).
  exists b'. rewrite E. rewrite tagged_0 in H. done.
Qed.

Lemma writes_eq m s s' : s = s' → writes m s → writes m s'.
Proof. by intros ->. Qed.

Lemma writes_pkt_num pn n : 1 ≤ n ≤ 4 → writes (encode_pkt_num pn n) (be_bytes (Z.to_nat n) pn).
Proof.
  intros Hn. assert (n = 1 ∨ n = 2 ∨ n = 3 ∨ n = 4) as [->|[->|[->| ->]]] by lia;
    unfold encode_pkt_num, put_u8, put_u16, put_u24, put_u32, as_u8, as_u16, as_u32.
  - eapply writes_eq; [apply (be_bytes_trunc 1 pn 0); lia|apply (writes_u 0)].
  - eapply writes_eq; [apply (be_bytes_trunc 2 pn 0); lia|apply (writes_u 1)].
  - eapply writes_eq; [apply (be_bytes_trunc 3 pn 1); lia|apply (writes_u 2)].
  - eapply writes_eq; [apply (be_bytes_trunc 4 pn 0); lia|apply (writes_u 3)].
Qed.

Lemma spells_u32 v : 0 ≤ v < 2 ^ 32 → spells u32_ (be_bytes 4 v) v.
Proof.
  intros Hv b r Hb. destruct (get_u_reads 4 b (be_bytes 4 v) r Hb (blen_be_bytes 4 v)) as [E Hr]. unfold u32_, get_u32.
  rewrite E, be_val_small by done. by eexists.
Qed.

(** The headers this library writes. *)
Definition header_ok (h : Header) : Prop :=
  0 ≤ hdr_pn_len h ≤ 4 ∧ bytes_ok (dcid h) ∧ bytes_ok (scid h) ∧ blen (dcid h) ≤ MAX_CID_LEN ∧ blen (scid h) ≤ MAX_CID_LEN ∧
  match ty h with
  | Short | ZeroRTT | Handshake => token h = None
  | Initial => blen (default [] (token h)) < 2 ^ 32 ∧ bytes_ok (default [] (token h))
  | Retry => ∃ t, token h = Some t ∧ bytes_ok t
  | VersionNegotiation => False
  end ∧
  match ty h with Short => version h = 0 ∧ scid h = [] | _ => 1 ≤ version h < 2 ^ 32 end.

Definition type_bits (ty : Type_) : Z :=
  match ty with ZeroRTT => 1 | Handshake => 2 | Retry => 3 | _ => 0 end.

(** The first byte, and what follows it. *)
Definition first_byte (h : Header) : Z :=
  match ty h with
  | Short => short_first (hdr_pn_len h) (key_phase h)
  | ty => long_first (hdr_pn_len h) (type_bits ty)
  end.

Definition token_enc (h : Header) : bytes :=
  match ty h with
  | Initial => varint_enc (blen (default [] (token h))) ++ default [] (token h)
  | Retry => default [] (token h)
  | _ => []
  end.

Definition header_tail (h : Header) : bytes :=
  match ty h with
  | Short => dcid h
  | _ => be_bytes 4 (version h) ++ [blen (dcid h)] ++ dcid h ++ [blen (scid h)] ++ scid h ++ token_enc h
  end.

Definition header_enc (h : Header) : bytes := first_byte h :: header_tail h.

Lemma first_byte_bits h : header_ok h → u8 (first_byte h) ∧
  is_long (first_byte h) = negb (bool_decide (ty h = Short)) ∧
  (ty h ≠ Short → Z.shiftr (Z.land (first_byte h) TYPE_MASK) 4 = type_bits (ty h)) ∧
  (1 ≤ hdr_pn_len h → Z.land (first_byte h) PKT_NUM_MASK + 1 = hdr_pn_len h) ∧
  (ty h = Short → negb (Z.land (first_byte h) KEY_PHASE_BIT =? 0) = key_phase h).
Proof.
  intros (Hn & _ & _ & _ & _ & Ht & _). unfold first_byte.
  assert (hdr_pn_len h = 0 ∨ hdr_pn_len h = 1 ∨ hdr_pn_len h = 2 ∨ hdr_pn_len h = 3 ∨ hdr_pn_len h = 4)
    as [E|[E|[E|[E|E]]]] by lia; rewrite E; destruct (ty h); try done; destruct (key_phase h);
    (split; [by_decision|]; split; [done|]; split; [done|]; split; [done|done]).
Qed.

Lemma writes_byte v : 0 ≤ v < 256 → writes (w_u8 (as_u8 v)) [v].
Proof. intros Hv. unfold as_u8. rewrite Z.mod_small by lia. by apply writes_u8. Qed.

Lemma header_writes h : header_ok h → writes (header_to_bytes h) (header_enc h).
Proof.
  intros Hok. destruct (first_byte_bits h Hok) as (Hb & _). destruct Hok as (_ & _ & _ & Hd & Hs & Ht & Hv).
  unfold MAX_CID_LEN in *. pose proof (blen_nonneg (dcid h)). pose proof (blen_nonneg (scid h)).
  unfold header_to_bytes, header_enc, header_tail, first_byte, token_enc in *. change (?x :: ?l) with ([x] ++ l).
  destruct (ty h) eqn:E; cbn [type_code mbind comp_bind]; try done;
    try (destruct (decide _) as [|_]; [done|]);
    try (destruct (decide _) as [_|]; [|done]); cbv beta.
  all: repeat (apply writes_and; [first [by apply writes_u8|apply writes_bytes|by apply (writes_u 3)|by apply writes_byte; lia]|]).
  - cbn [w_token]. destruct (token h) as [v|]; cbn [default] in *.
    + apply writes_and; [apply writes_varint; split; [blia|unfold MAX_VAR_INT; lia]|apply writes_bytes].
    + apply writes_varint. split; [done|unfold MAX_VAR_INT; lia].
  - cbn [w_token]. destruct Ht as (v & -> & _). apply writes_bytes.
  - apply writes_nothing.
  - apply writes_nothing.
  - apply writes_bytes.
Qed.

(** A header with its packet number and key phase still hidden. *)
Definition hidden (h : Header) : Header :=
  mk_header (ty h) (version h) (dcid h) (scid h) 0 0
    (match ty h with Initial => Some (default [] (token h)) | _ => token h end) None false.

(** The masked first byte still tells the form and the type. *)
Definition tells (h : Header) (f : Z) : Prop :=
  u8 f ∧ is_long f = is_long (first_byte h) ∧
  (ty h ≠ Short → Z.land f TYPE_MASK = Z.land (first_byte h) TYPE_MASK).

Lemma spells_long_cid v s : bytes_ok s → blen s ≤ MAX_CID_LEN → spells (long_cid v) ([blen s] ++ s) s.
Proof.
  intros Hs Hl. unfold MAX_CID_LEN in *. pose proof (blen_nonneg s). eapply spells_bind; [apply spells_u8; unfold u8; lia|].
  unfold MAX_CID_LEN. destruct (Z.gtb_spec (blen s) 20); [lia|]. rewrite andb_false_r. apply spells_vec.
Qed.

(** Every header but that of a Retry, which has no end of its own. *)
Lemma header_reads `{w : arch} h f : header_ok h → ty h ≠ Retry → tells h f →
  spells (header_from_bytes (blen (dcid h))) (f :: header_tail h) (hidden h).
Proof.
  intros Hok Hr (Hf & Hl & Ht). destruct (first_byte_bits h Hok) as (_ & Hlong & Hty & _ & _).
  destruct Hok as (_ & Hd & Hs & Hdl & Hsl & Htk & Hv). unfold header_from_bytes. change (f :: ?l) with ([f] ++ l).
  eapply spells_bind; [by apply spells_u8|]. rewrite Hl, Hlong. unfold header_tail, hidden.
  destruct (decide (ty h = Short)) as [E|E].
  - rewrite bool_decide_true by done. cbn [negb]. rewrite E in *. destruct Hv as [Hv Hsc].
    rewrite <- (app_nil_r (dcid h)) at 2. eapply spells_bind; [apply spells_vec|].
    rewrite Hv, Hsc, Htk. apply spells_ret.
  - rewrite bool_decide_false by done. cbn [negb].
    assert (Hv' : 1 ≤ version h < 2 ^ 32) by (by destruct (ty h)).
    assert (Hlt : long_type f (version h) = Ok (ty h)).
    { unfold long_type. destruct (Z.eqb_spec (version h) 0); [lia|]. rewrite (Ht E), (Hty E). by destruct (ty h). }
    assert (Hsp : spells (long_rest (ty h)) (token_enc h)
      (match ty h with Initial => Some (default [] (token h)) | _ => token h end, None)).
    { unfold token_enc, long_rest. destruct (ty h) eqn:Ety; try done; rewrite ?Htk; try apply spells_ret.
      rewrite <- (app_nil_r (_ ++ _)). eapply spells_bind; [apply spells_vec_with_varint_length, Htk|apply spells_ret]. }
    assert (Htail : match ty h with Short => dcid h | _ => be_bytes 4 (version h) ++ [blen (dcid h)] ++ dcid h ++
        [blen (scid h)] ++ scid h ++ token_enc h end =
      be_bytes 4 (version h) ++ [] ++ ([blen (dcid h)] ++ dcid h) ++ ([blen (scid h)] ++ scid h) ++ token_enc h ++ [])
      by (rewrite app_nil_r, <- !app_assoc; by destruct (ty h)).
    rewrite Htail. eapply spells_bind; [apply spells_u32; lia|]. eapply spells_bind.
    { intros b r Hb. rewrite Hlt. exists b. split_and!; [done..|]. rewrite blen_nil. lia. }
    eapply spells_bind; [by apply spells_long_cid|]. eapply spells_bind; [by apply spells_long_cid|].
    eapply spells_bind; [exact Hsp|]. apply spells_ret.
Qed.

(** ** Header protection *)

(** A fact about two bytes, checked on all of them. *)
Lemma all_bytes2 (test : Z → Z → bool) :
  forallb (λ x, forallb (test x) (seqZ 0 256)) (seqZ 0 256) = true → ∀ x y, u8 x → u8 y → test x y = true.
Proof.
  intros Ht x y Hx Hy. unfold u8 in *. rewrite forallb_forall in Ht. specialize (Ht x).
  rewrite forallb_forall in Ht. apply Ht; apply list_elem_of_In, elem_of_seqZ; lia.
Qed.

Definition mask_first_test (f m : Z) : bool :=
  let f' := mask_first f m in
  (0 <=? f') && (f' <? 256) && (mask_first f' m =? f) && Bool.eqb (is_long f') (is_long f) &&
  (negb (is_long f) || (Z.land f' TYPE_MASK =? Z.land f TYPE_MASK)).

Lemma mask_first_ok f m : u8 f → u8 m →
  u8 (mask_first f m) ∧ mask_first (mask_first f m) m = f ∧ is_long (mask_first f m) = is_long f ∧
  (is_long f = true → Z.land (mask_first f m) TYPE_MASK = Z.land f TYPE_MASK).
Proof.
  intros Hf Hm. pose proof (all_bytes2 mask_first_test ltac:(by vm_compute) f m Hf Hm) as Ht.
  unfold mask_first_test in Ht. cbv zeta in Ht. rewrite !andb_true_iff in Ht. destruct Ht as ((((H1 & H2) & H3) & H4) & H5).
  apply Bool.eqb_prop in H4. split_and!; [unfold u8; lia|lia|done|]. intros Hl. rewrite Hl in H5. cbn in H5. lia.
Qed.

Lemma xor_bytes_twice l m : (length l ≤ length m)%nat → xor_bytes (xor_bytes l m) m = l.
Proof.
  revert m. induction l as [|x l IH]; intros [|y m]; cbn; [done..|lia|]. intros Hl.
  rewrite Z.lxor_assoc, Z.lxor_nilpotent, Z.lxor_0_r. f_equal. apply IH. lia.
Qed.

Section protect.
Context `{BoringLaws}.

Lemma header_mask_ok k sample : blen sample = SAMPLE_LEN →
  ∃ mask, header_mask k sample = Ok mask ∧ blen mask = HP_MASK_LEN ∧ bytes_ok mask.
Proof.
  intros Hs. unfold header_mask, SAMPLE_LEN, HP_MASK_LEN in *. destruct k as [k|key].
  - destruct (aes_block k sample) as [Hl Hb]. exists (takez 5 (AES_ecb_encrypt k sample)).
    split; [unfold index_range; by rewrite slice_prefix by lia|]. split; [by rewrite blen_takez by lia|by apply bytes_ok_takez].
  - unfold index_range. rewrite slice_prefix, slice_suffix by lia. cbn [mbind comp_bind mret comp_ret].
    edestruct chacha_stream as [Hl Hb]. eexists. split; [done|]. by split; [rewrite Hl|].
Qed.

Lemma index_range_takez {E} (l : bytes) a e : 0 ≤ a ≤ e → e ≤ blen l →
  index_range (E := E) l a e = Ok (takez (e - a) (dropz a l)).
Proof.
  intros H1 H2. unfold index_range, slice.
  by destruct (Z.leb_spec 0 a), (Z.leb_spec a e), (Z.leb_spec e (blen l)); try lia.
Qed.

Lemma at_head {E} x l : at_ (E := E) (x :: l) 0 = Ok x.
Proof. done. Qed.

(** Masking a packet number of [n] bytes with the bytes behind the first. *)
Lemma mask_pn_ok x mask n m0 mt : mask = m0 :: mt → blen mask = HP_MASK_LEN → 0 ≤ n ≤ blen x → n ≤ 4 →
  mask_pn x mask n = Ok (xor_bytes (takez n x) (takez n mt)).
Proof.
  intros -> Hl Hn H4. unfold HP_MASK_LEN in Hl. unfold mask_pn. rewrite index_range_takez by lia. cbn [mbind comp_bind].
  rewrite index_range_takez by lia. cbn [mbind comp_bind mret comp_ret].
  replace (1 + n - 1) with n by lia. by rewrite Z.sub_0_r.
Qed.

(** The sample of a packet whose number has [n] bytes. *)
Definition sample_of (n : Z) (payload : bytes) : bytes := takez SAMPLE_LEN (dropz (MAX_PKT_NUM_LEN - n) payload).

Lemma blen_sample n payload : n ≤ 4 → 20 - n ≤ blen payload → blen (sample_of n payload) = SAMPLE_LEN.
Proof. intros. unfold sample_of, SAMPLE_LEN, MAX_PKT_NUM_LEN in *. rewrite blen_takez; rewrite ?blen_dropz; lia. Qed.

(** The mask of a sample, taken apart. *)
Lemma mask_parts k sample : blen sample = SAMPLE_LEN →
  ∃ m0 mt, header_mask k sample = Ok (m0 :: mt) ∧ u8 m0 ∧ blen mt = 4.
Proof.
  intros Hs. destruct (header_mask_ok k sample Hs) as (mask & E & Hl & Hb). unfold HP_MASK_LEN in Hl.
  destruct mask as [|m0 mt]; [done|]. apply Forall_cons in Hb as [? _]. exists m0, mt. rewrite blen_cons in Hl.
  split_and!; [done..|lia].
Qed.

Lemma encrypt_hdr_ok s f rest pnb payload n o m0 mt :
  blen pnb = n → 1 ≤ n ≤ 4 → 20 - n ≤ blen payload →
  seal_mask s (sample_of n payload) = Ok (m0 :: mt) → blen mt = 4 →
  encrypt_hdr (Octets (f :: rest ++ pnb) o) n payload s =
    Ok (Octets (mask_first f m0 :: rest ++ xor_bytes pnb (takez n mt)) o).
Proof.
  intros Hn H4 Hp Hm Hmt. pose proof (blen_nonneg rest). unfold encrypt_hdr, MAX_PKT_NUM_LEN, SAMPLE_LEN.
  rewrite usub_ok by lia. cbn [mbind comp_bind]. rewrite index_range_takez by lia. cbn [mbind comp_bind].
  replace (16 + (4 - n) - (4 - n)) with 16 by lia. fold SAMPLE_LEN. fold MAX_PKT_NUM_LEN.
  change (takez SAMPLE_LEN (dropz (MAX_PKT_NUM_LEN - n) payload)) with (sample_of n payload). rewrite Hm. cbn [mbind comp_bind].
  unfold split_at. cbn [buf]. destruct (Z.ltb_spec (blen (f :: rest ++ pnb)) 1); [blia|]. cbn [too_short map_err mbind comp_bind].
  change (takez 1 (f :: rest ++ pnb)) with [f]. change (dropz 1 (f :: rest ++ pnb)) with (rest ++ pnb).
  cbn [buf with_slice]. rewrite at_head. cbn [mbind comp_bind]. rewrite at_head. cbn [mbind comp_bind]. unfold slice_last, cap. cbn [buf off with_slice].
  destruct (Z.ltb_spec (blen (rest ++ pnb) - 0) n); [blia|]. rewrite index_range_suffix by blia.
  replace (blen (rest ++ pnb) - n) with (blen rest) by blia. rewrite dropz_app. cbn [too_short map_err mbind comp_bind].
  rewrite (mask_pn_ok pnb (m0 :: mt) n m0 mt eq_refl) by (unfold HP_MASK_LEN; blia). cbn [mbind comp_bind mret comp_ret].
  rewrite takez_app, (takez_all n pnb) by lia. done.
Qed.

Lemma get_pn_ok p pnb r n : blen pnb = n → 1 ≤ n ≤ 4 →
  get_pn n (Octets (p ++ pnb ++ r) (blen p)) = Ok (be_val pnb, Octets (p ++ pnb ++ r) (blen p + n)).
Proof.
  intros Hn H4. set (b := Octets _ _). assert (Hb : reads b (pnb ++ r)) by (by exists p).
  destruct (get_u_reads n b pnb r Hb Hn) as [E _].
  assert (n = 1 ∨ n = 2 ∨ n = 3 ∨ n = 4) as [->|[->|[->| ->]]] by lia;
    unfold get_pn, get_u8, get_u16, get_u24, get_u32; by rewrite E.
Qed.

(** The header with its number. *)
Definition numbered (h : Header) (pn n : Z) (phase : bool) : Header :=
  mk_header (ty h) (version h) (dcid h) (scid h) pn n (token h) (versions h)
    (if decide (ty h = Short) then phase else key_phase h).

Lemma decrypt_hdr_ok o hdr f rest pnb payload n m0 mt :
  blen pnb = n → 1 ≤ n ≤ 4 → 20 - n ≤ blen payload → u8 f → Z.land f PKT_NUM_MASK + 1 = n →
  open_mask o (sample_of n payload) = Ok (m0 :: mt) → blen mt = 4 → u8 m0 →
  decrypt_hdr (Octets (mask_first f m0 :: rest ++ xor_bytes pnb (takez n mt) ++ payload) (1 + blen rest)) hdr o =
    Ok (Octets (f :: rest ++ pnb ++ payload) (1 + blen rest + n),
        numbered hdr (be_val pnb) n (negb (Z.land f KEY_PHASE_BIT =? 0))).
Proof.
  intros Hn H4 Hp Hf Hfn Hm Hmt Hm0. pose proof (blen_nonneg rest). set (x := xor_bytes pnb (takez n mt)).
  assert (Hx : blen x = n) by (unfold x; rewrite blen_xor_bytes; lia).
  set (f' := mask_first f m0). destruct (mask_first_ok f m0 Hf Hm0) as (_ & Hff & _). fold f' in Hff.
  unfold decrypt_hdr, split_at. cbn [buf off].
  destruct (Z.ltb_spec (blen (f' :: rest ++ x ++ payload)) 1); [blia|]. cbn [too_short map_err mbind comp_bind].
  change (takez 1 (f' :: rest ++ x ++ payload)) with [f']. cbn [buf with_slice]. rewrite !at_head. cbn [mbind comp_bind].
  change (f' :: rest ++ x ++ payload) with ((f' :: rest) ++ x ++ payload).
  replace (1 + blen rest) with (blen (f' :: rest)) by blia.
  unfold peek_bytes, cap. cbn [buf off]. change (MAX_PKT_NUM_LEN + SAMPLE_LEN) with 20.
  destruct (Z.ltb_spec (blen ((f' :: rest) ++ x ++ payload) - blen (f' :: rest)) 20); [blia|].
  rewrite index_range_takez, dropz_app by blia. cbn [mbind comp_bind too_short map_err].
  replace (blen (f' :: rest) + 20 - blen (f' :: rest)) with 20 by lia.
  cbn [buf with_slice]. change MAX_PKT_NUM_LEN with 4. set (q := takez 20 (x ++ payload)).
  assert (Hq : blen q = 20) by (unfold q; rewrite blen_takez; blia).
  destruct (Z.ltb_spec (blen q) 4); [lia|]. cbn [too_short map_err mbind comp_bind].
  rewrite (as_ref_reads _ _ (reads_with_slice _)). cbn [too_short map_err mbind comp_bind].
  assert (Hs : dropz 4 q = sample_of n payload).
  { unfold q, sample_of, SAMPLE_LEN, MAX_PKT_NUM_LEN. rewrite dropz_takez by lia. f_equal.
    replace 4 with (blen x + (4 - n)) at 1 by lia. rewrite <- dropz_dropz by lia. by rewrite dropz_app. }
  rewrite Hs, Hm. cbn [mbind comp_bind]. rewrite at_head. cbn [mbind comp_bind]. rewrite Hff, Hfn.
  assert (Hq4 : takez n (takez 4 q) = x).
  { unfold q. rewrite !takez_takez by lia. rewrite <- Hx at 1. apply takez_app. }
  cbn [buf with_slice].
  rewrite (mask_pn_ok (takez 4 q) (m0 :: mt) n m0 mt eq_refl) by (unfold HP_MASK_LEN; rewrite ?blen_cons, ?blen_takez; lia).
  cbn [mbind comp_bind]. rewrite Hq4.
  replace (xor_bytes x (takez n mt)) with pnb.
  2: { symmetry. apply xor_bytes_twice. pose proof (blen_takez n mt ltac:(lia)) as Ht. unfold blen in Ht, Hn. lia. }
  rewrite overwrite_app. replace (blen pnb) with (blen x) by lia. rewrite dropz_app.
  rewrite (get_pn_ok (f' :: rest) pnb payload n Hn H4). cbn [mbind comp_bind buf off].
  destruct (Z.ltb_spec (blen ((f' :: rest) ++ pnb ++ payload)) 1); [blia|]. cbn [too_short map_err mbind comp_bind].
  unfold overwrite. cbn [app]. change (takez 0 ?l) with (@nil Z). change (0 + blen [f]) with 1.
  change (dropz 1 (f' :: ?l)) with l. cbn [app]. unfold mret, comp_ret, numbered. do 3 f_equal.
Qed.

Lemma sample_app n a b : 1 ≤ n ≤ 4 → 20 - n ≤ blen a → sample_of n (a ++ b) = sample_of n a.
Proof.
  intros Hn Ha. unfold sample_of, SAMPLE_LEN, MAX_PKT_NUM_LEN. rewrite dropz_app_l by lia.
  rewrite <- (takez_dropz 16 (dropz (4 - n) a)) at 1. rewrite <- app_assoc.
  rewrite <- (blen_takez 16 (dropz (4 - n) a)) at 1 by (rewrite blen_dropz; lia). apply takez_app.
Qed.

Lemma decrypt_pkt_ok o hd ct pn n pl rest more :
  open_with_u64_counter o pn hd ct = Ok (blen pl, pl ++ rest) → blen (pl ++ rest) = blen ct → 0 ≤ n →
  ∃ b, decrypt_pkt (Octets (hd ++ ct ++ more) (blen hd)) pn n (n + blen ct) o = Ok (with_slice pl, b) ∧
    off b = blen hd + blen pl.
Proof.
  intros E Hl Hn. unfold decrypt_pkt, split_at. cbn [buf off].
  destruct (Z.ltb_spec (blen (hd ++ ct ++ more)) (blen hd)); [blia|]. cbn [too_short map_err mbind comp_bind].
  rewrite takez_app, dropz_app. pose proof (blen_nonneg ct). destruct (Z.ltb_spec (n + blen ct) n); [lia|].
  replace (n + blen ct - n) with (blen ct) by lia. unfold peek_bytes, cap. cbn [buf off with_slice].
  destruct (Z.ltb_spec (blen (ct ++ more) - 0) (blen ct)); [blia|].
  rewrite index_range_takez by blia. cbn [mbind comp_bind too_short map_err buf with_slice].
  change (dropz 0 ?l) with l. replace (0 + blen ct - 0) with (blen ct) by lia. rewrite takez_app, E. cbn [mbind comp_bind].
  rewrite overwrite_app. set (b := Octets _ _). assert (Hb : reads b (pl ++ rest ++ dropz (blen (pl ++ rest)) (ct ++ more))).
  { exists hd. split; [|done]. unfold b. cbn [buf]. by rewrite <- !app_assoc. }
  destruct (get_bytes_reads b pl _ Hb) as [Eg _]. rewrite Eg. eexists. split; [done|done].
Qed.

(** The packet a sender protects, and what the receiver makes of it. *)
Lemma protected_opens s o hdr f rest pnb pl room pn n off0 written b' :
  paired s o → blen pnb = n → 1 ≤ n ≤ 4 → 4 ≤ n + blen pl → bytes_ok (f :: rest ++ pnb) → bytes_ok (pl ++ room) →
  Z.land f PKT_NUM_MASK + 1 = n →
  (encrypt_pkt (Octets ((f :: rest ++ pnb) ++ pl ++ room) off0) pn n (blen pl) (blen (f :: rest ++ pnb)) None s).1 =
    Ok (written, b') →
  ∃ m0 pnb' ct, u8 m0 ∧ takez written (buf b') = mask_first f m0 :: rest ++ pnb' ++ ct ∧ blen pnb' = n ∧
    blen ct = blen pl + tag_len (s_alg s) ∧ written = blen (f :: rest ++ pnb) + blen ct ∧
    ∀ more, ∃ b c,
      decrypt_hdr (Octets (mask_first f m0 :: rest ++ pnb' ++ ct ++ more) (1 + blen rest)) hdr o =
        Ok (b, numbered hdr (be_val pnb) n (negb (Z.land f KEY_PHASE_BIT =? 0))) ∧
      decrypt_pkt b pn n (n + blen ct) o = Ok (with_slice pl, c) ∧ off c = blen (f :: rest ++ pnb) + blen pl.
Proof.
  intros Hp Hn H4 Hpl Hbh Hbp Hf. unfold encrypt_pkt, split_at. cbn [buf off].
  destruct (Z.ltb_spec (blen ((f :: rest ++ pnb) ++ pl ++ room)) (blen (f :: rest ++ pnb))); [blia|].
  cbn [too_short map_err]. rewrite takez_app, dropz_app. cbn [buf with_slice].
  destruct (seal_with_u64_counter s pn (f :: rest ++ pnb) (pl ++ room) (blen pl) None) as [[[m pb]|e|] s'] eqn:Es; [|done..].
  pose proof (paired_seal s o pn (f :: rest ++ pnb) (pl ++ room) (blen pl) None Hp) as Hp'. rewrite Es in Hp'. cbn [snd] in Hp'.
  apply (f_equal fst) in Es. cbn [fst] in Es.
  assert (Hin : 0 ≤ blen pl ≤ blen (pl ++ room)) by blia.
  destruct (sealed_opens s o pn _ _ (blen pl) None m pb Hp Hin Hbp (Forall_nil_2 _) Es) as (Hm & Hmb & Hlb & Hbb & _ & q & Eo).
  unfold sealed_len in Hm. cbn [default] in Hm, Eo. change (blen []) with 0 in *. rewrite Z.add_0_r, app_nil_r, takez_app in Eo.
  set (ct := takez m pb) in *. assert (0 ≤ tag_len (s_alg s)) by (by destruct (s_alg s)). pose proof (blen_nonneg pl).
  assert (Hct : blen ct = m) by (unfold ct; rewrite blen_takez; lia).
  assert (Htag : tag_len (s_alg s) = 16) by (by destruct (s_alg s)).
  rewrite <- (takez_dropz m pb). fold ct. set (z := dropz m pb).
  destruct (mask_parts (s_header s') (sample_of n ct) (blen_sample n ct ltac:(lia) ltac:(lia))) as (m0 & mt & Em & Hm0 & Hmt).
  unfold with_slice. rewrite (encrypt_hdr_ok s' f rest pnb (ct ++ z) n 0 m0 mt) by (rewrite ?sample_app; blia || done).
  cbn [mbind comp_bind mret comp_ret fst]. intros [= <- <-]. cbn [buf].
  exists m0, (xor_bytes pnb (takez n mt)), ct. split; [done|].
  set (pnb' := xor_bytes pnb (takez n mt)). assert (Hpn' : blen pnb' = n) by (unfold pnb'; rewrite blen_xor_bytes; lia).
  split; [|split; [done|split; [lia|split; [lia|]]]].
  { change (mask_first f m0 :: (rest ++ pnb') ++ ct ++ z) with ((mask_first f m0 :: rest ++ pnb') ++ ct ++ z).
    rewrite (app_assoc _ ct z). replace (blen (f :: rest ++ pnb) + m) with (blen ((mask_first f m0 :: rest ++ pnb') ++ ct)) by (rewrite !blen_app, !blen_cons, !blen_app; lia).
    rewrite takez_app. cbn [app]. by rewrite <- app_assoc. }
  intros more. apply Forall_cons in Hbh as [Hf8 _].
  assert (Emo : open_mask o (sample_of n (ct ++ more)) = Ok (m0 :: mt)).
  { rewrite sample_app by lia. destruct Hp' as (_ & _ & Hh & _). unfold open_mask. by rewrite <- Hh. }
  assert (Hlo : blen (pl ++ q) = blen ct).
  { destruct Hp as (Ha & _ & _ & key & iv & Hl & _ & _ & (Ek & Hk & En)). unfold open_with_u64_counter, pk_open in Eo.
    rewrite Ek, En in Eo. destruct (_ <? _); [done|]. destruct (make_nonce iv pn) as [nonce|e|]; [|done..]. cbn [mbind comp_bind] in Eo.
    destruct (EVP_AEAD_CTX_open _ _ _ _) as [out|] eqn:Eop; [|done]. injection Eo as Hlo Eo.
    apply (open_length _ _ _ _ _ _ _ Hk) in Eop as [Hol _]. rewrite <- Eo. rewrite blen_app, blen_dropz; lia. }
  destruct (decrypt_pkt_ok o (f :: rest ++ pnb) ct pn n pl q more Eo Hlo ltac:(lia)) as (c & Ec & Hc).
  exists (Octets (f :: rest ++ pnb ++ ct ++ more) (1 + blen rest + n)), c.
  split; [apply (decrypt_hdr_ok o hdr f rest pnb (ct ++ more) n m0 mt); (done || blia)|].
  replace (Octets _ _) with (Octets ((f :: rest ++ pnb) ++ ct ++ more) (blen (f :: rest ++ pnb))); [by split|].
  f_equal; [cbn [app]; by rewrite <- app_assoc|blia].
Qed.
End protect.

(** ** Any bytes are a header or none *)

Lemma safely_u32 : reads_safely u32_ (λ v, 0 ≤ v < 2 ^ 32).
Proof.
  intros b Hok Hb. unfold u32_, get_u32. pose proof (steps_get_u 4 b ltac:(lia)) as Hs.
  destruct (get_u 4 b) as [[v b']|[]|] eqn:E; cbn in *; [|done|by destruct Hs].
  destruct Hs as [[Hu Ho] Hc]. split; [|split; [by apply Hc|split; [done|lia]]].
  unfold get_u, peek_u in E. rewrite (as_ref_reads _ _ (ok_reads b Hok)) in E. cbn [mbind comp_bind] in E.
  destruct (Z.ltb_spec (blen (dropz (off b) (buf b))) 4); [done|]. injection E as <- _.
  pose proof (be_val_bound (takez 4 (dropz (off b) (buf b))) ltac:(by apply bytes_ok_takez, bytes_ok_dropz)) as Hv.
  rewrite blen_takez in Hv by lia. exact Hv.
Qed.

Lemma u32_takes b v b' : u32_ b = Ok (v, b') → buf b' = buf b ∧ off b + 4 ≤ off b'.
Proof.
  intros E. unfold u32_, get_u32 in E. destruct (get_u 4 b) as [[v' b1]|[]|] eqn:Eg; [|done..]. injection E as -> ->.
  by apply get_u_advances in Eg.
Qed.

#[local] Instance versions_decreasing : Decreasing (λ st : list Z * octets, cursor_measure st.2) versions_step.
Proof.
  intros [l b] [l' b'] E. unfold versions_step in E. destruct (Z.gtb_spec (cap b) 0); [|done].
  destruct (u32_ b) as [[v b1]|e|] eqn:Eu; [|done..]. injection E as <- <-. apply u32_takes in Eu as [Hu Ho].
  unfold cursor_measure, cap in *. cbn [snd]. rewrite Hu. lia.
Qed.

Lemma safely_version_list : reads_safely version_list (Forall (λ v, 0 ≤ v < 2 ^ 32)).
Proof.
  unfold version_list. apply (safely_loop _ versions_step (Forall (λ v, 0 ≤ v < 2 ^ 32)) _ (λ b, Ok ([], b)) []);
    [apply _| |constructor].
  intros l b Hok Hb Hl. unfold versions_step. destruct (cap b >? 0); [|cbn; split_and!; (done || lia)].
  pose proof (safely_u32 b Hok Hb) as Hs. destruct (u32_ b) as [[v b1]|e|]; [|done..]. destruct Hs as (Hv & ? & ? & ?).
  cbn. split; [apply Forall_app_2; [done|by constructor]|done].
Qed.

Lemma safely_long_cid v : reads_safely (long_cid v) (λ c, bytes_ok c ∧ blen c ≤ 255 ∧ (version_is_supported v = true → blen c ≤ MAX_CID_LEN)).
Proof.
  unfold long_cid. eapply safely_bind; [apply safely_u8|intros n Hn]. unfold u8 in Hn.
  destruct (version_is_supported v && (n >? MAX_CID_LEN)) eqn:E; [apply safely_fail|].
  eapply safely_weaken; [|apply safely_vec; lia]. intros c [Hc Hl]. split; [done|]. split; [lia|].
  intros Hv. rewrite Hv in E. cbn [andb] in E. unfold MAX_CID_LEN in *. lia.
Qed.

(** What a parsed header is. *)
Definition header_typed (dcid_len : Z) (h : Header) : Prop :=
  bytes_ok (dcid h) ∧ bytes_ok (scid h) ∧ pkt_num h = 0 ∧ hdr_pn_len h = 0 ∧ key_phase h = false ∧
  (∀ t, token h = Some t → bytes_ok t ∧ (ty h = Initial ∨ ty h = Retry)) ∧
  (∀ l, versions h = Some l → ty h = VersionNegotiation ∧ Forall (λ v, 0 ≤ v < 2 ^ 32) l) ∧
  match ty h with
  | Short => blen (dcid h) = dcid_len ∧ scid h = []
  | _ => (version h = 0 ↔ ty h = VersionNegotiation) ∧
      (version_is_supported (version h) = true → blen (dcid h) ≤ MAX_CID_LEN ∧ blen (scid h) ≤ MAX_CID_LEN)
  end.

Lemma safely_long_rest `{w : arch} ty : reads_safely (long_rest ty) (λ '(tk, vs),
  (∀ t, tk = Some t → bytes_ok t ∧ (ty = Initial ∨ ty = Retry)) ∧
  (∀ l, vs = Some l → ty = VersionNegotiation ∧ Forall (λ v, 0 ≤ v < 2 ^ 32) l)).
Proof.
  destruct ty; cbn [long_rest]; try (by apply safely_ret).
  - eapply safely_bind; [apply safely_vec_with_varint_length|intros t Ht]. apply safely_ret. split; [|done].
    intros t' [= <-]. auto.
  - intros b Hok Hb. unfold mbind, reader_bind, room. destruct (Z.ltb_spec (cap b) (tag_len AES128_GCM)); [done|].
    revert b Hok Hb H. intros b Hok Hb Hc. apply (safely_bind (vec (cap b - tag_len AES128_GCM)) _ (λ t, bytes_ok t)); [..|done|done].
    + eapply safely_weaken; [|apply safely_vec; cbn in *; lia]. by intros c [? _].
    + intros t Ht. apply safely_ret. split; [|done]. intros t' [= <-]. auto.
  - eapply safely_bind; [apply safely_version_list|intros l Hl]. apply safely_ret. split; [done|]. by intros l' [= <-].
Qed.

Lemma safely_header `{w : arch} n : 0 ≤ n → reads_safely (header_from_bytes n) (header_typed n).
Proof.
  intros Hn. unfold header_from_bytes. eapply safely_bind; [apply safely_u8|intros f Hf].
  destruct (negb (is_long f)).
  { eapply safely_bind; [by apply safely_vec|intros c [Hc Hl]]. apply safely_ret.
    split_and!; cbn; (done || constructor). }
  eapply safely_bind; [apply safely_u32|intros v Hv].
  eapply (safely_bind _ _ (λ t, long_type f v = Ok t)).
  { intros b Hok Hb. destruct (long_type f v) as [t|e|] eqn:E; cbn; [split_and!; (done || lia)|done|].
    unfold long_type in E. destruct (v =? 0); [done|]. repeat case_match; done. }
  intros t Et. eapply safely_bind; [apply safely_long_cid|intros d (Hd & _ & Hdl)].
  eapply safely_bind; [apply safely_long_cid|intros s (Hs & _ & Hsl)].
  eapply safely_bind; [apply safely_long_rest|intros [tk vs] [Htk Hvs]]. apply safely_ret.
  assert (Ht : t ≠ Short ∧ (v = 0 ↔ t = VersionNegotiation)).
  { unfold long_type in Et. destruct (Z.eqb_spec v 0); [by simplify_eq|]. by repeat case_match; simplify_eq. }
  split_and!; cbn; try done. destruct Ht as [Ht Hv0]. destruct t; try done; (split; [done|auto]).
Qed.
