(* ===== verification/PktSpace.v ===== *)
(** * Packet number spaces

    Of src/quiche/quiche/src/packet.rs: the window of received packet numbers
    ([PktNumWindow]), the state of a packet number space ([PktNumSpace]) and
    the numbers skipped on purpose ([PktNumManager]). *)

From Stdlib Require Import Sorted.
From S2P Require Import Prelude Ranges QuicCrypto Packet.

(** ** The window of received numbers *)

Record PktNumWindow := mk_window { lower : Z; window : Z }.

Definition default_window : PktNumWindow := mk_window 0 0.

(** [self.lower.saturating_add(128) - 1]. *)
Definition upper (w : PktNumWindow) : Z := Z.min (lower w + 128) (2 ^ 64 - 1) - 1.

(** [x.checked_shl(n).unwrap_or(0)] on u128. *)
Definition shl128 (x n : Z) : Z := if n <? 128 then Z.shiftl x n mod 2 ^ 128 else 0.

Definition window_insert (seq : Z) (w : PktNumWindow) : PktNumWindow :=
  if seq <? lower w then w else
  let w :=
    if seq >? upper w then
      let diff := seq - upper w in
      mk_window (lower w + diff) (shl128 (window w) (as_u32 diff))
    else w in
  let mask := Z.shiftl 1 (upper w - seq) in
  mk_window (lower w) (Z.lor (window w) mask).

Definition window_contains (seq : Z) (w : PktNumWindow) : bool :=
  if seq >? upper w then false
  else if seq <? lower w then true
  else
    let mask := Z.shiftl 1 (upper w - seq) in
    negb (Z.land (window w) mask =? 0).

(** ** The reference: the set of numbers received *)

Definition window_ok (w : PktNumWindow) : Prop := 0 ≤ lower w < 2 ^ 63 ∧ 0 ≤ window w < 2 ^ 128.

(** The window stands for the numbers [l]: it holds those not below it, and
    takes everything below it for received. *)
Definition stands_for (w : PktNumWindow) (l : list Z) : Prop :=
  window_ok w ∧ Forall (λ x, x ≤ upper w) l ∧
  ∀ x, lower w ≤ x ≤ upper w → Z.testbit (window w) (upper w - x) = bool_decide (x ∈ l).

Lemma upper_ok w : window_ok w → upper w = lower w + 127.
Proof. intros [Hl _]. unfold upper. lia. Qed.

Lemma mask_bit x i : 0 ≤ i → negb (Z.land x (Z.shiftl 1 i) =? 0) = Z.testbit x i.
Proof.
  intros Hi. rewrite Z.shiftl_1_l. destruct (Z.testbit x i) eqn:E.
  - apply negb_true_iff, Z.eqb_neq. intros E0. apply (f_equal (λ z, Z.testbit z i)) in E0.
    rewrite Z.land_spec, E, Z.pow2_bits_true, Z.bits_0 in E0 by lia. done.
  - apply negb_false_iff, Z.eqb_eq. apply Z.bits_inj'. intros j Hj. rewrite Z.land_spec, Z.bits_0.
    destruct (decide (j = i)) as [->|Hne]; [by rewrite E|]. rewrite Z.pow2_bits_false by lia. apply andb_false_r.
Qed.

Lemma shl128_bit x n i : 0 ≤ n → 0 ≤ x < 2 ^ 128 → 0 ≤ i < 128 →
  Z.testbit (shl128 x n) i = if n <=? i then Z.testbit x (i - n) else false.
Proof.
  intros Hn Hx Hi. unfold shl128. destruct (Z.ltb_spec n 128).
  - rewrite Z.mod_pow2_bits_low by lia. destruct (Z.leb_spec n i).
    + by rewrite Z.shiftl_spec by lia.
    + by rewrite Z.shiftl_spec_low by lia.
  - rewrite Z.bits_0. by destruct (Z.leb_spec n i); [lia|].
Qed.

Lemma shl128_ok x n : 0 ≤ shl128 x n < 2 ^ 128.
Proof. unfold shl128. destruct (n <? 128); [apply Z.mod_pos_bound; lia|lia]. Qed.

Lemma lor_bound a b n : 0 < n → 0 ≤ a < 2 ^ n → 0 ≤ b < 2 ^ n → 0 ≤ Z.lor a b < 2 ^ n.
Proof.
  intros Hn Ha Hb. assert (Hlog : ∀ x, 0 ≤ x < 2 ^ n → Z.log2 x < n).
  { intros x Hx. destruct (decide (x = 0)) as [->|]; [cbn; lia|apply Z.log2_lt_pow2; lia]. }
  assert (0 ≤ Z.lor a b) by (apply Z.lor_nonneg; lia). split; [done|].
  destruct (decide (Z.lor a b = 0)) as [->|]; [lia|]. apply Z.log2_lt_pow2; [lia|].
  rewrite Z.log2_lor by lia. pose proof (Hlog a Ha). pose proof (Hlog b Hb). lia.
Qed.

(** What the window answers. *)
Lemma window_contains_ok w l x : stands_for w l →
  window_contains x w = (x <? lower w) || bool_decide (x ∈ l).
Proof.
  intros (Hw & Hl & Hb). pose proof (upper_ok w Hw) as Hu. unfold window_contains.
  destruct (Z.gtb_spec x (upper w)) as [Hx|Hx].
  - destruct (Z.ltb_spec x (lower w)); [lia|]. cbn [orb]. symmetry. apply bool_decide_false.
    intros Hin. eapply Forall_forall in Hl; [|done]. cbn in Hl. lia.
  - destruct (Z.ltb_spec x (lower w)); [done|]. cbn [orb]. cbv zeta. rewrite mask_bit by lia. apply Hb. lia.
Qed.

(** Inserting a number that is no more than 2^32 ahead. *)
Lemma window_insert_ok w l x : stands_for w l → 0 ≤ x < 2 ^ 63 → x - upper w < 2 ^ 32 →
  stands_for (window_insert x w) (x :: l) ∧ lower w ≤ lower (window_insert x w) ∧
  lower (window_insert x w) = Z.max (lower w) (x - 127).
Proof.
  intros (Hw & Hl & Hb) Hx Hj. pose proof (upper_ok w Hw) as Hu. unfold window_insert.
  destruct (Z.ltb_spec x (lower w)) as [Hlo|Hlo].
  - split; [|lia]. split; [done|]. split; [constructor; [lia|done]|]. intros y Hy. rewrite Hb by done.
    apply bool_decide_ext. rewrite elem_of_cons. split; [tauto|]. intros [->|]; [lia|done].
  - set (w1 := if x >? upper w then _ else w). assert (H1 : window_ok w1 ∧ upper w1 = Z.max (upper w) x ∧
      lower w1 = Z.max (lower w) (x - 127) ∧
      ∀ y, lower w1 ≤ y ≤ upper w1 → Z.testbit (window w1) (upper w1 - y) = bool_decide (y ∈ l)).
    { subst w1. destruct (Z.gtb_spec x (upper w)) as [Hgt|Hgt]; [|split_and!; [done|lia|lia|exact Hb]].
      unfold as_u32. rewrite Z.mod_small by lia. set (d := x - upper w) in *.
      set (w1 := mk_window _ _). assert (Hw1 : window_ok w1).
      { split; cbn [lower window w1]; [destruct Hw; lia|apply shl128_ok]. }
      pose proof (upper_ok w1 Hw1) as Hu1. cbn [lower w1] in Hu1. split_and!; [done|lia|cbn [lower w1]; lia|].
      intros y Hy. cbn [lower w1] in Hy. cbn [window w1]. rewrite shl128_bit; [|lia|apply Hw|lia].
      destruct (Z.leb_spec d (upper w1 - y)).
      - replace (upper w1 - y - d) with (upper w - y) by lia. apply Hb. lia.
      - symmetry. apply bool_decide_false. intros Hin. eapply Forall_forall in Hl; [|done]. cbn in Hl. lia. }
    destruct H1 as (Hw1 & Hu1 & Hl1 & Hb1). clearbody w1. pose proof (upper_ok w1 Hw1). cbn [lower].
    split; [|lia]. set (w2 := mk_window _ _).
    assert (Hmask : 0 ≤ Z.shiftl 1 (upper w1 - x) < 2 ^ 128).
    { rewrite Z.shiftl_1_l. split; [lia|]. apply Z.pow_lt_mono_r; lia. }
    assert (Hw2 : window_ok w2).
    { split; cbn [lower window w2]; [apply Hw1|]. destruct Hw1 as [_ ?]. by apply lor_bound. }
    pose proof (upper_ok w2 Hw2) as Hu2. cbn [lower w2] in Hu2. split; [done|]. split.
    { constructor; [lia|]. eapply Forall_impl; [exact Hl|]. cbn. intros. lia. }
    intros y Hy. cbn [lower w2] in Hy. cbn [window w2]. rewrite Z.lor_spec, Z.shiftl_1_l, Z.pow2_bits_eqb by lia.
    replace (upper w2 - y) with (upper w1 - y) by lia. rewrite Hb1 by lia.
    destruct (Z.eqb_spec (upper w1 - x) (upper w1 - y)).
    + rewrite orb_true_r. symmetry. apply bool_decide_true. rewrite elem_of_cons. left. lia.
    + rewrite orb_false_r. apply bool_decide_ext. rewrite elem_of_cons. split; [tauto|]. intros [->|]; [lia|done].
Qed.

(** ** The state of a space *)

Definition MAX_ACK_RANGES : Z := 68.

Record PktNumSpace := mk_space {
  largest_rx_pkt_num : Z;
  largest_rx_pkt_time : Z;
  largest_rx_non_probing_pkt_num : Z;
  largest_tx_pkt_num : option Z;
  recv_pkt_need_ack : RangeSet;
  recv_pkt_num : PktNumWindow;
  ack_elicited : bool;
}.

Definition space_new (now : Z) : PktNumSpace :=
  mk_space 0 now 0 None (Ranges.new MAX_ACK_RANGES) default_window false.

Definition space_clear (s : PktNumSpace) : PktNumSpace :=
  mk_space (largest_rx_pkt_num s) (largest_rx_pkt_time s) (largest_rx_non_probing_pkt_num s) (largest_tx_pkt_num s)
    (recv_pkt_need_ack s) (recv_pkt_num s) false.

Definition space_ready (s : PktNumSpace) : bool := ack_elicited s.

(** [Option::max] puts [None] first. *)
Definition option_max (a b : option Z) : option Z :=
  match a, b with Some x, Some y => Some (Z.max x y) | Some x, None => Some x | None, b => b end.

Definition space_on_packet_sent (pkt_num : Z) (s : PktNumSpace) : PktNumSpace :=
  mk_space (largest_rx_pkt_num s) (largest_rx_pkt_time s) (largest_rx_non_probing_pkt_num s)
    (option_max (largest_tx_pkt_num s) (Some pkt_num)) (recv_pkt_need_ack s) (recv_pkt_num s) (ack_elicited s).

(** [a < Some(pn)] on options. *)
Definition option_lt (a : option Z) (b : Z) : bool := match a with None => true | Some x => x <? b end.

(** What [recv_single] records of a packet it processed. *)
Definition space_on_packet_received (pn now : Z) (elicited probing : bool) (s : PktNumSpace) : comp () PktNumSpace :=
  let time := if option_lt (last_value (recv_pkt_need_ack s)) pn then now else largest_rx_pkt_time s in
  let win := window_insert pn (recv_pkt_num s) in
  need ← push_item pn (recv_pkt_need_ack s);
  mret (mk_space (Z.max (largest_rx_pkt_num s) pn) time
          (if probing then largest_rx_non_probing_pkt_num s else Z.max (largest_rx_non_probing_pkt_num s) pn)
          (largest_tx_pkt_num s) need win (ack_elicited s || elicited)).

(** ** Skipped numbers *)

Definition MIN_SKIP_COUNTER_VALUE : Z := 10 * 2.

Record PktNumManager := mk_manager { skip_pn : option Z; skip_pn_counter : option Z }.

Definition manager_new : PktNumManager := mk_manager None None.

Definition should_arm_skip_counter (handshake_completed : bool) (m : PktNumManager) : bool :=
  let counter_not_set := bool_decide (skip_pn_counter m = None) in
  let no_current_skip_packet := bool_decide (skip_pn m = None) in
  counter_not_set && no_current_skip_packet && handshake_completed.

(** [rand::rand_u64_uniform]: the first draw below the last whole chunk,
    scaled; the draws of [rand_u64] are the argument. *)
Definition rand_u64_uniform (max : Z) (draws : list Z) : Z :=
  let chunk_size := (2 ^ 64 - 1) / max in
  let end_of_last_chunk := chunk_size * max in
  hd 0 (filter (λ r, r < end_of_last_chunk) draws) / chunk_size.

(** An addition or a product of u64 values; one past the width is a panic. *)
Definition in_u64 (a : Z) : comp () Z := if a <? 2 ^ 64 then Ok a else Panic.

Definition arm_skip_counter (draws : list Z) (cwnd max_datagram_size : Z) (m : PktNumManager) : comp () PktNumManager :=
  if max_datagram_size =? 0 then Panic else
  let packets_per_cwnd := cwnd / max_datagram_size in
  let lower := packets_per_cwnd / 2 in
  upper ← in_u64 (packets_per_cwnd * 2);
  skip_range ← in_u64 (upper - lower + 1);
  let rand_skip_value := rand_u64_uniform skip_range draws in
  counter ← in_u64 (MIN_SKIP_COUNTER_VALUE + lower + rand_skip_value);
  mret (mk_manager (skip_pn m) (Some counter)).

Definition manager_on_packet_sent (draws : list Z) (cwnd max_datagram_size : Z) (handshake_completed : bool) (m : PktNumManager)
  : comp () PktNumManager :=
  match skip_pn_counter m with
  | Some counter => mret (mk_manager (skip_pn m) (Some (saturating_sub counter 1)))
  | None =>
      if should_arm_skip_counter handshake_completed m then arm_skip_counter draws cwnd max_datagram_size m
      else mret m
  end.

Definition should_skip_pn (handshake_completed : bool) (m : PktNumManager) : bool :=
  let no_current_skip_packet := bool_decide (skip_pn m = None) in
  let counter_expired := match skip_pn_counter m with Some counter => counter =? 0 | None => false end in
  counter_expired && no_current_skip_packet && handshake_completed.

(** The debug assertions are panics. *)
Definition set_skip_pn (skip : option Z) (m : PktNumManager) : comp () PktNumManager :=
  match skip with
  | Some _ =>
      if negb (bool_decide (skip_pn m = None)) then Panic
      else match skip_pn_counter m with
           | Some 0 => mret (mk_manager skip None)
           | _ => Panic
           end
  | None => mret (mk_manager skip None)
  end.

(** ** The sender's numbers *)

(** The part of the connection that gives out packet numbers, and the numbers
    of the packets sent so far. *)
Record Numbers := mk_numbers {
  next_pkt_num : Z;
  manager : PktNumManager;
  sent : list Z;
}.

Definition numbers_new : Numbers := mk_numbers 0 manager_new [].

(** [send_single] up to the number of the packet. *)
Definition take_pkt_num (handshake_completed : bool) (n : Numbers) : comp () Numbers :=
  if should_skip_pn handshake_completed (manager n) then
    m ← set_skip_pn (Some (next_pkt_num n)) (manager n);
    next ← in_u64 (next_pkt_num n + 1);
    mret (mk_numbers next m (sent n))
  else mret n.

(** [send_single] once the packet is written. *)
Definition packet_sent (draws : list Z) (cwnd max_datagram_size : Z) (handshake_completed : bool) (n : Numbers) : comp () Numbers :=
  next ← in_u64 (next_pkt_num n + 1);
  m ← manager_on_packet_sent draws cwnd max_datagram_size handshake_completed (manager n);
  mret (mk_numbers next m (sent n ++ [next_pkt_num n])).

(** The largest number acknowledged so far, looked at after an ACK frame. *)
Definition skip_validated (largest_acked : option Z) (n : Numbers) : comp () Numbers :=
  match largest_acked, skip_pn (manager n) with
  | Some largest_acked, Some skip =>
      if largest_acked >? skip then
        m ← set_skip_pn None (manager n); mret (mk_numbers (next_pkt_num n) m (sent n))
      else mret n
  | _, _ => mret n
  end.

(** What the sender does: a packet that is given up, one that is sent, an ACK
    frame. *)
Inductive number_op :=
| GiveUp (handshake_completed : bool)
| SendPacket (handshake_completed : bool) (draws : list Z) (cwnd max_datagram_size : Z)
| AckSeen (largest_acked : option Z).

Definition number_step (op : number_op) (n : Numbers) : comp () Numbers :=
  match op with
  | GiveUp hs => take_pkt_num hs n
  | SendPacket hs r cwnd mds => n ← take_pkt_num hs n; packet_sent r cwnd mds hs n
  | AckSeen la => skip_validated la n
  end.

Fixpoint number_run (ops : list number_op) (n : Numbers) : comp () Numbers :=
  match ops with
  | [] => Ok n
  | op :: ops => n ← number_step op n; number_run ops n
  end.

(** [for peer_sent_range in ranges { if skip_pn is in it .. }], as recovery
    checks an ACK frame. *)
Definition optimistic_ack (ranges : list (Z * Z)) (skip : option Z) : bool :=
  existsb (λ r : Z * Z, match skip with Some s => range_contains r s | None => false end) ranges.

(** ** Numbers are given out once *)

Definition manager_ok (m : PktNumManager) : Prop := ∀ s, skip_pn m = Some s → skip_pn_counter m = None.

Record numbers_ok (n : Numbers) : Prop := {
  n_next : 0 ≤ next_pkt_num n;
  n_manager : manager_ok (manager n);
  n_skip : ∀ s, skip_pn (manager n) = Some s → s < next_pkt_num n ∧ s ∉ sent n;
  n_sent : Forall (λ x, 0 ≤ x < next_pkt_num n) (sent n);
  n_sorted : StronglySorted Z.lt (sent n);
}.

Lemma sorted_snoc l x : StronglySorted Z.lt l → Forall (λ y, y < x) l → StronglySorted Z.lt (l ++ [x]).
Proof.
  induction 1 as [|y l Hl IH Hy]; cbn; intros Hx; [by repeat constructor|]. apply Forall_cons in Hx as [Hyx Hx].
  constructor; [by apply IH|]. apply Forall_app. split; [done|by constructor].
Qed.

Lemma in_u64_ok a : a < 2 ^ 64 → in_u64 a = Ok a.
Proof. intros H. unfold in_u64. by rewrite (proj2 (Z.ltb_lt _ _) H). Qed.

(** A draw is scaled to below the bound. *)
Lemma rand_u64_uniform_bound max draws : 0 < max < 2 ^ 64 → Forall u64 draws → rand_u64_uniform max draws ≤ max.
Proof.
  intros Hm Hd. unfold rand_u64_uniform. set (chunk := (2 ^ 64 - 1) / max).
  assert (0 < chunk) by (apply Z.div_str_pos; lia).
  destruct (filter _ draws) as [|x l] eqn:E; cbn [hd]; [rewrite Z.div_0_l; lia|].
  assert (x ∈ filter (λ r, r < chunk * max) draws) as [Hx _]%list_elem_of_filter by (rewrite E; left).
  apply Z.div_le_upper_bound; lia.
Qed.

Lemma take_ok hs n : numbers_ok n → next_pkt_num n < 2 ^ 63 →
  ∃ n', take_pkt_num hs n = Ok n' ∧ numbers_ok n' ∧ next_pkt_num n' ≤ next_pkt_num n + 1.
Proof.
  intros [H1 H2 H3 H4 H5] Hlt. unfold take_pkt_num. destruct (should_skip_pn hs (manager n)) eqn:E; [|exists n; split_and!; [done|done|lia]].
  unfold should_skip_pn in E. destruct (skip_pn (manager n)) eqn:Es; [by rewrite andb_false_r in E|].
  unfold set_skip_pn. rewrite bool_decide_true by done. cbn [negb].
  destruct (skip_pn_counter (manager n)) as [c|] eqn:Ec; [|done].
  assert (c = 0) as -> by (destruct (Z.eqb_spec c 0); [done|by rewrite andb_false_l in E]).
  cbn. rewrite in_u64_ok by lia.
  eexists. split; [done|]. split; [|cbn; lia]. constructor; cbn; [lia|done|..|done].
  - intros s [= <-]. split; [lia|]. intros Hin. eapply Forall_forall in H4; [|done]. cbn in H4. lia.
  - eapply Forall_impl; [done|]. cbn. lia.
Qed.

(** The window is divided by the size of a datagram, which is never zero, and
    doubled. *)
Definition op_fine (op : number_op) : Prop :=
  match op with SendPacket _ draws cwnd mds => 0 < mds ∧ 0 ≤ cwnd < 2 ^ 60 ∧ Forall u64 draws | _ => True end.

Lemma on_sent_ok r cwnd mds hs m : op_fine (SendPacket hs r cwnd mds) → manager_ok m →
  ∃ m', manager_on_packet_sent r cwnd mds hs m = Ok m' ∧ manager_ok m' ∧ skip_pn m' = skip_pn m.
Proof.
  intros (Hm & Hc & Hd) Hok. unfold manager_on_packet_sent. destruct (skip_pn_counter m) as [c|] eqn:Ec.
  { eexists. split; [done|]. split; [|done]. intros s Hs. cbn in Hs. apply Hok in Hs. congruence. }
  destruct (should_arm_skip_counter hs m) eqn:E; [|by exists m]. unfold arm_skip_counter.
  destruct (Z.eqb_spec mds 0); [lia|].
  assert (0 ≤ cwnd / mds ≤ cwnd) as Hp by (split; [apply Z.div_pos; lia|apply Z.div_le_upper_bound; nia]).
  assert (0 ≤ cwnd / mds / 2 ≤ cwnd / mds) as Hl by (split; [apply Z.div_pos; lia|apply Z.div_le_upper_bound; lia]).
  rewrite in_u64_ok by lia. cbn [mbind comp_bind]. rewrite in_u64_ok by lia. cbn [mbind comp_bind].
  pose proof (rand_u64_uniform_bound (cwnd / mds * 2 - cwnd / mds / 2 + 1) r ltac:(lia) Hd).
  rewrite in_u64_ok by (unfold MIN_SKIP_COUNTER_VALUE; lia).
  eexists. split; [done|]. split; [|done]. intros s Hs. cbn in Hs.
  unfold should_arm_skip_counter in E. by rewrite Ec, Hs in E.
Qed.

Lemma packet_sent_ok r cwnd mds hs n : op_fine (SendPacket hs r cwnd mds) → numbers_ok n → next_pkt_num n < 2 ^ 63 →
  ∃ n', packet_sent r cwnd mds hs n = Ok n' ∧ numbers_ok n' ∧ next_pkt_num n' ≤ next_pkt_num n + 1.
Proof.
  intros Hm [H1 H2 H3 H4 H5] Hsmall. unfold packet_sent. rewrite in_u64_ok by lia. cbn [mbind comp_bind].
  destruct (on_sent_ok r cwnd mds hs _ Hm H2) as (m & -> & Hok & Hs).
  eexists. split; [done|]. split; [|cbn; lia]. constructor; cbn; [lia|done|..].
  - intros s Es. rewrite Hs in Es. destruct (H3 s Es) as [Hlt Hni]. split; [lia|].
    rewrite elem_of_app, list_elem_of_singleton. intros [?|?]; [done|lia].
  - apply Forall_app. split; [eapply Forall_impl; [done|]; cbn; lia|constructor; [lia|constructor]].
  - apply sorted_snoc; [done|]. eapply Forall_impl; [done|]. cbn. lia.
Qed.

(** An operation takes two numbers at most: the one it skips and its own. *)
Lemma number_step_ok op n : op_fine op → numbers_ok n → next_pkt_num n < 2 ^ 62 →
  ∃ n', number_step op n = Ok n' ∧ numbers_ok n' ∧ next_pkt_num n' ≤ next_pkt_num n + 2.
Proof.
  intros Hop Hn Hlt. destruct op as [hs|hs r cwnd mds|la]; cbn [number_step].
  - destruct (take_ok hs n Hn ltac:(lia)) as (n' & E & ? & ?). exists n'. split_and!; [done|done|lia].
  - destruct (take_ok hs n Hn ltac:(lia)) as (n1 & -> & Hn1 & Hle). cbn [mbind comp_bind].
    destruct (packet_sent_ok r cwnd mds hs n1 Hop Hn1 ltac:(lia)) as (n' & E & ? & ?). exists n'. split_and!; [done|done|lia].
  - unfold skip_validated. destruct la as [la|], (skip_pn (manager n)) as [s|] eqn:Es; try by (exists n; split_and!; [|done|lia]).
    destruct (la >? s); [|by exists n; split_and!; [|done|lia]]. eexists. split; [done|]. split; [|cbn; lia]. destruct Hn. by constructor.
Qed.

Lemma number_run_ok ops : ∀ n, Forall op_fine ops → numbers_ok n → next_pkt_num n + 2 * Z.of_nat (length ops) ≤ 2 ^ 62 →
  ∃ n', number_run ops n = Ok n' ∧ numbers_ok n' ∧ next_pkt_num n' ≤ next_pkt_num n + 2 * Z.of_nat (length ops).
Proof.
  induction ops as [|op ops IH]; intros n Hops Hn Hlt; [exists n; split_and!; [done|done|lia]|].
  apply Forall_cons in Hops as [Hop Hops]. cbn [length] in *. cbn [number_run].
  destruct (number_step_ok op n Hop Hn ltac:(lia)) as (n1 & -> & Hn1 & Hle). cbn [mbind comp_bind].
  destruct (IH n1 Hops Hn1 ltac:(lia)) as (n' & E & ? & ?). exists n'. split_and!; [done|done|lia].
Qed.

Lemma numbers_new_ok : numbers_ok numbers_new.
Proof. constructor; cbn; [lia|done|done|constructor|constructor]. Qed.

(** ** Sequences of arrivals *)

(** Each number is less than 2^32 ahead of the largest before it. *)
Fixpoint near (top : Z) (xs : list Z) : Prop :=
  match xs with
  | [] => True
  | x :: xs => 0 ≤ x < 2 ^ 63 ∧ x - top < 2 ^ 32 ∧ near (Z.max top x) xs
  end.

Lemma window_fold xs : ∀ w l, stands_for w l → near (upper w) xs →
  let w' := fold_left (λ w x, window_insert x w) xs w in
  stands_for w' (rev xs ++ l) ∧ (lower w' = lower w ∨ ∃ y, y ∈ xs ∧ lower w' = y - 127) ∧
  (lower w ≤ lower w' ∧ ∀ y, y ∈ xs → y - 127 ≤ lower w') ∧
  ∀ y, y ∈ rev xs ++ l ↔ y ∈ xs ∨ y ∈ l.
Proof.
  induction xs as [|x xs IH]; intros w l Hw Hn; cbn [fold_left rev app].
  { split; [done|]. split; [by left|]. split; [split; [lia|by intros y ?%not_elem_of_nil]|]. intros y. split; [by right|]. intros [Hf|?]; [by apply not_elem_of_nil in Hf|done]. }
  destruct Hn as (Hx & Hj & Hn). destruct (window_insert_ok w l x Hw Hx Hj) as (Hw1 & _ & Hl1).
  destruct (IH (window_insert x w) (x :: l) Hw1) as (Hw' & Hl' & [Hge Htop] & Hin).
  { rewrite (upper_ok _ (proj1 Hw1)), Hl1. rewrite (upper_ok _ (proj1 Hw)) in Hn.
    by replace (Z.max (lower w) (x - 127) + 127) with (Z.max (lower w + 127) x) by lia. }
  rewrite <- app_assoc. cbn [app]. split; [done|]. split; [|split].
  - destruct Hl' as [->|(y & Hy & ->)]; [|right; exists y; by rewrite elem_of_cons; auto]. rewrite Hl1.
    destruct (Z.max_spec (lower w) (x - 127)) as [[_ ->]|[_ ->]]; [|by left].
    right. exists x. split; [apply list_elem_of_here|done].
  - split; [|intros y [->|Hy]%elem_of_cons; [|by apply Htop]]; (etransitivity; [|exact Hge]); lia.
  - intros y. rewrite Hin, !elem_of_cons. tauto.
Qed.

(** ** A space in order *)

(** The state of a space that processed the packets [log]. *)
Record space_ok (s : PktNumSpace) (log : list Z) : Prop := {
  sp_window : stands_for (recv_pkt_num s) log;
  sp_need : set_ok (recv_pkt_need_ack s);
  sp_largest : 0 ≤ largest_rx_pkt_num s ≤ upper (recv_pkt_num s);
}.

Lemma space_new_ok now : space_ok (space_new now) [].
Proof.
  constructor; cbn.
  - split; [by split; cbn; lia|]. split; [constructor|]. intros x _. cbn. by rewrite Z.bits_0.
  - split_and!; [done|by vm_compute|by vm_compute|by vm_compute].
  - by vm_compute.
Qed.

Lemma space_received_ok s log pn now el pr : space_ok s log → 0 ≤ pn < 2 ^ 63 → pn - upper (recv_pkt_num s) < 2 ^ 32 →
  ∃ s', space_on_packet_received pn now el pr s = Ok s' ∧ space_ok s' (pn :: log) ∧
    largest_rx_pkt_num s' = Z.max (largest_rx_pkt_num s) pn.
Proof.
  intros [Hw Hn Hl] Hpn Hj. unfold space_on_packet_received, push_item.
  destruct (insert_spec (pn, pn + 1) (recv_pkt_need_ack s) Hn ltac:(cbn; lia)) as (need & -> & Hn' & _).
  eexists. split; [done|]. split; [|done]. destruct (window_insert_ok _ _ pn Hw Hpn Hj) as (Hw' & _ & Hlo).
  constructor; cbn; [done|done|]. rewrite (upper_ok _ (proj1 Hw')), Hlo. rewrite (upper_ok _ (proj1 Hw)) in Hl. lia.
Qed.

(** ** Theorems *)

(** C18. Packet numbers are used once: over any packets that a sender gives up or
    sends and any acknowledgements it sees, up to 2^61 of them, with congestion
    windows below 2^60 bytes, it never panics, no two of the packets sent have
    the same nonce, the number it skips on purpose is never used, and so an
    acknowledgement of packets really sent is never taken for an optimistic
    one. *)
Theorem numbers_used_once ops iv :
  Forall op_fine ops → Z.of_nat (length ops) ≤ 2 ^ 61 → blen iv = MAX_NONCE_LEN →
  ∃ n, number_run ops numbers_new = Ok n ∧ NoDup (map (make_nonce iv) (sent n)) ∧
    (∀ skip, skip_pn (manager n) = Some skip → skip < next_pkt_num n ∧ skip ∉ sent n) ∧
    ∀ ranges, (∀ x, covers ranges x → x ∈ sent n) → optimistic_ack ranges (skip_pn (manager n)) = false.
Proof.
  intros Hops Hlen Hiv. destruct (number_run_ok ops numbers_new Hops numbers_new_ok ltac:(cbn; lia)) as (n & E & Hn & Hle).
  cbn [next_pkt_num numbers_new] in Hle. exists n. split; [done|]. destruct Hn as [H1 H2 H3 H4 H5]. split_and!; [|done|].
  - apply NoDup_fmap_2_strong.
    + intros x y Hx Hy Exy. rewrite Forall_forall in H4. apply H4 in Hx, Hy. by apply (make_nonce_inj iv); [done|lia..|].
    + clear -H5. induction H5 as [|x l Hl IH Hx]; [constructor|]. constructor; [|done].
      intros Hin. rewrite Forall_forall in Hx. apply Hx in Hin. lia.
  - intros ranges Hr. unfold optimistic_ack. destruct (existsb _ ranges) eqn:Ee; [|done]. exfalso.
    apply existsb_exists in Ee as (r & Hin & Hc). destruct (skip_pn (manager n)) as [s|]; [|done].
    destruct (H3 s eq_refl) as [_ Hni]. apply Hni, Hr. unfold covers. apply Exists_exists. exists r.
    split; [by apply list_elem_of_In|]. unfold range_contains in Hc. lia.
Qed.

(** C25. The window of received numbers answers like the set of the numbers
    inserted, as far as it reaches: over any insertions, each less than 2^32
    ahead of 127 and of all before it (a longer jump is cut to 32 bits and
    breaks this), exactly those numbers are taken for received that were
    inserted or are more than 127 below another that was. *)
Theorem window_refines_set xs x :
  let w := fold_left (λ w x, window_insert x w) xs default_window in
  near 127 xs → 0 ≤ x →
  window_contains x w = true ↔ x ∈ xs ∨ ∃ y, y ∈ xs ∧ x + 127 < y.
Proof.
  intros w Hn Hx. destruct (window_fold xs default_window []) as (Hs & Hl & [_ Htop] & Hin).
  - split; [by split; cbn; lia|]. split; [constructor|]. intros y _. cbn. by rewrite Z.bits_0.
  - by cbn.
  - fold w in Hs, Hl, Htop, Hin. cbn [lower default_window] in Hl. rewrite (window_contains_ok _ _ x Hs), orb_true_iff, Z.ltb_lt.
    split.
    + intros [Hlt|Hin'].
      * right. destruct Hl as [Hl|(y & Hy & Hl)]; [lia|]. exists y. split; [done|lia].
      * left. apply bool_decide_eq_true in Hin'. apply Hin in Hin' as [?|Hf]; [done|by apply not_elem_of_nil in Hf].
    + intros [Hin'|(y & Hy & Hlt)]; [right; apply bool_decide_true, Hin; by left|]. left. specialize (Htop y Hy). lia.
Qed.

(** ** Witnesses *)

Lemma numbers_used_once_witness :
  let ops := repeat (SendPacket true [0] 12000 1200) 26 ++ [GiveUp true; SendPacket true [5] 12000 1200; AckSeen (Some 25)] in
  ∃ n, number_run ops numbers_new = Ok n ∧ NoDup (map (make_nonce (repeat 7 12)) (sent n)) ∧
    (∀ skip, skip_pn (manager n) = Some skip → skip < next_pkt_num n ∧ skip ∉ sent n) ∧
    ∀ ranges, (∀ x, covers ranges x → x ∈ sent n) → optimistic_ack ranges (skip_pn (manager n)) = false.
Proof.
  intros ops. apply (numbers_used_once ops (repeat 7 12)); [|done|done].
  by repeat constructor.
Defined.

Lemma window_refines_set_witness :
  window_contains 200 (fold_left (λ w x, window_insert x w) [3; 200; 300] default_window) = true ∧
  window_contains 4 (fold_left (λ w x, window_insert x w) [3; 200; 300] default_window) = true ∧
  near 127 [3; 200; 300].
Proof.
  assert (Hn : near 127 [3; 200; 300]) by (cbn [near]; lia). split_and!; [..|exact Hn].
  - apply (window_refines_set [3; 200; 300] 200 Hn ltac:(lia)). left. by_decision.
  - apply (window_refines_set [3; 200; 300] 4 Hn ltac:(lia)). right. exists 300. split; [by_decision|lia].
Defined.

(** A jump is cut to 32 bits before the window is shifted: 2^32 + 1 ahead, the
    old bits move by one place and stand for numbers never received. *)
Example window_jump_truncated :
  window_contains (127 + 2 ^ 32) (window_insert (128 + 2 ^ 32) (window_insert 127 default_window)) = true.
Proof. by vm_compute. Qed.
