(* ===== verification/PacketFlow.v ===== *)
(** * A packet from one end to the other

    What [Connection::send_single] and [Connection::recv_single]
    (src/quiche/quiche/src/lib.rs) do with a packet: the sender lays out
    header, packet number and frames and protects them; the receiver finds the
    number, takes the protection off, refuses numbers it has seen, follows key
    updates and hands the frames to the connection.  Which frames are offered
    and what a frame does to the connection are arguments. *)

From S2P Require Import Prelude Octets QuicError Ranges Wire Frames QuicCrypto Packet PktSpace.

Definition PAYLOAD_MIN_LEN : Z := 4.
Definition PAYLOAD_LENGTH_LEN : Z := 2.

(** ** Sending *)

(** The macro [push_frame_to_pkt!]: the cursor, the room left and the frames
    in the packet. *)
Definition push_frame (f : Frame) (st : octets * Z * list Frame) : comp Error (octets * Z * list Frame) :=
  let '(b, left_, frames) := st in
  n ← wire_len f;
  if n <=? left_ then
    '(_, b) ← to_bytes f b;
    mret (b, left_ - n, frames ++ [f])
  else mret st.

Fixpoint push_frames (fs : list Frame) (st : octets * Z * list Frame) : comp Error (octets * Z * list Frame) :=
  match fs with
  | [] => Ok st
  | f :: fs => st ← push_frame f st; push_frames fs st
  end.

Definition with_pn_len (h : Header) (n : Z) : Header :=
  mk_header (ty h) (version h) (dcid h) (scid h) 0 n (token h) (versions h) (key_phase h).

Definition is_short (h : Header) : bool := bool_decide (ty h = Short).

Section send.
Context `{BoringSSL}.

(** Header, number and frames, before protection: the cursor, the offset of
    the payload and the frames in it.  [limit] is the size of a datagram on
    the path; [fill] says that the packet is to take it all, behind an Initial
    or towards an address that is not validated. *)
Definition lay_out (h : Header) (pn pn_len limit : Z) (fill : bool) (offers : list Frame) (aead : Seal) (out : bytes)
  : comp Error (octets * Z * list Frame) :=
  let b := with_slice out in
  let left_ := Z.min limit (cap b) in
  let crypto_overhead := tag_len (s_alg aead) in
  b ← header_to_bytes (with_pn_len h pn_len) b;
  let overhead := off b + pn_len + crypto_overhead + (if is_short h then 0 else PAYLOAD_LENGTH_LEN) in
  if left_ <? overhead then Err EDone else
  let left_ := left_ - overhead in
  if left_ <? PAYLOAD_MIN_LEN then Err EDone else
  let header_offset := off b in
  b ← (if is_short h then mret b else too_short (skip PAYLOAD_LENGTH_LEN b));
  b ← encode_pkt_num pn pn_len b;
  let payload_offset := off b in
  '(b, left_, frames) ← push_frames offers (b, left_, []);
  if is_empty frames then Err EDone else
  '(b, left_, frames) ←
    (if fill && is_short h && (1 <=? left_) then push_frame (Padding left_) (b, left_, frames)
     else mret (b, left_, frames));
  '(b, left_, frames) ←
    (if off b - payload_offset <? PAYLOAD_MIN_LEN then
       push_frame (Padding (PAYLOAD_MIN_LEN - (off b - payload_offset))) (b, left_, frames)
     else mret (b, left_, frames));
  let payload_len := off b - payload_offset in
  b ← (if is_short h then mret b
       else
         let len := pn_len + payload_len + crypto_overhead in
         '(front, back) ← too_short (split_at header_offset b);
         back ← w_varint_with_len len PAYLOAD_LENGTH_LEN back;
         mret (Octets (buf front ++ buf back) (off b)));
  mret (b, payload_offset, frames).

(** The length of the packet, the buffer and the frames sent. *)
Definition send_packet (h : Header) (pn largest_acked limit : Z) (fill : bool) (offers : list Frame) (aead : Seal) (out : bytes)
  : comp Error (Z * bytes * list Frame) * Seal :=
  match (pn_len ← pkt_num_len pn largest_acked;
         '(b, payload_offset, frames) ← lay_out h pn pn_len limit fill offers aead out;
         mret (pn_len, b, payload_offset, frames)) with
  | Ok (pn_len, b, payload_offset, frames) =>
      let '(r, aead) := encrypt_pkt b pn pn_len (off b - payload_offset) payload_offset None aead in
      ('(written, b) ← r; mret (written, buf b, frames), aead)
  | Err e => (Err e, aead)
  | Panic => (Panic, aead)
  end.
End send.

(** ** Receiving *)

(** [packet::KeyUpdate]; its timer is left_ out. *)
Record KeyUpdate_ `{BoringSSL} := mk_key_update { ku_open : Open; pn_on_update : Z; update_acked : bool }.

(** The part of a connection that receives in one packet number space. *)
Record Receiver `{BoringSSL} {St : Type} := mk_rx {
  rx_open : option Open;
  rx_seal : option Seal;
  rx_update : option KeyUpdate_;
  rx_phase : bool;
  rx_space : PktNumSpace;
  rx_count : Z;
  rx_conn : St;
}.
Arguments Receiver {_} St.

Section receive.
Context `{w : arch} `{BoringSSL} {St : Type} (process_frame : Frame → St → St * option Error).
Context (is_server handshake_confirmed : bool) (own_version now : Z).

Definition drop_pkt_on_err (e : Error) (recv_count : Z) : Error :=
  if is_server && (recv_count =? 0) then e else EDone.

(** Errors ahead of authentication. *)
Definition dropping {A} (r : Receiver St) (m : comp Error A) : comp Error A :=
  map_err (λ e, drop_pkt_on_err e (rx_count r)) m.

(** The key for a packet: the current one, the one before an update, or the
    next pair when the peer starts an update. *)
Definition choose_key (hdr : Header) (pn : Z) (current : Open) (r : Receiver St)
  : comp Error (Open * option (Open * Seal)) :=
  if handshake_confirmed && negb (bool_decide (ty hdr = ZeroRTT)) && negb (Bool.eqb (key_phase hdr) (rx_phase r)) then
    match rx_update r with
    | Some ku =>
        if pn <? pn_on_update ku then mret (ku_open ku, None)
        else
          o ← open_next current;
          s ← or_panic (rx_seal r); s ← seal_next s;
          mret (o, Some (o, s))
    | None =>
        o ← open_next current;
        s ← or_panic (rx_seal r); s ← seal_next s;
        mret (o, Some (o, s))
    end
  else mret (current, None).

(** From a parsed header to an authenticated payload of a number not seen
    before: the number, the payload, where the packet ends, the next keys. *)
Definition open_packet (hdr : Header) (b : octets) (r : Receiver St)
  : comp Error (Header * Z * octets * Z * option (Open * Seal)) :=
  if negb (is_short hdr) && negb (version hdr =? own_version) then Err EDone else
  '(payload_len, b) ←
    (if is_short hdr then mret (cap b, b)
     else '(n, b) ← dropping r (varint b); mret (as_usize n, b));
  if payload_len >? cap b then Err (drop_pkt_on_err InvalidPacket (rx_count r)) else
  match rx_open r with
  | None => Err (drop_pkt_on_err CryptoFail (rx_count r))
  | Some current =>
      '(b, hdr) ← dropping r (decrypt_hdr b hdr current);
      pn ← decode_pkt_num (largest_rx_pkt_num (rx_space r)) (pkt_num hdr) (hdr_pn_len hdr);
      '(aead, next) ← choose_key hdr pn current r;
      '(payload, b) ← dropping r (decrypt_pkt b pn (hdr_pn_len hdr) payload_len aead);
      if window_contains pn (recv_pkt_num (rx_space r)) then Err EDone
      else if cap payload =? 0 then Err InvalidPacket
      else mret (hdr, pn, payload, off b + tag_len (o_alg current), next)
  end.

(** The verified keys take over. *)
Definition update_keys (pn : Z) (next : option (Open * Seal)) (r : Receiver St) : comp Error (Receiver St) :=
  match next with
  | None => mret r
  | Some (open_next, seal_next) =>
      if match rx_update r with None => true | Some prev => update_acked prev end then
        open_prev ← or_panic (rx_open r);
        mret (mk_rx _ _ (Some open_next) (Some seal_next) (Some (mk_key_update _ open_prev pn false))
                (negb (rx_phase r)) (rx_space r) (rx_count r) (rx_conn r))
      else Err KeyUpdate
  end.

(** A packet in the space: the number it was processed under, and the bytes
    it took. *)
Definition recv_packet (hdr : Header) (b : octets) (r : Receiver St) : Receiver St * comp Error (Z * Z) :=
  match open_packet hdr b r with
  | Ok (hdr, pn, payload, read, next) =>
      match update_keys pn next r with
      | Ok r =>
          match process_payload process_frame (ty hdr) payload (rx_conn r) with
          | (conn, Ok (elicited, probing, None)) =>
              match space_on_packet_received pn now elicited probing (rx_space r) with
              | Ok space =>
                  (mk_rx _ _ (rx_open r) (rx_seal r) (rx_update r) (rx_phase r) space (rx_count r + 1) conn, Ok (pn, read))
              | _ => (r, Panic)
              end
          | (conn, Ok (_, _, Some e)) | (conn, Err e) =>
              (mk_rx _ _ (rx_open r) (rx_seal r) (rx_update r) (rx_phase r) (rx_space r) (rx_count r) conn, Err e)
          | (_, Panic) => (r, Panic)
          end
      | Err e => (r, Err e)
      | Panic => (r, Panic)
      end
  | Err e => (r, Err e)
  | Panic => (r, Panic)
  end.
End receive.

(** ** What is laid out *)

Lemma varint_enc_bytes v : bytes_ok (varint_enc v).
Proof.
  unfold varint_enc. assert (Ht : ∀ t l, 0 ≤ t < 256 → bytes_ok l → bytes_ok (tagged t l)).
  { intros t l Hti Hl. destruct l as [|x l]; [done|]. apply Forall_cons in Hl as [Hx Hl]. cbn [tagged].
    constructor; [|done]. apply (lor_bound x t 8); (done || lia). }
  repeat destruct (_ <=? _); apply Ht; (lia || apply be_bytes_ok).
Qed.

Lemma vencs_bytes l : bytes_ok (vencs l).
Proof. induction l as [|v l IH]; [constructor|]. apply Forall_app. split; [apply varint_enc_bytes|done]. Qed.

Lemma varint_enc2_bytes v : bytes_ok (varint_enc2 v).
Proof.
  unfold varint_enc2. destruct (be_bytes 2 v) as [|x l] eqn:E; [done|]. pose proof (be_bytes_ok 2 v) as Hl. rewrite E in Hl.
  apply Forall_cons in Hl as [Hx Hl]. constructor; [|done]. apply (lor_bound x 0x40 8); (done || lia).
Qed.

(** A sequence of bytes built from bytes. *)
Ltac bytes := repeat first [apply Forall_cons_2; [unfold u8; lia|] | apply Forall_app_2 | apply Forall_nil_2 | done
  | apply varint_enc_bytes | apply vencs_bytes | apply varint_enc2_bytes | apply be_bytes_ok].

Lemma frame_enc_bytes `{w : arch} f : frame_ok f → bytes_ok (frame_enc f).
Proof.
  destruct f as [| |delay r ecn| | |d| | |st d| | | | | | | | | |sq rp c t| | | | | | |d|]; cbn [frame_ok frame_enc]; intros Hf;
    try (by destruct Hf); try (unfold data_ok in Hf; destruct_and? Hf; bytes; fail).
  - apply Forall_replicate. unfold u8. lia.
  - destruct ecn; bytes.
  - destruct Hf as (_ & (_ & _ & _ & Hv) & _). destruct (RecvBuf.rb_fin d); bytes.
  - destruct Hf as (_ & _ & Hc & _ & Hb). apply Forall_app in Hb as [? ?]. unfold MAX_CID_LEN in Hc. bytes.
Qed.

Lemma payload_enc_bytes `{w : arch} fs : Forall frame_ok fs → bytes_ok (payload_enc fs).
Proof.
  induction 1 as [|f fs Hf _ IH]; [constructor|]. apply Forall_app_2; [by apply frame_enc_bytes|done].
Qed.

Lemma payload_enc_app fs gs : payload_enc (fs ++ gs) = payload_enc fs ++ payload_enc gs.
Proof. unfold payload_enc. by rewrite map_app, concat_app. Qed.

Lemma push_frame_ok `{w : arch} f b p z left_ fs : frame_ok f → wrote b p z → 0 ≤ left_ ≤ blen z →
  ∃ b' gs, push_frame f (b, left_, fs) = Ok (b', left_ - blen (payload_enc gs), fs ++ gs) ∧
    (gs = [f] ∨ gs = [] ∧ left_ < blen (frame_enc f)) ∧ blen (payload_enc gs) ≤ left_ ∧
    wrote b' (p ++ payload_enc gs) (dropz (blen (payload_enc gs)) z).
Proof.
  intros Hf Hb Hl. unfold push_frame. rewrite (wire_len_ok f Hf). cbn [mbind comp_bind].
  destruct (Z.leb_spec (blen (frame_enc f)) left_) as [Hle|Hle].
  - destruct (frame_writes f Hf b p z Hb ltac:(lia)) as (b' & E & Hb'). exists b', [f].
    unfold to_bytes. rewrite E. cbn [mbind comp_bind mret comp_ret payload_enc map concat]. rewrite app_nil_r.
    split_and!; [done|by left|done|done].
  - exists b, []. cbn [payload_enc map concat]. rewrite !app_nil_r. change (blen (@nil Z)) with 0. rewrite Z.sub_0_r.
    split_and!; [done|by right|lia|done].
Qed.

Lemma push_frames_ok `{w : arch} offers : ∀ b p z left_ fs, Forall frame_ok offers → wrote b p z → 0 ≤ left_ ≤ blen z →
  ∃ b' gs, push_frames offers (b, left_, fs) = Ok (b', left_ - blen (payload_enc gs), fs ++ gs) ∧
    gs `sublist_of` offers ∧ blen (payload_enc gs) ≤ left_ ∧
    wrote b' (p ++ payload_enc gs) (dropz (blen (payload_enc gs)) z).
Proof.
  induction offers as [|f offers IH]; intros b p z left_ fs Hof Hb Hl; cbn [push_frames].
  { exists b, []. cbn [payload_enc map concat]. rewrite !app_nil_r. change (blen (@nil Z)) with 0. rewrite Z.sub_0_r.
    split_and!; [done|constructor|lia|done]. }
  apply Forall_cons in Hof as [Hf Hof]. destruct (push_frame_ok f b p z left_ fs Hf Hb Hl) as (b1 & g & -> & Hg & Hlg & Hb1).
  cbn [mbind comp_bind].
  destruct (IH b1 _ _ (left_ - blen (payload_enc g)) (fs ++ g) Hof Hb1) as (b2 & gs & -> & Hgs & Hlgs & Hb2).
  { rewrite blen_dropz; [|pose proof (blen_nonneg (payload_enc g)); lia]. pose proof (blen_nonneg (payload_enc g)). lia. }
  exists b2, (g ++ gs). rewrite payload_enc_app, blen_app. pose proof (blen_nonneg (payload_enc g)). pose proof (blen_nonneg (payload_enc gs)).
  rewrite <- app_assoc in Hb2. rewrite dropz_dropz in Hb2 by lia. split_and!; [|..|lia|done].
  - do 2 f_equal; [f_equal; lia|by rewrite app_assoc].
  - destruct Hg as [->|[-> _]]; [by apply sublist_skip|by apply sublist_cons].
Qed.

Section layout.
Context `{w : arch} `{BoringLaws}.

(** The length field of a long header. *)
Definition length_field (h : Header) (len : Z) : bytes := if is_short h then [] else varint_enc2 len.

(** Everything ahead of the payload. *)
Definition front (h : Header) (pn n len : Z) : bytes :=
  header_enc (with_pn_len h n) ++ length_field h len ++ be_bytes (Z.to_nat n) pn.

Definition overhead (h : Header) (n : Z) (aead : Seal) : Z :=
  blen (header_enc (with_pn_len h n)) + n + tag_len (s_alg aead) + (if is_short h then 0 else PAYLOAD_LENGTH_LEN).

(** The frames of a packet: some of those offered, one at least, then padding. *)
Definition chosen (offers fs : list Frame) : Prop :=
  ∃ gs, gs `sublist_of` offers ∧ gs ≠ [] ∧ (fs = gs ∨ ∃ k, 1 ≤ k ∧ fs = gs ++ [Padding k]).

Lemma blen_length_field h len : blen (length_field h len) = if is_short h then 0 else PAYLOAD_LENGTH_LEN.
Proof. unfold length_field. by destruct (is_short h). Qed.

Lemma write_length h hd pad pnb pl z len : (is_short h = false → 0 ≤ len < 2 ^ 14) → blen pad = (if is_short h then 0 else PAYLOAD_LENGTH_LEN) →
  let b := Octets (hd ++ pad ++ pnb ++ pl ++ z) (blen (hd ++ pad ++ pnb ++ pl)) in
  (if is_short h then mret b
   else '(front, back) ← too_short (split_at (blen hd) b);
        back ← w_varint_with_len len PAYLOAD_LENGTH_LEN back;
        mret (Octets (buf front ++ buf back) (off b))) =
  Ok (Octets (hd ++ length_field h len ++ pnb ++ pl ++ z) (blen (hd ++ pad ++ pnb ++ pl))).
Proof.
  intros Hl Hp b. unfold length_field. destruct (is_short h).
  - destruct pad; [done|]. rewrite blen_cons in Hp. pose proof (blen_nonneg pad). lia.
  - unfold split_at, b. cbn [buf off]. destruct (Z.ltb_spec (blen (hd ++ pad ++ pnb ++ pl ++ z)) (blen hd)); [blia|].
    cbn [too_short map_err mbind comp_bind]. rewrite takez_app, dropz_app. unfold PAYLOAD_LENGTH_LEN in *.
    destruct (writes_varint2 len (Hl eq_refl) (with_slice (pad ++ pnb ++ pl ++ z)) [] _ (wrote_with_slice _)) as (b' & E & ->).
    { change (blen (varint_enc2 len)) with 2. blia. }
    rewrite E. cbn [mbind comp_bind mret comp_ret buf app]. change (blen (varint_enc2 len)) with 2.
    rewrite <- Hp, dropz_app. done.
Qed.

(** Room is left for the length. *)
Lemma skip_length h hd z : (if is_short h then 0 else PAYLOAD_LENGTH_LEN) ≤ blen z →
  ∃ pad, blen pad = (if is_short h then 0 else PAYLOAD_LENGTH_LEN) ∧
    (if is_short h then mret (Octets (hd ++ z) (blen hd)) else too_short (skip PAYLOAD_LENGTH_LEN (Octets (hd ++ z) (blen hd)))) =
      (Ok (Octets ((hd ++ pad) ++ dropz (blen pad) z) (blen (hd ++ pad))) : comp Error octets).
Proof.
  intros Hz. destruct (is_short h).
  - exists []. split; [done|]. by rewrite app_nil_r.
  - unfold PAYLOAD_LENGTH_LEN in *. exists (takez 2 z). rewrite blen_takez by lia. split; [done|].
    unfold skip, cap. cbn [buf off]. destruct (Z.ltb_spec (blen (hd ++ z) - blen hd) 2); [blia|]. cbn.
    rewrite <- app_assoc, takez_dropz. do 2 f_equal. rewrite blen_app, blen_takez by lia. done.
Qed.

Lemma sublist_Forall {A} (P : A → Prop) l k : l `sublist_of` k → Forall P k → Forall P l.
Proof. induction 1; intros Hk; [done|apply Forall_cons in Hk as [??]; constructor; auto|apply Forall_cons in Hk as [??]; auto]. Qed.

(** The payload [fs] behind the first [p] of a buffer that went on with [z]. *)
Definition laid (p z : bytes) (fs : list Frame) : octets :=
  Octets ((p ++ payload_enc fs) ++ dropz (blen (payload_enc fs)) z) (blen (p ++ payload_enc fs)).

Lemma payload_pad k : 1 ≤ k → blen (payload_enc [Padding k]) = k.
Proof. intros Hk. cbn [payload_enc map concat frame_enc]. rewrite app_nil_r, blen_replicate. lia. Qed.

(** Padding that fits. *)
Lemma push_padding p z fs left_ k : 1 ≤ k ≤ left_ → left_ ≤ blen z - blen (payload_enc fs) →
  push_frame (Padding k) (laid p z fs, left_, fs) = Ok (laid p z (fs ++ [Padding k]), left_ - k, fs ++ [Padding k]).
Proof.
  intros Hk Hl. pose proof (blen_nonneg (payload_enc fs)). assert (Hok : frame_ok (Padding k)) by (cbn; lia).
  destruct (push_frame_ok (Padding k) (laid p z fs) (p ++ payload_enc fs) (dropz (blen (payload_enc fs)) z) left_ fs Hok eq_refl)
    as (b2 & g & -> & Hg & _ & ->); [rewrite blen_dropz; lia|].
  destruct Hg as [->|[_ Hg]]; [|cbn [frame_enc] in Hg; rewrite blen_replicate in Hg; lia].
  unfold laid. rewrite payload_enc_app, (blen_app (payload_enc fs)), dropz_dropz by (rewrite ?payload_pad; lia).
  rewrite !(app_assoc p (payload_enc fs)). by rewrite payload_pad by lia.
Qed.

Lemma chosen_pad offers fs k : fs `sublist_of` offers → fs ≠ [] → 1 ≤ k → chosen offers (fs ++ [Padding k]).
Proof. intros. exists fs. split_and!; [done..|]. right. eauto. Qed.

(** The frames offered, then padding as far as it is wanted; nothing without a frame. *)
Lemma push_payload offers b p z left_ fill : Forall frame_ok offers → wrote b p z → PAYLOAD_MIN_LEN ≤ left_ ≤ blen z →
  let m := '(b, left_, frames) ← push_frames offers (b, left_, []);
    if is_empty frames then Err EDone else
    '(b, left_, frames) ← (if fill && (1 <=? left_) then push_frame (Padding left_) (b, left_, frames)
                           else mret (b, left_, frames));
    (if off b - blen p <? PAYLOAD_MIN_LEN then
       push_frame (Padding (PAYLOAD_MIN_LEN - (off b - blen p))) (b, left_, frames)
     else mret (b, left_, frames)) in
  m = Err EDone ∨
  ∃ fs left', m = Ok (laid p z fs, left', fs) ∧
    PAYLOAD_MIN_LEN ≤ blen (payload_enc fs) ≤ left_ ∧ Forall frame_ok fs ∧ chosen offers fs.
Proof.
  intros Hof Hb Hl. unfold PAYLOAD_MIN_LEN in *. cbv zeta.
  destruct (push_frames_ok offers b p z left_ [] Hof Hb ltac:(lia)) as (b1 & gs & -> & Hgs & Hlen & ->). cbn [mbind comp_bind app].
  destruct (is_empty gs) eqn:Hne; [by left|]. right. assert (Hgn : gs ≠ []) by (by intros ->).
  assert (Hok : Forall frame_ok gs) by (by eapply sublist_Forall).
  assert (Hpad : ∀ k, 1 ≤ k → Forall frame_ok (gs ++ [Padding k])) by (intros; apply Forall_app_2; [done|repeat constructor; cbn; lia]).
  pose proof (blen_nonneg (payload_enc gs)). fold (laid p z gs).
  assert (Hoff : ∀ fs, off (laid p z fs) - blen p = blen (payload_enc fs)) by (intros; unfold laid; cbn [off]; blia).
  destruct (fill && (1 <=? _)) eqn:Ef.
  - apply andb_true_iff in Ef as [_ Ef]. apply Z.leb_le in Ef. rewrite push_padding by lia. cbn [mbind comp_bind].
    rewrite Hoff. assert (El : blen (payload_enc (gs ++ [Padding (left_ - blen (payload_enc gs))])) = left_)
      by (rewrite payload_enc_app, blen_app, payload_pad; lia).
    rewrite El. destruct (Z.ltb_spec left_ 4); [lia|]. eexists _, _. split; [done|]. rewrite El.
    split_and!; [lia|lia|by apply Hpad|by apply chosen_pad].
  - cbn [mbind comp_bind mret comp_ret]. rewrite Hoff. destruct (Z.ltb_spec (blen (payload_enc gs)) 4).
    + rewrite push_padding by lia. eexists _, _. split; [done|]. rewrite payload_enc_app, blen_app, payload_pad by lia.
      split_and!; [lia|lia|apply Hpad; lia|apply chosen_pad; [done..|lia]].
    + eexists _, _. split; [done|]. split_and!; [lia|lia|done|]. exists gs. split_and!; [done..|by left].
Qed.

Lemma lay_out_ok h pn n limit fill offers aead out :
  header_ok (with_pn_len h n) → 1 ≤ n ≤ 4 → Forall frame_ok offers → bytes_ok out →
  overhead h n aead + PAYLOAD_MIN_LEN ≤ Z.min limit (blen out) → (is_short h = false → blen out < 2 ^ 14) →
  lay_out h pn n limit fill offers aead out = Err EDone ∨
  ∃ fs z, let pl := payload_enc fs in
    let f := front h pn n (n + blen pl + tag_len (s_alg aead)) in
    lay_out h pn n limit fill offers aead out = Ok (Octets (f ++ pl ++ z) (blen f + blen pl), blen f, fs) ∧
    bytes_ok z ∧ PAYLOAD_MIN_LEN ≤ blen pl ∧ n + blen pl + tag_len (s_alg aead) ≤ blen out ∧
    Forall frame_ok fs ∧ chosen offers fs.
Proof.
  intros Hh Hn Hof Hout Hroom Hsmall. unfold lay_out, overhead in *. set (H1 := header_enc (with_pn_len h n)) in *.
  set (t := tag_len (s_alg aead)) in *. set (two := if is_short h then 0 else PAYLOAD_LENGTH_LEN) in *.
  assert (Ht : 0 ≤ t) by (subst t; by destruct (s_alg aead)). assert (Htwo : 0 ≤ two) by (subst two; by destruct (is_short h)).
  pose proof (blen_nonneg H1).
  destruct (header_writes _ Hh (with_slice out) [] out (wrote_with_slice out)) as (b1 & E1 & ->).
  { fold H1. unfold PAYLOAD_MIN_LEN in *. lia. }
  rewrite E1. cbn [mbind comp_bind off app]. fold H1. rewrite (reads_cap _ _ (reads_with_slice out)).
  fold t two. set (z1 := dropz (blen H1) out). set (left0 := Z.min limit (blen out)) in *.
  assert (Hz1 : blen z1 = blen out - blen H1) by (unfold z1; rewrite blen_dropz; unfold PAYLOAD_MIN_LEN in *; lia).
  destruct (Z.ltb_spec left0 (blen H1 + n + t + two)); [unfold PAYLOAD_MIN_LEN in *; lia|].
  destruct (Z.ltb_spec (left0 - (blen H1 + n + t + two)) PAYLOAD_MIN_LEN); [lia|].
  destruct (skip_length h H1 z1) as (pad & Hpad & ->). { fold two. unfold PAYLOAD_MIN_LEN in *. lia. }
  cbn [mbind comp_bind]. fold two in Hpad. set (pnb := be_bytes (Z.to_nat n) pn).
  assert (Hpnb : blen pnb = n) by (unfold pnb; rewrite blen_be_bytes; lia).
  destruct (writes_pkt_num pn n Hn (Octets ((H1 ++ pad) ++ dropz (blen pad) z1) (blen (H1 ++ pad))) _ _ eq_refl) as (b2 & E2 & ->).
  { fold pnb. rewrite blen_dropz; unfold PAYLOAD_MIN_LEN in *; lia. }
  rewrite E2. cbn [mbind comp_bind off]. fold pnb. rewrite dropz_dropz by lia. set (z2 := dropz (blen pad + blen pnb) z1).
  assert (Hz2 : blen z2 = blen z1 - two - n) by (unfold z2; rewrite blen_dropz; unfold PAYLOAD_MIN_LEN in *; lia).
  pose proof (push_payload offers (Octets (((H1 ++ pad) ++ pnb) ++ z2) (blen ((H1 ++ pad) ++ pnb))) _ z2
    (left0 - (blen H1 + n + t + two)) (fill && is_short h) Hof eq_refl ltac:(lia)) as E3. cbv zeta in E3.
  destruct (push_frames _ _) as [[[b3 left3] fs3]|e|]; cbn [mbind comp_bind] in E3 |- *;
    [|destruct E3 as [E3|(? & ? & E3 & _)]; [by left|done]..].
  destruct (is_empty fs3); [by left|].
  destruct (if fill && is_short h && (1 <=? left3) then _ else _) as [[[b4 left4] fs4]|e|]; cbn [mbind comp_bind] in E3 |- *;
    [|destruct E3 as [E3|(? & ? & E3 & _)]; [by left|done]..].
  destruct E3 as [E3|(fs & left' & E3 & Hfl & Hfok & Hch)]; rewrite E3; [by left|right].
  exists fs, (dropz (blen (payload_enc fs)) z2). unfold laid. set (pl := payload_enc fs) in *. cbn [mbind comp_bind off]. set (len := n + blen pl + t).
  replace (blen (((H1 ++ pad) ++ pnb) ++ pl) - blen ((H1 ++ pad) ++ pnb)) with (blen pl) by blia.
  pose proof (write_length h H1 pad pnb pl (dropz (blen pl) z2) len) as Hw. cbv zeta in Hw. fold len.
  rewrite <- !app_assoc. cbn [off] in Hw. rewrite Hw; [|..|done].
  - cbn [mbind comp_bind mret comp_ret]. unfold front. fold H1 pnb. rewrite <- !app_assoc.
    assert (Ef : blen (H1 ++ pad ++ pnb) = blen (H1 ++ length_field h len ++ pnb)).
    { rewrite !blen_app, blen_length_field. fold two. lia. }
    split; [|split; [|split; [lia|split; [unfold left0 in *; lia|done]]]].
    + rewrite <- Ef. do 3 f_equal. f_equal. blia.
    + unfold z2, z1. by repeat apply bytes_ok_dropz.
  - intros Hs. specialize (Hsmall Hs). unfold PAYLOAD_MIN_LEN in *. lia.
Qed.
End layout.

(** ** What arrives *)

(** Paddings that follow one another arrive as one. *)
Fixpoint merge_pads (fs : list Frame) : list Frame :=
  match fs with
  | [] => []
  | f :: fs =>
      match f, merge_pads fs with
      | Padding n, Padding m :: r => Padding (n + m) :: r
      | f, r => f :: r
      end
  end.

Section merge.
Context `{w : arch}.

Lemma merge_cons f fs : (∃ n m r, f = Padding n ∧ merge_pads fs = Padding m :: r ∧ merge_pads (f :: fs) = Padding (n + m) :: r) ∨
  merge_pads (f :: fs) = f :: merge_pads fs ∧ (∀ n m r, f = Padding n → merge_pads fs ≠ Padding m :: r).
Proof.
  cbn [merge_pads]. destruct f; try (right; split; [done|intros ??? [=]]).
  destruct (merge_pads fs) as [|[] r]; try (right; split; [done|intros ??? _ [=]]). left. eauto 6.
Qed.

Lemma merge_Forall (P : Frame → Prop) fs : (∀ n m, P (Padding n) → P (Padding m) → P (Padding (n + m))) →
  Forall P fs → Forall P (merge_pads fs).
Proof.
  intros HP. induction 1 as [|f fs Hf _ IH]; [constructor|].
  destruct (merge_cons f fs) as [(n & m & r & -> & E & ->)|[-> _]]; [|by constructor].
  rewrite E in IH. apply Forall_cons in IH as [Hm Hr]. constructor; [by apply HP|done].
Qed.

Lemma merge_apart fs : apart (merge_pads fs).
Proof.
  induction fs as [|f fs IH]; [done|]. destruct (merge_cons f fs) as [(n & m & r & -> & E & ->)|[-> Hn]].
  - rewrite E in IH. cbn [apart] in *. by destruct r as [|[]].
  - cbn [apart]. destruct f; try done. destruct (merge_pads fs) as [|[] r]; try done. by destruct (Hn len len0 r).
Qed.

Lemma merge_ok fs : Forall frame_ok fs → Forall frame_ok (merge_pads fs).
Proof. apply merge_Forall. cbn. lia. Qed.

Lemma merge_sendable pkt fs : Forall (sendable pkt) fs → Forall (sendable pkt) (merge_pads fs).
Proof. apply merge_Forall. intros n m [Hn Ha] [Hm _]. split; [cbn in *; lia|done]. Qed.

Lemma merge_enc fs : Forall frame_ok fs → payload_enc (merge_pads fs) = payload_enc fs.
Proof.
  induction 1 as [|f fs Hf Hfs IH]; [done|]. unfold payload_enc in *. cbn [map concat]. rewrite <- IH.
  destruct (merge_cons f fs) as [(n & m & r & -> & E & ->)|[-> _]]; [|done]. apply merge_ok in Hfs.
  rewrite E in *. apply Forall_cons in Hfs as [Hm _]. cbn [frame_ok] in Hf, Hm. cbn [map concat frame_enc].
  by rewrite app_assoc, <- replicate_add, Z2Nat.inj_add by lia.
Qed.
End merge.

Section arrives.
Context `{w : arch} `{BoringLaws} {St : Type} (process_frame : Frame → St → St * option Error).
Context (is_server confirmed : bool) (now : Z).

(** The receiver is ready for this packet: it has the sender's key, expects
    numbers near this one and has not seen it, and agrees on version and key
    phase. *)
Record ready (h : Header) (s : Seal) (pn la : Z) (own_version : Z) (r : Receiver St) : Prop := {
  rd_key : ∃ o, rx_open r = Some o ∧ paired s o;
  rd_version : is_short h = false → version h = own_version;
  rd_phase : confirmed = true → is_short h = true ∧ key_phase h = rx_phase r;
  rd_numbers : 0 ≤ la ≤ pn ∧ pn < 2 ^ 62 ∧ pn - la + 1 < 2 ^ 31;
  rd_near : la ≤ largest_rx_pkt_num (rx_space r) ≤ pn + (pn - la) ∧ largest_rx_pkt_num (rx_space r) < 2 ^ 62;
  rd_space : ∃ log, space_ok (rx_space r) log;
  rd_fresh : window_contains pn (recv_pkt_num (rx_space r)) = false;
}.

Lemma header_arrives h n m0 r : header_ok (with_pn_len h n) → ty h ≠ Retry → u8 m0 →
  let f := mask_first (first_byte (with_pn_len h n)) m0 in
  let p := f :: header_tail (with_pn_len h n) in
  header_from_bytes (blen (dcid h)) (with_slice (p ++ r)) = Ok (hidden (with_pn_len h n), Octets (p ++ r) (blen p)).
Proof.
  intros Hh Hr Hm f p. destruct (first_byte_bits _ Hh) as (Hf8 & Hl & _).
  destruct (mask_first_ok _ m0 Hf8 Hm) as (Hu & _ & Hlf & Htf).
  assert (Ht : tells (with_pn_len h n) f).
  { split; [done|]. split; [done|]. intros Hs. apply Htf. rewrite Hl, bool_decide_false by done. done. }
  destruct (header_reads (with_pn_len h n) f Hh Hr Ht (with_slice (p ++ r)) r) as (b & E & Hb & Hu' & Ho); [apply reads_with_slice|].
  cbn [dcid with_pn_len] in E. rewrite E. do 2 f_equal. destruct b as [bb bo]. cbn in Hu', Ho. subst bb bo. done.
Qed.

Lemma header_tail_bytes h : header_ok h → bytes_ok (header_tail h).
Proof.
  intros (_ & Hd & Hs & Hdl & Hsl & Ht & _). unfold header_tail, token_enc, MAX_CID_LEN in *.
  pose proof (blen_nonneg (dcid h)). pose proof (blen_nonneg (scid h)). destruct (ty h); try done.
  - destruct Ht. bytes.
  - destruct Ht as (tk & -> & Htk). bytes.
  - bytes.
  - bytes.
Qed.

Lemma length_field_bytes h len : bytes_ok (length_field h len).
Proof. unfold length_field. destruct (is_short h); [constructor|apply varint_enc2_bytes]. Qed.

(** The payload length of a packet, read where the header ended. *)
Lemma length_arrives h p len rest more (r : Receiver St) :
  (is_short h = false → 0 ≤ len < 2 ^ 14) → (is_short h = true → more = []) → blen rest = len →
  let b := Octets (p ++ length_field h len ++ rest ++ more) (blen p) in
  (if is_short h then mret (cap b, b)
   else '(n, b) ← dropping is_server r (varint b); mret (as_usize n, b)) =
  Ok (len, Octets (p ++ length_field h len ++ rest ++ more) (blen (p ++ length_field h len))).
Proof.
  intros Hl Hm Hr b. unfold length_field in *. subst b. destruct (is_short h).
  - rewrite (Hm eq_refl). cbn [app]. rewrite !app_nil_r. unfold cap. cbn [buf off]. do 3 f_equal. blia.
  - set (b := Octets _ _). assert (Hb : reads b (varint_enc2 len ++ rest ++ more)) by (by exists p).
    destruct (spells_varint2 len (Hl eq_refl) b _ Hb) as (b' & E & _ & Hu & Ho). unfold dropping. rewrite E.
    cbn [map_err mbind comp_bind mret comp_ret]. rewrite as_usize_small by (specialize (Hl eq_refl); lia).
    do 2 f_equal. destruct b' as [bb bo]. unfold b in Hu, Ho. cbn [buf off] in Hu, Ho. subst bb bo.
    by rewrite blen_app.
Qed.

(** The packet a ready receiver opens. *)
Lemma open_arrives h s pn la own_version (r : Receiver St) n pl z written b' more :
  header_ok (with_pn_len h n) → ty h ≠ Retry → ready h s pn la own_version r → pkt_num_len pn la = Ok n →
  PAYLOAD_MIN_LEN ≤ blen pl → bytes_ok pl → bytes_ok z → (is_short h = false → n + blen pl + tag_len (s_alg s) < 2 ^ 14) →
  (is_short h = true → more = []) →
  let f := front h pn n (n + blen pl + tag_len (s_alg s)) in
  (encrypt_pkt (Octets (f ++ pl ++ z) (blen f + blen pl)) pn n (blen pl) (blen f) None s).1 = Ok (written, b') →
  ∃ hdr b hdr', header_from_bytes (blen (dcid h)) (with_slice (takez written (buf b') ++ more)) = Ok (hdr, b) ∧
    open_packet is_server confirmed own_version hdr b r = Ok (hdr', pn, with_slice pl, written, None) ∧ ty hdr' = ty h.
Proof.
  intros Hh Hnr [Hkey Hver Hph (Hla & Hpn & Hun) Hnear _ Hfresh] Hn Hpl Hbpl Hbz Hsm Hmore f E.
  destruct (pkt_num_len_room pn la n Hla Hpn Hn) as (Hn1 & Hroom & Hn4). specialize (Hn4 Hun).
  destruct Hkey as (o & Eo & Hp). set (t := tag_len (s_alg s)) in *. set (len := n + blen pl + t) in *.
  destruct (first_byte_bits _ Hh) as (Hf8 & _ & _ & Hlow & Hphase).
  set (f0 := first_byte (with_pn_len h n)) in *. set (tl := header_tail (with_pn_len h n)).
  set (pnb := be_bytes (Z.to_nat n) pn). assert (Hpnb : blen pnb = n) by (unfold pnb; rewrite blen_be_bytes; lia).
  assert (Ef : f = f0 :: (tl ++ length_field h len) ++ pnb) by (unfold f, front, header_enc; cbn [app]; by rewrite <- app_assoc).
  rewrite Ef in E. assert (Hbf : bytes_ok (f0 :: (tl ++ length_field h len) ++ pnb)).
  { constructor; [done|]. repeat apply Forall_app_2; [by apply header_tail_bytes|apply length_field_bytes|apply be_bytes_ok]. }
  cbn [hdr_pn_len with_pn_len] in Hlow. unfold PAYLOAD_MIN_LEN in Hpl.
  destruct (protected_opens s o (hidden (with_pn_len h n)) f0 (tl ++ length_field h len) pnb pl z pn n _ written b'
    Hp Hpnb ltac:(lia) ltac:(lia) Hbf (Forall_app_2 _ _ _ Hbpl Hbz) (Hlow Hn1) E) as (m0 & pnb' & ct & Hm0 & Epkt & Hpn' & Hct & Hw & Hopen).
  fold t in Hct. rewrite Epkt. destruct (Hopen more) as (b3 & c & Edh & Edp & Hc). clear Hopen.
  set (f' := mask_first f0 m0) in *.
  exists (hidden (with_pn_len h n)), (Octets ((f' :: tl) ++ length_field h len ++ (pnb' ++ ct) ++ more) (blen (f' :: tl))).
  exists (numbered (hidden (with_pn_len h n)) (be_val pnb) n (negb (Z.land f0 KEY_PHASE_BIT =? 0))).
  split; [|split; [|done]].
  { replace ((f' :: (tl ++ length_field h len) ++ pnb' ++ ct) ++ more) with ((f' :: tl) ++ length_field h len ++ (pnb' ++ ct) ++ more)
      by (cbn [app]; by rewrite <- !app_assoc). by apply header_arrives. }
  unfold open_packet. cbn [version hidden with_pn_len].
  change (is_short (hidden (with_pn_len h n))) with (is_short h).
  assert (Hv : negb (is_short h) && negb (version h =? own_version) = false).
  { destruct (is_short h) eqn:Es; [done|]. rewrite (Hver eq_refl). by rewrite Z.eqb_refl. }
  assert (Hlen : blen (pnb' ++ ct) = len) by (rewrite blen_app; unfold len; lia).
  rewrite Hv. rewrite length_arrives; [|intros Hs; specialize (Hsm Hs); assert (0 ≤ t) by (unfold t; by destruct (s_alg s)); lia|done|done].
  cbn [mbind comp_bind]. rewrite Eo.
  replace (Octets ((f' :: tl) ++ length_field h len ++ (pnb' ++ ct) ++ more) (blen ((f' :: tl) ++ length_field h len)))
    with (Octets (f' :: (tl ++ length_field h len) ++ pnb' ++ ct ++ more) (1 + blen (tl ++ length_field h len))).
  2: { f_equal; [cbn [app]; by rewrite <- !app_assoc|rewrite !blen_app, blen_cons; lia]. }
  destruct (Z.gtb_spec len (cap (Octets (f' :: (tl ++ length_field h len) ++ pnb' ++ ct ++ more) (1 + blen (tl ++ length_field h len))))) as [Hgt|_].
  { exfalso. unfold cap in Hgt. cbn [buf off] in Hgt. pose proof (blen_nonneg more).
    rewrite blen_cons, !blen_app in Hgt. rewrite blen_app in Hlen. lia. }
  unfold dropping. rewrite Edh. cbn [map_err mbind comp_bind pkt_num hdr_pn_len numbered].
  assert (Hval : be_val pnb = pn mod 2 ^ (8 * n)).
  { unfold pnb. rewrite be_val_be_bytes, Z2Nat.id by lia. change 256 with (2 ^ 8). by rewrite <- Z.pow_mul_r by lia. }
  rewrite Hval, decode_window by lia. cbn [mbind comp_bind].
  assert (Hck : choose_key confirmed (numbered (hidden (with_pn_len h n)) (pn mod 2 ^ (8 * n)) n (negb (Z.land f0 KEY_PHASE_BIT =? 0))) pn o r
    = Ok (o, None)).
  { unfold choose_key. destruct confirmed; [|done]. destruct (Hph eq_refl) as [Hs Hkp]. unfold is_short in Hs.
    apply bool_decide_eq_true in Hs. cbn [key_phase numbered ty hidden with_pn_len]. rewrite decide_True by done.
    rewrite (Hphase Hs). cbn [key_phase with_pn_len]. rewrite Hkp, Bool.eqb_reflx. by rewrite andb_false_r. }
  rewrite Hck. cbn [mbind comp_bind].
  replace len with (n + blen ct) by (rewrite blen_app in Hlen; lia). rewrite Edp. cbn [map_err mbind comp_bind].
  rewrite Hfresh. unfold cap. cbn [buf off with_slice]. destruct (Z.eqb_spec (blen pl - 0) 0); [lia|].
  unfold mret, comp_ret. do 3 f_equal. rewrite Hc, Hw. destruct Hp as (Ha & _). rewrite <- Ha. fold t. lia.
Qed.

Lemma chosen_sendable pkt offers fs : Forall (sendable pkt) offers → chosen offers fs → Forall (sendable pkt) fs.
Proof.
  intros Hof (gs & Hgs & _ & Hfs). pose proof (sublist_Forall _ _ _ Hgs Hof). destruct Hfs as [->|(k & Hk & ->)]; [done|].
  apply Forall_app_2; [done|]. repeat constructor; [done|by destruct pkt].
Qed.

(** What the receiver does with frames it was handed. *)
Definition handled (pn written : Z) (outcome : St * comp Error (bool * bool * option Error))
  (res : Receiver St * comp Error (Z * Z)) : Prop :=
  rx_conn res.1 = outcome.1 ∧
  match outcome.2 with
  | Ok (_, _, None) => res.2 = Ok (pn, written) ∧ window_contains pn (recv_pkt_num (rx_space res.1)) = true
  | Ok (_, _, Some e) | Err e => res.2 = Err e
  | Panic => False
  end.

Lemma recv_handles hdr b (r : Receiver St) own_version hdr' pn payload written fs log :
  open_packet is_server confirmed own_version hdr b r = Ok (hdr', pn, payload, written, None) →
  (∃ gs, Forall2 means fs gs ∧ process_payload process_frame (ty hdr') payload (rx_conn r) =
    handle_all process_frame gs (rx_conn r) false true) →
  space_ok (rx_space r) log → 0 ≤ pn < 2 ^ 63 → pn - upper (recv_pkt_num (rx_space r)) < 2 ^ 32 →
  ∃ gs, Forall2 means fs gs ∧ handled pn written (handle_all process_frame gs (rx_conn r) false true)
    (recv_packet process_frame is_server confirmed own_version now hdr b r).
Proof.
  intros E (gs & Hgs & Ep) Hsp Hpn Hj. exists gs. split; [done|]. unfold recv_packet. rewrite E. cbn [update_keys mret comp_ret].
  assert (Hh : ∀ fs s a p, ∃ s' a' p' oe, handle_all process_frame fs s a p = (s', Ok (a', p', oe))).
  { clear. induction fs as [|f fs IH]; intros s a p; cbn [handle_all]; [eauto|]. destruct (process_frame f s) as [s' [e|]]; eauto. }
  rewrite Ep. destruct (Hh gs (rx_conn r) false true) as (s' & a & p & oe & ->). destruct oe as [e|]; [done|].
  destruct (space_received_ok _ _ pn now a p Hsp Hpn Hj) as (sp & -> & Hsp' & _). split; [done|]. split; [done|]. cbn.
  rewrite (window_contains_ok _ _ pn (sp_window _ _ Hsp')). apply orb_true_iff. right. apply bool_decide_true, list_elem_of_here.
Qed.

(** ** Theorems *)

(** C3. A packet arrives as it was sent: the sender lays out header, number
    and those frames that fit, protects them, and a receiver with the key that
    is ready for this number, whatever follows the packet in the datagram,
    takes exactly the packet's bytes, hands its connection the frames in
    order (paddings in a row as one), up to the first that fails, and then
    knows the number; the frames sent are some of those offered, one at least,
    and padding. *)
Theorem packet_arrives h pn la limit fill offers s out n own_version (r : Receiver St) more written out' fs :
  header_ok (with_pn_len h n) → ty h ≠ Retry → pkt_num_len pn la = Ok n → ready h s pn la own_version r →
  Forall (sendable (ty h)) offers → bytes_ok out →
  overhead h n s + PAYLOAD_MIN_LEN ≤ Z.min limit (blen out) → (is_short h = false → blen out < 2 ^ 14) →
  (is_short h = true → more = []) →
  (send_packet h pn la limit fill offers s out).1 = Ok (written, out', fs) →
  chosen offers fs ∧
  ∃ hdr b, header_from_bytes (blen (dcid h)) (with_slice (takez written out' ++ more)) = Ok (hdr, b) ∧
  ∃ gs, Forall2 means (merge_pads fs) gs ∧
    handled pn written (handle_all process_frame gs (rx_conn r) false true)
      (recv_packet process_frame is_server confirmed own_version now hdr b r).
Proof.
  intros Hh Hnr Hn Hrd Hof Hout Hroom Hsm Hmore E. unfold send_packet in E. rewrite Hn in E. cbn [mbind comp_bind] in E.
  assert (Hofok : Forall frame_ok offers) by (eapply Forall_impl; [exact Hof|intros f [? _]; done]).
  destruct (rd_numbers _ _ _ _ _ _ Hrd) as (Hla & Hpn & Hun).
  destruct (pkt_num_len_room pn la n Hla Hpn Hn) as (Hn1 & _ & Hn4). specialize (Hn4 Hun).
  destruct (lay_out_ok h pn n limit fill offers s out Hh ltac:(lia) Hofok Hout Hroom Hsm)
    as [El|(fs0 & z & El & Hz & Hpl & Hlen & Hfok & Hch)]; [by rewrite El in E|].
  cbv zeta in El. rewrite El in E. cbn [mbind comp_bind mret comp_ret off] in E.
  set (f := front h pn n (n + blen (payload_enc fs0) + tag_len (s_alg s))) in *.
  replace (blen f + blen (payload_enc fs0) - blen f) with (blen (payload_enc fs0)) in E by lia.
  destruct (encrypt_pkt _ _ _ _ _ _ _) as [[[w0 b']|e|] s'] eqn:Ee; [|done..]. injection E as -> <- ->.
  apply (f_equal fst) in Ee. cbn [fst] in Ee. split; [done|].
  destruct (open_arrives h s pn la own_version r n (payload_enc fs) z written b' more Hh Hnr Hrd Hn Hpl
    (payload_enc_bytes fs Hfok) Hz ltac:(intros Hs; specialize (Hsm Hs); lia) Hmore Ee) as (hdr & b & hdr' & Eh & Eo & Ety).
  exists hdr, b. split; [exact Eh|]. destruct (rd_space _ _ _ _ _ _ Hrd) as [log Hlog]. destruct (rd_near _ _ _ _ _ _ Hrd) as [Hnear _].
  destruct (sp_largest _ _ Hlog) as [_ Hup].
  apply (recv_handles hdr b r own_version hdr' pn _ written (merge_pads fs) log Eo); [|done|lia|lia].
  rewrite Ety, <- (merge_enc fs Hfok). apply payload_loop;
    [by apply merge_sendable, (chosen_sendable _ offers)|apply merge_apart|by apply payload_enc_bytes, merge_ok|apply reads_with_slice].
Qed.
End arrives.

(** ** Numbers from the wire *)

Section replay.
Context `{w : arch} `{BoringLaws} {St : Type} (process_frame : Frame → St → St * option Error).
Context (is_server confirmed : bool) (own_version now dcid_len : Z).

Lemma xor_byte a b : u8 a → u8 b → u8 (Z.lxor a b).
Proof.
  intros Ha Hb. unfold u8 in *. assert (Hlog : ∀ x, 0 ≤ x < 2 ^ 8 → Z.log2 x < 8).
  { intros x Hx. destruct (decide (x = 0)) as [->|]; [cbn; lia|apply Z.log2_lt_pow2; lia]. }
  assert (0 ≤ Z.lxor a b) by (apply Z.lxor_nonneg; lia). split; [done|].
  destruct (decide (Z.lxor a b = 0)) as [->|]; [lia|]. change 256 with (2 ^ 8). apply Z.log2_lt_pow2; [lia|].
  pose proof (Z.log2_lxor a b ltac:(lia) ltac:(lia)). pose proof (Hlog a ltac:(lia)). pose proof (Hlog b ltac:(lia)). lia.
Qed.

Lemma xor_bytes_ok l m : bytes_ok l → bytes_ok m → bytes_ok (xor_bytes l m).
Proof.
  intros Hl. revert m. induction Hl as [|x l Hx Hl IH]; intros m Hm; [destruct m; constructor|].
  destruct m as [|y m]; [by constructor|]. apply Forall_cons in Hm as [Hy Hm]. constructor; [by apply xor_byte|by apply IH].
Qed.

Lemma get_u_bound n b v b' : bytes_ok (buf b) → 0 ≤ n → get_u n b = Ok (v, b') → 0 ≤ v < 256 ^ n.
Proof.
  intros Hb Hn. unfold get_u, peek_u, as_ref, index_range. destruct (slice _ _ _) as [src|] eqn:Es; [|done].
  cbn [or_panic mbind comp_bind]. destruct (Z.ltb_spec (blen src) n); [done|]. intros [= <- _].
  pose proof (be_val_bound (takez n src) ltac:(apply bytes_ok_takez; by eapply slice_ok)) as Hv.
  by rewrite blen_takez in Hv by lia.
Qed.

Lemma get_pn_bound n b v b' : bytes_ok (buf b) → get_pn n b = Ok (v, b') → 1 ≤ n ≤ 4 ∧ 0 ≤ v < 2 ^ (8 * n).
Proof.
  intros Hb E. assert (Hn : n = 1 ∨ n = 2 ∨ n = 3 ∨ n = 4).
  { unfold get_pn in E. destruct n as [|p|p]; try done. destruct p as [[p|p|]|[p|[p|p|]|]|]; try done; try lia.
    all: by destruct p. }
  assert (Hg : too_short (get_u n b) = Ok (v, b')) by (destruct Hn as [->|[->|[->| ->]]]; exact E).
  destruct (get_u n b) as [[v' b1]|[]|] eqn:Eg; [|done..]. injection Hg as -> ->.
  apply get_u_bound in Eg; [|done|lia]. split; [lia|]. rewrite Z.pow_mul_r by lia. done.
Qed.

Lemma overwrite_bytes l i s : bytes_ok l → bytes_ok s → bytes_ok (overwrite l i s).
Proof. intros Hl Hs. unfold overwrite. repeat apply Forall_app_2; [by apply bytes_ok_takez|done|by apply bytes_ok_dropz]. Qed.

Lemma peek_bytes_inv n b o : peek_bytes n b = Ok o → bytes_ok (buf b) → bytes_ok (buf o) ∧ blen (buf o) = n ∧ off o = 0.
Proof.
  intros E Hb. unfold peek_bytes in E. destruct (_ <? _); [done|]. unfold index_range in E.
  destruct (slice _ _ _) as [s|] eqn:Es; [|done]. injection E as <-. cbn. split; [by eapply slice_ok|].
  apply slice_Some in Es as (_ & _ & Hl & _). split; [lia|done].
Qed.

Lemma too_short_inv {A} (m : comp () A) a : too_short m = Ok a → m = Ok a.
Proof. destruct m; [by intros [= ->]|done..]. Qed.

Lemma mask_pn_bytes x mask n p : bytes_ok x → bytes_ok mask → mask_pn x mask n = Ok p → bytes_ok p.
Proof.
  intros Hx Hm E. unfold mask_pn, index_range in E. destruct (slice x _ _) as [a|] eqn:Ea; [|done].
  cbn [or_panic mbind comp_bind] in E. destruct (slice mask _ _) as [c|] eqn:Ec; [|done]. injection E as <-.
  apply xor_bytes_ok; [exact (slice_ok _ _ _ _ Hx Ea)|exact (slice_ok _ _ _ _ Hm Ec)].
Qed.

(** The number found behind a mask fits its length. *)
Lemma decrypt_hdr_number b hdr o b' hdr' : bytes_ok (buf b) → decrypt_hdr b hdr o = Ok (b', hdr') →
  1 ≤ hdr_pn_len hdr' ≤ 4 ∧ 0 ≤ pkt_num hdr' < 2 ^ (8 * hdr_pn_len hdr') ∧ ty hdr' = ty hdr.
Proof.
  intros Hb E. unfold decrypt_hdr in E.
  destruct (too_short (split_at 1 b)) as [[fb ?]|?|]; [|done..]. cbn [mbind comp_bind] in E.
  destruct (at_ (buf fb) 0) as [f|?|]; [|done..]. cbn [mbind comp_bind] in E.
  destruct (too_short (peek_bytes _ b)) as [q|?|] eqn:Eq; [|done..]. cbn [mbind comp_bind] in E.
  apply too_short_inv, peek_bytes_inv in Eq as (Hq & Hlq & Hoq); [|done]. unfold MAX_PKT_NUM_LEN, SAMPLE_LEN in *.
  assert (Es : split_at 4 q = Ok (with_slice (takez 4 (buf q)), with_slice (dropz 4 (buf q)))).
  { unfold split_at. by destruct (Z.ltb_spec (blen (buf q)) 4); [lia|]. }
  rewrite Es in E. cbn [too_short map_err mbind comp_bind] in E. rewrite (as_ref_reads _ _ (reads_with_slice _)) in E. cbn [too_short map_err mbind comp_bind] in E.
  destruct (header_mask_ok (o_header o) (dropz 4 (buf q))) as (mask & Em & _ & Hm); [unfold SAMPLE_LEN; rewrite blen_dropz; lia|].
  unfold open_mask in E. rewrite Em in E. cbn [mbind comp_bind] in E.
  destruct (at_ mask 0) as [m0|?|]; [|done..]. cbn [mbind comp_bind] in E. set (n := Z.land _ _ + 1) in E.
  destruct (mask_pn _ mask n) as [p|?|] eqn:Ep; [|done..]. cbn [mbind comp_bind] in E.
  apply mask_pn_bytes in Ep; [|by apply bytes_ok_takez|done].
  destruct (get_pn n _) as [[pn b1]|?|] eqn:Eg; [|done..]. cbn [mbind comp_bind] in E.
  apply get_pn_bound in Eg as [Hn Hv]; [|by apply overwrite_bytes].
  destruct (too_short (split_at 1 b1)) as [?|?|]; [|done..]. cbn [mbind comp_bind mret comp_ret] in E. by injection E as <- <-.
Qed.

(** A decoded number is at most a window ahead of the expected one. *)
Lemma decode_bound largest t n pn : 1 ≤ n ≤ 4 → 0 ≤ t < 2 ^ (8 * n) → 0 ≤ largest < 2 ^ 62 →
  decode_pkt_num largest t n = Ok pn → 0 ≤ pn < 2 ^ 63 ∧ (pn ≤ largest + 1 + 2 ^ 31 ∨ pn < 2 ^ 32).
Proof.
  intros Hn Ht Hl. unfold decode_pkt_num. rewrite u64_add_ok by lia. cbn [mbind comp_bind].
  destruct (Z.leb_spec 64 (n * 8)); [lia|]. rewrite Z.shiftl_1_l. replace (n * 8) with (8 * n) by lia.
  rewrite <- (Z.mod_small t (2 ^ (8 * n))) by lia. rewrite splice_bits by lia.
  set (win := 2 ^ (8 * n)) in *. assert (Hwin : win = 2 * (win / 2) ∧ 128 ≤ win / 2 ≤ 2 ^ 31).
  { assert (n = 1 ∨ n = 2 ∨ n = 3 ∨ n = 4) as [->|[->|[->| ->]]] by lia; subst win; by_decision. }
  set (hwin := win / 2) in *. clearbody win hwin. set (ex := largest + 1) in *.
  pose proof (Z.div_mod ex win ltac:(lia)). pose proof (Z.mod_pos_bound ex win ltac:(lia)).
  pose proof (Z.mod_pos_bound t win ltac:(lia)). assert (Hc0 : 0 ≤ win * (ex / win) ≤ ex) by (pose proof (Z.div_pos ex win); nia).
  set (c := win * (ex / win) + t mod win). assert (Hc : 0 ≤ c < ex + win) by lia. clearbody c.
  rewrite (u64_add_ok c hwin) by lia. cbn [mbind comp_bind]. change (Z.shiftl 1 62) with (2 ^ 62).
  rewrite (u64_add_ok ex hwin) by lia. rewrite (u64_add_ok c win) by lia. rewrite (usub_ok (2 ^ 62) win) by lia.
  destruct (Z.leb_spec (c + hwin) ex); cbn [mbind comp_bind andb].
  - destruct (Z.ltb_spec c (2 ^ 62 - win)); [intros [= <-]; lia|]. cbn [mbind comp_bind].
    destruct (Z.gtb_spec c (ex + hwin)); [lia|]. cbn [andb]. intros [= <-]. lia.
  - destruct (Z.gtb_spec c (ex + hwin)); cbn [andb]; [|intros [= <-]; lia].
    destruct (Z.geb_spec c win); [rewrite usub_ok by lia|]; intros [= <-]; lia.
Qed.

(** Datagrams one after the other: the receiver and the numbers of the packets
    it processed.  Version negotiation and Retry packets have no number and
    are not looked at here; an error other than [Done] closes the
    connection. *)
Fixpoint recv_run (ds : list bytes) (r : Receiver St) : Receiver St * list Z :=
  match ds with
  | [] => (r, [])
  | d :: ds =>
      match header_from_bytes dcid_len (with_slice d) with
      | Ok (hdr, b) =>
          if bool_decide (ty hdr = Retry) || bool_decide (ty hdr = VersionNegotiation) then recv_run ds r
          else
            match recv_packet process_frame is_server confirmed own_version now hdr b r with
            | (r, Ok (pn, _)) => let '(r, log) := recv_run ds r in (r, pn :: log)
            | (r, Err EDone) => recv_run ds r
            | (r, _) => (r, [])
            end
      | _ => recv_run ds r
      end
  end.

Lemma update_keys_space pn next (r r' : Receiver St) : update_keys pn next r = Ok r' → rx_space r' = rx_space r.
Proof.
  unfold update_keys. destruct next as [[o s]|]; [|by intros [= <-]].
  destruct (rx_update r) as [u|]; [destruct (update_acked u); [|done]|]; (destruct (rx_open r); [|done]).
  all: cbn; by intros [= <-].
Qed.

Lemma open_packet_number hdr b (r : Receiver St) log hdr' pn payload read next :
  space_ok (rx_space r) log → largest_rx_pkt_num (rx_space r) < 2 ^ 62 → bytes_ok (buf b) →
  open_packet is_server confirmed own_version hdr b r = Ok (hdr', pn, payload, read, next) →
  pn ∉ log ∧ 0 ≤ pn < 2 ^ 63 ∧ pn - upper (recv_pkt_num (rx_space r)) < 2 ^ 32.
Proof.
  intros Hsp HL Hb E. unfold open_packet in E. destruct (_ && _); [done|].
  set (pl := if is_short hdr then _ else _) in E.
  assert (Hpl : ∀ n b1, pl = Ok (n, b1) → bytes_ok (buf b1)).
  { unfold pl. intros n b1. destruct (is_short hdr); [by intros [= <- <-]|]. unfold dropping, varint.
    destruct (get_varint b) as [[v b2]|e|] eqn:Ev; [|done..]. cbn. intros [= _ <-].
    apply get_varint_advances in Ev as [-> _]. done. }
  destruct pl as [[n b1]|?|] eqn:Epl; [|done..]. cbn [mbind comp_bind] in E. specialize (Hpl n b1 eq_refl).
  destruct (_ >? _); [done|]. destruct (rx_open r) as [o|]; [|done].
  destruct (dropping _ _ (decrypt_hdr _ _ _)) as [[b2 hdr2]|?|] eqn:Ed; [|done..]. cbn [mbind comp_bind] in E.
  unfold dropping in Ed. destruct (decrypt_hdr b1 hdr o) as [[b3 hdr3]|?|] eqn:Edh; [|done..]. injection Ed as -> ->.
  apply decrypt_hdr_number in Edh as (Hn & Ht & _); [|done].
  destruct (decode_pkt_num _ _ _) as [pn0|?|] eqn:Edec; [|done..]. cbn [mbind comp_bind] in E.
  destruct (choose_key _ _ _ _ _) as [[k nx]|?|]; [|done..]. cbn [mbind comp_bind] in E.
  destruct (dropping _ _ (decrypt_pkt _ _ _ _ _)) as [[py b4]|?|]; [|done..]. cbn [mbind comp_bind] in E.
  destruct (window_contains pn0 _) eqn:Ew; [done|]. destruct (_ =? 0); [done|]. injection E as <- <- <- <- <-.
  destruct Hsp as [Hw _ Hl]. apply decode_bound in Edec as [Hpn Hb63]; [|done|done|lia].
  rewrite (window_contains_ok _ _ _ Hw) in Ew. apply orb_false_iff in Ew as [_ Ew]. apply bool_decide_eq_false in Ew.
  split; [done|]. split; [done|]. rewrite (upper_ok _ (proj1 Hw)) in *. destruct Hw as [[? _] _]. lia.
Qed.

(** One packet: a number is processed once, and never forgotten. *)
Lemma recv_packet_number hdr b (r r' : Receiver St) res log :
  space_ok (rx_space r) log → largest_rx_pkt_num (rx_space r) < 2 ^ 62 → bytes_ok (buf b) →
  recv_packet process_frame is_server confirmed own_version now hdr b r = (r', res) →
  match res with
  | Ok (pn, _) => pn ∉ log ∧ space_ok (rx_space r') (pn :: log) ∧
      largest_rx_pkt_num (rx_space r) ≤ largest_rx_pkt_num (rx_space r')
  | _ => rx_space r' = rx_space r
  end.
Proof.
  intros Hsp HL Hb E. unfold recv_packet in E.
  destruct (open_packet _ _ _ _ _ _) as [[[[[hdr' pn] payload] read] next]|e|] eqn:Eo; [|by injection E as <- <-..].
  destruct (open_packet_number _ _ _ _ _ _ _ _ _ Hsp HL Hb Eo) as (Hni & Hpn & Hj).
  destruct (update_keys pn next r) as [r1|e|] eqn:Eu; [|by injection E as <- <-..]. apply update_keys_space in Eu as Hs1.
  rewrite <- Hs1 in *. destruct (process_payload _ _ _ _) as [conn [[[el pr] [e|]]|e|]]; [by injection E as <- <-| |by injection E as <- <-..].
  destruct (space_received_ok _ _ pn now el pr Hsp Hpn Hj) as (sp & Es & Hsp' & Hl). rewrite Es in E. injection E as <- <-.
  split; [done|]. split; [done|]. cbn. lia.
Qed.

Lemma recv_packet_mono hdr b (r : Receiver St) :
  largest_rx_pkt_num (rx_space r) ≤
  largest_rx_pkt_num (rx_space (recv_packet process_frame is_server confirmed own_version now hdr b r).1).
Proof.
  unfold recv_packet. destruct (open_packet _ _ _ _ _ _) as [[[[[hdr' pn] payload] read] next]|e|]; [|done..].
  destruct (update_keys pn next r) as [r1|e|] eqn:Eu; [|done..]. apply update_keys_space in Eu as <-.
  destruct (process_payload _ _ _ _) as [conn [[[el pr] [e|]]|e|]]; [done| |done..].
  unfold space_on_packet_received. destruct (push_item _ _); [|done..]. cbn. lia.
Qed.

Lemma recv_run_mono ds : ∀ r : Receiver St, largest_rx_pkt_num (rx_space r) ≤ largest_rx_pkt_num (rx_space (recv_run ds r).1).
Proof.
  induction ds as [|d ds IH]; intros r; [done|]. cbn [recv_run].
  destruct (header_from_bytes _ _) as [[hdr b]|e|]; [|apply IH..]. destruct (_ || _); [apply IH|].
  pose proof (recv_packet_mono hdr b r) as Hm. destruct (recv_packet _ _ _ _ _ _ _ _) as [r1 [[pn n]|e|]]; cbn [fst] in Hm; [|destruct e; try done|done].
  - specialize (IH r1). destruct (recv_run ds r1) as [r2 log]. cbn [fst] in *. lia.
  - specialize (IH r1). lia.
Qed.

Lemma recv_run_numbers ds : ∀ (r r' : Receiver St) log done_, 0 ≤ dcid_len → Forall bytes_ok ds →
  space_ok (rx_space r) done_ → NoDup done_ → recv_run ds r = (r', log) → largest_rx_pkt_num (rx_space r') < 2 ^ 62 →
  NoDup (rev log ++ done_) ∧ space_ok (rx_space r') (rev log ++ done_).
Proof.
  induction ds as [|d ds IH]; intros r r' log done_ Hd Hds Hsp Hnd E HL; cbn [recv_run] in E; [by injection E as <- <-|].
  apply Forall_cons in Hds as [Hb Hds].
  assert (Hok : cursor_ok (with_slice d)) by (unfold cursor_ok; cbn; pose proof (blen_nonneg d); lia).
  pose proof (safely_header dcid_len Hd (with_slice d) Hok Hb) as Hh.
  destruct (header_from_bytes dcid_len (with_slice d)) as [[hdr b]|e|]; [|by eapply IH..]. destruct Hh as (_ & _ & Hu & _).
  destruct (_ || _); [by eapply IH|]. pose proof (recv_packet_mono hdr b r) as Hm.
  destruct (recv_packet _ _ _ _ _ _ _ _) as [r1 res] eqn:Er. cbn [fst] in Hm.
  assert (HL1 : largest_rx_pkt_num (rx_space r1) ≤ largest_rx_pkt_num (rx_space r')).
  { destruct res as [[pn n]|e|]; [|destruct e; try by (injection E as <- <-)|by injection E as <- <-].
    - pose proof (recv_run_mono ds r1). destruct (recv_run ds r1) as [r2 l2]. by injection E as <- <-.
    - pose proof (recv_run_mono ds r1) as Hm1. by rewrite E in Hm1. }
  pose proof (recv_packet_number hdr b r r1 res done_ Hsp ltac:(lia) ltac:(by rewrite Hu) Er) as Hn.
  destruct res as [[pn n]|e|].
  - destruct Hn as (Hni & Hsp1 & _). destruct (recv_run ds r1) as [r2 l2] eqn:E2. injection E as <- <-.
    destruct (IH r1 r2 l2 (pn :: done_) Hd Hds Hsp1 ltac:(by constructor) E2 HL) as [H1 H2]. cbn [rev]. by rewrite <- app_assoc.
  - rewrite <- Hn in Hsp. destruct e; try (by injection E as <- <-). by eapply IH.
  - rewrite <- Hn in Hsp. by injection E as <- <-.
Qed.

(** C4. No packet is processed twice: over any datagrams, forged, repeated or
    out of order, a receiver that starts with a fresh packet number space
    hands the frames of each packet number to the connection at most once, and
    recognises every number it has processed, as long as the numbers stay
    below 2^62. *)
Theorem no_packet_twice ds (r r' : Receiver St) log : 0 ≤ dcid_len → Forall bytes_ok ds →
  rx_space r = space_new now → recv_run ds r = (r', log) → largest_rx_pkt_num (rx_space r') < 2 ^ 62 →
  NoDup log ∧ ∀ pn, pn ∈ log → window_contains pn (recv_pkt_num (rx_space r')) = true.
Proof.
  intros Hd Hds Hr E HL. assert (Hsp : space_ok (rx_space r) []) by (rewrite Hr; apply space_new_ok).
  destruct (recv_run_numbers ds r r' log [] Hd Hds Hsp (NoDup_nil_2) E HL) as [Hnd Hsp']. rewrite app_nil_r in *.
  split; [apply NoDup_ListNoDup; rewrite <- (rev_involutive log); by apply NoDup_rev, NoDup_ListNoDup|]. intros pn Hin.
  rewrite (window_contains_ok _ _ pn (sp_window _ _ Hsp')). apply orb_true_iff. right. apply bool_decide_true.
  apply list_elem_of_In. rewrite <- in_rev. by apply list_elem_of_In.
Qed.
End replay.

(** ** Witnesses *)

#[local] Existing Instance Toy.lib.
#[local] Existing Instance Toy.laws.

Definition demo_header : Header := mk_header Short 0 [1; 2; 3; 4; 5; 6; 7; 8] [] 0 0 None None false.

Definition demo_rx (o : Open) : Receiver (list Frame) := mk_rx _ _ (Some o) None None false (space_new 0) 0 [].

Lemma demo_header_ok : header_ok (with_pn_len demo_header 1).
Proof. split_and!; (by_decision || done). Qed.

Lemma packet_arrives_witness :
  ∃ s o written out' fs hdr b gs,
    (send_packet demo_header 3 0 1200 false demo_frames s (replicate 100 0)).1 = Ok (written, out', fs) ∧
    @header_from_bytes W64 8 (with_slice (takez written out')) = Ok (hdr, b) ∧
    Forall2 means (merge_pads fs) gs ∧
    handled 3 written (handle_all keep gs [] false true) (recv_packet (w := W64) keep true true 1 0 hdr b (demo_rx o)).
Proof.
  destruct (ok_inv ('(_, s) ← toy_keys false true; (send_packet demo_header 3 0 1200 false demo_frames s (replicate 100 0)).1))
    as [[[written out'] fs] E]; [vm_compute; reflexivity|].
  destruct (ok_inv (toy_keys true false)) as [[os ss] Es]; [vm_compute; reflexivity|].
  destruct (toy_keys false true) as [[oc sc]|e|] eqn:Ec; [|discriminate E..]. cbn [mbind comp_bind] in E.
  unfold toy_keys in Ec, Es. destruct (initial_paired _ _ _ _ _ _ _ _ Ec Es) as [Hp _].
  assert (Htag : tag_len (s_alg sc) = 16) by (by destruct (s_alg sc)).
  destruct (packet_arrives (w := W64) keep true true 0 demo_header 3 0 1200 false demo_frames sc (replicate 100 0) 1 1
    (demo_rx os) [] written out' fs) as (_ & hdr & b & Eh & gs & Hm & Hh).
  - exact demo_header_ok.
  - discriminate.
  - reflexivity.
  - constructor; [exists os; split; [reflexivity|exact Hp]|discriminate|split; reflexivity|lia|cbn; lia| |reflexivity].
    exists []. apply space_new_ok.
  - exact demo_sendable.
  - apply Forall_replicate. unfold u8. lia.
  - unfold overhead. rewrite Htag. vm_compute. discriminate.
  - discriminate.
  - reflexivity.
  - exact E.
  - exists sc, os, written, out', fs, hdr, b, gs. rewrite app_nil_r in Eh. exact (conj E (conj Eh (conj Hm Hh))).
Defined.

(** A packet, junk, and the packet again. *)
Definition demo_datagrams (s : Seal) : list bytes :=
  match (send_packet demo_header 3 0 1200 false demo_frames s (replicate 100 0)).1 with
  | Ok (n, out, _) => [takez n out; [1]; takez n out]
  | _ => []
  end.

Definition demo_run (s : Seal) (o : Open) : Receiver (list Frame) * list Z :=
  recv_run (w := W64) keep true true 1 0 8 (demo_datagrams s) (demo_rx o).

Definition demo_check (s : Seal) (o : Open) : bool :=
  let '(r, log) := demo_run s o in
  bool_decide (Forall (Forall u8) (demo_datagrams s)) && (largest_rx_pkt_num (rx_space r) <? 2 ^ 62) && bool_decide (log = [3]).

Lemma no_packet_twice_witness :
  ∃ s o r log, demo_run s o = (r, log) ∧ log = [3] ∧ NoDup log.
Proof.
  destruct (ok_inv ('(_, s) ← toy_keys false true; '(o, _) ← toy_keys true false; if demo_check s o then Ok () else Err CryptoFail))
    as [[] E]; [vm_compute; reflexivity|].
  destruct (toy_keys false true) as [[oc sc]|e|]; [|discriminate E..]. cbn [mbind comp_bind] in E.
  destruct (toy_keys true false) as [[os ss]|e|]; [|discriminate E..]. cbn [mbind comp_bind] in E.
  destruct (demo_check sc os) eqn:Ed; [|discriminate E]. clear E. unfold demo_check in Ed.
  destruct (demo_run sc os) as [r log] eqn:Er. rewrite !andb_true_iff in Ed. destruct Ed as [[Hb HL] Hlog].
  apply bool_decide_eq_true in Hb, Hlog. apply Z.ltb_lt in HL. exists sc, os, r, log. split; [exact Er|]. split; [exact Hlog|].
  exact (proj1 (no_packet_twice (w := W64) keep true true 1 0 8 (demo_datagrams sc) (demo_rx os) r log ltac:(lia) Hb eq_refl Er HL)).
Defined.
