(* ===== verification/Netstack.v ===== *)
(** * The network stack inside the tunnel

    src/aether/src/netstack.rs: the task that owns the smoltcp interface and
    its sockets, takes commands and data from the applications, moves bytes
    between the sockets and the applications' channels, and exchanges IP
    packets with the tunnel.

    smoltcp is a parameter ([Smoltcp]): its sockets are opaque states with the
    operations the task calls, and a poll of the interface changes them in any
    way.  A socket lives in the record of its connection (the code keeps it
    under a handle there).  The channels to the applications and from them are
    part of the state, so that the events of the model are what the task and
    the applications do in any order.  Times are milliseconds. *)

From stdpp Require Import strings gmap.
From S2P Require Import Prelude Text Net NetText Error Fragment.

(** ** Settings *)

Definition MAX_INGEST_PER_TICK : nat := 512.
Definition MAX_RECV_CHUNKS : nat := 128.
Definition BACKPRESSURE_RETRY : Z := 2.
Definition MAX_IDLE_TICK : Z := 250.
Definition ORPHAN_LINGER : Z := 10000.

Definition secs_of (env : environment) (name : bytes) (dflt : Z) : Z :=
  1000 * default dflt
    (raw ← env name; v ← parse_u64 raw; if v >? 0 then Some (Z.min v 86400) else None).

Definition tcp_keepalive (env : environment) : Z := secs_of env (lit "AETHER_TCP_KEEPALIVE_SECS") 60.
Definition tcp_connect_timeout (env : environment) : Z := secs_of env (lit "AETHER_TCP_CONNECT_SECS") 30.

Record TcpLimits := mk_limits { connect_limit : Z; keepalive : Z; orphan_linger : Z }.

Definition limits_from_env (env : environment) : TcpLimits :=
  mk_limits (tcp_connect_timeout env) (tcp_keepalive env) ORPHAN_LINGER.

(** [tcp_rx_buf().saturating_mul(2).max(64 * 1024)]. *)
Definition max_tcp_pending `{w : arch} (rx_buf : Z) : Z :=
  Z.max (Z.min (rx_buf * 2) (usize_max w)) (64 * 1024).

(** ** Addresses of the interface *)

Definition strip_cidr (s : bytes) : bytes :=
  match split_once 47 s with Some (ip, _) => ip | None => s end.

Definition cidr_prefix (s : bytes) : option Z :=
  '(_, p) ← split_once 47 s; parse_uint 255 p.

Definition parse_v4 (s : bytes) : comp AetherError (option (Z * Z)) :=
  if is_empty s then mret None
  else
    match parse_ipv4 (strip_cidr s) with
    | Some ip => mret (Some (ip, default 32 (cidr_prefix s)))
    | None => Err (EOther (lit "bad ipv4 " ++ s))
    end.

Definition parse_v6 (s : bytes) : comp AetherError (option (Z * Z)) :=
  if is_empty s then mret None
  else
    match parse_ipv6 (strip_cidr s) with
    | Some ip => mret (Some (ip, default 128 (cidr_prefix s)))
    | None => Err (EOther (lit "bad ipv6 " ++ s))
    end.

Definition routable_prefix_v4 (p : Z) : Z := if p >=? 31 then 24 else p.
Definition routable_prefix_v6 (p : Z) : Z := if p >=? 127 then 64 else p.

(** Of [Interface], what the stack sets: the addresses with their prefixes and
    the default routes.  [IpCidr::new] panics on a prefix too long. *)
Inductive Cidr := Cidr4 (ip prefix : Z) | Cidr6 (ip prefix : Z).

Record Iface := mk_iface { ip_addrs : list Cidr; route4 : option Z; route6 : option Z }.

Definition cidr4 (ip p : Z) : comp AetherError Cidr := if p <=? 32 then Ok (Cidr4 ip p) else Panic.
Definition cidr6 (ip p : Z) : comp AetherError Cidr := if p <=? 128 then Ok (Cidr6 ip p) else Panic.

(** The last octet replaced: 1, or 2 when it is 1 already. *)
Definition gateway (n : nat) (ip : Z) : Z :=
  let o := be_bytes n ip in
  let last := if default 0 (last o) =? 1 then 2 else 1 in
  be_val (take (n - 1) o ++ [last]).

Definition apply_addrs (v4 v6 : option (Z * Z)) (i : Iface) : comp AetherError Iface :=
  a ← match v4 with
      | Some (ip, p) => c ← cidr4 ip (routable_prefix_v4 p); mret [c]
      | None => mret []
      end;
  b ← match v6 with
      | Some (ip, p) => c ← cidr6 ip (routable_prefix_v6 p); mret [c]
      | None => mret []
      end;
  mret (mk_iface (a ++ b)
          (match v4 with Some (ip, _) => Some (gateway 4 ip) | None => route4 i end)
          (match v6 with Some (ip, _) => Some (gateway 16 ip) | None => route6 i end)).

Fixpoint current_go (l : list Cidr) (v4 v6 : option (Z * Z)) : option (Z * Z) * option (Z * Z) :=
  match l with
  | [] => (v4, v6)
  | Cidr4 ip p :: l => current_go l (Some (ip, p)) v6
  | Cidr6 ip p :: l => current_go l v4 (Some (ip, p))
  end.
Definition current_addrs (i : Iface) : option (Z * Z) * option (Z * Z) := current_go (ip_addrs i) None None.

(** ** Channels

    A bounded tokio channel: what waits in it, its capacity, and whether the
    other end still listens. *)
Record chan (A : Type) := mk_chan { queue : list A; capacity : Z; listening : bool }.
Arguments mk_chan {A}.
Arguments queue {A}.
Arguments capacity {A}.
Arguments listening {A}.

Inductive reserve := Permit | ChanFull | ChanClosed.

(** [try_reserve], and [try_send] which is a reservation that is used. *)
Definition try_reserve {A} (c : chan A) : reserve :=
  if negb (listening c) then ChanClosed
  else if blen (queue c) >=? capacity c then ChanFull else Permit.

Definition enqueue {A} (a : A) (c : chan A) : chan A := mk_chan (queue c ++ [a]) (capacity c) (listening c).

Definition try_send {A} (a : A) (c : chan A) : chan A :=
  match try_reserve c with Permit => enqueue a c | _ => c end.

(** ** smoltcp *)

Inductive TcpSt :=
| Closed | Listen | SynSent | SynReceived | Established | FinWait1 | FinWait2 | CloseWait | Closing | LastAck | TimeWait.

#[export] Instance TcpSt_eq_dec : EqDecision TcpSt.
Proof. solve_decision. Defined.

(** [tcp_new] is a new socket with its options set and [connect] called;
    [tcp_send_slice] tells how much it took ([unwrap_or(0)]); [tcp_recv] takes
    all that [recv] shows, [None] on an error; [poll] is the interface with
    the packets that arrived and all sockets, which also says whether it
    panicked, what it left unread and what it wants to send. *)
Class Smoltcp := {
  tcp_sock : Type;
  udp_sock : Type;
  tcp_new : Iface → Z → SocketAddr → Z → comp bytes tcp_sock;
  tcp_state : tcp_sock → TcpSt;
  tcp_can_send : tcp_sock → bool;
  tcp_send_slice : bytes → tcp_sock → Z * tcp_sock;
  tcp_can_recv : tcp_sock → bool;
  tcp_recv : tcp_sock → option bytes * tcp_sock;
  tcp_close : tcp_sock → tcp_sock;
  tcp_abort : tcp_sock → tcp_sock;
  udp_new : Z → comp bytes udp_sock;
  udp_send_slice : bytes → SocketAddr → udp_sock → udp_sock;
  udp_can_recv : udp_sock → bool;
  udp_recv : udp_sock → option (SocketAddr * bytes) * udp_sock;
  poll : Z → Iface → list bytes → gmap Z tcp_sock → gmap Z udp_sock →
         bool * list bytes * list bytes * (Z → tcp_sock → tcp_sock) * (Z → udp_sock → udp_sock);
}.

(** [send_slice] takes no more than it is given. *)
Class SmoltcpOk `{Smoltcp} : Prop :=
  send_slice_bound data sk : 0 ≤ (tcp_send_slice data sk).1 ≤ blen data.

(** ** The stack *)

Inductive DataIn :=
| TcpData (id : Z) (data : bytes)
| TcpClose (id : Z)
| UdpData (id : Z) (dst : SocketAddr) (data : bytes)
| UdpClose (id : Z).

(** [tag] names the open call; [connect_resp] is held until the open call is answered; [resp_closed]
    says that the caller gave up waiting; [from_stack_rx] is the receiver kept
    for it. *)
Record TcpState `{Smoltcp} := mk_tcp {
  tag : Z;
  sock : tcp_sock;
  to_app : chan bytes;
  from_stack_rx : bool;
  connect_resp : bool;
  resp_closed : bool;
  connect_deadline : Z;
  pending : bytes;
  established : bool;
  half_closed : bool;
  orphaned_at : option Z;
  aborted : bool;
}.
Arguments mk_tcp {_}.

Record UdpState `{Smoltcp} := mk_udp { usock : udp_sock; uto_app : chan (SocketAddr * bytes) }.
Arguments mk_udp {_}.

(** The answer to an open call. *)
Inductive answer := Opened (id : Z) | Refused (reason : bytes).

(** What is seen from outside, in order: answers, bytes a socket took, chunks
    and datagrams put into an application's channel. *)
Inductive seen :=
| AnsweredTcp (tag : Z) (a : answer)
| AnsweredUdp (tag : Z) (a : answer)
| Handed (id : Z) (data : bytes)
| ToApp (id : Z) (chunk : bytes)
| ToAppUdp (id : Z) (from : SocketAddr) (data : bytes).

Record NetStack `{Smoltcp} := mk_stack {
  iface : Iface;
  rx : list bytes;
  tx : list bytes;
  tcp_conns : gmap Z TcpState;
  udp_conns : gmap Z UdpState;
  next_id : Z;
  next_port : Z;
  limits : TcpLimits;
  data_in : chan DataIn;
  deferred : list DataIn;
  outbound : chan bytes;
  log : list seen;
}.
Arguments mk_stack {_}.

Section stack.
Context `{Smoltcp} {w : arch}.
Context (rx_buf app_queue : Z).
Implicit Types (s : NetStack) (st : TcpState).

Definition set_conns (m : gmap Z TcpState) s : NetStack :=
  mk_stack (iface s) (rx s) (tx s) m (udp_conns s) (next_id s) (next_port s) (limits s) (data_in s) (deferred s)
    (outbound s) (log s).
Definition set_udps (m : gmap Z UdpState) s : NetStack :=
  mk_stack (iface s) (rx s) (tx s) (tcp_conns s) m (next_id s) (next_port s) (limits s) (data_in s) (deferred s)
    (outbound s) (log s).
Definition set_ids (id port : Z) s : NetStack :=
  mk_stack (iface s) (rx s) (tx s) (tcp_conns s) (udp_conns s) id port (limits s) (data_in s) (deferred s)
    (outbound s) (log s).
Definition set_iface (i : Iface) s : NetStack :=
  mk_stack i (rx s) (tx s) (tcp_conns s) (udp_conns s) (next_id s) (next_port s) (limits s) (data_in s) (deferred s)
    (outbound s) (log s).
Definition set_device (r t : list bytes) s : NetStack :=
  mk_stack (iface s) r t (tcp_conns s) (udp_conns s) (next_id s) (next_port s) (limits s) (data_in s) (deferred s)
    (outbound s) (log s).
Definition set_outbound (c : chan bytes) s : NetStack :=
  mk_stack (iface s) (rx s) (tx s) (tcp_conns s) (udp_conns s) (next_id s) (next_port s) (limits s) (data_in s)
    (deferred s) c (log s).
Definition set_data (c : chan DataIn) (d : list DataIn) s : NetStack :=
  mk_stack (iface s) (rx s) (tx s) (tcp_conns s) (udp_conns s) (next_id s) (next_port s) (limits s) c d
    (outbound s) (log s).
Definition see (l : list seen) s : NetStack :=
  mk_stack (iface s) (rx s) (tx s) (tcp_conns s) (udp_conns s) (next_id s) (next_port s) (limits s) (data_in s)
    (deferred s) (outbound s) (log s ++ l).

Definition with_sock (sk : tcp_sock) st : TcpState :=
  mk_tcp (tag st) sk (to_app st) (from_stack_rx st) (connect_resp st) (resp_closed st) (connect_deadline st)
    (pending st) (established st) (half_closed st) (orphaned_at st) (aborted st).
Definition with_pending (p : bytes) st : TcpState :=
  mk_tcp (tag st) (sock st) (to_app st) (from_stack_rx st) (connect_resp st) (resp_closed st) (connect_deadline st)
    p (established st) (half_closed st) (orphaned_at st) (aborted st).
Definition with_chan (c : chan bytes) st : TcpState :=
  mk_tcp (tag st) (sock st) c (from_stack_rx st) (connect_resp st) (resp_closed st) (connect_deadline st)
    (pending st) (established st) (half_closed st) (orphaned_at st) (aborted st).
Definition with_half (b : bool) st : TcpState :=
  mk_tcp (tag st) (sock st) (to_app st) (from_stack_rx st) (connect_resp st) (resp_closed st) (connect_deadline st)
    (pending st) (established st) b (orphaned_at st) (aborted st).
Definition with_orphan (t : option Z) (b : bool) st : TcpState :=
  mk_tcp (tag st) (sock st) (to_app st) (from_stack_rx st) (connect_resp st) (resp_closed st) (connect_deadline st)
    (pending st) (established st) (half_closed st) t b.
Definition with_established st : TcpState :=
  mk_tcp (tag st) (sock st) (to_app st) false false (resp_closed st) (connect_deadline st)
    (pending st) true (half_closed st) (orphaned_at st) (aborted st).

Definition stop_listening {A} (c : chan A) : chan A := mk_chan [] (capacity c) false.

(** ** Commands *)

Inductive Cmd :=
| OpenTcp (tag : Z) (dst : SocketAddr)
| OpenUdp (tag : Z)
| SetAddrs (v4 v6 : option (Z * Z)).

Definition alloc_port (p : Z) : Z * Z := (p, if p >=? 65000 then 49152 else p + 1).

Definition or_else {A} (a b : option A) : option A := match a with Some _ => a | None => b end.

Definition handle_cmd (now : Z) (cmd : Cmd) s : comp AetherError NetStack :=
  match cmd with
  | OpenTcp tag dst =>
      let '(port, next) := alloc_port (next_port s) in
      match tcp_new (iface s) (keepalive (limits s)) dst port with
      | Ok sk =>
          let id := next_id s in
          let st := mk_tcp tag sk (mk_chan [] app_queue true) true true false (now + connect_limit (limits s))
                      [] false false None false in
          mret (set_conns (<[id := st]> (tcp_conns s)) (set_ids (id + 1) next s))
      | Err e => mret (see [AnsweredTcp tag (Refused (lit "connect: " ++ e))] (set_ids (next_id s) next s))
      | Panic => Panic
      end
  | OpenUdp tag =>
      let '(port, next) := alloc_port (next_port s) in
      match udp_new port with
      | Ok sk =>
          let id := next_id s in
          mret (see [AnsweredUdp tag (Opened id)]
                 (set_udps (<[id := mk_udp sk (mk_chan [] app_queue true)]> (udp_conns s)) (set_ids (id + 1) next s)))
      | Err e => mret (see [AnsweredUdp tag (Refused (lit "bind: " ++ e))] (set_ids (next_id s) next s))
      | Panic => Panic
      end
  | SetAddrs v4 v6 =>
      let '(current_v4, current_v6) := current_addrs (iface s) in
      i ← apply_addrs (or_else v4 current_v4) (or_else v6 current_v6) (iface s);
      mret (set_iface i s)
  end.

(** ** Data from the applications *)

(** [try_handle_data]: what must be tried again later, and the stack. *)
Definition try_handle_data (d : DataIn) s : option DataIn * NetStack :=
  match d with
  | TcpData id data =>
      match tcp_conns s !! id with
      | Some st =>
          let max := max_tcp_pending rx_buf in
          if blen (pending st) >=? max then (Some d, s)
          else
            let space := max - blen (pending st) in
            if blen data <=? space then
              (None, set_conns (<[id := with_pending (pending st ++ data) st]> (tcp_conns s)) s)
            else
              (Some (TcpData id (dropz space data)),
               set_conns (<[id := with_pending (pending st ++ takez space data) st]> (tcp_conns s)) s)
      | None => (None, s)
      end
  | TcpClose id =>
      match tcp_conns s !! id with
      | Some st => (None, set_conns (<[id := with_half true st]> (tcp_conns s)) s)
      | None => (None, s)
      end
  | UdpData id dst data =>
      match udp_conns s !! id with
      | Some u =>
          (None, set_udps (<[id := mk_udp (udp_send_slice data dst (usock u)) (uto_app u)]> (udp_conns s)) s)
      | None => (None, s)
      end
  | UdpClose id => (None, set_udps (delete id (udp_conns s)) s)
  end.

(** The deferred data, until one must wait again. *)
Fixpoint retry_deferred (l : list DataIn) s : list DataIn * NetStack :=
  match l with
  | [] => ([], s)
  | d :: l =>
      match try_handle_data d s with
      | (Some back, s) => (back :: l, s)
      | (None, s) => retry_deferred l s
      end
  end.

(** The data waiting in the channel, until one must wait: what is deferred,
    what stays in the channel. *)
Fixpoint take_data (q : list DataIn) s : list DataIn * list DataIn * NetStack :=
  match q with
  | [] => ([], [], s)
  | d :: q =>
      match try_handle_data d s with
      | (Some back, s) => ([back], q, s)
      | (None, s) => take_data q s
      end
  end.

(** ** Serving a TCP connection

    The body of the loop of [service_tcp] for one connection: whether its
    application was too slow, the connection unless it is removed, what was
    seen, and the messages the drop of a connection nobody waits for puts
    into the data channel. *)

Definition is_st (x y : TcpSt) : bool := bool_decide (x = y).

(** The open call is answered once the socket is connected.  An answer to a
    caller that gave up is dropped, and with it the connection's handle. *)
Definition answer_open (id : Z) st : TcpState * list seen * list DataIn :=
  if connect_resp st && from_stack_rx st then
    if resp_closed st then (with_chan (stop_listening (to_app st)) (with_established st), [], [TcpClose id])
    else (with_established st, [AnsweredTcp (tag st) (Opened id)], [])
  else (with_established st, [], []).

Definition refuse (reason : bytes) st : list seen :=
  if connect_resp st && negb (resp_closed st) then [AnsweredTcp (tag st) (Refused reason)] else [].

(** Pending data into the socket. *)
Definition feed_socket (id : Z) st : comp AetherError (TcpState * list seen) :=
  if tcp_can_send (sock st) && negb (is_empty (pending st)) then
    let '(sent, sk) := tcp_send_slice (pending st) (sock st) in
    if sent >? 0 then
      if sent >? blen (pending st) then Panic
      else mret (with_pending (dropz sent (pending st)) (with_sock sk st), [Handed id (takez sent (pending st))])
    else mret (with_sock sk st, [])
  else mret (st, []).

Definition close_if_done st : TcpState :=
  if half_closed st && is_empty (pending st) then with_sock (tcp_close (sock st)) st else st.

(** [while delivered < MAX_RECV_CHUNKS]: whether the application is slow, and
    whether it is gone. *)
Fixpoint deliver (n : nat) (id : Z) st : bool * bool * TcpState * list seen :=
  match n with
  | O => (false, false, st, [])
  | S n =>
      match try_reserve (to_app st) with
      | ChanFull => (true, false, st, [])
      | ChanClosed => (false, true, st, [])
      | Permit =>
          if negb (tcp_can_recv (sock st)) then (false, false, st, [])
          else
            let '(r, sk) := tcp_recv (sock st) in
            let st := with_sock sk st in
            match r with
            | Some ((_ :: _) as chunk) =>
                let '(slow, gone, st, l) := deliver n id (with_chan (enqueue chunk (to_app st)) st) in
                (slow, gone, st, ToApp id chunk :: l)
            | _ => (false, false, st, [])
            end
      end
  end.

(** The application is gone: the connection is closed, and reset when more
    arrives or it lingers; [true] ends the turn. *)
Definition orphan (now : Z) (linger : Z) st : bool * TcpState :=
  let since := default now (orphaned_at st) in
  if tcp_can_recv (sock st) || (now - since >=? linger) then
    let st := if is_st (tcp_state (sock st)) Closed then st else with_sock (tcp_abort (sock st)) st in
    (true, with_orphan (Some since) true st)
  else (false, with_sock (tcp_close (sock st)) (with_orphan (Some since) (aborted st) st)).

(** The end of a turn: a far end that closed is closed too, and a closed
    socket is removed. *)
Definition settle st : option TcpState :=
  let state := tcp_state (sock st) in
  let st := if is_st state CloseWait then with_sock (tcp_close (sock st)) st else st in
  let st := if is_st state TimeWait then with_pending [] st else st in
  if (is_st state Closed || is_st state TimeWait) && established st then None else Some st.

Definition serve_established (now : Z) (lim : TcpLimits) (id : Z) st
    : comp AetherError (bool * option TcpState * list seen) :=
  '(st, l1) ← feed_socket id st;
  let st := close_if_done st in
  let '(slow, gone, st, l2) := deliver MAX_RECV_CHUNKS id st in
  let '(ended, st) := if gone then orphan now (orphan_linger lim) st else (false, st) in
  mret (slow, if ended then Some st else settle st, l1 ++ l2).

Definition service_one (now : Z) (lim : TcpLimits) (id : Z) st
    : comp AetherError (bool * option TcpState * list seen * list DataIn) :=
  if aborted st then mret (false, None, [], []) else
  let state := tcp_state (sock st) in
  let '(st, l, ds) :=
    if negb (established st) && (is_st state Established || is_st state CloseWait) then answer_open id st
    else (st, [], []) in
  if negb (established st) && (is_st state Closed || is_st state TimeWait) then
    mret (false, None, refuse (lit "connection refused") st, [])
  else if negb (established st) then
    if negb (connect_resp st) || resp_closed st || (now >=? connect_deadline st) then
      mret (false, None, refuse (lit "connection timed out") st, [])
    else mret (false, Some st, [], [])
  else
    '(slow, r, l') ← serve_established now lim id st;
    mret (slow, r, l ++ l', ds).

(** [service_tcp]: every connection in turn, in some order. *)
Definition service_step (now : Z) (acc : comp AetherError (bool * NetStack)) (id : Z) : comp AetherError (bool * NetStack) :=
  '(busy, s) ← acc;
  match tcp_conns s !! id with
  | None => mret (busy, s)
  | Some st =>
      '(slow, r, l, ds) ← service_one now (limits s) id st;
      let conns := match r with Some st => <[id := st]> (tcp_conns s) | None => delete id (tcp_conns s) end in
      mret (busy || slow,
            see l (set_data (foldl (λ c d, try_send d c) (data_in s) ds) (deferred s) (set_conns conns s)))
  end.

Definition service_tcp (now : Z) s : comp AetherError (bool * NetStack) :=
  foldl (service_step now) (mret (false, s)) (map_to_list (tcp_conns s)).*1.

(** ** Serving a UDP socket *)

Fixpoint deliver_udp (n : nat) (id : Z) (u : UdpState) : bool * bool * UdpState * list seen :=
  match n with
  | O => (false, false, u, [])
  | S n =>
      match try_reserve (uto_app u) with
      | ChanFull => (true, false, u, [])
      | ChanClosed => (false, true, u, [])
      | Permit =>
          if negb (udp_can_recv (usock u)) then (false, false, u, [])
          else
            let '(r, sk) := udp_recv (usock u) in
            match r with
            | Some (from, data) =>
                let '(slow, gone, u, l) := deliver_udp n id (mk_udp sk (enqueue (from, data) (uto_app u))) in
                (slow, gone, u, ToAppUdp id from data :: l)
            | None => (false, false, mk_udp sk (uto_app u), [])
            end
      end
  end.

Definition service_udp_step (acc : bool * NetStack) (id : Z) : bool * NetStack :=
  let '(busy, s) := acc in
  match udp_conns s !! id with
  | None => (busy, s)
  | Some u =>
      let '(slow, gone, u, l) := deliver_udp MAX_RECV_CHUNKS id u in
      let m := if (gone : bool) then delete id (udp_conns s) else <[id := u]> (udp_conns s) in
      (busy || slow, see l (set_udps m s))
  end.

Definition service_udp s : bool * NetStack := foldl service_udp_step (false, s) (map_to_list (udp_conns s)).*1.

(** ** Packets to the tunnel *)

(** [flush_tx]: what stays queued, the channel, and how many were dropped. *)
Fixpoint flush_go (pkts : list bytes) (c : chan bytes) (dropped : Z) : list bytes * chan bytes * Z :=
  match pkts with
  | [] => ([], c, dropped)
  | p :: pkts =>
      match try_reserve c with
      | Permit => flush_go pkts (enqueue p c) dropped
      | ChanFull => flush_go pkts c (dropped + 1)
      | ChanClosed => (pkts, c, dropped)
      end
  end.

Definition flush_tx s : Z * NetStack :=
  let '(t, c, dropped) := flush_go (tx s) (outbound s) 0 in
  (dropped, set_outbound c (set_device (rx s) t s)).

(** ** The loop of [run] *)

(** [s.iface.poll], its panics caught. *)
Definition poll_iface (now : Z) s : NetStack :=
  let '(panicked, r, t, ft, fu) := poll now (iface s) (rx s) (sock <$> tcp_conns s) (usock <$> udp_conns s) in
  let s := set_conns (map_imap (λ id st, Some (with_sock (ft id (sock st)) st)) (tcp_conns s)) s in
  let s := set_udps (map_imap (λ id u, Some (mk_udp (fu id (usock u)) (uto_app u))) (udp_conns s)) s in
  if (panicked : bool) then set_device [] [] s else set_device r (tx s ++ t) s.

(** Everything before the [select!] of a round; whether it must not sleep
    long. *)
Definition round_start (now : Z) s : comp AetherError (bool * NetStack) :=
  let s := poll_iface now s in
  '(tcp_busy, s) ← service_tcp now s;
  let '(udp_busy, s) := service_udp s in
  let '(_, s) := flush_tx s in
  let '(d, s) := retry_deferred (deferred s) s in
  mret (tcp_busy || udp_busy || negb (is_empty d), set_data (data_in s) d s).

(** How long the [select!] may sleep, given what [poll_delay] asks for; [None]
    is for ever. *)
Definition sleep_for (busy : bool) (polled : option Z) s : option Z :=
  if busy then Some BACKPRESSURE_RETRY
  else if bool_decide (tcp_conns s = ∅) && bool_decide (udp_conns s = ∅) then polled
  else Some (from_option (λ d, Z.min d MAX_IDLE_TICK) MAX_IDLE_TICK polled).

(** What the [select!] woke up for. *)
Inductive wake :=
| Inbound (pkt : bytes) (waiting : list bytes)   (** the packet received and those waiting behind it *)
| Command (cmd : Cmd)
| DataReady
| Slept.

Definition round_end (now : Z) (k : wake) s : comp AetherError NetStack :=
  match k with
  | Inbound pkt waiting => mret (set_device (rx s ++ pkt :: take MAX_INGEST_PER_TICK waiting) (tx s) s)
  | Command cmd => handle_cmd now cmd s
  | DataReady =>
      match deferred s with
      | [] =>
          let '(d, q, s') := take_data (queue (data_in s)) s in
          mret (set_data (mk_chan q (capacity (data_in s)) (listening (data_in s))) d s')
      | _ => mret s
      end
  | Slept => mret s
  end.

(** What the applications do: a call of [send], [close] or a drop that got
    into the data channel, a chunk read, a receiver or an open call dropped. *)
Inductive app_event :=
| AppSends (d : DataIn)
| AppReads (id : Z)
| AppLeaves (id : Z)
| AppGivesUp (tag : Z).

Definition app_step (a : app_event) s : NetStack :=
  match a with
  | AppSends d => set_data (try_send d (data_in s)) (deferred s) s
  | AppReads id =>
      set_conns (alter (λ st, with_chan (mk_chan (tail (queue (to_app st))) (capacity (to_app st)) (listening (to_app st))) st)
        id (tcp_conns s)) s
  | AppLeaves id => set_conns (alter (λ st, with_chan (stop_listening (to_app st)) st) id (tcp_conns s)) s
  | AppGivesUp t =>
      set_conns ((λ st, if (tag st =? t) && connect_resp st
                        then mk_tcp (tag st) (sock st) (to_app st) (from_stack_rx st) true true (connect_deadline st)
                               (pending st) (established st) (half_closed st) (orphaned_at st) (aborted st)
                        else st) <$> tcp_conns s) s
  end.

Inductive step := Round (now after : Z) (k : wake) | App (a : app_event).

Definition stack_step (e : step) s : comp AetherError NetStack :=
  match e with
  | Round now after k => '(_, s) ← round_start now s; round_end after k s
  | App a => mret (app_step a s)
  end.

Fixpoint stack_run (es : list step) s : comp AetherError NetStack :=
  match es with
  | [] => mret s
  | e :: es => s ← stack_step e s; stack_run es s
  end.

(** [spawn]. *)
Definition spawn (ipv4 ipv6 : bytes) (lim : TcpLimits) (out_capacity : Z) : comp AetherError NetStack :=
  v4 ← parse_v4 ipv4;
  v6 ← parse_v6 ipv6;
  i ← apply_addrs v4 v6 (mk_iface [] None None);
  mret (mk_stack i [] [] ∅ ∅ 1 49152 lim (mk_chan [] app_queue true) [] (mk_chan [] out_capacity true) []).
End stack.

(** ** Uploads

    What an application wrote to a connection is, in order: the bytes its
    socket took, its pending bytes, its data that is deferred, its data in the
    channel. *)
Section upload.
Context `{Smoltcp} {w : arch}.
Context (rx_buf app_queue : Z).
Implicit Types (s : NetStack) (st : TcpState).

Definition data_of (id : Z) (d : DataIn) : bytes :=
  match d with TcpData i data => if i =? id then data else [] | _ => [] end.
Definition data_for (id : Z) (l : list DataIn) : bytes := flat_map (data_of id) l.
Definition handed_of (id : Z) (e : seen) : bytes :=
  match e with Handed i data => if i =? id then data else [] | _ => [] end.
Definition handed (id : Z) (l : list seen) : bytes := flat_map (handed_of id) l.

Definition pending_of (id : Z) s : bytes := from_option pending [] (tcp_conns s !! id).

(** Everything written to [id] so far. *)
Definition stream (id : Z) s : bytes :=
  handed id (log s) ++ pending_of id s ++ data_for id (deferred s) ++ data_for id (queue (data_in s)).

Lemma data_for_app id a b : data_for id (a ++ b) = data_for id a ++ data_for id b.
Proof. unfold data_for. by rewrite flat_map_app. Qed.
Lemma handed_app id a b : handed id (a ++ b) = handed id a ++ handed id b.
Proof. unfold handed. by rewrite flat_map_app. Qed.

(** [try_handle_data] moves data of a connection to its pending bytes. *)
Lemma try_handle_stream d s o s' id :
  try_handle_data rx_buf d s = (o, s') → is_Some (tcp_conns s !! id) →
  pending_of id s ++ data_of id d = pending_of id s' ++ from_option (data_of id) [] o.
Proof.
  intros E [st Hst]. unfold pending_of. destruct d as [i data|i|i dst data|i]; cbn [try_handle_data data_of] in E |- *.
  - destruct (tcp_conns s !! i) as [sti|] eqn:Ei.
    + destruct (blen (pending sti) >=? max_tcp_pending rx_buf); [injection E as <- <-; done|].
      destruct (blen data <=? _); injection E as <- <-; cbn;
        destruct (Z.eqb_spec i id) as [->|]; rewrite ?lookup_insert_eq, ?lookup_insert_ne by done;
        rewrite ?app_nil_r; try done; rewrite Ei; cbn; rewrite ?app_nil_r; try done.
      by rewrite <- app_assoc, takez_dropz.
    + injection E as <- <-. destruct (Z.eqb_spec i id) as [->|]; [congruence|done].
  - destruct (tcp_conns s !! i) as [sti|] eqn:Ei; injection E as <- <-; cbn; [|done].
    destruct (decide (i = id)) as [->|]; rewrite ?lookup_insert_eq, ?lookup_insert_ne by done; [|done].
    by rewrite Ei.
  - by destruct (udp_conns s !! i); injection E as <- <-.
  - by injection E as <- <-.
Qed.

(** What the handling of data leaves alone. *)
Definition same_frame s s' : Prop :=
  log s' = log s ∧ deferred s' = deferred s ∧ data_in s' = data_in s ∧ next_id s' = next_id s ∧
  (∀ id, is_Some (tcp_conns s' !! id) ↔ is_Some (tcp_conns s !! id)).

Lemma try_handle_frame d s o s' : try_handle_data rx_buf d s = (o, s') → same_frame s s'.
Proof.
  intros E. assert (∀ i st (m : gmap Z TcpState), m !! i = Some st → ∀ (f : TcpState → TcpState) id, is_Some (<[i := f st]> m !! id) ↔ is_Some (m !! id)) as Hi.
  { intros i st m Hm f id. rewrite lookup_insert_is_Some. destruct (decide (i = id)) as [->|]; [|naive_solver].
    rewrite Hm. naive_solver. }
  unfold same_frame.
  destruct d as [i data|i|i dst data|i]; cbn [try_handle_data] in E.
  - destruct (tcp_conns s !! i) as [st|] eqn:Ei; [|by injection E as <- <-].
    destruct (_ >=? _); [by injection E as <- <-|]. destruct (_ <=? _); injection E as <- <-; cbn;
      split_and!; try done; intros id; eapply (Hi _ _ _ Ei (with_pending _)).
  - destruct (tcp_conns s !! i) as [st|] eqn:Ei; injection E as <- <-; [|done]. cbn.
    split_and!; try done. intros id. eapply (Hi _ _ _ Ei (with_half _)).
  - destruct (udp_conns s !! i); by injection E as <- <-.
  - by injection E as <- <-.
Qed.

Lemma same_frame_trans s1 s2 s3 : same_frame s1 s2 → same_frame s2 s3 → same_frame s1 s3.
Proof. intros (E1 & E2 & E3 & E4 & H1) (F1 & F2 & F3 & F4 & H2). split_and!; try congruence. intros id. by rewrite H2. Qed.

Lemma retry_deferred_frame l s d s' : retry_deferred rx_buf l s = (d, s') → same_frame s s'.
Proof.
  revert s. induction l as [|x l IH]; intros s; cbn [retry_deferred]; [by intros [= <- <-]|].
  destruct (try_handle_data rx_buf x s) as [o s1] eqn:E. apply try_handle_frame in E.
  destruct o; [by intros [= _ <-]|]. intros E2. eapply same_frame_trans; [exact E|]. by apply IH.
Qed.

Lemma take_data_frame q s d q' s' : take_data rx_buf q s = (d, q', s') → same_frame s s'.
Proof.
  revert s. induction q as [|x q IH]; intros s; cbn [take_data]; [by intros [= _ _ <-]|].
  destruct (try_handle_data rx_buf x s) as [o s1] eqn:E. apply try_handle_frame in E.
  destruct o; [by intros [= _ _ <-]|]. intros E2. eapply same_frame_trans; [exact E|]. by apply IH.
Qed.

Lemma retry_deferred_stream l s d s' id :
  retry_deferred rx_buf l s = (d, s') → is_Some (tcp_conns s !! id) →
  pending_of id s ++ data_for id l = pending_of id s' ++ data_for id d.
Proof.
  revert s. induction l as [|x l IH]; intros s; cbn [retry_deferred].
  - by intros [= <- <-] _.
  - destruct (try_handle_data rx_buf x s) as [o s1] eqn:E. intros E' Hid.
    pose proof (try_handle_frame _ _ _ _ E) as Hf. pose proof (try_handle_stream _ _ _ _ id E Hid) as Hs.
    destruct o as [back|]; cbn [from_option] in Hs.
    + injection E' as <- <-. cbn. by rewrite !app_assoc, Hs.
    + apply IH in E' as Hs2; [|by apply Hf]. cbn. rewrite app_assoc, Hs, app_nil_r. done.
Qed.

Lemma take_data_stream q s d q' s' id :
  take_data rx_buf q s = (d, q', s') → is_Some (tcp_conns s !! id) →
  pending_of id s ++ data_for id q = pending_of id s' ++ data_for id d ++ data_for id q'.
Proof.
  revert s. induction q as [|x q IH]; intros s; cbn [take_data].
  - by intros [= <- <- <-] _.
  - destruct (try_handle_data rx_buf x s) as [o s1] eqn:E. intros E' Hid.
    pose proof (try_handle_frame _ _ _ _ E) as Hf. pose proof (try_handle_stream _ _ _ _ id E Hid) as Hs.
    destruct o as [back|]; cbn [from_option] in Hs.
    + injection E' as <- <- <-. cbn. by rewrite !app_assoc, Hs, app_nil_r.
    + apply IH in E' as Hs2; [|by apply Hf]. cbn. rewrite app_assoc, Hs, app_nil_r. done.
Qed.

Lemma deliver_upload n id st slow gone st' l :
  deliver n id st = (slow, gone, st', l) →
  pending st' = pending st ∧ tag st' = tag st ∧ (∀ i, handed i l = []) ∧
  established st' = established st ∧ connect_resp st' = connect_resp st ∧
  (∀ t a, AnsweredTcp t a ∉ l).
Proof.
  revert st slow gone st' l. induction n as [|n IH]; intros st slow gone st' l; cbn [deliver];
    [intros [= _ _ <- <-]; split_and!; try done; intros; set_solver|].
  destruct (try_reserve (to_app st)); [|intros [= _ _ <- <-]; split_and!; try done; intros; set_solver..].
  destruct (tcp_can_recv (sock st)); cbn [negb]; [|intros [= _ _ <- <-]; split_and!; try done; intros; set_solver].
  destruct (tcp_recv (sock st)) as [[[|b chunk]|] sk];
    [intros [= _ _ <- <-]; split_and!; try done; intros; set_solver| |
     intros [= _ _ <- <-]; split_and!; try done; intros; set_solver].
  destruct (deliver n id _) as [[[slow1 gone1] st1] l1] eqn:E. intros [= <- <- <- <-].
  apply IH in E as (Ep & Et & Eh & Ee & Er & Ea). cbn in *. split_and!; try done.
  intros t a Hin. apply elem_of_cons in Hin as [|Hin]; [done|]. by eapply Ea.
Qed.

Lemma feed_upload id st st' l :
  feed_socket id st = Ok (st', l) →
  pending st = handed id l ++ pending st' ∧ (∀ i, i ≠ id → handed i l = []) ∧ tag st' = tag st ∧
  established st' = established st ∧ connect_resp st' = connect_resp st ∧ (∀ t a, AnsweredTcp t a ∉ l).
Proof.
  unfold feed_socket. destruct (_ && _); [|intros [= <- <-]; split_and!; try done; intros; set_solver].
  destruct (tcp_send_slice _ _) as [sent sk]. destruct (sent >? 0); [|intros [= <- <-]; split_and!; try done; intros; set_solver].
  destruct (sent >? _); [done|]. intros [= <- <-]. cbn. rewrite Z.eqb_refl, app_nil_r, takez_dropz.
  split_and!; try done; [|intros; set_solver]. intros i Hi. destruct (Z.eqb_spec id i); [congruence|done].
Qed.

Lemma orphan_upload now linger st b st' :
  orphan now linger st = (b, st') → pending st' = pending st ∧ established st' = established st.
Proof.
  unfold orphan. destruct (_ || _); intros [= _ <-]; [|done]. by destruct (is_st _ _).
Qed.

Lemma serve_upload now lim id st slow r l :
  serve_established now lim id st = Ok (slow, r, l) → established st = true →
  (∀ i, i ≠ id → handed i l = []) ∧ (∀ st', r = Some st' → pending st = handed id l ++ pending st').
Proof.
  unfold serve_established. destruct (feed_socket id st) as [[st1 l1]| |] eqn:E1; [|done..]. cbn [mbind comp_bind].
  apply feed_upload in E1 as (P1 & O1 & _ & S1 & _).
  assert (pending (close_if_done st1) = pending st1 ∧ established (close_if_done st1) = established st1) as [P2 S2]
    by (unfold close_if_done; by destruct (_ && _)).
  destruct (deliver _ id (close_if_done st1)) as [[[slow2 gone] st2] l2] eqn:E2.
  apply deliver_upload in E2 as (P3 & _ & O3 & S3 & _).
  destruct (if gone then orphan now (orphan_linger lim) st2 else (false, st2)) as [ended st3] eqn:E3.
  assert (pending st3 = pending st2 ∧ established st3 = established st2) as [P4 S4].
  { destruct gone; [by eapply orphan_upload|by injection E3 as _ <-]. }
  intros [= <- <- <-] He. split.
  - intros i Hi. by rewrite handed_app, O1, O3.
  - intros st' Hr. rewrite handed_app, O3, app_nil_r, P1. f_equal. rewrite <- P2, <- P3, <- P4.
    destruct ended; [by injection Hr as <-|]. unfold settle in Hr.
    destruct (is_st (tcp_state (sock st3)) TimeWait) eqn:Et.
    + rewrite orb_true_r in Hr. assert (established st3 = true) as He3 by congruence.
      by destruct (is_st _ CloseWait); cbn in Hr; rewrite He3 in Hr.
    + by destruct (is_st _ CloseWait), (_ && _); inversion Hr; subst.
Qed.

Lemma answer_open_upload id st st' l ds :
  answer_open id st = (st', l, ds) →
  pending st' = pending st ∧ established st' = true ∧ (∀ i, handed i l = []) ∧ (∀ i, data_for i ds = []).
Proof.
  unfold answer_open. destruct (_ && _); [destruct (resp_closed st)|]; by intros [= <- <- <-].
Qed.

Lemma refuse_handed reason st i : handed i (refuse reason st) = [].
Proof. unfold refuse. by destruct (_ && _). Qed.

Lemma service_one_upload now lim id st slow r l ds :
  service_one now lim id st = Ok (slow, r, l, ds) →
  (∀ i, i ≠ id → handed i l = []) ∧ (∀ i, data_for i ds = []) ∧
  (∀ st', r = Some st' → pending st = handed id l ++ pending st').
Proof.
  unfold service_one. destruct (aborted st); [by intros [= <- <- <- <-]|]. cbv zeta.
  destruct (if negb (established st) && _ then answer_open id st else (st, [], [])) as [[st1 l1] ds1] eqn:E1.
  assert (pending st1 = pending st ∧ (∀ i, handed i l1 = []) ∧ (∀ i, data_for i ds1 = [])) as (P1 & H1 & D1).
  { destruct (negb (established st) && _); [|by injection E1 as <- <- <-].
    apply answer_open_upload in E1 as (? & _ & ? & ?). done. }
  destruct (established st1) eqn:Ee; cbn [negb andb].
  - destruct (serve_established now lim id st1) as [[[slow2 r2] l2]| |] eqn:E2; [|done..].
    cbn [mbind comp_bind]. intros [= <- <- <- <-]. apply serve_upload in E2 as [O2 P2]; [|done]. split_and!; [|done|].
    + intros i Hi. by rewrite handed_app, H1, O2.
    + intros st' Hr. rewrite handed_app, H1, <- P1. by apply P2.
  - destruct (is_st _ Closed || _); [intros [= <- <- <- <-]; split_and!; intros; by rewrite ?refuse_handed|].
    destruct (_ || _ || _); intros [= <- <- <- <-]; split_and!; try done.
    + intros. apply refuse_handed.
    + by intros st' [= <-].
Qed.

(** Nothing is lost between [s] and [s'] of what was written to a connection
    that is still there, and a connection that is there was there. *)
Definition kept (id : Z) s s' : Prop :=
  next_id s ≤ next_id s' ∧
  (id < next_id s → is_Some (tcp_conns s' !! id) → is_Some (tcp_conns s !! id) ∧ stream id s' = stream id s).

Lemma kept_refl id s : kept id s s.
Proof. by split. Qed.
Lemma kept_trans id s1 s2 s3 : kept id s1 s2 → kept id s2 s3 → kept id s1 s3.
Proof.
  intros [N1 K1] [N2 K2]. split; [lia|]. intros Hid Hs. destruct K2 as [H2 E2]; [lia|done|].
  destruct K1 as [H1' E1]; [done..|]. split; [done|congruence].
Qed.

Lemma foldl_try_send_data id ds c : (∀ i, data_for i ds = []) →
  data_for id (queue (foldl (λ c d, try_send d c) c ds)) = data_for id (queue c).
Proof.
  intros Hd. revert c. induction ds as [|d ds IH]; intros c; [done|]. cbn [foldl].
  assert (∀ i, data_of i d = [] ∧ data_for i ds = []) as Hd2.
  { intros i. specialize (Hd i). cbn in Hd. by apply app_nil in Hd. }
  rewrite IH by (intros i; apply Hd2). unfold try_send. destruct (try_reserve c); [|done..].
  cbn [queue enqueue]. rewrite data_for_app. cbn. by rewrite (proj1 (Hd2 id)), !app_nil_r.
Qed.

Lemma service_step_kept now id i acc busy s s' :
  service_step now (Ok (acc, s)) i = Ok (busy, s') → kept id s s'.
Proof.
  unfold service_step. cbn [mbind comp_bind]. destruct (tcp_conns s !! i) as [st|] eqn:Ei; [|intros [= _ <-]; apply kept_refl].
  destruct (service_one now (limits s) i st) as [[[[slow r] l] ds]| |] eqn:E; [|done..]. intros [= _ <-].
  apply service_one_upload in E as (Ho & Hd & Hp). split; [done|]. intros _ Hs. cbn in Hs.
  unfold stream, pending_of. cbn [log deferred data_in see set_data set_conns tcp_conns].
  rewrite handed_app, foldl_try_send_data by done.
  destruct (decide (i = id)) as [->|Hne].
  - destruct r as [st'|]; [|rewrite lookup_delete_eq in Hs; by destruct Hs].
    rewrite lookup_insert_eq, Ei. split; [by eexists|]. cbn. rewrite (Hp st' eq_refl), <- !app_assoc. done.
  - rewrite Ho by done. rewrite app_nil_r.
    destruct r; [rewrite lookup_insert_ne in Hs |- * by done|rewrite lookup_delete_ne in Hs |- * by done]; done.
Qed.

Lemma service_tcp_kept now id s busy s' : service_tcp now s = Ok (busy, s') → kept id s s'.
Proof.
  unfold service_tcp. generalize (map_to_list (tcp_conns s)).*1 as ids. generalize false as b.
  intros b ids. unfold mret, comp_ret. revert b s. induction ids as [|i ids IH]; intros b s; cbn [foldl].
  - intros [= _ <-]. apply kept_refl.
  - destruct (service_step now (Ok (b, s)) i) as [[b1 s1]|e|] eqn:E.
    + intros E2. eapply kept_trans; [by eapply service_step_kept|]. by eapply IH.
    + intros E2. exfalso. clear -E2. induction ids; cbn in E2; [done|]. by apply IHids.
    + intros E2. exfalso. clear -E2. induction ids; cbn in E2; [done|]. by apply IHids.
Qed.

(** Changes that concern neither TCP connections nor their data. *)
Lemma kept_by id s s' :
  tcp_conns s' = tcp_conns s → handed id (log s') = handed id (log s) → deferred s' = deferred s →
  data_in s' = data_in s → next_id s ≤ next_id s' → kept id s s'.
Proof.
  intros E1 E2 E3 E4 Hn. split; [done|]. intros _. unfold stream, pending_of. by rewrite E1, E2, E3, E4.
Qed.

Lemma deliver_udp_handed n id u slow gone u' l i :
  deliver_udp n id u = (slow, gone, u', l) → handed i l = [].
Proof.
  revert u slow gone u' l. induction n as [|n IH]; intros u slow gone u' l; cbn [deliver_udp]; [by intros [= _ _ _ <-]|].
  destruct (try_reserve (uto_app u)); [|by intros [= _ _ _ <-]..].
  destruct (udp_can_recv (usock u)); cbn [negb]; [|by intros [= _ _ _ <-]].
  destruct (udp_recv (usock u)) as [[[from data]|] sk]; [|by intros [= _ _ _ <-]].
  destruct (deliver_udp n id _) as [[[slow1 gone1] u1] l1] eqn:E. intros [= _ _ _ <-]. cbn. by eapply IH.
Qed.

Lemma service_udp_kept id s busy s' : service_udp s = (busy, s') → kept id s s'.
Proof.
  unfold service_udp. generalize (map_to_list (udp_conns s)).*1 as ids. generalize false as b. intros b ids.
  revert b s. induction ids as [|i ids IH]; intros b s; cbn [foldl]; [intros [= _ <-]; apply kept_refl|].
  destruct (service_udp_step (b, s) i) as [b1 s1] eqn:E. intros E2. eapply kept_trans; [|by eapply IH].
  unfold service_udp_step in E. destruct (udp_conns s !! i) as [u|]; [|injection E as _ <-; apply kept_refl].
  destruct (deliver_udp _ i u) as [[[slow gone] u1] l] eqn:Ed. injection E as _ <-.
  apply kept_by; cbn [tcp_conns see set_udps log deferred data_in next_id]; try done.
  by rewrite handed_app, (deliver_udp_handed _ _ _ _ _ _ _ _ Ed), app_nil_r.
Qed.

Lemma poll_iface_kept now id s : kept id s (poll_iface now s).
Proof.
  unfold poll_iface. destruct (poll _ _ _ _ _) as [[[[panicked r] t] ft] fu].
  assert (∀ r t, kept id s (set_device r t (set_udps
    (map_imap (λ id u, Some (mk_udp (fu id (usock u)) (uto_app u))) (udp_conns s))
    (set_conns (map_imap (λ id st, Some (with_sock (ft id (sock st)) st)) (tcp_conns s)) s)))) as Hk.
  { intros r0 t0. split; [done|]. intros _. unfold stream, pending_of. cbn. rewrite map_lookup_imap.
    destruct (tcp_conns s !! id) as [st|]; cbn; [|intros [? ?]; done]. intros _. by split. }
  destruct panicked; apply Hk.
Qed.

Lemma flush_tx_kept id s n s' : flush_tx s = (n, s') → kept id s s'.
Proof. unfold flush_tx. destruct (flush_go _ _ _) as [[t c] k]. intros [= _ <-]. by apply kept_by. Qed.

Lemma round_start_kept now id s busy s' : round_start rx_buf now s = Ok (busy, s') → kept id s s'.
Proof.
  unfold round_start. cbv zeta. pose proof (poll_iface_kept now id s) as K0.
  destruct (service_tcp now (poll_iface now s)) as [[b1 s1]| |] eqn:E1; [|done..]. cbn [mbind comp_bind].
  apply (service_tcp_kept now id) in E1 as K1.
  destruct (service_udp s1) as [b2 s2] eqn:E2. apply (service_udp_kept id) in E2 as K2.
  destruct (flush_tx s2) as [n s3] eqn:E3. apply (flush_tx_kept id) in E3 as K3.
  destruct (retry_deferred rx_buf (deferred s3) s3) as [d s4] eqn:E4. intros [= _ <-].
  eapply kept_trans; [exact K0|]. eapply kept_trans; [exact K1|]. eapply kept_trans; [exact K2|].
  eapply kept_trans; [exact K3|]. clear -E4.
  destruct (retry_deferred_frame _ _ _ _ E4) as (F1 & F2 & F3 & F4 & F5). split; [cbn; lia|]. intros _ Hs. cbn in Hs. apply F5 in Hs.
  split; [done|]. pose proof (retry_deferred_stream _ _ _ _ id E4 Hs) as Hst.
  unfold stream, pending_of in *. cbn [log deferred data_in set_data tcp_conns]. rewrite F1, F3.
  f_equal. rewrite !app_assoc. f_equal. by rewrite <- Hst.
Qed.

Lemma round_end_kept now k id s s' : round_end rx_buf app_queue now k s = Ok s' → kept id s s'.
Proof.
  destruct k as [pkt waiting|cmd| |]; cbn [round_end].
  - intros [= <-]. by apply kept_by.
  - destruct cmd as [t dst|t|v4 v6]; cbn [handle_cmd alloc_port].
    + destruct (tcp_new _ _ _ _) as [sk|e|]; [| |done]; intros [= <-].
      * split; [cbn; lia|]. intros Hid Hs. cbn in Hs. unfold stream, pending_of. cbn.
        rewrite lookup_insert_ne in Hs |- * by lia. done.
      * apply kept_by; cbn [tcp_conns see set_ids log deferred data_in next_id]; try done. by rewrite handed_app, app_nil_r.
    + destruct (udp_new _) as [sk|e|]; [| |done]; intros [= <-]; apply kept_by;
        cbn [tcp_conns see set_udps set_ids log deferred data_in next_id]; try done; try lia;
        by rewrite handed_app, app_nil_r.
    + destruct (current_addrs _) as [c4 c6]. destruct (apply_addrs _ _ _) as [i| |]; [|done..]. intros [= <-].
      by apply kept_by.
  - destruct (deferred s) eqn:Ed; [|intros [= <-]; apply kept_refl].
    destruct (take_data rx_buf (queue (data_in s)) s) as [[d q] s1] eqn:E. intros [= <-].
    pose proof (take_data_frame _ _ _ _ _ E) as (F1 & F2 & F3 & F4 & F5). split; [cbn; lia|]. intros _ Hs. cbn in Hs.
    apply F5 in Hs. split; [done|]. pose proof (take_data_stream _ _ _ _ _ id E Hs) as Hst.
    unfold stream, pending_of in *. cbn [log deferred data_in set_data tcp_conns queue]. rewrite F1, Ed. cbn [data_for flat_map app].
    f_equal. by rewrite <- Hst.
  - intros [= <-]. apply kept_refl.
Qed.

(** What a step writes to [id]: data that got into the channel. *)
Definition accepted (id : Z) (e : step) s : bytes :=
  match e with
  | App (AppSends d) => match try_reserve (data_in s) with Permit => data_of id d | _ => [] end
  | _ => []
  end.

Fixpoint written (id : Z) (es : list step) s : bytes :=
  match es with
  | [] => []
  | e :: es =>
      accepted id e s ++ match stack_step rx_buf app_queue e s with Ok s' => written id es s' | _ => [] end
  end.

(** [alter] and [fmap] with a function that leaves the pending bytes. *)
Lemma app_step_stream id a s :
  (is_Some (tcp_conns (app_step a s) !! id) ↔ is_Some (tcp_conns s !! id)) ∧
  next_id (app_step a s) = next_id s ∧
  stream id (app_step a s) = stream id s ++ accepted id (App a) s.
Proof.
  assert (∀ (f : TcpState → TcpState) i, (∀ st, pending (f st) = pending st) →
    (is_Some (alter f i (tcp_conns s) !! id) ↔ is_Some (tcp_conns s !! id)) ∧
    from_option pending [] (alter f i (tcp_conns s) !! id) = from_option pending [] (tcp_conns s !! id)) as Halter.
  { intros f i Hf. destruct (decide (i = id)) as [->|]; [rewrite lookup_alter_eq|by rewrite lookup_alter_ne].
    rewrite fmap_is_Some. split; [done|]. destruct (tcp_conns s !! id); cbn; [apply Hf|done]. }
  destruct a as [d|i|i|t]; cbn [app_step accepted].
  - split; [done|]. split; [done|]. unfold stream, pending_of, try_send. cbn [set_data log tcp_conns deferred data_in].
    destruct (try_reserve (data_in s)); cbn [enqueue queue]; rewrite ?app_nil_r; [|done..].
    rewrite data_for_app, !app_assoc. f_equal. cbn. by rewrite app_nil_r.
  - match goal with |- context [alter ?f i _] => destruct (Halter f i) as [H1 H2]; [done|] end.
    split; [done|]. split; [done|]. unfold stream, pending_of. cbn [set_conns log tcp_conns deferred data_in].
    by rewrite H2, app_nil_r.
  - match goal with |- context [alter ?f i _] => destruct (Halter f i) as [H1 H2]; [done|] end.
    split; [done|]. split; [done|]. unfold stream, pending_of. cbn [set_conns log tcp_conns deferred data_in].
    by rewrite H2, app_nil_r.
  - unfold stream, pending_of. cbn [set_conns log tcp_conns deferred data_in next_id]. rewrite lookup_fmap, app_nil_r.
    split; [by rewrite fmap_is_Some|]. split; [done|]. destruct (tcp_conns s !! id) as [st|]; [|done]. cbn.
    by destruct (_ && _).
Qed.

Lemma stack_step_ids e s s' : stack_step rx_buf app_queue e s = Ok s' → next_id s ≤ next_id s'.
Proof.
  destruct e as [now after k|a]; cbn [stack_step].
  - destruct (round_start rx_buf now s) as [[b s1]| |] eqn:E1; [|done..]. cbn [mbind comp_bind]. intros E2.
    apply (round_start_kept now 0) in E1 as [H1 _]. apply (round_end_kept after k 0) in E2 as [H2 _]. lia.
  - intros [= <-]. by destruct (app_step_stream 0 a s) as (_ & -> & _).
Qed.

Lemma stack_step_stream id e s s' :
  stack_step rx_buf app_queue e s = Ok s' → id < next_id s → is_Some (tcp_conns s' !! id) →
  id < next_id s' ∧ is_Some (tcp_conns s !! id) ∧ stream id s' = stream id s ++ accepted id e s.
Proof.
  destruct e as [now after k|a]; cbn [stack_step accepted].
  - destruct (round_start rx_buf now s) as [[b s1]| |] eqn:E1; [|done..]. cbn [mbind comp_bind]. intros E2 Hid Hs.
    apply (round_start_kept now id) in E1. apply (round_end_kept after k id) in E2.
    destruct (kept_trans _ _ _ _ E1 E2) as [Hn Hk]. destruct (Hk Hid Hs) as [? ->]. rewrite app_nil_r.
    split; [lia|done].
  - intros [= <-] Hid Hs. destruct (app_step_stream id a s) as (H1 & H2 & H3). rewrite H2.
    split; [done|]. split; [by apply H1|exact H3].
Qed.
End upload.

(** C7. Uploads arrive in order: over any run of the stack and its
    applications, as long as a connection is there the bytes its socket took,
    followed by those still waiting for it (pending, deferred, in the channel),
    are exactly what was waiting at the start followed by what its application
    wrote since, none lost, repeated or swapped. *)
Theorem upload_in_order `{Smoltcp} {w : arch} (rx_buf app_queue id : Z) (es : list step) (s s' : NetStack)
  (Hid : id < next_id s)
  (Hrun : stack_run rx_buf app_queue es s = Ok s')
  (Hthere : is_Some (tcp_conns s' !! id)) :
  is_Some (tcp_conns s !! id) ∧ stream id s' = stream id s ++ written rx_buf app_queue id es s.
Proof.
  revert s Hid Hrun. induction es as [|e es IH]; intros s Hid Hrun; cbn [stack_run written] in *.
  - injection Hrun as <-. by rewrite app_nil_r.
  - destruct (stack_step rx_buf app_queue e s) as [s1| |] eqn:E; [|done..]. cbn [mbind comp_bind] in Hrun.
    assert (id < next_id s1) as Hid1 by (pose proof (stack_step_ids _ _ _ _ _ E); lia).
    destruct (IH s1 Hid1 Hrun) as [H1 E1]. destruct (stack_step_stream _ _ _ _ _ _ E Hid H1) as (_ & Hs & E2).
    split; [done|]. by rewrite E1, E2, app_assoc.
Qed.

(** ** Bounds and totality *)

(** The calls of smoltcp that make a socket return. *)
Class SmoltcpTotal `{Smoltcp} : Prop := {
  tcp_new_returns i k dst port : no_panic (tcp_new i k dst port);
  udp_new_returns port : no_panic (udp_new port);
}.

Section bounds.
Context `{Smoltcp} `{!SmoltcpOk} `{!SmoltcpTotal} {w : arch}.
Context (rx_buf app_queue : Z).
Implicit Types (s : NetStack) (st : TcpState).

Definition room_ok st : Prop := blen (pending st) ≤ max_tcp_pending rx_buf.
Definition bounded s : Prop := map_Forall (λ _ st, room_ok st) (tcp_conns s).

Lemma bounded_insert i st s m :
  map_Forall (λ _ st, room_ok st) m → room_ok st → tcp_conns s = <[i := st]> m → bounded s.
Proof. intros Hm Hst E. unfold bounded. rewrite E. by apply map_Forall_insert_2. Qed.

Lemma try_handle_bounded d s o s' : try_handle_data rx_buf d s = (o, s') → bounded s → bounded s'.
Proof.
  intros E Hb. destruct d as [i data|i|i dst data|i]; cbn [try_handle_data] in E.
  - destruct (tcp_conns s !! i) as [st|] eqn:Ei; [|by injection E as <- <-].
    destruct (_ >=? _) eqn:Em; [by injection E as <- <-|]. destruct (_ <=? _) eqn:El; injection E as <- <-;
      (eapply bounded_insert; [exact Hb| |reflexivity]); unfold room_ok; cbn; blia.
  - destruct (tcp_conns s !! i) as [st|] eqn:Ei; injection E as <- <-; [|done].
    eapply bounded_insert; [exact Hb| |reflexivity]. exact (Hb i st Ei).
  - destruct (udp_conns s !! i); by injection E as <- <-.
  - by injection E as <- <-.
Qed.

Lemma retry_deferred_bounded l s d s' : retry_deferred rx_buf l s = (d, s') → bounded s → bounded s'.
Proof.
  revert s. induction l as [|x l IH]; intros s; cbn [retry_deferred]; [by intros [= _ <-]|].
  destruct (try_handle_data rx_buf x s) as [o s1] eqn:E. intros E2 Hb. apply try_handle_bounded in E; [|done].
  destruct o; [by injection E2 as _ <-|]. by eapply IH.
Qed.

Lemma take_data_bounded q s d q' s' : take_data rx_buf q s = (d, q', s') → bounded s → bounded s'.
Proof.
  revert s. induction q as [|x q IH]; intros s; cbn [take_data]; [by intros [= _ _ <-]|].
  destruct (try_handle_data rx_buf x s) as [o s1] eqn:E. intros E2 Hb. apply try_handle_bounded in E; [|done].
  destruct o; [by injection E2 as _ _ <-|]. by eapply IH.
Qed.

(** Serving a connection returns, and leaves no more pending. *)
Lemma service_one_total now lim id st :
  ∃ slow r l ds, service_one now lim id st = Ok (slow, r, l, ds) ∧
    ∀ st', r = Some st' → blen (pending st') ≤ blen (pending st).
Proof.
  assert (∃ x, service_one now lim id st = Ok x) as [[[[slow r] l] ds] E].
  { unfold service_one. destruct (aborted st); [by eexists|]. cbv zeta.
    destruct (if negb (established st) && _ then _ else _) as [[st1 l1] ds1].
    destruct (negb (established st1)) eqn:En; cbn [andb].
    - destruct (is_st _ Closed || _); [by eexists|]. destruct (_ || _ || _); by eexists.
    - unfold serve_established. assert (∃ y, feed_socket id st1 = Ok y) as [[st2 l2] ->].
      { unfold feed_socket. destruct (_ && _); [|by eexists].
        pose proof (send_slice_bound (pending st1) (sock st1)) as Hb.
        destruct (tcp_send_slice _ _) as [sent sk]. cbn in Hb. destruct (sent >? 0); [|by eexists].
        destruct (sent >? blen (pending st1)) eqn:Es; [lia|by eexists]. }
      cbn [mbind comp_bind]. destruct (deliver _ _ _) as [[[slow gone] st3] l3].
      destruct (if gone then _ else _) as [ended st4]. by eexists. }
  eexists _, _, _, _. split; [exact E|]. intros st' ->.
  apply service_one_upload in E as (_ & _ & Hp). rewrite (Hp st' eq_refl). blia.
Qed.

Lemma service_tcp_total now s : bounded s → ∃ busy s', service_tcp now s = Ok (busy, s') ∧ bounded s'.
Proof.
  unfold service_tcp. generalize (map_to_list (tcp_conns s)).*1 as ids. generalize false as b. intros b ids.
  unfold mret, comp_ret. revert b s. induction ids as [|i ids IH]; intros b s Hb; cbn [foldl]; [by eexists _, _|].
  unfold service_step at 2. cbn [mbind comp_bind]. destruct (tcp_conns s !! i) as [st|] eqn:Ei; [|by apply IH].
  destruct (service_one_total now (limits s) i st) as (slow & r & l & ds & -> & Hp). cbn [mbind comp_bind].
  apply IH. unfold bounded. cbn. destruct r as [st'|].
  - apply map_Forall_insert_2; [|done]. pose proof (Hb i st Ei) as Hst. specialize (Hp st' eq_refl). unfold room_ok in *. lia.
  - by apply map_Forall_delete.
Qed.

Lemma service_udp_conns s busy s' : service_udp s = (busy, s') → tcp_conns s' = tcp_conns s.
Proof.
  unfold service_udp. generalize (map_to_list (udp_conns s)).*1 as ids. generalize false as b. intros b ids.
  revert b s. induction ids as [|i ids IH]; intros b s; cbn [foldl]; [by intros [= _ <-]|].
  unfold service_udp_step at 2. destruct (udp_conns s !! i) as [u|]; [|by apply IH].
  destruct (deliver_udp _ i u) as [[[slow gone] u1] l]. intros E. by apply IH in E.
Qed.

Lemma poll_iface_bounded now s : bounded s → bounded (poll_iface now s).
Proof.
  intros Hb. unfold poll_iface. destruct (poll _ _ _ _ _) as [[[[panicked r] t] ft] fu].
  assert (map_Forall (λ _ st, room_ok st) (map_imap (λ id st, Some (with_sock (ft id (sock st)) st)) (tcp_conns s))) as Hm.
  { intros id st Hst. rewrite map_lookup_imap in Hst. destruct (tcp_conns s !! id) as [st0|] eqn:E0; [|done].
    cbn in Hst. injection Hst as <-. exact (Hb id st0 E0). }
  by destruct panicked.
Qed.

Lemma round_start_total now s : bounded s → ∃ b s', round_start rx_buf now s = Ok (b, s') ∧ bounded s'.
Proof.
  intros Hb. unfold round_start. cbv zeta.
  destruct (service_tcp_total now _ (poll_iface_bounded now s Hb)) as (b1 & s1 & -> & B1). cbn [mbind comp_bind].
  destruct (service_udp s1) as [b2 s2] eqn:E2. apply service_udp_conns in E2.
  assert (bounded s2) as B2 by (unfold bounded; by rewrite E2). unfold flush_tx. destruct (flush_go _ _ _) as [[t c] n].
  match goal with |- context [retry_deferred rx_buf ?l ?x] => destruct (retry_deferred rx_buf l x) as [d s4] eqn:E4 end.
  eexists _, _. split; [done|]. by apply retry_deferred_bounded in E4.
Qed.

Lemma routable_prefix_v4_le p : (routable_prefix_v4 p <=? 32) = true.
Proof. unfold routable_prefix_v4. destruct (p >=? 31) eqn:E; apply Z.leb_le; lia. Qed.

Lemma routable_prefix_v6_le p : (routable_prefix_v6 p <=? 128) = true.
Proof. unfold routable_prefix_v6. destruct (p >=? 127) eqn:E; apply Z.leb_le; lia. Qed.

Lemma apply_addrs_total v4 v6 i : ∃ i', apply_addrs v4 v6 i = Ok i'.
Proof.
  unfold apply_addrs, cidr4, cidr6.
  destruct v4 as [[ip4 p4]|], v6 as [[ip6 p6]|]; cbn;
    rewrite ?routable_prefix_v4_le, ?routable_prefix_v6_le; cbn; by eexists.
Qed.

Lemma round_end_total now k s : bounded s → ∃ s', round_end rx_buf app_queue now k s = Ok s' ∧ bounded s'.
Proof.
  intros Hb. destruct k as [pkt waiting|cmd| |]; cbn [round_end]; [by eexists| | |by eexists].
  - destruct cmd as [t dst|t|v4 v6]; cbn [handle_cmd alloc_port].
    + pose proof (tcp_new_returns (iface s) (keepalive (limits s)) dst (next_port s)) as Hn.
      destruct (tcp_new _ _ _ _) as [sk|e|]; [|by eexists|done]. eexists. split; [done|].
      eapply bounded_insert; [exact Hb| |reflexivity]. unfold room_ok, max_tcp_pending. unfold blen. cbn [pending length]. lia.
    + pose proof (udp_new_returns (next_port s)) as Hn. by destruct (udp_new _) as [sk|e|]; [eexists|eexists|].
    + destruct (current_addrs _) as [c4 c6]. destruct (apply_addrs_total (or_else v4 c4) (or_else v6 c6) (iface s)) as [i ->].
      by eexists.
  - destruct (deferred s); [|by eexists]. destruct (take_data rx_buf (queue (data_in s)) s) as [[d q] s1] eqn:E.
    eexists. split; [done|]. by apply take_data_bounded in E.
Qed.

Lemma app_step_bounded a s : bounded s → bounded (app_step a s).
Proof.
  intros Hb. destruct a as [d|i|i|t]; cbn [app_step]; [done| | |]; intros id st Hst; cbn in Hst.
  - rewrite lookup_alter in Hst. destruct (decide _); [|by apply Hb in Hst].
    apply fmap_Some in Hst as (st0 & E & ->). exact (Hb _ _ E).
  - rewrite lookup_alter in Hst. destruct (decide _); [|by apply Hb in Hst].
    apply fmap_Some in Hst as (st0 & E & ->). exact (Hb _ _ E).
  - rewrite lookup_fmap in Hst. apply fmap_Some in Hst as (st0 & E & ->). destruct (_ && _); exact (Hb _ _ E).
Qed.

Lemma stack_step_total e s : bounded s → ∃ s', stack_step rx_buf app_queue e s = Ok s' ∧ bounded s'.
Proof.
  intros Hb. destruct e as [now after k|a]; cbn [stack_step]; [|eexists; split; [done|by apply app_step_bounded]].
  destruct (round_start_total now s Hb) as (b & s1 & -> & B1). cbn [mbind comp_bind]. by apply round_end_total.
Qed.
End bounds.

(** C19. The stack survives whatever the tunnel, smoltcp and the applications
    do: it never panics and never fails, and no connection ever holds more
    than its bound of pending bytes, so a peer that reads nothing cannot fill
    the router's memory. *)
Theorem stack_bounded `{Smoltcp} `{!SmoltcpOk} `{!SmoltcpTotal} {w : arch} (rx_buf app_queue : Z)
  (es : list step) (s : NetStack) (Hb : bounded rx_buf s) :
  ∃ s', stack_run rx_buf app_queue es s = Ok s' ∧
    ∀ id st, tcp_conns s' !! id = Some st → blen (pending st) ≤ max_tcp_pending rx_buf.
Proof.
  revert s Hb. induction es as [|e es IH]; intros s Hb; cbn [stack_run].
  - eexists. split; [done|]. exact Hb.
  - destruct (stack_step_total rx_buf app_queue e s Hb) as (s1 & -> & B1). by apply IH.
Qed.
