(* ===== verification/NetstackRuns.v ===== *)
(** * Runs of the network stack

    Theorems on whole runs of the stack of Netstack.v and its applications:
    an open call is answered at most once, and it is answered by its deadline.
    The last part is a small smoltcp of its own, on which the theorems apply
    and on which two runs show what the end of a connection can lose. *)

From stdpp Require Import strings gmap.
From S2P Require Import Prelude Text Net NetText Error Fragment Netstack.

(** ** What an open call waits on

    Of a connection, what its open call depends on; most steps leave it. *)
Record Core := mk_core {
  c_tag : Z; c_resp : bool; c_given : bool; c_rx : bool; c_est : bool; c_deadline : Z; c_aborted : bool }.

Definition core `{Smoltcp} (st : TcpState) : Core :=
  mk_core (tag st) (connect_resp st) (resp_closed st) (from_stack_rx st) (established st) (connect_deadline st) (aborted st).

Definition cores `{Smoltcp} (s : NetStack) : gmap Z Core := core <$> tcp_conns s.

(** The answers to the open call [t] among what was seen. *)
Definition answer_of (t : Z) (e : seen) : Z :=
  match e with AnsweredTcp i _ | AnsweredUdp i _ => if i =? t then 1 else 0 | _ => 0 end.
Definition answers (t : Z) (l : list seen) : Z := foldr (λ e n, answer_of t e + n) 0 l.

(** Connections that still hold the other end of the open call [t]. *)
Definition owed (t : Z) (c : Core) : Z := if (c_tag c =? t) && c_resp c then 1 else 0.
Definition debts (t : Z) (m : gmap Z Core) : Z := map_fold (λ _ c n, owed t c + n) 0 m.

Lemma answers_cons t e l : answers t (e :: l) = answer_of t e + answers t l.
Proof. done. Qed.

Lemma answers_app t a b : answers t (a ++ b) = answers t a + answers t b.
Proof. induction a as [|x a IH]; [done|]. rewrite <- app_comm_cons, !answers_cons, IH. lia. Qed.

Lemma answer_of_nonneg t e : 0 ≤ answer_of t e.
Proof. destruct e; cbn; try destruct (_ =? _); lia. Qed.

Lemma answers_nonneg t l : 0 ≤ answers t l.
Proof. induction l as [|e l IH]; [done|]. rewrite answers_cons. pose proof (answer_of_nonneg t e). lia. Qed.

Lemma answers_in t a l : AnsweredTcp t a ∈ l → 1 ≤ answers t l.
Proof.
  intros Hin. induction l as [|e l IH]; [by apply not_elem_of_nil in Hin|]. rewrite answers_cons.
  pose proof (answers_nonneg t l). pose proof (answer_of_nonneg t e).
  apply elem_of_cons in Hin as [<-|Hin]; [cbn; rewrite Z.eqb_refl; lia|]. specialize (IH Hin). lia.
Qed.

Lemma owed_nonneg t c : 0 ≤ owed t c.
Proof. unfold owed. destruct (_ && _); lia. Qed.

Lemma debts_insert t i c m : m !! i = None → debts t (<[i := c]> m) = owed t c + debts t m.
Proof. intros Hm. unfold debts. rewrite map_fold_insert_L; [done| |done]. intros. lia. Qed.

Lemma debts_delete t i c m : m !! i = Some c → debts t m = owed t c + debts t (delete i m).
Proof. intros Hm. unfold debts. rewrite (map_fold_delete_L _ _ i c m); [done| |done]. intros. lia. Qed.

Lemma debts_nonneg t m : 0 ≤ debts t m.
Proof.
  induction m as [|i c m Hm IH] using map_ind; [done|]. rewrite debts_insert by done. pose proof (owed_nonneg t c). lia.
Qed.

Lemma debts_replace t i c c' m : m !! i = Some c → debts t (<[i := c']> m) = debts t m - owed t c + owed t c'.
Proof.
  intros Hm. rewrite <- insert_delete_eq, debts_insert by apply lookup_delete_eq.
  rewrite (debts_delete t i c m) by done. lia.
Qed.

(** ** Steps that answer nothing *)
Section runs.
Context `{Smoltcp} {w : arch}.
Context (rx_buf app_queue : Z).
Implicit Types (s : NetStack) (st : TcpState).

(** The log grows. *)
Definition grows s s' : Prop := ∃ l, log s' = log s ++ l.

Definition quiet s s' : Prop :=
  cores s' = cores s ∧ limits s' = limits s ∧ next_id s' = next_id s ∧ ∃ l, log s' = log s ++ l ∧ ∀ t, answers t l = 0.

Lemma quiet_refl s : quiet s s.
Proof. split_and!; try done. exists []. by rewrite app_nil_r. Qed.

Lemma quiet_trans s1 s2 s3 : quiet s1 s2 → quiet s2 s3 → quiet s1 s3.
Proof.
  intros (C1 & M1 & N1 & l1 & L1 & A1) (C2 & M2 & N2 & l2 & L2 & A2). split_and!; [congruence..|]. exists (l1 ++ l2).
  split; [by rewrite L2, L1, app_assoc|]. intros t. rewrite answers_app, A1, A2. lia.
Qed.

Lemma quiet_by s s' :
  cores s' = cores s → limits s' = limits s → next_id s' = next_id s → log s' = log s → quiet s s'.
Proof. intros Hc Hm Hn Hl. split_and!; try done. exists []. by rewrite app_nil_r. Qed.

Lemma quiet_grows s s' : quiet s s' → grows s s'.
Proof. intros (_ & _ & _ & l & E & _). by exists l. Qed.

Lemma grows_refl s : grows s s.
Proof. exists []. by rewrite app_nil_r. Qed.

Lemma grows_trans s1 s2 s3 : grows s1 s2 → grows s2 s3 → grows s1 s3.
Proof. intros [l1 E1] [l2 E2]. exists (l1 ++ l2). by rewrite E2, E1, app_assoc. Qed.

(** Connections changed one by one, their cores kept. *)
Lemma cores_insert i st st' (m : gmap Z TcpState) :
  m !! i = Some st → core st' = core st → core <$> <[i := st']> m = core <$> m.
Proof. intros Hm Hc. rewrite fmap_insert, Hc. apply insert_id. by rewrite lookup_fmap, Hm. Qed.

Lemma cores_alter i (f : TcpState → TcpState) (m : gmap Z TcpState) :
  (∀ st, core (f st) = core st) → core <$> alter f i m = core <$> m.
Proof.
  intros Hf. apply map_eq. intros j. rewrite !lookup_fmap, lookup_alter. destruct (decide _); [|done].
  subst. destruct (m !! _); cbn; [by rewrite Hf|done].
Qed.

Lemma try_handle_quiet d s o s' : try_handle_data rx_buf d s = (o, s') → quiet s s'.
Proof.
  intros E. destruct d as [i data|i|i dst data|i]; cbn [try_handle_data] in E.
  - destruct (tcp_conns s !! i) as [st|] eqn:Ei; [|injection E as <- <-; apply quiet_refl].
    destruct (_ >=? _); [injection E as <- <-; apply quiet_refl|].
    destruct (_ <=? _); injection E as <- <-; apply quiet_by; try done; by apply (cores_insert i st).
  - destruct (tcp_conns s !! i) as [st|] eqn:Ei; injection E as <- <-; [|apply quiet_refl].
    apply quiet_by; try done. by apply (cores_insert i st).
  - destruct (udp_conns s !! i); injection E as <- <-; [by apply quiet_by|apply quiet_refl].
  - injection E as <- <-. by apply quiet_by.
Qed.

Lemma retry_deferred_quiet l s d s' : retry_deferred rx_buf l s = (d, s') → quiet s s'.
Proof.
  revert s. induction l as [|x l IH]; intros s; cbn [retry_deferred]; [intros [= _ <-]; apply quiet_refl|].
  destruct (try_handle_data rx_buf x s) as [o s1] eqn:E. apply try_handle_quiet in E.
  destruct o; [by intros [= _ <-]|]. intros E2. eapply quiet_trans; [exact E|]. by apply IH.
Qed.

Lemma take_data_quiet q s d q' s' : take_data rx_buf q s = (d, q', s') → quiet s s'.
Proof.
  revert s. induction q as [|x q IH]; intros s; cbn [take_data]; [intros [= _ _ <-]; apply quiet_refl|].
  destruct (try_handle_data rx_buf x s) as [o s1] eqn:E. apply try_handle_quiet in E.
  destruct o; [by intros [= _ _ <-]|]. intros E2. eapply quiet_trans; [exact E|]. by apply IH.
Qed.

Lemma poll_iface_quiet now s : quiet s (poll_iface now s).
Proof.
  unfold poll_iface. destruct (poll _ _ _ _ _) as [[[[panicked r] t] ft] fu].
  assert (core <$> map_imap (λ id st, Some (with_sock (ft id (sock st)) st)) (tcp_conns s) = core <$> tcp_conns s) as Hc.
  { apply map_eq. intros i. rewrite !lookup_fmap, map_lookup_imap. by destruct (tcp_conns s !! i). }
  destruct panicked; by apply quiet_by.
Qed.

Lemma deliver_udp_silent n id u slow gone u' l t : deliver_udp n id u = (slow, gone, u', l) → answers t l = 0.
Proof.
  revert u slow gone u' l. induction n as [|n IH]; intros u slow gone u' l; cbn [deliver_udp]; [by intros [= _ _ _ <-]|].
  destruct (try_reserve (uto_app u)); [|by intros [= _ _ _ <-]..].
  destruct (udp_can_recv (usock u)); cbn [negb]; [|by intros [= _ _ _ <-]].
  destruct (udp_recv (usock u)) as [[[from data]|] sk]; [|by intros [= _ _ _ <-]].
  destruct (deliver_udp n id _) as [[[slow1 gone1] u1] l1] eqn:E. intros [= _ _ _ <-]. cbn. by eapply IH.
Qed.

Lemma service_udp_quiet s busy s' : service_udp s = (busy, s') → quiet s s'.
Proof.
  unfold service_udp. generalize (map_to_list (udp_conns s)).*1 as ids. generalize false as b. intros b ids.
  revert b s. induction ids as [|i ids IH]; intros b s; cbn [foldl]; [intros [= _ <-]; apply quiet_refl|].
  destruct (service_udp_step (b, s) i) as [b1 s1] eqn:E. intros E2. eapply quiet_trans; [|by eapply IH].
  unfold service_udp_step in E. destruct (udp_conns s !! i) as [u|]; [|injection E as _ <-; apply quiet_refl].
  destruct (deliver_udp _ i u) as [[[slow gone] u1] l] eqn:Ed. injection E as _ <-.
  split_and!; try done. exists l. split; [done|]. intros t. by eapply deliver_udp_silent.
Qed.

(** A caller that gives up. *)
Definition withdraw (t : Z) (c : Core) : Core :=
  if (c_tag c =? t) && c_resp c
  then mk_core (c_tag c) (c_resp c) true (c_rx c) (c_est c) (c_deadline c) (c_aborted c) else c.

Definition gives_up (a : app_event) : option Z := match a with AppGivesUp t => Some t | _ => None end.

Lemma app_step_log a s : log (app_step a s) = log s.
Proof. by destruct a. Qed.

Lemma app_step_cores a s :
  cores (app_step a s) = match gives_up a with Some t => withdraw t <$> cores s | None => cores s end.
Proof.
  destruct a as [d|i|i|t]; cbn [app_step gives_up]; [done|by apply cores_alter..|].
  unfold cores. cbn [tcp_conns set_conns]. rewrite <- !map_fmap_compose. apply map_fmap_ext. intros i st _. cbn.
  unfold withdraw. cbn. destruct (_ && connect_resp st) eqn:E; [|done]. apply andb_true_iff in E as [_ Er].
  unfold core. cbn. by rewrite Er.
Qed.

(** What follows [service_tcp] in a round. *)
Lemma after_service_quiet s d s' :
  (let '(_, s) := service_udp s in let '(_, s) := flush_tx s in retry_deferred rx_buf (deferred s) s) = (d, s') →
  quiet s s'.
Proof.
  destruct (service_udp s) as [b s1] eqn:E1. apply service_udp_quiet in E1. unfold flush_tx.
  destruct (flush_go _ _ _) as [[t c] n]. intros E2. apply retry_deferred_quiet in E2.
  eapply quiet_trans; [exact E1|]. eapply quiet_trans; [|exact E2]. by apply quiet_by.
Qed.

(** ** Serving the connections *)

(** The open call holds both ends until the connection is established, and
    only an established connection is reset. *)
Definition core_ok (c : Core) : Prop :=
  c_resp c = negb (c_est c) ∧ c_rx c = negb (c_est c) ∧ (c_aborted c = true → c_est c = true).

(** [st'] is [st] with at most its socket, data and reset mark changed. *)
Definition served st st' : Prop :=
  core st' = mk_core (tag st) (connect_resp st) (resp_closed st) (from_stack_rx st) (established st) (connect_deadline st)
               (aborted st').

Lemma deliver_served n id st slow gone st' l :
  deliver n id st = (slow, gone, st', l) → core st' = core st ∧ ∀ t, answers t l = 0.
Proof.
  revert st slow gone st' l. induction n as [|n IH]; intros st slow gone st' l; cbn [deliver]; [by intros [= _ _ <- <-]|].
  destruct (try_reserve (to_app st)); [|by intros [= _ _ <- <-]..].
  destruct (tcp_can_recv (sock st)); cbn [negb]; [|by intros [= _ _ <- <-]].
  destruct (tcp_recv (sock st)) as [[[|b chunk]|] sk]; [by intros [= _ _ <- <-]| |by intros [= _ _ <- <-]].
  destruct (deliver n id _) as [[[slow1 gone1] st1] l1] eqn:E. intros [= _ _ <- <-].
  apply IH in E as [Ec Ea]. by split.
Qed.

Lemma feed_served id st st' l : feed_socket id st = Ok (st', l) → core st' = core st ∧ ∀ t, answers t l = 0.
Proof.
  unfold feed_socket. destruct (_ && _); [|by intros [= <- <-]]. destruct (tcp_send_slice _ _) as [sent sk].
  destruct (sent >? 0); [|by intros [= <- <-]]. destruct (sent >? _); [done|]. by intros [= <- <-].
Qed.

Lemma core_served st st' : core st' = core st → served st st'.
Proof. intros E. unfold served, core in *. by injection E as -> -> -> -> -> -> ->. Qed.

Lemma served_trans st1 st2 st3 : core st2 = core st1 → served st2 st3 → served st1 st3.
Proof.
  intros E S. unfold served, core in *. injection E as E1 E2 E3 E4 E5 E6 _.
  by rewrite <- E1, <- E2, <- E3, <- E4, <- E5, <- E6.
Qed.

Lemma serve_served now lim id st slow r l :
  serve_established now lim id st = Ok (slow, r, l) →
  (∀ t, answers t l = 0) ∧ (∀ st', r = Some st' → served st st').
Proof.
  unfold serve_established. destruct (feed_socket id st) as [[st1 l1]| |] eqn:E1; [|done..]. cbn [mbind comp_bind].
  apply feed_served in E1 as [C1 A1].
  assert (core (close_if_done st1) = core st1) as C2 by (unfold close_if_done; by destruct (_ && _)).
  destruct (deliver _ id (close_if_done st1)) as [[[slow2 gone] st2] l2] eqn:E2. apply deliver_served in E2 as [C3 A2].
  destruct (if gone then orphan now (orphan_linger lim) st2 else (false, st2)) as [ended st3] eqn:E3.
  assert (served st2 st3) as S3.
  { destruct gone; [|injection E3 as _ <-; by apply core_served]. unfold orphan in E3.
    destruct (_ || _); injection E3 as _ <-; [|done]. by destruct (is_st _ _). }
  intros [= _ <- <-]. split; [intros t; by rewrite answers_app, A1, A2|]. intros st' Hr.
  apply (served_trans _ st2); [congruence|]. destruct ended; [by injection Hr as <-|].
  unfold settle in Hr. destruct (is_st _ CloseWait), (is_st _ TimeWait), (_ && _); inversion Hr; subst; exact S3.
Qed.

(** One turn: it answers the open call at most once and then no longer holds
    it; it keeps the invariant; by the deadline it does answer. *)
Lemma service_one_answers now lim id st slow r l ds t :
  service_one now lim id st = Ok (slow, r, l, ds) →
  answers t l + from_option (owed t ∘ core) 0 r ≤ owed t (core st).
Proof.
  unfold service_one. destruct (aborted st); [intros [= _ <- <- _]; apply owed_nonneg|]. cbv zeta.
  assert (∀ reason st0, answers t (refuse reason st0) ≤ owed t (core st0)) as Href.
  { intros reason st0. unfold refuse, owed. cbn. destruct (connect_resp st0), (resp_closed st0); cbn; destruct (_ =? _); done. }
  destruct (if negb (established st) && _ then answer_open id st else (st, [], [])) as [[st1 l1] ds1] eqn:E1.
  assert (answers t l1 + owed t (core st1) ≤ owed t (core st)) as H1.
  { destruct (negb (established st) && _); [|injection E1 as <- <- <-; done].
    unfold answer_open in E1. unfold owed. destruct (connect_resp st) eqn:Er, (from_stack_rx st); cbn in E1;
      [destruct (resp_closed st)| | |]; injection E1 as <- <- <-; cbn; rewrite ?Er;
      destruct (tag st =? t); cbn; lia. }
  destruct (established st1) eqn:Ee; cbn [negb andb].
  - destruct (serve_established now lim id st1) as [[[slow2 r2] l2]| |] eqn:E2; [|done..].
    cbn [mbind comp_bind]. intros [= _ <- <- _]. apply serve_served in E2 as [A2 S2]. rewrite answers_app, A2.
    destruct r2 as [st'|]; cbn; [|pose proof (owed_nonneg t (core st1)); lia].
    rewrite (S2 st' eq_refl). unfold owed in *. cbn in *. lia.
  - pose proof (answers_nonneg t l1). pose proof (Href (lit "connection refused") st1).
    pose proof (Href (lit "connection timed out") st1).
    destruct (is_st _ Closed || _); [intros [= _ <- <- _]; cbn [from_option]; lia|].
    destruct (_ || _ || _); intros [= _ <- <- _]; [cbn [from_option]|cbn [from_option answers foldr]; unfold compose]; lia.
Qed.

Lemma answer_open_core id st st' l ds : answer_open id st = (st', l, ds) →
  core st' = mk_core (tag st) false (resp_closed st) false true (connect_deadline st) (aborted st).
Proof.
  unfold answer_open. destruct (_ && _); [destruct (resp_closed st) eqn:E|]; intros [= <- _ _]; unfold core; cbn; by rewrite ?E.
Qed.

Lemma served_ok st st' : established st = true → served st st' → core_ok (core st) → core_ok (core st').
Proof. unfold core_ok. intros He -> (Hr & Hx & Ha). by cbn in *. Qed.

Lemma service_one_ok now lim id st slow st' l ds :
  service_one now lim id st = Ok (slow, Some st', l, ds) → core_ok (core st) → core_ok (core st').
Proof.
  unfold service_one. intros E Hok. destruct (aborted st); [done|]. revert E. cbv zeta.
  destruct (if negb (established st) && _ then answer_open id st else (st, [], [])) as [[st1 l1] ds1] eqn:E1.
  assert (core_ok (core st1)) as Hok1.
  { destruct (negb (established st) && _); [|by injection E1 as <- <- <-].
    apply answer_open_core in E1 as ->. by unfold core_ok. }
  destruct (established st1) eqn:Ee; cbn [negb andb].
  - destruct (serve_established now lim id st1) as [[[slow2 r2] l2]| |] eqn:E2; [|done..].
    cbn [mbind comp_bind]. intros [= _ -> _ _]. apply serve_served in E2 as [_ S2]. by apply (served_ok st1), Hok1; [|apply S2].
  - destruct (is_st _ Closed || _); [done|]. destruct (_ || _ || _); [done|]. by intros [= _ <- _ _].
Qed.

Lemma service_one_deadline now lim id st slow r l ds :
  service_one now lim id st = Ok (slow, r, l, ds) → core_ok (core st) →
  established st = false → resp_closed st = false → connect_deadline st ≤ now →
  ∃ a, AnsweredTcp (tag st) a ∈ l.
Proof.
  unfold service_one. intros E (Hr & Hx & Ha) He Hc Hd. cbn in Hr, Hx, Ha. rewrite He in Hr, Hx, Ha. cbn in Hr, Hx.
  destruct (aborted st); [by discriminate Ha|]. rewrite He in E. cbn [negb andb] in E. revert E. cbv zeta.
  assert (∀ reason, refuse reason st = [AnsweredTcp (tag st) (Refused reason)]) as Href
    by (intros reason; unfold refuse; by rewrite Hr, Hc).
  destruct (is_st _ Established || _).
  - unfold answer_open. rewrite Hr, Hx, Hc. cbn [andb established with_established negb].
    destruct (serve_established _ _ _ _) as [[[slow2 r2] l2]| |]; [|done..]. cbn [mbind comp_bind].
    intros [= _ _ <- _]. eexists. apply elem_of_cons. by left.
  - rewrite He. cbn [negb andb]. destruct (is_st _ Closed || _).
    + intros [= _ _ <- _]. rewrite Href. eexists. by apply list_elem_of_singleton.
    + rewrite Hr, Hc. cbn [negb orb]. destruct (Z.geb_spec now (connect_deadline st)); [|lia].
      intros [= _ _ <- _]. rewrite Href. eexists. by apply list_elem_of_singleton.
Qed.

(** ** Whole rounds *)

Lemma service_fold_rel (R : NetStack → NetStack → Prop) now ids b s b' s' :
  (∀ x, R x x) → (∀ x y z, R x y → R y z → R x z) →
  (∀ i b x b' y, service_step now (Ok (b, x)) i = Ok (b', y) → R x y) →
  foldl (service_step now) (Ok (b, s)) ids = Ok (b', s') → R s s'.
Proof.
  intros Hr Ht Hs. revert b s. induction ids as [|i ids IH]; intros b s; cbn [foldl]; [by intros [= _ <-]|].
  destruct (service_step now (Ok (b, s)) i) as [[b1 s1]|e|] eqn:E.
  - intros E2. eapply Ht; [by eapply Hs|]. by eapply IH.
  - intros E2. exfalso. clear -E2. induction ids; cbn in E2; [done|]. by apply IHids.
  - intros E2. exfalso. clear -E2. induction ids; cbn in E2; [done|]. by apply IHids.
Qed.

(** A turn as the others see it. *)
Lemma service_step_inv now i b s b' s' :
  service_step now (Ok (b, s)) i = Ok (b', s') →
  (tcp_conns s !! i = None ∧ s' = s) ∨ ∃ st slow r l ds, tcp_conns s !! i = Some st ∧ service_one now (limits s) i st = Ok (slow, r, l, ds) ∧
    tcp_conns s' = match r with Some st' => <[i := st']> (tcp_conns s) | None => delete i (tcp_conns s) end ∧
    log s' = log s ++ l ∧ limits s' = limits s ∧ next_id s' = next_id s.
Proof.
  unfold service_step. cbn [mbind comp_bind]. destruct (tcp_conns s !! i) as [st|] eqn:Ei; [|intros [= _ <-]; by left].
  destruct (service_one now (limits s) i st) as [[[[slow r] l] ds]| |] eqn:E; [|done..]. intros [= _ <-]. right.
  by eexists _, _, _, _, _.
Qed.

Lemma service_step_grows now i b s b' s' : service_step now (Ok (b, s)) i = Ok (b', s') → grows s s'.
Proof.
  intros [[_ ->]|(st & slow & r & l & ds & _ & _ & _ & E & _)]%service_step_inv; [apply grows_refl|by exists l].
Qed.

(** What is owed and what was answered, and it never grows. *)
Definition account (t : Z) s : Z := answers t (log s) + debts t (cores s).

Lemma quiet_account t s s' : quiet s s' → account t s' = account t s.
Proof. intros (Hc & _ & _ & l & El & Ha). unfold account. rewrite Hc, El, answers_app, Ha. lia. Qed.

Lemma service_step_account t now i b s b' s' :
  service_step now (Ok (b, s)) i = Ok (b', s') → account t s' ≤ account t s.
Proof.
  intros [[_ ->]|(st & slow & r & l & ds & Ei & E & Ec & El & _)]%service_step_inv; [done|].
  apply (service_one_answers _ _ _ _ _ _ _ _ t) in E. unfold account, cores. rewrite Ec, El, answers_app.
  assert ((core <$> tcp_conns s) !! i = Some (core st)) as Hi by (by rewrite lookup_fmap, Ei).
  destruct r as [st'|]; cbn [from_option] in E; unfold compose in E.
  - rewrite fmap_insert, (debts_replace t i _ _ _ Hi). lia.
  - rewrite fmap_delete. rewrite (debts_delete t i _ _ Hi). lia.
Qed.

Lemma service_tcp_account t now s b s' : service_tcp now s = Ok (b, s') → account t s' ≤ account t s.
Proof.
  apply (service_fold_rel (λ x y, account t y ≤ account t x)); [done|lia|].
  intros i b0 x b1 y. apply service_step_account.
Qed.

(** The parts of a round around [service_tcp] are quiet. *)
Lemma round_start_inv now s b s' :
  round_start rx_buf now s = Ok (b, s') →
  ∃ b1 s1, service_tcp now (poll_iface now s) = Ok (b1, s1) ∧ quiet s1 s'.
Proof.
  unfold round_start. cbv zeta. destruct (service_tcp now (poll_iface now s)) as [[b1 s1]| |]; [|done..].
  cbn [mbind comp_bind]. pose proof (after_service_quiet s1) as Hq.
  destruct (service_udp s1) as [b2 s2]. destruct (flush_tx s2) as [n s3].
  destruct (retry_deferred rx_buf (deferred s3) s3) as [d s4]. intros [= _ <-]. exists b1, s1. split; [done|].
  eapply quiet_trans; [by eapply Hq|]. by apply quiet_by.
Qed.

(** The open calls a step makes. *)
Definition opened (t : Z) (e : step) : Z :=
  match e with
  | Round _ _ (Command (OpenTcp i _)) | Round _ _ (Command (OpenUdp i)) => if i =? t then 1 else 0
  | _ => 0
  end.
Definition opens (t : Z) (es : list step) : Z := foldr (λ e n, opened t e + n) 0 es.

Lemma debts_put t i c m : debts t (<[i := c]> m) ≤ owed t c + debts t m.
Proof.
  destruct (m !! i) as [c0|] eqn:E; [|by rewrite debts_insert].
  rewrite (debts_replace t i c0) by done. pose proof (owed_nonneg t c0). lia.
Qed.

Lemma round_end_account t now after k s s' :
  round_end rx_buf app_queue after k s = Ok s' → account t s' ≤ account t s + opened t (Round now after k).
Proof.
  destruct k as [pkt waiting|cmd| |]; cbn [round_end opened].
  - intros [= <-]. rewrite (quiet_account t s); [lia|]. by apply quiet_by.
  - destruct cmd as [i dst|i|v4 v6]; cbn [handle_cmd alloc_port].
    + destruct (tcp_new _ _ _ _) as [sk|e|]; [| |done]; intros [= <-]; unfold account, cores;
        cbn [tcp_conns set_conns set_ids see log].
      * rewrite fmap_insert. etransitivity; [apply Z.add_le_mono_l, debts_put|]. unfold owed. cbn. rewrite andb_true_r. lia.
      * rewrite answers_app, answers_cons. cbn [answer_of answers foldr]. lia.
    + destruct (udp_new _) as [sk|e|]; [| |done]; intros [= <-]; unfold account, cores;
        cbn [tcp_conns set_udps set_ids see log]; rewrite answers_app, answers_cons; cbn [answer_of answers foldr]; lia.
    + destruct (current_addrs _) as [c4 c6]. destruct (apply_addrs _ _ _) as [i| |]; [|done..]. intros [= <-].
      rewrite (quiet_account t s); [lia|]. by apply quiet_by.
  - destruct (deferred s); [|intros [= <-]; lia].
    destruct (take_data rx_buf (queue (data_in s)) s) as [[d q] s1] eqn:E. intros [= <-].
    apply take_data_quiet in E. rewrite (quiet_account t s); [lia|]. eapply quiet_trans; [exact E|]. by apply quiet_by.
  - intros [= <-]. lia.
Qed.

Lemma round_end_grows after k s s' : round_end rx_buf app_queue after k s = Ok s' → grows s s'.
Proof.
  destruct k as [pkt waiting|cmd| |]; cbn [round_end].
  - intros [= <-]. exact (grows_refl s).
  - destruct cmd as [i dst|i|v4 v6]; cbn [handle_cmd alloc_port].
    + destruct (tcp_new _ _ _ _) as [sk|e|]; [| |done]; intros [= <-]; [exact (grows_refl s)|by eexists].
    + destruct (udp_new _) as [sk|e|]; [| |done]; intros [= <-]; by eexists.
    + destruct (current_addrs _) as [c4 c6]. destruct (apply_addrs _ _ _) as [i| |]; [|done..]. intros [= <-]. exact (grows_refl s).
  - destruct (deferred s); [|intros [= <-]; exact (grows_refl s)].
    destruct (take_data rx_buf (queue (data_in s)) s) as [[d q] s1] eqn:E. intros [= <-].
    exact (quiet_grows _ _ (take_data_quiet _ _ _ _ _ E)).
  - intros [= <-]. exact (grows_refl s).
Qed.

Lemma debts_withdraw t t' m : debts t (withdraw t' <$> m) = debts t m.
Proof.
  induction m as [|i c m Hm IH] using map_ind; [done|].
  rewrite fmap_insert, !debts_insert, IH by (try done; by rewrite lookup_fmap, Hm). f_equal.
  unfold withdraw. by destruct (_ && _).
Qed.

Lemma stack_step_account t e s s' :
  stack_step rx_buf app_queue e s = Ok s' → account t s' ≤ account t s + opened t e.
Proof.
  destruct e as [now after k|a]; cbn [stack_step].
  - destruct (round_start rx_buf now s) as [[b s1]| |] eqn:E1; [|done..]. cbn [mbind comp_bind]. intros E2.
    apply round_start_inv in E1 as (b2 & s2 & E1 & Hq). apply (service_tcp_account t) in E1.
    apply (round_end_account t now) in E2. rewrite (quiet_account t _ _ Hq) in E2.
    rewrite (quiet_account t _ _ (poll_iface_quiet now s)) in E1. lia.
  - intros [= <-]. unfold account. rewrite app_step_log, app_step_cores. cbn [opened].
    destruct (gives_up a); rewrite ?debts_withdraw; lia.
Qed.

Lemma stack_run_account t es s s' :
  stack_run rx_buf app_queue es s = Ok s' → account t s' ≤ account t s + opens t es.
Proof.
  revert s. induction es as [|e es IH]; intros s; cbn [stack_run opens foldr]; [intros [= <-]; lia|].
  destruct (stack_step rx_buf app_queue e s) as [s1| |] eqn:E; [|done..]. cbn [mbind comp_bind]. intros E2.
  apply IH in E2. apply (stack_step_account t) in E. unfold opens in E2. lia.
Qed.

(** ** The deadline *)

(** The stack between its steps. *)
Definition sound (lim : TcpLimits) s : Prop :=
  map_Forall (λ _ c, core_ok c) (cores s) ∧ (∀ id, is_Some (cores s !! id) → id < next_id s) ∧ limits s = lim.

(** The open call [t] was answered, or waits in the connection [id] with
    the deadline [D]. *)
Definition waiting (t D : Z) (c : Core) : Prop :=
  c_tag c = t ∧ c_est c = false ∧ c_given c = false ∧ c_deadline c = D.
Definition pledge (t D id : Z) s : Prop :=
  1 ≤ answers t (log s) ∨ ∃ c, cores s !! id = Some c ∧ waiting t D c.

Lemma grows_answers t s s' : grows s s' → answers t (log s) ≤ answers t (log s').
Proof. intros [l ->]. rewrite answers_app. pose proof (answers_nonneg t l). lia. Qed.

Lemma quiet_sound lim s s' : quiet s s' → sound lim s → sound lim s'.
Proof. intros (Hc & Hl & Hn & _) Hs. unfold sound in *. by rewrite Hc, Hl, Hn. Qed.

Lemma quiet_pledge t D id s s' : quiet s s' → pledge t D id s → pledge t D id s'.
Proof.
  intros Hq [Ha|Hw]; [left|right].
  - pose proof (grows_answers t _ _ (quiet_grows _ _ Hq)). lia.
  - destruct Hq as (Hc & _). by rewrite Hc.
Qed.

(** A turn leaves a waiting open call as it is or answers it. *)
Lemma service_one_waits now lim id st slow r l ds t D :
  service_one now lim id st = Ok (slow, r, l, ds) → core_ok (core st) → waiting t D (core st) →
  1 ≤ answers t l ∨ ∃ st', r = Some st' ∧ core st' = core st.
Proof.
  unfold service_one. intros E (Hr & Hx & Ha) (Ht & He & Hc & _). cbn in Hr, Hx, Ha, Ht, He, Hc.
  rewrite He in Hr, Hx, Ha. cbn in Hr, Hx. destruct (aborted st); [by discriminate Ha|].
  rewrite He in E. cbn [negb andb] in E. revert E. cbv zeta.
  assert (∀ reason, answers t (refuse reason st) = 1) as Href
    by (intros reason; unfold refuse; rewrite Hr, Hc; cbn; by rewrite Ht, Z.eqb_refl).
  destruct (is_st _ Established || _).
  - unfold answer_open. rewrite Hr, Hx, Hc. cbn [andb established with_established negb].
    destruct (serve_established _ _ _ _) as [[[slow2 r2] l2]| |]; [|done..]. cbn [mbind comp_bind].
    intros [= _ _ <- _]. left. cbn [app]. rewrite answers_cons. cbn [answer_of].
    rewrite Ht, Z.eqb_refl. pose proof (answers_nonneg t l2). lia.
  - rewrite He. cbn [negb andb]. destruct (is_st _ Closed || _); [intros [= _ _ <- _]; left; by rewrite Href|].
    destruct (_ || _ || _); intros [= _ <- <- _]; [left; by rewrite Href|]. right. by eexists.
Qed.

Lemma service_step_sound lim now i b s b' s' :
  service_step now (Ok (b, s)) i = Ok (b', s') → sound lim s → sound lim s'.
Proof.
  intros [[_ ->]|(st & slow & r & l & ds & Ei & E & Ec & _ & El & En)]%service_step_inv (Hok & Hid & Hl); [done|].
  assert (cores s !! i = Some (core st)) as Hi by (unfold cores; by rewrite lookup_fmap, Ei).
  unfold sound, cores. rewrite Ec, El, En. split_and!; [| |done].
  - destruct r as [st'|]; [rewrite fmap_insert|rewrite fmap_delete; by apply map_Forall_delete].
    apply map_Forall_insert_2; [|done]. eapply service_one_ok; [exact E|]. exact (Hok i _ Hi).
  - intros id Hs. apply Hid. unfold cores. rewrite lookup_fmap, fmap_is_Some in *. destruct r as [st'|].
    + apply lookup_insert_is_Some in Hs as [->|[_ Hs]]; [by rewrite Ei|done].
    + by apply lookup_delete_is_Some in Hs as [_ Hs].
Qed.

Lemma service_step_pledge lim t D id now i b s b' s' :
  service_step now (Ok (b, s)) i = Ok (b', s') → sound lim s → pledge t D id s → pledge t D id s'.
Proof.
  intros E Hs [Ha|(c & Hc & Hw)]; [left; pose proof (grows_answers t _ _ (service_step_grows _ _ _ _ _ _ E)); lia|].
  unfold cores in Hc. rewrite lookup_fmap in Hc. destruct (tcp_conns s !! id) as [st|] eqn:Est; [|done]. injection Hc as <-.
  apply service_step_inv in E as [[_ ->]|(sti & slow & r & l & ds & Ei & E & Ec & El & _ & _)].
  - right. exists (core st). split; [|done]. unfold cores. by rewrite lookup_fmap, Est.
  - unfold pledge, cores. rewrite Ec, El. destruct (decide (i = id)) as [->|Hne].
    + rewrite Est in Ei. injection Ei as <-. destruct Hs as (Hok & _ & _).
      assert (core_ok (core st)) as Hst by (apply (Hok id); unfold cores; by rewrite lookup_fmap, Est).
      destruct (service_one_waits _ _ _ _ _ _ _ _ t D E Hst Hw) as [Ha|(st' & -> & Hcc)].
      * left. rewrite answers_app. pose proof (answers_nonneg t (log s)). lia.
      * right. exists (core st). split; [|done]. by rewrite lookup_fmap, lookup_insert_eq, <- Hcc.
    + right. exists (core st). split; [|done]. rewrite lookup_fmap.
      destruct r; [rewrite lookup_insert_ne by done|rewrite lookup_delete_ne by done]; by rewrite Est.
Qed.

Lemma service_tcp_keeps lim t D id now s b s' :
  service_tcp now s = Ok (b, s') → sound lim s → sound lim s' ∧ (pledge t D id s → pledge t D id s').
Proof.
  apply (service_fold_rel (λ x y, sound lim x → sound lim y ∧ (pledge t D id x → pledge t D id y))); [done| |].
  - intros x y z Hxy Hyz Hx. destruct (Hxy Hx) as [Hy P1]. destruct (Hyz Hy) as [Hz P2]. eauto.
  - intros i b0 x b1 y E Hx. split; [by eapply service_step_sound|]. by eapply service_step_pledge.
Qed.

(** The turn of a connection whose deadline has passed. *)
Lemma service_step_deadline now lim t D id b s b' s' :
  service_step now (Ok (b, s)) id = Ok (b', s') → D ≤ now → sound lim s → pledge t D id s → 1 ≤ answers t (log s').
Proof.
  intros E HD (Hok & _ & _) [Ha|(c & Hc & Ht & He & Hg & HDd)].
  { pose proof (grows_answers t _ _ (service_step_grows _ _ _ _ _ _ E)). lia. }
  pose proof (Hok id c Hc) as Hcok. unfold cores in Hc. rewrite lookup_fmap in Hc.
  destruct (tcp_conns s !! id) as [st|] eqn:Est; [|done]. injection Hc as <-. cbn in Ht, He, Hg, HDd.
  apply service_step_inv in E as [[? _]|(sti & slow & r & l & ds & Ei & E & Ec & El & _ & _)]; [congruence|].
  rewrite Est in Ei. injection Ei as <-.
  destruct (service_one_deadline _ _ _ _ _ _ _ _ E Hcok) as [a Hin]; [done|done|lia|].
  rewrite Ht in Hin. apply answers_in in Hin. rewrite El, answers_app. pose proof (answers_nonneg t (log s)). lia.
Qed.

Lemma service_fold_deadline now lim t D id ids b s b' s' :
  id ∈ ids → D ≤ now → sound lim s → pledge t D id s →
  foldl (service_step now) (Ok (b, s)) ids = Ok (b', s') → 1 ≤ answers t (log s').
Proof.
  intros Hin HD. revert b s. induction ids as [|i ids IH]; intros b s Hs Hp E; [by apply not_elem_of_nil in Hin|].
  cbn [foldl] in E. destruct (service_step now (Ok (b, s)) i) as [[b1 s1]|e|] eqn:E1;
    [|exfalso; clear -E; induction ids; cbn in E; [done|by apply IHids]..].
  destruct (decide (i = id)) as [->|Hne].
  - apply (service_fold_rel grows) in E; [|apply grows_refl|apply grows_trans|intros *; apply service_step_grows].
    apply (grows_answers t) in E. pose proof (service_step_deadline _ _ _ _ _ _ _ _ _ E1 HD Hs Hp). lia.
  - eapply (IH ltac:(set_solver) b1 s1); [by eapply service_step_sound|by eapply service_step_pledge|exact E].
Qed.

Lemma round_start_deadline lim t D id now s b s' :
  round_start rx_buf now s = Ok (b, s') → D ≤ now → sound lim s → pledge t D id s → 1 ≤ answers t (log s').
Proof.
  intros (b1 & s1 & E & Hq)%round_start_inv HD Hs Hp. pose proof (poll_iface_quiet now s) as Hq0.
  assert (1 ≤ answers t (log s1)); [|pose proof (grows_answers t _ _ (quiet_grows _ _ Hq)); lia].
  apply (quiet_sound _ _ _ Hq0) in Hs. apply (quiet_pledge _ _ _ _ _ Hq0) in Hp. unfold service_tcp in E.
  destruct Hp as [Ha|(c & Hc & Hw)].
  - apply (service_fold_rel grows) in E; [|apply grows_refl|apply grows_trans|intros *; apply service_step_grows].
    apply (grows_answers t) in E. lia.
  - eapply service_fold_deadline; [|exact HD|exact Hs|right; by exists c|exact E].
    unfold cores in Hc. rewrite lookup_fmap in Hc. destruct (tcp_conns (poll_iface now s) !! id) as [st|] eqn:Est; [|done].
    apply list_elem_of_fmap. exists (id, st). split; [done|]. by apply elem_of_map_to_list.
Qed.

Lemma round_start_keeps lim t D id now s b s' :
  round_start rx_buf now s = Ok (b, s') → sound lim s → sound lim s' ∧ (pledge t D id s → pledge t D id s').
Proof.
  intros (b1 & s1 & E & Hq)%round_start_inv Hs. pose proof (poll_iface_quiet now s) as Hq0.
  apply (quiet_sound _ _ _ Hq0) in Hs. apply (service_tcp_keeps lim t D id) in E as [Hs1 Hp1]; [|done]. split.
  - by eapply quiet_sound.
  - intros Hp. eapply quiet_pledge; [exact Hq|]. apply Hp1. by eapply quiet_pledge.
Qed.

(** A new connection waits with its deadline. *)
Lemma open_tcp_pledge lim after t dst s s' sk :
  sound lim s → handle_cmd app_queue after (OpenTcp t dst) s = Ok s' →
  tcp_new (iface s) (keepalive (limits s)) dst (next_port s) = Ok sk →
  sound lim s' ∧ pledge t (after + connect_limit lim) (next_id s) s' ∧ log s' = log s ∧
  ∀ id, id ≠ next_id s → cores s' !! id = cores s !! id.
Proof.
  intros (Hok & Hid & Hl) E Hn. cbn [handle_cmd alloc_port] in E. rewrite Hn in E. injection E as <-.
  unfold sound, pledge, cores. cbn [tcp_conns set_conns set_ids limits next_id log]. rewrite fmap_insert. split_and!.
  - apply map_Forall_insert_2; [|done]. by unfold core_ok.
  - intros id [->|[_ Hs]]%lookup_insert_is_Some; [lia|]. specialize (Hid id Hs). lia.
  - done.
  - right. eexists. rewrite lookup_insert_eq. split; [done|]. by rewrite <- Hl.
  - done.
  - intros id Hne. by rewrite lookup_insert_ne.
Qed.

Lemma round_end_keeps lim t D id after k s s' :
  round_end rx_buf app_queue after k s = Ok s' → sound lim s → sound lim s' ∧ (pledge t D id s → pledge t D id s').
Proof.
  assert (∀ s1 s2, quiet s1 s2 → sound lim s1 → sound lim s2 ∧ (pledge t D id s1 → pledge t D id s2)) as Hquiet
    by (intros s1 s2 Hq Hs; split; [by eapply quiet_sound|by apply quiet_pledge]).
  assert (∀ a, sound lim s → ∀ i p, let s2 := see a (set_ids i p s) in next_id s ≤ i →
    sound lim s2 ∧ (pledge t D id s → pledge t D id s2)) as Hsee.
  { intros a (Hok & Hid & Hl) i p. cbn. intros Hi. split; [split_and!; [done| |done]; intros j Hj; specialize (Hid j Hj); cbn; lia|].
    intros [Ha|Hw]; [left|by right]. cbn [see set_ids log]. rewrite answers_app. pose proof (answers_nonneg t a). lia. }
  destruct k as [pkt waiting|cmd| |]; cbn [round_end].
  - intros [= <-]. apply Hquiet. by apply quiet_by.
  - destruct cmd as [t' dst|t'|v4 v6].
    + destruct (tcp_new (iface s) (keepalive (limits s)) dst (next_port s)) as [sk|e|] eqn:En.
      * intros E Hs. destruct (open_tcp_pledge _ _ _ _ _ _ _ Hs E En) as (Hs' & _ & Hlog & Hc). split; [done|].
        intros [Ha|(c & Hcc & Hw)]; [left; by rewrite Hlog|right]. exists c. split; [|done]. rewrite Hc; [done|].
        destruct Hs as (_ & Hid & _). specialize (Hid id ltac:(by eexists)). lia.
      * cbn [handle_cmd alloc_port]. rewrite En. intros [= <-] Hs. by apply Hsee.
      * cbn [handle_cmd alloc_port]. by rewrite En.
    + cbn [handle_cmd alloc_port]. destruct (udp_new _) as [sk|e|]; [| |done]; intros [= <-] Hs; [|by apply Hsee].
      exact (Hsee [AnsweredUdp t' (Opened (next_id s))] Hs (next_id s + 1) (next_port s) ltac:(lia)).
    + cbn [handle_cmd]. destruct (current_addrs _) as [c4 c6]. destruct (apply_addrs _ _ _) as [i| |]; [|done..].
      intros [= <-]. apply Hquiet. by apply quiet_by.
  - destruct (deferred s); [|intros [= <-]; by split].
    destruct (take_data rx_buf (queue (data_in s)) s) as [[d q] s1] eqn:E. intros [= <-]. apply take_data_quiet in E.
    apply Hquiet. eapply quiet_trans; [exact E|]. by apply quiet_by.
  - intros [= <-]. by split.
Qed.

Lemma app_step_keeps lim t D id a s :
  sound lim s → sound lim (app_step a s) ∧ (gives_up a ≠ Some t → pledge t D id s → pledge t D id (app_step a s)).
Proof.
  intros (Hok & Hid & Hl). unfold sound, pledge. rewrite app_step_log, app_step_cores.
  assert (limits (app_step a s) = limits s ∧ next_id (app_step a s) = next_id s) as [-> ->] by (by destruct a).
  destruct (gives_up a) as [t'|]; [|by split].
  split; [split_and!; [|intros i; rewrite lookup_fmap, fmap_is_Some; apply Hid|done]|].
  - intros i c. rewrite lookup_fmap. intros (c0 & Hc & ->)%fmap_Some. apply Hok in Hc. unfold withdraw. by destruct (_ && _).
  - intros Hne [Ha|(c & Hc & Hw)]; [by left|right]. exists c. split; [|done]. rewrite lookup_fmap, Hc. cbn. f_equal.
    unfold withdraw. destruct Hw as (Ht & _). destruct (Z.eqb_spec (c_tag c) t'); [congruence|done].
Qed.

Lemma stack_step_keeps lim t D id e s s' :
  stack_step rx_buf app_queue e s = Ok s' → sound lim s →
  sound lim s' ∧ (e ≠ App (AppGivesUp t) → pledge t D id s → pledge t D id s').
Proof.
  destruct e as [now after k|a]; cbn [stack_step].
  - destruct (round_start rx_buf now s) as [[b s1]| |] eqn:E1; [|done..]. cbn [mbind comp_bind]. intros E2 Hs.
    apply (round_start_keeps lim t D id) in E1 as [Hs1 Hp1]; [|done].
    apply (round_end_keeps lim t D id) in E2 as [Hs2 Hp2]; [|done]. split; [done|]. eauto.
  - intros [= <-] Hs. destruct (app_step_keeps lim t D id a s Hs) as [H1 H2]. split; [done|]. intros Hne. apply H2.
    intros Hg. apply Hne. destruct a; cbn in Hg; congruence.
Qed.

(** Runs of steps that are not the caller giving up. *)
Lemma stack_run_keeps lim t D id es s s' :
  stack_run rx_buf app_queue es s = Ok s' → sound lim s →
  sound lim s' ∧ (App (AppGivesUp t) ∉ es → pledge t D id s → pledge t D id s').
Proof.
  revert s. induction es as [|e es IH]; intros s; cbn [stack_run]; [by intros [= <-]|].
  destruct (stack_step rx_buf app_queue e s) as [s1| |] eqn:E; [|done..]. cbn [mbind comp_bind]. intros E2 Hs.
  apply (stack_step_keeps lim t D id) in E as [Hs1 Hp1]; [|done]. apply IH in E2 as [Hs2 Hp2]; [|done].
  split; [done|]. intros Hne Hp. apply not_elem_of_cons in Hne as [Hn1 Hn2]. apply Hp2; [done|]. apply Hp1; [congruence|done].
Qed.

Lemma round_open_pledge lim t dst now after s s' :
  stack_step rx_buf app_queue (Round now after (Command (OpenTcp t dst))) s = Ok s' → sound lim s →
  sound lim s' ∧ ∃ id, pledge t (after + connect_limit lim) id s'.
Proof.
  cbn [stack_step]. destruct (round_start rx_buf now s) as [[b s1]| |] eqn:E1; [|done..]. cbn [mbind comp_bind round_end].
  intros E2 Hs. apply (round_start_keeps lim t 0 0) in E1 as [Hs1 _]; [|done].
  destruct (tcp_new (iface s1) (keepalive (limits s1)) dst (next_port s1)) as [sk|e|] eqn:En.
  - destruct (open_tcp_pledge _ _ _ _ _ _ _ Hs1 E2 En) as (Hs' & Hp & _). eauto.
  - destruct (round_end_keeps lim t 0 0 after (Command (OpenTcp t dst)) s1 s' E2 Hs1) as [Hs' _]. split; [done|].
    exists 0. left. cbn [handle_cmd alloc_port] in E2. rewrite En in E2. injection E2 as <-.
    cbn [see set_ids log]. rewrite answers_app, answers_cons. cbn [answer_of]. rewrite Z.eqb_refl.
    pose proof (answers_nonneg t (log s1)). pose proof (answers_nonneg t []). lia.
  - cbn [handle_cmd alloc_port] in E2. by rewrite En in E2.
Qed.

Lemma spawn_state out lim ipv4 ipv6 s : spawn app_queue ipv4 ipv6 lim out = Ok s →
  tcp_conns s = ∅ ∧ log s = [] ∧ limits s = lim.
Proof.
  unfold spawn. destruct (parse_v4 ipv4) as [v4| |]; [|done..]. cbn [mbind comp_bind].
  destruct (parse_v6 ipv6) as [v6| |]; [|done..]. cbn [mbind comp_bind].
  destruct (apply_addrs _ _ _) as [i| |]; [|done..]. by intros [= <-].
Qed.

Lemma stack_run_app es1 es2 s :
  stack_run rx_buf app_queue (es1 ++ es2) s = (s1 ← stack_run rx_buf app_queue es1 s; stack_run rx_buf app_queue es2 s1).
Proof.
  revert s. induction es1 as [|e es1 IH]; intros s; [done|]. cbn [stack_run app].
  destruct (stack_step rx_buf app_queue e s) as [s1| |]; cbn [mbind comp_bind]; [apply IH|done..].
Qed.

Lemma stack_run_total `{!SmoltcpOk} `{!SmoltcpTotal} es s :
  bounded rx_buf s → ∃ s', stack_run rx_buf app_queue es s = Ok s' ∧ bounded rx_buf s'.
Proof.
  revert s. induction es as [|e es IH]; intros s Hb; cbn [stack_run]; [by eexists|].
  destruct (stack_step_total rx_buf app_queue e s Hb) as (s1 & -> & B1). by apply IH.
Qed.
End runs.

(** An open call is answered at most once: in any run of a stack that was
    just started, the answers to the call [t] and the connections that still
    hold its other end are together no more than the times it was made. *)
Theorem open_answered_once `{Smoltcp} {w : arch} (rx_buf app_queue out t : Z) (lim : TcpLimits) (ipv4 ipv6 : bytes)
  (es : list step) (s s' : NetStack)
  (Hspawn : spawn app_queue ipv4 ipv6 lim out = Ok s)
  (Hrun : stack_run rx_buf app_queue es s = Ok s') :
  answers t (log s') + debts t (cores s') ≤ opens t es.
Proof.
  apply (stack_run_account _ _ t) in Hrun. unfold account, cores in *.
  apply spawn_state in Hspawn as (Hc & Hl & _). by rewrite Hc, Hl in Hrun.
Qed.

(** C10. An open call is answered by its deadline: whatever happened before and
    happens between, when a TCP connection was asked for at the time [after]
    and its caller did not give up, the first round at or past the connect
    limit ends with the call answered, the stack still running. *)
Theorem open_answered_by_deadline `{Smoltcp} `{!SmoltcpOk} `{!SmoltcpTotal} {w : arch}
  (rx_buf app_queue out t : Z) (lim : TcpLimits) (ipv4 ipv6 : bytes) (dst : SocketAddr)
  (before between : list step) (now0 after now after' : Z) (k : wake) (s : NetStack)
  (Hspawn : spawn app_queue ipv4 ipv6 lim out = Ok s)
  (Hwaits : App (AppGivesUp t) ∉ between)
  (Hnow : after + connect_limit lim ≤ now) :
  ∃ s', stack_run rx_buf app_queue
      (before ++ Round now0 after (Command (OpenTcp t dst)) :: between ++ [Round now after' k]) s = Ok s' ∧
    1 ≤ answers t (log s').
Proof.
  apply spawn_state in Hspawn as (Hc & Hl & Hlim).
  assert (bounded rx_buf s) as Hb by (unfold bounded; by rewrite Hc).
  assert (sound lim s) as Hs.
  { unfold sound, cores. rewrite Hc, fmap_empty. split_and!; [by apply map_Forall_empty| |done].
    intros id [c Hid]. by rewrite lookup_empty in Hid. }
  destruct (stack_run_total rx_buf app_queue
    (before ++ Round now0 after (Command (OpenTcp t dst)) :: between ++ [Round now after' k]) s Hb) as (s' & E & _).
  exists s'. split; [done|]. rewrite stack_run_app in E.
  destruct (stack_run rx_buf app_queue before s) as [s1| |] eqn:E1; [|done..]. cbn [mbind comp_bind stack_run] in E.
  apply (stack_run_keeps _ _ lim t 0 0) in E1 as [Hs1 _]; [|done].
  destruct (stack_step rx_buf app_queue _ s1) as [s2| |] eqn:E2; [|done..]. cbn [mbind comp_bind] in E.
  apply (round_open_pledge _ _ lim) in E2 as (Hs2 & id & Hp); [|done]. rewrite stack_run_app in E.
  destruct (stack_run rx_buf app_queue between s2) as [s3| |] eqn:E3; [|done..]. cbn [mbind comp_bind stack_run] in E.
  apply (stack_run_keeps _ _ lim t (after + connect_limit lim) id) in E3 as [Hs3 Hp3]; [|done].
  specialize (Hp3 Hwaits Hp). cbn [stack_step] in E.
  destruct (round_start rx_buf now s3) as [[b s4]| |] eqn:E4; [|done..]. cbn [mbind comp_bind] in E.
  destruct (round_end rx_buf app_queue after' k s4) as [s5| |] eqn:E5; [|done..]. injection E as <-.
  pose proof (round_start_deadline _ _ _ _ _ _ _ _ _ E4 Hnow Hs3 Hp3) as Ha.
  apply round_end_grows, (grows_answers t) in E5. lia.
Qed.

(** With a connection open the stack sleeps at most a quarter of a second, so a
    round follows a deadline that soon. *)
Lemma sleeps_short `{Smoltcp} (busy : bool) (polled : option Z) (s : NetStack) (id : Z) :
  is_Some (tcp_conns s !! id) → ∃ d, sleep_for busy polled s = Some d ∧ d ≤ MAX_IDLE_TICK.
Proof.
  intros [st Hst]. unfold sleep_for, MAX_IDLE_TICK, BACKPRESSURE_RETRY. destruct busy; [by eexists|].
  rewrite bool_decide_eq_false_2 by (intros E; by rewrite E, lookup_empty in Hst). cbn [andb].
  destruct polled; cbn; eexists; (split; [done|lia]).
Qed.

(** ** A small smoltcp

    Sockets with a state, the room of their send buffer and what arrived.
    Packets are [id; code; payload]: 1 a SYN/ACK, 2 data, 3 a FIN, 4 an ACK
    that makes room and confirms a FIN.  Closing follows RFC 9293. *)
Module ToyStack.

Record toy_sock := mk_toy { t_state : TcpSt; t_room : Z; t_inbox : bytes }.

Definition toy_close (k : toy_sock) : toy_sock :=
  mk_toy (match t_state k with
          | SynSent | Listen => Closed
          | SynReceived | Established => FinWait1
          | CloseWait => LastAck
          | x => x
          end) (t_room k) (t_inbox k).

Definition toy_can_send (k : toy_sock) : bool :=
  (is_st (t_state k) Established || is_st (t_state k) CloseWait) && (t_room k >? 0).

Definition toy_send (data : bytes) (k : toy_sock) : Z * toy_sock :=
  let n := Z.max 0 (Z.min (t_room k) (blen data)) in (n, mk_toy (t_state k) (t_room k - n) (t_inbox k)).

Definition toy_packet (id : Z) (k : toy_sock) (pkt : bytes) : toy_sock :=
  match pkt with
  | i :: code :: payload =>
      if negb (i =? id) then k
      else if code =? 1 then
        if is_st (t_state k) SynSent then mk_toy Established (t_room k) (t_inbox k) else k
      else if code =? 2 then mk_toy (t_state k) (t_room k) (t_inbox k ++ payload)
      else if code =? 3 then
        mk_toy (match t_state k with Established => CloseWait | FinWait2 => TimeWait | x => x end) (t_room k) (t_inbox k)
      else mk_toy (match t_state k with LastAck => Closed | FinWait1 => FinWait2 | x => x end) 4 (t_inbox k)
  | _ => k
  end.

#[local] Instance toy : Smoltcp := {|
  tcp_sock := toy_sock;
  udp_sock := unit;
  tcp_new _ _ dst _ := if sa_port dst =? 0 then Err (lit "unaddressable") else Ok (mk_toy SynSent 4 []);
  tcp_state := t_state;
  tcp_can_send := toy_can_send;
  tcp_send_slice := toy_send;
  tcp_can_recv k := negb (is_empty (t_inbox k));
  tcp_recv k := (Some (t_inbox k), mk_toy (t_state k) (t_room k) []);
  tcp_close := toy_close;
  tcp_abort k := mk_toy Closed (t_room k) (t_inbox k);
  udp_new _ := Ok tt;
  udp_send_slice _ _ u := u;
  udp_can_recv _ := false;
  udp_recv u := (None, u);
  poll _ _ pkts _ _ := (false, [], [], λ id k, foldl (toy_packet id) k pkts, λ _ u, u);
|}.

#[local] Instance toy_ok : SmoltcpOk.
Proof. intros data k. cbn. pose proof (blen_nonneg data). lia. Qed.

#[local] Instance toy_total : SmoltcpTotal.
Proof. split; intros; cbn; [by destruct (_ =? _)|done]. Qed.

#[local] Instance toy_arch : arch := W64.

Definition toy_limits : TcpLimits := mk_limits 30000 60000 10000.
Definition toy_spawn (app_queue : Z) : NetStack :=
  match spawn app_queue (lit "172.16.0.2/32") [] toy_limits 16 with
  | Ok s => s
  | _ => mk_stack (mk_iface [] None None) [] [] ∅ ∅ 1 49152 toy_limits (mk_chan [] 0 false) [] (mk_chan [] 0 false) []
  end.
Definition toy_run (app_queue : Z) (es : list step) : NetStack :=
  match stack_run 65536 app_queue es (toy_spawn app_queue) with Ok s => s | _ => toy_spawn app_queue end.

Definition far : SocketAddr := SockAddr (V4 3232235777) 443.
Definition packets (now : Z) (p : list bytes) : step :=
  match p with [] => Round now now Slept | x :: l => Round now now (Inbound x l) end.

(** A connection: asked for, and its SYN/ACK. *)
Definition connected : list step := [Round 0 0 (Command (OpenTcp 7 far)); packets 10 [[1; 1]]; packets 11 []].

(** Six bytes written to it, of which the socket takes four at a time. *)
Definition upload : list step :=
  [App (AppSends (TcpData 1 [1; 2; 3; 4; 5; 6])); Round 20 20 DataReady; packets 21 [[1; 4]]; packets 22 []].

Lemma upload_in_order_witness :
  stream 1 (toy_run 4 (connected ++ upload)) = [1; 2; 3; 4; 5; 6] ∧
  stream 1 (toy_run 4 (connected ++ upload))
  = stream 1 (toy_run 4 connected) ++ written 65536 4 1 upload (toy_run 4 connected).
Proof.
  split; [vm_compute; reflexivity|].
  apply (upload_in_order 65536 4 1 upload (toy_run 4 connected) (toy_run 4 (connected ++ upload))).
  - vm_compute. reflexivity.
  - vm_compute. reflexivity.
  - vm_compute. by eexists.
Defined.

Lemma stack_bounded_witness :
  ∃ s', stack_run 65536 4 (connected ++ upload) (toy_spawn 4) = Ok s' ∧
    ∀ id st, tcp_conns s' !! id = Some st → blen (pending st) ≤ max_tcp_pending 65536.
Proof.
  apply (stack_bounded 65536 4 (connected ++ upload) (toy_spawn 4)).
  unfold bounded. apply map_Forall_empty.
Defined.

Lemma open_answered_once_witness :
  answers 7 (log (toy_run 4 (connected ++ upload))) = 1 ∧
  answers 7 (log (toy_run 4 (connected ++ upload))) + debts 7 (cores (toy_run 4 (connected ++ upload)))
    ≤ opens 7 (connected ++ upload).
Proof.
  split; [vm_compute; reflexivity|].
  apply (open_answered_once 65536 4 16 7 toy_limits (lit "172.16.0.2/32") [] (connected ++ upload) (toy_spawn 4));
    vm_compute; reflexivity.
Defined.

Lemma open_answered_by_deadline_witness :
  ∃ s', stack_run 65536 4
      ([] ++ Round 0 0 (Command (OpenTcp 7 far)) :: [packets 50 []] ++ [Round 30000 30000 Slept]) (toy_spawn 4) = Ok s' ∧
    1 ≤ answers 7 (log s').
Proof.
  apply (open_answered_by_deadline 65536 4 16 7 toy_limits (lit "172.16.0.2/32") [] far [] [packets 50 []] 0 0 30000 30000 Slept).
  - vm_compute. reflexivity.
  - apply not_elem_of_cons. split; [discriminate|apply not_elem_of_nil].
  - vm_compute. discriminate.
Defined.

(** ** What the end of a connection loses *)

Definition chunks_of (id : Z) (l : list seen) : list bytes :=
  omap (λ e, match e with ToApp i c => if i =? id then Some c else None | _ => None end) l.

(** The far end sends two chunks and closes; the application's queue holds one
    chunk and the application reads it only later.  The stack answers the FIN
    at once, and when the far end confirms it the connection is removed with
    the second chunk still unread: the download ends short, as a clean end. *)
Example slow_reader_truncated :
  let s := toy_run 1 (connected ++ [packets 20 [[1; 2; 65]]; packets 21 [[1; 2; 66]]; packets 22 [[1; 3]]; packets 23 [[1; 4]];
                                    packets 24 []; App (AppReads 1); packets 25 []]) in
  chunks_of 1 (log s) = [[65]] ∧ tcp_conns s !! 1 = None.
Proof. vm_compute. done. Qed.

(** The application writes six bytes to a connection whose far end has closed
    its direction: four are taken, and the close that follows leaves the
    other two where no round sends them; they go with the connection. *)
Example half_close_drops_upload :
  let s := toy_run 4 (connected ++ [App (AppSends (TcpData 1 [1; 2; 3; 4; 5; 6])); Round 20 20 DataReady;
                                    packets 21 [[1; 3]]; packets 22 [[1; 4]]; packets 23 []; packets 24 []]) in
  handed 1 (log s) = [1; 2; 3; 4] ∧ tcp_conns s !! 1 = None.
Proof. vm_compute. done. Qed.
End ToyStack.
