(* ===== verification/MasqueQuic.v ===== *)
(** * The MASQUE session over QUIC

    src/aether/src/quic.rs: the tunnel over HTTP/3 ([run]), the check of an
    endpoint ([verify_masque]), the version bait and the server name of the
    handshakes; of masque.rs the request.

    A QUIC connection and the HTTP/3 connection over it are an interface
    ([QuicLib]): opaque states with the operations the session calls.  The
    session is a state with the trace of what it did; an operation is a
    function on that state that may fail ([act]).  A turn of the loop is given
    the times it reads and the event its [select!] woke up for; the outcome of
    calls to the system (new sockets, proxies) comes with the event. *)

From stdpp Require Import strings gmap.
From S2P Require Import Prelude Text Net NetText Octets Masque Error Tls Dns Upstream Random Noize Fragment.

(** ** The request *)

Definition CF_CONNECT_PROTOCOL : bytes := lit "cf-connect-ip".

Definition connect_ip_request (authority path : bytes) : list (bytes * bytes) :=
  [(lit ":method", lit "CONNECT");
   (lit ":protocol", CF_CONNECT_PROTOCOL);
   (lit ":scheme", lit "https");
   (lit ":authority", authority);
   (lit ":path", path);
   (lit "user-agent", []);
   (lit "capsule-protocol", lit "?1")].

(** ** Settings *)

Definition MAX_DATAGRAM_SIZE : Z := 1350.
Definition MIN_DATAGRAM_SIZE : Z := 1200.

Definition validation_timeout (env : environment) : Z :=
  1000 * default 10
    (raw ← env (lit "AETHER_MASQUE_VALIDATE_SECS");
     v ← parse_u64 raw;
     if v >? 0 then Some (Z.min v 86400) else None).

Definition data_check_enabled (env : environment) : bool :=
  match env (lit "AETHER_MASQUE_NO_DATA_CHECK") with Some _ => false | None => true end.

Definition DATA_PROBE_REQUIRED_SUCCESSES : Z := 2.

Definition default_authority : bytes := lit "cloudflareaccess.com".
Definition default_path : bytes := lit "/".
Definition DEFAULT_MASQUE_SNI : bytes := lit "www.cloudflare.com".

Definition masque_sni_of (value : bytes) : comp AetherError bytes :=
  let value := trim value in
  if is_empty value then mret DEFAULT_MASQUE_SNI
  else
    let name := default value (strip_suffix [46] value) in
    if ends_with [46] name || bool_decide (is_Some (parse_ip name)) || negb (valid_domain name)
    then Err (ETls (lit "--masque-sni: " ++ value ++ lit " is no domain name"))
    else mret name.

Definition masque_sni (env : environment) : comp AetherError bytes :=
  masque_sni_of (default [] (env (lit "AETHER_MASQUE_SNI"))).

(** ** The version bait *)

Definition QUIC_V2_VERSION : Z := 0x6b3343cf.
Definition QUIC_V2_BAIT_LEN : Z := 1200.

Definition quic_v2_bait_enabled (env : environment) : bool :=
  match env (lit "AETHER_QUIC_V2") with
  | Some v => negb (bool_decide (v ∈ [lit "0"; lit "off"; lit "false"; lit "no"]))
  | None => true
  end.

Definition quic_varint2 (value : Z) : bytes :=
  be_bytes 2 (Z.lor (as_u16 (Z.land value 0x3fff)) 0x4000).

(** [pkt.resize(n, 0)]. *)
Definition resize (n : Z) (pkt : bytes) : bytes :=
  takez n pkt ++ replicate (Z.to_nat (n - blen pkt)) 0.

Definition build_version_bait : rnd bytes :=
  dcid ← fill_bytes 8;
  scid ← fill_bytes 8;
  let pkt := [0xc3] ++ be_bytes 4 QUIC_V2_VERSION ++ [as_u8 (blen dcid)] ++ dcid
    ++ [as_u8 (blen scid)] ++ scid ++ [0x00] in
  let remaining := QUIC_V2_BAIT_LEN - blen pkt - 2 in
  let pkt := pkt ++ quic_varint2 remaining in
  pn ← fill_bytes 4;
  mret (resize QUIC_V2_BAIT_LEN (pkt ++ pn)).

(** How an attempt with the bait went. *)
Inductive attempt := NotSent | Answered | RecvFailed | Unanswered.

(** The loop of [send_version_bait], [tries] rounds left: how many baits were
    sent.  An attempt the list does not tell of went unanswered. *)
Fixpoint bait_rounds (tries : nat) (as_ : list attempt) : nat :=
  match tries with
  | O => O
  | S tries =>
      match default Unanswered (head as_) with
      | NotSent => O
      | Answered | RecvFailed => 1
      | Unanswered => S (bait_rounds tries (tail as_))
      end
  end.

Definition send_version_bait (tries : nat) (as_ : list attempt) : rnd (list bytes) :=
  bait ← build_version_bait;
  mret (replicate (bait_rounds (Nat.max tries 1) as_) bait).

(** ** The QUIC connection the session drives *)

Inductive send_answer :=
| SendPacket (data : bytes) (from to : SocketAddr)
| SendDone
| SendErr (text : bytes).

Inductive poll_answer :=
| PolledHeaders (stream : Z) (list : list (bytes * bytes))
| PolledData (stream : Z)
| PolledFinished (stream : Z)
| PolledReset (stream code : Z)
| PolledOther (stream : Z)
| PolledDone
| PolledErr (text : bytes).

(** [quiche::Connection] with the TLS state in it, and [h3::Connection].  The
    errors of [send_ack_eliciting], [dgram_send], [recv] and [close] are
    logged or dropped; [dgram_recv] and [recv_body] are read until they give
    no more. *)
Class QuicLib := {
  quic : Type;
  h3 : Type;
  quiche_connect : bytes → bytes → SocketAddr → SocketAddr → option Z → comp AetherError quic;
  prepare_quic : quic → comp AetherError quic;
  set1_ech_config_list : bytes → quic → comp AetherError quic;
  ech_accepted : quic → bool;
  ech_rejected : quic → bool;
  get0_ech_retry_configs : quic → option bytes;
  is_established : quic → bool;
  is_draining : quic → bool;
  is_closed : quic → bool;
  send_ack_eliciting : quic → quic;
  dgram_send : bytes → quic → quic;
  dgram_recv : quic → option bytes * quic;
  recv_ : bytes → SocketAddr → SocketAddr → quic → quic;
  send_ : Z → quic → send_answer * quic;
  on_timeout : quic → quic;
  close_ : bytes → quic → quic;
  available_dcids : quic → Z;
  probe_path : SocketAddr → SocketAddr → quic → comp AetherError quic;
  migrate_source : SocketAddr → quic → comp AetherError quic;
  with_transport : quic → comp AetherError (h3 * quic);
  send_request : list (bytes * bytes) → h3 → quic → comp AetherError (Z * h3 * quic);
  poll : h3 → quic → poll_answer * h3 * quic;
  recv_body : Z → h3 → quic → option bytes * h3 * quic;
}.

(** How much a connection has ready: packets to send, datagrams and events to
    hand out, bytes of a body.  What the loops of the session rely on: each
    item taken leaves less, reading a body makes no events, and a datagram sent
    brings none in. *)
Class QuicQueues `{QuicLib} := {
  packets_left : quic → nat;
  dgrams_left : quic → nat;
  events_left : h3 → quic → nat;
  body_left : h3 → quic → nat;
  send_takes n c data from to c' :
    send_ n c = (SendPacket data from to, c') → (packets_left c' < packets_left c)%nat;
  dgram_recv_takes c d c' : dgram_recv c = (Some d, c') → (dgrams_left c' < dgrams_left c)%nat;
  poll_takes h c a h' c' :
    poll h c = (a, h', c') →
    (match a with PolledDone | PolledErr _ => True | _ => events_left h' c' < events_left h c end)%nat;
  recv_body_takes sid h c d h' c' :
    recv_body sid h c = (d, h', c') →
    (events_left h' c' ≤ events_left h c)%nat ∧
    (match d with Some d => d ≠ [] → body_left h' c' < body_left h c | None => True end)%nat;
  dgram_send_quiet d h c :
    (events_left h (dgram_send d c) ≤ events_left h c)%nat ∧
    (dgrams_left (dgram_send d c) ≤ dgrams_left c)%nat;
}.

(** ** The session *)

Record TunnelConfig := {
  cfg_peer : SocketAddr;
  cfg_sni : bytes;
  cfg_authority : bytes;
  cfg_path : bytes;
  cfg_ech : option bytes;
  cfg_max_datagram : Z;
  cfg_version_bait : bool;
  cfg_noize : NoizeConfig;
  cfg_probe : bytes;         (** [build_dns_probe_packet(cfg.local_ipv4)] *)
  cfg_data_check : bool;     (** [data_check_enabled()] *)
  cfg_validation : Z;        (** [validation_timeout()] *)
}.

Definition clamp (lo hi v : Z) : Z := Z.max lo (Z.min hi v).

Definition datagram_budget (cfg : TunnelConfig) : Z :=
  clamp MIN_DATAGRAM_SIZE MAX_DATAGRAM_SIZE (cfg_max_datagram cfg).

(** What a session does, in order. *)
Inductive out `{QuicLib} :=
| Connected (ech : option bytes) (c : quic)        (** a connection ready for its first packet *)
| Requested (c : quic) (sid : Z)                   (** the request went over [c], its handshake done *)
| Framed (framed : bytes)                          (** handed to [dgram_send] *)
| Offered (pkt : bytes)                            (** offered to the inbound queue *)
| Announced (a : AssignedAddr)                     (** offered to the address queue *)
| OnWire (local to : SocketAddr) (data : bytes)    (** sent by the socket [local] *)
| Ready                                            (** [ready_tx] fired *)
| Adopted (c : quic) (retry : bytes).              (** [tls::adopt_ech_retry], of what [c] was handed *)

(** What a socket says of a datagram it is to send, after what was done so far:
    [None] when it takes it. *)
Class SocketErrors `{QuicLib} := socket_error : list out → SocketAddr → SocketAddr → bytes → option bytes.

(** What belongs to one connection and starts afresh with the next. *)
Record Link `{QuicLib} := mk_link {
  conn : quic;
  h3_conn : option h3;
  req_stream : option Z;
  capsules : bytes;
}.

Arguments mk_link {_}.

Record Flags := mk_flags {
  established_ever : bool;
  ech_retried : bool;
  current_ech : option bytes;
  ready_fired : bool;
  ready_tx : bool;
  validate_deadline : option Z;
  validate_successes : Z;
  ctrl_open : bool;
  outbound_open : bool;
}.

(** The process around the session: its sockets and the guards of their
    detours, the registry of detours, the shared ECH key, the random draws. *)
Record World := mk_world {
  sockets : gset SocketAddr;
  guards : list (option (SocketAddr * Z));
  registry : detours;
  globals : ech_globals;
  draws : list Z;
}.

Record Session `{QuicLib} (Q AQ : Type) := mk_session {
  link : Link;
  flags : Flags;
  world : World;
  inbound_tx : Q;
  addr_tx : option AQ;
  outs : list out;
}.
Arguments mk_session {_ _ _}.
Arguments link {_ _ _}.
Arguments flags {_ _ _}.
Arguments world {_ _ _}.
Arguments inbound_tx {_ _ _}.
Arguments addr_tx {_ _ _}.
Arguments outs {_ _ _}.

(** An operation on a state: on an error it keeps what was done so far. *)
Definition act (S A : Type) : Type := S → comp AetherError A * S.

#[export] Instance act_ret {S} : MRet (act S) := λ A a s, (Ok a, s).
#[export] Instance act_bind {S} : MBind (act S) := λ A B f m s,
  match m s with
  | (Ok a, s) => f a s
  | (Err e, s) => (Err e, s)
  | (Panic, s) => (Panic, s)
  end.

Lemma run_bind {S A B} (m : act S A) (f : A → act S B) s :
  (m ≫= f) s = match m s with (Ok a, s) => f a s | (Err e, s) => (Err e, s) | (Panic, s) => (Panic, s) end.
Proof. done. Qed.

Lemma bind_assoc {S A B C} (m : act S A) (f : A → act S B) (g : B → act S C) s :
  (m ≫= λ a, f a ≫= g) s = ((m ≫= f) ≫= g) s.
Proof. rewrite !run_bind. by destruct (m s) as [[] s']. Qed.

Definition fail {S A} (e : AetherError) : act S A := λ s, (Err e, s).
Definition lift {S A} (m : comp AetherError A) : act S A := λ s, (m, s).
Definition get_s {S} : act S S := λ s, (Ok s, s).

Section connection.
Context `{QuicLib}.
Implicit Types l : Link.

Definition with_conn (c : quic) l : Link := mk_link c (h3_conn l) (req_stream l) (capsules l).
Definition with_h3 (c : quic) (h : h3) l : Link := mk_link c (Some h) (req_stream l) (capsules l).
Definition with_capsules (p : bytes) l : Link := mk_link (conn l) (h3_conn l) (req_stream l) p.

(** [inject_ech]. *)
Definition inject_ech (c : quic) (ech : bytes) : comp AetherError quic :=
  _ ← ensure_offerable ech;
  set1_ech_config_list ech c.

(** [connect]: the draws are those of [random_scid]; [budget] is the datagram
    size the configuration was given, if it was. *)
Definition connect (sni : bytes) (local peer : SocketAddr) (budget : option Z) (ech : option bytes)
    (ds : list Z) : comp AetherError quic * list Z :=
  let '(scid, ds) := fill_bytes 16 ds in
  ((c ← quiche_connect sni scid local peer budget;
    c ← prepare_quic c;
    match ech with Some ech => inject_ech c ech | None => mret c end), ds).

(** [tls::extract_ech_retry_configs]. *)
Definition extract_ech_retry_configs (c : quic) : option bytes :=
  retry ← get0_ech_retry_configs c; usable_retry retry.
End connection.

Section session.
Context `{QuicLib} `{!QuicQueues} `{errs : !SocketErrors} {Q AQ : Type} `{!Sender Q bytes, !Sender AQ AssignedAddr} {w : arch}.
Abbreviation Session := (Session Q AQ).
Abbreviation act := (act Session).
Implicit Types (s : Session) (l : Link).

(** The first entry of [sockets.iter()]: a [HashMap] does not say which. *)
Context (first_socket : gset SocketAddr → option SocketAddr).
Context (proxy : option Upstream).
Context (cfg : TunnelConfig).

Definition tell (o : out) : act () := λ s,
  (Ok tt, mk_session (link s) (flags s) (world s) (inbound_tx s) (addr_tx s) (outs s ++ [o])).
Definition set_link (l : Link) : act () := λ s,
  (Ok tt, mk_session l (flags s) (world s) (inbound_tx s) (addr_tx s) (outs s)).
Definition set_flags (f : Flags) : act () := λ s,
  (Ok tt, mk_session (link s) f (world s) (inbound_tx s) (addr_tx s) (outs s)).
Definition set_world (v : World) : act () := λ s,
  (Ok tt, mk_session (link s) (flags s) v (inbound_tx s) (addr_tx s) (outs s)).
Definition set_inbound (q : Q) : act () := λ s,
  (Ok tt, mk_session (link s) (flags s) (world s) q (addr_tx s) (outs s)).
Definition set_addr (q : option AQ) : act () := λ s,
  (Ok tt, mk_session (link s) (flags s) (world s) (inbound_tx s) q (outs s)).

(** A call that only changes the connection. *)
Definition on_conn (f : quic → quic) : act () :=
  s ← get_s; set_link (with_conn (f (conn (link s))) (link s)).

(** [let mut conn = connect(..)?], and the link of a new connection. *)
Definition new_link (local : SocketAddr) (ech : option bytes) : act () :=
  s ← get_s;
  let v := world s in
  let '(r, ds) := connect (cfg_sni cfg) local (cfg_peer cfg) (Some (datagram_budget cfg)) ech (draws v) in
  _ ← set_world (mk_world (sockets v) (guards v) (registry v) (globals v) ds);
  c ← lift r;
  _ ← set_link (mk_link c None None []);
  tell (Connected ech c).

(** [flush]: one packet, its socket and its target. *)
Definition flush_step (s : Session) : round Session (comp AetherError () * Session) :=
  let '(a, c) := send_ (datagram_budget cfg) (conn (link s)) in
  let s := (set_link (with_conn c (link s)) s).2 in
  match a with
  | SendPacket data from to =>
      let v := world s in
      let local := if bool_decide (from ∈ sockets v) then Some from else first_socket (sockets v) in
      match local with
      | Some local =>
          let target := relay_target (registry v) local to in
          match socket_error (outs s) local target data with
          | Some text => Done (Err (EIo text), s)
          | None => Next (tell (OnWire local target data) s).2
          end
      | None => Next s
      end
  | SendDone => Done (Ok tt, s)
  | SendErr text => Done (Err (EQuic text), s)
  end.

Definition flush : act () := λ s,
  loop (λ s, packets_left (conn (link s))) flush_step (Panic, s) s.

(** [drain_capsules]: assigned addresses are offered to the address queue,
    everything else is dropped. *)
Fixpoint announce_all (addrs : list AssignedAddress) : act () :=
  match addrs with
  | [] => mret tt
  | a :: rest =>
      ip ← lift (map_err (λ _, ECancelled) (bytes_to_ip (ip_version a) (address a)));
      s ← get_s;
      _ ← match ip, addr_tx s with
          | Some ip, Some tx =>
              let x := mk_addr ip (prefix_len a) in
              _ ← set_addr (Some (try_send x tx).2);
              tell (Announced x)
          | _, _ => mret tt
          end;
      announce_all rest
  end.

Definition capsules_step (s : Session) : round Session (comp AetherError () * Session) :=
  let '(answer, p) := next (capsules (link s)) in
  let s := (set_link (with_capsules p (link s)) s).2 in
  match answer with
  | Ok (Some (AddressAssign l)) =>
      match announce_all l s with
      | (Ok _, s) => Next s
      | (Err _, s) => Next s
      | (Panic, s) => Done (Panic, s)
      end
  | Ok (Some _) => Next s
  | Ok None | Err _ => Done (Ok tt, s)
  | Panic => Done (Panic, s)
  end.

Definition drain_capsules : act () := λ s,
  loop (λ s, length (capsules (link s))) capsules_step (Panic, s) s.

(** [while let Ok(n) = h3c.recv_body(..)]: the body read so far is pushed to
    the parser; an empty read or an error ends it. *)
Definition body_step (sid : Z) (st : h3 * quic * bytes) : round (h3 * quic * bytes) (h3 * quic * bytes) :=
  let '(h, c, p) := st in
  let '(d, h, c) := recv_body sid h c in
  match d with
  | Some [] | None => Done (h, c, p)
  | Some d => Next (h, c, push p d)
  end.

Definition read_body (sid : Z) (st : h3 * quic * bytes) : h3 * quic * bytes :=
  loop (λ st, body_left st.1.1 st.1.2) (body_step sid) st st.

(** [for h in &list]: the first status on the request's own stream that is
    none of success. *)
Fixpoint refused_status (same : bool) (list : list (bytes * bytes)) : option bytes :=
  match list with
  | [] => None
  | (name, value) :: list =>
      let status := from_utf8_lossy value in
      if list_eqb name (lit ":status") && same && negb (starts_with (lit "2") status) then Some status
      else refused_status same list
  end.

(** [{code:x}]. *)
Definition lower_hex_digit (d : Z) : Z := if d <? 10 then 48 + d else 87 + d.
Fixpoint lower_hex_go (fuel : nat) (v : Z) (acc : bytes) : bytes :=
  match fuel with
  | O => acc
  | S fuel =>
      let acc := lower_hex_digit (v mod 16) :: acc in
      if v / 16 =? 0 then acc else lower_hex_go fuel (v / 16) acc
  end.
Definition lower_hex (v : Z) : bytes := lower_hex_go 16 v [].

(** [poll_h3]: one event of the HTTP/3 connection. *)
Definition poll_step (sid : Z) (st : h3 * Session) : round (h3 * Session) (comp AetherError () * Session) :=
  let '(h, s) := st in
  let '(a, h, c) := poll h (conn (link s)) in
  let s := (set_link (with_h3 c h (link s)) s).2 in
  match a with
  | PolledHeaders stream list =>
      match refused_status (stream =? sid) list with
      | Some status =>
          Done (Err (EMasque (lit "the edge refused connect-ip with status " ++ status)), s)
      | None => Next (h, s)
      end
  | PolledData stream =>
      if negb (stream =? sid) then Next (h, s) else
      let '(h, c, p) := read_body stream (h, c, capsules (link s)) in
      let s := (set_link (with_capsules p (with_h3 c h (link s))) s).2 in
      match drain_capsules s with
      | (Ok _, s) => Next (h, s)
      | (Err e, s) => Done (Err e, s)
      | (Panic, s) => Done (Panic, s)
      end
  | PolledFinished stream =>
      if stream =? sid then Done (Err (EMasque (lit "the edge closed the connect-ip stream")), s)
      else Next (h, s)
  | PolledReset stream code =>
      if stream =? sid
      then Done (Err (EMasque (lit "the edge reset the connect-ip stream (code 0x" ++ lower_hex code ++ lit ")")), s)
      else Next (h, s)
  | PolledOther _ => Next (h, s)
  | PolledDone => Done (Ok tt, s)
  | PolledErr text => Done (Err (EH3 text), s)
  end.

Definition poll_h3 (sid : Z) (h : h3) : act () := λ s,
  loop (λ st, events_left st.1 (conn (link st.2))) (poll_step sid) (Panic, s) (h, s).

(** [drain_datagrams] on the request's stream: the state and whether a packet
    of the tunnel came. *)
Definition dgram_step (sid : Z) (st : bool * Session) : round (bool * Session) (comp AetherError bool * Session) :=
  let '(delivered, s) := st in
  let '(d, c) := dgram_recv (conn (link s)) in
  let s := (set_link (with_conn c (link s)) s).2 in
  match d with
  | None => Done (Ok delivered, s)
  | Some d =>
      match decode_ip_datagram d sid with
      | Ok (Some ip_packet) =>
          let '(r, q) := try_send ip_packet (inbound_tx s) in
          let s := (tell (Offered ip_packet) (set_inbound q s).2).2 in
          match r with Closed => Done (Ok true, s) | _ => Next (true, s) end
      | Ok None | Err _ => Next (delivered, s)
      | Panic => Done (Panic, s)
      end
  end.

Definition drain_datagrams : act bool := λ s,
  match req_stream (link s) with
  | None => (Ok false, s)
  | Some sid => loop (λ st, dgrams_left (conn (link st.2))) (dgram_step sid) (Panic, s) (false, s)
  end.

(** A packet framed for the request's stream and handed to [dgram_send]; with
    no stream yet it is dropped. *)
Definition frame_and_send (ip_packet : bytes) : act () :=
  s ← get_s;
  match req_stream (link s) with
  | None => mret tt
  | Some sid =>
      match encode_ip_datagram sid ip_packet with
      | Ok framed => _ ← on_conn (dgram_send framed); tell (Framed framed)
      | Err _ => mret tt
      | Panic => λ s, (Panic, s)
      end
  end.

(** ** The loop of [run] *)

(** What the system answers while a new socket is set up. *)
Record Setup := {
  su_bound : comp AetherError SocketAddr;                     (** [bind_udp_fast] and [local_addr] *)
  su_associated : Upstream → comp AetherError SocketAddr;
  su_shim : SocketAddr → comp AetherError SocketAddr;
}.

Inductive Control := Migrate (su : Setup) | CloseTunnel.

Inductive event :=
| Keepalive
| ProbeTick
| Net (to_local from : SocketAddr) (data : bytes)
| Ctrl (ctrl : option Control)
| Outbound (pkt : option bytes)
| Timeout.

(** The guards of the arms of [select!]: a disabled arm is not polled. *)
Definition enabled (f : Flags) (ev : event) : bool :=
  match ev with
  | ProbeTick => cfg_data_check cfg && negb (ready_fired f)
  | Ctrl _ => ctrl_open f
  | Outbound _ => outbound_open f
  | _ => true
  end.

Definition bind_addr_for (peer : SocketAddr) : SocketAddr :=
  if is_ipv4 (sa_ip peer) then WILDCARD_V4 else WILDCARD_V6.

(** A socket with its detour, as [run] and [do_migrate] set it up; the reader
    task it gets hands its datagrams to the loop as [Net] events. *)
Definition add_socket (su : Setup) (v : World) : comp AetherError SocketAddr * World :=
  match su_bound su with
  | Ok local =>
      let '(g, reg) := attach_detour proxy (cfg_peer cfg) (su_associated su) (Ok local) (su_shim su) (registry v) in
      match g with
      | Ok g => (Ok local, mk_world ({[local]} ∪ sockets v) (guards v ++ [g]) reg (globals v) (draws v))
      | Err e => (Err e, mk_world (sockets v) (guards v) reg (globals v) (draws v))
      | Panic => (Panic, mk_world (sockets v) (guards v) reg (globals v) (draws v))
      end
  | Err e => (Err e, v)
  | Panic => (Panic, v)
  end.

Definition do_migrate (su : Setup) : act () :=
  s ← get_s;
  if available_dcids (conn (link s)) =? 0 then fail (EOther (lit "no spare dcids for migration")) else
  let '(r, v) := add_socket su (world s) in
  _ ← set_world v;
  new_local ← lift r;
  s ← get_s;
  c ← lift (probe_path new_local (cfg_peer cfg) (conn (link s)));
  _ ← set_link (with_conn c (link s));
  c ← lift (migrate_source new_local c);
  set_link (with_conn c (link s)).

(** An error is logged; the loop goes on. *)
Definition logged (m : act ()) : act () := λ s,
  match m s with
  | (Ok _, s) | (Err _, s) => (Ok tt, s)
  | (Panic, s) => (Panic, s)
  end.

Definition set_ctrl_open (b : bool) (f : Flags) : Flags :=
  mk_flags (established_ever f) (ech_retried f) (current_ech f) (ready_fired f) (ready_tx f)
    (validate_deadline f) (validate_successes f) b (outbound_open f).
Definition set_outbound_open (b : bool) (f : Flags) : Flags :=
  mk_flags (established_ever f) (ech_retried f) (current_ech f) (ready_fired f) (ready_tx f)
    (validate_deadline f) (validate_successes f) (ctrl_open f) b.
Definition set_established (f : Flags) : Flags :=
  mk_flags true (ech_retried f) (current_ech f) (ready_fired f) (ready_tx f)
    (validate_deadline f) (validate_successes f) (ctrl_open f) (outbound_open f).
Definition set_deadline (d : option Z) (f : Flags) : Flags :=
  mk_flags (established_ever f) (ech_retried f) (current_ech f) (ready_fired f) (ready_tx f)
    d (validate_successes f) (ctrl_open f) (outbound_open f).
Definition set_successes (n : Z) (f : Flags) : Flags :=
  mk_flags (established_ever f) (ech_retried f) (current_ech f) (ready_fired f) (ready_tx f)
    (validate_deadline f) n (ctrl_open f) (outbound_open f).
Definition set_ready (f : Flags) : Flags :=
  mk_flags (established_ever f) (ech_retried f) (current_ech f) true false
    (validate_deadline f) (validate_successes f) (ctrl_open f) (outbound_open f).
Definition set_retried (retry : bytes) (f : Flags) : Flags :=
  mk_flags (established_ever f) true (Some retry) (ready_fired f) (ready_tx f)
    (validate_deadline f) (validate_successes f) (ctrl_open f) (outbound_open f).

(** The event of a turn. *)
Definition handle (ev : event) : act () :=
  match ev with
  | Keepalive =>
      s ← get_s;
      if is_established (conn (link s)) then on_conn send_ack_eliciting else mret tt
  | ProbeTick => frame_and_send (cfg_probe cfg)
  | Net to_local from data => on_conn (recv_ data from to_local)
  | Ctrl (Some (Migrate su)) => logged (do_migrate su)
  | Ctrl (Some CloseTunnel) | Ctrl None =>
      s ← get_s;
      _ ← set_flags (set_ctrl_open false (flags s));
      on_conn (close_ (lit "bye"))
  | Outbound (Some ip_packet) => frame_and_send ip_packet
  | Outbound None =>
      s ← get_s;
      _ ← set_flags (set_outbound_open false (flags s));
      on_conn (close_ (lit "eof"))
  | Timeout => on_conn on_timeout
  end.

(** [ready_tx.take()]: whoever waits is told once. *)
Definition fire_ready : act () :=
  s ← get_s;
  _ ← set_flags (set_ready (flags s));
  if ready_tx (flags s) then tell Ready else mret tt.

Definition validation_error : AetherError :=
  EMasque (lit "data-plane validation timeout (handshake ok, no traffic)").
Definition without_ech : AetherError := EEch (lit "the handshake went without ECH").

(** The validation deadline, at the top of a turn. *)
Definition check_deadline (now : Z) : act () :=
  s ← get_s;
  match validate_deadline (flags s) with
  | Some dl =>
      if cfg_data_check cfg && negb (ready_fired (flags s)) && (dl <=? now) then
        _ ← on_conn (close_ (lit "validation-timeout"));
        fail validation_error
      else mret tt
  | None => mret tt
  end.

(** The handshake is done: the HTTP/3 connection and the request. *)
Definition open_request (now : Z) : act () :=
  s ← get_s;
  let c := conn (link s) in
  if is_established c && bool_decide (h3_conn (link s) = None) then
    if bool_decide (current_ech (flags s) ≠ None) && negb (ech_accepted c) then fail without_ech else
    _ ← set_flags (set_established (flags s));
    '(h, c1) ← lift (with_transport c);
    _ ← set_link (with_conn c1 (link s));
    '(sid, h, c2) ← lift (send_request (connect_ip_request (cfg_authority cfg) (cfg_path cfg)) h c1);
    _ ← set_link (mk_link c2 (Some h) (Some sid) (capsules (link s)));
    _ ← tell (Requested c sid);
    s ← get_s;
    if cfg_data_check cfg then set_flags (set_deadline (Some (now + cfg_validation cfg)) (flags s))
    else if negb (ready_fired (flags s)) then fire_ready else mret tt
  else mret tt.

(** A turn in which packets came confirms a round trip. *)
Definition confirm (got_data : bool) : act () :=
  s ← get_s;
  if got_data && negb (ready_fired (flags s)) then
    let n := validate_successes (flags s) + 1 in
    _ ← set_flags (set_successes n (flags s));
    if n >=? DATA_PROBE_REQUIRED_SUCCESSES then
      s ← get_s;
      _ ← set_flags (set_deadline None (flags s));
      fire_ready
    else mret tt
  else mret tt.

(** The retry with the key the server handed back: whether it was made. *)
Definition retry_ech (local : SocketAddr) : act bool :=
  s ← get_s;
  let c := conn (link s) in let f := flags s in
  if (is_draining c || is_closed c) && negb (established_ever f) && negb (ech_retried f)
     && bool_decide (current_ech f ≠ None) && ech_rejected c then
    match extract_ech_retry_configs c with
    | Some retry =>
        let v := world s in
        _ ← set_world (mk_world (sockets v) (guards v) (registry v) (adopt_ech_retry retry (globals v)) (draws v));
        _ ← tell (Adopted c retry);
        _ ← set_flags (set_retried retry f);
        _ ← new_link local (Some retry);
        _ ← flush;
        mret true
    | None => mret false
    end
  else mret false.

Record Turn := mk_turn { t_top : Z; t_event : event; t_after : Z }.

(** One turn of the loop; [true] when another follows. *)
Definition turn (local : SocketAddr) (t : Turn) : act bool :=
  _ ← check_deadline (t_top t);
  _ ← handle (t_event t);
  _ ← open_request (t_after t);
  s ← get_s;
  _ ← match h3_conn (link s), req_stream (link s) with
      | Some h, Some sid => poll_h3 sid h
      | _, _ => mret tt
      end;
  got_data ← drain_datagrams;
  _ ← confirm got_data;
  _ ← flush;
  retried ← retry_ech local;
  if (retried : bool) then mret true
  else s ← get_s; mret (negb (is_closed (conn (link s)))).

(** The turns of a session; a disabled event is left where it is. *)
Fixpoint turns (local : SocketAddr) (ts : list Turn) : act () :=
  match ts with
  | [] => mret tt
  | t :: ts =>
      s ← get_s;
      if enabled (flags s) (t_event t) then
        more ← turn local t;
        if (more : bool) then turns local ts else mret tt
      else turns local ts
  end.

Definition initial_flags : Flags :=
  mk_flags false false (cfg_ech cfg) false true None 0 true true.

(** Everything before the loop: the first socket, the version bait, the
    connection and the junk before its handshake.  [built] is the outcome of
    [tls::build_config], [attempts] how the baits fared. *)
Definition start `{HexCrate} (env : environment) (su : Setup) (attempts : list attempt) (built : comp AetherError ())
    (now : Z) (v : World) (q : Q) (aq : option AQ) : comp AetherError (SocketAddr * Session) :=
  let '(r, v) := add_socket su v in
  local ← r;
  let target := relay_target (registry v) local (cfg_peer cfg) in
  let '(baits, ds) :=
    if cfg_version_bait cfg && quic_v2_bait_enabled env then send_version_bait 2 attempts (draws v)
    else ([], draws v) in
  _ ← built;
  let '(c, ds) := connect (cfg_sni cfg) local (cfg_peer cfg) (Some (datagram_budget cfg)) (cfg_ech cfg) ds in
  c ← c;
  '(junk, ds) ← map_err (λ _, ECancelled) (pre_handshake (cfg_noize cfg) now ds);
  mret (local,
    mk_session (mk_link c None None []) initial_flags
      (mk_world (sockets v) (guards v) (registry v) (globals v) ds) q aq
      (map (OnWire local target) baits ++ [Connected (cfg_ech cfg) c] ++ map (OnWire local target) junk)).

(** [run]: the session it ends with, and the registry once its guards are
    dropped. *)
Definition run `{HexCrate} (env : environment) (su : Setup) (attempts : list attempt) (built : comp AetherError ())
    (now : Z) (ts : list Turn) (v : World) (q : Q) (aq : option AQ)
    : comp AetherError (comp AetherError () * Session * detours) :=
  '(local, s) ← start env su attempts built now v q aq;
  let '(r, s) := (_ ← flush; turns local ts) s in
  mret (r, s, foldr drop_guard (registry (world s)) (guards (world s))).
End session.

(** ** The check of an endpoint *)

Record VerifyParams := {
  vp_peer : SocketAddr;
  vp_sni : bytes;
  vp_authority : bytes;
  vp_path : bytes;
  vp_ech : option bytes;
  vp_noize : NoizeConfig;
  vp_timeout : Z;
  vp_probe : bytes;          (** [build_dns_probe_packet(p.local_ipv4)] *)
  vp_data_check : bool;      (** [data_check_enabled()] *)
}.

Record Check `{QuicLib} := mk_check {
  k_link : Link;
  connect_ip_ok : bool;
  last_probe : Z;
  probe_successes : Z;
  k_retried : bool;
  k_globals : ech_globals;
  k_draws : list Z;
  k_outs : list out;
}.
Arguments mk_check {_}.

(** What the check waits for. *)
Inductive check_event :=
| CRecv (data : bytes)
| CRecvErr (text : bytes)
| CTimeout.

Section check.
Context `{QuicLib} `{!QuicQueues} `{errs : !SocketErrors} {w : arch}.
Context (p : VerifyParams) (local target : SocketAddr) (start_ : Z).
Abbreviation act := (act Check).
Implicit Types (k : Check) (now : Z).

Definition k_tell (o : out) k : Check :=
  mk_check (k_link k) (connect_ip_ok k) (last_probe k) (probe_successes k) (k_retried k) (k_globals k)
    (k_draws k) (k_outs k ++ [o]).
Definition k_set_link (l : Link) k : Check :=
  mk_check l (connect_ip_ok k) (last_probe k) (probe_successes k) (k_retried k) (k_globals k)
    (k_draws k) (k_outs k).
Definition k_probed (now : Z) k : Check :=
  mk_check (k_link k) (connect_ip_ok k) now (probe_successes k) (k_retried k) (k_globals k)
    (k_draws k) (k_outs k).
Definition k_accept k : Check :=
  mk_check (k_link k) true (last_probe k) (probe_successes k) (k_retried k) (k_globals k)
    (k_draws k) (k_outs k).
Definition k_success k : Check :=
  mk_check (k_link k) (connect_ip_ok k) (last_probe k) (probe_successes k + 1) (k_retried k) (k_globals k)
    (k_draws k) (k_outs k).
Definition k_conn k : quic := conn (k_link k).

(** [flush_connected]. *)
Definition k_flush_step (k : Check) : round Check (comp AetherError () * Check) :=
  let '(a, c) := send_ MAX_DATAGRAM_SIZE (k_conn k) in
  let k := k_set_link (with_conn c (k_link k)) k in
  match a with
  | SendPacket data _ _ =>
      match socket_error (k_outs k) local target data with
      | Some text => Done (Err (EIo text), k)
      | None => Next (k_tell (OnWire local target data) k)
      end
  | SendDone => Done (Ok tt, k)
  | SendErr text => Done (Err (EQuic text), k)
  end.
Definition flush_connected : act () := λ k,
  loop (λ k, packets_left (k_conn k)) k_flush_step (Panic, k) k.

(** A probe framed for the stream [sid] and sent. *)
Definition send_probe (sid now : Z) : act () := λ k,
  match encode_ip_datagram sid (vp_probe p) with
  | Ok framed =>
      (Ok tt, k_probed now (k_tell (Framed framed) (k_set_link (with_conn (dgram_send framed (k_conn k)) (k_link k)) k)))
  | Err _ => (Ok tt, k_probed now k)
  | Panic => (Panic, k)
  end.

(** The statuses of one header list; [true] ends the check: the request was
    taken and no data check is asked for. *)
Fixpoint statuses (sid now : Z) (list : list (bytes * bytes)) : act bool :=
  match list with
  | [] => mret false
  | (name, value) :: list =>
      if negb (list_eqb name (lit ":status")) then statuses sid now list
      else if negb (list_eqb value (lit "200")) then fail (EOther (lit "status " ++ from_utf8_lossy value))
      else if negb (vp_data_check p) then mret true
      else
        _ ← (λ k, (Ok tt, k_accept k));
        _ ← send_probe sid now;
        statuses sid now list
  end.

Definition k_poll_step (sid now : Z) (st : h3 * Check) : round (h3 * Check) (comp AetherError bool * Check) :=
  let '(h, k) := st in
  let '(a, h, c) := poll h (k_conn k) in
  let k := k_set_link (with_h3 c h (k_link k)) k in
  match a with
  | PolledHeaders stream list =>
      if stream =? sid then
        match statuses sid now list k with
        | (Ok false, k) => Next (h, k)
        | (r, k) => Done (r, k)
        end
      else Next (h, k)
  | PolledDone => Done (Ok false, k)
  | PolledErr text => Done (Err (EH3 text), k)
  | _ => Next (h, k)
  end.

Definition k_poll (sid now : Z) (h : h3) : act bool := λ k,
  loop (λ st, events_left st.1 (k_conn st.2)) (k_poll_step sid now) (Panic, k) (h, k).

(** The datagrams that came: the second packet of the tunnel ends the check,
    the first is answered with another probe. *)
Definition k_dgram_step (sid now : Z) (k : Check) : round Check (comp AetherError bool * Check) :=
  let '(d, c) := dgram_recv (k_conn k) in
  let k := k_set_link (with_conn c (k_link k)) k in
  match d with
  | None => Done (Ok false, k)
  | Some d =>
      match decode_ip_datagram d sid with
      | Ok (Some pkt) =>
          let k := k_tell (Offered pkt) (k_success k) in
          if probe_successes k >=? DATA_PROBE_REQUIRED_SUCCESSES then Done (Ok true, k)
          else
            match send_probe sid now k with
            | (Ok _, k) => Next k
            | (Err e, k) => Done (Err e, k)
            | (Panic, k) => Done (Panic, k)
            end
      | Ok None | Err _ => Next k
      | Panic => Done (Panic, k)
      end
  end.

Definition k_datagrams (sid now : Z) : act bool := λ k,
  loop (λ k, dgrams_left (k_conn k)) (k_dgram_step sid now) (Panic, k) k.

(** The data plane: a probe every 700 milliseconds, and the answers. *)
Definition k_data (now : Z) : act bool := λ k,
  match req_stream (k_link k) with
  | None => (Ok false, if now - last_probe k >=? 700 then k_probed now k else k)
  | Some sid =>
      (_ ← (if now - last_probe k >=? 700 then send_probe sid now else mret tt);
       k_datagrams sid now) k
  end.

Definition k_event (ev : check_event) : act () := λ k,
  match ev with
  | CRecv data => (Ok tt, k_set_link (with_conn (recv_ data (vp_peer p) local (k_conn k)) (k_link k)) k)
  | CRecvErr text => (Err (EIo text), k)
  | CTimeout => (Ok tt, k_set_link (with_conn (on_timeout (k_conn k)) (k_link k)) k)
  end.

Definition k_open_request : act () := λ k,
  let c := k_conn k in
  if is_established c && bool_decide (h3_conn (k_link k) = None) then
    if bool_decide (vp_ech p ≠ None) && negb (ech_accepted c) then (Err without_ech, k) else
    match with_transport c with
    | Ok (h, c1) =>
        match send_request (connect_ip_request (vp_authority p) (vp_path p)) h c1 with
        | Ok (sid, h, c2) =>
            (Ok tt, k_tell (Requested c sid) (k_set_link (mk_link c2 (Some h) (Some sid) []) k))
        | Err e => (Err e, k)
        | Panic => (Panic, k)
        end
    | Err e => (Err e, k)
    | Panic => (Panic, k)
    end
  else (Ok tt, k).

Definition k_retry : act bool := λ k,
  let c := k_conn k in
  if (is_draining c || is_closed c) && negb (k_retried k) && ech_rejected c then
    match extract_ech_retry_configs c with
    | Some retry =>
        let '(r, ds) := connect (vp_sni p) local (vp_peer p) None (Some retry) (k_draws k) in
        let k := mk_check (k_link k) (connect_ip_ok k) (last_probe k) (probe_successes k) true
                   (adopt_ech_retry retry (k_globals k)) ds (k_outs k ++ [Adopted c retry]) in
        match r with
        | Ok c =>
            (_ ← flush_connected; mret true)
              (k_tell (Connected (Some retry) c) (k_set_link (mk_link c None None []) k))
        | Err e => (Err e, k)
        | Panic => (Panic, k)
        end
    | None => (Ok false, k)
    end
  else (Ok false, k).

Definition verify_timeout : AetherError := EOther (lit "verify timeout").
Definition closed_early : AetherError := EOther (lit "closed before data-plane confirmation").

(** One turn of the loop: the time the check took when it is over. *)
Definition check_turn (top : Z) (ev : check_event) (after : Z) : act (option Z) :=
  _ ← (if top >=? start_ + vp_timeout p then fail verify_timeout else mret tt);
  _ ← k_event ev;
  _ ← k_open_request;
  k ← get_s;
  done_ ← match h3_conn (k_link k), req_stream (k_link k) with
          | Some h, Some sid => k_poll sid after h
          | _, _ => mret false
          end;
  if (done_ : bool) then mret (Some (after - start_)) else
  k ← get_s;
  done_ ← (if connect_ip_ok k then k_data after else mret false);
  if (done_ : bool) then mret (Some (after - start_)) else
  _ ← flush_connected;
  retried ← k_retry;
  if (retried : bool) then mret None else
  k ← get_s;
  if is_closed (k_conn k) then fail closed_early else mret None.

(** The loop; [None] while it waits for more. *)
Fixpoint check_turns (ts : list (Z * check_event * Z)) : act (option Z) :=
  match ts with
  | [] => mret None
  | (top, ev, after) :: ts =>
      r ← check_turn top ev after;
      match r with Some d => mret (Some d) | None => check_turns ts end
  end.
End check.

(** [verify_masque] once its socket is connected to [target]. *)
Definition verify_masque `{QuicLib} `{!QuicQueues} `{errs : !SocketErrors} `{HexCrate} {w : arch} (p : VerifyParams) (env : environment)
    (local target : SocketAddr) (built : comp AetherError ()) (attempts : list attempt) (now : Z)
    (ts : list (Z * check_event * Z)) (g : ech_globals) (ds : list Z)
    : comp AetherError (comp AetherError (option Z) * Check) :=
  _ ← built;
  let '(c, ds) := connect (vp_sni p) local (vp_peer p) None (vp_ech p) ds in
  c ← c;
  let '(baits, ds) := if quic_v2_bait_enabled env then send_version_bait 1 attempts ds else ([], ds) in
  '(junk, ds) ← map_err (λ _, ECancelled) (pre_handshake (vp_noize p) now ds);
  mret ((_ ← flush_connected local target; check_turns p local target now ts)
    (mk_check (mk_link c None None []) false now 0 false g ds
       (Connected (vp_ech p) c :: map (OnWire local target) (baits ++ junk)))).

Lemma run_on_conn `{QuicLib} {Q AQ} f (s : Session Q AQ) :
  on_conn f s = (Ok tt, mk_session (with_conn (f (conn (link s))) (link s)) (flags s) (world s)
                   (inbound_tx s) (addr_tx s) (outs s)).
Proof. done. Qed.

(** Runs the head of a sequence of operations on a state. *)
Ltac srun := repeat first [rewrite run_bind | rewrite run_on_conn | progress
  cbn [mret act_ret fst snd lift get_s fail tell set_link set_flags set_world set_inbound set_addr on_conn
       with_conn with_h3 with_capsules link flags world inbound_tx addr_tx outs conn h3_conn req_stream capsules]].

(** ** The loops end *)

(** An invariant of the rounds of a loop holds of its answer. *)
Lemma loop_keeps {S R} (m : S → nat) (step : S → round S R) (I : S → Prop) (P : R → Prop) d s :
  I s → P d →
  (∀ s s', I s → step s = Next s' → I s') → (∀ s r, I s → step s = Done r → P r) →
  P (loop m step d s).
Proof.
  intros Hs Hd Hn Hr. unfold loop. generalize (Datatypes.S (m s)) as n. intros n.
  revert s Hs. induction n as [|n IH]; intros s Hs; cbn; [done|].
  destruct (step s) eqn:E; [apply IH|]; eauto.
Qed.

Section ends.
Context `{QuicLib} `{!QuicQueues} `{errs : !SocketErrors} {Q AQ : Type} `{!Sender Q bytes, !Sender AQ AssignedAddr} {w : arch}.
Context (first_socket : gset SocketAddr → option SocketAddr).
Context (cfg : TunnelConfig).

#[export] Instance flush_decreasing :
  Decreasing (λ s : Session Q AQ, packets_left (conn (link s))) (flush_step first_socket cfg).
Proof.
  intros s s'. unfold flush_step. destruct (send_ _ _) as [a c] eqn:E.
  destruct a as [data from to| |]; [|done..]. apply send_takes in E. cbn.
  destruct (if bool_decide _ then _ else _); [destruct (socket_error _ _ _ _); [done|]|]; intros [= <-]; done.
Qed.

#[export] Instance body_decreasing sid : Decreasing (λ st, body_left st.1.1 st.1.2) (body_step sid).
Proof.
  intros [[h c] p] s'. unfold body_step. destruct (recv_body sid h c) as [[d h'] c'] eqn:E.
  apply recv_body_takes in E as [_ E]. destruct d as [[|b d]|]; [done| |done].
  intros [= <-]. by apply E.
Qed.

Lemma read_body_events sid h c p h' c' p' :
  read_body sid (h, c, p) = (h', c', p') → (events_left h' c' ≤ events_left h c)%nat.
Proof.
  set (P := λ st : h3 * quic * bytes, (events_left st.1.1 st.1.2 ≤ events_left h c)%nat).
  intros E. enough (P (read_body sid (h, c, p))) as HP by (rewrite E in HP; done).
  apply (loop_keeps _ _ P P); unfold P; [cbn; lia..| |];
    intros [[h1 c1] p1] r; cbn [fst snd]; intros Hs; unfold body_step;
    destruct (recv_body sid h1 c1) as [[d h2] c2] eqn:E2; apply recv_body_takes in E2 as [E2 _];
    destruct d as [[|b d]|]; intros [= <-]; cbn; lia.
Qed.

Lemma announce_all_link addrs (s : Session Q AQ) :
  link (announce_all addrs s).2 = link s ∧ flags (announce_all addrs s).2 = flags s.
Proof.
  revert s. induction addrs as [|a addrs IH]; intros s; [done|].
  cbn [announce_all]. srun.
  destruct (map_err _ _) as [ip|e|]; [|done..]. srun.
  destruct ip as [ip|]; [destruct (addr_tx s)|]; srun;
    match goal with |- context [announce_all addrs ?x] => exact (IH x) end.
Qed.

#[export] Instance capsules_decreasing :
  Decreasing (λ s : Session Q AQ, length (capsules (link s))) capsules_step.
Proof.
  intros s s'. unfold capsules_step. destruct (next (capsules (link s))) as [[[c|]|e|] p] eqn:E; [|done..].
  apply next_shrinks in E. destruct c as [l| | | |]; cbn; try (by intros [= <-]).
  match goal with |- context [announce_all l ?x] => destruct (announce_all_link l x) as [Hl _];
    destruct (announce_all l x) as [[] s1] end; [| |done]; intros [= <-]; cbn [snd] in Hl; by rewrite Hl.
Qed.
End ends.

(** ** What an operation leaves alone

    [moved O s s']: the flags, the request and whether there is an HTTP/3
    connection are as they were, and what was done is in [O]. *)
Section moved.
Context `{QuicLib} {Q AQ : Type}.
Implicit Types s : Session Q AQ.

Definition moved (O : out → Prop) s s' : Prop :=
  flags s' = flags s ∧ req_stream (link s') = req_stream (link s) ∧
  (h3_conn (link s') = None ↔ h3_conn (link s) = None) ∧
  ∃ l, outs s' = outs s ++ l ∧ Forall O l.

Lemma moved_refl O s : moved O s s.
Proof. split_and!; [done..|]. exists []. by rewrite app_nil_r. Qed.

Lemma moved_trans (O : out → Prop) s1 s2 s3 : moved O s1 s2 → moved O s2 s3 → moved O s1 s3.
Proof.
  intros (F1 & R1 & H1 & l1 & E1 & A1) (F2 & R2 & H2 & l2 & E2 & A2).
  split_and!; [congruence..|tauto|]. exists (l1 ++ l2). rewrite E2, E1, app_assoc. by split; [|apply Forall_app].
Qed.

Lemma moved_weaken (O P : out → Prop) s s' : (∀ o, O o → P o) → moved O s s' → moved P s s'.
Proof.
  intros HP (F & R & Hh & l & E & A). split_and!; [done..|]. exists l. split; [done|].
  by eapply Forall_impl.
Qed.

(** A state with the same flags and request and one more deed, or none. *)
Lemma moved_by (O : out → Prop) s s' l :
  flags s' = flags s → req_stream (link s') = req_stream (link s) →
  (h3_conn (link s') = None ↔ h3_conn (link s) = None) → outs s' = outs s ++ l → Forall O l →
  moved O s s'.
Proof. intros. split_and!; eauto. Qed.
End moved.

Ltac moved_now l := apply (moved_by _ _ _ l); cbn; rewrite ?app_nil_r; try done; try (by repeat constructor).

Section moves.
Context `{QuicLib} `{!QuicQueues} `{errs : !SocketErrors} {Q AQ : Type} `{!Sender Q bytes, !Sender AQ AssignedAddr} {w : arch}.
Context (first_socket : gset SocketAddr → option SocketAddr) (proxy : option Upstream).
Context (cfg : TunnelConfig).
Implicit Types s : Session Q AQ.

Definition is_wire (o : out) : Prop := match o with OnWire _ _ _ => True | _ => False end.
Definition is_announce (o : out) : Prop := match o with Announced _ => True | _ => False end.
Definition is_offer (o : out) : Prop := match o with Offered _ => True | _ => False end.
Definition is_frame (o : out) : Prop := match o with Framed _ => True | _ => False end.

Lemma flush_moved s : moved is_wire s (flush first_socket cfg s).2.
Proof.
  unfold flush. apply (loop_keeps _ _ (moved is_wire s) (λ r, moved is_wire s r.2)); [apply moved_refl..| |].
  - intros s1 s2 Hs. unfold flush_step. destruct (send_ _ _) as [[data from to| |] c]; [|done..].
    cbn. destruct (if bool_decide _ then _ else _); [destruct (socket_error _ _ _ _); [done|]|]; intros [= <-];
      (eapply moved_trans; [exact Hs|]); [moved_now [OnWire s0 (relay_target (registry (world s1)) s0 to) data]|moved_now (@nil out)].
  - intros s1 r Hs. unfold flush_step. destruct (send_ _ _) as [[data from to| |] c];
      [cbn; destruct (if bool_decide _ then _ else _); [destruct (socket_error _ _ _ _); [|done]|done]|..];
      intros [= <-]; (eapply moved_trans; [exact Hs|]); moved_now (@nil out).
Qed.

Lemma announce_all_moved addrs s : moved is_announce s (announce_all addrs s).2.
Proof.
  revert s. induction addrs as [|a addrs IH]; intros s; [apply moved_refl|].
  cbn [announce_all]. srun.
  destruct (map_err _ _) as [ip|e|]; [|apply moved_refl..]. srun.
  destruct ip as [ip|]; [destruct (addr_tx s)|]; srun;
    match goal with |- context [announce_all addrs ?x] => eapply moved_trans; [|exact (IH x)] end;
    [eapply moved_by|apply moved_refl..]; cbn; try done. by repeat constructor.
Qed.

Lemma drain_capsules_moved s : moved is_announce s (drain_capsules s).2.
Proof.
  unfold drain_capsules.
  apply (loop_keeps _ _ (moved is_announce s) (λ r, moved is_announce s r.2)); [apply moved_refl..| |];
    intros s1 s2 Hs; unfold capsules_step; destruct (next (capsules (link s1))) as [a p];
    set (s3 := (set_link _ s1).2); assert (moved is_announce s s3) as H3
      by (eapply moved_trans; [exact Hs|]; moved_now (@nil out));
    destruct a as [[[l| | | |]|]|e|]; try done; try (by intros [= <-]);
    pose proof (announce_all_moved l s3) as Hl; destruct (announce_all l s3) as [[] s4];
    try done; intros [= <-]; by eapply moved_trans.
Qed.

Lemma drain_capsules_conn s : conn (link (drain_capsules s).2) = conn (link s).
Proof.
  unfold drain_capsules.
  apply (loop_keeps _ _ (λ s1, conn (link s1) = conn (link s)) (λ r, conn (link r.2) = conn (link s))); [done..| |];
    intros s1 s2 Hs; unfold capsules_step; destruct (next (capsules (link s1))) as [a p];
    set (s3 := (set_link _ s1).2); assert (conn (link s3) = conn (link s)) as H3 by done;
    destruct a as [[[l| | | |]|]|e|]; try done; try (by intros [= <-]);
    pose proof (proj1 (announce_all_link l s3)) as Hl; destruct (announce_all l s3) as [[] s4];
    try done; intros [= <-]; cbn [snd] in *; by rewrite Hl.
Qed.

Lemma poll_h3_moved sid h s :
  h3_conn (link s) ≠ None → moved is_announce s (poll_h3 sid h s).2.
Proof.
  intros Hh. unfold poll_h3.
  apply (loop_keeps _ _ (λ st, moved is_announce s st.2) (λ r, moved is_announce s r.2)); [apply moved_refl..| |];
    intros [h1 s1] r; cbn [snd]; intros Hs; unfold poll_step; destruct (poll h1 (conn (link s1))) as [[a h2] c2];
    set (s3 := (set_link _ s1).2); (assert (moved is_announce s s3) as H3
      by (eapply moved_trans; [exact Hs|]; destruct Hs as (_ & _ & Hn & _); moved_now (@nil out); try (split; [done|tauto])));
    destruct a as [st hs|st|st|st code|st| |t]; try done; try (by intros [= <-]).
  1, 5: destruct (refused_status _ _); by intros [= <-].
  2, 3, 5, 6: destruct (st =? sid); by intros [= <-].
  all: destruct (st =? sid); cbn [negb]; [|by intros [= <-]];
    destruct (read_body st _) as [[h4 c4] p4];
    set (s5 := (set_link _ s3).2); (assert (moved is_announce s s5) as H5
      by (eapply moved_trans; [exact H3|]; destruct H3 as (_ & _ & Hn & _); moved_now (@nil out); try (split; [done|tauto])));
    pose proof (drain_capsules_moved s5) as H6; destruct (drain_capsules s5) as [[] s6];
    intros [= <-]; by eapply moved_trans.
Qed.

(** The packets offered so far. *)
Definition offers_of (l : list out) : list bytes :=
  omap (λ o, match o with Offered p => Some p | _ => None end) l.

Lemma drain_datagrams_moved s :
  moved is_offer s (drain_datagrams s).2 ∧
  ((drain_datagrams s).1 = Ok true →
    req_stream (link s) ≠ None ∧
    (length (offers_of (outs s)) < length (offers_of (outs (drain_datagrams s).2)))%nat).
Proof.
  unfold drain_datagrams. destruct (req_stream (link s)) as [sid|]; [|split; [apply moved_refl|done]].
  set (grown := λ (b : bool) (s' : Session Q AQ), b = true →
    (length (offers_of (outs s)) < length (offers_of (outs s')))%nat).
  set (r := loop _ _ _ _).
  enough (moved is_offer s r.2 ∧ match r.1 with Ok b => grown b r.2 | _ => True end) as [H1 H2].
  { split; [exact H1|]. intros E. rewrite E in H2. split; [done|]. by apply H2. }
  unfold r. apply (loop_keeps _ _ (λ st, moved is_offer s st.2 ∧ grown st.1 st.2)
    (λ r, moved is_offer s r.2 ∧ match r.1 with Ok b => grown b r.2 | _ => True end)).
  - split; [apply moved_refl|done].
  - split; [apply moved_refl|done].
  - intros [b s1] x [Hs Hg]; cbn [fst snd] in *; unfold dgram_step; destruct (dgram_recv (conn (link s1))) as [[d|] c];
      [|done]. set (s3 := (set_link _ s1).2).
    assert (moved is_offer s s3) as H3 by (eapply moved_trans; [exact Hs|]; moved_now (@nil out)).
    destruct (decode_ip_datagram d sid) as [[pkt|]|e|]; [|by intros [= <-]..|done].
    destruct (try_send pkt (inbound_tx s3)) as [a q]. set (s4 := (tell _ _).2).
    assert (moved is_offer s s4 ∧ grown true s4) as H4.
    { split; [eapply moved_trans; [exact H3|]; moved_now [Offered pkt]|]. intros _.
      destruct H3 as (_ & _ & _ & l & E & _). unfold s4. cbn in E |- *. rewrite E.
      unfold offers_of. rewrite !omap_app, !length_app. cbn. lia. }
    destruct a; by intros [= <-].
  - intros [b s1] x [Hs Hg]; cbn [fst snd] in *; unfold dgram_step; destruct (dgram_recv (conn (link s1))) as [[d|] c];
      set (s3 := (set_link _ s1).2);
      (assert (moved is_offer s s3) as H3 by (eapply moved_trans; [exact Hs|]; moved_now (@nil out)));
      [|by intros [= <-]].
    destruct (decode_ip_datagram d sid) as [[pkt|]|e|]; [|done..|by intros [= <-]].
    destruct (try_send pkt (inbound_tx s3)) as [a q]. set (s4 := (tell _ _).2).
    destruct a; [done..|]. intros [= <-].
    split; [eapply moved_trans; [exact H3|]; moved_now [Offered pkt]|]. intros _.
    destruct H3 as (_ & _ & _ & l & E & _). unfold s4. cbn in E |- *. rewrite E.
    unfold offers_of. rewrite !omap_app, !length_app. cbn. lia.
Qed.
End moves.

(** ** The invariant of a session *)

Section invariant.
Context `{QuicLib} `{!QuicQueues} `{errs : !SocketErrors} {Q AQ : Type} `{!Sender Q bytes, !Sender AQ AssignedAddr} {w : arch}.
Context (first_socket : gset SocketAddr → option SocketAddr) (proxy : option Upstream).
Context (cfg : TunnelConfig).
Implicit Types s : Session Q AQ.

Definition connects (l : list out) : list (option bytes) :=
  omap (λ o, match o with Connected e _ => Some e | _ => None end) l.
Definition requests (l : list out) : list (quic * Z) :=
  omap (λ o, match o with Requested c sid => Some (c, sid) | _ => None end) l.

(** A key a handshake may be given: none only when the session has none, and
    only a list BoringSSL can offer. *)
Definition key_ok (ech : option bytes) : Prop :=
  match ech with
  | Some key => check_ech_config_list key = Ok tt
  | None => cfg_ech cfg = None
  end.

(** Whoever waits was told once, after the request and, where data are
    checked, after two packets came. *)
Definition told (l : list out) : Prop :=
  ∃ a b, l = a ++ Ready :: b ∧ Ready ∉ a ∧ Ready ∉ b ∧ requests a ≠ [] ∧
    (cfg_data_check cfg = true → (2 ≤ length (offers_of a))%nat).

(** The server turned the handshake of [c] down for its key, ended it, and
    handed back [key], which can be offered. *)
Definition handed_back (c : quic) (key : bytes) : Prop :=
  is_draining c || is_closed c = true ∧ ech_rejected c = true ∧ extract_ech_retry_configs c = Some key.

(** The connections so far: the first one, and a second one only with the key
    that was handed back. *)
Definition retried_once (o : list out) (retried : bool) : Prop :=
  if retried then ∃ c key, Adopted c key ∈ o ∧ handed_back c key
    ∧ (connects o = [cfg_ech cfg] ∨ connects o = [cfg_ech cfg; Some key])
  else connects o = [cfg_ech cfg].

Lemma retried_app o l retried : connects l = [] → retried_once o retried → retried_once (o ++ l) retried.
Proof.
  intros Hl. unfold retried_once, connects in *. rewrite omap_app, Hl, app_nil_r. destruct retried; [|done].
  intros (c & key & Ha & Hb). exists c, key. split; [set_solver|done].
Qed.

Record session_inv s : Prop := {
  inv_link : h3_conn (link s) = None ↔ req_stream (link s) = None;
  inv_est : req_stream (link s) ≠ None → established_ever (flags s) = true;
  inv_req : match req_stream (link s) with
            | None => requests (outs s) = []
            | Some sid => ∃ c, requests (outs s) = [(c, sid)]
            end;
  inv_accepted : Forall (λ r, cfg_ech cfg ≠ None → ech_accepted r.1 = true) (requests (outs s));
  inv_keys : Forall key_ok (connects (outs s));
  inv_retry : (current_ech (flags s) = None ↔ cfg_ech cfg = None) ∧ retried_once (outs s) (ech_retried (flags s));
  inv_ready : ready_tx (flags s) = negb (ready_fired (flags s)) ∧
    if ready_fired (flags s) then told (outs s) else Ready ∉ outs s;
  inv_count : ready_fired (flags s) = false →
    0 ≤ validate_successes (flags s) ≤ Z.of_nat (length (offers_of (outs s)));
}.

(** Deeds the invariant does not look at, or only counts. *)
Definition is_plain (o : out) : Prop :=
  match o with Connected _ _ | Requested _ _ | Ready => False | _ => True end.

Lemma plain_connects l : Forall is_plain l → connects l = [].
Proof. induction 1 as [|[] l Ho _ IH]; try done. Qed.
Lemma plain_requests l : Forall is_plain l → requests l = [].
Proof. induction 1 as [|[] l Ho _ IH]; try done. Qed.
Lemma plain_ready l : Forall is_plain l → Ready ∉ l.
Proof. intros Hl Hr. by apply (proj1 (Forall_forall _ _) Hl) in Hr. Qed.

Lemma told_app l l' : Ready ∉ l' → told l → told (l ++ l').
Proof.
  intros Hl (a & b & -> & Ha & Hb & Hr & Ho). exists a, (b ++ l'). rewrite <- app_assoc.
  split_and!; try done. set_solver.
Qed.

Lemma inv_moved s s' : moved is_plain s s' → session_inv s → session_inv s'.
Proof.
  intros (F & R & Hh & l & E & Hl) [].
  pose proof (plain_connects l Hl) as Hc. pose proof (plain_requests l Hl) as Hq.
  pose proof (plain_ready l Hl) as Hr.
  assert (connects (outs s') = connects (outs s)) as Ec
    by (rewrite E; unfold connects in *; by rewrite omap_app, Hc, app_nil_r).
  assert (requests (outs s') = requests (outs s)) as Eq
    by (rewrite E; unfold requests in *; by rewrite omap_app, Hq, app_nil_r).
  assert (length (offers_of (outs s)) ≤ length (offers_of (outs s')))%nat as Eo
    by (rewrite E; unfold offers_of; rewrite omap_app, length_app; lia).
  split; rewrite ?F, ?R, ?Ec, ?Eq; try done.
  - tauto.
  - destruct inv_retry0 as [Hi Hx]. split; [done|]. rewrite E. by apply retried_app.
  - destruct inv_ready0 as [Ht Hrd]. split; [done|]. destruct (ready_fired (flags s)); rewrite E.
    + by apply told_app.
    + set_solver.
  - intros Hf. specialize (inv_count0 Hf). lia.
Qed.

Lemma is_wire_plain o : is_wire o → is_plain o.
Proof. by destruct o. Qed.
Lemma is_announce_plain o : is_announce o → is_plain o.
Proof. by destruct o. Qed.
Lemma is_offer_plain o : is_offer o → is_plain o.
Proof. by destruct o. Qed.

(** An operation keeps the invariant however it ends. *)
Definition keeps {A} (m : act (Session Q AQ) A) : Prop := ∀ s, session_inv s → session_inv (m s).2.

Lemma keeps_ret {A} (a : A) : keeps (mret a).
Proof. by intros s Hs. Qed.

Lemma keeps_fail {A} e : keeps (A := A) (fail e).
Proof. by intros s Hs. Qed.

Lemma keeps_lift {A} (m : comp AetherError A) : keeps (lift m).
Proof. by intros s Hs. Qed.

Lemma keeps_bind {A B} (m : act _ A) (f : A → act _ B) :
  keeps m → (∀ a, keeps (f a)) → keeps (m ≫= f).
Proof.
  intros Hm Hf s Hs. rewrite run_bind. specialize (Hm s Hs). destruct (m s) as [[a| |] s']; [|done..].
  by apply Hf.
Qed.

Lemma keeps_moved {A} (m : act _ A) : (∀ s, moved is_plain s (m s).2) → keeps m.
Proof. intros Hm s Hs. by eapply inv_moved. Qed.

Lemma keeps_on_conn f : keeps (on_conn f).
Proof. apply keeps_moved. intros s. srun. moved_now (@nil out). Qed.

Lemma keeps_flush : keeps (flush first_socket cfg).
Proof.
  apply keeps_moved. intros s. eapply moved_weaken; [apply is_wire_plain|]. apply flush_moved.
Qed.

Lemma keeps_frame_and_send p : keeps (frame_and_send p).
Proof.
  apply keeps_moved. intros s. unfold frame_and_send. srun.
  destruct (req_stream (link s)) as [sid|] eqn:Er; [|apply moved_refl].
  destruct (encode_ip_datagram sid p) as [framed| |]; srun; [|apply moved_refl..].
  moved_now [Framed framed].
Qed.

(** Closing a channel does not concern the invariant. *)
Lemma keeps_close f reason :
  (∀ g, established_ever (f g) = established_ever g ∧ ech_retried (f g) = ech_retried g ∧
     current_ech (f g) = current_ech g ∧ ready_fired (f g) = ready_fired g ∧ ready_tx (f g) = ready_tx g ∧
     validate_successes (f g) = validate_successes g) →
  keeps (s ← get_s; _ ← set_flags (f (flags s)); on_conn (close_ reason)).
Proof.
  intros Hf s Hs. refine (keeps_on_conn (close_ reason) (set_flags (f (flags s)) s).2 _).
  destruct Hs, (Hf (flags s)) as (E1 & E2 & E3 & E4 & E5 & E6).
  split; cbn; rewrite ?E1, ?E2, ?E3, ?E4, ?E5, ?E6; done.
Qed.

Lemma keeps_check_deadline now : keeps (check_deadline cfg now).
Proof.
  intros s Hs. unfold check_deadline. srun. destruct (validate_deadline (flags s)); [|done].
  destruct (_ && _ && _); [|done]. rewrite run_bind.
  pose proof (keeps_on_conn (close_ (lit "validation-timeout")) s Hs) as Hc.
  by destruct (on_conn _ s) as [[] s'].
Qed.

Lemma do_migrate_moved O su s : moved O s (do_migrate proxy cfg su s).2.
Proof.
  unfold do_migrate. srun. destruct (_ =? 0); [apply moved_refl|].
  destruct (add_socket proxy cfg su (world s)) as [r v]. srun.
  destruct r as [local| |]; [|moved_now (@nil out)..]. srun.
  destruct (probe_path _ _ _) as [c| |]; [|moved_now (@nil out)..]. srun.
  destruct (migrate_source _ _) as [c'| |]; moved_now (@nil out).
Qed.

Lemma keeps_handle ev : keeps (handle proxy cfg ev).
Proof.
  destruct ev as [| |to from data|[[su|]|]|[p|]|]; cbn [handle].
  - intros s Hs. srun. destruct (is_established _); [by apply keeps_on_conn|done].
  - apply keeps_frame_and_send.
  - apply keeps_on_conn.
  - apply keeps_moved. intros s. unfold logged. pose proof (do_migrate_moved is_plain su s) as Hm.
    by destruct (do_migrate proxy cfg su s) as [[] s'].
  - by apply (keeps_close (set_ctrl_open false)).
  - by apply (keeps_close (set_ctrl_open false)).
  - apply keeps_frame_and_send.
  - by apply (keeps_close (set_outbound_open false)).
  - apply keeps_on_conn.
Qed.

(** Firing the signal once the condition on the trace holds. *)
Lemma fire_ready_inv s :
  session_inv s → ready_fired (flags s) = false → requests (outs s) ≠ [] →
  (cfg_data_check cfg = true → (2 ≤ length (offers_of (outs s)))%nat) →
  session_inv (fire_ready s).2.
Proof.
  intros [] Hf Hr Ho. destruct inv_ready0 as [Ht Hn]. rewrite Hf in Ht, Hn.
  unfold fire_ready. srun. rewrite Ht. cbn [negb]. srun.
  split; cbn [link flags outs tell snd]; try done.
  - unfold requests in *. rewrite omap_app, app_nil_r. done.
  - unfold requests in *. rewrite omap_app, app_nil_r. done.
  - unfold connects in *. rewrite omap_app, app_nil_r. done.
  - destruct inv_retry0 as [Hi Hx]. split; [done|]. by apply retried_app.
  - cbn. split; [done|]. exists (outs s), []. split_and!; try done. set_solver.
Qed.

Lemma set_established_inv s : session_inv s → session_inv (set_flags (set_established (flags s)) s).2.
Proof. intros []. split; cbn; done. Qed.

Lemma set_deadline_inv d s : session_inv s → session_inv (set_flags (set_deadline d (flags s)) s).2.
Proof. intros []. split; cbn; done. Qed.

Lemma set_successes_inv n s :
  0 ≤ n ≤ Z.of_nat (length (offers_of (outs s))) →
  session_inv s → session_inv (set_flags (set_successes n (flags s)) s).2.
Proof. intros Hn []. split; cbn; done. Qed.

(** The request is on the wire. *)
Lemma requested_inv s c c' h sid :
  session_inv s → h3_conn (link s) = None → established_ever (flags s) = true →
  (cfg_ech cfg ≠ None → ech_accepted c = true) →
  session_inv (tell (Requested c sid) (set_link (mk_link c' (Some h) (Some sid) (capsules (link s))) s).2).2.
Proof.
  intros [] Hn He Ha. rewrite (proj1 inv_link0 Hn) in inv_req0.
  assert (requests (outs s ++ [Requested c sid]) = [(c, sid)]) as Er
    by (unfold requests in *; by rewrite omap_app, inv_req0).
  assert (connects (outs s ++ [Requested c sid]) = connects (outs s)) as Ec
    by (unfold connects in *; by rewrite omap_app, app_nil_r).
  assert (offers_of (outs s ++ [Requested c sid]) = offers_of (outs s)) as Eo
    by (unfold offers_of in *; by rewrite omap_app, app_nil_r).
  split; cbn [link flags outs tell set_link snd fst h3_conn req_stream]; rewrite ?Er, ?Ec, ?Eo; try done.
  - by eexists.
  - by constructor.
  - destruct inv_retry0 as [Hi Hx]. split; [done|]. by apply retried_app.
  - destruct inv_ready0 as [Ht Hr]. split; [done|]. destruct (ready_fired (flags s)); [|set_solver].
    apply told_app; [set_solver|done].
Qed.

Lemma keeps_open_request now : keeps (open_request cfg now).
Proof.
  intros s Hs. unfold open_request. srun.
  destruct (is_established _); [|done]. destruct (bool_decide_reflect (h3_conn (link s) = None)) as [Hn|]; [|done].
  cbn [andb]. destruct (bool_decide (current_ech (flags s) ≠ None) && negb (ech_accepted (conn (link s)))) eqn:Ea; [done|].
  assert (cfg_ech cfg ≠ None → ech_accepted (conn (link s)) = true) as Hacc.
  { intros Hc. destruct (inv_retry s Hs) as [Hi _].
    destruct (ech_accepted _); [done|]. rewrite andb_true_r in Ea.
    apply bool_decide_eq_false in Ea. tauto. }
  srun. pose proof (set_established_inv s Hs) as He. cbn [set_flags snd] in He.
  destruct (with_transport (conn (link s))) as [[h c1]| |]; [|done..]. srun.
  match goal with |- context [send_request _ h c1] => destruct (send_request _ h c1) as [[[sid h'] c2]| |] end;
    srun; [|eapply inv_moved; [|exact He]; moved_now (@nil out)..].
  pose proof (requested_inv _ (conn (link s)) c2 h' sid He Hn eq_refl Hacc) as Hq.
  cbn [tell set_link snd link flags world inbound_tx addr_tx outs capsules] in Hq.
  destruct (cfg_data_check cfg) eqn:Ed.
  - by apply (set_deadline_inv (Some (now + cfg_validation cfg)) _ Hq).
  - cbn [set_established ready_fired]. destruct (ready_fired (flags s)) eqn:Ef; [done|]. cbn [negb].
    apply fire_ready_inv; try done; [|by rewrite Ed].
    cbn [outs]. unfold requests. rewrite omap_app. cbn. by destruct (omap _ _).
Qed.

Lemma keeps_deliver : keeps (got_data ← drain_datagrams; confirm got_data).
Proof.
  intros s Hs. rewrite run_bind. destruct (drain_datagrams_moved s) as [Hm Hg].
  destruct (drain_datagrams s) as [[b| |] s1]; cbn [fst snd] in *;
    (assert (session_inv s1) as H1
       by (eapply inv_moved; [|exact Hs]; eapply moved_weaken; [apply is_offer_plain|done])); [|done..].
  unfold confirm. srun. destruct b; [|done]. destruct (ready_fired (flags s1)) eqn:Ef; [done|]. cbn [andb negb].
  destruct (Hg eq_refl) as [Hr Hlt]. pose proof (inv_count s1 H1 Ef) as Hc.
  pose proof (inv_count s Hs) as Hc0. destruct Hm as (F & R & _). rewrite <- F in Hc0. specialize (Hc0 Ef).
  srun. pose proof (set_successes_inv (validate_successes (flags s1) + 1) s1 ltac:(lia) H1) as H2.
  cbn [set_flags snd] in H2. destruct (_ >=? _) eqn:Eg; [|done]. srun.
  pose proof (set_deadline_inv None _ H2) as H3. cbn in H3. apply fire_ready_inv; try done; cbn [outs].
  - pose proof (inv_req _ H2) as Hq. cbn [link outs] in Hq. rewrite R in Hq.
    destruct (req_stream (link s)); [|done]. destruct Hq as [c ->]. done.
  - intros _. unfold DATA_PROBE_REQUIRED_SUCCESSES in Eg. lia.
Qed.

(** A connection made with a key was given one that can be offered. *)
Lemma connect_key sni local peer budget ech ds c ds' :
  connect sni local peer budget ech ds = (Ok c, ds') →
  match ech with Some key => check_ech_config_list key = Ok tt | None => True end.
Proof.
  unfold connect. destruct (fill_bytes 16 ds) as [scid ds1]. intros [= E _].
  destruct ech as [key|]; [|done].
  destruct (quiche_connect _ _ _ _ _) as [c0| |]; [|done..]. cbn in E.
  destruct (prepare_quic c0) as [c1| |]; [|done..]. cbn in E.
  unfold inject_ech, ensure_offerable in E. by destruct (check_ech_config_list key) as [[]| |].
Qed.

Lemma set_retried_inv c key s :
  session_inv s → ech_retried (flags s) = false → current_ech (flags s) ≠ None →
  Adopted c key ∈ outs s → handed_back c key →
  session_inv (set_flags (set_retried key (flags s)) s).2.
Proof.
  intros [] Hr Hc Ha Hb. rewrite Hr in inv_retry0. destruct inv_retry0 as [Hi Hco]. split; cbn; try done.
  split; [split; [done|tauto]|]. exists c, key. split_and!; [done..|]. by left.
Qed.

(** The second connection: nothing was requested over the first. *)
Lemma new_link_inv local c0 key s :
  session_inv s → ech_retried (flags s) = true → established_ever (flags s) = false →
  Adopted c0 key ∈ outs s → handed_back c0 key →
  connects (outs s) = [cfg_ech cfg] →
  session_inv (new_link cfg local (Some key) s).2.
Proof.
  intros Hs Hr He Ha Hb Hco. unfold new_link. srun. destruct (connect _ _ _ _ _ _) as [r ds] eqn:Ec. srun.
  destruct r as [c| |]; srun; [|eapply inv_moved; [|exact Hs]; moved_now (@nil out)..].
  apply connect_key in Ec. destruct Hs. rewrite Hr, Hco in *.
  assert (requests (outs s) = []) as Hq.
  { destruct (req_stream (link s)) as [sid|]; [|done]. specialize (inv_est0 ltac:(done)). congruence. }
  set (o := outs s ++ [Connected (Some key) c]).
  assert (connects o = [cfg_ech cfg; Some key]) as E1
    by (unfold o, connects in *; by rewrite omap_app, Hco).
  assert (requests o = []) as E2 by (unfold o, requests in *; by rewrite omap_app, Hq).
  assert (offers_of o = offers_of (outs s)) as E3
    by (unfold o, offers_of; by rewrite omap_app, app_nil_r).
  split; cbn [link flags outs h3_conn req_stream]; rewrite ?E1, ?E2, ?E3, ?Hr; try done.
  - apply Forall_cons in inv_keys0 as [Hk _]. by repeat constructor.
  - split; [apply inv_retry0|]. exists c0, key. split_and!; [unfold o; set_solver|done|by right].
  - destruct inv_ready0 as [Ht Hrd]. split; [done|]. unfold o.
    destruct (ready_fired (flags s)); [|set_solver]. apply told_app; [set_solver|done].
Qed.

Lemma keeps_retry local : keeps (retry_ech first_socket cfg local).
Proof.
  intros s Hs. unfold retry_ech. srun.
  destruct (_ && _ && _ && _ && _) eqn:E; [|done]. rewrite !andb_true_iff, !negb_true_iff in E.
  destruct E as ((((Hd & He) & Hr) & Hc) & Hj). apply bool_decide_eq_true in Hc.
  destruct (extract_ech_retry_configs _) as [key|] eqn:Ex; [|done]. srun.
  assert (handed_back (conn (link s)) key) as Hb by done.
  set (v' := mk_world _ _ _ _ (draws (world s))).
  set (s1 := mk_session (link s) (flags s) v' (inbound_tx s) (addr_tx s) (outs s ++ [Adopted (conn (link s)) key])).
  assert (session_inv s1) as H1 by (eapply inv_moved; [|exact Hs]; moved_now [Adopted (conn (link s)) key]).
  assert (Adopted (conn (link s)) key ∈ outs s1) as Ha by (unfold s1; cbn [outs]; set_solver).
  pose proof (set_retried_inv _ key s1 H1 Hr Hc Ha Hb) as H2. unfold s1 in H2. cbn [set_flags snd flags link world inbound_tx addr_tx outs] in H2.
  pose proof (new_link_inv local _ key _ H2 eq_refl He Ha Hb) as H3. cbn [outs] in H3.
  assert (connects (outs s ++ [Adopted (conn (link s)) key]) = [cfg_ech cfg]) as Hco.
  { pose proof (proj2 (inv_retry s Hs)) as Hx. rewrite Hr in Hx. unfold connects in *. by rewrite omap_app, app_nil_r. }
  specialize (H3 Hco). destruct (new_link _ _ _ _) as [[[]| |] s3]; [|done..].
  pose proof (keeps_flush s3 H3) as H4. srun. by destruct (flush _ _ s3) as [[] s4].
Qed.

Lemma keeps_poll :
  keeps (s ← get_s;
         match h3_conn (link s), req_stream (link s) with
         | Some h, Some sid => poll_h3 sid h
         | _, _ => mret tt
         end).
Proof.
  intros s Hs. srun. destruct (h3_conn (link s)) as [h|] eqn:Eh; [|done].
  destruct (req_stream (link s)) as [sid|]; [|done]. eapply inv_moved; [|exact Hs].
  eapply moved_weaken; [apply is_announce_plain|]. apply poll_h3_moved. by rewrite Eh.
Qed.

Lemma keeps_turn local t : keeps (turn first_socket proxy cfg local t).
Proof.
  unfold turn. apply keeps_bind; [apply keeps_check_deadline|intros _].
  apply keeps_bind; [apply keeps_handle|intros _].
  apply keeps_bind; [apply keeps_open_request|intros _].
  intros s Hs. rewrite bind_assoc. revert s Hs. apply keeps_bind; [apply keeps_poll|intros _].
  intros s Hs. rewrite bind_assoc. revert s Hs. apply keeps_bind; [apply keeps_deliver|intros _].
  apply keeps_bind; [apply keeps_flush|intros _].
  apply keeps_bind; [apply keeps_retry|intros []]; by intros s Hs.
Qed.

Lemma keeps_turns local ts : keeps (turns first_socket proxy cfg local ts).
Proof.
  induction ts as [|t ts IH]; cbn [turns]; [by intros s|]. intros s Hs. srun.
  destruct (enabled cfg (flags s) (t_event t)); [|by apply IH].
  revert s Hs. apply keeps_bind; [apply keeps_turn|intros []]; [done|by intros s].
Qed.

Lemma start_inv `{HexCrate} env su attempts built now v q aq local s :
  start proxy cfg env su attempts built now v q aq = Ok (local, s) → session_inv s.
Proof.
  unfold start. destruct (add_socket _ _ _ _) as [r v']. destruct r as [loc| |]; [|done..]. cbn.
  destruct (if _ && _ then _ else _) as [baits ds]. destruct built as [[]| |]; [|done..]. cbn.
  destruct (connect _ _ _ _ _ _) as [c ds'] eqn:Ec. destruct c as [c| |]; [|done..]. cbn.
  destruct (map_err _ _) as [[junk ds'']| |]; [|done..]. cbn. intros [= <- <-].
  apply connect_key in Ec. set (wire := OnWire loc (relay_target (registry v') loc (cfg_peer cfg))).
  assert (∀ l, Forall is_plain (map wire l)) as Hp
    by (intros l; induction l; by constructor).
  assert (∀ A (f : out → option A), (∀ o, is_wire o → f o = None) →
     omap f (map wire baits ++
       [Connected (cfg_ech cfg) c] ++ map wire junk)
     = omap f [Connected (cfg_ech cfg) c]) as Ho.
  { intros A f Hf. assert (∀ l, omap f (map wire l) = []) as Hw.
    { intros l. induction l as [|x l IH]; [done|]. cbn. by rewrite Hf. }
    by rewrite !omap_app, !Hw, app_nil_r. }
  split; cbn [link flags outs h3_conn req_stream initial_flags established_ever ech_retried current_ech ready_fired
              ready_tx validate_successes]; unfold retried_once, requests, connects, offers_of;
    rewrite ?Ho by (by intros []); cbn; try done.
  - constructor; [|done]. unfold key_ok. by destruct (cfg_ech cfg).
  - split; [done|]. rewrite elem_of_app, elem_of_cons. intros [Hr|[Hr|Hr]]; [|done|]; by apply plain_ready in Hr.
Qed.
End invariant.

Lemma run_inv `{QuicLib} `{!QuicQueues} `{errs : !SocketErrors} `{HexCrate} {Q AQ : Type} `{!Sender Q bytes, !Sender AQ AssignedAddr} {w : arch}
  first_socket proxy cfg env su attempts built now ts v (q : Q) (aq : option AQ) r s reg :
  run first_socket proxy cfg env su attempts built now ts v q aq = Ok (r, s, reg) → session_inv cfg s.
Proof.
  unfold run. destruct (start _ _ _ _ _ _ _ _ _ _) as [[local s0]| |] eqn:E; [|done..].
  apply start_inv in E. cbn.
  pose proof (keeps_bind cfg _ _ (keeps_flush first_socket cfg)
    (λ _, keeps_turns first_socket proxy cfg local ts) s0 E) as Hk.
  destruct ((flush first_socket cfg ≫= _) s0) as [r1 s1]. cbn in *. by intros [= <- <- <-].
Qed.

(** C6. The server name stays hidden: a session that has an ECH key makes one
    connection with it, or a second one with the key that the server handed
    back when it turned the first down for its key; each offers a key that
    BoringSSL can offer, the request goes out at most once, and only over a
    handshake that was made with the key. *)
Theorem session_hides_name `{QuicLib} `{!QuicQueues} `{errs : !SocketErrors} `{HexCrate} {Q AQ : Type}
  `{!Sender Q bytes, !Sender AQ AssignedAddr} {w : arch}
  first_socket proxy cfg env su attempts built now ts v (q : Q) (aq : option AQ) r s reg
  (Hrun : run first_socket proxy cfg env su attempts built now ts v q aq = Ok (r, s, reg))
  (Hkey : cfg_ech cfg ≠ None) :
  (connects (outs s) = [cfg_ech cfg] ∨
   ∃ c key, connects (outs s) = [cfg_ech cfg; Some key] ∧ Adopted c key ∈ outs s ∧ handed_back c key) ∧
  Forall (λ ech, ∃ key, ech = Some key ∧ check_ech_config_list key = Ok tt) (connects (outs s)) ∧
  (length (requests (outs s)) ≤ 1)%nat ∧
  ∀ c sid, Requested c sid ∈ outs s → ech_accepted c = true.
Proof.
  apply run_inv in Hrun as []. split_and!.
  - destruct inv_retry0 as [_ Hr]. destruct (ech_retried (flags s)); [destruct Hr as (c & key & Ha & Hb & [->|Hr])|]; [by left|right; eauto|by left].
  - eapply Forall_impl; [exact inv_keys0|]. intros [key|]; [by exists key|done].
  - destruct (req_stream (link s)); [destruct inv_req0 as [c ->]; done|]. rewrite inv_req0. cbn. lia.
  - intros c sid Hc. rewrite Forall_forall in inv_accepted0. apply (inv_accepted0 (c, sid)); [|done].
    apply list_elem_of_omap. eauto.
Qed.

(** C9. Whoever waits for the tunnel is told at most once, after the request
    was sent and, unless the data check is turned off, only after two packets
    came through the tunnel. *)
Theorem ready_after_data `{QuicLib} `{!QuicQueues} `{errs : !SocketErrors} `{HexCrate} {Q AQ : Type}
  `{!Sender Q bytes, !Sender AQ AssignedAddr} {w : arch}
  first_socket proxy cfg env su attempts built now ts v (q : Q) (aq : option AQ) r s reg
  (Hrun : run first_socket proxy cfg env su attempts built now ts v q aq = Ok (r, s, reg))
  (Hready : Ready ∈ outs s) :
  ∃ a b, outs s = a ++ Ready :: b ∧ Ready ∉ a ∧ Ready ∉ b ∧ requests a ≠ [] ∧
    (cfg_data_check cfg = true → (2 ≤ length (offers_of a))%nat).
Proof.
  apply run_inv in Hrun as []. destruct inv_ready0 as [_ Hr]. by destruct (ready_fired (flags s)).
Qed.

(** ** Packets into the tunnel *)

Section forward.
Context `{QuicLib} `{!QuicQueues} `{errs : !SocketErrors} {Q AQ : Type} `{!Sender Q bytes, !Sender AQ AssignedAddr} {w : arch}.
Context (first_socket : gset SocketAddr → option SocketAddr) (proxy : option Upstream).
Context (cfg : TunnelConfig) (local : SocketAddr) (sid : Z).
Implicit Types s : Session Q AQ.

Definition frames (l : list out) : list bytes :=
  omap (λ o, match o with Framed d => Some d | _ => None end) l.

(** The packet an event brings for the tunnel. *)
Definition input (ev : event) : option bytes :=
  match ev with
  | Outbound (Some p) => Some p
  | ProbeTick => Some (cfg_probe cfg)
  | _ => None
  end.

(** The events a session gets to handle: those of enabled arms, as long as it
    lasts and the validation deadline has not passed. *)
Fixpoint handled (ts : list Turn) s : list event :=
  match ts with
  | [] => []
  | t :: ts =>
      if enabled cfg (flags s) (t_event t) then
        match check_deadline cfg (t_top t) s with
        | (Ok _, _) =>
            t_event t ::
            match turn first_socket proxy cfg local t s with
            | (Ok true, s) => handled ts s
            | _ => []
            end
        | _ => []
        end
      else handled ts s
  end.

(** The request of [s] is open on the stream [sid]. *)
Definition request_open s : Prop :=
  req_stream (link s) = Some sid ∧ h3_conn (link s) ≠ None ∧ established_ever (flags s) = true.

(** [s'] has the same request open and [l] more was framed. *)
Definition framed (l : list bytes) s s' : Prop :=
  request_open s' ∧ frames (outs s') = frames (outs s) ++ l.

Definition frames_of {A} (l : list bytes) (m : act (Session Q AQ) A) : Prop :=
  ∀ s, request_open s → framed l s (m s).2.

Definition no_frame (o : out) : Prop := match o with Framed _ => False | _ => True end.

Lemma framed_moved s s' : request_open s → moved no_frame s s' → framed [] s s'.
Proof.
  intros (R & Hh & He) (F & R' & Hh' & l & E & Hl). split.
  - unfold request_open. rewrite F, R'. tauto.
  - rewrite E, app_nil_r. unfold frames. rewrite omap_app.
    replace (omap _ l) with (@nil bytes); [by rewrite app_nil_r|].
    clear E. induction Hl as [|[] l Ho _ IH]; done.
Qed.

Lemma framed_trans l s1 s2 s3 : framed l s1 s2 → framed [] s2 s3 → framed l s1 s3.
Proof. intros [_ E1] [Ho E2]. split; [done|]. by rewrite E2, E1, app_nil_r. Qed.

Lemma frames_of_moved {A} (m : act _ A) : (∀ s, request_open s → moved no_frame s (m s).2) → frames_of [] m.
Proof. intros Hm s Hs. apply framed_moved; eauto. Qed.

Lemma frames_of_bind {A B} l (m : act _ A) (f : A → act _ B) :
  frames_of l m → (∀ a, frames_of [] (f a)) → frames_of l (m ≫= f).
Proof.
  intros Hm Hf s Hs. rewrite run_bind. specialize (Hm s Hs). destruct (m s) as [[a| |] s1]; [|done..].
  eapply framed_trans; [exact Hm|]. apply Hf, Hm.
Qed.

Lemma frames_of_get {A} l (f : Session Q AQ → act (Session Q AQ) A) :
  (∀ s, request_open s → framed l s (f s s).2) → frames_of l (get_s ≫= f).
Proof. intros Hf s Hs. by apply Hf. Qed.

Lemma frames_of_on_conn f : frames_of [] (on_conn f).
Proof. apply frames_of_moved. intros s _. srun. moved_now (@nil out). Qed.

Lemma frames_of_flush : frames_of [] (flush first_socket cfg).
Proof.
  apply frames_of_moved. intros s _. eapply moved_weaken; [|apply flush_moved]. by intros [].
Qed.

(** The packet in the framing of [sid]. *)
Definition framing (p : bytes) : list bytes :=
  match encode_ip_datagram sid p with Ok d => [d] | _ => [] end.

Lemma frames_of_send p : frames_of (framing p) (frame_and_send p).
Proof.
  intros s (R & Hh & He). unfold frame_and_send, framing. srun. rewrite R.
  destruct (encode_ip_datagram sid p) as [d| |]; srun; (split; [by split|]); cbn;
    [|by rewrite app_nil_r..]. unfold frames. by rewrite omap_app.
Qed.

Lemma framed_closed f s :
  (∀ g, established_ever (f g) = established_ever g) → request_open s → framed [] s (set_flags (f (flags s)) s).2.
Proof.
  intros Hf (R & Hh & He). split; [|cbn; by rewrite app_nil_r].
  unfold request_open. cbn. by rewrite Hf.
Qed.

Lemma frames_of_close (f : Flags → Flags) reason :
  (∀ g, established_ever (f g) = established_ever g) →
  frames_of [] (s ← get_s; _ ← set_flags (f (flags s)); on_conn (close_ reason)).
Proof.
  intros Hf s Hs. pose proof (framed_closed f s Hf Hs) as H1.
  exact (framed_trans [] s _ _ H1 (frames_of_on_conn (close_ reason) _ (proj1 H1))).
Qed.

Lemma frames_of_fail {A} e : frames_of (A := A) [] (fail e).
Proof. apply frames_of_moved. intros s _. apply moved_refl. Qed.

Lemma frames_of_handle ev : frames_of (from_option framing [] (input ev)) (handle proxy cfg ev).
Proof.
  destruct ev as [| |to from data|[[su|]|]|[p|]|]; cbn [handle input from_option].
  - apply frames_of_get. intros s Hs. destruct (is_established _); [by apply frames_of_on_conn|].
    apply framed_moved; [done|apply moved_refl].
  - apply frames_of_send.
  - apply frames_of_on_conn.
  - apply frames_of_moved. intros s _. unfold logged. pose proof (do_migrate_moved proxy cfg no_frame su s) as Hm.
    by destruct (do_migrate proxy cfg su s) as [[] s'].
  - by apply (frames_of_close (set_ctrl_open false)).
  - by apply (frames_of_close (set_ctrl_open false)).
  - apply frames_of_send.
  - by apply (frames_of_close (set_outbound_open false)).
  - apply frames_of_on_conn.
Qed.

Lemma frames_of_check now : frames_of [] (check_deadline cfg now).
Proof.
  apply frames_of_get. intros s Hs. destruct (validate_deadline (flags s));
    [destruct (_ && _ && _)|]; [|by apply framed_moved, moved_refl..].
  by apply (frames_of_bind [] _ _ (frames_of_on_conn _) (λ _, frames_of_fail _)).
Qed.

Lemma frames_of_fire : frames_of [] fire_ready.
Proof.
  intros s (R & Hh & He). unfold fire_ready. srun. destruct (ready_tx (flags s)); srun; (split; [by split|]); cbn.
  - unfold frames. by rewrite omap_app.
  - by rewrite app_nil_r.
Qed.

Lemma frames_of_deliver : frames_of [] (got_data ← drain_datagrams; confirm got_data).
Proof.
  apply frames_of_bind.
  { apply frames_of_moved. intros s _. eapply moved_weaken; [|apply drain_datagrams_moved]. by intros []. }
  intros b. apply frames_of_get. intros s Hs. destruct (b && _); [|by apply framed_moved, moved_refl].
  pose proof (framed_closed (set_successes (validate_successes (flags s) + 1)) s ltac:(done) Hs) as H1.
  srun. destruct (_ >=? _); [|exact H1].
  pose proof (framed_closed (set_deadline None) _ ltac:(done) (proj1 H1)) as H2.
  eapply framed_trans; [exact H1|]. eapply framed_trans; [exact H2|]. exact (frames_of_fire _ (proj1 H2)).
Qed.

Lemma frames_of_open now : frames_of [] (open_request cfg now).
Proof.
  apply frames_of_get. intros s Hs. cbn beta zeta.
  rewrite (bool_decide_eq_false_2 (h3_conn (link s) = None)) by apply Hs. rewrite andb_false_r.
  by apply framed_moved, moved_refl.
Qed.

Lemma frames_of_poll :
  frames_of [] (s ← get_s;
         match h3_conn (link s), req_stream (link s) with
         | Some h, Some sid => poll_h3 sid h
         | _, _ => mret tt
         end).
Proof.
  apply frames_of_get. intros s Hs. destruct (h3_conn (link s)) as [h|] eqn:Eh; [|by apply framed_moved, moved_refl].
  destruct (req_stream (link s)) as [sid'|]; [|by apply framed_moved, moved_refl].
  apply framed_moved; [done|]. eapply moved_weaken; [|apply poll_h3_moved; by rewrite Eh]. by intros [].
Qed.

Lemma frames_of_retry : frames_of [] (retry_ech first_socket cfg local).
Proof.
  apply frames_of_get. intros s Hs. cbn beta zeta. replace (established_ever (flags s)) with true by (symmetry; apply Hs).
  cbn [negb]. rewrite andb_false_r. by apply framed_moved, moved_refl.
Qed.

Lemma frames_of_turn t s :
  request_open s →
  let '(r, s') := turn first_socket proxy cfg local t s in
  framed (match check_deadline cfg (t_top t) s with
          | (Ok _, _) => from_option framing [] (input (t_event t))
          | _ => []
          end) s s'.
Proof.
  intros Hs. unfold turn. rewrite run_bind. pose proof (frames_of_check (t_top t) s Hs) as Hc.
  destruct (check_deadline cfg (t_top t) s) as [[[]| |] s1]; [|done..].
  destruct Hc as [Ho E]. cbn [snd] in *. rewrite app_nil_r in E.
  match goal with |- context [?m s1] =>
    assert (frames_of (from_option framing [] (input (t_event t))) m) as Hm;
    [|specialize (Hm s1 Ho); destruct (m s1) as [r s']; destruct Hm as [? E']; split; [done|];
      cbn in E'; by rewrite E', E] end.
  clear s s1 Hs Ho E. apply frames_of_bind; [apply frames_of_handle|intros _].
  apply frames_of_bind; [apply frames_of_open|intros _].
  intros s Hs. rewrite bind_assoc. revert s Hs. apply frames_of_bind; [apply frames_of_poll|intros _].
  intros s Hs. rewrite bind_assoc. revert s Hs. apply frames_of_bind; [apply frames_of_deliver|intros _].
  apply frames_of_bind; [apply frames_of_flush|intros _].
  apply frames_of_bind; [apply frames_of_retry|intros []]; apply frames_of_moved; intros s _; apply moved_refl.
Qed.

Lemma forwards ts s :
  request_open s →
  framed (flat_map framing (omap input (handled ts s))) s (turns first_socket proxy cfg local ts s).2.
Proof.
  revert s. induction ts as [|t ts IH]; intros s Hs; cbn [handled turns].
  { by apply framed_moved, moved_refl. }
  srun. destruct (enabled cfg (flags s) (t_event t)); [|by apply IH]. srun.
  pose proof (frames_of_turn t s Hs) as Ht. destruct (turn _ _ _ _ t s) as [r s1] eqn:Et.
  destruct (check_deadline cfg (t_top t) s) as [[[]| |] s2] eqn:Ec.
  - assert (flat_map framing (omap input (t_event t :: match r with Ok true => handled ts s1 | _ => [] end))
      = from_option framing [] (input (t_event t))
        ++ flat_map framing (omap input (match r with Ok true => handled ts s1 | _ => [] end))) as El.
    { cbn [omap list_omap]. by destruct (input (t_event t)). }
    rewrite El. destruct r as [[]| |]; cbn; rewrite ?app_nil_r; try done.
    destruct Ht as [Ho E]. destruct (IH s1 Ho) as [Ho2 E2]. split; [done|]. by rewrite E2, E, app_assoc.
  - unfold turn in Et. rewrite run_bind, Ec in Et. by inversion Et; subst.
  - unfold turn in Et. rewrite run_bind, Ec in Et. by inversion Et; subst.
Qed.
End forward.

(** C17. Packets go into the tunnel in order, once each and unchanged: over any
    turns of a session whose request is open on a stream, what it hands to the
    connection are the packets of the events it handled, the probes among
    them, one datagram each, and every datagram is read back as its packet on
    that stream. *)
Theorem tunnel_forwards_in_order `{QuicLib} `{!QuicQueues} `{errs : !SocketErrors} {Q AQ : Type}
  `{!Sender Q bytes, !Sender AQ AssignedAddr} {w : arch}
  first_socket proxy cfg local sid ts (s : Session Q AQ)
  (Hsid : u64 sid) (Hopen : request_open sid s) :
  let s' := (turns first_socket proxy cfg local ts s).2 in
  let packets := omap (input cfg) (handled first_socket proxy cfg local ts s) in
  request_open sid s' ∧
  ∃ ds, frames (outs s') = frames (outs s) ++ ds ∧
    Forall2 (λ p d, decode_ip_datagram d sid = Ok (Some p)) packets ds.
Proof.
  destruct (forwards first_socket proxy cfg local sid ts s Hopen) as [Ho E]. split; [done|].
  eexists. split; [exact E|]. clear E Ho. induction (omap _ _) as [|p l IH]; cbn [flat_map]; [constructor|].
  destruct (ip_datagram_roundtrip sid sid p Hsid) as (d & Ed & Hd). rewrite Z.eqb_refl in Hd.
  unfold framing at 1. rewrite Ed. cbn [app]. by constructor.
Qed.
