(* ===== verification/MasqueSession.v ===== *)
(** * The MASQUE session over QUIC: what it delivers, and the endpoint check

    Theorems about the session of quic.rs (MasqueQuic): the datagrams it hands
    to the inside, the check of an endpoint, and a small instance of the
    connection interface on which the theorems are tried. *)

From stdpp Require Import strings gmap.
From S2P Require Import Prelude Text Net NetText Octets Masque Error Tls Dns Upstream Random Noize Fragment Routing MasqueQuic.

(** ** Datagrams out of the tunnel *)

Lemma decode_ip_datagram_no_panic d sid : bytes_ok d → no_panic (decode_ip_datagram d sid).
Proof.
  intros Hd. assert (cursor_ok (with_slice d)) as H0 by (unfold cursor_ok; cbn; blia).
  unfold decode_ip_datagram.
  destruct (get_varint_total _ H0 Hd) as [->|(q & b1 & -> & H1 & E1 & _)]; [done|]. cbn [map_err mbind comp_bind].
  destruct (negb _); [done|]. cbn [buf with_slice] in E1. rewrite <- E1 in Hd.
  destruct (get_varint_total _ H1 Hd) as [->|(x & b2 & -> & H2 & E2 & _)]; [done|]. cbn [map_err mbind comp_bind].
  destruct (negb _); [done|].
  destruct (get_vec_enough (cap b2) b2 H2) as (v & b3 & E3 & _); [unfold cap, cursor_ok in *; lia|].
  unfold get_vec in E3. destruct (get_bytes (cap b2) b2) as [[pl b4]| |]; [|done..]. cbn in *.
  by destruct (to_vec pl).
Qed.

(** The datagrams a connection has queued, first come first served. *)
Class QuicDgrams `{QuicLib} := {
  dgrams : quic → list bytes;
  dgram_recv_fifo c :
    ∃ c', dgram_recv c = (head (dgrams c), c') ∧ dgrams c' = tail (dgrams c);
}.

(** The packet a datagram carries for the stream, if it is one of ours. *)
Definition carried (sid : Z) (d : bytes) : option bytes :=
  match decode_ip_datagram d sid with Ok (Some p) => Some p | _ => None end.

Section deliver.
Context `{QuicLib} `{!QuicQueues} `{errs : !SocketErrors} `{!QuicDgrams} {Q AQ : Type} `{!Sender Q bytes, !Sender AQ AssignedAddr} {w : arch}.
Implicit Types s : Session Q AQ.

#[export] Instance dgram_decreasing sid :
  Decreasing (λ st : bool * Session Q AQ, dgrams_left (conn (link st.2))) (dgram_step sid).
Proof.
  intros [b s] s'. unfold dgram_step. destruct (dgram_recv _) as [[d|] c] eqn:E; [|done].
  apply dgram_recv_takes in E. destruct (decode_ip_datagram d sid) as [[p|]|e|]; [|by intros [= <-]..|done].
  destruct (try_send _ _) as [[] q]; by intros [= <-].
Qed.

Lemma drain_loop sid d b s :
  open_sender (Q := Q) → Forall bytes_ok (dgrams (conn (link s))) →
  let ps := omap (carried sid) (dgrams (conn (link s))) in
  ∃ s', loop (λ st, dgrams_left (conn (link st.2))) (dgram_step sid) d (b, s)
          = (Ok (b || negb (is_empty ps)), s') ∧
    outs s' = outs s ++ map Offered ps ∧ inbound_tx s' = foldl offer (inbound_tx s) ps ∧
    dgrams (conn (link s')) = [] ∧ flags s' = flags s.
Proof.
  intros Hq. remember (dgrams (conn (link s))) as ds eqn:Eds. revert b s Eds.
  induction ds as [|x ds IH]; intros b s Eds Hds; rewrite loop_unfold by apply _; unfold dgram_step at 1;
    destruct (dgram_recv_fifo (conn (link s))) as (c & Er & Ec); rewrite <- Eds in Er, Ec; rewrite Er; cbn [head tail] in *.
  - eexists. split; [by rewrite orb_false_r|]. cbn. by rewrite app_nil_r.
  - apply Forall_cons in Hds as [Hx Hds]. pose proof (decode_ip_datagram_no_panic x sid Hx) as Hn.
    assert (carried sid x = match decode_ip_datagram x sid with Ok (Some p) => Some p | _ => None end) as Hcar by done.
    cbn [omap list_omap].
    destruct (decode_ip_datagram x sid) as [[p|]|e|]; rewrite Hcar; [| | |done].
    + pose proof (Hq p (inbound_tx s)) as Hc. srun. destruct (try_send p (inbound_tx s)) as [a q] eqn:Et.
      destruct (IH true (mk_session (with_conn c (link s)) (flags s) (world s) q (addr_tx s) (outs s ++ [Offered p])))
        as (s' & E & Eo & Ei & Ed & Ef); [done..|].
      exists s'. assert (offer (inbound_tx s) p = q) as Hoff by (unfold offer; by rewrite Et).
      cbn [is_empty negb map foldl]. rewrite Hoff, orb_true_r.
      split_and!; [|rewrite Eo; cbn; by rewrite <- app_assoc|done..].
      srun. destruct a; [exact E|exact E|done].
    + destruct (IH b (mk_session (with_conn c (link s)) (flags s) (world s) (inbound_tx s) (addr_tx s) (outs s)))
        as (s' & E & Eo & Ei & Ed & Ef); [done..|]. by exists s'.
    + destruct (IH b (mk_session (with_conn c (link s)) (flags s) (world s) (inbound_tx s) (addr_tx s) (outs s)))
        as (s' & E & Eo & Ei & Ed & Ef); [done..|]. by exists s'.
Qed.
End deliver.

(** What comes out of the tunnel is what the datagrams carry: with the
    request open on a stream, a turn empties the queue of the connection and
    offers to the inside the packets of the datagrams of that stream, each
    once and in order; datagrams of other streams, other contexts or no sense
    are skipped, and the turn counts as a round trip exactly when a packet
    came. *)
Theorem tunnel_hands_out_packets `{QuicLib} `{!QuicQueues} `{errs : !SocketErrors} `{!QuicDgrams} {Q AQ : Type}
  `{!Sender Q bytes, !Sender AQ AssignedAddr} {w : arch} (sid : Z) (s : Session Q AQ)
  (Hreq : req_stream (link s) = Some sid)
  (Hq : open_sender (Q := Q))
  (Hds : Forall bytes_ok (dgrams (conn (link s)))) :
  let ps := omap (carried sid) (dgrams (conn (link s))) in
  ∃ s', drain_datagrams s = (Ok (negb (is_empty ps)), s') ∧
    outs s' = outs s ++ map Offered ps ∧
    inbound_tx s' = foldl offer (inbound_tx s) ps ∧
    dgrams (conn (link s')) = [].
Proof.
  unfold drain_datagrams. rewrite Hreq.
  destruct (drain_loop sid (Panic, s) false s Hq Hds) as (s' & E & Eo & Ei & Ed & _). by exists s'.
Qed.

(** ** The check of an endpoint *)

(** [m] keeps [I] however it ends, and its answers satisfy [R]. *)
Definition post {S A} (I : S → Prop) (R : A → S → Prop) (m : act S A) : Prop :=
  ∀ s, I s → I (m s).2 ∧ ∀ a, (m s).1 = Ok a → R a (m s).2.

Lemma post_bind {S A B} (I : S → Prop) (R : A → S → Prop) (R' : B → S → Prop) (m : act S A) (f : A → act S B) :
  post I R m → (∀ a s, I s → R a s → I (f a s).2 ∧ ∀ b, (f a s).1 = Ok b → R' b (f a s).2) → post I R' (m ≫= f).
Proof.
  intros Hm Hf s Hs. rewrite run_bind. destruct (Hm s Hs) as [Hi Hr]. destruct (m s) as [[a| |] s1]; [|done..].
  apply Hf; [done|]. by apply Hr.
Qed.

Lemma post_seq {S A B} (I : S → Prop) (R' : B → S → Prop) (m : act S A) (f : A → act S B) :
  post I (λ _ _, True) m → (∀ a, post I R' (f a)) → post I R' (m ≫= f).
Proof. intros Hm Hf. apply (post_bind _ _ _ _ _ Hm). intros a s Hs _. by apply Hf. Qed.

Lemma post_assoc {S A B C} (I : S → Prop) (R : C → S → Prop) (m : act S A) (f : A → act S B) (g : B → act S C) :
  post I R ((m ≫= f) ≫= g) → post I R (m ≫= λ a, f a ≫= g).
Proof. intros Hp s Hs. rewrite bind_assoc. by apply Hp. Qed.

Lemma post_ret {S A} (I : S → Prop) (a : A) : post I (λ _ _, True) (mret a).
Proof. by intros s Hs. Qed.

Lemma post_fail {S A} (I : S → Prop) (R : A → S → Prop) e : post I R (fail e).
Proof. intros s Hs. split; [done|]. by intros a [=]. Qed.

(** Closes the round of a loop that kept its invariant. *)
Ltac round_kept :=
  intros [= <-]; first [done | split; [done|]; by intros ? [= <-] | split; [done|]; by intros ? [=]].

Section check_inv.
Context `{QuicLib} `{!QuicQueues} `{errs : !SocketErrors} {w : arch}.
Context (p : VerifyParams) (local target : SocketAddr).
Implicit Types k : Check.

Record check_inv k : Prop := {
  ci_count : probe_successes k = Z.of_nat (length (offers_of (k_outs k)));
  ci_req : req_stream (k_link k) ≠ None ∨ connect_ip_ok k = true → requests (k_outs k) ≠ [];
  ci_accepted : Forall (λ r, vp_ech p ≠ None → ech_accepted r.1 = true) (requests (k_outs k));
  ci_keys : Forall (λ ech, match ech with Some key => check_ech_config_list key = Ok tt | None => vp_ech p = None end)
              (connects (k_outs k));
}.

(** A step that changes the connection, the time of the probe, and adds deeds
    that are none of those the invariant looks at. *)
Lemma check_inv_step k k' l :
  check_inv k → probe_successes k' = probe_successes k →
  (req_stream (k_link k') ≠ None → req_stream (k_link k) ≠ None) →
  (connect_ip_ok k' = true → connect_ip_ok k = true ∨ req_stream (k_link k) ≠ None) →
  k_outs k' = k_outs k ++ l → Forall (λ o, is_wire o ∨ is_frame o ∨ ∃ c key, o = Adopted c key) l →
  check_inv k'.
Proof.
  intros [] Hp Hr Hc E Hl.
  assert (∀ A (f : out → option A), (∀ o, is_wire o ∨ is_frame o ∨ (∃ c key, o = Adopted c key) → f o = None) →
    omap f (k_outs k') = omap f (k_outs k)) as Ho.
  { intros A f Hf. rewrite E, omap_app. replace (omap f l) with (@nil A); [by rewrite app_nil_r|].
    clear E. induction Hl as [|o l Ho _ IH]; [done|]. cbn. by rewrite Hf. }
  split; unfold offers_of, requests, connects in *;
    rewrite ?Ho by (intros [] [|[|(c0 & key & Hx)]]; done); [congruence| |done..].
  intros [?|?]; apply ci_req0; naive_solver.
Qed.

Lemma flush_connected_post : post check_inv (λ _ _, True) (flush_connected local target).
Proof.
  intros k Hk. split; [|done]. unfold flush_connected.
  apply (loop_keeps _ _ check_inv (λ r, check_inv r.2)); [done..| |];
    intros k1 r H1; unfold k_flush_step; destruct (send_ _ _) as [[data from to| |] c]; try done;
    try (destruct (socket_error _ _ _ _); [try done|try done]); intros [= <-];
    try (eapply (check_inv_step _ _ []); [exact H1|..]; cbn; rewrite ?app_nil_r; by eauto).
  eapply (check_inv_step _ _ [OnWire local target data]); [exact H1|..]; cbn; eauto. repeat constructor.
Qed.

Lemma send_probe_post sid now :
  post check_inv (λ _ _, True) (send_probe p sid now).
Proof.
  intros k Hk. split; [|done]. unfold send_probe. destruct (encode_ip_datagram _ _) as [d| |]; cbn.
  - eapply (check_inv_step _ _ [Framed d]); [exact Hk|..]; cbn; eauto. apply Forall_singleton. right. by left.
  - eapply (check_inv_step _ _ []); [exact Hk|..]; cbn; rewrite ?app_nil_r; eauto.
  - done.
Qed.

(** A packet of the tunnel is counted. *)
Lemma offered_inv k pkt :
  check_inv k ∧ req_stream (k_link k) ≠ None →
  check_inv (k_tell (Offered pkt) (k_success k)) ∧ req_stream (k_link (k_tell (Offered pkt) (k_success k))) ≠ None.
Proof.
  intros [[] Hr]. split; [|done]. split; cbn; unfold offers_of, requests, connects in *;
    rewrite ?omap_app, ?app_nil_r; try done. rewrite length_app. cbn. lia.
Qed.

Lemma statuses_post sid now l :
  post (λ k, check_inv k ∧ req_stream (k_link k) ≠ None)
    (λ b _, b = true → vp_data_check p = false) (statuses p sid now l).
Proof.
  induction l as [|[name value] l IH]; cbn [statuses]; [intros k Hk; split; [done|by intros a [= <-]]|].
  destruct (list_eqb name _); cbn [negb]; [|exact IH]. destruct (list_eqb value _); cbn [negb]; [|by apply post_fail].
  destruct (vp_data_check p) eqn:Ed; cbn [negb]; [|by intros k Hk].
  intros k [Hk Hr]. rewrite run_bind.
  assert (check_inv (k_accept k)) as H1 by (eapply (check_inv_step _ _ []); [exact Hk|..]; cbn; rewrite ?app_nil_r; eauto).
  rewrite run_bind. pose proof (proj1 (send_probe_post sid now _ H1)) as H2.
  assert (req_stream (k_link (send_probe p sid now (k_accept k)).2) ≠ None) as Hr2
    by (unfold send_probe; by destruct (encode_ip_datagram _ _)).
  destruct (send_probe p sid now (k_accept k)) as [[[]| |] k2]; [|done..]. by apply IH.
Qed.

Lemma k_poll_post sid now h :
  post (λ k, check_inv k ∧ req_stream (k_link k) ≠ None)
    (λ b _, b = true → vp_data_check p = false) (k_poll p sid now h).
Proof.
  intros k Hk. unfold k_poll.
  apply (loop_keeps _ _ (λ st, check_inv st.2 ∧ req_stream (k_link st.2) ≠ None)
    (λ r, (check_inv r.2 ∧ req_stream (k_link r.2) ≠ None) ∧
       ∀ b, r.1 = Ok b → b = true → vp_data_check p = false)); [done..| |];
    clear k Hk; intros [h1 k] r [Hk Hr]; cbn [snd] in *; unfold k_poll_step;
    destruct (poll h1 (k_conn k)) as [[a h2] c2];
    set (k1 := k_set_link _ k);
    (assert (check_inv k1 ∧ req_stream (k_link k1) ≠ None) as H1
      by (split; [eapply (check_inv_step _ _ []); [exact Hk|..]; cbn; rewrite ?app_nil_r; by eauto|done]));
    destruct a as [sx hs|sx|sx|sx code|sx| |t]; try done; try round_kept;
    (destruct (sx =? sid); [|round_kept]);
    pose proof (statuses_post sid now hs k1 H1) as H2;
    destruct (statuses p sid now hs k1) as [[[]| |] k2]; try done; intros [= <-]; first [exact H2|exact (proj1 H2)].
Qed.

Lemma k_dgrams_post sid now :
  post (λ k, check_inv k ∧ req_stream (k_link k) ≠ None)
    (λ b k, b = true → (2 ≤ length (offers_of (k_outs k)))%nat) (k_datagrams p sid now).
Proof.
  intros k Hk. unfold k_datagrams.
  apply (loop_keeps _ _ (λ k, check_inv k ∧ req_stream (k_link k) ≠ None)
    (λ r, (check_inv r.2 ∧ req_stream (k_link r.2) ≠ None) ∧
       ∀ b, r.1 = Ok b → b = true → (2 ≤ length (offers_of (k_outs r.2)))%nat)); [done..| |];
    clear k Hk; intros k r [Hk Hr]; unfold k_dgram_step;
    destruct (dgram_recv (k_conn k)) as [[d|] c]; try done;
    set (k1 := k_set_link _ k);
    (assert (check_inv k1 ∧ req_stream (k_link k1) ≠ None) as H1
      by (split; [eapply (check_inv_step _ _ []); [exact Hk|..]; cbn; rewrite ?app_nil_r; by eauto|done]));
    try done; try round_kept;
    destruct (decode_ip_datagram d sid) as [[pkt|]|e|]; try done; try round_kept;
    set (k2 := k_tell _ _);
    (assert (check_inv k2 ∧ req_stream (k_link k2) ≠ None) as [H2 Hr2] by (by apply offered_inv));
    (destruct (_ >=? _) eqn:Eg; [|
      pose proof (proj1 (send_probe_post sid now k2 H2)) as H3;
      (assert (req_stream (k_link (send_probe p sid now k2).2) ≠ None)
        by (unfold send_probe; by destruct (encode_ip_datagram _ _)));
      destruct (send_probe p sid now k2) as [[] k3]; try done; round_kept]).
  - done.
  - intros [= <-]. split; [done|]. intros _ _ _. pose proof (ci_count _ H2) as Hc.
    unfold DATA_PROBE_REQUIRED_SUCCESSES in Eg. cbn [snd]. lia.
Qed.

Lemma k_data_post now :
  post check_inv (λ b k, b = true → req_stream (k_link k) ≠ None ∧ (2 ≤ length (offers_of (k_outs k)))%nat)
    (k_data p now).
Proof.
  intros k Hk. unfold k_data. destruct (req_stream (k_link k)) as [sid|] eqn:Er.
  - assert (post (λ k, check_inv k ∧ req_stream (k_link k) ≠ None) (λ _ _, True)
      (if now - last_probe k >=? 700 then send_probe p sid now else mret tt)) as Hp.
    { destruct (_ >=? _); [|by intros k1 H1]. intros k1 [H1 Hr1]. split; [|done]. split; [apply send_probe_post, H1|].
      unfold send_probe. by destruct (encode_ip_datagram _ _). }
    destruct (post_bind _ _ _ _ _ Hp (λ _ k1 H1 _, k_dgrams_post sid now k1 H1) k) as [[H1 Hr] H2];
      [by rewrite Er|]. split; [done|]. intros b Eb Hb. split; [done|]. by apply (H2 b).
  - split; [|by intros b [= <-]]. destruct (_ >=? _); [|done]. cbn.
    eapply (check_inv_step _ _ []); [exact Hk|..]; cbn; rewrite ?app_nil_r; eauto.
Qed.

Lemma k_open_post : post check_inv (λ _ _, True) (k_open_request p).
Proof.
  intros k Hk. split; [|done]. unfold k_open_request. destruct (_ && _); [|done].
  destruct (bool_decide (vp_ech p ≠ None) && negb (ech_accepted (k_conn k))) eqn:Ea; [done|].
  assert (vp_ech p ≠ None → ech_accepted (k_conn k) = true) as Hacc.
  { intros He. destruct (ech_accepted _); [done|]. rewrite andb_true_r in Ea. by apply bool_decide_eq_false in Ea. }
  destruct (with_transport _) as [[h c1]| |]; [|done..].
  match goal with |- context [send_request ?hs h c1] => destruct (send_request hs h c1) as [[[sid h'] c2]| |] end; [|done..].
  destruct Hk. split; cbn; unfold offers_of, requests, connects in *; rewrite ?omap_app, ?app_nil_r; try done.
  - intros _ E. by apply app_nil in E as [_ E].
  - apply Forall_app. by split; [|repeat constructor].
Qed.

Lemma k_retry_post : post check_inv (λ _ _, True) (k_retry p local target).
Proof.
  intros k Hk. split; [|done]. unfold k_retry. destruct (_ && _ && _); [|done].
  destruct (extract_ech_retry_configs _) as [key|]; [|done].
  destruct (connect _ _ _ _ _ _) as [r ds] eqn:Ec.
  set (k1 := mk_check _ _ _ _ true _ ds _).
  assert (check_inv k1) as H1.
  { eapply (check_inv_step _ _ [Adopted (k_conn k) key]); [exact Hk|..]; cbn; eauto. constructor; [|done]. do 2 right. by eexists _, _. }
  destruct r as [c| |]; [|done..]. apply connect_key in Ec.
  set (k2 := k_tell _ _). assert (check_inv k2) as H2.
  { destruct H1. split; cbn in *; unfold offers_of, requests, connects in *; rewrite ?(omap_app _ (_ ++ _)), ?app_nil_r; try done.
    - intros [?|?]; [done|]. apply ci_req0. by right.
    - apply Forall_app. by split; [|repeat constructor]. }
  apply (post_bind check_inv _ (λ _ _, True) _ _ flush_connected_post); [|done]. by intros _ k3 H3 _.
Qed.

Definition verified_by (data : bool) k : Prop :=
  requests (k_outs k) ≠ [] ∧ (data = true → (2 ≤ length (offers_of (k_outs k)))%nat).

(** The answer to the request ends the check only when no data are checked. *)
Lemma k_asked_post now :
  post check_inv (λ b k, b = true → verified_by (vp_data_check p) k)
    (k ← get_s;
     match h3_conn (k_link k), req_stream (k_link k) with
     | Some h, Some sid => k_poll p sid now h
     | _, _ => mret false
     end).
Proof.
  intros k Hk. srun. destruct (h3_conn (k_link k)) as [h|]; [|by split; [|intros ? [= <-]]].
  destruct (req_stream (k_link k)) as [sid|] eqn:Er; [|by split; [|intros ? [= <-]]].
  destruct (k_poll_post sid now h k) as [[H1 Hr] H2]; [by rewrite Er|]. split; [done|].
  intros b Eb ->. split; [exact (ci_req _ H1 (or_introl Hr))|]. by rewrite (H2 true Eb eq_refl).
Qed.

Lemma k_answered_post now :
  post check_inv (λ b k, b = true → verified_by (vp_data_check p) k)
    (k ← get_s; if connect_ip_ok k then k_data p now else mret false).
Proof.
  intros k Hk. srun. destruct (connect_ip_ok k) eqn:Ek; [|by split; [|intros ? [= <-]]].
  destruct (k_data_post now k Hk) as [H1 H2]. split; [done|].
  intros b Eb ->. destruct (H2 true Eb eq_refl) as [Hr Ho].
  split; [exact (ci_req _ H1 (or_introl Hr))|done].
Qed.

(** What the answer of a turn says. *)
Definition turn_answer (start_ top after : Z) (r : option Z) k : Prop :=
  match r with
  | Some d => verified_by (vp_data_check p) k ∧ top < start_ + vp_timeout p ∧ d = after - start_
  | None => True
  end.

Lemma check_turn_post start_ top ev after :
  post check_inv (turn_answer start_ top after) (check_turn p local target start_ top ev after).
Proof.
  unfold check_turn. destruct (top >=? start_ + vp_timeout p) eqn:Et; [by intros k Hk; split; [|by intros ? [=]]|].
  assert (top < start_ + vp_timeout p) as Htop by lia. clear Et.
  apply post_seq; [by intros k Hk|intros _]. apply post_seq; [|intros _].
  { intros k Hk. split; [|done]. destruct ev; cbn; [|done|];
      (eapply (check_inv_step _ _ []); [exact Hk|..]; cbn; rewrite ?app_nil_r; by eauto). }
  apply post_seq; [apply k_open_post|intros _]. apply post_assoc.
  eapply post_bind; [apply k_asked_post|]. intros b k Hk Hb. destruct b.
  { split; [done|]. intros r [= <-]. split_and!; [by apply Hb|done|done]. }
  clear Hb. revert k Hk.
  match goal with |- ∀ k, check_inv k → _ => apply post_assoc end.
  eapply post_bind; [apply k_answered_post|]. intros b k Hk Hb. destruct b.
  { split; [done|]. intros r [= <-]. split_and!; [by apply Hb|done|done]. }
  clear Hb. revert k Hk. apply post_seq; [apply flush_connected_post|intros _].
  apply post_seq; [apply k_retry_post|intros b]. destruct b; [by intros k Hk; split; [|intros ? [= <-]]|].
  intros k Hk. srun. by destruct (is_closed _); split; try done; intros ? [= <-].
Qed.

Lemma check_turns_post start_ ts :
  post check_inv
    (λ r k, match r with
            | Some d => verified_by (vp_data_check p) k ∧
                ∃ top ev after, (top, ev, after) ∈ ts ∧ top < start_ + vp_timeout p ∧ d = after - start_
            | None => True
            end)
    (check_turns p local target start_ ts).
Proof.
  induction ts as [|[[top ev] after] ts IH]; cbn [check_turns]; [by intros k Hk; split; [|by intros ? [= <-]]|].
  eapply post_bind; [apply check_turn_post|]. intros [d|] k Hk Hd; cbn.
  - split; [done|]. intros r [= <-]. destruct Hd as (Hv & Ht & Ed). split; [done|].
    exists top, ev, after. split; [set_solver|done].
  - destruct (IH k Hk) as [Hi Hr]. split; [done|]. intros [d|] E; [|done].
    destruct (Hr _ E) as (Hv & top' & ev' & after' & Hin & ?). split; [done|]. exists top', ev', after'. set_solver.
Qed.
End check_inv.

(** An endpoint passes the check only for a reason: the check got its
    request through (over a handshake with the key, when there is one), with
    the data check on two packets came back through the tunnel, and the turn
    in which that happened began before the time was up. *)
Theorem endpoint_verified `{QuicLib} `{!QuicQueues} `{errs : !SocketErrors} `{HexCrate} {w : arch}
  p env local target built attempts now ts g ds d k
  (Hrun : verify_masque p env local target built attempts now ts g ds = Ok (Ok (Some d), k)) :
  requests (k_outs k) ≠ [] ∧
  (vp_data_check p = true → (2 ≤ length (offers_of (k_outs k)))%nat) ∧
  (vp_ech p ≠ None → ∀ c sid, Requested c sid ∈ k_outs k → ech_accepted c = true) ∧
  (vp_ech p ≠ None → ∀ ech c, Connected ech c ∈ k_outs k → ech ≠ None) ∧
  ∃ top ev after, (top, ev, after) ∈ ts ∧ top < now + vp_timeout p ∧ d = after - now.
Proof.
  unfold verify_masque in Hrun. destruct built as [[]| |]; [|done..]. cbn [mbind comp_bind] in Hrun.
  destruct (connect _ _ _ _ _ _) as [[c| |] ds1] eqn:Ec; [|done..]. cbn [mbind comp_bind] in Hrun.
  destruct (if quic_v2_bait_enabled env then _ else _) as [baits ds2].
  destruct (map_err _ _) as [[junk ds3]| |]; [|done..]. cbn [mbind comp_bind mret comp_ret] in Hrun.
  injection Hrun as Hrun.
  match type of Hrun with ?m ?k0 = _ => set (k0' := k0) in *; assert (check_inv p k0') as Hk0 end.
  { apply connect_key in Ec. unfold k0'.
    assert (∀ A (f : out → option A), (∀ o, is_wire o → f o = None) →
      omap f (map (OnWire local target) (baits ++ junk)) = []) as Ho.
    { clear. intros A f Hf. induction (baits ++ junk) as [|x l IH]; [done|]. cbn. by rewrite Hf. }
    split; cbn; unfold offers_of, requests, connects; cbn; rewrite ?Ho by (by intros []); try done.
    - by intros [].
    - constructor; [|done]. by destruct (vp_ech p). }
  destruct (post_seq _ _ _ _ (flush_connected_post p local target)
    (λ _, check_turns_post p local target now ts) k0' Hk0) as [Hi Hr].
  rewrite Hrun in Hi, Hr. cbn [fst snd] in *. destruct Hi. destruct (Hr (Some d) eq_refl) as ((Hq & Hd) & Ht).
  split_and!; try done.
  - intros He c1 sid Hc. rewrite Forall_forall in ci_accepted0. apply (ci_accepted0 (c1, sid)); [|done].
    apply list_elem_of_omap. eauto.
  - intros He ech c1 Hc ->. rewrite Forall_forall in ci_keys0. apply He, (ci_keys0 None).
    apply list_elem_of_omap. by eexists.
Qed.

(** ** A connection to try the theorems on

    It is established by a datagram that starts with 1, has a datagram come in
    by one that starts with 2, and closes by one that starts with 3; packets
    it sends are the bytes it was given. *)
Module Toy.
Record conn := mk_conn {
  est : bool; closed : bool; with_key : bool; out_ : list bytes; in_ : list bytes; events : list poll_answer }.

Definition addr (n : Z) : SocketAddr := SockAddr (V4 n) 443.

Definition lib : QuicLib := {|
  quic := conn;
  h3 := ();
  quiche_connect _ _ _ _ _ := Ok (mk_conn false false false [[9]] [] []);
  prepare_quic c := Ok c;
  set1_ech_config_list _ c := Ok (mk_conn (est c) (closed c) true (out_ c) (in_ c) (events c));
  ech_accepted c := with_key c;
  ech_rejected _ := false;
  get0_ech_retry_configs _ := None;
  is_established c := est c;
  is_draining _ := false;
  is_closed c := closed c;
  send_ack_eliciting c := c;
  dgram_send d c := mk_conn (est c) (closed c) (with_key c) (out_ c ++ [d]) (in_ c) (events c);
  dgram_recv c :=
    match in_ c with
    | [] => (None, c)
    | d :: ds => (Some (map (λ b, b mod 256) d), mk_conn (est c) (closed c) (with_key c) (out_ c) ds (events c))
    end;
  recv_ data _ _ c :=
    match data with
    | 1 :: _ => mk_conn true false (with_key c) (out_ c) (in_ c)
                  (events c ++ [PolledHeaders 4 [(lit ":status", lit "200")]])
    | 2 :: d => mk_conn (est c) (closed c) (with_key c) (out_ c) (in_ c ++ [d]) (events c)
    | 3 :: _ => mk_conn (est c) true (with_key c) (out_ c) (in_ c) (events c)
    | _ => c
    end;
  send_ _ c :=
    match out_ c with
    | [] => (SendDone, c)
    | d :: ds => (SendPacket d (addr 1) (addr 2), mk_conn (est c) (closed c) (with_key c) ds (in_ c) (events c))
    end;
  on_timeout c := c;
  close_ _ c := mk_conn (est c) true (with_key c) (out_ c) (in_ c) (events c);
  available_dcids _ := 0;
  probe_path _ _ c := Ok c;
  migrate_source _ c := Ok c;
  with_transport c := Ok (tt, c);
  send_request _ h c := Ok (4, h, mk_conn (est c) (closed c) (with_key c) (out_ c ++ [[7]]) (in_ c) (events c));
  poll h c :=
    match events c with
    | [] => (PolledDone, h, c)
    | e :: es => (match e with PolledDone | PolledErr _ => PolledOther 0 | _ => e end, h,
                  mk_conn (est c) (closed c) (with_key c) (out_ c) (in_ c) es)
    end;
  recv_body _ h c := (None, h, c);
|}.

#[export] Instance no_errors : @SocketErrors lib := λ _ _ _ _, None.

#[export] Instance queues : @QuicQueues lib.
Proof.
  refine (@Build_QuicQueues lib (λ c, length (out_ c)) (λ c, length (in_ c)) (λ _ c, length (events c)) (λ _ _, O) _ _ _ _ _).
  - intros n c data from to c'. cbn. destruct (out_ c) as [|d ds] eqn:E; [done|]. intros [= _ _ _ <-]. cbn. lia.
  - intros c d c'. cbn. destruct (in_ c) as [|x xs] eqn:E; [done|]. intros [= _ <-]. cbn. lia.
  - intros h c a h' c'. cbn. destruct (events c) as [|x xs] eqn:E; [by intros [= <- _ _]|].
    intros [= <- _ <-]. cbn. destruct x; lia.
  - intros sid h c d h' c'. cbn. intros [= <- _ <-]. split; [lia|done].
  - done.
Defined.

#[export] Instance fifo : @QuicDgrams lib.
Proof.
  refine (@Build_QuicDgrams lib (λ c, map (map (λ b, b mod 256)) (in_ c)) _).
  intros c. cbn. destruct (in_ c) as [|d ds] eqn:E; eexists; (split; [reflexivity|cbn; by rewrite ?E]).
Defined.

Definition key : bytes := list_enc sample_configs.
Definition config (ech : option bytes) : TunnelConfig := {|
  cfg_peer := addr 2; cfg_sni := lit "www.cloudflare.com"; cfg_authority := default_authority; cfg_path := default_path;
  cfg_ech := ech; cfg_max_datagram := 1350; cfg_version_bait := true; cfg_noize := from_profile (lit "off");
  cfg_probe := sample_v4; cfg_data_check := true; cfg_validation := 10000 |}.
Definition setup : Setup := {|
  su_bound := Ok (addr 1); su_associated _ := Err ECancelled; su_shim _ := Err ECancelled |}.
Definition no_env : environment := λ _, None.
Definition empty_world : World := mk_world ∅ [] (mk_detours ∅ 0) (mk_globals None 0) [1; 2; 3].

(** The handshake, a packet out, two packets in, and the end. *)
Definition net (data : bytes) : event := Net (addr 1) (addr 2) data.
Definition script : list Turn :=
  [mk_turn 0 (net [1]) 1; mk_turn 2 ProbeTick 2; mk_turn 3 (Outbound (Some sample_v6)) 3;
   mk_turn 4 (net (2 :: [1; 0] ++ sample_v4)) 4; mk_turn 5 (net (2 :: [1; 0] ++ sample_v6)) 5;
   mk_turn 6 ProbeTick 6; mk_turn 7 (net [3]) 7].

Definition queue : Sender (list bytes) bytes := accept_all.
Definition addrs_queue : Sender (list AssignedAddr) AssignedAddr := accept_all.
#[local] Existing Instances lib queue addrs_queue.

Definition session (w : arch) : comp AetherError (comp AetherError () * Session (list bytes) (list AssignedAddr) * detours) :=
  run (λ s, head (elements s)) None (config (Some key)) no_env setup [Answered] (Ok tt) 0 script empty_world [] None.
End Toy.

#[local] Existing Instances Toy.lib Toy.no_errors Toy.queues Toy.fifo Toy.queue Toy.addrs_queue.

Lemma toy_runs (test : Session (list bytes) (list AssignedAddr) → bool) :
  match Toy.session W64 with Ok (_, s, _) => test s | _ => false end = true →
  ∃ r s reg, Toy.session W64 = Ok (r, s, reg) ∧ test s = true.
Proof. destruct (Toy.session W64) as [[[r s] reg]| |]; [eauto|done..]. Qed.

Lemma session_hides_name_witness :
  ∃ r s reg, Toy.session W64 = Ok (r, s, reg) ∧ length (requests (outs s)) = 1%nat ∧
    Forall (λ ech, ∃ key, ech = Some key ∧ check_ech_config_list key = Ok tt) (connects (outs s)) ∧
    ∀ c sid, Requested c sid ∈ outs s → ech_accepted c = true.
Proof.
  destruct (toy_runs (λ s, bool_decide (length (requests (outs s)) = 1%nat))) as (r & s & reg & E & Hl);
    [vm_compute; reflexivity|].
  exists r, s, reg. split; [exact E|]. split; [exact (bool_decide_eq_true_1 _ Hl)|].
  destruct (session_hides_name _ _ _ _ _ _ _ _ _ _ _ _ _ _ _ E ltac:(discriminate)) as (_ & Hk & _ & Hr).
  split; [exact Hk|exact Hr].
Defined.

Definition is_ready (o : out) : bool := match o with Ready => true | _ => false end.

Lemma ready_after_data_witness :
  ∃ r s reg a b, Toy.session W64 = Ok (r, s, reg) ∧ outs s = a ++ Ready :: b ∧
    (2 ≤ length (offers_of a))%nat.
Proof.
  destruct (toy_runs (λ s, existsb is_ready (outs s))) as (r & s & reg & E & Hl); [vm_compute; reflexivity|].
  assert (Ready ∈ outs s) as Hr.
  { apply existsb_exists in Hl as (o & Ho%list_elem_of_In & Hx). by destruct o. }
  destruct (ready_after_data _ _ _ _ _ _ _ _ _ _ _ _ _ _ _ E Hr) as (a & b & Eo & _ & _ & _ & H2).
  exists r, s, reg, a, b. split; [exact E|]. split; [exact Eo|]. exact (H2 eq_refl).
Defined.

(** A session in the middle of its life: the request is open, three
    datagrams wait. *)
Definition toy_open : Session (list bytes) (list AssignedAddr) :=
  mk_session
    (mk_link (Toy.mk_conn true false true [] [[1; 0] ++ sample_v4; [2; 0] ++ sample_v4; [1; 0] ++ sample_v6] [])
       (Some tt) (Some 4) [])
    (mk_flags true false None false true (Some 100) 0 true true) Toy.empty_world [] None [].

Lemma tunnel_forwards_in_order_witness :
  ∃ ds, frames (outs (turns (w := W64) (λ s, head (elements s)) None (Toy.config None) (Toy.addr 1) Toy.script toy_open).2) = ds ∧
    Forall2 (λ p d, decode_ip_datagram d 4 = Ok (Some p)) [sample_v4; sample_v6] ds.
Proof.
  destruct (tunnel_forwards_in_order (w := W64) (λ s, head (elements s)) None (Toy.config None) (Toy.addr 1) 4 Toy.script toy_open)
    as (_ & ds & Hd & Hf).
  - by unfold u64.
  - split_and!; [done|discriminate|done].
  - exists ds. split; [exact Hd|]. exact Hf.
Defined.

Lemma tunnel_hands_out_packets_witness :
  ∃ s', drain_datagrams toy_open = (Ok true, s') ∧ inbound_tx s' = [sample_v4; sample_v6].
Proof.
  destruct (tunnel_hands_out_packets (w := W64) 4 toy_open) as (s' & E & _ & Hi & _); [done|done|by_decision|].
  exists s'. split; [exact E|exact Hi].
Defined.

Definition toy_check : VerifyParams := {|
  vp_peer := Toy.addr 2; vp_sni := lit "www.cloudflare.com"; vp_authority := default_authority; vp_path := default_path;
  vp_ech := Some Toy.key; vp_noize := from_profile (lit "off"); vp_timeout := 5000; vp_probe := sample_v4;
  vp_data_check := true |}.

Lemma endpoint_verified_witness :
  ∃ d k, verify_masque (w := W64) toy_check Toy.no_env (Toy.addr 1) (Toy.addr 2) (Ok tt) [] 0
    [(1, CRecv [1], 2); (3, CRecv (2 :: [1; 0] ++ sample_v4), 4); (5, CRecv (2 :: [1; 0] ++ sample_v6), 6)]
    (mk_globals None 0) [] = Ok (Ok (Some d), k) ∧
    requests (k_outs k) ≠ [] ∧ (2 ≤ length (offers_of (k_outs k)))%nat.
Proof.
  set (m := verify_masque _ _ _ _ _ _ _ _ _ _).
  assert (∃ d k, m = Ok (Ok (Some d), k)) as (d & k & E).
  { assert (match m with Ok (Ok (Some _), _) => true | _ => false end = true) as Hm by (vm_compute; reflexivity).
    destruct m as [[[[d|]| |] k]| |]; try discriminate Hm. by eexists _, _. }
  exists d, k. split; [exact E|]. unfold m in E.
  destruct (endpoint_verified _ _ _ _ _ _ _ _ _ _ _ _ E) as (Hr & Ho & _). split; [exact Hr|exact (Ho eq_refl)].
Defined.
