(* ===== verification/VersionBait.v ===== *)
(** * The version bait, read by a QUIC endpoint, and the server name

    The packet src/aether/src/quic.rs sends to open the path
    ([build_version_bait]) as the header reader of quiche's packet.rs sees it
    (Packet), and the server name of the handshakes ([masque_sni_of]). *)

From stdpp Require Import strings.
From S2P Require Import Prelude Text Net NetText Octets Error Dns Random Fragment MasqueQuic Wire Frames QuicCrypto Packet.

(** The header a server reads. *)
Definition bait_header (d s : bytes) : Header :=
  mk_header Initial QUIC_V2_VERSION d s 0 0 (Some []) None false.

(** The length of short-header ids does not matter to a long header. *)
Lemma header_any_len {w : arch} n m f r b :
  is_long f = true → u8 f → reads b (f :: r) → header_from_bytes n b = header_from_bytes m b.
Proof.
  intros Hl Hf Hb. destruct (spells_u8 f Hf b r Hb) as (b1 & E & _). 
  assert (∀ n, header_from_bytes n b = match u8_ b with
    | Ok (f, b) => (if negb (is_long f) then dcid ← vec n; mret (mk_header Short 0 dcid [] 0 0 None None false)
       else version ← u32_; ty ← (λ b, ty ← long_type f version; mret (ty, b)); dcid ← long_cid version;
         scid ← long_cid version; '(token, versions) ← long_rest ty;
         mret (mk_header ty version dcid scid 0 0 token versions false)) b
    | Err e => Err e | Panic => Panic end) as Hu by done.
  rewrite !Hu, E. by rewrite Hl.
Qed.

(** The bytes of the bait. *)
Lemma bait_shape ds :
  ∃ d s pn, bytes_ok d ∧ blen d = 8 ∧ bytes_ok s ∧ blen s = 8 ∧ bytes_ok pn ∧ blen pn = 4 ∧
    (build_version_bait ds).1
    = (0xc3 :: header_tail (bait_header d s)) ++ varint_enc 1174 ++ (pn ++ replicate 1170 0).
Proof.
  unfold build_version_bait, mbind, rnd_bind.
  pose proof (always_fill 8 ds) as Hd. destruct (fill_bytes 8 ds) as [d ds1]. cbn [fst] in Hd. destruct Hd as [Hd Ld].
  pose proof (always_fill 8 ds1) as Hs. destruct (fill_bytes 8 ds1) as [s ds2]. cbn [fst] in Hs. destruct Hs as [Hs Ls].
  pose proof (always_fill 4 ds2) as Hp. destruct (fill_bytes 4 ds2) as [pn ds3]. cbn [fst] in Hp. destruct Hp as [Hp Lp].
  exists d, s, pn. split_and!; [done..|]. unfold mret, rnd_ret. cbn [fst].
  change (Z.of_nat 8) with 8 in *. change (Z.of_nat 4) with 4 in *. rewrite Ld, Ls. change (as_u8 8) with 8.
  set (head := [0xc3] ++ be_bytes 4 QUIC_V2_VERSION ++ [8] ++ d ++ [8] ++ s ++ [0x00]).
  assert (blen head = 24) as Lh by (unfold head; rewrite !blen_app, Ld, Ls; done).
  rewrite Lh. change (quic_varint2 (QUIC_V2_BAIT_LEN - 24 - 2)) with (varint_enc 1174).
  assert (blen ((head ++ varint_enc 1174) ++ pn) = 30) as L by (rewrite !blen_app, Lh, Lp; done).
  unfold resize. rewrite L. unfold takez. rewrite take_ge by (unfold blen in L; unfold QUIC_V2_BAIT_LEN; lia).
  change (Z.to_nat (QUIC_V2_BAIT_LEN - 30)) with 1170%nat.
  unfold head, header_tail, token_enc, bait_header. cbn [ty version dcid scid token default].
  change (varint_enc (blen [])) with [0]. rewrite Ld, Ls. rewrite !app_nil_r. cbn [app]. repeat (rewrite <- app_assoc; cbn [app]). done.
Qed.

(** Whatever is drawn, the bait is a datagram of 1200 bytes that a QUIC
    endpoint reads as an Initial packet of version 2 with two ids of eight
    bytes and no token, whose length field covers exactly the rest of the
    datagram; version 2 is one quiche does not speak, so the answer is a
    version negotiation. *)
Theorem bait_is_v2_initial {w : arch} (ds : list Z) (n : Z) :
  let bait := (build_version_bait ds).1 in
  blen bait = QUIC_V2_BAIT_LEN ∧ bytes_ok bait ∧
  version_is_supported QUIC_V2_VERSION = false ∧
  ∃ d s b rest, blen d = 8 ∧ blen s = 8 ∧
    header_from_bytes n (with_slice bait) = Ok (bait_header d s, b) ∧
    varint b = Ok (cap rest, rest).
Proof.
  destruct (bait_shape ds) as (d & s & pn & Hd & Ld & Hs & Ls & Hp & Lp & E). cbv zeta.
  rewrite E. set (bait := _ ++ _ ++ _).
  assert (blen bait = 1200) as Lb.
  { unfold bait, header_tail, token_enc, bait_header. cbn [ty version dcid scid token default app].
    autorewrite with blen. rewrite Ld, Ls, Lp. done. }
  split; [done|]. split.
  { unfold bait, header_tail, token_enc, bait_header. cbn [ty version dcid scid token default]. rewrite Ld, Ls.
    change (0xc3 :: ?l) with ([0xc3] ++ l). unfold bytes_ok in *. rewrite !Forall_app.
    split_and!; try done; by_decision. }
  split; [done|].
  destruct (header_reads (bait_header d s) 0xc3) with (b := with_slice bait) (r := varint_enc 1174 ++ pn ++ replicate 1170 0)
    as (b & Eh & Hb & _).
  - unfold header_ok, bait_header, MAX_CID_LEN. cbn. rewrite Ld, Ls.
    split_and!; first [done|lia|by_decision].
  - done.
  - unfold tells. split; [done|]. split; done.
  - apply reads_with_slice.
  - destruct (spells_varint 1174 ltac:(unfold varint_ok, MAX_VAR_INT; lia) b _ Hb) as (rest & Ev & Hr & _).
    exists d, s, b, rest. split; [done|]. split; [done|]. split.
    + etransitivity; [|exact Eh]. by eapply (header_any_len n _ 0xc3), reads_with_slice.
    + rewrite Ev. rewrite (reads_cap _ _ Hr). rewrite blen_app, Lp, blen_replicate. done.
Qed.

(** The server name of the handshakes is a domain name: with none given
    it is the default, else what was given without the white space around it
    and one trailing dot, and never an address or a name that is none. *)
Theorem masque_sni_is_domain (value : bytes) :
  match masque_sni_of value with
  | Ok name =>
      (trim value = [] ∧ name = DEFAULT_MASQUE_SNI ∨ trim value = name ∨ trim value = name ++ [46]) ∧
      valid_domain name = true ∧ parse_ip name = None ∧ ends_with [46] name = false
  | Err e => e = ETls (lit "--masque-sni: " ++ trim value ++ lit " is no domain name") ∧ trim value ≠ []
  | Panic => False
  end.
Proof.
  unfold masque_sni_of. destruct (trim value) as [|x t] eqn:E; cbn [is_empty].
  { split; [by left|]. by vm_compute. }
  set (name := default (x :: t) (strip_suffix [46] (x :: t))).
  destruct (ends_with [46] name) eqn:Ee; [done|].
  destruct (bool_decide_reflect (is_Some (parse_ip name))) as [|Hi]; [done|].
  destruct (valid_domain name) eqn:Ev; [|done]. cbn [orb negb mret comp_ret]. split; [|split; [done|]].
  - right. unfold name. destruct (strip_suffix [46] (x :: t)) as [r|] eqn:Es; [right|by left].
    by apply strip_suffix_Some in Es.
  - split; [|done]. destruct (parse_ip name); [|done]. by destruct Hi.
Qed.
