(* ===== verification/Candidates.v ===== *)
(** * The candidates of a search

    The addresses and ports src/aether/src/prober.rs (MASQUE) and wg_prober.rs
    (WireGuard) try in their search for an endpoint: the constant seeds and
    ranges, hosts of a range listed or drawn at random, and the order of the
    tries.  Both files have the same routines on ranges; they are here once.

    A routine that draws takes the draws as a list; unlike the routines of
    Random.v it can draw any number of times ([sample_cidr_v4] draws until it
    has enough different hosts), so it ends with [None] where the list does. *)

From stdpp Require Import strings sorting.
From S2P Require Import Prelude Text Net NetText Fragment.

(** ** Constants *)

Definition MASQUE_CIDRS_V4 : list bytes :=
  map lit ["162.159.196.0/24"; "162.159.195.0/24"; "162.159.192.0/24"; "162.159.193.0/24"; "162.159.204.0/24";
    "162.159.197.0/24"; "162.159.198.0/24"; "162.159.199.0/24"; "172.65.251.0/24"; "188.114.96.0/24";
    "188.114.97.0/24"; "188.114.98.0/24"; "188.114.99.0/24"; "162.159.36.0/24"; "162.159.46.0/24"]%string.

Definition MASQUE_SEEDS : list bytes :=
  map lit ["162.159.196.1"; "162.159.195.1"; "162.159.192.1"; "162.159.197.3"; "162.159.197.1"; "162.159.198.2";
    "162.159.198.1"; "162.159.193.1"; "162.159.199.2"; "162.159.197.2"]%string.

Definition MASQUE_GATEWAYS_V4 : list bytes :=
  map lit ["162.159.198.183"; "162.159.198.206"; "162.159.198.226"; "162.159.198.125"; "162.159.198.72";
    "162.159.198.89"; "162.159.198.198"; "162.159.198.131"; "162.159.198.245"; "162.159.198.114";
    "162.159.198.31"; "162.159.198.60"; "162.159.198.4"; "162.159.198.65"; "162.159.198.33"; "162.159.198.86";
    "162.159.198.244"; "162.159.198.123"; "162.159.198.233"; "162.159.198.69"; "162.159.198.255";
    "162.159.198.176"; "162.159.198.186"; "162.159.198.63"; "162.159.198.37"; "162.159.198.169";
    "162.159.198.147"; "162.159.198.120"; "162.159.198.135"; "162.159.198.54"; "162.159.198.234";
    "162.159.198.109"; "162.159.198.175"; "162.159.198.231"; "162.159.198.219"; "162.159.198.216";
    "162.159.198.64"; "162.159.198.250"; "162.159.198.184"; "162.159.198.74"; "162.159.198.241";
    "162.159.198.213"; "162.159.198.232"; "162.159.198.75"; "162.159.198.77"; "162.159.198.172";
    "162.159.198.145"; "162.159.198.36"; "162.159.198.124"; "162.159.198.80"; "162.159.198.192";
    "162.159.198.82"; "162.159.198.137"; "162.159.198.141"; "162.159.198.48"; "162.159.198.71";
    "162.159.198.227"; "162.159.198.207"; "162.159.198.49"; "162.159.198.178"; "162.159.198.197";
    "162.159.198.203"; "162.159.198.204"; "162.159.198.205"; "162.159.198.195"; "162.159.198.230";
    "162.159.198.202"; "162.159.198.53"; "162.159.198.79"; "162.159.198.58"; "162.159.198.35";
    "162.159.198.239"; "162.159.198.116"; "162.159.198.127"; "162.159.198.240"; "162.159.199.87";
    "162.159.199.117"; "162.159.199.48"; "162.159.199.217"; "162.159.199.65"; "162.159.199.198";
    "162.159.199.47"; "162.159.199.103"; "162.159.199.133"; "162.159.199.151"; "162.159.199.195";
    "162.159.199.73"; "162.159.199.156"; "162.159.199.247"; "162.159.199.127"; "162.159.199.158";
    "162.159.199.208"; "162.159.199.82"; "162.159.199.213"; "162.159.199.70"; "162.159.199.243";
    "162.159.199.204"; "162.159.199.154"; "162.159.199.240"; "162.159.199.236"; "162.159.199.126";
    "162.159.199.186"; "162.159.199.188"; "162.159.199.187"; "162.159.199.124"; "162.159.199.43";
    "162.159.199.102"; "162.159.199.60"; "162.159.199.219"; "162.159.199.163"; "162.159.199.193";
    "162.159.199.135"; "162.159.199.110"; "162.159.199.94"; "162.159.199.136"; "162.159.199.233";
    "162.159.199.77"; "162.159.199.241"; "162.159.199.223"; "162.159.199.120"; "162.159.199.38";
    "162.159.199.75"; "162.159.199.57"; "162.159.199.118"; "162.159.199.50"; "162.159.199.76";
    "162.159.199.58"; "162.159.199.145"; "162.159.199.81"; "162.159.199.54"; "162.159.199.234";
    "162.159.199.157"; "162.159.199.121"; "162.159.199.246"; "162.159.199.182"; "162.159.199.1";
    "162.159.199.251"; "162.159.199.35"; "162.159.199.179"; "162.159.199.147"; "162.159.199.137";
    "162.159.199.49"; "162.159.199.138"; "162.159.199.116"; "162.159.199.172"; "162.159.199.42";
    "162.159.199.160"; "162.159.199.88"; "162.159.199.212"; "162.159.199.174"; "162.159.199.79";
    "162.159.199.105"; "162.159.199.130"; "162.159.199.252"; "162.159.199.238"; "162.159.199.248";
    "162.159.199.125"; "162.159.199.62"; "162.159.199.34"; "162.159.199.239"; "162.159.199.84";
    "162.159.199.104"; "162.159.199.196"; "162.159.199.72"; "162.159.199.97"; "162.159.199.74";
    "162.159.199.229"; "162.159.199.159"; "162.159.199.192"; "162.159.199.201"; "162.159.199.44";
    "162.159.199.222"; "162.159.199.142"; "162.159.199.78"; "162.159.199.235"; "162.159.199.168";
    "162.159.199.162"; "162.159.199.39"; "162.159.199.209"; "162.159.199.111"; "162.159.199.139";
    "162.159.199.113"; "162.159.199.215"; "162.159.199.245"; "162.159.199.86"; "162.159.199.46";
    "162.159.199.180"; "162.159.199.66"; "162.159.199.173"; "162.159.199.53"; "162.159.199.216";
    "162.159.199.237"; "162.159.199.114"; "162.159.199.109"; "162.159.199.214"; "162.159.199.190";
    "162.159.199.106"; "162.159.199.100"; "162.159.199.92"; "162.159.199.96"; "162.159.199.61";
    "162.159.199.108"; "162.159.199.64"; "162.159.199.101"; "162.159.199.140"; "162.159.199.123";
    "162.159.199.112"; "162.159.199.199"; "162.159.199.225"; "162.159.199.83"; "162.159.199.69";
    "162.159.199.90"; "162.159.199.153"; "162.159.199.115"; "162.159.199.149"; "162.159.199.36";
    "162.159.199.224"; "162.159.199.155"; "162.159.199.37"; "162.159.199.52"; "162.159.199.63";
    "162.159.199.164"; "162.159.199.253"; "162.159.199.141"; "162.159.199.242"; "162.159.199.89";
    "162.159.199.67"; "162.159.199.185"; "162.159.199.98"; "162.159.199.167"; "162.159.199.0";
    "162.159.199.176"; "162.159.199.189"; "162.159.199.218"; "162.159.199.211"; "162.159.199.221";
    "162.159.199.220"; "162.159.199.231"; "162.159.199.230"; "162.159.199.206"; "162.159.199.175";
    "162.159.199.184"; "162.159.199.203"; "162.159.199.255"; "162.159.199.171"; "162.159.199.45";
    "162.159.199.228"; "162.159.199.177"; "162.159.199.165"; "162.159.199.122"; "162.159.199.99";
    "162.159.199.183"; "162.159.199.161"; "162.159.199.144"; "162.159.199.119"; "162.159.199.128";
    "162.159.199.146"; "162.159.199.148"; "162.159.199.68"; "162.159.199.56"; "162.159.199.95";
    "162.159.199.55"; "162.159.199.197"; "162.159.199.41"; "162.159.199.194"; "162.159.199.226";
    "162.159.199.134"; "162.159.199.249"; "162.159.199.232"; "162.159.199.227"; "162.159.199.191";
    "162.159.199.150"; "162.159.199.170"; "162.159.199.202"; "162.159.199.169"; "162.159.199.207";
    "162.159.199.166"; "162.159.199.250"; "162.159.199.210"; "162.159.199.181"; "162.159.199.132";
    "162.159.199.129"; "162.159.199.107"; "162.159.199.71"; "162.159.199.152"; "162.159.199.91";
    "162.159.199.131"; "162.159.199.205"; "162.159.199.85"; "162.159.199.59"; "162.159.199.51";
    "162.159.199.143"; "162.159.199.244"; "162.159.199.254"; "162.159.199.178"; "162.159.199.200";
    "162.159.199.93"]%string.

Definition MASQUE_CIDRS_V6 : list bytes :=
  map lit ["2606:4700:d0::/48"; "2606:4700:102::/48"; "2606:4700:d1::/48"; "2606:4700:103::/48"]%string.

Definition MASQUE_ZT_CIDRS_V4 : list bytes :=
  map lit ["162.159.197.0/24"]%string.

Definition MASQUE_ZT_CIDRS_V6 : list bytes :=
  map lit ["2606:4700:102::/48"]%string.

Definition MASQUE_SEEDS_V6 : list bytes :=
  map lit ["2606:4700:103::1"; "2606:4700:d0::a29f:c602"; "2606:4700:d1::a29f:c602"; "2606:4700:d0::a29f:c601";
    "2606:4700:d0::a29f:c001"]%string.

Definition MASQUE_GATEWAYS_V6 : list bytes :=
  map lit ["2606:4700:103::1"]%string.

Definition MASQUE_WARP_CIDRS_V6 : list bytes :=
  map lit ["2606:4700:103::/48"]%string.

Definition MASQUE_PORTS : list Z :=
  [443; 500; 1701; 4500; 4443; 8443; 8095].

Definition WG_PREFIXES_V4 : list bytes :=
  map lit ["162.159.192.0/24"; "162.159.195.0/24"; "188.114.96.0/24"; "188.114.97.0/24"; "188.114.98.0/24";
    "188.114.99.0/24"; "162.159.193.0/24"]%string.

Definition WG_PREFIXES_V6 : list bytes :=
  map lit ["2606:4700:d0::/64"; "2606:4700:d1::/64"; "2606:4700:100::/48"]%string.

Definition WG_ZT_PREFIXES_V4 : list bytes :=
  map lit ["162.159.193.0/24"]%string.

Definition WG_ZT_PREFIXES_V6 : list bytes :=
  map lit ["2606:4700:100::/48"]%string.

Definition WG_SEEDS_V4 : list bytes :=
  map lit ["162.159.192.1"; "162.159.195.1"; "188.114.96.1"; "188.114.97.1"; "162.159.193.1"]%string.

Definition WG_SEEDS_V6 : list bytes :=
  map lit ["2606:4700:d0::a29f:c001"; "2606:4700:d1::a29f:c001"; "2606:4700:d0::a29f:c301"; "2606:4700:d0::bc72:6001"]%string.

Definition WG_PORTS : list Z :=
  [2408; 500; 1701; 4500; 854; 859; 864; 878; 880; 890; 891; 894; 903; 908; 928; 934; 939; 942; 943;
   945; 946; 955; 968; 987; 988; 1002; 1010; 1014; 1018; 1070; 1074; 1180; 1387; 1843; 2371; 2506; 3138;
   3476; 3581; 3854; 4177; 4198; 4233; 5279; 5956; 7103; 7152; 7156; 7281; 7559; 8319; 8742; 8854; 8886].

(** ** Settings *)

Definition zero_trust_mode (env : environment) : bool :=
  match env (lit "AETHER_TEAM") with Some value => negb (is_empty (trim value)) | None => false end.

(** [if !out.contains(entry) { out.push(entry) }], and the pushes guarded by a
    set of what was pushed. *)
Definition push {A} `{EqDecision A} (out : list A) (x : A) : list A :=
  if bool_decide (x ∈ out) then out else out ++ [x].

Definition prioritize (env : environment) (all first : list bytes) : list bytes :=
  if negb (zero_trust_mode env) then all
  else foldl push (filter (λ entry, entry ∈ all) first) all.

Definition masque_cidrs_v4 (env : environment) : list bytes := prioritize env MASQUE_CIDRS_V4 MASQUE_ZT_CIDRS_V4.
Definition masque_cidrs_v6 (env : environment) : list bytes := prioritize env MASQUE_CIDRS_V6 MASQUE_ZT_CIDRS_V6.
Definition wg_prefixes_v4 (env : environment) : list bytes := prioritize env WG_PREFIXES_V4 WG_ZT_PREFIXES_V4.
Definition wg_prefixes_v6 (env : environment) : list bytes := prioritize env WG_PREFIXES_V6 WG_ZT_PREFIXES_V6.
Definition wg_seeds_v4 (env : environment) : list bytes := prioritize env WG_SEEDS_V4 [lit "162.159.193.1"].

Inductive IpScan := ScanV4 | ScanV6 | ScanBoth.

Definition IpScan_parse `{UnicodeCase} (s : bytes) : IpScan :=
  let t := to_lowercase (trim s) in
  if bool_decide (t ∈ map lit ["6"; "v6"; "ipv6"]%string) then ScanV6
  else if bool_decide (t ∈ map lit ["both"; "all"; "dual"]%string) then ScanBoth
  else ScanV4.

Definition want_v4 (i : IpScan) : bool := match i with ScanV4 | ScanBoth => true | ScanV6 => false end.
Definition want_v6 (i : IpScan) : bool := match i with ScanV6 | ScanBoth => true | ScanV4 => false end.

(** ** Drawing *)

Definition sampler (A : Type) : Type := list Z → option (A * list Z).

#[export] Instance sampler_ret : MRet sampler := λ A a ds, Some (a, ds).
#[export] Instance sampler_bind : MBind sampler := λ A B f m ds,
  match m ds with Some (a, ds) => f a ds | None => None end.

Definition sample_draw : sampler Z := λ ds, match ds with d :: ds => Some (d, ds) | [] => None end.

Fixpoint sample_times {A} (n : nat) (m : sampler A) : sampler (list A) :=
  match n with
  | O => mret []
  | S n => a ← m; rest ← sample_times n m; mret (a :: rest)
  end.

Fixpoint sample_each {A B} (f : A → sampler B) (l : list A) : sampler (list B) :=
  match l with
  | [] => mret []
  | x :: l => b ← f x; rest ← sample_each f l; mret (b :: rest)
  end.

(** ** Ranges of addresses *)

Definition parse_cidr_v4 (cidr : bytes) : option (Z * Z) :=
  '(ip, prefix) ← split_once 47 cidr;
  a ← parse_ipv4 ip; p ← parse_uint 255 prefix; Some (a, p).

Definition parse_cidr_v6 (cidr : bytes) : option (Z * Z) :=
  '(ip, prefix) ← split_once 47 cidr;
  a ← parse_ipv6 ip; p ← parse_uint 255 prefix; Some (a, p).

(** [Ipv4Addr::from(base + off)]; the release build wraps. *)
Definition host_v4 (base off : Z) : Z := (base + off) mod 2 ^ 32.

Definition enumerate_cidr_v4 (cidr : bytes) : list Z :=
  match parse_cidr_v4 cidr with
  | None => []
  | Some (base, prefix) =>
      let host_bits := saturating_sub 32 prefix in
      if host_bits =? 0 then [base]
      else if host_bits >? 12 then []
      else map (host_v4 base) (seqZ 1 (2 ^ host_bits - 2))
  end.

(** The loop of [sample_cidr_v4], over the draws. *)
Fixpoint sample_hosts (base usable want : Z) (chosen out : list Z) (ds : list Z) : option (list Z * list Z) :=
  if blen out >=? want then Some (out, ds)
  else
    match ds with
    | [] => None
    | d :: ds =>
        let off := 1 + d mod usable in
        if bool_decide (off ∈ chosen) then sample_hosts base usable want chosen out ds
        else sample_hosts base usable want (off :: chosen) (out ++ [host_v4 base off]) ds
    end.

Definition sample_cidr_v4 (cidr : bytes) (n : Z) : sampler (list Z) :=
  match parse_cidr_v4 cidr with
  | None => mret []
  | Some (base, prefix) =>
      let host_bits := saturating_sub 32 prefix in
      let size := if host_bits >=? 32 then 2 ^ 32 - 1 else 2 ^ host_bits in
      if size <=? 2 then mret [base]
      else
        let usable := size - 2 in
        let want := Z.min (n mod 2 ^ 32) usable in
        sample_hosts base usable want [] []
  end.

(** An address with an IPv4 address of the ranges in its last 32 bits. *)
Definition sample_v6 (base : Z) (v4 : list (Z * Z)) : sampler Z :=
  embedded ←
    match v4 with
    | [] => d ← sample_draw; mret (d mod 2 ^ 32)
    | _ =>
        i ← sample_draw;
        let '(b, p) := nth (Z.to_nat (i mod blen v4)) v4 (0, 0) in
        let host_bits := saturating_sub 32 p in
        host ← if host_bits =? 0 then mret 0
               else d ← sample_draw; mret (Z.land (d mod 2 ^ 32) (2 ^ (host_bits mod 32) - 1));
        mret (Z.lor b host)
    end;
  mret (Z.lor base embedded).

Definition sample_cidr_v6 (cidr : bytes) (n : Z) (v4_cidrs : list bytes) : sampler (list Z) :=
  match parse_cidr_v6 cidr with
  | None => mret []
  | Some (base, prefix) =>
      if saturating_sub 128 prefix =? 0 then mret [base]
      else sample_times (Z.to_nat n) (sample_v6 base (omap parse_cidr_v4 v4_cidrs))
  end.

(** [for i in 0..max_len { for hosts in &lists { if let Some(a) = hosts.get(i) ... } } }]. *)
Definition max_len {A} (ls : list (list A)) : nat := foldr (λ l n, Nat.max (length l) n) 0%nat ls.
Definition interleave {A} (ls : list (list A)) : list A :=
  flat_map (λ i, omap (λ hosts : list A, hosts !! i) ls) (seq 0 (max_len ls)).

(** ** The candidates of the MASQUE scan *)

Record Strategy := mk_strategy {
  concurrency : Z;
  per_probe_timeout : Z;
  overall_deadline : Z;
  quiet_after_first : Z;
  target_successes : Z;
  early_exit_first : bool;
  full_subnet : bool;
  sample_per_cidr : Z;
}.

Definition candidate : Type := IpAddr * Z.

(** [addresses] on the other ports. *)
Definition on_others (primary : Z) (ports : list Z) (addresses : list IpAddr) : list candidate :=
  flat_map (λ a, map (λ p, (a, p)) (filter (λ p, p ≠ primary) ports)) addresses.

(** The tries on the first port, seeds before ranges, then the seeds on the
    other ports. *)
Definition order_candidates (st : Strategy) (ports : list Z) (ip : IpScan) (seeds seeds6 : list IpAddr)
    (ranges ranges6 : list bytes) : sampler (list candidate) :=
  let primary := default 443 (head ports) in
  let on_primary := map (λ a : IpAddr, (a, primary)) in
  out ← (if want_v4 ip then
           let out := foldl push [] (on_primary seeds) in
           cidr_hosts ← sample_each (λ c, if full_subnet st then mret (enumerate_cidr_v4 c)
                                          else sample_cidr_v4 c (sample_per_cidr st)) ranges;
           mret (foldl push out (on_primary (map V4 (interleave cidr_hosts))))
         else mret []);
  out ← (if want_v6 ip then
           let out := foldl push out (on_primary seeds6) in
           let per := if sample_per_cidr st =? 0 then 96 else sample_per_cidr st in
           cidr6 ← sample_each (λ c, sample_cidr_v6 c per MASQUE_CIDRS_V4) ranges6;
           mret (foldl push out (on_primary (map V6 (interleave cidr6))))
         else mret out);
  let out := if want_v4 ip then foldl push out (on_others primary ports seeds) else out in
  let out := if want_v6 ip then foldl push out (on_others primary ports seeds6) else out in
  mret out.

Definition build_candidates (env : environment) (st : Strategy) (ports : list Z) (ip : IpScan) (team : bool)
    : sampler (list candidate) :=
  let v4_seeds := if team then MASQUE_SEEDS else MASQUE_GATEWAYS_V4 in
  let ranges := if team then masque_cidrs_v4 env else [] in
  let v6_seeds := if team then MASQUE_SEEDS_V6 else MASQUE_GATEWAYS_V6 in
  let ranges6 := if team then masque_cidrs_v6 env else MASQUE_WARP_CIDRS_V6 in
  order_candidates st ports ip (map V4 (omap parse_ipv4 v4_seeds)) (map V6 (omap parse_ipv6 v6_seeds)) ranges ranges6.

Definition leave_out (candidates : list candidate) (avoid : list IpAddr) : list candidate :=
  filter (λ c, c.1 ∉ avoid) candidates.

(** ** The candidates of the WireGuard scan *)

Record WgStrategy := mk_wg_strategy { wg_common : Strategy; pool_port_waves : Z }.

(** The addresses of the scan: the seeds, then the hosts of the ranges. *)
Definition wg_anchors (env : environment) (ip : IpScan) : list IpAddr :=
  (if want_v4 ip then map V4 (omap parse_ipv4 (wg_seeds_v4 env)) else []) ++
  (if want_v6 ip then map V6 (omap parse_ipv6 WG_SEEDS_V6) else []).

Definition wg_pool (env : environment) (st : Strategy) (ip : IpScan) : sampler (list IpAddr) :=
  pool ← (if want_v4 ip then
            cidr_hosts ← sample_each (λ c, if full_subnet st then mret (enumerate_cidr_v4 c)
                                           else sample_cidr_v4 c (sample_per_cidr st)) (wg_prefixes_v4 env);
            mret (map V4 (interleave cidr_hosts))
          else mret []);
  if want_v6 ip then
    let per := if sample_per_cidr st =? 0 then 80 else sample_per_cidr st in
    cidr6 ← sample_each (λ c, sample_cidr_v6 c per WG_PREFIXES_V4) (wg_prefixes_v6 env);
    mret (pool ++ map V6 (interleave cidr6))
  else mret pool.

(** Each address on one port a wave, the ports shifted from address to address
    and from wave to wave. *)
Definition wave_of (ports : list Z) (ips : list IpAddr) (wave : nat) : list candidate :=
  imap (λ idx ip, (ip, nth ((idx + wave) mod length ports) ports 0)) ips.

Definition wg_push (excluded : list SocketAddr) (out : list candidate) (c : candidate) : list candidate :=
  if bool_decide (SockAddr c.1 c.2 ∈ excluded) then out else push out c.

Definition wg_waves (excluded : list SocketAddr) (waves : nat) (ports : list Z) (ips : list IpAddr) : list candidate :=
  foldl (wg_push excluded) [] (flat_map (wave_of ports ips) (seq 0 waves)).

Definition build_wg_candidates (env : environment) (st : WgStrategy) (ports : list Z) (ip : IpScan)
    (excluded : list SocketAddr) : sampler (list candidate) :=
  let deduped := foldl push [] ports in
  let ports := if is_empty deduped then [2408] else deduped in
  pool ← wg_pool env (wg_common st) ip;
  let ips := foldl push [] (wg_anchors env ip ++ pool) in
  mret (wg_waves excluded (Z.to_nat (Z.max (pool_port_waves st) 1)) ports ips).

(** ** Pushing what is new *)
Section push.
Context {A : Type} `{EqDecision A}.
Implicit Types (out l : list A).

Lemma elem_of_push out x y : y ∈ push out x ↔ y ∈ out ∨ y = x.
Proof. unfold push. case_bool_decide; set_solver. Qed.

Lemma push_NoDup out x : NoDup out → NoDup (push out x).
Proof.
  unfold push. case_bool_decide as Hx; [done|]. intros Hn. apply NoDup_app. split; [done|].
  split; [|apply NoDup_singleton]. intros y Hy. rewrite list_elem_of_singleton. intros ->. done.
Qed.

Lemma elem_of_pushes out l y : y ∈ foldl push out l ↔ y ∈ out ∨ y ∈ l.
Proof.
  revert out. induction l as [|x l IH]; intros out; cbn [foldl]; [set_solver|]. rewrite IH, elem_of_push. set_solver.
Qed.

Lemma pushes_NoDup out l : NoDup out → NoDup (foldl push out l).
Proof. revert out. induction l as [|x l IH]; intros out Hn; cbn [foldl]; [done|]. by apply IH, push_NoDup. Qed.

(** What is new comes after what was there, in its order. *)
Lemma pushes_new out l : NoDup (out ++ l) → foldl push out l = out ++ l.
Proof.
  revert out. induction l as [|x l IH]; intros out Hn; cbn [foldl]; [by rewrite app_nil_r|].
  apply NoDup_app in Hn as (Ho & Hd & Hl). apply NoDup_cons in Hl as [Hx Hl].
  unfold push at 2. rewrite bool_decide_eq_false_2 by (intros Hin; apply (Hd x Hin); set_solver).
  rewrite IH, <- app_assoc; [done|]. apply NoDup_app. split_and!; [|set_solver|done].
  apply NoDup_app. split_and!; [done| |apply NoDup_singleton]. intros y Hy Hyx. apply (Hd y Hy). set_solver.
Qed.

Lemma pushes_extend out l : ∃ t, foldl push out l = out ++ t ∧ ∀ y, y ∈ t → y ∈ l.
Proof.
  revert out. induction l as [|x l IH]; intros out; cbn [foldl]; [exists []; rewrite app_nil_r; set_solver|].
  destruct (IH (push out x)) as (t & -> & Ht). unfold push. case_bool_decide.
  - exists t. set_solver.
  - exists (x :: t). rewrite <- app_assoc. set_solver.
Qed.
End push.

Lemma prioritize_perm env all first : NoDup all → NoDup first → prioritize env all first ≡ₚ all.
Proof.
  intros Ha Hf. unfold prioritize. destruct (zero_trust_mode env); [|done]. cbn [negb].
  apply NoDup_Permutation; [by apply pushes_NoDup, NoDup_filter|done|].
  intros x. rewrite elem_of_pushes, list_elem_of_filter. naive_solver.
Qed.

(** ** Hosts of a range *)

Definition in_v4 (cidr : bytes) (a : IpAddr) : Prop :=
  match parse_cidr_v4 cidr, a with
  | Some (base, p), V4 a => base ≤ a < base + 2 ^ (32 - p)
  | _, _ => False
  end.

Definition in_v6 (cidr : bytes) (a : IpAddr) : Prop :=
  match parse_cidr_v6 cidr, a with
  | Some (base, p), V6 a => Z.shiftr a (128 - p) = Z.shiftr base (128 - p)
  | _, _ => False
  end.

(** Ranges that are what the routines expect: inside the address space, and
    over IPv6 with room for an IPv4 address. *)
Definition good_v4 (cidr : bytes) : bool :=
  match parse_cidr_v4 cidr with
  | Some (base, p) => (1 <=? p) && (p <=? 32) && (0 <=? base) && (base + 2 ^ (32 - p) <=? 2 ^ 32)
  | None => false
  end.
Definition good_v6 (cidr : bytes) : bool :=
  match parse_cidr_v6 cidr with Some (base, p) => (0 <=? p) && (p <=? 96) && (0 <=? base) | None => false end.

Lemma host_v4_in base off p : 0 ≤ base → base + 2 ^ (32 - p) ≤ 2 ^ 32 → 0 ≤ off < 2 ^ (32 - p) →
  base ≤ host_v4 base off < base + 2 ^ (32 - p).
Proof. intros Hb Hs Ho. unfold host_v4. rewrite Z.mod_small; lia. Qed.

Lemma good_v4_inv cidr : good_v4 cidr = true →
  ∃ base p, parse_cidr_v4 cidr = Some (base, p) ∧ 1 ≤ p ≤ 32 ∧ 0 ≤ base ∧ base + 2 ^ (32 - p) ≤ 2 ^ 32 ∧
    saturating_sub 32 p = 32 - p ∧ 0 < 2 ^ (32 - p).
Proof.
  unfold good_v4. destruct (parse_cidr_v4 cidr) as [[base p]|]; [|done]. rewrite !andb_true_iff, !Z.leb_le.
  intros [[[H1 H2] H3] H4]. exists base, p. unfold saturating_sub. split_and!; try done; try lia.
Qed.

Lemma enumerate_in cidr a : good_v4 cidr = true → a ∈ enumerate_cidr_v4 cidr → in_v4 cidr (V4 a).
Proof.
  intros (base & p & E & Hp & Hb & Hs & Hh & Hpos)%good_v4_inv. unfold enumerate_cidr_v4, in_v4. rewrite E, Hh.
  destruct (Z.eqb_spec (32 - p) 0) as [->|Hne]; [intros ->%list_elem_of_singleton; lia|].
  destruct (_ >? 12); [by intros ?%not_elem_of_nil|]. intros (off & <- & Ho)%list_elem_of_In%in_map_iff.
  apply list_elem_of_In, elem_of_seqZ in Ho. apply host_v4_in; lia.
Qed.

(** The draws: offsets of hosts. *)
Lemma sample_hosts_spec base usable want chosen out ds r ds' :
  0 < usable → sample_hosts base usable want chosen out ds = Some (r, ds') →
  out = map (host_v4 base) (reverse chosen) → NoDup chosen → Forall (λ o, 1 ≤ o ≤ usable) chosen → blen out ≤ want →
  ∃ offs, r = map (host_v4 base) offs ∧ NoDup offs ∧ Forall (λ o, 1 ≤ o ≤ usable) offs ∧ blen r = want.
Proof.
  intros Hu. revert chosen out. induction ds as [|d ds IH]; intros chosen out; cbn [sample_hosts].
  - destruct (blen out >=? want) eqn:E; [|done]. intros [= <- <-] Eo Hn Hc Hw. exists (reverse chosen).
    split_and!; [done|by rewrite reverse_Permutation|by apply Forall_reverse|lia].
  - destruct (blen out >=? want) eqn:E.
    + intros [= <- <-] Eo Hn Hc Hw. exists (reverse chosen).
      split_and!; [done|by rewrite reverse_Permutation|by apply Forall_reverse|lia].
    + case_bool_decide as Hin; [apply IH|]. intros Er Eo Hn Hc Hw. eapply IH; [exact Er| | | |].
      * rewrite reverse_cons, map_app, <- Eo. done.
      * by apply NoDup_cons.
      * constructor; [|done]. pose proof (Z.mod_pos_bound d usable Hu). lia.
      * rewrite blen_app, blen_cons, blen_nil. lia.
Qed.

Lemma sample_in cidr n ds r ds' a :
  good_v4 cidr = true → sample_cidr_v4 cidr n ds = Some (r, ds') → a ∈ r → in_v4 cidr (V4 a).
Proof.
  intros (base & p & E & Hp & Hb & Hs & Hh & Hpos)%good_v4_inv. unfold sample_cidr_v4, in_v4. rewrite E, Hh. cbv zeta.
  destruct (Z.geb_spec (32 - p) 32); [lia|]. destruct (Z.leb_spec (2 ^ (32 - p)) 2).
  - intros [= <- _] ->%list_elem_of_singleton. lia.
  - intros Er Ha. apply sample_hosts_spec in Er as (offs & -> & _ & Hf & _); [|lia|done|apply NoDup_nil_2|constructor|].
    + apply list_elem_of_In, in_map_iff in Ha as (off & <- & Ho). apply list_elem_of_In in Ho.
      rewrite Forall_forall in Hf. specialize (Hf off Ho). apply host_v4_in; lia.
    + rewrite blen_nil. pose proof (Z.mod_pos_bound n (2 ^ 32) ltac:(lia)). lia.
Qed.

(** A sample has as many hosts as wanted, all different. *)
Lemma sample_distinct cidr base p n ds hosts ds' :
  good_v4 cidr = true → parse_cidr_v4 cidr = Some (base, p) → p ≤ 30 → 0 ≤ n < 2 ^ 32 →
  sample_cidr_v4 cidr n ds = Some (hosts, ds') →
  blen hosts = Z.min n (2 ^ (32 - p) - 2) ∧ NoDup hosts ∧ Forall (λ a, in_v4 cidr (V4 a)) hosts.
Proof.
  intros Hg Hcidr Hp30 Hn E. assert (Forall (λ a, in_v4 cidr (V4 a)) hosts) as Hin.
  { apply Forall_forall. intros a Ha. by eapply sample_in. }
  destruct (good_v4_inv _ Hg) as (base' & p' & E' & Hp & Hb & Hs & Hh & Hpos). rewrite Hcidr in E'. injection E' as <- <-.
  assert (4 ≤ 2 ^ (32 - p)) as H4 by (change 4 with (2 ^ 2); apply Z.pow_le_mono_r; lia).
  unfold sample_cidr_v4 in E. rewrite Hcidr, Hh in E. cbv zeta in E. destruct (Z.geb_spec (32 - p) 32); [lia|].
  destruct (Z.leb_spec (2 ^ (32 - p)) 2); [lia|]. rewrite (Z.mod_small n) in E by done.
  apply sample_hosts_spec in E as (os & -> & Ho & Hf & Hl); [|lia|done|constructor|constructor|rewrite blen_nil; lia].
  split_and!; [done| |done]. rewrite Forall_forall in Hf. apply NoDup_fmap_2_strong; [|done].
  intros x y Hx Hy Hxy. apply Hf in Hx, Hy. unfold host_v4 in Hxy. rewrite !Z.mod_small in Hxy; lia.
Qed.

Lemma sample_hosts_total base usable want chosen out ds offs :
  blen out = blen chosen → NoDup offs → offs ⊆ chosen ++ map (λ d, 1 + d mod usable) ds → want ≤ blen offs →
  is_Some (sample_hosts base usable want chosen out ds).
Proof.
  intros Eo Hn. revert chosen out Eo. induction ds as [|d ds IH]; intros chosen out Eo Hs Hw; cbn [sample_hosts].
  - destruct (Z.geb_spec (blen out) want) as [|Hlt]; [by eexists|]. exfalso. cbn in Hs. rewrite app_nil_r in Hs.
    pose proof (submseteq_length _ _ (NoDup_submseteq _ _ Hn Hs)) as Hlen. unfold blen in *. lia.
  - destruct (blen out >=? want); [by eexists|]. case_bool_decide as Hin.
    + apply IH; [done| |done]. cbn in Hs. set_solver.
    + apply IH; [|cbn in Hs; set_solver|done]. rewrite blen_app, !blen_cons, blen_nil. lia.
Qed.

Lemma sample_times_Forall {A} n (m : sampler A) (P : A → Prop) ds r ds' :
  (∀ a ds ds', m ds = Some (a, ds') → P a) → sample_times n m ds = Some (r, ds') → Forall P r.
Proof.
  intros Hm. revert ds r. induction n as [|n IH]; intros ds r; cbn [sample_times]; [by intros [= <- _]|].
  unfold mbind, sampler_bind. destruct (m ds) as [[a ds1]|] eqn:E; [|done].
  destruct (sample_times n m ds1) as [[rest ds2]|] eqn:E2; [|done]. intros [= <- <-]. constructor; [by eapply Hm|].
  by eapply IH.
Qed.

Lemma sample_each_Forall2 {A B} (f : A → sampler B) l (Q : A → B → Prop) ds r ds' :
  (∀ x b ds ds', x ∈ l → f x ds = Some (b, ds') → Q x b) → sample_each f l ds = Some (r, ds') → Forall2 Q l r.
Proof.
  intros Hf. revert ds r. induction l as [|x l IH]; intros ds r; cbn [sample_each]; [intros [= <- _]; constructor|].
  unfold mbind, sampler_bind. destruct (f x ds) as [[b ds1]|] eqn:E; [|done].
  destruct (sample_each f l ds1) as [[rest ds2]|] eqn:E2; [|done]. intros [= <- <-]. constructor.
  - eapply Hf; [|exact E]. set_solver.
  - eapply IH; [|exact E2]. intros y c d d' Hy. apply Hf. set_solver.
Qed.

Lemma lor_below a b k : 0 ≤ k → 0 ≤ a < 2 ^ k → 0 ≤ b < 2 ^ k → 0 ≤ Z.lor a b < 2 ^ k.
Proof.
  intros Hk Ha Hb. rewrite <- (Z.mod_small a (2 ^ k)), <- (Z.mod_small b (2 ^ k)) by lia.
  rewrite <- !Z.land_ones, <- Z.land_lor_distr_l, Z.land_ones by done. apply Z.mod_pos_bound. lia.
Qed.

(** Of the ranges of IPv4, what is embedded. *)
Definition bases_ok (v4 : list (Z * Z)) : bool := forallb (λ bp, (0 <=? bp.1) && (bp.1 <? 2 ^ 32)) v4.

Lemma sample_v6_in base v4 ds a ds' p :
  bases_ok v4 = true → 0 ≤ p ≤ 96 → sample_v6 base v4 ds = Some (a, ds') → Z.shiftr a (128 - p) = Z.shiftr base (128 - p).
Proof.
  intros Hb Hp. unfold sample_v6, mbind, sampler_bind, mret, sampler_ret.
  assert (∀ e, 0 ≤ e < 2 ^ 32 → Z.shiftr (Z.lor base e) (128 - p) = Z.shiftr base (128 - p)) as Hlor.
  { intros e He. rewrite Z.shiftr_lor. rewrite (Z.shiftr_div_pow2 e) by lia.
    rewrite (Z.div_small e); [by rewrite Z.lor_0_r|]. split; [lia|].
    apply Z.lt_le_trans with (2 ^ 32); [lia|]. apply Z.pow_le_mono_r; lia. }
  destruct v4 as [|bp v4]; cbn [is_empty].
  - destruct ds as [|d ds]; cbn; [done|]. intros [= <- _]. apply Hlor, Z.mod_pos_bound. lia.
  - destruct ds as [|i ds]; cbn [sample_draw]; [done|].
    set (l := bp :: v4) in *. destruct (nth (Z.to_nat (i mod blen l)) l (0, 0)) as [b q] eqn:En.
    assert (0 ≤ b < 2 ^ 32) as Hbb.
    { unfold bases_ok in Hb. rewrite forallb_forall in Hb.
      destruct (nth_in_or_default (Z.to_nat (i mod blen l)) l (0, 0)) as [Hin|Hd];
        [|rewrite Hd in En; injection En as <- <-; lia].
      rewrite En in Hin. specialize (Hb _ Hin). cbn in Hb. lia. }
    destruct (saturating_sub 32 q =? 0).
    + intros [= <- _]. rewrite Z.lor_0_r. by apply Hlor.
    + destruct ds as [|d ds]; cbn [sample_draw]; [done|]. intros [= <- _]. apply Hlor, lor_below; [lia|done|].
      set (h := saturating_sub 32 q mod 32). assert (0 ≤ h < 32) by (apply Z.mod_pos_bound; lia).
      replace (2 ^ h - 1) with (Z.ones h) by (rewrite Z.ones_equiv; lia). rewrite Z.land_ones by lia.
      assert (2 ^ h ≤ 2 ^ 32) by (apply Z.pow_le_mono_r; lia). assert (0 < 2 ^ h) by (apply Z.pow_pos_nonneg; lia).
      pose proof (Z.mod_pos_bound (d mod 2 ^ 32) (2 ^ h) ltac:(lia)). lia.
Qed.

Lemma elem_of_interleave {A} (ls : list (list A)) x : x ∈ interleave ls ↔ ∃ l, l ∈ ls ∧ x ∈ l.
Proof.
  unfold interleave. rewrite list_elem_of_In, in_flat_map. split.
  - intros (i & _ & Hx). apply list_elem_of_In, list_elem_of_omap in Hx as (l & Hl & Hi). exists l.
    split; [done|]. by eapply list_elem_of_lookup_2.
  - intros (l & Hl & Hx). apply list_elem_of_lookup_1 in Hx as [i Hi]. exists i. split.
    + apply in_seq. split; [lia|]. apply lookup_lt_Some in Hi. cbn [Nat.add].
      enough (length l ≤ max_len ls)%nat by lia. clear Hi x i. induction ls as [|l' ls IH]; [by apply not_elem_of_nil in Hl|].
      cbn. apply elem_of_cons in Hl as [->|Hl]; [lia|]. specialize (IH Hl). unfold max_len in IH. lia.
    + apply list_elem_of_In, list_elem_of_omap. eauto.
Qed.

(** ** What a scan tries *)

Definition scan_seeds (ip : IpScan) (team : bool) : list IpAddr :=
  (if want_v4 ip then map V4 (omap parse_ipv4 (if team then MASQUE_SEEDS else MASQUE_GATEWAYS_V4)) else []) ++
  (if want_v6 ip then map V6 (omap parse_ipv6 (if team then MASQUE_SEEDS_V6 else MASQUE_GATEWAYS_V6)) else []).

Definition scan_ranges (ip : IpScan) (team : bool) (a : IpAddr) : Prop :=
  (want_v4 ip = true ∧ team = true ∧ ∃ c, c ∈ MASQUE_CIDRS_V4 ∧ in_v4 c a) ∨
  (want_v6 ip = true ∧ ∃ c, c ∈ (if team then MASQUE_CIDRS_V6 else MASQUE_WARP_CIDRS_V6) ∧ in_v6 c a).

(** A host of a range that is neither its first nor its last address. *)
Definition host_of (cidr : bytes) (a : Z) : Prop :=
  match parse_cidr_v4 cidr with Some (base, p) => base < a < base + 2 ^ (32 - p) - 1 | None => False end.

Lemma MASQUE_CIDRS_V4_good : forallb (λ c, good_v4 c && match parse_cidr_v4 c with Some (_, p) => 20 <=? p | None => false end)
  MASQUE_CIDRS_V4 = true.
Proof. vm_compute. reflexivity. Qed.

(** All of them have 254 hosts. *)
Lemma MASQUE_CIDRS_V4_24 c : c ∈ MASQUE_CIDRS_V4 → good_v4 c = true ∧ ∃ base, parse_cidr_v4 c = Some (base, 24).
Proof.
  assert (forallb (λ c, good_v4 c && match parse_cidr_v4 c with Some (_, p) => p =? 24 | None => false end) MASQUE_CIDRS_V4 = true)
    as Hall by (vm_compute; reflexivity).
  rewrite forallb_forall in Hall. intros Hc%list_elem_of_In%Hall. apply andb_true_iff in Hc as [Hg Hp]. split; [done|].
  destruct (parse_cidr_v4 c) as [[base p]|]; [|done]. apply Z.eqb_eq in Hp as ->. eauto.
Qed.

(** The candidates of a range of 254 hosts when [n] of them are drawn. *)
Definition sampled (cidr : bytes) (n port : Z) (cands : list candidate) : Prop :=
  ∃ hosts, NoDup hosts ∧ blen hosts = Z.min n 254 ∧ ∀ a, a ∈ hosts → in_v4 cidr (V4 a) ∧ (V4 a, port) ∈ cands.

Lemma MASQUE_CIDRS_V6_good : forallb good_v6 (MASQUE_CIDRS_V6 ++ MASQUE_WARP_CIDRS_V6) = true.
Proof. vm_compute. reflexivity. Qed.

Lemma MASQUE_bases_ok : bases_ok (omap parse_cidr_v4 MASQUE_CIDRS_V4) = true.
Proof. vm_compute. reflexivity. Qed.

Lemma masque_cidr_good c : c ∈ MASQUE_CIDRS_V4 →
  good_v4 c = true ∧ ∃ base p, parse_cidr_v4 c = Some (base, p) ∧ 20 ≤ p.
Proof.
  intros Hc. pose proof MASQUE_CIDRS_V4_good as Hg. rewrite forallb_forall in Hg.
  apply list_elem_of_In, Hg, andb_true_iff in Hc as [H1 H2]. split; [done|].
  destruct (parse_cidr_v4 c) as [[base p]|]; [|done]. exists base, p. split; [done|]. by apply Z.leb_le.
Qed.

Lemma enumerate_all c a : c ∈ MASQUE_CIDRS_V4 → host_of c a → a ∈ enumerate_cidr_v4 c.
Proof.
  intros [Hg (base0 & p0 & E0 & Hp0)]%masque_cidr_good. apply good_v4_inv in Hg as (base & p & E & Hp & Hb & Hs & Hh & Hpos).
  rewrite E in E0. injection E0 as <- <-. unfold host_of, enumerate_cidr_v4. rewrite E, Hh. intros Ha.
  destruct (Z.eqb_spec (32 - p) 0) as [Hz|Hne]; [rewrite Hz in Ha; cbn in Ha; lia|].
  destruct (Z.gtb_spec (32 - p) 12); [lia|]. apply list_elem_of_In, in_map_iff. exists (a - base). split.
  - unfold host_v4. rewrite Z.mod_small; lia.
  - apply list_elem_of_In, elem_of_seqZ. lia.
Qed.

Lemma prioritize_elem env all first x : x ∈ prioritize env all first ↔ x ∈ all.
Proof.
  unfold prioritize. destruct (zero_trust_mode env); [|done]. cbn [negb]. rewrite elem_of_pushes, list_elem_of_filter.
  naive_solver.
Qed.

Lemma elem_of_map {A B} (f : A → B) l y : y ∈ map f l ↔ ∃ x, y = f x ∧ x ∈ l.
Proof. rewrite list_elem_of_In, in_map_iff. setoid_rewrite list_elem_of_In. naive_solver. Qed.

Lemma elem_of_on_others primary ports l a p :
  (a, p) ∈ on_others primary ports l ↔ a ∈ l ∧ p ∈ ports ∧ p ≠ primary.
Proof.
  unfold on_others, candidate. rewrite list_elem_of_In, in_flat_map. split.
  - intros (b & Hb & Hin). apply list_elem_of_In, elem_of_map in Hin as (q & [= <- <-] & Hq).
    apply list_elem_of_filter in Hq. rewrite list_elem_of_In. naive_solver.
  - intros (Ha & Hp & Hne). exists a. rewrite <- list_elem_of_In. split; [done|]. apply list_elem_of_In, elem_of_map.
    exists p. rewrite list_elem_of_filter. naive_solver.
Qed.

Lemma elem_of_on_primary (primary : Z) (l : list IpAddr) a p :
  (a, p) ∈ map (λ a : IpAddr, (a, primary)) l ↔ a ∈ l ∧ p = primary.
Proof. rewrite elem_of_map. split; [intros (x & [= -> ->] & ?); done|intros [? ->]; eauto]. Qed.

(** The hosts drawn or listed from the ranges. *)
Lemma v4_hosts_in st env ds hosts ds' a :
  sample_each (λ c, if full_subnet st then mret (enumerate_cidr_v4 c) else sample_cidr_v4 c (sample_per_cidr st))
    (masque_cidrs_v4 env) ds = Some (hosts, ds') →
  a ∈ interleave hosts → ∃ c, c ∈ MASQUE_CIDRS_V4 ∧ in_v4 c (V4 a).
Proof.
  intros E Ha. apply elem_of_interleave in Ha as (l & Hl & Ha).
  apply (sample_each_Forall2 _ _ (λ c l, c ∈ MASQUE_CIDRS_V4 ∧ Forall (λ a, in_v4 c (V4 a)) l)) in E.
  - apply (Forall2_Forall_r _ (λ l, ∃ c, c ∈ MASQUE_CIDRS_V4 ∧ Forall (λ a, in_v4 c (V4 a)) l)) in E;
      [|apply Forall_forall; by eauto].
    rewrite Forall_forall in E. destruct (E l Hl) as (c & Hc & Hf). rewrite Forall_forall in Hf. eauto.
  - intros c b d d' Hc Hb. apply prioritize_elem in Hc. split; [done|]. apply Forall_forall. intros x Hx.
    apply masque_cidr_good in Hc as [Hg _]. destruct (full_subnet st).
    + injection Hb as <- _. by apply enumerate_in.
    + by eapply sample_in.
Qed.

Lemma v6_hosts_in per ranges ds hosts ds' a :
  forallb good_v6 ranges = true →
  sample_each (λ c, sample_cidr_v6 c per MASQUE_CIDRS_V4) ranges ds = Some (hosts, ds') →
  a ∈ interleave hosts → ∃ c, c ∈ ranges ∧ in_v6 c (V6 a).
Proof.
  intros Hg E Ha. apply elem_of_interleave in Ha as (l & Hl & Ha). rewrite forallb_forall in Hg.
  apply (sample_each_Forall2 _ _ (λ c l, c ∈ ranges ∧ Forall (λ a, in_v6 c (V6 a)) l)) in E.
  - apply (Forall2_Forall_r _ (λ l, ∃ c, c ∈ ranges ∧ Forall (λ a, in_v6 c (V6 a)) l)) in E;
      [|apply Forall_forall; by eauto].
    rewrite Forall_forall in E. destruct (E l Hl) as (c & Hc & Hf). rewrite Forall_forall in Hf. eauto.
  - intros c b d d' Hc Hb. split; [done|]. apply list_elem_of_In, Hg in Hc. unfold good_v6 in Hc.
    unfold sample_cidr_v6 in Hb. unfold in_v6. destruct (parse_cidr_v6 c) as [[base p]|]; [|done].
    destruct (saturating_sub 128 p =? 0); [injection Hb as <- _; by repeat constructor|].
    eapply sample_times_Forall; [|exact Hb]. intros x e e' Hx. eapply sample_v6_in; [apply MASQUE_bases_ok|lia|exact Hx].
Qed.

(** The two halves of the scan of the first port. *)
Lemma v4_phase env st primary ip (team : bool) seeds ds r ds' :
  (if want_v4 ip then
     cidr_hosts ← sample_each (λ c, if full_subnet st then mret (enumerate_cidr_v4 c)
                                    else sample_cidr_v4 c (sample_per_cidr st)) (if team then masque_cidrs_v4 env else []);
     mret (foldl push (foldl push [] (map (λ a : IpAddr, (a, primary)) seeds))
             (map (λ a : IpAddr, (a, primary)) (map V4 (interleave cidr_hosts))))
   else mret [] : sampler (list candidate)) ds = Some (r, ds') →
  NoDup r ∧ (want_v4 ip = true → ∀ a, a ∈ seeds → (a, primary) ∈ r) ∧
  (∀ a p, (a, p) ∈ r → want_v4 ip = true ∧ p = primary ∧ (a ∈ seeds ∨ team = true ∧ ∃ c, c ∈ MASQUE_CIDRS_V4 ∧ in_v4 c a)) ∧
  (team = true → full_subnet st = true → want_v4 ip = true →
   ∀ c a, c ∈ MASQUE_CIDRS_V4 → host_of c a → (V4 a, primary) ∈ r) ∧
  (team = true → full_subnet st = false → want_v4 ip = true → 0 ≤ sample_per_cidr st < 2 ^ 32 →
   ∀ c, c ∈ MASQUE_CIDRS_V4 → sampled c (sample_per_cidr st) primary r).
Proof.
  destruct (want_v4 ip); [|intros [= <- <-]; split_and!; [by constructor|done|set_solver|done|done]].
  unfold mbind at 1, sampler_bind at 1. destruct (sample_each _ _ ds) as [[hosts ds1]|] eqn:E; [|done].
  intros [= <- <-]. split_and!.
  - apply pushes_NoDup, pushes_NoDup. by constructor.
  - intros _ a Ha. rewrite !elem_of_pushes, elem_of_on_primary. naive_solver.
  - intros a p. rewrite !elem_of_pushes, !elem_of_on_primary, elem_of_nil, elem_of_map.
    intros [[[]|[Ha ->]]|[(x & -> & Hx) ->]]; [by split_and!; [..|left]|]. split_and!; [done..|right]. destruct team.
    + split; [done|]. by eapply v4_hosts_in.
    + injection E as <- _. by apply not_elem_of_nil in Hx.
  - intros -> Hfull _ c a Hc Ha. apply elem_of_pushes. right. apply elem_of_on_primary. split; [|done].
    apply elem_of_map. exists a. split; [done|]. apply elem_of_interleave. exists (enumerate_cidr_v4 c).
    split; [|by apply enumerate_all]. rewrite Hfull in E.
    apply (sample_each_Forall2 _ _ (λ c l, l = enumerate_cidr_v4 c)) in E; [|by intros x b d d' _ [= <- _]].
    assert (c ∈ masque_cidrs_v4 env) as Hin by (by apply prioritize_elem).
    apply list_elem_of_lookup_1 in Hin as [i Hi]. destruct (Forall2_lookup_l _ _ _ _ _ E Hi) as (l & Hl & ->).
    by eapply list_elem_of_lookup_2.
  - intros -> Hfull _ Hn c Hc. rewrite Hfull in E.
    apply (sample_each_Forall2 _ _ (λ c l, ∃ d d', sample_cidr_v4 c (sample_per_cidr st) d = Some (l, d'))) in E; [|by eauto].
    assert (c ∈ masque_cidrs_v4 env) as Hin by (by apply prioritize_elem).
    apply list_elem_of_lookup_1 in Hin as [i Hi]. destruct (Forall2_lookup_l _ _ _ _ _ E Hi) as (l & Hl & d & d' & El).
    destruct (MASQUE_CIDRS_V4_24 c Hc) as (Hg & base & Hp). exists l.
    destruct (sample_distinct c base 24 (sample_per_cidr st) d l d' Hg Hp ltac:(lia) Hn El) as (Hlen & Hnd & Hf).
    split_and!; [done|done|]. rewrite Forall_forall in Hf. intros a Ha. split; [by apply Hf|].
    apply elem_of_pushes. right. apply elem_of_on_primary. split; [|done]. apply elem_of_map. exists a. split; [done|].
    apply elem_of_interleave. exists l. split; [by eapply list_elem_of_lookup_2|done].
Qed.

Lemma v6_phase st primary ip ranges seeds6 out ds r ds' :
  forallb good_v6 ranges = true →
  (if want_v6 ip then
     cidr6 ← sample_each (λ c, sample_cidr_v6 c (if sample_per_cidr st =? 0 then 96 else sample_per_cidr st) MASQUE_CIDRS_V4) ranges;
     mret (foldl push (foldl push out (map (λ a : IpAddr, (a, primary)) seeds6))
             (map (λ a : IpAddr, (a, primary)) (map V6 (interleave cidr6))))
   else mret out : sampler (list candidate)) ds = Some (r, ds') → NoDup out →
  NoDup r ∧ out ⊆ r ∧ (want_v6 ip = true → ∀ a, a ∈ seeds6 → (a, primary) ∈ r) ∧
  (∀ a p, (a, p) ∈ r → (a, p) ∈ out ∨ (want_v6 ip = true ∧ p = primary ∧ (a ∈ seeds6 ∨ ∃ c, c ∈ ranges ∧ in_v6 c a))).
Proof.
  intros Hg. destruct (want_v6 ip); [|intros [= <- <-] Hn; split_and!; [done|done|done|by left]].
  unfold mbind at 1, sampler_bind at 1. destruct (sample_each _ _ ds) as [[hosts ds1]|] eqn:E; [|done].
  intros [= <- <-] Hn. split_and!.
  - by apply pushes_NoDup, pushes_NoDup.
  - intros c Hc. rewrite !elem_of_pushes. by left; left.
  - intros _ a Ha. rewrite !elem_of_pushes, elem_of_on_primary. naive_solver.
  - intros a p. rewrite !elem_of_pushes, !elem_of_on_primary, elem_of_map.
    intros [[?|[Ha ->]]|[(x & -> & Hx) ->]]; [by left|right; by split_and!; [..|left]|right]. split_and!; [done..|right].
    by eapply v6_hosts_in.
Qed.

(** The other ports of the seeds. *)
Lemma others_phase primary ports (b : bool) seeds out : NoDup out →
  let r := if b then foldl push out (on_others primary ports seeds) else out in
  NoDup r ∧ out ⊆ r ∧ (b = true → ∀ a p, a ∈ seeds → p ∈ ports → p ≠ primary → (a, p) ∈ r) ∧
  (∀ a p, (a, p) ∈ r → (a, p) ∈ out ∨ (b = true ∧ a ∈ seeds ∧ p ∈ ports)).
Proof.
  intros Hn. cbv zeta. destruct b; [|split_and!; [done|done|done|by left]]. split_and!.
  - by apply pushes_NoDup.
  - intros c Hc. apply elem_of_pushes. by left.
  - intros _ a p Ha Hp Hne. apply elem_of_pushes. right. by apply elem_of_on_others.
  - intros a p. rewrite elem_of_pushes, elem_of_on_others. naive_solver.
Qed.

Lemma good_v6_ranges (team : bool) : forallb good_v6 (if team then MASQUE_CIDRS_V6 else MASQUE_WARP_CIDRS_V6) = true.
Proof. by destruct team; vm_compute. Qed.

Lemma good_v6_prioritized env (team : bool) :
  forallb good_v6 (if team then masque_cidrs_v6 env else MASQUE_WARP_CIDRS_V6) = true ∧
  ∀ c, c ∈ (if team then masque_cidrs_v6 env else MASQUE_WARP_CIDRS_V6) ↔ c ∈ (if team then MASQUE_CIDRS_V6 else MASQUE_WARP_CIDRS_V6).
Proof.
  pose proof (good_v6_ranges team) as Hg. destruct team; [|done]. split; [|intros c; apply prioritize_elem].
  rewrite forallb_forall in *. intros c Hc. apply Hg. apply list_elem_of_In, prioritize_elem, list_elem_of_In in Hc. done.
Qed.

(** C22. The MASQUE scan tries what it should, whatever is drawn: no address
    and port twice; every seed of the families scanned on every port; with a
    team, of every IPv4 range every host on the first port when whole subnets
    are scanned, and otherwise as many different ones as the mode asks for (all
    254 at most); and nothing else than the seeds on the given ports and, on
    the first port, addresses of the IPv6 ranges, which are only sampled, and
    with a team of the IPv4 ranges. *)
Theorem masque_scan_complete (env : environment) (st : Strategy) (ports : list Z) (ip : IpScan) (team : bool)
  (ds ds' : list Z) (cands : list candidate)
  (Hrun : build_candidates env st ports ip team ds = Some (cands, ds')) :
  let primary := default 443 (head ports) in
  NoDup cands ∧
  (∀ a p, a ∈ scan_seeds ip team → p = primary ∨ p ∈ ports → (a, p) ∈ cands) ∧
  (team = true → full_subnet st = true → want_v4 ip = true →
   ∀ c a, c ∈ MASQUE_CIDRS_V4 → host_of c a → (V4 a, primary) ∈ cands) ∧
  (team = true → full_subnet st = false → want_v4 ip = true → 0 ≤ sample_per_cidr st < 2 ^ 32 →
   ∀ c, c ∈ MASQUE_CIDRS_V4 → sampled c (sample_per_cidr st) primary cands) ∧
  (∀ a p, (a, p) ∈ cands →
   (a ∈ scan_seeds ip team ∧ (p = primary ∨ p ∈ ports)) ∨ (p = primary ∧ scan_ranges ip team a)).
Proof.
  cbv zeta. revert Hrun. unfold build_candidates. set (primary := default 443 (head ports)). cbv zeta.
  destruct (good_v6_prioritized env team) as [Hg6 Hin6].
  set (seeds := map V4 (omap parse_ipv4 (if team then MASQUE_SEEDS else MASQUE_GATEWAYS_V4))).
  set (seeds6 := map V6 (omap parse_ipv6 (if team then MASQUE_SEEDS_V6 else MASQUE_GATEWAYS_V6))).
  assert (∀ a, a ∈ scan_seeds ip team ↔ (want_v4 ip = true ∧ a ∈ seeds) ∨ (want_v6 ip = true ∧ a ∈ seeds6)) as Hseeds.
  { intros a. unfold scan_seeds. fold seeds seeds6. rewrite elem_of_app.
    destruct (want_v4 ip), (want_v6 ip); rewrite ?elem_of_nil; naive_solver. }
  clearbody seeds seeds6. unfold order_candidates. fold primary. cbv zeta. unfold mbind at 1, sampler_bind at 1.
  match goal with |- match ?x with _ => _ end = _ → _ => destruct x as [[out1 ds1]|] eqn:E1; [|done] end.
  apply v4_phase in E1 as (N1 & S1 & O1 & C1 & D1). unfold mbind at 1, sampler_bind at 1.
  match goal with |- match ?x with _ => _ end = _ → _ => destruct x as [[out2 ds2]|] eqn:E2; [|done] end.
  apply v6_phase in E2 as (N2 & I2 & S2 & O2); [|done|done].
  destruct (others_phase primary ports (want_v4 ip) seeds out2 N2) as (N3 & I3 & S3 & O3).
  set (out3 := if want_v4 ip then _ else out2) in *. clearbody out3.
  destruct (others_phase primary ports (want_v6 ip) seeds6 out3 N3) as (N4 & I4 & S4 & O4).
  set (out4 := if want_v6 ip then _ else out3) in *. clearbody out4. intros [= <- <-]. split_and!.
  - done.
  - intros a p Ha Hp. apply Hseeds in Ha. destruct (decide (p = primary)) as [->|Hne].
    + apply I4, I3. destruct Ha as [[Hw Ha]|[Hw Ha]]; [apply I2, S1|apply S2]; done.
    + destruct Hp as [?|Hp]; [done|]. destruct Ha as [[Hw Ha]|[Hw Ha]]; [apply I4, S3|apply S4]; done.
  - intros Ht Hf Hw c a Hc Ha. by apply I4, I3, I2, (C1 Ht Hf Hw c).
  - intros Ht Hf Hw Hn c Hc. destruct (D1 Ht Hf Hw Hn c Hc) as (hosts & Hnd & Hl & Hh). exists hosts. split_and!; [done|done|].
    intros a Ha. destruct (Hh a Ha). split; [done|]. by apply I4, I3, I2.
  - intros a p Hin. unfold scan_ranges. setoid_rewrite <- Hin6. setoid_rewrite Hseeds.
    apply O4 in Hin as [Hin|?]; [|naive_solver]. apply O3 in Hin as [Hin|?]; [|naive_solver].
    apply O2 in Hin as [Hin|(Hw & -> & [Ha|Hr])].
    + apply O1 in Hin as (Hw & -> & [Ha|[Ht Hr]]); [left|right; split; [done|left; by split_and!]].
      split; [left; by split|by left].
    + left. split; [right; by split|by left].
    + right. split; [done|right; by split].
Qed.

Lemma gateways_NoDup : NoDup (omap parse_ipv4 MASQUE_GATEWAYS_V4).
Proof. by_decision. Qed.

Lemma NoDup_map_V4 l : NoDup l → NoDup (map V4 l).
Proof. apply NoDup_fmap_2_strong. by intros ? ? _ _ [= ->]. Qed.

Lemma filter_others (x : Z) (l : list Z) : x ∉ l → filter (λ p, p ≠ x) l = l.
Proof.
  induction l as [|y l IH]; [done|]. intros Hx. rewrite filter_cons_True, IH by set_solver. done.
Qed.

Lemma on_others_NoDup primary ports l : NoDup ports → NoDup l → NoDup (on_others primary ports l).
Proof.
  intros Hp Hl. unfold on_others. induction Hl as [|a l Ha Hl IH]; cbn [flat_map]; [constructor|].
  apply NoDup_app. split_and!; [| |done].
  - apply NoDup_fmap_2_strong; [by intros ? ? _ _ [= ->]|]. by apply NoDup_filter.
  - intros [b p] (q & [= <- <-] & _)%elem_of_map Hin. fold (on_others primary ports l) in Hin.
    by apply elem_of_on_others in Hin as (? & _ & _).
Qed.

Lemma order_seeds st primary others seeds seeds6 ranges6 ds :
  order_candidates st (primary :: others) ScanV4 seeds seeds6 [] ranges6 ds
  = Some (foldl push (foldl push [] (map (λ a, (a, primary)) seeds)) (on_others primary (primary :: others) seeds), ds).
Proof. reflexivity. Qed.

Lemma gateway_pushes primary others (gateways : list IpAddr) :
  NoDup (primary :: others) → NoDup gateways →
  foldl push (foldl push [] (map (λ a, (a, primary)) gateways)) (on_others primary (primary :: others) gateways)
  = map (λ a, (a, primary)) gateways ++ flat_map (λ a, map (λ p, (a, p)) others) gateways.
Proof.
  intros Hports Hg.
  assert (NoDup (map (λ a : IpAddr, (a, primary)) gateways)) as Hm
    by (apply NoDup_fmap_2_strong; [by intros ? ? _ _ [= ->]|done]).
  rewrite (pushes_new []) by done. cbn [app]. rewrite pushes_new.
  - f_equal. unfold on_others. rewrite filter_cons_False by naive_solver.
    apply NoDup_cons in Hports as [Hp _]. by rewrite filter_others.
  - apply NoDup_app. split_and!; [done| |by apply on_others_NoDup].
    intros [a p] [_ ->]%elem_of_on_primary (_ & _ & Hne)%elem_of_on_others. done.
Qed.

(** Without a team the IPv4 scan is its gateways alone, in every mode: each
    on the first port, in their order, then each on the others; nothing is
    drawn at random. *)
Theorem warp_scan_exact (env : environment) (st : Strategy) (primary : Z) (others ds : list Z)
  (Hports : NoDup (primary :: others)) :
  let gateways := map V4 (omap parse_ipv4 MASQUE_GATEWAYS_V4) in
  build_candidates env st (primary :: others) ScanV4 false ds
  = Some (map (λ a, (a, primary)) gateways ++ flat_map (λ a, map (λ p, (a, p)) others) gateways, ds).
Proof.
  cbv zeta. unfold build_candidates. cbv zeta. rewrite order_seeds. f_equal. f_equal. apply gateway_pushes; [done|].
  apply NoDup_map_V4, gateways_NoDup.
Qed.

(** Drawing hosts of a range ends as soon as enough different ones were
    drawn, with exactly as many as were asked for (or as there are), all
    different and all in the range. *)
Theorem sampling_ends (cidr : bytes) (base p n : Z) (ds offs : list Z)
  (Hcidr : parse_cidr_v4 cidr = Some (base, p))
  (Hgood : good_v4 cidr = true) (Hwide : p ≤ 30) (Hn : 0 ≤ n < 2 ^ 32)
  (Hdistinct : NoDup offs) (Hdrawn : offs ⊆ map (λ d, 1 + d mod (2 ^ (32 - p) - 2)) ds)
  (Henough : Z.min n (2 ^ (32 - p) - 2) ≤ blen offs) :
  ∃ hosts ds', sample_cidr_v4 cidr n ds = Some (hosts, ds') ∧
    blen hosts = Z.min n (2 ^ (32 - p) - 2) ∧ NoDup hosts ∧ Forall (λ a, in_v4 cidr (V4 a)) hosts.
Proof.
  destruct (good_v4_inv _ Hgood) as (base' & p' & E & Hp & Hb & Hs & Hh & Hpos).
  rewrite Hcidr in E. injection E as <- <-.
  assert (4 ≤ 2 ^ (32 - p)) as H4 by (change 4 with (2 ^ 2); apply Z.pow_le_mono_r; lia).
  set (want := Z.min n (2 ^ (32 - p) - 2)) in *.
  assert (sample_cidr_v4 cidr n = sample_hosts base (2 ^ (32 - p) - 2) want [] []) as Hdef.
  { unfold sample_cidr_v4. rewrite Hcidr, Hh. cbv zeta. destruct (Z.geb_spec (32 - p) 32); [lia|].
    destruct (Z.leb_spec (2 ^ (32 - p)) 2); [lia|]. by rewrite (Z.mod_small n). }
  destruct (sample_hosts_total base (2 ^ (32 - p) - 2) want [] [] ds offs) as [[hosts ds'] E]; [done..|].
  exists hosts, ds'. rewrite <- Hdef in E. split; [done|]. by eapply sample_distinct.
Qed.

(** ** The waves of the WireGuard scan *)

Lemma elem_of_wg_pushes excluded out l y :
  y ∈ foldl (wg_push excluded) out l ↔ y ∈ out ∨ (y ∈ l ∧ SockAddr y.1 y.2 ∉ excluded).
Proof.
  revert out. induction l as [|x l IH]; intros out; cbn [foldl]; [set_solver|]. rewrite IH. unfold wg_push.
  case_bool_decide; rewrite ?elem_of_push; set_solver.
Qed.

Lemma wg_pushes_NoDup excluded out l : NoDup out → NoDup (foldl (wg_push excluded) out l).
Proof.
  revert out. induction l as [|x l IH]; intros out Hn; cbn [foldl]; [done|]. apply IH. unfold wg_push.
  case_bool_decide; [done|by apply push_NoDup].
Qed.

Lemma elem_of_wave ports ips wave a p : ports ≠ [] →
  (a, p) ∈ wave_of ports ips wave ↔ ∃ i, ips !! i = Some a ∧ ports !! ((i + wave) mod length ports)%nat = Some p.
Proof.
  intros Hp. assert (length ports ≠ 0%nat) as Hl by (by destruct ports). unfold wave_of.
  assert (∀ i, ports !! ((i + wave) mod length ports)%nat = Some (nth ((i + wave) mod length ports) ports 0)) as Hnth.
  { intros i. pose proof (Nat.mod_upper_bound (i + wave) (length ports) Hl) as Hlt.
    apply lookup_lt_is_Some in Hlt as [x Hx]. rewrite Hx. f_equal. symmetry. by apply nth_lookup_Some. }
  split.
  - intros [i Hi]%list_elem_of_lookup_1. rewrite list_lookup_imap in Hi. apply fmap_Some in Hi as (b & Hb & [= -> ->]).
    exists i. split; [done|apply Hnth].
  - intros (i & Hi & Hpi). apply (list_elem_of_lookup_2 _ i). rewrite list_lookup_imap, Hi. cbn. f_equal. f_equal.
    rewrite Hnth in Hpi. by injection Hpi.
Qed.

(** Every port comes up for every address when there are as many waves as
    ports. *)
Lemma wave_for n i j : (0 < n → j < n → ∃ k, k < n ∧ (i + k) mod n = j)%nat.
Proof.
  intros Hn Hj. exists ((j + (n - i mod n)) mod n)%nat. pose proof (Nat.mod_upper_bound i n ltac:(lia)) as Hi.
  split; [by apply Nat.mod_upper_bound; lia|].
  rewrite Nat.Div0.add_mod_idemp_r. replace (i + (j + (n - i mod n)))%nat with (j + (n * (i / n) + n))%nat
    by (pose proof (Nat.div_mod_eq i n); lia).
  replace (j + (n * (i / n) + n))%nat with (j + (i / n + 1) * n)%nat by lia.
  rewrite Nat.Div0.mod_add. by apply Nat.mod_small.
Qed.

(** The ports of the scan. *)
Definition wg_ports (ports : list Z) : list Z :=
  if is_empty (foldl push [] ports) then [2408] else foldl push [] ports.

Lemma wg_ports_spec ports :
  wg_ports ports ≠ [] ∧ NoDup (wg_ports ports) ∧ (ports ≠ [] → ∀ p, p ∈ wg_ports ports ↔ p ∈ ports).
Proof.
  assert (∀ p, p ∈ foldl push [] ports ↔ p ∈ ports) as Hin by (intros p; rewrite elem_of_pushes, elem_of_nil; naive_solver).
  assert (NoDup (foldl push [] ports)) as Hn by (apply pushes_NoDup; constructor). unfold wg_ports.
  destruct (foldl push [] ports) as [|q l]; cbn [is_empty]; [|by split_and!].
  split_and!; [done|apply NoDup_singleton|]. intros Hne. destruct ports as [|q l]; [done|].
  assert (q ∈ []) as Hq%not_elem_of_nil by (apply Hin; set_solver). done.
Qed.

Lemma elem_of_wg_waves excluded waves ports ips a p : ports ≠ [] →
  (a, p) ∈ wg_waves excluded waves ports ips ↔ SockAddr a p ∉ excluded ∧
    ∃ i k, ips !! i = Some a ∧ (k < waves)%nat ∧ ports !! ((i + k) mod length ports)%nat = Some p.
Proof.
  intros Hp. unfold wg_waves. rewrite elem_of_wg_pushes. cbn [fst snd]. split.
  - intros [?%not_elem_of_nil|[Hin Hex]]; [done|]. split; [done|].
    apply list_elem_of_In, in_flat_map in Hin as (k & Hk%in_seq & Hw). apply list_elem_of_In in Hw.
    apply elem_of_wave in Hw as (i & Hi & Hpi); [|done]. exists i, k. split_and!; [done|lia|done].
  - intros [Hex (i & k & Hi & Hk & Hpi)]. right. split; [|done]. apply list_elem_of_In, in_flat_map. exists k.
    split; [apply in_seq; lia|]. apply list_elem_of_In, elem_of_wave; [done|]. eauto.
Qed.

(** The WireGuard scan spreads its tries: it has every address once, the
    seeds first, and tries it on one port a wave, the ports shifted with the
    address and the wave, so that no address and port is tried twice, none
    that is excluded, and with as many waves as ports all others are. *)
Theorem wg_scan_waves (env : environment) (st : WgStrategy) (ports : list Z) (ip : IpScan)
  (excluded : list SocketAddr) (ds ds' : list Z) (cands : list candidate)
  (Hrun : build_wg_candidates env st ports ip excluded ds = Some (cands, ds')) :
  let waves := Z.to_nat (Z.max (pool_port_waves st) 1) in
  let ports' := wg_ports ports in
  ∃ ips rest,
    NoDup ips ∧ ips = foldl push [] (wg_anchors env ip) ++ rest ∧ NoDup cands ∧
    (∀ a p, (a, p) ∈ cands ↔ SockAddr a p ∉ excluded ∧
       ∃ i k, ips !! i = Some a ∧ (k < waves)%nat ∧ ports' !! ((i + k) mod length ports')%nat = Some p) ∧
    ((length ports' ≤ waves)%nat → ∀ a p, a ∈ ips → p ∈ ports' → SockAddr a p ∉ excluded → (a, p) ∈ cands).
Proof.
  cbv zeta. destruct (wg_ports_spec ports) as (Hp0 & Hpn & Hpe).
  revert Hrun. unfold build_wg_candidates. cbv zeta. fold (wg_ports ports).
  set (ports' := wg_ports ports) in *. set (waves := Z.to_nat (Z.max (pool_port_waves st) 1)).
  generalize (wg_anchors env ip) as anchors. generalize (wg_pool env (wg_common st) ip) as draw_pool.
  intros draw_pool anchors. clearbody ports' waves. unfold mbind, sampler_bind.
  destruct (draw_pool ds) as [[pool ds1]|]; [|done]. intros [= <- <-]. rewrite foldl_app.
  destruct (pushes_extend (foldl push [] anchors) pool) as (rest & Er & _).
  assert (NoDup (foldl push (foldl push [] anchors) pool)) as Hn by (apply pushes_NoDup, pushes_NoDup; constructor).
  rewrite Er in *. set (ips := foldl push [] anchors ++ rest) in *. exists ips, rest. split_and!; [done|done| | |].
  - apply wg_pushes_NoDup. constructor.
  - intros a p. by apply elem_of_wg_waves.
  - intros Hw a p [i Hi]%list_elem_of_lookup_1 [j Hj]%list_elem_of_lookup_1 Hex. apply elem_of_wg_waves; [done|].
    split; [done|]. apply lookup_lt_Some in Hj as Hlt. destruct (wave_for (length ports') i j) as (k & Hk & Ek); [lia|done|].
    exists i, k. rewrite Ek. split_and!; [done|lia|done].
Qed.

(** A scan of whole IPv4 subnets draws nothing. *)
Lemma sample_each_ret {A B} (f : A → B) l ds : sample_each (λ x, mret (f x)) l ds = Some (map f l, ds).
Proof. induction l as [|x l IH]; [done|]. cbn. unfold mbind, sampler_bind. cbn. by rewrite IH. Qed.

Lemma whole_scan_runs env st ports team ds :
  full_subnet st = true → ∃ cands, build_candidates env st ports ScanV4 team ds = Some (cands, ds).
Proof.
  intros Hf. unfold build_candidates. cbv zeta. generalize (if team then masque_cidrs_v4 env else []) as ranges. intros ranges.
  unfold order_candidates. cbn [want_v4 want_v6]. cbv zeta. rewrite Hf. unfold mbind, sampler_bind. rewrite sample_each_ret. cbn. by eexists.
Qed.

(** ** Scans *)
Module Scans.

Definition no_env : environment := λ _, None.
Definition one_each : Strategy := mk_strategy 16 5000 60000 8000 4 false false 1.

(** A host of each range drawn, over both families; and whole subnets. *)
Definition drawn : list Z := replicate 23 7.
Definition both : list candidate :=
  match build_candidates no_env one_each [443; 500] ScanBoth true drawn with Some (c, _) => c | None => [] end.
Definition whole : Strategy := mk_strategy 20 10000 300000 30000 0 false true 0.

Lemma masque_scan_complete_witness :
  length both = 49%nat ∧ sampled (lit "188.114.97.0/24") 1 443 both ∧
  ∃ everything, build_candidates no_env whole [443] ScanV4 true [] = Some (everything, []) ∧
    ∀ a, host_of (lit "188.114.97.0/24") a → (V4 a, 443) ∈ everything.
Proof.
  split; [vm_compute; reflexivity|]. split.
  - apply (masque_scan_complete no_env one_each [443; 500] ScanBoth true drawn [] both);
      [vm_compute; reflexivity|reflexivity|reflexivity|reflexivity|cbn; lia|by_decision].
  - destruct (whole_scan_runs no_env whole [443] true [] eq_refl) as [everything E]. exists everything. split; [exact E|].
    intros a. apply (masque_scan_complete no_env whole [443] ScanV4 true [] [] everything);
      [exact E|reflexivity|reflexivity|reflexivity|by_decision].
Defined.

Lemma warp_scan_exact_witness :
  match build_candidates no_env one_each [443; 500] ScanV4 false [] with
  | Some (c, _) => length c = 594%nat
  | None => False
  end.
Proof.
  rewrite (warp_scan_exact no_env one_each 443 [500] []).
  - vm_compute. reflexivity.
  - by_decision.
Defined.

Lemma sampling_ends_witness :
  ∃ hosts ds', sample_cidr_v4 (lit "162.159.192.0/24") 2 [4; 4; 258; 9] = Some (hosts, ds') ∧
    blen hosts = 2 ∧ NoDup hosts ∧ Forall (λ a, in_v4 (lit "162.159.192.0/24") (V4 a)) hosts.
Proof.
  apply (sampling_ends (lit "162.159.192.0/24") 2728378368 24 2 [4; 4; 258; 9] [5; 10]).
  - vm_compute. reflexivity.
  - vm_compute. reflexivity.
  - lia.
  - lia.
  - by_decision.
  - intros x Hx. apply elem_of_cons in Hx as [->|Hx]; [vm_compute; set_solver|].
    apply list_elem_of_singleton in Hx as ->. vm_compute. set_solver.
  - vm_compute. discriminate.
Defined.

Definition wg_two_waves : WgStrategy := mk_wg_strategy one_each 2.
Definition wg_both : list candidate :=
  match build_wg_candidates no_env wg_two_waves [2408; 500] ScanV4 [SockAddr (V4 2728378369) 2408] (replicate 7 3) with
  | Some (c, _) => c | None => [] end.

Lemma wg_scan_waves_witness : length wg_both = 23%nat ∧ NoDup wg_both.
Proof.
  split; [vm_compute; reflexivity|].
  destruct (wg_scan_waves no_env wg_two_waves [2408; 500] ScanV4 [SockAddr (V4 2728378369) 2408] (replicate 7 3) [] wg_both)
    as (ips & rest & _ & _ & Hn & _); [vm_compute; reflexivity|exact Hn].
Defined.
End Scans.
