(* ===== verification/Prober.v ===== *)
(** * The search for an endpoint

    The search of src/aether/src/prober.rs (MASQUE) and wg_prober.rs
    (WireGuard): the modes, and the loops that take the results of the probes
    as they come and decide when to stop and which to keep.  The probes run at
    the same time and end in any order; a round of the loop is given its time
    and what came: the outcome of a probe, the end of the probes, or the end
    of the wait. *)

From stdpp Require Import strings sorting.
From S2P Require Import Prelude Text Net NetText Error Fragment Candidates.

(** ** Modes *)

Inductive ScanMode := Turbo | Balanced | Thorough | Verified | Ironclad.

#[export] Instance ScanMode_eq_dec : EqDecision ScanMode.
Proof. solve_decision. Defined.

Definition ScanMode_parse `{UnicodeCase} (s : bytes) : ScanMode :=
  let t := to_lowercase (trim s) in
  if bool_decide (t ∈ map lit ["turbo"; "fast"]%string) then Turbo
  else if bool_decide (t ∈ map lit ["thorough"; "deep"; "pro"]%string) then Thorough
  else if bool_decide (t ∈ map lit ["verified"; "proven"; "stealth"; "quiet"]%string) then Verified
  else if bool_decide (t ∈ map lit ["ironclad"; "real"; "verify"; "guaranteed"]%string) then Ironclad
  else Balanced.

(** Times are milliseconds. *)
Definition strategy (m : ScanMode) : Strategy :=
  match m with
  | Turbo => mk_strategy 20 6000 45000 0 1 true false 64
  | Balanced => mk_strategy 16 6000 120000 20000 6 false false 140
  | Thorough => mk_strategy 20 10000 300000 30000 0 false true 0
  | Verified => mk_strategy 16 5000 60000 8000 4 false false 48
  | Ironclad => mk_strategy 4 15000 180000 15000 3 false false 140
  end.

Definition wg_strategy (m : ScanMode) : WgStrategy :=
  match m with
  | Turbo => mk_wg_strategy (mk_strategy 12 5000 30000 0 1 true false 40) 1
  | Balanced => mk_wg_strategy (mk_strategy 8 7000 80000 12000 5 false false 120) 3
  | Thorough => mk_wg_strategy (mk_strategy 10 9000 250000 25000 0 false true 0) 4
  | Verified => mk_wg_strategy (mk_strategy 10 5000 60000 8000 6 false false 48) 4
  | Ironclad => mk_wg_strategy (mk_strategy 4 15000 180000 15000 3 false false 120) 3
  end.

(** The families that are scanned: IPv6 only where the host has it. *)
Definition effective_ip (ip : IpScan) (host_has_ipv6 : bool) : comp AetherError IpScan :=
  if want_v6 ip && negb host_has_ipv6 then if want_v4 ip then mret ScanV4 else Err ENoCleanEndpoint else mret ip.

(** ** Rounds *)

Record ProbeResult := mk_probe { pr_ip : IpAddr; pr_port : Z; pr_rtt : Z }.

#[export] Instance ProbeResult_eq_dec : EqDecision ProbeResult.
Proof. solve_decision. Defined.

(** [verify_one] and [verify_one_wg], given how the check of the endpoint
    ended. *)
Definition verify_one (c : candidate) (outcome : comp AetherError Z) : option ProbeResult :=
  match outcome with Ok rtt => Some (mk_probe c.1 c.2 rtt) | _ => None end.

Inductive hunt_event :=
| Item (c : candidate) (outcome : comp AetherError Z) (at_ : Z)
| StreamEnd
| WaitOver.

Record hunt_round := mk_round { top : Z; event : hunt_event }.

Definition hunt_result (e : hunt_event) : option ProbeResult :=
  match e with Item c outcome _ => verify_one c outcome | _ => None end.

(** [quiet_until], and when the wait of a round is over. *)
Definition effective (deadline : Z) (quiet_until : option Z) : Z :=
  match quiet_until with Some q => Z.min q deadline | None => deadline end.

(** ** The MASQUE search *)

Record hunt_state := mk_hunt { best : option ProbeResult; found : Z; quiet_until : option Z }.

Definition better (best : option ProbeResult) (pr : ProbeResult) : ProbeResult :=
  match best with Some cur => if pr_rtt cur <=? pr_rtt pr then cur else pr | None => pr end.

Definition finish (best : option ProbeResult) : comp AetherError ProbeResult :=
  match best with Some pr => mret pr | None => Err ENoCleanEndpoint end.

(** One round: the state to go on with, or the end. *)
Definition hunt_step (st : Strategy) (deadline : Z) (s : hunt_state) (r : hunt_round)
    : hunt_state + comp AetherError ProbeResult :=
  if effective deadline (quiet_until s) - top r <=? 0 then inr (finish (best s))
  else
    match event r with
    | StreamEnd | WaitOver => inr (finish (best s))
    | Item c outcome at_ =>
        match verify_one c outcome with
        | None => inl s
        | Some pr =>
            if early_exit_first st then inr (mret pr)
            else
              let b := Some (better (best s) pr) in
              let n := found s + 1 in
              if (target_successes st >? 0) && (n >=? target_successes st) && bool_decide (quiet_until s = None) then
                if negb (quiet_after_first st =? 0) then inl (mk_hunt b n (Some (at_ + quiet_after_first st)))
                else inr (finish b)
              else inl (mk_hunt b n (quiet_until s))
        end
    end.

(** [None]: the search goes on after these rounds. *)
Fixpoint hunt_go (st : Strategy) (deadline : Z) (s : hunt_state) (rs : list hunt_round)
    : option (comp AetherError ProbeResult) :=
  match rs with
  | [] => None
  | r :: rs => match hunt_step st deadline s r with inl s => hunt_go st deadline s rs | inr x => Some x end
  end.

Definition hunt (st : Strategy) (now : Z) (rs : list hunt_round) : option (comp AetherError ProbeResult) :=
  hunt_go st (now + overall_deadline st) (mk_hunt None 0 None) rs.

(** What [hunt_best_gateway_avoiding] probes. *)
Definition hunt_candidates (env : environment) (m : ScanMode) (ports : list Z) (ip : IpScan) (host_has_ipv6 : bool)
    (avoid : list IpAddr) (ds : list Z) : option (comp AetherError (list candidate)) :=
  match effective_ip ip host_has_ipv6 with
  | Ok ip =>
      match build_candidates env (strategy m) ports ip (zero_trust_mode env) ds with
      | Some (cands, _) => Some (mret (leave_out cands avoid))
      | None => None
      end
  | Err e => Some (Err e)
  | Panic => Some Panic
  end.

(** What [hunt_wg_endpoints] probes. *)
Definition wg_hunt_candidates (env : environment) (m : ScanMode) (ports : list Z) (ip : IpScan) (host_has_ipv6 : bool)
    (excluded : list SocketAddr) (ds : list Z) : option (comp AetherError (list candidate)) :=
  match effective_ip ip host_has_ipv6 with
  | Ok ip =>
      match build_wg_candidates env (wg_strategy m) ports ip excluded ds with
      | Some (cands, _) => Some (mret cands)
      | None => None
      end
  | Err e => Some (Err e)
  | Panic => Some Panic
  end.

(** ** The WireGuard search *)

(** [sort_by_key(|pr| pr.rtt)], which is stable. *)
Fixpoint insert_rtt (x : ProbeResult) (l : list ProbeResult) : list ProbeResult :=
  match l with
  | [] => [x]
  | y :: l => if pr_rtt x <=? pr_rtt y then x :: y :: l else y :: insert_rtt x l
  end.
Definition sort_rtt (l : list ProbeResult) : list ProbeResult := foldr insert_rtt [] l.

Fixpoint first_by_ip (seen : list IpAddr) (l : list ProbeResult) : list ProbeResult :=
  match l with
  | [] => []
  | x :: l => if bool_decide (pr_ip x ∈ seen) then first_by_ip seen l else x :: first_by_ip (pr_ip x :: seen) l
  end.

Definition distinct_by_ip (l : list ProbeResult) : list ProbeResult := first_by_ip [] (sort_rtt l).

Record wg_state := mk_wg { verified : list ProbeResult; wg_found : Z; wg_quiet : option Z }.

Definition wg_finish (want : nat) (l : list ProbeResult) : comp AetherError (list ProbeResult) :=
  let picked := distinct_by_ip l in if is_empty picked then Err ENoCleanEndpoint else mret (take want picked).

(** With more than one endpoint wanted the first does not end the search. *)
Definition wg_adjust (st : Strategy) (want : nat) : Strategy :=
  if bool_decide (1 < want)%nat then
    mk_strategy (concurrency st) (per_probe_timeout st) (overall_deadline st) (quiet_after_first st)
      (Z.max (target_successes st) (Z.of_nat want * 3)) false (full_subnet st) (sample_per_cidr st)
  else st.

Definition wg_step (st : Strategy) (want : nat) (deadline : Z) (s : wg_state) (r : hunt_round)
    : wg_state + comp AetherError (list ProbeResult) :=
  if effective deadline (wg_quiet s) - top r <=? 0 then inr (wg_finish want (verified s))
  else
    match event r with
    | StreamEnd | WaitOver => inr (wg_finish want (verified s))
    | Item c outcome at_ =>
        match verify_one c outcome with
        | None => inl s
        | Some pr =>
            if early_exit_first st then inr (mret [pr])
            else
              let v := verified s ++ [pr] in
              let n := wg_found s + 1 in
              if bool_decide (want ≤ length (distinct_by_ip v))%nat && bool_decide (1 < want)%nat then inr (wg_finish want v)
              else if (target_successes st >? 0) && (n >=? target_successes st) && bool_decide (wg_quiet s = None) then
                if negb (quiet_after_first st =? 0) then inl (mk_wg v n (Some (at_ + quiet_after_first st)))
                else inr (wg_finish want v)
              else inl (mk_wg v n (wg_quiet s))
        end
    end.

Fixpoint wg_go (st : Strategy) (want : nat) (deadline : Z) (s : wg_state) (rs : list hunt_round)
    : option (comp AetherError (list ProbeResult)) :=
  match rs with
  | [] => None
  | r :: rs => match wg_step st want deadline s r with inl s => wg_go st want deadline s rs | inr x => Some x end
  end.

Definition hunt_wg_endpoints (m : ScanMode) (want : nat) (now : Z) (rs : list hunt_round)
    : option (comp AetherError (list ProbeResult)) :=
  let want := Nat.max want 1 in
  let st := wg_adjust (wg_common (wg_strategy m)) want in
  wg_go st want (now + overall_deadline st) (mk_wg [] 0 None) rs.

Definition hunt_best_wg_endpoint (m : ScanMode) (now : Z) (rs : list hunt_round) : option (comp AetherError ProbeResult) :=
  match hunt_wg_endpoints m 1 now rs with
  | Some r => Some (l ← r; ok_or (head l) ENoCleanEndpoint)
  | None => None
  end.

(** ** What a search finds *)

Definition results (rs : list hunt_round) : list ProbeResult := omap (λ r, hunt_result (event r)) rs.

(** A round that ends any search. *)
Definition ends (deadline : Z) (r : hunt_round) : Prop :=
  deadline ≤ top r ∨ event r = StreamEnd ∨ event r = WaitOver.

Lemma results_app a b : results (a ++ b) = results a ++ results b.
Proof. apply omap_app. Qed.

Lemma results_snoc_None a r : hunt_result (event r) = None → results (a ++ [r]) = results a.
Proof. intros E. rewrite results_app. cbn. by rewrite E, app_nil_r. Qed.

(** The rounds a search used: those it went on after, each begun in time, and
    the last; [taken] are the results it took. *)
Definition used (deadline : Z) (rs : list hunt_round) (taken : list ProbeResult) : Prop :=
  ∃ seen last rest, rs = seen ++ last :: rest ∧ Forall (λ r, top r < deadline) seen ∧
    (taken = results seen ∨ taken = results (seen ++ [last])).

Lemma used_here deadline r rs : used deadline (r :: rs) [] ∧ used deadline (r :: rs) (results [r]).
Proof. split; exists [], r, rs; (split_and!; [done|constructor|]); [by left|by right]. Qed.

Lemma used_later deadline r rs taken :
  top r < deadline → used deadline rs taken → used deadline (r :: rs) (results [r] ++ taken).
Proof.
  intros Ht (seen & last & rest & -> & Hf & Htaken). exists (r :: seen), last, rest.
  split_and!; [done|by constructor|]. rewrite <- app_comm_cons.
  change (r :: seen) with ([r] ++ seen). change (r :: seen ++ [last]) with ([r] ++ (seen ++ [last])).
  rewrite !(results_app [r]). destruct Htaken as [->| ->]; [by left|by right].
Qed.

(** The best of several. *)
Definition best_of (b : option ProbeResult) (l : list ProbeResult) : option ProbeResult :=
  foldl (λ b pr, Some (better b pr)) b l.

Lemma best_of_min l b pr : best_of b l = Some pr →
  (pr ∈ l ∨ b = Some pr) ∧ (∀ q, q ∈ l ∨ b = Some q → pr_rtt pr ≤ pr_rtt q).
Proof.
  revert b. induction l as [|x l IH]; intros b; cbn [best_of foldl].
  - intros ->. split; [by right|]. intros q [?%not_elem_of_nil|[= ->]]; [done|lia].
  - intros [Hin Hmin]%IH. assert (better b x = x ∨ b = Some (better b x)) as Hb.
    { destruct b as [cur|]; cbn; [|by left]. destruct (_ <=? _); [by right|by left]. }
    assert (pr_rtt (better b x) ≤ pr_rtt x ∧ ∀ q, b = Some q → pr_rtt (better b x) ≤ pr_rtt q) as [Hx Hq].
    { destruct b as [cur|]; cbn; [|split; [lia|done]]. destruct (Z.leb_spec (pr_rtt cur) (pr_rtt x)).
      - split; [lia|]. intros q [= ->]. lia.
      - split; [lia|]. intros q [= ->]. lia. }
    pose proof (Hmin _ (or_intror eq_refl)) as Hpr. split.
    + destruct Hin as [Hin|[= <-]]; [left; set_solver|]. destruct Hb as [Hb|Hb]; [left; rewrite Hb; set_solver|by right].
    + intros q [Hql|Hqb].
      * apply elem_of_cons in Hql as [->|Hql]; [lia|]. apply Hmin. by left.
      * specialize (Hq _ Hqb). lia.
Qed.

Lemma best_of_Some y l : best_of (Some y) l ≠ None.
Proof. revert y. induction l as [|x l IH]; intros y; [done|]. apply (IH (better (Some y) x)). Qed.

Lemma best_of_None l : best_of None l = None ↔ l = [].
Proof. split; [|by intros ->]. destruct l as [|x l]; [done|]. intros E. by apply (best_of_Some x l) in E. Qed.

Lemma hunt_go_spec st deadline s rs :
  (early_exit_first st = true → best s = None) → Exists (ends deadline) rs →
  ∃ taken, hunt_go st deadline s rs = Some (finish (best_of (best s) taken)) ∧ used deadline rs taken.
Proof.
  revert s. induction rs as [|r rs IH]; intros s He Hex; [by inversion Hex|]. cbn [hunt_go].
  unfold hunt_step. destruct (Z.leb_spec (effective deadline (quiet_until s) - top r) 0) as [|Hlt].
  { exists []. split; [done|apply used_here]. }
  assert (top r < deadline) as Ht by (unfold effective in Hlt; destruct (quiet_until s); lia).
  assert (∀ s', event r ≠ StreamEnd → event r ≠ WaitOver → best s' = best_of (best s) (results [r]) →
    (early_exit_first st = true → best s' = None) →
    ∃ taken, hunt_go st deadline s' rs = Some (finish (best_of (best s) taken)) ∧ used deadline (r :: rs) taken) as Hgo.
  { intros s' Hn1 Hn2 Hb He'. apply Exists_cons in Hex as [[|[|]]|Hex]; [lia|done|done|].
    destruct (IH s' He' Hex) as (taken & E & Hu). exists (results [r] ++ taken).
    split; [|by apply used_later]. rewrite E. unfold best_of. rewrite foldl_app. by rewrite Hb. }
  pose proof (used_here deadline r rs) as [Hu0 Hu1]. unfold results in Hu1, Hgo. cbn in Hu1, Hgo.
  destruct (event r) as [c outcome at_| |]; [|by exists []..]. cbn [hunt_result] in Hu1, Hgo.
  destruct (verify_one c outcome) as [pr|]; [|by apply Hgo].
  destruct (early_exit_first st) eqn:Ee; [exists [pr]; split; [by rewrite He|done]|]. cbv zeta.
  destruct (_ && _ && _); [destruct (negb _)|]; [by apply Hgo| |by apply Hgo].
  exists [pr]. by split.
Qed.

(** *** When a search is over

    Said of the rounds alone: when each gateway answered, until when the
    search waits after the rounds [pre], and what ends it at the next. *)
Definition answer_time (r : hunt_round) : option Z :=
  match event r with Item c outcome at_ => option_map (λ _, at_) (verify_one c outcome) | _ => None end.
Definition answer_times (pre : list hunt_round) : list Z := omap answer_time pre.

Definition quiet_from (st : Strategy) (pre : list hunt_round) : option Z :=
  if 0 <? target_successes st
  then (λ t, t + quiet_after_first st) <$> answer_times pre !! Z.to_nat (target_successes st - 1) else None.
Definition waits_until (st : Strategy) (deadline : Z) (pre : list hunt_round) : Z := effective deadline (quiet_from st pre).

(** Its time is up. *)
Definition late (st : Strategy) (deadline : Z) (pre : list hunt_round) (r : hunt_round) : bool :=
  waits_until st deadline pre <=? top r.

(** The answer of [r] is enough. *)
Definition enough (st : Strategy) (pre : list hunt_round) (r : hunt_round) : Prop :=
  hunt_result (event r) ≠ None ∧
  (early_exit_first st = true ∨
   0 < target_successes st ≤ Z.of_nat (length (results (pre ++ [r]))) ∧ quiet_after_first st = 0).

Definition over_at (st : Strategy) (deadline : Z) (pre : list hunt_round) (r : hunt_round) : Prop :=
  late st deadline pre r = true ∨ event r = StreamEnd ∨ event r = WaitOver ∨ enough st pre r.

(** The rounds of a search: [pre], the one it is over at, and those it does
    not see. *)
Record searched (st : Strategy) (deadline : Z) (rs pre : list hunt_round) (r : hunt_round) : Prop := {
  srch_cut : ∃ rest, rs = pre ++ r :: rest;
  srch_over : over_at st deadline pre r;
  srch_first : ∀ a x b, pre = a ++ x :: b → ¬ over_at st deadline a x;
}.

(** Every answer it received: that of the last round only in time. *)
Definition received (st : Strategy) (deadline : Z) (pre : list hunt_round) (r : hunt_round) : list ProbeResult :=
  results (if late st deadline pre r then pre else pre ++ [r]).

Lemma answer_times_length pre : length (answer_times pre) = length (results pre).
Proof.
  induction pre as [|r pre IH]; [done|]. cbn. unfold answer_time, hunt_result.
  unfold answer_times, results in IH. destruct (event r) as [c outcome at_| |]; [|done..]. destruct (verify_one c outcome); [exact (f_equal S IH)|exact IH].
Qed.

(** What the search knows after rounds that were not its end. *)
Record tracks (st : Strategy) (pre : list hunt_round) (s : hunt_state) : Prop := {
  tr_best : best s = best_of None (results pre);
  tr_found : found s = Z.of_nat (length (results pre));
  tr_quiet : quiet_until s = quiet_from st pre;
  tr_early : early_exit_first st = true → results pre = [];
  tr_short : 0 < target_successes st → quiet_after_first st = 0 → found s < target_successes st;
}.

Lemma tracks_silent st pre s r : tracks st pre s → hunt_result (event r) = None → tracks st (pre ++ [r]) s.
Proof.
  intros [H1 H2 H3 H4 H5] Hr. assert (results (pre ++ [r]) = results pre) as Er by (by apply results_snoc_None).
  assert (answer_times (pre ++ [r]) = answer_times pre) as Et.
  { unfold answer_times. rewrite omap_app. cbn. unfold answer_time, hunt_result in *.
    destruct (event r) as [c outcome at_| |]; [rewrite Hr|..]; by rewrite app_nil_r. }
  split; [by rewrite Er..| |by rewrite Er|done]. unfold quiet_from. by rewrite Et.
Qed.

(** The wait that follows an answer. *)
Lemma quiet_snoc st pre r at_ : answer_time r = Some at_ →
  quiet_from st (pre ++ [r]) =
    match quiet_from st pre with
    | Some q => Some q
    | None => if (0 <? target_successes st) && (target_successes st <=? Z.of_nat (length (results pre)) + 1)
              then Some (at_ + quiet_after_first st) else None
    end.
Proof.
  intros Ha. unfold quiet_from. destruct (Z.ltb_spec 0 (target_successes st)) as [Ht|]; [|done]. cbn [andb].
  unfold answer_times. rewrite omap_app. cbn. rewrite Ha. fold (answer_times pre).
  destruct (answer_times pre !! _) as [q|] eqn:Eq.
  { by rewrite (lookup_app_l_Some _ _ _ _ Eq). }
  apply lookup_ge_None in Eq. rewrite lookup_app_r, answer_times_length in * by done. cbn [fmap option_fmap option_map].
  destruct (Z.leb_spec (target_successes st) (Z.of_nat (length (results pre)) + 1)).
  - by replace (Z.to_nat (target_successes st - 1) - length (results pre))%nat with 0%nat by lia.
  - by destruct (Z.to_nat (target_successes st - 1) - length (results pre))%nat as [|n] eqn:En; [lia|].
Qed.

Lemma hunt_step_tracks st deadline pre s r : tracks st pre s →
  match hunt_step st deadline s r with
  | inl s' => ¬ over_at st deadline pre r ∧ tracks st (pre ++ [r]) s'
  | inr x => over_at st deadline pre r ∧ x = finish (best_of None (received st deadline pre r))
  end.
Proof.
  intros Htr. pose proof Htr as [Hb Hf Hq He Hs]. unfold hunt_step, received, over_at.
  replace (effective deadline (quiet_until s) - top r <=? 0) with (late st deadline pre r)
    by (unfold late, waits_until; rewrite Hq; destruct (Z.leb_spec (effective deadline (quiet_from st pre)) (top r)); symmetry;
        [apply Z.leb_le|apply Z.leb_gt]; lia).
  destruct (late st deadline pre r); [rewrite Hb; auto|].
  destruct (event r) as [c outcome at_| |] eqn:Er; [|rewrite results_snoc_None, Hb by (by rewrite Er); auto..].
  assert (hunt_result (event r) = verify_one c outcome) as Hr by (by rewrite Er).
  destruct (verify_one c outcome) as [pr|] eqn:Ev.
  2:{ split; [|by apply tracks_silent]. intros [?|[?|[?|[Hn _]]]]; [done..|]. by rewrite Hr in Hn. }
  assert (results (pre ++ [r]) = results pre ++ [pr]) as Er' by (rewrite results_app; cbn; by rewrite Hr).
  assert (best_of None (results (pre ++ [r])) = Some (better (best s) pr)) as Hb'
    by (rewrite Er'; unfold best_of; rewrite foldl_app; fold (best_of None (results pre)); by rewrite <- Hb).
  assert (answer_time r = Some at_) as Ha by (unfold answer_time; by rewrite Er, Ev).
  pose proof (quiet_snoc st pre r at_ Ha) as Hq'. rewrite <- Hq, <- Hf in Hq'.
  destruct (early_exit_first st) eqn:Ee.
  { split; [|by rewrite Er', He]. right. right. right. split; [by rewrite Hr|by left]. }
  cbv zeta. rewrite (Z.gtb_ltb (target_successes st)), (Z.geb_leb (found s + 1)).
  assert (enough st pre r ↔ 0 < target_successes st ≤ found s + 1 ∧ quiet_after_first st = 0) as Hen.
  { unfold enough. rewrite Hr, Er', length_app, Ee, Hf. cbn. split; [intros [_ [?|?]]; [done|lia]|]. intros ?. split; [done|]. right. lia. }
  assert (Hgo : ∀ q, quiet_from st (pre ++ [r]) = q → (0 < target_successes st → quiet_after_first st = 0 → found s + 1 < target_successes st) →
    ¬ (false = true ∨ Item c outcome at_ = StreamEnd ∨ Item c outcome at_ = WaitOver ∨ enough st pre r) ∧
    tracks st (pre ++ [r]) (mk_hunt (Some (better (best s) pr)) (found s + 1) q)).
  { intros q Eq Hn. split; [rewrite Hen; intros [?|[?|[?|?]]]; [done..|lia]|].
    split; cbn; [done|rewrite Er', length_app; cbn; lia|done|by rewrite Ee|done]. }
  destruct (quiet_until s) as [q|] eqn:Eq; cbn [bool_decide].
  { rewrite andb_false_r. apply Hgo; [done|]. intros Ht Hz.
    unfold quiet_from in Hq. destruct (0 <? target_successes st); [|done]. destruct (answer_times pre !! _) eqn:El; [|done].
    apply lookup_lt_Some in El. rewrite answer_times_length in El. specialize (Hs Ht Hz). lia. }
  rewrite andb_true_r. destruct (_ && _) eqn:Ec.
  - apply andb_true_iff in Ec as [Ht%Z.ltb_lt Hn%Z.leb_le]. destruct (Z.eqb_spec (quiet_after_first st) 0) as [Hz|Hz]; cbn [negb].
    + rewrite Hb'. split; [|done]. do 3 right. apply Hen. lia.
    + apply Hgo; [done|lia].
  - apply Hgo; [done|]. intros Ht _. apply andb_false_iff in Ec as [Ec%Z.ltb_ge|Ec%Z.leb_gt]; lia.
Qed.

Lemma ends_over st deadline pre r : ends deadline r → over_at st deadline pre r.
Proof.
  intros [Ht|[?|?]]; [left|by right; left|by right; right; left]. apply Z.leb_le. unfold waits_until, effective.
  destruct (quiet_from st pre); lia.
Qed.

Lemma hunt_go_searched st deadline pre s rs : tracks st pre s →
  (∀ a x b, pre = a ++ x :: b → ¬ over_at st deadline a x) → Exists (ends deadline) rs →
  ∃ all last, searched st deadline (pre ++ rs) all last ∧
    hunt_go st deadline s rs = Some (finish (best_of None (received st deadline all last))).
Proof.
  revert pre s. induction rs as [|r rs IH]; intros pre s Htr Hno Hex; [by inversion Hex|]. cbn [hunt_go].
  pose proof (hunt_step_tracks st deadline pre s r Htr) as Hstep. destruct (hunt_step st deadline s r) as [s'|x].
  - destruct Hstep as [Hn Htr']. destruct (IH (pre ++ [r]) s' Htr') as (all & last & Hs & E).
    + intros a x b Eab. destruct b as [|y b _] using rev_ind.
      * by apply app_inj_tail in Eab as [-> ->].
      * rewrite app_comm_cons, app_assoc in Eab. apply app_inj_tail in Eab as [-> _]. by eapply Hno.
    + apply Exists_cons in Hex as [He|?]; [|done]. by apply (ends_over st deadline pre) in He.
    + exists all, last. split; [|done]. by rewrite <- app_assoc in Hs.
  - destruct Hstep as [Ho ->]. exists pre, r. split; [|done]. split; [by eexists|done|done].
Qed.

Lemma tracks_start st : tracks st [] (mk_hunt None 0 None).
Proof.
  split; [done|done| |done|intros ? _; cbn; lia]. unfold quiet_from. by destruct (0 <? _).
Qed.


Lemma results_elem rs pr : pr ∈ results rs → ∃ r c outcome at_,
  r ∈ rs ∧ event r = Item c outcome at_ ∧ outcome = Ok (pr_rtt pr) ∧ c = (pr_ip pr, pr_port pr).
Proof.
  unfold results. intros (r & Hr & E)%list_elem_of_omap. unfold hunt_result, verify_one in E.
  destruct (event r) as [c outcome at_| |] eqn:Er; [|done..]. destruct outcome as [rtt| |]; [|done..].
  injection E as <-. exists r, c, (Ok rtt), at_. by destruct c.
Qed.

Lemma used_elem deadline rs taken pr : used deadline rs taken → pr ∈ taken → pr ∈ results rs.
Proof.
  intros (seen & last & rest & -> & _ & [->| ->]) Hpr; rewrite !results_app in *; [set_solver|].
  change (last :: rest) with ([last] ++ rest). rewrite (results_app [last]). set_solver.
Qed.

(** A gateway that is chosen was probed and is none of those left out: when
    the probes are of the candidates, the result is one of them, its address
    is not to be avoided, and its check ended well. *)
Theorem hunt_chooses_candidate (env : environment) (m : ScanMode) (ports : list Z) (ip : IpScan) (host_has_ipv6 : bool)
  (avoid : list IpAddr) (ds : list Z) (cands : list candidate) (now : Z) (rs : list hunt_round) (pr : ProbeResult)
  (Hcands : hunt_candidates env m ports ip host_has_ipv6 avoid ds = Some (Ok cands))
  (Hprobes : ∀ r c outcome at_, r ∈ rs → event r = Item c outcome at_ → c ∈ cands)
  (Hends : Exists (ends (now + overall_deadline (strategy m))) rs)
  (Hrun : hunt (strategy m) now rs = Some (Ok pr)) :
  (pr_ip pr, pr_port pr) ∈ cands ∧ pr_ip pr ∉ avoid ∧
  ∃ r c at_, r ∈ rs ∧ event r = Item c (Ok (pr_rtt pr)) at_.
Proof.
  destruct (hunt_go_spec (strategy m) (now + overall_deadline (strategy m)) (mk_hunt None 0 None) rs)
    as (taken & E & Hu); [done..|].
  unfold hunt in Hrun. rewrite E in Hrun. cbn [best] in Hrun.
  destruct (best_of None taken) as [b|] eqn:Eb; [|done]. injection Hrun as ->.
  apply best_of_min in Eb as [[Hin|?] _]; [|done]. apply (used_elem _ _ _ _ Hu) in Hin.
  apply results_elem in Hin as (r & c & outcome & at_ & Hr & Er & -> & ->).
  pose proof (Hprobes _ _ _ _ Hr Er) as Hc. split; [done|]. split; [|eauto].
  unfold hunt_candidates in Hcands. destruct (effective_ip ip host_has_ipv6) as [ip'| |]; [|done..].
  destruct (build_candidates _ _ _ _ _ _) as [[all ds1]|]; [|done]. injection Hcands as <-.
  by apply list_elem_of_filter in Hc as [Hc _].
Qed.

(** ** One endpoint for each address *)

Definition by_rtt (a b : ProbeResult) : Prop := pr_rtt a ≤ pr_rtt b.

Lemma elem_of_insert_rtt x l y : y ∈ insert_rtt x l ↔ y = x ∨ y ∈ l.
Proof. induction l as [|z l IH]; cbn; [set_solver|]. destruct (_ <=? _); set_solver. Qed.

Lemma elem_of_sort_rtt l y : y ∈ sort_rtt l ↔ y ∈ l.
Proof. induction l as [|x l IH]; [done|]. cbn. rewrite elem_of_insert_rtt. fold (sort_rtt l). rewrite IH. set_solver. Qed.

Lemma insert_rtt_sorted x l : StronglySorted by_rtt l → StronglySorted by_rtt (insert_rtt x l).
Proof.
  induction 1 as [|y l Hl IH Hy]; cbn; [by repeat constructor|]. destruct (Z.leb_spec (pr_rtt x) (pr_rtt y)).
  - constructor; [by constructor|]. constructor; [done|]. eapply Forall_impl; [exact Hy|]. unfold by_rtt. lia.
  - constructor; [done|]. apply Forall_forall. intros z Hz. apply elem_of_insert_rtt in Hz as [->|Hz]; [unfold by_rtt; lia|].
    rewrite Forall_forall in Hy. by apply Hy.
Qed.

Lemma sort_rtt_sorted l : StronglySorted by_rtt (sort_rtt l).
Proof. induction l as [|x l IH]; cbn; [constructor|]. by apply insert_rtt_sorted. Qed.

Lemma first_by_ip_spec seen l : StronglySorted by_rtt l →
  let r := first_by_ip seen l in
  StronglySorted by_rtt r ∧ NoDup (map pr_ip r) ∧ (∀ x, x ∈ r → x ∈ l ∧ pr_ip x ∉ seen) ∧
  (∀ x y, x ∈ r → y ∈ l → pr_ip y = pr_ip x → pr_rtt x ≤ pr_rtt y) ∧
  (∀ y, y ∈ l → pr_ip y ∉ seen → ∃ x, x ∈ r ∧ pr_ip x = pr_ip y).
Proof.
  intros Hl. cbv zeta. revert seen. induction Hl as [|x l Hl IH Hx]; intros seen; cbn [first_by_ip].
  - split_and!; [constructor|constructor|set_solver|set_solver|set_solver].
  - rewrite Forall_forall in Hx. case_bool_decide as Hs.
    + destruct (IH seen) as (H1 & H2 & H3 & H4 & H5). split_and!; [done|done| | |].
      * intros y Hy. destruct (H3 y Hy). set_solver.
      * intros a y Ha [->|Hy]%elem_of_cons Hip; [|by apply H4]. destruct (H3 a Ha) as [_ Hns]. by rewrite <- Hip in Hns.
      * intros y [->|Hy]%elem_of_cons Hns; [done|by apply H5].
    + destruct (IH (pr_ip x :: seen)) as (H1 & H2 & H3 & H4 & H5). split_and!.
      * constructor; [done|]. apply Forall_forall. intros y Hy. by apply Hx, H3.
      * cbn [map]. constructor; [|done]. intros (y & E & Hy)%elem_of_map. destruct (H3 y Hy) as [_ Hns]. set_solver.
      * intros y [->|Hy]%elem_of_cons; [split; [set_solver|done]|]. destruct (H3 y Hy). set_solver.
      * intros a y [->|Ha]%elem_of_cons [->|Hy]%elem_of_cons Hip; [lia|by apply Hx| |by apply H4].
        destruct (H3 a Ha) as [_ Hns]. set_solver.
      * intros y [->|Hy]%elem_of_cons Hns; [exists x; set_solver|].
        destruct (decide (pr_ip y = pr_ip x)) as [Eq|Hne]; [exists x; set_solver|].
        destruct (H5 y Hy) as (z & Hz & Ez); [set_solver|]. exists z. set_solver.
Qed.

Lemma first_by_ip_empty l : is_empty (first_by_ip [] l) = is_empty l.
Proof. destruct l as [|x l]; [done|]. cbn. by rewrite bool_decide_eq_false_2 by apply not_elem_of_nil. Qed.

(** The endpoints of a search: the fastest of each address, in order. *)
Lemma wg_finish_spec want l : (0 < want)%nat →
  match wg_finish want l with
  | Ok r => r ≠ [] ∧ (length r ≤ want)%nat ∧ StronglySorted by_rtt r ∧ NoDup (map pr_ip r) ∧
      (∀ x, x ∈ r → x ∈ l ∧ ∀ y, y ∈ l → pr_ip y = pr_ip x → pr_rtt x ≤ pr_rtt y) ∧
      (∀ y, y ∈ l → (∃ x, x ∈ r ∧ pr_ip x = pr_ip y) ∨ (length r = want ∧ ∀ x, x ∈ r → pr_rtt x ≤ pr_rtt y))
  | Err e => e = ENoCleanEndpoint ∧ l = []
  | Panic => False
  end.
Proof.
  intros Hw. unfold wg_finish, distinct_by_ip.
  destruct (first_by_ip_spec [] (sort_rtt l) (sort_rtt_sorted l)) as (H1 & H2 & H3 & H4 & H5).
  rewrite first_by_ip_empty. destruct (sort_rtt l) as [|s0 sl] eqn:Es; cbn [is_empty].
  { split; [done|]. destruct l as [|x l]; [done|]. assert (x ∈ sort_rtt (x :: l)) as Hx by (apply elem_of_sort_rtt; set_solver).
    rewrite Es in Hx. by apply not_elem_of_nil in Hx. }
  rewrite <- Es in *. set (p := first_by_ip [] (sort_rtt l)) in *.
  assert (p ≠ []) as Hp. { intros E. assert (is_empty p = false) as He by (unfold p; by rewrite first_by_ip_empty, Es). by rewrite E in He. }
  clearbody p. pose proof (take_drop want p) as Ep.
  assert (∀ x, x ∈ take want p → x ∈ p) as Hsub by (intros x Hx; rewrite <- Ep; set_solver).
  split_and!.
  - destruct p, want; [done..|lia|done].
  - rewrite length_take. lia.
  - rewrite <- Ep in H1. by apply StronglySorted_app_1_l in H1.
  - rewrite <- Ep, map_app in H2. by apply NoDup_app in H2 as (? & _ & _).
  - intros x Hx. apply Hsub in Hx. split; [by apply elem_of_sort_rtt, H3|]. intros y Hy. apply H4; [done|by apply elem_of_sort_rtt].
  - intros y Hy. apply elem_of_sort_rtt in Hy. destruct (H5 y Hy ltac:(apply not_elem_of_nil)) as (x & Hx & Ex).
    rewrite <- Ep in Hx. apply elem_of_app in Hx as [Hx|Hx]; [left; eauto|right]. split.
    + rewrite length_take. assert (want < length p)%nat; [|lia]. destruct (decide (want < length p)%nat); [done|].
      rewrite drop_ge in Hx by lia. by apply not_elem_of_nil in Hx.
    + intros z Hz. rewrite <- Ep in H1. pose proof (StronglySorted_app_1_elem_of _ _ _ _ _ H1 Hz Hx) as Hzx.
      unfold by_rtt in Hzx. assert (x ∈ p) as Hxp by (rewrite <- Ep; set_solver). pose proof (H4 x y Hxp Hy (eq_sym Ex)). lia.
Qed.

Lemma wg_go_spec st want deadline s rs :
  (0 < want)%nat → (early_exit_first st = true → verified s = []) → Exists (ends deadline) rs →
  ∃ taken, wg_go st want deadline s rs = Some (wg_finish want (verified s ++ taken)) ∧ used deadline rs taken.
Proof.
  intros Hw. revert s. induction rs as [|r rs IH]; intros s He Hex; [by inversion Hex|]. cbn [wg_go].
  unfold wg_step. destruct (Z.leb_spec (effective deadline (wg_quiet s) - top r) 0) as [|Hlt].
  { exists []. rewrite app_nil_r. split; [done|apply used_here]. }
  assert (top r < deadline) as Ht by (unfold effective in Hlt; destruct (wg_quiet s); lia).
  assert (∀ s', event r ≠ StreamEnd → event r ≠ WaitOver → verified s' = verified s ++ results [r] →
    (early_exit_first st = true → verified s' = []) →
    ∃ taken, wg_go st want deadline s' rs = Some (wg_finish want (verified s ++ taken)) ∧ used deadline (r :: rs) taken) as Hgo.
  { intros s' Hn1 Hn2 Hb He'. apply Exists_cons in Hex as [[|[|]]|Hex]; [lia|done|done|].
    destruct (IH s' He' Hex) as (taken & E & Hu). exists (results [r] ++ taken).
    split; [|by apply used_later]. by rewrite E, Hb, app_assoc. }
  pose proof (used_here deadline r rs) as [Hu0 Hu1]. unfold results in Hu1, Hgo. cbn in Hu1, Hgo.
  destruct (event r) as [c outcome at_| |]; [|by exists []; rewrite app_nil_r..]. cbn [hunt_result] in Hu1, Hgo.
  destruct (verify_one c outcome) as [pr|]; [|apply Hgo; [done|done|by rewrite app_nil_r|done]].
  destruct (early_exit_first st) eqn:Ee.
  { exists [pr]. split; [|done]. rewrite He by done. destruct want; [lia|]. unfold wg_finish. cbn. by destruct want. }
  cbv zeta. destruct (_ && bool_decide (1 < want)%nat); [by exists [pr]|].
  destruct (_ && _ && _); [destruct (negb _)|]; [by apply Hgo|by exists [pr]|by apply Hgo].
Qed.

(** The search for WireGuard endpoints ends with distinct and the fastest
    ones: of the results it took it returns at most as many as wanted, sorted
    by round trip, one for each address and that its fastest; a result that is
    left out has its address there or is no faster than all that are; it fails
    only when there was none. *)
Theorem hunt_wg_distinct (m : ScanMode) (want : nat) (now : Z) (rs : list hunt_round)
  (Hends : Exists (ends (now + overall_deadline (wg_common (wg_strategy m)))) rs) :
  ∃ taken, used (now + overall_deadline (wg_common (wg_strategy m))) rs taken ∧
    match hunt_wg_endpoints m want now rs with
    | Some (Ok r) => r ≠ [] ∧ (length r ≤ Nat.max want 1)%nat ∧ StronglySorted by_rtt r ∧ NoDup (map pr_ip r) ∧
        (∀ x, x ∈ r → x ∈ taken ∧ ∀ y, y ∈ taken → pr_ip y = pr_ip x → pr_rtt x ≤ pr_rtt y) ∧
        (∀ y, y ∈ taken → (∃ x, x ∈ r ∧ pr_ip x = pr_ip y) ∨
           (length r = Nat.max want 1 ∧ ∀ x, x ∈ r → pr_rtt x ≤ pr_rtt y))
    | Some (Err e) => e = ENoCleanEndpoint ∧ taken = []
    | _ => False
    end.
Proof.
  unfold hunt_wg_endpoints. cbv zeta. set (w := Nat.max want 1). assert (0 < w)%nat as Hw by lia.
  set (st := wg_adjust (wg_common (wg_strategy m)) w).
  assert (overall_deadline st = overall_deadline (wg_common (wg_strategy m))) as Hd
    by (unfold st, wg_adjust; by case_bool_decide).
  rewrite <- Hd in *. destruct (wg_go_spec st w (now + overall_deadline st) (mk_wg [] 0 None) rs Hw) as (taken & E & Hu);
    [done..|]. cbn [verified app] in E. exists taken. split; [done|]. rewrite E. by apply wg_finish_spec.
Qed.

(** ** Searches *)
Module Hunts.

Definition at_one (i : Z) (outcome : comp AetherError Z) (t : Z) : hunt_round :=
  mk_round t (Item (V4 (2728380161 + i), 443) outcome t).

(** Two gateways answer, one does not, and the probes end. *)
Definition rounds : list hunt_round :=
  [at_one 0 (Ok 80) 10; at_one 1 (Err (EOther [])) 20; at_one 2 (Ok 40) 30; mk_round 40 StreamEnd].


Definition few_ports : list Z := [443].
Definition no_env : environment := λ _, None.
Definition warp_cands : list candidate :=
  match hunt_candidates no_env Balanced few_ports ScanV4 false [V4 2728380161] [] with Some (Ok c) => c | _ => [] end.
Definition warp_rounds : list hunt_round :=
  [mk_round 10 (Item (V4 2728380087, 443) (Ok 80) 10); mk_round 40 WaitOver].

Lemma hunt_chooses_candidate_witness : pr_ip (mk_probe (V4 2728380087) 443 80) ∉ [V4 2728380161].
Proof.
  apply (hunt_chooses_candidate no_env Balanced few_ports ScanV4 false [V4 2728380161] [] warp_cands 0 warp_rounds
           (mk_probe (V4 2728380087) 443 80)).
  - vm_compute. reflexivity.
  - intros r c outcome at_ Hr Er. unfold warp_rounds in Hr. apply elem_of_cons in Hr as [->|Hr].
    + injection Er as <- _ _. by_decision.
    + apply list_elem_of_singleton in Hr as ->. discriminate.
  - apply Exists_exists. exists (mk_round 40 WaitOver). split; [repeat constructor|]. right. by right.
  - vm_compute. reflexivity.
Defined.

Lemma hunt_wg_distinct_witness :
  hunt_wg_endpoints Balanced 2 0 (at_one 2 (Ok 90) 5 :: rounds)
    = Some (Ok [mk_probe (V4 2728380161) 443 80; mk_probe (V4 2728380163) 443 90]) ∧
  NoDup (map pr_ip [mk_probe (V4 2728380161) 443 80; mk_probe (V4 2728380163) 443 90]).
Proof.
  assert (hunt_wg_endpoints Balanced 2 0 (at_one 2 (Ok 90) 5 :: rounds)
    = Some (Ok [mk_probe (V4 2728380161) 443 80; mk_probe (V4 2728380163) 443 90])) as E by (vm_compute; reflexivity).
  split; [exact E|].
  destruct (hunt_wg_distinct Balanced 2 0 (at_one 2 (Ok 90) 5 :: rounds)) as (taken & _ & Hr).
  - apply Exists_exists. exists (mk_round 40 StreamEnd). split; [repeat constructor|]. right. by left.
  - rewrite E in Hr. apply Hr.
Defined.
End Hunts.
