(* ===== verification/ExitLoc.v ===== *)
(** * Where the tunnel comes out

    src/aether/src/exitloc.rs: the policy on the country of the exit, the
    answer it is read from, and the checks made with it when a tunnel is up
    and while it runs.  The conversation inside the tunnel is given by the
    chunks the stack hands over, and by how it ended. *)

From stdpp Require Import strings.
From S2P Require Import Prelude Text Net NetText Error Fragment Netstack.

Definition TRACE_HOST : bytes := lit "www.cloudflare.com".
Definition TRACE_PATH : bytes := lit "/cdn-cgi/trace".

Definition ascii_upper (b : Z) : Z := if is_ascii_lowercase b then b - 32 else b.
Definition to_ascii_uppercase (s : bytes) : bytes := map ascii_upper s.

(** ** The policy *)

Record Policy := mk_policy { allow : list bytes; deny : list bytes; interval : Z }.

Definition interval_from_env (env : environment) : Z := secs_of env (lit "AETHER_EXIT_LOC_SECS") 60.

Definition is_code (c : bytes) : bool := (blen c =? 2) && forallb is_ascii_alphabetic c.

Definition policy_parse (env : environment) (raw : bytes) : option Policy :=
  let spec := trim raw in
  if is_empty spec || eq_ignore_ascii_case spec (lit "any") || eq_ignore_ascii_case spec (lit "off") then None
  else
    let negated := starts_with [33] spec in
    let body := trim_start_matches 33 (trim_start_matches 61 (trim_start_matches 33 spec)) in
    let codes := filter is_code (map (λ c, to_ascii_uppercase (trim c)) (split 44 body)) in
    if is_empty codes then None
    else
      let '(a, d) := if negated then ([], codes) else (codes, []) in
      Some (mk_policy a d (interval_from_env env)).

Definition policy_from_env (env : environment) : option Policy :=
  policy_parse env (default [] (env (lit "AETHER_EXIT_LOC"))).

Definition mem_bytes (c : bytes) (l : list bytes) : bool := existsb (str_eqb c) l.

Definition policy_accepts (p : Policy) (loc : bytes) : bool :=
  let code := to_ascii_uppercase (trim loc) in
  if mem_bytes code (deny p) then false else is_empty (allow p) || mem_bytes code (allow p).

(** ** The answer *)

Definition find_map {A B} (f : A → option B) (l : list A) : option B := head (omap f l).

Definition field (body name : bytes) : option bytes :=
  value ← find_map (strip_prefix (name ++ [61])) (lines body);
  let value := trim value in
  if is_empty value then None else Some value.

Definition parse_trace (body : bytes) : option bytes :=
  code ← field body (lit "loc");
  let code := to_ascii_uppercase code in
  if blen code =? 2 then Some code else None.

Record Exit := mk_exit { address : option bytes; country : option bytes; colo : option bytes; warp : bool; exit_rtt : Z }.

Definition parse_exit (body : bytes) (rtt : Z) : Exit :=
  mk_exit (field body (lit "ip")) (parse_trace body) (field body (lit "colo"))
    (match field body (lit "warp") with Some v => str_eqb v (lit "on") | None => false end) rtt.

(** The loop of [read_trace]: chunks until there is too much or the country
    can be read. *)
Fixpoint read_chunks (buf : bytes) (chunks : list bytes) : bytes :=
  match chunks with
  | [] => buf
  | chunk :: chunks =>
      let buf := buf ++ chunk in
      if (blen buf >? 8192) || bool_decide (parse_trace (from_utf8_lossy buf) ≠ None) then buf
      else read_chunks buf chunks
  end.

(** [read_trace], given how the conversation began and what it handed over;
    [None] is the timeout. *)
Definition read_trace (attempt : option (comp AetherError (list bytes))) : comp AetherError bytes :=
  match attempt with
  | Some begun => chunks ← begun; mret (from_utf8_lossy (read_chunks [] chunks))
  | None => Err (EOther (lit "looking up the exit location timed out"))
  end.

(** [report]. *)
Definition report (attempt : option (comp AetherError (list bytes))) (rtt : Z) : option Exit :=
  match read_trace attempt with Ok body => Some (parse_exit body rtt) | _ => None end.

Definition lookup_exit (attempt : option (comp AetherError (list bytes))) : comp AetherError bytes :=
  body ← read_trace attempt;
  ok_or (parse_trace body) (EOther (lit "the trace answer carried no location")).

(** ** The checks *)

Definition settle_exit (attempt : option (comp AetherError (list bytes))) (rtt : Z) (policy : option Policy)
    : comp AetherError unit :=
  match policy with
  | None => mret tt
  | Some policy =>
      match report attempt rtt with
      | None => Err (EOther (lit "the exit location could not be read, so the policy cannot be honoured"))
      | Some exit =>
          let loc := default [] (country exit) in
          if policy_accepts policy loc then mret tt
          else Err (EOther (lit "exit location " ++ loc ++ lit " does not satisfy the requested policy"))
      end
  end.

(** [watch], over the lookups it makes: the error it ends with, and how many it
    made; [None] while it runs. *)
Fixpoint watch (policy : Policy) (lookups : list (option (comp AetherError (list bytes)))) : option AetherError :=
  match lookups with
  | [] => None
  | attempt :: lookups =>
      match lookup_exit attempt with
      | Ok loc =>
          if policy_accepts policy loc then watch policy lookups
          else Some (EOther (lit "exit location changed to " ++ loc))
      | _ => watch policy lookups
      end
  end.

(** ** What a policy means *)

Example trace_ex :
  parse_trace (lit "fl=117f35" ++ [10] ++ lit "colo=FRA" ++ [10] ++ lit "loc=de" ++ [13; 10] ++ lit "warp=off" ++ [10])
  = Some (lit "DE").
Proof. vm_compute. reflexivity. Qed.

Lemma mem_bytes_spec c l : mem_bytes c l = true ↔ c ∈ l.
Proof.
  unfold mem_bytes. rewrite existsb_exists. split.
  - intros (x & Hx & ->%str_eqb_eq). by apply list_elem_of_In.
  - intros Hc. exists c. split; [by apply list_elem_of_In|by apply str_eqb_eq].
Qed.

(** A policy lists countries that are allowed or countries that are not, never
    both and never none. *)
Lemma policy_parse_shape env raw p : policy_parse env raw = Some p →
  (allow p ≠ [] ∧ deny p = [] ∨ allow p = [] ∧ deny p ≠ []) ∧
  Forall (λ c, is_code c = true) (allow p ++ deny p).
Proof.
  unfold policy_parse. destruct (_ || _ || _); [done|]. cbv zeta.
  set (codes := filter is_code _). assert (Forall (λ c, is_code c = true) codes) as Hf.
  { apply Forall_forall. intros c [Hc _]%list_elem_of_filter. by destruct (is_code c). }
  clearbody codes. destruct codes as [|c codes]; [done|]. cbn [is_empty].
  destruct (starts_with [33] (trim raw)); intros [= <-]; cbn; split; [by right|done|by left|by rewrite app_nil_r].
Qed.

(** A code written in any case. *)
Lemma policy_accepts_spec p loc :
  policy_accepts p loc = true ↔
  to_ascii_uppercase (trim loc) ∉ deny p ∧ (allow p = [] ∨ to_ascii_uppercase (trim loc) ∈ allow p).
Proof.
  unfold policy_accepts. cbv zeta. destruct (mem_bytes _ (deny p)) eqn:Ed.
  - apply mem_bytes_spec in Ed. split; [done|]. by intros [? _].
  - rewrite orb_true_iff, mem_bytes_spec. assert (is_empty (allow p) = true ↔ allow p = []) as -> by (by destruct (allow p)).
    assert (to_ascii_uppercase (trim loc) ∉ deny p) by (rewrite <- mem_bytes_spec, Ed; done). tauto.
Qed.

(** ** The country, however the answer is cut *)

Definition loc_line : bytes → option bytes := strip_prefix (lit "loc" ++ [61]).

Lemma lines_go_app a l ls : lines_go (a ++ l :: ls) = map strip_cr a ++ lines_go (l :: ls).
Proof. induction a as [|x a IH]; [done|]. cbn [app map]. rewrite <- IH. cbn [lines_go]. destruct a; done. Qed.

(** The lines of a text after a complete first part. *)
Lemma lines_after p t : lines (p ++ 10 :: t) = map strip_cr (split 10 p) ++ lines t.
Proof.
  unfold lines, split. rewrite split_by_app_sep by done.
  destruct (split_by (λ x, x =? 10) t) as [|l ls] eqn:E; [by apply split_by_not_nil in E|]. by rewrite lines_go_app.
Qed.

(** No line of the head of an answer gives a country. *)
Definition no_loc (p : bytes) : Prop := Forall (λ l, loc_line l = None) (split 10 p).

Lemma strip_prefix_shorter p l t : strip_prefix p (l ++ t) = None → strip_prefix p l = None.
Proof.
  destruct (strip_prefix p l) as [r|] eqn:E; [|done]. apply strip_prefix_Some in E as ->.
  rewrite <- app_assoc. intros E. assert (strip_prefix p (p ++ r ++ t) = Some (r ++ t)) as E2 by (by apply strip_prefix_Some).
  congruence.
Qed.

Lemma split_extend f a u : ∃ ls l t rest, split_by f a = ls ++ [l] ∧ split_by f (a ++ u) = ls ++ (l ++ t) :: rest.
Proof.
  induction a as [|x a (ls & l & t & rest & E1 & E2)]; cbn.
  - destruct (split_by f u) as [|h r] eqn:E; [by apply split_by_not_nil in E|]. by exists [], [], h, r.
  - destruct (f x).
    + exists ([] :: ls), l, t, rest. by rewrite E1, E2.
    + rewrite E1, E2. destruct ls as [|h ls].
      * by exists [], (x :: l), t, rest.
      * by exists ((x :: h) :: ls), l, t, rest.
Qed.

Lemma strip_cr_shorter l : ∃ t, l = strip_cr l ++ t.
Proof.
  unfold strip_cr. destruct (strip_suffix [13] l) as [r|] eqn:E; cbn; [|exists []; by rewrite app_nil_r].
  apply strip_suffix_Some in E. by exists [13].
Qed.

Lemma lines_of s l : l ∈ lines s → ∃ l' t, l' ∈ split 10 s ∧ l' = l ++ t.
Proof.
  unfold lines. induction (split 10 s) as [|x ls IH]; cbn [lines_go]; [set_solver|]. destruct ls as [|y ls].
  - destruct (is_empty x); [set_solver|]. intros ->%list_elem_of_singleton. exists x, []. rewrite app_nil_r. set_solver.
  - intros [->|Hl]%elem_of_cons; [destruct (strip_cr_shorter x) as [t Ht]; exists x, t; set_solver|].
    destruct (IH Hl) as (l' & t & Hl' & E). exists l', t. set_solver.
Qed.

Lemma field_none s : Forall (λ l, loc_line l = None) (lines s) → field s (lit "loc") = None.
Proof.
  intros Hf. unfold field, find_map. fold loc_line.
  assert (omap loc_line (lines s) = []) as -> by (induction Hf as [|l ls Hl _ IH]; [done|]; cbn [omap list_omap]; by rewrite Hl). done.
Qed.

(** A beginning of the head of the answer has no country. *)
Lemma head_no_country p u : no_loc (p ++ u) → parse_trace p = None.
Proof.
  intros Hn. unfold parse_trace. rewrite field_none; [done|]. apply Forall_forall. intros l Hl.
  apply lines_of in Hl as (l' & t & Hl' & ->). unfold no_loc in Hn. rewrite Forall_forall in Hn.
  destruct (split_extend (λ x, x =? 10) p u) as (ls & l2 & t2 & rest & E1 & E2). unfold split in *. rewrite E1 in Hl'.
  apply (strip_prefix_shorter _ l t). apply elem_of_app in Hl' as [Hin|Hin].
  - apply Hn. rewrite E2. set_solver.
  - apply list_elem_of_singleton in Hin. rewrite Hin. apply (strip_prefix_shorter _ l2 t2). apply Hn. rewrite E2. set_solver.
Qed.

(** After the head comes the line with the country. *)
Lemma field_after p t : no_loc p → field (p ++ 10 :: t) (lit "loc") = field t (lit "loc").
Proof.
  intros Hn. unfold field, find_map. rewrite lines_after, omap_app.
  assert (omap (strip_prefix (lit "loc" ++ [61])) (map strip_cr (split 10 p)) = []) as ->; [|done].
  unfold no_loc in Hn. induction Hn as [|l ls Hl _ IH]; [done|]. cbn [map omap list_omap].
  destruct (strip_cr_shorter l) as [u Hu]. rewrite Hu in Hl. apply strip_prefix_shorter in Hl. unfold loc_line in Hl.
  by rewrite Hl.
Qed.

Definition letters (a b : Z) : Prop := is_ascii_alphabetic a = true ∧ is_ascii_alphabetic b = true.

Lemma letters_graphic a b : letters a b → forallb graphic [a; b] = true ∧ a ≠ 10 ∧ b ≠ 10.
Proof.
  unfold letters, is_ascii_alphabetic, is_ascii_uppercase, is_ascii_lowercase. intros [Ha Hb]. cbn. unfold graphic. lia.
Qed.

Lemma country_line a b r : letters a b → r = [] ∨ (∃ t, r = 10 :: t) →
  parse_trace (lit "loc=" ++ [a; b] ++ r) = Some (to_ascii_uppercase [a; b]).
Proof.
  intros [Hg [Ha Hb]]%letters_graphic Hr. unfold parse_trace, field, find_map.
  assert (∃ ls, lines (lit "loc=" ++ [a; b] ++ r) = (lit "loc=" ++ [a; b]) :: ls) as [ls ->].
  { assert (forallb (λ x, negb (x =? 10)) (lit "loc=" ++ [a; b]) = true) as Hno.
    { cbn. destruct (Z.eqb_spec a 10), (Z.eqb_spec b 10); done. }
    unfold lines, split. destruct Hr as [->|[t ->]].
    - rewrite app_nil_r, split_nosep by done. by eexists.
    - rewrite app_assoc, split_by_app by done. destruct (split_by _ t) as [|l ls] eqn:E; [by apply split_by_not_nil in E|].
      eexists. change (lines_go ((lit "loc=" ++ [a; b]) :: l :: ls))
        with (strip_cr (lit "loc=" ++ [a; b]) :: lines_go (l :: ls)). f_equal.
      unfold strip_cr. destruct (strip_suffix [13] _) as [q|] eqn:E2; [|done]. apply strip_suffix_Some in E2.
      change (lit "loc=" ++ [a; b]) with ((lit "loc=" ++ [a]) ++ [b]) in E2. apply app_inj_tail in E2 as [_ ->]. exfalso. cbn in Hg. by destruct (graphic a). }
  assert (strip_prefix (lit "loc" ++ [61]) (lit "loc=" ++ [a; b]) = Some [a; b]) as E by (by apply strip_prefix_Some).
  cbn [omap list_omap]. rewrite E. cbn [head mbind option_bind]. by rewrite trim_graphic.
Qed.

Lemma short_line_none a b q u : letters a b → q ++ u = lit "loc=" ++ [a; b] → u ≠ [] → parse_trace q = None.
Proof.
  intros [Hg [Ha Hb]]%letters_graphic E Hu.
  assert (∀ c, forallb graphic [c] = true → c ≠ 10 → parse_trace (lit "loc=" ++ [c]) = None) as Hone.
  { intros c Hc Hc10. unfold parse_trace, field, find_map, lines, split. rewrite split_nosep by (cbn; by destruct (Z.eqb_spec c 10)).
    assert (strip_prefix (lit "loc" ++ [61]) (lit "loc=" ++ [c]) = Some [c]) as Es by (by apply strip_prefix_Some).
    change (lines_go [lit "loc=" ++ [c]]) with [lit "loc=" ++ [c]].
    cbn [omap list_omap]. rewrite Es. cbn [head mbind option_bind]. by rewrite trim_graphic. }
  change (lit "loc=" ++ [a; b]) with [108; 111; 99; 61; a; b] in E.
  destruct q as [|x0 [|x1 [|x2 [|x3 [|x4 [|x5 q]]]]]]; cbn [app] in E.
  - done.
  - injection E as -> _. by vm_compute.
  - injection E as -> -> _. by vm_compute.
  - injection E as -> -> -> _. by vm_compute.
  - injection E as -> -> -> -> _. by vm_compute.
  - injection E as -> -> -> -> -> _. apply (Hone a); [|done]. cbn in Hg |- *. by destruct (graphic a).
  - injection E as -> -> -> -> -> -> E. by apply app_eq_nil in E as [_ ?].
Qed.

(** A beginning of the answer gives the country once it has it, and nothing
    before. *)
Lemma beginning_country p a b rest buf v :
  no_loc p → letters a b → rest = [] ∨ (∃ t, rest = 10 :: t) →
  buf ++ v = p ++ 10 :: lit "loc=" ++ [a; b] ++ rest →
  parse_trace buf = None ∧ blen buf < blen p + 7 ∨ parse_trace buf = Some (to_ascii_uppercase [a; b]).
Proof.
  intros Hn Hl Hr E. apply app_eq_inv in E as [(k & -> & E)|(k & -> & E)].
  - destruct k as [|x k]; cbn [app] in E.
    + rewrite app_nil_r. left. split; [|lia]. apply (head_no_country p []). by rewrite app_nil_r.
    + injection E as <- E. unfold parse_trace. rewrite field_after by done. fold (parse_trace k).
      assert (k ++ v = (lit "loc=" ++ [a; b]) ++ rest) as E' by exact (eq_sym E). clear E.
      apply app_eq_inv in E' as [(u & -> & ->)|(u & E & ->)].
      * right. apply (country_line a b u); [done|]. destruct u as [|y u]; [by left|right].
        destruct Hr as [?|[t Ht]]; [done|]. injection Ht as -> _. by eexists.
      * destruct u as [|y u].
        -- right. rewrite app_nil_r in E. rewrite <- E. apply (country_line a b []); [done|by left].
        -- left. split; [by eapply short_line_none|]. rewrite blen_app, blen_cons.
           assert (blen (k ++ y :: u) = 6) as Hk by (by rewrite <- E). rewrite blen_app, blen_cons in Hk.
           pose proof (blen_nonneg u). lia.
  - left. split; [by apply (head_no_country buf k)|]. rewrite blen_app. pose proof (blen_nonneg k). lia.
Qed.

Lemma read_chunks_country p a b rest chunks buf :
  no_loc p → letters a b → rest = [] ∨ (∃ t, rest = 10 :: t) → blen p + 7 ≤ 8192 →
  forallb is_ascii (p ++ 10 :: lit "loc=" ++ [a; b] ++ rest) = true →
  buf ++ concat chunks = p ++ 10 :: lit "loc=" ++ [a; b] ++ rest →
  parse_trace (from_utf8_lossy (read_chunks buf chunks)) = Some (to_ascii_uppercase [a; b]).
Proof.
  intros Hn Hl Hr Hsize Hascii.
  assert (∀ q v, q ++ v = p ++ 10 :: lit "loc=" ++ [a; b] ++ rest → from_utf8_lossy q = q) as Hid.
  { intros q v E. apply from_utf8_lossy_id, utf8_ascii. rewrite <- E, forallb_app in Hascii. by apply andb_true_iff in Hascii as [? _]. }
  revert buf. induction chunks as [|c chunks IH]; intros buf E; cbn [read_chunks concat] in *.
  - rewrite (Hid _ _ E). destruct (beginning_country _ _ _ _ _ _ Hn Hl Hr E) as [[_ Hlt]|]; [|done].
    rewrite app_nil_r in E. apply (f_equal blen) in E. rewrite !blen_app, blen_cons, !blen_app in E.
    change (blen (lit "loc=")) with 4 in E. change (blen [a; b]) with 2 in E. pose proof (blen_nonneg rest). lia.
  - rewrite app_assoc in E. rewrite (Hid _ _ E).
    destruct (_ || _) eqn:Eb; [|by apply IH]. rewrite (Hid _ _ E).
    destruct (beginning_country _ _ _ _ _ _ Hn Hl Hr E) as [[Hnone Hlt]|]; [|done].
    rewrite Hnone in Eb. rewrite bool_decide_eq_false_2, orb_false_r in Eb by (by intros H). lia.
Qed.

(** The check of the exit obeys the policy: when the answer names a country
    (its line after any head, however the answer is cut into chunks), the
    tunnel is accepted exactly when the policy lists the country as allowed,
    or, being a list of countries refused, does not list it. *)
Theorem exit_obeys_policy (p rest : bytes) (a b rtt : Z) (chunks : list bytes) (policy : Policy)
  (Hhead : no_loc p) (Hcode : letters a b) (Hrest : rest = [] ∨ (∃ t, rest = 10 :: t)) (Hsize : blen p + 7 ≤ 8192)
  (Hascii : forallb is_ascii (p ++ 10 :: lit "loc=" ++ [a; b] ++ rest) = true)
  (Hcut : concat chunks = p ++ 10 :: lit "loc=" ++ [a; b] ++ rest) :
  settle_exit (Some (Ok chunks)) rtt (Some policy) = Ok tt ↔
  to_ascii_uppercase [a; b] ∉ deny policy ∧ (allow policy = [] ∨ to_ascii_uppercase [a; b] ∈ allow policy).
Proof.
  assert (parse_trace (from_utf8_lossy (read_chunks [] chunks)) = Some (to_ascii_uppercase [a; b])) as E
    by (by apply (read_chunks_country p a b rest)).
  unfold settle_exit, report, read_trace. cbn [mbind comp_bind mret comp_ret parse_exit country]. rewrite E. cbn [default].
  assert (to_ascii_uppercase (trim (to_ascii_uppercase [a; b])) = to_ascii_uppercase [a; b]) as Hup.
  { assert (∀ c, is_ascii_alphabetic c = true → graphic (ascii_upper c) = true ∧ ascii_upper (ascii_upper c) = ascii_upper c) as Hc.
    { intros c. unfold is_ascii_alphabetic, is_ascii_uppercase, is_ascii_lowercase, ascii_upper, graphic.
      destruct (is_ascii_lowercase c) eqn:Ec; unfold is_ascii_lowercase in *; intros H;
        (split; [lia|]); [|by rewrite Ec]. by rewrite (proj2 (andb_false_iff _ _)) by lia. }
    destruct Hcode as [[Ga Ua]%Hc [Gb Ub]%Hc]. cbn [to_ascii_uppercase map].
    rewrite trim_graphic by (cbn; by rewrite Ga, Gb). cbn. by rewrite Ua, Ub. }
  pose proof (policy_accepts_spec policy (to_ascii_uppercase [a; b])) as Hs. rewrite Hup in Hs. rewrite <- Hs. unfold id.
  destruct (policy_accepts policy (to_ascii_uppercase [a; b])); done.
Qed.

(** ** A policy in use *)
Module Exits.

Definition no_env : environment := λ _, None.
Definition not_ir : Policy := mk_policy [] [lit "IR"] 60000.

Example parse_not_ir : policy_parse no_env (lit " !=ir, x1 ") = Some not_ir.
Proof. vm_compute. reflexivity. Qed.

Definition head_ : bytes := lit "HTTP/1.1 200 OK" ++ [13; 10; 13; 10] ++ lit "colo=FRA".

Lemma exit_obeys_policy_witness :
  settle_exit (Some (Ok [head_ ++ [10; 108; 111]; lit "c=I"; lit "R" ++ [10]])) 5 (Some not_ir) = Ok tt ↔
  lit "IR" ∉ deny not_ir ∧ (allow not_ir = [] ∨ lit "IR" ∈ allow not_ir).
Proof.
  apply (exit_obeys_policy head_ [10] 73 82 5).
  - unfold no_loc. by_decision.
  - split; vm_compute; reflexivity.
  - right. by exists [].
  - vm_compute. discriminate.
  - vm_compute. reflexivity.
  - vm_compute. reflexivity.
Defined.

(** An answer without a country passes a list of countries refused: the check
    takes it for a country with no name, although an answer that cannot be
    read at all fails it because "the policy cannot be honoured". *)
Example unnamed_exit_accepted :
  settle_exit (Some (Ok [lit "colo=THR" ++ [10]])) 5 (Some not_ir) = Ok tt.
Proof. vm_compute. reflexivity. Qed.
End Exits.
