(* ===== verification/LocalState.v ===== *)
(** * What a run keeps and how it is tuned

    src/aether/src/lastconn.rs (the endpoints that worked, kept in a file) and
    sysprofile.rs (the sizes of buffers and queues by the machine).  The file's
    format and the reading of the machine are arguments: a save is given what
    the file held, and the tuning the number of processors and the memory. *)

From stdpp Require Import strings.
From S2P Require Import Prelude Text Net NetText Fragment Netstack Candidates.

(** ** The last connections *)

Definition RECENT_CAP : Z := 8.

Record LastConnection := mk_last { peer : bytes; profile : bytes; carrier : bytes; recent : list bytes }.

(** The loop of [save] over the entries carried over. *)
Definition keep_recent (p : bytes) (carried_over : list bytes) : list bytes :=
  foldl (λ r entry, if negb (str_eqb entry p) && (blen r <? RECENT_CAP) then r ++ [entry] else r) [p] carried_over.

(** [save], given what [load] read; what is written. *)
Definition save (previous : option LastConnection) (p prof carr : bytes) : LastConnection :=
  let carried_over :=
    match previous with
    | Some c => if is_empty (carrier c) || str_eqb (carrier c) carr then recent c else []
    | None => []
    end in
  mk_last p prof carr (keep_recent p carried_over).

Definition usable_peers (cached : LastConnection) (carr : bytes) : list SocketAddr :=
  if negb (is_empty (carrier cached)) && negb (str_eqb (carrier cached) carr) then []
  else foldl push [] (omap parse_socket_addr (peer cached :: recent cached)).

(** The peers that worked, the latest first, each once. *)
Definition latest_first (peers : list bytes) : list bytes :=
  foldl (λ l p, p :: filter (λ q, q ≠ p) l) [] peers.

Lemma keep_recent_spec p l : keep_recent p l = p :: take 7 (filter (λ q, q ≠ p) l).
Proof.
  unfold keep_recent. assert (∀ r, (1 ≤ length r)%nat →
    foldl (λ r entry, if negb (str_eqb entry p) && (blen r <? RECENT_CAP) then r ++ [entry] else r) r l
    = r ++ take (8 - length r) (filter (λ q, q ≠ p) l)) as Hgen; [|by rewrite Hgen by done].
  induction l as [|x l IH]; intros r Hr; cbn [foldl]; [by rewrite filter_nil, take_nil, app_nil_r|].
  destruct (decide (x = p)) as [->|Hne].
  - rewrite (proj2 (str_eqb_eq p p) eq_refl). cbn [negb andb]. rewrite IH by done. by rewrite filter_cons_False by naive_solver.
  - rewrite filter_cons_True by done. destruct (str_eqb x p) eqn:E; [by apply str_eqb_eq in E|]. cbn [negb andb].
    unfold RECENT_CAP, blen. destruct (Z.ltb_spec (Z.of_nat (length r)) 8) as [Hlt|Hge].
    + rewrite IH by (rewrite length_app; cbn; lia). rewrite length_app. cbn [length].
      replace (8 - length r)%nat with (S (8 - (length r + 1)))%nat by lia. cbn [firstn]. by rewrite <- app_assoc.
    + rewrite IH by done. replace (8 - length r)%nat with 0%nat by lia. by rewrite !take_0.
Qed.

Lemma filter_take (p : bytes) n l : NoDup l → take n (filter (λ q, q ≠ p) (take (S n) l)) = take n (filter (λ q, q ≠ p) l).
Proof.
  revert n. induction l as [|x l IH]; intros n Hn; [done|]. apply NoDup_cons in Hn as [Hx Hn]. cbn [firstn].
  destruct (decide (x = p)) as [->|Hne].
  - rewrite !filter_cons_False by naive_solver. clear IH.
    assert (∀ k : list bytes, p ∉ k → filter (λ q, q ≠ p) k = k) as Hid.
    { intros k Hk. induction k as [|y k IHk]; [done|]. rewrite filter_cons_True, IHk by set_solver. done. }
    rewrite (Hid l), (Hid (take n l)) by (try done; intros Hin; apply Hx; rewrite <- (take_drop n l); set_solver).
    rewrite take_take. f_equal. lia.
  - rewrite !filter_cons_True by done. destruct n as [|n]; [done|]. cbn [firstn]. f_equal. by apply IH.
Qed.

Lemma latest_first_NoDup peers : NoDup (latest_first peers).
Proof.
  unfold latest_first. assert (∀ l, NoDup l → NoDup (foldl (λ l p, p :: filter (λ q, q ≠ p) l) l peers)) as Hgen;
    [|apply Hgen; constructor].
  induction peers as [|p peers IH]; intros l Hl; cbn [foldl]; [done|]. apply IH. constructor; [|by apply NoDup_filter].
  intros Hin. by apply list_elem_of_filter in Hin as [? _].
Qed.

(** The file of the last connections is the list of the latest: after any
    connections over one carrier it names the latest one, and as recent the
    eight latest that are different, the latest first. *)
Theorem recent_is_latest (carr prof : bytes) (peers : list bytes) (p : bytes) :
  foldl (λ f q, Some (save f q prof carr)) None (peers ++ [p])
  = Some (mk_last p prof carr (take 8 (latest_first (peers ++ [p])))).
Proof.
  assert (∀ ps, match foldl (λ f q, Some (save f q prof carr)) None ps with
    | Some f => carrier f = carr ∧ recent f = take 8 (latest_first ps)
    | None => ps = []
    end) as Hinv.
  { intros ps. induction ps as [|q ps IH] using rev_ind; [done|]. rewrite foldl_snoc. unfold latest_first in *.
    rewrite foldl_snoc. fold (latest_first ps) in *.
    destruct (foldl (λ f q, Some (save f q prof carr)) None ps) as [f|]; cbn [save carrier recent].
    - destruct IH as [Ec Er]. split; [done|]. rewrite Ec, (proj2 (str_eqb_eq carr carr) eq_refl), orb_true_r, Er.
      rewrite keep_recent_spec, filter_take by apply latest_first_NoDup. done.
    - subst ps. split; done. }
  rewrite foldl_snoc. specialize (Hinv (peers ++ [p])). rewrite foldl_snoc in Hinv.
  destruct Hinv as [_ Hr]. unfold save in *. cbn [recent] in Hr. by rewrite Hr.
Qed.

(** ** Tuning *)

Inductive Tier := Low | Medium | High.

Record Tuning := mk_tuning {
  tier : Tier;
  scan_concurrency_cap : Z;
  udp_socket_buf : Z;
  netstack_tcp_rx_buf : Z;
  netstack_tcp_tx_buf : Z;
  netstack_udp_buf : Z;
  channel_capacity : Z;
  h2_stream_window : Z;
  h2_connection_window : Z;
}.

Definition detect_tier `{UnicodeCase} (env : environment) (cpus : Z) (mem_mb : option Z) : Tier :=
  let by_machine :=
    let mem_low := match mem_mb with Some m => m <=? 384 | None => false end in
    let mem_medium := match mem_mb with Some m => m <=? 1536 | None => false end in
    if (cpus <=? 2) || mem_low then Low else if (cpus <=? 4) || mem_medium then Medium else High in
  match env (lit "AETHER_PERF_PROFILE") with
  | Some v =>
      let t := to_lowercase (trim v) in
      if str_eqb t (lit "low") then Low
      else if str_eqb t (lit "medium") || str_eqb t (lit "mid") then Medium
      else if str_eqb t (lit "high") then High
      else by_machine
  | None => by_machine
  end.

Definition buffer_override `{w : arch} (env : environment) (key : bytes) (fallback : Z) : Z :=
  default fallback
    (value ← env key; b ← parse_uint (usize_max w) (trim value);
     if (16 * 1024 <=? b) && (b <=? 64 * 1024 * 1024) then Some b else None).

Definition build_tuning `{UnicodeCase} `{w : arch} (env : environment) (cpus : Z) (mem_mb : option Z) : Tuning :=
  let t := detect_tier env cpus mem_mb in
  let '(cap, udp, net_udp, chan) :=
    match t with
    | Low => (4, 256 * 1024, 32 * 1024, 128)
    | Medium => (10, 2 * 1024 * 1024, 64 * 1024, 512)
    | High => (usize_max w, 7 * 1024 * 1024, 128 * 1024, 1024)
    end in
  let '(rx, tx) :=
    match t with
    | Low => (256 * 1024, 128 * 1024)
    | Medium => (1024 * 1024, 256 * 1024)
    | High => (2 * 1024 * 1024, 512 * 1024)
    end in
  let rx := buffer_override env (lit "AETHER_NETSTACK_TCP_RX") rx in
  let tx := buffer_override env (lit "AETHER_NETSTACK_TCP_TX") tx in
  let '(stream, connection) :=
    match t with
    | Low => (2 * 1024 * 1024, 4 * 1024 * 1024)
    | Medium => (8 * 1024 * 1024, 16 * 1024 * 1024)
    | High => (16 * 1024 * 1024, 32 * 1024 * 1024)
    end in
  mk_tuning t cap udp rx tx net_udp chan stream connection.

Definition cap_concurrency (t : Tuning) (requested : Z) : Z := Z.min requested (scan_concurrency_cap t).

Definition tier_rank (t : Tier) : Z := match t with Low => 0 | Medium => 1 | High => 2 end.

(** A better machine is never tuned lower. *)
Lemma tier_monotone `{UnicodeCase} env cpus cpus' m m' :
  cpus ≤ cpus' → m ≤ m' →
  tier_rank (detect_tier env cpus (Some m)) ≤ tier_rank (detect_tier env cpus' (Some m')).
Proof.
  intros Hc Hm. unfold detect_tier. cbv zeta.
  assert (tier_rank (if (cpus <=? 2) || (m <=? 384) then Low else if (cpus <=? 4) || (m <=? 1536) then Medium else High)
    ≤ tier_rank (if (cpus' <=? 2) || (m' <=? 384) then Low else if (cpus' <=? 4) || (m' <=? 1536) then Medium else High)) as Hb.
  { destruct ((cpus <=? 2) || (m <=? 384)) eqn:E1; [by repeat case_match|].
    destruct ((cpus' <=? 2) || (m' <=? 384)) eqn:E2; [lia|].
    destruct ((cpus <=? 4) || (m <=? 1536)) eqn:E3; [by case_match|].
    destruct ((cpus' <=? 4) || (m' <=? 1536)) eqn:E4; [lia|done]. }
  destruct (env _) as [v|]; [|done]. destruct (str_eqb _ (lit "low")); [done|].
  destruct (str_eqb _ (lit "medium") || _); [done|]. by destruct (str_eqb _ (lit "high")).
Qed.

Lemma buffer_override_bounds `{w : arch} env key fallback :
  16 * 1024 ≤ fallback ≤ 64 * 1024 * 1024 → 16 * 1024 ≤ buffer_override env key fallback ≤ 64 * 1024 * 1024.
Proof.
  intros Hf. unfold buffer_override. destruct (env key) as [v|]; [|done]. cbn [mbind option_bind].
  destruct (parse_uint _ _) as [b|]; [|done]. cbn [mbind option_bind]. destruct (_ && _) eqn:E; [|done].
  cbn [from_option]. unfold id. apply andb_true_iff in E as [E1 E2]. lia.
Qed.

(** The stack's buffers stay within bounds on any machine and with any
    setting: between 16 KiB and 64 MiB for a socket's buffers, so that a
    connection's pending data are bounded by twice its receive buffer or
    64 KiB, whichever is more, on 32-bit machines too; a scan probes one
    endpoint at least and no more at a time than asked. *)
Theorem tuning_bounds `{UnicodeCase} {w : arch} (env : environment) (cpus requested : Z) (mem_mb : option Z)
  (Hr : 1 ≤ requested) :
  let t := build_tuning env cpus mem_mb in
  16 * 1024 ≤ netstack_tcp_rx_buf t ≤ 64 * 1024 * 1024 ∧
  16 * 1024 ≤ netstack_tcp_tx_buf t ≤ 64 * 1024 * 1024 ∧
  max_tcp_pending (netstack_tcp_rx_buf t) = Z.max (2 * netstack_tcp_rx_buf t) (64 * 1024) ∧
  1 ≤ cap_concurrency t requested ≤ requested.
Proof.
  cbv zeta. unfold build_tuning.
  assert (2 ^ 32 - 1 ≤ usize_max w) as Hw by (unfold usize_max, usize_bits; by destruct w).
  assert (∀ rx, 16 * 1024 ≤ rx ≤ 64 * 1024 * 1024 → max_tcp_pending rx = Z.max (2 * rx) (64 * 1024)) as Hp
    by (intros rx Hrx; unfold max_tcp_pending; lia).
  destruct (detect_tier env cpus mem_mb); cbn [netstack_tcp_rx_buf netstack_tcp_tx_buf];
    (split; [apply buffer_override_bounds; lia|]); (split; [apply buffer_override_bounds; lia|]);
    (split; [apply Hp, buffer_override_bounds; lia|]); unfold cap_concurrency; cbn [scan_concurrency_cap]; lia.
Qed.

Lemma tuning_bounds_witness :
  1 ≤ cap_concurrency (build_tuning (w := W32) (H := λ s, s) (λ _, None) 2 (Some 256)) 20 ≤ 20.
Proof. apply (tuning_bounds (H := λ s, s) (w := W32) (λ _, None) 2 20 (Some 256)). lia. Defined.
