(* ===== verification/Hops.v ===== *)
(** * The endpoints of a run and the hops of a nested tunnel

    src/aether/src/lib.rs: how the endpoints named by hand are read, which
    edges the inner hop of a nested tunnel may use, and how large its packets
    are.  A setting is read through a lookup; the numbers the generator draws
    are an argument. *)

From stdpp Require Import strings.
From S2P Require Import Prelude Text Net NetText Error Fragment Netstack Random Candidates Prober.

(** ** Endpoints named by hand *)

Definition WG_EXAMPLE_PORT : Z := 2408.

Record WiwEndpoints := mk_hops { outer : option SocketAddr; inner : option SocketAddr }.

Definition no_hops : WiwEndpoints := mk_hops None None.
Definition hops_empty (h : WiwEndpoints) : bool :=
  bool_decide (outer h = None) && bool_decide (inner h = None).

Definition checked (h : WiwEndpoints) : comp AetherError WiwEndpoints :=
  match outer h, inner h with
  | Some o, Some i =>
      if bool_decide (sa_ip o = sa_ip i) then
        Err (EOther (lit "the two hops need separate edges, but both point at " ++ show_ip (sa_ip o)))
      else mret h
  | _, _ => mret h
  end.

(** An address with no port, in brackets or not. *)
Definition portless (text : bytes) : option IpAddr :=
  match parse_ip text with
  | Some a => Some a
  | None => rest ← strip_prefix [91] text; inner ← strip_suffix [93] rest; parse_ip inner
  end.

Definition parse_endpoint (raw : bytes) : comp AetherError SocketAddr :=
  let text := trim raw in
  match parse_socket_addr text with
  | Some peer => mret peer
  | None =>
      match portless text with
      | Some a =>
          Err (EOther (text ++ lit " carries no port, and the port is required; write it out, as in "
                         ++ show_socket_addr (SockAddr a WG_EXAMPLE_PORT)))
      | None =>
          Err (EOther ([39] ++ text ++ lit "' is not an endpoint; write an address and a port together, such as 162.159.192.1:"
                         ++ decimal WG_EXAMPLE_PORT))
      end
  end.

(** The loop over the parts of a list. *)
Fixpoint parse_parts (parts : list bytes) : comp AetherError (list SocketAddr) :=
  match parts with
  | [] => mret []
  | part :: parts =>
      if is_empty (trim part) then parse_parts parts
      else p ← parse_endpoint part; ps ← parse_parts parts; mret (p :: ps)
  end.

Definition list_separator (c : Z) : bool := bool_decide (c ∈ [44; 59; 32]).

Definition parse_endpoint_list (raw : bytes) : comp AetherError (list SocketAddr) :=
  peers ← parse_parts (split_by list_separator raw);
  match length peers with
  | O => Err (EOther (lit "no endpoint was given; expected one or two addresses"))
  | 1%nat | 2%nat => mret peers
  | found => Err (EOther (lit "warp-in-warp has two hops, but " ++ decimal (Z.of_nat found) ++ lit " addresses were given"))
  end.

(** A setting, trimmed; an empty one counts as none. *)
Definition env_value (env : environment) (key : bytes) : option bytes :=
  value ← env key; if is_empty (trim value) then None else Some (trim value).

Section settings.
Context `{!UnicodeCase}.

Definition scan_keyword (value : bytes) : bool :=
  bool_decide (to_lowercase value ∈ map lit ["auto"; "scan"; "none"; "off"; "0"]%string).

Definition nested_endpoints_of (lookup : environment) (list_key outer_key inner_key : bytes)
    : comp AetherError WiwEndpoints :=
  named ←
    match lookup list_key with
    | Some l =>
        if scan_keyword l then mret no_hops
        else peers ← parse_endpoint_list l; mret (mk_hops (peers !! 0%nat) (peers !! 1%nat))
    | None => mret no_hops
    end;
  o ← match lookup outer_key with Some v => p ← parse_endpoint v; mret (Some p) | None => mret (outer named) end;
  i ← match lookup inner_key with Some v => p ← parse_endpoint v; mret (Some p) | None => mret (inner named) end;
  checked (mk_hops o i).

Definition wiw_endpoints_of (lookup : environment) : comp AetherError WiwEndpoints :=
  nested_endpoints_of lookup (lit "AETHER_WIW_PEERS") (lit "AETHER_WIW_OUTER_PEER") (lit "AETHER_WIW_INNER_PEER").

Definition mim_endpoints_of (lookup : environment) : comp AetherError WiwEndpoints :=
  nested_endpoints_of lookup (lit "AETHER_MIM_PEERS") (lit "AETHER_MIM_OUTER_PEER") (lit "AETHER_MIM_INNER_PEER").

Definition wiw_endpoints_with_fallback (lookup : environment) : comp AetherError WiwEndpoints :=
  chosen ← wiw_endpoints_of lookup;
  match outer chosen with
  | Some _ => mret chosen
  | None =>
      match (match lookup (lit "AETHER_WG_PEER") with Some v => Some v | None => lookup (lit "AETHER_PEER") end) with
      | None => mret chosen
      | Some forced =>
          peers ← parse_endpoint_list forced;
          checked (mk_hops (peers !! 0%nat)
                     (match inner chosen with Some i => Some i | None => peers !! 1%nat end))
      end
  end.

(** ** The size of a packet *)

Definition TUNNEL_MTU : Z := 1280.
Definition H2_TUNNEL_MTU : Z := 1500.
Definition MAX_DATAGRAM_SIZE : Z := 1350.
Definition MIN_DATAGRAM_SIZE : Z := 1200.
Definition MASQUE_DATAGRAM_OVERHEAD : Z := MAX_DATAGRAM_SIZE - TUNNEL_MTU.

(** masque_h2.rs: [enabled]. *)
Definition h2_enabled (env : environment) : bool :=
  match env (lit "AETHER_MASQUE_HTTP2") with
  | Some v => bool_decide (to_lowercase (trim v) ∈ map lit ["1"; "true"; "h2"; "yes"; "on"]%string)
  | None => false
  end.

Definition masque_tunnel_mtu `{w : arch} (env : environment) : Z :=
  match (value ← env (lit "AETHER_MASQUE_MTU"); mtu ← parse_uint (usize_max w) (trim value);
         if (576 <=? mtu) && (mtu <=? 1500) then Some mtu else None) with
  | Some mtu => mtu
  | None => if h2_enabled env then H2_TUNNEL_MTU else TUNNEL_MTU
  end.
End settings.

Definition clamp (lo hi v : Z) : Z := Z.max lo (Z.min hi v).

(** The largest inner QUIC datagram, and the MTU of the inner tunnel. *)
Definition mim_inner_budget (outer_mtu : Z) (inner_peer : SocketAddr) (h2 : bool) : Z * Z :=
  if h2 then (MAX_DATAGRAM_SIZE, clamp 576 1500 (saturating_sub outer_mtu 100))
  else
    let headers := if is_ipv4 (sa_ip inner_peer) then 28 else 48 in
    let datagram := clamp MIN_DATAGRAM_SIZE MAX_DATAGRAM_SIZE (saturating_sub outer_mtu headers) in
    (datagram, clamp 576 1500 (saturating_sub datagram MASQUE_DATAGRAM_OVERHEAD)).

(** Whether the run warns that the outer link is too small. *)
Definition warns_too_small (outer_mtu : Z) (inner_peer : SocketAddr) (h2 : bool) : bool :=
  negb h2 && ((mim_inner_budget outer_mtu inner_peer h2).1 + 28 >? outer_mtu).

(** ** The edges of the inner hop *)

Definition MASQUE_INNER_PORT : Z := 443.
Definition MIM_INNER_TRIES : Z := 6.
Definition MASQUE_VERIFIED_GATEWAYS : list bytes :=
  map lit ["162.159.199.1"; "162.159.199.2"; "162.159.198.2"; "162.159.198.1"]%string.
Definition MASQUE_ALT_PORTS : list Z := [1701; 8095; 500; 4500].

(** The first three octets of an IPv4 address. *)
Definition edge_network (a : IpAddr) : option Z :=
  match a with V4 b => Some (Z.shiftr b 8) | V6 _ => None end.

(** [slice.swap(i, j)]; the callers stay within the slice. *)
Definition swap {A} (l : list A) (i j : nat) : list A :=
  match l !! i, l !! j with Some x, Some y => <[j:=x]> (<[i:=y]> l) | _, _ => l end.

Fixpoint position {A} (f : A → bool) (l : list A) : option nat :=
  match l with
  | [] => None
  | x :: l => if f x then Some 0%nat else S <$> position f l
  end.

Definition spread_hops (found : list SocketAddr) : list SocketAddr :=
  match found with
  | first :: _ :: _ =>
      match position (λ peer, negb (bool_decide (edge_network (sa_ip peer) = edge_network (sa_ip first)))) found with
      | Some other => if (1 <=? other)%nat then swap found 1 other else found
      | None => found
      end
  | _ => found
  end.

(** The pushes of [masque_verified_ladder], on one port. *)
Definition ladder_push (o : SocketAddr) (port : Z) (out : list SocketAddr) (ips : list IpAddr) : list SocketAddr :=
  foldl (λ out ip, if bool_decide (ip = sa_ip o) then out else push out (SockAddr ip port)) out ips.

Definition masque_verified_ladder (o : SocketAddr) (count : nat) : list SocketAddr :=
  if is_ipv6 (sa_ip o) then []
  else
    let verified := omap parse_ip MASQUE_VERIFIED_GATEWAYS in
    let out := ladder_push o MASQUE_INNER_PORT [] (filter (λ ip, edge_network ip ≠ edge_network (sa_ip o)) verified) in
    let out := ladder_push o MASQUE_INNER_PORT out verified in
    let out := foldl (λ out port, ladder_push o port out verified) out MASQUE_ALT_PORTS in
    take (Nat.max count 1) out.

(** The shuffle of the hosts, from the last. *)
Fixpoint shuffle (index : nat) (hosts : list Z) : rnd (list Z) :=
  match index with
  | O => mret hosts
  | S below => other ← rnd_range 0 (Z.of_nat index); shuffle below (swap hosts index (Z.to_nat other))
  end.

(** The loop over the last segment of an IPv6 address, over the draws; [None]
    when they run out before it ends. *)
Fixpoint sibling_segments (last : Z) (count : nat) (seen out : list Z) (ds : list Z) : option (list Z) :=
  if bool_decide (length out < count)%nat && bool_decide (length seen < count * 8)%nat then
    match ds with
    | [] => None
    | d :: ds =>
        let candidate := random_range 1 65535 d in
        if (candidate =? last) || bool_decide (candidate ∈ seen) then sibling_segments last count seen out ds
        else sibling_segments last count (candidate :: seen) (out ++ [candidate]) ds
    end
  else Some out.

Definition sibling_candidates (o : SocketAddr) (count : nat) (ds : list Z) : option (list SocketAddr) :=
  match sa_ip o with
  | V4 b =>
      let hosts := filter (λ host, host ≠ octet b 3) (seqZ 1 254) in
      let hosts := (shuffle (length hosts - 1) hosts ds).1 in
      Some (map (λ host, SockAddr (V4 (256 * Z.shiftr b 8 + host)) MASQUE_INNER_PORT) (take count hosts))
  | V6 b =>
      segs ← sibling_segments (b mod 2 ^ 16) count [] [] ds;
      Some (map (λ s, SockAddr (V6 (2 ^ 16 * Z.shiftr b 16 + s)) MASQUE_INNER_PORT) segs)
  end.

(** The pushes of the siblings, up to [count] peers in all. *)
Definition push_up_to (count : nat) (out : list SocketAddr) (peer : SocketAddr) : list SocketAddr :=
  if bool_decide (count ≤ length out)%nat then out else push out peer.

Definition inner_masque_candidates (o : SocketAddr) (count : nat) (verified : bool) (ds : list Z)
    : option (list SocketAddr) :=
  let out := if verified then foldl push [] (masque_verified_ladder o (Nat.max (count - 2) 1)) else [] in
  siblings ← sibling_candidates o count ds;
  Some (take (Nat.max count 1) (foldl (push_up_to count) out siblings)).

(** The endpoints gool's inner WireGuard tries. *)
Definition gool_inner_peers (env : environment) (assigned_endpoint : bytes) : comp AetherError (list SocketAddr) :=
  match env_value env (lit "AETHER_GOOL_INNER") with
  | Some value => p ← parse_endpoint value; mret [p]
  | None =>
      mret (foldl push []
              (map (λ ip, SockAddr ip WG_EXAMPLE_PORT)
                 (omap parse_ip (trim assigned_endpoint :: wg_seeds_v4 env))))
  end.

(** ** The hops named by hand *)

Lemma checked_Ok h h' : checked h = Ok h' →
  h' = h ∧ ∀ o i, outer h = Some o → inner h = Some i → sa_ip o ≠ sa_ip i.
Proof.
  unfold checked. destruct h as [[o|] [i|]]; cbn; try (intros [= <-]; by split).
  case_bool_decide; [done|]. intros [= <-]. split; [done|]. by intros ? ? [= <-] [= <-].
Qed.

Lemma parse_endpoint_list_length raw peers : parse_endpoint_list raw = Ok peers → peers ≠ [] ∧ (length peers ≤ 2)%nat.
Proof.
  unfold parse_endpoint_list. destruct (parse_parts _) as [l| |]; cbn [mbind comp_bind]; [|done..].
  destruct l as [|a [|b [|c l]]]; cbn [length]; [done| | |done]; intros [= <-]; split; done || (cbn; lia).
Qed.

(** What the settings of a nested tunnel name is what is used: a hop's own
    setting before the list, the list before nothing, and a setting that does
    not read as an endpoint is an error rather than left out; two hops named
    never share an address. *)
Definition hop_named `{UnicodeCase} (lookup : environment) (list_key key : bytes) (i : nat) (hop : option SocketAddr) : Prop :=
  match lookup key with
  | Some v => ∃ p, parse_endpoint v = Ok p ∧ hop = Some p
  | None =>
      match lookup list_key with
      | Some l => if scan_keyword l then hop = None else ∃ peers, parse_endpoint_list l = Ok peers ∧ hop = peers !! i
      | None => hop = None
      end
  end.

Lemma nested_named `{UnicodeCase} lookup list_key outer_key inner_key h :
  nested_endpoints_of lookup list_key outer_key inner_key = Ok h →
  hop_named lookup list_key outer_key 0 (outer h) ∧ hop_named lookup list_key inner_key 1 (inner h) ∧
  (∀ o i, outer h = Some o → inner h = Some i → sa_ip o ≠ sa_ip i).
Proof.
  unfold nested_endpoints_of, hop_named. intros E.
  destruct (match lookup list_key with Some _ => _ | None => _ end) as [named| |] eqn:El; [|done..].
  cbn [mbind comp_bind] in E.
  destruct (match lookup outer_key with Some _ => _ | None => _ end) as [o| |] eqn:Eo; [|done..]. cbn [mbind comp_bind] in E.
  destruct (match lookup inner_key with Some _ => _ | None => _ end) as [i| |] eqn:Ei; [|done..]. cbn [mbind comp_bind] in E.
  apply checked_Ok in E as [-> Hsep]. cbn [outer inner] in *.
  assert (match lookup list_key with
    | Some l => if scan_keyword l then named = no_hops
                else ∃ peers, parse_endpoint_list l = Ok peers ∧ named = mk_hops (peers !! 0%nat) (peers !! 1%nat)
    | None => named = no_hops end) as Hl.
  { destruct (lookup list_key) as [l|]; [|by injection El as <-]. destruct (scan_keyword l); [by injection El as <-|].
    destruct (parse_endpoint_list l) as [peers| |]; cbn [mbind comp_bind] in El; [|done..]. injection El as <-. eauto. }
  clear El. split_and!; [| |done].
  - destruct (lookup outer_key) as [v|].
    + destruct (parse_endpoint v) as [p| |]; cbn [mbind comp_bind] in Eo; [|done..]. injection Eo as <-. eauto.
    + injection Eo as <-. destruct (lookup list_key) as [l|]; [|by subst]. destruct (scan_keyword l); [by subst|].
      destruct Hl as (peers & ? & ->). eauto.
  - destruct (lookup inner_key) as [v|].
    + destruct (parse_endpoint v) as [p| |]; cbn [mbind comp_bind] in Ei; [|done..]. injection Ei as <-. eauto.
    + injection Ei as <-. destruct (lookup list_key) as [l|]; [|by subst]. destruct (scan_keyword l); [by subst|].
      destruct Hl as (peers & ? & ->). eauto.
Qed.

(** The hops of gool with the endpoint settings of the plain tunnel as a
    fallback never share an address either. *)
Lemma wiw_fallback_separate `{UnicodeCase} lookup h : wiw_endpoints_with_fallback lookup = Ok h →
  ∀ o i, outer h = Some o → inner h = Some i → sa_ip o ≠ sa_ip i.
Proof.
  unfold wiw_endpoints_with_fallback. destruct (wiw_endpoints_of lookup) as [c| |] eqn:E; cbn [mbind comp_bind]; [|done..].
  apply nested_named in E as (_ & _ & Hsep). destruct c as [[o|] i0]; cbn [outer inner] in *; [intros [= <-]; exact Hsep|].
  destruct (match lookup _ with Some _ => _ | None => _ end) as [forced|]; [|intros [= <-]; exact Hsep].
  destruct (parse_endpoint_list forced) as [peers| |]; cbn [mbind comp_bind]; [|done..].
  intros (-> & Hs)%checked_Ok. exact Hs.
Qed.

(** ** Shuffles *)

Lemma swap_perm {A} (l : list A) i j : swap l i j ≡ₚ l.
Proof.
  unfold swap. destruct (l !! i) as [x|] eqn:Ei; [|done]. destruct (l !! j) as [y|] eqn:Ej; [|done].
  pose proof (lookup_lt_Some _ _ _ Ei). pose proof (lookup_lt_Some _ _ _ Ej).
  apply Permutation_inj. split; [by rewrite !length_insert|].
  exists (λ k, if decide (k = i) then j else if decide (k = j) then i else k). split.
  - intros a b. repeat case_decide; naive_solver.
  - intros k. destruct (decide (k = j)) as [->|Hj].
    + rewrite list_lookup_insert_eq by (by rewrite length_insert). case_decide; [by subst|by rewrite Ei].
    + rewrite list_lookup_insert_ne by done. destruct (decide (k = i)) as [->|Hi].
      * by rewrite list_lookup_insert_eq.
      * by rewrite list_lookup_insert_ne.
Qed.

Lemma swap_cons {A} (x : A) l i j : swap (x :: l) (S i) (S j) = x :: swap l i j.
Proof.
  unfold swap. change ((x :: l) !! S i) with (l !! i). change ((x :: l) !! S j) with (l !! j).
  by destruct (l !! i), (l !! j).
Qed.

Lemma shuffle_perm index hosts : always (shuffle index hosts) (λ l, l ≡ₚ hosts).
Proof.
  revert hosts. induction index as [|index IH]; intros hosts; cbn [shuffle]; [by apply always_ret|].
  eapply (always_bind _ _ (λ _, True)); [by intros ds|]. intros other _.
  eapply always_mono; [apply IH|]. intros l ->. apply swap_perm.
Qed.

Lemma position_spec {A} (f : A → bool) l :
  match position f l with
  | Some i => ∃ x, l !! i = Some x ∧ f x = true
  | None => ∀ x, x ∈ l → f x = false
  end.
Proof.
  induction l as [|x l IH]; cbn; [set_solver|]. destruct (f x) eqn:E; [by exists x|].
  destruct (position f l); cbn; [done|]. intros y [->|Hy]%elem_of_cons; [done|by apply IH].
Qed.

(** With the verified scan the two hops are in different networks whenever the
    endpoints found allow it: the first stays, the others are only reordered,
    and the second is in another network than the first if any is. *)
Theorem spread_hops_apart (first : SocketAddr) (rest : list SocketAddr) :
  ∃ rest', spread_hops (first :: rest) = first :: rest' ∧ rest' ≡ₚ rest ∧
    ((∃ p, p ∈ rest ∧ edge_network (sa_ip p) ≠ edge_network (sa_ip first)) →
     ∃ second others, rest' = second :: others ∧ edge_network (sa_ip second) ≠ edge_network (sa_ip first)).
Proof.
  destruct rest as [|p1 rest]; cbn [spread_hops]; [exists []; split_and!; [done|done|set_solver]|].
  set (f := λ peer : SocketAddr, negb _). pose proof (position_spec f (first :: p1 :: rest)) as Hpos.
  assert (f first = false) as Hf by (unfold f; by rewrite bool_decide_eq_true_2).
  assert (∀ p, f p = true ↔ edge_network (sa_ip p) ≠ edge_network (sa_ip first)) as Hfp
    by (intros p; unfold f; case_bool_decide; naive_solver).
  destruct (position f (first :: p1 :: rest)) as [[|other]|].
  - destruct Hpos as (x & [= <-] & Hx). congruence.
  - destruct Hpos as (x & Hx & Hfx). cbn in Hx.
    cbn [Nat.leb]. rewrite swap_cons. exists (swap (p1 :: rest) 0 other).
    split_and!; [done|apply swap_perm|]. intros _. apply Hfp in Hfx. change ((p1 :: rest) !! other = Some x) in Hx.
    unfold swap. rewrite Hx. change ((p1 :: rest) !! 0%nat) with (Some p1). cbv beta iota.
    destruct other as [|other]; [injection Hx as ->; by exists x, rest|]. by exists x, (<[other:=p1]> rest).
  - exists (p1 :: rest). split_and!; [done|done|]. intros (p & Hp & Hne). apply Hfp in Hne.
    assert (p ∈ first :: p1 :: rest) as Hin by (by right). apply Hpos in Hin. congruence.
Qed.

(** ** The inner hop *)

Definition away_from (o p : SocketAddr) : Prop := sa_ip p ≠ sa_ip o.

Lemma ladder_push_away o port out ips : Forall (away_from o) out → Forall (away_from o) (ladder_push o port out ips).
Proof.
  unfold ladder_push. revert out. induction ips as [|ip ips IH]; intros out Hout; [done|]. cbn [foldl].
  case_bool_decide; [by apply IH|]. apply IH. unfold push. case_bool_decide; [done|].
  apply Forall_app. split; [done|]. by apply Forall_singleton.
Qed.

Lemma ladder_spec o count : let l := masque_verified_ladder o count in
  (length l ≤ Nat.max count 1)%nat ∧ Forall (away_from o) l.
Proof.
  cbv zeta. unfold masque_verified_ladder. destruct (is_ipv6 _); [by split; [cbn; lia|constructor]|]. cbv zeta.
  generalize (omap parse_ip MASQUE_VERIFIED_GATEWAYS) as verified. intros verified.
  split; [rewrite length_take; lia|]. apply Forall_take.
  generalize (ladder_push_away o MASQUE_INNER_PORT _ verified
    (ladder_push_away o MASQUE_INNER_PORT [] (filter (λ ip, edge_network ip ≠ edge_network (sa_ip o)) verified)
       ltac:(constructor))).
  generalize (ladder_push o MASQUE_INNER_PORT
    (ladder_push o MASQUE_INNER_PORT [] (filter (λ ip, edge_network ip ≠ edge_network (sa_ip o)) verified)) verified) as out.
  generalize MASQUE_ALT_PORTS as ports. induction ports as [|port ports IH]; intros out Hout; [done|].
  cbn [foldl]. by apply IH, ladder_push_away.
Qed.

Lemma sibling_segments_spec last count seen out ds r :
  sibling_segments last count seen out ds = Some r →
  NoDup out → (∀ s, s ∈ out → s ∈ seen) → Forall (λ s, 1 ≤ s ≤ 65535 ∧ s ≠ last) out →
  (length out ≤ count)%nat → length seen = length out →
  NoDup r ∧ Forall (λ s, 1 ≤ s ≤ 65535 ∧ s ≠ last) r ∧ length r = count.
Proof.
  assert (∀ seen out r : list Z, (length out ≤ count)%nat → length seen = length out → Some out = Some r →
    bool_decide (length out < count)%nat && bool_decide (length seen < count * 8)%nat = false → length r = count) as Hend.
  { intros seen' out' r' Hle Heq [= <-] [Hge%bool_decide_eq_false|Hge%bool_decide_eq_false]%andb_false_iff; lia. }
  revert seen out. induction ds as [|d ds IH]; intros seen out; cbn [sibling_segments].
  - destruct (_ && _) eqn:Eg; [done|]. intros E Hn _ Hf Hle Hse. pose proof (Hend seen out r Hle Hse E Eg). by injection E as <-.
  - destruct (_ && _) eqn:Eg;
      [|intros E Hn _ Hf Hle Hse; pose proof (Hend seen out r Hle Hse E Eg); by injection E as <-].
    apply andb_true_iff in Eg as [Hl%bool_decide_eq_true _].
    destruct (_ || _) eqn:Ec; [by apply IH|]. apply orb_false_iff in Ec as [Hlast Hseen%bool_decide_eq_false].
    intros E Hn Hsub Hf Hlen Hse. eapply IH; [exact E| | | | |].
    + apply NoDup_app. split_and!; [done| |apply NoDup_singleton]. set_solver.
    + set_solver.
    + apply Forall_app. split; [done|]. apply Forall_singleton. pose proof (random_range_bounds 1 65535 d). lia.
    + rewrite length_app. cbn. lia.
    + rewrite length_app. cbn. lia.
Qed.

(** Enough different draws end the loop. *)
Lemma sibling_segments_total last count seen out ds segs :
  length out = length seen → NoDup segs → segs ⊆ seen ++ map (random_range 1 65535) ds → last ∉ segs →
  (count ≤ length segs)%nat → is_Some (sibling_segments last count seen out ds).
Proof.
  intros Eo Hn. revert seen out Eo. induction ds as [|d ds IH]; intros seen out Eo Hs Hlast Hc; cbn [sibling_segments].
  - cbn in Hs. rewrite app_nil_r in Hs. pose proof (submseteq_length _ _ (NoDup_submseteq _ _ Hn Hs)).
    rewrite (bool_decide_eq_false_2 (length out < count)%nat) by lia. by eexists.
  - destruct (_ && _); [|by eexists]. cbn [map] in Hs. set (c := random_range 1 65535 d) in *.
    destruct (_ || _) eqn:Ec.
    + apply IH; [done| |done|done]. intros s Hin. pose proof (Hs s Hin) as Hs'.
      apply orb_true_iff in Ec as [Ec%Z.eqb_eq|Ec%bool_decide_eq_true]; [|set_solver].
      apply elem_of_app in Hs' as [|[->|]%elem_of_cons]; [set_solver|by rewrite Ec in Hin|set_solver].
    + apply IH; [|set_solver|done|done]. rewrite length_app. cbn. lia.
Qed.

Lemma octet3 b : octet b 3 = b mod 256.
Proof. unfold octet. cbn. rewrite Z.shiftr_0_r. exact (Z.land_ones b 8 ltac:(lia)). Qed.

Lemma high_low b k : 0 ≤ k → 2 ^ k * Z.shiftr b k + b mod 2 ^ k = b.
Proof. intros Hk. rewrite Z.shiftr_div_pow2 by done. symmetry. apply Z.div_mod. lia. Qed.

Lemma sibling_spec o count ds l : sibling_candidates o count ds = Some l →
  NoDup l ∧ (length l ≤ count)%nat ∧ ((0 < count)%nat → l ≠ []) ∧
  Forall (away_from o) l ∧ Forall (λ p, edge_network (sa_ip p) = edge_network (sa_ip o)) l.
Proof.
  unfold sibling_candidates, away_from. destruct (sa_ip o) as [b|b].
  - set (hosts := filter _ _). intros [= <-].
    pose proof (shuffle_perm (length hosts - 1) hosts ds) as Hp.
    destruct (shuffle (length hosts - 1) hosts ds) as [l ds']. cbn [fst] in *.
    assert (Forall (λ h, 1 ≤ h ≤ 254 ∧ h ≠ b mod 256) l) as Hl.
    { rewrite Hp. apply Forall_forall. intros h Hh. apply list_elem_of_filter in Hh as [Hne Hin%elem_of_seqZ].
      rewrite octet3 in Hne. lia. }
    assert (NoDup l) as Hn by (rewrite Hp; apply NoDup_filter, NoDup_seqZ).
    assert (l ≠ []) as Hne.
    { intros ->. apply Permutation_nil_l in Hp. assert (1 ∈ hosts ∨ 2 ∈ hosts) as [Hh|Hh]; [|by rewrite <- Hp in Hh; apply not_elem_of_nil in Hh..].
      unfold hosts. rewrite !list_elem_of_filter, !elem_of_seqZ. lia. }
    clearbody hosts. clear Hp ds'.
    rewrite <- (take_drop count l) in Hn, Hl. apply NoDup_app in Hn as (Hn & _ & _). apply Forall_app in Hl as [Hl _].
    rewrite length_map, length_take. split_and!; [|lia| | |].
    + apply NoDup_ListNoDup, Finite.Injective_map_NoDup; [|by apply NoDup_ListNoDup]. intros x y [= E]. lia.
    + intros Hc. destruct l, count; [done..|lia|done].
    + rewrite Forall_map. eapply Forall_impl; [exact Hl|]. cbn. intros h [Hh Hnh] [= E].
      pose proof (high_low b 8 ltac:(lia)). change (2 ^ 8) with 256 in *. lia.
    + rewrite Forall_map. eapply Forall_impl; [exact Hl|]. cbn. intros h [Hh _]. f_equal.
      rewrite !Z.shiftr_div_pow2 by lia. change (2 ^ 8) with 256.
      rewrite (Z.mul_comm 256), Z.div_add_l, (Z.div_small h) by lia. lia.
  - destruct (sibling_segments _ _ _ _ _) as [segs|] eqn:E; cbn [mbind option_bind]; [|done]. intros [= <-].
    apply sibling_segments_spec in E as (Hn & Hf & Hlen); [|constructor|set_solver|constructor|cbn; lia|done].
    rewrite length_map. split_and!; [|lia| | |].
    + apply NoDup_ListNoDup, Finite.Injective_map_NoDup; [|by apply NoDup_ListNoDup]. intros x y [= Exy]. lia.
    + intros Hc. destruct segs; [cbn in Hlen; lia|done].
    + rewrite Forall_map. eapply Forall_impl; [exact Hf|]. cbn. intros s [Hs Hne] [= Es].
      pose proof (high_low b 16 ltac:(lia)). change (2 ^ 16) with 65536 in *. lia.
    + rewrite Forall_map. by eapply Forall_impl; [exact Hf|].
Qed.

Lemma push_up_to_spec count o l out :
  NoDup out → Forall (away_from o) out → Forall (away_from o) l →
  let r := foldl (push_up_to count) out l in
  NoDup r ∧ Forall (away_from o) r ∧ (length r ≤ Nat.max count (length out))%nat ∧
  ((0 < count)%nat → l ≠ [] → r ≠ []).
Proof.
  cbv zeta. revert out. induction l as [|p l IH]; intros out Hn Hout Hl; cbn [foldl].
  - split_and!; [done|done|lia|done].
  - apply Forall_cons in Hl as [Hp Hl].
    assert (NoDup (push_up_to count out p) ∧ Forall (away_from o) (push_up_to count out p) ∧
      (length (push_up_to count out p) ≤ Nat.max count (length out))%nat ∧
      ((0 < count)%nat → push_up_to count out p ≠ [])) as (H1 & H2 & H3 & H4).
    { unfold push_up_to. case_bool_decide as Hc.
      - split_and!; [done|done|lia|]. intros Hpos ->. cbn in Hc. lia.
      - split_and!; [by apply push_NoDup| | |].
        + apply Forall_forall. intros q Hq. apply elem_of_push in Hq as [Hq| ->]; [|done]. by eapply Forall_forall in Hout.
        + unfold push. case_bool_decide; [lia|]. rewrite length_app. cbn. lia.
        + intros _ E. assert (p ∈ push out p) as Hin by (apply elem_of_push; by right). rewrite E in Hin. by apply not_elem_of_nil in Hin. }
    destruct (IH (push_up_to count out p) H1 H2 Hl) as (G1 & G2 & G3 & _). split_and!; [done|done|lia|].
    intros Hpos _. assert (∀ k out', out' ≠ [] → foldl (push_up_to count) out' k ≠ []) as Hkeep; [|by apply Hkeep, H4].
    induction k as [|q k IHk]; intros out' Ho; cbn [foldl]; [done|]. apply IHk. unfold push_up_to, push.
    repeat case_bool_decide; [done|done|]. by destruct out'.
Qed.

(** The inner hop of a nested tunnel has edges to try, each once, no more than
    asked for and none of them the edge the outer hop is on. *)
Theorem inner_edges_separate (o : SocketAddr) (count : nat) (verified : bool) (ds : list Z) (l : list SocketAddr)
  (Hrun : inner_masque_candidates o count verified ds = Some l) :
  NoDup l ∧ (length l ≤ Nat.max count 1)%nat ∧ ((0 < count)%nat → l ≠ []) ∧ (∀ p, p ∈ l → sa_ip p ≠ sa_ip o).
Proof.
  unfold inner_masque_candidates in Hrun. cbv zeta in Hrun.
  destruct (sibling_candidates o count ds) as [sib|] eqn:Es; cbn [mbind option_bind] in Hrun; [|done].
  apply sibling_spec in Es as (_ & _ & Hne & Hsib & _).
  set (out := if verified then _ else _) in Hrun.
  assert (NoDup out ∧ Forall (away_from o) out) as [Hn Hout].
  { unfold out. destruct verified; [|by split; constructor]. split; [apply pushes_NoDup; constructor|].
    destruct (ladder_spec o (Nat.max (count - 2) 1)) as [_ Hl]. apply Forall_forall. intros p Hp.
    apply elem_of_pushes in Hp as [Hp|Hp]; [by apply not_elem_of_nil in Hp|]. by eapply Forall_forall in Hl. }
  destruct (push_up_to_spec count o sib out Hn Hout Hsib) as (H1 & H2 & _ & H4). injection Hrun as <-.
  set (r := foldl (push_up_to count) out sib) in *. clearbody r.
  assert ((0 < count)%nat → take (Nat.max count 1) r ≠ []) as Hr.
  { intros Hc. specialize (H4 Hc (Hne Hc)). replace (Nat.max count 1) with (S (count - 1)) by lia. by destruct r. }
  rewrite <- (take_drop (Nat.max count 1) r) in H1, H2. apply NoDup_app in H1 as (H1 & _ & _).
  apply Forall_app in H2 as [H2 _]. split_and!; [done|rewrite length_take; lia|done|].
  intros p Hp. by eapply Forall_forall in H2.
Qed.

(** ** Packets *)

(** An inner QUIC datagram with its headers fits the outer link as soon as the
    link carries the smallest one QUIC allows, and the inner tunnel's packets
    fit the inner datagrams; over IPv4 the run warns exactly when it does not
    fit. *)
Theorem inner_budget_fits (outer_mtu : Z) (peer : SocketAddr) :
  let headers := if is_ipv4 (sa_ip peer) then 28 else 48 in
  let '(datagram, mtu) := mim_inner_budget outer_mtu peer false in
  1200 ≤ datagram ≤ 1350 ∧ mtu + MASQUE_DATAGRAM_OVERHEAD = datagram ∧
  (datagram + headers ≤ outer_mtu ↔ 1200 + headers ≤ outer_mtu) ∧
  (is_ipv4 (sa_ip peer) = true → (warns_too_small outer_mtu peer false = true ↔ outer_mtu < datagram + headers)).
Proof.
  cbv zeta. unfold warns_too_small, mim_inner_budget, clamp, saturating_sub, MASQUE_DATAGRAM_OVERHEAD, TUNNEL_MTU,
    MAX_DATAGRAM_SIZE, MIN_DATAGRAM_SIZE. cbn [negb andb fst]. rewrite Z.gtb_lt.
  destruct (is_ipv4 (sa_ip peer)); split_and!; try done; lia.
Qed.

(** Over IPv6 the headers are 20 bytes longer than the warning counts: a link
    too small for the inner datagram goes without it. *)
Example small_link_unwarned :
  let peer := SockAddr (V6 1) 443 in
  (mim_inner_budget 1240 peer false).1 + 48 = 1248 ∧ warns_too_small 1240 peer false = false.
Proof. done. Qed.

(** ** Nested tunnels *)
Module Nested.

#[local] Instance ascii_only : UnicodeCase := λ s, s.

Definition edge : SocketAddr := SockAddr (V4 2728380162) 443.
Definition edge6 : SocketAddr := SockAddr (V6 (0x26064700010300000000000000000001)) 443.

Lemma inner_edges_separate_witness :
  match inner_masque_candidates edge 6 true [], inner_masque_candidates edge6 6 true [1; 1; 2; 3; 4; 5; 6; 7] with
  | Some l, Some l6 => length l = 6%nat ∧ length l6 = 6%nat ∧ NoDup l ∧ NoDup l6
  | _, _ => False
  end.
Proof.
  destruct (inner_masque_candidates edge 6 true []) as [l|] eqn:E; [|by vm_compute in E].
  destruct (inner_masque_candidates edge6 6 true _) as [l6|] eqn:E6; [|by vm_compute in E6].
  pose proof (inner_edges_separate _ _ _ _ _ E) as (Hn & _). pose proof (inner_edges_separate _ _ _ _ _ E6) as (Hn6 & _).
  split; [by vm_compute in E; injection E as <-|]. split; [by vm_compute in E6; injection E6 as <-|]. by split.
Defined.

Definition named_env : environment := λ key,
  if str_eqb key (lit "AETHER_WIW_PEERS") then Some (lit "162.159.192.1:2408, 162.159.193.1:500")
  else if str_eqb key (lit "AETHER_WIW_INNER_PEER") then Some (lit "162.159.195.1:2408") else None.

Example named_hops : wiw_endpoints_of named_env
  = Ok (mk_hops (Some (SockAddr (V4 2728378369) 2408)) (Some (SockAddr (V4 2728379137) 2408))).
Proof. by vm_compute. Qed.

Example same_edge_refused :
  ∃ e, wiw_endpoints_of (λ key, if str_eqb key (lit "AETHER_WIW_PEERS") then Some (lit "1.1.1.1:1;1.1.1.1:2") else None) = Err e.
Proof. eexists. by vm_compute. Qed.

Example no_port_refused : parse_endpoint (lit " [::1] ")
  = Err (EOther (lit "[::1] carries no port, and the port is required; write it out, as in [::1]:2408")).
Proof. by vm_compute. Qed.
End Nested.
