(* ===== verification/Runs.v ===== *)
(** * The runs that keep a tunnel up

    The loops of src/aether/src/lib.rs that find an endpoint, run the tunnel
    through it and find the next one when it ends: [run_masque],
    [run_wireguard], [run_gool] (the two hops of WireGuard in WireGuard) and
    [run_mim] (MASQUE in MASQUE).  One turn of a loop is a function of the
    loop's variables and of what the turn met: the clock, the answers of the
    endpoints that were checked, the probes of a search and how long the tunnel
    lasted.  [None]: the search of that turn is not over yet. *)

From stdpp Require Import strings gmap.
From S2P Require Import Prelude Text Net NetText Error Fragment MasqueQuic Netstack Random Candidates Prober LocalState Hops.

(** ** Ends of tunnels *)

(** Times are milliseconds. *)
Definition TUNNEL_STAYED_UP : Z := 300000.

Definition count_tunnel_end (in_a_row lasted : Z) : Z :=
  if lasted >=? TUNNEL_STAYED_UP then 0 else Z.min (in_a_row + 1) (2 ^ 32 - 1).

Definition MASQUE_GATEWAY_STRIKES : Z := 2.
Definition MASQUE_GATEWAY_REST : Z := 300000.
Definition MAX_CONSECUTIVE_FAILS : Z := 2.

Record GatewayStrikes := mk_strikes { current : option SocketAddr; in_a_row : Z; resting : gmap IpAddr Z }.

Definition no_strikes : GatewayStrikes := mk_strikes None 0 ∅.

Definition using_gateway (g : GatewayStrikes) (peer : SocketAddr) : GatewayStrikes :=
  if bool_decide (current g = Some peer) then g else mk_strikes (Some peer) 0 (resting g).

Definition tunnel_ended (g : GatewayStrikes) (lasted : Z) : GatewayStrikes :=
  mk_strikes (current g) (count_tunnel_end (in_a_row g) lasted) (resting g).

(** [give_up]: the gateway that is left, if any. *)
Definition leave_gateway (g : GatewayStrikes) (now rest : Z) : GatewayStrikes * option SocketAddr :=
  if in_a_row g <? MASQUE_GATEWAY_STRIKES then (g, None)
  else
    match current g with
    | None => (mk_strikes None 0 (resting g), None)
    | Some peer => (mk_strikes None 0 (<[sa_ip peer := now + rest]> (resting g)), Some peer)
    end.

(** [retain(|_, until| *until > now)], and the keys. *)
Definition still_resting {K} `{Countable K} (now : Z) (m : gmap K Z) : gmap K Z := filter (λ kv, now < kv.2) m.
Definition keys {K} `{Countable K} (m : gmap K Z) : list K := (map_to_list m).*1.

Definition left_out (g : GatewayStrikes) (now : Z) : GatewayStrikes * list IpAddr :=
  let m := still_resting now (resting g) in (mk_strikes (current g) (in_a_row g) m, keys m).

(** ** Searches *)

(** What a search meets: the network and the generator, and the probes'
    answers to the candidates. *)
Record search := mk_search {
  host_ipv6 : bool;
  search_draws : list Z;
  search_start : Z;
  answers : list candidate → list hunt_round;
}.

(** The probes are of the candidates. *)
Definition honest (s : search) : Prop :=
  ∀ cands r c outcome at_, r ∈ answers s cands → event r = Item c outcome at_ → c ∈ cands.

Definition endpoint_of (pr : ProbeResult) : SocketAddr := SockAddr (pr_ip pr) (pr_port pr).

(** ** Turns of a loop *)

(** The turns of a run, as far as they are over: what each of them did. *)
Fixpoint turns {S T D} (iter : S → T → option (comp AetherError (S * D))) (s : S) (ts : list T) : list D :=
  match ts with
  | [] => []
  | t :: ts => match iter s t with Some (Ok (s, d)) => d :: turns iter s ts | _ => [] end
  end.

(** An invariant of the turns gives a property of all they did. *)
Lemma turns_Forall {S T D} (iter : S → T → option (comp AetherError (S * D))) (inv : S → Prop) (good : T → Prop) (P : D → Prop) :
  (∀ s t s' d, good t → inv s → iter s t = Some (Ok (s', d)) → inv s' ∧ P d) →
  ∀ ts s, Forall good ts → inv s → Forall P (turns iter s ts).
Proof.
  intros Hstep ts. induction ts as [|t ts IH]; intros s Hg Hs; cbn; [constructor|]. apply Forall_cons in Hg as [Ht Hg].
  destruct (iter s t) as [[[s' d]| |]|] eqn:E; [|constructor..]. destruct (Hstep _ _ _ _ Ht Hs E). constructor; [done|].
  by apply IH.
Qed.

(** What a turn did: the gateway it left, the one its tunnel went through. *)
Record turn_done := mk_done { gateway_left : option SocketAddr; gateway_used : option SocketAddr }.

(** ** Leaving what failed alone

    A loop that keeps, by [key], until when what it left is to rest. *)
Section resting.
Context {S T K : Type} (iter : S → T → option (comp AetherError (S * turn_done))).
Context (inv : S → Prop) (good : T → Prop) (rests : S → K → option Z) (clock begins : T → Z) (key : SocketAddr → K) (pause : Z).

(** Until then a turn keeps it and does not use it. *)
Hypothesis iter_rests : ∀ s t s' d, good t → inv s → iter s t = Some (Ok (s', d)) →
  inv s' ∧
  ∀ a u, rests s a = Some u ∨ (∃ p, gateway_left d = Some p ∧ a = key p ∧ u = begins t + pause) →
    clock t < u → rests s' a = Some u ∧ ∀ q, gateway_used d = Some q → key q ≠ a.

Lemma turns_rest a u ts s j d q :
  Forall good ts → inv s → rests s a = Some u → turns iter s ts !! j = Some d →
  Forall (λ t, clock t < u) (take (j + 1) ts) → gateway_used d = Some q → key q ≠ a.
Proof.
  revert s j. induction ts as [|t ts IH]; intros s j Hh Hinv Hr Hd Hclock Hq; [done|].
  rewrite Nat.add_1_r in Hclock. apply Forall_cons in Hh as [Ht Hh]. apply Forall_cons in Hclock as [Hu Hclock].
  cbn [turns] in Hd. destruct (iter s t) as [[[s' d']| |]|] eqn:E; [|done..].
  destruct (iter_rests _ _ _ _ Ht Hinv E) as [Hinv' Hrest].
  destruct (Hrest a u (or_introl Hr) Hu) as [Hr' Hused]. destruct j as [|j]; [injection Hd as ->; by apply Hused|].
  apply (IH s' j); try done. by rewrite Nat.add_1_r.
Qed.

Lemma left_rests ts s i j t d p d' q :
  Forall good ts → inv s →
  turns iter s ts !! i = Some d → ts !! i = Some t → gateway_left d = Some p →
  turns iter s ts !! j = Some d' → gateway_used d' = Some q → (i ≤ j)%nat →
  (∀ k tk, (i ≤ k ≤ j)%nat → ts !! k = Some tk → clock tk < begins t + pause) →
  key q ≠ key p.
Proof.
  revert s i j. induction ts as [|t0 ts IH]; intros s i j Hh Hinv Hi Ht Hp Hj Hq Hij Hclock; [done|].
  apply Forall_cons in Hh as [Ht0 Hh]. cbn [turns] in Hi, Hj.
  destruct (iter s t0) as [[[s' d0]| |]|] eqn:E; [|done..].
  destruct (iter_rests _ _ _ _ Ht0 Hinv E) as [Hinv' Hrest].
  destruct i as [|i].
  - injection Hi as ->. injection Ht as ->.
    assert (clock t < begins t + pause) as Ht0' by (apply (Hclock 0%nat t); [lia|done]).
    destruct (Hrest (key p) (begins t + pause)) as [Hr Hused]; [by right; exists p|done|].
    destruct j as [|j]; [injection Hj as ->; by apply Hused|].
    apply (turns_rest (key p) (begins t + pause) ts s' j d'); [done..| |done].
    apply Forall_lookup. intros k tk Hk. apply lookup_take_Some in Hk as [Hk Hlt].
    apply (Hclock (1 + k)%nat tk); [lia|done].
  - destruct j as [|j]; [lia|]. apply (IH s' i j); try done; [lia|]. intros k tk Hk Htk.
    apply (Hclock (1 + k)%nat tk); [lia|done].
Qed.
End resting.

Section runs.
Context `{!UnicodeCase} {w : arch} (env : environment).

Definition hunt_masque_peer (mode : bytes) (ip : IpScan) (avoid : list IpAddr) (s : search)
    : option (comp AetherError SocketAddr) :=
  match masque_sni env with
  | Ok _ =>
      let m := ScanMode_parse mode in
      match hunt_candidates env m MASQUE_PORTS ip (host_ipv6 s) avoid (search_draws s) with
      | Some (Ok cands) =>
          match hunt (strategy m) (search_start s) (answers s cands) with
          | Some r => Some (pr ← r; mret (endpoint_of pr))
          | None => None
          end
      | Some (Err e) => Some (Err e)
      | Some Panic => Some Panic
      | None => None
      end
  | Err e => Some (Err e)
  | Panic => Some Panic
  end.

(** [wg_prober::hunt_wg_endpoints], candidates included. *)
Definition search_wg (mode : bytes) (ip : IpScan) (want : nat) (excluded : list SocketAddr) (s : search)
    : option (comp AetherError (list ProbeResult)) :=
  let m := ScanMode_parse mode in
  match wg_hunt_candidates env m WG_PORTS ip (host_ipv6 s) excluded (search_draws s) with
  | Some (Ok cands) => hunt_wg_endpoints m want (search_start s) (answers s cands)
  | Some (Err e) => Some (Err e)
  | Some Panic => Some Panic
  | None => None
  end.

(** [local] is the address of the identity; [private_key_bytes] and
    [peer_public_key_bytes] (account.rs) answer [Ok] for every identity. *)
Definition select_wg_peers (local mode : bytes) (ip : IpScan) (want : nat) (avoid : list IpAddr) (s : search)
    : option (comp AetherError (list SocketAddr)) :=
  let excluded := flat_map (λ a, map (SockAddr a) WG_PORTS) avoid in
  match parse_ipv4 local with
  | None => Some (Err (EOther (lit "invalid ipv4")))
  | Some _ =>
      match search_wg mode ip want excluded s with
      | None => None
      | Some r =>
          Some (found ← r;
                let picked := take want (filter (λ pr, pr_ip pr ∉ avoid) found) in
                if is_empty picked then Err ENoCleanEndpoint else mret (map endpoint_of picked))
      end
  end.

Definition hunt_wg_peer_with_profile (local mode : bytes) (ip : IpScan) (excluded : list SocketAddr) (s : search)
    : option (comp AetherError SocketAddr) :=
  match parse_ipv4 local with
  | None => Some (Err (EOther (lit "invalid ipv4")))
  | Some _ =>
      match search_wg mode ip 1 excluded s with
      | None => None
      | Some r => Some (l ← r; pr ← ok_or (head l) ENoCleanEndpoint; mret (endpoint_of pr))
      end
  end.

(** The profiles in turn, each with a search of its own. *)
Fixpoint hunt_wg_peer (local : bytes) (profiles : list bytes) (mode : bytes) (ip : IpScan) (excluded : list SocketAddr)
    (ss : bytes → search) : option (comp AetherError (SocketAddr * bytes)) :=
  match profiles with
  | [] => Some (Err ENoCleanEndpoint)
  | name :: profiles =>
      match hunt_wg_peer_with_profile local mode ip excluded (ss name) with
      | Some (Ok peer) => Some (mret (peer, name))
      | Some (Err _) => hunt_wg_peer local profiles mode ip excluded ss
      | Some Panic => Some Panic
      | None => None
      end
  end.

(** ** Settings of a run *)

Definition masque_carrier : bytes := if h2_enabled env then lit "masque-h2" else lit "masque-h3".
Definition CARRIER_WIREGUARD : bytes := lit "wireguard".
Definition masque_reconnect_delay : Z := secs_of env (lit "AETHER_MASQUE_RECONNECT_SECS") 2.
Definition wg_reconnect_delay : Z := secs_of env (lit "AETHER_WG_RECONNECT_SECS") 2.
Definition wg_endpoint_cooldown : Z := secs_of env (lit "AETHER_WG_ENDPOINT_COOLDOWN_SECS") 300.

(** [answer]: what is typed at the prompt. *)
Definition want_quick_reconnect (answer : option bytes) : bool :=
  let set := default [] (env (lit "AETHER_QUICK_RECONNECT")) in
  if bool_decide (set ∈ map lit ["1"; "true"; "yes"; "on"]%string) then true
  else if bool_decide (set ∈ map lit ["0"; "false"; "no"; "off"]%string) then false
  else match answer with
       | Some a => negb (eq_ignore_ascii_case a (lit "n") || eq_ignore_ascii_case a (lit "no"))
       | None => true
       end.

Definition scan_settings_from_env : bytes * IpScan :=
  (default [] (env (lit "AETHER_SCAN")),
   match env (lit "AETHER_IP") with Some v => IpScan_parse v | None => ScanV4 end).

Definition select_scan_mode_str (answer : option bytes) : bytes :=
  match env (lit "AETHER_SCAN") with
  | Some v => v
  | None =>
      let a := default [] answer in
      if str_eqb a (lit "1") then lit "turbo"
      else if str_eqb a (lit "3") then lit "thorough"
      else if str_eqb a (lit "4") then lit "verified"
      else if str_eqb a (lit "5") then lit "ironclad"
      else lit "balanced"
  end.

Definition select_ip_version (answer : option bytes) : IpScan :=
  match env (lit "AETHER_IP") with
  | Some v => IpScan_parse v
  | None =>
      let a := default [] answer in
      if str_eqb a (lit "2") then ScanV6 else if str_eqb a (lit "3") then ScanBoth else ScanV4
  end.

Definition verified_scan_selected (settings : option (bytes * IpScan)) : bool :=
  let named := match settings with Some (mode, _) => mode | None => default [] (env (lit "AETHER_SCAN")) end in
  bool_decide (ScanMode_parse named = Verified).

(** The primary profile, then the others it does not name. *)
Definition wg_profile_candidates : list bytes :=
  let primary := default (lit "balanced") (env (lit "AETHER_NOIZE")) in
  match env (lit "AETHER_WG_NO_PROFILE_RETRY") with
  | Some _ => [primary]
  | None =>
      foldl (λ names fallback, if existsb (λ n, eq_ignore_ascii_case n fallback) names then names else names ++ [fallback])
        [primary] (map lit ["balanced"; "aggressive"; "light"; "off"]%string)
  end.

(** The endpoint of the organisation, where none is forced. *)
Definition assigned_endpoint : option SocketAddr :=
  v ← env (lit "AETHER_TEAM_ENDPOINT"); parse_socket_addr v.

Fixpoint first_that {A} (check : A → bool) (l : list A) : option A :=
  match l with [] => None | x :: l => if check x then Some x else first_that check l end.

(** ** The MASQUE run *)

Record masque_state := mk_masque {
  quick_peer : option SocketAddr;
  last_good_peer : option SocketAddr;
  strikes : GatewayStrikes;
  lastconn : option LastConnection;
}.

(** What a turn meets. *)
Record masque_turn := mk_turn {
  t_top : Z;                (** the clock as the turn begins *)
  answers_again : bool;     (** the check of the last gateway *)
  t_scan : Z;               (** the clock as a search begins *)
  probing : search;
  lasted : Z;               (** how long the tunnel stayed up *)
}.

(** Up to the loop: the endpoint of the organisation if it answers, else the
    first remembered gateway that does. *)
Definition masque_start (verify : SocketAddr → bool) (cached : option LastConnection) (answer : option bytes) : masque_state :=
  let quick :=
    match env (lit "AETHER_PEER") with
    | Some _ => None
    | None =>
        match (a ← assigned_endpoint; if verify a then Some a else None) with
        | Some a => Some a
        | None =>
            c ← cached;
            let ring := usable_peers c masque_carrier in
            if negb (is_empty ring) && want_quick_reconnect answer then first_that verify ring else None
        end
    end in
  mk_masque quick None no_strikes cached.

(** The tunnel through [peer]: what is remembered, and its end. *)
Definition masque_tunnel (forced : option bytes) (peer : SocketAddr) (g : GatewayStrikes) (file : option LastConnection) (lasted : Z)
    : masque_state :=
  let file :=
    match forced with
    | Some _ => file
    | None =>
        Some (save file (show_socket_addr peer) (default (lit "firewall") (env (lit "AETHER_NOIZE"))) masque_carrier)
    end in
  mk_masque None (Some peer) (tunnel_ended (using_gateway g peer) lasted) file.

Definition masque_iter (mode : bytes) (ip : IpScan) (s : masque_state) (t : masque_turn)
    : option (comp AetherError (masque_state * turn_done)) :=
  let forced := env (lit "AETHER_PEER") in
  let '(g, gone) :=
    match forced with None => leave_gateway (strikes s) (t_top t) MASQUE_GATEWAY_REST | Some _ => (strikes s, None) end in
  let last := match gone with Some _ => None | None => last_good_peer s end in
  let go g p := Some (mret (masque_tunnel forced p g (lastconn s) (lasted t), mk_done gone (Some p))) in
  match quick_peer s with
  | Some p => go g p
  | None =>
      match (p ← last; if answers_again t then Some p else None), forced with
      | Some p, _ => go g p
      | None, Some text =>
          match parse_socket_addr text with
          | Some p => go g p
          | None => Some (Err (EOther (lit "bad peer address " ++ text)))
          end
      | None, None =>
          let '(g, avoid) := left_out g (t_scan t) in
          match hunt_masque_peer mode ip avoid (probing t) with
          | Some (Ok p) => go g p
          | Some (Err _) => Some (mret (mk_masque None last g (lastconn s), mk_done gone None))
          | Some Panic => Some Panic
          | None => None
          end
      end
  end.

Definition masque_run (mode : bytes) (ip : IpScan) : masque_state → list masque_turn → list turn_done :=
  turns (masque_iter mode ip).

(** ** The WireGuard run *)

Record wg_run_state := mk_wg_run {
  quick : option (SocketAddr * bytes);
  last_good : option (SocketAddr * bytes);
  consecutive_fails : Z;
  cooldowns : gmap SocketAddr Z;
  wg_lastconn : option LastConnection;
}.

Record wg_turn := mk_wg_turn {
  wg_now : Z;
  checks : SocketAddr → bytes → bool;   (** [verify_endpoint], by profile *)
  wg_probing : bytes → search;          (** the search, by profile *)
  wg_lasted : Z;
}.

Definition wg_forced : option bytes :=
  match env (lit "AETHER_WG_PEER") with Some p => Some p | None => env (lit "AETHER_PEER") end.

Definition wg_start (verify : SocketAddr → bytes → bool) (cached : option LastConnection) (answer : option bytes) : wg_run_state :=
  let q :=
    match wg_forced with
    | Some _ => None
    | None =>
        match (a ← assigned_endpoint; name ← first_that (verify a) wg_profile_candidates; Some (a, name)) with
        | Some q => Some q
        | None =>
            c ← cached;
            let ring := usable_peers c CARRIER_WIREGUARD in
            if negb (is_empty ring) && want_quick_reconnect answer then
              p ← first_that (λ p, verify p (profile c)) ring; Some (p, profile c)
            else None
        end
    end in
  mk_wg_run q None 0 ∅ cached.

Definition wg_tunnel (s : wg_run_state) (v : SocketAddr * bytes) (last : option (SocketAddr * bytes)) (fails : Z)
    (cds : gmap SocketAddr Z) (t : wg_turn) : wg_run_state :=
  let file :=
    match wg_forced with
    | Some _ => wg_lastconn s
    | None => Some (save (wg_lastconn s) (show_socket_addr v.1) v.2 CARRIER_WIREGUARD)
    end in
  let fails := if bool_decide (fst <$> last = Some v.1) then fails else 0 in
  mk_wg_run None (Some v) (count_tunnel_end fails (wg_lasted t)) cds file.

Definition wg_iter (local mode : bytes) (ip : IpScan) (s : wg_run_state) (t : wg_turn)
    : option (comp AetherError (wg_run_state * turn_done)) :=
  let cds := still_resting (wg_now t) (cooldowns s) in
  let '(last, fails, cds, gone) :=
    if consecutive_fails s >=? MAX_CONSECUTIVE_FAILS then
      match last_good s with
      | Some (p, _) => (None, 0, <[p := wg_now t + wg_endpoint_cooldown]> cds, Some p)
      | None => (None, 0, cds, None)
      end
    else (last_good s, consecutive_fails s, cds, None) in
  let go v := Some (mret (wg_tunnel s v last fails cds t, mk_done gone (Some v.1))) in
  let again := Some (mret (mk_wg_run None last fails cds (wg_lastconn s), mk_done gone None)) in
  match quick s with
  | Some v => go v
  | None =>
      match (v ← last; if checks t v.1 v.2 then Some v else None), wg_forced with
      | Some v, _ => go v
      | None, Some text =>
          match parse_socket_addr text with
          | None => Some (Err (EOther (lit "bad peer address " ++ text)))
          | Some p =>
              match first_that (checks t p) wg_profile_candidates with
              | Some name => go (p, name)
              | None => again
              end
          end
      | None, None =>
          match hunt_wg_peer local wg_profile_candidates mode ip (keys cds) (wg_probing t) with
          | Some (Ok v) => go v
          | Some (Err _) => again
          | Some Panic => Some Panic
          | None => None
          end
      end
  end.

Definition wg_run (local mode : bytes) (ip : IpScan) : wg_run_state → list wg_turn → list turn_done :=
  turns (wg_iter local mode ip).

(** ** The two hops of WireGuard in WireGuard *)

Record hop_state := mk_hop {
  outer_peer : option SocketAddr;
  inner_peer : option SocketAddr;
  fails_in_a_row : Z;
  scan_settings : option (bytes * IpScan);
}.

Record gool_turn := mk_gool_turn {
  mode_answer : option bytes;
  ip_answer : option bytes;
  gool_probing : search;
  gool_lasted : Z;
}.

Definition hop_start (pinned : WiwEndpoints) : hop_state := mk_hop (outer pinned) (inner pinned) 0 None.

(** The hops after too many ends in a row: those found by a search go. *)
Definition hops_kept (pinned : WiwEndpoints) (s : hop_state) : option SocketAddr * option SocketAddr * Z :=
  if fails_in_a_row s >=? MAX_CONSECUTIVE_FAILS then
    (match outer pinned with None => None | Some _ => outer_peer s end,
     match inner pinned with None => None | Some _ => inner_peer s end, 0)
  else (outer_peer s, inner_peer s, fails_in_a_row s).

Definition settings_of (s : hop_state) (mode_answer ip_answer : option bytes) : bytes * IpScan :=
  default (select_scan_mode_str mode_answer, select_ip_version ip_answer) (scan_settings s).

Definition or_else {A} (a b : option A) : option A := match a with Some _ => a | None => b end.

(** [usize::from(hop.is_none())]. *)
Definition missing (hop : option SocketAddr) : Z := match hop with Some _ => 0 | None => 1 end.

(** A turn: the state, and the hops its tunnel went through. *)
Definition gool_iter (local : bytes) (pinned : WiwEndpoints) (s : hop_state) (t : gool_turn)
    : option (comp AetherError (hop_state * option (SocketAddr * SocketAddr))) :=
  let '(known_outer, known_inner, fails) := hops_kept pinned s in
  let go o i settings :=
    Some (mret (mk_hop (Some o) (Some i) (count_tunnel_end fails (gool_lasted t)) settings, Some (o, i))) in
  match known_outer, known_inner with
  | Some o, Some i => go o i (scan_settings s)
  | _, _ =>
      let wanted := missing known_outer + missing known_inner in
      let avoid := map sa_ip (option_list known_outer ++ option_list known_inner) in
      let '(mode, ip) := settings_of s (mode_answer t) (ip_answer t) in
      let settings := Some (mode, ip) in
      match select_wg_peers local mode ip (Z.to_nat wanted) avoid (gool_probing t) with
      | None => None
      | Some Panic => Some Panic
      | Some (Err _) => Some (mret (mk_hop known_outer known_inner fails settings, None))
      | Some (Ok found) =>
          let found := if verified_scan_selected settings then spread_hops found else found in
          let o := or_else known_outer (found !! 0%nat) in
          let i := or_else known_inner (found !! Z.to_nat (missing known_outer)) in
          match o, i with
          | Some o, Some i => go o i settings
          | _, _ => Some (mret (mk_hop (outer pinned) (inner pinned) fails settings, None))
          end
      end
  end.

Definition gool_run (local : bytes) (pinned : WiwEndpoints)
    : hop_state → list gool_turn → list (option (SocketAddr * SocketAddr)) :=
  turns (gool_iter local pinned).

(** ** MASQUE in MASQUE *)

Record mim_turn := mk_mim_turn {
  mim_mode_answer : option bytes;
  mim_ip_answer : option bytes;
  mim_probing : search;
  mim_draws : list Z;
  outer_up : bool;                     (** the outer tunnel comes up *)
  inner_up : SocketAddr → bool;        (** an inner edge answers through it *)
  mim_lasted : Z;
}.

(** [run_masque_in_masque] up to the inner tunnel: the edge it goes through. *)
Definition mim_inner (o : SocketAddr) (candidates : list SocketAddr) (t : mim_turn) : option SocketAddr :=
  if outer_up t then first_that (inner_up t) (filter (λ c, sa_ip c ≠ sa_ip o) candidates) else None.

Definition mim_iter (pinned : WiwEndpoints) (s : hop_state) (t : mim_turn)
    : option (comp AetherError (hop_state * option (SocketAddr * SocketAddr))) :=
  let '(known_outer, known_inner, fails) := hops_kept pinned s in
  let go o settings :=
    match (match known_inner with
           | Some p => Some [p]
           | None => inner_masque_candidates o (Z.to_nat MIM_INNER_TRIES) (verified_scan_selected settings) (mim_draws t)
           end) with
    | None => None
    | Some [] => Some (Err (EOther (lit "no second masque edge is known for the inner hop")))
    | Some candidates =>
        Some (mret (mk_hop (Some o) known_inner (count_tunnel_end fails (mim_lasted t)) settings,
                    i ← mim_inner o candidates t; Some (o, i)))
    end in
  match known_outer with
  | Some o => go o (scan_settings s)
  | None =>
      let '(mode, ip) := settings_of s (mim_mode_answer t) (mim_ip_answer t) in
      match hunt_masque_peer mode ip [] (mim_probing t) with
      | None => None
      | Some (Ok o) => go o (Some (mode, ip))
      | Some (Err _) => Some (mret (mk_hop None known_inner fails (Some (mode, ip)), None))
      | Some Panic => Some Panic
      end
  end.

Definition mim_run (pinned : WiwEndpoints) : hop_state → list mim_turn → list (option (SocketAddr * SocketAddr)) :=
  turns (mim_iter pinned).

(** ** What a search may choose *)

Lemma hunt_go_elem st deadline s rs pr :
  hunt_go st deadline s rs = Some (Ok pr) → pr ∈ results rs ∨ best s = Some pr.
Proof.
  assert (∀ b pr, finish b = Ok pr → b = Some pr) as Hfin by (intros [?|] ?; cbn; [by intros [= ->]|done]).
  revert s. induction rs as [|r rs IH]; intros s; cbn [hunt_go]; [done|]. unfold hunt_step, results. cbn.
  destruct (_ <=? _); [intros [= E]; right; by apply Hfin|].
  destruct (event r) as [c outcome at_| |]; cbn [hunt_result]; [|intros [= E]; right; by apply Hfin..].
  destruct (verify_one c outcome) as [x|]; [|intros [?|?]%IH; [by left|by right]].
  assert (∀ q, q = pr → better (best s) x = q → pr ∈ x :: results rs ∨ best s = Some pr) as Hb.
  { intros q -> <-. unfold better. destruct (best s) as [cur|]; [|left; by left]. destruct (_ <=? _); [by right|left; by left]. }
  destruct (early_exit_first st); [intros [= ->]; left; by left|]. cbv zeta.
  destruct (_ && _ && _); [destruct (negb _)|].
  - intros [?|[= E]]%IH; [left; by right|by eapply Hb].
  - intros [= E]. by eapply Hb.
  - intros [?|[= E]]%IH; [left; by right|by eapply Hb].
Qed.

Lemma hunt_masque_peer_avoids mode ip avoid s p :
  honest s → hunt_masque_peer mode ip avoid s = Some (Ok p) → sa_ip p ∉ avoid.
Proof.
  intros Hh. unfold hunt_masque_peer. destruct (masque_sni env); [|done..].
  set (m := ScanMode_parse mode). clearbody m. cbv zeta. unfold hunt_candidates.
  destruct (effective_ip ip (host_ipv6 s)) as [ip'| |]; [|done..].
  destruct (build_candidates _ _ _ _ _ _) as [[all ds]|]; [|done]. cbn [mret comp_ret].
  destruct (hunt _ _ _) as [[pr| |]|] eqn:E; cbn [mbind comp_bind]; [|done..]. intros [= <-].
  apply hunt_go_elem in E as [E|E]; [|done]. apply results_elem in E as (r & c & outcome & at_ & Hr & Er & -> & ->).
  specialize (Hh _ _ _ _ _ Hr Er). apply list_elem_of_filter in Hh as [Hh _]. exact Hh.
Qed.

(** The endpoints of a WireGuard search: results of its probes, one for an
    address. *)
Lemma wg_go_elem st want deadline s rs l :
  wg_go st want deadline s rs = Some (Ok l) →
  NoDup (map pr_ip l) ∧ ∀ x, x ∈ l → x ∈ results rs ∨ x ∈ verified s.
Proof.
  assert (∀ v l, wg_finish want v = Ok l → NoDup (map pr_ip l) ∧ ∀ x, x ∈ l → x ∈ v) as Hfin.
  { intros v l'. unfold wg_finish, distinct_by_ip. destruct (is_empty _); [done|]. intros [= <-].
    destruct (first_by_ip_spec [] (sort_rtt v) (sort_rtt_sorted v)) as (_ & Hn & Hsub & _).
    set (p := first_by_ip [] (sort_rtt v)) in *. clearbody p. rewrite <- (take_drop want p) in Hn, Hsub.
    rewrite map_app in Hn. apply NoDup_app in Hn as (Hn & _ & _). split; [done|].
    intros x Hx. apply elem_of_sort_rtt. apply (Hsub x). set_solver. }
  revert s. induction rs as [|r rs IH]; intros s; cbn [wg_go]; [done|]. unfold wg_step, results. cbn.
  assert (wg_finish want (verified s) = Ok l → NoDup (map pr_ip l) ∧ ∀ x, x ∈ l → x ∈ match hunt_result (event r) with Some y => y :: results rs | None => results rs end ∨ x ∈ verified s) as Hdone.
  { intros [Hn Hsub]%Hfin. split; [done|]. intros x Hx. right. by apply Hsub. }
  fold (results rs). destruct (_ <=? _); [intros [= E]; by apply Hdone|].
  destruct (event r) as [c outcome at_| |]; cbn [hunt_result] in *; [|intros [= E]; by apply Hdone..].
  destruct (verify_one c outcome) as [x|]; [|by intros [Hn Hsub]%IH].
  destruct (early_exit_first st).
  { intros [= <-]. split; [apply NoDup_singleton|]. intros y ->%list_elem_of_singleton. left. by left. }
  cbv zeta. assert (wg_finish want (verified s ++ [x]) = Ok l → NoDup (map pr_ip l) ∧ ∀ y, y ∈ l → y ∈ x :: results rs ∨ y ∈ verified s) as Hx.
  { intros [Hn Hsub]%Hfin. split; [done|]. intros y Hy. apply Hsub in Hy. set_solver. }
  destruct (_ && bool_decide (1 < want)%nat); [intros [= E]; by apply Hx|].
  destruct (_ && _ && _); [destruct (negb _)|]; [|intros [= E]; by apply Hx|];
    (intros [Hn Hsub]%IH; split; [done|]; cbn [verified] in Hsub; intros y Hy; apply Hsub in Hy; set_solver).
Qed.

Lemma search_wg_spec mode ip want excluded s l :
  honest s → search_wg mode ip want excluded s = Some (Ok l) →
  NoDup (map pr_ip l) ∧ ∀ x, x ∈ l → endpoint_of x ∉ excluded.
Proof.
  intros Hh. unfold search_wg. set (m := ScanMode_parse mode). clearbody m. cbv zeta. unfold wg_hunt_candidates.
  destruct (effective_ip ip (host_ipv6 s)) as [ip'| |]; [|done..].
  destruct (build_wg_candidates _ _ _ _ _ _) as [[cands ds]|] eqn:Ec; [|done]. cbn [mret comp_ret].
  intros [Hn Hsub]%wg_go_elem. split; [done|]. intros x Hx.
  destruct (Hsub x Hx) as [Hr|Hr%not_elem_of_nil]; [|done].
  apply results_elem in Hr as (r & c & outcome & at_ & Hr & Er & -> & ->). specialize (Hh _ _ _ _ _ Hr Er).
  unfold build_wg_candidates in Ec. cbv zeta in Ec. fold (wg_ports WG_PORTS) in Ec.
  unfold mbind, sampler_bind in Ec. destruct (wg_pool _ _ _ _) as [[pool ds1]|]; [|done].
  injection Ec as <- <-. apply elem_of_wg_waves in Hh as [Hex _]; [done|]. apply wg_ports_spec.
Qed.

Lemma hunt_wg_peer_excluded local profiles mode ip excluded ss v :
  (∀ name, honest (ss name)) → hunt_wg_peer local profiles mode ip excluded ss = Some (Ok v) → v.1 ∉ excluded.
Proof.
  intros Hh. induction profiles as [|name profiles IH]; cbn [hunt_wg_peer]; [done|].
  destruct (hunt_wg_peer_with_profile _ _ _ _ _) as [[p|e|]|] eqn:E; [|done..]. intros [= <-]. cbn [fst].
  unfold hunt_wg_peer_with_profile in E. destruct (parse_ipv4 local); [|done].
  destruct (search_wg _ _ _ _ _) as [[l|e|]|] eqn:Es; cbn [mbind comp_bind] in E; [|done..].
  destruct l as [|x l]; [done|]. injection E as <-. apply search_wg_spec in Es as [_ Hex]; [|done]. apply Hex. by left.
Qed.

(** Endpoints on different addresses, none of them to be avoided. *)
Lemma select_wg_peers_separate local mode ip want avoid s l :
  honest s → select_wg_peers local mode ip want avoid s = Some (Ok l) →
  NoDup (map sa_ip l) ∧ ∀ p, p ∈ l → sa_ip p ∉ avoid.
Proof.
  intros Hh. unfold select_wg_peers. cbv zeta. destruct (parse_ipv4 local); [|done].
  destruct (search_wg _ _ _ _ _) as [[found|e|]|] eqn:Es; cbn [mbind comp_bind]; [|done..].
  apply search_wg_spec in Es as [Hn _]; [|done]. clear Hh. set (f := filter _ found).
  destruct (is_empty _); [done|]. intros [= <-].
  assert (map sa_ip (map endpoint_of (take want f)) = take want (map pr_ip f)) as Em
    by (rewrite map_map, <- firstn_map; done).
  rewrite Em. split.
  - eapply sublist_NoDup; [exact Hn|]. etransitivity; [apply sublist_take|].
    apply (fmap_sublist pr_ip), sublist_filter.
  - intros p Hp. apply elem_of_map in Hp as (x & -> & Hx). cbn. assert (x ∈ f) as Hf by (rewrite <- (take_drop want f); set_solver).
    by apply list_elem_of_filter in Hf as [? _].
Qed.

(** ** Gateways that rest *)

Lemma still_resting_lookup {K} `{Countable K} now (m : gmap K Z) k u :
  still_resting now m !! k = Some u ↔ m !! k = Some u ∧ now < u.
Proof. unfold still_resting. rewrite map_lookup_filter_Some. done. Qed.

Lemma not_in_keys {K} `{Countable K} (m : gmap K Z) k : k ∉ keys m → m !! k = None.
Proof.
  intros Hk. destruct (m !! k) as [u|] eqn:E; [|done]. exfalso. apply Hk. unfold keys.
  apply list_elem_of_fmap. exists (k, u). split; [done|]. by apply elem_of_map_to_list.
Qed.

(** The gateway in use is the last good one, and does not rest. *)
Definition masque_inv (s : masque_state) : Prop :=
  current (strikes s) = last_good_peer s ∧
  (∀ p, last_good_peer s = Some p → resting (strikes s) !! sa_ip p = None) ∧
  (is_Some (quick_peer s) → strikes s = no_strikes).

Lemma masque_start_inv verify cached answer : masque_inv (masque_start verify cached answer).
Proof. by split. Qed.

Lemma tunnel_resting forced p g file l :
  strikes (masque_tunnel forced p g file l)
  = mk_strikes (Some p) (count_tunnel_end (if bool_decide (current g = Some p) then in_a_row g else 0) l) (resting g).
Proof. unfold masque_tunnel, using_gateway. cbn. by case_bool_decide as E; [rewrite <- E; destruct g|]. Qed.

Section unforced.
Hypothesis Hforced : env (lit "AETHER_PEER") = None.

(** What a turn does to the gateways that rest. *)
Lemma masque_iter_rests mode ip s t s' d :
  honest (probing t) → masque_inv s → masque_iter mode ip s t = Some (Ok (s', d)) →
  masque_inv s' ∧
  ∀ a u, resting (strikes s) !! a = Some u ∨ (∃ p, gateway_left d = Some p ∧ a = sa_ip p ∧ u = t_top t + MASQUE_GATEWAY_REST) →
    t_scan t < u → resting (strikes s') !! a = Some u ∧ ∀ q, gateway_used d = Some q → sa_ip q ≠ a.
Proof.
  intros Hh (Hcur & Hlast & Hquick). unfold masque_iter. rewrite Hforced. cbv zeta.
  destruct (leave_gateway (strikes s) (t_top t) MASQUE_GATEWAY_REST) as [g gone] eqn:Eg.
  set (last := match gone with Some _ => None | None => last_good_peer s end).
  assert (current g = last ∧ (∀ p, last = Some p → resting g !! sa_ip p = None) ∧
    (∀ a u, resting (strikes s) !! a = Some u ∨ (∃ p, gone = Some p ∧ a = sa_ip p ∧ u = t_top t + MASQUE_GATEWAY_REST) →
       resting g !! a = Some u) ∧ (is_Some (quick_peer s) → g = no_strikes ∧ gone = None)) as (Hc & Hl & Hr & Hq).
  { unfold leave_gateway in Eg. destruct (_ <? _) eqn:Elt.
    { injection Eg as <- <-. split_and!; [done|done| |by intros ?%Hquick]. intros a u [?|(? & ? & _)]; done. }
    destruct (current (strikes s)) as [p|] eqn:Ec; injection Eg as <- <-; unfold last; cbn.
    - split_and!; [done|done| |intros Hqs%Hquick; by rewrite Hqs in Ec].
      intros a u [Ha|(p' & [= <-] & -> & ->)]; [|by rewrite lookup_insert_eq].
      rewrite lookup_insert_ne; [done|]. intros <-. rewrite Hlast in Ha by done. done.
    - rewrite <- Hcur. split_and!; [done|done| |intros Hqs%Hquick; by rewrite Hqs in Elt].
      intros a u [?|(? & ? & _)]; done. }
  assert (∀ p g' file, resting g' !! sa_ip p = None → masque_inv (masque_tunnel None p g' file (lasted t))) as Hinv.
  { intros p g' file Hg'. unfold masque_inv. rewrite tunnel_resting. cbn. split_and!; [done| |by intros [? [=]]].
    by intros ? [= <-]. }
  assert (∀ p file g', resting g' !! sa_ip p = None → (∀ a u, resting g !! a = Some u → t_scan t < u → resting g' !! a = Some u) →
    masque_inv (masque_tunnel None p g' file (lasted t)) ∧
    ∀ a u, resting (strikes s) !! a = Some u ∨ (∃ p, gone = Some p ∧ a = sa_ip p ∧ u = t_top t + MASQUE_GATEWAY_REST) →
      t_scan t < u → resting (strikes (masque_tunnel None p g' file (lasted t))) !! a = Some u ∧
      ∀ q, Some p = Some q → sa_ip q ≠ a) as Hgo.
  { intros p file g' Hg' Hkeep. split; [by apply Hinv|]. intros a u Ha%Hr Hu. apply Hkeep in Ha; [|done].
    rewrite tunnel_resting. cbn. split; [done|]. intros q [= <-] <-. congruence. }
  destruct (quick_peer s) as [p|].
  { intros [= <- <-]. apply Hgo; [|done]. by destruct (Hq ltac:(by eexists)) as [-> _]. }
  destruct (p ← last; if answers_again t then Some p else None) as [p|] eqn:Ep.
  { intros [= <- <-]. apply Hgo; [|done]. destruct last as [p'|]; [|done]. cbn in Ep.
    destruct (answers_again t); [|done]. injection Ep as <-. by apply Hl. }
  unfold left_out. set (m := still_resting (t_scan t) (resting g)). cbv zeta.
  assert (∀ a u, resting g !! a = Some u → t_scan t < u → m !! a = Some u) as Hm by (intros a u ? ?; by apply still_resting_lookup).
  destruct (hunt_masque_peer _ _ _ _) as [[p|e|]|] eqn:Eh; [| |done..].
  { intros [= <- <-]. apply Hgo; [|done]. by apply not_in_keys, (hunt_masque_peer_avoids _ _ _ _ _ Hh Eh). }
  intros [= <- <-]. cbn. split.
  - split_and!; [done| |by intros [? [=]]]. cbn. intros p Hp%Hl. destruct (m !! sa_ip p) as [u|] eqn:Em; [|done].
    apply still_resting_lookup in Em as [Em _]. congruence.
  - intros a u Ha%Hr Hu. split; [by apply Hm|done].
Qed.

(** C8. A MASQUE gateway that is left rests: after the run left a gateway, no
    tunnel goes through its address again within five minutes, whatever the
    searches, the checks of gateways and the tunnels in between do. *)
Theorem masque_gateway_rests mode ip verify cached answer ts i j t t' d p d' q
  (Hhonest : ∀ t, t ∈ ts → honest (probing t))
  (Hclock : ∀ k l a b, (k ≤ l)%nat → ts !! k = Some a → ts !! l = Some b → t_scan a ≤ t_scan b)
  (Hi : masque_run mode ip (masque_start verify cached answer) ts !! i = Some d) (Ht : ts !! i = Some t)
  (Hleft : gateway_left d = Some p)
  (Hj : masque_run mode ip (masque_start verify cached answer) ts !! j = Some d') (Ht' : ts !! j = Some t')
  (Hused : gateway_used d' = Some q) (Hij : (i ≤ j)%nat)
  (Hsoon : t_scan t' < t_top t + 300000) :
  sa_ip q ≠ sa_ip p.
Proof.
  apply (left_rests (masque_iter mode ip) masque_inv (λ t, honest (probing t)) (λ s a, resting (strikes s) !! a)
    t_scan t_top sa_ip MASQUE_GATEWAY_REST) with ts (masque_start verify cached answer) i j t d d'; try done.
  - intros s t0 s' d0 Hh Hs E. by apply masque_iter_rests in E.
  - by apply Forall_forall.
  - intros k tk Hk Htk. assert (t_scan tk ≤ t_scan t') by (eapply (Hclock k j); done || lia).
    unfold MASQUE_GATEWAY_REST. lia.
Qed.

(** ** Gateways that are left *)

(** The tunnels since a gateway was last left, the latest first. *)
Fixpoint since_left (h : list (SocketAddr * Z)) (ds : list turn_done) (ts : list masque_turn) : list (SocketAddr * Z) :=
  match ds, ts with
  | d :: ds, t :: ts =>
      let h := match gateway_left d with Some _ => [] | None => h end in
      since_left (match gateway_used d with Some p => (p, lasted t) :: h | None => h end) ds ts
  | _, _ => h
  end.

(** How many of the latest tunnels went through [p] and ended soon. *)
Fixpoint soon_ended (p : SocketAddr) (h : list (SocketAddr * Z)) : Z :=
  match h with
  | (q, l) :: h => if bool_decide (q = p) && (l <? TUNNEL_STAYED_UP) then 1 + soon_ended p h else 0
  | [] => 0
  end.

Lemma soon_ended_two p h : 2 ≤ soon_ended p h ↔
  ∃ l2 l1 h0, h = (p, l2) :: (p, l1) :: h0 ∧ l2 < TUNNEL_STAYED_UP ∧ l1 < TUNNEL_STAYED_UP.
Proof.
  assert (∀ k, 0 ≤ soon_ended p k) as Hpos.
  { induction k as [|[q l] k IH]; cbn [soon_ended]; [lia|]. destruct (_ && _); lia. }
  split.
  - destruct h as [|[q l] [|[q' l'] h]]; cbn; [lia|destruct (_ && _); lia|]. intros H2.
    destruct (bool_decide (q = p) && _) eqn:E1; [|lia]. destruct (bool_decide (q' = p) && _) eqn:E2; [|lia].
    apply andb_true_iff in E1 as [->%bool_decide_eq_true ?%Z.ltb_lt].
    apply andb_true_iff in E2 as [->%bool_decide_eq_true ?%Z.ltb_lt]. eauto 10.
  - intros (l2 & l1 & h0 & -> & Hl2 & Hl1). cbn. rewrite !bool_decide_eq_true_2 by done.
    apply Z.ltb_lt in Hl2 as ->, Hl1 as ->. cbn. specialize (Hpos h0). lia.
Qed.

(** The count of the run is that of its tunnels. *)
Definition strikes_count (g : GatewayStrikes) (h : list (SocketAddr * Z)) : Prop :=
  0 ≤ in_a_row g ≤ 2 ∧
  match current g with
  | Some p => ∃ l h', h = (p, l) :: h' ∧ in_a_row g = soon_ended p h
  | None => h = [] ∧ in_a_row g = 0
  end.

Lemma leave_gateway_count g h now rest g' gone : strikes_count g h → leave_gateway g now rest = (g', gone) →
  strikes_count g' (match gone with Some _ => [] | None => h end) ∧ in_a_row g' ≤ 1 ∧
  (∀ p, gone = Some p ↔ ∃ l2 l1 h0, h = (p, l2) :: (p, l1) :: h0 ∧ l2 < TUNNEL_STAYED_UP ∧ l1 < TUNNEL_STAYED_UP).
Proof.
  intros [Hb Hc]. unfold leave_gateway, MASQUE_GATEWAY_STRIKES. destruct (Z.ltb_spec (in_a_row g) 2) as [Hlt|Hge].
  - intros [= <- <-]. split; [by split|]. split; [lia|]. intros p. split; [done|]. intros H2.
    destruct (current g) as [p'|].
    + destruct Hc as (l & h' & -> & Hn). destruct H2 as (l2 & l1 & h0 & [= -> -> ->] & ? & ?).
      assert (2 ≤ soon_ended p ((p, l2) :: (p, l1) :: h0)); [|lia]. apply soon_ended_two. eauto 10.
    + destruct Hc as [-> _]. by destruct H2 as (? & ? & ? & ? & _).
  - destruct (current g) as [p|]; [|lia]. intros [= <- <-]. destruct Hc as (l & h' & -> & Hn).
    split; [by split; cbn; [lia|]|]. split; [cbn; lia|]. rewrite Hn in Hge. apply soon_ended_two in Hge.
    intros q. split; [intros [= <-]; done|]. intros (? & ? & ? & [= -> -> ->] & _). done.
Qed.

Lemma tunnel_count g h p l forced file : strikes_count g h → in_a_row g ≤ 1 →
  strikes_count (strikes (masque_tunnel forced p g file l)) ((p, l) :: h).
Proof.
  intros [Hb Hc] H1. rewrite tunnel_resting. unfold strikes_count. cbn [current in_a_row soon_ended].
  rewrite (bool_decide_eq_true_2 (p = p)) by done. cbn [andb]. unfold count_tunnel_end.
  set (n := if bool_decide (current g = Some p) then in_a_row g else 0).
  assert (0 ≤ n ≤ 1 ∧ n = soon_ended p h) as [Hn En].
  { unfold n. case_bool_decide as E; [rewrite E in Hc; destruct Hc as (? & ? & _ & Hn); split; [lia|exact Hn]|]. split; [lia|].
    destruct (current g) as [q|].
    - destruct Hc as (l0 & h0 & -> & _). cbn. by rewrite bool_decide_eq_false_2 by congruence.
    - by destruct Hc as [-> _]. }
  clearbody n. destruct (Z.ltb_spec l TUNNEL_STAYED_UP) as [Hlt|Hge].
  - destruct (Z.geb_spec l TUNNEL_STAYED_UP); [lia|]. rewrite Z.min_l by lia. split; [lia|].
    exists l, h. split; [done|lia].
  - destruct (Z.geb_spec l TUNNEL_STAYED_UP); [|lia]. split; [lia|]. by exists l, h.
Qed.

Lemma masque_iter_count mode ip s t s' d h : strikes_count (strikes s) h →
  masque_iter mode ip s t = Some (Ok (s', d)) →
  strikes_count (strikes s') (since_left h [d] [t]) ∧
  (∀ p, gateway_left d = Some p ↔
     ∃ l2 l1 h0, h = (p, l2) :: (p, l1) :: h0 ∧ l2 < TUNNEL_STAYED_UP ∧ l1 < TUNNEL_STAYED_UP).
Proof.
  intros Hs. unfold masque_iter. rewrite Hforced. cbv zeta.
  destruct (leave_gateway (strikes s) (t_top t) MASQUE_GATEWAY_REST) as [g gone] eqn:Eg.
  destruct (leave_gateway_count _ _ _ _ _ _ Hs Eg) as (Hg & H1 & Hgone). cbn [since_left].
  set (k := match gone with Some _ => [] | None => h end) in *.
  assert (∀ p g', current g' = current g → in_a_row g' = in_a_row g →
    strikes_count (strikes (masque_tunnel None p g' (lastconn s) (lasted t))) ((p, lasted t) :: k)) as Hgo.
  { intros p g' Ec Er. apply tunnel_count; [|lia]. unfold strikes_count. by rewrite Ec, Er. }
  destruct (quick_peer s) as [p|]; [intros [= <- <-]; split; [by apply Hgo|exact Hgone]|].
  destruct (mbind _ _) as [p|]; [intros [= <- <-]; split; [by apply Hgo|exact Hgone]|]. unfold left_out.
  destruct (hunt_masque_peer _ _ _ _) as [[p|e|]|]; [| |done..].
  - intros [= <- <-]. split; [by apply Hgo|exact Hgone].
  - intros [= <- <-]. split; [exact Hg|exact Hgone].
Qed.

Lemma since_left_cons h d ds t ts : since_left h (d :: ds) (t :: ts) = since_left (since_left h [d] [t]) ds ts.
Proof. done. Qed.

Lemma masque_run_leaves mode ip ts s i d h p :
  strikes_count (strikes s) h → masque_run mode ip s ts !! i = Some d →
  gateway_left d = Some p ↔
    ∃ l2 l1 h0, since_left h (take i (masque_run mode ip s ts)) ts = (p, l2) :: (p, l1) :: h0 ∧
      l2 < TUNNEL_STAYED_UP ∧ l1 < TUNNEL_STAYED_UP.
Proof.
  revert s i h. induction ts as [|t ts IH]; intros s i h Hs; unfold masque_run in *; cbn [turns]; [done|].
  destruct (masque_iter mode ip s t) as [[[s' d']| |]|] eqn:E; [|done..].
  destruct (masque_iter_count _ _ _ _ _ _ _ Hs E) as [Hs' Hleft].
  destruct i as [|i]; [intros [= <-]; by rewrite Hleft|]. intros Hd. cbn [firstn]. rewrite since_left_cons. by apply IH.
Qed.

(** The run leaves a MASQUE gateway exactly when the last two tunnels, since
    one was left before, both went through it and each ended within five
    minutes: never after one bad tunnel, never after one that stayed up, and
    not a tunnel later. *)
Theorem masque_leaves_after_two mode ip verify cached answer ts i d p
  (Hd : masque_run mode ip (masque_start verify cached answer) ts !! i = Some d) :
  gateway_left d = Some p ↔
    ∃ l2 l1 h, since_left [] (take i (masque_run mode ip (masque_start verify cached answer) ts)) ts
                 = (p, l2) :: (p, l1) :: h ∧ l2 < 300000 ∧ l1 < 300000.
Proof. by apply masque_run_leaves. Qed.
End unforced.

(** ** WireGuard endpoints that rest *)

Section wg_unforced.
Hypothesis Hforced : wg_forced = None.

Definition wg_inv (s : wg_run_state) : Prop :=
  (∀ v, last_good s = Some v → cooldowns s !! v.1 = None) ∧
  (is_Some (quick s) → last_good s = None ∧ cooldowns s = ∅).

Lemma wg_iter_rests local mode ip s t s' d :
  (∀ name, honest (wg_probing t name)) → wg_inv s → wg_iter local mode ip s t = Some (Ok (s', d)) →
  wg_inv s' ∧
  ∀ a u, cooldowns s !! a = Some u ∨ (∃ p, gateway_left d = Some p ∧ a = p ∧ u = wg_now t + wg_endpoint_cooldown) →
    wg_now t < u → cooldowns s' !! a = Some u ∧ gateway_used d ≠ Some a.
Proof.
  intros Hh (Hlast & Hquick). unfold wg_iter. rewrite Hforced. cbv zeta.
  set (cds0 := still_resting (wg_now t) (cooldowns s)).
  destruct (if consecutive_fails s >=? MAX_CONSECUTIVE_FAILS then _ else _) as [[[last fails] cds] gone] eqn:Es.
  assert (∀ v, last_good s = Some v → cds0 !! v.1 = None) as Hl0.
  { intros v Hv%Hlast. destruct (cds0 !! v.1) as [u|] eqn:E; [|done]. apply still_resting_lookup in E as [E _]. congruence. }
  assert ((∀ v, last = Some v → cds !! v.1 = None) ∧
    (∀ a u, cooldowns s !! a = Some u ∨ (∃ p, gone = Some p ∧ a = p ∧ u = wg_now t + wg_endpoint_cooldown) →
       wg_now t < u → cds !! a = Some u) ∧ (is_Some (quick s) → cds = ∅)) as (Hl & Hr & Hq).
  { assert (∀ a u, cooldowns s !! a = Some u → wg_now t < u → cds0 !! a = Some u) as H0
      by (intros a u ? ?; by apply still_resting_lookup).
    assert (is_Some (quick s) → cds0 = ∅) as Hq0.
    { intros [_ E]%Hquick. unfold cds0. rewrite E. unfold still_resting. apply map_filter_empty. }
    destruct (_ >=? _); [destruct (last_good s) as [[p name]|] eqn:El|]; injection Es as <- <- <- <-.
    - split_and!; [done| |by intros [? _]%Hquick]. intros a u [Ha|(p' & [= <-] & -> & ->)] Hu; [|by rewrite lookup_insert_eq].
      rewrite lookup_insert_ne; [by apply H0|]. intros <-. specialize (Hlast _ eq_refl). cbn in Hlast. congruence.
    - split_and!; [done| |done]. intros a u [Ha|(? & ? & _)]; [by apply H0|done].
    - split_and!; [done| |done]. intros a u [Ha|(? & ? & _)]; [by apply H0|done]. }
  assert (∀ v, cds !! v.1 = None → wg_inv (wg_tunnel s v last fails cds t) ∧
    ∀ a u, cooldowns s !! a = Some u ∨ (∃ p, gone = Some p ∧ a = p ∧ u = wg_now t + wg_endpoint_cooldown) →
      wg_now t < u → cooldowns (wg_tunnel s v last fails cds t) !! a = Some u ∧ Some v.1 ≠ Some a) as Hgo.
  { intros v Hv. split; [split; [by intros ? [= <-]|by intros [? [=]]]|]. intros a u Ha Hu. cbn.
    specialize (Hr a u Ha Hu). split; [done|]. intros [= <-]. congruence. }
  assert (wg_inv (mk_wg_run None last fails cds (wg_lastconn s)) ∧
    ∀ a u, cooldowns s !! a = Some u ∨ (∃ p, gone = Some p ∧ a = p ∧ u = wg_now t + wg_endpoint_cooldown) →
      wg_now t < u → cds !! a = Some u ∧ None ≠ Some a) as Hagain.
  { split; [split; [done|by intros [? [=]]]|]. intros a u Ha Hu. split; [by apply Hr|done]. }
  destruct (quick s) as [v|]; [intros [= <- <-]; apply Hgo; by rewrite Hq|].
  destruct (v ← last; _) as [v|] eqn:Ev.
  { intros [= <- <-]. apply Hgo. destruct last as [v'|]; [|done]. cbn in Ev. destruct (checks t v'.1 v'.2); [|done].
    injection Ev as <-. by apply Hl. }
  destruct (hunt_wg_peer _ _ _ _ _ _) as [[v|e|]|] eqn:Eh; [| |done..].
  - intros [= <- <-]. apply Hgo, not_in_keys. by apply (hunt_wg_peer_excluded _ _ _ _ _ _ _ Hh Eh).
  - by intros [= <- <-].
Qed.

(** A WireGuard endpoint that is left rests: no tunnel goes through it again
    until the cooldown is over, whatever its profile and whatever happens in
    between. *)
Theorem wg_endpoint_rests local mode ip verify cached answer ts i j t t' d p d'
  (Hhonest : ∀ t name, t ∈ ts → honest (wg_probing t name))
  (Hclock : ∀ k l a b, (k ≤ l)%nat → ts !! k = Some a → ts !! l = Some b → wg_now a ≤ wg_now b)
  (Hi : wg_run local mode ip (wg_start verify cached answer) ts !! i = Some d) (Ht : ts !! i = Some t)
  (Hleft : gateway_left d = Some p)
  (Hj : wg_run local mode ip (wg_start verify cached answer) ts !! j = Some d') (Ht' : ts !! j = Some t')
  (Hij : (i ≤ j)%nat) (Hsoon : wg_now t' < wg_now t + wg_endpoint_cooldown) :
  gateway_used d' ≠ Some p.
Proof.
  intros Hused. apply (left_rests (wg_iter local mode ip) wg_inv (λ t, ∀ name, honest (wg_probing t name))
    (λ s a, cooldowns s !! a) wg_now wg_now id wg_endpoint_cooldown) with ts (wg_start verify cached answer) i j t d p d' p;
    try done.
  - intros s t0 s' d0 Hh Hs E. apply wg_iter_rests in E as [Hs' Hr]; [|done..]. split; [done|]. intros a u Ha Hu.
    destruct (Hr a u Ha Hu) as [Hr' Hne]. split; [done|]. unfold id. intros q Hq <-. done.
  - apply Forall_forall. intros t0 Ht0 name. by apply Hhonest.
  - intros k tk Hk Htk. assert (wg_now tk ≤ wg_now t') by (eapply (Hclock k j); done || lia). lia.
Qed.
End wg_unforced.

(** ** Hops on different edges *)

Lemma spread_hops_perm found : spread_hops found ≡ₚ found.
Proof.
  unfold spread_hops. destruct found as [|first [|p1 rest]]; [done..|]. destruct (position _ _) as [other|]; [|done].
  destruct (1 <=? other)%nat; [apply swap_perm|done].
Qed.

(** The hops a run goes through: those named by hand, and on different
    addresses. *)
Definition hops_ok (pinned : WiwEndpoints) (o i : option SocketAddr) : Prop :=
  (∀ p, outer pinned = Some p → o = Some p) ∧ (∀ p, inner pinned = Some p → i = Some p) ∧
  (∀ a b, o = Some a → i = Some b → sa_ip a ≠ sa_ip b).

Definition tunnel_ok (pinned : WiwEndpoints) (d : option (SocketAddr * SocketAddr)) : Prop :=
  match d with
  | Some (o, i) => sa_ip o ≠ sa_ip i ∧ (∀ p, outer pinned = Some p → o = p) ∧ (∀ p, inner pinned = Some p → i = p)
  | None => True
  end.

Lemma hops_ok_tunnel pinned o i : hops_ok pinned (Some o) (Some i) → tunnel_ok pinned (Some (o, i)).
Proof. intros (Ho & Hi & Hne). split_and!; [by apply Hne|intros p Hp%Ho; by injection Hp|intros p Hp%Hi; by injection Hp]. Qed.

Lemma hops_kept_ok pinned s o i fails :
  hops_ok pinned (outer_peer s) (inner_peer s) → hops_kept pinned s = (o, i, fails) → hops_ok pinned o i.
Proof.
  intros (Ho & Hi & Hne). unfold hops_kept. destruct (_ >=? _); intros [= <- <- _]; [|done].
  split_and!.
  - intros p Hp. rewrite Hp. by apply Ho.
  - intros p Hp. rewrite Hp. by apply Hi.
  - intros a b. destruct (outer pinned), (inner pinned); try done. by apply Hne.
Qed.

(** What the search found, put in the places that are free. *)
Lemma hops_found_ok pinned known_outer known_inner found a b :
  hops_ok pinned known_outer known_inner →
  NoDup (map sa_ip found) → (∀ p, p ∈ found → sa_ip p ∉ map sa_ip (option_list known_outer ++ option_list known_inner)) →
  or_else known_outer (found !! 0%nat) = Some a →
  or_else known_inner (found !! Z.to_nat (missing known_outer)) = Some b → hops_ok pinned (Some a) (Some b).
Proof.
  intros (Ho & Hi & Hne) Hn Hav Ea Eb. split_and!.
  - intros p Hp%Ho. subst known_outer. exact (eq_sym Ea).
  - intros p Hp%Hi. subst known_inner. exact (eq_sym Eb).
  - intros a' b' [= <-] [= <-]. destruct known_outer as [o|], known_inner as [i|]; cbn in Ea, Eb, Hav.
    + injection Ea as <-. injection Eb as <-. by apply Hne.
    + injection Ea as <-. apply list_elem_of_lookup_2, Hav in Eb. set_solver.
    + injection Eb as <-. apply list_elem_of_lookup_2, Hav in Ea. set_solver.
    + intros E. change (Z.to_nat 1) with 1%nat in Eb. destruct found as [|x [|y found]]; [done..|].
      injection Ea as ->. injection Eb as ->. cbn in Hn. rewrite E in Hn. apply NoDup_cons in Hn as [Hn _]. apply Hn. by left.
Qed.

Lemma gool_iter_ok local pinned s t s' d :
  (∀ a b, outer pinned = Some a → inner pinned = Some b → sa_ip a ≠ sa_ip b) → honest (gool_probing t) →
  hops_ok pinned (outer_peer s) (inner_peer s) → gool_iter local pinned s t = Some (Ok (s', d)) →
  hops_ok pinned (outer_peer s') (inner_peer s') ∧ tunnel_ok pinned d.
Proof.
  intros Hsep Hh Hs. unfold gool_iter. destruct (hops_kept pinned s) as [[ko ki] fails] eqn:Ek.
  apply hops_kept_ok in Ek as Hk; [|done]. clear Ek. cbv zeta.
  destruct (settings_of s (mode_answer t) (ip_answer t)) as [mode ip].
  assert (match select_wg_peers local mode ip (Z.to_nat (missing ko + missing ki))
      (map sa_ip (option_list ko ++ option_list ki)) (gool_probing t) with
    | Some (Ok found) => ∀ found', found' ≡ₚ found →
        NoDup (map sa_ip found') ∧ ∀ p, p ∈ found' → sa_ip p ∉ map sa_ip (option_list ko ++ option_list ki)
    | _ => True end) as Hf.
  { destruct (select_wg_peers _ _ _ _ _ _) as [[found| |]|] eqn:E; [|done..].
    apply select_wg_peers_separate in E as [Hn Hav]; [|done]. intros found' Hp. rewrite Hp. split; [done|].
    intros p Hin. rewrite Hp in Hin. by apply Hav. }
  destruct ko as [o|], ki as [i|].
  { intros [= <- <-]. split; [done|by apply hops_ok_tunnel]. }
  all: destruct (select_wg_peers _ _ _ _ _ _) as [[found| |]|]; [| |done..];
    [|intros [= <- <-]; done].
  all: set (found' := if verified_scan_selected _ then _ else _);
    destruct (Hf found') as [Hn Hav]; [unfold found'; destruct (verified_scan_selected _); [apply spread_hops_perm|done]|];
    clearbody found'.
  all: match goal with |- context [match ?a with Some _ => _ | None => _ end] =>
         destruct a as [o'|] eqn:Eo end; [|by intros [= <- <-]].
  all: match goal with |- context [match ?a with Some _ => _ | None => _ end] =>
         destruct a as [i'|] eqn:Ei end; [|by intros [= <- <-]].
  all: intros [= <- <-];
    match type of Hk with hops_ok _ ?ko ?ki => pose proof (hops_found_ok pinned ko ki found' o' i' Hk Hn Hav Eo Ei) as Hok end;
    split; [exact Hok|by apply hops_ok_tunnel].
Qed.

(** C20. The two hops of WireGuard in WireGuard are never on one address: whatever
    the settings name, the searches find and the tunnels do, each tunnel goes
    through two different addresses, and through the endpoints named by hand
    where there are any. *)
Theorem gool_hops_apart local pinned ts
  (Hpinned : wiw_endpoints_with_fallback (env_value env) = Ok pinned)
  (Hhonest : ∀ t, t ∈ ts → honest (gool_probing t)) :
  Forall (tunnel_ok pinned) (gool_run local pinned (hop_start pinned) ts).
Proof.
  pose proof (wiw_fallback_separate _ _ Hpinned) as Hsep.
  apply (turns_Forall _ (λ s, hops_ok pinned (outer_peer s) (inner_peer s)) (λ t, honest (gool_probing t))).
  - intros s t s' d Ht Hs E. by eapply gool_iter_ok.
  - by apply Forall_forall.
  - split_and!; [done|done|exact Hsep].
Qed.

Lemma first_that_elem {A} (check : A → bool) l x : first_that check l = Some x → x ∈ l ∧ check x = true.
Proof.
  induction l as [|y l IH]; cbn; [done|]. destruct (check y) eqn:E; [intros [= <-]; split; [by left|done]|].
  intros [? ?]%IH. split; [by right|done].
Qed.

(** The inner hop of MASQUE in MASQUE is never a search's. *)
Definition mim_ok (pinned : WiwEndpoints) (s : hop_state) : Prop :=
  (∀ p, outer pinned = Some p → outer_peer s = Some p) ∧ inner_peer s = inner pinned.

Lemma mim_iter_ok pinned s t s' d :
  mim_ok pinned s → mim_iter pinned s t = Some (Ok (s', d)) → mim_ok pinned s' ∧ tunnel_ok pinned d.
Proof.
  intros [Ho Hi]. unfold mim_iter. destruct (hops_kept pinned s) as [[ko ki] fails] eqn:Ek.
  assert ((∀ p, outer pinned = Some p → ko = Some p) ∧ ki = inner pinned) as [Hko ->].
  { unfold hops_kept in Ek. destruct (_ >=? _); injection Ek as <- <- _; [|by split].
    rewrite Hi. split; [|by destruct (inner pinned)]. intros p Hp. rewrite Hp. by apply Ho. }
  clear Ek. cbv zeta.
  assert (∀ o settings, (∀ p, outer pinned = Some p → o = p) →
    match (match inner pinned with
           | Some p => Some [p]
           | None => inner_masque_candidates o (Z.to_nat MIM_INNER_TRIES) (verified_scan_selected settings) (mim_draws t)
           end) with
    | None => None
    | Some [] => Some (Err (EOther (lit "no second masque edge is known for the inner hop")))
    | Some candidates =>
        Some (mret (mk_hop (Some o) (inner pinned) (count_tunnel_end fails (mim_lasted t)) settings,
                    i ← mim_inner o candidates t; Some (o, i)))
    end = Some (Ok (s', d)) → mim_ok pinned s' ∧ tunnel_ok pinned d) as Hgo.
  { intros o settings Hop. set (cands := match inner pinned with Some _ => _ | None => _ end).
    assert (∀ l, cands = Some l → ∀ p, inner pinned = Some p → l = [p]) as Hc.
    { intros l E p Hp. unfold cands in E. rewrite Hp in E. by injection E as <-. }
    destruct cands as [[|c l]|]; [done| |done]. specialize (Hc _ eq_refl). intros [= <- <-]. split.
    - split; [|done]. intros p Hp. cbn. by rewrite (Hop p Hp).
    - destruct (mim_inner o (c :: l) t) as [i|] eqn:E; cbn [mbind option_bind tunnel_ok]; [|done].
      unfold mim_inner in E. destruct (outer_up t); [|done].
      apply first_that_elem in E as [E _]. apply list_elem_of_filter in E as [Hne Hin].
      split_and!; [done|done|]. intros p Hp. rewrite (Hc p Hp) in Hin. by apply list_elem_of_singleton in Hin. }
  destruct ko as [o|].
  { apply Hgo. intros p Hp%Hko. by injection Hp. }
  assert (outer pinned = None) as Hno by (destruct (outer pinned); [by specialize (Hko _ eq_refl)|done]).
  destruct (settings_of s (mim_mode_answer t) (mim_ip_answer t)) as [mode ip].
  destruct (hunt_masque_peer _ _ _ _) as [[o|e|]|]; [| |done..].
  - apply Hgo. by rewrite Hno.
  - intros [= <- <-]. split; [|done]. split; [by rewrite Hno|done].
Qed.

(** The two hops of MASQUE in MASQUE are never on one address either, even
    where the search for the outer hop finds the edge named for the inner one;
    and each tunnel goes through the endpoints named by hand. *)
Theorem mim_hops_apart pinned ts : Forall (tunnel_ok pinned) (mim_run pinned (hop_start pinned) ts).
Proof.
  apply (turns_Forall _ (mim_ok pinned) (λ _, True)); [|by apply Forall_true|by split].
  intros s t s' d _ Hs E. by eapply mim_iter_ok.
Qed.
End runs.

(** ** Runs *)
Module Running.

#[local] Instance ascii_only : UnicodeCase := λ s, s.
Definition no_env : environment := λ _, None.

(** The first candidate of a search answers. *)
Definition first_answers (cands : list candidate) : list hunt_round :=
  match cands with c :: _ => [mk_round 10 (Item c (Ok 50) 10)] | [] => [] end ++ [mk_round 20 StreamEnd].
Definition quick_search : search := mk_search true (seqZ 0 400) 0 first_answers.

Lemma quick_search_honest : honest quick_search.
Proof.
  intros [|c0 cands] r c outcome at_ Hr Er; cbn in Hr.
  - apply list_elem_of_singleton in Hr as ->. discriminate.
  - apply elem_of_cons in Hr as [->|Hr]; [injection Er as <- _ _; by left|]. apply list_elem_of_singleton in Hr as ->. discriminate.
Qed.

(** A gateway that ends two tunnels within a second, then another. *)
Definition short_turns : list masque_turn :=
  [mk_turn 0 true 0 quick_search 1000; mk_turn 2000 true 2000 quick_search 1000; mk_turn 4000 true 4000 quick_search 1000].
Definition first_gateway : SocketAddr := SockAddr (V6 50543257672372983191996140479718621185) 443.
Definition second_gateway : SocketAddr := SockAddr (V6 50543257672372983191996140482447000577) 443.

Abbreviation short_run := (masque_run no_env (lit "turbo") ScanV6 (masque_start no_env (λ _, false) None None) short_turns).

Example short_run_2 : short_run !! 2%nat = Some (mk_done (Some first_gateway) (Some second_gateway)).
Proof. vm_compute. reflexivity. Qed.

Lemma masque_gateway_rests_witness : sa_ip second_gateway ≠ sa_ip first_gateway.
Proof.
  apply (masque_gateway_rests no_env eq_refl (lit "turbo") ScanV6 (λ _, false) None None short_turns 2 2
           (mk_turn 4000 true 4000 quick_search 1000) (mk_turn 4000 true 4000 quick_search 1000)
           (mk_done (Some first_gateway) (Some second_gateway)) first_gateway
           (mk_done (Some first_gateway) (Some second_gateway)) second_gateway);
    [| |exact short_run_2|reflexivity|reflexivity|exact short_run_2|reflexivity|reflexivity|lia|vm_compute; reflexivity].
  - intros t Ht. unfold short_turns in Ht. repeat (apply elem_of_cons in Ht as [->|Ht]; [exact quick_search_honest|]).
    by apply not_elem_of_nil in Ht.
  - intros [|[|[|k]]] [|[|[|l]]] a b Hkl; cbn; intros Ha Hb; try discriminate; try lia; injection Ha as <-; injection Hb as <-; cbn; lia.
Defined.

Lemma masque_leaves_after_two_witness :
  gateway_left (mk_done (Some first_gateway) (Some second_gateway)) = Some first_gateway ↔
  ∃ l2 l1 h, since_left [] (take 2 short_run) short_turns = (first_gateway, l2) :: (first_gateway, l1) :: h
             ∧ l2 < 300000 ∧ l1 < 300000.
Proof.
  apply (masque_leaves_after_two no_env eq_refl (lit "turbo") ScanV6 (λ _, false) None None short_turns 2
           (mk_done (Some first_gateway) (Some second_gateway)) first_gateway).
  exact short_run_2.
Defined.

Definition wg_short_turns : list wg_turn :=
  [mk_wg_turn 0 (λ _ _, true) (λ _, quick_search) 1000; mk_wg_turn 2000 (λ _ _, true) (λ _, quick_search) 1000;
   mk_wg_turn 4000 (λ _ _, true) (λ _, quick_search) 1000].
Definition wg_env : environment := λ key, if str_eqb key (lit "AETHER_SCAN") then Some (lit "turbo") else None.
Abbreviation wg_short_run :=
  (wg_run wg_env (lit "172.16.0.2") (lit "turbo") ScanV4 (wg_start wg_env (λ _ _, false) None None) wg_short_turns).

Definition first_endpoint : SocketAddr := SockAddr (V4 2728378369) 2408.
Definition second_endpoint : SocketAddr := SockAddr (V4 2728379137) 500.

Example wg_short_run_2 : wg_short_run !! 2%nat = Some (mk_done (Some first_endpoint) (Some second_endpoint)).
Proof. vm_compute. reflexivity. Qed.

Lemma wg_endpoint_rests_witness : gateway_used (mk_done (Some first_endpoint) (Some second_endpoint)) ≠ Some first_endpoint.
Proof.
  apply (wg_endpoint_rests wg_env eq_refl (lit "172.16.0.2") (lit "turbo") ScanV4 (λ _ _, false) None None wg_short_turns 2 2
           (mk_wg_turn 4000 (λ _ _, true) (λ _, quick_search) 1000) (mk_wg_turn 4000 (λ _ _, true) (λ _, quick_search) 1000)
           (mk_done (Some first_endpoint) (Some second_endpoint)) first_endpoint
           (mk_done (Some first_endpoint) (Some second_endpoint)));
    [| |exact wg_short_run_2|reflexivity|reflexivity|exact wg_short_run_2|reflexivity|lia|vm_compute; reflexivity].
  - intros t name Ht. unfold wg_short_turns in Ht. repeat (apply elem_of_cons in Ht as [->|Ht]; [exact quick_search_honest|]).
    by apply not_elem_of_nil in Ht.
  - intros [|[|[|k]]] [|[|[|l]]] a b Hkl; cbn; intros Ha Hb; try discriminate; try lia; injection Ha as <-; injection Hb as <-; cbn; lia.
Defined.

(** Two endpoints answer; the search before found one only. *)
Definition two_answer (cands : list candidate) : list hunt_round :=
  map (λ c, mk_round 10 (Item c (Ok 50) 10)) (take 2 cands) ++ [mk_round 20 StreamEnd].
Definition two_search : search := mk_search true (seqZ 0 400) 0 two_answer.

Lemma two_search_honest : honest two_search.
Proof.
  intros cands r c outcome at_ Hr Er. cbn in Hr. apply elem_of_app in Hr as [Hr|Hr].
  - apply elem_of_map in Hr as (c' & -> & Hc). injection Er as <- _ _. rewrite <- (take_drop 2 cands). set_solver.
  - apply list_elem_of_singleton in Hr as ->. discriminate.
Qed.

Definition gool_turns : list gool_turn :=
  [mk_gool_turn None None quick_search 1000; mk_gool_turn None None two_search 1000].

Lemma gool_hops_apart_witness :
  gool_run wg_env (lit "172.16.0.2") no_hops (hop_start no_hops) gool_turns
    = [None; Some (first_endpoint, second_endpoint)] ∧
  Forall (tunnel_ok no_hops) (gool_run wg_env (lit "172.16.0.2") no_hops (hop_start no_hops) gool_turns).
Proof.
  split; [vm_compute; reflexivity|]. apply (gool_hops_apart wg_env (lit "172.16.0.2") no_hops gool_turns).
  - vm_compute. reflexivity.
  - intros t Ht. unfold gool_turns in Ht. apply elem_of_cons in Ht as [->|Ht]; [exact quick_search_honest|].
    apply list_elem_of_singleton in Ht as ->. exact two_search_honest.
Defined.

Definition v6_env : environment := λ key,
  if str_eqb key (lit "AETHER_SCAN") then Some (lit "turbo")
  else if str_eqb key (lit "AETHER_IP") then Some (lit "6") else None.

(** The search finds the edge named for the inner hop: no tunnel is made. *)
Example mim_same_edge :
  let pinned := mk_hops None (Some first_gateway) in
  mim_run v6_env pinned (hop_start pinned) [mk_mim_turn None None quick_search [] true (λ _, true) 1000] = [None].
Proof. vm_compute. reflexivity. Qed.

Example mim_two_edges :
  mim_run v6_env no_hops (hop_start no_hops) [mk_mim_turn None None quick_search (seqZ 0 10) true (λ _, true) 1000]
  = [Some (first_gateway, SockAddr (V6 50543257672372983191996140479718621186) 443)].
Proof. vm_compute. reflexivity. Qed.
End Running.
