(* ===== verification/ApiCall.v ===== *)
(** * Calls to the WARP API

    src/aether/src/account.rs: the settings of the calls, the ways they go, and
    the loop of attempts ([api_call_by]).  What a request is answered with (the
    HTTPS client of Https) is an argument, as are serde_json's parser, the
    names of the HTTP status codes, and what the calls of a run remember. *)

From stdpp Require Import strings.
From S2P Require Import Prelude Text Net NetText Error Fragment Tls Dns Random Hops.

(** ** JSON values *)

Inductive Value :=
| VNull
| VBool (b : bool)
| VInt (z : Z)          (** a number without a fraction *)
| VFloat (text : bytes)
| VString (s : bytes)
| VArray (l : list Value)
| VObject (fields : list (bytes * Value)).

(** serde_json's parser. *)
Class JsonCrate := from_json : bytes → option Value.

Fixpoint field_of (key : bytes) (fields : list (bytes * Value)) : option Value :=
  match fields with
  | [] => None
  | (k, v) :: fields => if str_eqb k key then Some v else field_of key fields
  end.

(** [value.get(key)]. *)
Definition vget (v : Value) (key : bytes) : option Value :=
  match v with VObject fields => field_of key fields | _ => None end.

Definition is_boolean (v : Value) : bool := match v with VBool _ => true | _ => false end.
Definition as_array (v : Value) : option (list Value) := match v with VArray l => Some l | _ => None end.
Definition as_str (v : Value) : option bytes := match v with VString s => Some s | _ => None end.
Definition as_i64 (v : Value) : option Z :=
  match v with VInt z => if (- 2 ^ 63 <=? z) && (z <? 2 ^ 63) then Some z else None | _ => None end.
Definition as_u64 (v : Value) : option Z :=
  match v with VInt z => if (0 <=? z) && (z <? 2 ^ 64) then Some z else None | _ => None end.

(** ** Answers *)

Definition API_ATTEMPTS : Z := 5.
Definition API_BACKOFF_BASE_MS : Z := 900.
Definition API_BACKOFF_CAP_MS : Z := 15000.
Definition API_RETRY_AFTER_CAP_SECS : Z := 30.

Definition backoff_delay (attempt draw : Z) : Z :=
  let exponential := Z.min (API_BACKOFF_BASE_MS * 2 ^ Z.min attempt 5) (2 ^ 64 - 1) in
  let capped := Z.min exponential API_BACKOFF_CAP_MS in
  capped / 2 + (draw mod 2 ^ 32) mod (capped / 3 + 1).

(** [headers.get(RETRY_AFTER)], as text. *)
Definition retry_after (header : option bytes) : option Z :=
  raw ← header; seconds ← parse_u64 (trim raw); Some (1000 * Z.min seconds API_RETRY_AFTER_CAP_SECS).

Definition refuses_identity (status : Z) : bool := (status =? 401) || (status =? 404) || (status =? 410).

Definition is_server_error (status : Z) : bool := (500 <=? status) && (status <? 600).
Definition worth_retrying (status : Z) : bool := (status =? 429) || (status =? 408) || is_server_error status.
Definition is_success (status : Z) : bool := (200 <=? status) && (status <? 300).

(** [StatusCode::from_u16]. *)
Definition status_ok (status : Z) : bool := (100 <=? status) && (status <? 1000).

(** The wait before the attempt after [attempt]. *)
Definition retry_after_wait (attempt : Z) (asked : option Z) : option Z :=
  if attempt + 1 <? API_ATTEMPTS then asked else None.

Definition is_api_envelope `{JsonCrate} (body : bytes) : bool :=
  match from_json body with
  | Some value =>
      match vget value (lit "success"), vget value (lit "errors") with
      | Some s, Some e => is_boolean s && bool_decide (is_Some (as_array e))
      | _, _ => false
      end
  | None => false
  end.

(** An [i64] as it is displayed. *)
Definition show_i64 (z : Z) : bytes := if z <? 0 then 45 :: decimal (- z) else decimal z.

Definition extract_api_error `{JsonCrate} (body : bytes) : option bytes :=
  value ← from_json body; errors ← vget value (lit "errors"); errors ← as_array errors;
  let parts := map (λ entry,
    let message := default (lit "unknown") (v ← vget entry (lit "message"); as_str v) in
    match (v ← vget entry (lit "code"); as_i64 v) with
    | Some code => message ++ lit " (code " ++ show_i64 code ++ lit ")"
    | None => message
    end) errors in
  if is_empty parts then None else Some (join (lit "; ") parts).

(** The characters of a text, by the bytes they begin with. *)
Definition char_start (b : Z) : bool := negb ((128 <=? b) && (b <? 192)).
Definition char_count (s : bytes) : Z := blen (filter (λ b, char_start b = true) s).
Fixpoint take_chars (n : nat) (s : bytes) : bytes :=
  match s with
  | [] => []
  | b :: s =>
      if char_start b then match n with O => [] | S n => b :: take_chars n s end
      else b :: take_chars n s
  end.

Section rejection.
Context `{JsonCrate} (show_status : Z → bytes).

Definition describe_rejection (status : Z) (body : bytes) (names_differ : bool) : bytes :=
  let detail :=
    match extract_api_error body with
    | Some d => d
    | None =>
        let t := trim body in
        if is_empty t then lit "no details returned"
        else if char_count t >? 220 then take_chars 220 t ++ [226; 128; 166]
        else t
    end in
  let hint :=
    if (status =? 403) && names_differ then
      lit " (cloudflare refuses a call whose server name, --api-sni, and host, --api-host, differ; give them the same name)"
    else if status =? 403 then
      lit " (cloudflare refused this network; the address looks flagged, try again later, switch network, or import an existing identity)"
    else if status =? 429 then
      lit " (too many registrations from this address; wait a few minutes before trying again)"
    else [] in
  lit "status " ++ show_status status ++ lit ": " ++ detail ++ hint.
End rejection.

(** ** Settings *)

Definition API_HOST : bytes := lit "api.devices.cloudflare.com".
Definition API_FALLBACK_HOST : bytes := lit "api.cloudflareclient.com".
Definition API_FRONT_ADDRESSES : list bytes := map lit ["104.24.4.6"; "104.18.0.6"]%string.

Definition api_address (env : environment) : comp AetherError (option (bytes * Z)) :=
  let value := trim (default [] (env (lit "AETHER_API_ADDRESS"))) in
  if is_empty value then mret None
  else
    match host_and_port value 443 with
    | Some a => mret (Some a)
    | None => Err (EApi (lit "--api-address: " ++ value ++ lit " is no IP address or domain name, with or without a port"))
    end.

Definition api_name_of (flag value : bytes) : comp AetherError (option bytes) :=
  let value := trim value in
  if is_empty value then mret None
  else
    let name := default value (strip_suffix [46] value) in
    if ends_with [46] name || bool_decide (is_Some (parse_ip name)) || negb (valid_domain name)
    then Err (EApi (flag ++ lit ": " ++ value ++ lit " is no domain name"))
    else mret (Some name).

Definition api_host (env : environment) : comp AetherError (option bytes) :=
  api_name_of (lit "--api-host") (default [] (env (lit "AETHER_API_HOST"))).
Definition api_sni (env : environment) : comp AetherError (option bytes) :=
  api_name_of (lit "--api-sni") (default [] (env (lit "AETHER_API_SNI"))).

Definition check_api_settings (env : environment) : comp AetherError () :=
  _ ← api_address env; _ ← api_sni env; _ ← api_host env; mret tt.

(** ** Ways *)

Record ApiRoute := mk_route { r_host : bytes; r_sni : bytes; r_address : bytes; r_port : Z; r_front : bool }.

#[export] Instance ApiRoute_eq_dec : EqDecision ApiRoute.
Proof. solve_decision. Defined.

Definition route_by (address : option (bytes * Z)) (host sni : bytes) : ApiRoute :=
  let '(a, p) := default (sni, 443) address in mk_route host sni a p false.

Definition api_routes_of (host sni : option bytes) (address : option (bytes * Z)) (answered : option bytes) : list ApiRoute :=
  match host, sni with
  | None, None =>
      let names := if bool_decide (answered = Some API_FALLBACK_HOST) then [API_FALLBACK_HOST; API_HOST]
                   else [API_HOST; API_FALLBACK_HOST] in
      let routes := map (λ name, route_by address name name) names in
      match address with
      | None =>
          let name := if bool_decide (answered = Some API_FALLBACK_HOST) then API_FALLBACK_HOST else API_HOST in
          routes ++ map (λ edge, mk_route name name edge 443 true) API_FRONT_ADDRESSES
      | Some _ => routes
      end
  | _, _ =>
      let host := default API_HOST host in
      let sni := default host sni in
      [route_by address host sni]
  end.

(** What the calls of a run remember: the ECH key, the name and the edge the
    API answered by last. *)
Record api_memory := mk_memory { m_ech : option bytes; m_answered : option bytes; m_edge : option bytes }.

Definition forgotten : api_memory := mk_memory None None None.

(** [rotate_left(at)]. *)
Definition rotate_left {A} (at_ : nat) (l : list A) : list A := drop at_ l ++ take at_ l.

Definition api_routes (env : environment) (m : api_memory) : comp AetherError (list ApiRoute) :=
  host ← api_host env; sni ← api_sni env; address ← api_address env;
  let routes := api_routes_of host sni address (m_answered m) in
  match m_edge m with
  | Some edge =>
      match position (λ r, r_front r && str_eqb (r_address r) edge) routes with
      | Some at_ => mret (rotate_left at_ routes)
      | None => mret routes
      end
  | None => mret routes
  end.

(** The way after [way] that has not turned the call away. *)
Definition next_way (way : nat) (turned_away : list bool) : nat :=
  let n := length turned_away in
  default way (head (filter (λ next, turned_away !! next = Some false) (map (λ step, (way + step) mod n)%nat (seq 1 n)))).

(** ** The call *)

Record answer := mk_answer { a_status : Z; a_retry : option bytes; a_body : bytes }.

(** What a request over a way comes back with: the answer, or none, and the
    ECH key a server handed back. *)
Record reply := mk_reply { sent : comp AetherError answer; ech_after : option bytes }.

Section call.
Context `{JsonCrate} (show_status : Z → bytes) {AccountData : Type} (decode : bytes → comp bytes AccountData).
Context (env : environment) (routes : list ApiRoute) (label : bytes).

(** [asked] are the ways the requests so far went; the waits between them only
    take time. *)
Record call_state := mk_call {
  way : nat;
  turned_away : list bool;
  last_error : AetherError;
  ech : option bytes;
  memory : api_memory;
  asked : list nat;
}.

Definition several : bool := (1 <? length routes)%nat.

(** An answer of the API itself. *)
Definition from_api (a : answer) : bool := is_success (a_status a) || is_api_envelope (from_utf8_lossy (a_body a)).

(** The memory after an answer by [route]. *)
Definition remember (m : api_memory) (route : ApiRoute) (a : answer) : api_memory :=
  if several && from_api a then
    mk_memory (m_ech m) (Some (r_host route)) (if r_front route then Some (r_address route) else None)
  else m.

Definition all_turned (l : list bool) : bool := forallb (λ b, b) l.

(** An attempt: the state to go on with, or the end. *)
Definition api_attempt (s : call_state) (ask : ApiRoute → reply) : call_state + call_state * comp AetherError AccountData :=
  match routes !! way s with
  | None => inr (s, Panic)
  | Some route =>
      let rep := ask route in
      let e := match ech s with Some _ => match ech_after rep with Some k => Some k | None => ech s end | None => None end in
      let m := match e with Some key => mk_memory (Some key) (m_answered (memory s)) (m_edge (memory s)) | None => memory s end in
      let at_way w turned err m := mk_call w turned err e m (asked s ++ [way s]) in
      match sent rep with
      | Panic => inr (at_way (way s) (turned_away s) (last_error s) m, Panic)
      | Err error =>
          inl (at_way (next_way (way s) (turned_away s)) (turned_away s) (EApi (label ++ lit ": " ++ display error)) m)
      | Ok a =>
          if negb (status_ok (a_status a)) then
            let err := EApi (label ++ lit ": status " ++ decimal (a_status a)) in
            if several then
              let turned := <[way s := true]> (turned_away s) in
              if negb (all_turned turned) then inl (at_way (next_way (way s) turned) turned err m)
              else inr (at_way (way s) turned err m, Err err)
            else inr (at_way (way s) (turned_away s) err m, Err err)
          else
            let body := from_utf8_lossy (a_body a) in
            let api := from_api a in
            let m := remember m route a in
            if is_success (a_status a) then
              inr (at_way (way s) (turned_away s) (last_error s) m,
                   map_err (λ e, EApi (label ++ lit " decode: " ++ e ++ lit " (" ++ decimal (blen body) ++ lit " byte answer)"))
                     (decode body))
            else
              let described := label ++ lit ": "
                ++ describe_rejection show_status (a_status a) body (negb (str_eqb (r_sni route) (r_host route))) in
              let err :=
                if refuses_identity (a_status a) && (api || negb several || negb (a_status a =? 404))
                then EIdentityRefused described else EApi described in
              if several && negb api then
                if worth_retrying (a_status a) then
                  inl (at_way (next_way (way s) (turned_away s)) (turned_away s) err m)
                else
                  let turned := <[way s := true]> (turned_away s) in
                  if all_turned turned then inr (at_way (way s) turned err m, Err err)
                  else inl (at_way (next_way (way s) turned) turned err m)
              else if negb (worth_retrying (a_status a)) then inr (at_way (way s) (turned_away s) err m, Err err)
              else inl (at_way (way s) (turned_away s) err m)
      end
  end.

(** The attempts; [ask i] is the network at the i-th. *)
Fixpoint attempts (n : nat) (i : nat) (s : call_state) (ask : nat → ApiRoute → reply)
    : call_state * comp AetherError AccountData :=
  match n with
  | O => (s, Err (last_error s))
  | S n => match api_attempt s (ask i) with inl s => attempts n (S i) s ask | inr r => r end
  end.

(** [api_ech], given the lookup. *)
Definition api_ech `{Base64} (m : api_memory) (fetch : comp AetherError bytes) : comp AetherError (option bytes) * api_memory :=
  match env (lit "AETHER_ECH") with
  | None => (mret None, m)
  | Some [] => (mret None, m)
  | Some setting =>
      match m_ech m with
      | Some key => (mret (Some key), m)
      | None =>
          match ech_key API_ECH_OPTION (Some setting) fetch with
          | Ok (Some key) => (mret (Some key), mk_memory (Some key) (m_answered m) (m_edge m))
          | r => (r, m)
          end
      end
  end.

(** [mark]: the socket mark; [proxied]: there is an upstream proxy. *)
Definition api_call_by `{Base64} (mark : Z) (proxied : bool) (m : api_memory) (fetch : comp AetherError bytes)
    (ask : nat → ApiRoute → reply) : api_memory * list nat * comp AetherError AccountData :=
  let outside :=
    if negb (mark =? 0) && negb proxied then head (filter (λ r, parse_ip (r_address r) = None) routes) else None in
  match outside with
  | Some route =>
      (m, [], Err (EApi (label ++ lit ": " ++ r_address route
         ++ lit " would be looked up outside the socket mark, so the call would loop back into the tunnel; give --api-address an IP address")))
  | None =>
      match routes with
      | [] => (m, [], Err (EApi (label ++ lit ": no way to the API")))
      | _ =>
          let '(e, m) := api_ech m fetch in
          match e with
          | Ok e =>
              let s := mk_call 0 (replicate (length routes) false) (EApi (label ++ lit ": no attempt was made")) e m [] in
              let '(s, r) := attempts (Z.to_nat API_ATTEMPTS) 0 s ask in
              (memory s, asked s, r)
          | Err e => (m, [], Err e)
          | Panic => (m, [], Panic)
          end
      end
  end.

(** ** What a call ends with *)

(** What a reply by [route] says of the call. *)
Definition verdict (route : ApiRoute) (rep : reply) : comp AetherError AccountData :=
  match sent rep with
  | Panic => Panic
  | Err error => Err (EApi (label ++ lit ": " ++ display error))
  | Ok a =>
      if negb (status_ok (a_status a)) then Err (EApi (label ++ lit ": status " ++ decimal (a_status a)))
      else
        let body := from_utf8_lossy (a_body a) in
        if is_success (a_status a) then
          map_err (λ e, EApi (label ++ lit " decode: " ++ e ++ lit " (" ++ decimal (blen body) ++ lit " byte answer)")) (decode body)
        else
          let described := label ++ lit ": "
            ++ describe_rejection show_status (a_status a) body (negb (str_eqb (r_sni route) (r_host route))) in
          Err (if refuses_identity (a_status a) && (from_api a || negb several || negb (a_status a =? 404))
               then EIdentityRefused described else EApi described)
  end.

(** Another server than the API answered, and not to be asked again. *)
Definition turns_away (rep : reply) : bool :=
  match sent rep with
  | Ok a => negb (status_ok (a_status a)) || negb (from_api a) && negb (worth_retrying (a_status a))
  | _ => false
  end.

(** The API itself settled the call. *)
Definition settles (rep : reply) : bool :=
  match sent rep with
  | Ok a => status_ok (a_status a) && from_api a && negb (worth_retrying (a_status a))
  | _ => false
  end.

Lemma success_not_retried a : is_success (a_status a) = true → from_api a = true ∧ worth_retrying (a_status a) = false.
Proof. unfold from_api, is_success, worth_retrying, is_server_error. intros E. rewrite E. split; [done|]. lia. Qed.

Lemma all_turned_spec l : all_turned l = false ↔ ∃ i, l !! i = Some false.
Proof.
  unfold all_turned. split.
  - induction l as [|[] l IH]; cbn; [done| |by exists 0%nat]. intros [i Hi]%IH. by exists (S i).
  - intros [i Hi]. destruct (forallb (λ b, b) l) eqn:E; [|done]. rewrite forallb_forall in E.
    discriminate (E false). apply list_elem_of_In. by eapply list_elem_of_lookup_2.
Qed.

(** With a way left, the next way is one. *)
Lemma next_way_spec w (l : list bool) : (w < length l)%nat → (∃ i, l !! i = Some false) → l !! next_way w l = Some false.
Proof.
  intros Hw [i Hi]. unfold next_way. cbv zeta. set (n := length l).
  destruct (head _) as [x|] eqn:E.
  - assert (x ∈ filter (λ next, l !! next = Some false) (map (λ step, ((w + step) mod n)%nat) (seq 1 n))) as Hx
      by (destruct (filter _ _); [done|injection E as ->; by left]).
    by apply list_elem_of_filter in Hx as [Hx _].
  - exfalso. apply lookup_lt_Some in Hi as Hlt. assert (i ∈ filter (λ next, l !! next = Some false) (map (λ step, ((w + step) mod n)%nat) (seq 1 n))) as Hin.
    { apply list_elem_of_filter. split; [done|]. apply list_elem_of_In, in_map_iff.
      exists (if decide (i ≤ w)%nat then (n + i - w)%nat else (i - w)%nat). unfold n in *. split.
      - case_decide; [|replace (w + (i - w))%nat with i by lia; by apply Nat.mod_small].
        replace (w + (length l + i - w))%nat with (i + 1 * length l)%nat by lia. rewrite Nat.Div0.mod_add. by apply Nat.mod_small.
      - apply in_seq. case_decide; lia. }
    destruct (filter _ _); [by apply not_elem_of_nil in Hin|done].
Qed.

(** A call under way: the way it goes next has not turned it away. *)
Definition call_ok (s : call_state) : Prop :=
  length (turned_away s) = length routes ∧ turned_away s !! way s = Some false.

(** What the [i]-th attempt did, when the call goes on with [turned]. *)
Definition went_on (turned : list bool) (err : AetherError) (w : nat) (rep : reply) (route : ApiRoute) : Prop :=
  routes !! w = Some route ∧ settles rep = false ∧ verdict route rep = Err err ∧
  (turns_away rep = true → turned !! w = Some true).

Lemma api_attempt_spec s ask : call_ok s →
  ∃ route, routes !! way s = Some route ∧
  match api_attempt s ask with
  | inl s' => asked s' = asked s ++ [way s] ∧ call_ok s' ∧ went_on (turned_away s') (last_error s') (way s) (ask route) route ∧
      ∀ w, turned_away s !! w = Some true → turned_away s' !! w = Some true
  | inr (s', r) => asked s' = asked s ++ [way s] ∧ r = verdict route (ask route)
  end.
Proof.
  intros [Hlen Hway]. destruct (routes !! way s) as [route|] eqn:Er.
  2: { apply lookup_lt_Some in Hway. apply lookup_ge_None in Er. lia. }
  exists route. split; [done|]. unfold api_attempt, went_on, verdict, settles, turns_away. rewrite Er. cbv zeta.
  pose proof (lookup_lt_Some _ _ _ Hway) as Hlt.
  assert (∀ turned, length turned = length routes → (∃ i, turned !! i = Some false) →
    turned !! next_way (way s) turned = Some false) as Hnext by (intros turned Hl Hex; apply next_way_spec; [lia|done]).
  assert (∀ w, turned_away s !! w = Some true → (<[way s:=true]> (turned_away s)) !! w = Some true) as Hkeep.
  { intros w Hw. rewrite list_lookup_insert_ne; [done|]. intros <-. congruence. }
  destruct (sent (ask route)) as [a|error|].
  - destruct (status_ok (a_status a)) eqn:Eok; cbn [negb andb orb].
    + destruct (is_success (a_status a)) eqn:Es; [by split|].
      destruct (several && negb (from_api a)) eqn:Esev.
      * apply andb_true_iff in Esev as [Ese Eapi]. rewrite Ese in *. apply negb_true_iff in Eapi. rewrite Eapi in *. cbn [negb andb orb].
        destruct (worth_retrying (a_status a)) eqn:Ew; cbn [negb].
        -- split_and!; [done| |done..]. split; [done|]. cbn. apply Hnext; [done|eauto].
        -- destruct (all_turned (<[way s:=true]> (turned_away s))) eqn:Eall; [by split|].
           apply all_turned_spec in Eall. split_and!; [done| |done|done|done| |exact Hkeep].
           ++ split; cbn; [by rewrite length_insert|]. apply Hnext; [by rewrite length_insert|done].
           ++ intros _. cbn. by apply list_lookup_insert_eq.
      * destruct (worth_retrying (a_status a)) eqn:Ew; cbn [negb].
        -- rewrite andb_false_r. split_and!; [done|by split|done|done|done| |done]. by rewrite andb_false_r.
        -- by split.
    + destruct several eqn:Ese; [|by split].
      destruct (all_turned (<[way s:=true]> (turned_away s))) eqn:Eall; cbn [negb]; [by split|].
      apply all_turned_spec in Eall. split_and!; [done| |done|done|done| |exact Hkeep].
      * split; cbn; [by rewrite length_insert|]. apply Hnext; [by rewrite length_insert|done].
      * intros _. cbn. by apply list_lookup_insert_eq.
  - split_and!; [done| |done..]. split; [done|]. cbn. apply Hnext; [done|eauto].
  - by split.
Qed.

(** The attempts so far: each went on, and a way that turned the call away was
    not asked again. *)
Definition attempts_ok (s : call_state) (ask : nat → ApiRoute → reply) : Prop :=
  ∀ k w, asked s !! k = Some w → ∃ route err, went_on (turned_away s) err w (ask k route) route ∧
    (S k = length (asked s) → err = last_error s) ∧
    (turns_away (ask k route) = true → ∀ j, (k < j)%nat → asked s !! j ≠ Some w).

Lemma lookup_snoc_cases {A} (l : list A) x k y : (l ++ [x]) !! k = Some y → l !! k = Some y ∨ (k = length l ∧ y = x).
Proof.
  intros E. apply lookup_app_Some in E as [E|[Hk E]]; [by left|]. right.
  apply list_lookup_singleton_Some in E as [Hz ->]. split; [lia|done].
Qed.

(** One more attempt keeps what holds of those before. *)
Lemma not_asked_again s ws k w :
  call_ok s → asked s !! k = Some w → turned_away s !! w = Some true →
  (∀ j, (k < j)%nat → asked s !! j ≠ Some w) → ws = asked s ++ [way s] → ∀ j, (k < j)%nat → ws !! j ≠ Some w.
Proof.
  intros [_ Hway] Hk Ht Hj -> j Hlt E. apply lookup_snoc_cases in E as [E|[-> ->]]; [by eapply Hj|congruence].
Qed.

Lemma attempts_step s ask s' : call_ok s → attempts_ok s ask → api_attempt s (ask (length (asked s))) = inl s' →
  call_ok s' ∧ attempts_ok s' ask ∧ length (asked s') = S (length (asked s)).
Proof.
  intros Hok Hh E. destruct (api_attempt_spec s (ask (length (asked s))) Hok) as (route & Hr & Hs). rewrite E in Hs.
  destruct Hs as (Ea & Hok' & Hw & Hmono). split_and!; [done| |by rewrite Ea, length_app, Nat.add_1_r].
  intros k w Hk. rewrite Ea in Hk. apply lookup_snoc_cases in Hk as [Hk|[-> ->]].
  - destruct (Hh k w Hk) as (route' & err & (Hr' & Hset & Hv & Ht) & _ & Hj). exists route', err. split_and!.
    + split_and!; auto.
    + apply lookup_lt_Some in Hk. rewrite Ea, length_app. cbn. lia.
    + intros Hta. exact (not_asked_again s _ k w Hok Hk (Ht Hta) (Hj Hta) Ea).
  - exists route, (last_error s'). split_and!; [exact Hw|done|]. intros _ j Hlt Ej. rewrite Ea in Ej.
    apply lookup_lt_Some in Ej. rewrite length_app in Ej. cbn in Ej. lia.
Qed.

Lemma attempts_spec n s ask s' r :
  (0 < n + length (asked s))%nat → call_ok s → attempts_ok s ask → attempts n (length (asked s)) s ask = (s', r) →
  ∃ ws w route, asked s' = ws ++ [w] ∧ (length ws < n + length (asked s))%nat ∧ routes !! w = Some route ∧
    r = verdict route (ask (length ws) route) ∧
    (∀ k v, ws !! k = Some v → ∃ route, routes !! v = Some route ∧ settles (ask k route) = false ∧
       (turns_away (ask k route) = true → ∀ j, (k < j)%nat → asked s' !! j ≠ Some v)).
Proof.
  revert s. induction n as [|n IH]; intros s Hn Hok Hh; cbn [attempts].
  - intros [= <- <-]. destruct (asked s) as [|w ws _] eqn:Ea using rev_ind; [cbn in Hn; lia|].
    destruct (Hh (length ws) w) as (route & err & (Hr & _ & Hv & _) & Hlast & _).
    { rewrite Ea. by rewrite lookup_app_r, Nat.sub_diag by lia. }
    exists ws, w, route. rewrite <- Ea. split_and!; [done|rewrite Ea, length_app; cbn; lia|done| |].
    + rewrite Hv. f_equal. symmetry. apply Hlast. rewrite Ea, length_app. cbn. lia.
    + intros k v Hk. destruct (Hh k v) as (route' & err' & (Hr' & Hset & _ & _) & _ & Hj);
        [rewrite Ea; by apply lookup_app_l_Some|]. exists route'. by split_and!.
  - destruct (api_attempt s (ask (length (asked s)))) as [s1|[s1 r1]] eqn:E.
    + destruct (attempts_step _ _ _ Hok Hh E) as (Hok1 & Hh1 & Hl). rewrite <- Hl. intros Hrun.
      destruct (IH s1 ltac:(lia) Hok1 Hh1 Hrun) as (ws & w & route & ? & ? & ?). exists ws, w, route. split_and!; [done|lia|tauto..].
    + intros [= -> ->]. destruct (api_attempt_spec s (ask (length (asked s))) Hok) as (route & Hr & Hs). rewrite E in Hs.
      destruct Hs as [Ea ->]. exists (asked s), (way s), route. split_and!; [done|lia|done|done|].
      intros k v Hk. destruct (Hh k v Hk) as (route' & err & (Hr' & Hset & _ & Ht) & _ & Hj). exists route'.
      split_and!; [done|done|]. intros Hta. exact (not_asked_again s _ k v Hok Hk (Ht Hta) (Hj Hta) Ea).
Qed.

Lemma api_call_spec `{Base64} mark proxied m fetch ask m' ws r :
  api_call_by mark proxied m fetch ask = (m', ws, r) → ws ≠ [] →
  ∃ before w route, ws = before ++ [w] ∧ (length before < 5)%nat ∧ routes !! w = Some route ∧
    r = verdict route (ask (length before) route) ∧
    (∀ k v, before !! k = Some v → ∃ route, routes !! v = Some route ∧ settles (ask k route) = false ∧
       (turns_away (ask k route) = true → ∀ j, (k < j)%nat → ws !! j ≠ Some v)).
Proof.
  unfold api_call_by. cbv zeta. destruct (if _ && _ then _ else _) as [out|]; [by intros [= <- <- <-]|].
  destruct (match routes with [] => true | _ => false end) eqn:Er; [destruct routes; [by intros [= <- <- <-]|done]|].
  assert (routes ≠ []) as Hne by (by intros ->). clear Er.
  destruct (api_ech m fetch) as [e m1]. replace (match routes with [] => _ | _ :: _ => _ end) with
    (match e with
     | Ok e =>
         let s := mk_call 0 (replicate (length routes) false) (EApi (label ++ lit ": no attempt was made")) e m1 [] in
         let '(s, r) := attempts (Z.to_nat API_ATTEMPTS) 0 s ask in (memory s, asked s, r)
     | Err e => (m1, [], Err e)
     | Panic => (m1, [], Panic)
     end) by (by destruct routes).
  destruct e as [e|e|]; [|by intros [= <- <- <-]..]. cbv zeta. set (s := mk_call _ _ _ _ _ _).
  destruct (attempts (Z.to_nat API_ATTEMPTS) 0 s ask) as [s' r'] eqn:E. intros [= <- <- <-] _.
  destruct (attempts_spec (Z.to_nat API_ATTEMPTS) s ask s' r') as (before & w & route & Ea & Hb & Hr & Ev & Hbefore).
  - unfold API_ATTEMPTS. lia.
  - split; cbn; [by rewrite length_replicate|]. apply lookup_replicate. split; [done|]. destruct routes; [done|cbn; lia].
  - by intros k v Hk.
  - exact E.
  - exists before, w, route. split_and!; done.
Qed.

(** C14. A call to the WARP API ends as its last reply says, after five attempts at
    most, each over one of its ways.  Every reply before left the call open:
    no request follows a success or a refusal of the API that is not worth
    asking again, so that a device is not registered twice; and a way on which
    another server turned the call away is not taken again. *)
Theorem api_call_ends `{Base64} mark proxied m fetch ask m' ws r
  (Hrun : api_call_by mark proxied m fetch ask = (m', ws, r)) (Hasked : ws ≠ []) :
  ∃ before w route, ws = before ++ [w] ∧ (length before < 5)%nat ∧ routes !! w = Some route ∧
    r = verdict route (ask (length before) route) ∧
    (∀ k v, before !! k = Some v → ∃ route, routes !! v = Some route ∧ settles (ask k route) = false ∧
       (turns_away (ask k route) = true → ∀ j, (k < j)%nat → ws !! j ≠ Some v)).
Proof. by eapply api_call_spec. Qed.

(** C30. An identity counts as refused only on a refusal: the last answer had the
    status 401, 404 or 410, and a 404 came from the API itself unless the call
    has one way only; no page of another server, no timeout and no broken
    connection costs an identity. *)
Theorem refused_by_the_api `{Base64} mark proxied m fetch ask m' ws r text
  (Hrun : api_call_by mark proxied m fetch ask = (m', ws, r)) (Hrefused : r = Err (EIdentityRefused text))
  (Hasked : ws ≠ []) :
  ∃ w route a, last ws = Some w ∧ routes !! w = Some route ∧ sent (ask (length ws - 1)%nat route) = Ok a ∧
    (a_status a = 401 ∨ a_status a = 410 ∨
     a_status a = 404 ∧ (is_api_envelope (from_utf8_lossy (a_body a)) = true ∨ length routes = 1%nat)).
Proof.
  destruct (api_call_spec _ _ _ _ _ _ _ _ Hrun Hasked) as (before & w & route & -> & _ & Hr & Hv & _).
  exists w, route. rewrite length_app, last_snoc. cbn [length]. rewrite Nat.add_sub.
  rewrite Hrefused in Hv. unfold verdict in Hv. destruct (sent (ask (length before) route)) as [a|e|] eqn:Es; [|done..].
  exists a. split_and!; [done..|]. destruct (negb (status_ok (a_status a))); [done|]. cbv zeta in Hv.
  destruct (is_success (a_status a)) eqn:Esu; [unfold map_err in Hv; by destruct (decode _)|].
  destruct (refuses_identity (a_status a)) eqn:Eref; [|done]. cbn [andb] in Hv.
  destruct (from_api a || negb several || negb (a_status a =? 404)) eqn:Ec; [|done].
  unfold refuses_identity in Eref. unfold from_api in Ec. rewrite Esu in Ec. cbn [orb] in Ec.
  destruct (Z.eqb_spec (a_status a) 401); [by left|]. destruct (Z.eqb_spec (a_status a) 410); [right; by left|].
  destruct (Z.eqb_spec (a_status a) 404) as [E4|]; [|lia]. right. right. split; [done|].
  cbn [negb] in Ec. rewrite orb_false_r in Ec. apply orb_true_iff in Ec as [Ec|Ec]; [by left|right].
  unfold several in Ec. apply negb_true_iff, Nat.ltb_ge in Ec. apply lookup_lt_Some in Hr. lia.
Qed.
End call.

(** ** The way that answered *)

(** The ways of a run given their settings. *)
Definition routes_of (host sni : option bytes) (address : option (bytes * Z)) (m : api_memory) : list ApiRoute :=
  let routes := api_routes_of host sni address (m_answered m) in
  match m_edge m with
  | Some edge =>
      match position (λ r, r_front r && str_eqb (r_address r) edge) routes with
      | Some at_ => rotate_left at_ routes
      | None => routes
      end
  | None => routes
  end.

Lemma api_routes_eq env m routes : api_routes env m = Ok routes ↔
  ∃ host sni address, api_host env = Ok host ∧ api_sni env = Ok sni ∧ api_address env = Ok address ∧
    routes = routes_of host sni address m.
Proof.
  unfold api_routes. split.
  - destruct (api_host env) as [host| |]; cbn [mbind comp_bind]; [|done..].
    destruct (api_sni env) as [sni| |]; cbn [mbind comp_bind]; [|done..].
    destruct (api_address env) as [address| |]; cbn [mbind comp_bind]; [|done..]. intros E. exists host, sni, address.
    split_and!; [done..|]. unfold routes_of. cbv zeta in *. destruct (m_edge m); [destruct (position _ _)|]; by injection E.
  - intros (host & sni & address & -> & -> & -> & ->). cbn [mbind comp_bind]. unfold routes_of. cbv zeta.
    by destruct (m_edge m); [destruct (position _ _)|].
Qed.

Lemma elem_of_routes_of host sni address m ρ :
  ρ ∈ routes_of host sni address m → ρ ∈ api_routes_of host sni address (m_answered m).
Proof.
  unfold routes_of. cbv zeta. destruct (m_edge m); [destruct (position _ _) as [at_|]|]; [|done..].
  unfold rotate_left. set (l' := api_routes_of _ _ _ _). clearbody l'. rewrite <- (take_drop at_ l') at 3. rewrite !elem_of_app. tauto.
Qed.

Lemma routes_of_length host sni address m :
  length (routes_of host sni address m) = length (api_routes_of host sni address (m_answered m)).
Proof.
  unfold routes_of. cbv zeta. destruct (m_edge m); [destruct (position _ _) as [at_|]|]; [|done..].
  unfold rotate_left. rewrite length_app, Nat.add_comm, <- length_app. by rewrite take_drop.
Qed.

(** The way by which the API answered a call is the first of the next call of
    the run, whatever the settings and whatever the run remembered before. *)
Theorem answered_way_first `{JsonCrate} env m routes ρ a
  (Hroutes : api_routes env m = Ok routes) (Hin : ρ ∈ routes) (Hapi : from_api a = true) :
  ∃ rest, api_routes env (remember routes m ρ a) = Ok (ρ :: rest).
Proof.
  apply api_routes_eq in Hroutes as (host & sni & address & Eh & Es & Ea & ->).
  assert (∃ rest, routes_of host sni address (remember (routes_of host sni address m) m ρ a) = ρ :: rest) as [rest Hrest].
  2: { exists rest. apply api_routes_eq. exists host, sni, address. by split_and!. }
  unfold remember, several. rewrite Hapi, andb_true_r, routes_of_length. apply elem_of_routes_of in Hin.
  destruct host as [h|], sni as [n|]; try (cbn in Hin; apply list_elem_of_singleton in Hin as ->; exists [];
    unfold routes_of; cbn [m_edge m_answered api_routes_of length Nat.ltb Nat.leb]; destruct (m_edge m);
    cbn [position]; unfold route_by; destruct (default _ address); done).
  unfold routes_of at 1.
  destruct address as [[addr port]|]; cbn [api_routes_of] in Hin |- *;
    destruct (bool_decide (m_answered m = Some API_FALLBACK_HOST));
    repeat (apply elem_of_cons in Hin as [->|Hin]; [eexists; vm_compute; reflexivity|]); by apply not_elem_of_nil in Hin.
Qed.

(** The backoff grows from under a second and stays under thirteen. *)
Lemma backoff_bounds attempt draw : 0 ≤ attempt → 450 ≤ backoff_delay attempt draw ≤ 12500.
Proof.
  intros Ha. unfold backoff_delay, API_BACKOFF_BASE_MS, API_BACKOFF_CAP_MS. cbv zeta.
  change (2 ^ 64 - 1) with 18446744073709551615.
  set (e := 900 * 2 ^ Z.min attempt 5). assert (900 ≤ e) as He.
  { unfold e. pose proof (Z.pow_pos_nonneg 2 (Z.min attempt 5) ltac:(lia) ltac:(lia)). lia. }
  clearbody e. set (c := Z.min (Z.min e 18446744073709551615) 15000). assert (900 ≤ c ≤ 15000) as Hc by (unfold c; lia). clearbody c.
  pose proof (Z.div_mod c 3 ltac:(lia)). pose proof (Z.mod_pos_bound c 3 ltac:(lia)).
  pose proof (Z.div_mod c 2 ltac:(lia)). pose proof (Z.mod_pos_bound c 2 ltac:(lia)).
  pose proof (Z.mod_pos_bound (draw mod 2 ^ 32) (c / 3 + 1) ltac:(lia)). lia.
Qed.

(** ** Calls *)
Module Calls.

(** A parser that knows one text: an envelope of the API. *)
#[local] Instance one_text : JsonCrate := λ s,
  if str_eqb s (lit "refused") then Some (VObject [(lit "success", VBool false); (lit "errors", VArray [])]) else None.
#[local] Instance no_base64 : Base64 := λ s, Ok s.
Definition plain_status (s : Z) : bytes := decimal s.
Definition no_env : environment := λ _, None.
Definition default_routes : list ApiRoute := api_routes_of None None None None.

(** No answer on the first way, a page of another server on the second, then
    the API's refusal. *)
Definition network : nat → ApiRoute → reply := λ i _,
  match i with
  | O => mk_reply (Err (EOther (lit "timed out"))) None
  | 1%nat => mk_reply (Ok (mk_answer 404 None (lit "<html>"))) None
  | _ => mk_reply (Ok (mk_answer 404 None (lit "refused"))) None
  end.

Abbreviation the_call :=
  (api_call_by plain_status (AccountData := ()) (λ _, Ok tt) no_env default_routes (lit "device refresh") 0 false forgotten
     (Ok []) network).

Example the_call_is : the_call
  = (mk_memory None (Some API_HOST) (Some (lit "104.24.4.6")), [0; 1; 2]%nat,
     Err (EIdentityRefused (lit "device refresh: status 404: refused"))).
Proof. vm_compute. reflexivity. Qed.

Lemma api_call_ends_witness : ∃ before w, [0; 1; 2]%nat = before ++ [w] ∧ (length before < 5)%nat.
Proof.
  destruct (api_call_ends plain_status (AccountData := ()) (λ _, Ok tt) no_env default_routes (lit "device refresh") 0 false
    forgotten (Ok []) network _ _ _ the_call_is) as (before & w & _ & E & Hlen & _); [discriminate|].
  exists before, w. split; [exact E|exact Hlen].
Defined.

Lemma refused_by_the_api_witness :
  ∃ w route a, last [0; 1; 2]%nat = Some w ∧ default_routes !! w = Some route ∧ sent (network 2 route) = Ok a ∧
    (a_status a = 401 ∨ a_status a = 410 ∨
     a_status a = 404 ∧ (is_api_envelope (from_utf8_lossy (a_body a)) = true ∨ length default_routes = 1%nat)).
Proof.
  apply (refused_by_the_api plain_status (AccountData := ()) (λ _, Ok tt) no_env default_routes (lit "device refresh") 0 false
    forgotten (Ok []) network _ _ _ (lit "device refresh: status 404: refused") the_call_is); [reflexivity|discriminate].
Defined.

Lemma answered_way_first_witness :
  ∃ rest, api_routes no_env (remember default_routes forgotten (mk_route API_HOST API_HOST (lit "104.24.4.6") 443 true)
                               (mk_answer 404 None (lit "refused")))
          = Ok (mk_route API_HOST API_HOST (lit "104.24.4.6") 443 true :: rest).
Proof.
  apply (answered_way_first no_env forgotten default_routes (mk_route API_HOST API_HOST (lit "104.24.4.6") 443 true)
           (mk_answer 404 None (lit "refused"))).
  - vm_compute. reflexivity.
  - by_decision.
  - vm_compute. reflexivity.
Defined.
End Calls.
