(* ===== verification/ZeroTrust.v ===== *)
(** * Signing in to an organisation

    src/aether/src/zerotrust.rs: the team a device is enrolled in, the tokens
    of its sign-in page, and the ways to get one.  The HTTP client, the prompt
    and the clock are arguments; serde_json's parser and base64's URL-safe
    engine are parameters. *)

From stdpp Require Import strings.
From S2P Require Import Prelude Text Net NetText Error Fragment Random Hops ApiCall.

(** The [base64] crate's [URL_SAFE_NO_PAD] engine. *)
Class Base64Url := url_decode : bytes → option bytes.

Definition TEAM_SUFFIX : bytes := lit "cloudflareaccess.com".
Definition ENROLL_PATH : bytes := lit "/warp".
Definition CODE_ATTEMPTS : Z := 3.
Definition INSTALL_ID_LEN : nat := 22.
Definition FCM_SUFFIX_LEN : nat := 134.

(** ** The team *)

Definition team_char (c : Z) : bool := is_ascii_alphanumeric c || (c =? 45) || (c =? 95).

Definition or_same (value : bytes) (stripped : option bytes) : bytes := default value stripped.

(** The name in a URL, a domain or by itself. *)
Definition team_of (value : bytes) : bytes :=
  let value := or_same value (strip_prefix (lit "https://") value) in
  let value := or_same value (strip_prefix (lit "http://") value) in
  let value := trim_end_matches 47 value in
  let value := default value (head (split 47 value)) in
  match strip_suffix TEAM_SUFFIX value with Some h => trim_end_matches 46 h | None => value end.

Definition normalize_team `{UnicodeCase} (raw : bytes) : option bytes :=
  let value := to_lowercase (trim raw) in
  if is_empty value then None
  else
    let value := team_of value in
    if is_empty value then None
    else if negb (forallb team_char value) then None
    else Some value.

Definition team_domain (team : bytes) : bytes := lit "https://" ++ team ++ lit "." ++ TEAM_SUFFIX.

Record TeamSettings := mk_team {
  team : bytes;
  client_id : option bytes;
  client_secret : option bytes;
  token : option bytes;
  email : option bytes;
}.

Definition team_settings `{UnicodeCase} (env : environment) : option TeamSettings :=
  team ← normalize_team (default [] (env (lit "AETHER_TEAM")));
  Some (mk_team team (env_value env (lit "AETHER_ACCESS_CLIENT_ID")) (env_value env (lit "AETHER_ACCESS_CLIENT_SECRET"))
          (env_value env (lit "AETHER_ACCESS_TOKEN")) (env_value env (lit "AETHER_ACCESS_EMAIL"))).

Definition has_service_token (s : TeamSettings) : bool :=
  bool_decide (is_Some (client_id s)) && bool_decide (is_Some (client_secret s)).

Definition login_url (s : TeamSettings) : bytes := team_domain (team s) ++ ENROLL_PATH.

(** ** Tokens *)

Definition jwt_char (c : Z) : bool := is_ascii_alphanumeric c || (c =? 46) || (c =? 45) || (c =? 95).

Section tokens.
Context `{Base64Url} `{JsonCrate}.

Definition looks_like_jwt (raw : bytes) : bool :=
  let t := trim raw in
  if blen t <? 32 then false
  else
    match split 46 t with
    | [a; b; c] =>
        negb (is_empty a) && negb (is_empty b) && negb (is_empty c) && forallb jwt_char t
        && bool_decide (is_Some (url_decode a))
    | _ => false
    end.

Definition jwt_expiry (t : bytes) : option Z :=
  match split 46 t with
  | [_; b; _] => payload ← url_decode b; value ← from_json payload; e ← vget value (lit "exp"); as_u64 e
  | _ => None
  end.

Definition jwt_expired (t : bytes) (now : Z) : bool :=
  match jwt_expiry t with Some exp => exp <=? now | None => false end.

(** Up to a quote, an ampersand, a bracket or white space. *)
Fixpoint until_delimiter (s : bytes) : bytes :=
  match s with
  | [] => []
  | x :: r =>
      if bool_decide (x ∈ [34; 39; 38; 60]) || bool_decide (is_Some (strip_any white_space s)) then []
      else x :: until_delimiter r
  end.

Definition extract_jwt_from_html (html : bytes) : option bytes :=
  '(_, rest) ← split_at_first (lit "token=") html;
  let candidate := trim (until_delimiter rest) in
  if looks_like_jwt candidate then Some candidate else None.

Definition cookie_value (entry : bytes) : option bytes :=
  match strip_prefix (lit "CF_Authorization=") entry with
  | Some v => Some v
  | None => strip_prefix (lit "cf_authorization=") entry
  end.

(** A part that is not the cookie ends the search. *)
Fixpoint jwt_of_parts (parts : list bytes) : option bytes :=
  match parts with
  | [] => None
  | part :: parts =>
      value ← cookie_value (trim part);
      if looks_like_jwt value then Some value else jwt_of_parts parts
  end.
Definition extract_jwt_from_cookie (header : bytes) : option bytes := jwt_of_parts (split 59 header).
End tokens.

(** ** Text of pages *)

(** [char::from_u32], and a character's UTF-8. *)
Definition from_u32 (c : Z) : option Z :=
  if (c <? 1114112) && negb ((55296 <=? c) && (c <? 57344)) then Some c else None.
Definition encode_char (c : Z) : bytes :=
  if c <? 128 then [c]
  else if c <? 2048 then [192 + c / 64; 128 + c mod 64]
  else if c <? 65536 then [224 + c / 4096; 128 + (c / 64) mod 64; 128 + c mod 64]
  else [240 + c / 262144; 128 + (c / 4096) mod 64; 128 + (c / 64) mod 64; 128 + c mod 64].

Definition entity (e : bytes) : option Z :=
  if str_eqb e (lit "amp") then Some 38
  else if str_eqb e (lit "lt") then Some 60
  else if str_eqb e (lit "gt") then Some 62
  else if str_eqb e (lit "quot") then Some 34
  else if str_eqb e (lit "apos") || str_eqb e (lit "#39") then Some 39
  else
    let hex := match strip_prefix (lit "#x") e with Some h => Some h | None => strip_prefix (lit "#X") e end in
    let code :=
      match (h ← hex; parse_hex (2 ^ 32 - 1) h) with
      | Some c => Some c
      | None => d ← strip_prefix [35] e; parse_u32 d
      end in
    c ← code; from_u32 c.

(** The loop of [decode_entities]; the text gets shorter each time. *)
Fixpoint decode_entities_go (fuel : nat) (rest : bytes) : bytes :=
  match fuel with
  | O => rest
  | S fuel =>
      match split_at_first [38] rest with
      | None => rest
      | Some (before, after) =>
          before ++
          match find [59] (38 :: after) with
          | Some end_ =>
              if end_ <=? 8 then
                match entity (takez (end_ - 1) after) with
                | Some c => encode_char c ++ decode_entities_go fuel (dropz end_ after)
                | None => 38 :: decode_entities_go fuel after
                end
              else 38 :: decode_entities_go fuel after
          | None => 38 :: decode_entities_go fuel after
          end
      end
  end.
Definition decode_entities (raw : bytes) : bytes := decode_entities_go (length raw) raw.

(** What comes before the last occurrence and what after. *)
Definition rsplit_at (p s : bytes) : option (bytes * bytes) :=
  match split_at_first (reverse p) (reverse s) with
  | Some (b, a) => Some (reverse a, reverse b)
  | None => None
  end.

Definition extract_totp_form_action (html : bytes) : option bytes :=
  '(head, tail) ← split_at_first (lit "id=" ++ [34] ++ lit "totp-form" ++ [34]) html;
  '(_, in_form) ← rsplit_at (lit "<form") head;
  let from_form := lit "<form" ++ in_form ++ lit "id=" ++ [34] ++ lit "totp-form" ++ [34] ++ tail in
  '(tag, _) ← split_at_first [62] from_form;
  '(_, rest) ← split_at_first (lit "action=") tag;
  let rest := trim_start rest in
  match rest with
  | quote :: body =>
      if (quote =? 39) || (quote =? 34) then
        '(raw, _) ← split_at_first [quote] body;
        let action := decode_entities raw in
        if starts_with (lit "https://") action then Some action else None
      else None
  | [] => None
  end.

(** [percent_decode], over the bytes. *)
Fixpoint percent_decode_go (fuel : nat) (s : bytes) : bytes :=
  match fuel, s with
  | O, _ | _, [] => []
  | S fuel, 37 :: a :: b :: r =>
      let hex := default [] (from_utf8 [a; b]) in
      match parse_hex 255 hex with
      | Some byte => byte :: percent_decode_go fuel r
      | None => 37 :: percent_decode_go fuel (a :: b :: r)
      end
  | S fuel, 43 :: r => 32 :: percent_decode_go fuel r
  | S fuel, x :: r => x :: percent_decode_go fuel r
  end.
Definition percent_decode (raw : bytes) : bytes := from_utf8_lossy (percent_decode_go (length raw) raw).

(** A pair without an equals sign ends the search. *)
Fixpoint value_of_pairs (key : bytes) (pairs : list bytes) : option bytes :=
  match pairs with
  | [] => None
  | p :: pairs =>
      '(name, value) ← split_once 61 p;
      if str_eqb name key then Some (percent_decode value) else value_of_pairs key pairs
  end.
Definition query_value (url key : bytes) : option bytes :=
  '(_, query) ← split_once 63 url; value_of_pairs key (split 38 query).

(** ** Random identifiers *)

Definition ALPHANUM : bytes := lit "abcdefghijklmnopqrstuvwxyzABCDEFGHIJKLMNOPQRSTUVWXYZ0123456789".
Definition random_alphanumeric (len : nat) : rnd bytes :=
  times len (i ← rnd_range 0 (blen ALPHANUM - 1); mret (nth (Z.to_nat i) ALPHANUM 0)).
Definition generate_install_id : rnd bytes := random_alphanumeric INSTALL_ID_LEN.
Definition generate_fcm_token (install_id : bytes) : rnd bytes :=
  s ← random_alphanumeric FCM_SUFFIX_LEN; mret (install_id ++ lit ":APA91b" ++ s).

(** ** Signing in *)

(** What a page comes back with: where it ended, its status, its text. *)
Record page := mk_page { page_url : bytes; page_status : Z; page_text : comp bytes bytes }.

Record EmailSignIn := mk_signin { si_team : bytes; si_email : bytes; nonce : bytes; verify_url : bytes }.

Inductive CodeOutcome := Token (t : bytes) | Rejected (status : Z).

(** The requests: each is given what was asked for and answers. *)
Record site := mk_site {
  landing : bytes → comp bytes page;
  send_code : bytes → bytes → comp bytes page;          (** URL and address *)
  callback : bytes → bytes → bytes → comp bytes page;   (** URL, code, nonce *)
  enrol : bytes → bytes → comp bytes (Z * list bytes * bytes);  (** status, cookies, text; by id and secret *)
}.

Section sign_in.
Context `{Base64Url} `{JsonCrate} (show_status : Z → bytes) (w : site).

Definition request_email_code (verify_url email : bytes) (fallback_url : option bytes) : comp AetherError (option bytes) :=
  sent ← map_err (λ e, EApi (lit "requesting a login code: " ++ e)) (send_code w verify_url email);
  if negb (is_success (page_status sent)) then
    Err (EApi (lit "cloudflare refused to send a login code (status " ++ show_status (page_status sent) ++ lit ")"))
  else
    mret (match query_value (page_url sent) (lit "nonce") with
          | Some n => Some n
          | None => url ← fallback_url; query_value url (lit "nonce")
          end).

Definition begin_email_signin (s : TeamSettings) (email : bytes) : comp AetherError EmailSignIn :=
  let email := trim email in
  if is_empty email then Err (EApi (lit "an email address is needed to request a login code"))
  else
    l ← map_err (λ e, EApi (lit "enrolment page: " ++ e)) (landing w (login_url s));
    body ← map_err (λ e, EApi (lit "enrolment page body: " ++ e)) (page_text l);
    verify_url ← ok_or (extract_totp_form_action body)
      (EApi (lit "team " ++ team s ++ lit " does not offer an email one-time code on its enrolment page; use a service token or sign in at "
               ++ login_url s));
    n ← request_email_code verify_url email (Some (page_url l));
    nonce ← ok_or n (EApi (lit "cloudflare did not return a nonce for the login code; the enrolment flow may have changed"));
    mret (mk_signin (team s) email nonce verify_url).

(** [resend_code]: a new nonce takes the place of the old one. *)
Definition resend_code (si : EmailSignIn) : comp AetherError EmailSignIn :=
  n ← request_email_code (verify_url si) (si_email si) None;
  mret (mk_signin (si_team si) (si_email si) (default (nonce si) n) (verify_url si)).

Definition submit_code (si : EmailSignIn) (code : bytes) : comp AetherError CodeOutcome :=
  let code := trim code in
  if is_empty code then Err (EApi (lit "no login code was entered"))
  else
    confirmed ← map_err (λ e, EApi (lit "confirming the login code: " ++ e))
      (callback w (team_domain (si_team si) ++ lit "/cdn-cgi/access/callback") code (nonce si));
    body ← map_err (λ e, EApi (lit "callback body: " ++ e)) (page_text confirmed);
    mret (match extract_jwt_from_html body with
          | Some t => Token t
          | None => Rejected (page_status confirmed)
          end).

(** The attempts at a code; [prompt i] is what is entered at the i-th. *)
Fixpoint code_attempts (n : nat) (i : Z) (si : EmailSignIn) (last_status : option Z) (prompt : Z → comp AetherError bytes)
    : comp AetherError bytes :=
  match n with
  | O =>
      Err (EApi (lit "the login code was not accepted after " ++ decimal CODE_ATTEMPTS ++ lit " attempts (last status "
                   ++ match last_status with Some s => decimal s | None => lit "unknown" end
                   ++ lit "); request a fresh code and try again"))
  | S n =>
      code ← prompt i; outcome ← submit_code si code;
      match outcome with
      | Token t => mret t
      | Rejected status => code_attempts n (i + 1) si (Some status) prompt
      end
  end.

Definition fetch_token_with_email_code (s : TeamSettings) (email : bytes) (prompt : Z → comp AetherError bytes)
    : comp AetherError bytes :=
  si ← begin_email_signin s email; code_attempts (Z.to_nat CODE_ATTEMPTS) 1 si None prompt.

Fixpoint first_cookie (cookies : list bytes) : option bytes :=
  match cookies with
  | [] => None
  | c :: cookies => match extract_jwt_from_cookie c with Some t => Some t | None => first_cookie cookies end
  end.

Definition fetch_token_with_service_token (s : TeamSettings) : comp AetherError bytes :=
  id ← ok_or (client_id s) (EApi (lit "missing access client id"));
  secret ← ok_or (client_secret s) (EApi (lit "missing access client secret"));
  r ← map_err (λ e, EApi (lit "access request: " ++ e)) (enrol w id secret);
  let '(status, cookies, body) := r in
  match first_cookie cookies with
  | Some t => mret t
  | None =>
      match extract_jwt_from_html body with
      | Some t => mret t
      | None =>
          Err (EApi (lit "access did not return a device enrolment token (status " ++ show_status status
                       ++ lit "); confirm the service token has Service Auth device enrolment permission for team " ++ team s))
      end
  end.

Definition sign_in (s : TeamSettings) (now : Z) (prompt : Z → comp AetherError bytes) : comp AetherError bytes :=
  match token s with
  | Some t =>
      if negb (looks_like_jwt t) then
        Err (EApi (lit "the supplied access token is not a jwt; copy the value that follows token= on the enrolment page"))
      else if jwt_expired t now then
        Err (EApi (lit "the supplied access token has expired; sign in again to get a fresh one"))
      else mret t
  | None =>
      if has_service_token s then fetch_token_with_service_token s
      else
        match email s with
        | Some e => fetch_token_with_email_code s e prompt
        | None =>
            Err (EApi (lit "team " ++ team s
              ++ lit " needs a way to sign in. pick one: a service token via AETHER_ACCESS_CLIENT_ID and AETHER_ACCESS_CLIENT_SECRET, an email one-time code via AETHER_ACCESS_EMAIL, or a token you already hold via AETHER_ACCESS_TOKEN (sign in at "
              ++ login_url s ++ lit ")"))
        end
  end.

(** ** The token of the session *)

Definition resolve_token (s : TeamSettings) (now : Z) (prompt : Z → comp AetherError bytes) (cache : option bytes)
    : comp AetherError bytes * option bytes :=
  let fresh cache :=
    match sign_in s now prompt with
    | Ok t => (mret t, Some t)
    | r => (r, cache)
    end in
  match cache with
  | Some t => if negb (jwt_expired t now) then (mret t, cache) else fresh None
  | None => fresh None
  end.

Definition store_token (raw : bytes) (now : Z) (cache : option bytes) : comp AetherError () * option bytes :=
  let t := trim raw in
  if negb (looks_like_jwt t) then
    (Err (EApi (lit "that value is not a jwt; copy the value that follows token= on the enrolment page")), cache)
  else if jwt_expired t now then
    (Err (EApi (lit "that token has already expired; sign in again to get a fresh one")), cache)
  else (mret tt, Some t).

Definition cached_token (now : Z) (cache : option bytes) : option bytes :=
  t ← cache; if jwt_expired t now then None else Some t.

(** What is done to the token. *)
Inductive token_op :=
| Resolve (s : TeamSettings) (now : Z) (prompt : Z → comp AetherError bytes)
| Store (raw : bytes) (now : Z)
| Clear.

Definition token_step (cache : option bytes) (op : token_op) : option bytes :=
  match op with
  | Resolve s now prompt => (resolve_token s now prompt cache).2
  | Store raw now => (store_token raw now cache).2
  | Clear => None
  end.

(** ** What is held as a token *)

Lemma html_jwt html t : extract_jwt_from_html html = Some t → looks_like_jwt t = true.
Proof.
  unfold extract_jwt_from_html. destruct (split_at_first _ html) as [[a rest]|]; cbn [mbind option_bind]; [|done].
  destruct (looks_like_jwt _) eqn:E; [|done]. by intros [= <-].
Qed.

Lemma cookie_jwt header t : extract_jwt_from_cookie header = Some t → looks_like_jwt t = true.
Proof.
  unfold extract_jwt_from_cookie. generalize (split 59 header) as parts. induction parts as [|p parts IH]; cbn; [done|].
  destruct (cookie_value (trim p)) as [v|]; cbn [mbind option_bind]; [|done].
  destruct (looks_like_jwt v) eqn:E; [by intros [= <-]|done].
Qed.

Lemma code_attempts_jwt n i si last prompt t : code_attempts n i si last prompt = Ok t → looks_like_jwt t = true.
Proof.
  revert i last. induction n as [|n IH]; intros i last; cbn [code_attempts]; [done|].
  destruct (prompt i) as [code| |]; cbn [mbind comp_bind]; [|done..].
  destruct (submit_code si code) as [[t'|st]| |] eqn:Es; cbn [mbind comp_bind]; [|by apply IH|done..].
  intros [= <-]. unfold submit_code in Es. cbv zeta in Es. destruct (is_empty _); [done|].
  destruct (callback w _ _ _) as [p| |]; cbn [map_err mbind comp_bind] in Es; [|done..].
  destruct (page_text p) as [body| |]; cbn [map_err mbind comp_bind] in Es; [|done..].
  destruct (extract_jwt_from_html body) as [t0|] eqn:E; [|done]. injection Es as <-. by apply html_jwt in E.
Qed.

Lemma sign_in_jwt s now prompt t : sign_in s now prompt = Ok t → looks_like_jwt t = true.
Proof.
  unfold sign_in. destruct (token s) as [t0|].
  { destruct (looks_like_jwt t0) eqn:E; cbn [negb]; [|done]. destruct (jwt_expired t0 now); [done|]. by intros [= <-]. }
  destruct (has_service_token s).
  - unfold fetch_token_with_service_token. destruct (client_id s) as [id|]; cbn [ok_or mbind comp_bind]; [|done].
    destruct (client_secret s) as [secret|]; cbn [ok_or mbind comp_bind]; [|done].
    destruct (enrol w id secret) as [[[st cookies] body]| |]; cbn [map_err mbind comp_bind]; [|done..].
    destruct (first_cookie cookies) as [t0|] eqn:E.
    + intros [= <-]. induction cookies as [|c cookies IH]; cbn in E; [done|].
      destruct (extract_jwt_from_cookie c) as [t1|] eqn:Ec; [injection E as <-; by apply cookie_jwt in Ec|by apply IH].
    + destruct (extract_jwt_from_html body) as [t0|] eqn:Eh; [|done]. intros [= <-]. by apply html_jwt in Eh.
  - destruct (email s) as [e|]; [|done]. unfold fetch_token_with_email_code.
    destruct (begin_email_signin s e) as [si| |]; cbn [mbind comp_bind]; [|done..]. apply code_attempts_jwt.
Qed.

Lemma resolve_token_cases s now prompt cache :
  let '(r, cache') := resolve_token s now prompt cache in
  match r with
  | Ok t => cache' = Some t ∧ (cache = Some t ∧ jwt_expired t now = false ∨ sign_in s now prompt = Ok t)
  | _ => cache' = None
  end.
Proof.
  unfold resolve_token. cbv zeta. destruct cache as [t|].
  - destruct (jwt_expired t now) eqn:E; cbn [negb]; [|split; [done|by left]].
    destruct (sign_in s now prompt) eqn:Es; [split; [done|by right]|done..].
  - destruct (sign_in s now prompt) eqn:Es; [split; [done|by right]|done..].
Qed.

(** The token of a session is always one: whatever was signed in, stored and
    forgotten before, the token that is held looks like a JWT, the one handed
    out is held from then on, was held and has not expired or comes from a
    sign-in of now, and none that has expired is shown. *)
Theorem session_token (ops : list token_op) (s : TeamSettings) (now : Z) (prompt : Z → comp AetherError bytes) :
  let cache := foldl token_step None ops in
  (∀ t, cache = Some t → looks_like_jwt t = true) ∧
  (∀ t, (resolve_token s now prompt cache).1 = Ok t →
     looks_like_jwt t = true ∧ (resolve_token s now prompt cache).2 = Some t ∧
     (cache = Some t ∧ jwt_expired t now = false ∨ sign_in s now prompt = Ok t)) ∧
  (∀ t, cached_token now cache = Some t → cache = Some t ∧ jwt_expired t now = false).
Proof.
  cbv zeta. set (cache := foldl token_step None ops).
  assert (∀ t, cache = Some t → looks_like_jwt t = true) as Hc.
  { unfold cache. clear cache. induction ops as [|op ops IH] using rev_ind; [done|]. rewrite foldl_snoc.
    set (c := foldl token_step None ops) in *. clearbody c. intros t. destruct op as [s' now' prompt'|raw now'|]; cbn [token_step].
    - pose proof (resolve_token_cases s' now' prompt' c) as Hr. destruct (resolve_token s' now' prompt' c) as [[t'| |] c']; cbn.
      + destruct Hr as [-> [[Hcc _]|Hs]]; intros [= <-]; [by apply IH|by eapply sign_in_jwt].
      + by subst.
      + by subst.
    - unfold store_token. cbv zeta. destruct (looks_like_jwt (trim raw)) eqn:E; cbn [negb snd]; [|by apply IH].
      destruct (jwt_expired _ _); cbn [snd]; [by apply IH|]. by intros [= <-].
    - done. }
  split_and!; [done| |].
  - intros t Et. pose proof (resolve_token_cases s now prompt cache) as Hr.
    destruct (resolve_token s now prompt cache) as [r c']. cbn in Et. subst r. destruct Hr as [-> Hcases].
    split_and!; [|done|done]. destruct Hcases as [[? _]|?]; [by apply Hc|by eapply sign_in_jwt].
  - intros t. unfold cached_token. destruct cache as [t'|]; cbn [mbind option_bind]; [|done].
    destruct (jwt_expired t' now) eqn:E; [done|]. by intros [= <-].
Qed.
End sign_in.

(** ** The name of a team *)

(** Lowercasing leaves no capital. *)
Class LowercaseOk `{UnicodeCase} : Prop :=
  unicode_lowercase_lower s : forallb (λ c, negb (is_ascii_uppercase c)) (unicode_lowercase s) = true.

Definition lower_char (c : Z) : bool := negb (is_ascii_uppercase c).
Definition name_ok (t : bytes) : bool := negb (is_empty t) && forallb team_char t && forallb lower_char t.

Section part.
Context (f : Z → bool).

Lemma forallb_part a s b : forallb f (a ++ s ++ b) = true → forallb f s = true.
Proof. rewrite !forallb_app, !andb_true_iff. tauto. Qed.

Lemma strip_prefix_part p s : forallb f s = true → forallb f (or_same s (strip_prefix p s)) = true.
Proof.
  intros Hs. destruct (strip_prefix p s) as [r|] eqn:E; cbn [or_same from_option]; unfold id; [|done]. apply strip_prefix_Some in E as ->.
  rewrite forallb_app, andb_true_iff in Hs. apply Hs.
Qed.

Lemma trim_end_part c s : forallb f s = true → forallb f (trim_end_matches c s) = true.
Proof.
  destruct (trim_end_matches_prefix c s) as (t & E & _). intros Hs. rewrite E, forallb_app, andb_true_iff in Hs. apply Hs.
Qed.

Lemma split_head_part c s : forallb f s = true → forallb f (default s (head (split c s))) = true.
Proof.
  unfold split. induction s as [|x s IH]; [done|]. cbn [split_by forallb]. rewrite andb_true_iff. intros [Hx Hs].
  specialize (IH Hs). destruct (x =? c); [done|]. pose proof (split_by_not_nil (λ y, y =? c) s) as Hn.
  destruct (split_by _ s) as [|a l]; [done|]. cbn in *. by rewrite Hx.
Qed.

Lemma team_of_part s : forallb f s = true → forallb f (team_of s) = true.
Proof.
  intros Hs. unfold team_of. cbv zeta.
  pose proof (split_head_part 47 _ (trim_end_part 47 _ (strip_prefix_part (lit "http://") _ (strip_prefix_part (lit "https://") _ Hs)))) as Hv.
  set (v := default _ _) in *. clearbody v. destruct (strip_suffix TEAM_SUFFIX v) as [h|] eqn:E; [|done].
  apply trim_end_part. apply strip_suffix_Some in E as ->. rewrite forallb_app, andb_true_iff in Hv. apply Hv.
Qed.
End part.

Lemma lowercase_lower `{LowercaseOk} s : forallb lower_char (to_lowercase s) = true.
Proof.
  unfold to_lowercase. destruct (forallb is_ascii s); [|apply unicode_lowercase_lower].
  unfold to_ascii_lowercase. induction s as [|x s IH]; [done|]. cbn [map forallb]. rewrite IH, andb_true_r.
  unfold lower_char, ascii_lower, is_ascii_uppercase. destruct ((65 <=? x) && (x <=? 90)) eqn:E; lia.
Qed.

Lemma normalize_name_ok `{LowercaseOk} raw t : normalize_team raw = Some t → name_ok t = true.
Proof.
  unfold normalize_team. cbv zeta. destruct (is_empty (to_lowercase (trim raw))); [done|].
  pose proof (team_of_part lower_char _ (lowercase_lower (trim raw))) as Hl. set (v := team_of _) in *. clearbody v.
  destruct (is_empty v) eqn:En; [done|]. destruct (forallb team_char v) eqn:Et; cbn [negb]; [|done]. intros [= <-].
  unfold name_ok. by rewrite En, Et, Hl.
Qed.

Lemma ascii_lower_id s : forallb lower_char s = true → to_ascii_lowercase s = s.
Proof.
  unfold to_ascii_lowercase. induction s as [|x s IH]; [done|]. cbn [forallb map]. rewrite andb_true_iff. intros [Hx Hs].
  rewrite IH by done. f_equal. unfold ascii_lower. unfold lower_char in Hx. by destruct (is_ascii_uppercase x).
Qed.

Definition without (c : Z) (s : bytes) : Prop := forallb (λ x, negb (x =? c)) s = true.

Lemma without_strip c p s : c ∈ p → without c s → strip_prefix p s = None ∧ strip_suffix p s = None.
Proof.
  intros Hc Hs. unfold without in Hs. rewrite forallb_forall in Hs.
  assert (∀ a b, s = a ++ p ++ b → False) as Hno.
  { intros a b E. specialize (Hs c). rewrite Z.eqb_refl in Hs. discriminate Hs. apply list_elem_of_In. rewrite E. set_solver. }
  split.
  - destruct (strip_prefix p s) as [r|] eqn:E; [|done]. apply strip_prefix_Some in E. by destruct (Hno [] r).
  - destruct (strip_suffix p s) as [r|] eqn:E; [|done]. apply strip_suffix_Some in E. destruct (Hno r []). by rewrite app_nil_r.
Qed.

Lemma name_chars t : name_ok t = true →
  t ≠ [] ∧ forallb graphic t = true ∧ forallb is_ascii t = true ∧ forallb lower_char t = true ∧
  without 46 t ∧ without 47 t ∧ without 58 t.
Proof.
  unfold name_ok. rewrite !andb_true_iff. intros [[Hn Ht] Hl].
  assert (∀ p, (∀ c, team_char c = true → p c = true) → forallb p t = true) as Hall
    by (intros p Hp; eapply forallb_impl; [|exact Ht]; exact Hp).
  split_and!; [by destruct t| | |done| | |]; apply Hall; intros c; unfold team_char, graphic, is_ascii,
    is_ascii_alphanumeric, is_ascii_alphabetic, is_ascii_uppercase, is_ascii_lowercase, is_ascii_digit; lia.
Qed.

Lemma trim_end_keep c t : t ≠ [] → without c t → trim_end_matches c t = t.
Proof.
  intros Hn Hw. destruct t as [|x t _] using rev_ind; [done|]. apply trim_end_matches_id. unfold without in Hw.
  rewrite forallb_app, andb_true_iff in Hw. cbn in Hw. destruct (x =? c); [lia|done].
Qed.

Lemma trim_end_snoc c t : trim_end_matches c (t ++ [c]) = trim_end_matches c t.
Proof. unfold trim_end_matches. rewrite reverse_app. cbn. by rewrite Z.eqb_refl. Qed.

Lemma team_of_name t : name_ok t = true → team_of t = t.
Proof.
  intros (Hn & _ & _ & _ & H46 & H47 & H58)%name_chars. unfold team_of, or_same. cbv zeta.
  rewrite (proj1 (without_strip 58 (lit "https://") t ltac:(by_decision) H58)). cbn [default from_option]. unfold id.
  rewrite (proj1 (without_strip 58 (lit "http://") t ltac:(by_decision) H58)). cbn [default from_option]. unfold id.
  rewrite trim_end_keep by done. unfold split. rewrite split_nosep by exact H47. cbn [head from_option]. unfold id.
  by rewrite (proj2 (without_strip 46 TEAM_SUFFIX t ltac:(by_decision) H46)).
Qed.

Lemma team_of_url t : name_ok t = true → team_of (team_domain t ++ ENROLL_PATH) = t.
Proof.
  intros (Hn & _ & _ & _ & H46 & H47 & H58)%name_chars. unfold team_of, or_same, team_domain. cbv zeta.
  rewrite <- !app_assoc. set (u := t ++ lit "." ++ TEAM_SUFFIX ++ ENROLL_PATH).
  rewrite (proj2 (strip_prefix_Some (lit "https://") _ u) eq_refl). cbn [default from_option]. unfold id.
  assert (u = (t ++ lit "." ++ TEAM_SUFFIX) ++ 47 :: lit "warp") as Eu by (unfold u; by rewrite <- !app_assoc).
  assert (without 47 (t ++ lit "." ++ TEAM_SUFFIX)) as Hw
    by (unfold without in *; rewrite forallb_app, H47; by vm_compute).
  assert (strip_prefix (lit "http://") u = None) as Eh.
  { destruct (strip_prefix (lit "http://") u) as [r|] eqn:E; [|done]. apply strip_prefix_Some in E. exfalso.
    pose proof (split_once_app 47 (t ++ lit "." ++ TEAM_SUFFIX) (lit "warp") Hw) as E1.
    pose proof (split_once_app 47 (lit "http:") (47 :: r) eq_refl) as E2.
    change (lit "http:" ++ 47 :: 47 :: r) with (lit "http://" ++ r) in E2. rewrite <- E in E2. rewrite Eu, E1 in E2.
    apply (f_equal (λ o, default [] (fst <$> o))) in E2. cbn [fmap option_fmap option_map fst from_option id] in E2.
    assert (46 ∈ lit "http:") as Hin by (rewrite <- E2; apply elem_of_app; right; by left).
    revert Hin. by_decision. }
  rewrite Eh. cbn [default from_option]. unfold id.
  assert (trim_end_matches 47 u = u) as ->.
  { assert (u = (t ++ lit "." ++ TEAM_SUFFIX ++ lit "/war") ++ [112]) as -> by (unfold u; by rewrite <- !app_assoc).
    by apply trim_end_matches_id. }
  rewrite Eu. unfold split. rewrite split_by_app_sep, split_nosep by (exact Hw || done). cbn [app head from_option]. unfold id.
  rewrite (proj2 (strip_suffix_Some TEAM_SUFFIX _ (t ++ lit "."))) by (by rewrite <- app_assoc).
  change (lit ".") with [46]. rewrite trim_end_snoc. by apply trim_end_keep.
Qed.

(** The name of a team is what identifies it: it has letters, digits, dashes
    and underscores only, so that it is no path and no host of its own, it is
    its own name, and the page its devices sign in at names it again. *)
Theorem team_name_roundtrip `{LowercaseOk} (raw t : bytes) (s : TeamSettings)
  (Hname : normalize_team raw = Some t) (Hteam : team s = t) :
  t ≠ [] ∧ forallb team_char t = true ∧ normalize_team t = Some t ∧ normalize_team (login_url s) = Some t.
Proof.
  apply normalize_name_ok in Hname as Hok. pose proof Hok as (Hn & Hg & Ha & Hl & _)%name_chars.
  assert (forallb team_char t = true) as Ht by (unfold name_ok in Hok; rewrite !andb_true_iff in Hok; apply Hok).
  assert (is_empty t = false) as He by (by destruct t). clear Hname.
  assert (∀ v, v ≠ [] → forallb graphic v = true → forallb is_ascii v = true → forallb lower_char v = true → team_of v = t →
    normalize_team v = Some t) as Hnorm.
  { intros v Hv Hgv Hav Hlv Ev. unfold normalize_team. cbv zeta. rewrite trim_graphic by done.
    rewrite to_lowercase_ascii, ascii_lower_id by done. destruct (is_empty v) eqn:E; [by destruct v|]. by rewrite Ev, He, Ht. }
  split_and!; [done|done|apply Hnorm; try done; by apply team_of_name|].
  unfold login_url. rewrite Hteam. apply Hnorm; [|unfold team_domain; rewrite !forallb_app..|by apply team_of_url].
  - unfold team_domain. by destruct t.
  - by rewrite Hg.
  - by rewrite Ha.
  - by rewrite Hl.
Qed.

(** ** Text of a page *)

(** How a page writes a text in an attribute. *)
Definition escape_char (c : Z) : bytes :=
  if c =? 38 then lit "&amp;"
  else if c =? 60 then lit "&lt;"
  else if c =? 62 then lit "&gt;"
  else if c =? 34 then lit "&quot;"
  else if c =? 39 then lit "&#39;"
  else [c].
Definition escape (s : bytes) : bytes := flat_map escape_char s.

Lemma decode_plain fuel x r : x ≠ 38 → decode_entities_go fuel (x :: r) = x :: decode_entities_go fuel r.
Proof.
  intros Hx. destruct fuel as [|fuel]; [done|]. cbn [decode_entities_go].
  assert (split_at_first [38] (x :: r) = match split_at_first [38] r with Some (a, b) => Some (x :: a, b) | None => None end) as ->.
  { cbn [split_at_first strip_prefix]. destruct (Z.eqb_spec 38 x); [congruence|done]. }
  by destruct (split_at_first [38] r) as [[a b]|].
Qed.

Lemma decode_entity fuel name c r : entity name = Some c → without 59 name → (length name ≤ 7)%nat →
  decode_entities_go (S fuel) (38 :: name ++ 59 :: r) = encode_char c ++ decode_entities_go fuel r.
Proof.
  intros He Hw Hl. cbn [decode_entities_go]. assert (split_at_first [38] (38 :: name ++ 59 :: r) = Some ([], name ++ 59 :: r)) as -> by done.
  assert (find [59] (38 :: name ++ 59 :: r) = Some (1 + blen name)) as ->.
  { unfold find. pose proof (split_once_app 59 (38 :: name) r) as E. unfold split_once in E. change (38 :: name ++ 59 :: r) with ((38 :: name) ++ 59 :: r).
    rewrite E; [|unfold without in Hw; cbn; done]. by rewrite blen_cons. }
  destruct (Z.leb_spec (1 + blen name) 8); [|unfold blen in *; lia].
  replace (1 + blen name - 1) with (blen name) by lia. assert (takez (blen name) (name ++ 59 :: r) = name) as ->.
  { unfold takez, blen. rewrite Nat2Z.id. apply take_app_length. }
  rewrite He. assert (dropz (1 + blen name) (name ++ 59 :: r) = r) as ->; [|done].
  unfold dropz, blen. replace (Z.to_nat (1 + Z.of_nat (length name))) with (length name + 1)%nat by lia.
  change (name ++ 59 :: r) with (name ++ [59] ++ r). by rewrite drop_app_add.
Qed.

(** Decoding undoes the escaping of pages: a text written with entities reads
    back as it was. *)
Theorem entities_roundtrip (s : bytes) : decode_entities (escape s) = s.
Proof.
  unfold decode_entities. assert (∀ fuel, (length (escape s) ≤ fuel)%nat → decode_entities_go fuel (escape s) = s) as Hgen;
    [|by apply Hgen].
  induction s as [|x s IH]; intros fuel Hf; [by destruct fuel|]. cbn [escape flat_map] in *. fold (escape s) in *.
  assert (∀ name c, escape_char x = 38 :: name ++ [59] → c = x → entity name = Some c → without 59 name → (length name ≤ 7)%nat →
    encode_char c = [c] → decode_entities_go fuel (escape_char x ++ escape s) = x :: s) as Hent.
  { intros name c E -> He Hw Hl Hc. rewrite E in *. destruct fuel as [|fuel]; [cbn in Hf; lia|].
    replace ((38 :: name ++ [59]) ++ escape s) with (38 :: name ++ 59 :: escape s) by (cbn; by rewrite <- app_assoc).
    rewrite decode_entity with (c := x) by done. rewrite Hc. cbn [app]. f_equal. apply IH.
    rewrite length_app in Hf. cbn in Hf. lia. }
  destruct (decide (x = 38)) as [->|H1]; [apply (Hent (lit "amp") 38); done || (cbn; lia)|].
  destruct (decide (x = 60)) as [->|H2]; [apply (Hent (lit "lt") 60); done || (cbn; lia)|].
  destruct (decide (x = 62)) as [->|H3]; [apply (Hent (lit "gt") 62); done || (cbn; lia)|].
  destruct (decide (x = 34)) as [->|H4]; [apply (Hent (lit "quot") 34); done || (cbn; lia)|].
  destruct (decide (x = 39)) as [->|H5]; [apply (Hent (lit "#39") 39); done || (cbn; lia)|].
  assert (escape_char x = [x]) as E
    by (unfold escape_char; by rewrite !(proj2 (Z.eqb_neq x _)) by done). rewrite E in *. cbn [app] in *.
  rewrite decode_plain by done. f_equal. apply IH. cbn in Hf. lia.
Qed.

(** ** Sign-ins *)
Module SignIns.

#[local] Instance ascii_only : UnicodeCase := to_ascii_lowercase.
#[local] Instance ascii_only_ok : LowercaseOk.
Proof.
  intros s. unfold unicode_lowercase, ascii_only, to_ascii_lowercase. induction s as [|x s IH]; [done|]. cbn [map forallb].
  rewrite IH, andb_true_r. unfold ascii_lower, is_ascii_uppercase. destruct ((65 <=? x) && (x <=? 90)) eqn:E; lia.
Qed.

Definition my_org : TeamSettings := mk_team (lit "my-org") None None None None.

Lemma team_name_roundtrip_witness :
  normalize_team (lit "https://My-Org.cloudflareaccess.com/") = Some (lit "my-org") ∧
  normalize_team (login_url my_org) = Some (lit "my-org").
Proof.
  split; [vm_compute; reflexivity|].
  apply (team_name_roundtrip (lit "https://My-Org.cloudflareaccess.com/") (lit "my-org") my_org); vm_compute; reflexivity.
Defined.

(** A parameter without a value hides those after it. *)
Example nonce_hidden :
  query_value (lit "https://a/b?nonce=x%2By&flag") (lit "nonce") = Some (lit "x+y") ∧
  query_value (lit "https://a/b?flag&nonce=x%2By") (lit "nonce") = None.
Proof. by vm_compute. Qed.

Example form_action :
  extract_totp_form_action (lit "<form method=post action='https://a/?x=1&amp;y=2' id=" ++ [34] ++ lit "totp-form" ++ [34] ++ lit ">")
  = Some (lit "https://a/?x=1&y=2").
Proof. by vm_compute. Qed.
End SignIns.
