(* ===== verification/Identities.v ===== *)
(** * Identities: how a device is registered, kept and used again

    src/aether/src/account.rs (what the API's answers make of an identity),
    config.rs (the file an identity is kept in) and the routines of lib.rs that
    load an identity or register a new one.  They are programs over a world:
    the files, the calls made to the API so far and what the process keeps.
    The API, the disk, the key generators, the clock, the crates toml and
    base64 are parameters. *)

From stdpp Require Import strings gmap.
From S2P Require Import Prelude Text Net NetText Error Fragment Tls Upstream Hops ApiCall ZeroTrust.

(** ** Data *)

Record Peer := mk_peer { public_key : bytes; endpoint_v4 : bytes }.

(** The fields the core reads. *)
Record AccountData := mk_account {
  id : bytes; acc_token : bytes;
  addr_v4 : bytes; addr_v6 : bytes; peers : list Peer; acc_client_id : bytes; http_proxy : bytes;
  acc_organization : bytes;
}.

Record Identity := mk_identity {
  device_id : bytes; access_token : bytes;
  cert_pem : bytes; key_pem : bytes; cert_issued_at : Z;
  ipv4 : bytes; ipv6 : bytes;
  wg_private_key : bytes; wg_peer_public_key : bytes; id_client_id : bytes;
  organization : bytes; gateway_proxy : bytes; assigned_endpoint : bytes;
  refused : bool;
}.

Record PersistedIdentity := mk_persisted {
  p_device_id : bytes; p_access_token : bytes;
  p_cert_pem : bytes; p_key_pem : bytes; p_cert_issued_at : Z;
  p_ipv4 : bytes; p_ipv6 : bytes;
  p_wg_private_key : bytes; p_wg_peer_public_key : bytes; p_client_id : bytes;
  p_organization : bytes; p_gateway_proxy : bytes; p_assigned_endpoint : bytes;
}.

Definition with_refused (i : Identity) (b : bool) : Identity :=
  mk_identity (device_id i) (access_token i) (cert_pem i) (key_pem i) (cert_issued_at i) (ipv4 i) (ipv6 i)
    (wg_private_key i) (wg_peer_public_key i) (id_client_id i) (organization i) (gateway_proxy i) (assigned_endpoint i) b.

Definition with_cert (i : Identity) (cert key : bytes) (issued : Z) : Identity :=
  mk_identity (device_id i) (access_token i) cert key issued (ipv4 i) (ipv6 i)
    (wg_private_key i) (wg_peer_public_key i) (id_client_id i) (organization i) (gateway_proxy i) (assigned_endpoint i) (refused i).

(** toml's reader and writer; an error is its text. *)
Class TomlCrate := {
  toml_encode : PersistedIdentity → comp bytes bytes;
  toml_decode : bytes → comp bytes PersistedIdentity;
}.

(** What is written reads back. *)
Class TomlCrateOk `{TomlCrate} : Prop :=
  toml_roundtrip p s : toml_encode p = Ok s → toml_decode s = Ok p ∧ utf8 s.

(** What base64 encodes it decodes; four characters for every three bytes. *)
Class Base64Ok `{Base64} `{Base64Encode} : Prop := {
  base64_roundtrip b : base64_decode (base64_encode b) = Ok b;
  base64_length b : blen (base64_encode b) = 4 * ((blen b + 2) / 3);
}.

(** ** Certificates *)

Definition MASQUE_CERT_LIFETIME_SECS : Z := 365 * 86400.
Definition MASQUE_CERT_RENEW_BEFORE_SECS : Z := 7 * 86400.

Definition masque_cert_expiring (now issued_at : Z) : bool :=
  (issued_at =? 0) || (now <? issued_at) || (now - issued_at + MASQUE_CERT_RENEW_BEFORE_SECS >=? MASQUE_CERT_LIFETIME_SECS).

Definition cert_still_usable (now : Z) (i : Identity) : bool :=
  negb (is_empty (cert_pem i) || is_empty (key_pem i)) && negb (cert_issued_at i =? 0) && negb (now <? cert_issued_at i)
  && (now - cert_issued_at i <? MASQUE_CERT_LIFETIME_SECS).

Definition has_masque_credentials (now : Z) (i : Identity) : bool :=
  negb (is_empty (cert_pem i)) && negb (is_empty (key_pem i)) && negb (masque_cert_expiring now (cert_issued_at i)).

(** ** Answers of the API *)

Definition endpoint_from (reg : AccountData) : bytes :=
  let raw := match peers reg with p :: _ => trim (endpoint_v4 p) | [] => [] end in
  match rsplit_once 58 raw with
  | Some (host, _) => if is_empty host then raw else host
  | None => raw
  end.

Section account.
Context `{Base64}.

Definition extract_wg_peer (reg : AccountData) : comp AetherError bytes :=
  match peers reg with
  | [] => Err (EApi (lit "no peers in registration response"))
  | p :: _ =>
      decoded ← map_err (λ e, EApi (lit "decode peer pubkey: " ++ e)) (base64_decode (public_key p));
      if negb (blen decoded =? 32) then Err (EApi (lit "invalid peer pubkey length")) else mret decoded
  end.

Definition client_id_of (text : bytes) : bytes :=
  match base64_decode text with Ok d => if blen d =? 3 then d else [0; 0; 0] | _ => [0; 0; 0] end.

Definition finish_provision (reg : AccountData) (wg_private : bytes) : comp AetherError Identity :=
  if is_empty (acc_token reg) then Err (EApi (lit "registration returned empty token"))
  else
    peer ← extract_wg_peer reg;
    let cid := if is_empty (acc_client_id reg) then [0; 0; 0] else client_id_of (acc_client_id reg) in
    mret (mk_identity (id reg) (acc_token reg) [] [] 0 (addr_v4 reg) (addr_v6 reg) wg_private peer cid
            (trim (acc_organization reg)) (trim (http_proxy reg)) (endpoint_from reg) false).

(** The profile the API has now. *)
Definition refreshed (i : Identity) (reg : AccountData) : Identity :=
  let v4 := trim (addr_v4 reg) in
  let v6 := trim (addr_v6 reg) in
  mk_identity (device_id i) (access_token i) (cert_pem i) (key_pem i) (cert_issued_at i)
    (if is_empty v4 then ipv4 i else v4) (if is_empty v6 then ipv6 i else v6)
    (wg_private_key i) (wg_peer_public_key i) (id_client_id i)
    (trim (acc_organization reg)) (trim (http_proxy reg)) (endpoint_from reg) false.

(** ** The file of an identity *)

Definition decode_fixed (n : Z) (field value : bytes) : comp AetherError bytes :=
  decoded ← map_err (λ e, EOther (lit "config field " ++ field ++ lit " is not valid base64: " ++ e)) (base64_decode value);
  if negb (blen decoded =? n) then
    Err (EOther (lit "config field " ++ field ++ lit " must decode to " ++ decimal n ++ lit " bytes, found " ++ decimal (blen decoded)))
  else mret decoded.

Definition identity_of (p : PersistedIdentity) : comp AetherError Identity :=
  priv ← decode_fixed 32 (lit "wg_private_key") (p_wg_private_key p);
  pub ← decode_fixed 32 (lit "wg_peer_public_key") (p_wg_peer_public_key p);
  let cid :=
    if is_empty (p_client_id p) then [0; 0; 0]
    else match decode_fixed 3 (lit "client_id") (p_client_id p) with Ok c => c | _ => [0; 0; 0] end in
  mret (mk_identity (p_device_id p) (p_access_token p) (p_cert_pem p) (p_key_pem p) (p_cert_issued_at p) (p_ipv4 p) (p_ipv6 p)
          priv pub cid (p_organization p) (p_gateway_proxy p) (p_assigned_endpoint p) false).

Definition persisted `{Base64Encode} (i : Identity) : PersistedIdentity :=
  mk_persisted (device_id i) (access_token i) (from_utf8_lossy (cert_pem i)) (from_utf8_lossy (key_pem i)) (cert_issued_at i)
    (ipv4 i) (ipv6 i) (base64_encode (wg_private_key i)) (base64_encode (wg_peer_public_key i)) (base64_encode (id_client_id i))
    (organization i) (gateway_proxy i) (assigned_endpoint i).
End account.

(** ** Paths *)

(** A path's directory, up to its last slash or backslash, and its name. *)
Definition path_separator (c : Z) : bool := (c =? 47) || (c =? 92).
Fixpoint split_dir (s : bytes) : bytes * bytes :=
  match s with
  | [] => ([], [])
  | x :: r =>
      let '(d, n) := split_dir r in
      if is_empty d then if path_separator x then ([x], n) else ([], x :: n) else (x :: d, n)
  end.

Definition derive_sibling_path (base suffix : bytes) : bytes :=
  let '(d, n) := split_dir base in
  match rsplit_once 46 n with
  | Some (stem, ext) => d ++ stem ++ lit "-" ++ suffix ++ lit "." ++ ext
  | None => base ++ lit "-" ++ suffix
  end.

Section paths.
Context `{!UnicodeCase} (env : environment).

Definition team_scope : option bytes := team <$> team_settings env.

Definition warp_config_path (base : bytes) : bytes :=
  match env (lit "AETHER_WG_CONFIG") with
  | Some p => p
  | None => match team_scope with Some t => derive_sibling_path base (lit "team-" ++ t) | None => base end
  end.

Definition masque_config_path (base : bytes) : bytes :=
  match env (lit "AETHER_MASQUE_CONFIG") with
  | Some p => p
  | None =>
      match team_scope with
      | Some t => derive_sibling_path base (lit "team-" ++ t)
      | None => derive_sibling_path base (lit "masque")
      end
  end.

Definition gool_identity_path (masque_config : bytes) : bytes := derive_sibling_path masque_config (lit "gool").
Definition lastconn_path (config_path : bytes) : bytes := derive_sibling_path config_path (lit "lastconn").
Definition secondary_path (path : bytes) : bytes := derive_sibling_path path (lit "secondary").

Definition keep_saved_identity : bool :=
  negb (bool_decide (env (lit "AETHER_REPROVISION") ∈ map (λ s, Some (lit s)) ["0"; "off"; "false"]%string)).

End paths.

(** The order of strings, and [sort]. *)
Fixpoint str_leb (a b : bytes) : bool :=
  match a, b with
  | [], _ => true
  | _ :: _, [] => false
  | x :: a, y :: b => if x =? y then str_leb a b else x <? y
  end.
Fixpoint insert_name (x : bytes) (l : list bytes) : list bytes :=
  match l with
  | [] => [x]
  | y :: l => if str_leb x y then x :: y :: l else y :: insert_name x l
  end.

(** The team a file name of the directory of [base] is the identity of. *)
Definition enrolled_team (base name : bytes) : option bytes :=
  let n := (split_dir base).2 in
  let stem := match rsplit_once 46 n with Some (stem, _) => stem | None => n end in
  rest ← strip_prefix (stem ++ lit "-team-") name;
  t ← strip_suffix (lit ".toml") rest;
  if is_empty t || ends_with (lit "-secondary") t || ends_with (lit "-lastconn") t then None else Some t.

(** [names]: the files of the directory. *)
Definition enrolled_teams (base : bytes) (names : list bytes) : list bytes :=
  foldr insert_name [] (foldl (λ l t, if bool_decide (t ∈ l) then l else l ++ [t]) [] (omap (enrolled_team base) names)).

(** ** The world *)

Inductive call :=
| CRegister (jwt : option bytes)
| CFetch (device : bytes)
| CEnroll (device spki : bytes)
| CEnable (device : bytes).

Record world := mk_world {
  files : gmap bytes bytes;
  calls : list call;
  not_enabled : option Identity;     (** [GOOL_NOT_ENABLED] *)
  team_endpoint : option bytes;      (** AETHER_TEAM_ENDPOINT *)
  gateway : option bytes;            (** the HTTP gateway of the proxy *)
}.

Definition io (A : Type) : Type := world → comp AetherError A * world.

#[export] Instance io_ret : MRet io := λ A a w, (Ok a, w).
#[export] Instance io_bind : MBind io := λ A B f m w,
  match m w with
  | (Ok a, w) => f a w
  | (Err e, w) => (Err e, w)
  | (Panic, w) => (Panic, w)
  end.

Definition lift {A} (m : comp AetherError A) : io A := λ w, (m, w).
Definition get_files : io (gmap bytes bytes) := λ w, (Ok (files w), w).
Definition set_files (f : gmap bytes bytes) : io () := λ w,
  (Ok tt, mk_world f (calls w) (not_enabled w) (team_endpoint w) (gateway w)).

(** The outcome as a value: what a [match] on a result does. *)
Definition attempt {A} (m : io A) : io (comp AetherError A) := λ w,
  let '(r, w) := m w in match r with Panic => (Panic, w) | _ => (Ok r, w) end.

(** The step of a write that fails. *)
Inductive write_step := MakeDir | OpenTemp | WriteTemp | Permissions | Rename.

Section programs.
Context `{Base64} `{Base64Encode} `{TomlCrate} `{!UnicodeCase}.
Context (env : environment) (pid now : Z).
(** The API, by the calls made before; the token of the team's sign-in. *)
Context (api : list call → call → comp AetherError AccountData) (team_token : comp AetherError bytes).
(** The generators of keys: a WireGuard key; a MASQUE certificate, its key and
    its public key. *)
Context (wg_key : list call → bytes) (masque_pair : list call → comp AetherError (bytes * bytes * bytes)).
(** The disk: the step of a write of a file that fails, and whether a damaged
    file cannot be moved. *)
Context (disk : bytes → option write_step) (disk_error : bytes) (stuck : bytes → bool).

Definition get_calls : io (list call) := λ w, (Ok (calls w), w).

Definition api_call (c : call) : io AccountData := λ w,
  (api (calls w) c, mk_world (files w) (calls w ++ [c]) (not_enabled w) (team_endpoint w) (gateway w)).

(** *** config.rs *)

Definition quarantine_path (path : bytes) : bytes := path ++ lit ".corrupt".

Definition quarantine (path : bytes) : io (option bytes) :=
  fs ← get_files;
  match fs !! path with
  | Some text =>
      if stuck path then mret None
      else _ ← set_files (<[quarantine_path path := text]> (delete path fs)); mret (Some (quarantine_path path))
  | None => mret None
  end.

(** The end of a load of a damaged file. *)
Definition damaged {A} (path message : bytes) : io A :=
  moved ← quarantine path;
  lift (Err (EOther (match moved with
    | Some target => message ++ lit "; the damaged file was moved to " ++ target ++ lit " so a fresh identity can be provisioned"
    | None => message ++ lit "; delete " ++ path ++ lit " to provision a fresh identity"
    end))).

Definition load (path : bytes) : io (option Identity) :=
  fs ← get_files;
  match fs !! path with
  | None => mret None
  | Some text =>
      match from_utf8 text with
      | None => lift (Err (EIo (lit "stream did not contain valid UTF-8")))
      | Some text =>
          match toml_decode text with
          | Ok p =>
              match identity_of p with
              | Ok i => mret (Some i)
              | Err e => damaged path (display e)
              | Panic => lift Panic
              end
          | Err e => damaged path (lit "config parse: " ++ e)
          | Panic => lift Panic
          end
      end
  end.

(** The file a write goes to first, beside its target. *)
Definition temp_path (path : bytes) : bytes :=
  let name n := lit "." ++ n ++ lit "." ++ decimal pid ++ lit ".tmp" in
  match rsplit_once 47 path with
  | Some (d, n) => d ++ lit "/" ++ name n
  | None => name path
  end.

Definition write_private (path contents : bytes) : io () :=
  fs ← get_files;
  let t := temp_path path in
  match disk path with
  | Some MakeDir => lift (Err (EIo disk_error))
  | Some OpenTemp => _ ← set_files (delete t fs); lift (Err (EIo disk_error))
  | Some _ =>
      _ ← set_files (<[t := contents]> fs); fs ← get_files; _ ← set_files (delete t fs); lift (Err (EIo disk_error))
  | None =>
      _ ← set_files (<[t := contents]> fs); fs ← get_files; set_files (<[path := contents]> (delete t fs))
  end.

Definition save (path : bytes) (i : Identity) : io () :=
  text ← lift (map_err (λ e, EOther (lit "config encode: " ++ e)) (toml_encode (persisted i)));
  write_private path text.

Definition save_masque_creds (path cert key : bytes) (issued : Z) : io () :=
  fs ← get_files;
  match fs !! path with
  | None => mret tt
  | Some text =>
      text ← lift (ok_or (from_utf8 text) (EIo (lit "stream did not contain valid UTF-8")));
      p ← lift (map_err (λ e, EOther (lit "config parse: " ++ e)) (toml_decode text));
      let p := mk_persisted (p_device_id p) (p_access_token p) (from_utf8_lossy cert) (from_utf8_lossy key) issued (p_ipv4 p) (p_ipv6 p)
                 (p_wg_private_key p) (p_wg_peer_public_key p) (p_client_id p) (p_organization p) (p_gateway_proxy p)
                 (p_assigned_endpoint p) in
      updated ← lift (map_err (λ e, EOther (lit "config encode: " ++ e)) (toml_encode p));
      write_private path updated
  end.

(** *** account.rs *)

Definition provision_wg (jwt : option bytes) : io Identity :=
  ks ← get_calls;
  let private := wg_key ks in
  reg ← api_call (CRegister jwt);
  lift (finish_provision reg private).

Definition provision_team : io Identity :=
  t ← lift team_token; provision_wg (Some t).

Definition refresh_profile (i : Identity) : io Identity :=
  r ← attempt (api_call (CFetch (device_id i)));
  match r with
  | Ok reg => mret (refreshed i reg)
  | Err (EIdentityRefused _) => mret (with_refused i true)
  | _ => mret i
  end.

Definition enable_warp (device : bytes) : io () := _ ← api_call (CEnable device); mret tt.

(** The certificate, its key, when it was issued. *)
Definition ensure_masque_enrolled (i : Identity) : io (bytes * bytes * Z) :=
  let usable := negb (is_empty (cert_pem i)) && negb (is_empty (key_pem i)) in
  if usable && negb (masque_cert_expiring now (cert_issued_at i)) then mret (cert_pem i, key_pem i, cert_issued_at i)
  else
    ks ← get_calls;
    pair ← lift (masque_pair ks);
    let '(cert, key, spki) := pair in
    r ← attempt (api_call (CEnroll (device_id i) spki));
    match r with
    | Ok _ => mret (cert, key, now)
    | Err e => if cert_still_usable now i then mret (cert_pem i, key_pem i, cert_issued_at i) else lift (Err e)
    | Panic => lift Panic
    end.

(** *** lib.rs *)

Definition provision_account : io Identity :=
  match team_settings env with
  | Some _ => i ← provision_team; refresh_profile i
  | None => provision_wg None
  end.

Definition set_gateway (g : bytes) : io () := λ w,
  (Ok tt, mk_world (files w) (calls w) (not_enabled w) (team_endpoint w) (Some g)).
Definition set_endpoint (e : bytes) : io () := λ w,
  (Ok tt, mk_world (files w) (calls w) (not_enabled w) (Some e) (gateway w)).

Definition adopt_team_profile (i : Identity) : io Identity :=
  match team_scope env with
  | None => mret i
  | Some _ =>
      i ← refresh_profile i;
      _ ← (if negb (is_empty (gateway_proxy i)) && bool_decide (is_Some (env (lit "AETHER_GATEWAY")))
           then set_gateway (gateway_proxy i) else mret tt);
      _ ← (if negb (is_empty (assigned_endpoint i)) && bool_decide (env (lit "AETHER_PEER") = None) then
             let p := default [] (env (lit "AETHER_PROTOCOL")) in
             let port := if str_eqb p (lit "wg") || str_eqb p (lit "gool") then 2408 else 443 in
             let peer := assigned_endpoint i ++ lit ":" ++ decimal port in
             if bool_decide (is_Some (parse_socket_addr peer)) then set_endpoint peer else mret tt
           else mret tt);
      mret i
  end.

(** A new WireGuard identity, saved once WARP is enabled on it. *)
Definition fresh_warp (path : bytes) : io Identity :=
  i ← provision_account; i ← adopt_team_profile i; _ ← enable_warp (device_id i); _ ← save path i; mret i.

Definition load_or_provision_warp (path : bytes) : io Identity :=
  found ← load path;
  match found with
  | Some i =>
      i ← adopt_team_profile i;
      if negb (refused i) then _ ← save path i; mret i
      else if negb (keep_saved_identity env) then mret i
      else fresh_warp path
  | None => fresh_warp path
  end.

Definition fresh_masque (path : bytes) : io Identity :=
  i ← provision_account;
  e ← ensure_masque_enrolled i;
  let '(cert, key, issued) := e in
  i ← adopt_team_profile (with_cert i cert key issued); _ ← enable_warp (device_id i); _ ← save path i; mret i.

Definition load_or_provision_masque (path : bytes) : io Identity :=
  found ← load path;
  match found with
  | Some i =>
      (* inl: in use as it is; inr: refused *)
      verdict ←
        (if has_masque_credentials now i then
           i ← adopt_team_profile i;
           if negb (refused i) then _ ← save path i; mret (inl i) else mret (inr i)
         else
           r ← attempt (ensure_masque_enrolled i);
           match r with
           | Ok (cert, key, issued) => let i := with_cert i cert key issued in _ ← save path i; mret (inl i)
           | Err (EIdentityRefused _) => mret (inr (with_refused i true))
           | Err e => lift (Err e)
           | Panic => lift Panic
           end);
      match verdict with
      | inl i => mret i
      | inr i => if negb (keep_saved_identity env) then mret i else fresh_masque path
      end
  | None => fresh_masque path
  end.

Definition worth_enabling_again (e : AetherError) : bool := match e with EIdentityRefused _ => false | _ => true end.

Definition take_kept : io (option Identity) := λ w,
  (Ok (not_enabled w), mk_world (files w) (calls w) None (team_endpoint w) (gateway w)).
Definition put_kept (i : Identity) : io () := λ w,
  (Ok tt, mk_world (files w) (calls w) (Some i) (team_endpoint w) (gateway w)).

Definition provision_gool (path : bytes) : io Identity :=
  kept ← take_kept;
  i ← (match kept with Some i => mret i | None => provision_wg None end);
  r ← attempt (enable_warp (device_id i));
  match r with
  | Ok _ => _ ← save path i; mret i
  | Err e => _ ← (if worth_enabling_again e then put_kept i else mret tt); lift (Err e)
  | Panic => lift Panic
  end.

Definition load_or_provision_gool (path : bytes) : io Identity :=
  found ← load path;
  match found with Some i => mret i | None => provision_gool path end.

(** What gool remembers of the endpoint its inner WireGuard works with. *)
Definition remember_gool_endpoint (path : bytes) (i : Identity) (inner : SocketAddr) : io () :=
  let ip := show_ip (sa_ip inner) in
  if negb (str_eqb (assigned_endpoint i) ip) && bool_decide (env_value env (lit "AETHER_GOOL_INNER") = None) then
    _ ← attempt (save path (mk_identity (device_id i) (access_token i) (cert_pem i) (key_pem i) (cert_issued_at i) (ipv4 i) (ipv6 i)
      (wg_private_key i) (wg_peer_public_key i) (id_client_id i) (organization i) (gateway_proxy i) ip (refused i)));
    mret tt
  else mret tt.

(** *** --register *)

Record RegisterSet := mk_register { wireguard : bool; wireguard_inner : bool; masque : bool; masque_inner : bool; gool : bool }.

Definition register_parse (value : bytes) : comp AetherError RegisterSet :=
  let v := to_lowercase (trim value) in
  let is_one l := bool_decide (v ∈ map lit l) in
  if is_one ["all"]%string then mret (mk_register true true true true true)
  else if is_one ["masque"]%string then mret (mk_register false false true false false)
  else if is_one ["wg"; "wireguard"; "warp"]%string then mret (mk_register true false false false false)
  else if is_one ["gool"; "wg-over-masque"]%string then mret (mk_register false false true false true)
  else if is_one ["gool-classic"; "wiw"; "warp-in-warp"]%string then mret (mk_register true true false false false)
  else if is_one ["mim"; "masque-in-masque"]%string then mret (mk_register false false true true false)
  else Err (EOther (lit "--register takes masque, wg, gool, gool-classic, mim or all, not '" ++ v ++ [39])).

Definition register_request : comp AetherError (option RegisterSet) :=
  match env_value env (lit "AETHER_REGISTER") with
  | Some v => s ← register_parse v; mret (Some s)
  | None => mret None
  end.

Definition when (b : bool) (m : io Identity) : io () := if b then _ ← m; mret tt else mret tt.

(** The identities asked for, one after another; the carrier is not part of
    the model. *)
Definition register_identities (wanted : RegisterSet) (base : bytes) : io () :=
  let wg := warp_config_path env base in
  let mq := masque_config_path env base in
  _ ← when (wireguard wanted) (load_or_provision_warp wg);
  _ ← when (wireguard_inner wanted) (load_or_provision_warp (secondary_path wg));
  _ ← when (masque wanted) (load_or_provision_masque mq);
  _ ← when (masque_inner wanted) (load_or_provision_masque (secondary_path mq));
  when (gool wanted) (load_or_provision_gool (gool_identity_path mq)).

(** ** What leaves the files alone *)

Definition quiet {A} (m : io A) : Prop := ∀ w, files (m w).2 = files w.

Lemma quiet_ret {A} (a : A) : quiet (mret a).
Proof. done. Qed.
Lemma quiet_lift {A} (m : comp AetherError A) : quiet (lift m).
Proof. done. Qed.
Lemma quiet_bind {A B} (m : io A) (f : A → io B) : quiet m → (∀ a, quiet (f a)) → quiet (m ≫= f).
Proof.
  intros Hm Hf w. unfold mbind, io_bind. specialize (Hm w). destruct (m w) as [[a|e|] w1]; cbn in *; [|done..].
  by rewrite Hf.
Qed.
Lemma quiet_attempt {A} (m : io A) : quiet m → quiet (attempt m).
Proof. intros Hm w. unfold attempt. specialize (Hm w). destruct (m w) as [[a|e|] w1]; done. Qed.
Lemma quiet_api c : quiet (api_call c).
Proof. done. Qed.
Lemma quiet_calls : quiet get_calls.
Proof. done. Qed.
Lemma quiet_gateway g : quiet (set_gateway g).
Proof. done. Qed.
Lemma quiet_endpoint e : quiet (set_endpoint e).
Proof. done. Qed.

Create HintDb quiet.
#[local] Hint Resolve quiet_ret quiet_lift quiet_attempt quiet_api quiet_calls quiet_gateway quiet_endpoint : quiet.

Ltac solve_quiet := repeat first [apply quiet_bind; [|intros ?]|progress cbv zeta|case_match|by auto with quiet].

Lemma quiet_refresh i : quiet (refresh_profile i).
Proof. unfold refresh_profile. solve_quiet. Qed.
Lemma quiet_adopt i : quiet (adopt_team_profile i).
Proof. unfold adopt_team_profile. pose proof quiet_refresh. solve_quiet. Qed.
Lemma quiet_provision jwt : quiet (provision_wg jwt).
Proof. unfold provision_wg. solve_quiet. Qed.
Lemma quiet_new_account : quiet provision_account.
Proof. unfold provision_account, provision_team. pose proof quiet_refresh. pose proof quiet_provision. solve_quiet. Qed.
Lemma quiet_enable d : quiet (enable_warp d).
Proof. unfold enable_warp. solve_quiet. Qed.
Lemma quiet_enrolled i : quiet (ensure_masque_enrolled i).
Proof. unfold ensure_masque_enrolled. solve_quiet. Qed.

Lemma quiet_run {A} (m : io A) w r w' : quiet m → m w = (r, w') → files w' = files w.
Proof. intros Hm E. specialize (Hm w). by rewrite E in Hm. Qed.

(** ** Writing a file *)

Lemma temp_path_other path : temp_path path ≠ path.
Proof.
  unfold temp_path. cbv zeta. destruct (rsplit_once 47 path) as [[d n]|] eqn:E.
  - apply rsplit_once_Some in E as [-> _]. intros E%(f_equal length). repeat (rewrite length_app in E || cbn in E). lia.
  - intros E'%(f_equal length). repeat (rewrite length_app in E' || cbn in E'). lia.
Qed.

(** A write of a file is all or nothing: it succeeds with the new contents in
    place, or fails with the file as it was; nothing else changes but the
    temporary file, and that is gone. *)
Lemma write_private_spec path contents w r w' : write_private path contents w = (r, w') →
  calls w' = calls w ∧ not_enabled w' = not_enabled w ∧
  (∀ p, p ≠ path → p ≠ temp_path path → files w' !! p = files w !! p) ∧
  match r with
  | Ok _ => files w' !! path = Some contents ∧ files w' !! temp_path path = None
  | Err _ => files w' !! path = files w !! path ∧ (disk path ≠ Some MakeDir → files w' !! temp_path path = None)
  | Panic => False
  end.
Proof.
  pose proof (temp_path_other path) as Ht. unfold write_private, get_files, set_files, lift, mbind, io_bind. cbv zeta.
  destruct (disk path) as [[]|]; intros [= <- <-]; cbn [files calls not_enabled]; split_and!; try done;
    try (intros p Hp Hpt; by rewrite ?lookup_insert_ne, ?lookup_delete_ne, ?lookup_insert_ne by done);
    try (intros _); rewrite ?lookup_insert_eq, ?lookup_insert_ne, ?lookup_delete_eq, ?lookup_delete_ne, ?lookup_insert_ne by done;
    done.
Qed.

Lemma save_spec path i w r w' : save path i w = (r, w') →
  calls w' = calls w ∧ not_enabled w' = not_enabled w ∧
  (∀ p, p ≠ path → p ≠ temp_path path → files w' !! p = files w !! p) ∧
  match r with
  | Ok _ => ∃ s, toml_encode (persisted i) = Ok s ∧ files w' !! path = Some s
  | Err _ => files w' !! path = files w !! path
  | Panic => True
  end.
Proof.
  unfold save. unfold mbind at 1, io_bind, lift. destruct (toml_encode (persisted i)) as [s|e|]; cbn [map_err].
  - intros Hw%write_private_spec. destruct Hw as (? & ? & ? & Hr). split_and!; [done..|]. destruct r; [|tauto..].
    exists s. tauto.
  - by intros [= <- <-].
  - by intros [= <- <-].
Qed.

(** An identity that can be kept: its keys have their sizes, its certificate
    is text. *)
Definition identity_ok (i : Identity) : Prop :=
  blen (wg_private_key i) = 32 ∧ blen (wg_peer_public_key i) = 32 ∧ blen (id_client_id i) = 3 ∧
  utf8 (cert_pem i) ∧ utf8 (key_pem i).

Lemma identity_roundtrip `{!Base64Ok} i : identity_ok i →
  identity_of (persisted i) = Ok (with_refused i false).
Proof.
  intros (Hpriv & Hpub & Hcid & Hc & Hk).
  assert (base64_encode (id_client_id i) ≠ []) as Hne.
  { intros E. pose proof (base64_length (id_client_id i)) as Hl. by rewrite E, Hcid in Hl. }
  unfold identity_of, decode_fixed, persisted. cbn [p_wg_private_key p_wg_peer_public_key p_client_id].
  rewrite !base64_roundtrip. cbn [map_err mbind comp_bind]. rewrite Hpriv, Hpub. cbn [Z.eqb negb mbind comp_bind].
  destruct (is_empty (base64_encode (id_client_id i))) eqn:E; [by destruct (base64_encode (id_client_id i))|]. rewrite Hcid.
  cbn. by rewrite !from_utf8_lossy_id.
Qed.

(** C31. An identity that is saved is loaded again as it was, every field of it,
    but for the mark of a refusal, which is not kept. *)
Theorem identity_saved_loads `{!Base64Ok} `{!TomlCrateOk} (path : bytes) (i : Identity) (wld wld' : world)
  (Hok : identity_ok i) (Hsave : save path i wld = (Ok tt, wld')) :
  load path wld' = (Ok (Some (with_refused i false)), wld').
Proof.
  apply save_spec in Hsave as (_ & _ & _ & s & Es & Ef). destruct (toml_roundtrip _ _ Es) as [Ed Hu].
  unfold load, get_files. unfold mbind, io_bind. rewrite Ef, utf8_valid_spec by done. rewrite Ed.
  by rewrite identity_roundtrip.
Qed.

(** ** Registrations *)

(** WARP was enabled on a device. *)
Definition enabled (wld : world) (device : bytes) : Prop :=
  ∃ k reg, calls wld !! k = Some (CEnable device) ∧ api (take k (calls wld)) (CEnable device) = Ok reg.

(** The identity is in the file at [path]. *)
Definition kept_at (wld : world) (path : bytes) (i : Identity) : Prop :=
  ∃ s, toml_encode (persisted i) = Ok s ∧ files wld !! path = Some s.

(** The file is as it was, or a damaged one was moved aside. *)
Definition untouched (path : bytes) (wld wld' : world) : Prop :=
  files wld' !! path = files wld !! path ∨
  files wld' !! path = None ∧ files wld' !! quarantine_path path = files wld !! path.

Lemma bind_cases {A B} (m : io A) (f : A → io B) wld r wld' : (m ≫= f) wld = (r, wld') →
  (∃ a w1, m wld = (Ok a, w1) ∧ f a w1 = (r, wld')) ∨ (∃ e, m wld = (Err e, wld') ∧ r = Err e) ∨ (m wld = (Panic, wld') ∧ r = Panic).
Proof. unfold mbind, io_bind. destruct (m wld) as [[a|e|] w1]; [eauto| |]; intros [= <- <-]; eauto. Qed.

Lemma quarantine_other path : quarantine_path path ≠ path.
Proof. intros E%(f_equal length). unfold quarantine_path in E. rewrite length_app in E. cbn in E. lia. Qed.

Lemma load_cases path wld r wld' : load path wld = (r, wld') →
  match r with Ok _ => wld' = wld | _ => untouched path wld wld' end.
Proof.
  unfold load, get_files. unfold mbind at 1, io_bind. destruct (files wld !! path) as [text|] eqn:Ef; [|by intros [= <- <-]].
  destruct (from_utf8 text) as [text'|]; [|intros [= <- <-]; by left].
  assert (∀ A message r wld', damaged (A := A) path message wld = (r, wld') →
    match r with Ok _ => False | _ => untouched path wld wld' end) as Hd.
  { intros A message r0 w0. unfold damaged, quarantine, get_files, set_files, lift. unfold mbind, io_bind. rewrite Ef.
    destruct (stuck path); intros [= <- <-]; [by left|right]. cbn. rewrite Ef.
    rewrite lookup_insert_ne by apply quarantine_other. by rewrite lookup_delete_eq, lookup_insert_eq. }
  destruct (toml_decode text') as [p|e|]; [|intros Hr%Hd; by destruct r|intros [= <- <-]; by left].
  destruct (identity_of p) as [i|e|]; [by intros [= <- <-]|intros Hr%Hd; by destruct r|intros [= <- <-]; by left].
Qed.

(** A load of a damaged file gives nothing. *)
Lemma damaged_fails {A} path message wld (a : A) wld' : damaged path message wld ≠ (Ok a, wld').
Proof.
  unfold damaged. intros [(m & w1 & _ & E)|[(e & _ & ?)|[_ ?]]]%bind_cases; done.
Qed.

(** An identity as a file has it is not one a refusal marked. *)
Lemma load_unmarked path wld i wld' : load path wld = (Ok (Some i), wld') → refused i = false.
Proof.
  unfold load, get_files. unfold mbind at 1, io_bind. destruct (files wld !! path) as [text|]; [|done].
  destruct (from_utf8 text) as [text'|]; [|done]. destruct (toml_decode text') as [p| |]; [|by intros ?%damaged_fails|done].
  destruct (identity_of p) as [j| |] eqn:Ej; [|by intros ?%damaged_fails|done]. intros [= <- _]. unfold identity_of in Ej.
  destruct (decode_fixed 32 (lit "wg_private_key") _) as [priv| |]; cbn [mbind comp_bind] in Ej; [|done..].
  destruct (decode_fixed 32 (lit "wg_peer_public_key") _) as [pub| |]; cbn [mbind comp_bind] in Ej; [|done..].
  by injection Ej as <-.
Qed.

(** The same device with the same token and keys. *)
Definition same_account (i j : Identity) : Prop :=
  device_id i = device_id j ∧ access_token i = access_token j ∧ wg_private_key i = wg_private_key j ∧
  wg_peer_public_key i = wg_peer_public_key j ∧ id_client_id i = id_client_id j.

(** The account of an identity stays when its profile is refreshed, and a
    refusal changes nothing but the mark. *)
Definition adopted (i j : Identity) : Prop := same_account i j ∧ (refused i = true → i = with_refused j true).

Lemma refresh_account j wld i wld' : refused j = false → refresh_profile j wld = (Ok i, wld') → adopted i j.
Proof.
  unfold refresh_profile. intros Hj [(r & w1 & _ & E)|[(e & _ & ?)|[_ ?]]]%bind_cases; [|done..].
  destruct r as [reg|[]|]; injection E as <- _; (split; [done|]); try done; intros Hr; congruence.
Qed.

Lemma adopt_account j wld i wld' : refused j = false → adopt_team_profile j wld = (Ok i, wld') → adopted i j.
Proof.
  unfold adopt_team_profile. intros Hj. destruct (team_scope env); [|intros [= <- _]; split; [done|congruence]].
  intros [(a & w1 & E1 & E)|[(e & _ & ?)|[_ ?]]]%bind_cases; [|done..]. apply refresh_account in E1; [|done].
  apply bind_cases in E as [(u & w2 & _ & E)|[(e & _ & ?)|[_ ?]]]; [|done..].
  apply bind_cases in E as [(u' & w3 & _ & E)|[(e & _ & ?)|[_ ?]]]; [|done..]. by injection E as <- _.
Qed.

(** The end of a registration: WARP is enabled, then the identity is saved. *)
Definition enable_and_save (path : bytes) (i : Identity) : io Identity :=
  _ ← enable_warp (device_id i); _ ← save path i; mret i.

Lemma enable_and_save_spec path i wld r wld' : enable_and_save path i wld = (r, wld') →
  match r with
  | Ok j => j = i ∧ kept_at wld' path i ∧ enabled wld' (device_id i)
  | Err _ => files wld' !! path = files wld !! path
  | Panic => True
  end.
Proof.
  unfold enable_and_save, enable_warp, api_call. unfold mbind at 1 3, io_bind.
  destruct (api (calls wld) (CEnable (device_id i))) as [reg|e|] eqn:Ea; [|by intros [= <- <-]..]. cbn [mret io_ret].
  set (w1 := mk_world _ _ _ _ _). unfold mbind, io_bind. destruct (save path i w1) as [rs w2] eqn:Es.
  apply save_spec in Es as (Ec & _ & _ & Hs). destruct rs as [[]|e|]; intros [= <- <-]; [|done..]. split_and!; [done|done|].
  exists (length (calls wld)), reg. rewrite Ec. cbn [calls w1]. rewrite lookup_app_r, Nat.sub_diag by lia. split; [done|].
  by rewrite take_app_length.
Qed.

(** What becomes of an identity. *)
Definition provisioned (path : bytes) (wld : world) (r : comp AetherError Identity) (wld' : world) : Prop :=
  match r with
  | Ok i =>
      (kept_at wld' path i ∧
       (enabled wld' (device_id i) ∨
        refused i = false ∧ ∃ j, load path wld = (Ok (Some j), wld) ∧ same_account i j)) ∨
      (files wld' = files wld ∧
       ∃ j, load path wld = (Ok (Some j), wld) ∧ (i = j ∨ keep_saved_identity env = false ∧ i = with_refused j true))
  | Err _ => untouched path wld wld'
  | Panic => True
  end.

Lemma fresh_provisioned {A} (m : io A) (f : A → io Identity) path w0 wld r wld' :
  quiet m → files wld = files w0 →
  (∀ a w1 r wld', files w1 = files w0 → f a w1 = (r, wld') → provisioned path w0 r wld') →
  (m ≫= f) wld = (r, wld') → provisioned path w0 r wld'.
Proof.
  intros Hq Hw Hf [(a & w1 & Em & E)|[(e & Em & ->)|[Em ->]]]%bind_cases; apply (quiet_run _ _ _ _ Hq) in Em.
  - apply (Hf a w1); [congruence|done].
  - left. congruence.
  - done.
Qed.

Lemma enable_and_save_provisioned path i w0 wld r wld' : files wld = files w0 →
  enable_and_save path i wld = (r, wld') → provisioned path w0 r wld'.
Proof.
  intros Hw Hr%enable_and_save_spec. destruct r as [j|e|]; [|left; congruence|done].
  destruct Hr as (-> & Hk & He). left. split; [done|by left].
Qed.

Lemma fresh_warp_provisioned path w0 wld r wld' : files wld = files w0 →
  fresh_warp path wld = (r, wld') → provisioned path w0 r wld'.
Proof.
  intros Hw. unfold fresh_warp. apply fresh_provisioned; [apply quiet_new_account|done|]. clear. intros i w1 r wld' Hw.
  apply fresh_provisioned; [apply quiet_adopt|done|]. clear. intros j w2 r wld' Hw. by apply enable_and_save_provisioned.
Qed.

Lemma fresh_masque_provisioned path w0 wld r wld' : files wld = files w0 →
  fresh_masque path wld = (r, wld') → provisioned path w0 r wld'.
Proof.
  intros Hw. unfold fresh_masque. apply fresh_provisioned; [apply quiet_new_account|done|]. clear. intros i w1 r wld' Hw.
  apply fresh_provisioned; [apply quiet_enrolled|done|]. clear Hw. intros [[cert key] issued] w2 r' wld'' Hw.
  apply fresh_provisioned; [apply quiet_adopt|done|]. clear. intros j w3 r wld' Hw. by apply enable_and_save_provisioned.
Qed.

(** An identity that was loaded, saved again as it is now. *)
Lemma resave_provisioned {A} path i j wld w1 (f : Identity → A) r wld' :
  load path wld = (Ok (Some j), wld) → same_account i j → files w1 = files wld →
  (_ ← save path i; mret (f i)) w1 = (r, wld') →
  match r with
  | Ok a => a = f i ∧ kept_at wld' path i
  | Err _ => untouched path wld wld'
  | Panic => True
  end.
Proof.
  intros Hl Hd Hw. unfold mbind, io_bind. destruct (save path i w1) as [rs w2] eqn:Es.
  apply save_spec in Es as (_ & _ & _ & Hs). destruct rs as [[]|e|]; intros [= <- <-]; [done| |done]. left. congruence.
Qed.

Lemma warp_provisioned path wld r wld' : load_or_provision_warp path wld = (r, wld') → provisioned path wld r wld'.
Proof.
  unfold load_or_provision_warp. intros [(found & w1 & El & E)|[(e & El & ->)|[El ->]]]%bind_cases; apply load_cases in El as Hl; [|done..].
  subst w1. destruct found as [j|]; [|by eapply fresh_warp_provisioned].
  apply bind_cases in E as [(i & w1 & Ea & E)|[(e & Ea & ->)|[Ea ->]]]; apply (quiet_run _ _ _ _ (quiet_adopt j)) in Ea as Hw;
    [|by left; rewrite Hw|done].
  apply adopt_account in Ea as [Ha Hm]; [|by eapply load_unmarked]. destruct (refused i) eqn:Eref; cbn [negb] in E.
  - destruct (keep_saved_identity env) eqn:Ek; cbn [negb] in E; [by eapply fresh_warp_provisioned|].
    injection E as <- <-. right. split; [done|]. exists j. auto.
  - pose proof (resave_provisioned path i j wld w1 (λ i, i) r wld' El Ha Hw E) as Hs.
    destruct r as [a| |]; [|done..]. destruct Hs as [-> Hk]. left. split; [done|]. right. eauto.
Qed.

Lemma masque_provisioned path wld r wld' : load_or_provision_masque path wld = (r, wld') → provisioned path wld r wld'.
Proof.
  unfold load_or_provision_masque. intros [(found & w1 & El & E)|[(e & El & ->)|[El ->]]]%bind_cases; apply load_cases in El as Hl; [|done..].
  subst w1. destruct found as [j|]; [|by eapply fresh_masque_provisioned].
  set (m := if has_masque_credentials now j then _ else _) in E.
  assert (∀ r w1, m wld = (r, w1) → match r with
    | Ok (inl i) => kept_at w1 path i ∧ refused i = false ∧ same_account i j
    | Ok (inr i) => files w1 = files wld ∧ i = with_refused j true
    | Err _ => untouched path wld w1
    | Panic => True end) as Hm.
  { clear E r wld'. intros r w1 Em. unfold m in Em. destruct (has_masque_credentials now j).
    - apply bind_cases in Em as [(i & w2 & Ea & Em)|[(e & Ea & ->)|[Ea ->]]]; apply (quiet_run _ _ _ _ (quiet_adopt j)) in Ea as Hw;
        [|by left; rewrite Hw|done].
      apply adopt_account in Ea as [Ha Hm]; [|by eapply load_unmarked].
      destruct (refused i) eqn:Eref; cbn [negb] in Em; [injection Em as <- <-; auto|].
      pose proof (resave_provisioned path i j wld w2 inl r w1 El Ha Hw Em) as Hs.
      destruct r as [a| |]; [|done..]. by destruct Hs as [-> Hk].
    - apply bind_cases in Em as [(v & w2 & Ee & Em)|[(e & Ee & ->)|[Ee ->]]];
        apply (quiet_run _ _ _ _ (quiet_attempt _ (quiet_enrolled j))) in Ee as Hw; [|by left; rewrite Hw|done].
      destruct v as [[[cert key] issued]|e|].
      + pose proof (resave_provisioned path (with_cert j cert key issued) j wld w2 inl r w1 El ltac:(done) Hw Em) as Hs.
        destruct r as [a| |]; [|done..]. destruct Hs as [-> Hk]. split; [done|]. split; [exact (load_unmarked _ _ _ _ El)|done].
      + destruct e; injection Em as <- <-; try (left; by rewrite Hw). done.
      + by injection Em as <- <-. }
  clearbody m. apply bind_cases in E as [([i|i] & w1 & Em & E)|[(e & Em & ->)|[Em ->]]]; apply Hm in Em; [| |done..].
  - injection E as <- <-. destruct Em as (Hk & Hn & Hd). left. split; [done|]. right. eauto.
  - destruct Em as [Hw ->]. destruct (keep_saved_identity env) eqn:Ek; cbn [negb] in E; [by eapply fresh_masque_provisioned|].
    injection E as <- <-. right. split; [done|]. exists j. auto.
Qed.

Lemma gool_provisioned path wld r wld' : load_or_provision_gool path wld = (r, wld') → provisioned path wld r wld'.
Proof.
  unfold load_or_provision_gool. intros [(found & w1 & El & E)|[(e & El & ->)|[El ->]]]%bind_cases; apply load_cases in El as Hl; [|done..].
  subst w1. destruct found as [j|]; [injection E as <- <-; right; eauto|].
  revert E. unfold provision_gool. apply fresh_provisioned; [by intros w0|done|]. intros kept w1 r1 w1' Hw1.
  apply fresh_provisioned; [destruct kept; [apply quiet_ret|apply quiet_provision]|done|]. clear r1 w1' w1 Hw1. intros i w2 r2 w2' Hw2.
  unfold attempt. destruct (enable_warp (device_id i) w2) as [re w3] eqn:Ee.
  intros E. destruct re as [[]|e|].
  - apply (enable_and_save_provisioned path i _ w2 _ _ Hw2). unfold enable_and_save.
    unfold mbind at 1, io_bind at 1 in E. rewrite Ee in E. unfold mbind at 1, io_bind at 1. by rewrite Ee.
  - unfold mbind at 1, io_bind at 1 in E. rewrite Ee in E.
    apply (quiet_run _ _ _ _ (quiet_enable (device_id i))) in Ee. destruct (worth_enabling_again e); injection E as <- <-; left; cbn; congruence.
  - unfold mbind at 1, io_bind at 1 in E. rewrite Ee in E. by injection E as <- <-.
Qed.

(** The calls a try of gool's registration makes: none to register when a
    device of this run waits to be enabled. *)
Lemma gool_kept_calls path i wld r wld' : not_enabled wld = Some i → provision_gool path wld = (r, wld') →
  calls wld' = calls wld ++ [CEnable (device_id i)] ∧ (∀ j, r = Ok j → j = i).
Proof.
  intros Hk. unfold provision_gool, take_kept, attempt, enable_warp, api_call, put_kept. unfold mbind, io_bind, mret, io_ret, lift.
  rewrite Hk. cbv beta iota. cbn [calls]. destruct (api (calls wld) (CEnable (device_id i))) as [reg|e|].
  - cbv beta iota. destruct (save path i _) as [rs w2] eqn:Es. apply save_spec in Es as [Ec _]. cbn [calls] in Ec.
    destruct rs as [[]|e|]; intros [= <- <-]; by (split; [|intros ? [= <-]] || (split; [done|intros ? [=]])).
  - destruct (worth_enabling_again e); intros [= <- <-]; by (split; [done|intros ? [=]]).
  - intros [= <- <-]. by (split; [done|intros ? [=]]).
Qed.

(** A device gool registered that could not be enabled is kept: unless the
    API refused it, the next try registers no other, enables that same device
    and, when it succeeds, gives it. *)
Theorem gool_device_reused (path d : bytes) (e : AetherError) (wld wld' : world)
  (Htry : provision_gool path wld = (Err e, wld')) (made : list call)
  (Hlast : calls wld' = made ++ [CEnable d]) (Hfailed : api made (CEnable d) = Err e) (Hagain : worth_enabling_again e = true) :
  let '(r, next) := provision_gool path wld' in
  calls next = calls wld' ++ [CEnable d] ∧ ∀ j, r = Ok j → device_id j = d.
Proof.
  assert (∃ i, not_enabled wld' = Some i ∧ device_id i = d) as (i & Hk & Hd).
  { revert Htry. unfold provision_gool. intros [(kept & w1 & Ek & Htry)|[(e' & Ek & ?)|[Ek ?]]]%bind_cases; [|done..].
    apply bind_cases in Htry as [(i & w2 & Ei & Htry)|[(e' & Ei & [= <-])|[Ei ?]]]; [| |done].
    2:{ destruct kept as [i|]; [done|]. unfold provision_wg, get_calls, api_call, lift in Ei. unfold mbind, io_bind in Ei. 
        destruct (api (calls w1) (CRegister None)); injection Ei as _ <-; cbn [calls] in Hlast; by apply app_inj_tail in Hlast as [_ ?]. }
    unfold attempt, enable_warp, api_call, put_kept in Htry. unfold mbind, io_bind, mret, io_ret, lift in Htry.
    destruct (api (calls w2) (CEnable (device_id i))) as [reg|e'|] eqn:Ea; [|cbn iota beta in Htry|done].
    - cbv beta iota in Htry. destruct (save path i _) as [rs w3] eqn:Es. apply save_spec in Es as [Ec _]. cbn [calls] in Ec.
      destruct rs as [[]|e'|]; [done| |done]. injection Htry as <- <-. rewrite Ec in Hlast. apply app_inj_tail in Hlast as [<- [= <-]]. congruence.
    - destruct (worth_enabling_again e') eqn:Ew; injection Htry as <- <-; cbn [calls not_enabled] in *; [|congruence].
      apply app_inj_tail in Hlast as [_ [= <-]]. eauto. }
  destruct (provision_gool path wld') as [r next] eqn:E. apply (gool_kept_calls path i) in E as [E1 E2]; [|done]. rewrite Hd in E1.
  split; [done|]. intros j Hj. by rewrite (E2 j Hj).
Qed.
End programs.

(** ** Paths of the identities *)

(** Text that is part of a file name and adds no extension. *)
Definition plain_name (s : bytes) : Prop := forallb (λ c, negb (path_separator c || (c =? 46))) s = true.

Lemma split_dir_app (s : bytes) : (split_dir s).1 ++ (split_dir s).2 = s.
Proof.
  induction s as [|x s IH]; [done|]. cbn [split_dir]. destruct (split_dir s) as [d n]. cbn in IH.
  destruct d as [|y d]; cbn [is_empty]; [destruct (path_separator x)|]; cbn in *; congruence.
Qed.

(** What is added to the name stays in the name. *)
Lemma split_dir_name d n t : split_dir d = (d, []) → forallb (λ c, negb (path_separator c)) n = true →
  t = d ++ n → split_dir t = (d, n).
Proof.
  intros Hd Hn ->. assert (split_dir n = ([], n)) as En.
  { clear Hd. induction n as [|x n IH]; [done|]. cbn in Hn. apply andb_prop in Hn as [Hx Hn]. cbn [split_dir]. rewrite IH by done.
    cbn [is_empty]. by destruct (path_separator x). }
  revert Hd. induction d as [|x d IH]; intros Hd; [done|]. cbn [split_dir app] in *. destruct (split_dir d) as [d' n'] eqn:Ed.
  destruct d' as [|y d']; cbn [is_empty] in Hd.
  - destruct (path_separator x) eqn:Ex; [|done]. injection Hd as E ->. destruct d; [|done]. cbn [app]. by rewrite En.
  - injection Hd as E ->. rewrite E in *. rewrite IH by done. by destruct d.
Qed.

Lemma split_dir_parts s d n : split_dir s = (d, n) → split_dir d = (d, []) ∧ forallb (λ c, negb (path_separator c)) n = true.
Proof.
  revert d n. induction s as [|x s IH]; intros d n; cbn [split_dir]; [by intros [= <- <-]|].
  destruct (split_dir s) as [d' n'] eqn:Es. destruct (IH _ _ eq_refl) as [Hd Hn]. destruct d' as [|y d']; cbn [is_empty].
  - destruct (path_separator x) eqn:Ex; intros [= <- <-]; [cbn [split_dir is_empty]; by rewrite Ex|]. cbn [forallb]. by rewrite Ex.
  - intros [= <- <-]. split; [|done]. cbn [split_dir] in *. by rewrite Hd.
Qed.

Lemma forallb_app_iff {A} (f : A → bool) l k : forallb f (l ++ k) = true ↔ forallb f l = true ∧ forallb f k = true.
Proof. rewrite forallb_app. apply andb_true_iff. Qed.

Lemma plain_parts s : plain_name s →
  forallb (λ c, negb (path_separator c)) s = true ∧ forallb (λ c, negb (c =? 46)) s = true.
Proof.
  unfold plain_name. induction s as [|c s IH]; [done|]. cbn [forallb]. intros [Hc Hs]%andb_true_iff. destruct (IH Hs) as [-> ->].
  rewrite negb_orb in Hc. by apply andb_true_iff in Hc as [-> ->].
Qed.

(** A sibling of a sibling is a sibling, with both suffixes. *)
Lemma derive_twice base a b : plain_name a →
  derive_sibling_path (derive_sibling_path base a) b = derive_sibling_path base (a ++ lit "-" ++ b).
Proof.
  intros [Hs Hd]%plain_parts. unfold derive_sibling_path. destruct (split_dir base) as [d n] eqn:E.
  pose proof (split_dir_app base) as Eb. rewrite E in Eb. cbn in Eb. apply split_dir_parts in E as [Hdir Hn].
  destruct (rsplit_once 46 n) as [[stem ext]|] eqn:En.
  - apply rsplit_once_Some in En as [-> Hext]. apply forallb_app_iff in Hn as [Hst He]. cbn [forallb] in He.
    rewrite (split_dir_name d (stem ++ lit "-" ++ a ++ lit "." ++ ext)); [|done| |done].
    + replace (stem ++ lit "-" ++ a ++ lit "." ++ ext) with ((stem ++ lit "-" ++ a) ++ 46 :: ext) by (rewrite <- !app_assoc; done).
      rewrite rsplit_once_app by done. by rewrite <- !app_assoc.
    + rewrite !forallb_app_iff. split_and!; done.
  - apply rsplit_once_None in En. rewrite (split_dir_name d (n ++ lit "-" ++ a)); [|done| |by rewrite <- Eb, <- app_assoc].
    + rewrite rsplit_once_none; [by rewrite <- !app_assoc|]. by rewrite !forallb_app_iff.
    + by rewrite !forallb_app_iff.
Qed.

(** Siblings differ by their suffixes, and each from its base. *)
Lemma derive_inj base a b : derive_sibling_path base a = derive_sibling_path base b → a = b.
Proof.
  unfold derive_sibling_path. destruct (split_dir base) as [d n]. destruct (rsplit_once 46 n) as [[stem ext]|].
  - intros E%app_inv_head%app_inv_head%app_inv_head. by apply app_inv_tail in E.
  - by intros E%app_inv_head%app_inv_head.
Qed.

Lemma derive_longer base a : (length base < length (derive_sibling_path base a))%nat.
Proof.
  unfold derive_sibling_path. pose proof (split_dir_app base) as Eb. destruct (split_dir base) as [d n]. cbn in Eb.
  destruct (rsplit_once 46 n) as [[stem ext]|] eqn:En.
  - apply rsplit_once_Some in En as [-> _]. rewrite <- Eb, !length_app. cbn. lia.
  - rewrite !length_app. cbn. lia.
Qed.

(** The files --register all writes. *)
Definition register_paths `{!UnicodeCase} (env : environment) (base : bytes) : list bytes :=
  let wg := warp_config_path env base in
  let mq := masque_config_path env base in
  [wg; secondary_path wg; mq; secondary_path mq; gool_identity_path mq].

(** No two identities share a file: without a team and without files named by
    the settings, the two of WireGuard, the two of MASQUE and gool's have five
    different paths, and none is that of the endpoints that worked. *)
Theorem identity_files_apart `{!UnicodeCase} (env : environment) (base : bytes)
  (Hteam : team_scope env = None) (Hwg : env (lit "AETHER_WG_CONFIG") = None) (Hmq : env (lit "AETHER_MASQUE_CONFIG") = None) :
  NoDup (lastconn_path base :: lastconn_path (masque_config_path env base) :: register_paths env base).
Proof.
  unfold register_paths, warp_config_path, masque_config_path, secondary_path, gool_identity_path, lastconn_path. cbv zeta.
  rewrite Hteam, Hwg, Hmq, !derive_twice by done. pose proof (λ a, derive_longer base a) as Hl.
  assert (∀ a, derive_sibling_path base a ≠ base) as Hne. { intros a E. specialize (Hl a). rewrite E in Hl. lia. }
  assert (∀ a b, derive_sibling_path base a = derive_sibling_path base b → str_eqb a b = true) as Hinj.
  { intros a b ->%derive_inj. by apply str_eqb_eq. }
  repeat (apply NoDup_cons_2; [intros Hin; repeat (apply elem_of_cons in Hin as [Hin|Hin];
    [first [by apply (Hne _ Hin)|by apply (Hne _ (eq_sym Hin))|by apply Hinj in Hin]|]); by apply not_elem_of_nil in Hin|]).
  apply NoDup_nil_2.
Qed.

(** ** Registrations on concrete worlds *)
Module Registrations.

(** Three bytes in four, the last of them their number. *)
Fixpoint groups (b : bytes) : bytes :=
  match b with
  | [] => []
  | [x] => [x; 0; 0; 1]
  | [x; y] => [x; y; 0; 2]
  | x :: y :: z :: r => x :: y :: z :: 3 :: groups r
  end.
Fixpoint ungroups (s : bytes) : option bytes :=
  match s with
  | [] => Some []
  | x :: y :: z :: n :: r =>
      rest ← ungroups r;
      if n =? 1 then Some (x :: rest) else if n =? 2 then Some (x :: y :: rest) else Some (x :: y :: z :: rest)
  | _ => None
  end.
#[local] Instance base64_toy : Base64 := λ s, match ungroups s with Some b => Ok b | None => Err (lit "length") end.
#[local] Instance base64_encode_toy : Base64Encode := groups.
Lemma groups_spec (b : bytes) : ungroups (groups b) = Some b ∧ blen (groups b) = 4 * ((blen b + 2) / 3).
Proof.
  remember (length b) as n eqn:En. revert b En. induction (lt_wf n) as [n _ IH]. intros b ->.
  destruct b as [|x [|y [|z r]]]; [done..|]. cbn [groups ungroups]. destruct (IH (length r)) with (b := r) as [-> E]; [cbn; lia|done|].
  split; [done|]. rewrite !blen_cons, E. replace (1 + (1 + (1 + blen r)) + 2) with (blen r + 2 + 1 * 3) by lia.
  rewrite Z.div_add by lia. lia.
Qed.
#[local] Instance base64_toy_ok : Base64Ok.
Proof.
  split; intros b; destruct (groups_spec b) as [E1 E2]; [|done]. unfold base64_decode, base64_toy, base64_encode, base64_encode_toy. by rewrite E1.
Qed.

(** A line for each field. *)
Definition lines_of (p : PersistedIdentity) : list bytes :=
  [p_device_id p; p_access_token p; p_cert_pem p; p_key_pem p; decimal (p_cert_issued_at p); p_ipv4 p; p_ipv6 p;
   p_wg_private_key p; p_wg_peer_public_key p; p_client_id p; p_organization p; p_gateway_proxy p; p_assigned_endpoint p].
Definition of_lines (l : list bytes) : option PersistedIdentity :=
  match l with
  | [d; t; c; k; n; v4; v6; w; pk; ci; o; g; a] =>
      issued ← parse_u64 n; Some (mk_persisted d t c k issued v4 v6 w pk ci o g a)
  | _ => None
  end.
#[local] Instance persisted_eq_dec : EqDecision PersistedIdentity.
Proof. solve_decision. Defined.
Definition read_lines (s : bytes) : comp bytes PersistedIdentity :=
  match of_lines (split_by (λ c, c =? 10) s) with Some p => Ok p | None => Err (lit "lines") end.
#[local] Instance toml_toy : TomlCrate := {|
  toml_decode := read_lines;
  toml_encode p :=
    let s := foldr (λ a r, a ++ r) [] (match lines_of p with a :: l => a :: map (cons 10) l | [] => [] end) in
    if forallb is_ascii s then
      match read_lines s with Ok q => if bool_decide (q = p) then Ok s else Err (lit "field") | _ => Err (lit "field") end
    else Err (lit "text");
|}.
#[local] Instance toml_toy_ok : TomlCrateOk.
Proof.
  intros p s. cbn [toml_encode toml_toy toml_decode]. cbv zeta. set (t := foldr _ _ _).
  destruct (forallb is_ascii t) eqn:Ea; [|done]. destruct (read_lines t) as [q|e|] eqn:Er; [|done..].
  case_bool_decide; [|done]. intros [= <-]. subst q. split; [done|by apply utf8_ascii].
Qed.
#[local] Instance ascii_only : UnicodeCase := λ s, s.

Definition no_settings : environment := λ _, None.
Definition empty_world : world := mk_world ∅ [] None None None.
Definition key (x : Z) : bytes := replicate 32 x.

Definition a_device : AccountData :=
  mk_account (lit "device") (lit "token") (lit "172.16.0.2") (lit "2606::1")
    [mk_peer (groups (key 9)) (lit "162.159.192.1:2408")] (groups [1; 2; 3]) [] [].
Definition an_identity : Identity :=
  mk_identity (lit "device") (lit "token") [] [] 0 (lit "172.16.0.2") (lit "2606::1") (key 7) (key 9) [1; 2; 3] [] []
    (lit "162.159.192.1") false.

(** An API that answers, a disk that works. *)
Definition willing (_ : list call) (_ : call) : comp AetherError AccountData := Ok a_device.
Definition sound (_ : bytes) : option write_step := None.
Definition is_enable (c : call) : bool := match c with CEnable _ => true | _ => false end.
(** An API that does not enable, [n] times. *)
Definition reluctant (n : nat) (made : list call) (c : call) : comp AetherError AccountData :=
  if is_enable c && (length (List.filter is_enable made) <? n)%nat then Err (EApi (lit "later")) else Ok a_device.

Lemma identity_saved_loads_witness :
  identity_ok an_identity ∧
  ∃ w, save 1 sound [] (lit "/etc/aether.toml") an_identity empty_world = (Ok tt, w) ∧
    load (λ _, false) (lit "/etc/aether.toml") w = (Ok (Some an_identity), w).
Proof.
  assert (identity_ok an_identity) as Hok by (split_and!; [done..| |]; constructor).
  split; [done|]. eexists. split; [vm_compute; reflexivity|].
  apply (identity_saved_loads no_settings 1 sound [] (λ _, false) (lit "/etc/aether.toml") an_identity empty_world _ Hok). vm_compute. reflexivity.
Defined.

Abbreviation try_gool n w := (provision_gool 1 (reluctant n) (λ _, key 7) sound [] (lit "g.toml") w).

Lemma gool_device_reused_witness :
  let w := (try_gool 2 empty_world).2 in
  calls w = [CRegister None; CEnable (lit "device")] ∧
  let '(r, next) := try_gool 2 w in
  calls next = calls w ++ [CEnable (lit "device")] ∧ ∀ j, r = Ok j → device_id j = lit "device".
Proof.
  split; [vm_compute; reflexivity|].
  apply (gool_device_reused no_settings 1 (reluctant 2) (λ _, key 7) sound [] (λ _, false) (lit "g.toml") (lit "device") (EApi (lit "later"))
    empty_world (try_gool 2 empty_world).2) with (made := [CRegister None]); vm_compute; reflexivity.
Defined.

(** The third try succeeds, with the one device registered. *)
Example gool_third_try :
  let '(r, w) := try_gool 2 (try_gool 2 (try_gool 2 empty_world).2).2 in
  r = Ok an_identity ∧ calls w = CRegister None :: replicate 3 (CEnable (lit "device")).
Proof. by vm_compute. Qed.

Lemma identity_files_apart_witness :
  NoDup [lit "a-lastconn.toml"; lit "a-masque-lastconn.toml"; lit "a.toml"; lit "a-secondary.toml"; lit "a-masque.toml";
         lit "a-masque-secondary.toml"; lit "a-masque-gool.toml"].
Proof. apply (identity_files_apart no_settings (lit "a.toml")); vm_compute; reflexivity. Defined.

Definition in_team : environment := λ name, if str_eqb name (lit "AETHER_TEAM") then Some (lit "acme") else None.

(** The gool identity of a team is listed as the identity of a team. *)
Example gool_listed_as_team :
  let path := gool_identity_path (masque_config_path in_team (lit "aether.toml")) in
  path = lit "aether-team-acme-gool.toml" ∧
  enrolled_teams (lit "aether.toml") [lit "aether-team-acme.toml"; path; lit "aether-team-acme-secondary.toml"]
  = [lit "acme"; lit "acme-gool"].
Proof. by vm_compute. Qed.

(** An API that refuses one device its enrollment. *)
Definition forgetful (_ : list call) (c : call) : comp AetherError AccountData :=
  match c with CEnroll d _ => if str_eqb d (lit "old") then Err (EIdentityRefused []) else Ok a_device | _ => Ok a_device end.
Definition old_identity : Identity :=
  mk_identity (lit "old") (lit "token") [] [] 0 [] [] (key 1) (key 2) [0; 0; 0] [] [] [] false.

(** --register replaces an identity file already there when the API refuses
    it. *)
Example registered_file_replaced :
  let path := lit "a-masque.toml" in
  let w0 := (save 1 sound [] path old_identity empty_world).2 in
  let w := (register_identities no_settings 1 1000 forgetful (Ok []) (λ _, key 7) (λ _, Ok ([65], [66], [67])) sound [] (λ _, false)
    (mk_register false false true false false) (lit "a.toml") w0).2 in
  (∃ i, load (λ _, false) path w0 = (Ok (Some i), w0) ∧ device_id i = lit "old") ∧
  (∃ i, load (λ _, false) path w = (Ok (Some i), w) ∧ device_id i = lit "device").
Proof. vm_compute. split; eexists; (split; [reflexivity|reflexivity]). Qed.
End Registrations.
