(* ===== verification/Relay.v ===== *)
(** * Relays: the bytes of a connection, and the clients of a listener

    src/aether/src/socks.rs: [relay_tcp], [relay_generic] and [relay_tunneled]
    move the bytes of the two directions of a connection, [relay_halves] ends
    them, and [accept_clients] takes the clients of a listener.

    The two directions of a relay are steps of one machine: what a read and the
    write after it gave, or the waking of the timer, in any order the scheduler
    chooses.  Times are milliseconds since the relay began. *)

From stdpp Require Import strings.
From S2P Require Import Prelude Text Net NetText Fragment Netstack Error Stream Upstream Socks SocksServer LocalState.

(** ** One direction *)

Definition RELAY_CHUNK : Z := 16384.

Definition half_close_linger (env : environment) : Z := secs_of env (lit "AETHER_HALF_CLOSE_SECS") 30.

Inductive read := Data (b : bytes) | Eof | ReadFailed.

(** What happens to a direction: a read, a part of [write_all] done, its end
    with [flush], or their failure. *)
Inductive half_event := Read (r : read) | Wrote (n : nat) | Flushed | WriteFailed.

(** What a direction passed on, and what is left to write of the chunk in hand,
    with its size. *)
Record half := mk_half { passed : bytes; in_hand : option bytes; chunk_size : Z }.
Definition half_start : half := mk_half [] None 0.

Inductive ending := Finished | Broken_read | Broken_write.
Inductive progress := Going | Moved (n : Z) | Ended (e : ending).

(** [None] where the event cannot happen. *)
Definition half_step (h : half) (e : half_event) : option (half * progress) :=
  match e, in_hand h with
  | Read (Data b), None => if is_empty b then None else Some (mk_half (passed h) (Some b) (blen b), Going)
  | Read Eof, None => Some (h, Ended Finished)
  | Read ReadFailed, None => Some (h, Ended Broken_read)
  | Wrote n, Some rest =>
      if bool_decide (0 < n ≤ length rest)%nat then Some (mk_half (passed h ++ take n rest) (Some (drop n rest)) (chunk_size h), Going)
      else None
  | Flushed, Some [] => Some (mk_half (passed h) None 0, Moved (chunk_size h))
  | WriteFailed, Some _ => Some (h, Ended Broken_write)
  | _, _ => None
  end.

(** ** Both directions *)

(** Which of the relays: over two sockets, counted in the traffic totals or
    not, or into the tunnel. *)
Inductive relay_kind := Sockets (counted : bool) | Tunneled.
Definition counts (k : relay_kind) : bool := match k with Sockets c => c | Tunneled => true end.

(** Whether the end of the upload closes the far end's side: over sockets
    always; into the tunnel unless the tunnel takes nothing any more. *)
Definition upload_closes (k : relay_kind) (e : ending) : bool :=
  match k, e with Tunneled, Broken_write => false | _, _ => true end.
(** [remote_shut] and [client_shut]: the far end and the client see the end of
    what is sent to them.  The upload shuts the far end's side as it ends; the
    download ends the relay with it, and a relay that is over lets go of both
    connections: the write halves are dropped, which shuts them down, and
    [TcpSender] sends its [TcpClose] as it is dropped. *)
Record relay := mk_relay {
  up : half;
  down : half;
  upload_over : bool;
  remote_shut : bool;
  client_shut : bool;
  last_ms : Z;               (** [Activity] *)
  wake_at : Z;               (** the timer of [relay_halves] *)
  total_up : Z;
  total_down : Z;
  over : bool;
}.

Definition relay_start : relay := mk_relay half_start half_start false false false 0 0 0 0 false.

Inductive relay_event := Up (e : half_event) | Down (e : half_event) | Woken.

Definition quiet_until (linger : Z) (s : relay) : Z := last_ms s + linger.

(** A step at [now]; [None] where the event cannot happen. *)
Definition relay_step (k : relay_kind) (linger : Z) (s : relay) (ev : Z * relay_event) : option relay :=
  let now := ev.1 in
  if over s then None
  else
    match ev.2 with
    | Up e =>
        if upload_over s then None
        else
          '(h, p) ← half_step (up s) e;
          let last := match p with Going => last_ms s | _ => now end in
          let total := match p with Moved n => if counts k then total_up s + n else total_up s | _ => total_up s end in
          let '(ended, shut) := match p with Ended e => (true, upload_closes k e) | _ => (false, remote_shut s) end in
          Some (mk_relay h (down s) ended shut (client_shut s) last (if ended then now + linger else wake_at s)
                  total (total_down s) false)
    | Down e =>
        '(h, p) ← half_step (down s) e;
        let last := match p with Moved _ => now | _ => last_ms s end in
        let total := match p with Moved n => if counts k then total_down s + n else total_down s | _ => total_down s end in
        let ended := match p with Ended _ => true | _ => false end in
        Some (mk_relay (up s) h (upload_over s) (ended || remote_shut s) (ended || client_shut s) last (wake_at s)
                (total_up s) total ended)
    | Woken =>
        if negb (upload_over s) || (now <? wake_at s) then None
        else
          let quiet := quiet_until linger s <=? now in
          Some (mk_relay (up s) (down s) true (quiet || remote_shut s) (quiet || client_shut s) (last_ms s)
                  (if quiet then wake_at s else quiet_until linger s) (total_up s) (total_down s) quiet)
    end.

Fixpoint relay_run (k : relay_kind) (linger : Z) (s : relay) (evs : list (Z * relay_event)) : option relay :=
  match evs with
  | [] => Some s
  | ev :: evs => s ← relay_step k linger s ev; relay_run k linger s evs
  end.

(** ** The clients of a listener *)

(** An error of the system: its kind and its code. *)
Inductive error_kind :=
| ConnectionAborted | ConnectionReset | ConnectionRefused | Interrupted | WouldBlock | TimedOut | Denied | AddrInUse
| AddrNotAvailable | OtherError.
Record io_error := mk_io { kind : error_kind; raw_os_error : option Z }.

(** EMFILE, ENFILE, ENOBUFS and ENOMEM of Linux. *)
Definition out_of_resources (code : Z) : bool := bool_decide (code ∈ [24; 23; 105; 12]).
(** ENETDOWN, EPROTO, ENOPROTOOPT, EHOSTDOWN, ENONET, EHOSTUNREACH, EOPNOTSUPP
    and ENETUNREACH. *)
Definition failed_while_queued (code : Z) : bool := bool_decide (code ∈ [100; 71; 92; 112; 64; 113; 95; 101]).

(** How long to wait before the next accept; [None] when the listener is
    broken. *)
Definition accept_backoff (e : io_error) : option Z :=
  match kind e with
  | ConnectionAborted | ConnectionReset | ConnectionRefused | Interrupted | WouldBlock | TimedOut | Denied => Some 0
  | _ =>
      code ← raw_os_error e;
      if out_of_resources code then Some 100 else if failed_while_queued code then Some 0 else None
  end.

Definition client_limit `{w : arch} (env : environment) (tier : Tier) (open_file_limit : option Z) : Z :=
  match (v ← env (lit "AETHER_MAX_CLIENTS"); n ← parse_uint (usize_max w) (trim v); if 0 <? n then Some n else None) with
  | Some limit => limit
  | None =>
      let by_tier := match tier with Low => 512 | Medium => 2048 | High => 8192 end in
      match open_file_limit with
      | Some files => Z.min by_tier (Z.max (saturating_sub files 64 / 2) 32)
      | None => by_tier
      end
  end.

(** The loop: the clients that are served, in the order they came, the permits
    that are left and why the loop ended. *)
Record listening := mk_listening { serving : list Z; permits : Z; broken : option io_error; refused_accepts : Z }.
Definition listen_start (max : Z) : listening := mk_listening [] max None 0.

Inductive listen_event := Accepted (client : Z) | AcceptFailed (e : io_error) | ClientDone (client : Z).

Definition listen_step (l : listening) (ev : listen_event) : option listening :=
  match broken l with
  | Some _ => None
  | None =>
      match ev with
      | Accepted c => if 0 <? permits l then Some (mk_listening (serving l ++ [c]) (permits l - 1) None (refused_accepts l)) else None
      | AcceptFailed e =>
          if 0 <? permits l then
            match accept_backoff e with
            | Some _ => Some (mk_listening (serving l) (permits l) None (refused_accepts l + 1))
            | None => Some (mk_listening (serving l) (permits l) (Some e) (refused_accepts l))
            end
          else None
      | ClientDone c =>
          if bool_decide (c ∈ serving l) then
            Some (mk_listening (filter (λ x, x ≠ c) (serving l)) (permits l + blen (filter (λ x, x = c) (serving l))) None
                    (refused_accepts l))
          else None
      end
  end.

Fixpoint listen_run (l : listening) (evs : list listen_event) : option listening :=
  match evs with
  | [] => Some l
  | ev :: evs => l ← listen_step l ev; listen_run l evs
  end.

(** ** The gateway proxy *)

(** [GATEWAY_PROXY], set once, and [GATEWAY_HEALTHY]. *)
Record gateway_state := mk_gateway { proxy : option SocketAddr; healthy : bool }.

Definition set_gateway_proxy (g : gateway_state) (address : bytes) : gateway_state :=
  let trimmed := trim address in
  if is_empty trimmed then g
  else
    match parse_socket_addr trimmed, proxy g with
    | Some parsed, None => mk_gateway (Some parsed) (healthy g)
    | _, _ => g
    end.

Definition gateway_proxy (g : gateway_state) : option SocketAddr := if healthy g then proxy g else None.
Definition retire_gateway (g : gateway_state) : gateway_state := mk_gateway (proxy g) false.

(** ** Whether a SOCKS5 server answers *)

(** [reply]: what came back on the greeting in time, if anything. *)
Definition answers_greeting (reply : option bytes) : bool :=
  match reply with Some b => (2 <=? blen b) && str_eqb (takez 2 b) [5; 0] | None => false end.

(** ** What a relay passes on *)

(** The bytes read on each side, in order. *)
Definition up_read (evs : list (Z * relay_event)) : bytes :=
  flat_map (λ ev : Z * relay_event, match ev.2 with Up (Read (Data b)) => b | _ => [] end) evs.
Definition down_read (evs : list (Z * relay_event)) : bytes :=
  flat_map (λ ev : Z * relay_event, match ev.2 with Down (Read (Data b)) => b | _ => [] end) evs.

Definition held (h : half) : bytes := passed h ++ default [] (in_hand h).
Definition read_of (e : half_event) : bytes := match e with Read (Data b) => b | _ => [] end.

(** A direction loses nothing and adds nothing. *)
Lemma half_step_held h e h' p : half_step h e = Some (h', p) →
  held h' = held h ++ read_of e ∧ (p = Ended Finished ∨ p = Ended Broken_read → in_hand h' = None).
Proof.
  unfold half_step, held. destruct e as [[b| |]|n| |], (in_hand h) as [rest|] eqn:E; try done.
  - destruct (is_empty b); [done|]. intros [= <- <-]. cbn. rewrite app_nil_r. split; [done|by intros [|]].
  - intros [= <- <-]. rewrite E. cbn. by rewrite !app_nil_r.
  - intros [= <- <-]. rewrite E. cbn. by rewrite !app_nil_r.
  - case_bool_decide; [|done]. intros [= <- <-]. cbn. rewrite <- app_assoc, take_drop, app_nil_r. split; [done|by intros [|]].
  - destruct rest; [|done]. intros [= <- <-]. cbn. by rewrite !app_nil_r.
  - intros [= <- <-]. rewrite E. cbn. rewrite app_nil_r. split; [done|by intros [|]].
Qed.

Lemma relay_run_app k linger s evs evs' :
  relay_run k linger s (evs ++ evs') = (s' ← relay_run k linger s evs; relay_run k linger s' evs').
Proof. revert s. induction evs as [|ev evs IH]; intros s; [done|]. cbn. destruct (relay_step k linger s ev); [apply IH|done]. Qed.

(** Induction over a run, from its end. *)
Lemma relay_run_ind k linger s0 (P : list (Z * relay_event) → relay → Prop) :
  P [] s0 → (∀ evs s ev s', P evs s → relay_step k linger s ev = Some s' → P (evs ++ [ev]) s') →
  ∀ evs s, relay_run k linger s0 evs = Some s → P evs s.
Proof.
  intros H0 Hstep evs. induction evs as [|ev evs IH] using rev_ind; intros s; [by intros [= <-]|].
  rewrite relay_run_app. destruct (relay_run k linger s0 evs) as [s1|]; cbn [mbind option_bind relay_run]; [|done].
  destruct (relay_step k linger s1 ev) as [s2|] eqn:E; cbn [mbind option_bind]; [|done]. intros [= <-]. eauto.
Qed.

Lemma up_read_snoc evs ev : up_read (evs ++ [ev]) = up_read evs ++ match ev.2 with Up e => read_of e | _ => [] end.
Proof. unfold up_read. rewrite flat_map_app. cbn. destruct ev as [t [[]| |]]; cbn; by rewrite ?app_nil_r. Qed.
Lemma down_read_snoc evs ev : down_read (evs ++ [ev]) = down_read evs ++ match ev.2 with Down e => read_of e | _ => [] end.
Proof. unfold down_read. rewrite flat_map_app. cbn. destruct ev as [t [|[]|]]; cbn; by rewrite ?app_nil_r. Qed.

(** The events that end a direction. *)
Definition ends_half (e : half_event) : Prop := e = Read Eof ∨ e = Read ReadFailed ∨ e = WriteFailed.

(** All that a direction read was passed on, or a write failed. *)
Definition delivered (h : half) (failed : relay_event) (evs : list (Z * relay_event)) : Prop :=
  in_hand h = None ∨ ∃ t, (t, failed) ∈ evs.

(** What holds of a relay after the events of a run: of one that goes on, and
    of one whose last event ended it. *)
Definition relay_inv (k : relay_kind) (evs : list (Z * relay_event)) (s : relay) : Prop :=
  held (up s) = up_read evs ∧ held (down s) = down_read evs ∧
  (upload_over s = true → delivered (up s) (Up WriteFailed) evs) ∧
  if over s then
    (∃ t e, last evs = Some (t, Down e) ∧ ends_half e ∧ delivered (down s) (Down WriteFailed) evs) ∨
    (∃ t, last evs = Some (t, Woken) ∧ upload_over s = true)
  else
    client_shut s = false ∧ (remote_shut s = true → upload_over s = true ∧ (k = Tunneled → in_hand (up s) = None)).

Lemma half_step_ended h e h' en : half_step h e = Some (h', Ended en) →
  ends_half e ∧ (en = Broken_write ∧ e = WriteFailed ∨ en ≠ Broken_write ∧ in_hand h' = None).
Proof.
  unfold half_step, ends_half. destruct e as [[b| |]|n| |], (in_hand h) as [[|x rest]|] eqn:E; try done;
    try (intros [= <- <-]; auto 6; fail); [by destruct (is_empty b)|by case_bool_decide..].
Qed.

Lemma delivered_more h failed evs ev : delivered h failed evs → delivered h failed (evs ++ [ev]).
Proof. intros [?|[t Ht]]; [by left|right]. exists t. set_solver. Qed.

Lemma delivered_ended h e h' en now evs (side : half_event → relay_event) : half_step h e = Some (h', Ended en) →
  delivered h' (side WriteFailed) (evs ++ [(now, side e)]).
Proof.
  intros [_ [[_ ->]|[_ ?]]]%half_step_ended; [right|by left]. exists now. set_solver.
Qed.

Lemma relay_step_inv k linger evs s ev s' : relay_inv k evs s → relay_step k linger s ev = Some s' → relay_inv k (evs ++ [ev]) s'.
Proof.
  intros (Hu & Hd & Hup & Hs). destruct ev as [now [e|e|]]; unfold relay_step; cbn [fst snd]; destruct (over s) eqn:Eo; try done;
    destruct Hs as [Hc Hr]; unfold relay_inv; rewrite up_read_snoc, down_read_snoc, last_snoc; cbn [snd]; rewrite ?app_nil_r.
  - destruct (upload_over s) eqn:Eu; [done|]. destruct (half_step (up s) e) as [[h p]|] eqn:Eh; cbn [mbind option_bind]; [|done].
    destruct (half_step_held _ _ _ _ Eh) as [E1 _].
    destruct p as [|n|en]; intros [= <-]; cbn [up down upload_over remote_shut client_shut over]; rewrite E1, Hu.
    1,2: split_and!; [done|done|done|done|]; intros [? _]%Hr; done.
    split_and!; [done|done|intros _; by eapply delivered_ended|done|]. intros Hsh. split; [done|]. intros ->.
    apply half_step_ended in Eh as [_ [[-> _]|[_ ?]]]; [done|done].
  - destruct (half_step (down s) e) as [[h p]|] eqn:Eh; cbn [mbind option_bind]; [|done].
    destruct (half_step_held _ _ _ _ Eh) as [E1 _].
    assert (upload_over s = true → delivered (up s) (Up WriteFailed) (evs ++ [(now, Down e)])) as Hup'
      by (intros ?%Hup; by apply delivered_more).
    destruct p as [|n|en]; intros [= <-]; cbn [up down upload_over remote_shut client_shut over orb]; rewrite E1, Hd;
      (split; [done|]; split; [done|]; split; [done|]); [done|done|]. left. exists now, e.
    split_and!; [done|by apply half_step_ended in Eh as [? _]|by eapply delivered_ended].
  - destruct (negb (upload_over s) || (now <? wake_at s)) eqn:Ew; [done|]. apply orb_false_iff in Ew as [Eu%negb_false_iff _].
    intros [= <-]. cbn [up down upload_over remote_shut client_shut over].
    split; [done|]. split; [done|]. split; [intros _; by apply delivered_more, Hup|].
    destruct (_ <=? now); cbn [orb]; [right; eauto|]. split; [done|]. intros [_ ?]%Hr. done.
Qed.

Lemma relay_run_inv k linger evs s : relay_run k linger relay_start evs = Some s → relay_inv k evs s.
Proof. revert evs s. apply relay_run_ind; [|intros; by eapply relay_step_inv]. by split_and!. Qed.

Lemma delivered_passed h failed evs sent : held h = sent → delivered h failed evs → passed h = sent ∨ ∃ t, (t, failed) ∈ evs.
Proof. intros <- [E|E]; [left|by right]. unfold held. rewrite E. cbn. by rewrite app_nil_r. Qed.

(** C26. A relay is transparent: in every order of its reads, writes and timers
    what each side was passed is, with what is still in hand of the chunk that
    is being written, what was read from the other side, byte for byte.  The
    client sees the end of the data only once the relay is over, and then it
    was passed all that came, or did not take it, or the timer ended the relay;
    the far end sees it only once it was passed all the client sent, or did not
    take it, or the download has ended and the relay with it.  Into a tunnel
    the end of the data never overtakes the data while the relay goes on. *)
Theorem relay_transparent (k : relay_kind) (linger : Z) (evs : list (Z * relay_event)) (s : relay)
  (Hrun : relay_run k linger relay_start evs = Some s) :
  passed (up s) ++ default [] (in_hand (up s)) = up_read evs ∧
  passed (down s) ++ default [] (in_hand (down s)) = down_read evs ∧
  (client_shut s = true → over s = true ∧
    (passed (down s) = down_read evs ∨ (∃ t, (t, Down WriteFailed) ∈ evs) ∨ ∃ t, last evs = Some (t, Woken))) ∧
  (remote_shut s = true →
    passed (up s) = up_read evs ∨ (∃ t, (t, Up WriteFailed) ∈ evs) ∨
    over s = true ∧ ∃ t e, last evs = Some (t, Down e) ∧ ends_half e) ∧
  (k = Tunneled → over s = false → remote_shut s = true → passed (up s) = up_read evs).
Proof.
  destruct (relay_run_inv _ _ _ _ Hrun) as (Hu & Hd & Hup & Hs). split_and!; [done|done|..].
  - intros Hc. destruct (over s); [|by destruct Hs; congruence]. split; [done|].
    destruct Hs as [(t & e & _ & _ & H%(delivered_passed _ _ _ _ Hd))|(t & E & _)]; [tauto|eauto].
  - intros Hr. destruct (over s).
    + destruct Hs as [(t & e & E & He & _)|(t & _ & H%Hup%(delivered_passed _ _ _ _ Hu))]; [right; right; eauto 6|tauto].
    + destruct Hs as [_ [H%Hup%(delivered_passed _ _ _ _ Hu) _]%(λ H, H Hr)]. tauto.
  - intros -> E Hr. rewrite E in Hs. destruct Hs as [_ [_ Hh]%(λ H, H Hr)]. rewrite <- Hu. unfold held. rewrite Hh by done.
    cbn. by rewrite app_nil_r.
Qed.

(** ** When a relay ends *)

(** Data was moved, or the upload ended. *)
Definition touches (e : relay_event) : bool :=
  match e with
  | Up (Wrote _) | Up (Read (Data _)) => false
  | Up _ | Down Flushed => true
  | _ => false
  end.

(** The times of a run do not go back. *)
Fixpoint in_order (from : Z) (evs : list (Z * relay_event)) : Prop :=
  match evs with [] => True | (t, _) :: evs => from ≤ t ∧ in_order t evs end.

Definition linger_inv (linger : Z) (evs : list (Z * relay_event)) (s : relay) : Prop :=
  (∀ t e, (t, e) ∈ evs → touches e = true → t ≤ last_ms s) ∧
  (last_ms s = 0 ∨ ∃ e, (last_ms s, e) ∈ evs ∧ touches e = true) ∧
  (upload_over s = true → wake_at s ≤ last_ms s + linger ∧ ∃ t e, (t, e) ∈ evs ∧ touches e = true).

Lemma in_order_snoc from evs t e : in_order from (evs ++ [(t, e)]) → in_order from evs ∧ from ≤ t ∧ ∀ t' e', (t', e') ∈ evs → t' ≤ t.
Proof.
  revert from. induction evs as [|[t0 e0] evs IH]; intros from; cbn.
  - intros [Hf _]. split_and!; [done|done|]. intros t' e' Hin%not_elem_of_nil. done.
  - intros [Hf [Ho [Ht0 Hall]]%IH]. split_and!; [done|done|lia|]. intros t' e' [[= -> ->]|Hin]%elem_of_cons; [done|by eapply Hall].
Qed.

Lemma half_step_touch h e h' p : half_step h e = Some (h', p) →
  (touches (Up e) = match p with Going => false | _ => true end) ∧ (touches (Down e) = match p with Moved _ => true | _ => false end).
Proof.
  unfold half_step. destruct e as [[b| |]|n| |], (in_hand h) as [[|x rest]|]; try done; try (by intros [= <- <-]).
  - destruct (is_empty b); [done|]. by intros [= <- <-].
  - case_bool_decide; [|done]. by intros [= <- <-].
  - case_bool_decide; [|done]. by intros [= <- <-].
Qed.

(** A step that touches at [now], and one that leaves the clock alone. *)
Lemma linger_touch linger evs now e s' :
  (∀ t e', (t, e') ∈ evs → t ≤ now) → touches e = true → last_ms s' = now → (upload_over s' = true → wake_at s' ≤ now + linger) →
  linger_inv linger (evs ++ [(now, e)]) s'.
Proof.
  intros Hnow Ht El Hw. split_and!; rewrite El.
  - intros t e' [Hin|[= -> ->]%list_elem_of_singleton]%elem_of_app _; [by eapply Hnow|done].
  - right. exists e. set_solver.
  - intros Hu. split; [by apply Hw|]. exists now, e. set_solver.
Qed.

Lemma linger_still linger evs now e s s' : linger_inv linger evs s → touches e = false → last_ms s' = last_ms s →
  (upload_over s' = true → upload_over s = true ∧ wake_at s' ≤ last_ms s + linger) → linger_inv linger (evs ++ [(now, e)]) s'.
Proof.
  intros (Hall & Hlast & Hup) Ht El Hu. split_and!; rewrite El.
  - intros t e' [Hin|[= -> ->]%list_elem_of_singleton]%elem_of_app Ht'; [by eapply Hall|congruence].
  - destruct Hlast as [?|(e' & Hin & ?)]; [by left|right]. exists e'. set_solver.
  - intros [[_ (t & e' & Hin & ?)]%Hup Hw]%Hu. split; [done|]. exists t, e'. set_solver.
Qed.

Lemma linger_run k linger evs s : 0 ≤ linger → in_order 0 evs → relay_run k linger relay_start evs = Some s → linger_inv linger evs s.
Proof.
  intros Hl Ho Hrun. revert evs s Hrun Ho. apply (relay_run_ind k linger relay_start (λ evs s, in_order 0 evs → linger_inv linger evs s)).
  { intros _. split_and!; [by intros t e Hin%not_elem_of_nil|by left|done]. }
  intros evs s [now e] s' IH Hs Ho. apply in_order_snoc in Ho as (Ho & H0 & Hnow). specialize (IH Ho). pose proof IH as (_ & Hlast & Hup).
  assert (last_ms s ≤ now) as Hln by (destruct Hlast as [->|(e' & Hin & _)]; [done|by eapply Hnow]).
  unfold relay_step in Hs. cbn [fst snd] in Hs. destruct (over s); [done|]. destruct e as [e|e|].
  - destruct (upload_over s) eqn:Eu; [done|]. destruct (half_step (up s) e) as [[h p]|] eqn:Eh; cbn [mbind option_bind] in Hs; [|done].
    destruct (half_step_touch _ _ _ _ Eh) as [Et _]. destruct p; injection Hs as <-;
      [by eapply linger_still|by apply linger_touch|apply linger_touch; done || (cbn; lia)].
  - destruct (half_step (down s) e) as [[h p]|] eqn:Eh; cbn [mbind option_bind] in Hs; [|done].
    destruct (half_step_touch _ _ _ _ Eh) as [_ Et]. destruct p; injection Hs as <-;
      [eapply linger_still|apply linger_touch|eapply linger_still]; try done; cbn; intros Hu; destruct (Hup Hu) as [Hw _]; [by split|lia|by split].
  - destruct (negb (upload_over s) || (now <? wake_at s)) eqn:Ew; [done|]. apply orb_false_iff in Ew as [Eu%negb_false_iff _]. injection Hs as <-.
    eapply linger_still; [done..|]. cbn. intros _. split; [done|]. destruct (_ <=? _); [by apply Hup|]. unfold quiet_until. lia.
Qed.

(** C34. A connection the client has finished sending on is closed when no whole
    chunk was passed on for the linger time, and no sooner: while the relay is
    not over and its upload has ended, the timer ends it at [now] exactly when
    the end of the upload and the last chunk that was written and flushed, in
    either direction, are that old; and then the timer is due.  A part of a
    chunk that the client takes does not count ([slow_client_cut]). *)
Theorem relay_lingers (k : relay_kind) (linger now : Z) (evs : list (Z * relay_event)) (s : relay)
  (Hlinger : 0 ≤ linger) (Horder : in_order 0 (evs ++ [(now, Woken)])) (Hrun : relay_run k linger relay_start evs = Some s)
  (Hopen : over s = false) (Hended : upload_over s = true) :
  (∃ s', relay_step k linger s (now, Woken) = Some s' ∧ over s' = true) ↔
  (∀ t e, (t, e) ∈ evs → touches e = true → t + linger ≤ now).
Proof.
  apply in_order_snoc in Horder as (Ho & _ & _). destruct (linger_run _ _ _ _ Hlinger Ho Hrun) as (Hall & Hlast & Hup).
  unfold relay_step. cbn [fst snd]. rewrite Hopen, Hended. cbn [negb orb]. destruct (Hup Hended) as [Hw (t0 & e0 & Hin0 & Ht0)]. split.
  - intros (s' & Hs & Hover) t e Hin Ht. destruct (now <? wake_at s); [done|]. injection Hs as <-. cbn in Hover. unfold quiet_until in Hover.
    specialize (Hall t e Hin Ht). lia.
  - intros Hq. assert (last_ms s + linger ≤ now) as Hquiet.
    { destruct Hlast as [E|(e & Hin & Ht)]; [|by eapply Hq]. pose proof (Hq t0 e0 Hin0 Ht0). specialize (Hall t0 e0 Hin0 Ht0).
      assert (0 ≤ t0); [|lia]. clear -Ho Hin0. revert Ho. generalize 0. induction evs as [|[t e] evs IH]; intros from; [by apply not_elem_of_nil in Hin0|].
      intros [Hf Ho]. apply elem_of_cons in Hin0 as [[= -> ->]|Hin]; [done|]. specialize (IH Hin t Ho). lia. }
    destruct (Z.ltb_spec now (wake_at s)); [lia|]. eexists. split; [done|]. cbn. unfold quiet_until. lia.
Qed.

(** ** The traffic totals *)

(** What was passed on of the chunk in hand. *)
Definition part (h : half) : Z := match in_hand h with Some rest => chunk_size h - blen rest | None => 0 end.

Lemma half_step_total h e h' p : half_step h e = Some (h', p) →
  blen (passed h') - part h' = blen (passed h) - part h + match p with Moved n => n | _ => 0 end.
Proof.
  unfold half_step, part. destruct e as [[b| |]|n| |], (in_hand h) as [rest|] eqn:E; try done.
  - destruct (is_empty b); [done|]. intros [= <- <-]. cbn [passed in_hand chunk_size]. lia.
  - intros [= <- <-]. rewrite E. lia.
  - intros [= <- <-]. rewrite E. lia.
  - case_bool_decide as Hn; [|done]. intros [= <- <-]. cbn [passed in_hand chunk_size]. unfold blen. rewrite length_app, length_drop, length_take. lia.
  - destruct rest; [|done]. intros [= <- <-]. cbn [passed in_hand chunk_size]. unfold blen. cbn. lia.
  - intros [= <- <-]. rewrite E. lia.
Qed.

(** The totals count what was passed on, chunk by chunk: each is the number of
    bytes passed on but for those of the chunk in hand; where the bytes are
    counted elsewhere they stay as they were. *)
Theorem totals_exact (k : relay_kind) (linger : Z) (evs : list (Z * relay_event)) (s : relay)
  (Hrun : relay_run k linger relay_start evs = Some s) :
  if counts k then total_up s = blen (passed (up s)) - part (up s) ∧ total_down s = blen (passed (down s)) - part (down s)
  else total_up s = 0 ∧ total_down s = 0.
Proof.
  revert evs s Hrun. apply relay_run_ind; [by destruct (counts k)|]. intros evs s [now e] s' IH. unfold relay_step. cbn [fst snd].
  destruct (over s); [done|]. destruct e as [e|e|].
  - destruct (upload_over s); [done|]. destruct (half_step (up s) e) as [[h p]|] eqn:Eh; cbn [mbind option_bind]; [|done].
    apply half_step_total in Eh. destruct p; intros [= <-]; cbn; destruct (counts k); (split; [|tauto]); destruct IH; lia.
  - destruct (half_step (down s) e) as [[h p]|] eqn:Eh; cbn [mbind option_bind]; [|done].
    apply half_step_total in Eh. destruct p; intros [= <-]; cbn; destruct (counts k); (split; [tauto|]); destruct IH; lia.
  - destruct (negb (upload_over s) || (now <? wake_at s)); [done|]. by intros [= <-].
Qed.

(** ** The clients served at once *)

Lemma filter_parts (P : Z → Prop) `{∀ x, Decision (P x)} (l : list Z) :
  blen (filter (λ x, ¬ P x) l) + blen (filter P l) = blen l.
Proof.
  induction l as [|x l IH]; [done|]. rewrite !filter_cons. rewrite blen_cons.
  destruct (decide (P x)), (decide (¬ P x)); try done; rewrite blen_cons; lia.
Qed.

(** A listener never serves more clients at once than its limit, takes new
    ones whenever one of them is done, and ends on no error but one that means
    the listener itself is broken. *)
Theorem listener_bounded (max : Z) (evs : list listen_event) (l : listening)
  (Hmax : 0 < max) (Hrun : listen_run (listen_start max) evs = Some l) :
  blen (serving l) ≤ max ∧ permits l = max - blen (serving l) ∧
  (broken l = None → blen (serving l) < max → ∀ c, is_Some (listen_step l (Accepted c))) ∧
  (∀ e, broken l = Some e → accept_backoff e = None).
Proof.
  assert (∀ evs l0 l, listen_run l0 evs = Some l → blen (serving l0) ≤ max ∧ permits l0 = max - blen (serving l0) ∧ (∀ e, broken l0 = Some e → accept_backoff e = None) →
    blen (serving l) ≤ max ∧ permits l = max - blen (serving l) ∧ (∀ e, broken l = Some e → accept_backoff e = None)) as Hinv.
  { clear Hmax Hrun evs l. induction evs as [|ev evs IH]; intros l0 l; cbn [listen_run]; [by intros [= <-]|].
    destruct (listen_step l0 ev) as [l1|] eqn:Es; cbn [mbind option_bind]; [|done]. intros Hrun (Hle & Hp & Hb). apply (IH l1 l Hrun). clear IH Hrun.
    unfold listen_step in Es. destruct (broken l0) eqn:Eb; [done|]. destruct ev as [c|e|c].
    - destruct (Z.ltb_spec 0 (permits l0)); [|done]. injection Es as <-. cbn. rewrite blen_app. change (blen [c]) with 1. split_and!; [lia|lia|done].
    - destruct (0 <? permits l0); [|done]. destruct (accept_backoff e) eqn:Ea; injection Es as <-; cbn; split_and!; [done..|]. by intros ? [= <-].
    - case_bool_decide; [|done]. injection Es as <-. cbn. pose proof (filter_parts (λ x, x = c) (serving l0)) as Hf.
      pose proof (Zle_0_nat (length (filter (λ x, x = c) (serving l0)))). unfold blen in *. split_and!; [lia|lia|done]. }
  destruct (Hinv evs _ _ Hrun) as (Hle & Hp & Hb); [unfold blen; cbn; split_and!; [lia|lia|done]|]. split_and!; [done..| |done].
  intros En Hlt c. unfold listen_step. rewrite En. destruct (Z.ltb_spec 0 (permits l)); [by eexists|lia].
Qed.

(** Whatever the machine, at least one client is served. *)
Lemma client_limit_positive `{w : arch} env tier files : 0 < client_limit env tier files.
Proof.
  unfold client_limit. destruct (env _) as [v|]; cbn [mbind option_bind].
  2:{ destruct files; destruct tier; lia. }
  destruct (parse_uint (usize_max w) (trim v)) as [n|]; cbn [mbind option_bind]; [destruct (Z.ltb_spec 0 n); [done|]|];
    destruct files; destruct tier; lia.
Qed.

(** ** Relays on concrete events *)
Module Relaying.

(** The client sends three bytes and is done; the answer comes in two parts. *)
Definition chat : list (Z * relay_event) :=
  [(1, Up (Read (Data [1; 2; 3]))); (2, Up (Wrote 2)); (3, Down (Read (Data [7; 8]))); (4, Up (Wrote 1)); (5, Up Flushed);
   (6, Up (Read Eof)); (7, Down (Wrote 2)); (8, Down Flushed); (9, Down (Read (Data [9]))); (10, Down (Wrote 1)); (11, Down Flushed)].
Definition closed_chat : list (Z * relay_event) := chat ++ [(12, Down (Read Eof))].

Lemma relay_transparent_witness :
  ∃ s, relay_run Tunneled 30 relay_start closed_chat = Some s ∧ client_shut s = true ∧
    passed (down s) ++ default [] (in_hand (down s)) = down_read closed_chat.
Proof.
  assert (∃ s, relay_run Tunneled 30 relay_start closed_chat = Some s ∧ client_shut s = true) as (s & E & Hs)
    by (eexists; split; [vm_compute; reflexivity|reflexivity]).
  exists s. split; [exact E|]. split; [exact Hs|]. by apply (relay_transparent Tunneled 30 closed_chat s E).
Defined.

Lemma relay_lingers_witness :
  ∃ s, relay_run Tunneled 30 relay_start chat = Some s ∧
    ((∃ s', relay_step Tunneled 30 s (41, Woken) = Some s' ∧ over s' = true) ↔ (∀ t e, (t, e) ∈ chat → touches e = true → t + 30 ≤ 41)).
Proof.
  assert (∃ s, relay_run Tunneled 30 relay_start chat = Some s ∧ over s = false ∧ upload_over s = true) as (s & E & Ho & Hu)
    by (eexists; split; [vm_compute; reflexivity|split; reflexivity]).
  exists s. split; [exact E|]. apply (relay_lingers Tunneled 30 41 chat s); [done|repeat split; done|done|done|done].
Defined.

(** The timer ends the relay at 41, thirty after the last chunk, not at 36. *)
Example timer_waits :
  (s ← relay_run Tunneled 30 relay_start (chat ++ [(36, Woken)]); Some (over s)) = Some false ∧
  (s ← relay_run Tunneled 30 relay_start (chat ++ [(36, Woken); (41, Woken)]); Some (over s)) = Some true.
Proof. by vm_compute. Qed.

Lemma totals_exact_witness :
  ∃ s, relay_run (Sockets true) 30 relay_start closed_chat = Some s ∧
    total_up s = blen (passed (up s)) - part (up s) ∧ total_down s = blen (passed (down s)) - part (down s).
Proof.
  assert (∃ s, relay_run (Sockets true) 30 relay_start closed_chat = Some s) as [s E] by (eexists; vm_compute; reflexivity).
  exists s. split; [exact E|]. exact (totals_exact (Sockets true) 30 closed_chat s E).
Defined.

(** A client that takes a chunk slowly, but takes it, is cut off: only whole
    chunks count as activity. *)
Example slow_client_cut :
  let evs := [(0, Up (Read Eof)); (1, Down (Read (Data [1; 2; 3; 4]))); (10, Down (Wrote 1)); (20, Down (Wrote 1)); (29, Down (Wrote 1));
              (30, Woken)] in
  (s ← relay_run (Sockets true) 30 relay_start evs; Some (over s, passed (down s), client_shut s)) = Some (true, [1; 2; 3], true).
Proof. by vm_compute. Qed.

(** A far end that is done sending ends the relay: what the client still sends
    is cut off where it is. *)
Example upload_cut :
  let evs := [(1, Up (Read (Data [1; 2; 3]))); (2, Up (Wrote 1)); (3, Down (Read Eof))] in
  (s ← relay_run (Sockets true) 30 relay_start evs; Some (passed (up s), remote_shut s)) = Some ([1], true).
Proof. by vm_compute. Qed.

Definition arrivals : list listen_event :=
  [Accepted 1; Accepted 2; ClientDone 1; AcceptFailed (mk_io OtherError (Some 24)); Accepted 3].
Lemma listener_bounded_witness : ∃ l, listen_run (listen_start 2) arrivals = Some l ∧ blen (serving l) ≤ 2.
Proof.
  assert (∃ l, listen_run (listen_start 2) arrivals = Some l) as [l E] by (eexists; vm_compute; reflexivity).
  exists l. split; [exact E|]. by apply (listener_bounded 2 arrivals l).
Defined.
End Relaying.
