(* ===== verification/H2Session.v ===== *)
(** * The HTTP/2 MASQUE session

    src/aether/src/masque_h2.rs: the handshake the carrier runs on
    ([connect_tls]), the check of an endpoint ([verify_h2]) and the loop of the
    tunnel ([run]).  The data plane, [drain_capsules] and [pump_outbound], is
    in Masque.v.  BoringSSL, the h2 crate, the sockets and the clock are the
    events and parameters of the model; times are milliseconds. *)

From stdpp Require Import strings.
From S2P Require Import Prelude Text Net NetText Fragment Netstack Masque Error Tls Https.

(** ** Settings *)

Definition data_check_enabled (env : environment) : bool := bool_decide (env (lit "AETHER_MASQUE_NO_DATA_CHECK") = None).
Definition validation_timeout (env : environment) : Z := secs_of env (lit "AETHER_MASQUE_VALIDATE_SECS") 10.
Definition h2_keepalive_interval (env : environment) : Z := secs_of env (lit "AETHER_MASQUE_H2_KEEPALIVE_SECS") 15.
Definition h2_keepalive_timeout (env : environment) : Z := secs_of env (lit "AETHER_MASQUE_H2_KEEPALIVE_TIMEOUT_SECS") 20.
Definition REQUIRED_SUCCESSES : Z := 2.

Definition h2_peer (env : environment) (quic_peer : SocketAddr) : SocketAddr :=
  default quic_peer (v ← env (lit "AETHER_MASQUE_H2_PEER"); parse_socket_addr (trim v)).

Definition rejected_ech (message : bytes) : bool := contains (lit "ECH_REJECTED") message.

(** [build_connect_request]: the URI and the headers. *)
Definition build_connect_request (authority protocol : bytes) : bytes * list (bytes * bytes) :=
  (lit "https://" ++ authority ++ lit ":443",
   [(lit "cf-connect-proto", protocol); (lit "pq-enabled", lit "false"); (lit "user-agent", [])]).

(** ** The handshake *)

Record connecting := mk_connecting {
  ech_now : option bytes;
  retried : bool;
  offered : list (option bytes);    (** the keys of the handshakes so far *)
  globals : ech_globals;
}.

Section handshake.
(** Dialling the first and the second time, and BoringSSL. *)
Context (dial : bool → comp AetherError ()) (env : tls_env).

Definition connect_step (s : connecting) : round connecting (comp AetherError () * connecting) :=
  match (_ ← match ech_now s with
             | Some list =>
                 _ ← ensure_offerable list;
                 match set_list env list with Some e => Err (ETls (lit "h2 ech config: " ++ e)) | None => Ok () end
             | None => Ok ()
             end;
         dial (retried s)) with
  | Err e => Done (Err e, s)
  | Panic => Done (Panic, s)
  | Ok _ =>
      let tried := mk_connecting (ech_now s) (retried s) (offered s ++ [ech_now s]) (globals s) in
      match Https.attempt env (retried s) (ech_now s) with
      | Connected accepted _ =>
          if bool_decide (is_Some (ech_now s)) && negb accepted then Done (Err (EEch (lit "the handshake went without ECH")), tried)
          else Done (Ok (), tried)
      | Refused message retry_configs =>
          let retry :=
            if negb (retried s) && bool_decide (is_Some (ech_now s)) && rejected_ech message then
              configs ← retry_configs; if is_empty configs then None else usable_retry configs
            else None in
          match retry with
          | None => Done (Err (ETls (lit "h2 tls handshake: " ++ message)), tried)
          | Some retry => Next (mk_connecting (Some retry) true (offered tried) (adopt_ech_retry retry (globals s)))
          end
      end
  end.

(** A key is replaced once at most. *)
Definition connect_measure (s : connecting) : nat := if retried s then 0 else 1.

#[export] Instance connect_decreasing : Decreasing connect_measure connect_step.
Proof.
  intros s s'. unfold connect_step, connect_measure. destruct (mbind _ _); [|done..].
  destruct (Https.attempt env (retried s) (ech_now s)); [by destruct (_ && _)|].
  destruct (retried s); cbn [negb andb]; [done|].
  destruct (if _ && _ then _ else _) as [r|]; [|done]. intros [= <-]. cbn. lia.
Qed.

Definition connect_tls (ech : option bytes) (g : ech_globals) : comp AetherError () * connecting :=
  let s := mk_connecting ech false [] g in loop connect_measure connect_step (Panic, s) s.

(** A key that a session with the key [ech0] may offer. *)
Definition offerable (ech0 k : option bytes) : Prop :=
  (k = None ↔ ech0 = None) ∧ ∀ l, k = Some l → check_ech_config_list l = Ok tt.

(** What holds as the loop goes on. *)
Definition connect_inv (ech0 : option bytes) (s : connecting) : Prop :=
  (ech_now s = None ↔ ech0 = None) ∧ blen (offered s) = (if retried s then 1 else 0) ∧ Forall (offerable ech0) (offered s).

(** The handshake is made with a key that can be offered. *)
Lemma offered_ok ech0 s : connect_inv ech0 s →
  (_ ← match ech_now s with
       | Some list => _ ← ensure_offerable list; match set_list env list with Some e => Err (ETls (lit "h2 ech config: " ++ e)) | None => Ok () end
       | None => Ok ()
       end; dial (retried s)) = Ok () →
  Forall (offerable ech0) (offered s ++ [ech_now s]) ∧ blen (offered s ++ [ech_now s]) ≤ 2.
Proof.
  intros (He & Hn & Ht) E. split; [|rewrite blen_app, Hn; change (blen [ech_now s]) with 1; destruct (retried s); lia].
  apply Forall_app. split; [done|]. apply Forall_singleton. split; [done|]. intros l El. rewrite El in E.
  unfold ensure_offerable in E. by destruct (check_ech_config_list l) as [[]| |].
Qed.

Lemma connect_step_inv ech0 s s' : connect_inv ech0 s → connect_step s = Next s' → connect_inv ech0 s'.
Proof.
  intros Hinv. unfold connect_step. destruct (mbind _ _) as [[]|e|] eqn:E; [|done..]. apply (offered_ok ech0 s Hinv) in E as [Hall _].
  destruct Hinv as (He & Hn & _). destruct (Https.attempt env (retried s) (ech_now s)); [by destruct (_ && _)|].
  destruct (retried s); cbn [negb andb]; [done|]. destruct (ech_now s) as [k|] eqn:Ek; cbn [andb].
  2:{ by rewrite bool_decide_false by (intros [? ?]; done). }
  rewrite bool_decide_true by eauto. cbn [andb].
  destruct (if rejected_ech message then _ else _) as [r|]; [|done]. intros [= <-]. split_and!; cbn; [|by rewrite blen_app, Hn|done].
  split; [done|]. intros H%He. done.
Qed.

(** The name never goes out in the clear on HTTP/2 either: whatever the
    network and BoringSSL do, [connect_tls] ends after at most two handshakes;
    when the session has a key each of them offers one that BoringSSL would
    offer, and the connection stands only if the key was accepted; without a
    key none is offered. *)
Theorem h2_hides_name (ech : option bytes) (g : ech_globals) :
  let '(r, s) := connect_tls ech g in
  blen (offered s) ≤ 2 ∧ Forall (offerable ech) (offered s) ∧
  (r = Ok () → ∃ accepted h2, Https.attempt env (retried s) (ech_now s) = Connected accepted h2 ∧ (ech ≠ None → accepted = true)).
Proof.
  unfold connect_tls. cbv zeta. set (s0 := mk_connecting ech false [] g).
  assert (connect_inv ech s0) as H0 by (split_and!; [done|done|constructor]).
  pattern (loop connect_measure connect_step (Panic, s0) s0). set (P := λ rs, _).
  apply (loop_ind connect_measure connect_step (connect_inv ech) (λ _, P)); [| |intros s1 s2; apply connect_step_inv|done].
  - clear H0. intros s [r s'] Hinv E. unfold P. unfold connect_step in E. destruct (mbind _ _) as [[]|e|] eqn:Ed.
    2,3: injection E as <- <-; destruct Hinv as (_ & Hn & Hall); rewrite Hn; (split_and!; [by destruct (retried s)|done|done]).
    apply (offered_ok ech s Hinv) in Ed as [Hall Hlen]. destruct (Https.attempt env (retried s) (ech_now s)) as [accepted h2|message configs] eqn:Ea.
    + destruct (bool_decide (is_Some (ech_now s)) && negb accepted) eqn:Eb; injection E as <- <-; (split_and!; [done|done|]); [done|].
      intros _. exists accepted, h2. split; [done|]. intros Hne. destruct accepted; [done|]. rewrite andb_true_r in Eb.
      apply bool_decide_eq_false in Eb. destruct Hinv as [He _]. exfalso. apply Hne, He. by destruct (ech_now s); [destruct Eb|].
    + destruct (if _ && _ then _ else _); [done|]. injection E as <- <-. by split_and!.
  - by intros.
Qed.
End handshake.

(** ** The tunnel *)

Section session.
Context {Q AQ : Type} `{!Sender Q bytes, !Sender AQ AssignedAddr} {w : arch}.
(** The data check, its limit and that of a ping, and the framed probe. *)
Context (data_check : bool) (validate_ms keepalive_ms : Z) (probe : bytes).

Record h2_state := mk_h2 {
  ready_fired : bool;
  told : Z;                         (** how often [ready_tx] was sent on *)
  validate_successes : Z;
  validate_deadline : option Z;
  awaiting_pong : bool;
  pong_deadline : option Z;
  body : drain_state Q AQ;          (** the parser and the queues *)
  probes : list bytes;              (** what the sender was given *)
}.

(** What ends a [select!]; [taken]: the sender had room for a probe. *)
Inductive h2_event :=
| KeepaliveTick (sent : bool)
| PongCame (failed : option bytes)
| ProbeTick (taken : bool)
| PongDue
| CtrlClose
| CtrlMigrate
| SenderOver (outcome : option (comp AetherError ()))
| BodyChunk (chunk : bytes) (taken : bool)
| BodyFailed (text : bytes)
| BodyEnd.

(** A turn: the clock at its top and at its event. *)
Record h2_turn := mk_h2_turn { at_top : Z; at_event : Z; event : h2_event }.

(** The end of a session, and whether the request stream was ended first. *)
Record h2_end := mk_end { result : comp AetherError (); finished : bool }.

Definition masque_error (text : string) : AetherError := EMasque (lit text).

(** Up to the loop, at [now]. *)
Definition h2_start (now : Z) (first_taken : bool) (q : Q) (aq : option AQ) : h2_state :=
  let body := mk_drain [] q aq false in
  if data_check then mk_h2 false 0 0 (Some (now + validate_ms)) false None body (if first_taken then [probe] else [])
  else mk_h2 true 1 0 None false None body [].

Definition passed_by (deadline : option Z) (now : Z) : bool := match deadline with Some d => d <=? now | None => false end.
Definition give_probe (taken : bool) (l : list bytes) : list bytes := if taken then l ++ [probe] else l.

(** The arm of a chunk of the body. *)
Definition h2_chunk (s : h2_state) (chunk : bytes) (taken : bool) : comp () h2_state :=
  b ← drain_capsules (mk_drain (Masque.push (parser (body s)) chunk) (inbound (body s)) (addrs (body s)) (delivered (body s)));
  if delivered b && negb (ready_fired s) then
    let n := validate_successes s + 1 in
    if n >=? REQUIRED_SUCCESSES then
      mret (mk_h2 true (told s + 1) n None (awaiting_pong s) (pong_deadline s) b (probes s))
    else mret (mk_h2 false (told s) n (validate_deadline s) (awaiting_pong s) (pong_deadline s) b (give_probe taken (probes s)))
  else mret (mk_h2 (ready_fired s) (told s) (validate_successes s) (validate_deadline s) (awaiting_pong s) (pong_deadline s) b (probes s)).

Definition with_pong (s : h2_state) (awaiting : bool) (deadline : option Z) : h2_state :=
  mk_h2 (ready_fired s) (told s) (validate_successes s) (validate_deadline s) awaiting deadline (body s) (probes s).

(** A turn of the loop: the state to go on with or the end; [None] where the
    event cannot happen. *)
Definition h2_step (s : h2_state) (t : h2_turn) : option (h2_state + h2_end) :=
  if data_check && negb (ready_fired s) && passed_by (validate_deadline s) (at_top t) then
    Some (inr (mk_end (Err (masque_error "h2 data-plane validation timeout (handshake ok, no traffic)")) true))
  else if passed_by (pong_deadline s) (at_top t) then Some (inr (mk_end (Err (masque_error "h2 keepalive timeout")) true))
  else
    match event t with
    | KeepaliveTick sent =>
        if ready_fired s && negb (awaiting_pong s) then
          Some (inl (if sent then with_pong s true (Some (at_event t + keepalive_ms)) else s))
        else None
    | PongCame failed =>
        if awaiting_pong s then
          match failed with
          | None => Some (inl (with_pong s false None))
          | Some e => Some (inr (mk_end (Err (EMasque (lit "h2 keepalive: " ++ e))) true))
          end
        else None
    | ProbeTick taken =>
        if data_check && negb (ready_fired s) then
          Some (inl (mk_h2 (ready_fired s) (told s) (validate_successes s) (validate_deadline s) (awaiting_pong s) (pong_deadline s)
                       (body s) (give_probe taken (probes s))))
        else None
    | PongDue => if passed_by (pong_deadline s) (at_event t) then Some (inl s) else None
    | CtrlClose => Some (inr (mk_end (Ok ()) true))
    | CtrlMigrate => Some (inl s)
    | SenderOver (Some r) => Some (inr (mk_end r false))
    | SenderOver None => Some (inr (mk_end (Err (masque_error "h2 send task stopped")) false))
    | BodyChunk chunk taken =>
        match h2_chunk s chunk taken with
        | Ok s => Some (inl s)
        | Err _ => None
        | Panic => Some (inr (mk_end Panic false))
        end
    | BodyFailed e => Some (inr (mk_end (Err (EMasque (lit "h2 body: " ++ e))) false))
    | BodyEnd => Some (inr (mk_end (Ok ()) false))
    end.

(** A run: the state after the turns, or how it ended. *)
Fixpoint h2_run (s : h2_state) (ts : list h2_turn) : option (h2_state + h2_end) :=
  match ts with
  | [] => Some (inl s)
  | t :: ts =>
      match h2_step s t with
      | Some (inl s) => h2_run s ts
      | Some (inr e) => match ts with [] => Some (inr e) | _ => None end
      | None => None
      end
  end.

(** ** What the session does *)

Definition chunk_of (t : h2_turn) : list bytes := match event t with BodyChunk c _ => [c] | _ => [] end.
Definition chunks_of (ts : list h2_turn) : list bytes := flat_map chunk_of ts.

(** How many of the chunks brought a packet. *)
Fixpoint deliveries (d : drain_state Q AQ) (chunks : list bytes) : Z :=
  match chunks with
  | [] => 0
  | c :: chunks =>
      match drain_capsules (mk_drain (Masque.push (parser d) c) (inbound d) (addrs d) (delivered d)) with
      | Ok d => (if delivered d then 1 else 0) + deliveries d chunks
      | _ => 0
      end
  end.

Lemma receive_snoc chunks c (d : drain_state Q AQ) :
  receive (chunks ++ [c]) d
  = (d' ← receive chunks d; drain_capsules (mk_drain (Masque.push (parser d') c) (inbound d') (addrs d') (delivered d'))).
Proof.
  revert d. induction chunks as [|c0 chunks IH]; intros d.
  - cbn [app receive mbind comp_bind mret]. by destruct (drain_capsules _).
  - cbn [app receive]. destruct (drain_capsules _) as [d'| |]; cbn [mbind comp_bind]; [apply IH|done..].
Qed.

Lemma deliveries_snoc chunks c d d' : receive chunks d = Ok d' →
  deliveries d (chunks ++ [c])
  = deliveries d chunks +
    match drain_capsules (mk_drain (Masque.push (parser d') c) (inbound d') (addrs d') (delivered d')) with
    | Ok b => if delivered b then 1 else 0
    | _ => 0
    end.
Proof.
  revert d. induction chunks as [|c0 chunks IH]; intros d.
  - intros [= ->]. cbn [app deliveries]. destruct (drain_capsules _); lia.
  - cbn [app receive deliveries].
    destruct (drain_capsules (mk_drain (Masque.push (parser d) c0) _ _ _)) as [d1| |]; cbn [mbind comp_bind]; [|done..].
    intros E%IH. rewrite E. lia.
Qed.

Lemma deliveries_nonneg d chunks : 0 ≤ deliveries d chunks.
Proof.
  revert d. induction chunks as [|c chunks IH]; intros d; [done|]. cbn [deliveries].
  destruct (drain_capsules _) as [d1| |]; [|done..]. specialize (IH d1). destruct (delivered d1); lia.
Qed.

(** The limit of the ping that was not answered yet. *)
Definition ping_after (limit : option Z) (t : h2_turn) : option Z :=
  match event t with KeepaliveTick true => Some (at_event t + keepalive_ms) | PongCame None => None | _ => limit end.

Definition h2_inv (now : Z) (q : Q) (aq : option AQ) (ts : list h2_turn) (s : h2_state) : Prop :=
  let n := deliveries (mk_drain [] q aq false) (chunks_of ts) in
  receive (chunks_of ts) (mk_drain [] q aq false) = Ok (body s) ∧
  ready_fired s = (negb data_check || (2 <=? n)) ∧ told s = (if ready_fired s then 1 else 0) ∧
  validate_successes s = (if data_check then Z.min n 2 else 0) ∧
  validate_deadline s = (if ready_fired s then None else Some (now + validate_ms)) ∧
  pong_deadline s = foldl ping_after None ts ∧
  awaiting_pong s = bool_decide (is_Some (pong_deadline s)) ∧
  (awaiting_pong s = true → ready_fired s = true).

Lemma h2_start_inv now taken q aq : h2_inv now q aq [] (h2_start now taken q aq).
Proof. unfold h2_start, h2_inv. destruct data_check; by split_and!. Qed.

(** A step that leaves the body alone. *)
Lemma h2_inv_still now q aq ts s t s' : h2_inv now q aq ts s → chunk_of t = [] →
  body s' = body s → ready_fired s' = ready_fired s → told s' = told s → validate_successes s' = validate_successes s →
  validate_deadline s' = validate_deadline s → pong_deadline s' = ping_after (pong_deadline s) t →
  awaiting_pong s' = bool_decide (is_Some (pong_deadline s')) → (awaiting_pong s' = true → ready_fired s = true) →
  h2_inv now q aq (ts ++ [t]) s'.
Proof.
  intros (Hr & Hrd & Ht & Hs & Hv & Hp & _ & _) Ec E1 E2 E3 E4 E5 E6 E7 E8. unfold h2_inv. cbv zeta.
  unfold chunks_of. rewrite flat_map_app, foldl_app. cbn [flat_map foldl]. rewrite Ec, !app_nil_r. fold (chunks_of ts).
  rewrite E1, E2, E3, E4, E5, E6 in *. split_and!; try done. by rewrite <- Hp.
Qed.

(** A chunk of the body. *)
Lemma h2_inv_chunk now q aq ts s t chunk taken s' : h2_inv now q aq ts s → event t = BodyChunk chunk taken →
  h2_chunk s chunk taken = Ok s' → h2_inv now q aq (ts ++ [t]) s'.
Proof.
  intros (Hr & Hrd & Ht & Hs & Hv & Hp & Ha & Har) Et. unfold h2_chunk. destruct (drain_capsules _) as [b| |] eqn:Ed; cbn [mbind comp_bind]; [|done..].
  assert (chunks_of (ts ++ [t]) = chunks_of ts ++ [chunk]) as Ec by (unfold chunks_of; rewrite flat_map_app; cbn; unfold chunk_of; by rewrite Et).
  assert (foldl ping_after None (ts ++ [t]) = foldl ping_after None ts) as Ep by (rewrite foldl_app; cbn; unfold ping_after; by rewrite Et).
  pose proof (deliveries_snoc (chunks_of ts) chunk _ _ Hr) as En. rewrite Ed in En.
  set (n := deliveries _ (chunks_of ts)) in *. assert (0 ≤ n) as H0 by apply deliveries_nonneg.
  unfold h2_inv. cbv zeta. rewrite Ec, Ep, En, receive_snoc, Hr. cbn [mbind comp_bind]. rewrite Ed.
  destruct (delivered b); cbn [andb].
  2:{ intros [= <-]. cbn [body ready_fired told validate_successes validate_deadline pong_deadline awaiting_pong]. rewrite Z.add_0_r. by split_and!. }
  destruct (ready_fired s) eqn:Er; cbn [negb].
  - intros [= <-]. cbn [body ready_fired told validate_successes validate_deadline pong_deadline awaiting_pong]. split_and!; try done.
    + destruct data_check; [|done]. cbn [negb orb] in *. lia.
    + destruct data_check; [|done]. cbn [negb orb] in *. lia.
  - destruct data_check; [|done]. cbn [negb orb] in *. rewrite Hs. unfold REQUIRED_SUCCESSES.
    destruct (Z.geb_spec (Z.min n 2 + 1) 2); intros [= <-]; cbn [body ready_fired told validate_successes validate_deadline pong_deadline awaiting_pong];
      split_and!; try done; try lia.
Qed.

Lemma h2_step_inv now q aq ts s t s' : h2_inv now q aq ts s → h2_step s t = Some (inl s') → h2_inv now q aq (ts ++ [t]) s'.
Proof.
  intros Hinv. pose proof Hinv as (_ & _ & _ & _ & _ & _ & Ha & Har). unfold h2_step. destruct (_ && _ && _); [done|].
  destruct (passed_by (pong_deadline s) (at_top t)); [done|].
  assert (∀ s0, s0 = s → chunk_of t = [] → ping_after (pong_deadline s) t = pong_deadline s → h2_inv now q aq (ts ++ [t]) s0) as Hsame.
  { intros ? -> Ec Ep. by apply (h2_inv_still now q aq ts s t). }
  destruct (event t) as [sent|failed|taken| | | |[r|]|chunk taken|e|] eqn:Et; try done.
  - destruct (ready_fired s && negb (awaiting_pong s)) eqn:Ec; [|done]. apply andb_prop in Ec as [Er _].
    destruct sent; intros [= <-]; [|apply Hsame; [done|unfold chunk_of|unfold ping_after]; by rewrite Et].
    apply (h2_inv_still now q aq ts s t); try done; [unfold chunk_of|unfold ping_after]; by rewrite Et.
  - destruct (awaiting_pong s); [|done]. destruct failed; [done|]. intros [= <-].
    apply (h2_inv_still now q aq ts s t); try done; [unfold chunk_of|unfold ping_after]; by rewrite Et.
  - destruct (data_check && negb (ready_fired s)); [|done]. intros [= <-].
    apply (h2_inv_still now q aq ts s t); try done; [unfold chunk_of|unfold ping_after]; by rewrite Et.
  - destruct (passed_by _ _); [|done]. intros [= <-]. apply Hsame; [done|unfold chunk_of|unfold ping_after]; by rewrite Et.
  - intros [= <-]. apply Hsame; [done|unfold chunk_of|unfold ping_after]; by rewrite Et.
  - destruct (h2_chunk s chunk taken) as [s1| |] eqn:Ec; [|done..]. intros [= <-]. by apply (h2_inv_chunk now q aq ts s t chunk taken).
Qed.

Lemma h2_run_inv now taken q aq ts s : h2_run (h2_start now taken q aq) ts = Some (inl s) → h2_inv now q aq ts s.
Proof.
  assert (∀ ts' ts s0 s, h2_inv now q aq ts s0 → h2_run s0 ts' = Some (inl s) → h2_inv now q aq (ts ++ ts') s) as Hgen.
  { clear. induction ts' as [|t ts' IH]; intros ts s0 s Hinv; cbn [h2_run]; [rewrite app_nil_r; by intros [= <-]|].
    destruct (h2_step s0 t) as [[s1|e]|] eqn:Es; [|by destruct ts'|done]. intros Hrun.
    replace (ts ++ t :: ts') with ((ts ++ [t]) ++ ts') by by rewrite <- app_assoc. apply (IH _ s1); [by apply (h2_step_inv now q aq ts s0)|done]. }
  intros Hrun. apply (Hgen ts [] (h2_start now taken q aq) s); [apply h2_start_inv|done].
Qed.

(** C32. The session says it is ready once, and exactly when two chunks of the
    body have brought packets, or at once where the check is off; and however
    the keep-alive, the probes and the control channel are interleaved, the
    packets and addresses handed on are those of the body alone. *)
Theorem h2_ready_after_data (now : Z) (taken : bool) (q : Q) (aq : option AQ) (ts : list h2_turn) (s : h2_state)
  (Hrun : h2_run (h2_start now taken q aq) ts = Some (inl s)) :
  told s = (if ready_fired s then 1 else 0) ∧
  (ready_fired s = true ↔ data_check = false ∨ 2 ≤ deliveries (mk_drain [] q aq false) (chunks_of ts)) ∧
  receive (chunks_of ts) (mk_drain [] q aq false) = Ok (body s).
Proof.
  apply h2_run_inv in Hrun as (Hr & Hrd & Ht & _). split_and!; [done| |done]. rewrite Hrd. destruct data_check; cbn [negb orb]; [|tauto].
  rewrite Z.leb_le. naive_solver.
Qed.

(** The limit of an unanswered ping: a ping was sent and no answer came. *)
Lemma ping_after_spec ts d : foldl ping_after None ts = Some d ↔
  ∃ before p after, ts = before ++ p :: after ∧ event p = KeepaliveTick true ∧ d = at_event p + keepalive_ms ∧
    Forall (λ t, event t ≠ KeepaliveTick true ∧ event t ≠ PongCame None) after.
Proof.
  induction ts as [|t ts IH] using rev_ind.
  { split; [done|]. intros (before & p & after & E & _). by destruct before. }
  rewrite foldl_app. cbn [foldl]. assert (event t = KeepaliveTick true ∨ event t ≠ KeepaliveTick true) as [Et|Et] by (destruct (event t) as [[]| | | | | | | | |]; auto).
  { unfold ping_after. rewrite Et. split.
    - intros [= <-]. exists ts, t, []. by split_and!.
    - intros (before & p & after & E & Ep & -> & Hall). destruct after as [|x after _] using rev_ind.
      + apply app_inj_tail in E as [_ <-]. done.
      + rewrite app_comm_cons, app_assoc in E. apply app_inj_tail in E as [_ <-]. by apply Forall_app in Hall as [_ [[? _] _]%Forall_cons]. }
  assert (∀ before p after, ts ++ [t] = before ++ p :: after → event p = KeepaliveTick true → ∃ after', after = after' ++ [t] ∧ ts = before ++ p :: after') as Hsplit.
  { intros before p after E Ep. destruct after as [|x after _] using rev_ind.
    - apply app_inj_tail in E as [_ ->]. done.
    - rewrite app_comm_cons, app_assoc in E. apply app_inj_tail in E as [-> ->]. eauto. }
  assert (event t = PongCame None ∨ event t ≠ PongCame None) as [Ec|Ec] by (destruct (event t) as [|[]| | | | | | | |]; auto).
  - unfold ping_after. rewrite Ec. split; [done|]. intros (before & p & after & E & Ep & _ & Hall).
    destruct (Hsplit _ _ _ E Ep) as (after' & -> & _). by apply Forall_app in Hall as [_ [[_ ?] _]%Forall_cons].
  - assert (∀ l, ping_after l t = l) as ->. { intros l. unfold ping_after. by destruct (event t) as [[]|[]| | | | | | | |]. }
    rewrite IH. split.
    + intros (before & p & after & -> & Ep & -> & Hall). exists before, p, (after ++ [t]). rewrite app_comm_cons, app_assoc. split_and!; try done.
      apply Forall_app. split; [done|]. by apply Forall_singleton.
    + intros (before & p & after & E & Ep & -> & Hall). destruct (Hsplit _ _ _ E Ep) as (after' & -> & ->).
      exists before, p, after'. split_and!; try done. by apply Forall_app in Hall as [? _].
Qed.

Definition stalled : h2_end := mk_end (Err (masque_error "h2 keepalive timeout")) true.
Definition unvalidated : h2_end := mk_end (Err (masque_error "h2 data-plane validation timeout (handshake ok, no traffic)")) true.

(** A stalled connection is noticed: a turn ends the session for it, and ends
    the request stream first, exactly when a ping was sent that no answer came
    to within the limit, whatever else the far end sends. *)
Theorem h2_stall_noticed (now : Z) (taken : bool) (q : Q) (aq : option AQ) (ts : list h2_turn) (s : h2_state) (t : h2_turn)
  (Hrun : h2_run (h2_start now taken q aq) ts = Some (inl s)) (Hcheck : data_check = false ∨ ready_fired s = true) :
  h2_step s t = Some (inr stalled) ↔
  ∃ before p after, ts = before ++ p :: after ∧ event p = KeepaliveTick true ∧ at_event p + keepalive_ms ≤ at_top t ∧
    Forall (λ t, event t ≠ KeepaliveTick true ∧ event t ≠ PongCame None) after.
Proof.
  apply h2_run_inv in Hrun as (_ & _ & _ & _ & _ & Hp & _ & _). unfold h2_step.
  assert (data_check && negb (ready_fired s) = false) as -> by (destruct Hcheck as [->| ->]; [done|by rewrite andb_false_r]). cbn [andb]. split.
  - destruct (passed_by (pong_deadline s) (at_top t)) eqn:Ep.
    { intros _. unfold passed_by in Ep. destruct (pong_deadline s) as [d|]; [|done]. apply Z.leb_le in Ep. symmetry in Hp.
      apply ping_after_spec in Hp as (before & p & after & -> & ? & -> & ?). exists before, p, after. by split_and!. }
    destruct (event t) as [[]|[e|]|[]| | | |[r|]|chunk tk|e|]; try done; repeat case_match; try done.
  - intros (before & p & after & E & Ev & Hle & Hall).
    assert (foldl ping_after None ts = Some (at_event p + keepalive_ms)) as Ef by (apply ping_after_spec; eauto 10).
    rewrite <- Hp in Ef. rewrite Ef. cbn [passed_by]. by rewrite (proj2 (Z.leb_le _ _) Hle).
Qed.

(** An edge that takes the request and drops the traffic is noticed: while the
    data check has not seen two chunks with packets, a turn ends the session
    for it exactly when the time for the check is over. *)
Theorem h2_validation_ends (now : Z) (taken : bool) (q : Q) (aq : option AQ) (ts : list h2_turn) (s : h2_state) (t : h2_turn)
  (Hrun : h2_run (h2_start now taken q aq) ts = Some (inl s)) (Hcheck : data_check = true)
  (Hfew : deliveries (mk_drain [] q aq false) (chunks_of ts) < 2) :
  h2_step s t = Some (inr unvalidated) ↔ now + validate_ms ≤ at_top t.
Proof.
  apply h2_run_inv in Hrun as (_ & Hrd & _ & _ & Hv & Hp & Ha & Har). rewrite Hcheck in *. cbn [negb orb] in Hrd.
  rewrite (proj2 (Z.leb_gt _ _) Hfew) in Hrd. rewrite Hrd in *. unfold h2_step. rewrite Hcheck, Hrd, Hv. cbn [negb andb passed_by].
  destruct (Z.leb_spec (now + validate_ms) (at_top t)); [done|]. split; [|lia].
  destruct (passed_by (pong_deadline s) (at_top t)); [done|].
  destruct (event t) as [[]|[e|]|[]| | | |[r|]|chunk tk|e|]; try done; repeat case_match; try done.
Qed.
End session.

(** ** The check of an endpoint *)

Section verify.
Context {w : arch}.

(** The loop over the capsules of a chunk: whether the second datagram came,
    and the parser and the count. *)
Definition verify_round (s : bytes * Z) : round (bytes * Z) (bool * (bytes * Z)) :=
  match next s.1 with
  | (Ok (Some (Datagram _)), p) => if s.2 + 1 >=? REQUIRED_SUCCESSES then Done (true, (p, s.2 + 1)) else Next (p, s.2 + 1)
  | (Ok (Some _), p) => Next (p, s.2)
  | (_, p) => Done (false, (p, s.2))
  end.

#[export] Instance verify_decreasing : Decreasing (λ s : bytes * Z, length s.1) verify_round.
Proof.
  intros [p n] s'. unfold verify_round. cbn [fst snd]. destruct (next p) as [[[c|]|e|] p'] eqn:E; [|done..]. apply next_shrinks in E.
  destruct c; try (by intros [= <-]). destruct (_ >=? _); [done|]. by intros [= <-].
Qed.

Definition verify_chunk (s : bytes * Z) (chunk : bytes) : bool * (bytes * Z) :=
  let s := (Masque.push s.1 chunk, s.2) in loop (λ s : bytes * Z, length s.1) verify_round (false, s) s.

(** What the check meets: a chunk of the body, its failure or its end, the
    resending of the probe, a probe that cannot be sent, the end of its time. *)
Inductive verify_event := VChunk (c : bytes) | VFailed (e : bytes) | VClosed | VResend | VSendFailed (e : AetherError) | VTimeout.

(** [None] while the check goes on. *)
Fixpoint verify_run (s : bytes * Z) (evs : list verify_event) : option (comp AetherError ()) :=
  match evs with
  | [] => None
  | VChunk c :: evs => let '(ok, s) := verify_chunk s c in if ok then Some (Ok ()) else verify_run s evs
  | VFailed e :: _ => Some (Err (EMasque (lit "h2 body: " ++ e)))
  | VClosed :: _ => Some (Err (EMasque (lit "h2 stream closed before data")))
  | VResend :: evs => verify_run s evs
  | VSendFailed e :: _ => Some (Err e)
  | VTimeout :: _ => Some (Err (EOther (lit "h2 verify timeout")))
  end.

(** [verify_h2] once the request was answered: the status, then the check. *)
Definition verify_h2 (data_check : bool) (status : Z) (evs : list verify_event) : option (comp AetherError ()) :=
  if negb ((200 <=? status) && (status <? 300)) then Some (Err (EMasque (lit "h2 connect-ip status " ++ decimal status)))
  else if negb data_check then Some (Ok ())
  else verify_run ([], 0) evs.

Definition is_datagram (c : Capsule) : bool := match c with Datagram _ => true | _ => false end.
Definition datagram_count (l : list Capsule) : Z := blen (List.filter is_datagram l).

Lemma datagram_count_app l k : datagram_count (l ++ k) = datagram_count l + datagram_count k.
Proof. unfold datagram_count. by rewrite List.filter_app, blen_app. Qed.

(** The check takes the capsules the parser gives. *)
Lemma verify_collect p l : ∃ more, (collect (p, l)).2 = l ++ more ∧ ∀ n d, n < 2 →
  let r := loop (λ s : bytes * Z, length s.1) verify_round d (p, n) in
  r.1 = (2 <=? n + datagram_count more) ∧ (r.1 = false → r.2 = ((collect (p, l)).1, n + datagram_count more)).
Proof.
  unfold collect. set (P := λ (s r : bytes * list Capsule), ∃ more, r.2 = s.2 ++ more ∧ ∀ n d, n < 2 →
    let v := loop (λ s : bytes * Z, length s.1) verify_round d (s.1, n) in
    v.1 = (2 <=? n + datagram_count more) ∧ (v.1 = false → v.2 = (r.1, n + datagram_count more))).
  change (P (p, l) (loop (λ s, length s.1) collect_step (p, l) (p, l))). apply (loop_ind _ _ (λ _, True)); [| |done|done].
  - intros [p0 l0] r _ E. unfold collect_step in E. cbn [fst snd] in E. exists []. destruct (next p0) as [[[c|]|e|] p'] eqn:En; [done|..];
      injection E as <-; cbn [fst snd]; (split; [by rewrite app_nil_r|]); intros n d Hn; cbv zeta;
      rewrite (loop_unfold (λ s : bytes * Z, length s.1) verify_round);
      (assert (verify_round (p0, n) = Done (false, (p', n))) as -> by (unfold verify_round; cbn [fst]; by rewrite En)); cbn [fst snd];
      change (datagram_count []) with 0; rewrite Z.add_0_r; (split; [symmetry; apply Z.leb_gt; lia|done]).
  - intros [p0 l0] s' r _ E (more & Hr & Hmore). unfold collect_step in E. cbn [fst snd] in E.
    destruct (next p0) as [[[c|]|e|] p'] eqn:En; [|done..]. injection E as <-. cbn [fst snd] in *. exists (c :: more).
    split; [by rewrite Hr, <- app_assoc|]. intros n d Hn. change (c :: more) with ([c] ++ more). rewrite datagram_count_app.
    cbv zeta. cbn [fst]. rewrite (loop_unfold (λ s : bytes * Z, length s.1) verify_round).
    assert (verify_round (p0, n) = if is_datagram c then if n + 1 >=? 2 then Done (true, (p', n + 1)) else Next (p', n + 1) else Next (p', n)) as ->
      by (unfold verify_round; cbn [fst snd]; rewrite En; by destruct c).
    destruct c; cbn [is_datagram]; try (rewrite Z.add_0_l; by apply Hmore).
    change (datagram_count [_]) with 1. rewrite Z.add_assoc. destruct (Z.geb_spec (n + 1) 2) as [Hge|Hlt].
    + cbn [fst snd]. split; [|done]. symmetry. apply Z.leb_le. unfold datagram_count, blen. lia.
    + by apply Hmore.
Qed.

Fixpoint body_chunks (evs : list verify_event) : list bytes :=
  match evs with [] => [] | VChunk c :: evs => c :: body_chunks evs | _ :: evs => body_chunks evs end.

Lemma feed_more cs p l : datagram_count l ≤ datagram_count (feed cs (p, l)).2.
Proof.
  revert p l. induction cs as [|c cs IH]; intros p l; [done|]. cbn [feed fst snd].
  destruct (verify_collect (Masque.push p c) l) as (more & Em & _). destruct (collect (Masque.push p c, l)) as [p' l']. cbn in Em. subst l'.
  etransitivity; [|apply IH]. rewrite datagram_count_app. unfold datagram_count, blen. lia.
Qed.

(** An endpoint passes the check exactly when two datagrams came out of its
    answer: while nothing else ended the check, it is over, and well, after
    the chunk that brought the second, however the body was cut and whatever
    capsules came between. *)
Theorem h2_verified_after_two (evs : list verify_event) (status : Z)
  (Hstatus : 200 ≤ status < 300) (Hgoing : Forall (λ e, e = VResend ∨ ∃ c, e = VChunk c) evs) :
  verify_h2 true status evs = if 2 <=? datagram_count (feed (body_chunks evs) ([], [])).2 then Some (Ok ()) else None.
Proof.
  unfold verify_h2. replace ((200 <=? status) && (status <? 300)) with true by lia. cbn [negb].
  assert (∀ evs p n l, n < 2 → datagram_count l = n → Forall (λ e, e = VResend ∨ ∃ c, e = VChunk c) evs →
    verify_run (p, n) evs = if 2 <=? datagram_count (feed (body_chunks evs) (p, l)).2 then Some (Ok ()) else None) as Hgen; [|by apply Hgen].
  clear. induction evs as [|e evs IH]; intros p n l Hn Hl Hgoing.
  { cbn. by rewrite (proj2 (Z.leb_gt _ _)) by lia. }
  apply Forall_cons in Hgoing as [He Hgoing]. destruct He as [->|[c ->]]; [by apply IH|]. cbn [verify_run body_chunks feed fst snd].
  unfold verify_chunk. cbn [fst snd]. cbv zeta. destruct (verify_collect (Masque.push p c) l) as (more & Em & Hv).
  specialize (Hv n (false, (Masque.push p c, n)) Hn). cbv zeta in Hv. destruct (loop _ _ _ _) as [ok s']. cbn [fst snd] in Hv. destruct Hv as [-> Hs].
  destruct (collect (Masque.push p c, l)) as [p' l'] eqn:Ec. cbn [fst snd] in *. subst l'.
  assert (datagram_count (l ++ more) = n + datagram_count more) as Ed by (rewrite datagram_count_app; lia).
  destruct (Z.leb_spec 2 (n + datagram_count more)) as [Hle|Hlt].
  - rewrite (proj2 (Z.leb_le _ _)); [done|]. pose proof (feed_more (body_chunks evs) p' (l ++ more)). lia.
  - rewrite Hs by done. apply IH; [done|done|done].
Qed.
End verify.

(** ** Sessions on concrete events *)
Module Sessions.

#[local] Instance take_packets : Sender (list bytes) bytes := accept_all.
#[local] Instance take_addrs : Sender (list AssignedAddr) AssignedAddr := accept_all.
#[local] Instance machine : arch := W64.

Definition a_packet : bytes := wire (datagrams [sample_v4]).
Definition turn_at (t : Z) (e : h2_event) : h2_turn := mk_h2_turn t t e.

(** Two packets, cut in the middle of the second, then a ping. *)
Definition first_turns : list h2_turn :=
  [turn_at 1 (ProbeTick true); turn_at 2 (BodyChunk a_packet true); turn_at 3 (BodyChunk (takez 5 a_packet) true);
   turn_at 4 (BodyChunk (dropz 5 a_packet) true); turn_at 5 (KeepaliveTick true)].

Abbreviation started := (h2_start (Q := list bytes) (AQ := list AssignedAddr) true 10000 [1] 0 true [] None).
Abbreviation run_first := (h2_run true 20000 [1] started first_turns).

Lemma h2_ready_after_data_witness :
  ∃ s, run_first = Some (inl s) ∧ told s = 1 ∧ receive (chunks_of first_turns) (mk_drain [] [] None false) = Ok (body s).
Proof.
  assert (∃ s, run_first = Some (inl s) ∧ told s = 1) as (s & E & Ht) by (eexists; split; [vm_compute; reflexivity|reflexivity]).
  exists s. split; [exact E|]. split; [exact Ht|]. by apply (h2_ready_after_data true 10000 20000 [1] 0 true [] None first_turns s).
Defined.

Lemma h2_stall_noticed_witness :
  ∃ s, run_first = Some (inl s) ∧ h2_step true 20000 [1] s (turn_at 20005 PongDue) = Some (inr stalled).
Proof.
  assert (∃ s, run_first = Some (inl s) ∧ ready_fired s = true) as (s & E & Hr) by (eexists; split; [vm_compute; reflexivity|reflexivity]).
  exists s. split; [exact E|]. apply (h2_stall_noticed true 10000 20000 [1] 0 true [] None first_turns s _ E); [by right|].
  exists (take 4 first_turns), (turn_at 5 (KeepaliveTick true)), []. split_and!; [reflexivity|reflexivity|cbn; lia|constructor].
Defined.

Abbreviation quiet_turns := [turn_at 1 (ProbeTick true); turn_at 2 (BodyChunk a_packet true)].
Lemma h2_validation_ends_witness :
  ∃ s, h2_run true 20000 [1] started quiet_turns = Some (inl s) ∧
    h2_step true 20000 [1] s (turn_at 10000 CtrlMigrate) = Some (inr unvalidated).
Proof.
  assert (∃ s, h2_run true 20000 [1] started quiet_turns = Some (inl s)) as [s E] by (eexists; vm_compute; reflexivity).
  exists s. split; [exact E|]. apply (h2_validation_ends true 10000 20000 [1] 0 true [] None quiet_turns s _ E); [reflexivity| |cbn; lia].
  vm_compute. reflexivity.
Defined.

Lemma h2_verified_after_two_witness :
  verify_h2 true 200 [VChunk a_packet; VResend; VChunk a_packet]
  = if 2 <=? datagram_count (feed [a_packet; a_packet] ([], [])).2 then Some (Ok ()) else None.
Proof.
  apply (h2_verified_after_two [VChunk a_packet; VResend; VChunk a_packet] 200); [lia|].
  repeat (apply Forall_cons_2; [(by left) || (right; eexists; reflexivity)|]). apply Forall_nil_2.
Defined.

Example two_datagrams_verify : verify_h2 true 200 [VChunk a_packet; VResend; VChunk a_packet; VTimeout] = Some (Ok ()).
Proof. by vm_compute. Qed.
End Sessions.
