(* ===== verification/Bridges.v ===== *)
(** * Bridges: how Tor is given a way in

    src/aether/src/bridges.rs: the lines of bridges, the transports that speak
    their protocols, the probing of bridges, and the waves in which they are
    tried.  What the programs, bridgedb and onionoo answer is an argument. *)

From stdpp Require Import strings sorting.
From S2P Require Import Prelude Text Net NetText Fragment Tls ExitLoc Random Identities Hops.

Definition PREFERENCE : list bytes := map lit ["obfs4"; "webtunnel"; "snowflake"; "meek_lite"; "meek"]%string.
Definition UNTESTABLE : list bytes := map lit ["snowflake"; "meek"; "meek_lite"; "conjure"]%string.
Definition TOR_DESIGNATED_PORTS : list Z := [9001; 9030; 9040; 9050; 9051; 9150].
Definition WEB_PORTS : list Z := [80; 443].
Definition KEEP_PER_TRANSPORT : nat := 6.
Definition RELAYS_DEFAULT : Z := 40.
Definition CACHE_MAX_AGE : Z := 6 * 60 * 60.

(** ** Lines *)

(** The words of a line, less the word Bridge in front. *)
Definition bridge_words (line : bytes) : list bytes :=
  match split_whitespace line with
  | first :: words => if eq_ignore_ascii_case first (lit "bridge") then words else first :: words
  | [] => []
  end.

Definition transport_of (line : bytes) : option bytes :=
  match bridge_words line with
  | first :: _ =>
      match first with
      | head :: _ =>
          if is_ascii_digit head || (head =? 91) || bool_decide (61 ∈ first) then None else Some (to_ascii_lowercase first)
      | [] => None
      end
  | [] => None
  end.

Definition address_of (line : bytes) : option SocketAddr :=
  written ← match transport_of line with
            | None => head (bridge_words line)
            | Some _ => bridge_words line !! 1%nat
            end;
  parse_socket_addr written.

(** The kind a line is counted under. *)
Definition kind_of (line : bytes) : bytes := default (lit "vanilla") (transport_of line).

Definition dedup (lines : list bytes) : list bytes :=
  foldl (λ out line, let t := trim line in if is_empty t || bool_decide (t ∈ out) then out else out ++ [t]) [] lines.

(** What a transport program says it speaks. *)
Definition methods_in (output : bytes) : list bytes :=
  foldl (λ found line,
    match strip_prefix (lit "CMETHOD ") (trim line) with
    | Some rest =>
        match split_whitespace rest with
        | name :: _ => let name := to_ascii_lowercase name in if bool_decide (name ∈ found) then found else found ++ [name]
        | [] => found
        end
    | None => found
    end) [] (lines output).

(** ** Transports *)

Record Transport := mk_transport { protocols : list bytes; path : bytes }.

(** The protocols of [speaks] nobody claimed, and all that are claimed then. *)
Fixpoint claim (speaks claimed : list bytes) : list bytes * list bytes :=
  match speaks with
  | [] => ([], claimed)
  | p :: speaks =>
      if bool_decide (p ∈ claimed) then claim speaks claimed
      else let '(mine, claimed) := claim speaks (p :: claimed) in (p :: mine, claimed)
  end.

(** Each program takes the protocols no program before it took. *)
Fixpoint claim_all (found : list Transport) (claimed : list bytes) : list Transport * list bytes :=
  match found with
  | [] => ([], claimed)
  | one :: found =>
      let '(mine, claimed) := claim (protocols one) claimed in
      let '(rest, claimed) := claim_all found claimed in
      (if is_empty mine then rest else mk_transport mine (path one) :: rest, claimed)
  end.

(** [discover_transports], from the programs that were located with what each
    answered or is assumed to speak. *)
Definition discover_transports (located : list Transport) : list Transport := (claim_all located []).1.

Record Plan := mk_plan { plan_lines : list bytes; transports : list Transport; missing : list bytes; source : bytes }.

(** A set of names, in order. *)
Fixpoint set_insert (x : bytes) (l : list bytes) : list bytes :=
  match l with
  | [] => [x]
  | y :: l' => if str_eqb x y then l else if str_leb x y then x :: l else y :: set_insert x l'
  end.

(** The transports left with what is wanted of them. *)
Definition retain (wanted : list bytes) (ts : list Transport) : list Transport :=
  map (λ t, mk_transport (filter (λ p, p ∈ wanted) (protocols t)) (path t))
    (filter (λ t, existsb (λ p, bool_decide (p ∈ wanted)) (protocols t) = true) ts).

Definition served (claimed : list bytes) (line : bytes) : bool :=
  match transport_of line with None => true | Some p => bool_decide (p ∈ claimed) end.

(** The protocols nobody speaks. *)
Definition unserved (claimed lines : list bytes) : list bytes :=
  foldr (λ line l, if served claimed line then l else match transport_of line with Some p => set_insert p l | None => l end) [] lines.

Definition plan_with (lines : list bytes) (src : bytes) (extra found : list Transport) : Plan :=
  let '(more, claimed) := claim_all found (flat_map protocols extra) in
  let ts := extra ++ more in
  let kept := filter (λ line, served claimed line = true) lines in
  let used := omap transport_of kept in
  mk_plan kept (retain used ts) (unserved claimed lines) src.

(** ** Probing *)

(** [alive]: whether a bridge answered; one that cannot be probed counts as
    alive. *)
Definition verdict (alive : SocketAddr → bool) (line : bytes) : bool :=
  match transport_of line with
  | Some p => if bool_decide (p ∈ UNTESTABLE) then true else match address_of line with Some a => alive a | None => true end
  | None => match address_of line with Some a => alive a | None => true end
  end.

(** The second loop of [keep_reachable], with what each kind holds so far. *)
Fixpoint keep_lines (answered : bytes → bool) (alive : bytes → bool) (held : list bytes) (lines : list bytes) : list bytes :=
  match lines with
  | [] => []
  | line :: lines =>
      let k := kind_of line in
      if negb (alive line) && answered k then keep_lines answered alive held lines
      else if bool_decide (KEEP_PER_TRANSPORT ≤ length (filter (λ x, x = k) held))%nat then keep_lines answered alive held lines
      else line :: keep_lines answered alive (k :: held) lines
  end.

(** [through]: Tor dials through the tunnel or a proxy, and nothing is probed. *)
Definition keep_reachable (lines : list bytes) (through : bool) (alive : SocketAddr → bool) : list bytes :=
  if through then lines
  else
    let answered k := existsb (λ line, str_eqb (kind_of line) k && verdict alive line) lines in
    keep_lines answered (verdict alive) [] lines.

(** ** Waves *)

(** [grouped.entry(k).or_default().push(v)] on a map in the order of its keys. *)
Fixpoint entry_push (k v : bytes) (m : list (bytes * list bytes)) : list (bytes * list bytes) :=
  match m with
  | [] => [(k, [v])]
  | (k', vs) :: m' =>
      if str_eqb k k' then (k', vs ++ [v]) :: m'
      else if str_leb k k' then (k, [v]) :: m
      else (k', vs) :: entry_push k v m'
  end.
Definition grouped (lines : list bytes) : list (bytes * list bytes) := foldl (λ m line, entry_push (kind_of line) line m) [] lines.

(** [sort_by_key], which keeps the order of what is equal. *)
Definition preference (first : option bytes) (name : bytes) : Z :=
  let known := match position (λ entry, str_eqb entry name) PREFERENCE with Some i => Z.of_nat i | None => blen PREFERENCE end in
  (if bool_decide (first = Some name) then 0 else blen PREFERENCE + 1) + known.
Fixpoint insert_by {A} (key : A → Z) (x : A) (l : list A) : list A :=
  match l with [] => [x] | y :: l' => if key x <=? key y then x :: l else y :: insert_by key x l' end.
Definition sort_by_key {A} (key : A → Z) (l : list A) : list A := foldr (insert_by key) [] l.

Definition wave (p : Plan) (group : bytes * list bytes) : bytes * Plan :=
  (group.1, mk_plan group.2 (retain [group.1] (transports p)) [] (source p)).

(** No waves where there is one kind of bridges only. *)
Definition waves (p : Plan) (first : option bytes) : list (bytes * Plan) :=
  let groups := grouped (plan_lines p) in
  if (length groups <? 2)%nat then [] else map (wave p) (sort_by_key (λ g, preference first g.1) groups).

(** ** Where bridges come from *)

Inductive Relays := Off | Also (n : Z) | Only (n : Z).

Definition relay_policy `{w : arch} (env : environment) : Relays :=
  let spec := to_ascii_lowercase (trim (default [] (env (lit "AETHER_TOR_RELAYS")))) in
  let is_one l := bool_decide (spec ∈ map lit l) in
  if is_one ["off"; "no"; "0"; "false"; "none"]%string then Off
  else if is_one [""; "auto"; "on"; "yes"; "true"]%string then Also RELAYS_DEFAULT
  else if is_one ["only"; "relays"]%string then Only RELAYS_DEFAULT
  else
    match parse_uint (usize_max w) (default spec (strip_prefix (lit "only:") spec)) with
    | Some count =>
        if 0 <? count then
          let count := Z.min count 400 in if starts_with (lit "only") spec then Only count else Also count
        else Also RELAYS_DEFAULT
    | None => Also RELAYS_DEFAULT
    end.

Definition relay_ports_are_open (env : environment) : bool :=
  match env (lit "AETHER_TOR_RELAY_PORTS") with
  | Some v => bool_decide (to_ascii_lowercase (trim v) ∈ map lit ["any"; "all"]%string)
  | None => false
  end.

Definition relay_line (fingerprint address : bytes) (web_only : bool) : option bytes :=
  parsed ← parse_socket_addr address;
  if bool_decide (sa_port parsed ∈ TOR_DESIGNATED_PORTS) then None
  else if web_only && negb (bool_decide (sa_port parsed ∈ WEB_PORTS)) then None
  else
    let id := to_ascii_uppercase (trim fingerprint) in
    if negb (blen id =? 40) || negb (forallb is_ascii_hexdigit id) then None
    else Some (address ++ lit " " ++ id).

(** [from_relays], from the relays onionoo lists; [mixed] is the shuffle. *)
Definition from_relays (env : environment) (want : Z) (relays : option (list (option bytes * list bytes)))
    (mixed : list bytes → list bytes) : option (list bytes) :=
  relays ← relays;
  let web_only := negb (relay_ports_are_open env) in
  let lines := flat_map (λ r : option bytes * list bytes,
    match r.1 with Some id => omap (λ a, relay_line id a web_only) r.2 | None => [] end) relays in
  if is_empty lines then None else Some (takez want (mixed lines)).

(** [from_settings]: the bridges of each kind, in the order the kinds came. *)
Fixpoint group_add (kind : bytes) (more : list bytes) (m : list (bytes * list bytes)) : list (bytes * list bytes) :=
  match m with
  | [] => [(kind, more)]
  | (k, vs) :: m => if str_eqb k kind then (k, vs ++ more) :: m else (k, vs) :: group_add kind more m
  end.
Definition from_settings (settings : option (list (bytes * list bytes))) : option (list bytes) :=
  settings ← settings;
  let groups := foldl (λ m s, if is_empty s.2 then m else group_add s.1 s.2 m) [] settings in
  if is_empty groups then None else Some (flat_map snd groups).

(** [ordered]: the kinds that are preferred first, then the others by name. *)
Definition ordered (m : list (bytes * list bytes)) : list bytes :=
  flat_map (λ wanted, flat_map (λ g : bytes * list bytes, if str_eqb g.1 wanted then g.2 else []) m) PREFERENCE
  ++ flat_map (λ g : bytes * list bytes, if bool_decide (g.1 ∈ PREFERENCE) then [] else g.2) m.

Record Cached := mk_cached { fetched : Z; cached_lines : list bytes }.

Definition fallback (embedded : list bytes) (cached : option Cached) : list bytes * bytes :=
  match cached with Some stale => (cached_lines stale, lit "stale cache") | None => (embedded, lit "built in") end.

(** What the sources answer. *)
Record sources := mk_sources {
  client_ok : bool;
  settings_reply : option (list (bytes * list bytes));
  builtin_reply : option (list (bytes * list bytes));
  onionoo_reply : option (list (option bytes * list bytes));
  mixed : list bytes → list bytes;
}.

(** The lines, where they are from, and the file of the next run. *)
Definition fetch `{w : arch} (env : environment) (embedded : list bytes) (now : Z) (cached : option Cached) (s : sources)
    : list bytes * bytes * option Cached :=
  let cached := c ← cached; if is_empty (cached_lines c) then None else Some c in
  match (c ← cached; if saturating_sub now (fetched c) <? CACHE_MAX_AGE then Some c else None) with
  | Some fresh => (cached_lines fresh, lit "cache", cached)
  | None =>
      if negb (client_ok s) then let '(l, src) := fallback embedded cached in (l, src, cached)
      else
        let relays := relay_policy env in
        let from_db :=
          match relays with
          | Only _ => []
          | _ =>
              default [] (from_settings (settings_reply s))
              ++ default [] (m ← builtin_reply s; let l := ordered m in if is_empty l then None else Some l)
          end in
        let from_onionoo :=
          match relays with Off => None | Also want | Only want => from_relays env want (onionoo_reply s) (mixed s) end in
        let src :=
          match from_onionoo with
          | Some _ => if is_empty from_db then lit "onionoo relays" else lit "bridgedb and onionoo relays"
          | None => match relays with Only _ => lit "onionoo relays" | _ => lit "bridgedb" end
          end in
        let lines := dedup (from_db ++ default [] from_onionoo) in
        if is_empty lines then let '(l, src) := fallback embedded cached in (l, src, cached)
        else (lines, src, Some (mk_cached now lines))
  end.

(** ** Probing keeps every kind *)

Definition of_kind (k line : bytes) : bool := str_eqb (kind_of line) k.

Lemma keep_lines_spec answered alive k lines held :
  List.filter (of_kind k) (keep_lines answered alive held lines)
  = take (KEEP_PER_TRANSPORT - length (filter (λ x, x = k) held))
      (List.filter (λ line, of_kind k line && (alive line || negb (answered k))) lines).
Proof.
  revert held. induction lines as [|line lines IH]; intros held; [cbn [keep_lines List.filter]; by rewrite firstn_nil|]. cbn [keep_lines List.filter].
  destruct (of_kind k line) eqn:Ek.
  - apply str_eqb_eq in Ek as Ek'. rewrite Ek'. cbn [andb]. destruct (alive line) eqn:Ea, (answered k) eqn:Ean; cbn [negb andb orb]; try apply IH.
    all: case_bool_decide as Hc; [rewrite IH; by replace (KEEP_PER_TRANSPORT - _)%nat with 0%nat by lia|];
      cbn [List.filter]; rewrite Ek, IH, filter_cons_True by done; cbn [length];
      (replace (KEEP_PER_TRANSPORT - length (filter (λ x, x = k) held))%nat
        with (S (KEEP_PER_TRANSPORT - S (length (filter (λ x, x = k) held))))%nat by lia); done.
  - assert (kind_of line ≠ k) as Hne by (intros E; unfold of_kind in Ek; by rewrite (proj2 (str_eqb_eq _ _) E) in Ek). cbn [andb].
    destruct (_ && answered (kind_of line)); [apply IH|]. destruct (bool_decide _); [apply IH|]. cbn [List.filter]. rewrite Ek, IH.
    by rewrite filter_cons_False by done.
Qed.

(** Probing bridges costs no kind of them: of each kind, the first six that
    answered are kept, in their order, and where not one of the kind answered
    the first six of all; so a kind that was there stays. *)
Theorem probing_keeps_kinds (lines : list bytes) (alive : SocketAddr → bool) (k : bytes) :
  let eligible line := verdict alive line || negb (existsb (λ l, of_kind k l && verdict alive l) lines) in
  List.filter (of_kind k) (keep_reachable lines false alive)
    = take 6 (List.filter (λ line, of_kind k line && eligible line) lines) ∧
  (existsb (of_kind k) lines = true → existsb (of_kind k) (keep_reachable lines false alive) = true).
Proof.
  cbv zeta. assert (List.filter (of_kind k) (keep_reachable lines false alive) = take 6 (List.filter (λ line, of_kind k line &&
    (verdict alive line || negb (existsb (λ l, of_kind k l && verdict alive l) lines))) lines)) as E.
  { unfold keep_reachable. by rewrite keep_lines_spec. }
  split; [exact E|]. rewrite !existsb_exists. intros (line & Hin & Hk).
  enough (∃ x, In x (List.filter (of_kind k) (keep_reachable lines false alive))) as (x & Hx%filter_In) by (exists x; tauto).
  rewrite E. set (l := List.filter _ lines). assert (∃ x, In x l) as (x & Hx).
  { destruct (existsb (λ l, of_kind k l && verdict alive l) lines) eqn:Ee.
    - apply existsb_exists in Ee as (y & Hy & [Hyk Hya]%andb_true_iff). exists y. apply filter_In. split; [done|]. by rewrite Hyk, Hya.
    - exists line. apply filter_In. split; [done|]. rewrite Hk. cbn [negb]. by rewrite orb_true_r. }
  destruct l as [|y l']; [done|]. exists y. by left.
Qed.

(** ** A plan serves its bridges *)

Lemma claim_spec speaks claimed mine claimed' : claim speaks claimed = (mine, claimed') →
  (∀ x, x ∈ claimed' ↔ x ∈ claimed ∨ x ∈ speaks) ∧ (∀ x, x ∈ mine ↔ x ∈ speaks ∧ x ∉ claimed) ∧ NoDup mine.
Proof.
  revert claimed mine. induction speaks as [|p speaks IH]; intros claimed mine; cbn [claim].
  { intros [= <- <-]. split_and!; [|by split; [intros ?%not_elem_of_nil|intros [?%not_elem_of_nil _]]|apply NoDup_nil_2].
    intros x. split; [tauto|]. by intros [?|?%not_elem_of_nil]. }
  case_bool_decide as Hp.
  - intros (H1 & H2 & H3)%IH. split_and!; [| |done]; intros x; rewrite ?H1, ?H2, elem_of_cons; (split; [tauto|]).
    + intros [?|[->|?]]; tauto.
    + intros [[->|?] ?]; [done|tauto].
  - destruct (claim speaks (p :: claimed)) as [m c] eqn:E. intros [= <- <-]. apply IH in E as (H1 & H2 & H3). split_and!.
    + intros x. rewrite H1, !elem_of_cons. tauto.
    + intros x. rewrite !elem_of_cons, H2, elem_of_cons. split; [intros [->|[? ?]]; tauto|]. intros [[->|?] ?]; [tauto|].
      destruct (decide (x = p)); [tauto|right]. tauto.
    + apply NoDup_cons_2; [|done]. rewrite H2, elem_of_cons. tauto.
Qed.

Lemma claim_all_spec found claimed more claimed' : claim_all found claimed = (more, claimed') →
  (∀ x, x ∈ claimed' ↔ x ∈ claimed ∨ x ∈ flat_map protocols found) ∧
  (∀ x, x ∈ flat_map protocols more ↔ x ∈ flat_map protocols found ∧ x ∉ claimed) ∧ NoDup (flat_map protocols more).
Proof.
  revert claimed more claimed'. induction found as [|one found IH]; intros claimed more claimed'; cbn [claim_all flat_map].
  { intros [= <- <-]. split_and!; [|by split; [intros ?%not_elem_of_nil|intros [?%not_elem_of_nil _]]|apply NoDup_nil_2].
    intros x. split; [tauto|]. by intros [?|?%not_elem_of_nil]. }
  destruct (claim (protocols one) claimed) as [mine c1] eqn:E1. destruct (claim_all found c1) as [rest c2] eqn:E2. intros [= <- <-].
  apply claim_spec in E1 as (H1 & H2 & H3). apply IH in E2 as (G1 & G2 & G3).
  assert (flat_map protocols (if is_empty mine then rest else mk_transport mine (path one) :: rest) = mine ++ flat_map protocols rest) as ->
    by by destruct mine.
  split_and!.
  - intros x. rewrite G1, H1, elem_of_app. tauto.
  - intros x. rewrite !elem_of_app, H2, G2, H1. destruct (decide (x ∈ protocols one)); tauto.
  - apply NoDup_app. split_and!; [done| |done]. intros x [Hx _]%H2 [_ Hn]%G2. apply Hn, H1. by right.
Qed.

Lemma retain_protocols wanted ts x : x ∈ flat_map protocols (retain wanted ts) ↔ x ∈ wanted ∧ x ∈ flat_map protocols ts.
Proof.
  unfold retain. induction ts as [|t ts IH]; [by split; [intros ?%not_elem_of_nil|intros [_ ?%not_elem_of_nil]]|].
  rewrite filter_cons. cbn [flat_map]. rewrite elem_of_app. case_decide as Hd.
  - cbn [map flat_map protocols]. rewrite elem_of_app, IH, list_elem_of_filter. tauto.
  - rewrite IH. split; [tauto|]. intros [Hw [Hx|Hx]]; [|tauto]. destruct Hd. apply existsb_exists. exists x.
    split; [by apply list_elem_of_In|]. by apply bool_decide_eq_true.
Qed.

Lemma retain_nodup wanted ts : NoDup (flat_map protocols ts) → NoDup (flat_map protocols (retain wanted ts)).
Proof.
  induction ts as [|t ts IH]; [done|]. cbn [flat_map]. intros (H1 & H2 & H3)%NoDup_app. unfold retain. rewrite filter_cons.
  specialize (IH H3). case_decide; [|exact IH]. cbn [map flat_map protocols]. apply NoDup_app. split_and!; [by apply NoDup_filter| |exact IH].
  intros x [_ Hx]%list_elem_of_filter Hr. apply (retain_protocols wanted ts) in Hr as [_ Hr]. by apply (H2 x).
Qed.

Lemma elem_of_set_insert x y l : x ∈ set_insert y l ↔ x = y ∨ x ∈ l.
Proof.
  induction l as [|z l IH]; cbn [set_insert]; [by rewrite elem_of_cons|]. destruct (str_eqb y z) eqn:E.
  - apply str_eqb_eq in E as ->. rewrite elem_of_cons. tauto.
  - destruct (str_leb y z); rewrite !elem_of_cons; [done|]. rewrite IH. tauto.
Qed.

Lemma elem_of_unserved claimed lines t :
  t ∈ unserved claimed lines ↔ ∃ line, line ∈ lines ∧ transport_of line = Some t ∧ served claimed line = false.
Proof.
  unfold unserved. induction lines as [|line l IH]; cbn [foldr].
  { split; [by intros ?%not_elem_of_nil|]. by intros (? & ?%not_elem_of_nil & _). }
  assert ((∃ line0, line0 ∈ line :: l ∧ transport_of line0 = Some t ∧ served claimed line0 = false) ↔
    (transport_of line = Some t ∧ served claimed line = false) ∨ ∃ line0, line0 ∈ l ∧ transport_of line0 = Some t ∧ served claimed line0 = false) as ->.
  { split; [intros (x & [->|Hx]%elem_of_cons & ? & ?); eauto 10|]. intros [[? ?]|(x & ? & ? & ?)]; [exists line|exists x]; rewrite elem_of_cons; auto. }
  rewrite <- IH. destruct (served claimed line) eqn:Es; [split; [tauto|]; intros [[_ ?]|?]; done|].
  destruct (transport_of line) as [q|] eqn:Eq; [|split; [tauto|]; intros [[? _]|?]; done]. rewrite elem_of_set_insert. split; [intros [->|?]; tauto|].
  intros [[[= ->] _]|?]; tauto.
Qed.

(** A plan serves its bridges: it keeps, in their order, the bridges that need
    no transport or whose protocol a program speaks, and names the protocol of
    each of the others as missing; its transports speak exactly the protocols
    its bridges use, and no protocol is asked of two programs unless the user
    named both. *)
Theorem plan_serves_bridges (lines : list bytes) (src : bytes) (extra found : list Transport) :
  let p := plan_with lines src extra found in
  let spoken := flat_map protocols (transports p) in
  (∀ line, line ∈ plan_lines p ↔ line ∈ lines ∧ ∀ t, transport_of line = Some t → t ∈ spoken) ∧
  sublist (plan_lines p) lines ∧
  (∀ t, t ∈ missing p ↔ ∃ line, line ∈ lines ∧ transport_of line = Some t ∧ line ∉ plan_lines p) ∧
  (∀ t, t ∈ spoken → ∃ line, line ∈ plan_lines p ∧ transport_of line = Some t) ∧
  (NoDup (flat_map protocols extra) → NoDup spoken).
Proof.
  cbv zeta. unfold plan_with. destruct (claim_all found (flat_map protocols extra)) as [more claimed] eqn:Ec. cbn [plan_lines transports missing].
  apply claim_all_spec in Ec as (Hc & Hm & Hn). set (kept := filter _ lines).
  assert (∀ x, x ∈ flat_map protocols (extra ++ more) ↔ x ∈ claimed) as Hall.
  { intros x. rewrite flat_map_app, elem_of_app, Hm, Hc. destruct (decide (x ∈ flat_map protocols extra)); tauto. }
  assert (∀ line, line ∈ kept ↔ line ∈ lines ∧ ∀ t, transport_of line = Some t → t ∈ claimed) as Hk.
  { intros line. unfold kept. rewrite list_elem_of_filter. unfold served. destruct (transport_of line) as [t|]; [rewrite bool_decide_eq_true|]; naive_solver. }
  assert (∀ t, t ∈ omap transport_of kept ↔ ∃ line, line ∈ kept ∧ transport_of line = Some t) as Hu.
  { intros t. by rewrite list_elem_of_omap. }
  split_and!.
  - intros line. rewrite Hk. split; intros [Hin Ht]; (split; [done|]); intros t Et.
    + apply retain_protocols. rewrite Hall. split; [|by apply Ht]. apply Hu. exists line. split; [by apply Hk|done].
    + specialize (Ht t Et). apply retain_protocols in Ht as [_ Ht]. by apply Hall.
  - apply sublist_filter.
  - intros t. rewrite elem_of_unserved. split; intros (line & Hin & Et & Hs); exists line; (split_and!; [done|done|]).
    + intros [Hx _]%list_elem_of_filter. congruence.
    + destruct (served claimed line) eqn:E; [|done]. destruct Hs. by apply list_elem_of_filter.
  - intros t [Ht _]%retain_protocols. by apply Hu.
  - intros Hx. apply retain_nodup. rewrite flat_map_app. apply NoDup_app. split_and!; [done| |done]. intros x Hx1 [_ Hx2]%Hm. done.
Qed.

(** ** The waves are the bridges, kind by kind *)

Lemma str_leb_refl a : str_leb a a = true.
Proof. induction a as [|x a IH]; [done|]. cbn. by rewrite Z.eqb_refl. Qed.
Lemma str_leb_trans a b c : str_leb a b = true → str_leb b c = true → str_leb a c = true.
Proof.
  revert b c. induction a as [|x a IH]; intros [|y b] [|z c]; try done. cbn.
  destruct (Z.eqb_spec x y) as [->|Hxy], (Z.eqb_spec y z) as [->|Hyz].
  - rewrite ?Z.eqb_refl. apply IH.
  - intros _. done.
  - intros Hlt _. destruct (Z.eqb_spec x z); [lia|done].
  - intros H1 H2. destruct (Z.eqb_spec x z); lia.
Qed.
Lemma str_leb_antisym a b : str_leb a b = true → str_leb b a = true → a = b.
Proof.
  revert b. induction a as [|x a IH]; intros [|y b]; try done. cbn. destruct (Z.eqb_spec x y) as [->|Hxy].
  - rewrite Z.eqb_refl. intros H1 H2. f_equal. by apply IH.
  - destruct (Z.eqb_spec y x); lia.
Qed.
Lemma str_leb_total a b : str_leb a b = false → str_leb b a = true.
Proof.
  revert b. induction a as [|x a IH]; intros [|y b]; try done. cbn. destruct (Z.eqb_spec x y) as [->|Hxy]; [rewrite Z.eqb_refl; apply IH|].
  destruct (Z.eqb_spec y x); lia.
Qed.

(** The keys of a map are in order, none twice. *)
Definition before (a b : bytes * list bytes) : Prop := str_leb a.1 b.1 = true ∧ a.1 ≠ b.1.

Lemma entry_push_keys k v m x : x ∈ (entry_push k v m).*1 ↔ x = k ∨ x ∈ m.*1.
Proof.
  induction m as [|[k' vs] m IH]; cbn [entry_push fmap list_fmap fst]; [by rewrite elem_of_cons|].
  destruct (str_eqb k k') eqn:E; [apply str_eqb_eq in E as ->; cbn; rewrite elem_of_cons; tauto|].
  destruct (str_leb k k'); cbn [fmap list_fmap fst]; rewrite !elem_of_cons; [done|]. rewrite IH. tauto.
Qed.

Lemma entry_push_sorted k v m : StronglySorted before m → StronglySorted before (entry_push k v m).
Proof.
  induction m as [|[k' vs] m IH]; intros Hs; cbn [entry_push]; [repeat constructor|]. apply StronglySorted_inv in Hs as [Hs Hf].
  destruct (str_eqb k k') eqn:E; [by constructor|].
  assert (k ≠ k') as Hne by (intros Ek; by rewrite (proj2 (str_eqb_eq _ _) Ek) in E). destruct (str_leb k k') eqn:El.
  - constructor; [by constructor|]. constructor; [done|]. apply Forall_forall. intros [k2 vs2] Hin.
    rewrite Forall_forall in Hf. destruct (Hf _ Hin) as [H1 H2]. cbn in *. split; [by eapply str_leb_trans|]. cbn. intros ->.
    apply Hne. by apply str_leb_antisym.
  - constructor; [by apply IH|]. apply Forall_forall. intros [k2 vs2] Hin.
    assert (k2 ∈ (entry_push k v m).*1) as Hk by (by apply (list_elem_of_fmap_2 fst) in Hin). apply entry_push_keys in Hk as [->|Hk].
    + split; [by apply str_leb_total|done].
    + apply list_elem_of_fmap in Hk as ([k3 vs3] & Ek & Hk). cbn in Ek. subst k3. rewrite Forall_forall in Hf. exact (Hf _ Hk).
Qed.

(** What a key holds. *)
Definition held_by (m : list (bytes * list bytes)) (k : bytes) : list bytes := flat_map (λ g, if str_eqb g.1 k then g.2 else []) m.

Lemma held_by_none m k : k ∉ m.*1 → held_by m k = [].
Proof.
  induction m as [|[k' vs] m IH]; [done|]. cbn [held_by flat_map fmap list_fmap fst snd]. intros [Hne Hni]%not_elem_of_cons.
  destruct (str_eqb k' k) eqn:E.
  - apply str_eqb_eq in E. congruence.
  - by apply IH.
Qed.

Lemma entry_push_held k v m k' : StronglySorted before m →
  held_by (entry_push k v m) k' = held_by m k' ++ (if str_eqb k k' then [v] else []).
Proof.
  induction m as [|[k0 vs] m IH]; intros Hs; cbn [entry_push held_by flat_map fst snd]; [by destruct (str_eqb k k')|].
  apply StronglySorted_inv in Hs as [Hs Hf]. destruct (str_eqb k k0) eqn:E.
  - apply str_eqb_eq in E as ->. cbn [held_by flat_map fst snd]. fold (held_by m k'). destruct (str_eqb k0 k') eqn:E'; [|by rewrite app_nil_r].
    apply str_eqb_eq in E' as ->. rewrite held_by_none; [by rewrite !app_nil_r|]. intros ([k2 vs2] & Ek & Hin)%list_elem_of_fmap.
    rewrite Forall_forall in Hf. destruct (Hf _ Hin) as [_ Hne]. by apply Hne.
  - destruct (str_leb k k0) eqn:El; cbn [held_by flat_map fst snd]; fold (held_by m k').
    + destruct (str_eqb k k') eqn:E'; [|by rewrite app_nil_r]. apply str_eqb_eq in E' as ->. destruct (str_eqb k0 k') eqn:E0.
      { apply str_eqb_eq in E0 as ->. by rewrite (proj2 (str_eqb_eq k' k') eq_refl) in E. }
      rewrite held_by_none; [done|]. intros ([k2 vs2] & -> & Hin)%list_elem_of_fmap. cbn [fst] in *. rewrite Forall_forall in Hf.
      destruct (Hf _ Hin) as [Hle Hne]. cbn in *. apply Hne. apply str_leb_antisym; [done|]. done.
    + fold (held_by (entry_push k v m) k'). rewrite IH by done. by rewrite app_assoc.
Qed.

Lemma grouped_spec lines : StronglySorted before (grouped lines) ∧ ∀ k, held_by (grouped lines) k = List.filter (of_kind k) lines.
Proof.
  unfold grouped. induction lines as [|line lines [IH1 IH2]] using rev_ind; [by split; [constructor|]|].
  rewrite foldl_app. cbn [foldl]. split; [by apply entry_push_sorted|]. intros k. rewrite entry_push_held by done.
  rewrite IH2, List.filter_app. cbn [List.filter]. unfold of_kind. by destruct (str_eqb (kind_of line) k).
Qed.

Lemma entry_push_nonempty k v m : Forall (λ g, g.2 ≠ []) m → Forall (λ g : bytes * list bytes, g.2 ≠ []) (entry_push k v m).
Proof.
  induction m as [|[k' vs] m IH]; intros Hf; cbn [entry_push]; [by repeat constructor|]. apply Forall_cons in Hf as [Hv Hf].
  destruct (str_eqb k k'); [constructor; [|done]; cbn; by destruct vs|]. destruct (str_leb k k'); [by repeat constructor|constructor; auto].
Qed.

Lemma sorted_nodup m : StronglySorted before m → NoDup m.*1.
Proof.
  induction 1 as [|[k vs] m Hs IH Hf]; [apply NoDup_nil_2|]. cbn. apply NoDup_cons_2; [|done].
  intros ([k2 vs2] & Ek & Hin)%list_elem_of_fmap. rewrite Forall_forall in Hf. by destruct (Hf _ Hin).
Qed.

Lemma held_by_elem (m : list (bytes * list bytes)) k vs : NoDup m.*1 → (k, vs) ∈ m → held_by m k = vs.
Proof.
  induction m as [|[k' vs'] m IH]; [by intros _ ?%not_elem_of_nil|]. cbn [fmap list_fmap fst]. intros [Hni Hn]%NoDup_cons.
  intros [E|Hin]%elem_of_cons.
  - injection E as -> ->. unfold held_by. cbn [flat_map fst snd]. rewrite (proj2 (str_eqb_eq k' k') eq_refl). fold (held_by m k').
    by rewrite held_by_none, app_nil_r.
  - unfold held_by. cbn [flat_map fst snd]. fold (held_by m k). destruct (str_eqb k' k) eqn:E; [|by apply IH].
    apply str_eqb_eq in E as ->. destruct Hni. by apply (list_elem_of_fmap_2 fst) in Hin.
Qed.

(** A key of the map holds the lines of its kind. *)
Lemma grouped_elem lines k vs : (k, vs) ∈ grouped lines ↔ vs = List.filter (of_kind k) lines ∧ vs ≠ [].
Proof.
  destruct (grouped_spec lines) as [Hs Hh]. pose proof (sorted_nodup _ Hs) as Hn.
  assert (Forall (λ g : bytes * list bytes, g.2 ≠ []) (grouped lines)) as Hne.
  { unfold grouped. clear. induction lines as [|line lines IH] using rev_ind; [constructor|]. rewrite foldl_app. by apply entry_push_nonempty. }
  rewrite <- Hh. split.
  - intros Hin. split; [by rewrite (held_by_elem _ _ _ Hn Hin)|]. rewrite Forall_forall in Hne. exact (Hne _ Hin).
  - intros [-> Hv]. destruct (decide (k ∈ (grouped lines).*1)) as [Hk|Hk]; [|by rewrite held_by_none in Hv].
    apply list_elem_of_fmap in Hk as ([k2 vs2] & -> & Hin). cbn [fst]. by rewrite (held_by_elem _ _ _ Hn Hin).
Qed.

Lemma insert_by_perm {A} (key : A → Z) x l : insert_by key x l ≡ₚ x :: l.
Proof. induction l as [|y l IH]; [done|]. cbn. destruct (_ <=? _); [done|]. rewrite IH. constructor. Qed.
Lemma sort_by_key_perm {A} (key : A → Z) l : sort_by_key key l ≡ₚ l.
Proof. induction l as [|x l IH]; [done|]. cbn [sort_by_key foldr]. rewrite insert_by_perm. by constructor. Qed.
Lemma insert_by_sorted {A} (key : A → Z) x l : StronglySorted (λ a b, key a ≤ key b) l → StronglySorted (λ a b, key a ≤ key b) (insert_by key x l).
Proof.
  induction l as [|y l IH]; intros Hs; [repeat constructor|]. cbn [insert_by]. apply StronglySorted_inv in Hs as [Hs Hf].
  destruct (Z.leb_spec (key x) (key y)).
  - constructor; [by constructor|]. constructor; [done|]. eapply Forall_impl; [exact Hf|]. intros z Hz. cbn in Hz. lia.
  - constructor; [by apply IH|]. apply Forall_forall. intros z Hz. rewrite insert_by_perm in Hz. apply elem_of_cons in Hz as [->|Hz]; [lia|].
    rewrite Forall_forall in Hf. by apply Hf.
Qed.
Lemma sort_by_key_sorted {A} (key : A → Z) l : StronglySorted (λ a b, key a ≤ key b) (sort_by_key key l).
Proof. induction l as [|x l IH]; [constructor|]. by apply insert_by_sorted. Qed.

(** The waves are the bridges, kind by kind: where there are several kinds,
    each has one wave, with all its bridges in their order and the transports
    that speak it; the kind that worked before comes first, the others by
    preference; and all bridges are in the waves. *)
Theorem waves_cover (p : Plan) (first : option bytes) :
  let ws := waves p first in
  let kinds := (grouped (plan_lines p)).*1 in
  ((length kinds < 2)%nat → ws = []) ∧
  ((2 ≤ length kinds)%nat →
    ws.*1 ≡ₚ kinds ∧ NoDup ws.*1 ∧ StronglySorted (λ a b, preference first a ≤ preference first b) ws.*1 ∧
    (∀ name q, (name, q) ∈ ws → plan_lines q = List.filter (of_kind name) (plan_lines p) ∧ transports q = retain [name] (transports p)) ∧
    (∀ line, line ∈ plan_lines p → ∃ name q, (name, q) ∈ ws ∧ line ∈ plan_lines q)).
Proof.
  cbv zeta. rewrite length_fmap. unfold waves. set (m := grouped (plan_lines p)). split; [intros Hlt; by rewrite (proj2 (Nat.ltb_lt _ _) Hlt)|].
  intros Hge. rewrite (proj2 (Nat.ltb_ge _ _) Hge). set (sorted := sort_by_key _ m).
  assert (sorted ≡ₚ m) as Hp by apply sort_by_key_perm.
  assert ((map (wave p) sorted).*1 = sorted.*1) as -> by (unfold fmap; rewrite <- list_fmap_compose; done || (induction sorted as [|g l IH]; [done|]; cbn; by f_equal)).
  assert (∀ name q, (name, q) ∈ map (wave p) sorted ↔ ∃ vs, (name, vs) ∈ m ∧ q = (wave p (name, vs)).2) as Hw.
  { intros name q. rewrite (list_elem_of_fmap (wave p)). split.
    - intros ([k vs] & [= -> ->] & Hin). rewrite Hp in Hin. eauto.
    - intros (vs & Hin & ->). exists (name, vs). split; [done|]. by rewrite Hp. }
  destruct (grouped_spec (plan_lines p)) as [Hs _]. split_and!.
  - by rewrite Hp.
  - rewrite Hp. by apply sorted_nodup.
  - pose proof (sort_by_key_sorted (λ g : bytes * list bytes, preference first g.1) m) as Hk. fold sorted in Hk. clear -Hk.
    induction Hk as [|g l _ IH Hf]; [constructor|]. cbn. constructor; [done|]. apply Forall_fmap. exact Hf.
  - intros name q (vs & Hin & ->)%Hw. apply grouped_elem in Hin as [-> _]. done.
  - intros line Hin. exists (kind_of line), (wave p (kind_of line, List.filter (of_kind (kind_of line)) (plan_lines p))).2.
    assert (In line (List.filter (of_kind (kind_of line)) (plan_lines p))) as Hl.
    { apply filter_In. split; [by apply list_elem_of_In|]. by apply str_eqb_eq. }
    split; [|by apply list_elem_of_In]. apply Hw. eexists. split; [|done]. apply grouped_elem. split; [done|]. intros E. by rewrite E in Hl.
Qed.

(** There are always bridges to try. *)
Lemma fetch_nonempty `{w : arch} env embedded now cached s : embedded ≠ [] → (fetch env embedded now cached s).1.1 ≠ [].
Proof.
  intros He. unfold fetch. set (c := c ← cached; _). assert (∀ x, c = Some x → cached_lines x ≠ []) as Hc.
  { intros x. unfold c. destruct cached as [y|]; cbn; [|done]. destruct (cached_lines y) eqn:E; [done|]. intros [= <-]. by rewrite E. }
  clearbody c. assert ((fallback embedded c).1 ≠ []) as Hf by (unfold fallback; destruct c as [x|]; [by apply Hc|done]).
  destruct (c0 ← c; _) as [f|] eqn:Ef.
  { cbn. apply Hc. destruct c as [x|]; cbn in Ef; [|done]. destruct (_ <? _); [|done]. by injection Ef as ->. }
  destruct (fallback embedded c) as [l src]. cbn [fst] in Hf. destruct (negb (client_ok s)); [done|]. cbv zeta. destruct (dedup _) as [|x xs] eqn:Ed; done.
Qed.

(** ** Bridges on concrete lines *)
Module Lines.
Example reads_transport :
  transport_of (lit "Bridge obfs4 1.2.3.4:443 AB cert=x") = Some (lit "obfs4") ∧ transport_of (lit "1.2.3.4:443 AB") = None ∧
  address_of (lit "Bridge obfs4 1.2.3.4:443 AB cert=x") = parse_socket_addr (lit "1.2.3.4:443").
Proof. by vm_compute. Qed.

Definition two_kinds : Plan :=
  plan_with (map lit ["snowflake 192.0.2.3:80 X"; "obfs4 1.2.3.4:443 A"; "1.2.3.4:9 B"; "obfs4 1.2.3.5:443 C"; "webtunnel 1.1.1.1:1 D"]%string) (lit "cache")
    [] [mk_transport (map lit ["obfs4"; "snowflake"]%string) (lit "lyrebird"); mk_transport [lit "obfs4"] (lit "obfs4proxy")].
Example plan_and_waves :
  missing two_kinds = [lit "webtunnel"] ∧ map path (transports two_kinds) = [lit "lyrebird"] ∧
  (waves two_kinds (Some (lit "vanilla"))).*1 = map lit ["vanilla"; "obfs4"; "snowflake"]%string.
Proof. by vm_compute. Qed.
End Lines.
