(* ===== verification/Tor.v ===== *)
(** * Tor: the ways Tor gets through

    src/aether/src/tor.rs: the settings Tor takes from the environment, the
    bridges it is given, and the attempts to bring it up, directly or over
    bridges.  What arti and the network make of an attempt is an argument: a
    [trial] says when it makes headway, when it is up and what its first
    connection gives. *)

From stdpp Require Import strings sorting.
From S2P Require Import Prelude Text Net NetText Fragment Error Upstream Bridges Cli.

(** ** Settings *)

Inductive Mode := ModeOff | ModeChain | ModeReverse | ModeOnly.

Definition label (m : Mode) : bytes :=
  match m with
  | ModeOff => lit "off"
  | ModeChain => lit "tor through the tunnel"
  | ModeReverse => lit "the tunnel through tor"
  | ModeOnly => lit "tor alone"
  end.

Definition one_of (words : list string) (s : bytes) : bool := bool_decide (s ∈ map lit words).

Section settings.
Context `{!UnicodeCase}.

Definition mode (env : environment) : Mode :=
  match env (lit "AETHER_TOR") with
  | None => ModeOff
  | Some value =>
      let raw := to_lowercase (trim value) in
      if is_empty raw || one_of ["0"; "off"; "false"; "no"] raw then ModeOff
      else if one_of ["reverse"; "rev"; "warp-over-tor"] raw then ModeReverse
      else if one_of ["only"; "alone"; "tor-only"; "direct"] raw then ModeOnly
      else ModeChain
  end.

Definition listen_address (env : environment) : SocketAddr :=
  default (SockAddr (V4 0x7f000001) 1820) (value ← env (lit "AETHER_TOR_BIND"); parse_socket_addr (trim value)).

Definition http_listen_address (env : environment) : option SocketAddr :=
  value ← env (lit "AETHER_TOR_HTTP");
  let value := trim value in
  if is_empty value || str_eqb value (lit "off") then None else parse_socket_addr value.

Inductive given_bridges := Disabled | Manual (lines : list bytes) | Auto (forced : bool).

Definition read_bridge_line (line : bytes) : bytes :=
  trim (match strip_prefix (lit "Bridge ") line with
        | Some rest => rest
        | None => default line (strip_prefix (lit "bridge ") line)
        end).

Definition read_bridge_lines (text : bytes) : list bytes :=
  filter (λ line, is_empty line = false)
    (map read_bridge_line (filter (λ line, negb (is_empty line) && negb (starts_with (lit "#") line) = true) (map trim (lines text)))).

(** [files] is what is read of a path. *)
Definition bridges_from_file (env : environment) (files : bytes → option bytes) : list bytes :=
  match env (lit "AETHER_TOR_BRIDGE_FILE") with
  | None => []
  | Some value =>
      if is_empty (trim value) then []
      else match files (trim value) with
           | None => []
           | Some text => read_bridge_lines text
           end
  end.

Definition off_words : list string := ["off"; "no"; "0"; "false"; "none"]%string.
Definition auto_words : list string := ["auto"; "on"; "1"; "yes"; "true"; "force"]%string.

Definition bridges (env : environment) (files : bytes → option bytes) : given_bridges :=
  let from_file := bridges_from_file env files in
  let trimmed := trim (default [] (env (lit "AETHER_TOR_BRIDGES"))) in
  let word := to_lowercase trimmed in
  if negb (is_empty from_file) then
    if is_empty word || one_of off_words word || one_of auto_words word then Manual from_file
    else Manual (from_file ++ read_bridge_lines (map (λ c, if c =? 59 then 10 else c) trimmed))
  else if is_empty word then Auto false
  else if one_of off_words word then Disabled
  else if one_of auto_words word then Auto true
  else
    let lines := filter (λ line, is_empty line = false) (map trim (split_by (λ c, (c =? 10) || (c =? 59)) trimmed)) in
    if is_empty lines then Auto false else Manual lines.

Definition bridge_lines (env : environment) (files : bytes → option bytes) : list bytes :=
  match bridges env files with Manual lines => lines | _ => [] end.
End settings.

Definition transports_named (env : environment) : list (bytes * bytes) :=
  omap (λ entry,
    let entry := trim entry in
    if is_empty entry then None
    else match split_once 61 entry with
         | Some (protocol, path) => Some (trim protocol, trim path)
         | None => Some (lit "obfs4", entry)
         end) (split_by (λ c, (c =? 10) || (c =? 59)) (default [] (env (lit "AETHER_TOR_PT")))).

Fixpoint add_transport (protocol path_ : bytes) (held : list Transport) : list Transport :=
  match held with
  | [] => [mk_transport [protocol] path_]
  | t :: held =>
      if str_eqb (path t) path_
      then (if bool_decide (protocol ∈ protocols t) then t else mk_transport (protocols t ++ [protocol]) (path t)) :: held
      else t :: add_transport protocol path_ held
  end.

Definition manual_transports (env : environment) : list Transport :=
  foldl (λ held p, add_transport p.1 p.2 held) [] (transports_named env).

(** ** Times, in seconds *)

Definition BOOTSTRAP_RETRY : Z := 10.
Definition DIRECT_PROBE : Z := 75.
Definition BRIDGE_PROBE : Z := 360.
Definition STALL_LIMIT : Z := 75.
Definition STALL_CHECK : Z := 5.
Definition PROOF_LIMIT : Z := 45.
Definition WAVE_TRIES : nat := 2.
Definition REVERSE_ATTEMPTS : Z := 3.
Definition FOREVER `{w : arch} : Z := usize_max w.

Definition seconds_of (env : environment) (key : bytes) (fallback : Z) : Z :=
  default fallback (value ← env key; parse_u64 (trim value)).

Definition direct_probe (env : environment) : Z := seconds_of env (lit "AETHER_TOR_DIRECT_SECS") DIRECT_PROBE.
Definition bridge_probe (env : environment) : Z := seconds_of env (lit "AETHER_TOR_BRIDGE_SECS") BRIDGE_PROBE.
Definition stall_limit (env : environment) : Z := seconds_of env (lit "AETHER_TOR_STALL_SECS") STALL_LIMIT.

Definition proof_target (env : environment) : bytes * Z :=
  let raw := trim (default [] (env (lit "AETHER_TOR_CHECK"))) in
  if is_empty raw then (lit "check.torproject.org", 443)
  else match rsplit_once 58 raw with
       | Some (host, port) => (host, default 443 (parse_u16 port))
       | None => (raw, 443)
       end.

(** ** One attempt *)

(** What happens to an attempt, in milliseconds since its start: what the disk
    and arti say of its configuration and of its client, the times headway is
    noted, when the bootstrap ends and how, which of a bootstrap and a check
    due at once is taken, and how long the first connection takes. *)
Record trial := mk_trial {
  dirs_refused : option AetherError;
  config_refused : option AetherError;
  client_refused : option bytes;
  headway : list Z;
  bootstrap : option (Z * option bytes);
  completes_first : bool;
  connection : option (Z * option bytes);
  draw : nat → nat }.

(** [dials]: where Tor itself connects to, the relays and the plain bridges.  A
    pluggable transport is a program of its own that reaches its bridges for
    itself, around the tunnel and the proxy. *)
Record config := mk_config { dials : option SocketAddr; bridge_configs : list bytes; pluggable : list Transport }.

(** Where Tor dials: through the tunnel, or through the upstream proxy, which
    it must be able to speak to. *)
Definition outbound (through : option SocketAddr) (upstream : option Upstream) : comp AetherError (option SocketAddr) :=
  match through with
  | Some p => Ok (Some p)
  | None =>
      match upstream with
      | None => Ok None
      | Some u =>
          match socks_address u with
          | Some p => Ok (Some p)
          | None => Err (EOther (lit "tor cannot dial through the upstream proxy at " ++ endpoint u
                                 ++ lit ": it takes a socks5 address without a password"))
          end
      end
  end.

Definition build_config (readable : bytes → bool) (through : option SocketAddr) (upstream : option Upstream)
    (plan : option Plan) (t : trial) : comp AetherError config :=
  match dirs_refused t with
  | Some e => Err e
  | None =>
      dials ← outbound through upstream;
      let taken := match plan with Some p => filter (λ line, readable line = true) (plan_lines p) | None => [] end in
      if bool_decide (is_Some plan) && is_empty taken then Err (EOther (lit "none of the bridges could be read by tor"))
      else match config_refused t with
           | Some e => Err e
           | None => Ok (mk_config dials taken (match plan with Some p => transports p | None => [] end))
           end
  end.

(** The first check, five seconds apart, that finds [limit] seconds without
    headway, and the seconds it finds. *)
Fixpoint stall_at (limit seen : Z) (headway : list Z) : Z * Z :=
  let check := STALL_CHECK * Z.max 1 ((seen + limit + (STALL_CHECK - 1)) / STALL_CHECK) in
  match headway with
  | h :: more => if h <=? 1000 * check then stall_at limit (h / 1000) more else (1000 * check, check - seen)
  | [] => (1000 * check, check - seen)
  end.

Definition ended (error : option bytes) : comp AetherError unit :=
  match error with None => Ok () | Some e => Err (EOther e) end.

(** Whether Tor is up and how long it took; [None] when it never ends. *)
Definition booted (stall : option Z) (t : trial) : option (Z * comp AetherError unit) :=
  match stall with
  | None => (λ b : Z * option bytes, (b.1, ended b.2)) <$> bootstrap t
  | Some limit =>
      let '(check, quiet) := stall_at limit 0 (headway t) in
      let stalled := (check, Err (EOther (lit "no headway for " ++ decimal quiet ++ lit "s"))) in
      match bootstrap t with
      | Some (at_, r) => if (at_ <? check) || (at_ =? check) && completes_first t then Some (at_, ended r) else Some stalled
      | None => Some stalled
      end
  end.

Definition prove (env : environment) (t : trial) : Z * comp AetherError unit :=
  let '(host, port) := proof_target env in
  let target := host ++ lit ":" ++ decimal port in
  match connection t with
  | Some (after, r) =>
      if after <=? 1000 * PROOF_LIMIT
      then (after, match r with
                   | None => Ok ()
                   | Some e => Err (EOther (lit "tor came up but could not reach " ++ target ++ lit ": " ++ e))
                   end)
      else (1000 * PROOF_LIMIT, Err (EOther (lit "tor came up but " ++ target ++ lit " stayed silent for 45s")))
  | None => (1000 * PROOF_LIMIT, Err (EOther (lit "tor came up but " ++ target ++ lit " stayed silent for 45s")))
  end.

Definition boot (env : environment) (stall : option Z) (t : trial) : option (Z * comp AetherError unit) :=
  match client_refused t with
  | Some e => Some (0, Err (EOther (lit "tor client: " ++ e)))
  | None =>
      match booted stall t with
      | Some (at_, Ok _) => let '(after, r) := prove env t in Some (at_ + after, r)
      | ended => ended
      end
  end.

(** An attempt under the deadline of its stage. *)
Definition within (deadline : option Z) (run : option (Z * comp AetherError unit)) : option (comp AetherError unit) :=
  match deadline with
  | None => snd <$> run
  | Some limit =>
      let silent := Err (EOther (lit "no answer in " ++ decimal limit ++ lit "s")) in
      match run with
      | Some (at_, r) => Some (if at_ <=? 1000 * limit then r else silent)
      | None => Some silent
      end
  end.

(** ** Stages *)

(** An attempt that was made: the name of its directory and its configuration. *)
Abbreviation made_attempt := (option bytes * config)%type.

(** [install_hint], by platform. *)
Inductive platform := Windows | Macos | Unix.

Definition install_hint (os : platform) : bytes :=
  match os with
  | Windows => lit "tor browser ships all of them and aether finds them there on its own; otherwise set AETHER_TOR_PT_DIR to the folder holding lyrebird.exe and snowflake-client.exe"
  | Macos => lit "install one with `brew install lyrebird`, or install tor browser, which ships all of them where aether looks"
  | Unix => lit "install one with `dnf install obfs4` on fedora, `apt install lyrebird snowflake-client` on debian or ubuntu, `pacman -S obfs4proxy` on arch; tor browser ships all of them and aether finds them there on its own"
  end.

Section stages.
Context `{!UnicodeCase}.
Context (os : platform) (env : environment) (files : bytes → option bytes) (readable : bytes → bool) (upstream : option Upstream).

(** The attempts of a stage, what it ends with, and the trials left; with no
    trial left it is still trying. *)
Fixpoint stage (through : option SocketAddr) (plan : trial → option Plan) (slot : option bytes) (attempts : Z)
    (deadline stall : option Z) (tried : Z) (trials : list trial) : list made_attempt * option (comp AetherError unit) * list trial :=
  match trials with
  | [] => ([], None, [])
  | t :: trials =>
      match build_config readable through upstream (plan t) t with
      | Ok c =>
          match within deadline (boot env stall t) with
          | None => ([(slot, c)], None, trials)
          | Some (Ok _) => ([(slot, c)], Some (Ok ()), trials)
          | Some other =>
              if attempts <=? tried + 1 then ([(slot, c)], Some other, trials)
              else let '(cs, r, rest) := stage through plan slot attempts deadline stall (tried + 1) trials in ((slot, c) :: cs, r, rest)
          end
      | Err e => ([], Some (Err e), trials)
      | Panic => ([], Some Panic, trials)
      end
  end.

Definition swap_in (l : list bytes) (i j : nat) : list bytes :=
  match l !! i, l !! j with Some a, Some b => <[j := a]> (<[i := b]> l) | _, _ => l end.

(** [shuffle]: every place from the last to the second is swapped with one not
    after it. *)
Fixpoint shuffle (draw : nat → nat) (place : nat) (l : list bytes) : list bytes :=
  match place with
  | O => l
  | S place' => shuffle draw place' (swap_in l place (draw place mod (S place)))
  end.

Definition shuffled (p : Plan) (t : trial) : Plan :=
  mk_plan (shuffle (draw t) (length (plan_lines p) - 1) (plan_lines p)) (transports p) (missing p) (source p).

(** The waves one after the other, each tried twice: the name of the one that
    got through. *)
Fixpoint try_waves (through : option SocketAddr) (ws : list (bytes * Plan)) (trials : list trial)
    : list made_attempt * option (option bytes) * list trial :=
  match ws with
  | [] => ([], Some None, trials)
  | (name, wave) :: ws =>
      match stage through (λ t, Some (shuffled wave t)) (Some name) 1 (Some (bridge_probe env)) (Some (stall_limit env)) 0 trials with
      | (cs, None, rest) => (cs, None, rest)
      | (cs, Some (Ok _), rest) => (cs, Some (Some name), rest)
      | (cs, Some _, rest) => let '(more, r, rest) := try_waves through ws rest in (cs ++ more, r, rest)
      end
  end.

Definition recall (file : option bytes) : option bytes :=
  text ← file; let name := to_lowercase (trim text) in if is_empty name then None else Some name.

Definition rounds_of (ws : list (bytes * Plan)) : list (bytes * Plan) := flat_map (λ wv, replicate WAVE_TRIES wv) ws.

Record established := mk_established {
  attempted : list made_attempt; outcome_ : option (comp AetherError unit); worked_file : option bytes }.

Definition no_transport : AetherError := EOther (lit "tor is blocked on this network and no pluggable transport is installed, so no bridge can be used; " ++ install_hint os).
Definition no_transport_by_hand : AetherError := EOther (lit "the bridges you gave need a pluggable transport that is not installed; " ++ install_hint os).

(** The plan of the bridges that were fetched. *)
Definition auto_plan (through : option SocketAddr) (fetched : list bytes * bytes) (alive : SocketAddr → bool) (located : list Transport) : Plan :=
  plan_with (keep_reachable fetched.1 (bool_decide (is_Some through) || bool_decide (is_Some upstream)) alive) fetched.2 (manual_transports env)
    (discover_transports located).

Definition over_bridges (through : option SocketAddr) (rounds : Z) (p : Plan) (worked : option bytes) (trials : list trial) : established :=
  if is_empty (plan_lines p) then mk_established [] (Some (Err no_transport)) worked
  else
    let '(cs, r, rest) := try_waves through (rounds_of (waves p (recall worked))) trials in
    match r with
    | None => mk_established cs None worked
    | Some (Some name) => mk_established cs (Some (Ok ())) (Some name)
    | Some None =>
        let '(more, r, _) := stage through (λ _, Some p) (Some (lit "all")) rounds None None 0 rest in
        mk_established (cs ++ more) r worked
    end.

Definition establish (through : option SocketAddr) (rounds : Z) (fetched : list bytes * bytes) (alive : SocketAddr → bool)
    (located : list Transport) (worked : option bytes) (trials : list trial) : established :=
  match bridges env files with
  | Manual ls =>
      let p := plan_with ls (lit "given by hand") (manual_transports env) (discover_transports located) in
      if is_empty (plan_lines p) then mk_established [] (Some (Err no_transport_by_hand)) worked
      else let '(cs, r, _) := stage through (λ _, Some p) None rounds None None 0 trials in mk_established cs r worked
  | policy =>
      let forced := match policy with Auto forced => forced | _ => false end in
      let may_fall_back :=
        match policy, through with Disabled, _ => false | _, Some _ => forced | _, None => true end in
      let '(cs, r, rest) :=
        if forced then ([], Some (Err no_transport), trials)
        else stage through (λ _, None) (Some (lit "direct")) (if may_fall_back then 1 else rounds)
               (if may_fall_back then Some (direct_probe env) else None) None 0 trials in
      match r with
      | None => mk_established cs None worked
      | Some (Ok _) => mk_established cs (Some (Ok ())) worked
      | Some other =>
          if may_fall_back then
            let e := over_bridges through rounds (auto_plan through fetched alive located) worked rest in
            mk_established (cs ++ attempted e) (outcome_ e) (worked_file e)
          else mk_established cs (Some other) worked
      end
  end.

(** ** Lemmas *)

Lemma build_config_ok through plan t c : build_config readable through upstream plan t = Ok c →
  outbound through upstream = Ok (dials c)
  ∧ match plan with
    | None => bridge_configs c = [] ∧ pluggable c = []
    | Some p => bridge_configs c ≠ [] ∧ ∀ l, l ∈ bridge_configs c → l ∈ plan_lines p
    end.
Proof.
  unfold build_config. destruct (dirs_refused t); [done|]. destruct (outbound through upstream) as [d| |]; try done.
  cbn [mbind comp_bind]. destruct plan as [p|]; cbn [andb].
  - rewrite bool_decide_true by done. cbn [andb].
    destruct (is_empty (filter _ _)) eqn:E; [done|]. destruct (config_refused t); [done|]. intros [= <-]. split; [done|].
    cbn [bridge_configs]. split; [by intros F; rewrite F in E|]. intros l I. by apply list_elem_of_filter in I as [_ I].
  - rewrite bool_decide_false by by intros []. cbn [andb]. destruct (config_refused t); [done|]. by intros [= <-].
Qed.

(** What a stage asks of every attempt it makes. *)
Definition attempt_ok (through : option SocketAddr) (allowed : made_attempt → Prop) (a : made_attempt) : Prop :=
  outbound through upstream = Ok (dials a.2) ∧ allowed a.

Lemma stage_spec through plan slot attempts deadline stall tried trials cs r rest (allowed : made_attempt → Prop) :
  (∀ t c, build_config readable through upstream (plan t) t = Ok c → allowed (slot, c)) →
  stage through plan slot attempts deadline stall tried trials = (cs, r, rest) →
  Forall (attempt_ok through allowed) cs
  ∧ (tried < attempts → Z.of_nat (length cs) ≤ attempts - tried)
  ∧ (length rest ≤ length trials)%nat.
Proof.
  intros A. revert tried cs r rest. induction trials as [|t trials IH]; intros tried cs r rest; cbn [stage].
  { intros [= <- <- <-]. split_and!; [constructor|cbn; lia|done]. }
  destruct (build_config readable through upstream (plan t) t) as [c| |] eqn:B.
  2,3: intros [= <- <- <-]; split_and!; [constructor|cbn; lia|cbn; lia].
  assert (attempt_ok through allowed (slot, c)) as K by (split; [by apply build_config_ok in B as [-> _]|by eapply A]).
  destruct (within deadline (boot env stall t)) as [[[]| |]|].
  1,4: intros [= <- <- <-]; split_and!; [by apply Forall_singleton|cbn; lia|cbn; lia].
  1,2: destruct (Z.leb_spec attempts (tried + 1)) as [L|L];
    [intros [= <- <- <-]; split_and!; [by apply Forall_singleton|cbn; lia|cbn; lia]|];
    destruct (stage _ _ _ _ _ _ (tried + 1) trials) as [[cs' r'] rest'] eqn:S; intros [= <- <- <-];
    destruct (IH _ _ _ _ S) as (F & N & R); split_and!; [by apply Forall_cons|cbn [length]; lia|cbn [length]; lia].
Qed.

(** A stage with trials enough, each of which ends, ends; it leaves the others
    to the next stage. *)
Lemma stage_ends through plan slot attempts deadline stall tried trials cs r rest :
  (∀ t, t ∈ trials → within deadline (boot env stall t) ≠ None) → tried < attempts →
  stage through plan slot attempts deadline stall tried trials = (cs, r, rest) →
  (∃ used, trials = used ++ rest) ∧ (attempts - tried ≤ Z.of_nat (length trials) → r ≠ None ∧ Z.of_nat (length trials) - (attempts - tried) ≤ Z.of_nat (length rest)).
Proof.
  revert tried cs r rest. induction trials as [|t trials IH]; intros tried cs r rest E T; cbn [stage].
  { intros [= <- <- <-]. split; [by exists []|cbn; lia]. }
  assert (∀ rest' : list trial, rest' = trials → (∃ used, t :: trials = used ++ rest')) as One by (intros ? ->; by exists [t]).
  destruct (build_config readable through upstream (plan t) t) as [c| |] eqn:B.
  2,3: intros [= <- <- <-]; split; [by apply One|cbn [length]; split; [done|lia]].
  pose proof (E t ltac:(by left)) as Et. destruct (within deadline (boot env stall t)) as [[[]| |]|]; [| | |done].
  1: intros [= <- <- <-]; split; [by apply One|cbn [length]; split; [done|lia]].
  1,2: destruct (Z.leb_spec attempts (tried + 1)) as [L|L];
    [intros [= <- <- <-]; split; [by apply One|cbn [length]; split; [done|lia]]|];
    destruct (stage _ _ _ _ _ _ (tried + 1) trials) as [[cs' r'] rest'] eqn:S; intros [= <- <- <-];
    destruct (IH (tried + 1) _ _ _ (λ t' I, E t' ltac:(by right)) ltac:(lia) S) as [(used & ->) N];
    (split; [by exists (t :: used)|]); cbn [length] in *; intros Hn; destruct N as [N1 N2]; [lia|split; [done|lia]].
Qed.

Lemma swap_in_perm l i j : swap_in l i j ≡ₚ l.
Proof.
  unfold swap_in. destruct (l !! i) as [a|] eqn:Li; [|done]. destruct (l !! j) as [b|] eqn:Lj; [|done].
  apply Permutation_inj. rewrite !length_insert. split; [done|].
  pose proof (lookup_lt_Some _ _ _ Li). pose proof (lookup_lt_Some _ _ _ Lj).
  exists (λ k, if decide (k = i) then j else if decide (k = j) then i else k). split.
  - intros x y. repeat case_decide; congruence.
  - intros k. destruct (decide (k = j)) as [->|Nj].
    { rewrite list_lookup_insert_eq by (rewrite length_insert; lia). case_decide; subst; congruence. }
    rewrite list_lookup_insert_ne by done. destruct (decide (k = i)) as [->|Ni].
    { by rewrite list_lookup_insert_eq by lia. }
    by rewrite list_lookup_insert_ne by done.
Qed.

Lemma shuffle_lines_perm d n l : shuffle d n l ≡ₚ l.
Proof. revert l. induction n as [|n IH]; intros l; [done|]. cbn [shuffle]. by rewrite IH, swap_in_perm. Qed.

Lemma keep_lines_sub answered alive held ls l : l ∈ keep_lines answered alive held ls → l ∈ ls.
Proof.
  revert held. induction ls as [|x ls IH]; intros held; cbn [keep_lines]; [done|].
  destruct (negb (alive x) && answered (kind_of x)); [intros I; right; by eapply IH|].
  case_bool_decide; [intros I; right; by eapply IH|]. intros [->|I]%elem_of_cons; [by left|right; by eapply IH].
Qed.

Lemma auto_plan_sub through fetched alive located l : l ∈ plan_lines (auto_plan through fetched alive located) → l ∈ fetched.1.
Proof.
  unfold auto_plan, plan_with. destruct (claim_all _ _) as [more claimed]. cbn [plan_lines].
  intros [_ I]%list_elem_of_filter. unfold keep_reachable in I. destruct (_ || _); [done|]. by eapply keep_lines_sub.
Qed.

Lemma waves_lines p first name wv : (name, wv) ∈ waves p first → ∀ l, l ∈ plan_lines wv → l ∈ plan_lines p.
Proof.
  unfold waves. destruct (_ <? 2)%nat; [by intros I%elem_of_nil|]. intros I l Il.
  apply list_elem_of_In, in_map_iff in I as ([k ls] & [= <- <-] & I). cbn [plan_lines snd] in Il.
  apply list_elem_of_In in I. rewrite sort_by_key_perm, grouped_elem in I. destruct I as [-> _].
  apply list_elem_of_In, filter_In in Il as [Il _]. by apply list_elem_of_In.
Qed.

(** An attempt over bridges, all of them among [ls]. *)
Definition over (ls : list bytes) (a : made_attempt) : Prop :=
  bridge_configs a.2 ≠ [] ∧ ∀ l, l ∈ bridge_configs a.2 → l ∈ ls.

Lemma over_plan through p slot t c : build_config readable through upstream (Some p) t = Ok c → over (plan_lines p) (slot, c).
Proof. by intros [_ ?]%build_config_ok. Qed.

Lemma try_waves_spec through (ls : list bytes) ws trials cs r rest :
  (∀ name wv, (name, wv) ∈ ws → ∀ l, l ∈ plan_lines wv → l ∈ ls) →
  try_waves through ws trials = (cs, r, rest) →
  Forall (attempt_ok through (over ls)) cs ∧ (length cs ≤ length ws)%nat
  ∧ (length ws ≤ length trials → r ≠ None ∧ length trials ≤ length rest + length ws)%nat
  ∧ (∃ used, trials = used ++ rest) ∧ ∀ name, r = Some (Some name) → name ∈ ws.*1.
Proof.
  intros A. revert trials cs r rest. induction ws as [|[name wv] ws IH]; intros trials cs r rest; cbn [try_waves].
  { intros [= <- <- <-]. split_and!; [constructor|done|intros _; split; [done|lia]|by exists []|done]. }
  destruct (stage _ _ _ _ _ _ _ _) as [[cs1 r1] rest1] eqn:S.
  assert (∀ t c, build_config readable through upstream (Some (shuffled wv t)) t = Ok c → over ls (Some name, c)) as O.
  { intros t c B. destruct (over_plan _ _ (Some name) _ _ B) as [X Y]. split; [exact X|].
    intros l I. apply (A name wv); [by left|]. apply Y in I. cbn [plan_lines shuffled] in I. by rewrite shuffle_lines_perm in I. }
  assert (∀ t, t ∈ trials → within (Some (bridge_probe env)) (boot env (Some (stall_limit env)) t) ≠ None) as W.
  { intros t _. unfold within. by destruct (boot _ _ t) as [[]|]. }
  destruct (stage_spec _ _ _ _ _ _ _ _ _ _ _ (over ls) O S) as (F1 & N1 & _).
  destruct (stage_ends _ _ _ _ _ _ _ _ _ _ _ W Z.lt_0_1 S) as [(used1 & ->) E1].
  specialize (N1 Z.lt_0_1). specialize (IH (λ n v I, A n v ltac:(by right)) rest1).
  destruct r1 as [[[]| |]|].
  1: intros [= <- <- <-]; split_and!; [done|cbn; lia|cbn [length]; intros L; split; [done|]; destruct E1; lia|by exists used1|].
  1: intros n [= <-]; by left.
  3: intros [= <- <- <-]; split_and!; [done|cbn; lia|cbn [length]; intros L; by destruct E1; [lia|]|by exists used1|done].
  all: destruct (try_waves through ws rest1) as [[more r2] rest2] eqn:T; intros [= <- <- <-];
    destruct (IH _ _ _ eq_refl) as (F2 & N2 & E2 & (used2 & ->) & L2); split_and!;
    [by apply Forall_app|rewrite length_app; cbn; lia| |exists (used1 ++ used2); by rewrite (assoc_L app)|intros n [= ->]; right; by apply L2].
  all: cbn [length]; intros L; destruct E1 as [_ E1]; [lia|]; destruct E2; [lia|]; split; [done|lia].
Qed.

Lemma rounds_of_elem ws x : x ∈ rounds_of ws → x ∈ ws.
Proof.
  unfold rounds_of. intros I. apply list_elem_of_In, in_flat_map in I as (y & I & J).
  apply list_elem_of_In, elem_of_replicate in J as [-> _]. by apply list_elem_of_In.
Qed.

Lemma rounds_of_length ws : length (rounds_of ws) = (WAVE_TRIES * length ws)%nat.
Proof. induction ws as [|x ws IH]; [done|]. unfold rounds_of. cbn [flat_map]. rewrite length_app, length_replicate. fold (rounds_of ws). rewrite IH. cbn [length]. lia. Qed.

(** The kinds of bridges of a plan. *)
Definition kinds (p : Plan) : nat := length (grouped (plan_lines p)).

Lemma waves_length p first : (length (waves p first) ≤ kinds p)%nat.
Proof.
  unfold waves, kinds. destruct (_ <? 2)%nat; [cbn; lia|]. rewrite length_map, sort_by_key_perm. done.
Qed.

(** Every trial ends when nothing but its own bootstrap ends it. *)
Definition ends (t : trial) : Prop := within None (boot env None t) ≠ None.

Lemma over_bridges_spec through rounds p worked trials :
  1 ≤ rounds →
  let e := over_bridges through rounds p worked trials in
  Forall (attempt_ok through (over (plan_lines p))) (attempted e)
  ∧ Z.of_nat (length (attempted e)) ≤ Z.of_nat (WAVE_TRIES * kinds p) + rounds
  ∧ (Forall ends trials → Z.of_nat (WAVE_TRIES * kinds p) + rounds ≤ Z.of_nat (length trials) → outcome_ e ≠ None).
Proof.
  intros R. assert (0 < rounds) as R0 by lia. unfold over_bridges. destruct (is_empty (plan_lines p)) eqn:Ep; [split_and!; [constructor|cbn; lia|done]|].
  destruct (try_waves _ _ trials) as [[cs r] rest] eqn:T. pose proof (waves_length p (recall worked)) as WL.
  destruct (try_waves_spec through (plan_lines p) _ _ _ _ _ (λ n v I, waves_lines _ _ n v (rounds_of_elem _ _ I)) T)
    as (F & N & E & (used & ->) & _).
  rewrite rounds_of_length in N, E. unfold WAVE_TRIES in *.
  destruct r as [[name|]|]; cbn [attempted outcome_].
  - split_and!; [done|lia|done].
  - destruct (stage _ _ _ _ _ _ _ rest) as [[more r'] rest'] eqn:S.
    destruct (stage_spec _ _ _ _ _ _ _ _ _ _ _ (over (plan_lines p)) (λ t c, over_plan through p _ t c) S) as (F' & N' & _).
    cbn [attempted outcome_]. split_and!; [by apply Forall_app|rewrite length_app; specialize (N' ltac:(lia)); lia|].
    intros En L. rewrite length_app in E, L. apply Forall_app in En as [_ En]. rewrite Forall_forall in En.
    destruct (stage_ends _ _ _ _ _ _ _ _ _ _ _ En R0 S) as [_ X]. apply X. destruct E; lia.
  - split_and!; [done|lia|]. intros _ L. destruct E; [lia|done].
Qed.

Lemma plan_with_sub ls src extra found l : l ∈ plan_lines (plan_with ls src extra found) → l ∈ ls.
Proof.
  unfold plan_with. destruct (claim_all _ _). cbn [plan_lines]. by intros [_ ?]%list_elem_of_filter.
Qed.

(** An attempt without bridges, in which nothing but Tor itself dials. *)
Definition without_bridges (a : made_attempt) : Prop := bridge_configs a.2 = [] ∧ pluggable a.2 = [].

(** What the settings allow of an attempt. *)
Definition allowed (through : option SocketAddr) (fetched : list bytes) (a : made_attempt) : Prop :=
  match bridges env files with
  | Disabled => without_bridges a
  | Manual ls => over ls a
  | Auto true => over fetched a
  | Auto false => without_bridges a ∨ through = None ∧ over fetched a
  end.

Lemma ok_impl through (P Q : made_attempt → Prop) cs : (∀ a, P a → Q a) → Forall (attempt_ok through P) cs → Forall (attempt_ok through Q) cs.
Proof. intros PQ F. eapply Forall_impl; [exact F|]. intros a [? ?]. split; auto. Qed.

Lemma over_impl ls ls' a : (∀ l, l ∈ ls → l ∈ ls') → over ls a → over ls' a.
Proof. intros L [? ?]. split; auto. Qed.

(** Where bridges may follow an attempt without. *)
Definition falls_back (through : option SocketAddr) : bool :=
  match bridges env files, through with
  | Auto forced, Some _ => forced
  | Auto _, None => true
  | _, _ => false
  end.

(** The attempts that no trial can exceed. *)
Definition most_attempts (through : option SocketAddr) (rounds : Z) (fetched : list bytes * bytes) (alive : SocketAddr → bool)
    (located : list Transport) : Z :=
  1 + Z.of_nat (WAVE_TRIES * kinds (auto_plan through fetched alive located)) + rounds.

Lemma direct_stage through attempts deadline trials cs r rest : 1 ≤ attempts →
  stage through (λ _, None) (Some (lit "direct")) attempts deadline None 0 trials = (cs, r, rest) →
  Forall (attempt_ok through without_bridges) cs ∧ Z.of_nat (length cs) ≤ attempts
  ∧ (Forall ends trials → Forall ends rest ∧ (attempts ≤ Z.of_nat (length trials) → r ≠ None
       ∧ Z.of_nat (length trials) - attempts ≤ Z.of_nat (length rest))).
Proof.
  intros A S. assert (0 < attempts) as A0 by lia.
  assert (∀ t c, build_config readable through upstream None t = Ok c → without_bridges (Some (lit "direct"), c)) as Dc
    by by intros t c [_ ?]%build_config_ok.
  destruct (stage_spec _ _ _ _ _ _ _ _ _ _ _ without_bridges Dc S) as (F & N & _).
  split_and!; [exact F|specialize (N A0); lia|]. intros En. pose proof En as En'. rewrite Forall_forall in En'.
  assert (∀ t, t ∈ trials → within deadline (boot env None t) ≠ None) as W.
  { intros t I. apply En' in I. unfold ends, within in *. destruct deadline; [by destruct (boot env None t) as [[]|]|done]. }
  destruct (stage_ends _ _ _ _ _ _ _ _ _ _ _ W A0 S) as [(used & ->) X]. split; [by apply Forall_app in En as [_ ?]|].
  intros L. destruct X; [lia|]. split; [done|lia].
Qed.

Lemma fetched_stage through rounds fetched alive located worked rest : 1 ≤ rounds →
  let p := auto_plan through fetched alive located in
  let e := over_bridges through rounds p worked rest in
  Forall (attempt_ok through (over fetched.1)) (attempted e)
  ∧ Z.of_nat (length (attempted e)) ≤ Z.of_nat (WAVE_TRIES * kinds p) + rounds
  ∧ (Forall ends rest → Z.of_nat (WAVE_TRIES * kinds p) + rounds ≤ Z.of_nat (length rest) → outcome_ e ≠ None).
Proof.
  intros R p. destruct (over_bridges_spec through rounds p worked rest R) as (F & ? & ?). split_and!; [|done|done].
  eapply ok_impl; [|exact F]. intros a. apply over_impl. intros l. apply auto_plan_sub.
Qed.

(** The two parts of the attempts when no bridge is given by hand. *)
Definition parts (through : option SocketAddr) (rounds : Z) (fetched : list bytes * bytes) (alive : SocketAddr → bool)
    (located : list Transport) (trials : list trial) (e : established) : Prop :=
  ∃ cs more, attempted e = cs ++ more
  ∧ Forall (attempt_ok through without_bridges) cs ∧ Forall (attempt_ok through (over fetched.1)) more
  ∧ (bridges env files = Auto true → cs = [])
  ∧ (falls_back through = false → more = []) ∧ (falls_back through = true → length cs ≤ 1)%nat
  ∧ Z.of_nat (length (cs ++ more)) ≤ most_attempts through rounds fetched alive located
  ∧ (Forall ends trials → most_attempts through rounds fetched alive located ≤ Z.of_nat (length trials) → outcome_ e ≠ None).

(** The attempts without bridges alone. *)
Lemma parts_direct through rounds fetched alive located trials cs r worked : 1 ≤ rounds →
  bridges env files ≠ Auto true → Forall (attempt_ok through without_bridges) cs →
  (falls_back through = true → length cs ≤ 1)%nat → Z.of_nat (length cs) ≤ rounds →
  (Forall ends trials → rounds ≤ Z.of_nat (length trials) → r ≠ None) →
  parts through rounds fetched alive located trials (mk_established cs r worked).
Proof.
  intros R B F L N E. exists cs, []. unfold most_attempts. rewrite (right_id_L [] app).
  split_and!; try done; [lia|]. intros En M. apply E; [done|lia].
Qed.

(** The attempts without bridges and then those with them. *)
Lemma parts_over through rounds fetched alive located trials cs rest worked : 1 ≤ rounds →
  falls_back through = true → (bridges env files = Auto true → cs = []) →
  Forall (attempt_ok through without_bridges) cs → (length cs ≤ 1)%nat →
  (Forall ends trials → Forall ends rest ∧ (1 ≤ length trials → length trials - 1 ≤ length rest)%nat) →
  let e := over_bridges through rounds (auto_plan through fetched alive located) worked rest in
  parts through rounds fetched alive located trials (mk_established (cs ++ attempted e) (outcome_ e) (worked_file e)).
Proof.
  intros R FB B F L E. cbn zeta. destruct (fetched_stage through rounds fetched alive located worked rest R) as (F' & N & O).
  eexists cs, _. split; [reflexivity|]. unfold most_attempts. rewrite length_app.
  split_and!; try done; [by rewrite FB|lia|]. intros En M. destruct (E En) as [Er Ln]. apply O; [done|]. lia.
Qed.

Lemma parts_stage through rounds fetched alive located worked trials cs r rest : 1 ≤ rounds →
  bridges env files ≠ Auto true → falls_back through = false →
  stage through (λ _, None) (Some (lit "direct")) rounds None None 0 trials = (cs, r, rest) →
  parts through rounds fetched alive located trials
    (match r with
     | None => mk_established cs None worked
     | Some (Ok _) => mk_established cs (Some (Ok ())) worked
     | Some other => mk_established cs (Some other) worked
     end).
Proof.
  intros R B FB S. destruct (direct_stage _ _ _ _ _ _ _ R S) as (F & N & E).
  assert (∀ r', (r = None ↔ r' = None) → parts through rounds fetched alive located trials (mk_established cs r' worked)) as P.
  { intros r' Hr. apply parts_direct; try done; [by rewrite FB|]. intros En L. destruct (E En) as [_ X].
    destruct X as [X _]; [lia|]. by rewrite <- Hr. }
  destruct r as [[]|]; by apply P.
Qed.

Lemma establish_parts through rounds fetched alive located worked trials :
  1 ≤ rounds → (∀ ls, bridges env files ≠ Manual ls) →
  parts through rounds fetched alive located trials (establish through rounds fetched alive located worked trials).
Proof.
  intros R M. unfold establish.
  assert (falls_back through = match bridges env files with Auto forced => match through with Some _ => forced | None => true end | _ => false end)
    as FB by (unfold falls_back; by destruct (bridges env files), through).
  destruct (bridges env files) as [|ls|[]] eqn:B; [|by destruct (M ls)| |].
  - destruct (stage _ _ _ _ _ _ _ _) as [[cs r] rest] eqn:S. eapply parts_stage; [done|by rewrite B|exact FB|exact S].
  - assert (match through with Some _ => true | None => true end = true) as -> by by destruct through.
    apply (parts_over _ _ _ _ _ trials []); try done; [by rewrite FB; destruct through|cbn; lia|]. intros En. split; [done|lia].
  - destruct through as [q|].
    { destruct (stage _ _ _ _ _ _ _ _) as [[cs r] rest] eqn:S. eapply parts_stage; [done|by rewrite B|exact FB|exact S]. }
    destruct (stage _ _ _ _ _ _ _ _) as [[cs r] rest] eqn:S. destruct (direct_stage _ _ _ _ _ _ _ (Z.le_refl 1) S) as (F & N & E).
    assert (∀ r', r' ≠ None ∨ r = None → parts None rounds fetched alive located trials (mk_established cs r' worked)) as P.
    { intros r' Hr. apply parts_direct; try done; [by rewrite B|lia|lia|]. intros En L. destruct (E En) as [_ X].
      destruct X as [X _]; [lia|]. by destruct Hr. }
    destruct r as [[]|]; [by apply P; left| | |by apply P; right].
    all: apply parts_over; try done; [by rewrite B|lia|]; intros En; destruct (E En) as [Er X]; (split; [done|]); intros L; destruct X; lia.
Qed.

(** The attempts over bridges given by hand. *)
Lemma establish_manual through rounds fetched alive located worked trials ls :
  1 ≤ rounds → bridges env files = Manual ls →
  let e := establish through rounds fetched alive located worked trials in
  Forall (attempt_ok through (over ls)) (attempted e) ∧ Z.of_nat (length (attempted e)) ≤ rounds
  ∧ (Forall ends trials → rounds ≤ Z.of_nat (length trials) → outcome_ e ≠ None).
Proof.
  intros R B. unfold establish. rewrite B. set (p := plan_with ls _ _ _). assert (0 < rounds) as R0 by lia.
  destruct (is_empty (plan_lines p)); [split_and!; [constructor|cbn; lia|done]|].
  destruct (stage _ _ _ _ _ _ _ _) as [[cs r] rest] eqn:S. cbn [attempted outcome_].
  destruct (stage_spec _ _ _ _ _ _ _ _ _ _ _ _ (λ t c, over_plan through p None t c) S) as (F & N & _). split_and!.
  - eapply ok_impl; [|exact F]. intros a. apply over_impl. intros l. apply plan_with_sub.
  - specialize (N R0). lia.
  - intros En L. rewrite Forall_forall in En. destruct (stage_ends _ _ _ _ _ _ _ _ _ _ _ En R0 S) as [_ X]. apply X. lia.
Qed.

(** ** Theorems *)

(** The attempt without bridges that comes before those over fetched ones. *)
Definition direct_first (trials : list trial) (through : option SocketAddr) (direct later : list made_attempt) : Prop :=
  match trials with
  | [] => direct = [] ∧ later = []
  | t :: _ =>
      match build_config readable through upstream None t with
      | Ok c => direct = [(Some (lit "direct"), c)] ∧
          (later ≠ [] → ∃ e, within (Some (direct_probe env)) (boot env None t) = Some (Err e))
      | _ => direct = []
      end
  end.

Lemma within_boot_fails deadline stall t : within deadline (boot env stall t) ≠ Some Panic.
Proof.
  assert (∀ x, boot env stall t = Some x → x.2 ≠ Panic) as B.
  { unfold boot, booted, prove, ended. intros x. destruct (client_refused t); [by intros [= <-]|].
    destruct (proof_target env) as [host port]. destruct stall as [limit|].
    - destruct (stall_at _ _ _) as [check quiet]. destruct (bootstrap t) as [[at_ [e|]]|]; [..|by intros [= <-]];
        (destruct (_ || _); [|by intros [= <-]]); [by intros [= <-]|].
      destruct (connection t) as [[after [e|]]|]; [destruct (_ <=? _)..|]; by intros [= <-].
    - destruct (bootstrap t) as [[at_ [e|]]|]; cbn; [by intros [= <-]| |done].
      destruct (connection t) as [[after [e|]]|]; [destruct (_ <=? _)..|]; by intros [= <-]. }
  unfold within. destruct deadline; destruct (boot env stall t) as [[at_ r]|]; try done; specialize (B _ eq_refl); cbn in *.
  - destruct (_ <=? _); [|done]. by intros [= ->].
  - by intros [= ->].
Qed.

Lemma establish_direct rounds fetched alive located worked trials : 1 ≤ rounds → bridges env files = Auto false →
  ∃ direct later, attempted (establish None rounds fetched alive located worked trials) = direct ++ later ∧
    Forall (attempt_ok None (over fetched.1)) later ∧ direct_first trials None direct later.
Proof.
  intros R B. unfold establish, direct_first. rewrite B. destruct trials as [|t trials]; [by exists [], []|]. cbn [stage].
  assert (∀ rest, Forall (attempt_ok None (over fetched.1))
    (attempted (over_bridges None rounds (auto_plan None fetched alive located) worked rest))) as F.
  { intros rest. by destruct (fetched_stage None rounds fetched alive located worked rest R) as (F & _). }
  destruct (build_config readable None upstream None t) as [c|e|].
  - pose proof (within_boot_fails (Some (direct_probe env)) None t) as Np.
    destruct (within (Some (direct_probe env)) (boot env None t)) as [[[]|e|]|].
    + exists [(Some (lit "direct"), c)], []. by split_and!.
    + eexists [(Some (lit "direct"), c)], _. split_and!; [reflexivity|apply F|done|by eexists].
    + done.
    + exists [(Some (lit "direct"), c)], []. by split_and!.
  - eexists [], _. split_and!; [reflexivity|apply F|done].
  - eexists [], _. split_and!; [reflexivity|apply F|done].
Qed.


(** C40. Bringing Tor up ends: when no attempt hangs for ever, it is up or has
    failed for good after at most one attempt without bridges, two for each
    kind of bridges and the rounds it was given, and it makes no more than
    these. *)
Theorem tor_attempts_end through rounds fetched alive located worked trials :
  1 ≤ rounds →
  let e := establish through rounds fetched alive located worked trials in
  let most := most_attempts through rounds fetched alive located in
  Z.of_nat (length (attempted e)) ≤ most
  ∧ (Forall ends trials → most ≤ Z.of_nat (length trials) → outcome_ e ≠ None).
Proof.
  intros R. cbn zeta. destruct (bridges env files) as [|ls|forced] eqn:B.
  2: { destruct (establish_manual through rounds fetched alive located worked trials ls R B) as (_ & N & E).
    unfold most_attempts. split; [lia|]. intros En L. apply E; [done|lia]. }
  all: destruct (establish_parts through rounds fetched alive located worked trials R ltac:(by rewrite B))
    as (cs & more & -> & _ & _ & _ & _ & _ & N & E); done.
Qed.
End stages.

(** ** The watch over headway *)

(** The whole second at which the last headway was noted by the time of a
    check, and the seconds without any since. *)
Definition noted (seen : Z) (headway : list Z) (check : Z) : Z :=
  foldl (λ s h, if h <=? 1000 * check then h / 1000 else s) seen headway.
Definition quiet_at (headway : list Z) (check : Z) : Z := check - noted 0 headway check.

Lemma noted_later seen headway check : Forall (λ h, 1000 * check < h) headway → noted seen headway check = seen.
Proof.
  unfold noted. intros F. induction F as [|h hs Hh F IH]; [done|]. cbn [foldl].
  rewrite (proj2 (Z.leb_gt h (1000 * check))) by lia. done.
Qed.

Definition first_check (limit seen : Z) : Z := Z.max 1 ((seen + limit + (STALL_CHECK - 1)) / STALL_CHECK).

Lemma first_check_bounds limit seen j : 1 ≤ j → (j < first_check limit seen ↔ 5 * j < seen + limit).
Proof. unfold first_check, STALL_CHECK. intros J. pose proof (Z.div_mod (seen + limit + (5 - 1)) 5 ltac:(lia)).
  pose proof (Z.mod_pos_bound (seen + limit + (5 - 1)) 5 ltac:(lia)). lia. Qed.

Lemma stall_first limit headway seen : StronglySorted Z.le headway → Forall (λ h, 1000 * seen ≤ h) headway →
  ∃ k, stall_at limit seen headway = (1000 * (5 * k), 5 * k - noted seen headway (5 * k))
  ∧ first_check limit seen ≤ k ∧ limit ≤ 5 * k - noted seen headway (5 * k)
  ∧ ∀ j, 1 ≤ j < k → 5 * j - noted seen headway (5 * j) < limit.
Proof.
  intros S. revert seen. induction S as [|h hs S IH F]; intros seen L; cbn [stall_at]; fold (first_check limit seen);
    set (k0 := first_check limit seen); change STALL_CHECK with 5;
    pose proof (first_check_bounds limit seen) as FB; fold k0 in FB; assert (1 ≤ k0) as K0 by (unfold k0, first_check; lia);
    pose proof (FB k0 K0) as FK; assert (∀ j, 1 ≤ j < k0 → 5 * j < seen + limit) as FJ by (intros j ?; apply FB; lia); clear FB.
  { exists k0. unfold noted. cbn [foldl]. split_and!; [done|done|lia|]. intros j J. specialize (FJ j J). lia. }
  rewrite Forall_cons in L. destruct L as [Lh L].
  assert (∀ c, 1000 * c < h → noted seen (h :: hs) c = seen) as Before.
  { intros c Hc. apply noted_later. constructor; [done|]. eapply Forall_impl; [exact F|]. cbn. lia. }
  destruct (Z.leb_spec h (1000 * (5 * k0))) as [Hh|Hh].
  - pose proof (Z.div_mod h 1000 ltac:(lia)). pose proof (Z.mod_pos_bound h 1000 ltac:(lia)).
    destruct (IH (h / 1000)) as (k & -> & Kk & Q & J); [eapply Forall_impl; [exact F|]; cbn; lia|].
    assert (k0 ≤ first_check limit (h / 1000)) as Mono.
    { unfold k0, first_check. apply Z.max_le_compat_l. apply Z.div_le_mono; [unfold STALL_CHECK; lia|lia]. }
    assert (∀ c, h ≤ 1000 * c → noted seen (h :: hs) c = noted (h / 1000) hs c) as After.
    { intros c Hc. unfold noted. cbn [foldl]. by rewrite (proj2 (Z.leb_le h (1000 * c))). }
    exists k. rewrite After by lia. split_and!; [done|lia|done|]. intros j Hj.
    destruct (Z.le_gt_cases h (1000 * (5 * j))) as [Hjh|Hjh]; [rewrite After by done; by apply J|].
    rewrite Before by lia. specialize (FJ j ltac:(lia)). lia.
  - exists k0. rewrite Before by lia. split_and!; [done|done|lia|]. intros j Hj. rewrite Before by lia. specialize (FJ j Hj). lia.
Qed.

(** An attempt is dropped for want of headway at the first of the checks, five
    seconds apart, that finds none for as long as the limit, and at no other. *)
Theorem stall_noticed limit headway :
  StronglySorted Z.le headway → Forall (λ h, 0 ≤ h) headway →
  ∃ k, 1 ≤ k ∧ stall_at limit 0 headway = (1000 * (STALL_CHECK * k), quiet_at headway (STALL_CHECK * k))
  ∧ limit ≤ quiet_at headway (STALL_CHECK * k)
  ∧ ∀ j, 1 ≤ j < k → quiet_at headway (STALL_CHECK * j) < limit.
Proof.
  intros S F. destruct (stall_first limit headway 0 S) as (k & E & K & Q & J); [by eapply Forall_impl; [exact F|]; cbn; lia|].
  exists k. split_and!; [unfold first_check in K; lia|exact E|exact Q|exact J].
Qed.

(** ** Bridges on the command line *)

(** A line that is a bridge of its own: ASCII, with nothing to trim, no line
    end, no semicolon and no NUL. *)
Definition bridge_text (l : bytes) : Prop :=
  l ≠ [] ∧ forallb graphic (take 1 l) = true ∧ forallb graphic (take 1 (reverse l)) = true
  ∧ forallb is_ascii l = true ∧ forallb (λ c, negb ((c =? 10) || (c =? 59))) l = true ∧ 0 ∉ l.

Definition bridge_options (ls : list bytes) : list bytes := flat_map (λ l, [lit "--tor-bridge"; l]) ls.

Definition bridge_given (l : bytes) : given := mk_given (lit "--tor-bridge") (Append "AETHER_TOR_BRIDGES") l.

Lemma bridge_option : option_of (lit "--tor-bridge") = Some (Append "AETHER_TOR_BRIDGES").
Proof. vm_compute. reflexivity. Qed.

Lemma bridge_options_read ls : read_words (bridge_options ls) = (map bridge_given ls, AtEnd).
Proof.
  replace (bridge_options ls) with (concat (map words_of (map bridge_given ls)) ++ []).
  - rewrite read_given; [cbn [read_words fst snd]; by rewrite (right_id_L [] app)|]. apply Forall_forall. intros g I.
    apply list_elem_of_In, in_map_iff in I as (l & <- & _). split_and!; [exact bridge_option|done|done].
  - rewrite (right_id_L [] app). induction ls as [|l ls IH]; [done|]. cbn [map concat bridge_options flat_map]. by rewrite IH.
Qed.

(** Text that trimming keeps whole. *)
Definition solid (s : bytes) : Prop := s ≠ [] ∧ forallb graphic (take 1 s) = true ∧ forallb graphic (take 1 (reverse s)) = true.

Lemma solid_trim s : solid s → trim s = s.
Proof. intros (_ & ? & ?). by apply trim_graphic_ends. Qed.

Lemma take_one_app (a b : bytes) : a ≠ [] → take 1 (a ++ b) = take 1 a.
Proof. by destruct a. Qed.

Lemma solid_app a b : solid a → solid b → solid (a ++ lit ";" ++ b).
Proof.
  intros (Na & Ha & _) (Nb & _ & Hb). split_and!.
  - by destruct a.
  - by rewrite take_one_app.
  - rewrite !reverse_app, <- (assoc_L app), take_one_app; [done|]. intros E.
    apply (f_equal reverse) in E. rewrite reverse_involutive in E. by destruct b.
Qed.

Lemma join_cons_app (sep s l : bytes) ls : join sep ((s ++ sep ++ l) :: ls) = join sep (s :: l :: ls).
Proof. destruct ls as [|l' ls]; cbn [join]; [done|]. by rewrite <- !(assoc_L app). Qed.

Lemma bridges_join ls s : solid s → Forall bridge_text ls →
  made (map bridge_given ls) (lit "AETHER_TOR_BRIDGES") (Some s) = Some (join (lit ";") (s :: ls)) ∧ solid (join (lit ";") (s :: ls)).
Proof.
  intros S F. revert s S. induction F as [|l ls (? & ? & ? & _) F IH]; intros s S; [done|].
  assert (written (bridge_given l) (lit "AETHER_TOR_BRIDGES") (Some s) = Some (s ++ lit ";" ++ l)) as W.
  { unfold written. cbn [g_act g_value bridge_given]. rewrite bool_decide_true by done. unfold appended.
    rewrite solid_trim by done. destruct S as [? _]. by destruct s. }
  unfold made in *. cbn [map foldl]. rewrite W, <- join_cons_app. apply IH. by apply solid_app.
Qed.

Lemma other_variable ls key v : key ≠ lit "AETHER_TOR_BRIDGES" → made (map bridge_given ls) key v = v.
Proof.
  intros N. unfold made. revert v. induction ls as [|l ls IH]; intros v; [done|]. cbn [map foldl]. rewrite IH.
  unfold written. cbn [g_act bridge_given]. by rewrite bool_decide_false.
Qed.

Lemma split_lines ls : ls ≠ [] → Forall bridge_text ls → split_by (λ c, (c =? 10) || (c =? 59)) (join (lit ";") ls) = ls.
Proof.
  intros N F. induction F as [|l ls (_ & _ & _ & _ & Hl & _) F IH]; [done|]. destruct ls as [|l' ls]; [by apply split_nosep|].
  change (join (lit ";") (l :: l' :: ls)) with (l ++ 59 :: join (lit ";") (l' :: ls)).
  rewrite split_by_app by done. by rewrite IH.
Qed.

Lemma trimmed_lines ls : Forall bridge_text ls → filter (λ line, is_empty line = false) (map trim ls) = ls.
Proof.
  intros F. induction F as [|l ls (N & H1 & H2 & _) F IH]; [done|]. cbn [map]. rewrite solid_trim by done.
  rewrite filter_cons_True by by destruct l. by rewrite IH.
Qed.

(** A list of lines is no word that turns bridges on or off. *)
Definition no_word `{!UnicodeCase} (l : bytes) : Prop :=
  one_of off_words (to_lowercase l) = false ∧ one_of auto_words (to_lowercase l) = false.

Lemma joined_no_word `{!UnicodeCase} l l' ls : Forall (λ l, forallb is_ascii l = true) (l :: l' :: ls) → no_word (join (lit ";") (l :: l' :: ls)).
Proof.
  intros F. assert (forallb is_ascii (join (lit ";") (l :: l' :: ls)) = true) as A by by apply forallb_join.
  assert (59 ∈ to_lowercase (join (lit ";") (l :: l' :: ls))) as I.
  { unfold to_lowercase. rewrite A. unfold to_ascii_lowercase. change (join (lit ";") (l :: l' :: ls)) with (l ++ 59 :: join (lit ";") (l' :: ls)).
    rewrite map_app. apply elem_of_app. right. by left. }
  assert (∀ ws, forallb (λ word, bool_decide (59 ∉ lit word)) ws = true → one_of ws (to_lowercase (join (lit ";") (l :: l' :: ls))) = false) as X.
  { intros ws Hw. unfold one_of. apply bool_decide_eq_false. intros J. apply list_elem_of_In, in_map_iff in J as (word & E & J).
    rewrite forallb_forall in Hw. apply Hw, bool_decide_eq_true in J. by rewrite E in J. }
  split; apply X; vm_compute; reflexivity.
Qed.


(** ** Concrete runs *)

Module TorRuns.
#[local] Instance ascii_only : UnicodeCase := λ s, s.
Definition unset : environment := λ _, None.
Definition no_files : bytes → option bytes := λ _, None.

(** A trial in which Tor comes up after 20 s, one in which it never does. *)
Definition up : trial := mk_trial None None None [1000; 9500] (Some (20000, None)) true (Some (300, None)) (λ _, 0%nat).
Definition refused : trial := mk_trial None None None [1000] (Some (4000, Some (lit "refused"))) true None (λ _, 0%nat).
Definition silent : trial := mk_trial None None None [1000; 30500] None true None (λ _, 0%nat).

Definition obfs : bytes := lit "obfs4 192.0.2.7:443 AB".
Definition plain : bytes := lit "192.0.2.8:9001 CD".
Definition fetched : list bytes * bytes := ([plain; obfs], lit "bridgedb").
Definition lyrebird : list Transport := [mk_transport [lit "obfs4"] (lit "/usr/bin/lyrebird")].
Definition run (trials : list trial) : established :=
  establish Unix unset no_files (λ _, true) None None REVERSE_ATTEMPTS fetched (λ _, true) lyrebird None trials.

(** Directly in vain, then over obfs4 twice and over plain bridges: what worked
    is kept. *)
Example over_bridges_at_last :
  map fst (attempted (run [refused; silent; refused; up])) = map Some [lit "direct"; lit "obfs4"; lit "obfs4"; lit "vanilla"]
  ∧ outcome_ (run [refused; silent; refused; up]) = Some (Ok ())
  ∧ worked_file (run [refused; silent; refused; up]) = Some (lit "vanilla").
Proof. vm_compute. done. Qed.


Lemma tor_attempts_end_witness : outcome_ (run (replicate 8 refused)) ≠ None.
Proof.
  apply (tor_attempts_end Unix unset no_files (λ _, true) None None REVERSE_ATTEMPTS fetched (λ _, true) lyrebird None
    (replicate 8 refused)); [done| |vm_compute; done].
  apply Forall_replicate. by vm_compute.
Defined.

Lemma stall_noticed_witness : ∃ k, stall_at 75 0 [1000; 30500] = (1000 * (STALL_CHECK * k), quiet_at [1000; 30500] (STALL_CHECK * k)).
Proof.
  destruct (stall_noticed 75 [1000; 30500]) as (k & _ & E & _).
  - by_decision.
  - by_decision.
  - by exists k.
Defined.

Example stalled_at : stall_at 75 0 [1000; 30500] = (105000, 75).
Proof. vm_compute. reflexivity. Qed.


(** A file of bridges is used even where bridges are turned off. *)
Example bridge_file_beats_off :
  bridges (vars (parse_args unset (map lit ["--tor-bridge-file"; "b.txt"; "--no-tor-bridges"]%string))) (λ _, Some plain) = Manual [plain].
Proof. vm_compute. reflexivity. Qed.

(** The word off in the environment becomes a bridge of its own beside one that
    is given as an option. *)
Example off_becomes_a_bridge :
  bridges (vars (parse_args (λ key, if str_eqb key (lit "AETHER_TOR_BRIDGES") then Some (lit "off") else None)
    (bridge_options [plain]))) no_files = Manual [lit "off"; plain].
Proof. vm_compute. reflexivity. Qed.
End TorRuns.
